(* ===== verification/_CoqProject ===== *)
-Q . S2P
Prelude.v
Strings.v
Types.v
Rows.v
Db.v
DbRefs.v
DbFacts.v
GraphStore.v
StoreView.v
GraphCore.v
Callers.v
Impact.v
Frontier.v
FindPath.v
TraverseBfs.v
TraverseDfs.v
Cycles.v
TypeHierarchy.v
GodotAudit.v
Definitions.v
Demo.v
StoreProps.v
GraphProps.v
FsModel.v
IndexState.v
IndexStateFacts.v
Publisher.v
PublisherFacts.v
PublishCrash.v
PublishLive.v
IndexProps.v
LruCache.v
PathUtil.v
EditDistance.v
Hierarchy.v
HierarchyFacts.v
ViewerDb.v
HierarchyOverrides.v
Utf8.v
StripComments.v
StripLaws.v
StripProps.v
LeaseKeeper.v
StrOps.v
FileClass.v
ViewerReads.v
Collation.v
DeadCode.v
DeadCodeGraph.v
DeadCodeRules.v
DeadCodeReport.v
DeadCodeProps.v
DaemonLock.v
DaemonLockFacts.v
DaemonLockProps.v
LangDetect.v
ScanRules.v
ScanWalk.v
ScanFacts.v
ScanProps.v
WatchPolicy.v
WatchPolicyProps.v
WatchTree.v
WatchLoop.v
WatchLoopFacts.v
WatchLoopProps.v
SourceFile.v
GitPending.v
GitPendingFacts.v
GitTrees.v
GitPendingProps.v
ImportPaths.v
ImportProps.v
ResolvePass.v
ResolveRuns.v
ResolveSpec.v
ResolvePassProps.v
ResolveIncremental.v
ResolveIncrementalProps.v
RefreshProps.v
