(* ===== verification/Prelude.v ===== *)
(** * CodeGraph: a verification development

    CodeGraph indexes a source tree into an SQLite graph of symbols (nodes),
    relations (edges), files and references, keeps a durable record of the
    state of that index, and answers structural questions about the graph.
    This library models the parts that decide the answers and the durability,
    as executable definitions, and proves what makes them correct.

    ** The parts and how they interact

    The store ([src/crates/codegraph-store]) owns the database. Extraction
    writes nodes, structural edges and unresolved references of a file; the
    resolver turns references into edges and moves their rows to the resolved
    table; a changed file has its nodes deleted (edges and references go with
    them by foreign-key cascade) or its resolution state replaced. The graph
    layer ([src/crates/codegraph-graph]) only reads, through ten methods of
    the store. Beside the database two slot files hold a checksummed index
    state record; a writer holding the index lease publishes the successor
    record into the older slot, and every process classifies the namespace
    from the two slots before it opens the database. The resolver shares an
    LRU cache and a lexical path library ([src/crates/codegraph-resolve]).

    ** The files

    Shared:
    - [Prelude]: the result type of fallible code, [for] loops with [break] and
      [?], the total-correctness predicate [returns] and its tactics, lemmas on
      lists, options and finite maps.
    - [Strings]: the [str] methods the code calls.

    The index database (codegraph-core/src/types.rs,
    codegraph-store/src/{schema,queries}.rs):
    - [Types]: every enum with its wire spelling and every record.
    - [Rows]: what a table row holds and the codecs between rows and values.
    - [Db]: the tables, the identity index of edges, the cascades, and the
      node, edge and file operations; [DbRefs]: the two reference tables and
      the replacement of a file's resolution state.
    - [DbFacts]: the invariant [wf_db] (primary keys, foreign
      keys, edge identities, column ranges), its preservation by every
      operation, and the databases reachable from the empty one as a step
      relation.
    - [StoreView]: [view_of], the abstract graph a database denotes, and the
      instance that discharges the graph layer's interface.

    The graph layer (codegraph-graph/src/graph/mod.rs):
    - [GraphStore]: the interface, as a class of reads, the abstract graph
      [GraphView] and the class [HealthyStore st g]: the reads of [st] answer
      from [g]. Every traversal theorem is proved against this interface.
    - [GraphCore]: subgraphs, traversal options, adjacency and the helpers;
      [Frontier]: the breadth-first queue invariant that [FindPath] and
      [TraverseBfs] share.
    - [Callers] (get_callers, get_callees, get_call_graph), [Impact]
      (get_impact_radius), [FindPath], [TraverseBfs], [TraverseDfs], [Cycles]
      (find_circular_dependencies), [TypeHierarchy] (get_type_hierarchy,
      get_ancestors), [GodotAudit] (the four Godot reports), [Definitions]
      (group_definitions).

    The index state (codegraph-store/src/{index_state,index_state_publisher,
    index_lease,file_identity}.rs, codegraph-core/src/index_paths.rs):
    - [FsModel]: the calls of [std::fs] that are used, on a Unix file system
      with inodes, hard links, unsynchronized data and names, a fault oracle,
      and [crash], the states a power loss may leave.
    - [IndexState]: reading a slot while other processes may interfere,
      validating it, and classifying the namespace; [IndexStateFacts].
    - [Publisher]: the publication, in a state-and-error monad, with every
      checkpoint of its fault injector; [PublisherFacts] is a small Hoare
      logic over it, [PublishCrash] relates each outcome to the disk it
      leaves, [PublishLive] shows that nothing but faults stops it.

    The viewer's reports (codegraph-graph/src/{hierarchy,dead_code,collation}.rs,
    codegraph-store/src/viewer.rs):
    - [Hierarchy]: the two bounded walks over supertypes and subtypes and the
      overrides; [HierarchyFacts] (balls and distances, the levels of a
      breadth-first walk, the subtypes), [HierarchyOverrides].
    - [ViewerDb]: the batched edge reads on the database; [ViewerReads]: the
      aggregate reads, as the class [AggregateReads] with its laws
      [HealthyReads], and on the database, with the proof that a well-formed
      one meets the laws.
    - [Collation]: locale_compare, with the proof that it is a total order;
      whole-identifier mentions.
    - [DeadCode]: the dead-code report, every rule as the source applies it;
      [DeadCodeGraph] (counting, text, folding and ranking; containers), 
      [DeadCodeRules] (the ancestors of many roots at once; what each graph rule
      drops), [DeadCodeReport] (the rows that remain).

    Text and paths: [Utf8] (characters of a byte string), [StripComments] and
    [StripProps] (strip_comments.rs: comments; string contents) with [StripLaws];
    [PathUtil] (pathutil.rs); [StrOps], [FileClass]
    (codegraph-core/src/file_class.rs, scoring.rs).

    The utilities: [LruCache] (lru_cache.rs), [EditDistance] (query/parser.rs,
    the bounded edit distance), [LeaseKeeper] (codegraph-daemon/src/
    lease_keeper.rs, the retry loop of a session's daemon lease).

    The daemon lock (codegraph-daemon/src/lock.rs, with the start in lib.rs):
    - [DaemonLock]: each function as a program, a tree of the calls that read
      or change what processes share; [exec] runs one call, and a
      configuration's steps are the calls of any process in any order, starts
      and deaths.
    - [DaemonLockFacts]: a logic for one process, by how far it has got with
      the record, and the invariant: what processes know and what they share
      agree, and every call keeps it so; [DaemonLockProps]: with a start that is
      left alone, call by call.

    The project scan (codegraph-extract/src/{engine,links}.rs) and the
    watcher (codegraph-watch/src/{policy,watcher}.rs):
    - [LangDetect]: the language of a path; [ScanRules]: patterns, the git
      rules' state, the decision on one entry, and scan_membership; [ScanWalk]:
      the walk, the queue of symlinks, the sorted result.
    - [ScanFacts]: what one walk finds, as a list that the walk then applies,
      and that another order of the entries permutes; [ScanProps]: the queue of
      links runs dry; one path against the whole scan.
    - [WatchPolicy]: what the watcher watches, over the same patterns and git
      rules; [WatchTree]: the directories and links it watches, the effects of
      a removed directory, the scope that a control file changes.
    - [WatchLoop]: the event loop, as a program of the calls it makes (clock,
      channel, disk, OS watcher, syncs, callbacks) with one iteration as
      [event_step]; [WatchLoopFacts]: the total-correctness logic [wp] over the
      log of a program's calls, and each part's contract in it.

    Pending changes (codegraph-watch/src/{git_pending,link_state,sync,
    shopify_themes}.rs, codegraph-core/src/source_file.rs):
    - [SourceFile]: reading one source file, over what each call of the read
      sees; [GitPending]: the disk, the full inventory, git's reports and their
      parsers, the record that a build leaves, the guards and the candidates of
      the fast path, the links an index was built through.
    - [GitPendingFacts]: a scan that meets no link lists the real files that
      the rules admit by name; what inventory and candidates say of each path;
      [GitTrees]: the formats git prints, themes and what may hide their
      markers, the trees of commits, and that a path that is no candidate has
      not changed.

    Import paths (codegraph-resolve/src/{path_aliases,workspace_packages,
    go_packages,import_resolver,context}.rs):
    - [ImportPaths]: loading the aliases of tsconfig files and their [extends]
      chains, the packages of a workspace, the Go modules; which of them an
      import path takes; the candidates that are tried for it. A loader is a
      computation with a trace of what it looked at.

    Resolution passes (codegraph-resolve/src/{resolver,snapshot_context,context}.rs):
    - [ResolvePass]: what a reference and its resolution are, the lookups that
      each context answers (the live store by its queries, a snapshot by the
      maps it built), and the supertypes it gives, the loops over references, the edges, and the
      full and batched passes, as computations on the store with the state
      after each transaction. What chooses a target is the class [Strategies],
      with the laws [StrategiesProper] and [StrategiesLaws].
    - [ResolveRuns]: runs, the insertion of edges as a fold, where a pass
      stands, the references of a phase, contexts that agree; [ResolveSpec]:
      what a pass has done at each point, and that the batches go through it.

    Incremental resolution (codegraph-resolve/src/resolver.rs,
    codegraph-watch/src/{sync,rust_receivers}.rs):
    - [ResolveIncremental]: the lanes of references that a sync takes up again,
      the tail of a name, the incremental pass, the sweep of an interrupted one,
      and the refresh of the references of unchanged dependents. Which files,
      sites, names and receivers a change touches is an argument.

    [Demo] holds a concrete project at which the theorems are instantiated; the files
    named [..Props] hold the theorems that state what each part promises, with
    the other instances (a codec and file system, a second project, a tree on
    disk).

    ** What the theorems show

    - [StoreProps]: codecs of every row type and enum round-trip; every
      database the operations reach is well formed; each writer adds, replaces
      or deletes exactly the rows it should; inserting edges is idempotent; the
      readers refine the abstract graph.
    - [GraphProps]: each traversal returns, and its answer is characterized in
      terms of paths of the abstract graph: shortest paths, nodes within a
      depth bound, reachability up to a cap, cycles found exactly when there
      are some, containment chains that stop on a cycle, the reports' lists.
    - [IndexProps]: a publication is atomic under faults and power loss,
      commits what it reported, refuses what it must without touching the disk,
      and succeeds when undisturbed; classification is total, follows its
      dominance order, and reports Current only for a corroborated record; the
      checksum payload determines the record.
    - [PathUtil], with [LruCache]: normalization keeps the location a path denotes and is
      idempotent, the root guard is exact, relative paths resolve back, and the
      cache is observationally a bounded recency queue.
    - [EditDistance]: the banded distance is the length of a shortest edit
      script up to its bound.
    - [HierarchyOverrides]: the supertypes within eight steps, each once, nearest
      first; the subtypes under a cap whose report is truthful; overrides from
      the nearest declaration.
    - [StripProps]: stripping keeps the layout and everything outside comments,
      never slices inside a character, and agrees with a reference over
      characters.
    - [DeadCodeProps]: every row of the report is dead in the sense of each
      rule, every candidate is accounted for, and nothing dead is left out
      below the limits; the multi-root walk is exact; the mention counter
      agrees with asking every position.
    - [FileClass]: the in-place segment scan is a split of the path.
    - [LeaseKeeper]: the keeper follows its attach, wait and retry protocol with
      capped doubling delays in every environment, and returns soon after it
      is stopped.

    - [DaemonLockProps]: over interleavings of any number of processes, with
      failures and crashes, at most one live process holds the record and only
      it serves, and no call of another removes its socket but the drop of a
      departing daemon's listener, provided a stale record is compared and
      deleted in one step; executions where that is split, and where the listener
      of the last daemon is dropped late, strand a daemon; an empty placeholder left by a crash is never removed;
      a start recovers from a dead daemon.

    - [ScanProps]: the scan ends with one result whatever order directories
      are read in, and lists exactly what scan_membership admits;
      [WatchPolicyProps]: the watcher's rules are the scan's but for a few
      names of its own, so it hears of every file the scan admits.
    - [WatchLoopProps]: the loop's invariant; nothing that is owed is dropped
      before a sync has covered it; what it hears of, what it syncs at a
      deadline, why it ends and what it says then; every iteration ends, and
      the waits on a contended index are bounded.

    - [SourceFile]: a text that was read is whole and within the limit whatever
      happens meanwhile; [GitPendingProps]: the fast path answers as the full
      inventory, behind no link that git does not report; the record it rests
      on is right when a build writes it, and three ways in which the code lets
      the answer be wrong; what is rehashed after a link changed.

    - [ImportProps]: an import path resolves to the first file among an explicit
      list of candidates; it takes the most specific alias and the longest
      package name; the inputs that a loader records determine what it loads;
      the Go modules are those above the Go files, in the order that lets the
      memo of their packages change no answer; a config is read as the JSON it
      stands for.
    - [ResolvePassProps]: over nodes with ASCII names, and where the inheritance
      edges that imports and supertypes add move none of them, the full pass and
      the batched one come to the same index, for any batch size, over the live
      store or a snapshot; a pass that dies loses no reference, and a pass over
      what it left comes to the index it would have come to. Two examples leave
      one of the conditions out and come to another index.
    - [ResolveIncrementalProps]: what a sync takes up is exactly the references
      in its scope, and it does with them what a full pass would, were they the
      only unresolved ones; [RefreshProps]: putting the references of dependents
      back loses none, makes none twice, and leaves those it names unresolved.

    ** Parameters

    Code outside the repository is an argument of the definitions, with a class
    of laws where a theorem relies on it: [SerdeJson] (reading back what
    serde_json wrote: any list of strings; of other values those without a
    float, a repeated key or too deep a nesting), [SqlScan] (a SELECT yields the matching rows, each
    once, in an unspecified order), [SlotCodec] (SHA-256, used only for its
    length, and serde_json for the slot), [FaultInjector] (the injector trait
    of the publisher). [std::path::Path::exists] in the Godot audit is a
    function argument, as are the Unicode case mapping ([UnicodeTables], with the
    law [LowercaseLaws] on ASCII, or a [to_lowercase] argument) and the reader of source files of the dead-code
    report; the keeper runs against an [Environment] that answers each of its
    calls from the history of calls, and the watcher's loop in an environment
    whose answers are arbitrary but for a directory tree, which is a file
    system. The matcher of the git rules (the ignore
    crate) is a function in the rules, and the scan's file system is a map of
    directories and links that does not change during a scan; its theorems ask
    that names hold no separator, as on Unix without backslashes. Git is a function
    from arguments to output; what its reports mean, given the trees of two
    commits and the disk, is the hypothesis [git_sees] of the pending theorems
    (which says nothing of links: that no unreported link leads the scan anywhere
    is a hypothesis of its own), and the formats it prints are [git_prints]. The interference between the file-system calls of a
    slot read is an arbitrary function of the file system. Each class has a
    concrete instance that meets its laws. That the socket library unlinks the path of a
    listener that is dropped is written into the daemon's programs.

    The strategies that choose the target of a reference are code of the
    repository that is not modelled: a class, of which the passes' theorems ask
    that an answer depends on what a context answers ([StrategiesProper]; what they
    read besides, the project's files, does not change during a pass, and the
    memos and shortcuts of a context are theirs), and that it is about the
    reference asked for and what is put off is not resolved ([StrategiesLaws]).
    That the supertypes found on the way move no import and no supertype is a
    hypothesis on the references of a database ([wiring_stable]). The full pass reads its
    references without an order; that it is the order of their ids is a
    hypothesis of its theorem, as of that on the incremental pass. The refresh
    asks the frameworks whether one reads other files, and the extraction of a
    dependent, of functions ([RefreshEnv]); its theorem is about the dependents
    that are read from the store.

    ** Bounds and fuel

    A definition whose recursion is not structural takes fuel and returns
    [OutOfFuel] when it runs out; the theorems conclude [returns ..], so they
    show that the stated fuel is enough. The recursive caller, callee and
    ancestor walks, the path search and the cycle search each insert a new
    element of a finite set before they recurse, so they need fuel above the
    number of nodes (with the files, for cycles); the impact and bounded
    traversals have their own measure next to their theorem. [chunks] uses the
    length of its list, which it shortens at each round. The watcher's walk has
    a round for every directory entry, and its retries one for every two
    milliseconds of their budget, less than any wait. A batched pass has a round
    for every reference, and three more. The publisher's retry
    of a temporary name keeps the source's 64 attempts, and following symbolic
    links the kernel's 40.

    SQLite integers are Z with their 64-bit range in the invariant, file times
    written out as the casts the code does; slot sequence numbers are N with
    the checked addition of u64. [usize] depths and limits are nat: they count
    nodes that are in memory. Strings are byte strings.

    ** What is not modelled

    Full-text search and ranking (floating point and the FTS5 index), the
    resolver's language heuristics and the extraction engine (source text
    through tree-sitter), kernel file locks behind the lease, process ids
    that are given out again, and the process shells around the core (MCP
    server, the daemon's sessions, the watcher's threads, viewer, command line).
    What else is left out of a part is said with it in its file.
 *)
From stdpp Require Export base tactics list gmap sets strings sorting.
From Stdlib Require Export Lia ZArith Ascii.

(** ** Notation scope and hint databases of the development *)

Declare Scope cg_scope.
Delimit Scope cg_scope with cg.

Create HintDb cg discriminated.

(** ** Fallible computations

    A Rust function returning [Result<A, E>] is a [result E A]; the third
    constructor is produced only by a fuel-indexed definition whose fuel ran
    out, so a theorem concluding [Ok] also says the code returns. *)

Inductive result (E A : Type) : Type :=
| Ok (a : A)
| Err (e : E)
| OutOfFuel.
Arguments Ok {E A} a.
Arguments Err {E A} e.
Arguments OutOfFuel {E A}.

#[export] Instance result_ret {E} : MRet (result E) := fun A a => Ok a.
#[export] Instance result_bind {E} : MBind (result E) :=
  fun A B f m => match m with Ok a => f a | Err e => Err e | OutOfFuel => OutOfFuel end.
#[export] Instance result_fmap {E} : FMap (result E) :=
  fun A B f m => match m with Ok a => Ok (f a) | Err e => Err e | OutOfFuel => OutOfFuel end.

(** [map_M f l]: [iter.map(f).collect::<Result<Vec<_>, _>>()]. *)
Fixpoint map_M {E A B} (f : A -> result E B) (l : list A) : result E (list B) :=
  match l with
  | [] => Ok []
  | x :: l => y ← f x; ys ← map_M f l; Ok (y :: ys)
  end.

(** One round of a [for] loop: carry on with the loop state, or [break]. *)
Inductive loop_step (S : Type) : Type :=
| Continue (s : S)
| Break (s : S).
Arguments Continue {S} s.
Arguments Break {S} s.

(** [for x in l { .. }] over a loop state, with [break] and [?]. *)
Fixpoint for_M {E A S} (f : S -> A -> result E (loop_step S)) (s : S) (l : list A)
  : result E S :=
  match l with
  | [] => Ok s
  | x :: l =>
      r ← f s x;
      match r with Continue s' => for_M f s' l | Break s' => Ok s' end
  end.

(** The same loop over a body that cannot fail. *)
Fixpoint for_loop {A S} (f : S -> A -> loop_step S) (s : S) (l : list A) : S :=
  match l with
  | [] => s
  | x :: l => match f s x with Continue s' => for_loop f s' l | Break s' => s' end
  end.

(** [r.unwrap_or_default()]. *)
Definition unwrap_or {E A} (default : A) (m : result E A) : A :=
  match m with Ok a => a | _ => default end.

(** Total correctness: the computation returns [Ok] of a value satisfying [Q]. *)
Definition returns {E A} (m : result E A) (Q : A -> Prop) : Prop :=
  match m with Ok a => Q a | _ => False end.

(** ** Rust standard-library functions shared by the components *)

(** [slice::sort_by] (stable): an element stays before the later elements it
    is not greater than. [le x y] is [cmp(x, y) != Greater]. *)
Fixpoint insert_by {A} (le : A -> A -> bool) (x : A) (l : list A) : list A :=
  match l with
  | [] => [x]
  | y :: l' => if le x y then x :: l else y :: insert_by le x l'
  end.

Fixpoint sort_by {A} (le : A -> A -> bool) (l : list A) : list A :=
  match l with
  | [] => []
  | x :: l => insert_by le x (sort_by le l)
  end.

(** [Vec::dedup]: of equal consecutive elements only the first stays. *)
Fixpoint dedup {A} `{EqDecision A} (l : list A) : list A :=
  match l with
  | [] => []
  | x :: l =>
      match dedup l with
      | [] => [x]
      | y :: l' => if decide (x = y) then x :: l' else x :: y :: l'
      end
  end.

(** [Ord::cmp] on [String] compares bytes; [str_le] is [cmp != Greater]. *)
Definition str_le (a b : string) : bool := String.leb a b.

(** ** Laws of the computations *)

Section ReturnsLaws.
Context {E : Type}.

Lemma returns_ret {A} (a : A) (Q : A -> Prop) : Q a -> returns (E:=E) (Ok a) Q.
Proof. done. Qed.

Lemma returns_bind {A B} (m : result E A) (k : A -> result E B) (Q : B -> Prop) :
  returns m (fun a => returns (k a) Q) -> returns (m ≫= k) Q.
Proof. by destruct m. Qed.

Lemma returns_then {A B} (m : result E A) (k : A -> result E B) (P : A -> Prop) (Q : B -> Prop) :
  returns m P -> (forall a, P a -> returns (k a) Q) -> returns (m ≫= k) Q.
Proof. destruct m; cbn; auto. Qed.

Lemma returns_mono {A} (m : result E A) (P Q : A -> Prop) :
  returns m P -> (forall a, P a -> Q a) -> returns m Q.
Proof. destruct m; cbn; auto. Qed.

Lemma returns_and {A} (m : result E A) (P Q : A -> Prop) :
  returns m P -> returns m Q -> returns m (fun a => P a /\ Q a).
Proof. destruct m; cbn; auto. Qed.

Lemma returns_iff {A} (m : result E A) (Q : A -> Prop) :
  returns m Q <-> exists a, m = Ok a /\ Q a.
Proof.
  destruct m as [a|e|]; cbn; split.
  - intros HQ. by exists a.
  - by intros (b & [= <-] & HQ).
  - done.
  - by intros (b & ? & _).
  - done.
  - by intros (b & ? & _).
Qed.

Lemma returns_of_eq {A} (m : result E A) a (Q : A -> Prop) :
  m = Ok a -> Q a -> returns m Q.
Proof. intros ->. done. Qed.

Lemma returns_Ok_elim {A} (m : result E A) (Q : A -> Prop) a :
  returns m Q -> m = Ok a -> Q a.
Proof. intros H ->. exact H. Qed.

(** The loop rule: [I pre s] holds after the elements [pre], and what a
    [break] leaves satisfies [Q] at once. *)
Lemma returns_for_M {A S} (f : S -> A -> result E (loop_step S))
    (I : list A -> S -> Prop) (Q : S -> Prop) (l : list A) (s : S) :
  I [] s ->
  (forall pre x post s', l = pre ++ x :: post -> I pre s' ->
     returns (f s' x) (fun r => match r with
                                | Continue s'' => I (pre ++ [x]) s''
                                | Break s'' => Q s''
                                end)) ->
  (forall s', I l s' -> Q s') ->
  returns (for_M f s l) Q.
Proof.
  intros H0 Hstep Hend.
  assert (Hgen : forall post pre s', l = pre ++ post -> I pre s' ->
                 returns (for_M f s' post) Q).
  { induction post as [|x post IH]; intros pre s' Hl HI; cbn.
    - apply Hend. by rewrite Hl, app_nil_r.
    - apply returns_bind. eapply returns_mono; [by eapply Hstep|].
      intros [s''|s'']; [|done].
      intros HI'. eapply (IH (pre ++ [x])); [|done].
      by rewrite Hl, <- app_assoc. }
  by apply (Hgen l []).
Qed.

(** The same for a loop that never breaks, with an invariant that does not
    look at the position. *)
Lemma returns_for_M_inv {A S} (f : S -> A -> result E (loop_step S))
    (I : S -> Prop) (l : list A) (s : S) :
  I s ->
  (forall x s', x ∈ l -> I s' ->
     returns (f s' x) (fun r => match r with Continue s'' | Break s'' => I s'' end)) ->
  returns (for_M f s l) I.
Proof.
  intros H0 Hstep.
  eapply (returns_for_M f (fun _ => I)); [done| |done].
  intros pre x post s' -> HI.
  eapply returns_mono; [apply Hstep; [set_solver|done]|]. by intros [].
Qed.

(** The rule of [for_loop]. *)
Lemma for_loop_ind {A S} (f : S -> A -> loop_step S) (I : list A -> S -> Prop) (Q : S -> Prop)
    (l : list A) (s : S) :
  I [] s ->
  (forall pre x post s', l = pre ++ x :: post -> I pre s' ->
     match f s' x with Continue s'' => I (pre ++ [x]) s'' | Break s'' => Q s'' end) ->
  (forall s', I l s' -> Q s') ->
  Q (for_loop f s l).
Proof.
  intros H0 Hstep Hend.
  assert (Hgen : forall post pre s', l = pre ++ post -> I pre s' -> Q (for_loop f s' post)).
  { induction post as [|x post IH]; intros pre s' Hl HI; cbn.
    - apply Hend. by rewrite Hl, app_nil_r.
    - pose proof (Hstep pre x post s' Hl HI) as Hx. destruct (f s' x) as [s''|s'']; [|done].
      apply (IH (pre ++ [x])); [|done]. by rewrite Hl, <- app_assoc. }
  by apply (Hgen l []).
Qed.

(** A [fold_left] by its invariant over the elements done. *)
Lemma fold_left_ind {A S} (f : S -> A -> S) (I : list A -> S -> Prop) (l : list A) (s : S) :
  I [] s ->
  (forall pre x post s', l = pre ++ x :: post -> I pre s' -> I (pre ++ [x]) (f s' x)) ->
  I l (fold_left f l s).
Proof.
  intros H0 Hstep.
  assert (Hgen : forall post pre s', l = pre ++ post -> I pre s' -> I l (fold_left f post s')).
  { induction post as [|x post IH]; intros pre s' Hl HI; cbn.
    - by rewrite app_nil_r in Hl; subst.
    - apply (IH (pre ++ [x])); [by rewrite Hl, <- app_assoc|]. by eapply Hstep. }
  by apply (Hgen l []).
Qed.

Lemma returns_map_M {A B} (f : A -> result E B) (g : A -> B) (l : list A) :
  (forall x, x ∈ l -> f x = Ok (g x)) -> map_M f l = Ok (map g l).
Proof.
  induction l as [|x l IH]; intros H; cbn; [done|].
  rewrite H by set_solver. cbn. rewrite IH by set_solver. done.
Qed.

Lemma map_M_Ok_inv {A B} (f : A -> result E B) (l : list A) (ys : list B) :
  map_M f l = Ok ys -> Forall2 (fun x y => f x = Ok y) l ys.
Proof.
  revert ys; induction l as [|x l IH]; intros ys; cbn.
  - intros [= <-]. constructor.
  - destruct (f x) eqn:Hx; cbn; try done.
    destruct (map_M f l) eqn:Hl; cbn; try done.
    intros [= <-]. constructor; auto.
Qed.

Lemma result_bind_assoc {A B C} (m : result E A) (f : A -> result E B) (k : B -> result E C) :
  (m ≫= f) ≫= k = m ≫= (fun a => f a ≫= k).
Proof. by destruct m. Qed.

End ReturnsLaws.

#[export] Hint Resolve returns_ret : cg.

(** Step through a [do]-block whose next computation is known to return. *)
Ltac returns_step lem :=
  apply returns_bind; eapply returns_mono; [eapply lem|cbv beta].

(** ** Laws of [sort_by] and [dedup] *)

Section SortLaws.
Context {A : Type} (le : A -> A -> bool).

Lemma insert_by_perm x l : insert_by le x l ≡ₚ x :: l.
Proof.
  induction l as [|y l IH]; cbn; [done|].
  destruct (le x y); [done|]. rewrite IH. constructor.
Qed.

Lemma sort_by_perm l : sort_by le l ≡ₚ l.
Proof.
  induction l as [|x l IH]; cbn; [done|]. by rewrite insert_by_perm, IH.
Qed.

Lemma elem_of_sort_by x l : x ∈ sort_by le l <-> x ∈ l.
Proof. by rewrite sort_by_perm. Qed.

Lemma length_sort_by l : length (sort_by le l) = length l.
Proof. by rewrite sort_by_perm. Qed.

Hypothesis le_total : forall x y, le x y = true \/ le y x = true.

Lemma insert_by_HdRel x y l :
  le y x = true -> HdRel (fun a b => le a b = true) y l ->
  HdRel (fun a b => le a b = true) y (insert_by le x l).
Proof.
  intros Hyx Hl. destruct l as [|z l]; cbn; [by constructor|].
  destruct (le x z); constructor; [done|]. by inversion Hl.
Qed.

Lemma sort_by_sorted l : Sorted (fun a b => le a b = true) (sort_by le l).
Proof.
  induction l as [|x l IH]; cbn; [constructor|].
  induction IH as [|y l' Hl' IHl Hhd]; cbn; [repeat constructor|].
  destruct (le x y) eqn:Hxy.
  - repeat (constructor; auto).
  - constructor; [done|]. apply insert_by_HdRel; [|done].
    destruct (le_total x y) as [H|H]; [congruence|done].
Qed.

End SortLaws.

Lemma elem_of_dedup {A} `{EqDecision A} (x : A) (l : list A) : x ∈ dedup l <-> x ∈ l.
Proof.
  induction l as [|y l IH]; cbn; [done|].
  destruct (dedup l) as [|z l'] eqn:Hd.
  - set_solver.
  - case_decide; subst; set_solver.
Qed.

Lemma str_le_total a b : str_le a b = true \/ str_le b a = true.
Proof. apply String.leb_total. Qed.

(** ** Lists, filtered, folded and mapped *)

Lemma filter_all {A} (P : A -> Prop) `{!forall x, Decision (P x)} (l : list A) :
  (forall x, x ∈ l -> P x) -> filter P l = l.
Proof.
  induction l as [|x l IH]; intros Hl; [done|].
  rewrite filter_cons_True by (apply Hl; by left). f_equal. apply IH. intros y Hy. apply Hl. by right.
Qed.

Lemma filter_none {A} (P : A -> Prop) `{!forall x, Decision (P x)} (l : list A) :
  (forall x, x ∈ l -> ~ P x) -> filter P l = [].
Proof.
  induction l as [|x l IH]; intros Hl; [done|].
  rewrite filter_cons_False by (apply Hl; by left). apply IH. intros y Hy. apply Hl. by right.
Qed.

Lemma filter_ext_in {A} (P Q : A -> Prop) `{!forall x, Decision (P x), !forall x, Decision (Q x)} (l : list A) :
  (forall x, x ∈ l -> P x <-> Q x) -> filter P l = filter Q l.
Proof.
  induction l as [|x l IH]; intros Hl; [done|].
  assert (Hx : P x <-> Q x) by (apply Hl; by left).
  rewrite !filter_cons, IH by (intros y Hy; apply Hl; by right).
  destruct (decide (P x)), (decide (Q x)); tauto.
Qed.

Lemma fold_left_ext {A S} (f h : S -> A -> S) l s :
  (forall s x, f s x = h s x) -> fold_left f l s = fold_left h l s.
Proof. intros Hfh. revert s. induction l as [|x l IH]; intros s; cbn; [done|]. by rewrite Hfh. Qed.

Lemma omap_cons {A B} (f : A -> option B) x l : omap f (x :: l) = option_list (f x) ++ omap f l.
Proof. cbn. by destruct (f x). Qed.

(** ** Finite sets as measures *)

(** Removing from a finite universe one element the predicate still held of
    makes the filtered universe smaller. *)
Lemma size_filter_lt `{Countable K} (P Q : K -> Prop)
    `{!forall x, Decision (P x), !forall x, Decision (Q x)} (U : gset K) x :
  x ∈ U -> P x -> ~ Q x -> (forall y, Q y -> P y) ->
  size (filter Q U) < size (filter P U).
Proof.
  intros HU HP HQ Hsub. apply subset_size. split; [set_solver|set_solver].
Qed.

Lemma size_filter_le `{Countable K} (P Q : K -> Prop)
    `{!forall x, Decision (P x), !forall x, Decision (Q x)} (U : gset K) :
  (forall y, Q y -> P y) ->
  size (filter Q U) <= size (filter P U).
Proof. intros Hsub. apply subseteq_size. set_solver. Qed.

(** A duplicate-free list drawn from a finite set is no longer than it. *)
Lemma NoDup_length_le `{Countable K} (l : list K) (U : gset K) :
  NoDup l -> (forall x, x ∈ l -> x ∈ U) -> length l <= size U.
Proof.
  intros Hnd Hsub.
  rewrite <- (size_list_to_set (C:=gset K) l Hnd).
  apply subseteq_size. set_solver.
Qed.

Lemma size_union_le `{Countable K} (X Y : gset K) : size (X ∪ Y) <= size X + size Y.
Proof.
  rewrite size_union_alt. enough (size (Y ∖ X) <= size Y) by lia.
  apply subseteq_size. set_solver.
Qed.

Lemma size_list_to_set_le `{Countable K} (l : list K) :
  size (list_to_set l : gset K) <= length l.
Proof.
  induction l as [|x l IH]; cbn; [by rewrite size_empty|].
  etrans; [apply size_union_le|]. rewrite size_singleton. lia.
Qed.
