(* ===== verification/Strings.v ===== *)
(** * The [str] methods the code uses

    [starts_with], [ends_with], [strip_prefix], [contains] and [replace] of a
    character, [trim_start_matches], as functions on strings, with what they
    say of their argument; and the string orders used as sort keys. *)
From S2P Require Import Prelude.

Fixpoint str_strip_prefix (p s : string) : option string :=
  match p, s with
  | EmptyString, _ => Some s
  | String a p, String b s => if Ascii.eqb a b then str_strip_prefix p s else None
  | String _ _, EmptyString => None
  end.

Definition starts_with (s p : string) : bool :=
  match str_strip_prefix p s with Some _ => true | None => false end.

(** [s.ends_with(p)]: some suffix of [s] is [p]. *)
Fixpoint ends_with (s p : string) : bool :=
  String.eqb s p || match s with EmptyString => false | String _ s => ends_with s p end.

Fixpoint str_contains (c : ascii) (s : string) : bool :=
  match s with EmptyString => false | String a s => Ascii.eqb a c || str_contains c s end.

(** [s.replace(c, "d")] for characters [c] and [d]. *)
Fixpoint str_replace (c d : ascii) (s : string) : string :=
  match s with
  | EmptyString => EmptyString
  | String a s => String (if Ascii.eqb a c then d else a) (str_replace c d s)
  end.

(** [s.trim_start_matches(p)]: [p] is stripped as long as it is a prefix; the
    fuel is the length, as a non-empty [p] shortens the string. *)
Fixpoint trim_start_matches_fuel (fuel : nat) (p s : string) : string :=
  match fuel with
  | 0 => s
  | S fuel => match str_strip_prefix p s with
              | Some s' => trim_start_matches_fuel fuel p s'
              | None => s
              end
  end.
Definition trim_start_matches (p s : string) : string :=
  trim_start_matches_fuel (String.length s) p s.

(** ** Facts *)

Lemma str_strip_prefix_Some p s s' : str_strip_prefix p s = Some s' <-> s = p +:+ s'.
Proof.
  revert s; induction p as [|a p IH]; intros s; cbn.
  - split; [by intros [= ->]|by intros ->].
  - destruct s as [|b s]; [done|]. destruct (Ascii.eqb_spec a b) as [->|Hne].
    + rewrite IH. split; [by intros ->|by intros [= ->]].
    + split; [done|]. intros [= -> _]. done.
Qed.

Lemma starts_with_spec s p : starts_with s p = true <-> exists s', s = p +:+ s'.
Proof.
  unfold starts_with. destruct (str_strip_prefix p s) as [s'|] eqn:E.
  - apply str_strip_prefix_Some in E. split; eauto.
  - split; [done|]. intros (s' & E'). apply str_strip_prefix_Some in E'. congruence.
Qed.

Lemma ends_with_spec s p : ends_with s p = true <-> exists s', s = s' +:+ p.
Proof.
  induction s as [|a s IH]; cbn [ends_with]; rewrite orb_true_iff, String.eqb_eq.
  - split.
    + intros [<-|?]; [by exists ""|done].
    + intros ([|] & E); [by left|done].
  - rewrite IH. split.
    + intros [<-|(s' & ->)]; [by exists ""|by exists (String a s')].
    + intros ([|b s'] & E); [by left|]. injection E as <- ->. right. eauto.
Qed.

Lemma str_replace_no c d s : c <> d -> str_contains c (str_replace c d s) = false.
Proof.
  intros Hne. induction s as [|a s IH]; cbn; [done|]. rewrite IH, orb_false_r.
  destruct (Ascii.eqb_spec a c) as [->|?]; by apply Ascii.eqb_neq.
Qed.

Lemma str_replace_id c d s : str_contains c s = false -> str_replace c d s = s.
Proof.
  induction s as [|a s IH]; cbn; [done|]. intros [Ha Hs]%orb_false_iff. by rewrite Ha, IH.
Qed.

Lemma str_length_app s s' : String.length (s +:+ s') = String.length s + String.length s'.
Proof.
  induction s as [|a s IH]; [done|].
  change (S (String.length (s +:+ s')) = S (String.length s) + String.length s'). by rewrite IH.
Qed.

Lemma trim_start_matches_fuel_done fuel p s :
  p <> "" -> String.length s <= fuel ->
  str_strip_prefix p (trim_start_matches_fuel fuel p s) = None.
Proof.
  intros Hp. revert s. induction fuel as [|fuel IH]; intros s Hs; cbn.
  - destruct s; [by destruct p|cbn in Hs; lia].
  - destruct (str_strip_prefix p s) as [s'|] eqn:E; [|done]. apply IH.
    apply str_strip_prefix_Some in E as ->. rewrite str_length_app in Hs.
    destruct p; [done|]. cbn in Hs. lia.
Qed.

(** ** Sort keys *)

(** One more key of a lexicographic [cmp]: [a.cmp(&b).then_with(..) != Greater]. *)
Definition then_le (c : comparison) (rest : bool) : bool :=
  match c with Lt => true | Gt => false | Eq => rest end.

Lemma then_le_total c c' r r' :
  c' = CompOpp c -> r = true \/ r' = true -> then_le c r = true \/ then_le c' r' = true.
Proof. intros ->. destruct c; cbn; auto. Qed.

Lemma str_compare_opp a b : String.compare b a = CompOpp (String.compare a b).
Proof. by rewrite String.compare_antisym. Qed.

Lemma str_leb_antisym a b : str_le a b = true -> str_le b a = true -> a = b.
Proof.
  unfold str_le, String.leb. rewrite (str_compare_opp a b).
  destruct (String.compare a b) eqn:E; cbn; try done. intros _ _.
  by apply String.compare_eq_iff.
Qed.

Lemma str_leb_trans a b c : str_le a b = true -> str_le b c = true -> str_le a c = true.
Proof.
  unfold str_le, String.leb. revert b c. induction a as [|x a IH]; intros [|y b] [|z c]; cbn; try done.
  unfold Ascii.compare.
  destruct (N.compare_spec (N_of_ascii x) (N_of_ascii y)) as [E1|E1|E1]; cbn; try done;
    destruct (N.compare_spec (N_of_ascii y) (N_of_ascii z)) as [E2|E2|E2]; cbn; try done; intros H1 H2.
  - replace (N_of_ascii x ?= N_of_ascii z)%N with Eq by (symmetry; apply N.compare_eq_iff; congruence).
    by apply (IH b c).
  - replace (N_of_ascii x ?= N_of_ascii z)%N with Lt by (symmetry; apply N.compare_lt_iff; lia). done.
  - replace (N_of_ascii x ?= N_of_ascii z)%N with Lt by (symmetry; apply N.compare_lt_iff; lia). done.
  - replace (N_of_ascii x ?= N_of_ascii z)%N with Lt by (symmetry; apply N.compare_lt_iff; lia). done.
Qed.

(** Sorting then deduplicating by a total order leaves no duplicate. *)
Lemma dedup_head {A} `{EqDecision A} (x : A) l : exists l', dedup (x :: l) = x :: l'.
Proof. cbn. destruct (dedup l); [eauto|]. case_decide; eauto. Qed.

Lemma dedup_sorted_NoDup (l : list string) :
  Sorted (fun a b => str_le a b = true) l -> NoDup (dedup l).
Proof.
  intros Hs. apply Sorted_StronglySorted in Hs; [|intros a b c; apply str_leb_trans].
  induction Hs as [|x l Hl IH Hx]; [constructor|]. rewrite Forall_forall in Hx. cbn.
  destruct (dedup l) as [|y l'] eqn:Hd; [apply NoDup_singleton|].
  case_decide as E; [by subst|]. apply NoDup_cons. split; [|done].
  assert (Hyl : forall z, z ∈ y :: l' -> z ∈ l) by (intros z; rewrite <- Hd; apply elem_of_dedup).
  intros Hin. destruct l as [|w l]; [done|]. destruct (dedup_head w l) as [l'' Hd'].
  rewrite Hd in Hd'. injection Hd' as -> ->.
  assert (Hw : str_le x w = true) by (apply Hx; set_solver).
  assert (Hxl : x ∈ l).
  { specialize (Hyl x Hin). apply elem_of_cons in Hyl as [?|?]; [congruence|done]. }
  apply StronglySorted_inv in Hl as [_ Hwall]. rewrite Forall_forall in Hwall.
  apply E, str_leb_antisym; auto.
Qed.
