(* ===== verification/Types.v ===== *)
(** * Core data types (crates/codegraph-core/src/types.rs)

    The enums with their wire spellings, and the records persisted in the
    index: [Node], [Edge], [FileRecord], [UnresolvedRef], [ExtractionResult].
    Fields keep the source's names under a per-record prefix; [i64] and the
    line/column numbers are [Z]. *)
From S2P Require Import Prelude.

(** [enum NodeKind] of [types.rs]. *)
Inductive NodeKind : Set :=
| NkFile
| NkModule
| NkClass
| NkStruct
| NkInterface
| NkTrait
| NkProtocol
| NkFunction
| NkMethod
| NkProperty
| NkField
| NkVariable
| NkConstant
| NkEnum
| NkEnumMember
| NkTypeAlias
| NkNamespace
| NkParameter
| NkImport
| NkExport
| NkRoute
| NkComponent
| NkUnion.

Definition NODE_KIND_STRINGS : list string :=
  [
    "file"; "module"; "class"; "struct"; "interface"; "trait"; "protocol"; "function";
    "method"; "property"; "field"; "variable"; "constant"; "enum"; "enum_member";
    "type_alias"; "namespace"; "parameter"; "import"; "export"; "route"; "component";
    "union"
  ].

(** [NodeKind::ALL]. *)
Definition NodeKind_ALL : list NodeKind :=
  [
    NkFile; NkModule; NkClass; NkStruct; NkInterface; NkTrait; NkProtocol; NkFunction;
    NkMethod; NkProperty; NkField; NkVariable; NkConstant; NkEnum; NkEnumMember;
    NkTypeAlias; NkNamespace; NkParameter; NkImport; NkExport; NkRoute; NkComponent;
    NkUnion
  ].

(** [NodeKind::as_str]. *)
Definition NodeKind_as_str (self : NodeKind) : string :=
  match self with
  | NkFile => "file"
  | NkModule => "module"
  | NkClass => "class"
  | NkStruct => "struct"
  | NkInterface => "interface"
  | NkTrait => "trait"
  | NkProtocol => "protocol"
  | NkFunction => "function"
  | NkMethod => "method"
  | NkProperty => "property"
  | NkField => "field"
  | NkVariable => "variable"
  | NkConstant => "constant"
  | NkEnum => "enum"
  | NkEnumMember => "enum_member"
  | NkTypeAlias => "type_alias"
  | NkNamespace => "namespace"
  | NkParameter => "parameter"
  | NkImport => "import"
  | NkExport => "export"
  | NkRoute => "route"
  | NkComponent => "component"
  | NkUnion => "union"
  end.

#[export] Instance NodeKind_eq_dec : EqDecision NodeKind.
Proof. solve_decision. Defined.

(** [enum EdgeKind] of [types.rs]. *)
Inductive EdgeKind : Set :=
| EkContains
| EkCalls
| EkImports
| EkExports
| EkExtends
| EkImplements
| EkReferences
| EkTypeOf
| EkReturns
| EkInstantiates
| EkOverrides
| EkDecorates.

Definition EDGE_KIND_STRINGS : list string :=
  [
    "contains"; "calls"; "imports"; "exports"; "extends"; "implements"; "references";
    "type_of"; "returns"; "instantiates"; "overrides"; "decorates"
  ].

(** [EdgeKind::ALL]. *)
Definition EdgeKind_ALL : list EdgeKind :=
  [
    EkContains; EkCalls; EkImports; EkExports; EkExtends; EkImplements; EkReferences;
    EkTypeOf; EkReturns; EkInstantiates; EkOverrides; EkDecorates
  ].

(** [EdgeKind::as_str]. *)
Definition EdgeKind_as_str (self : EdgeKind) : string :=
  match self with
  | EkContains => "contains"
  | EkCalls => "calls"
  | EkImports => "imports"
  | EkExports => "exports"
  | EkExtends => "extends"
  | EkImplements => "implements"
  | EkReferences => "references"
  | EkTypeOf => "type_of"
  | EkReturns => "returns"
  | EkInstantiates => "instantiates"
  | EkOverrides => "overrides"
  | EkDecorates => "decorates"
  end.

#[export] Instance EdgeKind_eq_dec : EqDecision EdgeKind.
Proof. solve_decision. Defined.

(** [enum Language] of [types.rs]. *)
Inductive Language : Set :=
| LangTypeScript
| LangJavaScript
| LangTsx
| LangJsx
| LangArkTs
| LangPython
| LangGo
| LangRust
| LangJava
| LangC
| LangCpp
| LangCSharp
| LangRazor
| LangPhp
| LangRuby
| LangSwift
| LangKotlin
| LangDart
| LangSvelte
| LangVue
| LangAstro
| LangLiquid
| LangPascal
| LangScala
| LangLua
| LangLuau
| LangObjC
| LangR
| LangSolidity
| LangNix
| LangTerraform
| LangErlang
| LangCfml
| LangYaml
| LangTwig
| LangXml
| LangProperties
| LangGdscript
| LangGodotScene
| LangGodotResource
| LangGodotProject
| LangUnknown.

Definition LANGUAGE_STRINGS : list string :=
  [
    "typescript"; "javascript"; "tsx"; "jsx"; "arkts"; "python"; "go"; "rust"; "java";
    "c"; "cpp"; "csharp"; "razor"; "php"; "ruby"; "swift"; "kotlin"; "dart"; "svelte";
    "vue"; "astro"; "liquid"; "pascal"; "scala"; "lua"; "luau"; "objc"; "r";
    "solidity"; "nix"; "terraform"; "erlang"; "cfml"; "yaml"; "twig"; "xml";
    "properties"; "gdscript"; "godot_scene"; "godot_resource"; "godot_project";
    "unknown"
  ].

(** [Language::ALL]. *)
Definition Language_ALL : list Language :=
  [
    LangTypeScript; LangJavaScript; LangTsx; LangJsx; LangArkTs; LangPython; LangGo;
    LangRust; LangJava; LangC; LangCpp; LangCSharp; LangRazor; LangPhp; LangRuby;
    LangSwift; LangKotlin; LangDart; LangSvelte; LangVue; LangAstro; LangLiquid;
    LangPascal; LangScala; LangLua; LangLuau; LangObjC; LangR; LangSolidity; LangNix;
    LangTerraform; LangErlang; LangCfml; LangYaml; LangTwig; LangXml; LangProperties;
    LangGdscript; LangGodotScene; LangGodotResource; LangGodotProject; LangUnknown
  ].

(** [Language::as_str]. *)
Definition Language_as_str (self : Language) : string :=
  match self with
  | LangTypeScript => "typescript"
  | LangJavaScript => "javascript"
  | LangTsx => "tsx"
  | LangJsx => "jsx"
  | LangArkTs => "arkts"
  | LangPython => "python"
  | LangGo => "go"
  | LangRust => "rust"
  | LangJava => "java"
  | LangC => "c"
  | LangCpp => "cpp"
  | LangCSharp => "csharp"
  | LangRazor => "razor"
  | LangPhp => "php"
  | LangRuby => "ruby"
  | LangSwift => "swift"
  | LangKotlin => "kotlin"
  | LangDart => "dart"
  | LangSvelte => "svelte"
  | LangVue => "vue"
  | LangAstro => "astro"
  | LangLiquid => "liquid"
  | LangPascal => "pascal"
  | LangScala => "scala"
  | LangLua => "lua"
  | LangLuau => "luau"
  | LangObjC => "objc"
  | LangR => "r"
  | LangSolidity => "solidity"
  | LangNix => "nix"
  | LangTerraform => "terraform"
  | LangErlang => "erlang"
  | LangCfml => "cfml"
  | LangYaml => "yaml"
  | LangTwig => "twig"
  | LangXml => "xml"
  | LangProperties => "properties"
  | LangGdscript => "gdscript"
  | LangGodotScene => "godot_scene"
  | LangGodotResource => "godot_resource"
  | LangGodotProject => "godot_project"
  | LangUnknown => "unknown"
  end.

#[export] Instance Language_eq_dec : EqDecision Language.
Proof. solve_decision. Defined.

(** [enum ReferenceSubkind] of [types.rs]. *)
Inductive ReferenceSubkind : Set :=
| SubScriptAttach
| SubSceneInstance
| SubExtResource
| SubGroupMember
| SubSignalMethod
| SubGdscriptLoadPath
| SubAutoload.

(** [ReferenceSubkind::as_str]. *)
Definition ReferenceSubkind_as_str (self : ReferenceSubkind) : string :=
  match self with
  | SubScriptAttach => "script_attach"
  | SubSceneInstance => "scene_instance"
  | SubExtResource => "ext_resource"
  | SubGroupMember => "group_member"
  | SubSignalMethod => "signal_method"
  | SubGdscriptLoadPath => "gdscript_load_path"
  | SubAutoload => "autoload"
  end.

#[export] Instance ReferenceSubkind_eq_dec : EqDecision ReferenceSubkind.
Proof. solve_decision. Defined.
(** [Language::is_godot_non_script_file]. *)
Definition is_godot_non_script_file (self : Language) : bool :=
  match self with
  | LangGodotScene | LangGodotResource | LangGodotProject => true
  | _ => false
  end.

(** [serde_json::Value], the type of [Edge::metadata]. A number keeps its
    literal text. *)
Inductive Value : Set :=
| VNull
| VBool (b : bool)
| VNumber (literal : string)
| VString (s : string)
| VArray (items : list Value)
| VObject (entries : list (string * Value)).

(** [Value::get] with a string key: [None] on anything but an object. *)
Definition Value_get (v : Value) (key : string) : option Value :=
  match v with
  | VObject entries => (fun p => snd (snd p)) <$> list_find (fun e => fst e = key) entries
  | _ => None
  end.

Definition Value_as_str (v : Value) : option string :=
  match v with VString s => Some s | _ => None end.

(** [struct Node]. *)
Record Node : Set := mkNode {
  node_id : string;
  node_kind : NodeKind;
  node_name : string;
  node_qualified_name : string;
  node_file_path : string;
  node_language : Language;
  node_start_line : Z;
  node_end_line : Z;
  node_start_column : Z;
  node_end_column : Z;
  node_docstring : option string;
  node_signature : option string;
  node_visibility : option string;
  node_is_exported : bool;
  node_is_async : bool;
  node_is_static : bool;
  node_is_abstract : bool;
  node_decorators : list string;
  node_type_parameters : list string;
  node_return_type : option string;
  node_updated_at : Z
}.

(** [struct Edge]; [edge_id] is [None] until the row is stored. *)
Record Edge : Set := mkEdge {
  edge_id : option Z;
  edge_source : string;
  edge_target : string;
  edge_kind : EdgeKind;
  edge_metadata : option Value;
  edge_line : option Z;
  edge_col : option Z;
  edge_provenance : option string
}.

(** [struct FileRecord]. *)
Record FileRecord : Set := mkFileRecord {
  file_path : string;
  file_content_hash : string;
  file_language : Language;
  file_size : Z;
  file_modified_at : Z;
  file_indexed_at : Z;
  file_node_count : Z;
  file_errors : list string;
  file_generated : bool
}.

(** [struct UnresolvedRef]. *)
Record UnresolvedRef : Set := mkUnresolvedRef {
  ref_id : option Z;
  ref_from_node_id : string;
  ref_reference_name : string;
  ref_reference_kind : EdgeKind;
  ref_line : Z;
  ref_col : Z;
  ref_candidates : option (list string);
  ref_file_path : string;
  ref_language : Language;
  ref_is_function_ref : bool;
  ref_reference_subkind : option ReferenceSubkind
}.

(** [struct ExtractionResult]. *)
Record ExtractionResult : Set := mkExtractionResult {
  ext_nodes : list Node;
  ext_edges : list Edge;
  ext_unresolved_references : list UnresolvedRef;
  ext_errors : list string;
  ext_duration_ms : Z
}.

(** Decidable equality of the records, so that [decide] and [dedup] compare
    them as the derived [PartialEq] does. *)

Fixpoint Value_eqb (a b : Value) : bool :=
  match a, b with
  | VNull, VNull => true
  | VBool x, VBool y => Bool.eqb x y
  | VNumber x, VNumber y => String.eqb x y
  | VString x, VString y => String.eqb x y
  | VArray xs, VArray ys =>
      (fix go xs ys := match xs, ys with
                       | [], [] => true
                       | x :: xs, y :: ys => Value_eqb x y && go xs ys
                       | _, _ => false
                       end) xs ys
  | VObject xs, VObject ys =>
      (fix go xs ys := match xs, ys with
                       | [], [] => true
                       | (k, x) :: xs, (j, y) :: ys =>
                           String.eqb k j && Value_eqb x y && go xs ys
                       | _, _ => false
                       end) xs ys
  | _, _ => false
  end.

Fixpoint Value_eqb_eq (a b : Value) {struct a} : Value_eqb a b = true <-> a = b.
Proof.
  destruct a, b; cbn; try (split; [done|congruence]).
  - by rewrite Bool.eqb_true_iff; split; [intros ->|intros [=]].
  - by rewrite String.eqb_eq; split; [intros ->|intros [=]].
  - by rewrite String.eqb_eq; split; [intros ->|intros [=]].
  - revert items0. induction items as [|x xs IH]; intros [|y ys]; try (split; [done|congruence]).
    rewrite andb_true_iff, (Value_eqb_eq x y), (IH ys).
    split; [intros [-> [= ->]]; done|intros [= -> ->]; done].
  - revert entries0. induction entries as [|[k x] xs IH]; intros [|[j y] ys];
      try (split; [done|congruence]).
    rewrite !andb_true_iff, String.eqb_eq, (Value_eqb_eq x y), (IH ys).
    split; [intros [[-> ->] [= ->]]; done|intros [= -> -> ->]; done].
Defined.

#[export] Instance Value_eq_dec : EqDecision Value.
Proof.
  intros a b. destruct (Value_eqb a b) eqn:E.
  - left. by apply Value_eqb_eq.
  - right. intros H%Value_eqb_eq. congruence.
Defined.

#[export] Instance Node_eq_dec : EqDecision Node.
Proof. solve_decision. Defined.

#[export] Instance Edge_eq_dec : EqDecision Edge.
Proof. solve_decision. Defined.

#[export] Instance FileRecord_eq_dec : EqDecision FileRecord.
Proof. solve_decision. Defined.

#[export] Instance UnresolvedRef_eq_dec : EqDecision UnresolvedRef.
Proof. solve_decision. Defined.

(** [EdgeKind] is a key of the walks' [reported] sets. *)
#[export] Program Instance EdgeKind_countable : Countable EdgeKind :=
  inj_countable EdgeKind_as_str
    (fun s => list_find (fun k => EdgeKind_as_str k = s) EdgeKind_ALL ≫= fun p => Some (snd p)) _.
Next Obligation. by intros []. Qed.

(** ** Completeness of the tables and injectivity of the spellings *)

Lemma NodeKind_ALL_complete (k : NodeKind) : k ∈ NodeKind_ALL.
Proof. apply (bool_decide_unpack _). by destruct k. Qed.

Lemma EdgeKind_ALL_complete (k : EdgeKind) : k ∈ EdgeKind_ALL.
Proof. apply (bool_decide_unpack _). by destruct k. Qed.

Lemma Language_ALL_complete (l : Language) : l ∈ Language_ALL.
Proof. apply (bool_decide_unpack _). by destruct l. Qed.
