(* ===== verification/Rows.v ===== *)
(** * Stored rows (crates/codegraph-store/src/queries.rs, the row codecs)

    A table row holds what SQLite stores: enum columns as their wire text,
    flags as integers, list columns as JSON text or NULL. The [*_to_row]
    definitions are the parameter lists of the INSERT statements, the
    [row_to_*] definitions are the functions of that name; the theorems say
    that reading a written row gives the value back, and which columns make a
    read fail. The JSON codec is [serde_json]'s, a parameter ([SerdeJson]). *)
From S2P Require Import Prelude Types.
From stdpp Require Import pretty.

(** ** Errors of the store ([rusqlite::Error], the variants the code builds) *)

Inductive SqlError : Set :=
| InvalidParameterName (msg : string)
| ToSqlConversionFailure (text : string)
| InvalidColumnType (column : string).

(** [enum_error]. *)
Definition enum_error (value ty : string) : SqlError :=
  InvalidParameterName ("unknown " +:+ ty +:+ ": " +:+ value).

(** ** [serde_json], as the store uses it *)

Class SerdeJson := {
  strings_to_json : list string -> string;
  strings_from_json : string -> option (list string);
  value_to_json : Value -> string;
  value_from_json : string -> option Value
}.

(** The values that print and parse to themselves: no number but an integer of
    64 bits (a float may come back as a neighbour), no key twice in an object. *)
Definition integer_literal (literal : string) : Prop :=
  exists z : Z, (- 2 ^ 63 <= z < 2 ^ 64)%Z /\ literal = pretty z.

Fixpoint exact_json (v : Value) : Prop :=
  match v with
  | VNull | VBool _ | VString _ => True
  | VNumber literal => integer_literal literal
  | VArray items => (fix all l := match l with [] => True | x :: l => exact_json x /\ all l end) items
  | VObject entries =>
      NoDup (map fst entries)
      /\ (fix all l := match l with [] => True | (_, x) :: l => exact_json x /\ all l end) entries
  end.

Fixpoint json_depth (v : Value) : nat :=
  match v with
  | VArray items => S (fold_right (fun x d => Nat.max (json_depth x) d) 0 items)
  | VObject entries => S (fold_right (fun '(_, x) d => Nat.max (json_depth x) d) 0 entries)
  | _ => 0
  end.

(** Strings come back as they were written, and so do exact values within the
    parser's recursion limit; any other value that was printed parses. *)
Definition RECURSION_LIMIT : nat := 128.

Class SerdeJsonLaws `{SerdeJson} := {
  strings_json_roundtrip l : strings_from_json (strings_to_json l) = Some l;
  value_json_roundtrip v : exact_json v -> json_depth v < RECURSION_LIMIT -> value_from_json (value_to_json v) = Some v;
  value_json_reads v : is_Some (value_from_json (value_to_json v))
}.

(** ** The enum columns *)

(** [parse_node_kind]. *)
Definition parse_node_kind (value : string) : result SqlError NodeKind :=
  if String.eqb value "file" then Ok NkFile else
  if String.eqb value "module" then Ok NkModule else
  if String.eqb value "class" then Ok NkClass else
  if String.eqb value "struct" then Ok NkStruct else
  if String.eqb value "interface" then Ok NkInterface else
  if String.eqb value "trait" then Ok NkTrait else
  if String.eqb value "protocol" then Ok NkProtocol else
  if String.eqb value "function" then Ok NkFunction else
  if String.eqb value "method" then Ok NkMethod else
  if String.eqb value "property" then Ok NkProperty else
  if String.eqb value "field" then Ok NkField else
  if String.eqb value "variable" then Ok NkVariable else
  if String.eqb value "constant" then Ok NkConstant else
  if String.eqb value "enum" then Ok NkEnum else
  if String.eqb value "enum_member" then Ok NkEnumMember else
  if String.eqb value "type_alias" then Ok NkTypeAlias else
  if String.eqb value "namespace" then Ok NkNamespace else
  if String.eqb value "parameter" then Ok NkParameter else
  if String.eqb value "import" then Ok NkImport else
  if String.eqb value "export" then Ok NkExport else
  if String.eqb value "route" then Ok NkRoute else
  if String.eqb value "component" then Ok NkComponent else
  if String.eqb value "union" then Ok NkUnion else
  Err (enum_error value "node kind").

(** [edge_kind_named]. *)
Definition edge_kind_named (value : string) : option EdgeKind :=
  if String.eqb value "contains" then Some EkContains else
  if String.eqb value "calls" then Some EkCalls else
  if String.eqb value "imports" then Some EkImports else
  if String.eqb value "exports" then Some EkExports else
  if String.eqb value "extends" then Some EkExtends else
  if String.eqb value "implements" then Some EkImplements else
  if String.eqb value "references" then Some EkReferences else
  if String.eqb value "type_of" then Some EkTypeOf else
  if String.eqb value "returns" then Some EkReturns else
  if String.eqb value "instantiates" then Some EkInstantiates else
  if String.eqb value "overrides" then Some EkOverrides else
  if String.eqb value "decorates" then Some EkDecorates else
  None.

(** [parse_edge_kind]. *)
Definition parse_edge_kind (value : string) : result SqlError EdgeKind :=
  match edge_kind_named value with
  | Some kind => Ok kind
  | None => Err (enum_error value "edge kind")
  end.

(** [edge_kind_of]: a stored [function_ref] reads as [references]. *)
Definition edge_kind_of (raw_kind : string) : result SqlError EdgeKind :=
  if String.eqb raw_kind "function_ref" then Ok EkReferences
  else match edge_kind_named raw_kind with
       | Some kind => Ok kind
       | None => Err (enum_error raw_kind "edge kind")
       end.

(** [parse_reference_subkind]. *)
Definition parse_reference_subkind (value : option string)
  : result SqlError (option ReferenceSubkind) :=
  match value with
  | None => Ok None
  | Some text =>
      if String.eqb text "script_attach" then Ok (Some SubScriptAttach) else
      if String.eqb text "scene_instance" then Ok (Some SubSceneInstance) else
      if String.eqb text "ext_resource" then Ok (Some SubExtResource) else
      if String.eqb text "group_member" then Ok (Some SubGroupMember) else
      if String.eqb text "signal_method" then Ok (Some SubSignalMethod) else
      if String.eqb text "gdscript_load_path" then Ok (Some SubGdscriptLoadPath) else
      if String.eqb text "autoload" then Ok (Some SubAutoload) else
      Err (enum_error text "reference subkind")
  end.

(** [parse_language]. *)
Definition parse_language (value : string) : result SqlError Language :=
  if String.eqb value "typescript" then Ok LangTypeScript else
  if String.eqb value "javascript" then Ok LangJavaScript else
  if String.eqb value "tsx" then Ok LangTsx else
  if String.eqb value "jsx" then Ok LangJsx else
  if String.eqb value "arkts" then Ok LangArkTs else
  if String.eqb value "python" then Ok LangPython else
  if String.eqb value "go" then Ok LangGo else
  if String.eqb value "rust" then Ok LangRust else
  if String.eqb value "java" then Ok LangJava else
  if String.eqb value "c" then Ok LangC else
  if String.eqb value "cpp" then Ok LangCpp else
  if String.eqb value "csharp" then Ok LangCSharp else
  if String.eqb value "razor" then Ok LangRazor else
  if String.eqb value "php" then Ok LangPhp else
  if String.eqb value "ruby" then Ok LangRuby else
  if String.eqb value "swift" then Ok LangSwift else
  if String.eqb value "kotlin" then Ok LangKotlin else
  if String.eqb value "dart" then Ok LangDart else
  if String.eqb value "svelte" then Ok LangSvelte else
  if String.eqb value "vue" then Ok LangVue else
  if String.eqb value "astro" then Ok LangAstro else
  if String.eqb value "liquid" then Ok LangLiquid else
  if String.eqb value "pascal" then Ok LangPascal else
  if String.eqb value "scala" then Ok LangScala else
  if String.eqb value "lua" then Ok LangLua else
  if String.eqb value "luau" then Ok LangLuau else
  if String.eqb value "objc" then Ok LangObjC else
  if String.eqb value "r" then Ok LangR else
  if String.eqb value "solidity" then Ok LangSolidity else
  if String.eqb value "nix" then Ok LangNix else
  if String.eqb value "terraform" then Ok LangTerraform else
  if String.eqb value "erlang" then Ok LangErlang else
  if String.eqb value "cfml" then Ok LangCfml else
  if String.eqb value "yaml" then Ok LangYaml else
  if String.eqb value "twig" then Ok LangTwig else
  if String.eqb value "xml" then Ok LangXml else
  if String.eqb value "properties" then Ok LangProperties else
  if String.eqb value "gdscript" then Ok LangGdscript else
  if String.eqb value "godot_scene" then Ok LangGodotScene else
  if String.eqb value "godot_resource" then Ok LangGodotResource else
  if String.eqb value "godot_project" then Ok LangGodotProject else
  if String.eqb value "unknown" then Ok LangUnknown else
  Err (enum_error value "language").
(** [bool_to_i64]. *)
Definition bool_to_i64 (value : bool) : Z := if value then 1 else 0.

(** ** Column values with dynamic type *)

(** A stored timestamp: SQLite types values, not columns. A REAL is the
    rational [num / den]. *)
Inductive SqlValue : Set :=
| SqlNull
| SqlInteger (i : Z)
| SqlReal (num : Z) (den : positive)
| SqlText (s : string)
| SqlBlob (s : string).

Definition i64_min : Z := -9223372036854775808.
Definition i64_max : Z := 9223372036854775807.

(** [f as i64]: toward zero, saturating. *)
Definition f64_as_i64 (num : Z) (den : positive) : Z :=
  Z.max i64_min (Z.min i64_max (Z.quot num (Zpos den))).

(** [millis_column]. *)
Definition millis_column (v : SqlValue) (name : string) : result SqlError Z :=
  match v with
  | SqlInteger i => Ok i
  | SqlReal num den => Ok (f64_as_i64 num den)
  | SqlNull => Ok 0%Z
  | SqlText _ | SqlBlob _ => Err (InvalidColumnType name)
  end.

(** ** Rows *)

Record NodeRow : Set := mkNodeRow {
  nr_id : string;
  nr_kind : string;
  nr_name : string;
  nr_qualified_name : string;
  nr_file_path : string;
  nr_language : string;
  nr_start_line : Z;
  nr_end_line : Z;
  nr_start_column : Z;
  nr_end_column : Z;
  nr_docstring : option string;
  nr_signature : option string;
  nr_visibility : option string;
  nr_is_exported : Z;
  nr_is_async : Z;
  nr_is_static : Z;
  nr_is_abstract : Z;
  nr_decorators : option string;
  nr_type_parameters : option string;
  nr_return_type : option string;
  nr_updated_at : Z
}.

Record EdgeRow : Set := mkEdgeRow {
  er_id : Z;
  er_source : string;
  er_target : string;
  er_kind : string;
  er_metadata : option string;
  er_line : option Z;
  er_col : option Z;
  er_provenance : option string
}.

Record FileRow : Set := mkFileRow {
  fr_path : string;
  fr_content_hash : string;
  fr_language : string;
  fr_size : Z;
  fr_modified_at : SqlValue;
  fr_indexed_at : SqlValue;
  fr_node_count : Z;
  fr_errors : option string;
  fr_generated : Z
}.

Record RefRow : Set := mkRefRow {
  rr_id : Z;
  rr_from_node_id : string;
  rr_reference_name : string;
  rr_reference_kind : string;
  rr_line : Z;
  rr_col : Z;
  rr_candidates : option string;
  rr_file_path : string;
  rr_language : string;
  rr_reference_subkind : option string
}.

(** ** JSON columns *)

Section Codec.
Context `{SerdeJson}.

(** [json_array_or_null]: an empty list is stored as NULL. *)
Definition json_array_or_null (values : list string) : option string :=
  match values with [] => None | _ => Some (strings_to_json values) end.

(** [parse_optional_json_array]. *)
Definition parse_optional_json_array (raw : option string)
  : result SqlError (option (list string)) :=
  match raw with
  | None => Ok None
  | Some text =>
      match strings_from_json text with
      | Some l => Ok (Some l)
      | None => Err (ToSqlConversionFailure text)
      end
  end.

(** [parse_json_array]. *)
Definition parse_json_array (raw : option string) : result SqlError (list string) :=
  (fun o => default [] o) <$> parse_optional_json_array raw.

(** [parse_json_value]. *)
Definition parse_json_value (raw : option string) : result SqlError (option Value) :=
  match raw with
  | None => Ok None
  | Some text =>
      match value_from_json text with
      | Some v => Ok (Some v)
      | None => Err (ToSqlConversionFailure text)
      end
  end.

(** ** Writing: the parameters of the INSERT statements *)

(** The [named_params!] of [upsert_nodes]. *)
Definition node_to_row (node : Node) : NodeRow :=
  {| nr_id := node_id node;
     nr_kind := NodeKind_as_str (node_kind node);
     nr_name := node_name node;
     nr_qualified_name := node_qualified_name node;
     nr_file_path := node_file_path node;
     nr_language := Language_as_str (node_language node);
     nr_start_line := node_start_line node;
     nr_end_line := node_end_line node;
     nr_start_column := node_start_column node;
     nr_end_column := node_end_column node;
     nr_docstring := node_docstring node;
     nr_signature := node_signature node;
     nr_visibility := node_visibility node;
     nr_is_exported := bool_to_i64 (node_is_exported node);
     nr_is_async := bool_to_i64 (node_is_async node);
     nr_is_static := bool_to_i64 (node_is_static node);
     nr_is_abstract := bool_to_i64 (node_is_abstract node);
     nr_decorators := json_array_or_null (node_decorators node);
     nr_type_parameters := json_array_or_null (node_type_parameters node);
     nr_return_type := node_return_type node;
     nr_updated_at := node_updated_at node |}.

(** The [named_params!] of [insert_edges]; [id] is the AUTOINCREMENT key. *)
Definition edge_to_row (id : Z) (edge : Edge) : EdgeRow :=
  {| er_id := id;
     er_source := edge_source edge;
     er_target := edge_target edge;
     er_kind := EdgeKind_as_str (edge_kind edge);
     er_metadata := value_to_json <$> edge_metadata edge;
     er_line := edge_line edge;
     er_col := edge_col edge;
     er_provenance := edge_provenance edge |}.

(** The [named_params!] of [upsert_file]. *)
Definition file_to_row (file : FileRecord) : FileRow :=
  {| fr_path := file_path file;
     fr_content_hash := file_content_hash file;
     fr_language := Language_as_str (file_language file);
     fr_size := file_size file;
     fr_modified_at := SqlInteger (file_modified_at file);
     fr_indexed_at := SqlInteger (file_indexed_at file);
     fr_node_count := file_node_count file;
     fr_errors := json_array_or_null (file_errors file);
     fr_generated := bool_to_i64 (file_generated file) |}.

(** The [named_params!] of [insert_unresolved_refs_in_connection]. *)
Definition ref_to_row (id : Z) (unresolved : UnresolvedRef) : RefRow :=
  {| rr_id := id;
     rr_from_node_id := ref_from_node_id unresolved;
     rr_reference_name := ref_reference_name unresolved;
     rr_reference_kind :=
       if ref_is_function_ref unresolved then "function_ref"
       else EdgeKind_as_str (ref_reference_kind unresolved);
     rr_line := ref_line unresolved;
     rr_col := ref_col unresolved;
     rr_candidates := strings_to_json <$> ref_candidates unresolved;
     rr_file_path := ref_file_path unresolved;
     rr_language := Language_as_str (ref_language unresolved);
     rr_reference_subkind := ReferenceSubkind_as_str <$> ref_reference_subkind unresolved |}.

(** ** Reading *)

(** [row_to_node], and [NodeColumns::node], which reads the same values. *)
Definition row_to_node (row : NodeRow) : result SqlError Node :=
  kind ← parse_node_kind (nr_kind row);
  language ← parse_language (nr_language row);
  decorators ← parse_json_array (nr_decorators row);
  type_parameters ← parse_json_array (nr_type_parameters row);
  Ok {| node_id := nr_id row;
        node_kind := kind;
        node_name := nr_name row;
        node_qualified_name := nr_qualified_name row;
        node_file_path := nr_file_path row;
        node_language := language;
        node_start_line := nr_start_line row;
        node_end_line := nr_end_line row;
        node_start_column := nr_start_column row;
        node_end_column := nr_end_column row;
        node_docstring := nr_docstring row;
        node_signature := nr_signature row;
        node_visibility := nr_visibility row;
        node_is_exported := Z.eqb (nr_is_exported row) 1;
        node_is_async := Z.eqb (nr_is_async row) 1;
        node_is_static := Z.eqb (nr_is_static row) 1;
        node_is_abstract := Z.eqb (nr_is_abstract row) 1;
        node_decorators := decorators;
        node_type_parameters := type_parameters;
        node_return_type := nr_return_type row;
        node_updated_at := nr_updated_at row |}.

(** [row_to_edge]. *)
Definition row_to_edge (row : EdgeRow) : result SqlError Edge :=
  kind ← parse_edge_kind (er_kind row);
  metadata ← parse_json_value (er_metadata row);
  Ok {| edge_id := Some (er_id row);
        edge_source := er_source row;
        edge_target := er_target row;
        edge_kind := kind;
        edge_metadata := metadata;
        edge_line := er_line row;
        edge_col := er_col row;
        edge_provenance := er_provenance row |}.

(** [row_to_file]. *)
Definition row_to_file (row : FileRow) : result SqlError FileRecord :=
  language ← parse_language (fr_language row);
  modified_at ← millis_column (fr_modified_at row) "modified_at";
  indexed_at ← millis_column (fr_indexed_at row) "indexed_at";
  errors ← parse_json_array (fr_errors row);
  Ok {| file_path := fr_path row;
        file_content_hash := fr_content_hash row;
        file_language := language;
        file_size := fr_size row;
        file_modified_at := modified_at;
        file_indexed_at := indexed_at;
        file_node_count := fr_node_count row;
        file_errors := errors;
        file_generated := negb (Z.eqb (fr_generated row) 0) |}.

(** [row_to_unresolved_ref]. *)
Definition row_to_unresolved_ref (row : RefRow) : result SqlError UnresolvedRef :=
  let is_function_ref := String.eqb (rr_reference_kind row) "function_ref" in
  reference_kind ← (if is_function_ref then Ok EkReferences
                    else parse_edge_kind (rr_reference_kind row));
  candidates ← parse_optional_json_array (rr_candidates row);
  language ← parse_language (rr_language row);
  reference_subkind ← parse_reference_subkind (rr_reference_subkind row);
  Ok {| ref_id := Some (rr_id row);
        ref_from_node_id := rr_from_node_id row;
        ref_reference_name := rr_reference_name row;
        ref_reference_kind := reference_kind;
        ref_line := rr_line row;
        ref_col := rr_col row;
        ref_candidates := candidates;
        ref_file_path := rr_file_path row;
        ref_language := language;
        ref_is_function_ref := is_function_ref;
        ref_reference_subkind := reference_subkind |}.

End Codec.

(** What reading gives back of a written edge or reference: the row id is
    filled in, and a function reference's kind reads as [references]. *)
Definition stored_edge (id : Z) (e : Edge) : Edge :=
  {| edge_id := Some id; edge_source := edge_source e; edge_target := edge_target e;
     edge_kind := edge_kind e; edge_metadata := edge_metadata e;
     edge_line := edge_line e; edge_col := edge_col e;
     edge_provenance := edge_provenance e |}.

Definition stored_ref (id : Z) (r : UnresolvedRef) : UnresolvedRef :=
  {| ref_id := Some id; ref_from_node_id := ref_from_node_id r;
     ref_reference_name := ref_reference_name r;
     ref_reference_kind := if ref_is_function_ref r then EkReferences else ref_reference_kind r;
     ref_line := ref_line r; ref_col := ref_col r; ref_candidates := ref_candidates r;
     ref_file_path := ref_file_path r; ref_language := ref_language r;
     ref_is_function_ref := ref_is_function_ref r;
     ref_reference_subkind := ref_reference_subkind r |}.

(** ** A concrete codec, for evaluating the model

    Any injective text codec satisfies the laws; this one writes stdpp's
    binary encoding as a string of [0]s and [1]s. *)

Fixpoint pos_to_bits (p : positive) : string :=
  match p with
  | xH => EmptyString
  | xO p => String "0"%char (pos_to_bits p)
  | xI p => String "1"%char (pos_to_bits p)
  end.

Fixpoint bits_to_pos (s : string) : positive :=
  match s with
  | EmptyString => xH
  | String a s => if Ascii.eqb a "1"%char then xI (bits_to_pos s) else xO (bits_to_pos s)
  end.

Fixpoint Value_to_tree (v : Value) : gen_tree (bool + string + string) :=
  match v with
  | VNull => GenNode 0 []
  | VBool b => GenLeaf (inl (inl b))
  | VNumber n => GenLeaf (inl (inr n))
  | VString s => GenLeaf (inr s)
  | VArray l => GenNode 1 (map Value_to_tree l)
  | VObject l => GenNode 2 (map (fun e => GenNode 3 [GenLeaf (inr (fst e)); Value_to_tree (snd e)]) l)
  end.

Fixpoint Value_of_tree (t : gen_tree (bool + string + string)) : Value :=
  match t with
  | GenNode 0 _ => VNull
  | GenLeaf (inl (inl b)) => VBool b
  | GenLeaf (inl (inr n)) => VNumber n
  | GenLeaf (inr s) => VString s
  | GenNode 1 l => VArray (map Value_of_tree l)
  | GenNode 2 l =>
      VObject (map (fun t => match t with
                             | GenNode _ [GenLeaf (inr k); v] => (k, Value_of_tree v)
                             | _ => ("", VNull)
                             end) l)
  | GenNode _ _ => VNull
  end.

#[export] Instance BitsJson : SerdeJson := {|
  strings_to_json l := pos_to_bits (encode l);
  strings_from_json s := decode (bits_to_pos s);
  value_to_json v := pos_to_bits (encode (Value_to_tree v));
  value_from_json s := Value_of_tree <$> decode (bits_to_pos s)
|}.

(** ** The enum columns parse back *)

Lemma parse_node_kind_as_str k : parse_node_kind (NodeKind_as_str k) = Ok k.
Proof. by destruct k. Qed.

Lemma edge_kind_named_as_str k : edge_kind_named (EdgeKind_as_str k) = Some k.
Proof. by destruct k. Qed.

Lemma parse_edge_kind_as_str k : parse_edge_kind (EdgeKind_as_str k) = Ok k.
Proof. by destruct k. Qed.

Lemma parse_language_as_str l : parse_language (Language_as_str l) = Ok l.
Proof. by destruct l. Qed.

Lemma parse_subkind_as_str o :
  parse_reference_subkind (ReferenceSubkind_as_str <$> o) = Ok o.
Proof. by destruct o as [[]|]. Qed.

Lemma edge_kind_as_str_not_function_ref k :
  String.eqb (EdgeKind_as_str k) "function_ref" = false.
Proof. by destruct k. Qed.

Lemma bool_to_i64_eqb b : Z.eqb (bool_to_i64 b) 1 = b.
Proof. by destruct b. Qed.

Lemma bool_to_i64_neq0 b : negb (Z.eqb (bool_to_i64 b) 0) = b.
Proof. by destruct b. Qed.

#[export] Hint Rewrite parse_node_kind_as_str parse_edge_kind_as_str
  edge_kind_named_as_str parse_language_as_str parse_subkind_as_str
  edge_kind_as_str_not_function_ref bool_to_i64_eqb bool_to_i64_neq0 : rows.

(** A kind parses only from its own spelling. *)
Lemma edge_kind_named_inv s k : edge_kind_named s = Some k -> EdgeKind_as_str k = s.
Proof.
  unfold edge_kind_named.
  repeat match goal with
         | |- (if String.eqb s ?c then _ else _) = _ -> _ =>
             destruct (String.eqb_spec s c) as [->|_]; [by intros [= <-]|]
         end.
  done.
Qed.

#[export] Instance EdgeKind_as_str_inj : Inj (=) (=) EdgeKind_as_str.
Proof.
  intros x y E. apply (f_equal edge_kind_named) in E.
  rewrite !edge_kind_named_as_str in E. congruence.
Qed.

#[export] Instance NodeKind_as_str_inj : Inj (=) (=) NodeKind_as_str.
Proof.
  intros x y E. apply (f_equal parse_node_kind) in E.
  rewrite !parse_node_kind_as_str in E. congruence.
Qed.

(** ** Round trips *)

Section RoundTrip.
Context `{SerdeJsonLaws}.

Lemma parse_json_array_or_null l : parse_json_array (json_array_or_null l) = Ok l.
Proof.
  destruct l as [|x l]; [done|].
  unfold parse_json_array, parse_optional_json_array. cbn -[strings_to_json].
  by rewrite strings_json_roundtrip.
Qed.

Lemma parse_optional_json_array_map o :
  parse_optional_json_array (strings_to_json <$> o) = Ok o.
Proof. destruct o; cbn; [by rewrite strings_json_roundtrip|done]. Qed.

(** Metadata that the codec keeps exactly. *)
Definition exact_metadata (o : option Value) : Prop :=
  match o with Some v => exact_json v /\ json_depth v < RECURSION_LIMIT | None => True end.

Lemma parse_json_value_map o : exact_metadata o -> parse_json_value (value_to_json <$> o) = Ok o.
Proof. destruct o; cbn; [|done]. intros [? ?]. by rewrite value_json_roundtrip. Qed.

Lemma row_to_node_to_row n : row_to_node (node_to_row n) = Ok n.
Proof.
  destruct n. unfold row_to_node, node_to_row; cbn -[parse_node_kind parse_language].
  by repeat (autorewrite with rows; rewrite ?parse_json_array_or_null; cbn).
Qed.

(** An edge with other metadata. *)
Definition with_metadata (e : Edge) (metadata : option Value) : Edge :=
  {| edge_id := edge_id e; edge_source := edge_source e; edge_target := edge_target e; edge_kind := edge_kind e;
     edge_metadata := metadata; edge_line := edge_line e; edge_col := edge_col e; edge_provenance := edge_provenance e |}.

(** Whatever its metadata, an edge's row is read, with all but them as written. *)
Lemma row_to_edge_reads id e : exists metadata,
  row_to_edge (edge_to_row id e) = Ok (with_metadata (stored_edge id e) metadata)
  /\ (metadata = None <-> edge_metadata e = None)
  /\ (exact_metadata (edge_metadata e) -> metadata = edge_metadata e).
Proof.
  unfold row_to_edge, edge_to_row; cbn -[parse_edge_kind]. rewrite parse_edge_kind_as_str. cbn.
  destruct (edge_metadata e) as [v|] eqn:E; cbn.
  - destruct (value_json_reads v) as [v' Hv]. rewrite Hv. exists (Some v'). split; [done|]. split; [done|].
    intros [Hx Hd]. rewrite value_json_roundtrip in Hv by done. by rewrite Hv.
  - exists None. split; [done|]. split; done.
Qed.

Lemma row_to_edge_to_row id e :
  exact_metadata (edge_metadata e) -> row_to_edge (edge_to_row id e) = Ok (stored_edge id e).
Proof.
  intros He. destruct (row_to_edge_reads id e) as (m & Hr & _ & Hm). by rewrite Hr, (Hm He).
Qed.

Lemma row_to_file_to_row f : row_to_file (file_to_row f) = Ok f.
Proof.
  destruct f. unfold row_to_file, file_to_row; cbn -[parse_language].
  rewrite parse_language_as_str. cbn. rewrite parse_json_array_or_null. cbn.
  by rewrite bool_to_i64_neq0.
Qed.

Lemma row_to_ref_to_row id r :
  row_to_unresolved_ref (ref_to_row id r) = Ok (stored_ref id r).
Proof.
  unfold row_to_unresolved_ref, ref_to_row, stored_ref.
  destruct (ref_is_function_ref r); cbn -[parse_edge_kind parse_language parse_reference_subkind];
    rewrite ?edge_kind_as_str_not_function_ref, ?parse_edge_kind_as_str;
    cbn -[parse_language parse_reference_subkind];
    rewrite parse_optional_json_array_map; cbn -[parse_language parse_reference_subkind];
    rewrite parse_language_as_str; cbn -[parse_reference_subkind];
    by rewrite parse_subkind_as_str.
Qed.

End RoundTrip.

(** The concrete codec satisfies the laws. *)

Lemma bits_roundtrip p : bits_to_pos (pos_to_bits p) = p.
Proof. induction p as [p IH|p IH|]; cbn; by rewrite ?IH. Qed.

Fixpoint Value_tree_roundtrip (v : Value) {struct v} : Value_of_tree (Value_to_tree v) = v.
Proof.
  destruct v as [| | | |items|entries]; try reflexivity.
  - cbn. f_equal. induction items as [|x l IH]; cbn; [done|].
    by rewrite Value_tree_roundtrip, IH.
  - cbn. f_equal. induction entries as [|[k x] l IH]; cbn; [done|].
    by rewrite Value_tree_roundtrip, IH.
Defined.

#[export] Instance BitsJsonLaws : SerdeJsonLaws.
Proof.
  split.
  - intros l. cbn. by rewrite bits_roundtrip, decode_encode.
  - intros v _ _. cbn. rewrite bits_roundtrip, decode_encode. cbn.
    by rewrite Value_tree_roundtrip.
  - intros v. cbn. by rewrite bits_roundtrip, decode_encode.
Qed.
