(* ===== verification/Db.v ===== *)
(** * The index database: tables, node/edge/file operations
      (crates/codegraph-store/src/{schema,queries}.rs)

    A [Db] holds the tables in row order. Each operation is the [Store] method
    of that name: its guards, its statements' effect on the tables (upserts,
    [INSERT OR IGNORE] against the edge-identity index, foreign keys with
    [ON DELETE CASCADE]) and its reads. What SQLite does not promise, the order
    of the rows a SELECT without ORDER BY yields, is the parameter [SqlScan]. *)
From S2P Require Import Prelude Types Rows.

(** The order in which the statement [query] yields its rows. *)
Class SqlScan := scan_order : forall {A : Type}, string -> list A -> list A.

(** A SELECT yields the matching rows, each once, in some order. *)
Class SqlScanLaws `{SqlScan} :=
  scan_perm : forall {A : Type} (query : string) (rows : list A), scan_order query rows ≡ₚ rows.

(** Row order, for evaluating the model. *)
Definition RowOrder : SqlScan := fun _ _ rows => rows.

Lemma RowOrder_laws : @SqlScanLaws RowOrder.
Proof. intros A query rows. reflexivity. Qed.

(** ** The tables *)

Record Db : Set := mkDb {
  db_nodes : list NodeRow;
  db_edges : list EdgeRow;
  db_files : list FileRow;
  db_unresolved_refs : list RefRow;
  db_resolved_refs : list RefRow;
  db_next_edge_id : Z;
  db_next_ref_id : Z
}.

Definition empty_db : Db := mkDb [] [] [] [] [] 1 1.

Definition with_nodes (db : Db) nodes : Db :=
  mkDb nodes (db_edges db) (db_files db) (db_unresolved_refs db) (db_resolved_refs db)
       (db_next_edge_id db) (db_next_ref_id db).

Definition with_files (db : Db) files : Db :=
  mkDb (db_nodes db) (db_edges db) files (db_unresolved_refs db) (db_resolved_refs db)
       (db_next_edge_id db) (db_next_ref_id db).

Definition with_edges (db : Db) edges : Db :=
  mkDb (db_nodes db) edges (db_files db) (db_unresolved_refs db) (db_resolved_refs db)
       (db_next_edge_id db) (db_next_ref_id db).

Definition with_refs (db : Db) unresolved resolved : Db :=
  mkDb (db_nodes db) (db_edges db) (db_files db) unresolved resolved
       (db_next_edge_id db) (db_next_ref_id db).

(** The ids the [nodes] table holds. *)
Definition node_ids (db : Db) : list string := map nr_id (db_nodes db).

(** [idx_edges_identity]: (source, target, kind, IFNULL(line,-1), IFNULL(col,-1)). *)
Definition edge_identity (r : EdgeRow) : string * string * string * Z * Z :=
  (er_source r, er_target r, er_kind r,
   default (-1)%Z (er_line r), default (-1)%Z (er_col r)).

(** ** [slice::chunks], under SQLite's parameter limit *)

Definition SQLITE_PARAM_CHUNK_SIZE : nat := 500.

Fixpoint chunks_fuel {A} (fuel n : nat) (l : list A) : list (list A) :=
  match fuel, l with
  | _, [] | 0, _ => []
  | S fuel, _ => take n l :: chunks_fuel fuel n (drop n l)
  end.

Definition chunks {A} (n : nat) (l : list A) : list (list A) := chunks_fuel (length l) n l.

(** [sort_unstable] then [dedup]. *)
Definition sorted_unique (ids : list string) : list string := dedup (sort_by str_le ids).

Section Store.
Context `{SerdeJson} `{SqlScan}.

(** ** Nodes *)

(** [validate_nodes]: the first node with an empty required field fails. *)
Fixpoint validate_nodes (nodes : list Node) : result SqlError unit :=
  match nodes with
  | [] => Ok tt
  | node :: nodes =>
      if String.eqb (node_id node) "" || String.eqb (node_name node) ""
         || String.eqb (node_file_path node) "" || String.eqb (node_qualified_name node) ""
      then Err (InvalidParameterName
                  ("node has missing required fields: " +:+ node_id node))
      else validate_nodes nodes
  end.

(** INSERT .. ON CONFLICT(id) DO UPDATE: a row with the id is overwritten in
    place, otherwise the row is new. *)
Definition upsert_node_row (rows : list NodeRow) (row : NodeRow) : list NodeRow :=
  if decide (nr_id row ∈ map nr_id rows)
  then map (fun r => if String.eqb (nr_id r) (nr_id row) then row else r) rows
  else rows ++ [row].

(** [Store::upsert_nodes]. *)
Definition upsert_nodes (db : Db) (nodes : list Node) : result SqlError Db :=
  _ ← validate_nodes nodes;
  Ok (with_nodes db (fold_left (fun rows node => upsert_node_row rows (node_to_row node))
                               nodes (db_nodes db))).

(** DELETE FROM nodes WHERE [p], with the cascades of the three foreign keys. *)
Definition delete_nodes_where (p : NodeRow -> bool) (db : Db) : Db * nat :=
  let gone := map nr_id (filter (fun r => p r = true) (db_nodes db)) in
  (mkDb (filter (fun r => p r = false) (db_nodes db))
        (filter (fun e => er_source e ∉ gone /\ er_target e ∉ gone) (db_edges db))
        (db_files db)
        (filter (fun r => rr_from_node_id r ∉ gone) (db_unresolved_refs db))
        (filter (fun r => rr_from_node_id r ∉ gone) (db_resolved_refs db))
        (db_next_edge_id db) (db_next_ref_id db),
   length gone).

(** [Store::delete_node]. *)
Definition delete_node (db : Db) (id : string) : Db * nat :=
  delete_nodes_where (fun r => String.eqb (nr_id r) id) db.

(** [Store::delete_nodes_by_file_path]. *)
Definition delete_nodes_by_file_path (db : Db) (file_path : string) : Db * nat :=
  delete_nodes_where (fun r => String.eqb (nr_file_path r) file_path) db.

(** [query_nodes]: every selected row, parsed. *)
Definition query_nodes (query : string) (p : NodeRow -> bool) (db : Db)
  : result SqlError (list Node) :=
  map_M row_to_node (scan_order query (filter (fun r => p r = true) (db_nodes db))).

(** [Store::node_by_id]. *)
Definition db_node_by_id (db : Db) (id : string) : result SqlError (option Node) :=
  match scan_order "node_by_id" (filter (fun r => nr_id r = id) (db_nodes db)) with
  | [] => Ok None
  | row :: _ => Some <$> row_to_node row
  end.

(** [Store::nodes_by_kind]. *)
Definition db_nodes_by_kind (db : Db) (kind : NodeKind) : result SqlError (list Node) :=
  query_nodes "nodes_by_kind" (fun r => String.eqb (nr_kind r) (NodeKind_as_str kind)) db.

(** [Store::nodes_by_name]. *)
Definition db_nodes_by_name (db : Db) (name : string) : result SqlError (list Node) :=
  query_nodes "nodes_by_name" (fun r => String.eqb (nr_name r) name) db.

(** [Store::nodes_by_file_path] (ORDER BY start_line). *)
Definition db_nodes_by_file_path (db : Db) (file_path : string)
  : result SqlError (list Node) :=
  map_M row_to_node
    (sort_by (fun a b => Z.leb (nr_start_line a) (nr_start_line b))
       (scan_order "nodes_by_file_path"
          (filter (fun r => nr_file_path r = file_path) (db_nodes db)))).

(** [Store::nodes_by_qualified_name]. *)
Definition db_nodes_by_qualified_name (db : Db) (qualified_name : string)
  : result SqlError (list Node) :=
  query_nodes "nodes_by_qualified_name"
    (fun r => String.eqb (nr_qualified_name r) qualified_name) db.

(** [Store::node_count_by_file_path]. *)
Definition db_node_count_by_file_path (db : Db) (path : string) : Z :=
  Z.of_nat (length (filter (fun r => nr_file_path r = path) (db_nodes db))).

(** [Store::all_nodes] (ORDER BY id). *)
Definition db_all_nodes (db : Db) : result SqlError (list Node) :=
  map_M row_to_node
    (sort_by (fun a b => str_le (nr_id a) (nr_id b)) (scan_order "all_nodes" (db_nodes db))).

(** [Store::nodes_by_ids]: a chunked [id IN (..)] lookup into an id-keyed map. *)
Definition db_nodes_by_ids (db : Db) (ids : list string)
  : result SqlError (gmap string Node) :=
  match ids with
  | [] => Ok ∅
  | _ =>
      for_M (fun out chunk =>
               rows ← map_M row_to_node
                        (scan_order "nodes_by_ids"
                           (filter (fun r => nr_id r ∈ chunk) (db_nodes db)));
               Ok (Continue (fold_left (fun out node => <[node_id node := node]> out) rows out)))
            (∅ : gmap string Node)
            (chunks SQLITE_PARAM_CHUNK_SIZE (sorted_unique ids))
  end.

(** [existing_node_ids]. *)
Definition existing_node_ids (db : Db) (ids : list string) : gset string :=
  fold_left (fun out chunk =>
               list_to_set (scan_order "existing_node_ids"
                              (map nr_id (filter (fun r => nr_id r ∈ chunk) (db_nodes db)))) ∪ out)
            (chunks SQLITE_PARAM_CHUNK_SIZE (sorted_unique ids)) ∅.

(** ** Edges *)

(** INSERT OR IGNORE INTO edges: ignored when the identity index already holds
    the row's identity; a missing endpoint breaks the foreign key. *)
Definition insert_edge_row (db : Db) (edge : Edge) : result SqlError Db :=
  let row := edge_to_row (db_next_edge_id db) edge in
  if decide (edge_identity row ∈ map edge_identity (db_edges db)) then Ok db
  else if decide (er_source row ∈ node_ids db /\ er_target row ∈ node_ids db) then
    Ok (mkDb (db_nodes db) (db_edges db ++ [row]) (db_files db)
             (db_unresolved_refs db) (db_resolved_refs db)
             (db_next_edge_id db + 1) (db_next_ref_id db))
  else Err (InvalidParameterName "FOREIGN KEY constraint failed").

(** [Store::insert_edges]. *)
Definition insert_edges (db : Db) (edges : list Edge) : result SqlError Db :=
  match edges with
  | [] => Ok db
  | _ =>
      let existing :=
        existing_node_ids db (flat_map (fun e => [edge_source e; edge_target e]) edges) in
      for_M (fun db edge =>
               if decide (edge_source edge ∉ existing \/ edge_target edge ∉ existing)
               then Ok (Continue db)
               else db' ← insert_edge_row db edge; Ok (Continue db'))
            db edges
  end.

(** [query_edges]. *)
Definition query_edges (query : string) (p : EdgeRow -> bool) (db : Db)
  : result SqlError (list Edge) :=
  map_M row_to_edge (scan_order query (filter (fun r => p r = true) (db_edges db))).

(** [Store::edges_by_source_kind]. *)
Definition db_edges_by_source_kind (db : Db) (source_id : string) (kind : option EdgeKind)
  : result SqlError (list Edge) :=
  match kind with
  | Some kind =>
      query_edges "edges_by_source_and_kind"
        (fun r => String.eqb (er_source r) source_id
                  && String.eqb (er_kind r) (EdgeKind_as_str kind)) db
  | None => query_edges "edges_by_source" (fun r => String.eqb (er_source r) source_id) db
  end.

(** [Store::edges_by_target_kind]. *)
Definition db_edges_by_target_kind (db : Db) (target_id : string) (kind : option EdgeKind)
  : result SqlError (list Edge) :=
  match kind with
  | Some kind =>
      query_edges "edges_by_target_and_kind"
        (fun r => String.eqb (er_target r) target_id
                  && String.eqb (er_kind r) (EdgeKind_as_str kind)) db
  | None => query_edges "edges_by_target" (fun r => String.eqb (er_target r) target_id) db
  end.

(** [Store::edges_by_kind] (ORDER BY id). *)
Definition db_edges_by_kind (db : Db) (kind : EdgeKind) : result SqlError (list Edge) :=
  map_M row_to_edge
    (sort_by (fun a b => Z.leb (er_id a) (er_id b))
       (scan_order "edges_by_kind"
          (filter (fun r => er_kind r = EdgeKind_as_str kind) (db_edges db)))).

(** [Store::all_edges] (ORDER BY id). *)
Definition db_all_edges (db : Db) : result SqlError (list Edge) :=
  map_M row_to_edge
    (sort_by (fun a b => Z.leb (er_id a) (er_id b)) (scan_order "all_edges" (db_edges db))).

(** ** Files *)

(** [Store::upsert_file]; the method returns the changed-row count, always 1. *)
Definition upsert_file (db : Db) (file : FileRecord) : Db * nat :=
  let row := file_to_row file in
  (with_files db
     (if decide (fr_path row ∈ map fr_path (db_files db))
      then map (fun r => if String.eqb (fr_path r) (fr_path row) then row else r) (db_files db)
      else db_files db ++ [row]),
   1).

(** [Store::delete_file_record]. *)
Definition delete_file_record (db : Db) (file_path : string) : Db :=
  let db' := fst (delete_nodes_where (fun r => String.eqb (nr_file_path r) file_path) db) in
  with_files db' (filter (fun r => fr_path r <> file_path) (db_files db')).

(** [Store::file_by_path]. *)
Definition db_file_by_path (db : Db) (file_path : string)
  : result SqlError (option FileRecord) :=
  match scan_order "file_by_path" (filter (fun r => fr_path r = file_path) (db_files db)) with
  | [] => Ok None
  | row :: _ => Some <$> row_to_file row
  end.

(** [Store::all_files] (ORDER BY path). *)
Definition db_all_files (db : Db) : result SqlError (list FileRecord) :=
  map_M row_to_file
    (sort_by (fun a b => str_le (fr_path a) (fr_path b)) (scan_order "all_files" (db_files db))).

(** [Store::dependency_file_paths]: SELECT DISTINCT tgt.file_path over the
    non-[contains] edges out of the file's nodes into other files' nodes. *)
Definition db_dependency_file_paths (db : Db) (file_path : string) : list string :=
  scan_order "dependency_file_paths"
    (remove_dups
       (e ← db_edges db;
        src ← filter (fun n => nr_id n = er_source e) (db_nodes db);
        tgt ← filter (fun n => nr_id n = er_target e) (db_nodes db);
        if decide (nr_file_path src = file_path /\ er_kind e <> "contains"
                   /\ nr_file_path tgt <> file_path)
        then [nr_file_path tgt] else [])).

End Store.
