(* ===== verification/DbRefs.v ===== *)
(** * Unresolved and resolved references
      (crates/codegraph-store/src/queries.rs, the [unresolved_refs] and
      [resolved_refs] tables)

    Extraction parks references in [unresolved_refs]; resolution moves the rows
    it settled into [resolved_refs], each whole and with its id, so the two
    tables together stay every reference of the last extraction. An incremental
    sync replaces the resolution state of one file or of a group of sites. *)
From S2P Require Import Prelude Types Rows Db.

(** [ReferenceSite]. *)
Record ReferenceSite : Set := mkSite {
  site_from_node_id : string;
  site_line : Z;
  site_col : Z
}.

#[export] Instance ReferenceSite_eq_dec : EqDecision ReferenceSite.
Proof. solve_decision. Defined.

(** [FileReferenceSite]. *)
Record FileReferenceSite : Set := mkFileSite {
  frs_file_path : string;
  frs_site : option ReferenceSite
}.

(** [row_to_file_reference_site]. *)
Definition row_to_file_reference_site (file_path from_node_id : string) (line col : option Z)
  : FileReferenceSite :=
  {| frs_file_path := file_path;
     frs_site := match line, col with
                 | Some line, Some col => Some (mkSite from_node_id line col)
                 | _, _ => None
                 end |}.

(** [ResolutionReplacement]. *)
Inductive ResolutionReplacement : Set :=
| ReplaceFile (file_path : string) (refs : list UnresolvedRef)
| ReplaceSites (sites : list ReferenceSite) (refs : list UnresolvedRef).

(** ** SQL's three-valued logic, for [RESOLUTION_EDGE] *)

Definition sql_bool : Set := option bool.
Definition sql_not (a : sql_bool) : sql_bool := negb <$> a.
Definition sql_and (a b : sql_bool) : sql_bool :=
  match a, b with
  | Some false, _ | _, Some false => Some false
  | Some true, Some true => Some true
  | _, _ => None
  end.

Section Refs.
Context `{SerdeJson} `{SqlScan}.

(** [json_extract(text, '$.valueRef') = 1], NULL when the path is absent or
    holds JSON null; SQLite reads a JSON [true] as 1. *)
Definition json_value_ref_is_1 (v : Value) : sql_bool :=
  match Value_get v "valueRef" with
  | None | Some VNull => None
  | Some (VBool b) => Some b
  | Some (VNumber n) => Some (String.eqb n "1")
  | Some _ => Some false
  end.

(** [CASE WHEN json_valid(e.metadata) THEN json_extract(..) END = 1]. *)
Definition metadata_value_ref_is_1 (metadata : option string) : sql_bool :=
  match metadata with
  | None => None
  | Some text => match value_from_json text with
                 | Some v => json_value_ref_is_1 v
                 | None => None
                 end
  end.

(** [RESOLUTION_EDGE]: an edge reference resolution produced. A row is selected
    when this is [Some true]. *)
Definition RESOLUTION_EDGE (e : EdgeRow) : sql_bool :=
  sql_and (Some (negb (String.eqb (er_kind e) "contains")))
    (sql_not
       (sql_and (Some (String.eqb (er_kind e) "references"))
          (sql_and (Some (bool_decide (er_line e = None)))
             (metadata_value_ref_is_1 (er_metadata e))))).

(** The [BTreeSet] of sites: each once. *)
Definition unique_sites (sites : list ReferenceSite) : list ReferenceSite := remove_dups sites.

Definition ref_at_site (site : ReferenceSite) (r : RefRow) : Prop :=
  rr_from_node_id r = site_from_node_id site /\ rr_line r = site_line site
  /\ rr_col r = site_col site.

#[export] Instance ref_at_site_dec site r : Decision (ref_at_site site r).
Proof. apply _. Defined.

(** INSERT INTO unresolved_refs; a missing [from_node_id] breaks the foreign key. *)
Definition insert_ref_row (db : Db) (r : UnresolvedRef) : result SqlError Db :=
  if decide (ref_from_node_id r ∈ node_ids db) then
    Ok (mkDb (db_nodes db) (db_edges db) (db_files db)
             (db_unresolved_refs db ++ [ref_to_row (db_next_ref_id db) r])
             (db_resolved_refs db) (db_next_edge_id db) (db_next_ref_id db + 1))
  else Err (InvalidParameterName "FOREIGN KEY constraint failed").

(** [insert_unresolved_refs_in_connection]. *)
Definition insert_unresolved_refs_in_connection (db : Db) (refs : list UnresolvedRef)
  : result SqlError Db :=
  match refs with
  | [] => Ok db
  | _ =>
      let existing := existing_node_ids db (map ref_from_node_id refs) in
      for_M (fun db unresolved =>
               if decide (ref_from_node_id unresolved ∉ existing) then Ok (Continue db)
               else db' ← insert_ref_row db unresolved; Ok (Continue db'))
            db refs
  end.

(** [Store::insert_unresolved_refs]. *)
Definition insert_unresolved_refs (db : Db) (refs : list UnresolvedRef)
  : result SqlError Db :=
  match refs with
  | [] => Ok db
  | _ => insert_unresolved_refs_in_connection db refs
  end.

(** [Store::all_unresolved_refs]. *)
Definition db_all_unresolved_refs (db : Db) : result SqlError (list UnresolvedRef) :=
  map_M row_to_unresolved_ref (scan_order "all_unresolved_refs" (db_unresolved_refs db)).

(** [Store::unresolved_refs_count]. *)
Definition db_unresolved_refs_count (db : Db) : Z := Z.of_nat (length (db_unresolved_refs db)).

(** [Store::unresolved_refs_by_file_path]. *)
Definition db_unresolved_refs_by_file_path (db : Db) (file_path : string)
  : result SqlError (list UnresolvedRef) :=
  map_M row_to_unresolved_ref
    (scan_order "unresolved_refs_by_file_path"
       (filter (fun r => rr_file_path r = file_path) (db_unresolved_refs db))).

(** [Store::unresolved_refs_by_names]. *)
Definition db_unresolved_refs_by_names (db : Db) (names : list string)
  : result SqlError (list UnresolvedRef) :=
  match names with
  | [] => Ok []
  | _ =>
      for_M (fun out chunk =>
               rows ← map_M row_to_unresolved_ref
                        (scan_order "unresolved_refs_by_names"
                           (filter (fun r => rr_reference_name r ∈ chunk) (db_unresolved_refs db)));
               Ok (Continue (out ++ rows)))
            [] (chunks SQLITE_PARAM_CHUNK_SIZE (sorted_unique names))
  end.

(** One chunk of [delete_resolved_unresolved_refs]: INSERT OR IGNORE the rows
    into [resolved_refs] (its primary key is the id), then DELETE them. *)
Definition move_resolved_chunk (db : Db) (chunk : list Z) : Db :=
  let moved := filter (fun r => rr_id r ∈ chunk) (db_unresolved_refs db) in
  with_refs db
    (filter (fun r => rr_id r ∉ chunk) (db_unresolved_refs db))
    (db_resolved_refs db
       ++ filter (fun r => rr_id r ∉ map rr_id (db_resolved_refs db)) moved).

(** [Store::delete_resolved_unresolved_refs]. *)
Definition delete_resolved_unresolved_refs (db : Db) (row_ids : list Z) : Db :=
  match row_ids with
  | [] => db
  | _ => fold_left move_resolved_chunk (chunks SQLITE_PARAM_CHUNK_SIZE row_ids) db
  end.

Definition without_id (r : UnresolvedRef) : UnresolvedRef :=
  mkUnresolvedRef None (ref_from_node_id r) (ref_reference_name r) (ref_reference_kind r)
    (ref_line r) (ref_col r) (ref_candidates r) (ref_file_path r) (ref_language r)
    (ref_is_function_ref r) (ref_reference_subkind r).

(** [Store::stored_refs_of_file]: both tables, ORDER BY id, ids dropped. *)
Definition stored_refs_of_file (db : Db) (file_path : string)
  : result SqlError (list UnresolvedRef) :=
  refs ← map_M row_to_unresolved_ref
    (sort_by (fun a b => Z.leb (rr_id a) (rr_id b))
       (scan_order "stored_refs_of_file"
          (filter (fun r => rr_file_path r = file_path) (db_unresolved_refs db)
           ++ filter (fun r => rr_file_path r = file_path) (db_resolved_refs db))));
  Ok (map without_id refs).

(** [Store::delete_unresolved_refs_at_sites]: the rows left and the count removed. *)
Definition delete_unresolved_refs_at_sites (db : Db) (sites : list ReferenceSite) : Db * nat :=
  fold_left (fun '(db, removed) site =>
               (with_refs db (filter (fun r => ~ ref_at_site site r) (db_unresolved_refs db))
                          (db_resolved_refs db),
                removed + length (filter (ref_at_site site) (db_unresolved_refs db))))
            (unique_sites sites) (db, 0).

(** The edges [replace_file_resolution_in] deletes: e JOIN nodes src ON the
    source, WHERE src.file_path = the file AND RESOLUTION_EDGE. *)
Definition resolution_edge_of_file (db : Db) (file_path : string) (e : EdgeRow) : Prop :=
  Exists (fun n => nr_id n = er_source e /\ nr_file_path n = file_path) (db_nodes db)
  /\ RESOLUTION_EDGE e = Some true.

#[export] Instance resolution_edge_of_file_dec db f e : Decision (resolution_edge_of_file db f e).
Proof. apply _. Defined.

(** [replace_file_resolution_in]. *)
Definition replace_file_resolution_in (db : Db) (file_path : string) (refs : list UnresolvedRef)
  : result SqlError (Db * nat) :=
  let removed := length (filter (resolution_edge_of_file db file_path) (db_edges db)) in
  let db := with_edges db (filter (fun e => ~ resolution_edge_of_file db file_path e) (db_edges db)) in
  let db := with_refs db (filter (fun r => rr_file_path r <> file_path) (db_unresolved_refs db))
                         (filter (fun r => rr_file_path r <> file_path) (db_resolved_refs db)) in
  db ← insert_unresolved_refs_in_connection db refs;
  Ok (db, removed).

Definition edge_at_site (site : ReferenceSite) (e : EdgeRow) : Prop :=
  er_source e = site_from_node_id site /\ er_line e = Some (site_line site)
  /\ er_col e = Some (site_col site) /\ er_kind e <> "contains".

#[export] Instance edge_at_site_dec site e : Decision (edge_at_site site e).
Proof. apply _. Defined.

(** [replace_site_resolution_in]. *)
Definition replace_site_resolution_in (db : Db) (sites : list ReferenceSite)
    (refs : list UnresolvedRef) : result SqlError (Db * nat) :=
  match unique_sites sites with
  | [] => Ok (db, 0)
  | unique =>
      let '(db, removed) :=
        fold_left (fun '(db, removed) site =>
                     let n := length (filter (edge_at_site site) (db_edges db)) in
                     let db := with_edges db (filter (fun e => ~ edge_at_site site e) (db_edges db)) in
                     (with_refs db
                        (filter (fun r => ~ ref_at_site site r) (db_unresolved_refs db))
                        (filter (fun r => ~ ref_at_site site r) (db_resolved_refs db)),
                      removed + n))
                  unique (db, 0) in
      db ← insert_unresolved_refs_in_connection db refs;
      Ok (db, removed)
  end.

(** [Store::replace_resolution_state_from_file]: one transaction, so an error
    leaves the database as it was. *)
Definition replace_resolution_state_from_file (db : Db) (file_path : string)
    (refs : list UnresolvedRef) : result SqlError (Db * nat) :=
  replace_file_resolution_in db file_path refs.

(** [Store::replace_resolution_states]. *)
Definition replace_resolution_states (db : Db) (replacements : list ResolutionReplacement)
  : result SqlError Db :=
  match replacements with
  | [] => Ok db
  | _ =>
      for_M (fun db replacement =>
               match replacement with
               | ReplaceFile file_path refs =>
                   r ← replace_file_resolution_in db file_path refs; Ok (Continue (fst r))
               | ReplaceSites sites refs =>
                   r ← replace_site_resolution_in db sites refs; Ok (Continue (fst r))
               end)
            db replacements
  end.

(** [Store::replace_resolution_state_at_sites]. *)
Definition replace_resolution_state_at_sites (db : Db) (sites : list ReferenceSite)
    (refs : list UnresolvedRef) : result SqlError (Db * nat) :=
  match sites with
  | [] => Ok (db, 0)
  | _ => replace_site_resolution_in db sites refs
  end.

End Refs.
