(* ===== verification/DbFacts.v ===== *)
(** * The database invariant and the facts about single operations

    [wf_db] is what the schema's constraints and the writers' encodings keep
    true of every database the operations of [Db] and [DbRefs] reach: unique
    keys, the foreign keys, the identity index on edges and rows that parse. *)
From S2P Require Import Prelude Types Rows Db DbRefs.

(** ** Lists under [map] and [filter] *)

Lemma elem_of_map {A B} (f : A -> B) l y : y ∈ map f l <-> exists x, y = f x /\ x ∈ l.
Proof. apply (list_elem_of_fmap f). Qed.

Lemma NoDup_map_submseteq {A B} (f : A -> B) l1 l2 :
  l1 ⊆+ l2 -> NoDup (map f l2) -> NoDup (map f l1).
Proof.
  intros (k & ->)%submseteq_Permutation. change (map f) with (fmap (M:=list) f).
  rewrite fmap_app, NoDup_app. tauto.
Qed.

Lemma NoDup_map_inj {A B} (f : A -> B) l x y :
  NoDup (map f l) -> x ∈ l -> y ∈ l -> f x = f y -> x = y.
Proof.
  induction l as [|z l IH]; cbn; [set_solver|].
  rewrite NoDup_cons, elem_of_map. intros [Hz Hl] Hx Hy E.
  apply elem_of_cons in Hx as [->|Hx], Hy as [->|Hy]; [done| | |auto].
  - destruct Hz. eauto.
  - destruct Hz. eauto.
Qed.

Lemma filter_submseteq {A} (P : A -> Prop) `{!forall x, Decision (P x)} l : filter P l ⊆+ l.
Proof. apply sublist_submseteq, sublist_filter. Qed.

(** [filter] splits a list. *)
Lemma filter_split {A} (P Q : A -> Prop)
    `{!forall x, Decision (P x), !forall x, Decision (Q x)} l :
  (forall x, Q x <-> ~ P x) -> filter Q l ++ filter P l ≡ₚ l.
Proof.
  intros HQ. induction l as [|x l IH]; [done|].
  rewrite !filter_cons. destruct (decide (P x)) as [Hp|Hp], (decide (Q x)) as [Hq|Hq];
    rewrite HQ in Hq; try tauto; cbn.
  - by rewrite <- Permutation_middle, IH.
  - by rewrite IH.
Qed.

#[export] Hint Resolve filter_submseteq : cg.

Lemma Forall_elem {A} {P : A -> Prop} {l x} : Forall P l -> x ∈ l -> P x.
Proof. rewrite Forall_forall. auto. Qed.

(** [chunks] partitions the list. *)
Lemma chunks_concat {A} n (l : list A) : n <> 0 -> mjoin (chunks n l) = l.
Proof.
  intros Hn. unfold chunks. generalize (Nat.le_refl (length l)).
  generalize (length l) at 2 3. intros k. revert l.
  induction k as [|k IH]; intros [|x l] Hl; cbn; try done; [cbn in Hl; lia|].
  destruct n as [|n]; [done|]. cbn. rewrite IH.
  - by rewrite take_drop.
  - rewrite length_drop. cbn in Hl. lia.
Qed.

Lemma elem_of_sorted_unique x ids : x ∈ sorted_unique ids <-> x ∈ ids.
Proof. unfold sorted_unique. by rewrite elem_of_dedup, elem_of_sort_by. Qed.

Lemma elem_of_chunks {A} n (l : list A) x :
  n <> 0 -> (exists chunk, chunk ∈ chunks n l /\ x ∈ chunk) <-> x ∈ l.
Proof.
  intros Hn. trans (x ∈ mjoin (chunks n l)); [|by rewrite chunks_concat].
  rewrite list_elem_of_join. naive_solver.
Qed.

(** [existing_node_ids] is the ids of the argument the table holds. *)
Lemma elem_of_existing_node_ids `{SqlScanLaws} db ids x :
  x ∈ existing_node_ids db ids <-> x ∈ ids /\ x ∈ node_ids db.
Proof.
  unfold existing_node_ids.
  assert (Hfold : forall (cs : list (list string)) (acc : gset string),
    x ∈ fold_left (fun out chunk =>
          list_to_set (scan_order "existing_node_ids"
                         (map nr_id (filter (fun r => nr_id r ∈ chunk) (db_nodes db)))) ∪ out)
          cs acc <-> x ∈ acc \/ (exists c, c ∈ cs /\ x ∈ c) /\ x ∈ node_ids db).
  { induction cs as [|c cs IH]; intros acc; cbn; [set_solver|].
    rewrite IH, elem_of_union, elem_of_list_to_set, scan_perm, elem_of_map.
    unfold node_ids. rewrite elem_of_map. setoid_rewrite list_elem_of_filter.
    set_solver. }
  rewrite Hfold, elem_of_chunks, elem_of_sorted_unique by done. set_solver.
Qed.

(** ** The invariant *)

Section Wf.
Context `{SerdeJson}.

Record wf_db (db : Db) : Prop := {
  wf_node_ids : NoDup (node_ids db);
  wf_nodes_parse : Forall (fun r => exists n, row_to_node r = Ok n) (db_nodes db);
  wf_edge_ids : NoDup (map er_id (db_edges db));
  wf_edge_id_lt : Forall (fun e => (er_id e < db_next_edge_id db)%Z) (db_edges db);
  wf_edge_identity : NoDup (map edge_identity (db_edges db));
  wf_edges_parse : Forall (fun r => exists e, row_to_edge r = Ok e) (db_edges db);
  wf_edges_fk : Forall (fun e => er_source e ∈ node_ids db /\ er_target e ∈ node_ids db)
                  (db_edges db);
  wf_file_paths : NoDup (map fr_path (db_files db));
  wf_files_parse : Forall (fun r => exists f, row_to_file r = Ok f) (db_files db);
  wf_ref_ids : NoDup (map rr_id (db_unresolved_refs db ++ db_resolved_refs db));
  wf_ref_id_lt : Forall (fun r => (rr_id r < db_next_ref_id db)%Z)
                   (db_unresolved_refs db ++ db_resolved_refs db);
  wf_refs_parse : Forall (fun r => exists u, row_to_unresolved_ref r = Ok u)
                    (db_unresolved_refs db ++ db_resolved_refs db);
  wf_refs_fk : Forall (fun r => rr_from_node_id r ∈ node_ids db)
                 (db_unresolved_refs db ++ db_resolved_refs db)
}.

Lemma wf_empty_db : wf_db empty_db.
Proof. split; cbn; constructor. Qed.

Lemma Forall_submseteq {A} (P : A -> Prop) l1 l2 : l1 ⊆+ l2 -> Forall P l2 -> Forall P l1.
Proof. rewrite !Forall_forall. intros Hs H2 x Hx. apply H2. by eapply elem_of_submseteq. Qed.

(** Deleting rows keeps the invariant as long as the foreign keys survive. *)
Lemma wf_db_shrink db db' :
  wf_db db ->
  db_nodes db' ⊆+ db_nodes db -> db_edges db' ⊆+ db_edges db -> db_files db' ⊆+ db_files db ->
  db_unresolved_refs db' ++ db_resolved_refs db' ⊆+ db_unresolved_refs db ++ db_resolved_refs db ->
  db_next_edge_id db' = db_next_edge_id db -> db_next_ref_id db' = db_next_ref_id db ->
  Forall (fun e => er_source e ∈ node_ids db' /\ er_target e ∈ node_ids db') (db_edges db') ->
  Forall (fun r => rr_from_node_id r ∈ node_ids db')
    (db_unresolved_refs db' ++ db_resolved_refs db') ->
  wf_db db'.
Proof.
  intros [] Hn He Hf Hr Een Ern Hfe Hfr. unfold node_ids in *.
  split; unfold node_ids; rewrite ?Een, ?Ern; try done;
    first [by eapply NoDup_map_submseteq | by eapply Forall_submseteq].
Qed.

(** Deleting edges and references only. *)
Lemma wf_db_shrink_edges db db' :
  wf_db db ->
  db_nodes db' = db_nodes db -> db_files db' = db_files db ->
  db_edges db' ⊆+ db_edges db ->
  db_unresolved_refs db' ++ db_resolved_refs db' ⊆+ db_unresolved_refs db ++ db_resolved_refs db ->
  db_next_edge_id db' = db_next_edge_id db -> db_next_ref_id db' = db_next_ref_id db ->
  wf_db db'.
Proof.
  intros Hwf En Ef He Hr Een Ern. eapply wf_db_shrink; eauto; rewrite ?En, ?Ef; try done;
    (eapply Forall_submseteq; [eassumption|]); unfold node_ids; rewrite En; apply Hwf.
Qed.

Lemma delete_nodes_where_wf p db : wf_db db -> wf_db (fst (delete_nodes_where p db)).
Proof.
  intros Hwf. unfold delete_nodes_where. cbn.
  set (gone := map nr_id _).
  assert (Hkeep : forall id, id ∈ node_ids db -> id ∉ gone ->
            id ∈ map nr_id (filter (fun r => p r = false) (db_nodes db))).
  { intros id (r & -> & Hr)%elem_of_map Hg. apply elem_of_map. exists r. split; [done|].
    apply list_elem_of_filter. split; [|done]. destruct (p r) eqn:Hp; [|done].
    destruct Hg. apply elem_of_map. exists r. by rewrite list_elem_of_filter. }
  eapply wf_db_shrink; [exact Hwf|..]; cbn; auto with cg.
  - apply submseteq_app; auto with cg.
  - apply Forall_forall. intros e [[] He]%list_elem_of_filter.
    destruct (Forall_elem (wf_edges_fk _ Hwf) He). split; by apply Hkeep.
  - apply Forall_forall. intros r Hr.
    assert (rr_from_node_id r ∉ gone /\ r ∈ db_unresolved_refs db ++ db_resolved_refs db)
      as [? Hr'] by (rewrite elem_of_app, !list_elem_of_filter in *; tauto).
    apply Hkeep; [|done]. by apply (Forall_elem (wf_refs_fk _ Hwf)).
Qed.

Lemma delete_file_record_wf db f : wf_db db -> wf_db (delete_file_record db f).
Proof.
  intros Hwf%(delete_nodes_where_wf (fun r => String.eqb (nr_file_path r) f)).
  unfold delete_file_record, with_files. destruct Hwf.
  split; cbn; auto.
  - eapply NoDup_map_submseteq; [|done]. auto with cg.
  - eapply Forall_submseteq; [|done]. auto with cg.
Qed.

Lemma move_resolved_chunk_wf db c : wf_db db -> wf_db (move_resolved_chunk db c).
Proof.
  intros Hwf. eapply wf_db_shrink_edges; [exact Hwf|..]; cbn; auto.
  trans (filter (fun r => rr_id r ∉ c) (db_unresolved_refs db)
         ++ (db_resolved_refs db ++ filter (fun r => rr_id r ∈ c) (db_unresolved_refs db))).
  - apply submseteq_skips_l, submseteq_skips_l; auto with cg.
  - rewrite (Permutation_app_comm (db_resolved_refs db)), (assoc_L (++)).
    rewrite filter_split by done. done.
Qed.

Lemma delete_resolved_wf db ids :
  wf_db db -> wf_db (delete_resolved_unresolved_refs db ids).
Proof.
  destruct ids as [|i ids]; [done|]. cbn -[chunks].
  generalize (chunks SQLITE_PARAM_CHUNK_SIZE (i :: ids)). intros cs. revert db.
  induction cs as [|c cs IH]; cbn; auto using move_resolved_chunk_wf.
Qed.

Lemma delete_at_sites_wf db sites :
  wf_db db -> wf_db (fst (delete_unresolved_refs_at_sites db sites)).
Proof.
  unfold delete_unresolved_refs_at_sites. generalize 0, (unique_sites sites). intros n l.
  revert db n. induction l as [|s l IH]; intros db n Hwf; cbn; [done|].
  apply IH. eapply wf_db_shrink_edges; [exact Hwf|..]; cbn; auto.
  apply submseteq_skips_r; auto with cg.
Qed.

Lemma upsert_file_wf `{!SerdeJsonLaws} db f : wf_db db -> wf_db (fst (upsert_file db f)).
Proof.
  intros Hwf. unfold upsert_file; cbn -[file_to_row].
  destruct Hwf; case_decide as Hin; split; cbn -[file_to_row]; auto.
  - rewrite map_map. erewrite map_ext; [exact wf_file_paths0|].
    intros r. cbn. by destruct (String.eqb_spec (fr_path r) (file_path f)).
  - rewrite Forall_forall in *. intros r (r' & -> & Hr')%elem_of_map.
    destruct String.eqb; [rewrite row_to_file_to_row|]; eauto.
  - change (map fr_path) with (fmap (M:=list) fr_path) in *.
    rewrite fmap_app, NoDup_app. split; [done|]. split; [set_solver|apply NoDup_singleton].
  - rewrite Forall_app. split; [done|]. constructor; [|done]. rewrite row_to_file_to_row. eauto.
Qed.

(** *** Upserting nodes *)

Lemma upsert_node_row_ids rows row :
  map nr_id (upsert_node_row rows row)
  = if decide (nr_id row ∈ map nr_id rows) then map nr_id rows else map nr_id rows ++ [nr_id row].
Proof.
  unfold upsert_node_row. case_decide; [|by rewrite map_app].
  rewrite map_map. apply map_ext. intros r. cbn.
  by destruct (String.eqb_spec (nr_id r) (nr_id row)).
Qed.

Lemma upsert_node_row_NoDup rows row :
  NoDup (map nr_id rows) -> NoDup (map nr_id (upsert_node_row rows row)).
Proof.
  intros Hnd. rewrite upsert_node_row_ids. case_decide; [done|].
  apply NoDup_app. split; [done|]. split; [set_solver|apply NoDup_singleton].
Qed.

Lemma elem_of_upsert_node_row rows row r :
  NoDup (map nr_id rows) ->
  r ∈ upsert_node_row rows row <-> r = row \/ (r ∈ rows /\ nr_id r <> nr_id row).
Proof.
  intros Hnd. unfold upsert_node_row. case_decide as Hin.
  - apply elem_of_map in Hin as (r0 & E0 & Hr0). rewrite elem_of_map. split.
    + intros (r' & -> & Hr'). destruct (String.eqb_spec (nr_id r') (nr_id row)); auto.
    + intros [->|[Hr Hne]].
      * exists r0. by rewrite (proj2 (String.eqb_eq _ _) (eq_sym E0)).
      * exists r. by rewrite (proj2 (String.eqb_neq _ _) Hne).
  - rewrite elem_of_app, list_elem_of_singleton. split; [|tauto].
    intros [Hr| ->]; [|auto]. right. split; [done|]. intros E. apply Hin.
    rewrite elem_of_map. eauto.
Qed.

Lemma upsert_rows_fold nodes rows :
  NoDup (map nr_id rows) ->
  let rows' := fold_left (fun rows node => upsert_node_row rows (node_to_row node)) nodes rows in
  NoDup (map nr_id rows') /\
  (forall id, id ∈ map nr_id rows' <-> id ∈ map nr_id rows \/ id ∈ map node_id nodes) /\
  (forall r, r ∈ rows' -> r ∈ rows \/ exists n, n ∈ nodes /\ r = node_to_row n).
Proof.
  revert rows. induction nodes as [|n nodes IH]; intros rows Hnd; cbn; [set_solver|].
  specialize (IH _ (upsert_node_row_NoDup rows (node_to_row n) Hnd)) as (H1 & H2 & H3).
  split; [done|]. split.
  - intros id. rewrite H2, upsert_node_row_ids. case_decide; set_solver.
  - intros r [Hr|(m & ? & ->)]%H3; [|set_solver].
    apply elem_of_upsert_node_row in Hr; [|done]. set_solver.
Qed.

Lemma wf_with_nodes db nodes :
  wf_db db -> NoDup (map nr_id nodes) ->
  (forall id, id ∈ node_ids db -> id ∈ map nr_id nodes) ->
  Forall (fun r => exists n, row_to_node r = Ok n) nodes ->
  wf_db (with_nodes db nodes).
Proof.
  intros [] Hnd Hsub Hp. split; cbn; auto.
  - eapply Forall_impl; [done|]. cbn. naive_solver.
  - eapply Forall_impl; [done|]. cbn. naive_solver.
Qed.

Lemma upsert_nodes_wf `{!SerdeJsonLaws} db nodes db' :
  wf_db db -> upsert_nodes db nodes = Ok db' -> wf_db db'.
Proof.
  intros Hwf. unfold upsert_nodes. destruct (validate_nodes nodes); cbn; try done.
  intros [= <-].
  destruct (upsert_rows_fold nodes (db_nodes db) (wf_node_ids _ Hwf)) as (H1 & H2 & H3).
  apply wf_with_nodes; [done..| |].
  - intros id Hid. apply H2. by left.
  - apply Forall_forall. intros r [Hr|(n & ? & ->)]%H3.
    + by apply (Forall_elem (wf_nodes_parse _ Hwf)).
    + rewrite row_to_node_to_row. eauto.
Qed.

(** *** Inserting edges *)

(** The identity an edge will have in the table. *)
Definition identity_of (e : Edge) : string * string * string * Z * Z :=
  edge_identity (edge_to_row 0 e).

Lemma identity_edge_to_row id e : edge_identity (edge_to_row id e) = identity_of e.
Proof. done. Qed.

(** [db'] is [db] with edges of [pre] appended: each one new by its identity,
    and each edge of [pre] whose endpoints exist is in the table. *)
Record edges_inserted (db : Db) (pre : list Edge) (db' : Db) : Prop := {
  ei_nodes : db_nodes db' = db_nodes db;
  ei_files : db_files db' = db_files db;
  ei_unresolved : db_unresolved_refs db' = db_unresolved_refs db;
  ei_resolved : db_resolved_refs db' = db_resolved_refs db;
  ei_next_ref : db_next_ref_id db' = db_next_ref_id db;
  ei_rows : exists new, db_edges db' = db_edges db ++ new /\
              Forall (fun r => (exists e, e ∈ pre /\ r = edge_to_row (er_id r) e)
                               /\ edge_identity r ∉ map edge_identity (db_edges db)) new;
  ei_present : forall e, e ∈ pre ->
    edge_source e ∈ node_ids db -> edge_target e ∈ node_ids db ->
    identity_of e ∈ map edge_identity (db_edges db')
}.

Lemma edges_inserted_refl db pre :
  (forall e, e ∈ pre -> edge_source e ∈ node_ids db -> edge_target e ∈ node_ids db ->
     identity_of e ∈ map edge_identity (db_edges db)) ->
  edges_inserted db pre db.
Proof. split; auto. exists []. by rewrite app_nil_r. Qed.

(** Nothing is inserted for an edge already present, or with a missing end. *)
Lemma edges_inserted_skip db pre db' e :
  edges_inserted db pre db' ->
  (edge_source e ∈ node_ids db -> edge_target e ∈ node_ids db ->
   identity_of e ∈ map edge_identity (db_edges db')) ->
  edges_inserted db (pre ++ [e]) db'.
Proof.
  intros [? ? ? ? ? (new & Hnew & Hall) Hpres] He. split; auto.
  - exists new. split; [done|]. eapply Forall_impl; [done|]. cbn. set_solver.
  - intros e' [He'|<-%list_elem_of_singleton]%elem_of_app; auto.
Qed.

Lemma insert_edge_row_spec `{!SerdeJsonLaws} db pre db' e :
  wf_db db' -> edges_inserted db pre db' ->
  edge_source e ∈ node_ids db -> edge_target e ∈ node_ids db ->
  returns (insert_edge_row db' e)
    (fun db'' => wf_db db'' /\ edges_inserted db (pre ++ [e]) db'').
Proof.
  intros Hwf Hins Hs Ht. unfold insert_edge_row. rewrite identity_edge_to_row.
  destruct (decide (identity_of e ∈ _)) as [Hin|Hnew].
  { split; [done|]. by apply edges_inserted_skip. }
  assert (En : node_ids db' = node_ids db) by (unfold node_ids; by rewrite (ei_nodes _ _ _ Hins)).
  rewrite decide_True by (rewrite En; done). cbn. split.
  - destruct Hwf. split; cbn; try assumption; rewrite ?map_app, ?Forall_app, ?Forall_singleton; cbn.
    + apply NoDup_app. split; [done|]. split; [|apply NoDup_singleton].
      intros x (r & -> & Hr)%elem_of_map E%list_elem_of_singleton.
      pose proof (Forall_elem wf_edge_id_lt0 Hr). cbn in *. lia.
    + split; [|lia]. eapply Forall_impl; [exact wf_edge_id_lt0|]. cbn. intros. lia.
    + apply NoDup_app. split; [done|]. split; [|apply NoDup_singleton].
      intros x Hx ->%list_elem_of_singleton. by apply Hnew.
    + split; [done|]. destruct (row_to_edge_reads (db_next_edge_id db') e) as (m & -> & _). eauto.
    + split; [done|]. unfold node_ids in *. cbn. by rewrite En.
  - destruct Hins as [? ? ? ? ? (new & Enew & Hall) Hpres]. split; auto; cbn.
    + exists (new ++ [edge_to_row (db_next_edge_id db') e]). rewrite Enew, (assoc_L (++)).
      split; [done|]. rewrite Forall_app, Forall_singleton. split.
      * eapply Forall_impl; [done|]. cbn. set_solver.
      * split; [exists e; set_solver|]. rewrite identity_edge_to_row.
        intros H'. apply Hnew. rewrite Enew, map_app. set_solver.
    + rewrite map_app. intros e' [He'|<-%list_elem_of_singleton]%elem_of_app ??; set_solver.
Qed.

Lemma insert_edges_spec `{!SerdeJsonLaws, SqlScanLaws} db edges :
  wf_db db ->
  returns (insert_edges db edges) (fun db' => wf_db db' /\ edges_inserted db edges db').
Proof.
  intros Hwf. unfold insert_edges.
  destruct edges as [|e0 edges']; [split; [done|]; apply edges_inserted_refl; set_solver|].
  set (edges := e0 :: edges') in *. clearbody edges. clear e0 edges'.
  apply (returns_for_M _ (fun pre db' => wf_db db' /\ edges_inserted db pre db')).
  - split; [done|]. apply edges_inserted_refl; set_solver.
  - intros pre e post db' -> [Hwf' Hins].
    assert (Hex : forall x, x = edge_source e \/ x = edge_target e ->
              x ∈ existing_node_ids db
                    (flat_map (fun e => [edge_source e; edge_target e]) (pre ++ e :: post))
              <-> x ∈ node_ids db).
    { intros x Hx. rewrite elem_of_existing_node_ids. split; [tauto|]. split; [|done].
      apply list_elem_of_In, in_flat_map. exists e. rewrite <- !list_elem_of_In. set_solver. }
    case_decide as Hmiss.
    + split; [done|]. apply edges_inserted_skip; [done|]. intros Hs Ht.
      rewrite !Hex in Hmiss by auto. tauto.
    + apply returns_bind. rewrite !Hex in Hmiss by auto.
      eapply returns_mono; [eapply (insert_edge_row_spec db pre db' e)|]; try done;
        by destruct (decide (edge_source e ∈ node_ids db)),
                    (decide (edge_target e ∈ node_ids db)); tauto.
  - done.
Qed.

End Wf.

#[export] Hint Resolve wf_empty_db : cg.

(** ** Facts about the reference tables and the reachable databases

    What inserting, moving and replacing references does to the tables, and
    the invariant [wf_db] over every sequence of store operations. *)

Section RefFacts.
Context `{SerdeJson} `{SqlScan}.

(** The rows of [refs], numbered from [next]. *)
Fixpoint ref_rows_from (next : Z) (refs : list UnresolvedRef) : list RefRow :=
  match refs with
  | [] => []
  | r :: refs => ref_to_row next r :: ref_rows_from (next + 1) refs
  end.

Lemma ref_rows_from_app next l1 l2 :
  ref_rows_from next (l1 ++ l2)
  = ref_rows_from next l1 ++ ref_rows_from (next + Z.of_nat (length l1)) l2.
Proof.
  revert next; induction l1 as [|r l1 IH]; intros next; cbn.
  - by rewrite Z.add_0_r.
  - rewrite IH. do 3 f_equal. lia.
Qed.

Lemma ref_rows_from_ids next l :
  map rr_id (ref_rows_from next l) = seqZ next (Z.of_nat (length l)).
Proof.
  revert next; induction l as [|r l IH]; intros next; cbn; [done|].
  rewrite IH, (seqZ_cons next) by lia. do 2 f_equal; lia.
Qed.

(** [insert_unresolved_refs_in_connection]: the references whose node exists
    are appended in order, with fresh ids; the others are skipped. *)
Definition refs_appended (db : Db) (refs : list UnresolvedRef) : Db :=
  let kept := filter (fun r => ref_from_node_id r ∈ node_ids db) refs in
  mkDb (db_nodes db) (db_edges db) (db_files db)
       (db_unresolved_refs db ++ ref_rows_from (db_next_ref_id db) kept)
       (db_resolved_refs db) (db_next_edge_id db)
       (db_next_ref_id db + Z.of_nat (length kept)).

Lemma refs_appended_nil db : refs_appended db [] = db.
Proof. destruct db. unfold refs_appended. cbn. by rewrite app_nil_r, Z.add_0_r. Qed.

Lemma refs_appended_snoc db pre r :
  refs_appended db (pre ++ [r])
  = if decide (ref_from_node_id r ∈ node_ids db)
    then mkDb (db_nodes db) (db_edges db) (db_files db)
              (db_unresolved_refs (refs_appended db pre)
                 ++ [ref_to_row (db_next_ref_id (refs_appended db pre)) r])
              (db_resolved_refs db) (db_next_edge_id db)
              (db_next_ref_id (refs_appended db pre) + 1)
    else refs_appended db pre.
Proof.
  unfold refs_appended. cbn. rewrite filter_app, filter_cons, filter_nil.
  case_decide; [|by rewrite app_nil_r].
  rewrite ref_rows_from_app, length_app. cbn. f_equal; [by rewrite app_assoc|lia].
Qed.

Lemma insert_unresolved_refs_in_connection_spec `{!SqlScanLaws} db refs :
  insert_unresolved_refs_in_connection db refs = Ok (refs_appended db refs).
Proof.
  destruct refs as [|r0 refs']; [by rewrite refs_appended_nil|].
  unfold insert_unresolved_refs_in_connection.
  set (refs := r0 :: refs') in *. clearbody refs. clear r0 refs'.
  enough (Hr : returns (for_M (fun db0 unresolved =>
    if decide (ref_from_node_id unresolved ∉ existing_node_ids db (map ref_from_node_id refs))
    then Ok (Continue db0)
    else db' ← insert_ref_row db0 unresolved; Ok (Continue db')) db refs)
    (fun db' => db' = refs_appended db refs)).
  { apply returns_iff in Hr as (? & -> & ->). done. }
  apply (returns_for_M _ (fun pre db' => db' = refs_appended db pre)); [|..|done].
  - by rewrite refs_appended_nil.
  - intros pre r post db' -> ->.
    assert (Hex : ref_from_node_id r ∈ existing_node_ids db
                    (map ref_from_node_id (pre ++ r :: post)) <-> ref_from_node_id r ∈ node_ids db).
    { rewrite elem_of_existing_node_ids, elem_of_map. split; [tauto|]. split; [|done].
      exists r. set_solver. }
    rewrite refs_appended_snoc. unfold insert_ref_row.
    change (node_ids (refs_appended db pre)) with (node_ids db).
    case_decide as Hm; rewrite Hex in Hm.
    + by rewrite decide_False.
    + rewrite !(decide_True (P := ref_from_node_id r ∈ node_ids db))
        by (by destruct (decide (ref_from_node_id r ∈ node_ids db))). done.
Qed.

Lemma refs_appended_wf `{!SerdeJsonLaws} db refs : wf_db db -> wf_db (refs_appended db refs).
Proof.
  intros Hwf. destruct Hwf.
  set (kept := filter (fun r => ref_from_node_id r ∈ node_ids db) refs).
  assert (Hkept : Forall (fun r => exists u id, u ∈ kept /\ r = ref_to_row id u)
                    (ref_rows_from (db_next_ref_id db) kept)).
  { clear. generalize (db_next_ref_id db). induction kept as [|u l IH]; intros n; cbn; [done|].
    constructor; [set_solver|]. eapply Forall_impl; [apply IH|]. cbn. set_solver. }
  assert (Hperm : db_unresolved_refs (refs_appended db refs) ++ db_resolved_refs db
                  ≡ₚ (db_unresolved_refs db ++ db_resolved_refs db)
                     ++ ref_rows_from (db_next_ref_id db) kept).
  { cbn. rewrite <- !app_assoc. apply Permutation_app_head, Permutation_app_comm. }
  split; try assumption; change (db_resolved_refs (refs_appended db refs)) with (db_resolved_refs db);
    rewrite ?Hperm; rewrite ?map_app, ?Forall_app.
  - rewrite ref_rows_from_ids. apply NoDup_app. rewrite <- map_app. split; [done|].
    split; [|apply NoDup_seqZ].
    intros x (r & -> & Hr)%elem_of_map [E _]%elem_of_seqZ.
    pose proof (Forall_elem wf_ref_id_lt0 Hr). cbn in *. lia.
  - rewrite <- Forall_app. cbn. split.
    + eapply Forall_impl; [exact wf_ref_id_lt0|]. cbn. lia.
    + apply Forall_forall. intros r Hr.
      assert (Hid : rr_id r ∈ map rr_id (ref_rows_from (db_next_ref_id db) kept))
        by (rewrite elem_of_map; eauto).
      rewrite ref_rows_from_ids, elem_of_seqZ in Hid. fold kept. lia.
  - rewrite <- Forall_app. split; [done|]. eapply Forall_impl; [exact Hkept|].
    intros r (u & id & _ & ->). rewrite row_to_ref_to_row. eauto.
  - rewrite <- Forall_app. split; [done|]. eapply Forall_impl; [exact Hkept|].
    intros r (u & id & [Hu _]%list_elem_of_filter & ->). done.
Qed.

(** ** Replacing resolution state *)

(** What [replace_file_resolution_in] leaves before it inserts. *)
Definition file_resolution_cleared (db : Db) (file_path : string) : Db :=
  with_refs
    (with_edges db (filter (fun e => ~ resolution_edge_of_file db file_path e) (db_edges db)))
    (filter (fun r => rr_file_path r <> file_path) (db_unresolved_refs db))
    (filter (fun r => rr_file_path r <> file_path) (db_resolved_refs db)).

Lemma replace_file_resolution_in_eq `{!SqlScanLaws} db f refs :
  replace_file_resolution_in db f refs
  = Ok (refs_appended (file_resolution_cleared db f) refs,
        length (filter (resolution_edge_of_file db f) (db_edges db))).
Proof.
  unfold replace_file_resolution_in.
  by rewrite insert_unresolved_refs_in_connection_spec.
Qed.

Lemma file_resolution_cleared_wf db f : wf_db db -> wf_db (file_resolution_cleared db f).
Proof.
  intros Hwf. eapply wf_db_shrink_edges; [exact Hwf|..]; cbn; auto with cg.
  apply submseteq_app; auto with cg.
Qed.

(** One site of [replace_site_resolution_in], and all of them. *)
Definition site_resolution_cleared (db : Db) (site : ReferenceSite) : Db :=
  with_refs
    (with_edges db (filter (fun e => ~ edge_at_site site e) (db_edges db)))
    (filter (fun r => ~ ref_at_site site r) (db_unresolved_refs db))
    (filter (fun r => ~ ref_at_site site r) (db_resolved_refs db)).

Definition sites_resolution_cleared (db : Db) (sites : list ReferenceSite) : Db :=
  fold_left site_resolution_cleared sites db.

Lemma site_fold_fst (sites : list ReferenceSite) db n :
  fst (fold_left (fun '(db, removed) site =>
         let n := length (filter (edge_at_site site) (db_edges db)) in
         let db := with_edges db (filter (fun e => ~ edge_at_site site e) (db_edges db)) in
         (with_refs db
            (filter (fun r => ~ ref_at_site site r) (db_unresolved_refs db))
            (filter (fun r => ~ ref_at_site site r) (db_resolved_refs db)),
          removed + n)) sites (db, n))
  = sites_resolution_cleared db sites.
Proof. revert db n; induction sites as [|s l IH]; intros db n; cbn; [done|]. by rewrite IH. Qed.

Lemma replace_site_resolution_in_eq `{!SqlScanLaws} db sites refs :
  returns (replace_site_resolution_in db sites refs)
    (fun '(db', _) => db' = match unique_sites sites with
                            | [] => db
                            | unique => refs_appended (sites_resolution_cleared db unique) refs
                            end).
Proof.
  unfold replace_site_resolution_in. destruct (unique_sites sites) as [|s l]; [done|].
  pose proof (site_fold_fst (s :: l) db 0) as Hf. revert Hf.
  destruct (fold_left _ (s :: l) (db, 0)) as [db1 n]. cbn [fst]. intros ->.
  by rewrite insert_unresolved_refs_in_connection_spec.
Qed.

Lemma sites_resolution_cleared_wf db sites :
  wf_db db -> wf_db (sites_resolution_cleared db sites).
Proof.
  revert db. induction sites as [|s l IH]; intros db Hwf; cbn; [done|].
  apply IH. eapply wf_db_shrink_edges; [exact Hwf|..]; cbn; auto with cg.
  apply submseteq_app; auto with cg.
Qed.

Lemma replace_site_resolution_in_wf `{!SqlScanLaws, !SerdeJsonLaws} db sites refs :
  wf_db db -> returns (replace_site_resolution_in db sites refs) (fun r => wf_db (fst r)).
Proof.
  intros Hwf. eapply returns_mono; [apply replace_site_resolution_in_eq|].
  intros [db' n] ->. cbn [fst]. destruct (unique_sites sites); [done|].
  by apply refs_appended_wf, sites_resolution_cleared_wf.
Qed.

Lemma replace_file_resolution_in_wf `{!SqlScanLaws, !SerdeJsonLaws} db f refs :
  wf_db db -> returns (replace_file_resolution_in db f refs) (fun r => wf_db (fst r)).
Proof.
  intros Hwf. rewrite replace_file_resolution_in_eq. cbn [returns fst].
  by apply refs_appended_wf, file_resolution_cleared_wf.
Qed.

(** ** Every sequence of operations *)

(** One call of a mutating [Store] method that returns [Ok]. *)
Inductive store_step (db : Db) : Db -> Prop :=
| step_upsert_nodes nodes db' : upsert_nodes db nodes = Ok db' -> store_step db db'
| step_delete_node id : store_step db (fst (delete_node db id))
| step_delete_nodes_by_file f : store_step db (fst (delete_nodes_by_file_path db f))
| step_insert_edges edges db' : insert_edges db edges = Ok db' -> store_step db db'
| step_upsert_file f : store_step db (fst (upsert_file db f))
| step_delete_file_record f : store_step db (delete_file_record db f)
| step_insert_refs refs db' : insert_unresolved_refs db refs = Ok db' -> store_step db db'
| step_delete_resolved ids : store_step db (delete_resolved_unresolved_refs db ids)
| step_delete_at_sites sites : store_step db (fst (delete_unresolved_refs_at_sites db sites))
| step_replace_file f refs db' n :
    replace_resolution_state_from_file db f refs = Ok (db', n) -> store_step db db'
| step_replace_sites sites refs db' n :
    replace_resolution_state_at_sites db sites refs = Ok (db', n) -> store_step db db'
| step_replace_states rs db' : replace_resolution_states db rs = Ok db' -> store_step db db'.

Lemma replace_resolution_states_wf `{!SqlScanLaws, !SerdeJsonLaws} db rs :
  wf_db db -> returns (replace_resolution_states db rs) wf_db.
Proof.
  intros Hwf. destruct rs as [|r rs]; [done|]. apply returns_for_M_inv; [done|].
  intros [f refs|sites refs] db' _ Hwf'.
  - returns_step replace_file_resolution_in_wf; [done|]. auto.
  - returns_step replace_site_resolution_in_wf; [done|]. auto.
Qed.

Lemma store_step_wf `{!SqlScanLaws, !SerdeJsonLaws} db db' :
  store_step db db' -> wf_db db -> wf_db db'.
Proof.
  intros Hstep Hwf. destruct Hstep as [nodes db' E| | |edges db' E| | |refs db' E| | |f refs db' n E|sites refs db' n E
    |rs db' E].
  - by eapply upsert_nodes_wf.
  - by apply delete_nodes_where_wf.
  - by apply delete_nodes_where_wf.
  - exact (proj1 (returns_Ok_elim _ _ _ (insert_edges_spec db edges Hwf) E)).
  - by apply upsert_file_wf.
  - by apply delete_file_record_wf.
  - destruct refs; [by injection E as <-|]. unfold insert_unresolved_refs in E.
    rewrite insert_unresolved_refs_in_connection_spec in E. injection E as <-.
    by apply refs_appended_wf.
  - by apply delete_resolved_wf.
  - by apply delete_at_sites_wf.
  - exact (returns_Ok_elim _ _ _ (replace_file_resolution_in_wf db f refs Hwf) E).
  - destruct sites; [by injection E as <- _|].
    exact (returns_Ok_elim _ _ _ (replace_site_resolution_in_wf db (r :: sites) refs Hwf) E).
  - exact (returns_Ok_elim _ _ _ (replace_resolution_states_wf db rs Hwf) E).
Qed.

End RefFacts.
