(* ===== verification/GraphStore.v ===== *)
(** * The store interface of the graph layer

    [GraphTraverser] holds a [&Store] and reads through ten of its methods.
    [GraphStore] is that interface; [HealthyStore st g] says that the store
    answers from the graph [g]: every read succeeds and returns the matching
    nodes or edges, each once, in an order of the store's own. The graph
    theorems are proved against the interface; [StoreView] discharges it for
    the database of [Db]. *)
From S2P Require Import Prelude Types Rows.

Class GraphStore (St : Type) := {
  node_by_id : St -> string -> result SqlError (option Node);
  nodes_by_ids : St -> list string -> result SqlError (gmap string Node);
  nodes_by_kind : St -> NodeKind -> result SqlError (list Node);
  nodes_by_name : St -> string -> result SqlError (list Node);
  edges_by_source_kind : St -> string -> option EdgeKind -> result SqlError (list Edge);
  edges_by_target_kind : St -> string -> option EdgeKind -> result SqlError (list Edge);
  all_files : St -> result SqlError (list FileRecord);
  all_unresolved_refs : St -> result SqlError (list UnresolvedRef);
  unresolved_refs_by_names : St -> list string -> result SqlError (list UnresolvedRef);
  dependency_file_paths : St -> string -> result SqlError (list string)
}.

(** ** The graph a store holds *)

Record GraphView : Type := mkView {
  gv_nodes : gmap string Node;
  gv_edges : list Edge;
  gv_files : list FileRecord;
  gv_refs : list UnresolvedRef
}.

(** An optional kind filter. *)
Definition kind_selected (kind : option EdgeKind) (e : Edge) : Prop :=
  match kind with None => True | Some k => edge_kind e = k end.

#[export] Instance kind_selected_dec kind e : Decision (kind_selected kind e).
Proof. destruct kind; cbn; apply _. Defined.

(** The non-[contains] dependencies between files. *)
Definition file_depends (g : GraphView) (f f' : string) : Prop :=
  exists e src tgt, e ∈ gv_edges g /\ edge_kind e <> EkContains
    /\ gv_nodes g !! edge_source e = Some src /\ gv_nodes g !! edge_target e = Some tgt
    /\ node_file_path src = f /\ node_file_path tgt = f' /\ f' <> f.

(** The view's own consistency: keys, foreign keys, no repeated edge. *)
Class WfView (g : GraphView) : Prop := {
  view_key : forall id n, gv_nodes g !! id = Some n -> node_id n = id;
  view_source : forall e, e ∈ gv_edges g -> is_Some (gv_nodes g !! edge_source e);
  view_target : forall e, e ∈ gv_edges g -> is_Some (gv_nodes g !! edge_target e);
  view_edges_NoDup : NoDup (gv_edges g);
  view_files_NoDup : NoDup (map file_path (gv_files g))
}.

Class HealthyStore {St} `{GraphStore St} (st : St) (g : GraphView) : Prop := {
  healthy_view :: WfView g;
  healthy_node_by_id : forall id, node_by_id st id = Ok (gv_nodes g !! id);
  healthy_nodes_by_ids : forall ids,
    returns (nodes_by_ids st ids)
      (fun m => forall id, m !! id = if decide (id ∈ ids) then gv_nodes g !! id else None);
  healthy_nodes_by_kind : forall kind,
    returns (nodes_by_kind st kind)
      (fun ns => NoDup ns /\ forall n, n ∈ ns <->
         gv_nodes g !! node_id n = Some n /\ node_kind n = kind);
  healthy_nodes_by_name : forall name,
    returns (nodes_by_name st name)
      (fun ns => NoDup ns /\ forall n, n ∈ ns <->
         gv_nodes g !! node_id n = Some n /\ node_name n = name);
  healthy_edges_by_source : forall id kind,
    returns (edges_by_source_kind st id kind)
      (fun es => es ≡ₚ filter (fun e => edge_source e = id /\ kind_selected kind e) (gv_edges g));
  healthy_edges_by_target : forall id kind,
    returns (edges_by_target_kind st id kind)
      (fun es => es ≡ₚ filter (fun e => edge_target e = id /\ kind_selected kind e) (gv_edges g));
  healthy_all_files : returns (all_files st) (fun fs => fs ≡ₚ gv_files g);
  healthy_all_unresolved_refs : returns (all_unresolved_refs st) (fun rs => rs ≡ₚ gv_refs g);
  healthy_unresolved_refs_by_names : forall names,
    returns (unresolved_refs_by_names st names)
      (fun rs => forall r, r ∈ rs <-> r ∈ gv_refs g /\ ref_reference_name r ∈ names);
  healthy_dependency_file_paths : forall f,
    returns (dependency_file_paths st f)
      (fun fs => NoDup fs /\ forall f', f' ∈ fs <-> file_depends g f f')
}.

(** ** Consequences used by the clients *)

Section Healthy.
Context {St} `{HS : HealthyStore St st g}.

Lemma elem_of_edges_by_source id kind :
  returns (edges_by_source_kind st id kind)
    (fun es => NoDup es /\ forall e, e ∈ es <->
       e ∈ gv_edges g /\ edge_source e = id /\ kind_selected kind e).
Proof.
  eapply returns_mono; [apply healthy_edges_by_source|]. intros es Hes. split.
  - rewrite Hes. apply NoDup_filter, view_edges_NoDup.
  - intros e. rewrite Hes, list_elem_of_filter. tauto.
Qed.

Lemma elem_of_edges_by_target id kind :
  returns (edges_by_target_kind st id kind)
    (fun es => NoDup es /\ forall e, e ∈ es <->
       e ∈ gv_edges g /\ edge_target e = id /\ kind_selected kind e).
Proof.
  eapply returns_mono; [apply healthy_edges_by_target|]. intros es Hes. split.
  - rewrite Hes. apply NoDup_filter, view_edges_NoDup.
  - intros e. rewrite Hes, list_elem_of_filter. tauto.
Qed.

Lemma nodes_by_ids_lookup ids :
  returns (nodes_by_ids st ids)
    (fun m => forall id, id ∈ ids -> m !! id = gv_nodes g !! id).
Proof.
  eapply returns_mono; [apply healthy_nodes_by_ids|]. intros m Hm id Hid.
  by rewrite Hm, decide_True.
Qed.

End Healthy.
