(* ===== verification/StoreView.v ===== *)
(** * The database implements the store interface

    The reads of [Db] and [DbRefs] as an instance of [GraphStore], the graph a
    database holds ([view_of]), and the theorem that a well-formed database is
    a [HealthyStore] of that graph: what the graph layer assumes of its store. *)
From S2P Require Import Prelude Types Rows Db DbRefs DbFacts GraphStore.

#[export] Instance DbStore `{SerdeJson} `{SqlScan} : GraphStore Db := {|
  node_by_id := db_node_by_id;
  nodes_by_ids := db_nodes_by_ids;
  nodes_by_kind := db_nodes_by_kind;
  nodes_by_name := db_nodes_by_name;
  edges_by_source_kind := db_edges_by_source_kind;
  edges_by_target_kind := db_edges_by_target_kind;
  all_files := db_all_files;
  all_unresolved_refs := db_all_unresolved_refs;
  unresolved_refs_by_names := db_unresolved_refs_by_names;
  dependency_file_paths db f := Ok (db_dependency_file_paths db f)
|}.

(** ** The rows of a table, parsed *)

Definition result_option {E A} (m : result E A) : option A :=
  match m with Ok a => Some a | _ => None end.

Definition parsed {E A R} (parse : R -> result E A) (rows : list R) : list A :=
  omap (fun r => result_option (parse r)) rows.

Section Parsed.
Context {E A R : Type} (parse : R -> result E A).

Definition parses (r : R) : Prop := exists a, parse r = Ok a.

Lemma parsed_cons r rows :
  parsed parse (r :: rows)
  = match parse r with Ok a => a :: parsed parse rows | _ => parsed parse rows end.
Proof. unfold parsed. cbn. by destruct (parse r). Qed.

Lemma map_M_parsed rows : Forall parses rows -> map_M parse rows = Ok (parsed parse rows).
Proof.
  induction 1 as [|r rows [a Ha] _ IH]; [done|]. unfold parsed in *. cbn.
  rewrite Ha. cbn. by rewrite IH.
Qed.

Lemma elem_of_parsed a rows : a ∈ parsed parse rows <-> exists r, r ∈ rows /\ parse r = Ok a.
Proof.
  unfold parsed. rewrite list_elem_of_omap. split; intros (r & Hr & Hp); exists r; split; auto.
  - destruct (parse r); cbn in Hp; congruence.
  - by rewrite Hp.
Qed.

Lemma parsed_perm rows rows' : rows ≡ₚ rows' -> parsed parse rows ≡ₚ parsed parse rows'.
Proof. intros Hp. unfold parsed. by rewrite Hp. Qed.

(** A condition on the row that is one on the parsed value. *)
Lemma parsed_filter (P : R -> Prop) (Q : A -> Prop)
    `{!forall r, Decision (P r), !forall a, Decision (Q a)} rows :
  (forall r a, parse r = Ok a -> P r <-> Q a) ->
  parsed parse (filter P rows) = filter Q (parsed parse rows).
Proof.
  intros HPQ. induction rows as [|r rows IH]; [done|].
  rewrite filter_cons, parsed_cons. destruct (parse r) as [a| |] eqn:Ha.
  - rewrite filter_cons. specialize (HPQ r a Ha).
    destruct (decide (P r)), (decide (Q a)); try tauto; by rewrite ?parsed_cons, ?Ha, IH.
  - destruct (decide (P r)); by rewrite ?parsed_cons, ?Ha.
  - destruct (decide (P r)); by rewrite ?parsed_cons, ?Ha.
Qed.

Lemma parsed_keys {K} (key : A -> K) (rkey : R -> K) rows :
  (forall r a, parse r = Ok a -> key a = rkey r) -> Forall parses rows ->
  map key (parsed parse rows) = map rkey rows.
Proof.
  intros Hk. induction 1 as [|r rows [a Ha] _ IH]; [done|]. unfold parsed in *. cbn.
  rewrite Ha. cbn. by rewrite IH, (Hk r a).
Qed.

End Parsed.

(** ** What a parsed value keeps of its row *)

Lemma parse_node_kind_inv s k : parse_node_kind s = Ok k -> NodeKind_as_str k = s.
Proof.
  unfold parse_node_kind.
  repeat match goal with
         | |- (if String.eqb s ?c then _ else _) = _ -> _ =>
             destruct (String.eqb_spec s c) as [->|_]; [by intros [= <-]|]
         end.
  done.
Qed.

Lemma parse_edge_kind_inv s k : parse_edge_kind s = Ok k -> EdgeKind_as_str k = s.
Proof.
  unfold parse_edge_kind. destruct (edge_kind_named s) eqn:Hk; [|done].
  intros [= <-]. by apply edge_kind_named_inv.
Qed.

(** Peel the binds of a successful parse. *)
Ltac parse_inv :=
  repeat match goal with
         | |- (mbind _ ?m) = Ok _ -> _ =>
             let Hm := fresh "Hm" in destruct m eqn:Hm; cbn [mbind result_bind]; try done
         | |- Ok _ = Ok _ -> _ => intros [= <-]
         end.

Section RowFields.
Context `{SerdeJson}.

Lemma row_to_node_fields r n :
  row_to_node r = Ok n ->
  node_id n = nr_id r /\ node_name n = nr_name r /\ node_file_path n = nr_file_path r
  /\ NodeKind_as_str (node_kind n) = nr_kind r.
Proof. unfold row_to_node. parse_inv. cbn. auto using parse_node_kind_inv. Qed.

Lemma row_to_edge_fields r e :
  row_to_edge r = Ok e ->
  edge_id e = Some (er_id r) /\ edge_source e = er_source r /\ edge_target e = er_target r
  /\ EdgeKind_as_str (edge_kind e) = er_kind r.
Proof. unfold row_to_edge. parse_inv. cbn. auto using parse_edge_kind_inv. Qed.

Lemma row_to_file_fields r f : row_to_file r = Ok f -> file_path f = fr_path r.
Proof. unfold row_to_file. by parse_inv. Qed.

Lemma row_to_ref_fields r u :
  row_to_unresolved_ref r = Ok u ->
  ref_reference_name u = rr_reference_name r /\ ref_from_node_id u = rr_from_node_id r
  /\ ref_id u = Some (rr_id r) /\ ref_file_path u = rr_file_path r.
Proof. unfold row_to_unresolved_ref. parse_inv. done. Qed.

End RowFields.

(** ** The view *)

Section View.
Context `{SerdeJson}.

Definition nodes_view (rows : list NodeRow) : gmap string Node :=
  list_to_map (map (fun n => (node_id n, n)) (parsed row_to_node rows)).

Definition view_of (db : Db) : GraphView := {|
  gv_nodes := nodes_view (db_nodes db);
  gv_edges := parsed row_to_edge (db_edges db);
  gv_files := parsed row_to_file (db_files db);
  gv_refs := parsed row_to_unresolved_ref (db_unresolved_refs db)
|}.

(** The stored node of an id is the parsed row of that id. *)
Lemma lookup_nodes_view db id n :
  wf_db db ->
  gv_nodes (view_of db) !! id = Some n
  <-> exists r, r ∈ db_nodes db /\ nr_id r = id /\ row_to_node r = Ok n.
Proof.
  intros Hwf. unfold view_of, nodes_view. cbn. rewrite <- elem_of_list_to_map.
  - rewrite (elem_of_map (fun n => (node_id n, n))). split.
    + intros (m & [= -> ->] & (r & Hr & Hp)%elem_of_parsed). exists r.
      by rewrite (proj1 (row_to_node_fields r m Hp)).
    + intros (r & Hr & <- & Hp). exists n. rewrite elem_of_parsed.
      rewrite (proj1 (row_to_node_fields r n Hp)). eauto.
  - change (fmap fst) with (map (@fst string Node)). rewrite map_map. cbn.
    rewrite (parsed_keys row_to_node node_id nr_id);
      [exact (wf_node_ids _ Hwf)| |exact (wf_nodes_parse _ Hwf)].
    intros r a Hp. apply row_to_node_fields in Hp. tauto.
Qed.

Lemma view_node_is_Some db id :
  wf_db db -> is_Some (gv_nodes (view_of db) !! id) <-> id ∈ node_ids db.
Proof.
  intros Hwf. unfold node_ids. rewrite elem_of_map. split.
  - intros [n Hn]. apply lookup_nodes_view in Hn as (r & Hr & <- & _); [|done]. eauto.
  - intros (r & -> & Hr). destruct (Forall_elem (wf_nodes_parse _ Hwf) Hr) as [n Hn].
    exists n. apply lookup_nodes_view; eauto.
Qed.

Lemma view_of_wf db : wf_db db -> WfView (view_of db).
Proof.
  intros Hwf. split.
  - intros id n Hn. apply lookup_nodes_view in Hn as (r & _ & <- & Hp); [|done].
    apply row_to_node_fields in Hp. tauto.
  - intros e (r & Hr & Hp)%elem_of_parsed. apply view_node_is_Some; [done|].
    apply row_to_edge_fields in Hp as (_ & -> & _). by apply (Forall_elem (wf_edges_fk _ Hwf)).
  - intros e (r & Hr & Hp)%elem_of_parsed. apply view_node_is_Some; [done|].
    apply row_to_edge_fields in Hp as (_ & _ & -> & _). by apply (Forall_elem (wf_edges_fk _ Hwf)).
  - apply (NoDup_fmap_1 edge_id). change (fmap edge_id) with (map edge_id). cbn.
    rewrite (parsed_keys row_to_edge edge_id (fun r => Some (er_id r))); [| |exact (wf_edges_parse _ Hwf)].
    + rewrite <- (map_map er_id Some). apply (NoDup_fmap_2 Some), (wf_edge_ids _ Hwf).
    + intros r a Hp. apply row_to_edge_fields in Hp. tauto.
  - cbn. rewrite (parsed_keys row_to_file file_path fr_path);
      [exact (wf_file_paths _ Hwf)| |exact (wf_files_parse _ Hwf)].
    apply row_to_file_fields.
Qed.

End View.

(** ** Every read of a well-formed database *)

Section Reads.
Context `{SqlScanLaws} `{SerdeJson}.
Implicit Types db : Db.

Lemma scan_Forall {A} (P : A -> Prop) q rows : Forall P rows -> Forall P (scan_order q rows).
Proof. by rewrite scan_perm. Qed.

(** A filtered scan of a table whose rows parse. *)
Lemma scan_parsed {A R} (parse : R -> result SqlError A) (P : R -> Prop) (Q : A -> Prop)
    `{!forall r, Decision (P r), !forall a, Decision (Q a)} q rows :
  Forall (parses parse) rows -> (forall r a, parse r = Ok a -> P r <-> Q a) ->
  returns (map_M parse (scan_order q (filter P rows)))
    (fun l => l ≡ₚ filter Q (parsed parse rows)).
Proof.
  intros Hall HPQ. rewrite map_M_parsed.
  - cbn. rewrite <- (parsed_filter parse P Q) by done. apply parsed_perm, scan_perm.
  - apply scan_Forall. by eapply Forall_submseteq; [apply filter_submseteq|].
Qed.

Lemma db_node_by_id_ok db id :
  wf_db db -> db_node_by_id db id = Ok (gv_nodes (view_of db) !! id).
Proof.
  intros Hwf. unfold db_node_by_id.
  pose proof (scan_perm "node_by_id" (filter (fun r => nr_id r = id) (db_nodes db))) as Hp.
  destruct (scan_order _ _) as [|row rest].
  - destruct (gv_nodes (view_of db) !! id) as [n|] eqn:Hn; [|done].
    apply lookup_nodes_view in Hn as (r & Hr & Hid & _); [|done].
    apply Permutation_nil_l in Hp.
    assert (Hin : r ∈ filter (fun r => nr_id r = id) (db_nodes db))
      by (by apply list_elem_of_filter).
    rewrite <- Hp in Hin. set_solver.
  - assert (Hrow : row ∈ filter (fun r => nr_id r = id) (db_nodes db)) by (rewrite <- Hp; set_solver).
    apply list_elem_of_filter in Hrow as [Hid Hrow].
    destruct (Forall_elem (wf_nodes_parse _ Hwf) Hrow) as [n Hn]. rewrite Hn. cbn.
    f_equal. symmetry. apply lookup_nodes_view; eauto.
Qed.

Lemma fold_insert_nodes (nodes : gmap string Node) ns (out : gmap string Node) id :
  (forall n, n ∈ ns -> nodes !! node_id n = Some n) ->
  fold_left (fun out n => <[node_id n := n]> out) ns out !! id
  = if decide (id ∈ map node_id ns) then nodes !! id else out !! id.
Proof.
  revert out. induction ns as [|n ns IH]; intros out Hns; [done|].
  cbn [fold_left map]. rewrite IH by set_solver.
  destruct (decide (id ∈ map node_id ns)).
  - by rewrite decide_True by set_solver.
  - destruct (decide (node_id n = id)) as [<-|Hne].
    + rewrite lookup_insert_eq, decide_True by set_solver. symmetry. apply Hns. set_solver.
    + rewrite lookup_insert_ne, decide_False by set_solver. done.
Qed.

Lemma db_nodes_by_ids_ok db ids :
  wf_db db ->
  returns (db_nodes_by_ids db ids)
    (fun m => forall id, m !! id = if decide (id ∈ ids) then gv_nodes (view_of db) !! id else None).
Proof.
  intros Hwf. unfold db_nodes_by_ids. destruct ids as [|i ids]; [done|].
  set (all := i :: ids). clearbody all. clear i ids.
  eapply returns_mono; [apply (returns_for_M _ (fun pre m => forall id,
    m !! id = if decide (id ∈ mjoin pre) then gv_nodes (view_of db) !! id else None))|].
  - done.
  - intros pre chunk post m Hsplit Hm.
    returns_step (scan_parsed row_to_node (fun r => nr_id r ∈ chunk) (fun n => node_id n ∈ chunk)).
    + exact (wf_nodes_parse _ Hwf).
    + intros r n Hp. by rewrite (proj1 (row_to_node_fields r n Hp)).
    + intros ns Hns id. cbn beta.
      assert (Hel : forall n, n ∈ ns <-> node_id n ∈ chunk /\ n ∈ parsed row_to_node (db_nodes db))
        by (intros n; by rewrite Hns, list_elem_of_filter).
      rewrite (fold_insert_nodes (gv_nodes (view_of db))), Hm.
      2:{ intros n [_ (r & Hr & Hp)%elem_of_parsed]%Hel. apply lookup_nodes_view; [done|].
          exists r. rewrite (proj1 (row_to_node_fields r n Hp)). eauto. }
      rewrite join_app. cbn. rewrite app_nil_r.
      destruct (decide (id ∈ map node_id ns)) as [(n' & -> & [Hc _]%Hel)%elem_of_map|Hout].
      * by rewrite decide_True by set_solver.
      * destruct (decide (id ∈ mjoin pre)); [by rewrite decide_True by set_solver|].
        case_decide as Hin; [|done]. symmetry.
        destruct (gv_nodes (view_of db) !! id) as [n'|] eqn:Hn; [|done]. destruct Hout.
        apply lookup_nodes_view in Hn as (r & Hr & <- & Hp); [|done].
        pose proof (proj1 (row_to_node_fields r n' Hp)) as Eid. rewrite <- Eid.
        apply elem_of_map. exists n'. split; [done|]. apply Hel.
        split; [rewrite Eid; apply elem_of_app in Hin; tauto|].
        apply elem_of_parsed. eauto.
  - intros m Hm. exact Hm.
  - intros m Hm id. cbn beta in Hm. rewrite Hm, chunks_concat by done.
    apply decide_ext, elem_of_sorted_unique.
Qed.

Lemma parsed_nodes_NoDup db : wf_db db -> NoDup (parsed row_to_node (db_nodes db)).
Proof.
  intros Hwf. apply (NoDup_fmap_1 node_id). change (fmap node_id) with (map node_id).
  rewrite (parsed_keys row_to_node node_id nr_id);
    [exact (wf_node_ids _ Hwf)| |exact (wf_nodes_parse _ Hwf)].
  intros r a Hp. apply row_to_node_fields in Hp. tauto.
Qed.

Lemma elem_of_parsed_nodes db n :
  wf_db db ->
  n ∈ parsed row_to_node (db_nodes db) <-> gv_nodes (view_of db) !! node_id n = Some n.
Proof.
  intros Hwf. rewrite elem_of_parsed, lookup_nodes_view by done. split; intros (r & Hr).
  - exists r. destruct Hr as [Hr Hp]. by rewrite (proj1 (row_to_node_fields r n Hp)).
  - exists r. tauto.
Qed.

(** [query_nodes] with a condition on the parsed node. *)
Lemma query_nodes_ok db q p (Q : Node -> Prop) `{!forall n, Decision (Q n)} :
  wf_db db -> (forall r n, row_to_node r = Ok n -> p r = true <-> Q n) ->
  returns (query_nodes q p db)
    (fun ns => NoDup ns /\ forall n, n ∈ ns <-> gv_nodes (view_of db) !! node_id n = Some n /\ Q n).
Proof.
  intros Hwf HQ. unfold query_nodes.
  eapply returns_mono; [apply (scan_parsed row_to_node _ Q); [apply (wf_nodes_parse _ Hwf)|done]|].
  intros ns Hns. split.
  - rewrite Hns. by apply NoDup_filter, parsed_nodes_NoDup.
  - intros n. rewrite Hns, list_elem_of_filter, elem_of_parsed_nodes by done. tauto.
Qed.

Lemma query_edges_ok db q p (Q : Edge -> Prop) `{!forall e, Decision (Q e)} :
  wf_db db -> (forall r e, row_to_edge r = Ok e -> p r = true <-> Q e) ->
  returns (query_edges q p db) (fun es => es ≡ₚ filter Q (gv_edges (view_of db))).
Proof.
  intros Hwf HQ. apply (scan_parsed row_to_edge _ Q); [apply (wf_edges_parse _ Hwf)|done].
Qed.

Lemma db_edges_by_source_ok db id kind :
  wf_db db ->
  returns (db_edges_by_source_kind db id kind)
    (fun es => es ≡ₚ filter (fun e => edge_source e = id /\ kind_selected kind e)
                            (gv_edges (view_of db))).
Proof.
  intros Hwf. destruct kind as [k|]; apply query_edges_ok; try done;
    intros r e (_ & -> & _ & Hk)%row_to_edge_fields; cbn.
  - rewrite andb_true_iff, !String.eqb_eq, <- Hk. split.
    + intros [-> ->%(inj EdgeKind_as_str)]. done.
    + by intros [-> ->].
  - rewrite String.eqb_eq. tauto.
Qed.

Lemma db_edges_by_target_ok db id kind :
  wf_db db ->
  returns (db_edges_by_target_kind db id kind)
    (fun es => es ≡ₚ filter (fun e => edge_target e = id /\ kind_selected kind e)
                            (gv_edges (view_of db))).
Proof.
  intros Hwf. destruct kind as [k|]; apply query_edges_ok; try done;
    intros r e (_ & _ & -> & Hk)%row_to_edge_fields; cbn.
  - rewrite andb_true_iff, !String.eqb_eq, <- Hk. split.
    + intros [-> ->%(inj EdgeKind_as_str)]. done.
    + by intros [-> ->].
  - rewrite String.eqb_eq. tauto.
Qed.

Lemma db_all_files_ok db :
  wf_db db -> returns (db_all_files db) (fun fs => fs ≡ₚ gv_files (view_of db)).
Proof.
  intros Hwf. unfold db_all_files. rewrite map_M_parsed.
  - cbn. apply parsed_perm. by rewrite sort_by_perm, scan_perm.
  - rewrite sort_by_perm, scan_perm. exact (wf_files_parse _ Hwf).
Qed.

Lemma wf_unresolved_parse db : wf_db db -> Forall (parses row_to_unresolved_ref) (db_unresolved_refs db).
Proof. intros Hwf. pose proof (wf_refs_parse _ Hwf) as Hp. by apply Forall_app in Hp as [? _]. Qed.

Lemma db_all_unresolved_refs_ok db :
  wf_db db -> returns (db_all_unresolved_refs db) (fun rs => rs ≡ₚ gv_refs (view_of db)).
Proof.
  intros Hwf. unfold db_all_unresolved_refs. rewrite map_M_parsed.
  - cbn. apply parsed_perm, scan_perm.
  - rewrite scan_perm. by apply wf_unresolved_parse.
Qed.

Lemma db_unresolved_refs_by_names_ok db names :
  wf_db db ->
  returns (db_unresolved_refs_by_names db names)
    (fun rs => forall r, r ∈ rs <-> r ∈ gv_refs (view_of db) /\ ref_reference_name r ∈ names).
Proof.
  intros Hwf. unfold db_unresolved_refs_by_names.
  destruct names as [|n names]; [cbn; set_solver|].
  set (all := n :: names). clearbody all. clear n names.
  apply (returns_for_M _ (fun pre rs => forall r,
    r ∈ rs <-> r ∈ gv_refs (view_of db) /\ ref_reference_name r ∈ mjoin pre)).
  - cbn. set_solver.
  - intros pre chunk post rs _ Hrs.
    returns_step (scan_parsed row_to_unresolved_ref (fun r => rr_reference_name r ∈ chunk)
                    (fun u => ref_reference_name u ∈ chunk)).
    + by apply wf_unresolved_parse.
    + intros r u (-> & _)%row_to_ref_fields. done.
    + intros us Hus r. rewrite elem_of_app, Hrs, Hus, list_elem_of_filter, join_app, elem_of_app.
      cbn. rewrite app_nil_r. tauto.
  - intros rs Hrs r. rewrite Hrs, chunks_concat, elem_of_sorted_unique by done. done.
Qed.

Lemma db_dependency_file_paths_ok db f :
  wf_db db ->
  NoDup (db_dependency_file_paths db f)
  /\ forall f', f' ∈ db_dependency_file_paths db f <-> file_depends (view_of db) f f'.
Proof.
  intros Hwf. unfold db_dependency_file_paths. split; [rewrite scan_perm; apply NoDup_remove_dups|].
  intros f'. rewrite scan_perm, elem_of_remove_dups. unfold file_depends.
  setoid_rewrite (lookup_nodes_view db _ _ Hwf). rewrite list_elem_of_bind. split.
  - intros (er & (srow & (trow & Hin & [Ht1 Ht2]%list_elem_of_filter)%list_elem_of_bind
        & [Hs1 Hs2]%list_elem_of_filter)%list_elem_of_bind & Her).
    case_decide as Hc; [|set_solver]. apply list_elem_of_singleton in Hin as ->.
    destruct (Forall_elem (wf_edges_parse _ Hwf) Her) as [e He].
    destruct (Forall_elem (wf_nodes_parse _ Hwf) Hs2) as [sn Hsn].
    destruct (Forall_elem (wf_nodes_parse _ Hwf) Ht2) as [tn Htn].
    pose proof (row_to_edge_fields er e He) as (_ & Es & Et & Ek).
    pose proof (row_to_node_fields srow sn Hsn) as (_ & _ & Efs & _).
    pose proof (row_to_node_fields trow tn Htn) as (_ & _ & Eft & _).
    exists e, sn, tn. rewrite Es, Et, Efs, Eft. destruct Hc as (<- & Hk & Hne).
    split; [apply elem_of_parsed; eauto|]. split; [intros E; apply Hk; by rewrite <- Ek, E|].
    split; [by exists srow|]. split; [by exists trow|]. done.
  - intros (e & sn & tn & (er & Her & He)%elem_of_parsed & Hk & (srow & Hs & Hsid & Hsn)
        & (trow & Ht & Htid & Htn) & <- & <- & Hne).
    pose proof (row_to_edge_fields er e He) as (_ & Es & Et & Ek).
    pose proof (row_to_node_fields srow sn Hsn) as (_ & _ & Efs & _).
    pose proof (row_to_node_fields trow tn Htn) as (_ & _ & Eft & _).
    exists er. split; [|done]. apply list_elem_of_bind. exists srow.
    split; [|by rewrite list_elem_of_filter, <- Es].
    apply list_elem_of_bind. exists trow. split; [|by rewrite list_elem_of_filter, <- Et].
    rewrite Efs, Eft in *. rewrite decide_True; [set_solver|]. split; [done|]. split; [|done].
    rewrite <- Ek. intros E. apply Hk. by apply (inj EdgeKind_as_str).
Qed.

(** What the graph layer assumes of its store holds of a well-formed database. *)
Lemma wf_db_healthy db : wf_db db -> HealthyStore db (view_of db).
Proof.
  intros Hwf. split; cbn -[view_of].
  - by apply view_of_wf.
  - intros id. by apply db_node_by_id_ok.
  - intros ids. by apply db_nodes_by_ids_ok.
  - intros k. apply (query_nodes_ok _ _ _ (fun n => node_kind n = k)); [done|]. intros r n (_ & _ & _ & Hk)%row_to_node_fields.
    rewrite String.eqb_eq, <- Hk. split; [apply (inj NodeKind_as_str)|by intros ->].
  - intros name. apply (query_nodes_ok _ _ _ (fun n => node_name n = name)); [done|]. intros r n (_ & -> & _)%row_to_node_fields.
    apply String.eqb_eq.
  - intros id k. by apply db_edges_by_source_ok.
  - intros id k. by apply db_edges_by_target_ok.
  - by apply db_all_files_ok.
  - by apply db_all_unresolved_refs_ok.
  - intros names. by apply db_unresolved_refs_by_names_ok.
  - intros f. by apply db_dependency_file_paths_ok.
Qed.

End Reads.
