(* ===== verification/GraphCore.v ===== *)
(** * The data of the traversals and their helpers
      (crates/codegraph-graph/src/graph/mod.rs)

    Options, subgraphs, reported rows; the edge readers over a list of kinds;
    the depth bookkeeping ([nearer_than_before], [enter_at_depth]). *)
From S2P Require Import Prelude Types Rows GraphStore.

(** ** Data *)

(** [CONTAINER_KINDS]. *)
Definition CONTAINER_KINDS : list NodeKind :=
  [NkClass; NkInterface; NkStruct; NkUnion; NkTrait; NkProtocol; NkModule; NkEnum].

Inductive Direction : Set := Outgoing | Incoming | Both.

#[export] Instance Direction_eq_dec : EqDecision Direction.
Proof. solve_decision. Defined.

Record TraversalOptions : Set := mkOptions {
  max_depth : option nat;
  edge_kinds : list EdgeKind;
  node_kinds : list NodeKind;
  direction : Direction;
  limit : nat;
  include_start : bool
}.

(** [impl Default for TraversalOptions]. *)
Definition TraversalOptions_default : TraversalOptions :=
  {| max_depth := None; edge_kinds := []; node_kinds := []; direction := Outgoing;
     limit := 1000; include_start := true |}.

(** [struct Subgraph]. *)
Record Subgraph : Type := mkSubgraph {
  sg_nodes : gmap string Node;
  sg_node_order : list string;
  sg_edges : list Edge;
  sg_roots : list string
}.

(** [Subgraph::empty]. *)
Definition Subgraph_empty : Subgraph := mkSubgraph ∅ [] [] [].

(** [Subgraph::set_node]. *)
Definition set_node (graph : Subgraph) (node : Node) : Subgraph :=
  mkSubgraph (<[node_id node := node]> (sg_nodes graph))
    (if decide (is_Some (sg_nodes graph !! node_id node)) then sg_node_order graph
     else sg_node_order graph ++ [node_id node])
    (sg_edges graph) (sg_roots graph).

(** [graph.edges.push(edge)]. *)
Definition push_edge (graph : Subgraph) (edge : Edge) : Subgraph :=
  mkSubgraph (sg_nodes graph) (sg_node_order graph) (sg_edges graph ++ [edge]) (sg_roots graph).

(** [graph.roots = vec![..]]. *)
Definition set_roots (graph : Subgraph) (roots : list string) : Subgraph :=
  mkSubgraph (sg_nodes graph) (sg_node_order graph) (sg_edges graph) roots.

(** [Subgraph::ordered_nodes]. *)
Definition ordered_nodes (graph : Subgraph) : list Node :=
  omap (fun id => sg_nodes graph !! id) (sg_node_order graph).

Record NodeEdge : Set := mkNodeEdge { ne_node : Node; ne_edge : Edge }.

Record PathStep : Set := mkPathStep { ps_node : Node; ps_edge : option Edge }.

Record PathSearchStats : Set := mkStats {
  enqueued : nat;
  dequeued : nat;
  duplicate_dequeues : nat
}.

(** ** Helpers *)

(** [structural_priority]: [contains] < [calls] < everything else. *)
Definition structural_priority (edge : Edge) : Z :=
  match edge_kind edge with EkContains => 0 | EkCalls => 1 | _ => 2 end.

(** [depth_reached]. *)
Definition depth_reached (depth : nat) (max_depth : option nat) : bool :=
  match max_depth with Some max => bool_decide (max <= depth) | None => false end.

(** [neighbor_id]. *)
Definition neighbor_id (edge : Edge) (id : string) : string :=
  if String.eqb (edge_source edge) id then edge_target edge else edge_source edge.

(** [unvisited_neighbor_ids]. *)
Definition unvisited_neighbor_ids (edges : list Edge) (id : string) (visited : gset string)
  : list string :=
  filter (fun id => id ∉ visited) (map (fun e => neighbor_id e id) edges).

(** [nearer_than_before]. *)
Definition nearer_than_before (visited : gmap string nat) (id : string) (depth : nat) : bool :=
  match visited !! id with Some seen => bool_decide (depth < seen) | None => true end.

(** [enter_at_depth]: the map updated, or [None] where the code answers false. *)
Definition enter_at_depth (visited : gmap string nat) (id : string) (depth : nat)
  : option (gmap string nat) :=
  if nearer_than_before visited id depth then Some (<[id := depth]> visited) else None.

Section Edges.
Context {St} `{GraphStore St} (st : St).

(** [outgoing_edges_kinds]. *)
Definition outgoing_edges_kinds (id : string) (kinds : list EdgeKind)
  : result SqlError (list Edge) :=
  for_M (fun out kind => es ← edges_by_source_kind st id (Some kind); Ok (Continue (out ++ es)))
        [] kinds.

(** [incoming_edges_kinds]. *)
Definition incoming_edges_kinds (id : string) (kinds : list EdgeKind)
  : result SqlError (list Edge) :=
  for_M (fun out kind => es ← edges_by_target_kind st id (Some kind); Ok (Continue (out ++ es)))
        [] kinds.

(** [outgoing_edges]: an empty kind list means every kind. *)
Definition outgoing_edges (id : string) (kinds : list EdgeKind) : result SqlError (list Edge) :=
  match kinds with
  | [] => edges_by_source_kind st id None
  | _ => outgoing_edges_kinds id kinds
  end.

(** [incoming_edges]. *)
Definition incoming_edges (id : string) (kinds : list EdgeKind) : result SqlError (list Edge) :=
  match kinds with
  | [] => edges_by_target_kind st id None
  | _ => incoming_edges_kinds id kinds
  end.

(** [adjacent_edges]. *)
Definition adjacent_edges (id : string) (dir : Direction) (kinds : list EdgeKind)
  : result SqlError (list Edge) :=
  match dir with
  | Outgoing => outgoing_edges id kinds
  | Incoming => incoming_edges id kinds
  | Both =>
      outgoing ← outgoing_edges id kinds;
      incoming ← incoming_edges id kinds;
      Ok (outgoing ++ incoming)
  end.

(** [get_children]. *)
Definition get_children (id : string) : result SqlError (list Node) :=
  contains ← outgoing_edges_kinds id [EkContains];
  match contains with
  | [] => Ok []
  | _ =>
      child_nodes ← nodes_by_ids st (map edge_target contains);
      Ok (omap (fun edge => child_nodes !! edge_target edge) contains)
  end.

(** [find_usages]. *)
Definition find_usages (id : string) : result SqlError (list NodeEdge) :=
  incoming ← incoming_edges id [];
  match incoming with
  | [] => Ok []
  | _ =>
      sources ← nodes_by_ids st (map edge_source incoming);
      Ok (omap (fun edge => (fun source => mkNodeEdge source edge)
                              <$> (sources !! edge_source edge)) incoming)
  end.

(** [find_all_definitions]. *)
Definition find_all_definitions (name : string) : result SqlError (list Node) :=
  nodes_by_name st name.

End Edges.

(** ** Facts *)

(** A subgraph whose order lists its nodes, each once. *)
Definition ordered (graph : Subgraph) : Prop :=
  NoDup (sg_node_order graph)
  /\ forall id, id ∈ sg_node_order graph <-> is_Some (sg_nodes graph !! id).

Lemma ordered_empty : ordered Subgraph_empty.
Proof.
  split; [constructor|]. intros id. cbn. rewrite lookup_empty, is_Some_alt. set_solver.
Qed.

Lemma ordered_set_node graph node : ordered graph -> ordered (set_node graph node).
Proof.
  intros [Hnd Heq]. unfold set_node. split; cbn; case_decide as Hin.
  - done.
  - apply NoDup_app. split; [done|]. split; [|apply NoDup_singleton].
    intros x Hx ->%list_elem_of_singleton. apply Hin. by apply Heq.
  - intros id. rewrite Heq, lookup_insert_is_Some. destruct (decide (node_id node = id)); naive_solver.
  - intros id. rewrite elem_of_app, list_elem_of_singleton, Heq, lookup_insert_is_Some.
    destruct (decide (node_id node = id)); naive_solver.
Qed.

Lemma ordered_push_edge graph e : ordered graph -> ordered (push_edge graph e).
Proof. done. Qed.

#[export] Hint Resolve ordered_empty ordered_set_node ordered_push_edge : cg.

(** An ordered subgraph hands out its nodes, each once. *)
Lemma ordered_nodes_elem graph n :
  ordered graph -> n ∈ ordered_nodes graph <-> exists id, sg_nodes graph !! id = Some n.
Proof.
  intros [_ Heq]. unfold ordered_nodes. rewrite list_elem_of_omap. split.
  - intros (id & _ & Hid). eauto.
  - intros (id & Hid). exists id. split; [|done]. apply Heq. eauto.
Qed.

Lemma depth_reached_spec depth max :
  depth_reached depth max = true <-> exists m, max = Some m /\ m <= depth.
Proof.
  destruct max as [m|]; cbn.
  - rewrite bool_decide_eq_true. naive_solver.
  - naive_solver.
Qed.

Section HealthyEdges.
Context {St} `{HS : HealthyStore St st g}.

Lemma outgoing_edges_kinds_ok id kinds :
  returns (outgoing_edges_kinds st id kinds)
    (fun es => (NoDup kinds -> NoDup es) /\ forall e, e ∈ es <->
       e ∈ gv_edges g /\ edge_source e = id /\ edge_kind e ∈ kinds).
Proof.
  apply (returns_for_M _ (fun pre es => (NoDup pre -> NoDup es) /\ forall e, e ∈ es <->
       e ∈ gv_edges g /\ edge_source e = id /\ edge_kind e ∈ pre)); [| |done].
  - split; [constructor|set_solver].
  - intros pre k post es -> [Hes Hin]. returns_step elem_of_edges_by_source.
    intros es' [Hes' Hin']. cbn in *. split.
    + intros Hnd. apply NoDup_app in Hnd as (Hpre & Hd & _).
      apply NoDup_app. split; [auto|]. split; [|done]. intros e He He'.
      rewrite Hin in He. rewrite Hin' in He'. set_solver.
    + intros e. rewrite !elem_of_app, Hin, Hin', list_elem_of_singleton. tauto.
Qed.

Lemma incoming_edges_kinds_ok id kinds :
  returns (incoming_edges_kinds st id kinds)
    (fun es => (NoDup kinds -> NoDup es) /\ forall e, e ∈ es <->
       e ∈ gv_edges g /\ edge_target e = id /\ edge_kind e ∈ kinds).
Proof.
  apply (returns_for_M _ (fun pre es => (NoDup pre -> NoDup es) /\ forall e, e ∈ es <->
       e ∈ gv_edges g /\ edge_target e = id /\ edge_kind e ∈ pre)); [| |done].
  - split; [constructor|set_solver].
  - intros pre k post es -> [Hes Hin]. returns_step elem_of_edges_by_target.
    intros es' [Hes' Hin']. cbn in *. split.
    + intros Hnd. apply NoDup_app in Hnd as (Hpre & Hd & _).
      apply NoDup_app. split; [auto|]. split; [|done]. intros e He He'.
      rewrite Hin in He. rewrite Hin' in He'. set_solver.
    + intros e. rewrite !elem_of_app, Hin, Hin', list_elem_of_singleton. tauto.
Qed.

(** The kind filter of the edge readers: an empty list lets every kind pass. *)
Definition kinds_allow (kinds : list EdgeKind) (e : Edge) : Prop :=
  kinds = [] \/ edge_kind e ∈ kinds.

(** The edges a direction follows from a node. *)
Definition adjacent_to (dir : Direction) (id : string) (e : Edge) : Prop :=
  match dir with
  | Outgoing => edge_source e = id
  | Incoming => edge_target e = id
  | Both => edge_source e = id \/ edge_target e = id
  end.

Lemma outgoing_edges_ok id kinds :
  returns (outgoing_edges st id kinds)
    (fun es => (NoDup kinds -> NoDup es) /\ forall e, e ∈ es <->
       e ∈ gv_edges g /\ edge_source e = id /\ kinds_allow kinds e).
Proof.
  destruct kinds as [|k kinds].
  - eapply returns_mono; [apply elem_of_edges_by_source|]. intros es [Hnd Hin].
    split; [done|]. intros e. rewrite Hin. unfold kinds_allow. cbn. naive_solver.
  - eapply returns_mono; [apply outgoing_edges_kinds_ok|]. intros es [Hnd Hin].
    split; [done|]. intros e. rewrite Hin. unfold kinds_allow. naive_solver.
Qed.

Lemma incoming_edges_ok id kinds :
  returns (incoming_edges st id kinds)
    (fun es => (NoDup kinds -> NoDup es) /\ forall e, e ∈ es <->
       e ∈ gv_edges g /\ edge_target e = id /\ kinds_allow kinds e).
Proof.
  destruct kinds as [|k kinds].
  - eapply returns_mono; [apply elem_of_edges_by_target|]. intros es [Hnd Hin].
    split; [done|]. intros e. rewrite Hin. unfold kinds_allow. cbn. naive_solver.
  - eapply returns_mono; [apply incoming_edges_kinds_ok|]. intros es [Hnd Hin].
    split; [done|]. intros e. rewrite Hin. unfold kinds_allow. naive_solver.
Qed.

Lemma adjacent_edges_ok id dir kinds :
  returns (adjacent_edges st id dir kinds)
    (fun es => forall e, e ∈ es <->
       e ∈ gv_edges g /\ adjacent_to dir id e /\ kinds_allow kinds e).
Proof.
  destruct dir; cbn.
  - eapply returns_mono; [apply outgoing_edges_ok|]. by intros es [_ ?].
  - eapply returns_mono; [apply incoming_edges_ok|]. by intros es [_ ?].
  - returns_step outgoing_edges_ok. intros out [_ Hout].
    returns_step incoming_edges_ok. intros inc [_ Hinc]. cbn.
    intros e. rewrite elem_of_app, Hout, Hinc. tauto.
Qed.

(** Both ends of a stored edge are stored. *)
Lemma neighbor_stored id e :
  e ∈ gv_edges g -> is_Some (gv_nodes g !! neighbor_id e id).
Proof.
  intros He. unfold neighbor_id. destruct String.eqb; [by apply view_target|by apply view_source].
Qed.

End HealthyEdges.

(** ** Depth bookkeeping *)

Section Depths.
Implicit Types visited : gmap string nat.

(** [visited'] records every node of [visited], no farther. *)
Definition depths_le visited visited' : Prop :=
  forall id a, visited !! id = Some a -> exists b, visited' !! id = Some b /\ b <= a.

#[export] Instance depths_le_preorder : PreOrder depths_le.
Proof.
  split.
  - intros v id a Ha. eauto.
  - intros v1 v2 v3 H12 H23 id a (b & Hb & ?)%H12. apply H23 in Hb as (c & ? & ?).
    exists c. split; [done|lia].
Qed.

Lemma nearer_than_before_spec visited id depth :
  nearer_than_before visited id depth = true
  <-> forall a, visited !! id = Some a -> depth < a.
Proof.
  unfold nearer_than_before. destruct (visited !! id) as [a|].
  - rewrite bool_decide_eq_true. naive_solver.
  - naive_solver.
Qed.

Lemma not_nearer visited id depth :
  nearer_than_before visited id depth = false
  <-> exists a, visited !! id = Some a /\ a <= depth.
Proof.
  unfold nearer_than_before. destruct (visited !! id) as [a|].
  - rewrite bool_decide_eq_false. split; [exists a; auto with lia|naive_solver lia].
  - naive_solver.
Qed.

Lemma enter_at_depth_le visited visited' id depth :
  enter_at_depth visited id depth = Some visited' ->
  depths_le visited visited' /\ visited' = <[id := depth]> visited
  /\ nearer_than_before visited id depth = true.
Proof.
  unfold enter_at_depth. destruct nearer_than_before eqn:Hn; [|done]. intros [= <-].
  split; [|done]. intros x a Ha. destruct (decide (x = id)) as [->|Hne].
  - exists depth. rewrite lookup_insert_eq. split; [done|].
    rewrite nearer_than_before_spec in Hn. specialize (Hn a Ha). lia.
  - exists a. by rewrite lookup_insert_ne.
Qed.

(** The nodes of [U] a visit at [depth] would still expand: the measure of
    the depth-limited walks. *)
Definition pending (U : gset string) visited (depth : nat) : nat :=
  size (filter (fun id => nearer_than_before visited id depth = true) U).

Lemma pending_mono U visited visited' depth depth' :
  depths_le visited visited' -> depth <= depth' ->
  pending U visited' depth' <= pending U visited depth.
Proof.
  intros Hle Hd. apply size_filter_le. intros id. rewrite !nearer_than_before_spec.
  intros H a (b & Hb & ?)%Hle. specialize (H b Hb). lia.
Qed.

Lemma pending_enter U visited visited' id depth :
  id ∈ U -> enter_at_depth visited id depth = Some visited' ->
  pending U visited' depth < pending U visited depth.
Proof.
  intros HU (Hle & -> & Hn)%enter_at_depth_le. apply (size_filter_lt _ _ _ id); [done|done| |].
  - rewrite nearer_than_before_spec, lookup_insert_eq. intros H. specialize (H depth eq_refl). lia.
  - intros y. rewrite !nearer_than_before_spec. intros H a (b & Hb & ?)%Hle.
    specialize (H b Hb). lia.
Qed.

Lemma pending_le U visited depth : pending U visited depth <= size U.
Proof. unfold pending. apply subseteq_size. set_solver. Qed.

End Depths.
