(* ===== verification/Callers.v ===== *)
(** * Callers, callees and the call graph
      (crates/codegraph-graph/src/graph/mod.rs, [get_callers] .. [get_call_graph])

    Both walks are the same depth-limited search with re-expansion: a node is
    expanded again when a nearer path reaches it. Their common facts are proved
    once, of [depth_walk], which both definitions unfold to. *)
From S2P Require Import Prelude Types Rows GraphStore GraphCore.

(** The three [&mut] accumulators of the recursion. *)
Record WalkState : Type := mkWalk {
  walk_result : list NodeEdge;
  walk_visited : gmap string nat;
  walk_reported : gset (string * EdgeKind)
}.

Definition WalkState_new : WalkState := mkWalk [] ∅ ∅.

Definition set_visited (s : WalkState) visited : WalkState :=
  mkWalk (walk_result s) visited (walk_reported s).

(** [if reported.insert((id, edge.kind)) { result.push(NodeEdge { .. }) }]. *)
Definition report (s : WalkState) (node : Node) (edge : Edge) : WalkState :=
  if decide ((node_id node, edge_kind edge) ∈ walk_reported s) then s
  else mkWalk (walk_result s ++ [mkNodeEdge node edge]) (walk_visited s)
              ({[ (node_id node, edge_kind edge) ]} ∪ walk_reported s).

Definition CALL_EDGE_KINDS : list EdgeKind := [EkCalls; EkReferences; EkImports; EkInstantiates].

Section Walks.
Context {St} `{GraphStore St} (st : St).

(** [callers_recursive]. *)
Fixpoint callers_recursive (fuel : nat) (id : string) (max_depth current_depth : nat)
    (s : WalkState) : result SqlError WalkState :=
  match fuel with
  | 0 => OutOfFuel
  | S fuel =>
      if bool_decide (max_depth <= current_depth) then Ok s else
      match enter_at_depth (walk_visited s) id current_depth with
      | None => Ok s
      | Some visited =>
          let s := set_visited s visited in
          incoming ← incoming_edges_kinds st id CALL_EDGE_KINDS;
          match incoming with
          | [] => Ok s
          | _ =>
              caller_nodes ← nodes_by_ids st (map edge_source incoming);
              for_M (fun s edge =>
                       match caller_nodes !! edge_source edge with
                       | None => Ok (Continue s)
                       | Some caller =>
                           let caller_id := node_id caller in
                           let next_depth := current_depth + 1 in
                           let recurse := nearer_than_before (walk_visited s) caller_id next_depth in
                           let s := report s caller edge in
                           if recurse
                           then s ← callers_recursive fuel caller_id max_depth next_depth s;
                                Ok (Continue s)
                           else Ok (Continue s)
                       end)
                    s incoming
          end
      end
  end.

(** [get_callers]. *)
Definition get_callers (fuel : nat) (id : string) (max_depth : nat)
  : result SqlError (list NodeEdge) :=
  walk_result <$> callers_recursive fuel id max_depth 0 WalkState_new.

(** [callees_recursive]. *)
Fixpoint callees_recursive (fuel : nat) (id : string) (max_depth current_depth : nat)
    (s : WalkState) : result SqlError WalkState :=
  match fuel with
  | 0 => OutOfFuel
  | S fuel =>
      if bool_decide (max_depth <= current_depth) then Ok s else
      match enter_at_depth (walk_visited s) id current_depth with
      | None => Ok s
      | Some visited =>
          let s := set_visited s visited in
          outgoing ← outgoing_edges_kinds st id CALL_EDGE_KINDS;
          match outgoing with
          | [] => Ok s
          | _ =>
              callee_nodes ← nodes_by_ids st (map edge_target outgoing);
              for_M (fun s edge =>
                       match callee_nodes !! edge_target edge with
                       | None => Ok (Continue s)
                       | Some callee =>
                           let callee_id := node_id callee in
                           let next_depth := current_depth + 1 in
                           let recurse := nearer_than_before (walk_visited s) callee_id next_depth in
                           let s := report s callee edge in
                           if recurse
                           then s ← callees_recursive fuel callee_id max_depth next_depth s;
                                Ok (Continue s)
                           else Ok (Continue s)
                       end)
                    s outgoing
          end
      end
  end.

(** [get_callees]. *)
Definition get_callees (fuel : nat) (id : string) (max_depth : nat)
  : result SqlError (list NodeEdge) :=
  walk_result <$> callees_recursive fuel id max_depth 0 WalkState_new.

(** [get_call_graph]. *)
Definition get_call_graph (fuel : nat) (id : string) (depth : nat) : result SqlError Subgraph :=
  focal ← node_by_id st id;
  match focal with
  | None => Ok Subgraph_empty
  | Some focal =>
      let graph := set_node Subgraph_empty focal in
      let add graph entry := push_edge (set_node graph (ne_node entry)) (ne_edge entry) in
      callers ← get_callers fuel id depth;
      let graph := fold_left add callers graph in
      callees ← get_callees fuel id depth;
      let graph := fold_left add callees graph in
      Ok (set_roots graph [id])
  end.

End Walks.

(** ** The common walk *)

Section DepthWalk.
Context {St} `{HS : HealthyStore St st g}.
Variable neighbors : string -> result SqlError (list Edge).
Variable far : Edge -> string.

(** The edges [neighbors] follows out of a node. *)
Variable follows : string -> Edge -> Prop.
Hypothesis neighbors_ok : forall id,
  returns (neighbors id) (fun es => forall e, e ∈ es <-> follows id e).
Hypothesis far_stored : forall id e, follows id e -> is_Some (gv_nodes g !! far e).

Fixpoint depth_walk (fuel : nat) (id : string) (max_depth current_depth : nat)
    (s : WalkState) : result SqlError WalkState :=
  match fuel with
  | 0 => OutOfFuel
  | S fuel =>
      if bool_decide (max_depth <= current_depth) then Ok s else
      match enter_at_depth (walk_visited s) id current_depth with
      | None => Ok s
      | Some visited =>
          let s := set_visited s visited in
          es ← neighbors id;
          match es with
          | [] => Ok s
          | _ =>
              nodes ← nodes_by_ids st (map far es);
              for_M (fun s edge =>
                       match nodes !! far edge with
                       | None => Ok (Continue s)
                       | Some n =>
                           let next_depth := current_depth + 1 in
                           let recurse := nearer_than_before (walk_visited s) (node_id n) next_depth in
                           let s := report s n edge in
                           if recurse
                           then s ← depth_walk fuel (node_id n) max_depth next_depth s;
                                Ok (Continue s)
                           else Ok (Continue s)
                       end)
                    s es
          end
      end
  end.

(** [within n a b]: [b] is at most [n] followed edges away from [a]. *)
Inductive within : nat -> string -> string -> Prop :=
| within_refl n a : within n a a
| within_step n a b e : within n a b -> follows b e -> within (S n) a (far e).

Lemma within_mono n m a b : within n a b -> n <= m -> within m a b.
Proof.
  intros Hw. revert m. induction Hw as [n a|n a b e _ IH He]; intros m Hm; [constructor|].
  destruct m as [|m]; [lia|]. apply (within_step m a b e); [apply IH; lia|done].
Qed.

(** ** The invariant of the walk from [start] *)

Section Start.
Variables (start : string) (max : nat).

(** What the accumulators hold is true of the graph. *)
Record walk_sound (s : WalkState) : Prop := {
  ws_visited : forall id a, walk_visited s !! id = Some a -> a < max /\ within a start id;
  ws_result : forall ne, ne ∈ walk_result s ->
    gv_nodes g !! far (ne_edge ne) = Some (ne_node ne)
    /\ exists id a, a < max /\ within a start id /\ follows id (ne_edge ne);
  ws_reported : forall p, p ∈ walk_reported s <->
    exists ne, ne ∈ walk_result s /\ p = (node_id (ne_node ne), edge_kind (ne_edge ne));
  ws_NoDup : NoDup (map (fun ne => (node_id (ne_node ne), edge_kind (ne_edge ne))) (walk_result s))
}.

(** Everything about the edges of a node expanded at depth [a] is recorded. *)
Definition edge_recorded (s : WalkState) (a : nat) (e : Edge) : Prop :=
  (far e, edge_kind e) ∈ walk_reported s
  /\ (a + 1 < max -> exists b, walk_visited s !! far e = Some b /\ b <= a + 1).

Definition closed_at (s : WalkState) (id : string) (a : nat) : Prop :=
  forall e, follows id e -> edge_recorded s a e.

(** [s'] extends [s], and what it visited beyond [s] is closed. *)
Record walk_extends (s s' : WalkState) : Prop := {
  we_depths : depths_le (walk_visited s) (walk_visited s');
  we_reported : walk_reported s ⊆ walk_reported s';
  we_closed : forall id a, walk_visited s' !! id = Some a ->
    walk_visited s !! id = Some a \/ closed_at s' id a
}.

Lemma edge_recorded_mono s s' a e :
  depths_le (walk_visited s) (walk_visited s') -> walk_reported s ⊆ walk_reported s' ->
  edge_recorded s a e -> edge_recorded s' a e.
Proof.
  intros Hd Hr [H1 H2]. split; [set_solver|]. intros Ha.
  destruct (H2 Ha) as (b & Hb & ?). apply Hd in Hb as (c & ? & ?). exists c. split; [done|lia].
Qed.

Lemma walk_extends_refl s : walk_extends s s.
Proof. split; [done|done|]. auto. Qed.

Lemma walk_extends_trans s1 s2 s3 :
  walk_extends s1 s2 -> walk_extends s2 s3 -> walk_extends s1 s3.
Proof.
  intros [D12 R12 C12] [D23 R23 C23]. split; [by etrans|set_solver|].
  intros id a [Ha|Hc]%C23; [|by right]. apply C12 in Ha as [Ha|Hc]; [by left|].
  right. intros e He. by eapply edge_recorded_mono; [| |apply Hc].
Qed.

Lemma report_visited s n e : walk_visited (report s n e) = walk_visited s.
Proof. unfold report. by case_decide. Qed.

Lemma report_reported s n e :
  walk_reported (report s n e) = {[ (node_id n, edge_kind e) ]} ∪ walk_reported s.
Proof. unfold report. case_decide; cbn; set_solver. Qed.

Lemma report_extends s n e : walk_extends s (report s n e).
Proof.
  split; rewrite ?report_visited, ?report_reported; [done|set_solver|]. auto.
Qed.

Lemma report_sound s n e id a :
  walk_sound s -> gv_nodes g !! far e = Some n -> a < max -> within a start id ->
  follows id e -> walk_sound (report s n e).
Proof.
  intros [Hv Hres Hrep Hnd] Hn Ha Hw He. unfold report. case_decide as Hin; [done|].
  split; cbn; [done| | |].
  - intros ne [Hne| ->%list_elem_of_singleton]%elem_of_app; [auto|]. cbn. eauto 10.
  - intros p. rewrite elem_of_union, elem_of_singleton, Hrep.
    setoid_rewrite elem_of_app. setoid_rewrite list_elem_of_singleton. split.
    + intros [->|(ne & ? & ->)]; [exists (mkNodeEdge n e)|exists ne]; auto.
    + intros (ne & [?| ->] & ->); [right; eauto|by left].
  - rewrite map_app. apply NoDup_app. split; [done|]. split; [|apply NoDup_singleton].
    intros p Hp Ep%list_elem_of_singleton. apply Hin, Hrep. rewrite Ep in Hp.
    apply (list_elem_of_fmap (fun ne => (node_id (ne_node ne), edge_kind (ne_edge ne)))) in Hp
      as (ne & E & ?). eauto.
Qed.

Lemma enter_sound s id d visited :
  walk_sound s -> d < max -> within d start id ->
  enter_at_depth (walk_visited s) id d = Some visited -> walk_sound (set_visited s visited).
Proof.
  intros [Hv Hres Hrep Hnd] Hd Hw (_ & -> & _)%enter_at_depth_le. split; cbn; auto.
  intros x a. destruct (decide (x = id)) as [->|Hne].
  - rewrite lookup_insert_eq. by intros [= <-].
  - rewrite lookup_insert_ne by done. auto.
Qed.

(** ** One call of the walk *)

(** What a call at [id], [d] establishes. *)
Definition walk_post (id : string) (d : nat) (s s' : WalkState) : Prop :=
  walk_sound s' /\ walk_extends s s'
  /\ (d < max -> exists b, walk_visited s' !! id = Some b /\ b <= d).

(** The state of the loop over a node's edges, [pre] of them handled. *)
Definition loop_inv (s1 : WalkState) (d : nat) (pre : list Edge) (s : WalkState) : Prop :=
  walk_sound s /\ walk_extends s1 s /\ (forall e, e ∈ pre -> edge_recorded s d e).

Lemma loop_inv_step s1 d pre s s' e :
  loop_inv s1 d pre s -> walk_sound s' -> walk_extends s s' ->
  edge_recorded s' d e -> loop_inv s1 d (pre ++ [e]) s'.
Proof.
  intros (Hs & Hext & Hpre) Hs' Hext' He. split; [done|]. split; [by eapply walk_extends_trans|].
  intros e' [He'| ->%list_elem_of_singleton]%elem_of_app; [|done].
  eapply edge_recorded_mono; [apply Hext'|apply Hext'|auto].
Qed.

(** After the loop the call's own node is closed too. *)
Lemma loop_inv_done id d s visited es s' :
  enter_at_depth (walk_visited s) id d = Some visited ->
  (forall e, follows id e -> e ∈ es) ->
  loop_inv (set_visited s visited) d es s' -> walk_post id d s s'.
Proof.
  intros Hent Hes (Hs' & [Dle Rle Hcl] & Hrec).
  pose proof Hent as (Hle & -> & _)%enter_at_depth_le. split; [done|]. split.
  - split; [by etrans|done|]. intros x a Hx.
    destruct (Hcl x a Hx) as [Ha|]; [|by right]. cbn in Ha.
    destruct (decide (x = id)) as [->|Hne].
    + rewrite lookup_insert_eq in Ha. injection Ha as <-. right. intros e He. auto.
    + rewrite lookup_insert_ne in Ha by done. by left.
  - intros _. apply Dle. cbn. apply lookup_insert_eq.
Qed.

(** The body of the loop, given the recursive call's contract. *)
Lemma loop_body (rec : string -> WalkState -> result SqlError WalkState) s1 d id pre s e n :
  (forall n s, walk_sound s -> within (d + 1) start (node_id n) -> gv_nodes g !! node_id n = Some n ->
     depths_le (walk_visited s1) (walk_visited s) ->
     returns (rec (node_id n) s) (walk_post (node_id n) (d + 1) s)) ->
  d < max -> within d start id -> follows id e -> gv_nodes g !! far e = Some n ->
  loop_inv s1 d pre s ->
  returns
    (let recurse := nearer_than_before (walk_visited s) (node_id n) (d + 1) in
     let s := report s n e in
     if recurse then s' ← rec (node_id n) s; Ok (Continue s') else Ok (Continue s))
    (fun r => match r with Continue s' => loop_inv s1 d (pre ++ [e]) s' | Break _ => False end).
Proof.
  intros Hrec Hd Hw He Hn Hinv.
  assert (Hid : node_id n = far e) by (by eapply view_key).
  assert (Hrep : walk_sound (report s n e)) by (by eapply report_sound; first apply Hinv).
  assert (Hin : (far e, edge_kind e) ∈ walk_reported (report s n e))
    by (rewrite report_reported, Hid; set_solver).
  destruct nearer_than_before eqn:Hnear; cbn.
  - apply returns_bind. eapply returns_mono.
    + apply Hrec; [done| | |].
      * rewrite Hid, Nat.add_1_r. by eapply within_step.
      * by rewrite Hid.
      * rewrite report_visited. apply Hinv.
    + intros s' (Hs' & Hext' & Hvis). cbn.
      eapply loop_inv_step; [done|done| |].
      * eapply walk_extends_trans; [apply report_extends|done].
      * split; [by apply (we_reported _ _ Hext')|]. rewrite <- Hid. exact Hvis.
  - eapply loop_inv_step; [done|done|apply report_extends|]. split; [done|].
    intros _. rewrite report_visited. rewrite <- Hid. by apply not_nearer.
Qed.

Lemma depth_walk_post (U : gset string) fuel id d s :
  (forall x n, gv_nodes g !! x = Some n -> x ∈ U) -> id ∈ U ->
  pending U (walk_visited s) d < fuel ->
  walk_sound s -> within d start id ->
  returns (depth_walk fuel id max d s) (walk_post id d s).
Proof.
  intros HU. revert id d s. induction fuel as [|fuel IH]; intros id d s Hid Hfuel Hs Hw; [lia|].
  cbn. case_bool_decide as Hd.
  { split; [done|]. split; [apply walk_extends_refl|lia]. }
  destruct enter_at_depth as [visited|] eqn:Hent.
  2:{ split; [done|]. split; [apply walk_extends_refl|]. intros _. apply not_nearer.
      unfold enter_at_depth in Hent. by destruct nearer_than_before. }
  assert (Hs1 : walk_sound (set_visited s visited)) by (eapply enter_sound; eauto; lia).
  pose proof (pending_enter U _ _ _ _ Hid Hent) as Hpend.
  returns_step neighbors_ok. intros es Hes. cbn beta.
  assert (Hstart : loop_inv (set_visited s visited) d [] (set_visited s visited)).
  { split; [done|]. split; [apply walk_extends_refl|set_solver]. }
  destruct es as [|e0 es0]; [eapply (loop_inv_done _ _ _ _ []); eauto; intros e He; by apply Hes|].
  set (es := e0 :: es0) in *. clearbody es.
  returns_step nodes_by_ids_lookup. intros nodes Hnodes. cbn beta.
  apply (returns_for_M _ (loop_inv (set_visited s visited) d)); [done| |].
  - intros pre e post s' -> Hinv.
    assert (He : follows id e) by (apply Hes; set_solver).
    destruct (far_stored _ _ He) as [n Hn].
    rewrite Hnodes, Hn by (rewrite map_app; set_solver).
    eapply returns_mono; [eapply (loop_body (fun x s => depth_walk fuel x max (d + 1) s)); eauto with lia|].
    + intros n' s'' Hs'' Hw' Hn' Hle. apply IH; [eauto| |done|done].
      pose proof (pending_mono U _ _ d (d + 1) Hle). cbn in *. lia.
    + by intros [].
  - intros s' Hinv. eapply loop_inv_done; eauto. intros e He. by apply Hes.
Qed.

End Start.

(** ** The whole walk *)

(** The list a walk from [start] reports: one row per (node, edge kind), every
    row a followed edge of a node less than [max] steps away with the stored
    node at its far end, and no such (node, edge kind) missing. *)
Record walk_exact (start : string) (max : nat) (res : list NodeEdge) : Prop := {
  wx_once : NoDup (map (fun ne => (node_id (ne_node ne), edge_kind (ne_edge ne))) res);
  wx_sound : forall ne, ne ∈ res ->
    gv_nodes g !! far (ne_edge ne) = Some (ne_node ne)
    /\ exists id a, a < max /\ within a start id /\ follows id (ne_edge ne);
  wx_complete : forall id a e, a < max -> within a start id -> follows id e ->
    exists ne, ne ∈ res /\ node_id (ne_node ne) = far e /\ edge_kind (ne_edge ne) = edge_kind e
}.

Lemma walk_sound_new start max : walk_sound start max WalkState_new.
Proof.
  split; cbn.
  - intros id a. by rewrite lookup_empty.
  - set_solver.
  - set_solver.
  - constructor.
Qed.

(** Every node less than [max] steps away was visited at its distance or nearer. *)
Lemma walk_post_visited start max s :
  walk_post start max start 0 WalkState_new s ->
  forall a id, within a start id -> a < max ->
    exists b, walk_visited s !! id = Some b /\ b <= a /\ closed_at max s id b.
Proof.
  intros (_ & Hext & Hstart) a id Hw Ha.
  assert (Hclosed : forall id b, walk_visited s !! id = Some b -> closed_at max s id b).
  { intros x b Hx. destruct (we_closed _ _ _ Hext _ _ Hx) as [Hb|]; [|done].
    cbn in Hb. by rewrite lookup_empty in Hb. }
  assert (Hd : exists b, walk_visited s !! id = Some b /\ b <= a).
  { remember start as from eqn:Efrom in Hw. revert Ha.
    induction Hw as [n x|n x y e _ IH He]; subst x; intros Ha.
    - destruct Hstart as (b & ? & ?); [lia|]. exists b. split; [done|lia].
    - destruct (IH eq_refl) as (b & Hb & Hle); [lia|].
      destruct (Hclosed _ _ Hb e He) as [_ Hvis]. destruct Hvis as (c & ? & ?); [lia|].
      exists c. split; [done|lia]. }
  destruct Hd as (b & Hb & ?). eauto.
Qed.

Lemma depth_walk_exact fuel start max :
  S (size (gv_nodes g)) < fuel ->
  returns (walk_result <$> depth_walk fuel start max 0 WalkState_new) (walk_exact start max).
Proof.
  intros Hfuel. set (U := {[start]} ∪ dom (gv_nodes g)).
  assert (Hpost : returns (depth_walk fuel start max 0 WalkState_new)
                    (walk_post start max start 0 WalkState_new)).
  { apply (depth_walk_post start max U).
    - intros x n Hx. apply elem_of_union_r, elem_of_dom. eauto.
    - set_solver.
    - eapply Nat.le_lt_trans; [apply pending_le|]. unfold U.
      pose proof (size_union_alt {[start]} (dom (gv_nodes g))) as Hsz.
      rewrite size_singleton in Hsz.
      assert (size (dom (gv_nodes g) ∖ {[start]}) <= size (gv_nodes g)).
      { rewrite <- size_dom. apply subseteq_size. set_solver. }
      lia.
    - apply walk_sound_new.
    - constructor. }
  destruct depth_walk as [s| |]; try done. cbn in *.
  pose proof (walk_post_visited _ _ _ Hpost) as Hvis. destruct Hpost as ([Hv Hres Hrep Hnd] & Hext & _).
  split; [done|done|]. intros id a e Ha Hw He.
  destruct (Hvis a id Hw Ha) as (b & _ & _ & Hcl).
  destruct (Hcl e He) as [Hin _]. apply Hrep in Hin as (ne & Hne & [= E1 E2]). eauto.
Qed.

End DepthWalk.

(** ** The two walks of the code *)

(** Incoming and outgoing call-like edges. *)
Definition calls_into (g : GraphView) (id : string) (e : Edge) : Prop :=
  e ∈ gv_edges g /\ edge_target e = id /\ edge_kind e ∈ CALL_EDGE_KINDS.

Definition calls_out_of (g : GraphView) (id : string) (e : Edge) : Prop :=
  e ∈ gv_edges g /\ edge_source e = id /\ edge_kind e ∈ CALL_EDGE_KINDS.

Section CodeWalks.
Context {St} `{HS : HealthyStore St st g}.

Lemma callers_recursive_walk :
  callers_recursive st
  = depth_walk (st := st) (fun id => incoming_edges_kinds st id CALL_EDGE_KINDS) edge_source.
Proof. reflexivity. Qed.

Lemma callees_recursive_walk :
  callees_recursive st
  = depth_walk (st := st) (fun id => outgoing_edges_kinds st id CALL_EDGE_KINDS) edge_target.
Proof. reflexivity. Qed.

Lemma get_callers_walk fuel id max :
  S (size (gv_nodes g)) < fuel ->
  returns (get_callers st fuel id max) (walk_exact (g := g) edge_source (calls_into g) id max).
Proof.
  intros Hfuel. unfold get_callers. rewrite callers_recursive_walk.
  apply depth_walk_exact; [| |done].
  - intros x. eapply returns_mono; [apply incoming_edges_kinds_ok|]. by intros es [_ ?].
  - intros x e (He & _). by apply view_source.
Qed.

Lemma get_callees_walk fuel id max :
  S (size (gv_nodes g)) < fuel ->
  returns (get_callees st fuel id max) (walk_exact (g := g) edge_target (calls_out_of g) id max).
Proof.
  intros Hfuel. unfold get_callees. rewrite callees_recursive_walk.
  apply depth_walk_exact; [| |done].
  - intros x. eapply returns_mono; [apply outgoing_edges_kinds_ok|]. by intros es [_ ?].
  - intros x e (He & _). by apply view_target.
Qed.

End CodeWalks.
