(* ===== verification/Impact.v ===== *)
(** * The impact radius
      (crates/codegraph-graph/src/graph/mod.rs, [get_impact_radius], [impact_recursive])

    The blast radius of a symbol: its dependents, their dependents, and so on
    up to [max_depth] steps against the non-[contains] edges, where the members
    of a container count as the container itself (same depth). *)
From S2P Require Import Prelude Types Rows GraphStore GraphCore.

(** The accumulators of [impact_recursive]. *)
Record ImpactState : Type := mkImpact {
  imp_graph : Subgraph;
  imp_visited : gmap string nat;
  imp_expanded : gset string
}.

Section Impact.
Context {St} `{GraphStore St} (st : St).

(** [focal.kind] is one of [CONTAINER_KINDS]. *)
Definition is_container (focal : option Node) : bool :=
  match focal with
  | Some focal => bool_decide (node_kind focal ∈ CONTAINER_KINDS)
  | None => false
  end.

Definition imp_with_graph (s : ImpactState) (graph : Subgraph) : ImpactState :=
  mkImpact graph (imp_visited s) (imp_expanded s).

(** [impact_recursive]: the container's children first, at the same depth, then
    the incoming dependents, one step deeper. *)
Fixpoint impact_recursive (fuel : nat) (id : string) (max_depth current_depth : nat)
    (s : ImpactState) : result SqlError ImpactState :=
  match fuel with
  | 0 => OutOfFuel
  | S fuel =>
      if bool_decide (max_depth <= current_depth) then Ok s else
      match enter_at_depth (imp_visited s) id current_depth with
      | None => Ok s
      | Some visited =>
          let first_expansion := bool_decide (id ∉ imp_expanded s) in
          let s := mkImpact (imp_graph s) visited ({[id]} ∪ imp_expanded s) in
          focal ← node_by_id st id;
          s ← (if is_container focal then
                 contains ← outgoing_edges_kinds st id [EkContains];
                 match contains with
                 | [] => Ok s
                 | _ =>
                     children ← nodes_by_ids st (map edge_target contains);
                     for_M (fun s edge =>
                              match children !! edge_target edge with
                              | None => Ok (Continue s)
                              | Some child =>
                                  if nearer_than_before (imp_visited s) (node_id child) current_depth
                                  then
                                    let graph := imp_graph s in
                                    let graph :=
                                      if decide (is_Some (sg_nodes graph !! node_id child)) then graph
                                      else push_edge (set_node graph child) edge in
                                    s ← impact_recursive fuel (node_id child) max_depth current_depth
                                          (imp_with_graph s graph);
                                    Ok (Continue s)
                                  else Ok (Continue s)
                              end)
                           s contains
                 end
               else Ok s);
          incoming ← incoming_edges st id [];
          let incoming := filter (fun e => edge_kind e <> EkContains) incoming in
          match incoming with
          | [] => Ok s
          | _ =>
              sources ← nodes_by_ids st (map edge_source incoming);
              for_M (fun s edge =>
                       match sources !! edge_source edge with
                       | None => Ok (Continue s)
                       | Some source =>
                           let next_depth := current_depth + 1 in
                           let graph := imp_graph s in
                           let graph := if decide (is_Some (sg_nodes graph !! node_id source)) then graph
                                        else set_node graph source in
                           let graph := if first_expansion then push_edge graph edge else graph in
                           let s := imp_with_graph s graph in
                           if nearer_than_before (imp_visited s) (node_id source) next_depth
                           then s ← impact_recursive fuel (node_id source) max_depth next_depth s;
                                Ok (Continue s)
                           else Ok (Continue s)
                       end)
                    s incoming
          end
      end
  end.

(** [get_impact_radius]. *)
Definition get_impact_radius (fuel : nat) (id : string) (max_depth : nat)
  : result SqlError Subgraph :=
  focal ← node_by_id st id;
  match focal with
  | None => Ok Subgraph_empty
  | Some focal =>
      let graph := set_node Subgraph_empty focal in
      s ← impact_recursive fuel id max_depth 0 (mkImpact graph ∅ ∅);
      Ok (set_roots (imp_graph s) [id])
  end.

End Impact.

(** ** What the radius is *)

Section Spec.
Context (g : GraphView) (start : string) (max : nat).

(** [impact_reach d u]: [u] is in the radius at depth [d]. *)
Inductive impact_reach : nat -> string -> Prop :=
| reach_focal : impact_reach 0 start
| reach_member d u n e : impact_reach d u -> d < max ->
    gv_nodes g !! u = Some n -> node_kind n ∈ CONTAINER_KINDS ->
    e ∈ gv_edges g -> edge_source e = u -> edge_kind e = EkContains ->
    impact_reach d (edge_target e)
| reach_dependent d u e : impact_reach d u -> d < max ->
    e ∈ gv_edges g -> edge_target e = u -> edge_kind e <> EkContains ->
    impact_reach (S d) (edge_source e).

Lemma impact_reach_le d u : impact_reach d u -> d <= max.
Proof. induction 1; lia. Qed.

(** The members of a container and the dependents of a node. *)
Definition member_edge (u : string) (e : Edge) : Prop :=
  (exists n, gv_nodes g !! u = Some n /\ node_kind n ∈ CONTAINER_KINDS)
  /\ e ∈ gv_edges g /\ edge_source e = u /\ edge_kind e = EkContains.

Definition dependent_edge (u : string) (e : Edge) : Prop :=
  e ∈ gv_edges g /\ edge_target e = u /\ edge_kind e <> EkContains.

(** ** The invariant *)

Implicit Types s : ImpactState.

Definition in_graph s x : Prop := is_Some (sg_nodes (imp_graph s) !! x).

Record impact_sound s : Prop := {
  is_visited : forall x a, imp_visited s !! x = Some a ->
    a < max /\ impact_reach a x /\ in_graph s x;
  is_expanded : forall x, x ∈ imp_expanded s <-> is_Some (imp_visited s !! x);
  is_nodes : forall x n, sg_nodes (imp_graph s) !! x = Some n ->
    gv_nodes g !! x = Some n /\ exists a, impact_reach a x;
  is_edges : forall e, e ∈ sg_edges (imp_graph s) -> e ∈ gv_edges g
    /\ (edge_kind e = EkContains -> in_graph s (edge_source e) /\ in_graph s (edge_target e))
    /\ (edge_kind e <> EkContains -> edge_target e ∈ imp_expanded s);
  is_edges_NoDup : NoDup (sg_edges (imp_graph s));
  is_ordered : ordered (imp_graph s)
}.

Definition visited_by s x a : Prop := exists b, imp_visited s !! x = Some b /\ b <= a.

(** What handling one edge of a node at depth [a] leaves behind. *)
Definition member_recorded s a e : Prop :=
  in_graph s (edge_target e) /\ visited_by s (edge_target e) a.
Definition dependent_recorded s a e : Prop :=
  in_graph s (edge_source e) /\ (a + 1 < max -> visited_by s (edge_source e) (a + 1)).

Definition impact_closed s x a : Prop :=
  (forall e, member_edge x e -> member_recorded s a e)
  /\ (forall e, dependent_edge x e -> dependent_recorded s a e).

Definition edges_listed s x : Prop :=
  forall e, dependent_edge x e -> e ∈ sg_edges (imp_graph s).

(** [s'] extends [s]; what it visited or expanded beyond [s] is closed and has
    its edges listed, except for the open call [o]. *)
Record impact_extends (o : option (string * nat)) s s' : Prop := {
  ie_depths : depths_le (imp_visited s) (imp_visited s');
  ie_graph : forall x, in_graph s x -> in_graph s' x;
  ie_edges : forall e, e ∈ sg_edges (imp_graph s) -> e ∈ sg_edges (imp_graph s');
  ie_closed : forall x a, imp_visited s' !! x = Some a ->
    imp_visited s !! x = Some a \/ o = Some (x, a) \/ impact_closed s' x a;
  ie_listed : forall x, x ∈ imp_expanded s' ->
    x ∈ imp_expanded s \/ fst <$> o = Some x \/ edges_listed s' x;
  ie_frozen : forall e, edge_kind e <> EkContains -> edge_target e ∈ imp_expanded s ->
    e ∈ sg_edges (imp_graph s') -> e ∈ sg_edges (imp_graph s)
}.

Lemma visited_by_mono s s' x a :
  depths_le (imp_visited s) (imp_visited s') -> visited_by s x a -> visited_by s' x a.
Proof. intros Hd (b & (c & ? & ?)%Hd & ?). exists c. split; [done|lia]. Qed.

Lemma impact_closed_mono s s' x a :
  depths_le (imp_visited s) (imp_visited s') -> (forall y, in_graph s y -> in_graph s' y) ->
  impact_closed s x a -> impact_closed s' x a.
Proof.
  intros Hd Hg [Hm Hdep]. split; intros e He.
  - destruct (Hm e He) as [? ?]. split; [auto|by eapply visited_by_mono].
  - destruct (Hdep e He) as [? Hv]. split; [auto|]. intros Ha.
    eapply visited_by_mono; eauto.
Qed.

Lemma impact_extends_refl s : impact_extends None s s.
Proof. split; auto. done. Qed.

Lemma impact_extends_trans o s1 s2 s3 :
  impact_sound s1 -> impact_sound s2 ->
  impact_extends o s1 s2 -> impact_extends None s2 s3 -> impact_extends o s1 s3.
Proof.
  intros Hs1 Hs2 E12 E23. split.
  - etrans; [apply E12|apply E23].
  - intros x Hx. by apply E23, E12.
  - intros e He. by apply E23, E12.
  - intros x a [Hx|[[=]|Hc]]%(ie_closed _ _ _ E23); [|by auto].
    apply (ie_closed _ _ _ E12) in Hx as [Hx|[Hx|Hc]]; [by auto..|].
    right; right. eapply impact_closed_mono; [apply E23|apply E23|done].
  - intros x [Hx|[[=]|Hc]]%(ie_listed _ _ _ E23); [|by auto].
    apply (ie_listed _ _ _ E12) in Hx as [Hx|[Hx|Hc]]; [by auto..|].
    right; right. intros e He. by apply E23, Hc.
  - intros e Hk Ht He. apply (ie_frozen _ _ _ E12); [done..|].
    apply (ie_frozen _ _ _ E23); [done| |done].
    rewrite (is_expanded _ Hs1) in Ht. destruct Ht as [a Ha].
    apply (ie_depths _ _ _ E12) in Ha as (b & Hb & _). rewrite (is_expanded _ Hs2). eauto.
Qed.

(** ** Entering a node *)

Definition impact_enter s x d : ImpactState :=
  mkImpact (imp_graph s) (<[x := d]> (imp_visited s)) ({[x]} ∪ imp_expanded s).

Lemma impact_enter_sound s x d :
  impact_sound s -> d < max -> impact_reach d x -> in_graph s x -> impact_sound (impact_enter s x d).
Proof.
  intros Hs Hd Hr Hx. split; cbn; try apply Hs.
  - intros y a. destruct (decide (y = x)) as [->|Hne].
    + rewrite lookup_insert_eq. by intros [= <-].
    + rewrite lookup_insert_ne by done. apply Hs.
  - intros y. rewrite elem_of_union, elem_of_singleton, (is_expanded _ Hs).
    rewrite lookup_insert_is_Some. destruct (decide (x = y)); naive_solver.
  - intros e He. destruct (is_edges _ Hs e He) as (? & ? & ?). split; [done|]. split; [done|].
    set_solver.
Qed.

Lemma impact_enter_extends s x d :
  nearer_than_before (imp_visited s) x d = true ->
  impact_extends (Some (x, d)) s (impact_enter s x d).
Proof.
  intros Hn. split; cbn; auto.
  - eapply (enter_at_depth_le _ _ x d). unfold enter_at_depth. by rewrite Hn.
  - intros y a. destruct (decide (y = x)) as [->|Hne].
    + rewrite lookup_insert_eq. intros [= <-]. auto.
    + rewrite lookup_insert_ne by done. auto.
  - intros y [->%elem_of_singleton|?]%elem_of_union; auto.
Qed.

(** Closing the open call. *)
Lemma impact_extends_close s s' x d :
  impact_extends (Some (x, d)) s s' -> impact_closed s' x d ->
  (x ∉ imp_expanded s -> edges_listed s' x) -> impact_extends None s s'.
Proof.
  intros E Hc Hl. split; try apply E.
  - intros y a [Hy|[[= <- <-]|Hy]]%(ie_closed _ _ _ E); auto.
  - intros y [Hy|[[= <-]|Hy]]%(ie_listed _ _ _ E); auto.
    destruct (decide (x ∈ imp_expanded s)); auto.
Qed.

(** ** The two graph updates *)

Definition member_update s (child : Node) (e : Edge) : ImpactState :=
  imp_with_graph s
    (if decide (is_Some (sg_nodes (imp_graph s) !! node_id child)) then imp_graph s
     else push_edge (set_node (imp_graph s) child) e).

Definition dependent_update (push : bool) s (source : Node) (e : Edge) : ImpactState :=
  let graph := if decide (is_Some (sg_nodes (imp_graph s) !! node_id source)) then imp_graph s
               else set_node (imp_graph s) source in
  imp_with_graph s (if push then push_edge graph e else graph).

Context `{WfView g}.

(** Adding a stored, reached node and an edge the invariant allows. *)
Lemma impact_sound_add s graph n o :
  impact_sound s -> gv_nodes g !! node_id n = Some n -> (exists a, impact_reach a (node_id n)) ->
  (graph = imp_graph s \/ graph = set_node (imp_graph s) n) ->
  (forall e, o = Some e -> e ∈ gv_edges g /\ e ∉ sg_edges (imp_graph s)
     /\ (edge_kind e = EkContains -> is_Some (sg_nodes graph !! edge_source e)
                                     /\ is_Some (sg_nodes graph !! edge_target e))
     /\ (edge_kind e <> EkContains -> edge_target e ∈ imp_expanded s)) ->
  impact_sound (imp_with_graph s (from_option (push_edge graph) graph o)).
Proof.
  intros Hs Hn Hr Hg Ho.
  assert (Hmono : forall x, in_graph s x -> is_Some (sg_nodes graph !! x)).
  { intros x Hx. destruct Hg as [->| ->]; [done|]. cbn. apply lookup_insert_is_Some.
    destruct (decide (node_id n = x)); auto. }
  assert (Enodes : sg_nodes (from_option (push_edge graph) graph o) = sg_nodes graph) by (by destruct o).
  assert (Eedges : sg_edges graph = sg_edges (imp_graph s)) by (by destruct Hg as [->| ->]).
  split; unfold in_graph; cbn; rewrite ?Enodes.
  - intros x a Hx. destruct (is_visited _ Hs x a Hx) as (? & ? & ?). auto.
  - apply Hs.
  - intros x m Hx. destruct Hg as [->| ->]; [by apply Hs|]. cbn in Hx.
    apply lookup_insert_Some in Hx as [[<- <-]|[_ Hx]]; [auto|by apply Hs].
  - intros e He.
    assert (Hcase : o = Some e \/ e ∈ sg_edges (imp_graph s)).
    { destruct o as [e'|]; cbn in He; rewrite Eedges in He; [|auto]. set_solver. }
    destruct Hcase as [[? ?]%Ho|(? & Hc & ?)%(is_edges _ Hs)]; [tauto|].
    split; [done|]. split; [|done]. intros Hk. destruct (Hc Hk). auto.
  - destruct o as [e|]; cbn; rewrite Eedges; [|apply Hs]. destruct (Ho e eq_refl) as (_ & ? & _).
    apply NoDup_app. split; [apply Hs|]. split; [set_solver|apply NoDup_singleton].
  - assert (Hord : ordered graph) by (destruct Hg as [->| ->]; [|apply ordered_set_node]; apply Hs).
    by destruct o.
Qed.

Lemma member_update_ok s u d e child :
  impact_sound s -> d < max -> impact_reach d u -> in_graph s u -> member_edge u e ->
  gv_nodes g !! edge_target e = Some child ->
  let s' := member_update s child e in
  impact_sound s' /\ impact_extends None s s' /\ in_graph s' (edge_target e)
  /\ impact_reach d (edge_target e).
Proof.
  intros Hs Hd Hr Hu ((n & Hn & Hk) & He & Hsrc & Hc) Hchild.
  pose proof (view_key _ _ Hchild) as Eid.
  assert (Hrc : impact_reach d (edge_target e)) by (by eapply reach_member).
  unfold member_update. case_decide as Hin; rewrite Eid in Hin.
  { destruct s as [gr v ex]. cbn. split; [done|]. split; [apply impact_extends_refl|done]. }
  assert (Hnew : sg_nodes (set_node (imp_graph s) child) !! edge_target e = Some child)
    by (cbn; rewrite Eid; apply lookup_insert_eq).
  assert (Hmono : forall x, in_graph s x -> is_Some (sg_nodes (set_node (imp_graph s) child) !! x))
    by (intros x Hx; cbn; apply lookup_insert_is_Some; destruct (decide (node_id child = x)); auto).
  split; [|split; [|split; [eexists; exact Hnew|done]]].
  - apply (impact_sound_add s _ child (Some e)); rewrite ?Eid; eauto.
    intros e' [= <-]. split; [done|]. split; [|split; [|congruence]].
    + intros Hin'. apply Hin. by apply (is_edges _ Hs e Hin').
    + intros _. split; [rewrite Hsrc; auto|eauto].
  - split; cbn; auto; [done| |].
    + intros e' He'. set_solver.
    + intros e' Hk' _ [He'| ->%list_elem_of_singleton]%elem_of_app; [done|congruence].
Qed.

Lemma dependent_update_ok push s0 s u d e source :
  impact_sound s -> d < max -> impact_reach d u -> dependent_edge u e ->
  gv_nodes g !! edge_source e = Some source ->
  u ∈ imp_expanded s -> (push = true -> u ∉ imp_expanded s0 /\ e ∉ sg_edges (imp_graph s)) ->
  impact_extends (Some (u, d)) s0 s ->
  let s' := dependent_update push s source e in
  impact_sound s' /\ impact_extends (Some (u, d)) s0 s' /\ in_graph s' (edge_source e)
  /\ (forall x, in_graph s x -> in_graph s' x)
  /\ sg_edges (imp_graph s') = sg_edges (imp_graph s) ++ (if push then [e] else []).
Proof.
  intros Hs Hd Hr (He & Ht & Hk) Hsrc Hexp Hpush Hext.
  pose proof (view_key _ _ Hsrc) as Eid.
  unfold dependent_update. set (graph := if decide _ then _ else _). cbn zeta.
  assert (Hg : graph = imp_graph s \/ graph = set_node (imp_graph s) source)
    by (unfold graph; case_decide; auto).
  assert (Hin : is_Some (sg_nodes graph !! edge_source e)).
  { unfold graph. case_decide as Hd'; rewrite Eid in Hd'; [done|]. cbn. rewrite Eid, lookup_insert_eq.
    eauto. }
  assert (Hmono : forall x, in_graph s x -> is_Some (sg_nodes graph !! x)).
  { intros x Hx. destruct Hg as [->| ->]; [done|]. cbn. apply lookup_insert_is_Some.
    destruct (decide (node_id source = x)); auto. }
  assert (Eed : sg_edges (if push then push_edge graph e else graph)
                = sg_edges (imp_graph s) ++ (if push then [e] else [])).
  { destruct push; cbn; [f_equal|rewrite app_nil_r]; by destruct Hg as [->| ->]. }
  assert (Eno : sg_nodes (if push then push_edge graph e else graph) = sg_nodes graph)
    by (by destruct push).
  clearbody graph. split; [|split; [|unfold in_graph; cbn; rewrite Eno; auto]].
  - replace (if push then _ else _) with
      (from_option (push_edge graph) graph (if push then Some e else None)) by (by destruct push).
    apply (impact_sound_add s graph source); rewrite ?Eid; eauto using reach_dependent.
    intros e'. destruct push; [|done]. intros [= <-]. destruct Hpush as [? ?]; [done|].
    split; [done|]. split; [done|]. split; [done|]. by intros _; rewrite Ht.
  - assert (Hclosed : forall x a, impact_closed s x a ->
        impact_closed (imp_with_graph s (if push then push_edge graph e else graph)) x a).
    { intros x a. apply impact_closed_mono; [done|]. unfold in_graph. cbn. by rewrite Eno. }
    split; cbn -[imp_with_graph]; try apply Hext; unfold in_graph; cbn; rewrite ?Eno, ?Eed.
    + intros x Hx. by apply Hmono, Hext.
    + intros e' He'. apply elem_of_app. left. by apply Hext.
    + intros x a [?|[?|?]]%(ie_closed _ _ _ Hext); auto.
    + intros x [?|[?|Hl]]%(ie_listed _ _ _ Hext); auto. right; right.
      intros e' He'. cbn. rewrite Eed. apply elem_of_app. left. by apply Hl.
    + intros e' Hk' Ht' [He'|He']%elem_of_app; [by apply Hext|].
      destruct push; [|set_solver]. apply list_elem_of_singleton in He' as ->.
      destruct Hpush as [Hno _]; [done|]. rewrite Ht in Ht'. done.
Qed.

End Spec.

(** ** One call of [impact_recursive] *)

Section Call.
Context {St} `{HS : HealthyStore St st g}.
Variables (start : string) (max : nat).

Notation sound := (impact_sound g start max).
Notation extends := (impact_extends g max).
Notation reach := (impact_reach g start max).

Definition impact_post (x : string) (d : nat) (s s' : ImpactState) : Prop :=
  sound s' /\ extends None s s' /\ (d < max -> visited_by s' x d).

(** The contract of the recursive calls made while [U] has fewer nodes left. *)
Definition calls_ok (rec : string -> nat -> ImpactState -> result SqlError ImpactState)
    (U : gset string) (v : gmap string nat) (d : nat) : Prop :=
  forall x d' s, sound s -> reach d' x -> in_graph s x -> d <= d' -> depths_le v (imp_visited s) ->
    returns (rec x d' s) (impact_post x d' s).

(** The loop over the container's children. *)
Definition member_inv (s1 : ImpactState) (x : string) (d : nat) (pre : list Edge) (s : ImpactState)
  : Prop :=
  sound s /\ extends None s1 s /\ in_graph s x /\ (forall e, e ∈ pre -> member_recorded s d e).

Lemma member_recorded_mono s s' d e o :
  extends o s s' -> member_recorded s d e -> member_recorded s' d e.
Proof. intros E [? ?]. split; [by apply E|]. eapply visited_by_mono; [apply E|done]. Qed.

Lemma member_inv_step s1 x d pre s s' e :
  sound s1 -> member_inv s1 x d pre s -> sound s' -> extends None s s' ->
  member_recorded s' d e -> member_inv s1 x d (pre ++ [e]) s'.
Proof.
  intros Hs1 (Hs & E & Hx & Hpre) Hs' E' He. split; [done|].
  split; [by eapply impact_extends_trans; [..|exact E|exact E']|]. split; [by apply E'|].
  intros e' [?| ->%list_elem_of_singleton]%elem_of_app; [|done].
  eapply member_recorded_mono; [exact E'|auto].
Qed.

Lemma member_body rec U s1 x d pre s e child :
  calls_ok rec U (imp_visited s1) d -> sound s1 -> d < max -> reach d x ->
  member_edge g x e -> gv_nodes g !! edge_target e = Some child ->
  member_inv s1 x d pre s ->
  returns
    (if nearer_than_before (imp_visited s) (node_id child) d
     then s' ← rec (node_id child) d (member_update s child e); Ok (Continue s')
     else Ok (Continue s))
    (fun r => match r with Continue s' => member_inv s1 x d (pre ++ [e]) s' | Break _ => False end).
Proof.
  intros Hrec Hs1 Hd Hr He Hchild Hinv. pose proof Hinv as (Hs & E & Hx & Hpre).
  pose proof (view_key _ _ Hchild) as Eid. rewrite Eid.
  destruct (member_update_ok g start max s x d e child) as (Hs' & E' & Hin & Hr'); try done.
  destruct nearer_than_before eqn:Hn; cbn.
  - apply returns_bind. eapply returns_mono; [apply Hrec; try done|].
    + etrans; [apply E|apply E'].
    + intros s2 (Hs2 & E2 & Hv). cbn. eapply member_inv_step; try done.
      * by eapply impact_extends_trans; [..|exact E'|exact E2].
      * split; [by apply E2|auto].
  - apply not_nearer in Hn as (a & Ha & Hle). eapply member_inv_step; try done.
    + apply impact_extends_refl.
    + split; [|by exists a]. by apply (is_visited _ _ _ _ Hs _ _ Ha).
Qed.

(** The loop over the incoming dependents, after the members are handled. *)
Record dependent_inv (first : bool) (s0 s1 : ImpactState) (x : string) (d : nat)
    (pre : list Edge) (s : ImpactState) : Prop := {
  di_sound : sound s;
  di_extends : extends (Some (x, d)) s0 s;
  di_depths : depths_le (imp_visited s1) (imp_visited s);
  di_here : visited_by s x d;
  di_members : forall e, member_edge g x e -> member_recorded s d e;
  di_recorded : forall e, e ∈ pre -> dependent_recorded max s d e;
  di_listed : first = true -> forall e, dependent_edge g x e ->
    e ∈ sg_edges (imp_graph s) <-> e ∈ pre
}.

Lemma dependent_recorded_mono s s' d e :
  depths_le (imp_visited s) (imp_visited s') -> (forall y, in_graph s y -> in_graph s' y) ->
  dependent_recorded max s d e -> dependent_recorded max s' d e.
Proof. intros Hd Hg [? Hv]. split; [auto|]. intros Ha. eapply visited_by_mono; eauto. Qed.

(** Carrying the loop's invariant over the update and the recursive call. *)
Lemma dependent_inv_step first s0 s1 x d pre s su s' e :
  sound s0 -> dependent_inv first s0 s1 x d pre s ->
  dependent_edge g x e -> x ∈ imp_expanded su ->
  sound su -> extends (Some (x, d)) s0 su -> imp_visited su = imp_visited s ->
  (forall y, in_graph s y -> in_graph su y) ->
  sg_edges (imp_graph su) = sg_edges (imp_graph s) ++ (if first then [e] else []) ->
  sound s' -> extends None su s' -> dependent_recorded max s' d e ->
  dependent_inv first s0 s1 x d (pre ++ [e]) s'.
Proof.
  intros Hs0 [Hs E Hd Hh Hm Hrec Hl] He Hexp Hsu Eu Evis Hgu Eedges Hs' E' Hre.
  assert (Hdle : depths_le (imp_visited s) (imp_visited s')) by (rewrite <- Evis; apply E').
  assert (Hgle : forall y, in_graph s y -> in_graph s' y) by (intros y Hy; by apply E', Hgu).
  split.
  - done.
  - by eapply impact_extends_trans; [..|exact Eu|exact E'].
  - by etrans.
  - by eapply visited_by_mono.
  - intros e' [? ?]%Hm. split; [auto|by eapply visited_by_mono].
  - intros e' [He'| ->%list_elem_of_singleton]%elem_of_app; [|done].
    eapply dependent_recorded_mono; [done..|auto].
  - intros Hf e' He'. specialize (Hl Hf e' He'). rewrite Hf in Eedges.
    rewrite elem_of_app, list_elem_of_singleton. split.
    + intros Hin. destruct He' as (_ & Ht & Hk).
      apply (ie_frozen _ _ _ _ _ E') in Hin; [|done|by rewrite Ht].
      rewrite Eedges, elem_of_app, list_elem_of_singleton in Hin. tauto.
    + intros Hin. apply E'. rewrite Eedges, elem_of_app, list_elem_of_singleton. tauto.
Qed.

Lemma dependent_body rec U first s0 s1 x d pre s e source :
  calls_ok rec U (imp_visited s1) (d + 1) -> sound s0 -> d < max -> reach d x ->
  first = bool_decide (x ∉ imp_expanded s0) ->
  dependent_edge g x e -> gv_nodes g !! edge_source e = Some source -> e ∉ pre ->
  dependent_inv first s0 s1 x d pre s ->
  returns
    (if nearer_than_before (imp_visited s) (node_id source) (d + 1)
     then s' ← rec (node_id source) (d + 1) (dependent_update first s source e); Ok (Continue s')
     else Ok (Continue (dependent_update first s source e)))
    (fun r => match r with
              | Continue s' => dependent_inv first s0 s1 x d (pre ++ [e]) s' | Break _ => False end).
Proof.
  intros Hrec Hs0 Hd Hr Hf He Hsrc Hpre Hinv. pose proof Hinv as [Hs E Hdep (b & Hb & Hbd) Hm Hre Hl].
  pose proof (view_key _ _ Hsrc) as Eid. rewrite Eid.
  assert (Hexp : x ∈ imp_expanded s) by (apply (is_expanded _ _ _ _ Hs); eauto).
  destruct (dependent_update_ok g start max first s0 s x d e source)
    as (Hsu & Eu & Hin & Hmono & Eed); try done.
  { intros Hft. rewrite Hft in Hf. symmetry in Hf. apply bool_decide_eq_true in Hf.
    split; [done|]. by rewrite Hl. }
  set (su := dependent_update first s source e) in *.
  assert (Hstep : forall s', sound s' -> extends None su s' -> dependent_recorded max s' d e ->
            dependent_inv first s0 s1 x d (pre ++ [e]) s').
  { intros s' Hs' E' Hde.
    apply (dependent_inv_step first s0 s1 x d pre s su s' e); try done. }
  destruct nearer_than_before eqn:Hn; cbn.
  - apply returns_bind. eapply returns_mono; [apply Hrec; try done|].
    + rewrite Nat.add_1_r. destruct He as (? & ? & ?). by eapply reach_dependent.
    + intros s2 (Hs2 & E2 & Hv). apply Hstep; [done..|]. split; [by apply E2|done].
  - apply not_nearer in Hn as (a & Ha & Hle). apply Hstep; [done|apply impact_extends_refl|].
    split; [done|]. intros _. by exists a.
Qed.

(** The first half of the body: every member of a container is recorded. *)
Lemma members_phase (rec : string -> nat -> ImpactState -> result SqlError ImpactState) U s1 x d focal :
  calls_ok rec U (imp_visited s1) d -> sound s1 -> d < max -> reach d x -> in_graph s1 x ->
  gv_nodes g !! x = focal ->
  returns
    (if is_container focal then
       contains ← outgoing_edges_kinds st x [EkContains];
       match contains with
       | [] => Ok s1
       | _ =>
           children ← nodes_by_ids st (map edge_target contains);
           for_M (fun s edge =>
                    match children !! edge_target edge with
                    | None => Ok (Continue s)
                    | Some child =>
                        if nearer_than_before (imp_visited s) (node_id child) d
                        then s' ← rec (node_id child) d (member_update s child edge); Ok (Continue s')
                        else Ok (Continue s)
                    end) s1 contains
       end
     else Ok s1)
    (fun s => sound s /\ extends None s1 s /\ in_graph s x
              /\ forall e, member_edge g x e -> member_recorded s d e).
Proof.
  intros Hrec Hs1 Hd Hr Hx Hfocal.
  assert (Hnone : forall P : Prop, P -> is_container focal = false ->
            forall e, member_edge g x e -> member_recorded s1 d e).
  { intros P _ Hnc e ((n & Hn & Hk) & _). rewrite Hn in Hfocal. subst focal. cbn in Hnc.
    by rewrite bool_decide_true in Hnc. }
  destruct (is_container focal) eqn:Hc.
  2:{ split; [done|]. split; [apply impact_extends_refl|]. split; [done|]. by apply (Hnone True). }
  assert (Hcont : exists n, gv_nodes g !! x = Some n /\ node_kind n ∈ CONTAINER_KINDS).
  { destruct focal as [n|]; [|done]. exists n. split; [done|]. by apply bool_decide_eq_true in Hc. }
  returns_step outgoing_edges_kinds_ok. intros es [_ Hes]. cbn beta.
  assert (Hmem : forall e, e ∈ es <-> member_edge g x e).
  { intros e. rewrite Hes, list_elem_of_singleton. unfold member_edge. tauto. }
  destruct es as [|e0 es0].
  { split; [done|]. split; [apply impact_extends_refl|]. split; [done|].
    intros e He%Hmem. set_solver. }
  set (es := e0 :: es0) in *. clearbody es.
  returns_step nodes_by_ids_lookup. intros children Hch. cbn beta.
  apply (returns_for_M _ (member_inv s1 x d)).
  - split; [done|]. split; [apply impact_extends_refl|]. split; [done|set_solver].
  - intros pre e post s -> Hinv. assert (He : member_edge g x e) by (apply Hmem; set_solver).
    destruct (view_target e ltac:(apply He)) as [child Hchild].
    rewrite Hch, Hchild by (rewrite map_app; set_solver).
    eapply returns_mono; [by eapply (member_body rec U)|]. by intros [].
  - intros s (Hs & E & Hin & Hrecd). split; [done|]. split; [done|]. split; [done|].
    intros e He%Hmem. auto.
Qed.

(** The second half: every incoming dependent is recorded. *)
Lemma dependents_phase (rec : string -> nat -> ImpactState -> result SqlError ImpactState)
    U first s0 s1 x d s :
  calls_ok rec U (imp_visited s1) (d + 1) -> sound s0 -> d < max -> reach d x ->
  first = bool_decide (x ∉ imp_expanded s0) -> dependent_inv first s0 s1 x d [] s ->
  returns
    (incoming ← incoming_edges st x [];
     let incoming := filter (fun e => edge_kind e <> EkContains) incoming in
     match incoming with
     | [] => Ok s
     | _ =>
         sources ← nodes_by_ids st (map edge_source incoming);
         for_M (fun s edge =>
                  match sources !! edge_source edge with
                  | None => Ok (Continue s)
                  | Some source =>
                      if nearer_than_before (imp_visited s) (node_id source) (d + 1)
                      then s' ← rec (node_id source) (d + 1) (dependent_update first s source edge);
                           Ok (Continue s')
                      else Ok (Continue (dependent_update first s source edge))
                  end) s incoming
     end)
    (fun s' => impact_post x d s0 s').
Proof.
  intros Hrec Hs0 Hd Hr Hf Hinv.
  returns_step incoming_edges_ok. intros es0 [Hnd Hes0]. cbn zeta beta.
  set (es := filter _ es0).
  assert (Hes : forall e, e ∈ es <-> dependent_edge g x e).
  { intros e. unfold es. rewrite list_elem_of_filter, Hes0. unfold dependent_edge, kinds_allow. tauto. }
  assert (Hesnd : NoDup es) by (apply NoDup_filter, Hnd; constructor).
  assert (Hdone : forall s', dependent_inv first s0 s1 x d es s' -> impact_post x d s0 s').
  { intros s' [Hs E _ Hh Hm Hre Hl]. split; [done|]. split; [|done].
    eapply impact_extends_close; [exact E| |].
    - split; [done|]. intros e He%Hes. auto.
    - intros Hx e He. apply Hl; [|done|by apply Hes].
      rewrite Hf. by apply bool_decide_eq_true. }
  clearbody es. destruct es as [|e1 es1]; [by apply Hdone|].
  set (es := e1 :: es1) in *. clearbody es.
  returns_step nodes_by_ids_lookup. intros sources Hsr. cbn beta.
  apply (returns_for_M _ (dependent_inv first s0 s1 x d)); [done| |done].
  intros pre e post s' -> Hinv'. assert (He : dependent_edge g x e) by (apply Hes; set_solver).
  destruct (view_source e ltac:(apply He)) as [source Hsource].
  rewrite Hsr, Hsource by (rewrite map_app; set_solver).
  eapply returns_mono; [eapply (dependent_body rec U); try done|by intros []].
  apply NoDup_app in Hesnd as (_ & Hdis & _). intros Hin. apply (Hdis e Hin). set_solver.
Qed.

Lemma impact_recursive_post (U : gset string) fuel x d s :
  (forall y n, gv_nodes g !! y = Some n -> y ∈ U) ->
  pending U (imp_visited s) d < fuel ->
  sound s -> reach d x -> in_graph s x ->
  returns (impact_recursive st fuel x max d s) (impact_post x d s).
Proof.
  intros HU. revert x d s. induction fuel as [|fuel IH]; intros x d s Hfuel Hs Hr Hx; [lia|].
  cbn [impact_recursive]. case_bool_decide as Hd.
  { split; [done|]. split; [apply impact_extends_refl|lia]. }
  destruct enter_at_depth as [visited|] eqn:Hent.
  2:{ split; [done|]. split; [apply impact_extends_refl|]. intros _.
      unfold enter_at_depth in Hent. destruct nearer_than_before eqn:Hn; [done|].
      by apply not_nearer in Hn. }
  assert (HxU : x ∈ U) by (destruct Hx as [n Hn]; eapply HU; by apply Hs).
  pose proof (pending_enter U _ _ _ _ HxU Hent) as Hpend.
  pose proof Hent as (Hle & -> & Hnear)%enter_at_depth_le. cbn zeta.
  change (mkImpact (imp_graph s) _ _) with (impact_enter s x d). set (s1 := impact_enter s x d).
  assert (Hs1 : sound s1) by (apply impact_enter_sound; auto with lia).
  assert (Hcalls : forall d1, d <= d1 -> calls_ok (fun x d s => impact_recursive st fuel x max d s) U
                                           (imp_visited s1) d1).
  { intros d1 Hd1 y d' s2 Hs2 Hr2 Hy Hd' Hv. apply IH; try done.
    assert (Hdd : d <= d') by lia.
    pose proof (pending_mono U _ _ d d' Hv Hdd). unfold s1 in *. cbn in *. lia. }
  rewrite healthy_node_by_id. cbn [mbind result_bind].
  apply returns_bind. eapply returns_mono.
  { apply (members_phase (fun x d s => impact_recursive st fuel x max d s) U s1 x d);
      try done; auto with lia. }
  intros s2 (Hs2 & E2 & Hx2 & Hm2). cbn beta.
  apply (dependents_phase (fun x d s => impact_recursive st fuel x max d s) U _ s s1); auto with lia.
  split; try done.
  - eapply impact_extends_trans; [exact Hs|exact Hs1| |exact E2]. by apply impact_enter_extends.
  - apply E2.
  - eapply visited_by_mono; [apply E2|]. exists d. split; [apply lookup_insert_eq|done].
  - set_solver.
  - intros Hf e He. split; [|set_solver]. intros Hin. exfalso.
    apply bool_decide_eq_true in Hf. destruct He as (_ & Ht & Hk).
    apply (ie_frozen _ _ _ _ _ E2) in Hin; [|done|rewrite Ht; cbn; set_solver].
    apply (is_edges _ _ _ _ Hs) in Hin as (_ & _ & Hexp). rewrite Ht in Hexp. auto.
Qed.

(** ** The whole radius *)

Lemma impact_post_complete focal s :
  gv_nodes g !! start = Some focal ->
  impact_post start 0 (mkImpact (set_node Subgraph_empty focal) ∅ ∅) s ->
  forall a x, reach a x -> in_graph s x
    /\ (a < max -> visited_by s x a /\ edges_listed g s x).
Proof.
  intros Hf (Hs & E & Hstart).
  assert (Hcl : forall x a, imp_visited s !! x = Some a ->
            impact_closed g max s x a /\ edges_listed g s x).
  { intros x a Hx. split.
    - destruct (ie_closed _ _ _ _ _ E x a Hx) as [Hb|[[=]|]]; [|done].
      cbn in Hb. by rewrite lookup_empty in Hb.
    - destruct (ie_listed _ _ _ _ _ E x) as [Hb|[[=]|]]; [|set_solver|done].
      apply (is_expanded _ _ _ _ Hs). eauto. }
  assert (Hboth : forall a x, reach a x -> in_graph s x /\ (a < max -> visited_by s x a)).
  { induction 1 as [|d u n e Hr IH Hd Hn Hk He Hsrc Hc|d u e Hr IH Hd He Ht Hk].
    - split; [|done]. apply E. unfold in_graph. cbn. rewrite (view_key _ _ Hf), lookup_insert_eq. eauto.
    - destruct IH as [_ IH]. destruct (IH Hd) as (b & Hb & Hbd).
      destruct (Hcl _ _ Hb) as [[Hm _] _].
      destruct (Hm e) as [Hin (c & Hc' & Hcb)]; [by repeat split; eauto|].
      split; [done|]. intros _. exists c. split; [done|lia].
    - destruct IH as [_ IH]. destruct (IH Hd) as (b & Hb & Hbd).
      destruct (Hcl _ _ Hb) as [[_ Hdep] _].
      destruct (Hdep e) as [Hin Hv]; [done|]. split; [done|]. intros Hlt.
      destruct Hv as (c & Hc' & Hcb); [lia|]. exists c. split; [done|lia]. }
  intros a x Hr. destruct (Hboth a x Hr) as [Hin Hv]. split; [done|]. intros Ha.
  split; [auto|]. destruct (Hv Ha) as (b & Hb & _). by apply (Hcl _ _ Hb).
Qed.

(** The radius: its nodes are exactly the reached ones, and its dependency
    edges are exactly the edges into a node reached before the last step. *)
Record radius_exact (graph : Subgraph) : Prop := {
  rx_nodes : forall x n, sg_nodes graph !! x = Some n
    <-> gv_nodes g !! x = Some n /\ exists a, reach a x;
  rx_ordered : ordered graph;
  rx_edges_NoDup : NoDup (sg_edges graph);
  rx_dependents : forall e, edge_kind e <> EkContains ->
    e ∈ sg_edges graph <-> e ∈ gv_edges g /\ exists a, a < max /\ reach a (edge_target e);
  rx_members : forall e, edge_kind e = EkContains -> e ∈ sg_edges graph ->
    e ∈ gv_edges g /\ is_Some (sg_nodes graph !! edge_source e)
    /\ is_Some (sg_nodes graph !! edge_target e);
  rx_roots : sg_roots graph = [start]
}.

Lemma impact_initial_sound focal :
  gv_nodes g !! start = Some focal -> sound (mkImpact (set_node Subgraph_empty focal) ∅ ∅).
Proof.
  intros Hf. pose proof (view_key _ _ Hf) as Eid. split; cbn.
  - intros x a. by rewrite lookup_empty.
  - intros x. rewrite lookup_empty, is_Some_alt. set_solver.
  - intros x n. rewrite lookup_insert_Some, lookup_empty, Eid.
    intros [[<- <-]|[_ [=]]]. split; [done|]. exists 0. constructor.
  - set_solver.
  - constructor.
  - auto with cg.
Qed.

Lemma get_impact_radius_exact fuel focal :
  gv_nodes g !! start = Some focal -> S (size (gv_nodes g)) <= fuel ->
  returns (get_impact_radius st fuel start max) radius_exact.
Proof.
  intros Hf Hfuel. unfold get_impact_radius. rewrite healthy_node_by_id, Hf. cbn [mbind result_bind].
  set (s0 := mkImpact (set_node Subgraph_empty focal) ∅ ∅).
  pose proof (impact_initial_sound _ Hf : sound s0) as Hs0.
  assert (Hg0 : in_graph s0 start)
    by (unfold in_graph; cbn; rewrite (view_key _ _ Hf), lookup_insert_eq; eauto).
  apply returns_bind. eapply returns_mono.
  { apply (impact_recursive_post (dom (gv_nodes g))); [| |done|constructor|done].
    - intros y n Hy. apply elem_of_dom. eauto.
    - eapply Nat.le_lt_trans; [apply pending_le|]. rewrite size_dom. lia. }
  intros s Hpost. pose proof (impact_post_complete focal s Hf Hpost) as Hcomp.
  destruct Hpost as (Hs & E & _). cbn [returns set_roots]. split; cbn.
  - intros x n. split; [apply Hs|]. intros (Hn & a & Hr).
    destruct (Hcomp a x Hr) as [[m Hm] _]. pose proof (is_nodes _ _ _ _ Hs _ _ Hm) as [Hm' _].
    congruence.
  - apply Hs.
  - apply Hs.
  - intros e Hk. split.
    + intros He. destruct (is_edges _ _ _ _ Hs e He) as (? & _ & Hexp). split; [done|].
      apply (is_expanded _ _ _ _ Hs) in Hexp as [a Ha]; [|done].
      destruct (is_visited _ _ _ _ Hs _ _ Ha) as (? & ? & _). eauto.
    + intros (He & a & Ha & Hr). destruct (Hcomp a _ Hr) as [_ Hv].
      destruct (Hv Ha) as [_ Hl]. by apply Hl.
  - intros e Hk He. destruct (is_edges _ _ _ _ Hs e He) as (? & Hc & _).
    destruct (Hc Hk). done.
  - done.
Qed.

End Call.
