(* ===== verification/Frontier.v ===== *)
(** * Breadth-first search: the frontier invariant

    [traverse_bfs] and [find_path] both keep a FIFO queue of (node, depth) and
    mark a node visited when it is dequeued. [frontier] is what both loops keep
    true of the visited nodes and the queue, whatever the queue entries carry
    besides; its consequence [frontier_visits] is that a node is visited at a
    depth no greater than its distance. *)
From S2P Require Import Prelude.

(** A sorted list stays sorted when copies of an upper bound are appended. *)
Lemma StronglySorted_snoc_const {A} (l : list nat) (k : nat) (pushed : list A) :
  StronglySorted le l -> (forall x, x ∈ l -> x <= k) ->
  StronglySorted le (l ++ map (fun _ => k) pushed).
Proof.
  intros Hso Hle.
  assert (Hk : forall y, y ∈ map (fun _ : A => k) pushed -> y = k)
    by (by intros y (? & -> & _)%(list_elem_of_fmap (fun _ => k))).
  induction Hso as [|x l Hl IH Hx]; cbn.
  - clear Hle. induction pushed as [|w l IH]; cbn; constructor.
    + apply IH. intros y Hy. apply Hk. set_solver.
    + apply Forall_forall. intros y Hy. rewrite (Hk y); [done|set_solver].
  - constructor; [apply IH; set_solver|]. apply Forall_app. split; [done|].
    apply Forall_forall. intros y ->%Hk. apply Hle. set_solver.
Qed.

Section Frontier.
Variable (R : string -> string -> Prop) (start : string).

(** Depths from which the search does not expand. *)
Variable stop : nat -> bool.

Implicit Types (visited : gmap string nat) (queue : list (string * nat)).

(** [v] was visited, or waits in the queue, at depth at most [a]. *)
Definition seen visited queue (v : string) (a : nat) : Prop :=
  (exists b, visited !! v = Some b /\ b <= a) \/ (exists b, (v, b) ∈ queue /\ b <= a).

Record frontier visited queue : Prop := {
  fr_start : seen visited queue start 0;
  fr_sorted : StronglySorted le (map snd queue);
  fr_window : forall p p', p ∈ queue -> p' ∈ queue -> snd p' <= snd p + 1;
  fr_below : forall u a p, visited !! u = Some a -> p ∈ queue -> a <= snd p;
  fr_sound : forall u a, visited !! u = Some a -> nsteps R a start u;
  fr_queue_sound : forall p, p ∈ queue -> nsteps R (snd p) start (fst p);
  fr_closed : forall u a v, visited !! u = Some a -> stop a = false -> R u v ->
    seen visited queue v (a + 1)
}.

Lemma frontier_initial : frontier ∅ [(start, 0)].
Proof.
  split; cbn.
  - right. exists 0. split; [set_solver|done].
  - repeat constructor.
  - intros p p' ->%list_elem_of_singleton ->%list_elem_of_singleton. cbn. lia.
  - intros u a p. by rewrite lookup_empty.
  - intros u a. by rewrite lookup_empty.
  - intros p ->%list_elem_of_singleton. constructor.
  - intros u a v. by rewrite lookup_empty.
Qed.

(** Dropping a queue entry whose node is visited at least as near. *)
Lemma frontier_skip visited v d queue :
  frontier visited ((v, d) :: queue) -> is_Some (visited !! v) -> frontier visited queue.
Proof.
  intros [Hst Hso Hw Hb Hs Hq Hc] [a Ha].
  assert (Had : a <= d) by (apply (Hb v a (v, d) Ha); set_solver).
  assert (Hseen : forall w k, seen visited ((v, d) :: queue) w k -> seen visited queue w k).
  { intros w k [?|(b & [[= -> ->]|?]%elem_of_cons & ?)]; [by left| |right; eauto].
    left. exists a. split; [done|lia]. }
  split; auto.
  - by apply StronglySorted_inv in Hso as [? _].
  - intros p p' ? ?. apply Hw; set_solver.
  - intros u k p ? ?. apply (Hb u); set_solver.
  - intros p ?. apply Hq. set_solver.
  - intros. apply Hseen. by eapply Hc.
Qed.

(** Visiting the head of the queue and pushing some of its successors. *)
Lemma frontier_expand visited v d queue pushed :
  frontier visited ((v, d) :: queue) -> visited !! v = None ->
  (forall w, w ∈ pushed -> R v w) ->
  (stop d = false -> forall w, R v w ->
     w = v \/ is_Some (visited !! w) \/ w ∈ pushed \/ exists b, (w, b) ∈ queue) ->
  frontier (<[v := d]> visited) (queue ++ map (fun w => (w, d + 1)) pushed).
Proof.
  intros [Hst Hso Hw Hb Hs Hq Hc] Hv Hpush Hall.
  assert (Hd : nsteps R d start v) by (apply (Hq (v, d)); set_solver).
  assert (Hhead : forall p, p ∈ queue -> d <= snd p <= d + 1).
  { intros p Hp. split; [|apply (Hw (v, d) p); set_solver].
    apply StronglySorted_inv in Hso as [_ Hall']. rewrite Forall_forall in Hall'.
    apply Hall', list_elem_of_fmap. eauto. }
  assert (Hold : forall u a, visited !! u = Some a -> a <= d)
    by (intros u a Hu; apply (Hb u a (v, d) Hu); set_solver).
  assert (Hpv : forall p, p ∈ map (fun w => (w, d + 1)) pushed -> exists w, p = (w, d + 1) /\ w ∈ pushed).
  { intros p Hp. apply (list_elem_of_fmap (fun w => (w, d + 1))) in Hp. done. }
  assert (Hseen : forall w k, seen visited ((v, d) :: queue) w k ->
            seen (<[v := d]> visited) (queue ++ map (fun w => (w, d + 1)) pushed) w k).
  { intros w k [(b & Hw' & ?)|(b & [[= -> ->]|?]%elem_of_cons & ?)].
    - left. exists b. rewrite lookup_insert_ne by congruence. auto.
    - left. exists d. by rewrite lookup_insert_eq.
    - right. exists b. split; [set_solver|done]. }
  split.
  - auto.
  - rewrite map_app, map_map. cbn. apply StronglySorted_inv in Hso as [Hso _].
    assert (Hle : forall x, x ∈ map snd queue -> x <= d + 1)
      by (intros x (p & -> & Hp)%list_elem_of_fmap; by apply Hhead).
    by apply StronglySorted_snoc_const.
  - intros p p' [Hp|(w & -> & _)%Hpv]%elem_of_app [Hp'|(w' & -> & _)%Hpv]%elem_of_app; cbn; try lia.
    + apply Hw; set_solver.
    + apply Hhead in Hp. lia.
    + apply Hhead in Hp'. lia.
  - intros u a p Hu [Hp|(w & -> & _)%Hpv]%elem_of_app; cbn;
      (destruct (decide (u = v)) as [->|Hne];
       [rewrite lookup_insert_eq in Hu; injection Hu as <-
       |rewrite lookup_insert_ne in Hu by done; apply Hold in Hu]); try lia;
      apply Hhead in Hp; lia.
  - intros u a Hu. destruct (decide (u = v)) as [->|Hne].
    + rewrite lookup_insert_eq in Hu. by injection Hu as <-.
    + rewrite lookup_insert_ne in Hu by done. auto.
  - intros p [Hp|(w & -> & Hp)%Hpv]%elem_of_app; [apply Hq; set_solver|].
    cbn. rewrite Nat.add_1_r. eapply nsteps_r; eauto.
  - intros u a w Hu Hstop HR. destruct (decide (u = v)) as [->|Hne].
    + rewrite lookup_insert_eq in Hu. injection Hu as <-.
      destruct (Hall Hstop w HR) as [->|[[b Hb']|[Hp|[b Hb']]]].
      * left. exists d. rewrite lookup_insert_eq. split; [done|lia].
      * left. exists b. pose proof (Hold _ _ Hb'). rewrite lookup_insert_ne by congruence.
        split; [done|lia].
      * right. exists (d + 1). split; [|done]. apply elem_of_app. right.
        apply list_elem_of_fmap. eauto.
      * right. exists b. apply Hhead in Hb' as Hbd. cbn in Hbd. split; [set_solver|lia].
    + rewrite lookup_insert_ne in Hu by done. apply Hseen. eauto.
Qed.

Hypothesis stop_mono : forall a b, a <= b -> stop a = true -> stop b = true.

(** Every node nearer than the head of the queue was visited, no later than
    its distance. *)
Lemma frontier_visits visited queue :
  frontier visited queue ->
  forall n v, nsteps R n start v ->
    (forall p, p ∈ queue -> n < snd p) -> (forall i, i < n -> stop i = false) ->
    exists b, visited !! v = Some b /\ b <= n.
Proof.
  intros Hf n. induction n as [|n IH]; intros v Hn Hq Hstop.
  - inversion Hn; subst. destruct (fr_start _ _ Hf) as [?|(b & Hb & ?)]; [done|].
    apply Hq in Hb. cbn in Hb. lia.
  - apply nsteps_inv_r in Hn as (u & Hu & HR).
    destruct (IH u Hu) as (a & Ha & Han).
    { intros p Hp. specialize (Hq p Hp). lia. }
    { intros i Hi. apply Hstop. lia. }
    assert (Hs : stop a = false).
    { destruct (stop a) eqn:Hs; [|done]. rewrite <- (Hstop n) by lia. symmetry. by eapply stop_mono. }
    destruct (fr_closed _ _ Hf u a v Ha Hs HR) as [(b & ? & ?)|(b & Hb & ?)].
    + exists b. split; [done|lia].
    + apply Hq in Hb. cbn in Hb. lia.
Qed.

End Frontier.
