(* ===== verification/FindPath.v ===== *)
(** * Shortest paths
      (crates/codegraph-graph/src/graph/mod.rs, [find_path], [find_path_instrumented])

    A breadth-first search over outgoing edges whose queue entries carry the
    path walked so far, with an enqueue-once guard and queue accounting. *)
From S2P Require Import Prelude Types Rows GraphStore GraphCore Frontier.

Section FindPath.
Context {St} `{GraphStore St} (st : St).

(** What the loop over a node's outgoing edges updates. *)
Record PathQueue : Type := mkPathQueue {
  pq_enqueued : gset string;
  pq_queue : list (string * list PathStep);
  pq_pushes : nat
}.

(** The body of that loop. *)
Definition enqueue_edge (visited : gset string) (next_nodes : gmap string Node)
    (path : list PathStep) (q : PathQueue) (edge : Edge) : PathQueue :=
  if decide (edge_target edge ∉ visited /\ edge_target edge ∉ pq_enqueued q) then
    match next_nodes !! edge_target edge with
    | Some next_node =>
        mkPathQueue ({[edge_target edge]} ∪ pq_enqueued q)
          (pq_queue q ++ [(edge_target edge, path ++ [mkPathStep next_node (Some edge)])])
          (pq_pushes q + 1)
    | None => q
    end
  else q.

(** The [while let Some((node_id, path)) = queue.pop_front()] loop. *)
Fixpoint find_path_loop (fuel : nat) (to_id : string) (kinds : list EdgeKind)
    (visited enq : gset string) (queue : list (string * list PathStep)) (stats : PathSearchStats)
  : result SqlError (option (list PathStep) * PathSearchStats) :=
  match fuel with
  | 0 => OutOfFuel
  | S fuel =>
      match queue with
      | [] => Ok (None, stats)
      | (id, path) :: queue =>
          let stats := mkStats (enqueued stats) (dequeued stats + 1) (duplicate_dequeues stats) in
          if String.eqb id to_id then Ok (Some path, stats)
          else if decide (id ∈ visited) then
            find_path_loop fuel to_id kinds visited enq queue
              (mkStats (enqueued stats) (dequeued stats) (duplicate_dequeues stats + 1))
          else
            let visited := {[id]} ∪ visited in
            outgoing ← outgoing_edges st id kinds;
            match outgoing with
            | [] => find_path_loop fuel to_id kinds visited enq queue stats
            | _ =>
                let want_ids := filter (fun id => id ∉ visited /\ id ∉ enq)
                                       (map edge_target outgoing) in
                next_nodes ← nodes_by_ids st want_ids;
                let q := fold_left (enqueue_edge visited next_nodes path) outgoing
                                   (mkPathQueue enq queue 0) in
                find_path_loop fuel to_id kinds visited (pq_enqueued q) (pq_queue q)
                  (mkStats (enqueued stats + pq_pushes q) (dequeued stats)
                           (duplicate_dequeues stats))
            end
      end
  end.

(** [find_path_instrumented]. *)
Definition find_path_instrumented (fuel : nat) (from_id to_id : string) (kinds : list EdgeKind)
  : result SqlError (option (list PathStep) * PathSearchStats) :=
  from ← node_by_id st from_id;
  match from with
  | None => Ok (None, mkStats 0 0 0)
  | Some from_node =>
      to ← node_by_id st to_id;
      match to with
      | None => Ok (None, mkStats 0 0 0)
      | Some _ =>
          find_path_loop fuel to_id kinds ∅ {[from_id]}
            [(from_id, [mkPathStep from_node None])] (mkStats 1 0 0)
      end
  end.

(** [find_path]. *)
Definition find_path (fuel : nat) (from_id to_id : string) (kinds : list EdgeKind)
  : result SqlError (option (list PathStep)) :=
  fst <$> find_path_instrumented fuel from_id to_id kinds.

End FindPath.

(** ** Paths of the graph *)

Section Spec.
Context (g : GraphView) (kinds : list EdgeKind).

(** One outgoing edge of an allowed kind. *)
Definition out_step (u v : string) : Prop :=
  exists e, e ∈ gv_edges g /\ edge_source e = u /\ edge_target e = v /\ kinds_allow kinds e.

(** [path_to from path u]: [path] starts at [from] without an edge, every later
    step is an allowed edge out of the step before it, and it ends at [u]. *)
Inductive path_to (from : string) : list PathStep -> string -> Prop :=
| path_start n : gv_nodes g !! from = Some n -> path_to from [mkPathStep n None] from
| path_extend path e n : path_to from path (edge_source e) ->
    e ∈ gv_edges g -> kinds_allow kinds e -> gv_nodes g !! edge_target e = Some n ->
    path_to from (path ++ [mkPathStep n (Some e)]) (edge_target e).

Lemma path_to_length from path u : path_to from path u -> 0 < length path.
Proof. destruct 1; rewrite ?length_app; cbn; lia. Qed.

End Spec.

(** ** The loop *)

Section Search.
Context {St} `{HS : HealthyStore St st g}.
Variables (kinds : list EdgeKind) (from to : string).

Notation R := (out_step g kinds).

(** The queue as the frontier sees it: a path of [n+1] steps is at depth [n]. *)
Definition depths (queue : list (string * list PathStep)) : list (string * nat) :=
  map (fun p => (fst p, length (snd p) - 1)) queue.

Record path_inv (visited enq : gset string) (queue : list (string * list PathStep))
    (stats : PathSearchStats) : Prop := {
  pi_frontier : exists δ, dom δ = visited /\ frontier R from (fun _ => false) δ (depths queue);
  pi_NoDup : NoDup (map fst queue);
  pi_enq : forall u, u ∈ enq <-> u ∈ visited \/ u ∈ map fst queue;
  pi_disjoint : forall u, u ∈ visited -> u ∉ map fst queue;
  pi_paths : forall u path, (u, path) ∈ queue -> path_to g kinds from path u;
  pi_to : to ∉ visited;
  pi_stored : forall u, u ∈ enq -> is_Some (gv_nodes g !! u);
  pi_pushed : enqueued stats = size visited + length queue;
  pi_popped : dequeued stats = size visited;
  pi_once : duplicate_dequeues stats = 0
}.

(** What the loop has pushed after the edges [pre] of [id]. *)
Record push_inv (visited enq : gset string) (queue : list (string * list PathStep))
    (path : list PathStep) (pre : list Edge) (q : PathQueue) (pushed : list Edge) : Prop := {
  pu_queue : exists ns, length ns = length pushed /\
    pq_queue q = queue ++ zip_with (fun e n => (edge_target e, path ++ [mkPathStep n (Some e)])) pushed ns
    /\ Forall2 (fun e n => gv_nodes g !! edge_target e = Some n) pushed ns;
  pu_enq : forall u, u ∈ pq_enqueued q <-> u ∈ enq \/ u ∈ map edge_target pushed;
  pu_count : pq_pushes q = length pushed;
  pu_NoDup : NoDup (map edge_target pushed);
  pu_sub : forall e, e ∈ pushed -> e ∈ pre;
  pu_fresh : forall e, e ∈ pushed -> edge_target e ∉ visited /\ edge_target e ∉ enq;
  pu_all : forall e, e ∈ pre -> edge_target e ∈ visited \/ edge_target e ∈ pq_enqueued q
}.

Lemma push_step visited enq queue path pre next_nodes q pushed e :
  e ∈ gv_edges g ->
  (edge_target e ∉ visited -> edge_target e ∉ enq ->
     next_nodes !! edge_target e = gv_nodes g !! edge_target e) ->
  push_inv visited enq queue path pre q pushed ->
  exists pushed', push_inv visited enq queue path (pre ++ [e])
                    (enqueue_edge visited next_nodes path q e) pushed'.
Proof.
  intros Hge Hnext [(ns & Hlen & Hq & Hns) He Hc Hnd Hsub Hfr Hall]. unfold enqueue_edge.
  case_decide as Hd.
  - destruct Hd as [Hnv Hnq]. rewrite He in Hnq.
    destruct (view_target e Hge) as [n Hn]. rewrite Hnext, Hn by tauto.
    exists (pushed ++ [e]). split; cbn.
    + exists (ns ++ [n]). rewrite !length_app, Hq. cbn. split; [lia|].
      rewrite zip_with_app by done. cbn. split; [by rewrite app_assoc|].
      apply Forall2_app; [done|]. by repeat constructor.
    + intros u. rewrite elem_of_union, elem_of_singleton, He, map_app. set_solver.
    + rewrite length_app, Hc. done.
    + rewrite map_app. apply NoDup_app. split; [done|]. split; [|apply NoDup_singleton].
      intros u Hu ->%list_elem_of_singleton. tauto.
    + set_solver.
    + intros e' [?| ->%list_elem_of_singleton]%elem_of_app; [auto|]. tauto.
    + intros e' [[?|?]%Hall| ->%list_elem_of_singleton]%elem_of_app; set_solver.
  - exists pushed. split; auto; [eauto|set_solver|].
    intros e' [?| ->%list_elem_of_singleton]%elem_of_app; [auto|].
    destruct (decide (edge_target e ∈ visited)); [auto|].
    destruct (decide (edge_target e ∈ pq_enqueued q)); [auto|tauto].
Qed.

Lemma push_all visited enq queue path outgoing next_nodes :
  (forall e, e ∈ outgoing -> e ∈ gv_edges g) ->
  (forall id, id ∈ filter (fun id => id ∉ visited /\ id ∉ enq) (map edge_target outgoing) ->
     next_nodes !! id = gv_nodes g !! id) ->
  exists pushed, push_inv visited enq queue path outgoing
    (fold_left (enqueue_edge visited next_nodes path) outgoing (mkPathQueue enq queue 0)) pushed.
Proof.
  intros Hedges Hnext.
  assert (Hgen : forall post pre q pushed, outgoing = pre ++ post ->
            push_inv visited enq queue path pre q pushed ->
            exists pushed', push_inv visited enq queue path outgoing
              (fold_left (enqueue_edge visited next_nodes path) post q) pushed').
  { induction post as [|e post IH]; intros pre q pushed Hsplit Hinv; cbn.
    { exists pushed. by rewrite Hsplit, app_nil_r. }
    destruct (push_step visited enq queue path pre next_nodes q pushed e) as [pushed' Hinv'];
      [apply Hedges; set_solver| |done|].
    - intros ??. apply Hnext, list_elem_of_filter. split; [done|].
      apply list_elem_of_fmap. exists e. set_solver.
    - eapply (IH (pre ++ [e])); [|exact Hinv']. by rewrite Hsplit, <- app_assoc. }
  apply (Hgen outgoing [] _ []); [done|]. split; cbn; try done; [|set_solver|constructor|set_solver..].
  exists []. by rewrite app_nil_r.
Qed.

(** Dequeuing [u] and pushing its unseen successors keeps the invariant. *)
Lemma path_inv_expand visited enq u path queue stats q pushed outgoing :
  path_inv visited enq ((u, path) :: queue) stats -> u <> to -> u ∉ visited ->
  (forall e, e ∈ outgoing <-> e ∈ gv_edges g /\ edge_source e = u /\ kinds_allow kinds e) ->
  push_inv ({[u]} ∪ visited) enq queue path outgoing q pushed ->
  path_inv ({[u]} ∪ visited) (pq_enqueued q) (pq_queue q)
    (mkStats (enqueued stats + pq_pushes q) (dequeued stats + 1) (duplicate_dequeues stats)).
Proof.
  intros [(δ & Hdom & Hfr) Hnd Henq Hdis Hpaths Hto Hst Hpu Hpo Hon] Hut Huv Hout
         [(ns & Hlen & Hq & Hns) He Hc Hndp Hsub Hfresh Hall].
  pose proof (Hpaths u path ltac:(set_solver)) as Hup.
  assert (Hfst : map fst (pq_queue q) = map fst queue ++ map edge_target pushed).
  { rewrite Hq, map_app. f_equal. clear -Hlen. revert ns Hlen.
    induction pushed as [|e l IH]; intros [|n ns] Hlen; cbn in *; try done. f_equal. auto. }
  assert (Hdep : depths (pq_queue q)
                 = depths queue ++ map (fun w => (w, length path - 1 + 1)) (map edge_target pushed)).
  { unfold depths. rewrite Hq, map_app. f_equal. pose proof (path_to_length _ _ _ _ _ Hup) as Hl.
    clear -Hlen Hl. revert ns Hlen. induction pushed as [|e l IH]; intros [|n ns] Hlen; cbn in *; try done.
    rewrite length_app. cbn. f_equal; [f_equal; lia|auto]. }
  cbn in Hnd. apply NoDup_cons in Hnd as [Huq Hnd].
  assert (Hsz : size ({[u]} ∪ visited) = S (size visited))
    by (rewrite size_union, size_singleton by set_solver; lia).
  split; cbn; rewrite ?Hfst, ?Hdep.
  - exists (<[u := length path - 1]> δ). split; [by rewrite dom_insert_L, Hdom|].
    apply frontier_expand; [done|by apply not_elem_of_dom; rewrite Hdom| |].
    + intros w (e & -> & He')%list_elem_of_fmap. apply Hsub, Hout in He' as (? & ? & ?). by exists e.
    + intros _ w (e & He1 & He2 & <- & He3).
      assert (Hine : e ∈ outgoing) by (by apply Hout).
      destruct (Hall e Hine) as [Hv|[Hv|Hv]%He].
      * apply elem_of_union in Hv as [->%elem_of_singleton|Hv]; [by left|]. right; left.
        apply elem_of_dom. by rewrite Hdom.
      * apply Henq in Hv as [Hv|Hv].
        { right; left. apply elem_of_dom. by rewrite Hdom. }
        cbn in Hv. apply elem_of_cons in Hv as [Hv|Hv]; [by left|].
        right; right; right. apply list_elem_of_fmap in Hv as ([w p] & -> & Hv). exists (length p - 1).
        apply list_elem_of_fmap. by exists (w, p).
      * auto.
  - apply NoDup_app. split; [done|]. split; [|done].
    intros w Hw (e & -> & He')%list_elem_of_fmap. apply Hfresh in He' as [_ Hne].
    apply Hne, Henq. set_solver.
  - intros w. rewrite He, Henq. set_solver.
  - intros w Hw Hin. apply elem_of_app in Hin as [Hin|(e & -> & He')%list_elem_of_fmap].
    + apply elem_of_union in Hw as [->%elem_of_singleton|Hw]; [done|]. by apply (Hdis w Hw); set_solver.
    + by apply Hfresh in He' as [? _].
  - intros w p. rewrite Hq. intros [Hin|Hin]%elem_of_app; [apply Hpaths; set_solver|].
    apply elem_of_lookup_zip_with in Hin as (i & e & n & [= -> ->] & Hi1 & Hi2).
    pose proof (Forall2_lookup_lr _ _ _ _ _ _ Hns Hi1 Hi2) as Hn. cbn in Hn.
    apply list_elem_of_lookup_2, Hsub, Hout in Hi1 as (? & <- & ?). by apply path_extend.
  - set_solver.
  - intros w [Hw|Hw]%He; [auto|]. apply list_elem_of_fmap in Hw as (e & -> & He').
    apply Hsub, Hout in He' as (? & _). by apply view_target.
  - rewrite Hsz, Hpu, Hc, Hq, length_app, length_zip_with. cbn. lia.
  - rewrite Hsz. lia.
  - done.
Qed.

(** What the search answers. *)
Record path_answer (answer : option (list PathStep)) (stats : PathSearchStats) : Prop := {
  pa_answer : match answer with
              | Some path => path_to g kinds from path to
                             /\ forall n, nsteps R n from to -> length path <= n + 1
              | None => forall n, ~ nsteps R n from to
              end;
  pa_once : duplicate_dequeues stats = 0;
  pa_enqueued : enqueued stats <= size (gv_nodes g);
  pa_dequeued : dequeued stats <= enqueued stats
}.

Lemma path_inv_bounds visited enq queue stats :
  path_inv visited enq queue stats ->
  size visited + length queue <= size (gv_nodes g).
Proof.
  intros [_ Hnd Henq Hdis _ _ Hst _ _ _].
  rewrite <- (size_dom (D := gset string) (gv_nodes g)).
  rewrite <- (length_map fst queue), <- (size_list_to_set (C := gset string) (map fst queue) Hnd).
  rewrite <- size_union by set_solver. apply subseteq_size. intros u Hu.
  apply elem_of_dom, Hst, Henq. set_solver.
Qed.

(** Popping the goal answers with a shortest path. *)
Lemma path_inv_found visited enq path queue stats :
  path_inv visited enq ((to, path) :: queue) stats ->
  path_answer (Some path) (mkStats (enqueued stats) (dequeued stats + 1) (duplicate_dequeues stats)).
Proof.
  intros Hinv. pose proof (path_inv_bounds _ _ _ _ Hinv) as Hb. cbn in Hb.
  destruct Hinv as [(δ & Hdom & Hfr) _ _ _ Hpaths Hto _ Hpu Hpo Hon]. cbn in Hpu.
  assert (Hp : path_to g kinds from path to) by (apply Hpaths; set_solver).
  split; cbn; [|done|lia..]. split; [done|]. intros n Hn.
  destruct (decide (length path <= n + 1)) as [|Hlt]; [done|]. exfalso.
  destruct (frontier_visits R from (fun _ => false) ltac:(done) _ _ Hfr n to Hn)
    as (b & Hb' & _); [|done|].
  - intros p [->|Hp']%elem_of_cons; cbn; [lia|].
    pose proof (fr_sorted _ _ _ _ _ Hfr) as Hso. cbn in Hso.
    apply StronglySorted_inv in Hso as [_ Hall]. rewrite Forall_forall in Hall.
    specialize (Hall (snd p) ltac:(apply list_elem_of_fmap; eauto)). lia.
  - apply Hto. rewrite <- Hdom. apply elem_of_dom. eauto.
Qed.

Lemma find_path_loop_ok fuel visited enq queue stats :
  size (gv_nodes g) - size visited < fuel -> path_inv visited enq queue stats ->
  returns (find_path_loop st fuel to kinds visited enq queue stats)
    (fun r => path_answer (fst r) (snd r)).
Proof.
  revert visited enq queue stats. induction fuel as [|fuel IH];
    intros visited enq queue stats Hfuel Hinv; [lia|].
  pose proof (path_inv_bounds _ _ _ _ Hinv) as Hb. cbn [find_path_loop].
  destruct queue as [|[u path] queue].
  { cbn. pose proof Hinv as [(δ & Hdom & Hfr) _ _ _ _ Hto _ Hpu Hpo Hon]. cbn in *.
    split; [|lia..]. intros n Hn.
    destruct (frontier_visits R from (fun _ => false) ltac:(done) _ _ Hfr n to Hn)
      as (b & Hb' & _); [intros p Hp; by apply not_elem_of_nil in Hp|done|].
    apply Hto. rewrite <- Hdom. apply elem_of_dom. eauto. }
  destruct (String.eqb_spec u to) as [->|Hut].
  { cbn. by eapply path_inv_found. }
  assert (Huv : u ∉ visited).
  { intros Hu. apply (pi_disjoint _ _ _ _ Hinv u Hu). cbn. set_solver. }
  rewrite decide_False by done. cbn in Hb.
  assert (Hsz : size ({[u]} ∪ visited) = S (size visited))
    by (rewrite size_union, size_singleton by set_solver; lia).
  returns_step outgoing_edges_ok. intros out [_ Hout]. cbn beta.
  assert (Hnext : forall q pushed, push_inv ({[u]} ∪ visited) enq queue path out q pushed ->
    returns (find_path_loop st fuel to kinds ({[u]} ∪ visited) (pq_enqueued q) (pq_queue q)
       (mkStats (enqueued stats + pq_pushes q) (dequeued stats + 1) (duplicate_dequeues stats)))
      (fun r => path_answer (fst r) (snd r))).
  { intros q pushed Hpush. apply IH; [lia|]. by eapply path_inv_expand. }
  destruct out as [|e0 out0].
  { specialize (Hnext (mkPathQueue enq queue 0) []). cbn in Hnext. rewrite Nat.add_0_r in Hnext.
    apply Hnext. split; cbn; try done; [|set_solver|constructor|set_solver..].
    exists []. by rewrite app_nil_r. }
  set (out := e0 :: out0) in *. clearbody out.
  returns_step nodes_by_ids_lookup. intros next Hnx. cbn zeta beta.
  destruct (push_all ({[u]} ∪ visited) enq queue path out next) as [pushed Hpush]; [|done|].
  - intros e He. by apply Hout.
  - by apply (Hnext _ pushed).
Qed.

Lemma path_inv_initial from_node :
  gv_nodes g !! from = Some from_node ->
  path_inv ∅ {[from]} [(from, [mkPathStep from_node None])] (mkStats 1 0 0).
Proof.
  intros Hf. split; cbn; try done.
  - exists ∅. split; [apply dom_empty_L|]. apply frontier_initial.
  - apply NoDup_singleton.
  - set_solver.
  - intros u path [= -> ->]%list_elem_of_singleton. by constructor.
  - intros u ->%elem_of_singleton. eauto.
Qed.

End Search.

Lemma find_path_instrumented_answer {St} `{HS : HealthyStore St st g} kinds from to fuel :
  is_Some (gv_nodes g !! from) -> is_Some (gv_nodes g !! to) -> size (gv_nodes g) < fuel ->
  returns (find_path_instrumented st fuel from to kinds)
    (fun r => path_answer (g := g) kinds from to (fst r) (snd r)).
Proof.
  intros [n Hn] [m Hm] Hfuel. unfold find_path_instrumented.
  rewrite !healthy_node_by_id, Hn. cbn [mbind result_bind]. rewrite Hm.
  apply find_path_loop_ok; [lia|]. by apply path_inv_initial.
Qed.
