(* ===== verification/TraverseBfs.v ===== *)
(** * Breadth-first traversal
      (crates/codegraph-graph/src/graph/mod.rs, [traverse_bfs])

    A bounded search in any direction: nodes enter the subgraph when they are
    pushed, up to [limit]; edges when the node they lead to is dequeued. *)
From S2P Require Import Prelude Types Rows GraphStore GraphCore Frontier.

Section Bfs.
Context {St} `{GraphStore St} (st : St) (options : TraversalOptions).

(** [!options.node_kinds.is_empty() && !options.node_kinds.contains(&kind)], negated. *)
Definition node_allowed (n : Node) : bool :=
  match node_kinds options with
  | [] => true
  | _ => bool_decide (node_kind n ∈ node_kinds options)
  end.

Definition limit_reached (graph : Subgraph) : bool :=
  bool_decide (limit options <= size (sg_nodes graph)).

Definition BfsQueue : Type := list (Node * option Edge * nat).

(** One adjacent edge of [id]; [None] is the [break] at the node cap. *)
Definition bfs_edge (id : string) (depth : nat) (visited : gset string)
    (neighbor_nodes : gmap string Node) (s : Subgraph * BfsQueue) (adj_edge : Edge)
  : result SqlError (loop_step (Subgraph * BfsQueue)) :=
  let '(graph, queue) := s in
  if limit_reached graph then Ok (Break s) else
  let next_id := neighbor_id adj_edge id in
  if decide (next_id ∈ visited) then Ok (Continue s) else
  match neighbor_nodes !! next_id with
  | None => Ok (Continue s)
  | Some next_node =>
      if node_allowed next_node
      then Ok (Continue (set_node graph next_node,
                         queue ++ [(next_node, Some adj_edge, depth + 1)]))
      else Ok (Continue s)
  end.

(** The [while let Some(..) = queue.pop_front()] loop. *)
Fixpoint bfs_loop (fuel : nat) (graph : Subgraph) (visited : gset string) (queue : BfsQueue)
  : result SqlError Subgraph :=
  match fuel with
  | 0 => OutOfFuel
  | S fuel =>
      match queue with
      | [] => Ok graph
      | (node, edge, depth) :: queue =>
          if limit_reached graph then Ok graph
          else if decide (node_id node ∈ visited) then bfs_loop fuel graph visited queue
          else
            let visited := {[node_id node]} ∪ visited in
            let graph := match edge with Some edge => push_edge graph edge | None => graph end in
            if depth_reached depth (max_depth options) then bfs_loop fuel graph visited queue
            else
              adjacent ← adjacent_edges st (node_id node) (direction options) (edge_kinds options);
              let adjacent :=
                sort_by (fun a b => Z.leb (structural_priority a) (structural_priority b)) adjacent in
              neighbor_nodes ← nodes_by_ids st
                                 (unvisited_neighbor_ids adjacent (node_id node) visited);
              s ← for_M (bfs_edge (node_id node) depth visited neighbor_nodes) (graph, queue) adjacent;
              bfs_loop fuel (fst s) visited (snd s)
      end
  end.

(** [traverse_bfs]. *)
Definition traverse_bfs (fuel : nat) (start_id : string) : result SqlError Subgraph :=
  start ← node_by_id st start_id;
  match start with
  | None => Ok Subgraph_empty
  | Some start_node =>
      let graph := if include_start options then set_node Subgraph_empty start_node
                   else Subgraph_empty in
      graph ← bfs_loop fuel graph ∅ [(start_node, None, 0)];
      Ok (set_roots graph [start_id])
  end.

End Bfs.

(** ** Lengths of the adjacency lists *)

Section Lengths.
Context {St} `{HS : HealthyStore St st g}.

Lemma kinds_loop_length (read : option EdgeKind -> result SqlError (list Edge)) kinds :
  (forall k, returns (read k) (fun es => length es <= length (gv_edges g))) ->
  returns (for_M (fun out kind => es ← read (Some kind); Ok (Continue (out ++ es))) [] kinds)
    (fun es => length es <= length kinds * length (gv_edges g)).
Proof.
  intros Hread.
  apply (returns_for_M _ (fun pre es => length es <= length pre * length (gv_edges g)));
    [cbn; lia| |done].
  intros pre k post es _ Hes. returns_step Hread. intros es' Hes'. cbn.
  rewrite !length_app, Nat.mul_add_distr_r. cbn in *. lia.
Qed.

Lemma adjacent_edges_length id dir kinds :
  returns (adjacent_edges st id dir kinds)
    (fun es => length es <= 2 * (1 + length kinds) * length (gv_edges g)).
Proof.
  assert (Hs : forall k, returns (edges_by_source_kind st id k)
                 (fun es => length es <= length (gv_edges g))).
  { intros k. eapply returns_mono; [apply healthy_edges_by_source|].
    intros es ->. apply length_filter. }
  assert (Ht : forall k, returns (edges_by_target_kind st id k)
                 (fun es => length es <= length (gv_edges g))).
  { intros k. eapply returns_mono; [apply healthy_edges_by_target|].
    intros es ->. apply length_filter. }
  assert (Ho : returns (outgoing_edges st id kinds)
                 (fun es => length es <= (1 + length kinds) * length (gv_edges g))).
  { destruct kinds as [|k kinds].
    - eapply returns_mono; [apply Hs|]. cbn. nia.
    - eapply returns_mono; [by apply kinds_loop_length|]. cbn. nia. }
  assert (Hi : returns (incoming_edges st id kinds)
                 (fun es => length es <= (1 + length kinds) * length (gv_edges g))).
  { destruct kinds as [|k kinds].
    - eapply returns_mono; [apply Ht|]. cbn. nia.
    - eapply returns_mono; [by apply kinds_loop_length|]. cbn. nia. }
  destruct dir; cbn [adjacent_edges].
  - eapply returns_mono; [apply Ho|]. cbn. nia.
  - eapply returns_mono; [apply Hi|]. cbn. nia.
  - returns_step Ho. intros out Hout. returns_step Hi. intros inc Hinc. cbn.
    rewrite length_app. cbn in *. nia.
Qed.

End Lengths.

(** ** The invariant *)

Section Inv.
Context {St} `{HS : HealthyStore St st g}.
Variables (options : TraversalOptions) (start : string).

(** One adjacent edge to a stored node the node filter lets pass. *)
Definition nbr_step (u v : string) : Prop :=
  exists e n, e ∈ gv_edges g /\ adjacent_to (direction options) u e
    /\ kinds_allow (edge_kinds options) e /\ neighbor_id e u = v
    /\ gv_nodes g !! v = Some n /\ node_allowed options n = true.

Definition stop (d : nat) : bool := depth_reached d (max_depth options).

Lemma stop_mono a b : a <= b -> stop a = true -> stop b = true.
Proof. unfold stop. rewrite !depth_reached_spec. intros ? (m & ? & ?). exists m. auto with lia. Qed.

(** An edge the traversal may record: stored, of an allowed kind, between
    nodes of the subgraph (the start counts as one of them). *)
Definition known graph (x : string) : Prop := x = start \/ is_Some (sg_nodes graph !! x).

Definition edge_ok graph (e : Edge) : Prop :=
  e ∈ gv_edges g /\ kinds_allow (edge_kinds options) e
  /\ known graph (edge_source e) /\ known graph (edge_target e).

Record bfs_sound (graph : Subgraph) (visited : gset string) (queue : BfsQueue) : Prop := {
  bs_nodes : forall x n, sg_nodes graph !! x = Some n -> gv_nodes g !! x = Some n
    /\ (x = start /\ include_start options = true \/ x <> start /\ node_allowed options n = true)
    /\ exists k, (forall m, max_depth options = Some m -> k <= m) /\ nsteps nbr_step k start x;
  bs_include : include_start options = true -> is_Some (sg_nodes graph !! start);
  bs_edges : forall e, e ∈ sg_edges graph -> edge_ok graph e;
  bs_ordered : ordered graph;
  bs_cap : size (sg_nodes graph) <= Nat.max (limit options) (if include_start options then 1 else 0);
  bs_visited : forall u, u ∈ visited -> known graph u /\ is_Some (gv_nodes g !! u);
  bs_queue : forall n oe d, (n, oe, d) ∈ queue ->
    gv_nodes g !! node_id n = Some n /\ known graph (node_id n)
    /\ nsteps nbr_step d start (node_id n)
    /\ (forall m, max_depth options = Some m -> d <= m)
    /\ (forall e, oe = Some e -> edge_ok graph e);
  bs_started : start ∈ visited \/ (visited = ∅ /\ forall p, p ∈ queue -> node_id (fst (fst p)) = start)
}.

(** Until the cap is hit, the frontier invariant holds. *)
Definition queue_depths (queue : BfsQueue) : list (string * nat) :=
  map (fun p => (node_id (fst (fst p)), snd p)) queue.

Definition bfs_live (visited : gset string) (queue : BfsQueue) : Prop :=
  exists δ, dom δ = visited /\ frontier nbr_step start stop δ (queue_depths queue).

(** ** The loop over one node's edges *)

(** [pushed]: the entries added by the edges [pre] of [u]. *)
Record edge_inv (u : string) (d : nat) (visited : gset string) (graph0 : Subgraph)
    (queue0 : BfsQueue) (pre : list Edge) (s : Subgraph * BfsQueue) (pushed : list (Node * Edge))
  : Prop := {
  ei_queue : snd s = queue0 ++ map (fun p => (fst p, Some (snd p), d + 1)) pushed;
  ei_pushed : forall n e, (n, e) ∈ pushed -> e ∈ pre /\ neighbor_id e u ∉ visited
    /\ gv_nodes g !! neighbor_id e u = Some n /\ node_allowed options n = true;
  ei_length : length pushed <= length pre;
  ei_nodes : forall x n, sg_nodes (fst s) !! x = Some n ->
    sg_nodes graph0 !! x = Some n \/ exists e, (n, e) ∈ pushed /\ x = neighbor_id e u;
  ei_mono : forall x, is_Some (sg_nodes graph0 !! x) -> is_Some (sg_nodes (fst s) !! x);
  ei_in : forall n e, (n, e) ∈ pushed -> is_Some (sg_nodes (fst s) !! neighbor_id e u);
  ei_edges : sg_edges (fst s) = sg_edges graph0;
  ei_ordered : ordered (fst s);
  ei_cap : size (sg_nodes (fst s)) <= Nat.max (limit options) (size (sg_nodes graph0))
}.

Definition all_pushed (u : string) (visited : gset string) (pre : list Edge)
    (pushed : list (Node * Edge)) : Prop :=
  forall e, e ∈ pre -> neighbor_id e u ∈ visited \/
    (exists n, gv_nodes g !! neighbor_id e u = Some n
               /\ (node_allowed options n = false \/ (n, e) ∈ pushed)).

Lemma edge_inv_weaken u d visited graph0 queue0 pre s pushed e :
  edge_inv u d visited graph0 queue0 pre s pushed ->
  edge_inv u d visited graph0 queue0 (pre ++ [e]) s pushed.
Proof.
  intros []. split; auto.
  - intros n e' He'. destruct (ei_pushed0 n e' He') as (? & ?). split; [set_solver|done].
  - rewrite length_app. lia.
Qed.

Lemma size_set_node graph n : size (sg_nodes (set_node graph n)) <= S (size (sg_nodes graph)).
Proof.
  cbn. destruct (sg_nodes graph !! node_id n) eqn:Hn.
  - rewrite map_size_insert_Some; [lia|by eexists].
  - rewrite map_size_insert_None by done. lia.
Qed.

(** One edge: either the cap stops the loop, or the edge is accounted for. *)
Lemma bfs_edge_ok u d visited graph0 queue0 pre s pushed e nn :
  edge_inv u d visited graph0 queue0 pre s pushed -> all_pushed u visited pre pushed ->
  e ∈ gv_edges g -> (neighbor_id e u ∉ visited -> nn !! neighbor_id e u = gv_nodes g !! neighbor_id e u) ->
  returns (bfs_edge options u d visited nn s e)
    (fun r => match r with
              | Continue s' => exists pushed', edge_inv u d visited graph0 queue0 (pre ++ [e]) s' pushed'
                                 /\ all_pushed u visited (pre ++ [e]) pushed'
              | Break s' => edge_inv u d visited graph0 queue0 pre s' pushed
                            /\ limit_reached options (fst s') = true
              end).
Proof.
  intros Hinv Hall He Hnn. unfold bfs_edge. destruct s as [graph queue].
  destruct (limit_reached options graph) eqn:Hlim; [done|].
  case_decide as Hv.
  { exists pushed. split; [by apply edge_inv_weaken|].
    intros e' [?| ->%list_elem_of_singleton]%elem_of_app; auto. }
  destruct (neighbor_stored u e He) as [n Hn]. rewrite (Hnn Hv), Hn.
  pose proof (view_key _ _ Hn) as Eid.
  destruct (node_allowed options n) eqn:Hok; cbn.
  2:{ exists pushed. split; [by apply edge_inv_weaken|].
      intros e' [?| ->%list_elem_of_singleton]%elem_of_app; eauto. }
  pose proof (ei_length _ _ _ _ _ _ _ _ Hinv) as Hlen.
  apply (edge_inv_weaken _ _ _ _ _ _ _ _ e) in Hinv.
  exists (pushed ++ [(n, e)]). destruct Hinv as [Hq Hp Hl Hnodes Hmono Hin Hed Hord Hcap]. cbn in *.
  split; [split; cbn|].
  - by rewrite Hq, map_app, app_assoc.
  - intros m e' [?|[= -> ->]%list_elem_of_singleton]%elem_of_app; [by apply Hp|].
    split; [set_solver|done].
  - rewrite !length_app. cbn. lia.
  - intros x m. rewrite Eid, lookup_insert_Some. intros [[<- <-]|[_ Hx]].
    + right. exists e. set_solver.
    + destruct (Hnodes x m Hx) as [?|(e' & ? & ?)]; [auto|]. right. exists e'. set_solver.
  - intros x Hx. rewrite Eid, lookup_insert_is_Some. destruct (decide (neighbor_id e u = x)); auto.
  - intros m e' [Hpe|[= -> ->]%list_elem_of_singleton]%elem_of_app; rewrite Eid.
    + rewrite lookup_insert_is_Some. destruct (decide (neighbor_id e u = neighbor_id e' u)); eauto.
    + rewrite lookup_insert_eq. eauto.
  - done.
  - by apply ordered_set_node.
  - unfold limit_reached in Hlim. apply bool_decide_eq_false in Hlim.
    pose proof (size_set_node graph n). cbn in *. lia.
  - intros e' [He'| ->%list_elem_of_singleton]%elem_of_app.
    + destruct (Hall e' He') as [?|(m & ? & [?|?])]; [auto|eauto|]. right. exists m. set_solver.
    + right. exists n. set_solver.
Qed.

(** The whole loop over the edges of [u]. *)
Lemma bfs_edges_ok u d visited graph0 queue0 es nn :
  ordered graph0 -> (forall e, e ∈ es -> e ∈ gv_edges g) ->
  (forall e, e ∈ es -> neighbor_id e u ∉ visited ->
     nn !! neighbor_id e u = gv_nodes g !! neighbor_id e u) ->
  returns (for_M (bfs_edge options u d visited nn) (graph0, queue0) es)
    (fun s => exists pushed, edge_inv u d visited graph0 queue0 es s pushed
       /\ (limit_reached options (fst s) = true \/ all_pushed u visited es pushed)).
Proof.
  intros Hord Hes Hnn.
  apply (returns_for_M _ (fun pre s => exists pushed,
    edge_inv u d visited graph0 queue0 pre s pushed /\ all_pushed u visited pre pushed)).
  - exists []. split; [|intros e He; set_solver].
    split; cbn; try done; [by rewrite app_nil_r|set_solver|auto|set_solver|lia].
  - intros pre e post s -> (pushed & Hinv & Hall).
    eapply returns_mono; [eapply bfs_edge_ok; try done|].
    + apply Hes. set_solver.
    + apply Hnn. set_solver.
    + intros [s'|s']; [done|]. intros [Hinv' Hlim]. exists pushed. split; [|by left].
      clear -Hinv'. destruct Hinv' as []. split; auto.
      * intros n e' He'. destruct (ei_pushed0 n e' He') as (? & ?). split; [set_solver|done].
      * rewrite length_app in *. cbn in *. lia.
  - intros s (pushed & Hinv & Hall). eauto.
Qed.

(** ** One dequeue *)

Lemma known_mono graph graph' x :
  (forall y, is_Some (sg_nodes graph !! y) -> is_Some (sg_nodes graph' !! y)) ->
  known graph x -> known graph' x.
Proof. intros Hm [?|?]; [by left|right; auto]. Qed.

Lemma edge_ok_mono graph graph' e :
  (forall y, is_Some (sg_nodes graph !! y) -> is_Some (sg_nodes graph' !! y)) ->
  edge_ok graph e -> edge_ok graph' e.
Proof. intros Hm (? & ? & ? & ?). split; [done|]. split; [done|]. split; by eapply known_mono. Qed.

(** Dropping an entry whose node is visited. *)
Lemma bfs_sound_skip graph visited p queue :
  bfs_sound graph visited (p :: queue) -> start ∈ visited -> bfs_sound graph visited queue.
Proof.
  intros [] Hst. split; auto. intros n oe d Hin. apply (bs_queue0 n oe d). set_solver.
Qed.

(** Visiting the head: its edge is recorded, its node marked. *)
Lemma bfs_sound_visit graph visited n oe d queue :
  bfs_sound graph visited ((n, oe, d) :: queue) ->
  let graph' := match oe with Some e => push_edge graph e | None => graph end in
  bfs_sound graph' ({[node_id n]} ∪ visited) queue.
Proof.
  intros Hs graph'. assert (Enodes : sg_nodes graph' = sg_nodes graph) by (by destruct oe).
  destruct (bs_queue _ _ _ Hs n oe d) as (Hn & Hk & _ & _ & He); [set_solver|].
  assert (Hm : forall y, is_Some (sg_nodes graph !! y) -> is_Some (sg_nodes graph' !! y))
    by (by rewrite Enodes).
  destruct Hs. split; rewrite ?Enodes; auto.
  - intros e Hin. apply (edge_ok_mono graph graph'); [done|].
    unfold graph' in Hin. destruct oe as [e'|]; [|auto]. cbn in Hin.
    apply elem_of_app in Hin as [?| ->%list_elem_of_singleton]; auto.
  - unfold graph'. destruct oe; auto.
  - intros u [->%elem_of_singleton|Hu]%elem_of_union.
    + split; [by eapply known_mono|eauto].
    + destruct (bs_visited0 u Hu). split; [by eapply known_mono|done].
  - intros m oe' d' Hin. destruct (bs_queue0 m oe' d' ltac:(set_solver)) as (? & ? & ? & ? & He').
    split; [done|]. split; [by eapply known_mono|]. split; [done|]. split; [done|].
    intros e E. eapply edge_ok_mono; eauto.
  - left. destruct bs_started0 as [?|[_ Hq]]; [set_solver|].
    specialize (Hq (n, oe, d) ltac:(set_solver)). cbn in Hq. set_solver.
Qed.

(** Pushing the neighbours of a visited node. *)
Lemma bfs_sound_push graph visited queue u d es s pushed :
  bfs_sound graph visited queue -> u ∈ visited -> start ∈ visited ->
  nsteps nbr_step d start u -> stop d = false ->
  (forall m, max_depth options = Some m -> d <= m) ->
  (forall e, e ∈ es -> e ∈ gv_edges g /\ adjacent_to (direction options) u e
     /\ kinds_allow (edge_kinds options) e) ->
  edge_inv u d visited graph queue es s pushed ->
  bfs_sound (fst s) visited (snd s).
Proof.
  intros Hs Hu Hst Hd Hstop Hdm Hes [Hq Hp Hl Hnodes Hmono Hin Hed Hord Hcap].
  assert (Hnew : forall n e, (n, e) ∈ pushed -> neighbor_id e u <> start
            /\ gv_nodes g !! neighbor_id e u = Some n /\ node_allowed options n = true
            /\ nsteps nbr_step (d + 1) start (neighbor_id e u)
            /\ (forall m, max_depth options = Some m -> d + 1 <= m)).
  { intros n e (He & Hv & Hn & Ha)%Hp. split; [by intros E; rewrite E in Hv|].
    split; [done|]. split; [done|]. split.
    - rewrite Nat.add_1_r. eapply nsteps_r; [done|]. destruct (Hes e He) as (? & ? & ?).
      exists e, n. done.
    - intros m Hm. destruct (decide (m <= d)); [|lia].
      assert (stop d = true) by (apply depth_reached_spec; eauto). congruence. }
  assert (Hku : known (fst s) u).
  { eapply known_mono; [exact Hmono|]. by apply (bs_visited _ _ _ Hs). }
  destruct Hs. split; auto.
  - intros x n [Hx|(e & He & ->)]%Hnodes; [auto|].
    destruct (Hnew n e He) as (? & ? & ? & ? & ?). eauto 10.
  - intros e. rewrite Hed. intros He. eapply edge_ok_mono; eauto.
  - destruct (include_start options); lia.
  - intros v Hv. destruct (bs_visited0 v Hv). split; [by eapply known_mono|done].
  - intros n oe d'. rewrite Hq. intros [Hold|Hpush]%elem_of_app.
    + destruct (bs_queue0 n oe d' Hold) as (? & ? & ? & ? & He'). split; [done|].
      split; [by eapply known_mono|]. split; [done|]. split; [done|].
      intros e E. eapply edge_ok_mono; eauto.
    + apply list_elem_of_fmap in Hpush as ([m e] & [= -> -> ->] & Hpe).
      destruct (Hnew m e Hpe) as (? & Hm & ? & ? & ?).
      pose proof (view_key _ _ Hm) as Eid. rewrite Eid. split; [done|].
      assert (known (fst s) (neighbor_id e u)) by (right; eauto).
      split; [done|]. split; [done|]. split; [done|].
      intros e' [= <-]. destruct (Hp m e Hpe) as (He & _ & _). destruct (Hes e He) as (? & Hadj & ?).
      split; [done|]. split; [done|]. unfold neighbor_id in *.
      destruct (String.eqb_spec (edge_source e) u) as [->|Hne]; [done|].
      split; [done|]. destruct (direction options); cbn in Hadj; [done|by rewrite Hadj|].
      destruct Hadj as [?|Ht]; [done|by rewrite Ht].
Qed.

(** The frontier after the head was visited and its edges pushed. *)
Lemma bfs_live_visit visited n oe d queue es s pushed graph :
  bfs_live visited ((n, oe, d) :: queue) -> node_id n ∉ visited ->
  (forall e, e ∈ gv_edges g /\ adjacent_to (direction options) (node_id n) e
     /\ kinds_allow (edge_kinds options) e -> e ∈ es) ->
  (forall e, e ∈ es -> e ∈ gv_edges g /\ adjacent_to (direction options) (node_id n) e
     /\ kinds_allow (edge_kinds options) e) ->
  edge_inv (node_id n) d ({[node_id n]} ∪ visited) graph queue es s pushed ->
  all_pushed (node_id n) ({[node_id n]} ∪ visited) es pushed ->
  bfs_live ({[node_id n]} ∪ visited) (snd s).
Proof.
  intros (δ & Hdom & Hfr) Hv Hin Hes [Hq Hp _ _ _ _ _ _ _] Hall.
  exists (<[node_id n := d]> δ). split; [by rewrite dom_insert_L, Hdom|].
  rewrite Hq. unfold queue_depths in *. rewrite map_app, map_map. cbn in *.
  assert (Emap : map (fun p : Node * Edge => (node_id (fst p), d + 1)) pushed
                 = map (fun w => (w, d + 1)) (map (fun p => neighbor_id (snd p) (node_id n)) pushed)).
  { rewrite map_map. apply map_ext_in. intros [m e] Hm%list_elem_of_In. cbn.
    destruct (Hp m e Hm) as (_ & _ & Hm' & _). by rewrite (view_key _ _ Hm'). }
  rewrite Emap. apply frontier_expand; [done|by apply not_elem_of_dom; rewrite Hdom| |].
  - intros w ([m e] & -> & Hm)%list_elem_of_fmap. cbn.
    destruct (Hp m e Hm) as (He & _ & Hm' & Ha). destruct (Hes e He) as (? & ? & ?).
    by exists e, m.
  - intros _ w (e & m & He1 & He2 & He3 & <- & Hm & Ha).
    destruct (Hall e) as [Hvis|(m' & Hm' & [Hna|Hpe])]; [by apply Hin| | |].
    + apply elem_of_union in Hvis as [->%elem_of_singleton|Hvis]; [by left|]. right; left.
      apply elem_of_dom. by rewrite Hdom.
    + congruence.
    + right; right; left. apply list_elem_of_fmap. by exists (m', e).
Qed.

(** Marking the head without expanding it, at the depth limit. *)
Lemma bfs_live_stop visited n oe d queue :
  bfs_live visited ((n, oe, d) :: queue) -> node_id n ∉ visited -> stop d = true ->
  bfs_live ({[node_id n]} ∪ visited) queue.
Proof.
  intros (δ & Hdom & Hfr) Hv Hstop. exists (<[node_id n := d]> δ).
  split; [by rewrite dom_insert_L, Hdom|].
  rewrite <- (app_nil_r (queue_depths queue)). apply (frontier_expand _ _ _ _ _ _ _ []); [done| | |].
  - by apply not_elem_of_dom; rewrite Hdom.
  - set_solver.
  - congruence.
Qed.

Lemma bfs_live_skip visited n oe d queue :
  bfs_live visited ((n, oe, d) :: queue) -> node_id n ∈ visited -> bfs_live visited queue.
Proof.
  intros (δ & Hdom & Hfr) Hv. exists δ. split; [done|].
  eapply frontier_skip; [exact Hfr|]. apply elem_of_dom. by rewrite Hdom.
Qed.

(** ** The whole search *)

(** Every node within the depth bound is in the subgraph. *)
Definition bfs_complete (graph : Subgraph) : Prop :=
  forall k x, nsteps nbr_step k start x -> (forall i, i < k -> stop i = false) -> known graph x.

Definition bfs_outcome (graph : Subgraph) : Prop :=
  (exists visited queue, bfs_sound graph visited queue)
  /\ (limit_reached options graph = true \/ bfs_complete graph).

Lemma bfs_live_complete graph visited :
  bfs_sound graph visited [] -> bfs_live visited [] -> bfs_complete graph.
Proof.
  intros Hs (δ & Hdom & Hfr) k x Hk Hstop.
  destruct (frontier_visits _ _ _ stop_mono _ _ Hfr k x Hk) as (b & Hb & _); [|done|].
  - intros p Hp. by apply not_elem_of_nil in Hp.
  - apply (bs_visited _ _ _ Hs). rewrite <- Hdom. apply elem_of_dom. eauto.
Qed.

(** Pushes per expansion: at most the length of an adjacency list. *)
Definition fan_out : nat := 2 * (1 + length (edge_kinds options)) * length (gv_edges g).

Lemma bfs_loop_ok fuel graph visited queue :
  length queue + (size (gv_nodes g) - size visited) * S fan_out < fuel ->
  bfs_sound graph visited queue -> limit_reached options graph = true \/ bfs_live visited queue ->
  returns (bfs_loop st options fuel graph visited queue) bfs_outcome.
Proof.
  revert graph visited queue.
  induction fuel as [|fuel IH]; intros graph visited queue Hfuel Hs Hlive;
    [by apply Nat.nlt_0_r in Hfuel|].
  cbn [bfs_loop]. destruct queue as [|[[n oe] d] queue].
  { split; [eauto|]. destruct Hlive as [?|?]; [by left|]. right. by eapply bfs_live_complete. }
  destruct (limit_reached options graph) eqn:Hlim; [split; [eauto|by left]|].
  destruct Hlive as [?|Hlive]; [done|].
  case_decide as Hv.
  { apply IH; [cbn [length] in Hfuel; nia| |right; by eapply bfs_live_skip].
    eapply bfs_sound_skip; [done|]. destruct (bs_started _ _ _ Hs) as [?|[-> _]]; set_solver. }
  destruct (bs_queue _ _ _ Hs n oe d) as (Hn & _ & Hd & Hdm & _); [set_solver|].
  pose proof (bfs_sound_visit _ _ _ _ _ _ Hs) as Hs1. cbn zeta in *.
  set (graph1 := match oe with Some e => push_edge graph e | None => graph end) in *.
  assert (Hsub : {[node_id n]} ∪ visited ⊆ dom (gv_nodes g)).
  { intros u Hu. apply elem_of_dom. by apply (bs_visited _ _ _ Hs1). }
  apply subseteq_size in Hsub. rewrite size_dom, size_union, size_singleton in Hsub by set_solver.
  assert (Hsz : size ({[node_id n]} ∪ visited) = S (size visited))
    by (rewrite size_union, size_singleton by set_solver; lia).
  destruct (depth_reached d (max_depth options)) eqn:Hstop.
  { apply IH; [cbn [length] in Hfuel; nia|done|]. right. by eapply bfs_live_stop. }
  apply returns_bind. eapply returns_mono;
    [apply returns_and; [apply adjacent_edges_ok|apply adjacent_edges_length]|].
  intros es0 [Hes0 Hlen0]. set (es := sort_by _ es0).
  assert (Hes : forall e, e ∈ es <-> e ∈ gv_edges g
            /\ adjacent_to (direction options) (node_id n) e /\ kinds_allow (edge_kinds options) e)
    by (intros e; unfold es; by rewrite elem_of_sort_by, Hes0).
  assert (Hlen : length es <= fan_out) by (unfold es; rewrite length_sort_by; exact Hlen0).
  clearbody es. returns_step nodes_by_ids_lookup. intros nn Hnn. cbn beta.
  apply returns_bind. eapply returns_mono.
  { apply (bfs_edges_ok (node_id n) d ({[node_id n]} ∪ visited) graph1 queue es nn); [apply Hs1| |].
    - intros e He. by apply Hes.
    - intros e He Hne. apply Hnn, list_elem_of_filter. split; [done|].
      apply list_elem_of_fmap. eauto. }
  intros s (pushed & Hinv & Hcase). apply IH.
  - rewrite (ei_queue _ _ _ _ _ _ _ _ Hinv), length_app, length_map, Hsz.
    pose proof (ei_length _ _ _ _ _ _ _ _ Hinv). cbn [length] in Hfuel. nia.
  - eapply bfs_sound_push; try done; [set_solver| |intros; by apply Hes].
    destruct (bs_started _ _ _ Hs1) as [?|[Hc _]]; [done|]. set_solver.
  - destruct Hcase as [?|Hall]; [by left|]. right.
    eapply bfs_live_visit; try done; intros e He; by apply Hes.
Qed.

(** What [traverse_bfs] returns from a stored start. *)
Record bfs_exact (graph : Subgraph) : Prop := {
  bx_sound : forall x n, sg_nodes graph !! x = Some n -> gv_nodes g !! x = Some n
    /\ (x = start /\ include_start options = true \/ x <> start /\ node_allowed options n = true)
    /\ exists k, (forall m, max_depth options = Some m -> k <= m) /\ nsteps nbr_step k start x;
  bx_start : include_start options = true -> is_Some (sg_nodes graph !! start);
  bx_edges : forall e, e ∈ sg_edges graph -> edge_ok graph e;
  bx_ordered : ordered graph;
  bx_cap : size (sg_nodes graph) <= Nat.max (limit options) (if include_start options then 1 else 0);
  bx_complete : size (sg_nodes graph) < limit options ->
    forall k x, nsteps nbr_step k start x -> (forall m, max_depth options = Some m -> k <= m) ->
      x = start \/ is_Some (sg_nodes graph !! x);
  bx_roots : sg_roots graph = [start]
}.

Lemma bfs_sound_initial n :
  gv_nodes g !! start = Some n ->
  bfs_sound (if include_start options then set_node Subgraph_empty n else Subgraph_empty)
    ∅ [(n, None, 0)].
Proof.
  intros Hn. pose proof (view_key _ _ Hn) as Eid. split.
  - intros x m. destruct (include_start options) eqn:Hi; cbn; [|by rewrite lookup_empty].
    rewrite Eid, lookup_insert_Some, lookup_empty. intros [[<- <-]|[_ [=]]].
    split; [done|]. split; [auto|]. exists 0. split; [lia|constructor].
  - intros ->. cbn. rewrite Eid, lookup_insert_eq. eauto.
  - intros e. destruct (include_start options); cbn; set_solver.
  - destruct (include_start options); auto with cg.
  - destruct (include_start options); cbn; [|rewrite map_size_empty; lia].
    rewrite map_size_insert_None, map_size_empty by apply lookup_empty. lia.
  - set_solver.
  - intros m oe d [= -> -> ->]%list_elem_of_singleton. rewrite Eid. split; [done|].
    split; [by left|]. split; [constructor|]. split; [lia|done].
  - right. split; [done|]. by intros p ->%list_elem_of_singleton.
Qed.

Lemma traverse_bfs_exact fuel n :
  gv_nodes g !! start = Some n -> 1 + size (gv_nodes g) * S fan_out < fuel ->
  returns (traverse_bfs st options fuel start) bfs_exact.
Proof.
  intros Hn Hfuel. unfold traverse_bfs. rewrite healthy_node_by_id, Hn. cbn [mbind result_bind].
  apply returns_bind. eapply returns_mono.
  { apply bfs_loop_ok; [|by apply bfs_sound_initial|].
    - rewrite size_empty. cbn [length]. lia.
    - right. exists ∅. split; [apply dom_empty_L|]. unfold queue_depths. cbn.
      rewrite (view_key _ _ Hn). apply frontier_initial. }
  intros graph ((visited & queue & Hs) & Hcase). cbn. split; try apply Hs; [|done].
  intros Hlt k x Hk Hm. destruct Hcase as [Hlim|Hc].
  - unfold limit_reached in Hlim. apply bool_decide_eq_true in Hlim. cbn in *. lia.
  - apply (Hc k x Hk). intros i Hi. unfold stop. destruct depth_reached eqn:Hd; [|done].
    apply depth_reached_spec in Hd as (m & Hmm & ?). specialize (Hm m Hmm). lia.
Qed.

End Inv.
