(* ===== verification/TraverseDfs.v ===== *)
(** * Depth-first traversal
      (crates/codegraph-graph/src/graph/mod.rs, [traverse_dfs], [dfs_recursive]) *)
From S2P Require Import Prelude Types Rows GraphStore GraphCore TraverseBfs.

Section Dfs.
Context {St} `{GraphStore St} (st : St) (options : TraversalOptions).

(** [dfs_recursive], over the subgraph and the visited set. *)
Fixpoint dfs_recursive (fuel : nat) (node : Node) (depth : nat) (s : Subgraph * gset string)
  : result SqlError (Subgraph * gset string) :=
  match fuel with
  | 0 => OutOfFuel
  | S fuel =>
      if bool_decide (node_id node ∈ snd s) || limit_reached options (fst s)
         || depth_reached depth (max_depth options)
      then Ok s
      else
        let visited := {[node_id node]} ∪ snd s in
        adjacent ← adjacent_edges st (node_id node) (direction options) (edge_kinds options);
        neighbor_nodes ← nodes_by_ids st (unvisited_neighbor_ids adjacent (node_id node) visited);
        for_M (fun s edge =>
                 let '(graph, visited) := s in
                 if limit_reached options graph then Ok (Break s) else
                 let next_id := neighbor_id edge (node_id node) in
                 if decide (next_id ∈ visited) then Ok (Continue s) else
                 match neighbor_nodes !! next_id with
                 | None => Ok (Continue s)
                 | Some next_node =>
                     if node_allowed options next_node
                     then s ← dfs_recursive fuel next_node (depth + 1)
                                (push_edge (set_node graph next_node) edge, visited);
                          Ok (Continue s)
                     else Ok (Continue s)
                 end)
              (fst s, visited) adjacent
  end.

(** [traverse_dfs]. *)
Definition traverse_dfs (fuel : nat) (start_id : string) : result SqlError Subgraph :=
  start ← node_by_id st start_id;
  match start with
  | None => Ok Subgraph_empty
  | Some start_node =>
      let graph := if include_start options then set_node Subgraph_empty start_node
                   else Subgraph_empty in
      s ← dfs_recursive fuel start_node 0 (graph, ∅);
      Ok (set_roots (fst s) [start_id])
  end.

End Dfs.

(** ** The invariant *)

Section Inv.
Context {St} `{HS : HealthyStore St st g}.
Variables (options : TraversalOptions) (start : string).

Notation step := (nbr_step (g := g) options).
Notation known := (known start).
Notation edge_ok := (edge_ok (g := g) options start).

Record dfs_sound (s : Subgraph * gset string) : Prop := {
  ds_nodes : forall x n, sg_nodes (fst s) !! x = Some n -> gv_nodes g !! x = Some n
    /\ (x = start /\ include_start options = true \/ x <> start /\ node_allowed options n = true)
    /\ exists k, (forall m, max_depth options = Some m -> k <= m) /\ nsteps step k start x;
  ds_include : include_start options = true -> is_Some (sg_nodes (fst s) !! start);
  ds_edges : forall e, e ∈ sg_edges (fst s) -> edge_ok (fst s) e;
  ds_ordered : ordered (fst s);
  ds_cap : size (sg_nodes (fst s))
           <= Nat.max (limit options) (if include_start options then 1 else 0);
  ds_visited : forall u, u ∈ snd s -> known (fst s) u /\ is_Some (gv_nodes g !! u)
}.

(** [s'] extends [s]; unless the cap was hit, what it visited beyond [s] has
    its neighbours visited, [u] excepted. *)
Record dfs_extends (except : option string) (s s' : Subgraph * gset string) : Prop := {
  de_nodes : forall x, is_Some (sg_nodes (fst s) !! x) -> is_Some (sg_nodes (fst s') !! x);
  de_visited : snd s ⊆ snd s';
  de_closed : max_depth options = None -> limit_reached options (fst s') = false ->
    forall v w, v ∈ snd s' -> v ∉ snd s -> except <> Some v -> step v w -> w ∈ snd s'
}.

Lemma limit_reached_mono s s' :
  (forall x, is_Some (sg_nodes s !! x) -> is_Some (sg_nodes s' !! x)) ->
  limit_reached options s = true -> limit_reached options s' = true.
Proof.
  unfold limit_reached. rewrite !bool_decide_eq_true. intros Hm Hl.
  enough (size (sg_nodes s) <= size (sg_nodes s')) by lia.
  rewrite <- !(size_dom (D := gset string)). apply subseteq_size. intros x.
  rewrite !elem_of_dom. apply Hm.
Qed.

Lemma dfs_extends_refl s : dfs_extends None s s.
Proof. split; auto; set_solver. Qed.

Lemma dfs_extends_trans o s1 s2 s3 :
  dfs_extends o s1 s2 -> dfs_extends None s2 s3 -> dfs_extends o s1 s3.
Proof.
  intros [N12 V12 C12] [N23 V23 C23]. split; [auto|set_solver|].
  intros Hm Hl v w Hv Hv1 Hne Hst.
  destruct (decide (v ∈ snd s2)) as [Hv2|Hv2]; [|by eapply C23].
  apply V23. eapply C12; try done.
  destruct (limit_reached options (fst s2)) eqn:Hl2; [|done].
  rewrite (limit_reached_mono (fst s2) (fst s3)) in Hl; auto.
Qed.

Definition dfs_post (node : Node) (s s' : Subgraph * gset string) : Prop :=
  dfs_sound s' /\ dfs_extends None s s'
  /\ (max_depth options = None -> limit_reached options (fst s') = false ->
      node_id node ∈ snd s').

(** The graph with a neighbour added. *)
Lemma dfs_sound_add graph visited u d e n :
  dfs_sound (graph, visited) -> u ∈ visited -> start ∈ visited ->
  nsteps step d start u -> depth_reached d (max_depth options) = false ->
  limit_reached options graph = false ->
  e ∈ gv_edges g -> adjacent_to (direction options) u e -> kinds_allow (edge_kinds options) e ->
  neighbor_id e u ∉ visited -> gv_nodes g !! neighbor_id e u = Some n ->
  node_allowed options n = true ->
  dfs_sound (push_edge (set_node graph n) e, visited)
  /\ nsteps step (d + 1) start (neighbor_id e u)
  /\ (forall m, max_depth options = Some m -> d + 1 <= m).
Proof.
  intros Hs Hu Hstart Hd Hstop Hlim He Hadj Hk Hv Hn Hok.
  pose proof (view_key _ _ Hn) as Eid.
  assert (Hstep : nsteps step (d + 1) start (neighbor_id e u)).
  { rewrite Nat.add_1_r. eapply nsteps_r; [done|]. by exists e, n. }
  assert (Hbound : forall m, max_depth options = Some m -> d + 1 <= m).
  { intros m Hm. destruct (decide (m <= d)); [|lia].
    assert (depth_reached d (max_depth options) = true) by (apply depth_reached_spec; eauto).
    congruence. }
  assert (Hmono : forall y, is_Some (sg_nodes graph !! y) ->
            is_Some (sg_nodes (push_edge (set_node graph n) e) !! y)).
  { intros y Hy. cbn. rewrite lookup_insert_is_Some. destruct (decide (node_id n = y)); auto. }
  assert (Hnew : is_Some (sg_nodes (push_edge (set_node graph n) e) !! neighbor_id e u)).
  { cbn. rewrite Eid, lookup_insert_eq. eauto. }
  split; [|done]. destruct Hs as [Hnodes Hinc Hedges Hord Hcap Hvis]. cbn [fst snd] in *.
  split; cbn [fst snd]; auto.
  - intros x m. cbn. rewrite Eid, lookup_insert_Some. intros [[<- <-]|[_ Hx]]; [|auto].
    split; [done|]. split; [|eauto]. right. split; [|done]. intros E. by rewrite E in Hv.
  - intros e'. cbn [push_edge set_node sg_edges].
    intros [?| ->%list_elem_of_singleton]%elem_of_app; [eapply edge_ok_mono; eauto|].
    assert (Hku : known (push_edge (set_node graph n) e) u)
      by (eapply known_mono; [exact Hmono|]; by apply Hvis).
    assert (Hkn : known (push_edge (set_node graph n) e) (neighbor_id e u)) by (by right).
    split; [done|]. split; [done|]. unfold neighbor_id in Hkn.
    destruct (String.eqb_spec (edge_source e) u) as [->|Hne]; [done|].
    split; [done|]. destruct (direction options); cbn in Hadj; [done|by rewrite Hadj|].
    destruct Hadj as [?|Ht]; [done|by rewrite Ht].
  - auto with cg.
  - unfold limit_reached in Hlim. apply bool_decide_eq_false in Hlim.
    pose proof (size_set_node graph n). cbn in *. lia.
  - intros v Hv'. destruct (Hvis v Hv'). split; [by eapply known_mono|done].
Qed.

(** The state of the loop over the edges of [u], [pre] of them handled. *)
Definition dfs_loop_inv (u : string) (s0 : Subgraph * gset string) (pre : list Edge)
    (s : Subgraph * gset string) : Prop :=
  dfs_sound s /\ dfs_extends (Some u) s0 s /\ u ∈ snd s /\ start ∈ snd s
  /\ (max_depth options = None -> limit_reached options (fst s) = false ->
      forall e, e ∈ pre -> neighbor_id e u ∈ snd s
        \/ exists n, gv_nodes g !! neighbor_id e u = Some n /\ node_allowed options n = false).

Lemma dfs_loop_inv_step u s0 pre s s' e :
  dfs_loop_inv u s0 pre s -> dfs_sound s' -> dfs_extends None s s' ->
  (max_depth options = None -> limit_reached options (fst s') = false ->
     neighbor_id e u ∈ snd s'
     \/ exists n, gv_nodes g !! neighbor_id e u = Some n /\ node_allowed options n = false) ->
  dfs_loop_inv u s0 (pre ++ [e]) s'.
Proof.
  intros (Hs & E & Hu & Hst & Hpre) Hs' E' He. split; [done|].
  split; [by eapply dfs_extends_trans|]. pose proof (de_visited _ _ _ E').
  split; [set_solver|]. split; [set_solver|].
  intros Hm Hl e' [He'| ->%list_elem_of_singleton]%elem_of_app; [|auto].
  destruct (limit_reached options (fst s)) eqn:Hls.
  { rewrite (limit_reached_mono (fst s) (fst s')) in Hl; [done|apply E'|done]. }
  destruct (Hpre Hm eq_refl e' He') as [?|?]; [left; set_solver|by right].
Qed.

(** After the loop the node is closed. *)
Lemma dfs_loop_inv_done u s0 es s :
  (forall e, e ∈ gv_edges g /\ adjacent_to (direction options) u e
     /\ kinds_allow (edge_kinds options) e -> e ∈ es) ->
  dfs_loop_inv u s0 es s -> dfs_sound s /\ dfs_extends None s0 s
    /\ (max_depth options = None -> limit_reached options (fst s) = false -> u ∈ snd s).
Proof.
  intros Hes (Hs & E & Hu & _ & Hall). split; [done|]. split; [|done].
  split; try apply E. intros Hm Hl v w Hv Hv0 _ Hst.
  destruct (decide (v = u)) as [->|Hne]; [|by apply (de_closed _ _ _ E Hm Hl v w); congruence].
  destruct Hst as (e & n & He1 & He2 & He3 & <- & Hn & Ha).
  destruct (Hall Hm Hl e) as [?|(n' & Hn' & Hna)]; [by apply Hes|done|congruence].
Qed.

(** One edge of the loop, given the contract of the recursive calls. *)
Lemma dfs_body (rec : Node -> nat -> Subgraph * gset string -> result SqlError (Subgraph * gset string))
    u d s pre e s' n (nn : gmap string Node) :
  (forall node s2, dfs_sound s2 -> {[u]} ∪ snd s ⊆ snd s2 ->
     gv_nodes g !! node_id node = Some node -> known (fst s2) (node_id node) -> start ∈ snd s2 ->
     nsteps step (d + 1) start (node_id node) ->
     (forall m, max_depth options = Some m -> d + 1 <= m) ->
     returns (rec node (d + 1) s2) (dfs_post node s2)) ->
  nsteps step d start u -> depth_reached d (max_depth options) = false ->
  dfs_loop_inv u s pre s' ->
  e ∈ gv_edges g -> adjacent_to (direction options) u e -> kinds_allow (edge_kinds options) e ->
  gv_nodes g !! neighbor_id e u = Some n ->
  (neighbor_id e u ∉ {[u]} ∪ snd s -> nn !! neighbor_id e u = Some n) ->
  returns
    (let '(graph, visited) := s' in
     if limit_reached options graph then Ok (Break s') else
     let next_id := neighbor_id e u in
     if decide (next_id ∈ visited) then Ok (Continue s') else
     match nn !! next_id with
     | None => Ok (Continue s')
     | Some next_node =>
         if node_allowed options next_node
         then s2 ← rec next_node (d + 1) (push_edge (set_node graph next_node) e, visited);
              Ok (Continue s2)
         else Ok (Continue s')
     end)
    (fun r => match r with
              | Continue s'' => dfs_loop_inv u s (pre ++ [e]) s''
              | Break s'' => exists es', dfs_loop_inv u s es' s'' /\ limit_reached options (fst s'') = true
              end).
Proof.
  intros Hrec Hd Hstop Hinv He Hadj Hka Hnb Hnn. destruct s' as [graph visited].
  pose proof Hinv as (Hs' & E & Hu & Hst & Hall). pose proof (de_visited _ _ _ E) as Hsv. cbn in Hsv, Hu.
  destruct (limit_reached options graph) eqn:Hl; [by exists pre|]. cbn zeta.
  case_decide as Hvis.
  { eapply dfs_loop_inv_step; [done|done|apply dfs_extends_refl|]. auto. }
  rewrite Hnn.
  2:{ intros [Eu%elem_of_singleton|?]%elem_of_union; apply Hvis; [by rewrite Eu|auto]. }
  destruct (node_allowed options n) eqn:Hok.
  2:{ eapply dfs_loop_inv_step; [done|done|apply dfs_extends_refl|]. eauto. }
  destruct (dfs_sound_add graph visited u d e n) as (Hsa & Hda & Hma); try done.
  pose proof (view_key _ _ Hnb) as Eid.
  apply returns_bind. eapply returns_mono; [apply Hrec; rewrite ?Eid; try done|].
  - cbn. set_solver.
  - right. cbn. rewrite Eid, lookup_insert_eq. eauto.
  - intros s2 (Hs2 & E2 & Hin). eapply dfs_loop_inv_step; [done|done| |].
    + eapply dfs_extends_trans; [|exact E2]. split; cbn; [|done|set_solver].
      intros x Hx. rewrite lookup_insert_is_Some. destruct (decide (node_id n = x)); auto.
    + intros Hm Hl2. left. rewrite <- Eid. auto.
Qed.

Lemma dfs_recursive_ok fuel node d s :
  size (gv_nodes g) - size (snd s) < fuel -> dfs_sound s ->
  gv_nodes g !! node_id node = Some node -> known (fst s) (node_id node) ->
  (start ∈ snd s \/ node_id node = start) -> nsteps step d start (node_id node) ->
  (forall m, max_depth options = Some m -> d <= m) ->
  returns (dfs_recursive st options fuel node d s) (dfs_post node s).
Proof.
  revert node d s.
  induction fuel as [|fuel IH]; intros node d s Hfuel Hs Hn Hk Hstart Hd Hdm; [lia|].
  cbn [dfs_recursive]. destruct (_ || _ || _) eqn:Hcond.
  { split; [done|]. split; [apply dfs_extends_refl|]. intros Hm Hl.
    rewrite Hl, Hm, !orb_false_r in Hcond. by apply bool_decide_eq_true in Hcond. }
  apply orb_false_iff in Hcond as [[Hv Hlim]%orb_false_iff Hstop].
  apply bool_decide_eq_false in Hv. set (u := node_id node) in *.
  assert (Hs1 : dfs_sound (fst s, {[u]} ∪ snd s)).
  { destruct Hs. split; auto. cbn. intros v [->%elem_of_singleton|?]%elem_of_union; [|auto].
    split; [done|]. eauto. }
  assert (Hsub : forall s2, dfs_sound s2 -> {[u]} ∪ snd s ⊆ snd s2 ->
            size (snd s) < size (snd s2) <= size (gv_nodes g)).
  { intros s2 Hs2 Hle. split.
    - apply subset_size. set_solver.
    - rewrite <- (size_dom (D := gset string)). apply subseteq_size. intros v Hv'.
      apply elem_of_dom. by apply (ds_visited _ Hs2). }
  returns_step adjacent_edges_ok. intros es Hes. cbn beta.
  returns_step nodes_by_ids_lookup. intros nn Hnn. cbn beta.
  eapply returns_mono; [apply (returns_for_M _ (dfs_loop_inv u s)
    (fun s' => exists es', dfs_loop_inv u s es' s'
       /\ (limit_reached options (fst s') = true \/ es' = es)))|].
  - split; [done|]. split; [|split; [set_solver|split; [set_solver|set_solver]]].
    split; cbn; [done|set_solver|]. intros Hm Hl v w Hv' Hvs Hne. set_solver.
  - intros pre e post s' Hsplit Hinv.
    assert (Hin : e ∈ es) by (rewrite Hsplit; set_solver).
    pose proof (proj1 (Hes e) Hin) as (He & Hadj & Hka).
    destruct (neighbor_stored u e He) as [n Hnb].
    eapply returns_mono; [eapply (dfs_body (dfs_recursive st options fuel)); try done|].
    + intros node' s2 Hs2 Hle ? ? ? ? ?. apply IH; try done; [|by left].
      pose proof (Hsub s2 Hs2 Hle). lia.
    + intros Hnew. rewrite Hnn; [done|]. apply list_elem_of_filter. split; [done|].
      apply list_elem_of_fmap. eauto.
    + intros [s''|s'']; [done|]. intros (es' & ? & ?). eauto.
  - intros s' Hinv. exists es. auto.
  - intros s' (es' & Hinv & Hcase). destruct (limit_reached options (fst s')) eqn:Hl.
    + destruct Hinv as (Hs' & [E1 E2 E3] & _). split; [done|]. split; [|congruence].
      split; [done|done|congruence].
    + destruct Hcase as [?| ->]; [done|]. eapply dfs_loop_inv_done; [|done].
      intros e He. by apply Hes.
Qed.

(** What [traverse_dfs] returns from a stored start. *)
Record dfs_exact (graph : Subgraph) : Prop := {
  dx_sound : forall x n, sg_nodes graph !! x = Some n -> gv_nodes g !! x = Some n
    /\ (x = start /\ include_start options = true \/ x <> start /\ node_allowed options n = true)
    /\ exists k, (forall m, max_depth options = Some m -> k <= m) /\ nsteps step k start x;
  dx_start : include_start options = true -> is_Some (sg_nodes graph !! start);
  dx_edges : forall e, e ∈ sg_edges graph -> edge_ok graph e;
  dx_ordered : ordered graph;
  dx_cap : size (sg_nodes graph) <= Nat.max (limit options) (if include_start options then 1 else 0);
  dx_complete : max_depth options = None -> size (sg_nodes graph) < limit options ->
    forall x, rtc step start x -> x = start \/ is_Some (sg_nodes graph !! x);
  dx_roots : sg_roots graph = [start]
}.

Lemma dfs_sound_initial n :
  gv_nodes g !! start = Some n ->
  dfs_sound (if include_start options then set_node Subgraph_empty n else Subgraph_empty, ∅).
Proof.
  intros Hn. destruct (bfs_sound_initial options start n Hn). split; auto; cbn; set_solver.
Qed.

Lemma traverse_dfs_exact fuel n :
  gv_nodes g !! start = Some n -> size (gv_nodes g) < fuel ->
  returns (traverse_dfs st options fuel start) dfs_exact.
Proof.
  intros Hn Hfuel. unfold traverse_dfs. rewrite healthy_node_by_id, Hn. cbn [mbind result_bind].
  pose proof (view_key _ _ Hn) as Eid.
  apply returns_bind. eapply returns_mono; [apply dfs_recursive_ok|].
  - cbn [snd]. lia.
  - by apply dfs_sound_initial.
  - by rewrite Eid.
  - by left.
  - by right.
  - rewrite Eid. constructor.
  - lia.
  - intros s (Hs & E & Hin). cbn. split; try apply Hs; [|done]. intros Hm Hlt x Hx.
    cbn [sg_nodes set_roots] in Hlt.
    assert (Hl : limit_reached options (fst s) = false)
      by (unfold limit_reached; apply bool_decide_eq_false; lia).
    specialize (Hin Hm Hl). rewrite Eid in Hin. apply (ds_visited _ Hs).
    refine (rtc_ind_r (R := step) (fun x => x ∈ snd s) start Hin _ x Hx).
    intros y z _ Hyz Hy. apply (de_closed _ _ _ E Hm Hl y z); try done.
Qed.

End Inv.
