(* ===== verification/Cycles.v ===== *)
(** * Circular file dependencies
      (crates/codegraph-graph/src/graph/mod.rs, [find_circular_dependencies], [cycle_dfs])

    A depth-first search over the file dependencies with a visited set and a
    recursion stack: meeting a file on the stack reports the path from it. *)
From S2P Require Import Prelude Types Rows GraphStore GraphCore.

(** The accumulators of [cycle_dfs]; [path] is an argument, since every call
    pops what it pushed. *)
Record CycleState : Type := mkCycle {
  cyc_visited : gset string;
  cyc_stack : gset string;
  cyc_cycles : list (list string)
}.

Section Cycles.
Context {St} `{GraphStore St} (st : St).

(** [path.iter().position(|p| p == file_path)], then the slice from there. *)
Definition report_cycle (file_path : string) (path : list string) (s : CycleState) : CycleState :=
  match list_find (fun p => p = file_path) path with
  | Some (cycle_start, _) =>
      mkCycle (cyc_visited s) (cyc_stack s) (cyc_cycles s ++ [drop cycle_start path])
  | None => s
  end.

(** [cycle_dfs]. *)
Fixpoint cycle_dfs (fuel : nat) (file_path : string) (path : list string) (s : CycleState)
  : result SqlError CycleState :=
  match fuel with
  | 0 => OutOfFuel
  | S fuel =>
      if decide (file_path ∈ cyc_stack s) then Ok (report_cycle file_path path s)
      else if decide (file_path ∈ cyc_visited s) then Ok s
      else
        let s := mkCycle ({[file_path]} ∪ cyc_visited s) ({[file_path]} ∪ cyc_stack s)
                         (cyc_cycles s) in
        dependencies ← dependency_file_paths st file_path;
        s ← for_M (fun s dep => s ← cycle_dfs fuel dep (path ++ [file_path]) s; Ok (Continue s))
                  s dependencies;
        Ok (mkCycle (cyc_visited s) (cyc_stack s ∖ {[file_path]}) (cyc_cycles s))
  end.

(** [find_circular_dependencies]. *)
Definition find_circular_dependencies (fuel : nat) : result SqlError (list (list string)) :=
  files ← all_files st;
  let files := sort_by str_le (map file_path files) in
  s ← for_M (fun s file =>
               if decide (file ∈ cyc_visited s) then Ok (Continue s)
               else s ← cycle_dfs fuel file [] s; Ok (Continue s))
            (mkCycle ∅ ∅ []) files;
  Ok (cyc_cycles s).

End Cycles.

(** ** What a cycle is *)

Section Relation.
Variable D : string -> string -> Prop.

(** [x :: l] follows [D] step by step. *)
Fixpoint chain (x : string) (l : list string) : Prop :=
  match l with
  | [] => True
  | y :: l => D x y /\ chain y l
  end.

Fixpoint end_of (x : string) (l : list string) : string :=
  match l with [] => x | y :: l => end_of y l end.

Definition is_cycle (c : list string) : Prop :=
  exists x l, c = x :: l /\ chain x l /\ D (end_of x l) x /\ NoDup c.

Lemma chain_app x l l' : chain x (l ++ l') <-> chain x l /\ chain (end_of x l) l'.
Proof.
  revert x. induction l as [|y l IH]; intros x; cbn; [tauto|]. rewrite IH. tauto.
Qed.

Lemma end_of_snoc x l y : end_of x (l ++ [y]) = y.
Proof. revert x. induction l as [|z l IH]; intros x; cbn; auto. Qed.

(** A list where everything an element points to comes after it. *)
Fixpoint topo (l : list string) : Prop :=
  match l with
  | [] => True
  | x :: l => x ∉ l /\ (forall y, D x y -> y ∈ l) /\ topo l
  end.

Lemma topo_closed l x y : topo l -> x ∈ l -> D x y -> y ∈ l.
Proof.
  induction l as [|z l IH]; [set_solver|]. intros (_ & Hz & Hl) [->|Hx]%elem_of_cons HD.
  - right. auto.
  - right. auto.
Qed.

(** Nothing on such a list lies on a cycle. *)
Lemma topo_acyclic l x : topo l -> x ∈ l -> ~ tc D x x.
Proof.
  induction l as [|z l IH]; [set_solver|]. intros (Hz & Hzl & Hl) Hx Htc.
  assert (Hstay : forall a b, a ∈ l -> tc D a b -> b ∈ l).
  { intros a b Ha Hab. induction Hab as [a b HD|a b c HD _ IHab].
    - by eapply topo_closed.
    - apply IHab. by eapply topo_closed. }
  assert (Hfirst : x ∈ l).
  { apply elem_of_cons in Hx as [->|?]; [|done].
    inversion Htc as [? ? HD|? y ? HD Hyz]; subst; [by apply Hzl|]. eapply (Hstay y); auto. }
  by apply (IH Hl Hfirst).
Qed.

End Relation.

(** ** The invariant *)

Section Inv.
Context {St} `{HS : HealthyStore St st g}.

Notation D := (file_depends g).

(** The files a search can meet. *)
Definition file_universe : gset string :=
  list_to_set (map file_path (gv_files g)) ∪ list_to_set (map (fun p => node_file_path (snd p))
                                                       (map_to_list (gv_nodes g))).

Lemma file_universe_depends f f' : D f f' -> f' ∈ file_universe.
Proof.
  intros (e & src & tgt & _ & _ & _ & Ht & _ & <- & _). apply elem_of_union_r, elem_of_list_to_set.
  apply (list_elem_of_fmap (fun p => node_file_path (snd p))).
  exists (edge_target e, tgt). split; [done|]. by apply elem_of_map_to_list.
Qed.

Lemma size_file_universe : size file_universe <= length (gv_files g) + size (gv_nodes g).
Proof.
  unfold file_universe. etrans; [apply size_union_le|].
  rewrite <- length_map_to_list.
  pose proof (size_list_to_set_le (map file_path (gv_files g))).
  pose proof (size_list_to_set_le (map (fun p => node_file_path (snd p)) (map_to_list (gv_nodes g)))).
  rewrite length_map in *. lia.
Qed.

(** Every suffix of the recursion path leads on to the file visited next. *)
Definition path_chain (path : list string) (file : string) : Prop :=
  forall a x b, path = a ++ x :: b -> chain D x b /\ D (end_of x b) file.

Lemma path_chain_snoc path file dep :
  path_chain path file -> D file dep -> path_chain (path ++ [file]) dep.
Proof.
  intros Hp HD a x b E. destruct b as [|z b' _] using rev_ind.
  - apply app_inj_tail in E as [-> ->]. done.
  - change (a ++ x :: b' ++ [z]) with (a ++ (x :: b') ++ [z]) in E. rewrite app_assoc in E.
    apply app_inj_tail in E as [-> <-]. destruct (Hp a x b' eq_refl) as [Hc He].
    rewrite chain_app, end_of_snoc. cbn. done.
Qed.

Record cycle_sound (s : CycleState) : Prop := {
  cs_universe : cyc_visited s ⊆ file_universe;
  cs_stack : cyc_stack s ⊆ cyc_visited s;
  cs_cycles : Forall (is_cycle D) (cyc_cycles s);
  cs_order : cyc_cycles s = [] ->
    exists L, (forall x, x ∈ L <-> x ∈ cyc_visited s /\ x ∉ cyc_stack s) /\ topo D L
}.

Record cycle_post (file : string) (s s' : CycleState) : Prop := {
  cp_sound : cycle_sound s';
  cp_stack : cyc_stack s' = cyc_stack s;
  cp_visited : cyc_visited s ⊆ cyc_visited s';
  cp_cycles : exists extra, cyc_cycles s' = cyc_cycles s ++ extra;
  cp_file : file ∈ cyc_visited s';
  cp_done : cyc_cycles s' = [] -> file ∉ cyc_stack s'
}.

Definition on_stack (path : list string) (s : CycleState) : Prop :=
  NoDup path /\ forall x, x ∈ cyc_stack s <-> x ∈ path.

(** Meeting a file on the stack reports a cycle. *)
Lemma report_cycle_post file path s :
  cycle_sound s -> on_stack path s -> path_chain path file -> file ∈ cyc_stack s ->
  cycle_post file s (report_cycle file path s).
Proof.
  intros Hs [Hnd Hst] Hp Hin. unfold report_cycle.
  destruct (list_find (fun p => p = file) path) as [[i x]|] eqn:Hf.
  2:{ apply list_find_None in Hf. rewrite Forall_forall in Hf. apply Hst, Hf in Hin. done. }
  apply list_find_Some in Hf as (Hx & -> & _).
  pose proof (take_drop_middle path i file Hx) as Hsplit.
  destruct (Hp (take i path) file (drop (S i) path) (eq_sym Hsplit)) as [Hc He].
  assert (Hcyc : is_cycle D (drop i path)).
  { exists file, (drop (S i) path). rewrite (drop_S _ _ _ Hx). split; [done|]. split; [done|].
    split; [done|]. rewrite <- (drop_S _ _ _ Hx). eapply sublist_NoDup; [done|]. apply sublist_drop. }
  destruct Hs as [Hu Hsv Hcs Ho]. split; cbn; try done.
  - split; cbn; try done; [by apply Forall_app_2; repeat constructor|].
    intros E. by apply app_eq_nil in E as [_ ?].
  - eauto.
  - auto.
  - intros E. by apply app_eq_nil in E as [_ ?].
Qed.

(** The loop over the dependencies of [file], [pre] of them visited. *)
Definition deps_inv (s1 : CycleState) (pre : list string) (s : CycleState) : Prop :=
  cycle_sound s /\ cyc_stack s = cyc_stack s1 /\ cyc_visited s1 ⊆ cyc_visited s
  /\ (exists extra, cyc_cycles s = cyc_cycles s1 ++ extra)
  /\ (forall d, d ∈ pre -> d ∈ cyc_visited s /\ (cyc_cycles s = [] -> d ∉ cyc_stack s)).

Lemma deps_inv_step s1 pre s s' dep :
  deps_inv s1 pre s -> cycle_post dep s s' -> deps_inv s1 (pre ++ [dep]) s'.
Proof.
  intros (Hs & Est & Hv & (x & Ex) & Hpre) [Hs' Est' Hv' (x' & Ex') Hf Hd].
  split; [done|]. split; [congruence|]. split; [set_solver|].
  split; [exists (x ++ x'); by rewrite Ex', Ex, app_assoc|].
  intros d [Hin| ->%list_elem_of_singleton]%elem_of_app; [|done].
  destruct (Hpre d Hin) as [Hdv Hds]. split; [set_solver|]. rewrite Est'. intros E.
  apply Hds. rewrite Ex' in E. by apply app_eq_nil in E as [? _].
Qed.

(** Leaving a file puts it in front of the finishing order. *)
Lemma cycle_leave file s s' deps :
  cycle_sound s -> file ∉ cyc_visited s -> file ∉ cyc_stack s ->
  (forall f', f' ∈ deps <-> D file f') ->
  deps_inv (mkCycle ({[file]} ∪ cyc_visited s) ({[file]} ∪ cyc_stack s) (cyc_cycles s)) deps s' ->
  cycle_post file s (mkCycle (cyc_visited s') (cyc_stack s' ∖ {[file]}) (cyc_cycles s')).
Proof.
  intros Hs Hv Hst Hdeps ([Hu Hsv Hcs Ho] & Est & Hvs & Hx & Hall). cbn in *.
  split; cbn; try done.
  - split; cbn; [done|set_solver|done|]. intros E. destruct (Ho E) as (L & HL & Ht).
    exists (file :: L). split; [|split; [|split; [|done]]].
    + intros x. rewrite elem_of_cons, HL, elem_of_difference, elem_of_singleton.
      destruct (decide (x = file)) as [->|]; [|tauto]. set_solver.
    + rewrite HL, Est. set_solver.
    + intros y Hy. apply HL. apply Hdeps in Hy. destruct (Hall y Hy) as [? Hns]. auto.
  - rewrite Est. set_solver.
  - set_solver.
  - set_solver.
  - set_solver.
Qed.

Lemma cycle_dfs_ok fuel file path s :
  size file_universe - size (cyc_visited s) < fuel ->
  file ∈ file_universe -> cycle_sound s -> on_stack path s -> path_chain path file ->
  returns (cycle_dfs st fuel file path s) (cycle_post file s).
Proof.
  revert file path s. induction fuel as [|fuel IH]; intros file path s Hfuel Hu Hs Hst Hp; [lia|].
  cbn [cycle_dfs]. case_decide as Hin; [by apply report_cycle_post|].
  case_decide as Hv.
  { split; auto; try done. exists []. by rewrite app_nil_r. }
  set (s1 := mkCycle ({[file]} ∪ cyc_visited s) ({[file]} ∪ cyc_stack s) (cyc_cycles s)).
  assert (Hs1 : cycle_sound s1).
  { destruct Hs as [Hus Hsv Hcs Ho]. split; cbn; [set_solver|set_solver|done|].
    intros E. destruct (Ho E) as (L & HL & Ht). exists L. split; [|done]. intros x. rewrite HL.
    set_solver. }
  assert (Hsize : forall s2, deps_inv s1 [] s2 -> size file_universe - size (cyc_visited s2) < fuel).
  { intros s2 (Hs2 & _ & Hv2 & _). cbn in Hv2.
    assert (size ({[file]} ∪ cyc_visited s) <= size (cyc_visited s2)) by (by apply subseteq_size).
    rewrite size_union, size_singleton in * by set_solver.
    pose proof (subseteq_size _ _ (cs_universe _ Hs2)). lia. }
  returns_step healthy_dependency_file_paths. intros deps [_ Hdeps]. cbn beta.
  apply returns_bind. eapply returns_mono; [apply (returns_for_M _ (deps_inv s1))|].
  - split; [done|]. split; [done|]. split; [done|]. split; [exists []; by rewrite app_nil_r|set_solver].
  - intros pre dep post s2 -> Hinv. pose proof Hinv as (Hs2 & Est2 & Hv2 & Hx2 & _).
    assert (HD : D file dep) by (apply Hdeps; set_solver).
    returns_step IH.
    + apply Hsize. split; [done|]. split; [done|]. split; [done|]. split; [done|set_solver].
    + by eapply file_universe_depends.
    + done.
    + destruct Hst as [Hnd Hst]. split.
      * apply NoDup_app. split; [done|]. split; [|apply NoDup_singleton].
        intros x Hx ->%list_elem_of_singleton. by apply Hin, Hst.
      * intros x. rewrite Est2, elem_of_app, list_elem_of_singleton. cbn.
        rewrite elem_of_union, elem_of_singleton, Hst. tauto.
    + by apply path_chain_snoc.
    + intros s3 Hpost. by eapply deps_inv_step.
  - intros s' Hinv. exact Hinv.
  - intros s' Hinv. by eapply cycle_leave.
Qed.

(** ** The whole search *)

Lemma find_circular_dependencies_ok fuel :
  length (gv_files g) + size (gv_nodes g) < fuel ->
  returns (find_circular_dependencies st fuel)
    (fun cycles => Forall (is_cycle D) cycles
       /\ (cycles = [] -> forall f x, f ∈ map file_path (gv_files g) -> rtc D f x -> ~ tc D x x)).
Proof.
  intros Hfuel. pose proof size_file_universe as Hsz. unfold find_circular_dependencies.
  returns_step healthy_all_files. intros fs Hfs. cbn beta.
  set (files := sort_by _ _).
  assert (Hfiles : forall f, f ∈ files <-> f ∈ map file_path (gv_files g)).
  { intros f. unfold files. rewrite elem_of_sort_by.
    change (map file_path) with (fmap (M:=list) file_path). by rewrite Hfs. }
  clearbody files.
  assert (Hloop : returns
    (for_M (fun s file => if decide (file ∈ cyc_visited s) then Ok (Continue s)
                          else s ← cycle_dfs st fuel file [] s; Ok (Continue s))
           (mkCycle ∅ ∅ []) files)
    (fun s => cycle_sound s /\ cyc_stack s = ∅ /\ forall f, f ∈ files -> f ∈ cyc_visited s)).
  { apply (returns_for_M _ (fun pre s => cycle_sound s /\ cyc_stack s = ∅
                              /\ forall f, f ∈ pre -> f ∈ cyc_visited s)).
    - split; [|split; [done|set_solver]]. split; cbn; [set_solver|set_solver|done|].
      intros _. exists []. split; [set_solver|done].
    - intros pre file post s Hsplit (Hs & Est & Hpre). case_decide as Hv.
      { split; [done|]. split; [done|]. intros f [?| ->%list_elem_of_singleton]%elem_of_app; auto. }
      returns_step (cycle_dfs_ok fuel file [] s); [lia| |done| | |].
      + apply elem_of_union_l, elem_of_list_to_set, Hfiles. rewrite Hsplit. set_solver.
      + split; [constructor|]. rewrite Est. set_solver.
      + intros a x b E. by destruct a.
      + intros s' [Hs' Est' Hv' _ Hf _]. split; [done|]. split; [congruence|].
        intros f [?| ->%list_elem_of_singleton]%elem_of_app; [|done]. apply Hv'. auto.
    - done. }
  apply returns_bind. eapply returns_mono; [exact Hloop|]. intros s (Hs & Est & Hall). cbn.
  split; [apply Hs|]. intros E f x Hf Hfx.
  destruct (cs_order _ Hs E) as (L & HL & Ht).
  apply (topo_acyclic D L); [done|].
  refine (rtc_ind_r (R := D) (fun x => x ∈ L) f _ _ x Hfx).
  - apply HL. rewrite Est. split; [|set_solver]. by apply Hall, Hfiles.
  - intros y z _ Hyz Hy. by eapply topo_closed.
Qed.

End Inv.
