(* ===== verification/TypeHierarchy.v ===== *)
(** * Supertypes and containment ancestors
      (crates/codegraph-graph/src/graph/mod.rs, [get_type_hierarchy],
      [type_ancestors], [type_descendants], [get_ancestors]) *)
From S2P Require Import Prelude Types Rows GraphStore GraphCore.

Definition SUPER_KINDS : list EdgeKind := [EkExtends; EkImplements].

Section Defs.
Context {St} `{GraphStore St} (st : St).

(** [type_ancestors], over the subgraph and the visited set. *)
Fixpoint type_ancestors (fuel : nat) (id : string) (s : Subgraph * gset string)
  : result SqlError (Subgraph * gset string) :=
  match fuel with
  | 0 => OutOfFuel
  | S fuel =>
      if decide (id ∈ snd s) then Ok s
      else
        let s := (fst s, {[id]} ∪ snd s) in
        outgoing ← outgoing_edges_kinds st id SUPER_KINDS;
        match outgoing with
        | [] => Ok s
        | _ =>
            parents ← nodes_by_ids st (map edge_target outgoing);
            for_M (fun s edge =>
                     match parents !! edge_target edge with
                     | None => Ok (Continue s)
                     | Some parent =>
                         if decide (is_Some (sg_nodes (fst s) !! node_id parent))
                         then Ok (Continue s)
                         else
                           s ← type_ancestors fuel (node_id parent)
                                 (push_edge (set_node (fst s) parent) edge, snd s);
                           Ok (Continue s)
                     end)
                  s outgoing
        end
  end.

(** [type_descendants]. *)
Fixpoint type_descendants (fuel : nat) (id : string) (s : Subgraph * gset string)
  : result SqlError (Subgraph * gset string) :=
  match fuel with
  | 0 => OutOfFuel
  | S fuel =>
      if decide (id ∈ snd s) then Ok s
      else
        let s := (fst s, {[id]} ∪ snd s) in
        incoming ← incoming_edges_kinds st id SUPER_KINDS;
        match incoming with
        | [] => Ok s
        | _ =>
            children ← nodes_by_ids st (map edge_source incoming);
            for_M (fun s edge =>
                     match children !! edge_source edge with
                     | None => Ok (Continue s)
                     | Some child =>
                         if decide (is_Some (sg_nodes (fst s) !! node_id child))
                         then Ok (Continue s)
                         else
                           s ← type_descendants fuel (node_id child)
                                 (push_edge (set_node (fst s) child) edge, snd s);
                           Ok (Continue s)
                     end)
                  s incoming
        end
  end.

(** [get_type_hierarchy]: one visited set for the two walks. *)
Definition get_type_hierarchy (fuel : nat) (id : string) : result SqlError Subgraph :=
  focal ← node_by_id st id;
  match focal with
  | None => Ok Subgraph_empty
  | Some focal =>
      s ← type_ancestors fuel id (set_node Subgraph_empty focal, ∅);
      s ← type_descendants fuel id s;
      Ok (set_roots (fst s) [id])
  end.

(** The [loop] of [get_ancestors]. *)
Fixpoint ancestors_loop (fuel : nat) (current_id : string) (visited : gset string)
    (ancestors : list Node) : result SqlError (list Node) :=
  match fuel with
  | 0 => OutOfFuel
  | S fuel =>
      if decide (current_id ∈ visited) then Ok ancestors
      else
        let visited := {[current_id]} ∪ visited in
        containing ← incoming_edges_kinds st current_id [EkContains];
        match containing with
        | [] => Ok ancestors
        | first_edge :: _ =>
            parent ← node_by_id st (edge_source first_edge);
            match parent with
            | Some parent => ancestors_loop fuel (node_id parent) visited (ancestors ++ [parent])
            | None => Ok ancestors
            end
        end
  end.

(** [get_ancestors]. *)
Definition get_ancestors (fuel : nat) (id : string) : result SqlError (list Node) :=
  ancestors_loop fuel id ∅ [].

End Defs.

Section Facts.
Context {St} `{HS : HealthyStore St st g}.
Variable start : string.

(** [extends] and [implements] edges. *)
Definition super_step (u v : string) : Prop :=
  exists e, e ∈ gv_edges g /\ edge_kind e ∈ SUPER_KINDS /\ edge_source e = u /\ edge_target e = v.

Notation State := (Subgraph * gset string)%type.
Definition in_sub (s : State) (x : string) : Prop := is_Some (sg_nodes (fst s) !! x).

Record super_sound (s : State) : Prop := {
  ss_nodes : forall x n, sg_nodes (fst s) !! x = Some n ->
    gv_nodes g !! x = Some n /\ rtc super_step start x;
  ss_edges : forall e, e ∈ sg_edges (fst s) -> e ∈ gv_edges g /\ edge_kind e ∈ SUPER_KINDS
    /\ in_sub s (edge_source e) /\ in_sub s (edge_target e);
  ss_count : length (sg_edges (fst s)) + 1 = size (sg_nodes (fst s));
  ss_visited : forall x, x ∈ snd s -> in_sub s x;
  ss_ordered : ordered (fst s)
}.

(** [s'] extends [s]; the nodes it added are visited, and what it visited,
    [except] aside, has its supertypes in the subgraph. *)
Record super_extends (except : option string) (s s' : State) : Prop := {
  sx_nodes : forall x, in_sub s x -> in_sub s' x;
  sx_visited : snd s ⊆ snd s';
  sx_added : forall x, in_sub s' x -> in_sub s x \/ x ∈ snd s';
  sx_closed : forall x y, x ∈ snd s' -> x ∉ snd s -> except <> Some x -> super_step x y ->
    in_sub s' y
}.

Lemma super_extends_refl s : super_extends None s s.
Proof. split; auto; set_solver. Qed.

Lemma super_extends_trans o s1 s2 s3 :
  super_extends o s1 s2 -> super_extends None s2 s3 -> super_extends o s1 s3.
Proof.
  intros [N12 V12 A12 C12] [N23 V23 A23 C23]. split; [auto|set_solver| |].
  - intros x [[?|?]%A12|?]%A23; [by left|right; set_solver|by right].
  - intros x y Hx Hx1 Ho Hst. destruct (decide (x ∈ snd s2)); [|by eapply C23].
    apply N23. by eapply C12.
Qed.

Lemma super_sound_add s e n :
  super_sound s -> e ∈ gv_edges g -> edge_kind e ∈ SUPER_KINDS -> in_sub s (edge_source e) ->
  gv_nodes g !! edge_target e = Some n -> ~ in_sub s (edge_target e) ->
  let s' := (push_edge (set_node (fst s) n) e, snd s) in
  super_sound s' /\ (forall x, in_sub s' x <-> in_sub s x \/ x = edge_target e).
Proof.
  intros [Hn He Hc Hv Ho] Hge Hk Hsrc Hnode Hnew s'. pose proof (view_key _ _ Hnode) as Eid.
  assert (Hin : forall x, in_sub s' x <-> in_sub s x \/ x = edge_target e).
  { intros x. unfold s', in_sub. cbn. rewrite Eid, lookup_insert_is_Some.
    destruct (decide (edge_target e = x)); naive_solver. }
  split; [|done]. split.
  - intros x m. unfold s'. cbn. rewrite Eid, lookup_insert_Some. intros [[<- <-]|[_ Hx]]; [|auto].
    split; [done|]. destruct Hsrc as [k Hk']. eapply rtc_r; [by apply (Hn _ _ Hk')|]. by exists e.
  - intros e'. unfold s' at 1. cbn [fst push_edge set_node sg_edges]. rewrite !Hin.
    intros [(? & ? & ? & ?)%He| ->%list_elem_of_singleton]%elem_of_app; auto.
  - unfold s'. cbn. rewrite Eid, length_app, map_size_insert_None; [cbn; lia|].
    apply eq_None_not_Some. exact Hnew.
  - intros x Hx. apply Hin. auto.
  - apply ordered_push_edge, ordered_set_node. done.
Qed.

Definition super_post (id : string) (s s' : State) : Prop :=
  super_sound s' /\ super_extends None s s' /\ id ∈ snd s'.

Definition super_loop_inv (id : string) (s : State) (pre : list Edge) (s' : State) : Prop :=
  super_sound s' /\ super_extends (Some id) s s' /\ id ∈ snd s'
  /\ (forall e, e ∈ pre -> in_sub s' (edge_target e)).

Lemma super_loop_done id s es s' :
  (forall e, e ∈ gv_edges g -> edge_source e = id -> edge_kind e ∈ SUPER_KINDS -> e ∈ es) ->
  super_loop_inv id s es s' -> super_post id s s'.
Proof.
  intros Hes (Hs & [N V A C] & Hid & Hall). split; [done|]. split; [|done]. split; auto.
  intros x y Hx Hxs _ Hst. destruct (decide (x = id)) as [->|Hne]; [|apply (C x y); congruence].
  destruct Hst as (e & ? & ? & ? & <-). auto.
Qed.

Lemma type_ancestors_ok fuel id s :
  size (gv_nodes g) - size (snd s) < fuel -> super_sound s -> in_sub s id ->
  returns (type_ancestors st fuel id s) (super_post id s).
Proof.
  revert id s. induction fuel as [|fuel IH]; intros id s Hfuel Hs Hid; [lia|].
  cbn [type_ancestors]. case_decide as Hv; [split; [done|split; [apply super_extends_refl|done]]|].
  set (s1 := (fst s, {[id]} ∪ snd s)).
  assert (Hs1 : super_sound s1).
  { destruct Hs. split; auto. unfold s1. cbn. intros x [->%elem_of_singleton|?]%elem_of_union; auto.
    by apply ss_visited0. }
  assert (Hinv0 : super_loop_inv id s [] s1).
  { split; [done|]. split; [|split; [unfold s1; cbn; set_solver|set_solver]].
    split; unfold s1; cbn; auto; set_solver. }
  assert (Hsize : forall s2, super_sound s2 -> {[id]} ∪ snd s ⊆ snd s2 ->
            size (gv_nodes g) - size (snd s2) < fuel).
  { intros s2 Hs2 Hle. apply subseteq_size in Hle. rewrite size_union, size_singleton in Hle by set_solver.
    assert (size (snd s2) <= size (gv_nodes g)); [|lia].
    rewrite <- (size_dom (D := gset string)). apply subseteq_size. intros x [n Hn]%(ss_visited _ Hs2).
    apply elem_of_dom. exists n. by apply (ss_nodes _ Hs2). }
  returns_step outgoing_edges_kinds_ok. intros es [_ Hes]. cbn beta.
  assert (Hdone : forall s', super_loop_inv id s es s' -> super_post id s s')
    by (intros s'; apply super_loop_done; intros e ???; by apply Hes).
  destruct es as [|e0 es0]; [by apply Hdone|]. set (es := e0 :: es0) in *. clearbody es.
  returns_step nodes_by_ids_lookup. intros parents Hp. cbn beta.
  apply (returns_for_M _ (super_loop_inv id s)); [done| |done].
  intros pre e post s2 Hsplit (Hs2 & E2 & Hid2 & Hpre).
  assert (He : e ∈ es) by (rewrite Hsplit; set_solver).
  pose proof (proj1 (Hes e) He) as (Hge & Hsrc & Hk).
  destruct (view_target e Hge) as [n Hn]. pose proof (view_key _ _ Hn) as Eid.
  rewrite Hp, Hn, Eid by (apply list_elem_of_fmap; eauto).
  case_decide as Hin.
  { split; [done|]. split; [done|]. split; [done|].
    intros e' [?| ->%list_elem_of_singleton]%elem_of_app; auto. }
  destruct (super_sound_add s2 e n) as [Hsa Hina]; try done.
  { rewrite Hsrc. by apply (ss_visited _ Hs2). }
  set (s3 := (push_edge (set_node (fst s2) n) e, snd s2)) in *.
  returns_step IH.
  - apply Hsize; [done|]. pose proof (sx_visited _ _ _ E2). cbn. set_solver.
  - done.
  - apply Hina. by right.
  - intros s4 (Hs4 & E4 & Hin4). split; [done|].
    assert (E24 : super_extends None s2 s4).
    { destruct E4 as [N4 V4 A4 C4]. split; auto.
      - intros x Hx. apply N4, Hina. by left.
      - intros x Hx. destruct (A4 x Hx) as [[?| ->]%Hina|?]; auto. }
    split; [by eapply super_extends_trans|]. split; [by apply E24|].
    intros e' [He'| ->%list_elem_of_singleton]%elem_of_app; [by apply E24, Hpre|].
    by apply (ss_visited _ Hs4).
Qed.

(** The descendants walk starts at a visited node and adds nothing. *)
Lemma type_descendants_visited fuel id s :
  id ∈ snd s -> type_descendants st (S fuel) id s = Ok s.
Proof. intros Hid. cbn. by rewrite decide_True. Qed.

(** The hierarchy of a stored node: itself and its transitive supertypes, with
    one edge for each of them. *)
Record hierarchy_exact (graph : Subgraph) : Prop := {
  hx_nodes : forall x n, sg_nodes graph !! x = Some n
    <-> gv_nodes g !! x = Some n /\ rtc super_step start x;
  hx_edges : forall e, e ∈ sg_edges graph -> e ∈ gv_edges g /\ edge_kind e ∈ SUPER_KINDS
    /\ is_Some (sg_nodes graph !! edge_source e) /\ is_Some (sg_nodes graph !! edge_target e);
  hx_tree : length (sg_edges graph) + 1 = size (sg_nodes graph);
  hx_ordered : ordered graph;
  hx_roots : sg_roots graph = [start]
}.

Lemma get_type_hierarchy_exact fuel n :
  gv_nodes g !! start = Some n -> size (gv_nodes g) < fuel ->
  returns (get_type_hierarchy st fuel start) hierarchy_exact.
Proof.
  intros Hn Hfuel. unfold get_type_hierarchy. rewrite healthy_node_by_id, Hn. cbn [mbind result_bind].
  pose proof (view_key _ _ Hn) as Eid. set (s0 := (set_node Subgraph_empty n, ∅ : gset string)).
  assert (Hin0 : forall x, in_sub s0 x <-> x = start).
  { intros x. unfold in_sub, s0. cbn. rewrite Eid, lookup_insert_is_Some, lookup_empty, is_Some_alt.
    naive_solver. }
  assert (Hs0 : super_sound s0).
  { split; unfold s0; cbn.
    - intros x m. rewrite Eid, lookup_insert_Some, lookup_empty. intros [[<- <-]|[_ [=]]].
      split; [done|constructor].
    - set_solver.
    - by rewrite map_size_insert_None, map_size_empty by apply lookup_empty.
    - set_solver.
    - auto with cg. }
  apply returns_bind. eapply returns_mono; [apply type_ancestors_ok; [|done|by apply Hin0]|].
  { unfold s0. cbn [snd]. lia. }
  intros s (Hs & [N V A C] & Hid). destruct fuel as [|fuel]; [lia|].
  rewrite type_descendants_visited by done. cbn [mbind result_bind returns].
  split; cbn [set_roots sg_nodes sg_edges sg_roots]; try apply Hs; [|done].
  intros x m. split; [apply Hs|]. intros [Hx Hr].
  assert (Hvis : x ∈ snd s).
  { refine (rtc_ind_r (R := super_step) (fun x => x ∈ snd s) start Hid _ x Hr).
    intros y z _ Hyz Hy. assert (in_sub s z) as Hz by (eapply C; try done; set_solver).
    destruct (A z Hz) as [->%Hin0|?]; done. }
  destruct (ss_visited _ Hs _ Hvis) as [m' Hm']. pose proof (ss_nodes _ Hs _ _ Hm') as [? _].
  congruence.
Qed.

(** ** The containment chain *)

(** [chain_up x l]: each node of [l] contains the one before it. *)
Fixpoint contained_in (x : string) (l : list Node) : Prop :=
  match l with
  | [] => True
  | n :: l => gv_nodes g !! node_id n = Some n
      /\ (exists e, e ∈ gv_edges g /\ edge_kind e = EkContains
            /\ edge_target e = x /\ edge_source e = node_id n)
      /\ contained_in (node_id n) l
  end.

Fixpoint top_of (x : string) (l : list Node) : string :=
  match l with [] => x | n :: l => top_of (node_id n) l end.

Lemma contained_in_snoc x l n :
  contained_in x (l ++ [n]) <-> contained_in x l /\ contained_in (top_of x l) [n].
Proof. revert x; induction l as [|m l IH]; intros x; cbn; [tauto|]. rewrite IH. cbn. tauto. Qed.

Lemma top_of_snoc x l n : top_of x (l ++ [n]) = node_id n.
Proof. revert x; induction l as [|m l IH]; intros x; cbn; auto. Qed.

(** The chain ends at an uncontained node, or where it meets itself. *)
Definition chain_complete (x : string) (l : list Node) : Prop :=
  (forall e, e ∈ gv_edges g -> edge_kind e = EkContains -> edge_target e <> top_of x l)
  \/ top_of x l ∈ x :: map node_id (removelast l).

(** The chain so far: its nodes below the current one are the visited ones. *)
Lemma ancestors_loop_ok fuel visited ancestors :
  size (gv_nodes g) + 1 - size visited < fuel ->
  contained_in start ancestors ->
  (forall x, x ∈ visited <-> x ∈ match ancestors with
                                 | [] => []
                                 | _ => start :: map node_id (removelast ancestors)
                                 end) ->
  visited ⊆ {[start]} ∪ dom (gv_nodes g) ->
  NoDup (map node_id (removelast ancestors)) ->
  returns (ancestors_loop st fuel (top_of start ancestors) visited ancestors)
    (fun l => contained_in start l /\ chain_complete start l
              /\ NoDup (map node_id (removelast l))).
Proof.
  revert visited ancestors. induction fuel as [|fuel IH]; intros visited l Hfuel Hc Hv Hsub Hnd; [lia|].
  cbn [ancestors_loop]. case_decide as Hin.
  { split; [done|]. split; [|done]. right. apply Hv in Hin.
    destruct l; [by apply not_elem_of_nil in Hin|exact Hin]. }
  returns_step incoming_edges_kinds_ok. intros es [_ Hes]. cbn beta.
  destruct es as [|e es].
  { split; [done|]. split; [|done]. left. intros e He Hk Ht.
    assert (e ∈ []) by (apply Hes; set_solver). set_solver. }
  assert (He : e ∈ e :: es) by set_solver. apply Hes in He as (He & Ht & Hk).
  apply list_elem_of_singleton in Hk.
  destruct (view_source e He) as [n Hn]. pose proof (view_key _ _ Hn) as Eid.
  rewrite healthy_node_by_id, Hn. cbn [mbind result_bind].
  rewrite <- (top_of_snoc start l n) at 1.
  assert (Hids : forall x, x ∈ start :: map node_id l <-> x ∈ {[top_of start l]} ∪ visited).
  { intros x. rewrite elem_of_union, elem_of_singleton, Hv. destruct l as [|m l'] using rev_ind.
    - cbn. set_solver.
    - rewrite top_of_snoc, removelast_last, map_app. cbn. destruct (l' ++ [m]) eqn:E; [by destruct l'|].
      set_solver. }
  assert (Hsz : size visited < size ({[top_of start l]} ∪ visited))
    by (rewrite size_union, size_singleton by set_solver; lia).
  assert (Hsub' : {[top_of start l]} ∪ visited ⊆ {[start]} ∪ dom (gv_nodes g)).
  { apply union_subseteq. split; [|done]. apply singleton_subseteq_l.
    destruct (decide (top_of start l = start)) as [->|Hne]; [set_solver|].
    apply elem_of_union_r, elem_of_dom. rewrite <- Ht. by apply view_target. }
  pose proof (subseteq_size _ _ Hsub') as Hle.
  pose proof (size_union_le {[start]} (dom (gv_nodes g))) as Hle2.
  rewrite size_singleton, size_dom in Hle2.
  apply IH.
  - lia.
  - apply contained_in_snoc. split; [done|]. cbn. rewrite Eid. split; [done|]. split; [|done]. eauto.
  - intros x. rewrite removelast_last, <- Hids. destruct (l ++ [n]) eqn:E; [by destruct l|done].
  - done.
  - rewrite removelast_last. destruct l as [|m l'] using rev_ind; [constructor|].
    rewrite removelast_last, map_app in *. rewrite top_of_snoc in Hin.
    apply NoDup_app. split; [done|]. split; [|apply NoDup_singleton].
    intros x Hx ->%list_elem_of_singleton. apply Hin, Hv.
    assert (E : forall q : list string, match l' ++ [m] with [] => [] | _ => q end = q) by (by destruct l').
    rewrite E. by right.
Qed.

Lemma get_ancestors_ok fuel :
  size (gv_nodes g) + 1 < fuel ->
  returns (get_ancestors st fuel start)
    (fun l => contained_in start l /\ chain_complete start l
              /\ NoDup (map node_id (removelast l))).
Proof.
  intros Hfuel. apply (ancestors_loop_ok fuel ∅ []); cbn; [lia|done|set_solver|set_solver|constructor].
Qed.

End Facts.
