(* ===== verification/GodotAudit.v ===== *)
(** * Godot resource audits
      (crates/codegraph-graph/src/graph/mod.rs, [godot_dynamic_reachability],
      [find_orphan_resources], [find_dangling_references], [resource_impact])

    Read-only reports over the unresolved references of a Godot project. The
    file system's answer to [project_root.join(p).exists()] is a parameter. *)
From S2P Require Import Prelude Strings Types Rows GraphStore GraphCore.

Definition GODOT_DYNAMIC_PREFIX : string := "godot:dynamic:".

Inductive GodotReach : Set := SceneOrResourceLink | Autoload.

(** [GodotDynamicReach]. *)
Record GodotDynamicReach : Set := mkReach {
  reached_by : list GodotReach;
  dynamic_unresolved : list string
}.

Definition is_dynamically_reachable (self : GodotDynamicReach) : bool :=
  match reached_by self with [] => false | _ => true end.

Definition has_any_signal (self : GodotDynamicReach) : bool :=
  is_dynamically_reachable self
  || match dynamic_unresolved self with [] => false | _ => true end.

Record OrphanResource : Set := mkOrphan {
  orphan_file_path : string;
  orphan_reason : string;
  orphan_confidence : string;
  orphan_note : option string
}.

Record DanglingRef : Set := mkDangling {
  dangling_from_file : string;
  dangling_target_path : string;
  dangling_line : Z;
  dangling_kind : string
}.

Record AffectedRef : Set := mkAffected {
  aff_from_file : string;
  aff_line : Z;
  aff_edge_kind : string;
  aff_target : string;
  aff_edge_subkind : option string
}.

#[export] Instance AffectedRef_eq_dec : EqDecision AffectedRef.
Proof. solve_decision. Defined.

Record ResourceImpact : Set := mkResourceImpact {
  ri_changed : string;
  ri_affected : list AffectedRef
}.

(** ** Path helpers *)

(** [normalize_rel]: every backslash becomes a slash. *)
Definition normalize_rel (path : string) : string := str_replace "\"%char "/"%char path.

(** [strip_res_prefix]. *)
Definition strip_res_prefix (s : string) : string := default s (str_strip_prefix "res://" s).

(** [edge_metadata_subkind]. *)
Definition edge_metadata_subkind (edge : Edge) : option string :=
  match edge_metadata edge with
  | Some metadata => match Value_get metadata "subkind" with
                     | Some v => Value_as_str v
                     | None => None
                     end
  | None => None
  end.

(** [is_excluded_prefix]. *)
Definition is_excluded_prefix (normalized : string) : bool :=
  starts_with normalized ".godot/" || starts_with normalized "addons/".

(** [is_path_shaped]. *)
Definition is_path_shaped (reference_name : string) (language : Language) : bool :=
  let by_language := match language with
                     | LangGodotScene | LangGodotResource | LangGodotProject => true
                     | _ => false
                     end in
  let by_extension := str_contains "/"%char reference_name
    && (ends_with reference_name ".tres" || ends_with reference_name ".tscn"
        || ends_with reference_name ".gd" || ends_with reference_name ".res") in
  by_language || by_extension.

(** [looks_like_path]. *)
Definition looks_like_path (reference_name : string) : bool :=
  str_contains "/"%char reference_name
  || ends_with reference_name ".tres" || ends_with reference_name ".tscn"
  || ends_with reference_name ".gd" || ends_with reference_name ".res"
  || ends_with reference_name ".gdshader" || ends_with reference_name ".gdshaderinc"
  || ends_with reference_name ".png" || ends_with reference_name ".svg"
  || ends_with reference_name ".ogg" || ends_with reference_name ".wav"
  || ends_with reference_name ".ttf".

(** [codegraph_core::node_id::file_node_id]. *)
Definition file_node_id (file_path : string) : string := "file:" +:+ file_path.

(** The repo-relative form of a reference's name. *)
Definition ref_target (r : UnresolvedRef) : string :=
  strip_res_prefix (normalize_rel (ref_reference_name r)).

Section Audit.
Context {St} `{GraphStore St} (st : St).

(** [file_is_autoload_bound]. *)
Definition file_is_autoload_bound (file_path : string) : result SqlError bool :=
  let binding : string := "autoload -> " +:+ file_path in
  constants ← nodes_by_kind st NkConstant;
  Ok (existsb (fun n => bool_decide (node_language n = LangGodotProject)
                        && bool_decide (node_signature n = Some binding)) constants).

(** [godot_dynamic_reachability]. *)
Definition godot_dynamic_reachability (node : Node) : result SqlError GodotDynamicReach :=
  name_links ← unresolved_refs_by_names st [node_name node];
  let by_link := if existsb (fun r => is_godot_non_script_file (ref_language r)) name_links
                 then [SceneOrResourceLink] else [] in
  bound ← file_is_autoload_bound (node_file_path node);
  let by_autoload := match bound with true => [Autoload] | false => [] end in
  refs ← all_unresolved_refs st;
  let dynamic :=
    map ref_reference_name
      (filter (fun r => ref_from_node_id r = node_id node
                        /\ starts_with (ref_reference_name r) GODOT_DYNAMIC_PREFIX = true) refs) in
  Ok (mkReach (by_link ++ by_autoload) (dedup (sort_by str_le dynamic))).

(** [referenced_resource_paths]. *)
Definition referenced_resource_paths : result SqlError (gset string) :=
  refs ← all_unresolved_refs st;
  let referenced : gset string :=
    list_to_set (map ref_target
      (filter (fun r => is_path_shaped (ref_reference_name r) (ref_language r) = true) refs)) in
  files ← nodes_by_kind st NkFile;
  for_M (fun referenced node =>
           references ← edges_by_target_kind st (node_id node) (Some EkReferences);
           match references with
           | _ :: _ => Ok (Continue ({[normalize_rel (node_file_path node)]} ∪ referenced))
           | [] =>
               instantiates ← edges_by_target_kind st (node_id node) (Some EkInstantiates);
               match instantiates with
               | _ :: _ => Ok (Continue ({[normalize_rel (node_file_path node)]} ∪ referenced))
               | [] => Ok (Continue referenced)
               end
           end)
        referenced files.

Definition ORPHAN_NOTE : string :=
  "godot resources may be referenced by data-driven numeric ids or DSL paths not followed by static analysis".

(** The row [find_orphan_resources] builds for a file. *)
Definition orphan_of (f : FileRecord) : OrphanResource :=
  let low_confidence := match file_language f with
                        | LangGodotResource | LangGodotScene => true
                        | _ => false
                        end in
  mkOrphan (file_path f) "no_path_reference" (if low_confidence then "low" else "high")
    (if low_confidence then Some ORPHAN_NOTE else None).

(** [find_orphan_resources]. *)
Definition find_orphan_resources : result SqlError (list OrphanResource) :=
  referenced ← referenced_resource_paths;
  files ← all_files st;
  let candidates :=
    filter (fun f => is_godot_non_script_file (file_language f) = true
                     /\ file_language f <> LangGodotProject) files in
  let orphans := filter (fun f => normalize_rel (file_path f) ∉ referenced) candidates in
  Ok (sort_by (fun a b => str_le (orphan_file_path a) (orphan_file_path b)) (map orphan_of orphans)).

(** The [sort_by] key of [find_dangling_references]. *)
Definition dangling_le (a b : DanglingRef) : bool :=
  then_le (String.compare (dangling_from_file a) (dangling_from_file b))
    (then_le (String.compare (dangling_target_path a) (dangling_target_path b))
       (Z.leb (dangling_line a) (dangling_line b))).

(** [find_dangling_references]; [exists_under_root p] is
    [project_root.join(p).exists()]. *)
Definition find_dangling_references (exists_under_root : string -> bool)
  : result SqlError (list DanglingRef) :=
  refs ← all_unresolved_refs st;
  out ← for_M (fun out reference =>
      if negb (is_path_shaped (ref_reference_name reference) (ref_language reference))
      then Ok (Continue out)
      else if negb (looks_like_path (ref_reference_name reference)) then Ok (Continue out)
      else
        let normalized := ref_target reference in
        if is_excluded_prefix normalized then Ok (Continue out)
        else if starts_with (ref_reference_name reference) "godot:dynamic:" then Ok (Continue out)
        else if exists_under_root normalized then Ok (Continue out)
        else Ok (Continue (out ++ [mkDangling (ref_file_path reference) normalized
                                     (ref_line reference)
                                     (EdgeKind_as_str (ref_reference_kind reference))])))
    [] refs;
  Ok (sort_by dangling_le out).

(** The [sort_by] key of [resource_impact]. *)
Definition affected_le (a b : AffectedRef) : bool :=
  then_le (String.compare (aff_from_file a) (aff_from_file b))
    (Z.leb (aff_line a) (aff_line b)).

Definition IMPACT_KINDS : list EdgeKind := [EkReferences; EkInstantiates; EkImports; EkExtends].

(** [resource_impact]. *)
Definition resource_impact (changed_rel_path : string) : result SqlError ResourceImpact :=
  let changed := normalize_rel changed_rel_path in
  refs ← all_unresolved_refs st;
  let by_refs :=
    map (fun r => mkAffected (ref_file_path r) (ref_line r)
                    (EdgeKind_as_str (ref_reference_kind r)) changed
                    (ReferenceSubkind_as_str <$> ref_reference_subkind r))
        (filter (fun r => ref_target r = changed) refs) in
  incoming ← edges_by_target_kind st (file_node_id changed) None;
  affected ← for_M (fun affected edge =>
      if decide (edge_kind edge ∉ IMPACT_KINDS) then Ok (Continue affected)
      else source ← node_by_id st (edge_source edge);
           match source with
           | Some source =>
               Ok (Continue (affected ++
                 [mkAffected (node_file_path source) (default 0%Z (edge_line edge))
                    (EdgeKind_as_str (edge_kind edge)) changed (edge_metadata_subkind edge)]))
           | None => Ok (Continue affected)
           end)
    by_refs incoming;
  imports ← nodes_by_kind st NkImport;
  affected ← for_M (fun affected node =>
      match str_strip_prefix "res://" (node_name node) with
      | None => Ok (Continue affected)
      | Some stripped =>
          if decide (strip_res_prefix (normalize_rel stripped) <> changed)
          then Ok (Continue affected)
          else
            import_edges ← edges_by_target_kind st (node_id node) (Some EkImports);
            Ok (Continue (affected ++
              map (fun edge => mkAffected (node_file_path node)
                                 (default (node_start_line node) (edge_line edge))
                                 (EdgeKind_as_str (edge_kind edge)) changed
                                 (edge_metadata_subkind edge))
                  import_edges))
      end)
    affected imports;
  Ok (mkResourceImpact changed (dedup (sort_by affected_le affected))).

End Audit.

(** ** Facts *)

Lemma dangling_le_total a b : dangling_le a b = true \/ dangling_le b a = true.
Proof.
  apply then_le_total; [apply str_compare_opp|]. apply then_le_total; [apply str_compare_opp|].
  rewrite !Z.leb_le. lia.
Qed.

Lemma affected_le_total a b : affected_le a b = true \/ affected_le b a = true.
Proof. apply then_le_total; [apply str_compare_opp|]. rewrite !Z.leb_le. lia. Qed.

Lemma Sorted_dedup {A} `{EqDecision A} (R : A -> A -> Prop) (l : list A) :
  Sorted R l -> Sorted R (dedup l).
Proof.
  induction 1 as [|x l Hl IH Hx]; [constructor|]. cbn.
  destruct l as [|y l]; [cbn; repeat constructor|]. destruct (dedup_head y l) as [l' Hd].
  rewrite Hd in *. case_decide as E.
  - subst. done.
  - constructor; [done|]. constructor. by inversion Hx.
Qed.

Lemma existsb_exists' {A} (p : A -> bool) l : existsb p l = true <-> exists x, x ∈ l /\ p x = true.
Proof.
  rewrite existsb_exists. split; intros (x & Hx & Hp); exists x; by rewrite list_elem_of_In in *.
Qed.

Section Facts.
Context {St} `{HS : HealthyStore St st g}.

(** A path some reference names, or the path of a referenced file node. *)
Definition referenced_path (p : string) : Prop :=
  (exists r, r ∈ gv_refs g /\ is_path_shaped (ref_reference_name r) (ref_language r) = true
             /\ p = ref_target r)
  \/ (exists n e, gv_nodes g !! node_id n = Some n /\ node_kind n = NkFile
        /\ p = normalize_rel (node_file_path n) /\ e ∈ gv_edges g
        /\ edge_target e = node_id n /\ edge_kind e ∈ [EkReferences; EkInstantiates]).

Lemma referenced_resource_paths_ok :
  returns (referenced_resource_paths st) (fun ps => forall p, p ∈ ps <-> referenced_path p).
Proof.
  unfold referenced_resource_paths.
  returns_step healthy_all_unresolved_refs. intros refs Hrefs. cbn beta.
  returns_step healthy_nodes_by_kind. intros files [_ Hfiles]. cbn beta.
  set (base := list_to_set _).
  assert (Hbase : forall p, p ∈ base <-> exists r, r ∈ gv_refs g
            /\ is_path_shaped (ref_reference_name r) (ref_language r) = true /\ p = ref_target r).
  { intros p. unfold base. rewrite elem_of_list_to_set.
    change (map ref_target) with (fmap (M:=list) ref_target). rewrite list_elem_of_fmap.
    setoid_rewrite list_elem_of_filter. setoid_rewrite Hrefs. naive_solver. }
  clearbody base.
  eapply returns_mono; [apply (returns_for_M _ (fun pre ps => forall p, p ∈ ps <-> p ∈ base \/
    exists n e, n ∈ pre /\ p = normalize_rel (node_file_path n) /\ e ∈ gv_edges g
      /\ edge_target e = node_id n /\ edge_kind e ∈ [EkReferences; EkInstantiates]))|].
  - set_solver.
  - intros pre n post ps _ Hps.
    returns_step (elem_of_edges_by_target (node_id n) (Some EkReferences)). intros es [_ Hes].
    destruct es as [|e es].
    + returns_step (elem_of_edges_by_target (node_id n) (Some EkInstantiates)). intros es [_ Hes'].
      destruct es as [|e es]; cbn; intros p.
      * rewrite Hps. split; [intros [?|(m & e & ? & ?)]; [by left|right; exists m, e; set_solver]|].
        intros [?|(m & e & Hm & Hp & He & Ht & Hk)]; [by left|]. right. exists m, e.
        apply elem_of_app in Hm as [?| ->%list_elem_of_singleton]; [done|]. exfalso.
        apply elem_of_cons in Hk as [Hk|Hk%list_elem_of_singleton].
        -- assert (e ∈ []) by (by apply Hes). set_solver.
        -- assert (e ∈ []) by (by apply Hes'). set_solver.
      * assert (He : e ∈ e :: es) by set_solver. apply Hes' in He as (He & Ht & Hk). cbn in Hk.
        rewrite elem_of_union, elem_of_singleton, Hps. split.
        -- intros [->|[?|(m & e' & ? & ?)]]; [right; exists n, e|by left|right; exists m, e']; set_solver.
        -- intros [?|(m & e' & Hm & -> & ?)]; [auto|].
           apply elem_of_app in Hm as [?| ->%list_elem_of_singleton]; [|auto]. right; right; eauto 10.
    + assert (He : e ∈ e :: es) by set_solver. apply Hes in He as (He & Ht & Hk). cbn in Hk.
      cbn. intros p. rewrite elem_of_union, elem_of_singleton, Hps. split.
      * intros [->|[?|(m & e' & ? & ?)]]; [right; exists n, e|by left|right; exists m, e']; set_solver.
      * intros [?|(m & e' & Hm & -> & ?)]; [auto|].
        apply elem_of_app in Hm as [?| ->%list_elem_of_singleton]; [|auto]. right; right; eauto 10.
  - intros ps Hps. exact Hps.
  - intros ps Hps p. cbn beta in Hps. rewrite Hps, Hbase. unfold referenced_path.
    setoid_rewrite Hfiles. naive_solver.
Qed.

(** ** Orphans *)

(** A scene or resource file whose path nothing references. *)
Definition orphaned (f : FileRecord) : Prop :=
  f ∈ gv_files g /\ (file_language f = LangGodotScene \/ file_language f = LangGodotResource)
  /\ ~ referenced_path (normalize_rel (file_path f)).

Lemma find_orphan_resources_exact :
  returns (find_orphan_resources st)
    (fun l => Sorted (fun a b => str_le (orphan_file_path a) (orphan_file_path b) = true) l
              /\ NoDup (map orphan_file_path l)
              /\ forall o, o ∈ l <-> exists f, orphaned f /\
                   o = mkOrphan (file_path f) "no_path_reference" "low" (Some ORPHAN_NOTE)).
Proof.
  unfold find_orphan_resources. returns_step referenced_resource_paths_ok. intros ps Hps. cbn beta.
  returns_step healthy_all_files. intros files Hfiles. cbn [returns].
  set (l := filter (fun f => normalize_rel (file_path f) ∉ ps) _).
  assert (Hl : forall f, f ∈ l <-> orphaned f).
  { intros f. unfold l, orphaned. rewrite !list_elem_of_filter, Hfiles, Hps.
    destruct (file_language f); cbn; naive_solver. }
  assert (Hnd : NoDup (map file_path l)).
  { unfold l. pose proof (@view_files_NoDup g _) as Hv.
    assert (Hp : map file_path files ≡ₚ map file_path (gv_files g))
      by (by apply Permutation_map).
    rewrite <- Hp in Hv. clear -Hv. induction files as [|f files IH]; [constructor|].
    cbn in Hv. apply NoDup_cons in Hv as [Hf Hv]. specialize (IH Hv).
    rewrite filter_cons. case_decide; [|done]. rewrite filter_cons. case_decide; [|done].
    cbn. apply NoDup_cons. split; [|done]. intros Hin. apply Hf.
    apply list_elem_of_fmap in Hin as (f' & -> & Hin). apply list_elem_of_fmap. exists f'.
    split; [done|]. apply list_elem_of_filter in Hin as [_ Hin].
    by apply list_elem_of_filter in Hin as [_ Hin]. }
  clearbody l. split; [|split].
  - apply sort_by_sorted. intros a b. apply str_le_total.
  - assert (Hp : map orphan_file_path (sort_by (fun a b => str_le (orphan_file_path a) (orphan_file_path b))
                   (map orphan_of l)) ≡ₚ map file_path l).
    { etrans; [apply Permutation_map, sort_by_perm|]. by rewrite map_map. }
    by rewrite Hp.
  - intros o. rewrite elem_of_sort_by. change (map orphan_of) with (fmap (M:=list) orphan_of).
    rewrite list_elem_of_fmap. split.
    + intros (f & -> & Hf). exists f. apply Hl in Hf. split; [done|]. unfold orphan_of.
      destruct Hf as (_ & [-> | ->] & _); done.
    + intros (f & Hf & ->). exists f. split; [|by apply Hl]. unfold orphan_of.
      destruct Hf as (_ & [-> | ->] & _); done.
Qed.

(** ** Dangling references *)

(** A reference [find_dangling_references] reports. *)
Definition dangling (exists_under_root : string -> bool) (r : UnresolvedRef) : Prop :=
  r ∈ gv_refs g /\ is_path_shaped (ref_reference_name r) (ref_language r) = true
  /\ looks_like_path (ref_reference_name r) = true
  /\ is_excluded_prefix (ref_target r) = false
  /\ starts_with (ref_reference_name r) "godot:dynamic:" = false
  /\ exists_under_root (ref_target r) = false.

(** A reference one of the guards rejects adds no row. *)
Ltac skip_ref Hskip :=
  cbn [negb returns]; apply Hskip; intros (_ & ? & ? & ? & ? & ?); congruence.

Lemma find_dangling_references_exact exists_under_root :
  returns (find_dangling_references st exists_under_root)
    (fun l => Sorted (fun a b => dangling_le a b = true) l
              /\ forall d, d ∈ l <-> exists r, dangling exists_under_root r /\
                   d = mkDangling (ref_file_path r) (ref_target r) (ref_line r)
                         (EdgeKind_as_str (ref_reference_kind r))).
Proof.
  unfold find_dangling_references. returns_step healthy_all_unresolved_refs.
  intros refs Hrefs. cbn beta. apply returns_bind. eapply returns_mono.
  { apply (returns_for_M _ (fun pre out => forall d, d ∈ out <-> exists r, r ∈ pre /\
      (r ∈ gv_refs g -> dangling exists_under_root r) /\
       d = mkDangling (ref_file_path r) (ref_target r) (ref_line r)
                      (EdgeKind_as_str (ref_reference_kind r)))).
    - set_solver.
    - intros pre r post out -> Hout.
      assert (Hg : r ∈ gv_refs g) by (rewrite <- Hrefs; set_solver).
      assert (Hskip : ~ dangling exists_under_root r -> forall d, d ∈ out <-> exists r', r' ∈ pre ++ [r] /\
        (r' ∈ gv_refs g -> dangling exists_under_root r') /\
         d = mkDangling (ref_file_path r') (ref_target r') (ref_line r')
                        (EdgeKind_as_str (ref_reference_kind r'))).
      { intros Hn d. rewrite Hout. setoid_rewrite elem_of_app. setoid_rewrite list_elem_of_singleton.
        naive_solver. }
      destruct (is_path_shaped _ _) eqn:E1; [|skip_ref Hskip].
      destruct (looks_like_path _) eqn:E2; [|skip_ref Hskip].
      destruct (is_excluded_prefix _) eqn:E3; [skip_ref Hskip|].
      destruct (starts_with _ _) eqn:E4; [skip_ref Hskip|].
      destruct (exists_under_root _) eqn:E5; [skip_ref Hskip|].
      cbn. intros d. rewrite elem_of_app, list_elem_of_singleton, Hout.
      assert (dangling exists_under_root r) by done.
      setoid_rewrite elem_of_app. setoid_rewrite list_elem_of_singleton. naive_solver.
    - intros out Hout. exact Hout. }
  intros out Hout. cbn beta in Hout. cbn. split; [apply sort_by_sorted, dangling_le_total|].
  intros d. rewrite elem_of_sort_by, Hout. split.
  - intros (r & Hr & Hd & ->). rewrite Hrefs in Hr. eauto.
  - intros (r & Hd & ->). exists r. rewrite Hrefs. split; [apply Hd|done].
Qed.

(** ** Dynamic reachability *)

Lemma godot_dynamic_reachability_exact node :
  returns (godot_dynamic_reachability st node)
    (fun reach =>
       (SceneOrResourceLink ∈ reached_by reach <->
          exists r, r ∈ gv_refs g /\ ref_reference_name r = node_name node
                    /\ is_godot_non_script_file (ref_language r) = true)
       /\ (Autoload ∈ reached_by reach <->
          exists n, gv_nodes g !! node_id n = Some n /\ node_kind n = NkConstant
                    /\ node_language n = LangGodotProject
                    /\ node_signature n = Some ("autoload -> " +:+ node_file_path node))
       /\ NoDup (reached_by reach) /\ NoDup (dynamic_unresolved reach)
       /\ Sorted (fun a b => str_le a b = true) (dynamic_unresolved reach)
       /\ forall name, name ∈ dynamic_unresolved reach <->
            exists r, r ∈ gv_refs g /\ ref_from_node_id r = node_id node
                      /\ ref_reference_name r = name
                      /\ starts_with name GODOT_DYNAMIC_PREFIX = true).
Proof.
  unfold godot_dynamic_reachability, file_is_autoload_bound.
  returns_step healthy_unresolved_refs_by_names. intros links Hlinks. cbn beta zeta.
  rewrite result_bind_assoc. returns_step healthy_nodes_by_kind. intros consts [_ Hconsts]. cbn [mbind result_bind].
  returns_step healthy_all_unresolved_refs. intros refs Hrefs. cbn [returns reached_by dynamic_unresolved].
  set (b1 := existsb _ links). set (b2 := existsb _ consts).
  assert (Hb1 : b1 = true <-> exists r, r ∈ gv_refs g /\ ref_reference_name r = node_name node
                    /\ is_godot_non_script_file (ref_language r) = true).
  { unfold b1. rewrite existsb_exists'. setoid_rewrite Hlinks.
    setoid_rewrite list_elem_of_singleton. naive_solver. }
  assert (Hb2 : b2 = true <-> exists n, gv_nodes g !! node_id n = Some n /\ node_kind n = NkConstant
                    /\ node_language n = LangGodotProject
                    /\ node_signature n = Some ("autoload -> " +:+ node_file_path node)).
  { unfold b2. rewrite existsb_exists'. setoid_rewrite Hconsts.
    setoid_rewrite andb_true_iff. setoid_rewrite bool_decide_eq_true. naive_solver. }
  clearbody b1 b2. split; [|split; [|split; [|split; [|split]]]].
  - rewrite <- Hb1. destruct b1, b2; set_solver.
  - rewrite <- Hb2. destruct b1, b2; set_solver.
  - destruct b1, b2; repeat constructor; set_solver.
  - apply dedup_sorted_NoDup, sort_by_sorted, str_le_total.
  - apply Sorted_dedup, sort_by_sorted, str_le_total.
  - intros name. rewrite elem_of_dedup, elem_of_sort_by.
    change (map ref_reference_name) with (fmap (M:=list) ref_reference_name).
    rewrite list_elem_of_fmap. setoid_rewrite list_elem_of_filter. setoid_rewrite Hrefs. naive_solver.
Qed.

(** ** Resource impact *)

(** The three sources of an affected row. *)
Definition ref_row (changed : string) (r : UnresolvedRef) : AffectedRef :=
  mkAffected (ref_file_path r) (ref_line r) (EdgeKind_as_str (ref_reference_kind r)) changed
    (ReferenceSubkind_as_str <$> ref_reference_subkind r).

Definition edge_row (changed : string) (source : Node) (line : Z) (e : Edge) : AffectedRef :=
  mkAffected (node_file_path source) (default line (edge_line e)) (EdgeKind_as_str (edge_kind e))
    changed (edge_metadata_subkind e).

Definition by_reference (changed : string) (a : AffectedRef) : Prop :=
  exists r, r ∈ gv_refs g /\ ref_target r = changed /\ a = ref_row changed r.

Definition by_file_edge (changed : string) (a : AffectedRef) : Prop :=
  exists e n, e ∈ gv_edges g /\ edge_target e = file_node_id changed
    /\ edge_kind e ∈ IMPACT_KINDS /\ gv_nodes g !! edge_source e = Some n
    /\ a = edge_row changed n 0 e.

Definition by_import (changed : string) (a : AffectedRef) : Prop :=
  exists n e stripped, gv_nodes g !! node_id n = Some n /\ node_kind n = NkImport
    /\ node_name n = "res://" +:+ stripped /\ strip_res_prefix (normalize_rel stripped) = changed
    /\ e ∈ gv_edges g /\ edge_target e = node_id n /\ edge_kind e = EkImports
    /\ a = edge_row changed n (node_start_line n) e.

(** The loop over the edges into the changed file's node. *)
Lemma file_edges_loop changed base incoming :
  (forall e, e ∈ incoming -> e ∈ gv_edges g) ->
  returns (for_M (fun affected edge =>
      if decide (edge_kind edge ∉ IMPACT_KINDS) then Ok (Continue affected)
      else source ← node_by_id st (edge_source edge);
           match source with
           | Some source =>
               Ok (Continue (affected ++
                 [mkAffected (node_file_path source) (default 0%Z (edge_line edge))
                    (EdgeKind_as_str (edge_kind edge)) changed (edge_metadata_subkind edge)]))
           | None => Ok (Continue affected)
           end) base incoming)
    (fun l => forall a, a ∈ l <-> a ∈ base \/ exists e n, e ∈ incoming
       /\ edge_kind e ∈ IMPACT_KINDS /\ gv_nodes g !! edge_source e = Some n
       /\ a = edge_row changed n 0 e).
Proof.
  intros Hin. apply (returns_for_M _ (fun pre l => forall a, a ∈ l <-> a ∈ base \/ exists e n,
    e ∈ pre /\ edge_kind e ∈ IMPACT_KINDS /\ gv_nodes g !! edge_source e = Some n
    /\ a = edge_row changed n 0 e)); [set_solver| |done].
  intros pre e post l -> Hl. case_decide as Hk.
  - cbn. intros a. rewrite Hl. setoid_rewrite elem_of_app. setoid_rewrite list_elem_of_singleton.
    split; (intros [?|(e' & n & He' & Hk' & ?)]; [by left|right; exists e', n]); [auto|].
    destruct He' as [?| ->]; [auto|by destruct (Hk Hk')].
  - assert (Hki : edge_kind e ∈ IMPACT_KINDS) by (by destruct (decide (edge_kind e ∈ IMPACT_KINDS))).
    destruct (view_source e) as [n Hn]; [apply Hin; set_solver|].
    rewrite healthy_node_by_id, Hn. cbn. intros a.
    rewrite elem_of_app, list_elem_of_singleton, Hl.
    setoid_rewrite elem_of_app. setoid_rewrite list_elem_of_singleton.
    change (mkAffected _ _ _ _ _) with (edge_row changed n 0 e). split.
    + intros [[?|(e' & n' & ? & ?)]| ->]; [by left|right; exists e', n'; auto|right; exists e, n; auto].
    + intros [?|(e' & n' & [?| ->] & ? & Hn' & ->)]; [auto|left; right; exists e', n'; auto|].
      right. congruence.
Qed.

(** The loop over the import nodes. *)
Lemma imports_loop changed base imports :
  returns (for_M (fun affected node =>
      match str_strip_prefix "res://" (node_name node) with
      | None => Ok (Continue affected)
      | Some stripped =>
          if decide (strip_res_prefix (normalize_rel stripped) <> changed)
          then Ok (Continue affected)
          else
            import_edges ← edges_by_target_kind st (node_id node) (Some EkImports);
            Ok (Continue (affected ++
              map (fun edge => mkAffected (node_file_path node)
                                 (default (node_start_line node) (edge_line edge))
                                 (EdgeKind_as_str (edge_kind edge)) changed
                                 (edge_metadata_subkind edge))
                  import_edges))
      end) base imports)
    (fun l => forall a, a ∈ l <-> a ∈ base \/ exists n e stripped, n ∈ imports
       /\ node_name n = "res://" +:+ stripped /\ strip_res_prefix (normalize_rel stripped) = changed
       /\ e ∈ gv_edges g /\ edge_target e = node_id n /\ edge_kind e = EkImports
       /\ a = edge_row changed n (node_start_line n) e).
Proof.
  apply (returns_for_M _ (fun pre l => forall a, a ∈ l <-> a ∈ base \/ exists n e stripped, n ∈ pre
       /\ node_name n = "res://" +:+ stripped /\ strip_res_prefix (normalize_rel stripped) = changed
       /\ e ∈ gv_edges g /\ edge_target e = node_id n /\ edge_kind e = EkImports
       /\ a = edge_row changed n (node_start_line n) e)); [set_solver| |done].
  intros pre n post l _ Hl.
  destruct (str_strip_prefix "res://" (node_name n)) as [stripped|] eqn:Hs.
  2:{ intros a. rewrite Hl. setoid_rewrite elem_of_app. setoid_rewrite list_elem_of_singleton.
      split; (intros [?|(m & e & x & Hm & Hx & ?)]; [by left|]); [right; exists m, e, x; auto|].
      destruct Hm as [?| ->]; [right; exists m, e, x; auto|].
      apply str_strip_prefix_Some in Hx. congruence. }
  assert (Hx : forall x, node_name n = "res://" +:+ x -> x = stripped).
  { intros x Hx%str_strip_prefix_Some. congruence. }
  apply str_strip_prefix_Some in Hs. case_decide as Hc.
  - intros a. rewrite Hl. setoid_rewrite elem_of_app. setoid_rewrite list_elem_of_singleton.
    split; (intros [?|(m & e & x & Hm & Hmx & Hsx & ?)]; [by left|]); [right; exists m, e, x; auto|].
    destruct Hm as [?| ->]; [right; exists m, e, x; auto|]. apply Hx in Hmx as ->. done.
  - returns_step elem_of_edges_by_target. intros es [_ Hes]. cbn.
    intros a. rewrite elem_of_app, Hl.
    etrans; [apply or_iff_compat_l, (list_elem_of_fmap (edge_row changed n (node_start_line n)))|].
    setoid_rewrite Hes. cbn.
    setoid_rewrite elem_of_app. setoid_rewrite list_elem_of_singleton. split.
    + intros [[?|(m & e & x & ? & ?)]|(e & -> & ? & ? & ?)]; [by left|right; exists m, e, x; auto|].
      right. exists n, e, stripped. auto 10.
    + intros [?|(m & e & x & [?| ->] & ? & ? & ? & ? & ? & ->)];
        [auto|left; right; exists m, e, x; auto 10|]. right. eauto.
Qed.

Lemma resource_impact_exact path :
  returns (resource_impact st path)
    (fun impact =>
       ri_changed impact = normalize_rel path
       /\ Sorted (fun a b => affected_le a b = true) (ri_affected impact)
       /\ forall a, a ∈ ri_affected impact <->
            by_reference (normalize_rel path) a \/ by_file_edge (normalize_rel path) a
            \/ by_import (normalize_rel path) a).
Proof.
  unfold resource_impact. set (changed := normalize_rel path). clearbody changed. cbn zeta.
  returns_step healthy_all_unresolved_refs. intros refs Hrefs.
  returns_step elem_of_edges_by_target. intros incoming [_ Hinc].
  apply returns_bind. eapply returns_mono; [apply file_edges_loop; intros e He; by apply Hinc|].
  intros l1 Hl1. cbn beta in Hl1. returns_step healthy_nodes_by_kind. intros imports [_ Himp].
  returns_step imports_loop. intros l2 Hl2. cbn [returns ri_changed ri_affected].
  split; [done|]. split; [apply Sorted_dedup, sort_by_sorted, affected_le_total|].
  intros a. rewrite elem_of_dedup, elem_of_sort_by, Hl2, Hl1.
  etrans; [apply or_iff_compat_r, or_iff_compat_r, (list_elem_of_fmap (ref_row changed))|].
  setoid_rewrite list_elem_of_filter.
  unfold by_reference, by_file_edge, by_import.
  setoid_rewrite Hrefs. setoid_rewrite Hinc. setoid_rewrite Himp. cbn.
  split.
  - intros [[(r & -> & ? & ?)|(e & n & (? & ? & _) & ? & ? & ?)]|(n & e & x & (? & ?) & ?)].
    + left. eauto.
    + right; left. exists e, n. auto.
    + right; right. exists n, e, x. auto.
  - intros [(r & ? & ? & ->)|[(e & n & ? & ? & ? & ? & ?)|(n & e & x & ? & ? & ?)]].
    + left; left. eauto.
    + left; right. exists e, n. auto 10.
    + right. exists n, e, x. auto.
Qed.

End Facts.
