(* ===== verification/Definitions.v ===== *)
(** * Grouping definitions of one name
      (crates/codegraph-graph/src/graph/mod.rs, [group_definitions]) *)
From S2P Require Import Prelude Strings Types.

Record DefinitionGroups : Set := mkGroups {
  groups : list (list Node);
  filtered_out : bool
}.

(** A group belongs to the (file, qualified name) of its first node. *)
Definition group_matches (node : Node) (group : list Node) : bool :=
  match group with
  | head :: _ => String.eqb (node_file_path head) (node_file_path node)
                 && String.eqb (node_qualified_name head) (node_qualified_name node)
  | [] => false
  end.

(** [groups.iter_mut().find(..)] then push, or a new group. *)
Fixpoint push_into_group (groups : list (list Node)) (node : Node) : list (list Node) :=
  match groups with
  | [] => [[node]]
  | group :: groups =>
      if group_matches node group then (group ++ [node]) :: groups
      else group :: push_into_group groups node
  end.

(** The normalized file filter. *)
Definition wanted_path (value : string) : string :=
  trim_start_matches "./" (str_replace "\"%char "/"%char value).

Definition file_matches (wanted : string) (node : Node) : bool :=
  String.eqb (node_file_path node) wanted || ends_with (node_file_path node) ("/" +:+ wanted).

(** [group_definitions]. *)
Definition group_definitions (nodes : list Node) (file_filter : option string) : DefinitionGroups :=
  let wanted := wanted_path <$> file_filter in
  let narrowed := (fun wanted => filter (fun n => file_matches wanted n = true) nodes) <$> wanted in
  let filtered_out := match narrowed with Some [] => true | _ => false end in
  let pool := match narrowed with
              | Some ((_ :: _) as matches) => matches
              | _ => nodes
              end in
  mkGroups (fold_left push_into_group pool []) filtered_out.

(** ** What the groups are *)

Definition def_key (n : Node) : string * string := (node_file_path n, node_qualified_name n).

(** The distinct keys of a list, in order of first occurrence. *)
Definition add_key (keys : list (string * string)) (n : Node) : list (string * string) :=
  if decide (def_key n ∈ keys) then keys else keys ++ [def_key n].

Definition first_keys (pool : list Node) : list (string * string) := fold_left add_key pool [].

(** The nodes of each key, in pool order, keys in order of first occurrence. *)
Definition grouped (pool : list Node) : list (list Node) :=
  map (fun k => filter (fun n => def_key n = k) pool) (first_keys pool).

Lemma group_matches_key node group k :
  group <> [] -> Forall (fun n => def_key n = k) group ->
  group_matches node group = true <-> def_key node = k.
Proof.
  destruct group as [|head l]; [done|]. intros _ Hall. apply Forall_cons in Hall as [<- _].
  unfold group_matches, def_key. rewrite andb_true_iff, !String.eqb_eq. split; [by intros [-> ->]|].
  by intros [= -> ->].
Qed.

(** Pushing into groups that hold one key each. *)
Lemma push_into_group_keys gs keys node :
  NoDup keys -> Forall2 (fun g k => g <> [] /\ Forall (fun n => def_key n = k) g) gs keys ->
  push_into_group gs node
  = if decide (def_key node ∈ keys)
    then zip_with (fun g k => if decide (def_key node = k) then g ++ [node] else g) gs keys
    else gs ++ [[node]].
Proof.
  intros Hnd Hall. revert Hnd. induction Hall as [|g k gs keys [Hne Hg] Hall IH]; intros Hnd; [done|].
  apply NoDup_cons in Hnd as [Hk Hnd]. cbn [push_into_group zip_with].
  pose proof (group_matches_key node g k Hne Hg) as Hm.
  assert (Hrest : forall keys gs, def_key node ∉ keys -> Forall2 (fun g k => g <> [] /\ Forall (fun n => def_key n = k) g) gs keys ->
    zip_with (fun g k => if decide (def_key node = k) then g ++ [node] else g) gs keys = gs).
  { clear. intros keys gs Hno. induction 1 as [|g k gs keys _ _ IH]; cbn; [done|].
    rewrite decide_False by set_solver. f_equal. apply IH. set_solver. }
  destruct (group_matches node g) eqn:Hgm.
  - assert (E : def_key node = k) by (by apply Hm). rewrite !decide_True by set_solver.
    by rewrite Hrest by (rewrite ?E; done).
  - assert (E : def_key node <> k) by (intros E; apply Hm in E; congruence).
    rewrite (decide_False (P := def_key node = k)) by done. rewrite IH by done.
    destruct (decide (def_key node ∈ keys)).
    + by rewrite decide_True by set_solver.
    + by rewrite decide_False by set_solver.
Qed.

Lemma first_keys_snoc pool n : first_keys (pool ++ [n]) = add_key (first_keys pool) n.
Proof. unfold first_keys. by rewrite fold_left_app. Qed.

Lemma elem_of_first_keys pool k : k ∈ first_keys pool <-> k ∈ map def_key pool.
Proof.
  induction pool as [|n pool IH] using rev_ind; [done|].
  rewrite first_keys_snoc, map_app, elem_of_app. cbn. unfold add_key. case_decide; set_solver.
Qed.

Lemma first_keys_NoDup pool : NoDup (first_keys pool).
Proof.
  induction pool as [|n pool IH] using rev_ind; [constructor|].
  rewrite first_keys_snoc. unfold add_key. case_decide; [done|].
  apply NoDup_app. split; [done|]. split; [set_solver|apply NoDup_singleton].
Qed.

Lemma grouped_keys pool :
  Forall2 (fun g k => g <> [] /\ Forall (fun n => def_key n = k) g) (grouped pool) (first_keys pool).
Proof.
  unfold grouped. apply Forall2_fmap_l, Forall_Forall2_diag, Forall_forall. intros k Hk.
  apply elem_of_first_keys in Hk. apply list_elem_of_fmap in Hk as (n & -> & Hn). split.
  - intros E. assert (Hin : n ∈ filter (fun n' => def_key n' = def_key n) pool)
      by (by apply list_elem_of_filter). rewrite E in Hin. set_solver.
  - apply Forall_forall. by intros m [? _]%list_elem_of_filter.
Qed.

Lemma fold_push_grouped pool : fold_left push_into_group pool [] = grouped pool.
Proof.
  induction pool as [|n pool IH] using rev_ind; [done|].
  rewrite fold_left_app, IH. cbn [fold_left].
  rewrite (push_into_group_keys _ (first_keys pool)) by (apply first_keys_NoDup || apply grouped_keys).
  unfold grouped. rewrite first_keys_snoc. unfold add_key.
  assert (Hsnoc : forall k, filter (fun m => def_key m = k) (pool ++ [n])
    = filter (fun m => def_key m = k) pool ++ if decide (def_key n = k) then [n] else []).
  { intros k. rewrite filter_app, filter_cons, filter_nil. done. }
  case_decide as Hin.
  - generalize (first_keys pool). clear -Hsnoc. intros keys.
    induction keys as [|k keys IH]; cbn [map zip_with]; [done|]. rewrite IH, Hsnoc.
    f_equal. case_decide; [done|by rewrite app_nil_r].
  - rewrite map_app. cbn. rewrite Hsnoc, decide_True by done. f_equal.
    + apply map_ext_in. intros k Hk%list_elem_of_In. rewrite Hsnoc, decide_False, app_nil_r; [done|].
      intros <-. done.
    + rewrite elem_of_first_keys in Hin. do 2 f_equal.
      enough (E : filter (fun m => def_key m = def_key n) pool = []) by (by rewrite E).
      clear -Hin. induction pool as [|m pool IH]; [done|]. cbn in Hin.
      rewrite not_elem_of_cons in Hin. rewrite filter_cons, decide_False; [apply IH, Hin|naive_solver].
Qed.

(** The groups hold the pool's nodes, each once. *)
Lemma push_into_group_perm gs n : mjoin (push_into_group gs n) ≡ₚ mjoin gs ++ [n].
Proof.
  induction gs as [|g gs IH]; [done|]. cbn [push_into_group]. destruct group_matches; cbn.
  - rewrite <- !app_assoc. apply Permutation_app_head, Permutation_app_comm.
  - by rewrite IH, app_assoc.
Qed.

Lemma grouped_perm pool : mjoin (grouped pool) ≡ₚ pool.
Proof.
  rewrite <- fold_push_grouped. induction pool as [|n pool IH] using rev_ind; [done|].
  rewrite fold_left_app. cbn [fold_left]. by rewrite push_into_group_perm, IH.
Qed.
