(* ===== verification/Demo.v ===== *)
(** * A small indexed project

    Two Rust files: class [A] of [src/a.rs] contains the methods [run] and
    [stop]; [main] of [src/b.rs] calls [run], [run] calls [stop] and [stop]
    calls [run]; [B] extends [A]. The database is built with the store's own
    operations and read through the concrete codec and scan order, so the
    theorems' witnesses evaluate on it. *)
From S2P Require Import Prelude Types Rows Db DbRefs DbFacts GraphStore StoreView.

#[export] Existing Instance RowOrder.
#[export] Existing Instance RowOrder_laws.

Definition demo_node (id : string) (kind : NodeKind) (name file : string) (line : Z) : Node :=
  mkNode id kind name name file LangRust line (line + 5) 0 1 None None None false false false false
    [] [] None 0.

Definition demo_edge (source target : string) (kind : EdgeKind) (line : option Z) : Edge :=
  mkEdge None source target kind None line ((fun _ => 4%Z) <$> line) None.

Definition demo_nodes : list Node :=
  [demo_node "file:src/a.rs" NkFile "a.rs" "src/a.rs" 1;
   demo_node "class:A" NkClass "A" "src/a.rs" 2;
   demo_node "method:run" NkMethod "run" "src/a.rs" 3;
   demo_node "method:stop" NkMethod "stop" "src/a.rs" 7;
   demo_node "function:main" NkFunction "main" "src/b.rs" 1;
   demo_node "class:B" NkClass "B" "src/b.rs" 9].

Definition demo_edges : list Edge :=
  [demo_edge "file:src/a.rs" "class:A" EkContains None;
   demo_edge "class:A" "method:run" EkContains None;
   demo_edge "class:A" "method:stop" EkContains None;
   demo_edge "function:main" "method:run" EkCalls (Some 2%Z);
   demo_edge "method:run" "method:stop" EkCalls (Some 4%Z);
   demo_edge "method:stop" "method:run" EkCalls (Some 8%Z);
   demo_edge "class:B" "class:A" EkExtends (Some 9%Z);
   demo_edge "class:B" "method:run" EkReferences None].

Definition demo_ref (from name file : string) (line : Z) : UnresolvedRef :=
  mkUnresolvedRef None from name EkCalls line 4 None file LangRust false None.

Definition demo_refs : list UnresolvedRef :=
  [demo_ref "function:main" "helper" "src/b.rs" 3; demo_ref "method:run" "log" "src/a.rs" 5].

Definition demo_file (path : string) : FileRecord :=
  mkFileRecord path "hash" LangRust 100 0 0 3 [] false.

Definition ok_db (m : result SqlError Db) : Db := match m with Ok db => db | _ => empty_db end.

Definition demo_db1 : Db := ok_db (upsert_nodes empty_db demo_nodes).
Definition demo_db2 : Db := ok_db (insert_edges demo_db1 demo_edges).
Definition demo_db3 : Db := ok_db (insert_unresolved_refs demo_db2 demo_refs).
Definition demo_db4 : Db := fst (upsert_file demo_db3 (demo_file "src/a.rs")).
Definition demo_db : Db := fst (upsert_file demo_db4 (demo_file "src/b.rs")).

Lemma demo_reachable : rtc store_step empty_db demo_db.
Proof.
  apply (rtc_l _ _ demo_db1); [apply (step_upsert_nodes _ demo_nodes); by vm_compute|].
  apply (rtc_l _ _ demo_db2); [apply (step_insert_edges _ demo_edges); by vm_compute|].
  apply (rtc_l _ _ demo_db3); [apply (step_insert_refs _ demo_refs); by vm_compute|].
  apply (rtc_l _ _ demo_db4); [apply step_upsert_file|].
  apply (rtc_l _ _ demo_db); [apply step_upsert_file|apply rtc_refl].
Qed.

Lemma demo_wf : wf_db demo_db.
Proof.
  refine (rtc_ind_r wf_db empty_db wf_empty_db _ _ demo_reachable).
  intros d d' _ Hs Hd. by eapply store_step_wf.
Qed.

Definition demo_view : GraphView := view_of demo_db.

Lemma demo_healthy : HealthyStore demo_db demo_view.
Proof. exact (wf_db_healthy demo_db demo_wf). Qed.
