(* ===== verification/StoreProps.v ===== *)
(** * What the index database promises

    The theorems about the [Store] operations, stated on the tables or on the
    graph a database holds, with concrete runs of the operations on a small
    project as witnesses. *)
From S2P Require Import Prelude Types Rows Db DbRefs DbFacts GraphStore StoreView Demo.

(** ** Reading back what was written *)

Section Upsert.
Context `{SqlScanLaws} `{SerdeJsonLaws}.

(** The last of [nodes] with the id [id]: the write that wins. *)
Definition last_written (nodes : list Node) (id : string) : option Node :=
  last (filter (fun n => node_id n = id) nodes).

Lemma last_written_cons n nodes id :
  last_written (n :: nodes) id
  = match last_written nodes id with
    | Some m => Some m
    | None => if decide (node_id n = id) then Some n else None
    end.
Proof.
  unfold last_written. rewrite filter_cons. case_decide; [|by destruct (last _)].
  by rewrite last_cons.
Qed.

Lemma validate_nodes_ok nodes :
  validate_nodes nodes = Ok tt <-> Forall (fun n => node_id n <> "" /\ node_name n <> ""
    /\ node_file_path n <> "" /\ node_qualified_name n <> "") nodes.
Proof.
  induction nodes as [|n nodes IH]; cbn [validate_nodes]; [done|].
  rewrite Forall_cons, <- IH.
  destruct (String.eqb_spec (node_id n) ""), (String.eqb_spec (node_name n) ""),
    (String.eqb_spec (node_file_path n) ""), (String.eqb_spec (node_qualified_name n) "");
    cbn; split; try done; naive_solver.
Qed.

Lemma validate_nodes_Err nodes :
  validate_nodes nodes = Ok tt \/ exists msg, validate_nodes nodes = Err (InvalidParameterName msg).
Proof.
  induction nodes as [|n nodes IH]; cbn [validate_nodes]; [by left|].
  destruct (_ || _ || _ || _); [right; eauto|done].
Qed.

Lemma lookup_upsert_row db n id :
  wf_db db ->
  gv_nodes (view_of (with_nodes db (upsert_node_row (db_nodes db) (node_to_row n)))) !! id
  = if decide (node_id n = id) then Some n else gv_nodes (view_of db) !! id.
Proof.
  intros Hwf. set (db' := with_nodes db _).
  assert (Hwf' : wf_db db').
  { apply (wf_with_nodes db); [done| | |].
    - by apply upsert_node_row_NoDup, wf_node_ids.
    - intros x Hx. rewrite upsert_node_row_ids. case_decide; [done|]. apply elem_of_app. by left.
    - apply Forall_forall. intros r [->|[Hr _]]%elem_of_upsert_node_row; [| |by apply wf_node_ids].
      + rewrite row_to_node_to_row. eauto.
      + by apply (Forall_elem (wf_nodes_parse _ Hwf)). }
  apply option_eq. intros m. rewrite lookup_nodes_view by done. unfold db' at 1. cbn [with_nodes db_nodes].
  setoid_rewrite elem_of_upsert_node_row; [|by apply wf_node_ids]. case_decide as E.
  - split.
    + intros (r & [->|[_ Hne]] & Hid & Hp); [|by rewrite Hid in Hne].
      rewrite row_to_node_to_row in Hp. by injection Hp as ->.
    + intros [= ->]. exists (node_to_row m). rewrite row_to_node_to_row. auto.
  - rewrite lookup_nodes_view by done. split.
    + intros (r & [->|[Hr _]] & Hid & Hp); [by destruct E|eauto].
    + intros (r & Hr & Hid & Hp). exists r. split; [|done]. right. split; [done|].
      rewrite Hid. intros ->. by destruct E.
Qed.

Lemma lookup_upsert_rows db nodes id :
  wf_db db ->
  let rows := fold_left (fun rows node => upsert_node_row rows (node_to_row node)) nodes (db_nodes db) in
  gv_nodes (view_of (with_nodes db rows)) !! id
  = match last_written nodes id with Some n => Some n | None => gv_nodes (view_of db) !! id end.
Proof.
  revert db. induction nodes as [|n nodes IH]; intros db Hwf; cbn; [by destruct db|].
  set (db1 := with_nodes db (upsert_node_row (db_nodes db) (node_to_row n))).
  assert (Hwf1 : wf_db db1).
  { destruct (upsert_rows_fold [n] (db_nodes db) (wf_node_ids _ Hwf)) as (H3 & H4 & H5).
    apply (wf_with_nodes db); [done|done| |].
    - intros x Hx. apply H4. by left.
    - apply Forall_forall. intros r [Hr|(m & _ & ->)]%H5.
      + by apply (Forall_elem (wf_nodes_parse _ Hwf)).
      + rewrite row_to_node_to_row. eauto. }
  specialize (IH db1 Hwf1). cbn in IH. change (with_nodes db1) with (with_nodes db) in IH.
  rewrite IH, last_written_cons. destruct (last_written nodes id); [done|].
  etrans; [exact (lookup_upsert_row db n id Hwf)|]. by case_decide.
Qed.

(** [upsert_nodes] writes what it is given, or nothing: if some node lacks
    an id, a name, a file path or a qualified name the call fails; otherwise it
    succeeds, and afterwards [node_by_id] answers with the last node written
    under that id, or as before for an id that was not written. *)
Theorem upsert_nodes_read_back db nodes :
  wf_db db ->
  (Forall (fun n => node_id n <> "" /\ node_name n <> "" /\ node_file_path n <> ""
                    /\ node_qualified_name n <> "") nodes ->
   returns (upsert_nodes db nodes) (fun db' =>
     forall id, db_node_by_id db' id = match last_written nodes id with
                                       | Some n => Ok (Some n)
                                       | None => db_node_by_id db id
                                       end))
  /\ (~ Forall (fun n => node_id n <> "" /\ node_name n <> "" /\ node_file_path n <> ""
                         /\ node_qualified_name n <> "") nodes ->
      exists msg, upsert_nodes db nodes = Err (InvalidParameterName msg)).
Proof.
  intros Hwf. split.
  - intros Hv%validate_nodes_ok. destruct (upsert_nodes db nodes) as [db'| |] eqn:E;
      unfold upsert_nodes in E; rewrite Hv in E; try done.
    assert (Hwf' : wf_db db') by (eapply upsert_nodes_wf; [exact Hwf|unfold upsert_nodes; by rewrite Hv]).
    cbn in E. injection E as <-. intros id. rewrite !db_node_by_id_ok by done.
    rewrite lookup_upsert_rows by done. by destruct (last_written nodes id).
  - intros Hn. unfold upsert_nodes. destruct (validate_nodes_Err nodes) as [Hok|[msg ->]]; [|by eexists].
    by apply validate_nodes_ok in Hok.
Qed.

End Upsert.

(** ** Inserting edges *)

Section Edges.
Context `{SqlScanLaws} `{SerdeJsonLaws}.

(** [insert_edges] never fails on a well-formed database. It appends rows
    only: each one is an edge of the argument whose two nodes are stored and
    whose identity (source, target, kind, line, column) the table did not hold;
    and afterwards every argument edge whose nodes are stored is in the table. *)
Theorem insert_edges_exact db edges :
  wf_db db ->
  returns (insert_edges db edges) (fun db' =>
    db_nodes db' = db_nodes db /\ db_files db' = db_files db
    /\ db_unresolved_refs db' = db_unresolved_refs db
    /\ db_resolved_refs db' = db_resolved_refs db
    /\ (exists new, db_edges db' = db_edges db ++ new
         /\ NoDup (map edge_identity (db_edges db ++ new))
         /\ Forall (fun r => exists e, e ∈ edges /\ r = edge_to_row (er_id r) e
                      /\ edge_source e ∈ node_ids db /\ edge_target e ∈ node_ids db) new)
    /\ (forall e, e ∈ edges -> edge_source e ∈ node_ids db -> edge_target e ∈ node_ids db ->
          identity_of e ∈ map edge_identity (db_edges db'))).
Proof.
  intros Hwf. eapply returns_mono; [by apply insert_edges_spec|].
  intros db' [Hwf' [En Ef Eu Er _ (new & Enew & Hall) Hpres]].
  split; [done|]. split; [done|]. split; [done|]. split; [done|]. split; [|done].
  exists new. split; [done|]. rewrite <- Enew. split; [exact (wf_edge_identity _ Hwf')|].
  rewrite Forall_forall in *. intros r Hr. destruct (Hall r Hr) as [(e & He & Er') _].
  exists e. split; [done|]. split; [done|].
  assert (Hfk : r ∈ db_edges db') by (rewrite Enew; set_solver).
  apply (Forall_elem (wf_edges_fk _ Hwf')) in Hfk. unfold node_ids in *. rewrite En in Hfk.
  by rewrite Er' in Hfk.
Qed.

(** Inserting the same edges twice is inserting them once. *)
Theorem insert_edges_idempotent db edges db' :
  wf_db db -> insert_edges db edges = Ok db' -> insert_edges db' edges = Ok db'.
Proof.
  intros Hwf E. destruct (returns_Ok_elim _ _ _ (insert_edges_spec db edges Hwf) E) as [Hwf' Hins].
  destruct edges as [|e0 edges']; [done|]. unfold insert_edges.
  set (edges := e0 :: edges') in *. clearbody edges. clear e0 edges'.
  assert (Hids : node_ids db' = node_ids db) by (unfold node_ids; by rewrite (ei_nodes _ _ _ Hins)).
  set (ex := existing_node_ids db' _).
  assert (Hloop : returns (for_M (fun db1 edge =>
      if decide (edge_source edge ∉ ex \/ edge_target edge ∉ ex) then Ok (Continue db1)
      else db2 ← insert_edge_row db1 edge; Ok (Continue db2)) db' edges) (fun d => d = db')).
  { apply returns_for_M_inv; [done|]. intros e d He ->. case_decide as Hm; [done|].
    assert (Hs : edge_source e ∈ ex) by (by destruct (decide (edge_source e ∈ ex)); tauto).
    assert (Ht : edge_target e ∈ ex) by (by destruct (decide (edge_target e ∈ ex)); tauto).
    apply elem_of_existing_node_ids in Hs as [_ Hs], Ht as [_ Ht]. rewrite Hids in *.
    unfold insert_edge_row. rewrite identity_edge_to_row, decide_True; [done|].
    by apply (ei_present _ _ _ Hins). }
  apply returns_iff in Hloop as (d & Hd & ->). exact Hd.
Qed.

End Edges.

(** ** Deleting *)

Section Delete.
Context `{SerdeJson}.

(** A node row outside a file. *)
Lemma kept_node_ids db f id :
  wf_db db ->
  id ∈ map nr_id (filter (fun r => String.eqb (nr_file_path r) f = true) (db_nodes db))
  <-> exists n, gv_nodes (view_of db) !! id = Some n /\ node_file_path n = f.
Proof.
  intros Hwf. rewrite elem_of_map. setoid_rewrite list_elem_of_filter. split.
  - intros (r & -> & Hf%String.eqb_eq & Hr).
    destruct (Forall_elem (wf_nodes_parse _ Hwf) Hr) as [n Hn]. exists n.
    split; [apply lookup_nodes_view; eauto|]. apply row_to_node_fields in Hn as (_ & _ & -> & _). done.
  - intros (n & Hn & Hf). apply lookup_nodes_view in Hn as (r & Hr & <- & Hp); [|done].
    exists r. split; [done|]. split; [|done]. apply String.eqb_eq.
    apply row_to_node_fields in Hp as (_ & _ & <- & _). done.
Qed.

(** [delete_nodes_by_file_path] removes exactly the nodes of the file, and
    with them, through the foreign keys, exactly the edges that touch one of
    them and the references, resolved or not, that start at one of them. *)
Theorem delete_nodes_by_file_path_exact db f :
  wf_db db ->
  let db' := fst (delete_nodes_by_file_path db f) in
  wf_db db'
  /\ (forall id n, gv_nodes (view_of db') !! id = Some n
        <-> gv_nodes (view_of db) !! id = Some n /\ node_file_path n <> f)
  /\ (forall e, e ∈ db_edges db' <-> e ∈ db_edges db
        /\ is_Some (gv_nodes (view_of db') !! er_source e)
        /\ is_Some (gv_nodes (view_of db') !! er_target e))
  /\ (forall r, r ∈ db_unresolved_refs db' ++ db_resolved_refs db'
        <-> r ∈ db_unresolved_refs db ++ db_resolved_refs db
            /\ is_Some (gv_nodes (view_of db') !! rr_from_node_id r)).
Proof.
  intros Hwf db'. assert (Hwf' : wf_db db') by (by apply delete_nodes_where_wf).
  assert (Hnodes : forall id n, gv_nodes (view_of db') !! id = Some n
            <-> gv_nodes (view_of db) !! id = Some n /\ node_file_path n <> f).
  { intros id n. rewrite !lookup_nodes_view by done. unfold db'. cbn.
    setoid_rewrite list_elem_of_filter. setoid_rewrite String.eqb_neq. split.
    - intros (r & [Hne Hr] & Hid & Hp). split; [eauto|].
      by apply row_to_node_fields in Hp as (_ & _ & -> & _).
    - intros [(r & Hr & Hid & Hp) Hne]. exists r. split; [|done]. split; [|done].
      by apply row_to_node_fields in Hp as (_ & _ & <- & _). }
  assert (Hkeep : forall id, is_Some (gv_nodes (view_of db) !! id) ->
            id ∉ map nr_id (filter (fun r => String.eqb (nr_file_path r) f = true) (db_nodes db))
            <-> is_Some (gv_nodes (view_of db') !! id)).
  { intros id [n Hn]. rewrite kept_node_ids by done. split.
    - intros Hno. exists n. apply Hnodes. split; [done|]. intros E. apply Hno. eauto.
    - intros [m [Hm Hne]%Hnodes] (k & Hk & Hf). congruence. }
  split; [done|]. split; [done|]. split.
  - intros e. unfold db' at 1. cbn. rewrite list_elem_of_filter.
    split; intros [H1 H2].
    + destruct (Forall_elem (wf_edges_fk _ Hwf) H2) as [Hs Ht].
      rewrite !Hkeep in H1 by (by apply view_node_is_Some). tauto.
    + destruct (Forall_elem (wf_edges_fk _ Hwf) H1) as [Hs Ht].
      rewrite !Hkeep by (by apply view_node_is_Some). tauto.
  - intros r. unfold db' at 1 2. cbn. rewrite !elem_of_app, !list_elem_of_filter.
    assert (Hr : r ∈ db_unresolved_refs db ++ db_resolved_refs db ->
              is_Some (gv_nodes (view_of db) !! rr_from_node_id r)).
    { intros Hr. apply view_node_is_Some; [done|]. by apply (Forall_elem (wf_refs_fk _ Hwf)). }
    rewrite elem_of_app in Hr. split.
    + intros [[H1 H2]|[H1 H2]]; (split; [auto|]); apply Hkeep in H1; auto.
    + intros [[H1|H1] H2]; [left|right]; (split; [|done]); apply Hkeep; auto.
Qed.

End Delete.

(** ** Moving and replacing references *)

Section References.
Context `{SqlScanLaws} `{SerdeJsonLaws}.

(** Two sorted arrangements of rows with distinct ids are the same list. *)
Lemma sorted_by_id_unique (l1 l2 : list RefRow) :
  l1 ≡ₚ l2 -> NoDup (map rr_id l1) ->
  sort_by (fun a b => Z.leb (rr_id a) (rr_id b)) l1 = sort_by (fun a b => Z.leb (rr_id a) (rr_id b)) l2.
Proof.
  intros Hp Hnd. set (le := fun a b : RefRow => Z.leb (rr_id a) (rr_id b)).
  assert (Htot : forall a b, le a b = true \/ le b a = true)
    by (intros a b; unfold le; rewrite !Z.leb_le; lia).
  assert (Hss : forall l, StronglySorted (fun a b => le a b = true) (sort_by le l)).
  { intros l. apply Sorted_StronglySorted; [|by apply sort_by_sorted].
    intros a b c. unfold le. rewrite !Z.leb_le. lia. }
  apply (StronglySorted_unique_strong (fun a b => le a b = true)); [|apply Hss..|].
  - intros a b Ha Hb. unfold le. rewrite !Z.leb_le. intros H1' H2'.
    apply elem_of_sort_by in Ha, Hb. rewrite <- Hp in Hb.
    apply (NoDup_map_inj rr_id l1); try done. lia.
  - by rewrite !sort_by_perm.
Qed.

(** Resolving moves whole rows: the two tables together do not change. *)
Lemma move_resolved_chunk_perm db c :
  wf_db db ->
  db_unresolved_refs (move_resolved_chunk db c) ++ db_resolved_refs (move_resolved_chunk db c)
  ≡ₚ db_unresolved_refs db ++ db_resolved_refs db.
Proof.
  intros Hwf. unfold move_resolved_chunk. cbn.
  assert (Hall : forall l : list RefRow, (forall r, r ∈ l -> rr_id r ∉ map rr_id (db_resolved_refs db)) ->
            filter (fun r => rr_id r ∉ map rr_id (db_resolved_refs db)) l = l).
  { induction l as [|r l IH]; intros Hl; [done|]. rewrite filter_cons, decide_True by (apply Hl; set_solver).
    f_equal. apply IH. set_solver. }
  rewrite Hall.
  - rewrite (Permutation_app_comm (db_resolved_refs db)), (assoc_L (++)). by rewrite filter_split.
  - intros r [_ Hr]%list_elem_of_filter Hin. pose proof (wf_ref_ids _ Hwf) as Hnd.
    rewrite map_app, NoDup_app in Hnd. destruct Hnd as (_ & Hd & _).
    apply (Hd (rr_id r)); [apply elem_of_map; eauto|done].
Qed.

Lemma delete_resolved_perm db ids :
  wf_db db ->
  db_unresolved_refs (delete_resolved_unresolved_refs db ids)
    ++ db_resolved_refs (delete_resolved_unresolved_refs db ids)
  ≡ₚ db_unresolved_refs db ++ db_resolved_refs db.
Proof.
  destruct ids as [|i ids]; [done|]. cbn -[chunks].
  generalize (chunks SQLITE_PARAM_CHUNK_SIZE (i :: ids)). intros cs. revert db.
  induction cs as [|c cs IH]; intros db Hwf; cbn [fold_left]; [done|].
  rewrite IH by (by apply move_resolved_chunk_wf). by apply move_resolved_chunk_perm.
Qed.

Lemma delete_resolved_unresolved db ids :
  db_unresolved_refs (delete_resolved_unresolved_refs db ids)
  = filter (fun r => rr_id r ∉ ids) (db_unresolved_refs db).
Proof.
  assert (Hgen : forall cs db, db_unresolved_refs (fold_left move_resolved_chunk cs db)
            = filter (fun r => rr_id r ∉ mjoin cs) (db_unresolved_refs db)).
  { induction cs as [|c cs IH]; intros d; cbn [fold_left].
    - symmetry. induction (db_unresolved_refs d) as [|r l IHl]; [done|].
      rewrite filter_cons, decide_True by (cbn; set_solver). by f_equal.
    - rewrite IH. cbn. rewrite list_filter_filter. apply list_filter_iff. intros r.
      rewrite elem_of_app. tauto. }
  unfold delete_resolved_unresolved_refs. destruct ids as [|i ids].
  - symmetry. induction (db_unresolved_refs db) as [|r l IHl]; [done|].
    rewrite filter_cons, decide_True by set_solver. by f_equal.
  - by rewrite Hgen, chunks_concat.
Qed.

(** Settling references ([delete_resolved_unresolved_refs]) removes exactly
    the named rows from the unresolved table and loses nothing: what
    [stored_refs_of_file] answers for any file, content and order, is unchanged. *)
Theorem delete_resolved_keeps_stored_refs db ids f :
  wf_db db ->
  stored_refs_of_file (delete_resolved_unresolved_refs db ids) f = stored_refs_of_file db f
  /\ db_unresolved_refs (delete_resolved_unresolved_refs db ids)
     = filter (fun r => rr_id r ∉ ids) (db_unresolved_refs db).
Proof.
  intros Hwf. split; [|apply delete_resolved_unresolved]. unfold stored_refs_of_file.
  rewrite <- !filter_app.
  erewrite (sorted_by_id_unique (scan_order _ _) (scan_order "stored_refs_of_file"
    (filter (fun r => rr_file_path r = f) (db_unresolved_refs db ++ db_resolved_refs db)))); [done| |].
  - by rewrite !scan_perm, delete_resolved_perm.
  - eapply NoDup_map_submseteq; [|exact (wf_ref_ids _ Hwf)].
    rewrite scan_perm, delete_resolved_perm by done. apply filter_submseteq.
Qed.

(** C24: [replace_resolution_state_from_file] never fails. It deletes exactly
    the edges out of the file's nodes that the resolution predicate selects,
    replaces the file's references, resolved and unresolved, by the given ones
    whose node is stored, and touches nothing else: no node, no file record, no
    [contains] edge and no reference of another file. *)
Theorem replace_resolution_state_from_file_exact db f refs :
  returns (replace_resolution_state_from_file db f refs) (fun '(db', removed) =>
    db_nodes db' = db_nodes db /\ db_files db' = db_files db
    /\ (forall e, e ∈ db_edges db' <-> e ∈ db_edges db /\ ~ resolution_edge_of_file db f e)
    /\ (forall e, e ∈ db_edges db -> er_kind e = "contains" -> e ∈ db_edges db')
    /\ removed + length (db_edges db') = length (db_edges db)
    /\ db_unresolved_refs db'
       = filter (fun r => rr_file_path r <> f) (db_unresolved_refs db)
         ++ ref_rows_from (db_next_ref_id db)
              (filter (fun r => ref_from_node_id r ∈ node_ids db) refs)
    /\ db_resolved_refs db' = filter (fun r => rr_file_path r <> f) (db_resolved_refs db)).
Proof.
  unfold replace_resolution_state_from_file. rewrite replace_file_resolution_in_eq. cbn.
  split; [done|]. split; [done|]. split; [|split; [|split; [|done]]].
  - intros e. rewrite list_elem_of_filter. tauto.
  - intros e He Hk. apply list_elem_of_filter. split; [|done]. intros [_ Hr].
    unfold RESOLUTION_EDGE in Hr. rewrite Hk in Hr. cbn in Hr. done.
  - rewrite <- (filter_split (resolution_edge_of_file db f)
                  (fun e => ~ resolution_edge_of_file db f e) (db_edges db)) at 3 by done.
    rewrite length_app. lia.
Qed.

End References.

(** ** The invariant and the interface *)


(** C26: the store's reads implement what the graph layer assumes of them: on a
    well-formed database each read succeeds and answers from one graph, the
    batched reads (ids and names in chunks of 500) included. *)
Theorem store_reads_refine_graph `{SqlScanLaws} `{SerdeJson} db :
  wf_db db -> HealthyStore db (view_of db).
Proof. apply wf_db_healthy. Qed.


(** The enum columns decode exactly the spellings the writers produce: a
    text parses to a kind only if it is that kind's spelling, and any other text
    is an error naming it. The [edges.kind] reader rejects [function_ref], which
    [edge_kind_of] reads as [references]. *)
Theorem enum_columns_exact :
  (forall s k, parse_node_kind s = Ok k <-> s = NodeKind_as_str k)
  /\ (forall s k, parse_edge_kind s = Ok k <-> s = EdgeKind_as_str k)
  /\ (forall s, (forall k, s <> EdgeKind_as_str k) ->
        parse_edge_kind s = Err (enum_error s "edge kind"))
  /\ (forall s k, edge_kind_of s = Ok k <->
        s = EdgeKind_as_str k \/ s = "function_ref" /\ k = EkReferences).
Proof.
  assert (Hp : forall s k, parse_edge_kind s = Ok k <-> s = EdgeKind_as_str k).
  { intros s k. split; [by intros <-%parse_edge_kind_inv|intros ->; apply parse_edge_kind_as_str]. }
  split; [|split; [done|split]].
  - intros s k. split; [by intros <-%parse_node_kind_inv|intros ->; apply parse_node_kind_as_str].
  - intros s Hs. unfold parse_edge_kind. destruct (edge_kind_named s) as [k|] eqn:E; [|done].
    apply edge_kind_named_inv in E. by destruct (Hs k).
  - intros s k. unfold edge_kind_of. destruct (String.eqb_spec s "function_ref") as [->|Hne].
    + split; [intros [= <-]; by right|]. intros [E|[_ ->]]; [|done]. by destruct k.
    + rewrite <- Hp. unfold parse_edge_kind.
      destruct (edge_kind_named s); split; try (by left); by intros [?|[? _]].
Qed.

(** A [references] edge without a line and without metadata, which no
    extractor writes, makes SQL's three-valued resolution predicate NULL: it is
    not a value reference, yet re-resolving its file keeps it. *)
Theorem coordinate_free_reference_survives `{SqlScanLaws} `{SerdeJson} db f refs e :
  e ∈ db_edges db -> er_kind e = "references" -> er_line e = None -> er_metadata e = None ->
  returns (replace_resolution_state_from_file db f refs) (fun '(db', _) => e ∈ db_edges db').
Proof.
  intros He Hk Hl Hm. unfold replace_resolution_state_from_file.
  rewrite replace_file_resolution_in_eq. cbn. apply list_elem_of_filter. split; [|done].
  intros [_ Hr]. unfold RESOLUTION_EDGE in Hr. rewrite Hk, Hl, Hm in Hr. cbn in Hr.
  done.
Qed.

(** ** Witnesses, on the demo project *)

Lemma upsert_nodes_read_back_witness :
  wf_db demo_db /\ returns (upsert_nodes demo_db [demo_node "class:A" NkClass "A2" "src/c.rs" 1])
    (fun db' => db_node_by_id db' "class:A" = Ok (Some (demo_node "class:A" NkClass "A2" "src/c.rs" 1))
                /\ db_node_by_id db' "class:B" = db_node_by_id demo_db "class:B").
Proof.
  split; [exact demo_wf|].
  eapply returns_mono;
    [apply (proj1 (upsert_nodes_read_back demo_db [demo_node "class:A" NkClass "A2" "src/c.rs" 1] demo_wf));
     by repeat constructor|].
  intros db' H.
  assert (EA : last_written [demo_node "class:A" NkClass "A2" "src/c.rs" 1] "class:A"
               = Some (demo_node "class:A" NkClass "A2" "src/c.rs" 1)) by (by vm_compute).
  assert (EB : last_written [demo_node "class:A" NkClass "A2" "src/c.rs" 1] "class:B" = None)
    by (by vm_compute).
  pose proof (H "class:A") as HA. pose proof (H "class:B") as HB. rewrite EA in HA. rewrite EB in HB.
  split; [exact HA|exact HB].
Defined.

Lemma insert_edges_exact_witness :
  wf_db demo_db
  /\ returns (insert_edges demo_db (demo_edge "class:B" "ghost" EkCalls None :: demo_edges))
       (fun db' => db_nodes db' = db_nodes demo_db
                   /\ forall e, e ∈ demo_edges -> edge_source e ∈ node_ids demo_db ->
                        edge_target e ∈ node_ids demo_db ->
                        identity_of e ∈ map edge_identity (db_edges db')).
Proof.
  split; [exact demo_wf|].
  eapply returns_mono; [exact (insert_edges_exact demo_db _ demo_wf)|].
  intros db' (Hn & _ & _ & _ & _ & H). split; [exact Hn|]. intros e He. apply H. by right.
Defined.

Lemma insert_edges_idempotent_witness :
  wf_db demo_db1 /\ insert_edges demo_db1 demo_edges = Ok demo_db2
  /\ insert_edges demo_db2 demo_edges = Ok demo_db2.
Proof.
  assert (Hwf : wf_db demo_db1)
    by (eapply upsert_nodes_wf; [exact wf_empty_db|instantiate (1 := demo_nodes); by vm_compute]).
  assert (E : insert_edges demo_db1 demo_edges = Ok demo_db2) by (by vm_compute).
  split; [exact Hwf|]. split; [exact E|].
  exact (insert_edges_idempotent demo_db1 demo_edges demo_db2 Hwf E).
Defined.

Lemma delete_nodes_by_file_path_exact_witness :
  wf_db demo_db /\ wf_db (fst (delete_nodes_by_file_path demo_db "src/b.rs"))
  /\ snd (delete_nodes_by_file_path demo_db "src/b.rs") = 2
  /\ length (db_edges (fst (delete_nodes_by_file_path demo_db "src/b.rs"))) = 5.
Proof.
  split; [exact demo_wf|].
  split; [exact (proj1 (delete_nodes_by_file_path_exact demo_db "src/b.rs" demo_wf))|].
  split; by vm_compute.
Defined.

Lemma delete_resolved_keeps_stored_refs_witness :
  wf_db demo_db
  /\ stored_refs_of_file (delete_resolved_unresolved_refs demo_db [2%Z]) "src/a.rs"
     = stored_refs_of_file demo_db "src/a.rs"
  /\ map rr_id (db_unresolved_refs (delete_resolved_unresolved_refs demo_db [2%Z])) = [1%Z].
Proof.
  split; [exact demo_wf|].
  destruct (delete_resolved_keeps_stored_refs demo_db [2%Z] "src/a.rs" demo_wf) as [H ->].
  split; [exact H|by vm_compute].
Defined.

Lemma replace_resolution_state_from_file_exact_witness :
  @SqlScanLaws RowOrder
  /\ returns (replace_resolution_state_from_file demo_db "src/a.rs" demo_refs)
       (fun '(db', removed) => removed = 2
          /\ forall e, e ∈ db_edges demo_db -> er_kind e = "contains" -> e ∈ db_edges db').
Proof.
  split; [exact RowOrder_laws|].
  pose proof (replace_resolution_state_from_file_exact demo_db "src/a.rs" demo_refs) as H.
  assert (Hn : returns (replace_resolution_state_from_file demo_db "src/a.rs" demo_refs)
                 (fun r => snd r = 2)) by (by vm_compute).
  eapply returns_mono; [exact (returns_and _ _ _ H Hn)|].
  intros [db' removed] [(_ & _ & _ & Hc & _) Hr]. split; [exact Hr|exact Hc].
Defined.


Lemma store_reads_refine_graph_witness :
  wf_db demo_db /\ node_by_id demo_db "class:A" = Ok (gv_nodes (view_of demo_db) !! "class:A").
Proof.
  split; [exact demo_wf|].
  exact (@healthy_node_by_id _ _ _ _ (store_reads_refine_graph demo_db demo_wf) "class:A").
Defined.



(** The edge from [B] to [run] of the demo has no line and no metadata. *)
Lemma coordinate_free_reference_survives_witness :
  edge_to_row 8 (demo_edge "class:B" "method:run" EkReferences None) ∈ db_edges demo_db
  /\ returns (replace_resolution_state_from_file demo_db "src/b.rs" [])
       (fun '(db', _) =>
          edge_to_row 8 (demo_edge "class:B" "method:run" EkReferences None) ∈ db_edges db').
Proof.
  assert (Hin : edge_to_row 8 (demo_edge "class:B" "method:run" EkReferences None) ∈ db_edges demo_db).
  { apply (list_elem_of_lookup_2 _ 7). by vm_compute. }
  split; [exact Hin|].
  exact (coordinate_free_reference_survives demo_db "src/b.rs" [] _ Hin eq_refl eq_refl eq_refl).
Defined.
