(* ===== verification/GraphProps.v ===== *)
(** * What the traversals promise

    One theorem per public traversal of [GraphTraverser], for every store that
    answers from a graph ([HealthyStore]) and every fuel above a bound that
    depends on that graph's size only, so each also says that the traversal
    terminates. The witnesses run them on the demo project's database. *)
From S2P Require Import Prelude Strings Types Rows GraphStore GraphCore Callers Impact.
From S2P Require Import Frontier FindPath TraverseBfs TraverseDfs Cycles TypeHierarchy.
From S2P Require Import GodotAudit Definitions Db DbRefs DbFacts StoreView Demo.

Section Walks.
Context {St} `{HS : HealthyStore St st g}.

(** [get_callers] lists one row per (caller, edge kind); every row is a
    stored call, reference, import or instantiation into a symbol less than
    [max_depth] such steps before the start, with the stored caller; and no
    caller within the depth is missing, whatever the order of the edges. *)
Theorem get_callers_exact fuel id max_depth :
  S (size (gv_nodes g)) < fuel ->
  returns (get_callers st fuel id max_depth)
    (walk_exact (g := g) edge_source (calls_into g) id max_depth).
Proof. apply get_callers_walk. Qed.

(** [get_callees] is the mirror image over outgoing edges. *)
Theorem get_callees_exact fuel id max_depth :
  S (size (gv_nodes g)) < fuel ->
  returns (get_callees st fuel id max_depth)
    (walk_exact (g := g) edge_target (calls_out_of g) id max_depth).
Proof. apply get_callees_walk. Qed.

(** Adding the rows of a walk to a subgraph. *)
Lemma fold_add_rows (rows : list NodeEdge) graph :
  ordered graph ->
  let graph' := fold_left (fun graph entry => push_edge (set_node graph (ne_node entry)) (ne_edge entry))
                  rows graph in
  ordered graph' /\ sg_edges graph' = sg_edges graph ++ map ne_edge rows
  /\ forall x, is_Some (sg_nodes graph' !! x)
       <-> is_Some (sg_nodes graph !! x) \/ exists ne, ne ∈ rows /\ node_id (ne_node ne) = x.
Proof.
  revert graph. induction rows as [|ne rows IH]; intros graph Ho; cbn -[set_node push_edge].
  - rewrite app_nil_r. set_solver.
  - destruct (IH (push_edge (set_node graph (ne_node ne)) (ne_edge ne))) as (H1 & H2 & H3);
      [auto with cg|]. split; [done|]. split; [by rewrite H2; cbn; rewrite <- app_assoc|].
    intros x. rewrite H3. cbn. rewrite lookup_insert_is_Some.
    setoid_rewrite elem_of_cons. destruct (decide (node_id (ne_node ne) = x)); naive_solver.
Qed.

(** [get_call_graph] of a stored symbol holds the symbol, its callers and
    its callees within the depth, and one edge per reported row; of an unknown
    id it is empty. *)
Theorem get_call_graph_exact fuel id depth :
  S (size (gv_nodes g)) < fuel ->
  (gv_nodes g !! id = None -> get_call_graph st fuel id depth = Ok Subgraph_empty)
  /\ (is_Some (gv_nodes g !! id) ->
      returns (get_call_graph st fuel id depth) (fun graph => exists callers callees,
        walk_exact (g := g) edge_source (calls_into g) id depth callers
        /\ walk_exact (g := g) edge_target (calls_out_of g) id depth callees
        /\ sg_edges graph = map ne_edge (callers ++ callees)
        /\ ordered graph /\ sg_roots graph = [id]
        /\ forall x, is_Some (sg_nodes graph !! x)
             <-> x = id \/ exists ne, ne ∈ callers ++ callees /\ node_id (ne_node ne) = x)).
Proof.
  intros Hfuel. unfold get_call_graph. split.
  - intros Hn. by rewrite healthy_node_by_id, Hn.
  - intros [n Hn]. rewrite healthy_node_by_id, Hn. cbn [mbind result_bind].
    returns_step get_callers_walk; [done|]. intros callers Hc1.
    returns_step get_callees_walk; [done|]. intros callees Hc2. cbn [returns].
    exists callers, callees.
    destruct (fold_add_rows callers (set_node Subgraph_empty n)) as (O1 & E1 & N1); [auto with cg|].
    destruct (fold_add_rows callees (fold_left (fun graph entry =>
      push_edge (set_node graph (ne_node entry)) (ne_edge entry)) callers (set_node Subgraph_empty n)))
      as (O2 & E2 & N2); [done|].
    split; [done|]. split; [done|]. split; [cbn [set_roots sg_edges]; by rewrite E2, E1, map_app|].
    split; [exact O2|]. split; [done|].
    intros x. cbn [set_roots sg_nodes]. rewrite N2, N1. cbn [set_node sg_nodes Subgraph_empty].
    rewrite (view_key _ _ Hn), lookup_insert_is_Some, lookup_empty, is_Some_alt.
    setoid_rewrite elem_of_app. naive_solver.
Qed.

(** C23: [get_impact_radius] of a stored symbol: its nodes are exactly the ones
    reached from it by at most [max_depth] dependency steps, where the members
    of a container count at the container's depth; its dependency edges are
    exactly the stored ones into a node reached before the last step, each once
    however often a node is re-expanded; of an unknown id it is empty. *)
Theorem get_impact_radius_characterized fuel id max_depth :
  S (size (gv_nodes g)) <= fuel ->
  (gv_nodes g !! id = None -> get_impact_radius st fuel id max_depth = Ok Subgraph_empty)
  /\ (is_Some (gv_nodes g !! id) ->
      returns (get_impact_radius st fuel id max_depth) (radius_exact (g := g) id max_depth)).
Proof.
  intros Hfuel. split.
  - intros Hn. unfold get_impact_radius. by rewrite healthy_node_by_id, Hn.
  - intros [n Hn]. by eapply get_impact_radius_exact.
Qed.

(** C19: [find_path] between stored nodes answers with a path exactly when there
    is one: it starts at [from], each further step is a stored edge of an
    allowed kind out of the node before it, it ends at [to], and no path is
    shorter. The queue accounting is that of a search without waste: no node is
    dequeued twice, and at most one push per stored node. *)
Theorem find_path_shortest fuel from to kinds :
  is_Some (gv_nodes g !! from) -> is_Some (gv_nodes g !! to) -> size (gv_nodes g) < fuel ->
  returns (find_path_instrumented st fuel from to kinds) (fun '(answer, stats) =>
    match answer with
    | Some path => path_to g kinds from path to
                   /\ forall n, nsteps (out_step g kinds) n from to -> length path <= n + 1
    | None => ~ rtc (out_step g kinds) from to
    end
    /\ duplicate_dequeues stats = 0 /\ enqueued stats <= size (gv_nodes g)
    /\ dequeued stats <= enqueued stats).
Proof.
  intros Hf Ht Hfuel. eapply returns_mono; [by apply find_path_instrumented_answer|].
  intros [[path|] stats] [Ha H1 H2 H3]; cbn in *; (split; [|done]); [done|].
  intros [n Hn]%rtc_nsteps. by destruct (Ha n).
Qed.

(** C33: [traverse_bfs] from a stored start returns an ordered subgraph of at
    most [limit] nodes (one if the limit is 0 and the start is included); each
    node is the start or passes the node filter and lies within [max_depth]
    steps; each edge is a stored one of an allowed kind between nodes of the
    subgraph; and if the cap was not hit, every node within [max_depth] steps
    is there. *)
Theorem traverse_bfs_characterized options fuel id :
  1 + size (gv_nodes g) * S (fan_out (g := g) options) < fuel ->
  (gv_nodes g !! id = None -> traverse_bfs st options fuel id = Ok Subgraph_empty)
  /\ (is_Some (gv_nodes g !! id) ->
      returns (traverse_bfs st options fuel id) (bfs_exact (g := g) options id)).
Proof.
  intros Hfuel. split.
  - intros Hn. unfold traverse_bfs. by rewrite healthy_node_by_id, Hn.
  - intros [n Hn]. by eapply traverse_bfs_exact.
Qed.

(** [traverse_dfs] has the same cap and soundness; without a depth bound and
    with the cap not hit it returns exactly what is reachable. *)
Theorem traverse_dfs_characterized options fuel id :
  size (gv_nodes g) < fuel ->
  (gv_nodes g !! id = None -> traverse_dfs st options fuel id = Ok Subgraph_empty)
  /\ (is_Some (gv_nodes g !! id) ->
      returns (traverse_dfs st options fuel id) (dfs_exact (g := g) options id)).
Proof.
  intros Hfuel. split.
  - intros Hn. unfold traverse_dfs. by rewrite healthy_node_by_id, Hn.
  - intros [n Hn]. by eapply traverse_dfs_exact.
Qed.

(** C34: [find_circular_dependencies] reports only real cycles of the file
    dependency graph (without repeated files), and reports one whenever some
    indexed file can reach a cycle. *)
Theorem find_circular_dependencies_correct fuel :
  length (gv_files g) + size (gv_nodes g) < fuel ->
  returns (find_circular_dependencies st fuel) (fun cycles =>
    Forall (is_cycle (file_depends g)) cycles
    /\ (cycles = [] -> forall f x, f ∈ map file_path (gv_files g) ->
          rtc (file_depends g) f x -> ~ tc (file_depends g) x x)).
Proof. apply find_circular_dependencies_ok. Qed.

(** [get_type_hierarchy] of a stored type is the type with its transitive
    supertypes, a tree of [extends] and [implements] edges; as the two walks
    share one visited set, it never lists a subtype. *)
Theorem get_type_hierarchy_supertypes fuel id :
  size (gv_nodes g) < fuel ->
  (gv_nodes g !! id = None -> get_type_hierarchy st fuel id = Ok Subgraph_empty)
  /\ (is_Some (gv_nodes g !! id) ->
      returns (get_type_hierarchy st fuel id) (hierarchy_exact (g := g) id)).
Proof.
  intros Hfuel. split.
  - intros Hn. unfold get_type_hierarchy. by rewrite healthy_node_by_id, Hn.
  - intros [n Hn]. by eapply get_type_hierarchy_exact.
Qed.

(** [get_ancestors] climbs the containment chain: each node contains the one
    before it, only the last can repeat an earlier one, and the chain stops at a
    node nothing contains or where it has come back to itself. *)
Theorem get_ancestors_chain fuel id :
  size (gv_nodes g) + 1 < fuel ->
  returns (get_ancestors st fuel id) (fun l =>
    contained_in (g := g) id l /\ chain_complete (g := g) id l
    /\ NoDup (map node_id (removelast l))).
Proof. apply get_ancestors_ok. Qed.

(** [find_orphan_resources] lists, sorted by path and each once, exactly the
    scene and resource files whose path no reference names, all with low
    confidence and the note (the high-confidence branch is never taken). *)
Theorem find_orphan_resources_correct :
  returns (find_orphan_resources st) (fun l =>
    Sorted (fun a b => str_le (orphan_file_path a) (orphan_file_path b) = true) l
    /\ NoDup (map orphan_file_path l)
    /\ forall o, o ∈ l <-> exists f, orphaned (g := g) f
         /\ o = mkOrphan (file_path f) "no_path_reference" "low" (Some ORPHAN_NOTE)).
Proof. apply find_orphan_resources_exact. Qed.

(** [find_dangling_references] lists, sorted by (file, target, line), exactly
    the path-like references whose target is neither excluded nor computed nor
    present under the project root. *)
Theorem find_dangling_references_correct exists_under_root :
  returns (find_dangling_references st exists_under_root) (fun l =>
    Sorted (fun a b => dangling_le a b = true) l
    /\ forall d, d ∈ l <-> exists r, dangling (g := g) exists_under_root r
         /\ d = mkDangling (ref_file_path r) (ref_target r) (ref_line r)
               (EdgeKind_as_str (ref_reference_kind r))).
Proof. apply find_dangling_references_exact. Qed.

(** [resource_impact] lists, sorted by (file, line), exactly the rows of its
    three sources: references naming the changed path, dependency edges into its
    file node, and import edges into an import node that names it. *)
Theorem resource_impact_correct path :
  returns (resource_impact st path) (fun impact =>
    ri_changed impact = normalize_rel path
    /\ Sorted (fun a b => affected_le a b = true) (ri_affected impact)
    /\ forall a, a ∈ ri_affected impact <->
         by_reference (g := g) (normalize_rel path) a \/ by_file_edge (g := g) (normalize_rel path) a
         \/ by_import (g := g) (normalize_rel path) a).
Proof. apply resource_impact_exact. Qed.

(** [godot_dynamic_reachability] reports a scene link exactly when a
    reference of that name comes from a non-script Godot file, an autoload
    exactly when a project constant binds the symbol's file, and the computed
    references of the symbol, sorted and each once. *)
Theorem godot_dynamic_reachability_correct node :
  returns (godot_dynamic_reachability st node) (fun reach =>
    (SceneOrResourceLink ∈ reached_by reach <->
       exists r, r ∈ gv_refs g /\ ref_reference_name r = node_name node
                 /\ is_godot_non_script_file (ref_language r) = true)
    /\ (Autoload ∈ reached_by reach <->
       exists n, gv_nodes g !! node_id n = Some n /\ node_kind n = NkConstant
                 /\ node_language n = LangGodotProject
                 /\ node_signature n = Some ("autoload -> " +:+ node_file_path node))
    /\ NoDup (reached_by reach) /\ NoDup (dynamic_unresolved reach)
    /\ Sorted (fun a b => str_le a b = true) (dynamic_unresolved reach)
    /\ forall name, name ∈ dynamic_unresolved reach <->
         exists r, r ∈ gv_refs g /\ ref_from_node_id r = node_id node
                   /\ ref_reference_name r = name
                   /\ starts_with name GODOT_DYNAMIC_PREFIX = true).
Proof. apply godot_dynamic_reachability_exact. Qed.

End Walks.

(** [group_definitions] splits its pool, the nodes matching the file filter
    or all of them when none does, by (file path, qualified name): groups in
    order of first appearance, each holding its nodes in pool order, together a
    permutation of the pool; and it discloses the fallback. *)
Theorem group_definitions_partition nodes file_filter :
  let matching := match file_filter with
                  | Some f => filter (fun n => file_matches (wanted_path f) n = true) nodes
                  | None => nodes
                  end in
  let pool := match matching with [] => nodes | _ => matching end in
  groups (group_definitions nodes file_filter) = grouped pool
  /\ mjoin (groups (group_definitions nodes file_filter)) ≡ₚ pool
  /\ NoDup (first_keys pool)
  /\ (filtered_out (group_definitions nodes file_filter) = true
      <-> is_Some file_filter /\ matching = []).
Proof.
  intros matching pool.
  assert (Eg : groups (group_definitions nodes file_filter) = grouped pool).
  { unfold group_definitions, pool, matching. cbn [groups]. rewrite fold_push_grouped. f_equal.
    destruct file_filter as [f|]; cbn [fmap option_fmap option_map]; [|by destruct nodes].
    by destruct (filter (fun n => file_matches (wanted_path f) n = true) nodes). }
  split; [exact Eg|]. split; [rewrite Eg; apply grouped_perm|]. split; [apply first_keys_NoDup|].
  unfold group_definitions, matching. cbn [filtered_out]. destruct file_filter as [f|]; cbn [fmap option_fmap option_map].
  - destruct (filter (fun n => file_matches (wanted_path f) n = true) nodes); split; try done.
    by intros [_ ?].
  - split; [done|by intros [[? ?] _]].
Qed.

(** ** Witnesses, on the demo project *)

Lemma demo_size : size (gv_nodes demo_view) = 6.
Proof. by vm_compute. Qed.

Lemma demo_edges_length : length (gv_edges demo_view) = 8.
Proof. by vm_compute. Qed.

Lemma demo_files_length : length (gv_files demo_view) = 2.
Proof. by vm_compute. Qed.

Lemma demo_stored id : id ∈ map node_id demo_nodes -> is_Some (gv_nodes demo_view !! id).
Proof.
  intros Hid. apply view_node_is_Some; [exact demo_wf|].
  assert (E : node_ids demo_db = map node_id demo_nodes) by (by vm_compute). by rewrite E.
Qed.

Lemma get_callers_exact_witness :
  S (size (gv_nodes demo_view)) < 8
  /\ (map (fun ne => node_id (ne_node ne)) <$> get_callers demo_db 8 "method:stop" 2)
     = Ok ["method:run"; "function:main"; "method:stop"; "class:B"]
  /\ returns (get_callers demo_db 8 "method:stop" 2)
       (walk_exact (g := demo_view) edge_source (calls_into demo_view) "method:stop" 2).
Proof.
  assert (H : S (size (gv_nodes demo_view)) < 8) by (rewrite demo_size; lia).
  split; [exact H|]. split; [by vm_compute|].
  exact (@get_callers_exact _ _ _ _ demo_healthy 8 "method:stop" 2 H).
Defined.

Lemma get_callees_exact_witness :
  S (size (gv_nodes demo_view)) < 8
  /\ (map (fun ne => node_id (ne_node ne)) <$> get_callees demo_db 8 "function:main" 3)
     = Ok ["method:run"; "method:stop"]
  /\ returns (get_callees demo_db 8 "function:main" 3)
       (walk_exact (g := demo_view) edge_target (calls_out_of demo_view) "function:main" 3).
Proof.
  assert (H : S (size (gv_nodes demo_view)) < 8) by (rewrite demo_size; lia).
  split; [exact H|]. split; [by vm_compute|].
  exact (@get_callees_exact _ _ _ _ demo_healthy 8 "function:main" 3 H).
Defined.

Lemma get_call_graph_exact_witness :
  S (size (gv_nodes demo_view)) < 8
  /\ get_call_graph demo_db 8 "ghost" 2 = Ok Subgraph_empty.
Proof.
  assert (H : S (size (gv_nodes demo_view)) < 8) by (rewrite demo_size; lia).
  assert (Hg : gv_nodes demo_view !! "ghost" = None) by (by vm_compute).
  split; [exact H|].
  exact (proj1 (@get_call_graph_exact _ _ _ _ demo_healthy 8 "ghost" 2 H) Hg).
Defined.

Lemma get_impact_radius_characterized_witness :
  S (size (gv_nodes demo_view)) <= 7
  /\ (sg_node_order <$> get_impact_radius demo_db 7 "class:A" 1)
     = Ok ["class:A"; "method:run"; "function:main"; "method:stop"; "class:B"]
  /\ returns (get_impact_radius demo_db 7 "class:A" 1) (radius_exact (g := demo_view) "class:A" 1).
Proof.
  assert (H : S (size (gv_nodes demo_view)) <= 7) by (rewrite demo_size; lia).
  split; [exact H|]. split; [by vm_compute|].
  refine (proj2 (@get_impact_radius_characterized _ _ _ _ demo_healthy 7 "class:A" 1 H) _).
  apply demo_stored. apply (bool_decide_unpack _). by vm_compute.
Defined.

Lemma find_path_shortest_witness :
  is_Some (gv_nodes demo_view !! "function:main") /\ is_Some (gv_nodes demo_view !! "method:stop")
  /\ size (gv_nodes demo_view) < 7
  /\ returns (find_path_instrumented demo_db 7 "function:main" "method:stop" [])
       (fun '(answer, stats) => match answer with
          | Some path => path_to demo_view [] "function:main" path "method:stop"
          | None => ~ rtc (out_step demo_view []) "function:main" "method:stop"
          end /\ duplicate_dequeues stats = 0).
Proof.
  assert (H1 : is_Some (gv_nodes demo_view !! "function:main"))
    by (apply demo_stored; apply (bool_decide_unpack _); by vm_compute).
  assert (H2 : is_Some (gv_nodes demo_view !! "method:stop"))
    by (apply demo_stored; apply (bool_decide_unpack _); by vm_compute).
  assert (H3 : size (gv_nodes demo_view) < 7) by (rewrite demo_size; lia).
  split; [exact H1|]. split; [exact H2|]. split; [exact H3|].
  eapply returns_mono;
    [exact (@find_path_shortest _ _ _ _ demo_healthy 7 "function:main" "method:stop" [] H1 H2 H3)|].
  intros [[path|] stats] (Ha & Hd & _); [split; [exact (proj1 Ha)|exact Hd]|split; [exact Ha|exact Hd]].
Defined.

Definition demo_options : TraversalOptions :=
  mkOptions (Some 2) [EkCalls; EkContains] [] Both 3 true.

Lemma traverse_bfs_characterized_witness :
  1 + size (gv_nodes demo_view) * S (fan_out (g := demo_view) demo_options) < 400
  /\ (sg_node_order <$> traverse_bfs demo_db demo_options 400 "method:run")
     = Ok ["method:run"; "class:A"; "method:stop"]
  /\ returns (traverse_bfs demo_db demo_options 400 "method:run")
       (bfs_exact (g := demo_view) demo_options "method:run").
Proof.
  assert (H : 1 + size (gv_nodes demo_view) * S (fan_out (g := demo_view) demo_options) < 400)
    by (unfold fan_out; rewrite demo_size, demo_edges_length; cbn; lia).
  split; [exact H|]. split; [by vm_compute|].
  refine (proj2 (@traverse_bfs_characterized _ _ _ _ demo_healthy demo_options 400 "method:run" H) _).
  apply demo_stored. apply (bool_decide_unpack _). by vm_compute.
Defined.

Lemma traverse_dfs_characterized_witness :
  size (gv_nodes demo_view) < 7
  /\ (sg_node_order <$> traverse_dfs demo_db TraversalOptions_default 7 "function:main")
     = Ok ["function:main"; "method:run"; "method:stop"]
  /\ returns (traverse_dfs demo_db TraversalOptions_default 7 "function:main")
       (dfs_exact (g := demo_view) TraversalOptions_default "function:main").
Proof.
  assert (H : size (gv_nodes demo_view) < 7) by (rewrite demo_size; lia).
  split; [exact H|]. split; [by vm_compute|].
  refine (proj2 (@traverse_dfs_characterized _ _ _ _ demo_healthy TraversalOptions_default 7 _ H) _).
  apply demo_stored. apply (bool_decide_unpack _). by vm_compute.
Defined.

Lemma find_circular_dependencies_correct_witness :
  length (gv_files demo_view) + size (gv_nodes demo_view) < 9
  /\ find_circular_dependencies demo_db 9 = Ok []
  /\ returns (find_circular_dependencies demo_db 9)
       (fun cycles => Forall (is_cycle (file_depends demo_view)) cycles).
Proof.
  assert (H : length (gv_files demo_view) + size (gv_nodes demo_view) < 9)
    by (rewrite demo_size, demo_files_length; lia).
  split; [exact H|]. split; [by vm_compute|].
  eapply returns_mono; [exact (@find_circular_dependencies_correct _ _ _ _ demo_healthy 9 H)|].
  intros cycles [Hc _]. exact Hc.
Defined.

Lemma get_type_hierarchy_supertypes_witness :
  size (gv_nodes demo_view) < 7
  /\ (sg_node_order <$> get_type_hierarchy demo_db 7 "class:B") = Ok ["class:B"; "class:A"]
  /\ returns (get_type_hierarchy demo_db 7 "class:B") (hierarchy_exact (g := demo_view) "class:B").
Proof.
  assert (H : size (gv_nodes demo_view) < 7) by (rewrite demo_size; lia).
  split; [exact H|]. split; [by vm_compute|].
  refine (proj2 (@get_type_hierarchy_supertypes _ _ _ _ demo_healthy 7 "class:B" H) _).
  apply demo_stored. apply (bool_decide_unpack _). by vm_compute.
Defined.

Lemma get_ancestors_chain_witness :
  size (gv_nodes demo_view) + 1 < 8
  /\ (map node_id <$> get_ancestors demo_db 8 "method:run") = Ok ["class:A"; "file:src/a.rs"]
  /\ returns (get_ancestors demo_db 8 "method:run")
       (fun l => contained_in (g := demo_view) "method:run" l).
Proof.
  assert (H : size (gv_nodes demo_view) + 1 < 8) by (rewrite demo_size; lia).
  split; [exact H|]. split; [by vm_compute|].
  eapply returns_mono; [exact (@get_ancestors_chain _ _ _ _ demo_healthy 8 "method:run" H)|].
  intros l [Hl _]. exact Hl.
Defined.

Lemma find_orphan_resources_correct_witness :
  HealthyStore demo_db demo_view /\ returns (find_orphan_resources demo_db)
    (fun l => NoDup (map orphan_file_path l)).
Proof.
  split; [exact demo_healthy|].
  eapply returns_mono; [exact (@find_orphan_resources_correct _ _ _ _ demo_healthy)|].
  intros l (_ & Hl & _). exact Hl.
Defined.

Lemma find_dangling_references_correct_witness :
  HealthyStore demo_db demo_view /\ returns (find_dangling_references demo_db (fun _ => false))
    (fun l => Sorted (fun a b => dangling_le a b = true) l).
Proof.
  split; [exact demo_healthy|].
  eapply returns_mono;
    [exact (@find_dangling_references_correct _ _ _ _ demo_healthy (fun _ => false))|].
  intros l [Hl _]. exact Hl.
Defined.

Lemma resource_impact_correct_witness :
  HealthyStore demo_db demo_view
  /\ (length <$> (ri_affected <$> resource_impact demo_db "helper")) = Ok 1
  /\ returns (resource_impact demo_db "helper")
       (fun impact => Sorted (fun a b => affected_le a b = true) (ri_affected impact)).
Proof.
  split; [exact demo_healthy|]. split; [by vm_compute|].
  eapply returns_mono; [exact (@resource_impact_correct _ _ _ _ demo_healthy "helper")|].
  intros impact (_ & H & _). exact H.
Defined.

Lemma godot_dynamic_reachability_correct_witness :
  HealthyStore demo_db demo_view
  /\ returns (godot_dynamic_reachability demo_db (demo_node "class:A" NkClass "A" "src/a.rs" 2))
       (fun reach => NoDup (dynamic_unresolved reach)).
Proof.
  split; [exact demo_healthy|].
  eapply returns_mono; [exact (@godot_dynamic_reachability_correct _ _ _ _ demo_healthy
    (demo_node "class:A" NkClass "A" "src/a.rs" 2))|].
  intros reach (_ & _ & _ & H & _). exact H.
Defined.
