(* ===== verification/FsModel.v ===== *)
(** * The part of [std::fs] the index state uses, on a Unix file system

    A path is its list of components. A file system is a name map, an object
    per inode, what has not yet reached the disk, and an oracle that may make
    any operation fail at any time. An open handle is the inode it was opened
    on, so it keeps reading the object after the name is gone. [crash] relates
    a state to every state a power loss may leave behind. *)
From S2P Require Import Prelude.

Definition Path := list string.
Definition Inode := N.

(** [Path::join] of a file name, [Path::parent], [Path::file_name]. *)
Definition path_join (p : Path) (name : string) : Path := p ++ [name].
Definition parent (p : Path) : option Path :=
  match reverse p with [] => None | _ :: r => Some (reverse r) end.

(** [io::ErrorKind] as far as the code looks at it, and [io::Error]. *)
Inductive ErrorKind := NotFound | AlreadyExists | Unsupported | OtherKind.

#[export] Instance ErrorKind_eq_dec : EqDecision ErrorKind.
Proof. solve_decision. Defined.

Record IoError := mkIoError {
  io_kind : ErrorKind;
  raw_os_error : option Z;
  io_detail : string }.

Inductive FileObject :=
| Regular (bytes : string)
| Directory
| Symlink (target : Path)
| Special.

Inductive FsOp :=
| OpStat | OpOpen | OpFstat | OpRead | OpCreate | OpWrite | OpFlush | OpSync
| OpRemove | OpRename.

(** A failure the environment injects. It never reports [NotFound]: that kind
    is reserved for a name that is not there. A failed write may have written
    some of its bytes. *)
Record Fault := mkFault {
  fault_unsupported : bool;
  fault_os_error : option Z;
  fault_detail : string;
  fault_written : nat }.

Definition fault_error (f : Fault) : IoError :=
  {| io_kind := if fault_unsupported f then Unsupported else OtherKind;
     raw_os_error := fault_os_error f;
     io_detail := fault_detail f |}.

Record Fs := mkFs {
  fs_names : gmap Path Inode;
  fs_objects : gmap Inode FileObject;
  fs_next : Inode;
  fs_dirty : gset Inode;                 (* contents not yet synchronized *)
  fs_older : list (gmap Path Inode);     (* name maps since the last directory sync *)
  fs_clock : nat;
  fs_fault : nat -> FsOp -> Path -> option Fault }.

(** An operation of the file system. *)
Definition io (A : Type) : Type := Fs -> Fs * (A + IoError).

Definition tick (fs : Fs) : Fs :=
  mkFs (fs_names fs) (fs_objects fs) (fs_next fs) (fs_dirty fs) (fs_older fs)
       (S (fs_clock fs)) (fs_fault fs).

Definition set_names (names : gmap Path Inode) (fs : Fs) : Fs :=
  mkFs names (fs_objects fs) (fs_next fs) (fs_dirty fs) (fs_names fs :: fs_older fs)
       (fs_clock fs) (fs_fault fs).

Definition set_object (i : Inode) (o : FileObject) (fs : Fs) : Fs :=
  mkFs (fs_names fs) (<[i := o]> (fs_objects fs)) (fs_next fs) ({[i]} ∪ fs_dirty fs)
       (fs_older fs) (fs_clock fs) (fs_fault fs).

Definition not_found : IoError := mkIoError NotFound (Some 2%Z) "No such file or directory".
Definition already_exists : IoError := mkIoError AlreadyExists (Some 17%Z) "File exists".
Definition is_a_directory : IoError := mkIoError OtherKind (Some 21%Z) "Is a directory".
Definition too_many_links : IoError :=
  mkIoError OtherKind (Some 40%Z) "Too many levels of symbolic links".

(** One operation at [p]: the oracle may make it fail; otherwise [k] runs. *)
Definition attempt {A} (op : FsOp) (p : Path) (k : io A) : io A := fun fs =>
  match fs_fault fs (fs_clock fs) op p with
  | Some f => (tick fs, inr (fault_error f))
  | None => k (tick fs)
  end.

(** [fs::Metadata]: the identity [(dev, ino)] and the file type. *)
Record Metadata := mkMetadata { meta_identity : Inode; meta_object : FileObject }.
Definition is_file (m : Metadata) : bool :=
  match meta_object m with Regular _ => true | _ => false end.
Definition is_dir (m : Metadata) : bool :=
  match meta_object m with Directory => true | _ => false end.
Definition is_symlink (m : Metadata) : bool :=
  match meta_object m with Symlink _ => true | _ => false end.

Definition lookup_path (p : Path) (fs : Fs) : option (Inode * FileObject) :=
  i ← fs_names fs !! p; o ← fs_objects fs !! i; Some (i, o).

(** [fs::symlink_metadata]: does not follow a symbolic link. *)
Definition symlink_metadata (p : Path) : io Metadata := attempt OpStat p (fun fs =>
  match lookup_path p fs with
  | Some (i, o) => (fs, inl (mkMetadata i o))
  | None => (fs, inr not_found)
  end).

(** The object [p] names once symbolic links are followed, [links] at most. *)
Fixpoint follow (links : nat) (p : Path) (fs : Fs) : Inode + IoError :=
  match lookup_path p fs with
  | None => inr not_found
  | Some (i, Symlink target) =>
      match links with 0 => inr too_many_links | S links => follow links target fs end
  | Some (i, _) => inl i
  end.

(** [File::open]: the handle is the inode. *)
Definition open (p : Path) : io Inode := attempt OpOpen p (fun fs => (fs, follow 40 p fs)).

(** [File::metadata] of an open handle; [p] is the path it was opened by. *)
Definition file_metadata (p : Path) (h : Inode) : io Metadata := attempt OpFstat p (fun fs =>
  match fs_objects fs !! h with
  | Some o => (fs, inl (mkMetadata h o))
  | None => (fs, inr not_found)
  end).

(** [Read::read_to_end] from the start of the file. *)
Definition read_to_end (p : Path) (h : Inode) : io string := attempt OpRead p (fun fs =>
  match fs_objects fs !! h with
  | Some (Regular bytes) => (fs, inl bytes)
  | _ => (fs, inr is_a_directory)
  end).

(** [OpenOptions::new().write(true).create_new(true).open]. *)
Definition create_new (p : Path) : io Inode := attempt OpCreate p (fun fs =>
  match fs_names fs !! p with
  | Some _ => (fs, inr already_exists)
  | None =>
      let i := fs_next fs in
      (mkFs (<[p := i]> (fs_names fs)) (<[i := Regular EmptyString]> (fs_objects fs))
            (i + 1)%N ({[i]} ∪ fs_dirty fs) (fs_names fs :: fs_older fs)
            (fs_clock fs) (fs_fault fs), inl i)
  end).

(** [Write::write_all]: appends; a failure may leave a part written. *)
Definition append (h : Inode) (bytes : string) (fs : Fs) : Fs :=
  match fs_objects fs !! h with
  | Some (Regular old) => set_object h (Regular (old +:+ bytes)) fs
  | _ => fs
  end.
Definition write_all (p : Path) (h : Inode) (bytes : string) : io unit := fun fs =>
  match fs_fault fs (fs_clock fs) OpWrite p with
  | Some f => (append h (String.substring 0 (fault_written f) bytes) (tick fs),
               inr (fault_error f))
  | None => (append h bytes (tick fs), inl tt)
  end.

(** [Write::flush] of a [File] has nothing buffered to write. *)
Definition flush (p : Path) : io unit := attempt OpFlush p (fun fs => (fs, inl tt)).

(** [File::sync_all]: a file's contents reach the disk; a directory's entries do. *)
Definition sync_all (p : Path) (h : Inode) : io unit := attempt OpSync p (fun fs =>
  match fs_objects fs !! h with
  | Some Directory =>
      (mkFs (fs_names fs) (fs_objects fs) (fs_next fs) (fs_dirty fs) []
            (fs_clock fs) (fs_fault fs), inl tt)
  | _ =>
      (mkFs (fs_names fs) (fs_objects fs) (fs_next fs) (fs_dirty fs ∖ {[h]}) (fs_older fs)
            (fs_clock fs) (fs_fault fs), inl tt)
  end).

(** [fs::remove_file]: unlinks the name. *)
Definition remove_file (p : Path) : io unit := attempt OpRemove p (fun fs =>
  match lookup_path p fs with
  | None => (fs, inr not_found)
  | Some (_, Directory) => (fs, inr is_a_directory)
  | Some _ => (set_names (delete p (fs_names fs)) fs, inl tt)
  end).

(** [fs::rename]: replaces what [q] names, unless that is a directory. *)
Definition rename (p q : Path) : io unit := attempt OpRename q (fun fs =>
  match fs_names fs !! p with
  | None => (fs, inr not_found)
  | Some i =>
      match lookup_path q fs with
      | Some (_, Directory) => (fs, inr is_a_directory)
      | _ => (set_names (<[q := i]> (delete p (fs_names fs))) fs, inl tt)
      end
  end).

(** What a power loss, or none, may leave: each name has one of the values it
    had since the last directory sync, an unsynchronized file has any bytes,
    everything else is intact, and nothing fails afterwards. *)
Record crash (fs fs' : Fs) : Prop := {
  crash_names : forall p, exists m, m ∈ fs_names fs :: fs_older fs /\
                          fs_names fs' !! p = m !! p;
  crash_objects : forall i, i ∉ fs_dirty fs -> fs_objects fs' !! i = fs_objects fs !! i;
  crash_quiet : forall n op p, fs_fault fs' n op p = None }.

(** Only the clock differs. *)
Definition same_disk (fs fs' : Fs) : Prop :=
  fs_names fs' = fs_names fs /\ fs_objects fs' = fs_objects fs /\
  fs_next fs' = fs_next fs /\ fs_dirty fs' = fs_dirty fs /\
  fs_older fs' = fs_older fs /\ fs_fault fs' = fs_fault fs.

#[export] Instance same_disk_preorder : PreOrder same_disk.
Proof.
  split; [by intros fs|].
  intros a b c (?&?&?&?&?&?) (?&?&?&?&?&?). unfold same_disk. intuition congruence.
Qed.

(** Every name leads to an object and every inode in use is below the next. *)
Record wf_fs (fs : Fs) : Prop := {
  wf_named : forall p i, fs_names fs !! p = Some i -> is_Some (fs_objects fs !! i);
  wf_allocated : forall i, is_Some (fs_objects fs !! i) -> (i < fs_next fs)%N }.

(** ** Facts *)

Lemma parent_path_join p name : parent (path_join p name) = Some p.
Proof. unfold parent, path_join. by rewrite reverse_snoc, reverse_involutive. Qed.

Lemma path_join_inj p q a b : path_join p a = path_join q b -> p = q /\ a = b.
Proof. unfold path_join. intros H. apply app_inj_tail in H. done. Qed.

Lemma tick_same_disk fs : same_disk fs (tick fs).
Proof. by repeat split. Qed.

Lemma same_disk_lookup fs fs' p : same_disk fs fs' -> lookup_path p fs' = lookup_path p fs.
Proof. intros (Hn & Ho & _). unfold lookup_path. by rewrite Hn, Ho. Qed.

Lemma same_disk_follow fs fs' : same_disk fs fs' -> forall links p, follow links p fs' = follow links p fs.
Proof.
  intros Hs links. induction links as [|links IH]; intros p; cbn;
    rewrite (same_disk_lookup _ _ _ Hs); destruct (lookup_path p fs) as [[i []]|]; auto.
Qed.

Lemma follow_directory links p fs i :
  lookup_path p fs = Some (i, Directory) -> follow links p fs = inl i.
Proof. intros H. destruct links; cbn -[lookup_path]; by rewrite H. Qed.

(** What a successful look says of the disk before it and after it. *)
Lemma stat_ok p fs fs' m :
  symlink_metadata p fs = (fs', inl m) ->
  lookup_path p fs = Some (meta_identity m, meta_object m) /\
  lookup_path p fs' = Some (meta_identity m, meta_object m).
Proof.
  unfold symlink_metadata, attempt. destruct (fs_fault _ _ _ _); [done|].
  change (lookup_path p (tick fs)) with (lookup_path p fs).
  destruct (lookup_path p fs) as [[i o]|] eqn:E; [|done]. intros [= <- <-]. done.
Qed.

Lemma fstat_ok p h fs fs' m :
  file_metadata p h fs = (fs', inl m) -> meta_identity m = h /\ same_disk fs fs'.
Proof.
  unfold file_metadata, attempt. destruct (fs_fault _ _ _ _); [done|].
  destruct (fs_objects (tick fs) !! h); [|done]. intros [= <- <-]. done.
Qed.

Lemma read_ok p h fs fs' b :
  read_to_end p h fs = (fs', inl b) -> fs_objects fs !! h = Some (Regular b).
Proof.
  unfold read_to_end, attempt. destruct (fs_fault _ _ _ _); [done|]. cbn.
  destruct (fs_objects fs !! h) as [[]|] eqn:E; try done. by intros [= <- <-].
Qed.
