(* ===== verification/IndexState.v ===== *)
(** * The index-state slots and their classification

    [crates/codegraph-store/src/index_state.rs]: reading one of the two fixed
    slot files, validating it, and aggregating both into one status. SHA-256
    and the JSON codec are parameters ([SlotCodec]) with their documented
    behaviour ([SlotCodecLaws]); the file system is the one of [FsModel]. A
    [u64] is an [N]; [classify_raw] is [None] where the code would panic. *)
From S2P Require Import Prelude FsModel.
From stdpp Require Import pretty.

(** The parts of [IndexPaths] the state uses. *)
Record IndexPaths := mkIndexPaths {
  project_identity : string;
  current_root : Path }.

Definition state_slots (paths : IndexPaths) : Path * Path :=
  (path_join (current_root paths) "index-state.0.json", path_join (current_root paths) "index-state.1.json").
Definition permanent_lock (paths : IndexPaths) : Path := path_join (current_root paths) "index.lock".

(** [slots[i]], and the code's [1 - i]. *)
Definition at_slot {A} (p : A * A) (i : nat) : A := match i with 0 => p.1 | _ => p.2 end.

Definition CURRENT_STORAGE_PROTOCOL : N := 2.
Definition CURRENT_EXTRACTION_VERSION : N := 22.
Definition CHECKSUM_DOMAIN : string := "codegraph-index-state-v1".
Definition u64_MAX : N := 18446744073709551615.

Inductive StatePhase := Building | Current | Uninitialized.

#[export] Instance StatePhase_eq_dec : EqDecision StatePhase.
Proof. solve_decision. Defined.

Definition as_wire (p : StatePhase) : string :=
  match p with
  | Building => "building"
  | Current => "current"
  | Uninitialized => "uninitialized"
  end.

Definition from_wire (value : string) : option StatePhase :=
  if String.eqb value "building" then Some Building
  else if String.eqb value "current" then Some Current
  else if String.eqb value "uninitialized" then Some Uninitialized
  else None.

Definition LF : string := String "010" EmptyString.

Definition canonical_checksum_payload (sequence storage_protocol extraction_version : N)
    (phase project_identity : string) : string :=
  CHECKSUM_DOMAIN +:+ LF +:+
  "sequence=" +:+ pretty sequence +:+ LF +:+
  "storageProtocol=" +:+ pretty storage_protocol +:+ LF +:+
  "extractionVersion=" +:+ pretty extraction_version +:+ LF +:+
  "phase=" +:+ phase +:+ LF +:+
  "projectIdentity=" +:+ project_identity +:+ LF.

(** [node_id.rs::hex_lower]: two digits a byte, high nibble first. *)
Definition HEX : list ascii :=
  ["0"; "1"; "2"; "3"; "4"; "5"; "6"; "7"; "8"; "9"; "a"; "b"; "c"; "d"; "e"; "f"]%char.
Definition hex_digit (n : N) : ascii := default "0"%char (HEX !! N.to_nat n).
Fixpoint hex_lower (bytes : string) : string :=
  match bytes with
  | EmptyString => EmptyString
  | String byte bytes =>
      String (hex_digit (N.shiftr (N_of_ascii byte) 4))
        (String (hex_digit (N.land (N_of_ascii byte) 15)) (hex_lower bytes))
  end.

(** What [serde] reads from and writes to a slot. *)
Record WireSlot := mkWireSlot {
  w_sequence : N;
  w_storage_protocol : N;
  w_extraction_version : N;
  w_phase : string;
  w_project_identity : string;
  w_checksum : string }.

Record WireState := mkWireState {
  ws_sequence : N;
  ws_storage_protocol : N;
  ws_extraction_version : N;
  ws_phase : string;
  ws_project_identity : string;
  ws_checksum : string }.

Definition wire_slot_of (s : WireState) : WireSlot :=
  mkWireSlot (ws_sequence s) (ws_storage_protocol s) (ws_extraction_version s)
             (ws_phase s) (ws_project_identity s) (ws_checksum s).

(** The [sha2] and [serde_json] crates. *)
Class SlotCodec := {
  sha256 : string -> string;
  slot_from_slice : string -> WireSlot + string;
  state_to_vec : WireState -> string + string }.

(** A digest is 32 bytes; what [to_vec] writes [from_slice] reads back. *)
Class SlotCodecLaws `(SlotCodec) : Prop := {
  sha256_length : forall s, String.length (sha256 s) = 32;
  state_roundtrip : forall s b, state_to_vec s = inl b -> slot_from_slice b = inl (wire_slot_of s) }.

Record StateSlotRecord := mkStateSlotRecord {
  sequence : N;
  storage_protocol : N;
  extraction_version : N;
  phase : option StatePhase;
  phase_raw : string;
  record_identity : string;
  checksum : string }.

Inductive CorruptReason :=
| UnreadableSlot (slot : N) (path : Path) (detail : string)
| NotARegularFile (slot : N) (path : Path) (kind : string)
| SlotChangedDuringRead (slot : N) (path : Path) (detail : string)
| MalformedJson (slot : N) (path : Path) (detail : string)
| InvalidOwnerEncoding (slot : N) (path : Path) (found : string)
| InvalidChecksumEncoding (slot : N) (path : Path) (found : string)
| UnknownPhase (slot : N) (path : Path) (phase : string)
| ChecksumMismatch (slot : N) (path : Path) (expected found : string)
| UnsupportedStorageProtocol (slot : N) (path : Path) (found supported : N)
| OwnerMismatch (slot : N) (path : Path) (expected found : string)
| EqualSequence (sequence : N) (identical_payload : bool)
| SequenceExhausted (sequence : N).

Inductive ExtractionStatus :=
| StCurrent
| StBuilding (built : N)
| StUninitialized
| StMissing
| StOutdated (built : N)
| StFuture (built : N)
| StCorrupt (reason : CorruptReason).

Record AuthoritativeSlot := mkAuthoritativeSlot {
  auth_index : N;
  auth_path : Path;
  auth_record : StateSlotRecord }.

Inductive SlotOutcome :=
| OutAbsent
| OutValid (record : StateSlotRecord)
| OutFutureProtocol (record : StateSlotRecord)
| OutInvalid (reason : CorruptReason).

Record IndexStateClassification := mkClassification {
  status : ExtractionStatus;
  authoritative : option AuthoritativeSlot;
  slots : SlotOutcome * SlotOutcome }.

Inductive RawSlot :=
| RawAbsent
| RawInvalid (reason : CorruptReason)
| RawParsed (wire : WireSlot) (bytes : string).

Inductive ReadCheckpoint := InitialMetadataValidated | HandleOpened | BytesRead.

Definition slot_changed (index : N) (path : Path) (detail : string) : RawSlot :=
  RawInvalid (SlotChangedDuringRead index path detail).

Definition same_file_identity (left right : Metadata) : bool :=
  bool_decide (meta_identity left = meta_identity right).

Definition is_lowercase_hex (byte : ascii) : bool :=
  let n := N_of_ascii byte in
  ((48 <=? n) && (n <=? 57) || (97 <=? n) && (n <=? 102))%N.

Fixpoint str_all (f : ascii -> bool) (s : string) : bool :=
  match s with EmptyString => true | String a s => f a && str_all f s end.

Definition is_lowercase_sha256 (value : string) : bool :=
  (String.length value =? 64)%nat && str_all is_lowercase_hex value.

(** [u8::try_from(index).unwrap_or(u8::MAX)]. *)
Definition u8_or_max (index : nat) : N :=
  if (N.of_nat index <? 256)%N then N.of_nat index else 255%N.

Section Classifier.
Context {codec : SlotCodec}.

Definition hash_content (content : string) : string := hex_lower (sha256 content).

Definition checksum_hex (sequence storage_protocol extraction_version : N)
    (phase project_identity : string) : string :=
  hash_content (canonical_checksum_payload sequence storage_protocol extraction_version
                  phase project_identity).

(** What follows the second no-follow metadata check of a slot. *)
Definition parse_slot (index : N) (path : Path) (bytes : string) : RawSlot :=
  match slot_from_slice bytes with
  | inl wire => RawParsed wire bytes
  | inr err => RawInvalid (MalformedJson index path err)
  end.

(** [checkpoint] is the hook other processes act through between the steps. *)
Definition read_slot_with (index : N) (path : Path) (checkpoint : ReadCheckpoint -> Fs -> Fs)
    (fs : Fs) : Fs * RawSlot :=
  let '(fs, initial) := symlink_metadata path fs in
  match initial with
  | inr err =>
      if decide (io_kind err = NotFound) then (fs, RawAbsent)
      else (fs, RawInvalid (UnreadableSlot index path (io_detail err)))
  | inl initial =>
  if negb (is_file initial) then
    let kind := if is_dir initial then "directory"
                else if is_symlink initial then "symlink"
                else "non-regular filesystem entry" in
    (fs, RawInvalid (NotARegularFile index path kind))
  else
  let fs := checkpoint InitialMetadataValidated fs in
  let '(fs, file) := open path fs in
  match file with
  | inr err => (fs, RawInvalid (UnreadableSlot index path (io_detail err)))
  | inl file =>
  let '(fs, opened) := file_metadata path file fs in
  match opened with
  | inr err =>
      (fs, RawInvalid (UnreadableSlot index path
                         ("opened-handle metadata failed: " +:+ io_detail err)))
  | inl opened =>
  if negb (is_file opened) then
    (fs, slot_changed index path "opened handle is not a regular file")
  else if negb (same_file_identity initial opened) then
    (fs, slot_changed index path "entry identity changed before open")
  else
  let fs := checkpoint HandleOpened fs in
  let '(fs, bytes) := read_to_end path file fs in
  match bytes with
  | inr err => (fs, RawInvalid (UnreadableSlot index path (io_detail err)))
  | inl bytes =>
  let fs := checkpoint BytesRead fs in
  let '(fs, final_meta) := symlink_metadata path fs in
  match final_meta with
  | inr err =>
      (fs, slot_changed index path
             ("path disappeared or became unreadable after read: " +:+ io_detail err))
  | inl final_meta =>
  if negb (is_file final_meta) then
    (fs, slot_changed index path "path no longer names a regular file")
  else if negb (same_file_identity opened final_meta) then
    (fs, slot_changed index path "entry identity changed during read")
  else (fs, parse_slot index path bytes)
  end end end end end.

Definition read_slot (index : N) (path : Path) (fs : Fs) : Fs * RawSlot :=
  read_slot_with index path (fun _ fs => fs) fs.

Definition validate_parsed (index : N) (path : Path) (wire : WireSlot) (owner_identity : string)
  : SlotOutcome :=
  if negb (is_lowercase_sha256 (w_project_identity wire)) then
    OutInvalid (InvalidOwnerEncoding index path (w_project_identity wire))
  else if negb (is_lowercase_sha256 (w_checksum wire)) then
    OutInvalid (InvalidChecksumEncoding index path (w_checksum wire))
  else
  let expected := checksum_hex (w_sequence wire) (w_storage_protocol wire)
                    (w_extraction_version wire) (w_phase wire) (w_project_identity wire) in
  if negb (String.eqb expected (w_checksum wire)) then
    OutInvalid (ChecksumMismatch index path expected (w_checksum wire))
  else if negb (String.eqb (w_project_identity wire) owner_identity) then
    OutInvalid (OwnerMismatch index path owner_identity (w_project_identity wire))
  else if (w_storage_protocol wire <? CURRENT_STORAGE_PROTOCOL)%N then
    OutInvalid (UnsupportedStorageProtocol index path (w_storage_protocol wire)
                  CURRENT_STORAGE_PROTOCOL)
  else
  let phase := from_wire (w_phase wire) in
  let record := {| sequence := w_sequence wire;
                   storage_protocol := w_storage_protocol wire;
                   extraction_version := w_extraction_version wire;
                   phase := phase;
                   phase_raw := w_phase wire;
                   record_identity := w_project_identity wire;
                   checksum := w_checksum wire |} in
  if (CURRENT_STORAGE_PROTOCOL <? w_storage_protocol wire)%N then OutFutureProtocol record
  else match phase with
       | None => OutInvalid (UnknownPhase index path (w_phase wire))
       | Some _ => OutValid record
       end.

Definition observe (index : N) (path : Path) (raw : RawSlot) (owner_identity : string)
  : SlotOutcome :=
  match raw with
  | RawAbsent => OutAbsent
  | RawInvalid reason => OutInvalid reason
  | RawParsed wire _ => validate_parsed index path wire owner_identity
  end.

(** One candidate of [pick_highest]'s loop. *)
Definition pick_step (slots : Path * Path) (select : SlotOutcome -> option StateSlotRecord)
    (best : option AuthoritativeSlot) (index : nat) (outcome : SlotOutcome)
  : option AuthoritativeSlot :=
  match select outcome with
  | None => best
  | Some record =>
      let replace := match best with
                     | None => true
                     | Some current => (sequence (auth_record current) <? sequence record)%N
                     end in
      if replace then Some (mkAuthoritativeSlot (u8_or_max index) (at_slot slots index) record)
      else best
  end.

Definition pick_highest (outcomes : SlotOutcome * SlotOutcome) (slots : Path * Path)
    (select : SlotOutcome -> option StateSlotRecord) : option AuthoritativeSlot :=
  pick_step slots select (pick_step slots select None 0 (outcomes.1)) 1 (outcomes.2).

Definition select_future (o : SlotOutcome) : option StateSlotRecord :=
  match o with OutFutureProtocol record => Some record | _ => None end.
Definition select_valid (o : SlotOutcome) : option StateSlotRecord :=
  match o with OutValid record => Some record | _ => None end.
Definition select_validated (o : SlotOutcome) : option StateSlotRecord :=
  match o with OutValid record | OutFutureProtocol record => Some record | _ => None end.

(** The status an authority below exhaustion stands for. *)
Definition status_of (a : AuthoritativeSlot) : ExtractionStatus :=
  let built := extraction_version (auth_record a) in
  if ((CURRENT_STORAGE_PROTOCOL <? storage_protocol (auth_record a))
      || (CURRENT_EXTRACTION_VERSION <? built))%N
  then StFuture built
  else if (built <? CURRENT_EXTRACTION_VERSION)%N then
    match phase (auth_record a) with
    | Some Uninitialized => StUninitialized
    | _ => StOutdated built
    end
  else match phase (auth_record a) with
       | Some Current => StCurrent
       | Some Building => StBuilding built
       | Some Uninitialized => StUninitialized
       | None => StCorrupt (UnknownPhase (auth_index a) (auth_path a) (phase_raw (auth_record a)))
       end.

Definition first_invalid (outcomes : SlotOutcome * SlotOutcome) : option CorruptReason :=
  match outcomes.1, outcomes.2 with
  | OutInvalid reason, _ => Some reason
  | _, OutInvalid reason => Some reason
  | _, _ => None
  end.

Definition validated_records (outcomes : SlotOutcome * SlotOutcome) : list StateSlotRecord :=
  omap select_validated [outcomes.1; outcomes.2].

Definition identical_payload (raw : RawSlot * RawSlot) : bool :=
  match raw with
  | (RawParsed _ bytes0, RawParsed _ bytes1) => String.eqb bytes0 bytes1
  | _ => false
  end.

Definition classify_raw (raw : RawSlot * RawSlot) (slots : Path * Path) (owner_identity : string)
  : option IndexStateClassification :=
  let outcomes := (observe 0 (slots.1) (raw.1) owner_identity,
                   observe 1 (slots.2) (raw.2) owner_identity) in
  match first_invalid outcomes with
  | Some reason => Some (mkClassification (StCorrupt reason) None outcomes)
  | None =>
  match validated_records outcomes with
  | [] => Some (mkClassification StMissing None outcomes)
  | validated =>
  let equal := match validated with
               | [first; second] => if (sequence first =? sequence second)%N
                                    then Some (sequence first) else None
               | _ => None
               end in
  match equal with
  | Some seq =>
      Some (mkClassification (StCorrupt (EqualSequence seq (identical_payload raw))) None outcomes)
  | None =>
  match (match pick_highest outcomes slots select_future with
         | Some future => Some future
         | None => pick_highest outcomes slots select_valid
         end) with
  | None => None
  | Some authoritative =>
      let seq := sequence (auth_record authoritative) in
      if (seq =? u64_MAX)%N
      then Some (mkClassification (StCorrupt (SequenceExhausted seq)) (Some authoritative) outcomes)
      else Some (mkClassification (status_of authoritative) (Some authoritative) outcomes)
  end end end end.

Definition classify_slots (slots : Path * Path) (owner_identity : string) (fs : Fs)
  : Fs * option IndexStateClassification :=
  let '(fs, raw0) := read_slot 0 (slots.1) fs in
  let '(fs, raw1) := read_slot 1 (slots.2) fs in
  (fs, classify_raw (raw0, raw1) slots owner_identity).

Definition classify (paths : IndexPaths) (fs : Fs) : Fs * option IndexStateClassification :=
  classify_slots (state_slots paths) (project_identity paths) fs.
End Classifier.
