(* ===== verification/IndexStateFacts.v ===== *)
(** * Facts on reading and classifying the index-state slots

    What a slot read sees ([raw_of]), when a read may differ from it, and the
    two shapes of a classification that a publication starts from or leaves. *)
From S2P Require Import Prelude FsModel IndexState.
From stdpp Require Import pretty.

(** ** Fields separated by line feeds *)

Lemma length_string_app a b : String.length (a +:+ b) = String.length a + String.length b.
Proof. induction a as [|c a IH]; [done|]. exact (f_equal S IH). Qed.

(** Equal strings whose tails have equal length split alike. *)
Lemma same_tail a b x y :
  String.length x = String.length y -> a +:+ x = b +:+ y -> a = b /\ x = y.
Proof.
  intros Hlen. revert b. induction a as [|c a IH]; intros [|d b] H.
  - done.
  - apply (f_equal String.length) in H. rewrite !length_string_app in H. cbn in H. lia.
  - apply (f_equal String.length) in H. rewrite !length_string_app in H. cbn in H. lia.
  - injection H as -> H. by destruct (IH _ H) as [-> ->].
Qed.

Definition no_lf (s : string) : bool := str_all (fun c => negb (Ascii.eqb c "010")) s.

Lemma split_at_lf a b x y :
  no_lf a = true -> no_lf b = true -> a +:+ LF +:+ x = b +:+ LF +:+ y -> a = b /\ x = y.
Proof.
  unfold no_lf. revert b. induction a as [|c a IH]; intros [|d b] Ha Hb H; cbn in *.
  - by injection H.
  - injection H as <- _. done.
  - injection H as -> _. done.
  - apply andb_true_iff in Ha as [_ Ha], Hb as [_ Hb]. injection H as -> H.
    by destruct (IH _ Ha Hb H) as [-> ->].
Qed.

Lemma pretty_no_lf (n : N) : no_lf (pretty n) = true.
Proof.
  unfold pretty, pretty_N. case_decide; [done|].
  assert (H' : forall s, no_lf s = true -> no_lf (pretty_N_go n s) = true); [|by apply H'].
  clear. induction (N.lt_wf_0 n) as [n _ IH]; intros s Hs.
  destruct (decide (n = 0)%N) as [->|Hn]; [by rewrite pretty_N_go_0|].
  rewrite pretty_N_go_step by lia. apply IH; [apply N.div_lt; lia|].
  unfold no_lf in *. cbn. rewrite Hs, andb_true_r. unfold pretty_N_char. by repeat case_match.
Qed.

(** A decimal field up to its line feed determines the number. *)
Lemma pretty_field (m n : N) x y :
  pretty m +:+ LF +:+ x = pretty n +:+ LF +:+ y -> m = n /\ x = y.
Proof.
  intros H. apply split_at_lf in H as [H ->]; [|apply pretty_no_lf|apply pretty_no_lf].
  split; [by apply (inj pretty)|done].
Qed.

(** Every comparison of sequences the classifier makes, decided. *)
Ltac sequences := repeat match goal with
  | |- context [(?a =? ?b)%N] => destruct (N.eqb_spec a b)
  | |- context [(?a <? ?b)%N] => destruct (N.ltb_spec a b)
  end.

(** The classifier, for each pair of slot outcomes. *)
Ltac classify_cases o0 o1 :=
  unfold classify_raw, first_invalid, validated_records, pick_highest, pick_step; cbn;
  destruct o0 as [|r0|r0|c0]; cbn; destruct o1 as [|r1|r1|c1]; cbn.

Ltac slot_cases := repeat match goal with
  | |- forall j r', j < 2 -> _ => intros [|[|j]] r' ?; [| |lia]; cbn; intros; simplify_eq; cbn in *; lia
  end.

(** The authority sits in slot [i]. *)
Ltac newest_at i :=
  exists i; eexists; split_and!;
  [lia|reflexivity
  |cbn; repeat match goal with
     | H : (_ = ?b)%N |- context [(_ =? ?b)%N] => rewrite (proj2 (N.eqb_eq _ _) H)
     | H : _ <> ?b |- context [(_ =? ?b)%N] => rewrite (proj2 (N.eqb_neq _ _) H)
     end; reflexivity
  |cbn; first [by left|right; split; [reflexivity|intros [|[|j]] r' ?; [| |lia]; cbn; congruence]]
  |slot_cases|slot_cases].

Section Facts.
Context {codec : SlotCodec}.

(** What the fixed slot holds, with nothing failing and nobody interfering. *)
Definition raw_of (index : N) (path : Path) (fs : Fs) : RawSlot :=
  match lookup_path path fs with
  | None => RawAbsent
  | Some (_, Regular bytes) => parse_slot index path bytes
  | Some (_, Directory) => RawInvalid (NotARegularFile index path "directory")
  | Some (_, Symlink _) => RawInvalid (NotARegularFile index path "symlink")
  | Some (_, Special) => RawInvalid (NotARegularFile index path "non-regular filesystem entry")
  end.

Definition raws_of (paths : IndexPaths) (fs : Fs) : RawSlot * RawSlot :=
  (raw_of 0 (state_slots paths).1 fs, raw_of 1 (state_slots paths).2 fs).

Definition classification_of (paths : IndexPaths) (fs : Fs) : option IndexStateClassification :=
  classify_raw (raws_of paths fs) (state_slots paths) (project_identity paths).

Definition quiet (fs : Fs) : Prop := forall n op p, fs_fault fs n op p = None.

(** ** Reading *)

Definition is_invalid (r : RawSlot) : Prop := exists reason, r = RawInvalid reason.

(** A read leaves the disk alone, and reports what is there or a failure. *)
Definition reads (fs : Fs) (r0 : RawSlot) (out : Fs * RawSlot) : Prop :=
  same_disk fs out.1 /\ (out.2 = r0 \/ is_invalid out.2 /\ ~ quiet fs).

Lemma not_quiet fs n op p f : fs_fault fs n op p = Some f -> ~ quiet fs.
Proof. intros Hf Hq. by rewrite Hq in Hf. Qed.

Lemma fault_kind f : io_kind (fault_error f) <> NotFound.
Proof. destruct f as [[]]; done. Qed.

Ltac same_disk_trivial := unfold same_disk, tick; cbn; tauto.

(** The environment's failure at one step of a read ends it as invalid. *)
Ltac injected := split; cbn; [same_disk_trivial
  |right; split; [by eexists|eapply not_quiet; eassumption]].

Lemma read_slot_reads index path fs :
  reads fs (raw_of index path fs) (read_slot index path fs).
Proof.
  unfold read_slot, read_slot_with, raw_of, symlink_metadata, open, file_metadata, read_to_end,
    attempt.
  destruct (fs_fault fs (fs_clock fs) OpStat path) as [f|] eqn:F1.
  { rewrite decide_False by apply fault_kind. injected. }
  change (lookup_path path (tick fs)) with (lookup_path path fs).
  destruct (lookup_path path fs) as [[i o]|] eqn:El;
    [|rewrite decide_True by done; split; cbn; [same_disk_trivial|by left]].
  destruct o as [b| |t|]; cbn;
    try (split; cbn; [same_disk_trivial|by left]).
  destruct (fs_fault fs (S (fs_clock fs)) OpOpen path) as [f|] eqn:F2; cbn; [injected|].
  unfold lookup_path in El |- *. cbn.
  destruct (fs_names fs !! path) as [i'|] eqn:En; cbn in El; [|done].
  destruct (fs_objects fs !! i') as [o'|] eqn:Eo; cbn in El; [|done].
  injection El as -> ->. cbn. rewrite Eo. cbn.
  destruct (fs_fault fs (S (S (fs_clock fs))) OpFstat path) as [f|] eqn:F3; cbn; [injected|].
  rewrite Eo. cbn. unfold same_file_identity. cbn. rewrite bool_decide_true by done. cbn.
  destruct (fs_fault fs (S (S (S (fs_clock fs)))) OpRead path) as [f|] eqn:F4; cbn; [injected|].
  rewrite Eo. cbn.
  destruct (fs_fault fs (S (S (S (S (fs_clock fs))))) OpStat path) as [f|] eqn:F5; cbn;
    [injected|].
  rewrite En. cbn. rewrite Eo. cbn. rewrite bool_decide_true by done. cbn.
  split; cbn; [same_disk_trivial|by left].
Qed.

(** ** Outcomes *)

Lemma parse_slot_not_absent index path b : parse_slot index path b <> RawAbsent.
Proof. unfold parse_slot. by destruct slot_from_slice. Qed.

Lemma observe_invalid index path r owner : is_invalid r -> exists reason,
  observe index path r owner = OutInvalid reason.
Proof. intros (reason & ->). by eexists. Qed.

Lemma is_lowercase_checksum {laws : SlotCodecLaws codec} s :
  is_lowercase_sha256 (hash_content s) = true.
Proof.
  unfold hash_content, is_lowercase_sha256.
  assert (H : forall b, String.length (hex_lower b) = 2 * String.length b
                        /\ str_all is_lowercase_hex (hex_lower b) = true).
  { assert (Hd : forall n, (n < 16)%N -> is_lowercase_hex (hex_digit n) = true).
    { intros n Hn.
      assert (H : forallb (fun n => is_lowercase_hex (hex_digit n)) (map N.of_nat (seq 0 16)) = true)
        by (vm_compute; reflexivity).
      rewrite forallb_forall in H. apply H, in_map_iff. exists (N.to_nat n).
      split; [lia|]. apply in_seq. lia. }
    induction b as [|c b [IHl IHa]]; cbn [hex_lower String.length str_all]; [done|].
    split; [rewrite IHl; lia|]. rewrite IHa, !Hd; [done| |].
    - rewrite (N.land_ones _ 4). apply N.mod_lt. done.
    - rewrite N.shiftr_div_pow2. apply N.Div0.div_lt_upper_bound.
      pose proof (N_ascii_bounded c). change (2 ^ 4)%N with 16%N. lia. }
  destruct (H (sha256 s)) as [-> ->]. rewrite sha256_length. done.
Qed.

(** ** The aggregate classification *)

Definition outcomes_of (raw : RawSlot * RawSlot) (slots : Path * Path) (owner : string)
  : SlotOutcome * SlotOutcome :=
  (observe 0 slots.1 raw.1 owner, observe 1 slots.2 raw.2 owner).

Definition publishable (s : ExtractionStatus) : Prop :=
  match s with StFuture _ | StCorrupt _ => False | _ => True end.

(** The slot is missing, or holds an older record of the current protocol. *)
Definition below (o : SlotOutcome) (s : N) : Prop :=
  o = OutAbsent \/ exists r, o = OutValid r /\ (sequence r < s)%N.

Definition authority (slots : Path * Path) (i : nat) (r : StateSlotRecord) : AuthoritativeSlot :=
  mkAuthoritativeSlot (N.of_nat i) (at_slot slots i) r.

(** One slot holds the newest record and the other nothing newer. *)
Definition newest (o : SlotOutcome * SlotOutcome) (i : nat) (r : StateSlotRecord) : Prop :=
  i < 2 /\ at_slot o i = OutValid r /\ below (at_slot o (1 - i)) (sequence r).

(** The status of an authority, exhaustion included. *)
Definition authority_status (a : AuthoritativeSlot) : ExtractionStatus :=
  if (sequence (auth_record a) =? u64_MAX)%N
  then StCorrupt (SequenceExhausted (sequence (auth_record a))) else status_of a.

Lemma validate_parsed_valid index path w owner r :
  validate_parsed index path w owner = OutValid r ->
  storage_protocol r = CURRENT_STORAGE_PROTOCOL /\ is_Some (phase r).
Proof.
  unfold validate_parsed.
  repeat (case_match; try discriminate). intros [= <-]. cbn.
  split; [|by eexists]. apply N.ltb_ge in H3, H4. unfold CURRENT_STORAGE_PROTOCOL in *. lia.
Qed.

Lemma observe_valid index path raw owner r :
  observe index path raw owner = OutValid r ->
  storage_protocol r = CURRENT_STORAGE_PROTOCOL /\ is_Some (phase r).
Proof. destruct raw; cbn; try done. apply validate_parsed_valid. Qed.

Lemma observe_future index path raw owner r :
  observe index path raw owner = OutFutureProtocol r ->
  (CURRENT_STORAGE_PROTOCOL < storage_protocol r)%N.
Proof.
  destruct raw; cbn; try done. unfold validate_parsed.
  repeat (case_match; try discriminate). intros [= <-]. cbn. by apply N.ltb_lt.
Qed.

Lemma status_of_future a :
  (CURRENT_STORAGE_PROTOCOL < storage_protocol (auth_record a))%N ->
  ~ publishable (status_of a).
Proof. intros H. unfold status_of. apply N.ltb_lt in H. rewrite H. cbn. tauto. Qed.

Lemma classify_raw_total raw slots owner : is_Some (classify_raw raw slots owner).
Proof.
  classify_cases (observe 0 slots.1 raw.1 owner) (observe 1 slots.2 raw.2 owner);
    sequences; cbn; repeat case_match; try (by eexists); try lia.
Qed.

Lemma classify_newest raw slots owner i r :
  newest (outcomes_of raw slots owner) i r ->
  classify_raw raw slots owner =
    Some (mkClassification (authority_status (authority slots i r)) (Some (authority slots i r))
            (outcomes_of raw slots owner)).
Proof.
  intros (Hi & Hr & Hb). unfold outcomes_of, below, authority_status in *.
  destruct i as [|[|]]; [| |lia]; cbn in Hr, Hb;
    classify_cases (observe 0 slots.1 raw.1 owner) (observe 1 slots.2 raw.2 owner);
    destruct Hb as [Hb|(r' & Hb & Hlt)]; simplify_eq; cbn;
    repeat (sequences; cbn; try lia); done.
Qed.

(** The authority is the newest record of the class that decides: the future
    protocol's if a slot holds one, the current protocol's otherwise. *)
Definition is_newest_authority (o : SlotOutcome * SlotOutcome) (slots : Path * Path)
    (c : IndexStateClassification) : Prop :=
  exists i r, i < 2 /\ authoritative c = Some (authority slots i r) /\
    status c = authority_status (authority slots i r) /\
    (at_slot o i = OutFutureProtocol r \/
     at_slot o i = OutValid r /\ forall j r', j < 2 -> at_slot o j <> OutFutureProtocol r') /\
    (forall j r', j < 2 -> at_slot o j = OutFutureProtocol r' ->
       at_slot o i = OutFutureProtocol r -> (sequence r' <= sequence r)%N) /\
    (forall j r', j < 2 -> at_slot o j = OutValid r' ->
       at_slot o i = OutValid r -> (sequence r' <= sequence r)%N).

Ltac older := cbn; first [by left|right; eexists; split; [reflexivity|cbn in *; lia]].

(** A publication starts from an empty pair or from a newest record. *)
Lemma publishable_shape raw slots owner c :
  classify_raw raw slots owner = Some c -> publishable (status c) ->
  let o := outcomes_of raw slots owner in
  IndexState.slots c = o /\
  (o = (OutAbsent, OutAbsent) /\ status c = StMissing /\ authoritative c = None \/
   exists i r, newest o i r /\ sequence r <> u64_MAX /\
               authoritative c = Some (authority slots i r) /\
               status c = status_of (authority slots i r)).
Proof.
  intros Hc Hp. cbn. unfold outcomes_of, newest, below.
  pose proof (observe_future 0 slots.1 raw.1 owner) as F0.
  pose proof (observe_future 1 slots.2 raw.2 owner) as F1.
  revert Hc Hp F0 F1.
  classify_cases (observe 0 slots.1 raw.1 owner) (observe 1 slots.2 raw.2 owner);
    sequences; cbn; try (intros [= <-] Hp; cbn in Hp; by destruct Hp).
  all: try (intros [= <-] Hp F0 F1; cbn in Hp;
            exfalso; eapply status_of_future; [|exact Hp]; cbn; eauto; fail).
  all: sequences; cbn; try (intros [= <-] Hp; cbn in Hp; by destruct Hp); intros [= <-] Hp F0 F1;
    cbn in Hp |- *; try (exfalso; eapply status_of_future; [|exact Hp]; cbn; eauto; fail).
  all: split; [done|]; first [by left|right].
  all: first [exists 0; eexists; split_and!; [lia|reflexivity|older|done|done|done]
             |exists 1; eexists; split_and!; [lia|reflexivity|older|done|done|done]].
Qed.

(** ** Classifying a file system *)

Lemma raw_of_same_disk index path fs fs' :
  same_disk fs fs' -> raw_of index path fs' = raw_of index path fs.
Proof. intros H. unfold raw_of. by rewrite (same_disk_lookup _ _ _ H). Qed.

Lemma quiet_same_disk fs fs' : same_disk fs fs' -> quiet fs -> quiet fs'.
Proof. intros (_&_&_&_&_&Hf) Hq n op p. by rewrite Hf. Qed.

Lemma classify_raw_invalid raw slots owner :
  is_invalid raw.1 \/ is_invalid raw.2 ->
  exists c reason, classify_raw raw slots owner = Some c /\ status c = StCorrupt reason.
Proof.
  intros Hr. unfold classify_raw.
  destruct (first_invalid _) as [reason|] eqn:E; [by repeat eexists|].
  exfalso. unfold first_invalid in E. cbn in E.
  destruct Hr as [(x & Hx)|(x & Hx)]; rewrite Hx in E; cbn in E; [done|].
  by destruct (observe 0 slots.1 raw.1 owner).
Qed.

(** Classifying leaves the disk alone; what it returns is what the disk holds,
    unless a failure made it report corruption. *)
Lemma classify_reads paths fs :
  let '(fs', c) := classify paths fs in
  same_disk fs fs' /\
  (c = classification_of paths fs \/
   ~ quiet fs /\ exists c' reason, c = Some c' /\ status c' = StCorrupt reason).
Proof.
  unfold classify, classify_slots, classification_of, raws_of.
  set (s := state_slots paths).
  destruct (read_slot_reads 0 s.1 fs) as [Hd0 H0].
  destruct (read_slot 0 s.1 fs) as [fs0 raw0]. cbn [fst snd] in *.
  destruct (read_slot_reads 1 s.2 fs0) as [Hd1 H1].
  destruct (read_slot 1 s.2 fs0) as [fs1 raw1]. cbn [fst snd] in *.
  rewrite (raw_of_same_disk _ _ _ _ Hd0) in H1.
  split; [by transitivity fs0|].
  destruct H0 as [->|[Hi0 Hq0]]; [destruct H1 as [->|[Hi1 Hq1]]; [by left|]|].
  - right. split; [intros Hq; apply Hq1; by eapply quiet_same_disk|].
    destruct (classify_raw_invalid (raw_of 0 s.1 fs, raw1) s (project_identity paths))
      as (c & reason & Hc & Hs); [by right|]. eauto.
  - right. split; [done|].
    destruct (classify_raw_invalid (raw0, raw1) s (project_identity paths))
      as (c & reason & Hc & Hs); [by left|]. eauto.
Qed.

(** ** The record a publication writes *)

Lemma observe_successor {laws : SlotCodecLaws codec} index path seq ph owner b :
  is_lowercase_sha256 owner = true ->
  slot_from_slice b = inl (mkWireSlot seq CURRENT_STORAGE_PROTOCOL CURRENT_EXTRACTION_VERSION
     (as_wire ph) owner (checksum_hex seq CURRENT_STORAGE_PROTOCOL CURRENT_EXTRACTION_VERSION
                           (as_wire ph) owner)) ->
  observe index path (parse_slot index path b) owner =
    OutValid (mkStateSlotRecord seq CURRENT_STORAGE_PROTOCOL CURRENT_EXTRACTION_VERSION
      (Some ph) (as_wire ph) owner
      (checksum_hex seq CURRENT_STORAGE_PROTOCOL CURRENT_EXTRACTION_VERSION (as_wire ph) owner)).
Proof.
  intros Howner Hb. unfold parse_slot. rewrite Hb. cbn. unfold validate_parsed. cbn.
  rewrite Howner. unfold checksum_hex. rewrite is_lowercase_checksum. cbn.
  rewrite !String.eqb_refl. cbn. by destruct ph.
Qed.
End Facts.
