(* ===== verification/Publisher.v ===== *)
(** * Publication of the index-state slots

    [crates/codegraph-store/src/index_state_publisher.rs], and the lease check
    it starts with ([index_lease.rs], [file_identity.rs]), on a Unix file
    system. Publishing threads a [World]: the file system, the process's
    temporary-file counter, and the fault injector; it stops at the first
    error and keeps the world it stopped in. [Panics] stands for the code's
    [unreachable!] and [expect]. *)
From S2P Require Import Prelude FsModel IndexState.
From stdpp Require Import pretty.

Definition TEMP_PREFIX : string := ".codegraph-index-state-publisher-v2-".
Definition TEMP_SUFFIX : string := ".tmp".
Definition TEMP_CREATE_ATTEMPTS : nat := 64.

Inductive ParentSyncStatus := Synced | SyncUnsupported.

Record PublishedState := mkPublishedState {
  published_slot : N;
  published_record : StateSlotRecord;
  parent_sync : ParentSyncStatus }.

Inductive StatePublishOperation :=
| CreateTemp | WriteTemp | FlushTemp | SyncTemp | PrepareInactiveSlot | RenameTemp | SyncParent.

Inductive LeaseMode := Shared | Exclusive.

(** [IndexLease] and its [LeaseInner]; the file is its open handle. *)
Record IndexLease := mkIndexLease {
  lease_mode : LeaseMode;
  lease_db_parent : Path;
  lease_lock_path : Path;
  lease_file : Inode }.

Inductive IndexLeaseValidationError :=
| SharedLease
| WrongDbParent
| PermanentLockChanged (path : Path).

Inductive StatePublishError :=
| Lease (e : IndexLeaseValidationError)
| Refused (s : ExtractionStatus)
| InvalidTransition (current : ExtractionStatus) (requested : StatePhase)
| ClassifierInvariant (detail : string)
| Serialize (source : string)
| TempNameExhausted (parent : Path) (attempts : nat)
| Io (operation : StatePublishOperation) (path : Path) (source : IoError).

Inductive Unwind := Fails (e : StatePublishError) | Panics.

Inductive PublishCheckpoint :=
| TempCreated | TempWritten | TempFlushed | TempSynced | InactiveSlotPrepared | TempRenamed
| ParentSyncAttempted.

(** The [FaultInjector] trait; [NoFault] is its production implementation. *)
Class FaultInjector (F : Type) := after : F -> PublishCheckpoint -> F * (unit + IoError).
Inductive NoFault := NoFaultUnit.
#[export] Instance NoFault_injector : FaultInjector NoFault := fun f _ => (f, inl tt).

Record World (F : Type) := mkWorld {
  w_fs : Fs;
  w_pid : N;
  w_next_temp : N;
  w_fault : F }.
Arguments mkWorld {F} _ _ _ _.
Arguments w_fs {F} _.
Arguments w_pid {F} _.
Arguments w_next_temp {F} _.
Arguments w_fault {F} _.

Definition with_fs {F} (w : World F) (fs : Fs) : World F :=
  mkWorld fs (w_pid w) (w_next_temp w) (w_fault w).

(** The state-and-error monad of a publication. *)
Definition M (F A : Type) : Type := World F -> World F * (A + Unwind).
#[export] Instance M_ret {F} : MRet (M F) := fun A a w => (w, inl a).
#[export] Instance M_bind {F} : MBind (M F) := fun A B k m w =>
  match m w with
  | (w, inl a) => k a w
  | (w, inr e) => (w, inr e)
  end.
Definition fail {F A} (e : StatePublishError) : M F A := fun w => (w, inr (Fails e)).
Definition panic {F A} : M F A := fun w => (w, inr Panics).

(** A file-system operation whose error the caller inspects, and one whose
    error is mapped and propagated. *)
Definition try_io {F A} (m : io A) : M F (A + IoError) := fun w =>
  let '(fs, r) := m (w_fs w) in (with_fs w fs, inl r).
Definition io_error (operation : StatePublishOperation) (path : Path) (source : IoError)
  : StatePublishError := Io operation path source.
Definition do_io {F A} (operation : StatePublishOperation) (path : Path) (m : io A) : M F A :=
  r ← try_io m;
  match r with inl a => mret a | inr source => fail (io_error operation path source) end.

(** [fetch_add] of the process-wide counter, which wraps. *)
Definition next_serial {F} : M F N := fun w =>
  (mkWorld (w_fs w) (w_pid w) ((w_next_temp w + 1) mod (u64_MAX + 1))%N (w_fault w),
   inl (w_next_temp w)).

Definition process_id {F} : M F N := fun w => (w, inl (w_pid w)).

(** [{serial:016x}]. *)
Fixpoint hex_digits (width : nat) (n : N) : string :=
  match width with
  | 0 => EmptyString
  | S width => hex_digits width (N.shiftr n 4) +:+ String (hex_digit (N.land n 15)) EmptyString
  end.
Definition temp_name (pid serial : N) : string :=
  TEMP_PREFIX +:+ pretty pid +:+ "-" +:+ hex_digits 16 serial +:+ TEMP_SUFFIX.

Fixpoint create_temp_loop {F} (attempts : nat) (parent : Path) : M F (Path * Inode) :=
  match attempts with
  | 0 => fail (TempNameExhausted parent TEMP_CREATE_ATTEMPTS)
  | S attempts =>
      serial ← next_serial;
      pid ← process_id;
      let path := path_join parent (temp_name pid serial) in
      r ← try_io (create_new path);
      match r with
      | inl file => mret (path, file)
      | inr error =>
          if decide (io_kind error = AlreadyExists) then create_temp_loop attempts parent
          else fail (io_error CreateTemp path error)
      end
  end.
Definition create_temp {F} (parent : Path) : M F (Path * Inode) :=
  create_temp_loop TEMP_CREATE_ATTEMPTS parent.

Definition checkpoint {F} `{FaultInjector F} (c : PublishCheckpoint)
    (operation : StatePublishOperation) (path : Path) : M F unit := fun w =>
  let '(f, r) := after (w_fault w) c in
  (mkWorld (w_fs w) (w_pid w) (w_next_temp w) f,
   match r with
   | inl _ => inl tt
   | inr source => inr (Fails (io_error operation path source))
   end).

(** [path_still_names_file(..).unwrap_or(false)]. *)
Definition path_still_names_file {F} (path : Path) (file : Inode) : M F bool :=
  r ← try_io (file_metadata path file);
  match r with
  | inr _ => mret false
  | inl expected =>
      r ← try_io (symlink_metadata path);
      match r with
      | inr _ => mret false
      | inl metadata =>
          if negb (is_file metadata) then mret false
          else mret (bool_decide (meta_identity metadata = meta_identity expected))
      end
  end.

Definition validate_exclusive {F} (lease : IndexLease) (paths : IndexPaths) : M F unit :=
  match lease_mode lease with
  | Shared => fail (Lease SharedLease)
  | Exclusive =>
  if negb (bool_decide (lease_db_parent lease = current_root paths))
  then fail (Lease WrongDbParent)
  else
  let expected_path := permanent_lock paths in
  if negb (bool_decide (lease_lock_path lease = expected_path))
  then fail (Lease (PermanentLockChanged expected_path))
  else
  named ← path_still_names_file (lease_lock_path lease) (lease_file lease);
  if named : bool then mret tt else fail (Lease (PermanentLockChanged expected_path))
  end.

Definition transition_allowed (current : ExtractionStatus) (requested : StatePhase) : bool :=
  match current, requested with
  | StMissing, Building => true
  | StOutdated _, (Building | Uninitialized) => true
  | StUninitialized, (Building | Uninitialized) => true
  | StCurrent, (Building | Uninitialized) => true
  | StBuilding _, (Building | Current | Uninitialized) => true
  | _, _ => false
  end.

Definition validate_transition {F} (current : ExtractionStatus) (requested : StatePhase)
  : M F unit :=
  if transition_allowed current requested then mret tt
  else fail (InvalidTransition current requested).

Definition checked_add_1 (n : N) : option N :=
  if (n =? u64_MAX)%N then None else Some (n + 1)%N.

(** The sequence to publish and the fixed slot that takes it. *)
Definition successor {F} (c : IndexStateClassification) : M F (N * nat) :=
  match status c with
  | StMissing =>
      match authoritative c with
      | Some _ => fail (ClassifierInvariant "Missing classification selected an authoritative slot")
      | None => mret (0%N, 0)
      end
  | StCurrent | StBuilding _ | StUninitialized | StOutdated _ =>
      match authoritative c with
      | None =>
          fail (ClassifierInvariant "non-Missing publishable classification has no authority")
      | Some authority =>
          match checked_add_1 (sequence (auth_record authority)) with
          | None => fail (Refused (StCorrupt (SequenceExhausted (sequence (auth_record authority)))))
          | Some seq =>
              if (2 <=? auth_index authority)%N
              then fail (ClassifierInvariant
                           "authoritative fixed-slot index is outside the slot pair")
              else mret (seq, 1 - N.to_nat (auth_index authority))
          end
      end
  | StFuture _ | StCorrupt _ => panic
  end.

Definition check_inactive {F} (c : IndexStateClassification) (target_index : nat) (seq : N)
  : M F unit :=
  match at_slot (slots c) target_index with
  | OutAbsent => mret tt
  | OutValid record =>
      if (seq <=? sequence record)%N
      then fail (ClassifierInvariant "inactive slot is not older than the successor sequence")
      else mret tt
  | OutFutureProtocol _ | OutInvalid _ =>
      fail (ClassifierInvariant
              "publishable classification contains a future or invalid inactive slot")
  end.

(** Lines 332-351: unlink what the inactive slot holds. *)
Definition prepare_inactive {F} (target : Path) : M F unit :=
  r ← try_io (symlink_metadata target);
  match r with
  | inl metadata =>
      if negb (is_file metadata)
      then fail (ClassifierInvariant "inactive fixed slot changed after under-lease classification")
      else do_io PrepareInactiveSlot target (remove_file target)
  | inr error =>
      if decide (io_kind error = NotFound) then mret tt
      else fail (io_error PrepareInactiveSlot target error)
  end.

Definition UNIX_DIRECTORY_SYNC_UNSUPPORTED : list Z := [22%Z; 95%Z].
Definition directory_sync_unsupported_in (error : IoError) (unsupported : list Z) : bool :=
  bool_decide (io_kind error = Unsupported)
  || match raw_os_error error with
     | Some code => bool_decide (code ∈ unsupported)
     | None => false
     end.
Definition directory_sync_unsupported (error : IoError) : bool :=
  directory_sync_unsupported_in error UNIX_DIRECTORY_SYNC_UNSUPPORTED.

Definition sync_parent {F} (parent : Path) : M F ParentSyncStatus :=
  directory ← do_io SyncParent parent (open parent);
  r ← try_io (sync_all parent directory);
  match r with
  | inl _ => mret Synced
  | inr error =>
      if directory_sync_unsupported error then mret SyncUnsupported
      else fail (io_error SyncParent parent error)
  end.

Section Publish.
Context {codec : SlotCodec} {F : Type} {injector : FaultInjector F}.

Definition classify_now (paths : IndexPaths) : M F IndexStateClassification := fun w =>
  let '(fs, c) := classify paths (w_fs w) in
  (with_fs w fs, match c with Some c => inl c | None => inr Panics end).

(** The canonical wire form of the successor, and its record. *)
Definition successor_state (seq : N) (phase : StatePhase) (owner : string) : WireState :=
  {| ws_sequence := seq;
     ws_storage_protocol := CURRENT_STORAGE_PROTOCOL;
     ws_extraction_version := CURRENT_EXTRACTION_VERSION;
     ws_phase := as_wire phase;
     ws_project_identity := owner;
     ws_checksum := checksum_hex seq CURRENT_STORAGE_PROTOCOL CURRENT_EXTRACTION_VERSION
                      (as_wire phase) owner |}.

Definition successor_record (seq : N) (ph : StatePhase) (owner : string) : StateSlotRecord :=
  {| sequence := seq;
     storage_protocol := CURRENT_STORAGE_PROTOCOL;
     extraction_version := CURRENT_EXTRACTION_VERSION;
     phase := Some ph;
     phase_raw := as_wire ph;
     record_identity := owner;
     checksum := checksum_hex seq CURRENT_STORAGE_PROTOCOL CURRENT_EXTRACTION_VERSION
                   (as_wire ph) owner |}.

(** Everything before the first mutation: the successor's sequence and slot. *)
Definition accept (paths : IndexPaths) (lease : IndexLease) (ph : StatePhase) : M F (N * nat) :=
  _ ← validate_exclusive lease paths;
  c ← classify_now paths;
  match status c with
  | StFuture _ | StCorrupt _ => fail (Refused (status c))
  | _ =>
      _ ← validate_transition (status c) ph;
      plan ← successor c;
      _ ← check_inactive c plan.2 plan.1;
      mret plan
  end.

(** The temporary file is created, written, flushed and synchronized. *)
Definition write_temp (parent_dir : Path) (bytes : string) : M F Path :=
  t ← create_temp parent_dir;
  let '(temp_path, temp) := (t : Path * Inode) in
  _ ← checkpoint TempCreated CreateTemp temp_path;
  _ ← do_io WriteTemp temp_path (write_all temp_path temp bytes);
  _ ← checkpoint TempWritten WriteTemp temp_path;
  _ ← do_io FlushTemp temp_path (flush temp_path);
  _ ← checkpoint TempFlushed FlushTemp temp_path;
  _ ← do_io SyncTemp temp_path (sync_all temp_path temp);
  _ ← checkpoint TempSynced SyncTemp temp_path;
  mret temp_path.

(** It then replaces the inactive slot, and the directory is synchronized. *)
Definition install_temp (parent_dir temp_path target : Path) : M F ParentSyncStatus :=
  _ ← prepare_inactive target;
  _ ← checkpoint InactiveSlotPrepared PrepareInactiveSlot target;
  _ ← do_io RenameTemp target (rename temp_path target);
  _ ← checkpoint TempRenamed RenameTemp target;
  synced ← sync_parent parent_dir;
  _ ← checkpoint ParentSyncAttempted SyncParent parent_dir;
  mret synced.

(** The whole function; the two halves above are its lines 298-330 and 332-374. *)
Definition publish_index_state_with (paths : IndexPaths) (lease : IndexLease) (ph : StatePhase)
  : M F PublishedState :=
  plan ← accept paths lease ph;
  let '(seq, target_index) := (plan : N * nat) in
  let owner := project_identity paths in
  match state_to_vec (successor_state seq ph owner) with
  | inr source => fail (Serialize source)
  | inl bytes =>
  let slots := state_slots paths in
  let target := at_slot slots target_index in
  match parent target with
  | None => fail (ClassifierInvariant "fixed state slot has no parent directory")
  | Some parent_dir =>
  if negb (bool_decide (parent_dir = current_root paths))
     || negb (bool_decide (parent (at_slot slots (1 - target_index)) = Some parent_dir))
  then fail (ClassifierInvariant "fixed state slots do not share IndexPaths::current_root")
  else
  temp_path ← write_temp parent_dir bytes;
  synced ← install_temp parent_dir temp_path target;
  mret {| published_slot := N.of_nat target_index;
          published_record := successor_record seq ph owner;
          parent_sync := synced |}
  end end.
End Publish.

(** [publish_index_state]: the production entry point injects no fault. *)
Definition publish_index_state {codec : SlotCodec} (paths : IndexPaths) (lease : IndexLease)
    (ph : StatePhase) : M NoFault PublishedState :=
  publish_index_state_with paths lease ph.
