(* ===== verification/PublisherFacts.v ===== *)
(** * Facts on publishing: what each step leaves on the disk

    A small Hoare logic over the publisher's monad ([triple]) and over file
    operations ([io_spec]), whose third component is what holds where an
    operation fails; the stages a publication goes through; and what a crash
    at any of them can leave in the two fixed slots. *)
From S2P Require Import Prelude FsModel IndexState IndexStateFacts Publisher.

(** ** The logic *)

Definition io_spec {A} (P : Fs -> Prop) (m : io A) (Q : A -> Fs -> Prop)
    (X : IoError -> Fs -> Prop) : Prop :=
  forall fs, P fs -> match m fs with (fs', inl a) => Q a fs' | (fs', inr e) => X e fs' end.

Definition triple {F A} (P : Fs -> Prop) (m : M F A) (Q : A -> Fs -> Prop) (X : Fs -> Prop)
  : Prop :=
  forall w, P (w_fs w) ->
  match m w with (w', inl a) => Q a (w_fs w') | (w', inr _) => X (w_fs w') end.

Section Rules.
Context {F : Type} {injector : FaultInjector F}.

Lemma triple_bind {A B} P (m : M F A) R (k : A -> M F B) Q X :
  triple P m R X -> (forall a, triple (R a) (k a) Q X) -> triple P (m ≫= k) Q X.
Proof.
  intros Hm Hk w HP. specialize (Hm w HP). unfold mbind, M_bind.
  destruct (m w) as [w' [a|e]]; [by apply Hk|done].
Qed.

Lemma triple_ret {A} (P : Fs -> Prop) (a : A) (Q : A -> Fs -> Prop) X :
  (forall fs, P fs -> Q a fs) -> triple P (mret a : M F A) Q X.
Proof. intros H w HP. by apply H. Qed.

Lemma triple_fail {A} (P : Fs -> Prop) e (Q : A -> Fs -> Prop) (X : Fs -> Prop) :
  (forall fs, P fs -> X fs) -> triple P (fail e : M F A) Q X.
Proof. intros H w HP. by apply H. Qed.

Lemma triple_pre {A} (P P' : Fs -> Prop) (m : M F A) Q X :
  (forall fs, P fs -> P' fs) -> triple P' m Q X -> triple P m Q X.
Proof. intros H Hm w HP. apply Hm. by apply H. Qed.

Lemma triple_checkpoint (P X : Fs -> Prop) c op p :
  (forall fs, P fs -> X fs) -> triple P (checkpoint c op p : M F unit) (fun _ => P) X.
Proof.
  intros H w HP. unfold checkpoint. destruct (after (w_fault w) c) as [f [u|e]]; cbn; auto.
Qed.

Lemma triple_try_io {A} P (m : io A) (Q : A -> Fs -> Prop) (E : IoError -> Fs -> Prop) X :
  io_spec P m Q E ->
  triple P (try_io m : M F (A + IoError))
    (fun r fs => match r with inl a => Q a fs | inr e => E e fs end) X.
Proof.
  intros Hm w HP. unfold try_io. specialize (Hm (w_fs w) HP).
  by destruct (m (w_fs w)) as [fs [a|e]].
Qed.

Lemma triple_do_io {A} P op p (m : io A) Q X :
  io_spec P m Q (fun _ => X) -> triple P (do_io op p m : M F A) Q X.
Proof.
  intros Hm. unfold do_io. eapply triple_bind; [by apply triple_try_io|].
  intros [a|e]; [by apply triple_ret|by apply triple_fail].
Qed.
End Rules.

(** The temporary path is one of the publisher's names. *)
Lemma create_temp_path {F} parent_dir (w : World F) :
  match create_temp parent_dir w with
  | (_, inl t) => exists pid serial, t.1 = path_join parent_dir (temp_name pid serial)
  | (_, inr _) => True
  end.
Proof.
  unfold create_temp. generalize TEMP_CREATE_ATTEMPTS as n. intros n. revert w.
  induction n as [|n IH]; intros w; [done|].
  cbn [create_temp_loop]. unfold mbind, M_bind at 1, next_serial.
  unfold mbind, M_bind at 1, process_id. cbn [w_pid w_fs w_next_temp w_fault].
  unfold mbind, M_bind, try_io. cbn [w_pid w_fs w_next_temp w_fault].
  destruct (create_new _ _) as [fs [h|e]]; [by repeat eexists|].
  case_decide; [apply IH|done].
Qed.

(** A predicate that does not look at the clock. *)
Definition timeless (P : Fs -> Prop) : Prop := forall fs, P fs -> P (tick fs).

Lemma io_attempt {A} (P : Fs -> Prop) op p (k : io A) Q X :
  timeless P -> (forall f fs, P fs -> X (fault_error f) fs) -> io_spec P k Q X ->
  io_spec P (attempt op p k) Q X.
Proof.
  intros Ht HX Hk fs HP. unfold attempt.
  destruct (fs_fault fs (fs_clock fs) op p) as [f|]; [by apply HX, Ht|by apply Hk, Ht].
Qed.

(** Looking at metadata changes nothing. *)
Lemma io_stat (P : Fs -> Prop) p :
  timeless P -> io_spec P (symlink_metadata p) (fun _ => P) (fun _ => P).
Proof.
  intros Ht. apply io_attempt; [done|done|]. intros fs H. by destruct (lookup_path p fs) as [[]|].
Qed.

Lemma io_fstat (P : Fs -> Prop) p h :
  timeless P -> io_spec P (file_metadata p h) (fun _ => P) (fun _ => P).
Proof.
  intros Ht. apply io_attempt; [done|done|]. intros fs H. by destruct (fs_objects fs !! h).
Qed.

Lemma validate_exclusive_spec {F} (P : Fs -> Prop) lease paths :
  timeless P -> triple P (validate_exclusive lease paths : M F unit) (fun _ => P) P.
Proof.
  intros Ht. unfold validate_exclusive.
  destruct (lease_mode lease); [by apply triple_fail|].
  case_match; [by apply triple_fail|]. case_match; [by apply triple_fail|].
  apply triple_bind with (R := fun _ => P); [|intros []; [by apply triple_ret|by apply triple_fail]].
  unfold path_still_names_file.
  eapply triple_bind; [by apply triple_try_io, io_fstat|]. intros [expected|e]; [|by apply triple_ret].
  eapply triple_bind; [by apply triple_try_io, io_stat|]. intros [metadata|e]; [|by apply triple_ret].
  destruct (negb (is_file metadata)); by apply triple_ret.
Qed.

(** ** The stages of a publication

    [fs0] is the disk the publication found, [kept] the paths it leaves alone
    (the other slot and the index root), [T] the slot it replaces, [bytes]
    what it writes there. *)
Section Stages.
Context (fs0 : Fs) (kept : list Path) (T : Path) (bytes : string).

(** The kept names are untouched in every name map the disk may hold, the
    replaced slot satisfies [ok] in each, and no old object has changed. *)
Definition base (ok : option Inode -> Prop) (fs : Fs) : Prop :=
  (forall m, m ∈ fs_names fs :: fs_older fs ->
     (forall p, p ∈ kept -> m !! p = fs_names fs0 !! p) /\ ok (m !! T)) /\
  (forall i, (i < fs_next fs0)%N -> fs_objects fs !! i = fs_objects fs0 !! i) /\
  (forall i, (i < fs_next fs0)%N -> i ∈ fs_dirty fs -> i ∈ fs_dirty fs0) /\
  (fs_next fs0 <= fs_next fs)%N.

Definition ok_old (v : option Inode) : Prop := v = fs_names fs0 !! T.
Definition ok_gone (v : option Inode) : Prop := ok_old v \/ v = None.
Definition ok_new (h : Inode) (v : option Inode) : Prop := ok_gone v \/ v = Some h.

(** A file of the publication's own, with these contents. *)
Definition own (h : Inode) (o : FileObject) (fs : Fs) : Prop :=
  (fs_next fs0 <= h < fs_next fs)%N /\ fs_objects fs !! h = Some o.
Definition durable_file (h : Inode) (fs : Fs) : Prop :=
  own h (Regular bytes) fs /\ h ∉ fs_dirty fs.

Definition untouched (fs : Fs) : Prop := base ok_old fs.
Definition writing (b : string) (P : Path) (h : Inode) (fs : Fs) : Prop :=
  base ok_old fs /\ fs_names fs !! P = Some h /\ own h (Regular b) fs.
Definition written (P : Path) (h : Inode) (fs : Fs) : Prop :=
  base ok_old fs /\ fs_names fs !! P = Some h /\ durable_file h fs.
Definition prepared (P : Path) (h : Inode) (fs : Fs) : Prop :=
  base ok_gone fs /\ fs_names fs !! P = Some h /\ durable_file h fs.
Definition installed (h : Inode) (fs : Fs) : Prop :=
  base (ok_new h) fs /\ fs_names fs !! T = Some h /\ durable_file h fs.

(** What any failure leaves. *)
Definition safe (fs : Fs) : Prop :=
  base ok_gone fs \/ exists h, base (ok_new h) fs /\ durable_file h fs.

Lemma base_mono (ok ok' : option Inode -> Prop) fs :
  (forall v, ok v -> ok' v) -> base ok fs -> base ok' fs.
Proof. intros H (Hm & Hrest). split; [|exact Hrest]. intros m Hin. destruct (Hm m Hin). auto. Qed.

Lemma untouched_safe fs : untouched fs -> safe fs.
Proof. intros H. left. eapply base_mono; [|exact H]. intros v Hv. by left. Qed.

Lemma writing_safe b P h fs : writing b P h fs -> safe fs.
Proof. intros (H & _). by apply untouched_safe. Qed.

Lemma written_safe P h fs : written P h fs -> safe fs.
Proof. intros (H & _). by apply untouched_safe. Qed.

Lemma prepared_safe P h fs : prepared P h fs -> safe fs.
Proof. intros (H & _). by left. Qed.

Lemma installed_safe h fs : installed h fs -> safe fs.
Proof. intros (H & _ & Hd). right. by exists h. Qed.

(** A new name map satisfies [base] when it keeps [kept] and is [ok] at [T]. *)
Lemma base_set_names ok names fs :
  base ok fs -> (forall p, p ∈ kept -> names !! p = fs_names fs !! p) -> ok (names !! T) ->
  base ok (set_names names fs).
Proof.
  intros (Hm & Hrest) Hkept HT. split; [|exact Hrest]. cbn.
  intros m Hin. apply elem_of_cons in Hin as [->|Hin]; [|by apply Hm].
  split; [|done]. intros p Hp. rewrite Hkept by done. apply Hm; [by left|done].
Qed.

Lemma base_set_object ok h o fs :
  base ok fs -> (fs_next fs0 <= h)%N -> base ok (set_object h o fs).
Proof.
  intros (Hm & Ho & Hd & Hn) Hh. split; [exact Hm|]. split_and!; cbn; [|set_solver by lia|done].
  intros i Hi. rewrite lookup_insert_ne by lia. by apply Ho.
Qed.

Lemma stage_ne h i fs : (fs_next fs0 <= h < fs_next fs)%N -> (i < fs_next fs0)%N -> i <> h.
Proof. lia. Qed.

(** *** The steps *)

Lemma timeless_untouched : timeless untouched.
Proof. by intros fs H. Qed.
Lemma timeless_writing b P h : timeless (writing b P h).
Proof. by intros fs H. Qed.
Lemma timeless_written P h : timeless (written P h).
Proof. by intros fs H. Qed.
Lemma timeless_prepared P h : timeless (prepared P h).
Proof. by intros fs H. Qed.
Lemma timeless_installed h : timeless (installed h).
Proof. by intros fs H. Qed.
#[local] Hint Resolve timeless_untouched timeless_writing timeless_written timeless_prepared
  timeless_installed : core.

Lemma create_new_spec P :
  P ∉ kept -> P <> T ->
  io_spec untouched (create_new P) (fun h => writing EmptyString P h) (fun _ => untouched).
Proof.
  intros HPk HPT. apply io_attempt; [done|done|].
  intros fs (Hm & Ho & Hd & Hn). destruct (fs_names fs !! P) eqn:EP; [done|].
  unfold writing, own. cbn. rewrite !lookup_insert_eq. split_and!; try done; try lia.
  split; [|split_and!; cbn; [|set_solver by lia|lia]].
  - cbn. intros m Hin. apply elem_of_cons in Hin as [->|Hin]; [|by apply Hm].
    unfold ok_old. rewrite lookup_insert_ne by done. split; [|apply Hm; by left].
    intros p Hp. rewrite lookup_insert_ne by congruence. apply Hm; [by left|done].
  - intros i Hi. rewrite lookup_insert_ne by lia. by apply Ho.
Qed.

Lemma create_temp_spec {F} (parent_dir : Path) :
  (forall pid serial, path_join parent_dir (temp_name pid serial) ∉ kept /\
                      path_join parent_dir (temp_name pid serial) <> T) ->
  triple untouched (create_temp parent_dir : M F _)
    (fun t => writing EmptyString t.1 t.2) safe.
Proof.
  intros Hfresh. unfold create_temp. generalize TEMP_CREATE_ATTEMPTS as n.
  induction n as [|n IH]; cbn [create_temp_loop].
  { apply triple_fail. apply untouched_safe. }
  apply triple_bind with (R := fun _ => untouched); [intros w HP; exact HP|]. intros serial.
  apply triple_bind with (R := fun _ => untouched); [intros w HP; exact HP|]. intros pid.
  destruct (Hfresh pid serial) as [Hk HT].
  eapply triple_bind; [by apply triple_try_io, create_new_spec|].
  intros [h|e]; cbn; [by apply triple_ret|].
  case_decide; [exact IH|]. apply triple_fail. apply untouched_safe.
Qed.

Lemma write_all_spec p P h :
  io_spec (writing EmptyString P h) (write_all p h bytes)
    (fun _ => writing bytes P h) (fun _ => safe).
Proof.
  assert (Happ : forall b fs, writing EmptyString P h fs -> writing b P h (append h b fs)).
  { intros b fs (Hb & HP & Hr & Hh). unfold append. rewrite Hh. cbn.
    split_and!; [apply base_set_object; [done|lia]|done|].
    split; [done|]. cbn. by rewrite lookup_insert_eq. }
  intros fs H. unfold write_all.
  destruct (fs_fault fs _ _ _) as [f|];
    [eapply writing_safe, Happ, timeless_writing, H|apply Happ, timeless_writing, H].
Qed.

Lemma flush_spec p P h :
  io_spec (writing bytes P h) (flush p) (fun _ => writing bytes P h) (fun _ => safe).
Proof.
  apply io_attempt; [auto|intros f fs H; by eapply writing_safe|]. by intros fs H.
Qed.

Lemma sync_file_spec p P h :
  io_spec (writing bytes P h) (sync_all p h) (fun _ => written P h) (fun _ => safe).
Proof.
  apply io_attempt; [auto|intros f fs H; by eapply writing_safe|].
  intros fs ((Hm & Ho & Hd & Hn) & HP & Hr & Hh). rewrite Hh.
  split_and!; cbn; [|done|split; [done|cbn; set_solver]].
  split_and!; [done|done| |done]. cbn. intros i Hi Hin. apply Hd; set_solver.
Qed.

Lemma prepare_inactive_spec {F} P h :
  P <> T -> T ∉ kept ->
  triple (written P h) (prepare_inactive T : M F unit) (fun _ => prepared P h) safe.
Proof.
  intros HPT HTk. unfold prepare_inactive.
  eapply triple_bind.
  { apply triple_try_io with (Q := fun _ => written P h) (E := fun _ => written P h).
    by apply io_stat. }
  assert (Hprep : forall fs, written P h fs -> prepared P h fs).
  { intros fs (Hb & Hrest). split; [|exact Hrest].
    eapply base_mono; [|exact Hb]. intros v Hv. by left. }
  intros [md|e]; cbn.
  - destruct (negb (is_file md)); [apply triple_fail; intros; by eapply written_safe|].
    apply triple_do_io, io_attempt; [auto|intros; by eapply written_safe|].
    intros fs H. destruct (lookup_path T fs) as [[i o]|]; [|by eapply written_safe].
    assert (prepared P h (set_names (delete T (fs_names fs)) fs)).
    { destruct (Hprep _ H) as (Hb & HP & Hd). split_and!; [|cbn; by rewrite lookup_delete_ne|done].
      apply base_set_names; [done| |right; by rewrite lookup_delete_eq].
      intros p Hp. rewrite lookup_delete_ne; [done|]. congruence. }
    destruct o; by first [done|eapply written_safe].
  - case_decide; [by apply triple_ret|apply triple_fail; intros; by eapply written_safe].
Qed.

Lemma rename_spec P h :
  P <> T -> T ∉ kept -> P ∉ kept ->
  io_spec (prepared P h) (rename P T) (fun _ => installed h) (fun _ => safe).
Proof.
  intros HPT HTk HPk. apply io_attempt; [auto|intros; by eapply prepared_safe|].
  intros fs H. pose proof (prepared_safe _ _ _ H) as Hs. destruct H as (Hb & HP & Hd).
  rewrite HP.
  assert (installed h (set_names (<[T:=h]> (delete P (fs_names fs))) fs)).
  { split_and!; [|cbn; by rewrite lookup_insert_eq|done].
    apply base_set_names; [|intros p Hp|rewrite lookup_insert_eq; by right].
    - eapply base_mono; [|exact Hb]. intros v Hv. by left.
    - rewrite lookup_insert_ne by congruence. rewrite lookup_delete_ne by congruence. done. }
  destruct (lookup_path T fs) as [[i []]|]; done.
Qed.

Lemma installed_lookup h fs p i o :
  wf_fs fs0 -> p ∈ kept -> lookup_path p fs0 = Some (i, o) -> installed h fs ->
  lookup_path p fs = Some (i, o).
Proof.
  intros Hwf Hp Hl ((Hm & Ho & _) & _). unfold lookup_path in *.
  destruct (Hm (fs_names fs)) as [Hk _]; [by left|]. rewrite Hk by done.
  destruct (fs_names fs0 !! p) as [j|] eqn:En; [|done]. cbn in *.
  rewrite Ho; [done|]. apply (wf_allocated _ Hwf). by apply (wf_named _ Hwf p).
Qed.

Lemma sync_parent_spec {F} root h d :
  wf_fs fs0 -> root ∈ kept -> lookup_path root fs0 = Some (d, Directory) ->
  triple (installed h) (sync_parent root : M F _)
    (fun s fs => installed h fs /\ (s = Synced -> fs_older fs = [])) safe.
Proof.
  intros Hwf Hroot Hd. unfold sync_parent.
  apply triple_bind with (R := fun i fs => i = d /\ installed h fs).
  { apply triple_do_io, io_attempt; [auto|intros; by eapply installed_safe|].
    intros fs H. pose proof (installed_lookup _ _ _ _ _ Hwf Hroot Hd H) as Hl.
    by rewrite (follow_directory _ _ _ _ Hl). }
  intros i. eapply triple_bind.
  { apply triple_try_io
      with (Q := fun _ fs => installed h fs /\ fs_older fs = []) (E := fun _ => installed h).
    apply io_attempt; [intros fs H; exact H|by intros f fs [_ H]|].
    intros fs [-> H]. pose proof (installed_lookup _ _ _ _ _ Hwf Hroot Hd H) as Hl.
    unfold lookup_path in Hl. destruct (fs_names fs !! root) as [j|]; [|done]. cbn in Hl.
    destruct (fs_objects fs !! j) eqn:Ej; [|done]. injection Hl as -> ->. rewrite Ej.
    destruct H as ((Hm & Hrest) & HT & Hf). split; [|done].
    split_and!; [|done|done]. split; [|exact Hrest]. cbn.
    intros m Hin. apply Hm. set_solver. }
  intros [u|e]; cbn.
  - apply triple_ret. intros fs [H1 H2]. done.
  - destruct (directory_sync_unsupported e); [apply triple_ret; by intros|].
    apply triple_fail. intros. by eapply installed_safe.
Qed.

Section Assembled.
Context {F : Type} {injector : FaultInjector F}.

Lemma write_temp_spec (parent_dir : Path) :
  (forall pid serial, path_join parent_dir (temp_name pid serial) ∉ kept /\
                      path_join parent_dir (temp_name pid serial) <> T) ->
  triple untouched (write_temp parent_dir bytes : M F Path)
    (fun p fs => p ∉ kept /\ p <> T /\ exists h, written p h fs) safe.
Proof.
  intros Hfresh. unfold write_temp.
  apply triple_bind with
    (R := fun t fs => t.1 ∉ kept /\ t.1 <> T /\ writing EmptyString t.1 t.2 fs).
  { intros w HP. pose proof (create_temp_spec (F:=F) parent_dir Hfresh w HP) as H.
    pose proof (create_temp_path parent_dir w) as Hp.
    destruct (create_temp parent_dir w) as [w' [[p h]|e]]; [|done].
    destruct Hp as (pid & serial & Hp). destruct (Hfresh pid serial) as [Hk HT].
    rewrite <- Hp in Hk, HT. done. }
  intros [p h]. cbn.
  intros w (Hk & HT & H). revert w H.
  assert (Hgo : triple (writing EmptyString p h)
     (_ ← checkpoint TempCreated CreateTemp p;
      _ ← do_io WriteTemp p (write_all p h bytes);
      _ ← checkpoint TempWritten WriteTemp p;
      _ ← do_io FlushTemp p (flush p);
      _ ← checkpoint TempFlushed FlushTemp p;
      _ ← do_io SyncTemp p (sync_all p h);
      _ ← checkpoint TempSynced SyncTemp p; mret p : M F Path)
     (fun q fs => q = p /\ written p h fs) safe).
  { eapply triple_bind; [apply triple_checkpoint; intros; by eapply writing_safe|intros ?; cbn beta].
    eapply triple_bind; [apply triple_do_io, write_all_spec|intros ?; cbn beta].
    eapply triple_bind; [apply triple_checkpoint; intros; by eapply writing_safe|intros ?; cbn beta].
    eapply triple_bind; [apply triple_do_io, flush_spec|intros ?; cbn beta].
    eapply triple_bind; [apply triple_checkpoint; intros; by eapply writing_safe|intros ?; cbn beta].
    eapply triple_bind; [apply triple_do_io, sync_file_spec|intros ?; cbn beta].
    eapply triple_bind; [apply triple_checkpoint; intros; by eapply written_safe|intros ?; cbn beta].
    by apply triple_ret. }
  intros w H. specialize (Hgo w H).
  match goal with |- context [match ?m w with _ => _ end] => destruct (m w) as [w' [q|e]] end;
    [|done]. destruct Hgo as [-> Hw]. eauto.
Qed.

Lemma install_temp_spec parent_dir d p h :
  wf_fs fs0 -> p <> T -> p ∉ kept -> T ∉ kept -> parent_dir ∈ kept ->
  lookup_path parent_dir fs0 = Some (d, Directory) ->
  triple (written p h) (install_temp parent_dir p T : M F _)
    (fun s fs => installed h fs /\ (s = Synced -> fs_older fs = [])) safe.
Proof.
  intros Hwf HpT Hpk HTk Hroot Hd. unfold install_temp.
  eapply triple_bind; [by apply prepare_inactive_spec|intros ?; cbn beta].
  eapply triple_bind; [apply triple_checkpoint; intros; by eapply prepared_safe|intros ?; cbn beta].
  eapply triple_bind; [by apply triple_do_io, rename_spec|intros ?; cbn beta].
  eapply triple_bind; [apply triple_checkpoint; intros; by eapply installed_safe|intros ?; cbn beta].
  eapply triple_bind; [by eapply sync_parent_spec|intros s].
  eapply triple_bind.
  - apply triple_checkpoint. intros fs [H _]. by eapply installed_safe.
  - intros ?. by apply triple_ret.
Qed.
End Assembled.
End Stages.
