(* ===== verification/PublishCrash.v ===== *)
(** * What a publication leaves in the two slots

    [accept] decides without touching the disk; [publish_outcome] says what
    every run leaves behind; and [crash_outcome] what a reader then finds in
    the slots after a power loss at any point of it. *)
From S2P Require Import Prelude FsModel IndexState IndexStateFacts Publisher PublisherFacts.

(** The slots and the index root are durable, and the root is a directory. *)
Record settled (paths : IndexPaths) (fs : Fs) : Prop := {
  settled_names : forall m p, m ∈ fs_older fs ->
    p ∈ [(state_slots paths).1; (state_slots paths).2; current_root paths] ->
    m !! p = fs_names fs !! p;
  settled_contents : forall p i, p ∈ [(state_slots paths).1; (state_slots paths).2] ->
    fs_names fs !! p = Some i -> i ∉ fs_dirty fs;
  settled_root : exists d, lookup_path (current_root paths) fs = Some (d, Directory) }.

(** The status a freshly published record stands for. *)
Definition fresh_status (ph : StatePhase) : ExtractionStatus :=
  match ph with
  | Building => StBuilding CURRENT_EXTRACTION_VERSION
  | Current => StCurrent
  | Uninitialized => StUninitialized
  end.

Section Crash.
Context {codec : SlotCodec} {laws : SlotCodecLaws codec}.

Definition slot_path (paths : IndexPaths) (i : nat) : Path := at_slot (state_slots paths) i.
Definition kept_paths (paths : IndexPaths) (t : nat) : list Path :=
  [slot_path paths (1 - t); current_root paths].

(** ** Names *)

Lemma path_join_ne_root root name : path_join root name <> root.
Proof. unfold path_join. intros H. apply (f_equal length) in H. rewrite length_app in H. cbn in H. lia. Qed.

Lemma slot_path_inj paths i j : i < 2 -> j < 2 -> slot_path paths i = slot_path paths j -> i = j.
Proof.
  intros Hi Hj. destruct i as [|[|]]; [| |lia]; destruct j as [|[|]]; try lia;
    intros H; by apply path_join_inj in H as [_ H].
Qed.

Lemma slot_path_shape paths i : exists name rest,
  slot_path paths i = path_join (current_root paths) name /\ name = String "i" rest.
Proof. destruct i; cbn; by repeat eexists. Qed.

Lemma slot_path_parent paths i : parent (slot_path paths i) = Some (current_root paths).
Proof. destruct (slot_path_shape paths i) as (name & rest & -> & _). apply parent_path_join. Qed.

Lemma temp_path_fresh paths t pid serial :
  path_join (current_root paths) (temp_name pid serial) ∉ kept_paths paths t /\
  path_join (current_root paths) (temp_name pid serial) <> slot_path paths t.
Proof.
  assert (Hs : forall i, path_join (current_root paths) (temp_name pid serial) <> slot_path paths i).
  { intros i. destruct (slot_path_shape paths i) as (name & rest & -> & ->). intros H.
    apply path_join_inj in H as [_ H]. discriminate. }
  split; [|apply Hs]. unfold kept_paths. rewrite !not_elem_of_cons.
  split_and!; [apply Hs|apply path_join_ne_root|apply not_elem_of_nil].
Qed.

Lemma slot_not_kept paths t : t < 2 -> slot_path paths t ∉ kept_paths paths t.
Proof.
  intros Ht. unfold kept_paths. rewrite !not_elem_of_cons. split_and!; [| |apply not_elem_of_nil].
  - intros H. apply slot_path_inj in H; lia.
  - destruct (slot_path_shape paths t) as (name & rest & -> & _). apply path_join_ne_root.
Qed.

Lemma kept_settled paths t p :
  p ∈ slot_path paths t :: kept_paths paths t ->
  p ∈ [(state_slots paths).1; (state_slots paths).2; current_root paths].
Proof.
  unfold kept_paths, slot_path. destruct t; cbn; set_solver.
Qed.

(** ** Acceptance *)

(** The plan of an accepted publication. *)
Definition plans (o : SlotOutcome * SlotOutcome) (seq : N) (t : nat) : Prop :=
  o = (OutAbsent, OutAbsent) /\ seq = 0%N /\ t = 0 \/
  exists i r, newest o i r /\ t = 1 - i /\ seq = (sequence r + 1)%N.

Lemma validate_exclusive_disk {F} lease paths (w : World F) :
  same_disk (w_fs w) (w_fs (validate_exclusive lease paths w).1).
Proof.
  pose proof (validate_exclusive_spec (F:=F) (same_disk (w_fs w)) lease paths) as H.
  specialize (H ltac:(intros fs (?&?&?&?&?&?); done) w ltac:(done)).
  by destruct (validate_exclusive lease paths w) as [w' [u|e]].
Qed.

Lemma classification_of_same_disk paths fs fs' :
  same_disk fs fs' -> classification_of paths fs' = classification_of paths fs.
Proof.
  intros H. unfold classification_of, raws_of. by rewrite !(raw_of_same_disk _ _ _ _ H).
Qed.

Lemma successor_plans {F} c o seq t ph (w w' : World F) :
  slots c = o ->
  (o = (OutAbsent, OutAbsent) /\ status c = StMissing /\ authoritative c = None \/
   exists sl i r, newest o i r /\ sequence r <> u64_MAX /\ authoritative c = Some (authority sl i r) /\
               status c = status_of (authority sl i r)) ->
  (plan ← successor c; _ ← check_inactive c plan.2 plan.1; mret plan) w = (w', inl (seq, t)) ->
  transition_allowed (status c) ph = true ->
  plans o seq t /\ w' = w.
Proof.
  intros Hsl Hshape Hplan Htr. unfold plans.
  destruct Hshape as [(Ho & Hst & Ha)|(sl & i & r & Hn & Hmax & Ha & Hst)].
  - unfold successor, mbind, M_bind in Hplan. rewrite Hst, Ha in Hplan. cbn in Hplan.
    unfold check_inactive in Hplan. rewrite Hsl, Ho in Hplan. cbn in Hplan.
    injection Hplan as <- <- <-. split; [by left|done].
  - destruct Hn as (Hi & Hrest). unfold successor, mbind, M_bind in Hplan. rewrite Ha in Hplan.
    cbn -[N.leb] in Hplan. unfold checked_add_1 in Hplan.
    destruct (N.eqb_spec (sequence r) u64_MAX) as [E|E]; [done|].
    assert ((2 <=? N.of_nat i)%N = false) as E2 by (apply N.leb_gt; lia).
    rewrite E2, Nat2N.id in Hplan.
    assert (w' = w /\ seq = (sequence r + 1)%N /\ t = 1 - i) as (-> & -> & ->).
    { destruct (status c); cbn in Hplan; try discriminate;
        unfold check_inactive, fail, mret, M_ret in Hplan; repeat (case_match; simplify_eq/=); done. }
    split; [|done]. right. exists i, r. done.
Qed.

Lemma accept_disk {F} paths lease ph (w : World F) :
  same_disk (w_fs w) (w_fs (accept paths lease ph w).1).
Proof.
  unfold accept, mbind, M_bind.
  pose proof (validate_exclusive_disk lease paths w) as Hd.
  destruct (validate_exclusive lease paths w) as [w1 [u|e]]; [|exact Hd]. cbn in Hd.
  unfold classify_now. pose proof (classify_reads paths (w_fs w1)) as Hc.
  destruct (classify paths (w_fs w1)) as [fs c]. destruct Hc as [Hd1 _].
  assert (same_disk (w_fs w) fs) as Hd2 by (by transitivity (w_fs w1)).
  destruct c as [c|]; [|exact Hd2].
  assert (Hrest : forall w2, w_fs w2 = fs -> same_disk (w_fs w) (w_fs
    ((_ ← validate_transition (status c) ph;
      plan ← successor c; _ ← check_inactive c plan.2 plan.1; mret plan : M F _) w2).1)).
  { intros w2 <-. unfold mbind, M_bind, validate_transition, successor, check_inactive, fail, panic,
      mret, M_ret.
    repeat (case_match; simplify_eq/=); done. }
  destruct (status c); first [exact Hd2|by apply Hrest].
Qed.

Lemma accept_plans {F} paths lease ph seq t (w w' : World F) :
  accept paths lease ph w = (w', inl (seq, t)) ->
  exists c, classification_of paths (w_fs w) = Some c /\
    transition_allowed (status c) ph = true /\ t < 2 /\
    plans (outcomes_of (raws_of paths (w_fs w)) (state_slots paths) (project_identity paths)) seq t.
Proof.
  unfold accept, mbind at 1, M_bind at 1.
  pose proof (validate_exclusive_disk lease paths w) as Hd.
  destruct (validate_exclusive lease paths w) as [w1 [u|e]]; [|done]. cbn in Hd.
  unfold mbind at 1, M_bind at 1, classify_now.
  pose proof (classify_reads paths (w_fs w1)) as Hc.
  destruct (classify paths (w_fs w1)) as [fs oc]. destruct Hc as [Hd1 Hc].
  destruct oc as [c|]; [|done]. intros Hacc.
  destruct Hc as [Hc|(_ & c' & reason & [= <-] & Hc)]; [|by rewrite Hc in Hacc].
  rewrite (classification_of_same_disk _ _ _ Hd) in Hc.
  assert (publishable (status c)) as Hp by (by destruct (status c)).
  assert (Hacc' : (_ ← validate_transition (status c) ph;
      plan ← successor c; _ ← check_inactive c plan.2 plan.1; mret plan : M F _)
      (with_fs w1 fs) = (w', inl (seq, t))) by (by destruct (status c)).
  clear Hacc. unfold mbind at 1, M_bind at 1, validate_transition in Hacc'.
  destruct (transition_allowed (status c) ph) eqn:Htr; [|done].
  destruct (publishable_shape _ _ _ _ (eq_sym Hc) Hp) as [Hsl Hshape].
  destruct (successor_plans c _ seq t ph (with_fs w1 fs) w' Hsl) as [Hplan _]; [|done|done|].
  { destruct Hshape as [H|(i & r & H)]; [by left|right; by exists (state_slots paths), i, r]. }
  exists c. split_and!; [done|done| |done].
  destruct Hplan as [(_ & _ & ->)|(i & r & _ & -> & _)]; lia.
Qed.

(** ** The slots after a crash *)

Lemma settled_untouched paths t fs :
  t < 2 -> settled paths fs -> untouched fs (kept_paths paths t) (slot_path paths t) fs.
Proof.
  intros Ht Hs. split_and!; [|done|done|done].
  assert (H : forall m p, m ∈ fs_names fs :: fs_older fs ->
    p ∈ slot_path paths t :: kept_paths paths t -> m !! p = fs_names fs !! p).
  { intros m p Hm Hp. apply elem_of_cons in Hm as [->|Hm]; [done|].
    apply (settled_names _ _ Hs); [done|]. by apply kept_settled in Hp. }
  intros m Hm. split; [intros p Hp; apply H; [done|by right]|apply H; [done|by left]].
Qed.

Lemma untouched_same_disk fs0 kept T fs fs' :
  same_disk fs fs' -> untouched fs0 kept T fs -> untouched fs0 kept T fs'.
Proof.
  intros (Hn & Ho & Hx & Hd & Hl & _) (Hm & Ho' & Hd' & Hx'). unfold untouched, base.
  rewrite Hn, Ho, Hx, Hd, Hl. done.
Qed.

Section Left.
Context (paths : IndexPaths) (fs0 : Fs) (Hwf : wf_fs fs0) (Hset : settled paths fs0).

Lemma slot_in_settled i : i < 2 -> slot_path paths i ∈ [(state_slots paths).1; (state_slots paths).2].
Proof. intros Hi. unfold slot_path. destruct i as [|[|]]; [| |lia]; cbn; set_solver. Qed.

(** An old object named by a slot survives the crash. *)
Lemma crash_old ok t p i fs fs' :
  p ∈ [(state_slots paths).1; (state_slots paths).2] ->
  fs_names fs0 !! p = Some i ->
  base fs0 (kept_paths paths t) (slot_path paths t) ok fs -> crash fs fs' ->
  fs_objects fs' !! i = fs_objects fs0 !! i.
Proof.
  intros Hp Hi (_ & Ho & Hd & _) Hc.
  assert (i < fs_next fs0)%N by (by apply (wf_allocated _ Hwf), (wf_named _ Hwf p)).
  rewrite (crash_objects _ _ Hc); [by apply Ho|].
  intros Hin. by apply (settled_contents _ _ Hset p i), Hd.
Qed.

Lemma crash_kept ok t fs fs' :
  t < 2 -> base fs0 (kept_paths paths t) (slot_path paths t) ok fs -> crash fs fs' ->
  lookup_path (slot_path paths (1 - t)) fs' = lookup_path (slot_path paths (1 - t)) fs0.
Proof.
  intros Ht Hb Hc. unfold lookup_path.
  destruct (crash_names _ _ Hc (slot_path paths (1 - t))) as (m & Hm & ->).
  destruct (proj1 Hb m Hm) as [Hk _]. rewrite Hk by (by left).
  destruct (fs_names fs0 !! slot_path paths (1 - t)) as [i|] eqn:Ei; [|done]. cbn.
  rewrite (crash_old ok t (slot_path paths (1 - t)) i fs fs'); [done| |exact Ei|exact Hb|exact Hc].
  apply slot_in_settled. lia.
Qed.

Lemma crash_target t b fs fs' :
  t < 2 -> safe fs0 (kept_paths paths t) (slot_path paths t) b fs -> crash fs fs' ->
  lookup_path (slot_path paths t) fs' = lookup_path (slot_path paths t) fs0 \/
  lookup_path (slot_path paths t) fs' = None \/
  exists h, lookup_path (slot_path paths t) fs' = Some (h, Regular b).
Proof.
  intros Ht Hs Hc. unfold lookup_path.
  destruct (crash_names _ _ Hc (slot_path paths t)) as (m & Hm & ->).
  assert (Hgone : forall ok, base fs0 (kept_paths paths t) (slot_path paths t) ok fs ->
    ok_gone fs0 (slot_path paths t) (m !! slot_path paths t) ->
    (m !! slot_path paths t ≫= fun i => fs_objects fs' !! i ≫= fun o => Some (i, o)) =
    (fs_names fs0 !! slot_path paths t ≫= fun i => fs_objects fs0 !! i ≫= fun o => Some (i, o)) \/
    (m !! slot_path paths t ≫= fun i => fs_objects fs' !! i ≫= fun o => Some (i, o)) = None).
  { intros ok Hb [H|H]; rewrite H; [left|by right].
    destruct (fs_names fs0 !! slot_path paths t) as [i|] eqn:Ei; [|done]. cbn.
    rewrite (crash_old ok t (slot_path paths t) i fs fs'); [done| |exact Ei|exact Hb|exact Hc].
    by apply slot_in_settled. }
  destruct Hs as [Hb|(h & Hb & ((_ & Hh) & Hclean))].
  - destruct (Hgone _ Hb) as [H|H]; [by apply Hb|by left|by right; left].
  - assert (Hv := proj2 (proj1 Hb m Hm)). destruct Hv as [Hv|Hv].
    + destruct (Hgone _ Hb Hv) as [H|H]; [by left|by right; left].
    + right; right. exists h. rewrite Hv. cbn.
      rewrite (crash_objects _ _ Hc) by done. by rewrite Hh.
Qed.

(** An installed slot whose directory was synchronized survives any crash; so
    does one that simply is read back. *)
Lemma crash_installed t b h fs fs' :
  installed fs0 (kept_paths paths t) (slot_path paths t) b h fs -> crash fs fs' ->
  fs_older fs = [] \/ fs_names fs' = fs_names fs ->
  lookup_path (slot_path paths t) fs' = Some (h, Regular b).
Proof.
  intros (_ & HT & ((_ & Hh) & Hclean)) Hc Hd. unfold lookup_path.
  assert (fs_names fs' !! slot_path paths t = Some h) as ->.
  { destruct Hd as [Hd|Hd]; [|by rewrite Hd].
    destruct (crash_names _ _ Hc (slot_path paths t)) as (m & Hm & ->).
    rewrite Hd in Hm. apply list_elem_of_singleton in Hm as ->. done. }
  cbn. rewrite (crash_objects _ _ Hc) by done. by rewrite Hh.
Qed.
End Left.

(** ** Reclassification *)

Lemma at_outcomes paths fs i : i < 2 ->
  at_slot (outcomes_of (raws_of paths fs) (state_slots paths) (project_identity paths)) i =
  observe (N.of_nat i) (slot_path paths i) (raw_of (N.of_nat i) (slot_path paths i) fs)
          (project_identity paths).
Proof. by destruct i as [|[|]]; [| |lia]. Qed.

Lemma raw_of_lookup i p fs fs' :
  lookup_path p fs' = lookup_path p fs -> raw_of i p fs' = raw_of i p fs.
Proof. unfold raw_of. by intros ->. Qed.

Lemma outcomes_ext paths fs fs' t : t < 2 ->
  lookup_path (slot_path paths (1 - t)) fs' = lookup_path (slot_path paths (1 - t)) fs ->
  lookup_path (slot_path paths t) fs' = lookup_path (slot_path paths t) fs ->
  raws_of paths fs' = raws_of paths fs.
Proof.
  intros Ht HA HT. unfold raws_of. destruct t as [|[|]]; [| |lia]; unfold slot_path in HA, HT;
    cbn in HA, HT; by rewrite (raw_of_lookup _ _ _ _ HA), (raw_of_lookup _ _ _ _ HT).
Qed.

Lemma absent_lookup i p fs owner :
  OutAbsent = observe i p (raw_of i p fs) owner -> lookup_path p fs = None.
Proof.
  unfold raw_of. destruct (lookup_path p fs) as [[j []]|]; cbn; try done.
  unfold parse_slot. destruct (slot_from_slice bytes); cbn; [|done].
  unfold validate_parsed. by repeat case_match.
Qed.

(** The kept slot still holds what it held, the target holds the successor. *)
Lemma classification_installed paths fs fs' seq t ph b h :
  is_lowercase_sha256 (project_identity paths) = true ->
  state_to_vec (successor_state seq ph (project_identity paths)) = inl b ->
  plans (outcomes_of (raws_of paths fs) (state_slots paths) (project_identity paths)) seq t ->
  lookup_path (slot_path paths (1 - t)) fs' = lookup_path (slot_path paths (1 - t)) fs ->
  lookup_path (slot_path paths t) fs' = Some (h, Regular b) ->
  let a := authority (state_slots paths) t (successor_record seq ph (project_identity paths)) in
  exists o, classification_of paths fs' = Some (mkClassification (authority_status a) (Some a) o).
Proof.
  intros Howner Hb Hplan HA HT. cbn. eexists. apply classify_newest.
  assert (Ht : t < 2) by (destruct Hplan as [(_&_&->)|(i & r & _ & -> & _)]; lia).
  assert (Ht' : 1 - t < 2) by lia.
  unfold newest. rewrite !at_outcomes by done. split_and!; [done| |].
  - unfold raw_of. rewrite HT. apply observe_successor; [done|].
    by rewrite (state_roundtrip _ _ Hb).
  - rewrite (raw_of_lookup _ _ _ _ HA), <- at_outcomes by done.
    destruct Hplan as [(-> & -> & ->)|(i & r & (Hi & Hr & _) & -> & ->)]; [by left|].
    replace (1 - (1 - i)) with i by lia. right. exists r. split; [done|]. cbn. lia.
Qed.

(** The target is gone: what was newest still is. *)
Lemma classification_gone paths fs fs' seq t c :
  classification_of paths fs = Some c -> publishable (status c) ->
  plans (outcomes_of (raws_of paths fs) (state_slots paths) (project_identity paths)) seq t ->
  lookup_path (slot_path paths (1 - t)) fs' = lookup_path (slot_path paths (1 - t)) fs ->
  lookup_path (slot_path paths t) fs' = None ->
  exists c', classification_of paths fs' = Some c' /\ status c' = status c /\
             authoritative c' = authoritative c.
Proof.
  intros Hc Hp Hplan HA HT.
  assert (Ht : t < 2) by (destruct Hplan as [(_&_&->)|(i & r & _ & -> & _)]; lia).
  destruct Hplan as [(Ho & -> & ->)|(i & r & Hn & -> & ->)].
  - exists c. split_and!; [|done|done]. rewrite <- Hc. unfold classification_of.
    rewrite (outcomes_ext paths fs fs' 0); [done|done|done|]. rewrite HT.
    assert (Hobs := at_outcomes paths fs 0 ltac:(lia)). rewrite Ho in Hobs. cbn in Hobs.
    symmetry. by eapply absent_lookup.
  - pose proof (classify_newest _ _ _ _ _ Hn) as H1. unfold classification_of in Hc.
    rewrite Hc in H1. injection H1 as ->.
    destruct Hn as (Hi & Hr & Hbelow).
    assert (Hn' : newest (outcomes_of (raws_of paths fs') (state_slots paths)
                            (project_identity paths)) i r).
    { replace (1 - (1 - i)) with i in HA by lia.
      rewrite at_outcomes in Hr by done. unfold newest.
      rewrite !at_outcomes by lia. rewrite (raw_of_lookup _ _ _ _ HA).
      split_and!; [done|done|]. left. unfold raw_of. by rewrite HT. }
    unfold classification_of. rewrite (classify_newest _ _ _ _ _ Hn').
    by eexists.
Qed.

(** Nothing was touched: any crash leaves the slots as they were. *)
Lemma classification_undisturbed paths fs0 fs fs' :
  wf_fs fs0 -> settled paths fs0 -> same_disk fs0 fs -> crash fs fs' ->
  classification_of paths fs' = classification_of paths fs0.
Proof.
  intros Hwf Hset Hd Hc. unfold classification_of.
  assert (Hb : forall t, t < 2 -> base fs0 (kept_paths paths t) (slot_path paths t)
                                    (ok_old fs0 (slot_path paths t)) fs).
  { intros t Ht. eapply untouched_same_disk; [exact Hd|]. by apply settled_untouched. }
  rewrite (outcomes_ext paths fs0 fs' 0); [done|lia| |].
  - apply (crash_kept paths fs0 Hwf Hset _ 0 fs fs' ltac:(lia) (Hb 0 ltac:(lia)) Hc).
  - apply (crash_kept paths fs0 Hwf Hset _ 1 fs fs' ltac:(lia) (Hb 1 ltac:(lia)) Hc).
Qed.

Lemma safe_kept paths fs0 : wf_fs fs0 -> settled paths fs0 -> forall t b fs fs',
  t < 2 -> safe fs0 (kept_paths paths t) (slot_path paths t) b fs -> crash fs fs' ->
  lookup_path (slot_path paths (1 - t)) fs' = lookup_path (slot_path paths (1 - t)) fs0.
Proof.
  intros Hwf Hset t b fs fs' Ht Hs Hc.
  destruct Hs as [Hb|(h & Hb & _)]; by eapply (crash_kept paths fs0 Hwf Hset).
Qed.

Lemma allowed_publishable s ph : transition_allowed s ph = true -> publishable s.
Proof. by destruct s, ph. Qed.

(** The planned sequence follows the authority's. *)
Lemma plans_sequence paths fs seq t c :
  classification_of paths fs = Some c ->
  plans (outcomes_of (raws_of paths fs) (state_slots paths) (project_identity paths)) seq t ->
  seq = match authoritative c with
        | None => 0%N | Some old => (sequence (auth_record old) + 1)%N end.
Proof.
  intros Hc [(Ho & -> & _)|(i & r & Hn & _ & ->)]; unfold classification_of in Hc.
  - assert (classify_raw (raws_of paths fs) (state_slots paths) (project_identity paths) =
            Some (mkClassification StMissing None (OutAbsent, OutAbsent))) as E.
    { unfold classify_raw. unfold outcomes_of in Ho. rewrite Ho. done. }
    rewrite E in Hc. by injection Hc as <-.
  - rewrite (classify_newest _ _ _ _ _ Hn) in Hc. by injection Hc as <-.
Qed.

Lemma successor_status sl t seq ph owner :
  authority_status (authority sl t (successor_record seq ph owner)) =
  if (seq =? u64_MAX)%N then StCorrupt (SequenceExhausted u64_MAX) else fresh_status ph.
Proof.
  unfold authority_status. cbn. destruct (N.eqb_spec seq u64_MAX) as [->|]; [done|]. by destruct ph.
Qed.

(** ** Every run of a publication *)

Section Outcome.
Context {F : Type} {injector : FaultInjector F}.
Context (paths : IndexPaths) (lease : IndexLease) (ph : StatePhase).

(** What a publication that returned [p] leaves. *)
Definition committed (fs0 : Fs) (seq : N) (t : nat) (b : string) (p : PublishedState) (fs : Fs)
  : Prop :=
  published_slot p = N.of_nat t /\
  published_record p = successor_record seq ph (project_identity paths) /\
  (exists h, installed fs0 (kept_paths paths t) (slot_path paths t) b h fs) /\
  (parent_sync p = Synced -> fs_older fs = []).

(** The mutations that follow acceptance, from a disk like [fs0]. *)
Lemma mutation_spec fs0 seq t b :
  wf_fs fs0 -> settled paths fs0 -> t < 2 ->
  state_to_vec (successor_state seq ph (project_identity paths)) = inl b ->
  let kept := kept_paths paths t in
  let T := slot_path paths t in
  triple (same_disk fs0)
    (temp_path ← write_temp (current_root paths) b;
     synced ← install_temp (current_root paths) temp_path T;
     mret (mkPublishedState (N.of_nat t) (successor_record seq ph (project_identity paths)) synced)
     : M F PublishedState)
    (committed fs0 seq t b) (safe fs0 kept T b).
Proof.
  intros Hwf Hset Ht Hb kept T.
  apply triple_pre with (P' := untouched fs0 kept T).
  { intros fs Hd. eapply untouched_same_disk; [exact Hd|]. by apply settled_untouched. }
  destruct (settled_root _ _ Hset) as (d & Hroot).
  eapply triple_bind; [apply write_temp_spec; intros; apply temp_path_fresh|].
  intros p w (Hpk & HpT & h & Hw).
  refine (triple_bind (written fs0 kept T b p h) (install_temp (current_root paths) p T)
    (fun s fs => installed fs0 kept T b h fs /\ (s = Synced -> fs_older fs = []))
    _ (committed fs0 seq t b) (safe fs0 kept T b) _ _ w Hw).
  - by apply install_temp_spec with (d := d); [| | |apply slot_not_kept|right; left|].
  - intros s. apply triple_ret. intros fs [Hi Hs]. split_and!; [done|done|by exists h|done].
Qed.

Definition accepted (w : World F) (seq : N) (t : nat) (c : IndexStateClassification) (b : string)
  : Prop :=
  classification_of paths (w_fs w) = Some c /\ transition_allowed (status c) ph = true /\ t < 2 /\
  plans (outcomes_of (raws_of paths (w_fs w)) (state_slots paths) (project_identity paths)) seq t /\
  state_to_vec (successor_state seq ph (project_identity paths)) = inl b.

Lemma publish_outcome (w w' : World F) res :
  wf_fs (w_fs w) -> settled paths (w_fs w) ->
  publish_index_state_with paths lease ph w = (w', res) ->
  (same_disk (w_fs w) (w_fs w') /\ forall p, res <> inl p) \/
  exists seq t c b, accepted w seq t c b /\
    let kept := kept_paths paths t in
    let T := slot_path paths t in
    match res with
    | inr _ => safe (w_fs w) kept T b (w_fs w')
    | inl p => committed (w_fs w) seq t b p (w_fs w')
    end.
Proof.
  intros Hwf Hset Hpub. unfold publish_index_state_with, mbind, M_bind at 1 in Hpub.
  pose proof (accept_disk paths lease ph w) as Hd.
  destruct (accept paths lease ph w) as [w1 [[seq t]|e]] eqn:Hacc; cbn [fst] in Hd;
    [|injection Hpub as <- <-; by left].
  destruct (accept_plans _ _ _ _ _ _ _ Hacc) as (c & Hc & Htr & Ht & Hplan).
  destruct (state_to_vec (successor_state seq ph (project_identity paths))) as [b|err] eqn:Hb;
    [|injection Hpub as <- <-; by left].
  change (at_slot (state_slots paths)) with (slot_path paths) in Hpub.
  rewrite !slot_path_parent, !bool_decide_true in Hpub by done.
  cbn [negb orb] in Hpub. right. exists seq, t, c, b. split; [done|].
  pose proof (mutation_spec (w_fs w) seq t b Hwf Hset Ht Hb w1 Hd) as H.
  match type of H with match ?m with _ => _ end => assert (m = (w', res)) as Hm by exact Hpub end.
  rewrite Hm in H. by destruct res.
Qed.
End Outcome.
End Crash.
