(* ===== verification/PublishLive.v ===== *)
(** * A publication that nothing disturbs succeeds

    The total-correctness counterpart of [PublisherFacts]: on a file system
    whose operations do not fail, every step of an accepted publication goes
    through. *)
From S2P Require Import Prelude FsModel IndexState IndexStateFacts Publisher PublisherFacts.
From S2P Require Import PublishCrash.

Definition io_total {A} (P : Fs -> Prop) (m : io A) (Q : A -> Fs -> Prop) : Prop :=
  forall fs, P fs -> quiet fs ->
  exists fs' a, m fs = (fs', inl a) /\ Q a fs' /\ quiet fs'.

Definition total {F A} (P : Fs -> Prop) (m : M F A) (Q : A -> Fs -> Prop) : Prop :=
  forall w, P (w_fs w) -> quiet (w_fs w) ->
  exists w' a, m w = (w', inl a) /\ Q a (w_fs w') /\ quiet (w_fs w').

Section Total.
Context {F : Type}.

Lemma total_bind {A B} P (m : M F A) R (k : A -> M F B) Q :
  total P m R -> (forall a, total (R a) (k a) Q) -> total P (m ≫= k) Q.
Proof.
  intros Hm Hk w HP Hq. destruct (Hm w HP Hq) as (w' & a & E & HR & Hq').
  unfold mbind, M_bind. rewrite E. by apply Hk.
Qed.

Lemma total_ret {A} (P : Fs -> Prop) (a : A) (Q : A -> Fs -> Prop) :
  (forall fs, P fs -> Q a fs) -> total P (mret a : M F A) Q.
Proof. intros H w HP Hq. exists w, a. auto. Qed.

Lemma total_do_io {A} P op p (m : io A) Q : io_total P m Q -> total P (do_io op p m : M F A) Q.
Proof.
  intros Hm w HP Hq. destruct (Hm (w_fs w) HP Hq) as (fs' & a & E & HQ & Hq').
  unfold do_io, try_io, mbind, M_bind. rewrite E. by exists (with_fs w fs'), a.
Qed.
End Total.

Lemma total_checkpoint (P : Fs -> Prop) c op p :
  total P (checkpoint c op p : M NoFault unit) (fun _ => P).
Proof. intros w HP Hq. unfold checkpoint. cbn. by eexists _, tt. Qed.

(** A step known partially is total once it cannot fail. *)
Lemma io_total_of_spec {A} (P : Fs -> Prop) (m : io A) Q X :
  io_spec P m Q X ->
  (forall fs, P fs -> quiet fs -> exists fs' a, m fs = (fs', inl a) /\ fs_fault fs' = fs_fault fs) ->
  io_total P m Q.
Proof.
  intros Hs Ht fs HP Hq. destruct (Ht fs HP Hq) as (fs' & a & E & Hf).
  specialize (Hs fs HP). rewrite E in Hs. exists fs', a. split_and!; [done|done|].
  intros n op p. by rewrite Hf.
Qed.

Section Steps.
Context (fs0 : Fs) (kept : list Path) (T : Path) (bytes : string).

Lemma write_total p P h :
  io_total (writing fs0 kept T EmptyString P h) (write_all p h bytes)
           (fun _ => writing fs0 kept T bytes P h).
Proof.
  eapply io_total_of_spec; [apply write_all_spec|]. intros fs H Hq. unfold write_all.
  rewrite Hq. eexists _, tt. split; [done|]. unfold append. by repeat case_match.
Qed.

Lemma flush_total p P h :
  io_total (writing fs0 kept T bytes P h) (flush p) (fun _ => writing fs0 kept T bytes P h).
Proof.
  eapply io_total_of_spec; [apply flush_spec|]. intros fs H Hq. unfold flush, attempt.
  rewrite Hq. by eexists _, tt.
Qed.

Lemma sync_total p P h :
  io_total (writing fs0 kept T bytes P h) (sync_all p h) (fun _ => written fs0 kept T bytes P h).
Proof.
  eapply io_total_of_spec; [apply sync_file_spec|]. intros fs H Hq. unfold sync_all, attempt.
  rewrite Hq. destruct (fs_objects (tick fs) !! h) as [[]|]; by eexists _, tt.
Qed.

(** The replaced slot is missing or a regular file. *)
Definition replaceable : Prop :=
  match lookup_path T fs0 with None | Some (_, Regular _) => True | _ => False end.

Lemma base_replaceable ok fs :
  wf_fs fs0 -> replaceable -> base fs0 kept T ok fs ->
  fs_names fs !! T = fs_names fs0 !! T \/ fs_names fs !! T = None ->
  match lookup_path T fs with None | Some (_, Regular _) => True | _ => False end.
Proof.
  intros Hwf Hrep Hb HT. unfold replaceable, lookup_path in *.
  destruct HT as [->| ->]; [|done].
  destruct (fs_names fs0 !! T) as [i|] eqn:Ei; [|done]. cbn in *.
  rewrite (proj1 (proj2 Hb)); [done|].
  by apply (wf_allocated _ Hwf), (wf_named _ Hwf T).
Qed.

Lemma prepare_total P h :
  P <> T -> T ∉ kept -> wf_fs fs0 -> replaceable ->
  total (written fs0 kept T bytes P h) (prepare_inactive T : M NoFault unit)
        (fun _ => prepared fs0 kept T bytes P h).
Proof.
  intros HPT HTk Hwf Hrep w Hw Hq.
  pose proof (prepare_inactive_spec (F:=NoFault) fs0 kept T bytes P h HPT HTk w Hw) as Hs.
  assert (Hl := base_replaceable _ (w_fs w) Hwf Hrep (proj1 Hw)).
  specialize (Hl ltac:(left; apply (proj1 (proj1 Hw) (fs_names (w_fs w))); by left)).
  assert (Hok : exists w', prepare_inactive T w = (w', inl tt) /\
                           fs_fault (w_fs w') = fs_fault (w_fs w)).
  { unfold prepare_inactive, mbind, M_bind, try_io, symlink_metadata, attempt. rewrite Hq.
    change (lookup_path T (tick (w_fs w))) with (lookup_path T (w_fs w)).
    destruct (lookup_path T (w_fs w)) as [[i o]|] eqn:El; cbn -[lookup_path];
      [destruct o; try done|rewrite decide_True by done; by eexists].
    unfold do_io, mbind, M_bind, try_io, remove_file, attempt. cbn -[lookup_path]. rewrite Hq.
    change (lookup_path T (tick (tick (w_fs w)))) with (lookup_path T (w_fs w)). rewrite El.
    by eexists. }
  destruct Hok as (w' & E & Hf). rewrite E in Hs. exists w', tt. split_and!; [done|done|].
  intros n op p. by rewrite Hf.
Qed.

Lemma rename_total P h :
  P <> T -> T ∉ kept -> P ∉ kept -> wf_fs fs0 -> replaceable ->
  io_total (prepared fs0 kept T bytes P h) (rename P T) (fun _ => installed fs0 kept T bytes h).
Proof.
  intros HPT HTk HPk Hwf Hrep. eapply io_total_of_spec; [by apply rename_spec|].
  intros fs (Hb & HP & _) Hq. unfold rename, attempt. rewrite Hq. cbn -[lookup_path]. rewrite HP.
  change (lookup_path T (tick fs)) with (lookup_path T fs).
  pose proof (base_replaceable _ fs Hwf Hrep Hb
                (proj2 (proj1 Hb (fs_names fs) ltac:(by left)))) as Hl.
  destruct (lookup_path T fs) as [[i []]|]; try done; by eexists _, tt.
Qed.

Lemma sync_parent_total root h d :
  wf_fs fs0 -> root ∈ kept -> lookup_path root fs0 = Some (d, Directory) ->
  total (installed fs0 kept T bytes h) (sync_parent root : M NoFault _)
        (fun s fs => s = Synced /\ installed fs0 kept T bytes h fs).
Proof.
  intros Hwf Hroot Hd w H Hq.
  pose proof (sync_parent_spec (F:=NoFault) fs0 kept T bytes root h d Hwf Hroot Hd w H) as Hs.
  pose proof (installed_lookup _ _ _ _ _ _ _ _ _ Hwf Hroot Hd H) as Hl.
  assert (Hok : exists w', sync_parent root w = (w', inl Synced) /\
                           fs_fault (w_fs w') = fs_fault (w_fs w)).
  { unfold sync_parent, do_io, mbind, M_bind, try_io, open, attempt. rewrite Hq.
    rewrite (follow_directory 40 root (tick (w_fs w)) d Hl). cbn -[lookup_path].
    unfold sync_all, attempt. cbn -[lookup_path]. rewrite Hq.
    unfold lookup_path in Hl. destruct (fs_names (w_fs w) !! root) as [j|]; [|done]. cbn in Hl.
    destruct (fs_objects (w_fs w) !! j) eqn:Ej; [|done]. injection Hl as -> ->.
    cbn. rewrite Ej. by eexists. }
  destruct Hok as (w' & E & Hf). rewrite E in Hs. exists w', Synced. split_and!; [done|done|apply Hs|].
  intros n op p. by rewrite Hf.
Qed.
End Steps.

Section Live.
Context {codec : SlotCodec} {laws : SlotCodecLaws codec}.

(** The lease is exclusive, on this root, and its lock file is still there. *)
Definition lease_valid (lease : IndexLease) (paths : IndexPaths) (fs : Fs) : Prop :=
  lease_mode lease = Exclusive /\ lease_db_parent lease = current_root paths /\
  lease_lock_path lease = permanent_lock paths /\
  exists b, lookup_path (permanent_lock paths) fs = Some (lease_file lease, Regular b).

Lemma validate_exclusive_lease_error {F} lease paths (w w' : World F) u :
  validate_exclusive lease paths w = (w', inr u) -> exists e, u = Fails (Lease e).
Proof.
  unfold validate_exclusive, path_still_names_file, mbind, M_bind, try_io, fail, mret, M_ret.
  repeat (case_match; simplify_eq/=); intros; simplify_eq; eauto.
Qed.

Lemma validate_exclusive_valid {F} lease paths (w w' : World F) :
  validate_exclusive lease paths w = (w', inl tt) -> lease_valid lease paths (w_fs w).
Proof.
  unfold validate_exclusive. destruct (lease_mode lease) eqn:Em; [done|].
  case_bool_decide as Hp; [cbn|done]. case_bool_decide as Hl; [cbn|done].
  unfold path_still_names_file, mbind, M_bind, try_io, file_metadata, symlink_metadata, attempt.
  destruct (fs_fault (w_fs w) _ _ _); [done|]. cbn -[lookup_path].
  destruct (fs_objects (w_fs w) !! lease_file lease) as [o|] eqn:Eo; [|done]. cbn -[lookup_path].
  destruct (fs_fault (w_fs w) _ _ _); [done|].
  change (lookup_path (lease_lock_path lease) (tick (tick (w_fs w))))
    with (lookup_path (lease_lock_path lease) (w_fs w)).
  destruct (lookup_path (lease_lock_path lease) (w_fs w)) as [[i o']|] eqn:El; [|done].
  cbn -[lookup_path]. destruct (is_file (mkMetadata i o')) eqn:Ef; [cbn|done].
  case_bool_decide as Hi; [|done]. cbn in Hi. subst i. intros _.
  unfold lease_valid. rewrite <- Hl. split_and!; [done|done|done|]. destruct o'; try done. by eexists.
Qed.

(** Two worlds that differ in the clock only. *)
Definition same_world {F} (w w' : World F) : Prop :=
  same_disk (w_fs w) (w_fs w') /\ w_pid w' = w_pid w /\ w_next_temp w' = w_next_temp w /\
  w_fault w' = w_fault w.

Lemma validate_exclusive_total {F} lease paths (w : World F) :
  quiet (w_fs w) -> lease_valid lease paths (w_fs w) ->
  exists w', validate_exclusive lease paths w = (w', inl tt) /\ same_world w w'.
Proof.
  intros Hq (Hm & Hp & Hl & b & Hb). unfold validate_exclusive. rewrite Hm, Hp, Hl.
  rewrite !bool_decide_true by done. cbn [negb].
  unfold path_still_names_file, mbind, M_bind, try_io, file_metadata, symlink_metadata, attempt.
  rewrite Hq. assert (Ho : fs_objects (w_fs w) !! lease_file lease = Some (Regular b)).
  { unfold lookup_path in Hb. destruct (fs_names (w_fs w) !! permanent_lock paths) as [j|]; [|done].
    cbn in Hb. destruct (fs_objects (w_fs w) !! j) eqn:Ej; [|done]. by injection Hb as <- ->. }
  cbn -[lookup_path]. rewrite Ho. cbn -[lookup_path]. rewrite Hq.
  change (lookup_path (permanent_lock paths) (tick (tick (w_fs w))))
    with (lookup_path (permanent_lock paths) (w_fs w)).
  rewrite Hb. cbn -[lookup_path]. rewrite bool_decide_true by done.
  eexists. split; [reflexivity|]. done.
Qed.

(** On a quiet file system the lease check decides [lease_valid]. *)
Lemma validate_exclusive_decides {F} lease paths (w : World F) :
  quiet (w_fs w) ->
  exists w', same_disk (w_fs w) (w_fs w') /\
    (lease_valid lease paths (w_fs w) /\ validate_exclusive lease paths w = (w', inl tt) \/
     exists e, ~ lease_valid lease paths (w_fs w) /\
       validate_exclusive lease paths w = (w', inr (Fails (Lease e)))).
Proof.
  intros Hq. pose proof (validate_exclusive_disk lease paths w) as Hd.
  destruct (validate_exclusive lease paths w) as [w' [[]|u]] eqn:E; cbn [fst] in Hd; exists w';
    (split; [exact Hd|]).
  - left. split; [|done]. by eapply validate_exclusive_valid.
  - right. destruct (validate_exclusive_lease_error _ _ _ _ _ E) as (e & ->). exists e.
    split; [|done]. intros Hl.
    destruct (validate_exclusive_total lease paths w Hq Hl) as (w2 & E2 & _). congruence.
Qed.

Lemma successor_total {F} c o sl i r (w : World F) :
  slots c = o -> newest o i r -> sequence r <> u64_MAX ->
  authoritative c = Some (authority sl i r) -> publishable (status c) -> status c <> StMissing ->
  (plan ← successor c; _ ← check_inactive c plan.2 plan.1; mret plan) w =
    (w, inl ((sequence r + 1)%N, 1 - i)).
Proof.
  intros Hsl (Hi & Hr & Hb) Hmax Ha Hp Hm.
  unfold successor, mbind, M_bind. rewrite Ha. cbn -[N.leb].
  unfold checked_add_1. apply N.eqb_neq in Hmax. rewrite Hmax.
  replace (2 <=? N.of_nat i)%N with false by (symmetry; apply N.leb_gt; lia).
  rewrite Nat2N.id.
  assert (Hin : check_inactive c (1 - i) (sequence r + 1) w = (w, inl tt)).
  { unfold check_inactive. rewrite Hsl. destruct Hb as [->|(r' & -> & Hlt)]; [done|].
    by replace (sequence r + 1 <=? sequence r')%N with false by (symmetry; apply N.leb_gt; lia). }
  destruct (status c); try done; cbn -[check_inactive]; by rewrite Hin.
Qed.

Lemma accept_total {F} paths lease ph c (w : World F) :
  quiet (w_fs w) -> lease_valid lease paths (w_fs w) ->
  classification_of paths (w_fs w) = Some c -> transition_allowed (status c) ph = true ->
  exists w' seq t, accept paths lease ph w = (w', inl (seq, t)) /\ same_world w w'.
Proof.
  intros Hq Hl Hc Htr. destruct (validate_exclusive_total lease paths w Hq Hl) as (w1 & E1 & Hw1).
  unfold accept, mbind, M_bind. rewrite E1. unfold classify_now.
  pose proof (classify_reads paths (w_fs w1)) as Hr.
  destruct (classify paths (w_fs w1)) as [fs oc]. destruct Hr as [Hd Hr].
  assert (Hq1 : quiet (w_fs w1)) by (eapply quiet_same_disk; [apply Hw1|done]).
  destruct Hr as [Hr|[Hr _]]; [|done].
  rewrite (classification_of_same_disk _ _ _ (proj1 Hw1)), Hc in Hr. subst oc.
  assert (Hw2 : same_world w (with_fs w1 fs)).
  { destruct Hw1 as (H1 & H2). split; [by transitivity (w_fs w1)|done]. }
  set (w2 := with_fs w1 fs) in *.
  assert (Hgo : exists seq t,
    (plan ← successor c; _ ← check_inactive c plan.2 plan.1; mret plan) w2 = (w2, inl (seq, t))).
  { destruct (publishable_shape _ _ _ _ Hc (allowed_publishable _ _ Htr))
      as [Hsl [(Ho & Hst & Ha)|(i & r & Hn & Hmax & Ha & Hst)]].
    - exists 0%N, 0. unfold successor, check_inactive, mbind, M_bind. rewrite Hst, Ha. cbn.
      by rewrite Hsl, Ho.
    - eexists _, _. eapply successor_total; eauto; [by eapply allowed_publishable|].
      rewrite Hst. unfold status_of. repeat case_match; done. }
  destruct Hgo as (seq & t & Hgo). exists w2, seq, t. split; [|exact Hw2].
  unfold validate_transition. rewrite Htr. unfold mbind, M_bind in Hgo.
  destruct (status c); try (by destruct ph); exact Hgo.
Qed.

(** The slot an accepted publication replaces is missing or a regular file. *)
Lemma observe_replaceable i p fs owner :
  (forall reason, observe i p (raw_of i p fs) owner <> OutInvalid reason) -> replaceable fs p.
Proof.
  unfold raw_of, replaceable. intros H.
  destruct (lookup_path p fs) as [[j []]|]; cbn in H |- *; try done; by destruct (H _ eq_refl).
Qed.

Lemma plans_replaceable paths fs seq t :
  plans (outcomes_of (raws_of paths fs) (state_slots paths) (project_identity paths)) seq t ->
  t < 2 /\ replaceable fs (slot_path paths t).
Proof.
  intros [(Ho & _ & ->)|(i & r & (Hi & _ & Hb) & -> & _)]; (split; [lia|]).
  - apply (observe_replaceable (N.of_nat 0) _ _ (project_identity paths)).
    rewrite <- at_outcomes, Ho by lia. done.
  - apply (observe_replaceable (N.of_nat (1 - i)) _ _ (project_identity paths)).
    rewrite <- at_outcomes by lia. destruct Hb as [-> |(r' & -> & _)]; done.
Qed.

(** The first temporary name tried is free. *)
Definition temp_free {F} (paths : IndexPaths) (w : World F) : Prop :=
  fs_names (w_fs w) !! path_join (current_root paths) (temp_name (w_pid w) (w_next_temp w)) = None.

Lemma create_temp_total {F} fs0 kept T (paths : IndexPaths) (w : World F) :
  quiet (w_fs w) -> temp_free paths w -> untouched fs0 kept T (w_fs w) ->
  (forall pid serial, path_join (current_root paths) (temp_name pid serial) ∉ kept /\
                      path_join (current_root paths) (temp_name pid serial) <> T) ->
  exists w' t, create_temp (current_root paths) w = (w', inl t) /\
    t.1 ∉ kept /\ t.1 <> T /\ writing fs0 kept T EmptyString t.1 t.2 (w_fs w') /\ quiet (w_fs w').
Proof.
  intros Hq Hfree Hu Hfresh.
  pose proof (create_temp_spec (F:=F) fs0 kept T EmptyString (current_root paths) Hfresh w Hu) as Hs.
  unfold temp_free in Hfree.
  unfold create_temp in *. change TEMP_CREATE_ATTEMPTS with (S 63) in *.
  cbn [create_temp_loop] in *. unfold next_serial, process_id, mbind, M_bind, try_io, create_new,
    attempt in *. cbn [w_fs w_pid w_next_temp w_fault] in *. rewrite Hq in *.
  change (fs_names (tick (w_fs w))) with (fs_names (w_fs w)) in *. rewrite Hfree in *.
  eexists _, _. split; [reflexivity|]. cbn [fst snd]. destruct (Hfresh (w_pid w) (w_next_temp w)).
  split_and!; [done|done|exact Hs|]. intros n op p. apply Hq.
Qed.

Lemma write_rest_total fs0 kept T b p h :
  total (writing fs0 kept T EmptyString p h)
    (_ ← checkpoint TempCreated CreateTemp p;
     _ ← do_io WriteTemp p (write_all p h b);
     _ ← checkpoint TempWritten WriteTemp p;
     _ ← do_io FlushTemp p (flush p);
     _ ← checkpoint TempFlushed FlushTemp p;
     _ ← do_io SyncTemp p (sync_all p h);
     _ ← checkpoint TempSynced SyncTemp p; mret p : M NoFault Path)
    (fun q fs => q = p /\ written fs0 kept T b p h fs).
Proof.
  eapply total_bind; [apply total_checkpoint|intros ?; cbn beta].
  eapply total_bind; [apply total_do_io, write_total|intros ?; cbn beta].
  eapply total_bind; [apply total_checkpoint|intros ?; cbn beta].
  eapply total_bind; [apply total_do_io, flush_total|intros ?; cbn beta].
  eapply total_bind; [apply total_checkpoint|intros ?; cbn beta].
  eapply total_bind; [apply total_do_io, sync_total|intros ?; cbn beta].
  eapply total_bind; [apply total_checkpoint|intros ?; cbn beta].
  by apply total_ret.
Qed.

Lemma install_total fs0 kept T b root d p h :
  wf_fs fs0 -> replaceable fs0 T -> p <> T -> p ∉ kept -> T ∉ kept -> root ∈ kept ->
  lookup_path root fs0 = Some (d, Directory) ->
  total (written fs0 kept T b p h) (install_temp root p T : M NoFault _)
        (fun s fs => s = Synced).
Proof.
  intros Hwf Hrep HpT Hpk HTk Hroot Hd. unfold install_temp.
  eapply total_bind; [by apply prepare_total|intros ?; cbn beta].
  eapply total_bind; [apply total_checkpoint|intros ?; cbn beta].
  eapply total_bind; [by apply total_do_io, rename_total|intros ?; cbn beta].
  eapply total_bind; [apply total_checkpoint|intros ?; cbn beta].
  eapply total_bind; [by eapply sync_parent_total|intros s; cbn beta].
  eapply total_bind; [apply total_checkpoint|intros ?; cbn beta].
  apply total_ret. by intros fs [-> _].
Qed.

Lemma publish_total paths lease ph c (w : World NoFault) :
  wf_fs (w_fs w) -> settled paths (w_fs w) -> quiet (w_fs w) ->
  lease_valid lease paths (w_fs w) -> temp_free paths w ->
  (forall s, exists b, state_to_vec s = inl b) ->
  classification_of paths (w_fs w) = Some c -> transition_allowed (status c) ph = true ->
  exists w' p, publish_index_state_with paths lease ph w = (w', inl p) /\ parent_sync p = Synced.
Proof.
  intros Hwf Hset Hq Hl Hfree Hser Hc Htr.
  destruct (accept_total paths lease ph c w Hq Hl Hc Htr) as (w1 & seq & t & E & Hd & Hpid & Hnt & _).
  destruct (accept_plans _ _ _ _ _ _ _ E) as (_ & _ & _ & Ht & Hplan).
  destruct (plans_replaceable _ _ _ _ Hplan) as [_ Hrep].
  unfold publish_index_state_with, mbind, M_bind. rewrite E.
  destruct (Hser (successor_state seq ph (project_identity paths))) as (b & Hb). rewrite Hb.
  change (at_slot (state_slots paths)) with (slot_path paths).
  rewrite !slot_path_parent, !bool_decide_true by done. cbn [negb orb].
  set (kept := kept_paths paths t). set (T := slot_path paths t).
  assert (Hu : untouched (w_fs w) kept T (w_fs w1)).
  { eapply untouched_same_disk; [exact Hd|]. by apply settled_untouched. }
  assert (Hq1 : quiet (w_fs w1)) by (by eapply quiet_same_disk).
  assert (Hfree1 : temp_free paths w1).
  { unfold temp_free in *. rewrite Hpid, Hnt. destruct Hd as (-> & _). done. }
  destruct (create_temp_total (w_fs w) kept T paths w1 Hq1 Hfree1 Hu ltac:(intros; apply temp_path_fresh))
    as (w2 & [p h] & E2 & Hpk & HpT & Hw2 & Hq2). cbn [fst snd] in *.
  destruct (write_rest_total (w_fs w) kept T b p h w2 Hw2 Hq2) as (w3 & q & E3 & (-> & Hw3) & Hq3).
  destruct (settled_root _ _ Hset) as (d & Hroot).
  destruct (install_total (w_fs w) kept T b (current_root paths) d p h Hwf Hrep HpT Hpk
    (slot_not_kept _ _ Ht) ltac:(right; left) Hroot w3 Hw3 Hq3) as (w4 & s & E4 & -> & _).
  assert (write_temp (current_root paths) b w1 = (w3, inl p)) as E12.
  { unfold write_temp. unfold mbind, M_bind at 1. rewrite E2. exact E3. }
  rewrite E12, E4. by eexists w4, _.
Qed.
End Live.
