(* ===== verification/IndexProps.v ===== *)
(** * Properties of the index-state slots

    Crash safety, commitment and progress of a publication; what the
    classification reports; what a slot read certifies. *)
From stdpp Require Import countable.
From S2P Require Import Prelude FsModel IndexState IndexStateFacts Publisher PublisherFacts PublishCrash.
From S2P Require Import PublishLive.

(** ** Concrete index-state instances

    A codec that meets its laws, an index root with its lock, an exclusive
    lease on it, and an injector that fails at one checkpoint, for the
    theorems' witnesses. *)

(** ** A codec *)

Fixpoint string_of_pos (p : positive) : string :=
  match p with
  | xH => EmptyString
  | xO p => String "0" (string_of_pos p)
  | xI p => String "1" (string_of_pos p)
  end.
Fixpoint pos_of_string (s : string) : positive :=
  match s with
  | EmptyString => xH
  | String c s => if Ascii.eqb c "0" then xO (pos_of_string s) else xI (pos_of_string s)
  end.

Lemma pos_of_string_of_pos p : pos_of_string (string_of_pos p) = p.
Proof. by induction p as [p IH|p IH|]; cbn; rewrite ?IH. Qed.

Fixpoint demo_digest (n : nat) (c : ascii) : string :=
  match n with 0 => EmptyString | S n => String c (demo_digest n c) end.

Lemma demo_digest_length n c : String.length (demo_digest n c) = n.
Proof. induction n; cbn; congruence. Qed.

#[export] Instance demo_codec : SlotCodec := {
  sha256 s := demo_digest 32 (ascii_of_nat (String.length s));
  slot_from_slice b :=
    match decode (pos_of_string b) with
    | Some (seq, proto, version, ph, owner, sum) => inl (mkWireSlot seq proto version ph owner sum)
    | None => inr "malformed"
    end;
  state_to_vec s := inl (string_of_pos (encode
    (ws_sequence s, ws_storage_protocol s, ws_extraction_version s, ws_phase s,
     ws_project_identity s, ws_checksum s))) }.

#[export] Instance demo_codec_laws : SlotCodecLaws demo_codec.
Proof.
  split.
  - intros s. apply demo_digest_length.
  - intros s b [= <-]. cbn. by rewrite pos_of_string_of_pos, decode_encode.
Qed.

(** ** A project *)

Definition demo_root : Path := ["project"; ".codegraph"].
Definition demo_paths : IndexPaths :=
  mkIndexPaths (hex_lower (demo_digest 32 "k")) demo_root.

Definition demo_names : gmap Path Inode :=
  {[ demo_root := 1%N; permanent_lock demo_paths := 2%N ]}.
Definition demo_objects : gmap Inode FileObject :=
  {[ 1%N := Directory; 2%N := Regular EmptyString ]}.
Definition demo_fs : Fs := mkFs demo_names demo_objects 3%N ∅ [] 0 (fun _ _ _ => None).

Definition demo_lease : IndexLease :=
  mkIndexLease Exclusive demo_root (permanent_lock demo_paths) 2%N.

(** Fails once, at one checkpoint. *)
Definition demo_error : IoError := mkIoError OtherKind (Some 5%Z) "Input/output error".
#[export] Instance PublishCheckpoint_eq_dec : EqDecision PublishCheckpoint.
Proof. solve_decision. Defined.
Definition FailAt : Type := PublishCheckpoint.
#[export] Instance FailAt_injector : FaultInjector FailAt := fun f c =>
  (f, if decide (f = c) then inr demo_error else inl tt).

Definition demo_world {F} (f : F) : World F := mkWorld demo_fs 4242%N 0%N f.

(** Its worlds after a first and a second publication. *)
Definition demo_building : World NoFault :=
  (publish_index_state demo_paths demo_lease Building (demo_world NoFaultUnit)).1.
Definition demo_current : World NoFault :=
  (publish_index_state demo_paths demo_lease Current demo_building).1.
Example demo_ok : (publish_index_state demo_paths demo_lease Current demo_building).2 =
  inl (mkPublishedState 1%N (successor_record 1%N Current (project_identity demo_paths)) Synced).
Proof. vm_compute. reflexivity. Qed.

(** ** Deciding the preconditions on a concrete file system *)

Definition wf_fsb (fs : Fs) : bool :=
  bool_decide (map_Forall (fun (_ : Path) i => is_Some (fs_objects fs !! i)) (fs_names fs)) &&
  bool_decide (map_Forall (fun i (_ : FileObject) => (i < fs_next fs)%N) (fs_objects fs)).

Lemma wf_fsb_sound fs : wf_fsb fs = true -> wf_fs fs.
Proof.
  unfold wf_fsb. rewrite andb_true_iff, !bool_decide_eq_true. intros [Hn Ho]. split.
  - intros p i Hi. exact (Hn p i Hi).
  - intros i [o Hi]. exact (Ho i o Hi).
Qed.

Definition settledb (paths : IndexPaths) (fs : Fs) : bool :=
  let slots := [(state_slots paths).1; (state_slots paths).2] in
  forallb (fun m => forallb (fun p => bool_decide (m !! p = fs_names fs !! p))
                      (slots ++ [current_root paths])) (fs_older fs) &&
  forallb (fun p => match fs_names fs !! p with
                    | Some i => bool_decide (i ∉ fs_dirty fs)
                    | None => true
                    end) slots &&
  match lookup_path (current_root paths) fs with Some (_, Directory) => true | _ => false end.

Lemma settledb_sound paths fs : settledb paths fs = true -> settled paths fs.
Proof.
  unfold settledb. rewrite !andb_true_iff. intros [[Hn Hc] Hr]. split.
  - intros m p Hm Hp. rewrite forallb_forall in Hn. apply list_elem_of_In in Hm, Hp.
    specialize (Hn m Hm). rewrite forallb_forall in Hn. specialize (Hn p Hp).
    by apply bool_decide_eq_true in Hn.
  - intros p i Hp Hi. rewrite forallb_forall in Hc. apply list_elem_of_In in Hp.
    specialize (Hc p Hp). rewrite Hi in Hc. by apply bool_decide_eq_true in Hc.
  - destruct (lookup_path (current_root paths) fs) as [[d []]|]; try done. by exists d.
Qed.

(** A disk on which nothing was lost is one of its own crash states. *)
Lemma crash_refl fs : (forall n op p, fs_fault fs n op p = None) -> crash fs fs.
Proof. intros H. split; [|done|done]. intros p. exists (fs_names fs). split; [by left|done]. Qed.

(** A third publication that an injected fault stops with the older slot
    already removed. *)
Definition demo_stopping : World FailAt :=
  mkWorld (w_fs demo_current) 4242%N 2%N (InactiveSlotPrepared : FailAt).
Definition demo_stopped : World FailAt * (PublishedState + Unwind) :=
  publish_index_state_with demo_paths demo_lease Building demo_stopping.

(** The classification of a concrete disk. *)
Definition classified (fs : Fs) : IndexStateClassification :=
  default (mkClassification StMissing None (OutAbsent, OutAbsent)) (classification_of demo_paths fs).

(** ** The preconditions, for the demonstration worlds *)

Lemma demo_fs_wf : wf_fs demo_fs.
Proof. apply wf_fsb_sound. vm_compute. reflexivity. Qed.
Lemma demo_fs_settled : settled demo_paths demo_fs.
Proof. apply settledb_sound. vm_compute. reflexivity. Qed.
Lemma demo_building_wf : wf_fs (w_fs demo_building).
Proof. apply wf_fsb_sound. vm_compute. reflexivity. Qed.
Lemma demo_building_settled : settled demo_paths (w_fs demo_building).
Proof. apply settledb_sound. vm_compute. reflexivity. Qed.
Lemma demo_current_wf : wf_fs (w_fs demo_current).
Proof. apply wf_fsb_sound. vm_compute. reflexivity. Qed.
Lemma demo_current_settled : settled demo_paths (w_fs demo_current).
Proof. apply settledb_sound. vm_compute. reflexivity. Qed.
Lemma demo_current_crash : crash (w_fs demo_current) (w_fs demo_current).
Proof. apply crash_refl. vm_compute. reflexivity. Qed.
Lemma demo_stopped_crash : crash (w_fs demo_stopped.1) (w_fs demo_stopped.1).
Proof. apply crash_refl. vm_compute. reflexivity. Qed.

(** ** What they evaluate to *)

Lemma demo_owner : is_lowercase_sha256 (project_identity demo_paths) = true.
Proof. vm_compute. reflexivity. Qed.
Lemma demo_fs_class :
  classification_of demo_paths demo_fs = Some (mkClassification StMissing None (OutAbsent, OutAbsent)).
Proof. vm_compute. reflexivity. Qed.
Lemma demo_building_class :
  classification_of demo_paths (w_fs demo_building) = Some (classified (w_fs demo_building)).
Proof. vm_compute. reflexivity. Qed.
Lemma demo_current_class :
  classification_of demo_paths (w_fs demo_current) = Some (classified (w_fs demo_current)).
Proof. vm_compute. reflexivity. Qed.
Lemma pair_of {A B} (p : A * B) b : p.2 = b -> p = (p.1, b).
Proof. destruct p. cbn. by intros ->. Qed.
Lemma demo_current_run :
  publish_index_state_with demo_paths demo_lease Current demo_building =
    (demo_current,
     inl (mkPublishedState 1 (successor_record 1 Current (project_identity demo_paths)) Synced)).
Proof. exact (pair_of _ _ demo_ok). Qed.
Lemma demo_stopped_run :
  publish_index_state_with demo_paths demo_lease Building demo_stopping =
    (demo_stopped.1, demo_stopped.2).
Proof. exact (surjective_pairing demo_stopped). Qed.

(** ** A read of its first slot *)

Definition demo_read : Fs * RawSlot :=
  read_slot_with 0 (state_slots demo_paths).1 (fun _ fs => fs) (w_fs demo_building).
Definition demo_wire : WireSlot :=
  wire_slot_of (successor_state 0 Building (project_identity demo_paths)).
Definition demo_bytes : string :=
  match demo_read.2 with RawParsed _ b => b | _ => EmptyString end.
Lemma demo_read_run :
  read_slot_with 0 (state_slots demo_paths).1 (fun _ fs => fs) (w_fs demo_building) =
    (demo_read.1, RawParsed demo_wire demo_bytes).
Proof. apply (pair_of demo_read). vm_compute. reflexivity. Qed.
Lemma demo_serializes s : exists b, state_to_vec s = inl b.
Proof. by eexists. Qed.
Lemma demo_current_raws :
  classify_raw (raws_of demo_paths (w_fs demo_current)) (state_slots demo_paths)
    (project_identity demo_paths) = Some (classified (w_fs demo_current)).
Proof. vm_compute. reflexivity. Qed.

Section CrashSafety.
Context {codec : SlotCodec} {laws : SlotCodecLaws codec} {F : Type} {injector : FaultInjector F}.

(** C1: whatever fails during a publication, and at whatever point a power loss strikes, a later
    reader either finds the index state exactly as it was before (same status, same
    authoritative record) or finds the complete new record as the authority: never a
    missing or half-written state, and a corrupt one only for the last [u64] sequence, whose
    record the classifier reports as exhausted. *)
Theorem publish_crash_safe paths lease ph (w w' : World F) res fs c :
  wf_fs (w_fs w) -> settled paths (w_fs w) ->
  is_lowercase_sha256 (project_identity paths) = true ->
  classification_of paths (w_fs w) = Some c ->
  publish_index_state_with paths lease ph w = (w', res) ->
  crash (w_fs w') fs ->
  exists c', classification_of paths fs = Some c' /\
    (status c' = status c /\ authoritative c' = authoritative c \/
     exists t seq, let a := authority (state_slots paths) t
                              (successor_record seq ph (project_identity paths)) in
       transition_allowed (status c) ph = true /\
       (seq = match authoritative c with
              | None => 0%N | Some old => (sequence (auth_record old) + 1)%N end) /\
       status c' = authority_status a /\ authoritative c' = Some a).
Proof.
  intros Hwf Hset Howner Hc Hpub Hcrash.
  destruct (publish_outcome paths lease ph w w' res Hwf Hset Hpub)
    as [[Hd _]|(seq & t & c0 & b & (Hc0 & Htr & Ht & Hplan & Hb) & Hres)].
  - exists c. split; [|by left]. rewrite <- Hc. by eapply classification_undisturbed.
  - rewrite Hc in Hc0. injection Hc0 as <-.
    assert (Hs : safe (w_fs w) (kept_paths paths t) (slot_path paths t) b (w_fs w')).
    { destruct res as [p|e]; [|exact Hres]. destruct Hres as (_ & _ & (h & Hh) & _).
      by eapply installed_safe. }
    pose proof (safe_kept _ _ Hwf Hset _ _ _ _ Ht Hs Hcrash) as HA.
    destruct (crash_target _ _ Hwf Hset _ _ _ _ Ht Hs Hcrash) as [HT|[HT|(h & HT)]].
    + exists c. split; [|by left]. unfold classification_of in *.
      by rewrite (outcomes_ext paths (w_fs w) fs t Ht HA HT).
    + destruct (classification_gone paths (w_fs w) fs seq t c) as (c' & H1 & H2 & H3); try done;
        [by eapply allowed_publishable|]. exists c'. eauto.
    + destruct (classification_installed paths (w_fs w) fs seq t ph b h) as (o & Ho); try done.
      eexists. split; [exact Ho|]. right. exists t, seq. split_and!; [done| |done|done].
      by eapply plans_sequence.
Qed.

(** C2: a publication that returns [Ok] has committed: reading the slots back, at once or, when the
    directory was synchronized, after any power loss, gives the published record as the
    authority, with the status of its phase. The sequence is the old authority's plus one (0
    for the first), and the other slot keeps the old record. Publishing the last [u64]
    sequence leaves a state the classifier reports as exhausted. *)
Theorem publish_commits paths lease ph (w w' : World F) p fs c :
  wf_fs (w_fs w) -> settled paths (w_fs w) ->
  is_lowercase_sha256 (project_identity paths) = true ->
  classification_of paths (w_fs w) = Some c ->
  publish_index_state_with paths lease ph w = (w', inl p) ->
  crash (w_fs w') fs -> parent_sync p = Synced \/ fs_names fs = fs_names (w_fs w') ->
  exists t seq o, t < 2 /\ published_slot p = N.of_nat t /\
    seq = match authoritative c with
          | None => 0%N | Some old => (sequence (auth_record old) + 1)%N end /\
    published_record p = successor_record seq ph (project_identity paths) /\
    classification_of paths fs = Some (mkClassification
      (if (seq =? u64_MAX)%N then StCorrupt (SequenceExhausted u64_MAX) else fresh_status ph)
      (Some (mkAuthoritativeSlot (N.of_nat t) (at_slot (state_slots paths) t) (published_record p)))
      o) /\
    lookup_path (at_slot (state_slots paths) (1 - t)) fs =
      lookup_path (at_slot (state_slots paths) (1 - t)) (w_fs w).
Proof.
  intros Hwf Hset Howner Hc Hpub Hcrash Hread.
  destruct (publish_outcome paths lease ph w w' _ Hwf Hset Hpub)
    as [[_ Hno]|(seq & t & c0 & b & (Hc0 & Htr & Ht & Hplan & Hb) & Hp)]; [by destruct (Hno p)|].
  rewrite Hc in Hc0. injection Hc0 as <-. cbn in Hp. destruct Hp as (Hslot & Hrec & (h & Hi) & Hs).
  assert (HA := safe_kept _ _ Hwf Hset _ _ _ _ Ht (installed_safe _ _ _ _ _ _ Hi) Hcrash).
  assert (HT : lookup_path (slot_path paths t) fs = Some (h, Regular b)).
  { eapply crash_installed; [exact Hi|exact Hcrash|]. destruct Hread; auto. }
  destruct (classification_installed paths (w_fs w) fs seq t ph b h) as (o & Ho); try done.
  exists t, seq, o. split_and!; [done|done|by eapply plans_sequence|done| |exact HA].
  rewrite Ho, Hrec. by rewrite successor_status.
Qed.
End CrashSafety.

Section Progress.
Context {codec : SlotCodec} {laws : SlotCodecLaws codec}.

(** C32: a publication that nothing disturbs returns [Ok], with its directory synchronized: on a
    file system whose operations succeed, under an exclusive lease on the root, from any
    status the phase may follow, if the first temporary name is free and the state can be
    serialized. *)
Theorem publish_succeeds paths lease ph c (w : World NoFault) :
  wf_fs (w_fs w) -> settled paths (w_fs w) -> quiet (w_fs w) ->
  lease_valid lease paths (w_fs w) -> temp_free paths w ->
  (forall s, exists b, state_to_vec s = inl b) ->
  classification_of paths (w_fs w) = Some c -> transition_allowed (status c) ph = true ->
  exists w' p, publish_index_state paths lease ph w = (w', inl p) /\ parent_sync p = Synced.
Proof. apply publish_total. Qed.

(** A publication is refused, and the disk left untouched, exactly as the lease and the
    status demand: a shared lease, a lease on another directory or one whose lock file was
    replaced is a lease error; a future or corrupt namespace is refused; a phase that may not
    follow the status (a [Current] that does not follow [Building], among others) is an
    invalid transition. *)
Theorem publish_refuses {F} `{FaultInjector F} paths lease ph c (w : World F) :
  quiet (w_fs w) -> classification_of paths (w_fs w) = Some c ->
  transition_allowed (status c) ph = false \/ ~ lease_valid lease paths (w_fs w) ->
  exists w' e, publish_index_state_with paths lease ph w = (w', inr (Fails e)) /\
    same_disk (w_fs w) (w_fs w') /\
    match e with
    | Lease _ => ~ lease_valid lease paths (w_fs w)
    | Refused s => s = status c /\ ~ publishable (status c)
    | InvalidTransition s ph' => s = status c /\ ph' = ph /\ publishable (status c)
    | _ => False
    end.
Proof.
  intros Hq Hc Hno. unfold publish_index_state_with, accept, mbind, M_bind.
  destruct (validate_exclusive_decides lease paths w Hq) as (w1 & Hd & [[Hl E1]|(e & Hl & E1)]);
    rewrite E1; [|by exists w1, (Lease e)].
  destruct Hno as [Htr|Hno]; [|done]. unfold classify_now.
  pose proof (classify_reads paths (w_fs w1)) as Hr.
  destruct (classify paths (w_fs w1)) as [fs oc]. destruct Hr as [Hd1 Hr].
  destruct Hr as [Hr|[Hr _]]; [|destruct Hr; by eapply quiet_same_disk].
  rewrite (classification_of_same_disk _ _ _ Hd), Hc in Hr. subst oc.
  assert (Hd2 : same_disk (w_fs w) (w_fs (with_fs w1 fs))) by (by transitivity (w_fs w1)).
  unfold validate_transition. rewrite Htr.
  destruct (status c); eexists _, _; (split; [reflexivity|split; [exact Hd2|cbn; tauto]]).
Qed.
End Progress.

Section Classification.
Context {codec : SlotCodec}.

(** The classifier always returns, and decides in this order: a defective slot (slot 0 first)
    is corruption; two missing slots are a missing index; two validated records with one
    sequence are corruption; otherwise the authority is the newest record of a future
    protocol if there is one and the newest current-protocol record if not, and the status is
    that authority's. *)
Theorem classify_order raw slots owner :
  let o := outcomes_of raw slots owner in
  exists c, classify_raw raw slots owner = Some c /\ IndexState.slots c = o /\
  match first_invalid o with
  | Some reason => status c = StCorrupt reason /\ authoritative c = None
  | None =>
      match validated_records o with
      | [] => o = (OutAbsent, OutAbsent) /\ status c = StMissing /\ authoritative c = None
      | [r0; r1] =>
          if (sequence r0 =? sequence r1)%N
          then status c = StCorrupt (EqualSequence (sequence r0) (identical_payload raw)) /\
               authoritative c = None
          else is_newest_authority o slots c
      | _ => is_newest_authority o slots c
      end
  end.
Proof.
  cbn. unfold outcomes_of, is_newest_authority, authority_status.
  classify_cases (observe 0 slots.1 raw.1 owner) (observe 1 slots.2 raw.2 owner).
  all: repeat (sequences; cbn).
  all: try (eexists; split_and!; reflexivity).
  all: try lia.
  all: cbn [sequence auth_record] in *.
  all: try (eexists; split_and!; [reflexivity|reflexivity|];
            first [by newest_at 0|by newest_at 1]).
Qed.

(** A namespace is reported [Current] exactly when one slot holds a valid record of this
    protocol and this extraction version in phase [current] that is not the last sequence, and
    the other slot is missing or holds an older valid record. *)
Theorem classify_current_iff raw slots owner c :
  classify_raw raw slots owner = Some c ->
  (status c = StCurrent <->
   exists i r, newest (outcomes_of raw slots owner) i r /\ sequence r <> u64_MAX /\
     phase r = Some Current /\ extraction_version r = CURRENT_EXTRACTION_VERSION).
Proof.
  intros Hc. split.
  - intros Hst. destruct (publishable_shape _ _ _ _ Hc) as [_ [(_ & Hm & _)|H]];
      [by rewrite Hst|congruence|].
    destruct H as (i & r & Hn & Hmax & _ & Hs). rewrite Hst in Hs.
    exists i, r. split_and!; [done|done| |]; revert Hs; unfold status_of; cbn;
      repeat case_match; try discriminate; intros _; [done|].
    apply orb_false_iff in H as [_ H]. apply N.ltb_ge in H, H0. lia.
  - intros (i & r & Hn & Hmax & Hph & Hv). rewrite (classify_newest _ _ _ _ _ Hn) in Hc.
    injection Hc as <-. cbn. unfold authority_status. cbn. rewrite (proj2 (N.eqb_neq _ _) Hmax).
    unfold status_of. cbn. rewrite Hph, Hv.
    destruct Hn as (Hi & Hr & _).
    assert (storage_protocol r = CURRENT_STORAGE_PROTOCOL) as ->; [|done].
    destruct i as [|[|]]; [| |lia]; cbn in Hr; by eapply observe_valid.
Qed.

(** Whatever other processes do between the steps of a slot read ([checkpoint] may change the
    file system arbitrarily), a read that returns a record certifies that the path named one
    regular file at the start, names the same file at the end, and that the record is decoded
    from the bytes this file held when it was read. *)
Theorem read_slot_corroborated index path checkpoint fs fs' wire bytes :
  read_slot_with index path checkpoint fs = (fs', RawParsed wire bytes) ->
  exists i old new at_read,
    lookup_path path fs = Some (i, Regular old) /\
    fs_objects (checkpoint HandleOpened at_read) !! i = Some (Regular bytes) /\
    lookup_path path fs' = Some (i, Regular new) /\
    slot_from_slice bytes = inl wire.
Proof.
  unfold read_slot_with. intros H.
  destruct (symlink_metadata path fs) as [fs1 [m1|e]] eqn:E1; [|by case_decide].
  destruct (stat_ok _ _ _ _ E1) as [L1 _].
  destruct (is_file m1) eqn:F1; [cbn in H|by cbn in H].
  destruct (open path (checkpoint InitialMetadataValidated fs1)) as [fs2 [h|e]]; [|done].
  destruct (file_metadata path h fs2) as [fs3 [m2|e]] eqn:E3; [|done].
  destruct (fstat_ok _ _ _ _ _ E3) as [L3 _].
  destruct (is_file m2); [cbn in H|by cbn in H].
  destruct (same_file_identity m1 m2) eqn:S1; [cbn in H|by cbn in H].
  destruct (read_to_end path h (checkpoint HandleOpened fs3)) as [fs4 [b|e]] eqn:E4; [|done].
  destruct (symlink_metadata path (checkpoint BytesRead fs4)) as [fs5 [m3|e]] eqn:E5; [|done].
  destruct (stat_ok _ _ _ _ E5) as [_ L5].
  destruct (is_file m3) eqn:F3; [cbn in H|by cbn in H].
  destruct (same_file_identity m2 m3) eqn:S2; [cbn in H|by cbn in H].
  unfold same_file_identity in S1, S2. apply bool_decide_eq_true in S1, S2.
  unfold parse_slot in H. destruct (slot_from_slice b) eqn:Es; [|done]. injection H as <- <- <-.
  unfold is_file in F1, F3. destruct (meta_object m1) as [o1| | |] eqn:O1; try done.
  destruct (meta_object m3) as [o3| | |] eqn:O3; try done.
  exists (meta_identity m1), o1, o3, fs3. split_and!; [exact L1| | |done].
  - rewrite S1, L3. by eapply read_ok.
  - by rewrite L5, S1, S2.
Qed.

(** The canonical checksum payload is unambiguous: two payloads with owner identities of equal
    length are equal only if every field is, the raw phase text included. So a slot whose
    checksum matches carries, short of a SHA-256 collision, the fields that were hashed. *)
Theorem checksum_payload_injective s1 p1 v1 ph1 o1 s2 p2 v2 ph2 o2 :
  String.length o1 = String.length o2 ->
  canonical_checksum_payload s1 p1 v1 ph1 o1 = canonical_checksum_payload s2 p2 v2 ph2 o2 ->
  s1 = s2 /\ p1 = p2 /\ v1 = v2 /\ ph1 = ph2 /\ o1 = o2.
Proof.
  unfold canonical_checksum_payload. intros Hlen H.
  apply (inj (String.app _)), (inj (String.app _)), (inj (String.app _)) in H.
  apply pretty_field in H as [-> H]. apply (inj (String.app _)) in H.
  apply pretty_field in H as [-> H]. apply (inj (String.app _)) in H.
  apply pretty_field in H as [-> H]. apply (inj (String.app _)) in H.
  apply same_tail in H as [-> H]; [|rewrite !length_string_app; cbn; lia].
  apply (inj (String.app _)), (inj (String.app _)) in H.
  apply same_tail in H as [-> _]; [done|done].
Qed.
End Classification.

(** ** The theorems at concrete inputs *)

Lemma publish_crash_safe_witness :
  demo_stopped.2 = inr (Fails (Io PrepareInactiveSlot (state_slots demo_paths).1 demo_error)) /\
  exists c', classification_of demo_paths (w_fs demo_stopped.1) = Some c' /\
    (status c' = status (classified (w_fs demo_current)) /\
     authoritative c' = authoritative (classified (w_fs demo_current)) \/
     exists t seq, let a := authority (state_slots demo_paths) t
                              (successor_record seq Building (project_identity demo_paths)) in
       transition_allowed (status (classified (w_fs demo_current))) Building = true /\
       (seq = match authoritative (classified (w_fs demo_current)) with
              | None => 0%N | Some old => (sequence (auth_record old) + 1)%N end) /\
       status c' = authority_status a /\ authoritative c' = Some a).
Proof.
  split; [vm_compute; reflexivity|].
  exact (publish_crash_safe demo_paths demo_lease Building demo_stopping demo_stopped.1
    demo_stopped.2 (w_fs demo_stopped.1) (classified (w_fs demo_current))
    demo_current_wf demo_current_settled demo_owner demo_current_class demo_stopped_run
    demo_stopped_crash).
Defined.

Lemma publish_commits_witness :
  let p := mkPublishedState 1 (successor_record 1 Current (project_identity demo_paths)) Synced in
  exists t seq o, t < 2 /\ published_slot p = N.of_nat t /\
    seq = match authoritative (classified (w_fs demo_building)) with
          | None => 0%N | Some old => (sequence (auth_record old) + 1)%N end /\
    published_record p = successor_record seq Current (project_identity demo_paths) /\
    classification_of demo_paths (w_fs demo_current) = Some (mkClassification
      (if (seq =? u64_MAX)%N then StCorrupt (SequenceExhausted u64_MAX) else fresh_status Current)
      (Some (mkAuthoritativeSlot (N.of_nat t) (at_slot (state_slots demo_paths) t)
               (published_record p))) o) /\
    lookup_path (at_slot (state_slots demo_paths) (1 - t)) (w_fs demo_current) =
      lookup_path (at_slot (state_slots demo_paths) (1 - t)) (w_fs demo_building).
Proof.
  exact (publish_commits demo_paths demo_lease Current demo_building demo_current
    (mkPublishedState 1 (successor_record 1 Current (project_identity demo_paths)) Synced)
    (w_fs demo_current) (classified (w_fs demo_building))
    demo_building_wf demo_building_settled demo_owner demo_building_class demo_current_run
    demo_current_crash (or_introl eq_refl)).
Defined.

Lemma publish_succeeds_witness :
  exists w' p, publish_index_state demo_paths demo_lease Building (demo_world NoFaultUnit)
                 = (w', inl p) /\ parent_sync p = Synced.
Proof.
  refine (publish_succeeds demo_paths demo_lease Building
    (mkClassification StMissing None (OutAbsent, OutAbsent)) (demo_world NoFaultUnit)
    demo_fs_wf demo_fs_settled (fun _ _ _ => eq_refl) _ _ demo_serializes
    demo_fs_class eq_refl).
  - split_and!; [reflexivity|reflexivity|reflexivity|].
    exists EmptyString. vm_compute. reflexivity.
  - vm_compute. reflexivity.
Defined.

(** [Current] may not follow a missing index. *)
Lemma publish_refuses_witness :
  exists w' e, publish_index_state_with demo_paths demo_lease Current (demo_world NoFaultUnit)
                 = (w', inr (Fails e)) /\
    same_disk demo_fs (w_fs w') /\
    match e with
    | Lease _ => ~ lease_valid demo_lease demo_paths demo_fs
    | Refused s => s = StMissing /\ ~ publishable StMissing
    | InvalidTransition s ph' => s = StMissing /\ ph' = Current /\ publishable StMissing
    | _ => False
    end.
Proof.
  exact (publish_refuses demo_paths demo_lease Current
    (mkClassification StMissing None (OutAbsent, OutAbsent)) (demo_world NoFaultUnit)
    (fun _ _ _ => eq_refl) demo_fs_class (or_introl eq_refl)).
Defined.

Lemma classify_current_iff_witness :
  status (classified (w_fs demo_current)) = StCurrent <->
  exists i r, newest (outcomes_of (raws_of demo_paths (w_fs demo_current)) (state_slots demo_paths)
                        (project_identity demo_paths)) i r /\ sequence r <> u64_MAX /\
    phase r = Some Current /\ extraction_version r = CURRENT_EXTRACTION_VERSION.
Proof.
  exact (classify_current_iff (raws_of demo_paths (w_fs demo_current)) (state_slots demo_paths)
    (project_identity demo_paths) (classified (w_fs demo_current)) demo_current_raws).
Defined.

Lemma read_slot_corroborated_witness :
  exists i old new at_read,
    lookup_path (state_slots demo_paths).1 (w_fs demo_building) = Some (i, Regular old) /\
    fs_objects at_read !! i = Some (Regular demo_bytes) /\
    lookup_path (state_slots demo_paths).1 demo_read.1 = Some (i, Regular new) /\
    slot_from_slice demo_bytes = inl demo_wire.
Proof.
  exact (read_slot_corroborated 0 (state_slots demo_paths).1 (fun _ fs => fs) (w_fs demo_building)
    demo_read.1 demo_wire demo_bytes demo_read_run).
Defined.

Lemma checksum_payload_injective_witness :
  String.length "ab" = String.length "ab" /\
  7%N = 7%N /\ 2%N = 2%N /\ 22%N = 22%N /\ "current" = "current" /\ "ab" = "ab".
Proof.
  split; [reflexivity|].
  exact (checksum_payload_injective 7 2 22 "current" "ab" 7 2 22 "current" "ab" eq_refl eq_refl).
Defined.
