(* ===== verification/LruCache.v ===== *)
(** * The bounded LRU cache of the resolver

    [crates/codegraph-resolve/src/lru_cache.rs]: a hash map from each key to
    its value and last-use stamp, and a B-tree from stamp to key. It refines a
    plain recency queue ([lru_step_refines]). The stamp counter is a [u64]
    that wraps. *)
From S2P Require Import Prelude.

(** ** [BTreeMap<u64, K>]: its entries in key order *)

Section BTree.
Context {K : Type}.
Definition BTreeMap := list (N * K).

Fixpoint bt_insert (s : N) (k : K) (t : BTreeMap) : BTreeMap :=
  match t with
  | [] => [(s, k)]
  | (s', k') :: t' =>
      if (s <? s')%N then (s, k) :: t
      else if (s =? s')%N then (s, k) :: t'
      else (s', k') :: bt_insert s k t'
  end.

Fixpoint bt_remove (s : N) (t : BTreeMap) : option K * BTreeMap :=
  match t with
  | [] => (None, [])
  | (s', k') :: t' =>
      if (s =? s')%N then (Some k', t')
      else let '(r, t'') := bt_remove s t' in (r, (s', k') :: t'')
  end.

Definition pop_first (t : BTreeMap) : option (N * K) * BTreeMap :=
  match t with [] => (None, []) | e :: t' => (Some e, t') end.
End BTree.
Arguments BTreeMap K : clear implicits.

Section Lru.
Context {K V : Type} `{Countable K}.

Record LruCache := mkLruCache {
  lru_max : nat;
  lru_store : gmap K (V * N);
  lru_order : BTreeMap K;
  lru_next : N }.

Definition u64_succ (n : N) : N := ((n + 1) mod 2 ^ 64)%N.

(** [new] panics on 0. *)
Definition lru_new (max : nat) : option LruCache :=
  if decide (max = 0) then None else Some (mkLruCache max ∅ [] 0).

Definition lru_size (c : LruCache) : nat := base.size (lru_store c).
Definition lru_has (k : K) (c : LruCache) : bool := bool_decide (is_Some (lru_store c !! k)).

Definition lru_get (k : K) (c : LruCache) : option V * LruCache :=
  let stamp := lru_next c in
  match lru_store c !! k with
  | None => (None, c)
  | Some (value, previous) =>
      let store := <[k := (value, stamp)]> (lru_store c) in
      let next := u64_succ (lru_next c) in
      let order := match bt_remove previous (lru_order c) with
                   | (Some key, order) => bt_insert stamp key order
                   | (None, order) => order
                   end in
      (Some value, mkLruCache (lru_max c) store order next)
  end.

Definition lru_set (k : K) (v : V) (c : LruCache) : LruCache :=
  let stamp := lru_next c in
  let next := u64_succ (lru_next c) in
  let '(store, order) :=
    match lru_store c !! k with
    | Some (_, previous) => (lru_store c, (bt_remove previous (lru_order c)).2)
    | None =>
        if (lru_max c <=? base.size (lru_store c))%nat then
          match pop_first (lru_order c) with
          | (Some (_, oldest), order) => (delete oldest (lru_store c), order)
          | (None, order) => (lru_store c, order)
          end
        else (lru_store c, lru_order c)
    end in
  mkLruCache (lru_max c) (<[k := (v, stamp)]> store) (bt_insert stamp k order) next.

Definition lru_clear (c : LruCache) : LruCache :=
  mkLruCache (lru_max c) ∅ [] (lru_next c).

(** ** The specification: a queue, least recently used first *)

#[local] Notation queue := (list (K * V)).

Definition q_value (k : K) (q : queue) : option V :=
  snd <$> head (filter (fun e => e.1 = k) q).
Definition q_remove (k : K) (q : queue) : queue := filter (fun e => e.1 <> k) q.

Definition q_get (k : K) (q : queue) : option V * queue :=
  match q_value k q with
  | None => (None, q)
  | Some v => (Some v, q_remove k q ++ [(k, v)])
  end.

Definition q_set (max : nat) (k : K) (v : V) (q : queue) : queue :=
  match q_value k q with
  | Some _ => q_remove k q ++ [(k, v)]
  | None => (if (max <=? length q)%nat then tail q else q) ++ [(k, v)]
  end.

(** ** Operations as data, and runs of them *)

Inductive lru_op := OpGet (k : K) | OpSet (k : K) (v : V) | OpHas (k : K) | OpSize | OpClear.
Inductive lru_reply := Value (v : option V) | Done | Answer (b : bool) | Count (n : nat).

Definition lru_step (op : lru_op) (c : LruCache) : lru_reply * LruCache :=
  match op with
  | OpGet k => let '(v, c) := lru_get k c in (Value v, c)
  | OpSet k v => (Done, lru_set k v c)
  | OpHas k => (Answer (lru_has k c), c)
  | OpSize => (Count (lru_size c), c)
  | OpClear => (Done, lru_clear c)
  end.

Definition q_step (max : nat) (op : lru_op) (q : queue) : lru_reply * queue :=
  match op with
  | OpGet k => let '(v, q) := q_get k q in (Value v, q)
  | OpSet k v => (Done, q_set max k v q)
  | OpHas k => (Answer (match q_value k q with Some _ => true | None => false end), q)
  | OpSize => (Count (length q), q)
  | OpClear => (Done, [])
  end.

Fixpoint lru_run (ops : list lru_op) (c : LruCache) : list lru_reply :=
  match ops with
  | [] => []
  | op :: ops => let '(r, c) := lru_step op c in r :: lru_run ops c
  end.

Fixpoint q_run (max : nat) (ops : list lru_op) (q : queue) : list lru_reply :=
  match ops with
  | [] => []
  | op :: ops => let '(r, q) := q_step max op q in r :: q_run max ops q
  end.

(** ** The simulation *)

(** Cache entries, least recently used first: stamp, key and value. *)
Definition entry : Type := N * K * V.
Definition order_of (es : list entry) : BTreeMap K := map (fun e => (e.1.1, e.1.2)) es.
Definition queue_of (es : list entry) : queue := map (fun e => (e.1.2, e.2)) es.

(** The stamps increase and are below the counter, the keys are distinct, and
    the store maps each key to its entry. *)
Record rep (store : gmap K (V * N)) (next : N) (es : list entry) : Prop := {
  rep_sorted : StronglySorted N.lt (map (fun e => e.1.1) es);
  rep_below : Forall (fun e => (e.1.1 < next)%N) es;
  rep_keys : NoDup (map (fun e => e.1.2) es);
  rep_store : forall k v s, store !! k = Some (v, s) <-> (s, k, v) ∈ es }.

Definition simulates (c : LruCache) (q : queue) : Prop :=
  exists es, rep (lru_store c) (lru_next c) es /\ lru_order c = order_of es /\ q = queue_of es.

(** *** The B-tree on an ordered list of entries *)

Lemma bt_insert_last es s k :
  Forall (fun e => (e.1.1 < s)%N) es ->
  bt_insert s k (order_of es) = order_of es ++ [(s, k)].
Proof.
  induction es as [|e es IH]; intros Hs; [done|]. cbn. apply Forall_cons in Hs as [He Hs].
  fold (order_of es). destruct (N.ltb_spec s e.1.1); [lia|]. destruct (N.eqb_spec s e.1.1); [lia|].
  by rewrite IH.
Qed.

Lemma bt_remove_entry l1 l2 s k v :
  StronglySorted N.lt (map (fun e => e.1.1) (l1 ++ (s, k, v) :: l2)) ->
  bt_remove s (order_of (l1 ++ (s, k, v) :: l2)) = (Some k, order_of (l1 ++ l2)).
Proof.
  induction l1 as [|e l1 IH]; cbn; intros Hs.
  - by rewrite N.eqb_refl.
  - fold (order_of (l1 ++ (s, k, v) :: l2)) (order_of (l1 ++ l2)). apply StronglySorted_inv in Hs as [Hs He]. rewrite IH by done.
    destruct (N.eqb_spec s e.1.1) as [->|]; [|done].
    rewrite map_app, Forall_app in He. destruct He as [_ He]. apply Forall_cons in He as [He _].
    cbn in He. lia.
Qed.

(** *** Entries *)

Lemma sorted_remove l1 l2 (e : entry) :
  StronglySorted N.lt (map (fun e => e.1.1) (l1 ++ e :: l2)) ->
  StronglySorted N.lt (map (fun e => e.1.1) (l1 ++ l2)).
Proof.
  induction l1 as [|d l1 IH]; cbn; intros Hs; apply StronglySorted_inv in Hs as [Hs Hd]; [done|].
  constructor; [by apply IH|]. rewrite map_app, Forall_app in *. destruct Hd as [H1 H2].
  by apply Forall_cons in H2 as [_ H2].
Qed.

Lemma sorted_push es (e : entry) :
  StronglySorted N.lt (map (fun e => e.1.1) es) -> Forall (fun d => (d.1.1 < e.1.1)%N) es ->
  StronglySorted N.lt (map (fun e => e.1.1) (es ++ [e])).
Proof.
  induction es as [|d es IH]; cbn; intros Hs Hb; [by repeat constructor|].
  apply StronglySorted_inv in Hs as [Hs Hd]. apply Forall_cons in Hb as [Hde Hb].
  constructor; [by apply IH|]. rewrite map_app, Forall_app. split; [done|by constructor].
Qed.

Lemma rep_absent store next es k :
  rep store next es -> store !! k = None <-> k ∉ map (fun e => e.1.2) es.
Proof.
  intros Hr. split.
  - intros Hk Hin. apply list_elem_of_In, in_map_iff in Hin as ([[s k'] v] & <- & Hin).
    apply list_elem_of_In in Hin. apply (rep_store _ _ _ Hr) in Hin. cbn in Hk. congruence.
  - intros Hk. destruct (store !! k) as [[v s]|] eqn:E; [|done]. destruct Hk.
    apply (rep_store _ _ _ Hr) in E. apply list_elem_of_In, in_map_iff. exists (s, k, v).
    split; [done|by apply list_elem_of_In].
Qed.

Lemma rep_delete store next l1 l2 s k v :
  rep store next (l1 ++ (s, k, v) :: l2) -> rep (delete k store) next (l1 ++ l2).
Proof.
  intros Hr. destruct Hr as [Hs Hb Hk Hst].
  rewrite map_app in Hk. cbn in Hk. apply NoDup_app in Hk as (Hk1 & Hk12 & Hk2).
  apply NoDup_cons in Hk2 as [Hkk Hk2].
  assert (Hnot : k ∉ map (fun e : entry => e.1.2) (l1 ++ l2)).
  { rewrite map_app, elem_of_app. intros [H1|H1]; [|done].
    apply (Hk12 k H1). by left. }
  split.
  - by eapply sorted_remove.
  - rewrite Forall_app in *. destruct Hb as [Hb1 Hb2]. by apply Forall_cons in Hb2 as [_ Hb2].
  - rewrite map_app. apply NoDup_app. split_and!; [done| |done].
    intros x Hx Hx'. apply (Hk12 x Hx). by right.
  - intros k' v' s'. rewrite lookup_delete_Some, Hst, !elem_of_app, elem_of_cons.
    split; [intros [Hne [?|[?|?]]]; [by left|by simplify_eq|by right]|].
    intros Hin. split; [|tauto]. intros <-. apply Hnot.
    apply list_elem_of_In, in_map_iff. exists (s', k, v'). split; [done|].
    apply list_elem_of_In. set_solver.
Qed.

Lemma rep_push store next es k v :
  rep store next es -> store !! k = None ->
  rep (<[k := (v, next)]> store) (next + 1) (es ++ [(next, k, v)]).
Proof.
  intros Hr Hk. pose proof (proj1 (rep_absent _ _ _ k Hr) Hk) as Hnot.
  destruct Hr as [Hs Hb Hks Hst]. split.
  - by apply sorted_push.
  - apply Forall_app. split; [|by repeat constructor; cbn; lia].
    eapply Forall_impl; [exact Hb|]. cbn. lia.
  - rewrite map_app. apply NoDup_app. split_and!; [done| |by apply NoDup_singleton].
    intros x Hx Hx'. apply list_elem_of_singleton in Hx' as ->. done.
  - intros k' v' s'. rewrite elem_of_app, list_elem_of_singleton, <- Hst, lookup_insert_Some.
    split; [intros [[<- [= <- <-]]|[Hne ?]]; [by right|by left]|].
    intros [Hin|Heq]; [right; split; [congruence|done]|left; by simplify_eq].
Qed.

Lemma rep_size store next es : rep store next es -> base.size store = length es.
Proof.
  intros Hr.
  assert (E : dom store = list_to_set (map (fun e => e.1.2) es)).
  { apply set_eq. intros k. rewrite elem_of_dom, elem_of_list_to_set.
    destruct (store !! k) eqn:E; [split; [intros _|done]|
      split; [by intros []|intros Hin; by apply (rep_absent _ _ _ k Hr) in E]].
    destruct (decide (k ∈ map (fun e => e.1.2) es)) as [|Hn]; [done|].
    apply (rep_absent _ _ _ k Hr) in Hn. congruence. }
  rewrite <- size_dom, E, size_list_to_set by apply (rep_keys _ _ _ Hr). apply length_map.
Qed.

(** *** The queue *)

Lemma q_value_of store next es k :
  rep store next es -> q_value k (queue_of es) = fst <$> store !! k.
Proof.
  intros Hr. unfold q_value.
  destruct (store !! k) as [[v s]|] eqn:E.
  - apply (rep_store _ _ _ Hr) in E. apply list_elem_of_split in E as (l1 & l2 & ->).
    pose proof (rep_keys _ _ _ Hr) as Hk. rewrite map_app in Hk. cbn in Hk.
    apply NoDup_app in Hk as (_ & Hk & _). unfold queue_of. rewrite map_app. cbn [map]. rewrite filter_app.
    rewrite filter_cons_True by done. rewrite filter_none; [done|].
    intros [k' v'] Hin Heq. cbn in Heq. subst k'.
    apply list_elem_of_In, in_map_iff in Hin as ([[s' k'] w] & Hin & Hin2). simplify_eq/=.
    apply (Hk k); [|by left]. apply list_elem_of_In, in_map_iff. by exists (s', k, v').
  - apply (rep_absent _ _ _ k Hr) in E. rewrite filter_none; [done|].
    intros [k' v'] Hin Heq. cbn in Heq. subst k'.
    apply list_elem_of_In, in_map_iff in Hin as ([[s' k'] w] & Hin & Hin2). simplify_eq/=.
    apply E. apply list_elem_of_In, in_map_iff. by exists (s', k, v').
Qed.

Lemma q_remove_lt k (q : queue) v : q_value k q = Some v -> length (q_remove k q) < length q.
Proof.
  unfold q_value, q_remove. induction q as [|[k' v'] q IH]; [done|].
  destruct (decide (k' = k)) as [->|Hne].
  - intros _. rewrite filter_cons_False by (cbn; tauto). cbn.
    pose proof (length_filter (fun e : K * V => e.1 <> k) q). lia.
  - rewrite filter_cons_False, filter_cons_True by done. cbn. intros Hv%IH. lia.
Qed.

Lemma q_remove_of store next l1 l2 s k v :
  rep store next (l1 ++ (s, k, v) :: l2) ->
  q_remove k (queue_of (l1 ++ (s, k, v) :: l2)) = queue_of (l1 ++ l2).
Proof.
  intros Hr. pose proof (rep_delete _ _ _ _ _ _ _ Hr) as Hd.
  assert (Hnot : k ∉ map (fun e : entry => e.1.2) (l1 ++ l2)).
  { apply (rep_absent _ _ _ k Hd). apply lookup_delete_eq. }
  unfold q_remove, queue_of. rewrite !map_app in *. cbn [map].
  rewrite filter_app, filter_cons_False by (cbn; tauto).
  rewrite <- filter_app. apply filter_all. intros [k' v'] Hin. cbn. intros ->.
  apply Hnot. rewrite <- map_app in *.
  apply list_elem_of_In, in_map_iff in Hin as ([[s' k'] w] & Hin & Hin2). simplify_eq/=.
  apply list_elem_of_In, in_map_iff. by exists (s', k, v').
Qed.

(** *** The operations *)

(** The counter has not reached its last value. *)
Definition fresh (c : LruCache) : Prop := (lru_next c + 1 < 2 ^ 64)%N.

Lemma u64_succ_fresh n : (n + 1 < 2 ^ 64)%N -> u64_succ n = (n + 1)%N.
Proof. intros Hn. by apply N.mod_small. Qed.

Lemma lru_get_refines c q k :
  fresh c -> simulates c q ->
  (lru_get k c).1 = (q_get k q).1 /\ simulates (lru_get k c).2 (q_get k q).2.
Proof.
  intros Hf (es & Hr & Ho & ->). unfold lru_get, q_get.
  rewrite (q_value_of _ _ _ k Hr). destruct (lru_store c !! k) as [[v s]|] eqn:E; cbn;
    [|split; [done|by exists es]].
  split; [done|]. pose proof (proj1 (rep_store _ _ _ Hr k v s) E) as Hin.
  apply list_elem_of_split in Hin as (l1 & l2 & ->).
  rewrite Ho, (bt_remove_entry _ _ _ _ _ (rep_sorted _ _ _ Hr)).
  rewrite (q_remove_of _ _ _ _ _ _ _ Hr), u64_succ_fresh by done.
  pose proof (rep_delete _ _ _ _ _ _ _ Hr) as Hd.
  exists (l1 ++ l2 ++ [(lru_next c, k, v)]). rewrite app_assoc. split_and!.
  - cbn. rewrite <- insert_delete_eq. apply rep_push; [done|apply lookup_delete_eq].
  - cbn. rewrite bt_insert_last by apply (rep_below _ _ _ Hd).
    unfold order_of. by rewrite !map_app.
  - unfold queue_of. by rewrite !map_app.
Qed.

Lemma lru_set_refines c q k v :
  fresh c -> 0 < lru_max c -> simulates c q ->
  simulates (lru_set k v c) (q_set (lru_max c) k v q).
Proof.
  intros Hf Hmax (es & Hr & Ho & ->). unfold lru_set, q_set.
  rewrite (q_value_of _ _ _ k Hr). rewrite u64_succ_fresh by done.
  assert (Hpush : forall store es', rep store (lru_next c) es' -> store !! k = None ->
    simulates (mkLruCache (lru_max c) (<[k := (v, lru_next c)]> store)
                 (bt_insert (lru_next c) k (order_of es')) (lru_next c + 1)%N)
              (queue_of es' ++ [(k, v)])).
  { intros store es' Hr' Hk. exists (es' ++ [(lru_next c, k, v)]). split_and!.
    - by apply rep_push.
    - cbn. rewrite bt_insert_last by apply (rep_below _ _ _ Hr').
      unfold order_of. by rewrite map_app.
    - unfold queue_of. by rewrite map_app. }
  destruct (lru_store c !! k) as [[v' s]|] eqn:E; cbn [fmap option_fmap option_map fst].
  - pose proof (proj1 (rep_store _ _ _ Hr k v' s) E) as Hin.
    apply list_elem_of_split in Hin as (l1 & l2 & ->).
    rewrite Ho, (bt_remove_entry _ _ _ _ _ (rep_sorted _ _ _ Hr)). cbn [snd].
    rewrite (q_remove_of _ _ _ _ _ _ _ Hr), <- insert_delete_eq.
    apply Hpush; [by eapply rep_delete|apply lookup_delete_eq].
  - rewrite (rep_size _ _ _ Hr).
    replace (length (queue_of es)) with (length es) by (symmetry; apply length_map).
    destruct (Nat.leb_spec (lru_max c) (length es)) as [Hfull|Hroom];
      [|rewrite Ho; by apply Hpush].
    destruct es as [|[[s0 k0] v0] es]; [cbn in Hfull; lia|]. rewrite Ho. cbn.
    pose proof (rep_delete _ _ [] es s0 k0 v0 Hr) as Hd. cbn in Hd.
    apply Hpush; [exact Hd|]. rewrite lookup_delete_None. by right.
Qed.

Lemma lru_step_refines c q op :
  fresh c -> 0 < lru_max c -> simulates c q ->
  (lru_step op c).1 = (q_step (lru_max c) op q).1 /\
  simulates (lru_step op c).2 (q_step (lru_max c) op q).2 /\
  lru_max (lru_step op c).2 = lru_max c /\
  (lru_next (lru_step op c).2 <= lru_next c + 1)%N.
Proof.
  intros Hf Hmax Hs. destruct op as [k|k v|k| |]; cbn [lru_step q_step].
  - destruct (lru_get_refines c q k Hf Hs) as [Hv Hs'].
    assert (Hn : lru_max (lru_get k c).2 = lru_max c /\
                 (lru_next (lru_get k c).2 <= lru_next c + 1)%N).
    { unfold lru_get. destruct (lru_store c !! k) as [[]|]; cbn; [|split; [done|lia]].
      rewrite u64_succ_fresh by done. split; [done|lia]. }
    destruct (lru_get k c) as [r c'], (q_get k q) as [r' q']. cbn in *. subst. done.
  - cbn. split_and!; [done|by apply lru_set_refines| |].
    + unfold lru_set. by repeat case_match.
    + unfold lru_set. rewrite u64_succ_fresh by done. repeat case_match; cbn; lia.
  - cbn. split_and!; [|done|done|lia]. destruct Hs as (es & Hr & _ & ->).
    rewrite (q_value_of _ _ _ k Hr). unfold lru_has. f_equal.
    by destruct (lru_store c !! k).
  - cbn. split_and!; [|done|done|lia]. destruct Hs as (es & Hr & _ & ->).
    unfold lru_size, queue_of. by rewrite (rep_size _ _ _ Hr), length_map.
  - cbn. split_and!; [done| |done|lia]. exists []. split_and!; [|done|done].
    split; cbn; [constructor|constructor|constructor|].
    intros k v s. rewrite lookup_empty. split; [done|]. by intros Hin%not_elem_of_nil.
Qed.

Lemma lru_run_refines ops c q :
  (lru_next c + N.of_nat (length ops) < 2 ^ 64)%N -> 0 < lru_max c -> simulates c q ->
  lru_run ops c = q_run (lru_max c) ops q.
Proof.
  revert c q. induction ops as [|op ops IH]; intros c q Hn Hmax Hs; [done|].
  cbn [length] in Hn. cbn [lru_run q_run].
  destruct (lru_step_refines c q op) as (Hv & Hs' & Hm & Hnext);
    [unfold fresh; lia|done|done|].
  destruct (lru_step op c) as [r c'], (q_step (lru_max c) op q) as [r' q']. cbn in *.
  subst r'. f_equal. rewrite <- Hm. apply IH; [lia|by rewrite Hm|done].
Qed.

Lemma lru_new_simulates max c : lru_new max = Some c -> 0 < max ->
  simulates c [] /\ lru_max c = max /\ lru_next c = 0%N.
Proof.
  unfold lru_new. case_decide; [done|]. intros [= <-] _. split_and!; [|done|done].
  exists []. split_and!; [|done|done]. split; cbn; [constructor|constructor|constructor|].
  intros k v s. rewrite lookup_empty. split; [done|]. by intros H1%not_elem_of_nil.
Qed.

Lemma q_step_bounded max op q :
  0 < max -> length q <= max -> length (q_step max op q).2 <= max.
Proof.
  intros Hmax Hq. destruct op as [k|k v|k| |]; cbn; [| |done|done|lia].
  - unfold q_get. destruct (q_value k q) as [v|] eqn:E; cbn; [|done].
    rewrite length_app. cbn. pose proof (q_remove_lt k q v E). lia.
  - unfold q_set. destruct (q_value k q) as [v'|] eqn:E; rewrite length_app; cbn.
    + pose proof (q_remove_lt k q v' E). lia.
    + destruct (Nat.leb_spec max (length q)); [|lia]. destruct q; cbn in *; lia.
Qed.
End Lru.
