(* ===== verification/PathUtil.v ===== *)
(** * Lexical POSIX paths of the resolver

    [crates/codegraph-resolve/src/pathutil.rs], on byte strings: splitting at
    ['/'], lexical normalization, resolution against a base, the project-root
    guard, and relative paths; and what a path denotes when it is walked from
    a directory ([cds]). Then what is promised of them, and of the cache. *)
From S2P Require Import Prelude Strings LruCache.

Definition SLASH : ascii := "/".
Definition BACKSLASH : ascii := "\".
Arguments SLASH : simpl never.
Arguments BACKSLASH : simpl never.

(** [str::split] at a character: always at least one piece. *)
Fixpoint split_on (c : ascii) (s : string) : list string :=
  match s with
  | EmptyString => [EmptyString]
  | String a s =>
      if Ascii.eqb a c then EmptyString :: split_on c s
      else match split_on c s with
           | [] => [String a EmptyString]
           | w :: ws => String a w :: ws
           end
  end.

(** [str::rfind] of a character. *)
Fixpoint rfind (c : ascii) (s : string) : option nat :=
  match s with
  | EmptyString => None
  | String a s =>
      match rfind c s with
      | Some i => Some (S i)
      | None => if Ascii.eqb a c then Some 0 else None
      end
  end.

(** [str::trim_end_matches] of a character. *)
Fixpoint trim_end_matches (c : ascii) (s : string) : string :=
  match s with
  | EmptyString => EmptyString
  | String a s =>
      match trim_end_matches c s with
      | EmptyString => if Ascii.eqb a c then EmptyString else String a EmptyString
      | t => String a t
      end
  end.

Definition join_slash (l : list string) : string := String.concat "/" l.
Definition is_absolute (path : string) : bool := starts_with path "/".

(** One segment of [normalize]'s loop. *)
Definition normalize_seg (absolute : bool) (out : list string) (seg : string) : list string :=
  if String.eqb seg "" || String.eqb seg "." then out
  else if String.eqb seg ".." then
    match last out with
    | Some l => if negb (String.eqb l "..") then removelast out
                else if negb absolute then out ++ [".."] else out
    | None => if negb absolute then out ++ [".."] else out
    end
  else out ++ [seg].

Definition normalize (path : string) : string :=
  let absolute := is_absolute path in
  let out := fold_left (normalize_seg absolute) (split_on SLASH path) [] in
  let joined := join_slash out in
  if absolute then "/" +:+ joined
  else if String.eqb joined "" then "." else joined.

Definition dirname (path : string) : string :=
  match rfind SLASH path with
  | Some 0 => "/"
  | Some i => String.substring 0 i path
  | None => ""
  end.

Definition basename (path : string) : string :=
  match rfind SLASH path with
  | Some i => String.substring (S i) (String.length path - S i) path
  | None => path
  end.

Definition resolve (base relative : string) : string :=
  if is_absolute relative then normalize relative
  else
    let joined := if String.eqb base "" then relative
                  else trim_end_matches SLASH base +:+ "/" +:+ relative in
    normalize joined.

(** [u8::is_ascii_alphabetic]. *)
Definition is_ascii_alphabetic (c : ascii) : bool :=
  let n := N_of_ascii c in ((65 <=? n) && (n <=? 90) || (97 <=? n) && (n <=? 122))%N.

Definition has_windows_prefix (s : string) : bool :=
  match s with
  | String a (String b _) => is_ascii_alphabetic a && Ascii.eqb b ":"
  | _ => false
  end.

(** [Path::join] of a relative path. *)
Definition path_push (root relative : string) : string :=
  if String.eqb root "" then relative
  else if ends_with root "/" then root +:+ relative
  else root +:+ "/" +:+ relative.

Definition lexical_path_within_root (project_root file_path : string) : option string :=
  let normalized_separators := str_replace BACKSLASH SLASH file_path in
  if is_absolute normalized_separators || has_windows_prefix normalized_separators then None
  else
    let relative := normalize normalized_separators in
    if String.eqb relative ".." || starts_with relative "../" then None
    else Some (path_push project_root relative).

(** The segments [relative] compares. *)
Definition plain_segs (path : string) : list string :=
  filter (fun s => s <> "" /\ s <> ".") (split_on SLASH path).

(** Drop the segments both lists start with. *)
Fixpoint skip_common (from to : list string) : list string * list string :=
  match from, to with
  | f :: from', t :: to' => if String.eqb f t then skip_common from' to' else (from, to)
  | _, _ => (from, to)
  end.

Definition relative (from to : string) : string :=
  let '(from_rest, to_rest) := skip_common (plain_segs from) (plain_segs to) in
  join_slash (map (fun _ => "..") from_rest ++ to_rest).

(** ** What a path denotes *)

(** Where a segment leads from a location (the directory names from the file
    system root); [..] stays at the root. *)
Definition cd (loc : list string) (seg : string) : list string :=
  if String.eqb seg "" || String.eqb seg "." then loc
  else if String.eqb seg ".." then removelast loc
  else loc ++ [seg].
Definition cds (loc segs : list string) : list string := fold_left cd segs loc.
Arguments cds : simpl never.
Arguments cd : simpl never.

(** A directory or file name. *)
Definition name_seg (s : string) : Prop :=
  s <> "" /\ s <> "." /\ s <> ".." /\ str_contains SLASH s = false.

(** The segments of a normalized path: climbs, if it is relative, then names. *)
Definition canonical (absolute : bool) (segs : list string) : Prop :=
  exists u names, segs = replicate u ".." ++ names /\ Forall name_seg names /\
    (absolute = true -> u = 0).

(** ** Facts *)

Lemma split_on_no_slash s : Forall (fun w => str_contains SLASH w = false) (split_on SLASH s).
Proof.
  induction s as [|a s IH]; cbn; [by repeat constructor|].
  destruct (Ascii.eqb_spec a SLASH) as [->|Hne]; [by constructor|].
  destruct (split_on SLASH s) as [|w ws]; cbn.
  - repeat constructor. cbn. apply Ascii.eqb_neq in Hne. by rewrite Hne.
  - apply Forall_cons in IH as [Hw Hws]. constructor; [|done]. cbn.
    apply Ascii.eqb_neq in Hne. by rewrite Hne.
Qed.

Lemma split_on_cons s : exists w ws, split_on SLASH s = w :: ws.
Proof.
  destruct s as [|a s]; cbn; [by repeat eexists|].
  destruct (Ascii.eqb a SLASH); [by repeat eexists|].
  destruct (split_on SLASH s); by repeat eexists.
Qed.

Lemma split_on_piece w : str_contains SLASH w = false -> split_on SLASH w = [w].
Proof.
  induction w as [|a w IH]; [done|]. cbn. intros H. apply orb_false_iff in H as [Ha Hw].
  by rewrite Ha, IH.
Qed.

Lemma split_on_piece_app w s :
  str_contains SLASH w = false -> split_on SLASH (w +:+ String SLASH s) = w :: split_on SLASH s.
Proof.
  induction w as [|a w IH]; [done|]. cbn [str_contains]. intros H.
  apply orb_false_iff in H as [Ha Hw].
  change (String a w +:+ String SLASH s) with (String a (w +:+ String SLASH s)).
  cbn [split_on]. by rewrite Ha, IH.
Qed.

(** Splitting undoes joining. *)
Lemma split_join l :
  l <> [] -> Forall (fun w => str_contains SLASH w = false) l -> split_on SLASH (join_slash l) = l.
Proof.
  unfold join_slash. induction l as [|w l IH]; [done|]. intros _ Hl.
  apply Forall_cons in Hl as [Hw Hl]. destruct l as [|v l]; [by apply split_on_piece|].
  change (String.concat "/" (w :: v :: l)) with (w +:+ String SLASH (String.concat "/" (v :: l))).
  rewrite split_on_piece_app by done. by rewrite IH.
Qed.

Lemma name_seg_decided s : name_seg s ->
  String.eqb s "" = false /\ String.eqb s "." = false /\ String.eqb s ".." = false.
Proof. intros (H1 & H2 & H3 & _). by rewrite !String.eqb_neq. Qed.

Lemma cds_app loc l1 l2 : cds loc (l1 ++ l2) = cds (cds loc l1) l2.
Proof. apply fold_left_app. Qed.

Lemma cds_one loc s : cds loc [s] = cd loc s.
Proof. done. Qed.

Lemma cd_name loc s : name_seg s -> cd loc s = loc ++ [s].
Proof. intros H. destruct (name_seg_decided s H) as (H1 & H2 & H3). unfold cd. by rewrite H1, H2, H3. Qed.

Lemma cds_names loc l : Forall name_seg l -> cds loc l = loc ++ l.
Proof.
  revert loc. induction l as [|s l IH]; intros loc Hl; [by rewrite app_nil_r|].
  apply Forall_cons in Hl as [Hs Hl]. change (cds loc (s :: l)) with (cds (cd loc s) l).
  rewrite cd_name by done. rewrite IH by done.
  by rewrite <- app_assoc.
Qed.

(** *** The loop of [normalize] *)

Lemma normalize_seg_canonical absolute out seg :
  canonical absolute out -> str_contains SLASH seg = false ->
  canonical absolute (normalize_seg absolute out seg).
Proof.
  intros (u & names & -> & Hn & Hu) Hs. unfold normalize_seg.
  destruct (String.eqb_spec seg "") as [|H1]; cbn [orb]; [by exists u, names|].
  destruct (String.eqb_spec seg ".") as [|H2]; cbn [orb]; [by exists u, names|].
  destruct (String.eqb_spec seg "..") as [->|H3].
  - assert (Hclimb : names = [] -> canonical absolute
      (if negb absolute then (replicate u ".." ++ names) ++ [".."] else replicate u ".." ++ names)).
    { intros ->. destruct absolute; cbn; [by exists u, []|].
      exists (S u), []. rewrite !app_nil_r, replicate_S_end. by split_and!. }
    destruct names as [|n names'] eqn:En using rev_ind; [|clear IHnames'].
    + rewrite app_nil_r in *. destruct u as [|u]; [by apply Hclimb|].
      rewrite replicate_S_end, last_snoc. cbn. rewrite <- replicate_S_end. by apply Hclimb.
    + rewrite app_assoc, last_snoc. apply Forall_app in Hn as [Hn Hx].
      apply Forall_cons in Hx as [Hx _]. destruct (name_seg_decided _ Hx) as (_ & _ & ->). cbn.
      rewrite removelast_last. by exists u, names'.
  - exists u, (names ++ [seg]). rewrite app_assoc. split_and!; [done| |done].
    apply Forall_app. split; [done|]. by repeat constructor.
Qed.

Lemma normalize_seg_location absolute out seg loc :
  canonical absolute out -> (absolute = true -> loc = []) ->
  cds loc (normalize_seg absolute out seg) = cd (cds loc out) seg.
Proof.
  intros (u & names & -> & Hn & Hu) Hloc. unfold normalize_seg, cd at 1.
  destruct (String.eqb_spec seg "") as [|H1]; cbn [orb]; [done|].
  destruct (String.eqb_spec seg ".") as [|H2]; cbn [orb]; [done|].
  destruct (String.eqb_spec seg "..") as [->|H3].
  - assert (Hclimb : names = [] -> cds loc
      (if negb absolute then (replicate u ".." ++ names) ++ [".."] else replicate u ".." ++ names)
      = removelast (cds loc (replicate u ".." ++ names))).
    { intros ->. destruct absolute; cbn [negb]; [|by rewrite (cds_app _ _ [".."])].
      rewrite Hu, Hloc by done. done. }
    destruct names as [|n names'] eqn:En using rev_ind; [|clear IHnames'].
    + rewrite app_nil_r in *. destruct u as [|u]; [by apply Hclimb|].
      rewrite replicate_S_end, last_snoc. cbn. rewrite <- replicate_S_end. by apply Hclimb.
    + rewrite app_assoc, last_snoc. apply Forall_app in Hn as [Hn Hx].
      apply Forall_cons in Hx as [Hx _]. destruct (name_seg_decided _ Hx) as (_ & _ & E).
      rewrite E. cbn. rewrite removelast_last, (cds_app _ _ [n]), cds_one.
      by rewrite cd_name, removelast_last.
  - rewrite cds_app, cds_one. unfold cd. apply String.eqb_neq in H1, H2, H3. by rewrite H1, H2, H3.
Qed.

Lemma normalize_fold absolute segs out loc :
  canonical absolute out -> (absolute = true -> loc = []) ->
  Forall (fun w => str_contains SLASH w = false) segs ->
  let out' := fold_left (normalize_seg absolute) segs out in
  canonical absolute out' /\ cds loc out' = cds (cds loc out) segs.
Proof.
  intros Hc Hloc Hs. revert out Hc. induction segs as [|seg segs IH]; intros out Hc; [done|].
  apply Forall_cons in Hs as [Hseg Hs]. cbn.
  destruct (IH Hs (normalize_seg absolute out seg)) as [H1 H2];
    [by apply normalize_seg_canonical|].
  split; [done|]. rewrite H2, (normalize_seg_location absolute out seg loc) by done. done.
Qed.

(** A canonical list goes through the loop unchanged. *)
Lemma normalize_canonical absolute segs :
  canonical absolute segs -> fold_left (normalize_seg absolute) segs [] = segs.
Proof.
  intros (u & names & -> & Hn & Hu). rewrite fold_left_app.
  assert (Hclimbs : fold_left (normalize_seg absolute) (replicate u "..") [] = replicate u "..").
  { destruct absolute; [by rewrite Hu|]. clear. induction u as [|u IH]; [done|].
    rewrite replicate_S_end, fold_left_app, IH. cbn [fold_left].
    unfold normalize_seg. cbn. destruct u as [|u]; [done|].
    rewrite replicate_S_end at 1. by rewrite last_snoc. }
  rewrite Hclimbs. clear Hclimbs. revert Hn. generalize (replicate u "..") as out.
  induction names as [|n names IH]; intros out Hn; cbn; [by rewrite app_nil_r|].
  apply Forall_cons in Hn as [Hx Hn]. destruct (name_seg_decided _ Hx) as (E1 & E2 & E3).
  unfold normalize_seg at 2. rewrite E1, E2, E3. cbn. rewrite IH by done. by rewrite <- app_assoc.
Qed.

(** The normalized segments. *)
Definition norm_segs (path : string) : list string :=
  fold_left (normalize_seg (is_absolute path)) (split_on SLASH path) [].

Lemma norm_segs_canonical path : canonical (is_absolute path) (norm_segs path).
Proof.
  unfold norm_segs. apply (normalize_fold _ _ [] []); [|done|apply split_on_no_slash].
  by exists 0, [].
Qed.

Lemma canonical_no_slash absolute segs :
  canonical absolute segs -> Forall (fun w => str_contains SLASH w = false) segs.
Proof.
  intros (u & names & -> & Hn & _). apply Forall_app. split.
  - apply Forall_replicate. done.
  - eapply Forall_impl; [exact Hn|]. by intros s (_ & _ & _ & H).
Qed.

Lemma canonical_nonempty_seg absolute s segs : canonical absolute (s :: segs) -> s <> "".
Proof.
  intros ([|u] & names & E & Hn & _); cbn in E; [|by injection E as -> _].
  rewrite <- E in Hn. by apply Forall_cons in Hn as [(H & _) _].
Qed.

(** Whether the joined segments are the empty string. *)
Lemma join_slash_empty absolute segs :
  canonical absolute segs -> join_slash segs = "" <-> segs = [].
Proof.
  intros Hc. split; [|by intros ->]. destruct segs as [|s segs]; [done|].
  apply canonical_nonempty_seg in Hc. unfold join_slash.
  destruct segs; destruct s; cbn; done.
Qed.

Lemma normalize_unfold path :
  normalize path = if is_absolute path then "/" +:+ join_slash (norm_segs path)
                   else match norm_segs path with [] => "." | segs => join_slash segs end.
Proof.
  unfold normalize. fold (norm_segs path). destruct (is_absolute path) eqn:Ea; [done|].
  pose proof (join_slash_empty _ _ (norm_segs_canonical path)) as He.
  destruct (String.eqb_spec (join_slash (norm_segs path)) "") as [E|E].
  - by rewrite (proj1 He E).
  - destruct (norm_segs path); [by destruct E|done].
Qed.

(** *** Reading a normalized path back *)

Lemma is_absolute_spec p : is_absolute p = true <-> exists s, p = String SLASH s.
Proof.
  unfold is_absolute. rewrite starts_with_spec. split; intros (s & ->); by exists s.
Qed.

Lemma join_slash_relative l :
  Forall (fun w => str_contains SLASH w = false) l -> (forall s l', l = s :: l' -> s <> "") ->
  is_absolute (join_slash l) = false.
Proof.
  intros Hl Hne. destruct (is_absolute (join_slash l)) eqn:E; [|done].
  apply is_absolute_spec in E as (s & E). destruct l as [|w l]; [done|].
  specialize (Hne w l eq_refl). apply Forall_cons in Hl as [Hw _].
  destruct w as [|a w]; [done|]. unfold join_slash in E.
  assert (a = SLASH) as -> by (destruct l; cbn in E; by injection E).
  cbn in Hw. by rewrite Ascii.eqb_refl in Hw.
Qed.

Lemma norm_segs_relative path :
  is_absolute (join_slash (norm_segs path)) = false.
Proof.
  pose proof (norm_segs_canonical path) as Hc. apply join_slash_relative.
  - by eapply canonical_no_slash.
  - intros s l E. rewrite E in Hc. by eapply canonical_nonempty_seg.
Qed.

Lemma normalize_absolute path : is_absolute (normalize path) = is_absolute path.
Proof.
  rewrite normalize_unfold. destruct (is_absolute path) eqn:E.
  - apply is_absolute_spec. by eexists.
  - pose proof (norm_segs_relative path) as Hr. destruct (norm_segs path); [done|exact Hr].
Qed.

(** The segments that matter: empty and [.] ones are skipped by every walk. *)
Definition plain (segs : list string) : list string := filter (fun s => s <> "" /\ s <> ".") segs.

Lemma skipped_seg s : ~ (s <> "" /\ s <> ".") -> (String.eqb s "" || String.eqb s ".") = true.
Proof.
  intros H. destruct (String.eqb_spec s ""); [done|]. destruct (String.eqb_spec s "."); [done|tauto].
Qed.

Lemma fold_plain absolute segs out :
  fold_left (normalize_seg absolute) (plain segs) out = fold_left (normalize_seg absolute) segs out.
Proof.
  revert out. induction segs as [|s segs IH]; intros out; [done|]. unfold plain in *.
  destruct (decide (s <> "" /\ s <> ".")) as [Hs|Hs].
  - rewrite filter_cons_True by done. cbn. apply IH.
  - rewrite filter_cons_False by done. rewrite IH. cbn [fold_left].
    unfold normalize_seg at 3. by rewrite (skipped_seg _ Hs).
Qed.

Lemma cds_plain segs loc : cds loc (plain segs) = cds loc segs.
Proof.
  revert loc. induction segs as [|s segs IH]; intros loc; [done|]. unfold plain in *.
  destruct (decide (s <> "" /\ s <> ".")) as [Hs|Hs].
  - rewrite filter_cons_True by done. apply IH.
  - rewrite filter_cons_False by done. rewrite IH. unfold cds. cbn [fold_left].
    unfold cd at 3. by rewrite (skipped_seg _ Hs).
Qed.

Lemma plain_names l : Forall (fun s => s <> "" /\ s <> ".") l -> plain l = l.
Proof.
  unfold plain. induction l as [|s l IH]; intros Hl; [done|].
  apply Forall_cons in Hl as [Hs Hl]. rewrite filter_cons_True by done. by rewrite IH.
Qed.

Lemma canonical_plain absolute segs :
  canonical absolute segs -> Forall (fun s => s <> "" /\ s <> ".") segs.
Proof.
  intros (u & names & -> & Hn & _). apply Forall_app. split; [by apply Forall_replicate|].
  eapply Forall_impl; [exact Hn|]. by intros s (H1 & H2 & _).
Qed.

Lemma plain_join l :
  Forall (fun w => str_contains SLASH w = false) l -> Forall (fun s => s <> "" /\ s <> ".") l ->
  plain (split_on SLASH (join_slash l)) = l.
Proof.
  intros Hs Hp. destruct l as [|s l]; [done|]. rewrite split_join by done. by apply plain_names.
Qed.

Lemma split_normalize path : plain (split_on SLASH (normalize path)) = norm_segs path.
Proof.
  pose proof (norm_segs_canonical path) as Hc.
  pose proof (plain_join _ (canonical_no_slash _ _ Hc) (canonical_plain _ _ Hc)) as Hp.
  rewrite normalize_unfold. destruct (is_absolute path).
  - change ("/" +:+ join_slash (norm_segs path)) with (String SLASH (join_slash (norm_segs path))).
    cbn [split_on]. rewrite Ascii.eqb_refl. unfold plain. rewrite filter_cons_False by tauto.
    exact Hp.
  - destruct (norm_segs path) eqn:E; [by vm_compute|exact Hp].
Qed.

(** *** The root guard *)

Lemma climbs_prefix segs absolute :
  canonical absolute segs -> segs <> [] ->
  (String.eqb (join_slash segs) ".." || starts_with (join_slash segs) "../" = true <->
   exists rest, segs = ".." :: rest).
Proof.
  intros Hc Hne. pose proof (canonical_no_slash _ _ Hc) as Hs.
  assert (Hj := split_join segs Hne Hs). rewrite orb_true_iff, String.eqb_eq, starts_with_spec.
  split.
  - intros [E|(r & E)]; rewrite E in Hj; [by exists []|].
    change ("../" +:+ r) with (".." +:+ String SLASH r) in Hj.
    rewrite split_on_piece_app in Hj by done. by exists (split_on SLASH r).
  - intros (rest & ->). destruct rest as [|s rest]; [by left|right].
    by exists (join_slash (s :: rest)).
Qed.

Lemma cds_climbs u loc : cds loc (replicate u "..") = take (length loc - u) loc.
Proof.
  revert loc. induction u as [|u IH]; intros loc; [by rewrite Nat.sub_0_r, take_ge|].
  change (replicate (S u) "..") with (".." :: replicate u "..").
  unfold cds. cbn [fold_left]. fold (cds (cd loc "..") (replicate u "..")). rewrite IH.
  change (cd loc "..") with (removelast loc).
  destruct loc as [|x loc _] using rev_ind; [done|].
  rewrite removelast_last, length_app. cbn.
  rewrite take_app_le by lia. f_equal. lia.
Qed.

(** *** Relative paths *)

Lemma trim_end_shape s : exists k, s = trim_end_matches SLASH s +:+ String.concat "" (replicate k "/").
Proof.
  induction s as [|a s (k & IH)]; [by exists 0|]. cbn [trim_end_matches].
  destruct (trim_end_matches SLASH s) as [|b t] eqn:E.
  - destruct (Ascii.eqb_spec a SLASH) as [->|Hne].
    + exists (S k). rewrite IH. cbn. destruct k; done.
    + exists k. by rewrite IH.
  - exists k. by rewrite IH.
Qed.

Lemma str_app_nil (s : string) : s +:+ "" = s.
Proof. induction s as [|a s IH]; [done|]. exact (f_equal (String a) IH). Qed.

Lemma split_on_app s r :
  split_on SLASH (s +:+ String SLASH r) = split_on SLASH s ++ split_on SLASH r.
Proof.
  induction s as [|a s IH].
  - change ("" +:+ String SLASH r) with (String SLASH r). cbn [split_on].
    by rewrite Ascii.eqb_refl.
  - change (String a s +:+ String SLASH r) with (String a (s +:+ String SLASH r)).
    cbn [split_on]. rewrite IH. destruct (Ascii.eqb a SLASH); [done|].
    destruct (split_on_cons s) as (w & ws & ->). done.
Qed.

Lemma plain_app l1 l2 : plain (l1 ++ l2) = plain l1 ++ plain l2.
Proof. apply filter_app. Qed.

Lemma concat_slashes k :
  String.concat "" (replicate (S k) "/") = String SLASH (String.concat "" (replicate k "/")).
Proof. by destruct k. Qed.

Lemma plain_slashes k : plain (split_on SLASH (String.concat "" (replicate k "/"))) = [].
Proof.
  induction k as [|k IH]; [done|].
  rewrite concat_slashes.
  change (String SLASH (String.concat "" (replicate k "/")))
    with ("" +:+ String SLASH (String.concat "" (replicate k "/"))).
  by rewrite split_on_app, plain_app, IH.
Qed.

Lemma plain_trim s : plain (split_on SLASH (trim_end_matches SLASH s)) = plain (split_on SLASH s).
Proof.
  destruct (trim_end_shape s) as (k & E).
  destruct k as [|k].
  - assert (E' : s = trim_end_matches SLASH s).
    { rewrite E at 1. cbn [replicate String.concat]. apply str_app_nil. }
    by rewrite <- E'.
  - rewrite E at 2.
    by rewrite concat_slashes, split_on_app, plain_app, plain_slashes, app_nil_r.
Qed.

Lemma trim_absolute s r :
  s <> "" -> is_absolute (trim_end_matches SLASH s +:+ String SLASH r) = is_absolute s.
Proof.
  destruct s as [|a s]; [done|]. intros _.
  destruct (trim_end_shape (String a s)) as (k & E).
  destruct (trim_end_matches SLASH (String a s)) as [|b t] eqn:Et.
  - assert (a = SLASH) as ->; [|done].
    destruct k as [|k]; [done|]. rewrite concat_slashes in E. by injection E.
  - injection E as -> _. unfold is_absolute, starts_with. cbn. by destruct b as [[] [] [] [] [] [] [] []].
Qed.

(** The loop on names, from names: [..] pops, names are appended. *)
Lemma fold_names absolute out names :
  Forall name_seg names -> fold_left (normalize_seg absolute) names out = out ++ names.
Proof.
  revert out. induction names as [|n names IH]; intros out Hn; cbn [fold_left];
    [by rewrite app_nil_r|].
  apply Forall_cons in Hn as [Hx Hn]. destruct (name_seg_decided _ Hx) as (E1 & E2 & E3).
  unfold normalize_seg at 2. rewrite E1, E2, E3. cbn [orb]. rewrite IH by done.
  by rewrite <- app_assoc.
Qed.

Lemma fold_pops absolute common rest :
  Forall name_seg rest ->
  fold_left (normalize_seg absolute) (map (fun _ => "..") rest) (common ++ rest) = common.
Proof.
  induction rest as [|n rest IH] using rev_ind; intros Hn; [by rewrite app_nil_r|].
  apply Forall_app in Hn as [Hn Hx]. apply Forall_cons in Hx as [Hx _].
  destruct (name_seg_decided _ Hx) as (_ & _ & E3).
  replace (map (fun _ : string => "..") (rest ++ [n]))
    with (".." :: map (fun _ : string => "..") rest).
  - cbn [fold_left]. unfold normalize_seg at 2. cbn [String.eqb orb].
    rewrite app_assoc, last_snoc, E3. cbn. rewrite removelast_last. by apply IH.
  - clear. induction rest as [|m rest IH]; [done|]. cbn. by rewrite <- IH.
Qed.

Lemma skip_common_spec from to :
  let '(f, t) := skip_common from to in exists c, from = c ++ f /\ to = c ++ t.
Proof.
  revert to. induction from as [|x from IH]; intros to; cbn; [by exists []|].
  destruct to as [|y to]; [by exists []|].
  destruct (String.eqb_spec x y) as [->|]; [|by exists []].
  specialize (IH to). destruct (skip_common from to) as [f t].
  destruct IH as (c & -> & ->). by exists (y :: c).
Qed.

(** Names are what is left of a path without [..]. *)
Definition no_climb (path : string) : Prop := Forall (fun s => s <> "..") (split_on SLASH path).

Lemma no_climb_names path : no_climb path -> Forall name_seg (plain (split_on SLASH path)).
Proof.
  intros Hc. pose proof (split_on_no_slash path) as Hs. unfold no_climb, plain in *.
  rewrite Forall_forall in *. intros s Hin.
  apply list_elem_of_filter in Hin as [[H1 H2] Hin]. split_and!; auto.
Qed.

Lemma norm_segs_no_climb path : no_climb path -> norm_segs path = plain (split_on SLASH path).
Proof.
  intros Hc. unfold norm_segs. rewrite <- fold_plain. by apply fold_names, no_climb_names.
Qed.

(** A normalized path is determined by its segments and whether it is absolute. *)
Lemma normalize_ext p q :
  is_absolute p = is_absolute q -> norm_segs p = norm_segs q -> normalize p = normalize q.
Proof. intros Ha Hn. rewrite !normalize_unfold. by rewrite Ha, Hn. Qed.

(** ** Properties of the resolver's path and cache utilities *)

(** ** Paths *)

(** Normalization does not change what a path denotes: walked from any directory (the root, for
    an absolute path), the normalized path ends where the path does. *)
Theorem normalize_same_location path loc :
  (is_absolute path = true -> loc = []) ->
  cds loc (split_on SLASH (normalize path)) = cds loc (split_on SLASH path).
Proof.
  intros Hloc. rewrite <- cds_plain, split_normalize.
  apply (normalize_fold _ _ [] loc); [by exists 0, []|done|apply split_on_no_slash].
Qed.

(** A normalized path is canonical (climbs, only if it is relative, then names, with no empty,
    [.] or trailing segment), keeps its leading slash, and normalizing again changes nothing. *)
Theorem normalize_canonical_idempotent path :
  (exists segs, canonical (is_absolute path) segs /\
     normalize path = (if is_absolute path then "/" +:+ join_slash segs
                       else match segs with [] => "." | segs => join_slash segs end)) /\
  is_absolute (normalize path) = is_absolute path /\
  normalize (normalize path) = normalize path.
Proof.
  pose proof (norm_segs_canonical path) as Hc. split_and!.
  - exists (norm_segs path). split; [done|].
    rewrite normalize_unfold. by destruct (is_absolute path), (norm_segs path).
  - apply normalize_absolute.
  - apply normalize_ext; [apply normalize_absolute|].
    unfold norm_segs at 1. rewrite normalize_absolute, <- fold_plain, split_normalize.
    by apply normalize_canonical.
Qed.

(** The project-root guard accepts exactly the relative paths that stay inside. An accepted path
    is the root joined with plain names only, and walking the given path from any directory
    leads to those names below it; a rejected one is absolute, has a drive prefix, or climbs
    out: its walk drops at least one directory of the start. *)
Theorem lexical_path_within_root_guards root file :
  let path := str_replace BACKSLASH SLASH file in
  match lexical_path_within_root root file with
  | Some joined => exists names, Forall name_seg names /\
      joined = path_push root (match names with [] => "." | _ => join_slash names end) /\
      forall loc, cds loc (split_on SLASH path) = loc ++ names
  | None => is_absolute path = true \/ has_windows_prefix path = true \/
      exists u names, forall loc,
        cds loc (split_on SLASH path) = take (length loc - S u) loc ++ names
  end.
Proof.
  cbn zeta. unfold lexical_path_within_root. set (path := str_replace BACKSLASH SLASH file).
  destruct (is_absolute path) eqn:Ea; [by left|]. cbn [orb].
  destruct (has_windows_prefix path) eqn:Ew; [by right; left|].
  pose proof (norm_segs_canonical path) as Hc. rewrite Ea in Hc.
  assert (Hwalk : forall loc, cds loc (split_on SLASH path) = cds loc (norm_segs path)).
  { intros loc. symmetry. unfold norm_segs.
    apply (normalize_fold _ _ [] loc); [by exists 0, []|by rewrite Ea|apply split_on_no_slash]. }
  rewrite normalize_unfold, Ea.
  destruct (norm_segs path) as [|s segs] eqn:En.
  { cbn. exists []. split_and!; [done|done|]. intros loc. rewrite Hwalk. by rewrite app_nil_r. }
  pose proof (climbs_prefix (s :: segs) false Hc ltac:(done)) as Hcl.
  destruct Hc as (u & names & E & Hn & _). destruct u as [|u].
  - destruct (_ || _) eqn:Eo.
    + destruct (proj1 Hcl eq_refl) as (rest & E'). exfalso. rewrite E' in E. cbn in E.
      rewrite <- E in Hn. apply Forall_cons in Hn as [(_ & _ & H & _) _]. done.
    + exists names. cbn in E. subst names. split_and!; [done|done|].
      intros loc. rewrite Hwalk. by apply cds_names.
  - rewrite E in Hcl. rewrite E. rewrite (proj2 Hcl ltac:(by eexists)).
    right; right. exists u, names. intros loc. rewrite Hwalk, E, cds_app, cds_climbs.
    by apply cds_names.
Qed.

(** A relative path leads back: resolving [relative(from, to)] against [from] gives [to],
    normalized, for paths that are both absolute or both relative and do not climb. *)
Theorem relative_resolve_roundtrip from to :
  is_absolute from = is_absolute to -> no_climb from -> no_climb to ->
  resolve from (relative from to) = normalize to.
Proof.
  intros Habs Hf Ht.
  pose proof (no_climb_names _ Hf) as Hfn. pose proof (no_climb_names _ Ht) as Htn.
  unfold relative, plain_segs. fold (plain (split_on SLASH from)) (plain (split_on SLASH to)).
  pose proof (skip_common_spec (plain (split_on SLASH from)) (plain (split_on SLASH to))) as Hs.
  destruct (skip_common _ _) as [f t]. destruct Hs as (c & Ef & Et).
  rewrite Ef in Hfn. rewrite Et in Htn.
  apply Forall_app in Hfn as [Hcn Hfn]. apply Forall_app in Htn as [_ Htn].
  set (rel := map (fun _ : string => "..") f ++ t).
  assert (Hcan : canonical false rel).
  { exists (length f), t. split_and!; [|done|done]. unfold rel. f_equal.
    clear. induction f as [|x f IH]; [done|]. cbn. by rewrite IH. }
  assert (Hplain : plain (split_on SLASH (join_slash rel)) = rel).
  { apply plain_join; [by eapply canonical_no_slash|by eapply canonical_plain]. }
  assert (Hrel : is_absolute (join_slash rel) = false).
  { apply join_slash_relative; [by eapply canonical_no_slash|]. intros s l E.
    rewrite E in Hcan. by eapply canonical_nonempty_seg. }
  unfold resolve. rewrite Hrel.
  assert (Hfold : fold_left (normalize_seg (is_absolute to)) rel (c ++ f) = c ++ t).
  { unfold rel. rewrite fold_left_app, fold_pops by done. by apply fold_names. }
  destruct (String.eqb_spec from "") as [->|Hne].
  - apply normalize_ext; [by rewrite Hrel|]. rewrite (norm_segs_no_climb _ Ht), Et.
    cbn in Ef. symmetry in Ef. apply app_eq_nil in Ef as [-> ->]. cbn in Hfold.
    unfold norm_segs. rewrite Hrel, <- fold_plain, Hplain. rewrite <- Habs in Hfold. exact Hfold.
  - change ("/" +:+ join_slash rel) with (String SLASH (join_slash rel)).
    apply normalize_ext; [rewrite trim_absolute by done; exact Habs|].
    rewrite (norm_segs_no_climb _ Ht), Et. unfold norm_segs.
    rewrite trim_absolute, <- fold_plain, split_on_app, plain_app, plain_trim, Hplain, Ef by done.
    rewrite fold_left_app, Habs. rewrite (fold_names _ [] (c ++ f)) by (apply Forall_app; done).
    exact Hfold.
Qed.

Lemma normalize_same_location_witness :
  cds [] (split_on SLASH (normalize "/a/./b/../c")) = cds [] (split_on SLASH "/a/./b/../c") /\
  normalize "/a/./b/../c" = "/a/c".
Proof.
  split; [|vm_compute; reflexivity].
  exact (normalize_same_location "/a/./b/../c" [] (fun _ => eq_refl)).
Defined.

Lemma relative_resolve_roundtrip_witness :
  resolve "src/app" (relative "src/app" "src/lib/x.ts") = "src/lib/x.ts" /\
  relative "src/app" "src/lib/x.ts" = "../lib/x.ts".
Proof.
  split; [|vm_compute; reflexivity].
  refine (relative_resolve_roundtrip "src/app" "src/lib/x.ts" eq_refl _ _);
    vm_compute; repeat constructor; discriminate.
Defined.

(** ** The LRU cache *)

(** C35: the cache is a recency queue: over any sequence of operations that does not exhaust the
    [u64] stamps, a cache of capacity [max] answers every [get], [has] and [size] as the
    queue does, which evicts its least recently used key and never holds more than [max]. *)
Theorem lru_refines_queue {K V} `{Countable K} (max : nat) (c : LruCache (K:=K) (V:=V)) ops :
  lru_new max = Some c -> (N.of_nat (length ops) < 2 ^ 64)%N ->
  lru_run ops c = q_run max ops [] /\
  forall q op, length q <= max -> length (q_step (K:=K) (V:=V) max op q).2 <= max.
Proof.
  intros Hnew Hlen. assert (Hmax : 0 < max).
  { unfold lru_new in Hnew. case_decide; [done|lia]. }
  destruct (lru_new_simulates max c Hnew Hmax) as (Hs & Hm & Hn).
  split; [|intros q op; by apply q_step_bounded].
  rewrite <- Hm. apply lru_run_refines; [rewrite Hn; lia|by rewrite Hm|done].
Qed.

Definition demo_ops : list (lru_op (K:=string) (V:=N)) :=
  [OpSet "a" 1%N; OpSet "b" 2%N; OpGet "a"; OpSet "c" 3%N; OpHas "b"; OpHas "a"; OpSize].

Lemma lru_refines_queue_witness :
  (lru_run demo_ops (mkLruCache 2 ∅ [] 0%N) = q_run 2 demo_ops [] /\
   forall q op, length q <= 2 -> length (q_step (K:=string) (V:=N) 2 op q).2 <= 2) /\
  lru_run demo_ops (mkLruCache 2 ∅ [] 0%N) =
    [Done; Done; Value (Some 1%N); Done; Answer false; Answer true; Count 2].
Proof.
  split; [|vm_compute; reflexivity].
  exact (lru_refines_queue 2 (mkLruCache 2 ∅ [] 0%N) demo_ops eq_refl eq_refl).
Defined.
