(* ===== verification/EditDistance.v ===== *)
(** * The bounded edit distance of query scoring

    [crates/codegraph-graph/src/query/parser.rs::bounded_edit_distance]: two
    rows of the dynamic-programming table, with an early exit once a whole row
    exceeds the bound; and its specification by edit scripts. Strings are
    lists of characters. *)
From S2P Require Import Prelude.

Section Edit.
Context {A : Type} `{EqDecision A}.

(** One cell: [cost], [insertion], [deletion], [substitution]. *)
Definition cell (x y : A) (cur_left prev_up prev_left : nat) : nat :=
  let cost := if decide (x = y) then 0 else 1 in
  Nat.min (Nat.min (cur_left + 1) (prev_up + 1)) (prev_left + cost).

(** [v\[i\]]: the indices the code uses are in range ([row_run]). *)
Definition at_index (v : list nat) (i : nat) : nat := default 0 (v !! i).

(** [for j in 1..=bl]: [cur] is filled from the left; [row_min] is its least value. *)
Definition row_step (x : A) (b : list A) (prev : list nat) (st : list nat * nat) (j : nat)
  : list nat * nat :=
  let '(cur, row_min) := st in
  match b !! (j - 1) with
  | None => st
  | Some y =>
      let v := cell x y (at_index cur (j - 1)) (at_index prev j) (at_index prev (j - 1)) in
      (<[j := v]> cur, if (v <? row_min)%nat then v else row_min)
  end.

Definition row (i : nat) (x : A) (b : list A) (prev cur : list nat) : list nat * nat :=
  fold_left (row_step x b prev) (seq 1 (length b)) (<[0 := i]> cur, i).

(** [for i in 1..=al], with the swap of the two rows; [inr] is the early exit. *)
Fixpoint rows (i : nat) (a b : list A) (max_dist : nat) (prev cur : list nat) : list nat + nat :=
  match a with
  | [] => inl prev
  | x :: a =>
      let '(cur', row_min) := row i x b prev cur in
      if (max_dist <? row_min)%nat then inr (max_dist + 1)
      else rows (S i) a b max_dist cur' prev
  end.

Definition abs_diff (m n : nat) : nat := (m - n) + (n - m).

Definition bounded_edit_distance (a b : list A) (max_dist : nat) : nat :=
  if decide (a = b) then 0
  else
    let al := length a in
    let bl := length b in
    if (max_dist <? abs_diff al bl)%nat then max_dist + 1
    else if (al =? 0)%nat then bl
    else if (bl =? 0)%nat then al
    else match rows 1 a b max_dist (seq 0 (bl + 1)) (replicate (bl + 1) 0) with
         | inl prev => at_index prev bl
         | inr d => d
         end.

(** ** Edit scripts *)

(** [edits a b n]: [n] insertions, deletions and substitutions make [b] of [a]. *)
Inductive edits : list A -> list A -> nat -> Prop :=
| edits_nil : edits [] [] 0
| edits_keep x a b n : edits a b n -> edits (x :: a) (x :: b) n
| edits_subst x y a b n : edits a b n -> edits (x :: a) (y :: b) (S n)
| edits_insert y a b n : edits a b n -> edits a (y :: b) (S n)
| edits_delete x a b n : edits a b n -> edits (x :: a) b (S n).

(** The recurrence on the lists' heads. *)
Fixpoint lev (a : list A) : list A -> nat :=
  match a with
  | [] => fun b => length b
  | x :: a' => fix go (b : list A) : nat :=
      match b with
      | [] => S (length a')
      | y :: b' => cell x y (go b') (lev a' (y :: b')) (lev a' b')
      end
  end.

Lemma lev_nil_r a : lev a [] = length a.
Proof. by destruct a. Qed.

Lemma lev_cons x a y b : lev (x :: a) (y :: b) = cell x y (lev (x :: a) b) (lev a (y :: b)) (lev a b).
Proof. done. Qed.

Lemma edits_insert_all b : edits [] b (length b).
Proof. induction b; [constructor|]. by apply edits_insert. Qed.

Lemma edits_delete_all a : edits a [] (length a).
Proof. induction a; [constructor|]. by apply edits_delete. Qed.

Lemma lev_edits a b : edits a b (lev a b).
Proof.
  revert b. induction a as [|x a IH]; intros b; [apply edits_insert_all|].
  induction b as [|y b IHb]; [apply edits_delete_all|].
  rewrite lev_cons. unfold cell.
  destruct (Nat.min_spec (lev (x :: a) b + 1) (lev a (y :: b) + 1)) as [[_ ->]|[_ ->]];
    match goal with |- context [Nat.min ?m ?n] => destruct (Nat.min_spec m n) as [[_ ->]|[_ ->]] end.
  - rewrite Nat.add_1_r. by apply edits_insert.
  - case_decide as Hxy; [subst y; rewrite Nat.add_0_r; by apply edits_keep|].
    rewrite Nat.add_1_r. by apply edits_subst.
  - rewrite Nat.add_1_r. by apply edits_delete.
  - case_decide as Hxy; [subst y; rewrite Nat.add_0_r; by apply edits_keep|].
    rewrite Nat.add_1_r. by apply edits_subst.
Qed.

Lemma cell_le x y l u d : cell x y l u d <= l + 1 /\ cell x y l u d <= u + 1 /\
  cell x y l u d <= d + 1 /\ (x = y -> cell x y l u d <= d).
Proof. unfold cell. case_decide; split_and!; intros; first [lia|done]. Qed.

Lemma edits_lev a b n : edits a b n -> lev a b <= n.
Proof.
  induction 1 as [|x a b n _ IH|x y a b n _ IH|y a b n _ IH|x a b n _ IH]; [done| | | |].
  - rewrite lev_cons.
    destruct (cell_le x x (lev (x :: a) b) (lev a (x :: b)) (lev a b)) as (_ & _ & _ & H).
    specialize (H eq_refl). lia.
  - rewrite lev_cons. destruct (cell_le x y (lev (x :: a) b) (lev a (y :: b)) (lev a b)) as (?&?&?&_). lia.
  - destruct a as [|x a]; [cbn in *; lia|]. rewrite lev_cons.
    destruct (cell_le x y (lev (x :: a) b) (lev a (y :: b)) (lev a b)) as (?&?&?&_). lia.
  - destruct b as [|y b]; [rewrite lev_nil_r in *; cbn; lia|]. rewrite lev_cons.
    destruct (cell_le x y (lev (x :: a) (b)) (lev a (y :: b)) (lev a b)) as (?&?&?&_). lia.
Qed.

Lemma edits_length a b n : edits a b n -> abs_diff (length a) (length b) <= n.
Proof. unfold abs_diff. induction 1; cbn in *; lia. Qed.

Lemma edits_app a b n a' b' n' : edits a b n -> edits a' b' n' -> edits (a ++ a') (b ++ b') (n + n').
Proof. intros H H'. induction H; cbn; [done|..]; by constructor. Qed.

Lemma edits_rev a b n : edits a b n -> edits (reverse a) (reverse b) n.
Proof.
  induction 1 as [|x a b n _ IH|x y a b n _ IH|y a b n _ IH|x a b n _ IH];
    rewrite ?reverse_cons.
  - constructor.
  - rewrite <- (Nat.add_0_r n). apply edits_app; [done|]. repeat constructor.
  - rewrite <- Nat.add_1_r. apply edits_app; [done|]. repeat constructor.
  - rewrite <- (app_nil_r (reverse a)), <- Nat.add_1_r. apply edits_app; [done|]. repeat constructor.
  - rewrite <- (app_nil_r (reverse b)), <- Nat.add_1_r. apply edits_app; [done|]. repeat constructor.
Qed.

(** The distance of two prefixes is the table's cell. *)
Definition prefix_dist (a b : list A) (i j : nat) : nat :=
  lev (reverse (take i a)) (reverse (take j b)).

Lemma prefix_dist_0_r a b i : i <= length a -> prefix_dist a b i 0 = i.
Proof.
  intros Hi. unfold prefix_dist. rewrite take_0, reverse_nil, lev_nil_r, length_reverse, length_take. lia.
Qed.

Lemma prefix_dist_0_l a b j : j <= length b -> prefix_dist a b 0 j = j.
Proof.
  intros Hj. unfold prefix_dist. rewrite take_0, reverse_nil. cbn [lev].
  rewrite length_reverse, length_take. lia.
Qed.

Lemma prefix_dist_S a b i j x y : a !! i = Some x -> b !! j = Some y ->
  prefix_dist a b (S i) (S j) =
  cell x y (prefix_dist a b (S i) j) (prefix_dist a b i (S j)) (prefix_dist a b i j).
Proof.
  intros Hx Hy. unfold prefix_dist.
  rewrite (take_S_r a i x Hx), (take_S_r b j y Hy), !reverse_snoc. apply lev_cons.
Qed.

(** *** The rows of the table *)

(** [v] agrees with row [i] of the table up to column [j]. *)
Definition row_of (a b : list A) (i j : nat) (v : list nat) : Prop :=
  length v = length b + 1 /\ forall k, k <= j -> v !! k = Some (prefix_dist a b i k).

Lemma row_of_at a b i j v k : row_of a b i j v -> k <= j -> at_index v k = prefix_dist a b i k.
Proof. intros [_ Hv] Hk. unfold at_index. by rewrite Hv. Qed.

(** [m] is the least of the row's first [j + 1] cells. *)
Definition least (a b : list A) (i j m : nat) : Prop :=
  (forall k, k <= j -> m <= prefix_dist a b i k) /\ exists k, k <= j /\ m = prefix_dist a b i k.

Lemma row_run a b i x prev cur :
  S i <= length a -> a !! i = Some x -> row_of a b i (length b) prev -> length cur = length b + 1 ->
  let '(cur', m) := row (S i) x b prev cur in
  row_of a b (S i) (length b) cur' /\ least a b (S i) (length b) m.
Proof.
  intros Hi Hx Hprev Hcur. unfold row.
  assert (Hgen : forall j, j <= length b ->
    let '(cur', m) := fold_left (row_step x b prev) (seq 1 j) (<[0 := S i]> cur, S i) in
    row_of a b (S i) j cur' /\ least a b (S i) j m); [|by apply Hgen].
  induction j as [|j IH]; intros Hj.
  - cbn. split; [split; [by rewrite length_insert|]|].
    + intros k Hk. replace k with 0 by lia.
      rewrite list_lookup_insert_eq by lia. by rewrite prefix_dist_0_r.
    + split; [intros k Hk; replace k with 0 by lia; by rewrite prefix_dist_0_r|].
      exists 0. by rewrite prefix_dist_0_r.
  - rewrite seq_S, fold_left_app. specialize (IH ltac:(lia)).
    destruct (fold_left _ _ _) as [cur' m]. destruct IH as [Hc [Hle (k0 & Hk0 & Hm)]].
    cbn [fold_left]. unfold row_step. replace (1 + j - 1) with j by lia. cbn [Nat.add].
    destruct (lookup_lt_is_Some_2 b j) as [y Hy]; [lia|]. rewrite Hy.
    rewrite (row_of_at a b (S i) j cur' j Hc) by lia.
    rewrite (row_of_at a b i (length b) prev (S j) Hprev) by lia.
    rewrite (row_of_at a b i (length b) prev j Hprev) by lia.
    rewrite <- (prefix_dist_S a b i j x y Hx Hy).
    assert (Hrow : row_of a b (S i) (S j) (<[S j := prefix_dist a b (S i) (S j)]> cur')).
    { destruct Hc as [Hl Hc]. split; [by rewrite length_insert|]. intros k Hk.
      destruct (decide (k = S j)) as [->|Hne]; [apply list_lookup_insert_eq; lia|].
      rewrite list_lookup_insert_ne by done. apply Hc. lia. }
    destruct (Nat.ltb_spec (prefix_dist a b (S i) (S j)) m) as [Hlt|Hge]; split; try exact Hrow.
    + split; [|by exists (S j)]. intros k Hk. destruct (decide (k = S j)) as [->|]; [done|].
      specialize (Hle k ltac:(lia)). lia.
    + split; [|exists k0; split; [lia|done]]. intros k Hk.
      destruct (decide (k = S j)) as [->|]; [done|]. apply Hle. lia.
Qed.

Lemma least_exists a b i j : exists m, least a b i j m.
Proof.
  induction j as [|j (m & Hle & k0 & Hk0 & Hm)].
  - exists (prefix_dist a b i 0). split; [intros k Hk; by replace k with 0 by lia|by exists 0].
  - destruct (decide (prefix_dist a b i (S j) < m)) as [Hlt|Hge].
    + exists (prefix_dist a b i (S j)). split; [|by exists (S j)]. intros k Hk.
      destruct (decide (k = S j)) as [->|]; [done|]. specialize (Hle k ltac:(lia)). lia.
    + exists m. split; [|exists k0; split; [lia|done]]. intros k Hk.
      destruct (decide (k = S j)) as [->|]; [lia|]. apply Hle. lia.
Qed.

(** Every cell of the next row is at least the least cell of this one. *)
Lemma next_row_least a b i j m :
  i < length a -> least a b i (length b) m -> j <= length b -> m <= prefix_dist a b (S i) j.
Proof.
  intros Hi [Hle _]. destruct (lookup_lt_is_Some_2 a i Hi) as [x Hx].
  induction j as [|j IH]; intros Hj.
  - rewrite prefix_dist_0_r by lia. specialize (Hle 0 ltac:(lia)).
    rewrite prefix_dist_0_r in Hle by lia. lia.
  - destruct (lookup_lt_is_Some_2 b j) as [y Hy]; [lia|].
    rewrite (prefix_dist_S a b i j x y Hx Hy). specialize (IH ltac:(lia)).
    pose proof (Hle (S j) Hj). pose proof (Hle j ltac:(lia)). unfold cell. case_decide; lia.
Qed.

Lemma final_least a b i m :
  i <= length a -> least a b i (length b) m -> m <= prefix_dist a b (length a) (length b).
Proof.
  intros Hi Hm. assert (Hgen : forall d j, i + d <= length a -> j <= length b ->
                          m <= prefix_dist a b (i + d) j).
  { induction d as [|d IH]; intros j Hd Hj; [rewrite Nat.add_0_r; by apply Hm|].
    rewrite <- Nat.add_succ_comm. cbn.
    assert (Hrow : exists m', least a b (i + d) (length b) m' /\ m <= m').
    { destruct (least_exists a b (i + d) (length b)) as (m' & Hm'). exists m'. split; [done|].
      destruct Hm' as [_ (k & Hk & ->)]. apply IH; lia. }
    destruct Hrow as (m' & Hm' & Hle). etransitivity; [exact Hle|].
    apply next_row_least; [lia|done|done]. }
  specialize (Hgen (length a - i) (length b)). rewrite <- Nat.le_add_sub in Hgen by done.
  by apply Hgen.
Qed.

Lemma rows_run a b max_dist i rest prev cur :
  drop i a = rest -> i <= length a -> row_of a b i (length b) prev -> length cur = length b + 1 ->
  match rows (S i) rest b max_dist prev cur with
  | inl v => row_of a b (length a) (length b) v
  | inr d => d = max_dist + 1 /\ max_dist < prefix_dist a b (length a) (length b)
  end.
Proof.
  revert i prev cur. induction rest as [|x rest IH]; intros i prev cur Hd Hi Hprev Hcur.
  - cbn. apply (f_equal length) in Hd. rewrite length_drop in Hd. cbn in Hd.
    by replace (length a) with i by lia.
  - assert (Hx : a !! i = Some x).
    { rewrite <- (Nat.add_0_r i), <- lookup_drop, Hd. done. }
    apply lookup_lt_Some in Hx as Hlt. cbn [rows].
    pose proof (row_run a b i x prev cur Hlt Hx Hprev Hcur) as Hrow.
    destruct (row (S i) x b prev cur) as [cur' m]. destruct Hrow as [Hc Hm].
    destruct (Nat.ltb_spec max_dist m) as [Hcut|Hgo].
    + split; [done|]. pose proof (final_least a b (S i) m Hlt Hm). lia.
    + apply IH; [|lia|done|by destruct Hprev].
      rewrite <- Nat.add_1_r, <- drop_drop, Hd. done.
Qed.

Lemma prefix_dist_full a b : prefix_dist a b (length a) (length b) = lev a b.
Proof.
  unfold prefix_dist. rewrite !take_ge by done. apply Nat.le_antisymm.
  - apply edits_lev, edits_rev, lev_edits.
  - rewrite <- (reverse_involutive a), <- (reverse_involutive b) at 1.
    apply edits_lev, edits_rev, lev_edits.
Qed.

(** What the function returns, in terms of the distance. *)
Lemma bounded_edit_distance_lev a b max_dist :
  bounded_edit_distance a b max_dist = lev a b \/
  bounded_edit_distance a b max_dist = max_dist + 1 /\ max_dist < lev a b.
Proof.
  unfold bounded_edit_distance. case_decide as Hab.
  { left. subst b. pose proof (edits_lev a a 0). symmetry. apply Nat.le_0_r. apply H.
    clear. induction a; by constructor. }
  destruct (Nat.ltb_spec max_dist (abs_diff (length a) (length b))) as [Hfar|Hnear].
  { right. split; [done|]. pose proof (edits_length a b _ (lev_edits a b)). lia. }
  destruct (Nat.eqb_spec (length a) 0) as [Ha|Ha]; [left; by apply nil_length_inv in Ha as ->|].
  destruct (Nat.eqb_spec (length b) 0) as [Hb|Hb].
  { left. apply nil_length_inv in Hb as ->. by rewrite lev_nil_r. }
  pose proof (rows_run a b max_dist 0 a (seq 0 (length b + 1)) (replicate (length b + 1) 0)) as H.
  specialize (H (drop_0 a) ltac:(lia)).
  assert (H0 : row_of a b 0 (length b) (seq 0 (length b + 1))).
  { split; [apply length_seq|]. intros k Hk. rewrite lookup_seq_lt by lia.
    by rewrite prefix_dist_0_l. }
  specialize (H H0 ltac:(apply length_replicate)).
  destruct (rows _ _ _ _ _ _) as [v|d].
  - left. rewrite (row_of_at _ _ _ _ _ _ H) by done. apply prefix_dist_full.
  - right. by rewrite <- prefix_dist_full.
Qed.
End Edit.

(** ** Properties of the query parser's edit distance *)

(** C36: the bounded edit distance is exact up to its bound: a result within the bound is the least
    number of insertions, deletions and substitutions that turn one string into the other, and
    a result above the bound means that no edit script within the bound exists. *)
Theorem bounded_edit_distance_correct {A} `{EqDecision A} (a b : list A) (max_dist : nat) :
  let d := bounded_edit_distance a b max_dist in
  (d <= max_dist -> edits a b d /\ forall n, edits a b n -> d <= n) /\
  (max_dist < d -> forall n, edits a b n -> max_dist < n).
Proof.
  cbn zeta. pose proof (lev_edits a b) as Hl.
  destruct (bounded_edit_distance_lev a b max_dist) as [-> |[-> Hlt]].
  - split; [intros _; split; [exact Hl|by apply edits_lev]|].
    intros Hd n Hn. apply edits_lev in Hn. lia.
  - split; [lia|]. intros _ n Hn. apply edits_lev in Hn. lia.
Qed.
