(* ===== verification/Hierarchy.v ===== *)
(** * The type hierarchy of the viewer
      (crates/codegraph-graph/src/hierarchy.rs;
      codegraph-store/src/viewer.rs, [outgoing_edges_from], [incoming_edges_to])

    Bounded breadth-first walks up and down the [extends] and [implements]
    edges of a type, and the overrides among its members. The store's batched
    edge reads are an interface of their own, which [HierarchyStore] states. *)
From S2P Require Import Prelude Strings Types Rows GraphStore.

(** ** The interface *)

Class EdgeBatches (St : Type) := {
  outgoing_edges_from : St -> list string -> list EdgeKind -> result SqlError (list Edge);
  incoming_edges_to : St -> list string -> list EdgeKind -> result SqlError (list Edge)
}.

(** Each edge out of (into) one of the ids, of one of the kinds, once, in some order. *)
Class HealthyBatches {St} `{EdgeBatches St} (st : St) (g : GraphView) : Prop := {
  healthy_outgoing : forall ids kinds, kinds <> [] ->
    returns (outgoing_edges_from st ids kinds)
      (fun es => es ≡ₚ filter (fun e => edge_source e ∈ ids /\ edge_kind e ∈ kinds) (gv_edges g));
  healthy_incoming : forall ids kinds, kinds <> [] ->
    returns (incoming_edges_to st ids kinds)
      (fun es => es ≡ₚ filter (fun e => edge_target e ∈ ids /\ edge_kind e ∈ kinds) (gv_edges g))
}.

(** ** Data *)

(** [can_have_hierarchy]. *)
Definition can_have_hierarchy (node : Node) : bool :=
  match node_kind node with
  | NkClass | NkInterface | NkStruct | NkTrait | NkProtocol | NkEnum | NkTypeAlias | NkUnion => true
  | _ => false
  end.

Definition is_overridable (kind : NodeKind) : bool :=
  match kind with
  | NkMethod | NkFunction | NkProperty | NkField => true
  | _ => false
  end.

Definition MAX_ANCESTOR_DEPTH : nat := 8.
Definition MAX_DESCENDANT_DEPTH : nat := 6.
Definition MAX_DESCENDANTS : nat := 400.
Definition MAX_OVERRIDE_ANCESTORS : nat := 12.
Definition DISPATCH_MIN_IMPLEMENTERS : nat := 8.

Inductive HierarchyRelation : Set := HrExtends | HrImplements.

#[export] Instance HierarchyRelation_eq_dec : EqDecision HierarchyRelation.
Proof. solve_decision. Defined.

(** [HierarchyRelation::of]. *)
Definition HierarchyRelation_of (edge : Edge) : HierarchyRelation :=
  if decide (edge_kind edge = EkImplements) then HrImplements else HrExtends.

Record HierarchyEntry : Set := mkEntry {
  he_node : Node;
  he_depth : nat;
  he_parent_id : string;
  he_relation : HierarchyRelation;
  he_edge : Edge;
  he_synthesized : bool;
  he_hidden_subtypes : nat
}.

Definition he_id (e : HierarchyEntry) : string := node_id (he_node e).

Record OverrideMatch : Set := mkOverride {
  om_member_id : string;
  om_base_id : string;
  om_base_type_id : string;
  om_base_type_name : string;
  om_relation : HierarchyRelation
}.

Record TypeHierarchy : Type := mkTypeHierarchy {
  th_focus : Node;
  th_ancestors : list HierarchyEntry;
  th_descendants : list HierarchyEntry;
  th_direct_subtypes : nat;
  th_direct_implementers : nat;
  th_bounded : bool;
  th_polymorphic : bool;
  th_overrides : gmap string OverrideMatch
}.

(** [edge.provenance.as_deref() == Some("heuristic")]. *)
Definition is_heuristic (edge : Edge) : bool := bool_decide (edge_provenance edge = Some "heuristic").

Definition to_entry (node : Node) (depth : nat) (parent_id : string) (edge : Edge) : HierarchyEntry :=
  mkEntry node depth parent_id (HierarchyRelation_of edge) edge (is_heuristic edge) 0.

(** ** The order of a level

    [to_lowercase] is the standard library's, over its Unicode case tables. *)
Section Order.
Variable to_lowercase : string -> string.

Definition locale_cmp (a b : string) : comparison :=
  match String.compare (to_lowercase a) (to_lowercase b) with
  | Eq => String.compare a b
  | c => c
  end.

Definition relation_rank (r : HierarchyRelation) : nat :=
  match r with HrExtends => 0 | HrImplements => 1 end.

(** [sort_level]'s comparison is not [Greater]. *)
Definition level_le (a b : HierarchyEntry) : bool :=
  then_le (Nat.compare (relation_rank (he_relation a)) (relation_rank (he_relation b)))
    (then_le (locale_cmp (node_name (he_node a)) (node_name (he_node b)))
       (then_le (locale_cmp (node_file_path (he_node a)) (node_file_path (he_node b)))
          (Z.leb (node_start_line (he_node a)) (node_start_line (he_node b))))).

Definition sort_level (level : list HierarchyEntry) : list HierarchyEntry := sort_by level_le level.

End Order.

Section Walks.
Variable to_lowercase : string -> string.
Context {St} `{GraphStore St} `{EdgeBatches St} (st : St).

Definition HIERARCHY_KINDS : list EdgeKind := [EkExtends; EkImplements].

Definition hierarchy_edges (ids : list string) (up : bool) : list Edge :=
  unwrap_or [] (if up then outgoing_edges_from st ids HIERARCHY_KINDS
                else incoming_edges_to st ids HIERARCHY_KINDS).

(** ** Supertypes *)

(** The body of the loop over a level's edges: the level and [seen]. *)
Definition ancestor_edge (depth : nat) (nodes : gmap string Node)
    (s : list HierarchyEntry * gset string) (edge : Edge) : list HierarchyEntry * gset string :=
  let '(level, seen) := s in
  match nodes !! edge_target edge with
  | None => s
  | Some node =>
      if decide (node_id node ∈ seen) then s
      else (level ++ [to_entry node depth (edge_source edge) edge], {[node_id node]} ∪ seen)
  end.

(** [out], [seen] and [frontier]. *)
Definition AncestorWalk : Type := list HierarchyEntry * gset string * list string.

Definition ancestor_level (s : AncestorWalk) (depth : nat) : loop_step AncestorWalk :=
  let '(out, seen, frontier) := s in
  match frontier with
  | [] => Break s
  | _ =>
      match hierarchy_edges frontier true with
      | [] => Break s
      | edges =>
          let nodes := unwrap_or ∅ (nodes_by_ids st (map edge_target edges)) in
          let '(level, seen) := fold_left (ancestor_edge depth nodes) edges ([], seen) in
          let level := sort_level to_lowercase level in
          Continue (out ++ level, seen, map he_id level)
      end
  end.

Definition walk_ancestors (focus : Node) : list HierarchyEntry :=
  fst (fst (for_loop ancestor_level ([], {[node_id focus]}, [node_id focus])
              (seq 1 MAX_ANCESTOR_DEPTH))).

(** ** Subtypes *)

(** What the loop over a level's edges changes. *)
Record Level : Type := mkLevel {
  lv_level : list HierarchyEntry;
  lv_overflow : list (string * nat);
  lv_seen : gset string;
  lv_direct_total : nat;
  lv_direct_implementers : nat;
  lv_bounded : bool
}.

(** A second edge to a subtype of the level: [extends] outranks [implements]. *)
Fixpoint promote (id : string) (edge : Edge) (level : list HierarchyEntry) : list HierarchyEntry :=
  match level with
  | [] => []
  | existing :: level =>
      if decide (he_id existing = id)
      then (if decide (he_relation existing = HrImplements /\ edge_kind edge = EkExtends)
            then mkEntry (he_node existing) (he_depth existing) (he_parent_id existing) HrExtends
                   edge (is_heuristic edge) (he_hidden_subtypes existing)
            else existing) :: level
      else existing :: promote id edge level
  end.

(** Count one more hidden subtype of [target]. *)
Fixpoint bump (target : string) (overflow : list (string * nat)) : list (string * nat) :=
  match overflow with
  | [] => [(target, 1)]
  | (t, n) :: overflow =>
      if decide (t = target) then (t, S n) :: overflow else (t, n) :: bump target overflow
  end.

(** The body of the loop over a level's edges; [taken] is [entries.len()]. *)
Definition descendant_edge (taken depth : nat) (seen : gset string) (nodes : gmap string Node)
    (s : Level) (edge : Edge) : Level :=
  match nodes !! edge_source edge with
  | None => s
  | Some node =>
      let id := node_id node in
      if decide (id ∈ seen) then s
      else if decide (id ∈ lv_seen s) then
        mkLevel (promote id edge (lv_level s)) (lv_overflow s) (lv_seen s) (lv_direct_total s)
          (lv_direct_implementers s) (lv_bounded s)
      else
        let total := if depth =? 1 then S (lv_direct_total s) else lv_direct_total s in
        let implementers :=
          if (depth =? 1) && bool_decide (edge_kind edge = EkImplements)
          then S (lv_direct_implementers s) else lv_direct_implementers s in
        if MAX_DESCENDANTS <=? taken + length (lv_level s) then
          mkLevel (lv_level s) (bump (edge_target edge) (lv_overflow s)) ({[id]} ∪ lv_seen s)
            total implementers true
        else
          mkLevel (lv_level s ++ [to_entry node depth (edge_target edge) edge]) (lv_overflow s)
            ({[id]} ∪ lv_seen s) total implementers (lv_bounded s)
  end.

(** [entries[at].hidden_subtypes += count]. *)
Definition add_hidden (count at_ : nat) (entries : list HierarchyEntry) : list HierarchyEntry :=
  alter (fun e => mkEntry (he_node e) (he_depth e) (he_parent_id e) (he_relation e) (he_edge e)
                    (he_synthesized e) (he_hidden_subtypes e + count)) at_ entries.

Record Down : Type := mkDown {
  dn_entries : list HierarchyEntry;
  dn_index : gmap string nat;
  dn_seen : gset string;
  dn_frontier : list string;
  dn_direct_total : nat;
  dn_direct_implementers : nat;
  dn_bounded : bool
}.

(** Append a level, with its places in [index]. *)
Definition push_entry (s : list HierarchyEntry * gmap string nat) (entry : HierarchyEntry)
  : list HierarchyEntry * gmap string nat :=
  let '(entries, index) := s in (entries ++ [entry], <[he_id entry := length entries]> index).

Definition add_overflow (index : gmap string nat) (entries : list HierarchyEntry)
    (o : string * nat) : list HierarchyEntry :=
  match index !! fst o with Some at_ => add_hidden (snd o) at_ entries | None => entries end.

(** The loop over the edges below the last level. *)
Definition last_level_edge (seen : gset string) (index : gmap string nat)
    (s : list HierarchyEntry * bool) (edge : Edge) : list HierarchyEntry * bool :=
  let '(entries, bounded) := s in
  if decide (edge_source edge ∈ seen) then s
  else (match index !! edge_target edge with
        | Some at_ => add_hidden 1 at_ entries
        | None => entries
        end, true).

Definition descendant_level (s : Down) (depth : nat) : loop_step Down :=
  match dn_frontier s with
  | [] => Break s
  | _ =>
      match hierarchy_edges (dn_frontier s) false with
      | [] => Break s
      | edges =>
          let nodes := unwrap_or ∅ (nodes_by_ids st (map edge_source edges)) in
          let lv := fold_left (descendant_edge (length (dn_entries s)) depth (dn_seen s) nodes) edges
                      (mkLevel [] [] ∅ (dn_direct_total s) (dn_direct_implementers s) (dn_bounded s)) in
          let seen := list_to_set (map he_id (lv_level lv)) ∪ dn_seen s in
          let '(entries, index) :=
            fold_left push_entry (sort_level to_lowercase (lv_level lv)) (dn_entries s, dn_index s) in
          let entries := fold_left (add_overflow index) (lv_overflow lv) entries in
          if lv_bounded lv then
            Break (mkDown entries index seen (dn_frontier s) (lv_direct_total lv)
                     (lv_direct_implementers lv) true)
          else
            let frontier := map he_id (filter (fun e => he_depth e = depth) entries) in
            let '(entries, bounded) :=
              if (depth =? MAX_DESCENDANT_DEPTH) && bool_decide (frontier <> [])
              then fold_left (last_level_edge seen index) (hierarchy_edges frontier false)
                     (entries, false)
              else (entries, false) in
            Continue (mkDown entries index seen frontier (lv_direct_total lv)
                        (lv_direct_implementers lv) bounded)
      end
  end.

Definition walk_descendants (focus : Node) : Down :=
  for_loop descendant_level
    (mkDown [] ∅ {[node_id focus]} [node_id focus] 0 0 false) (seq 1 MAX_DESCENDANT_DEPTH).

(** ** Overrides *)

(** Members of the containers with their container, by its rank, then by line. *)
Definition members_of (container_ids : list string) : list (Node * string) :=
  match container_ids with
  | [] => []
  | _ =>
      match outgoing_edges_from st container_ids [EkContains] with
      | Ok ((_ :: _) as edges) =>
          let nodes := unwrap_or ∅ (nodes_by_ids st (map edge_target edges)) in
          let rank : gmap string nat :=
            fold_left (fun m p => <[snd p := fst p]> m)
              (combine (seq 0 (length container_ids)) container_ids) ∅ in
          sort_by (fun a b =>
                     then_le (Nat.compare (default 0 (rank !! snd a)) (default 0 (rank !! snd b)))
                       (Z.leb (node_start_line (fst a)) (node_start_line (fst b))))
            (omap (fun e => (fun n => (n, edge_source e)) <$> nodes !! edge_target e) edges)
      | _ => []
      end
  end.

Definition match_overrides (focus : Node) (ancestors : list HierarchyEntry)
  : gmap string OverrideMatch :=
  match ancestors with
  | [] => ∅
  | _ =>
      match members_of [node_id focus] with
      | [] => ∅
      | own =>
          let chain := take MAX_OVERRIDE_ANCESTORS ancestors in
          match members_of (map he_id chain) with
          | [] => ∅
          | base =>
              let by_ancestor : gmap string HierarchyEntry :=
                fold_left (fun m a => <[he_id a := a]> m) chain ∅ in
              let by_name : gmap string (Node * string) :=
                fold_left (fun m b => match m !! node_name (fst b) with
                                      | Some _ => m
                                      | None => <[node_name (fst b) := b]> m
                                      end) base ∅ in
              fold_left (fun result m =>
                let member := fst m in
                if negb (is_overridable (node_kind member)) then result else
                match by_name !! node_name member with
                | None => result
                | Some (base_member, owner_id) =>
                    if String.eqb (node_id base_member) (node_id member) then result else
                    match by_ancestor !! owner_id with
                    | None => result
                    | Some owner =>
                        <[node_id member :=
                            mkOverride (node_id member) (node_id base_member) (he_id owner)
                              (node_name (he_node owner)) (he_relation owner)]> result
                    end
                end) own ∅
          end
      end
  end.

(** [build_type_hierarchy]. *)
Definition build_type_hierarchy (focus : Node) : option TypeHierarchy :=
  if negb (can_have_hierarchy focus) then None else
  let ancestors := walk_ancestors focus in
  let down := walk_descendants focus in
  match ancestors, dn_entries down with
  | [], [] => None
  | _, _ =>
      Some (mkTypeHierarchy focus ancestors (dn_entries down) (dn_direct_total down)
              (dn_direct_implementers down) (dn_bounded down)
              (DISPATCH_MIN_IMPLEMENTERS <=? dn_direct_implementers down)
              (match_overrides focus ancestors))
  end.

End Walks.
