(* ===== verification/HierarchyFacts.v ===== *)
(** * Facts on the hierarchy walks

    Both walks are breadth-first by levels: after [k] levels [seen] is the ball
    of radius [k] around the focus, and the entries are that ball without the
    focus, each at its distance. *)
From S2P Require Import Prelude Strings Types Rows GraphStore Hierarchy.

(** ** Balls and distances *)

Section Balls.
Variables (R : string -> string -> Prop) (s : string).

Definition ball (k : nat) (x : string) : Prop := bsteps R k s x.

(** [x] is at distance [k] from [s]. *)
Definition at_distance (k : nat) (x : string) : Prop := ball k x /\ forall j, j < k -> ~ ball j x.

Lemma ball_le j k x : j <= k -> ball j x -> ball k x.
Proof. intros Hjk. by apply bsteps_weaken. Qed.

Lemma ball_0 x : ball 0 x <-> x = s.
Proof.
  split; [|intros ->; constructor]. intros H. by inversion H.
Qed.

Lemma ball_S k y : ball (S k) y <-> ball k y \/ exists x, ball k x /\ R x y.
Proof.
  split.
  - intros (n & Hn & H)%bsteps_nsteps. destruct (decide (n <= k)) as [Hk|Hk].
    + left. apply bsteps_nsteps. eauto.
    + right. assert (n = S k) as -> by lia. apply nsteps_inv_r in H as (x & Hx & Hxy).
      exists x. split; [apply bsteps_nsteps; eauto|done].
  - intros [H|(x & Hx & Hxy)]; [by apply (ball_le k); [lia|]|]. by apply (bsteps_r k _ x).
Qed.

Lemma at_distance_0 x : at_distance 0 x <-> x = s.
Proof. unfold at_distance. rewrite ball_0. split; [by intros [? _]|]. intros ->. split; [done|lia]. Qed.

Lemma at_distance_S k x : at_distance (S k) x <-> ball (S k) x /\ ~ ball k x.
Proof.
  split; intros [H Hn]; (split; [done|]).
  - apply Hn. lia.
  - intros j Hj Hb. apply Hn. by apply (ball_le j); [lia|].
Qed.

(** After [k] levels [seen] is the ball, the frontier what is at distance [k],
    and only the frontier has successors outside. *)
Record levels (k : nat) (seen : gset string) (frontier : list string) : Prop := {
  levels_ball x : x ∈ seen <-> ball k x;
  levels_frontier x : x ∈ frontier <-> at_distance k x;
  levels_closed x y : x ∈ seen -> x ∉ frontier -> R x y -> y ∈ seen
}.

Lemma levels_start : levels 0 {[s]} [s].
Proof.
  split.
  - intros x. rewrite ball_0. set_solver.
  - intros x. rewrite at_distance_0. set_solver.
  - set_solver.
Qed.

Lemma levels_next k seen frontier seen' frontier' :
  levels k seen frontier ->
  (forall y, y ∈ seen' <-> y ∈ seen \/ exists x, x ∈ frontier /\ R x y) ->
  (forall y, y ∈ frontier' <-> y ∈ seen' /\ y ∉ seen) ->
  levels (S k) seen' frontier'.
Proof.
  intros [Hb Hf Hc] Hs' Hf'.
  assert (Hball : forall y, y ∈ seen' <-> ball (S k) y).
  { intros y. rewrite Hs', Hb, ball_S. split.
    - intros [H|(x & Hx & Hxy)]; [by left|]. right. exists x. by apply Hf in Hx as [? _].
    - intros [H|(x & Hx & Hxy)]; [by left|]. destruct (decide (x ∈ frontier)) as [Hin|Hout].
      + right. eauto.
      + left. apply Hb. apply (Hc x); [by apply Hb|done|done]. }
  split; [done|..].
  - intros y. by rewrite Hf', Hball, Hb, at_distance_S.
  - intros x y Hx Hx' Hxy. rewrite Hf' in Hx'. apply Hs'.
    destruct (decide (x ∈ seen)) as [Hin|]; [|tauto].
    destruct (decide (x ∈ frontier)); [right; eauto|left; eauto].
Qed.

(** Without successors of the frontier the ball is all that is reachable. *)
Lemma levels_done k seen frontier :
  levels k seen frontier ->
  (forall x y, x ∈ frontier -> R x y -> y ∈ seen) ->
  forall x, rtc R s x <-> x ∈ seen.
Proof.
  intros [Hb _ Hc] Hdone x. split.
  - revert x. apply (rtc_ind_r (R := R) (fun x => x ∈ seen) s); [by apply Hb; constructor|].
    intros y z _ Hyz Hy. destruct (decide (y ∈ frontier)); eauto.
  - intros Hx%Hb. by eapply rtc_bsteps_2.
Qed.

End Balls.

(** ** The edges of a level *)

Definition is_hierarchy (e : Edge) : Prop := edge_kind e ∈ HIERARCHY_KINDS.

(** One step from a type to a supertype. *)
Definition supertype (g : GraphView) (a b : string) : Prop :=
  exists e, e ∈ gv_edges g /\ is_hierarchy e /\ edge_source e = a /\ edge_target e = b.

Section Reads.
Context {St} `{HS : HealthyStore St st g} `{EB : EdgeBatches St} {HB : HealthyBatches st g}.

Lemma hierarchy_edges_up ids e :
  e ∈ hierarchy_edges st ids true <-> e ∈ gv_edges g /\ is_hierarchy e /\ edge_source e ∈ ids.
Proof.
  unfold hierarchy_edges. pose proof (healthy_outgoing (st := st) (g := g) ids HIERARCHY_KINDS) as H0.
  destruct (outgoing_edges_from st ids HIERARCHY_KINDS); cbn in *; try (exfalso; by apply H0).
  rewrite H0 by done. rewrite list_elem_of_filter. unfold is_hierarchy. tauto.
Qed.

Lemma hierarchy_edges_down ids e :
  e ∈ hierarchy_edges st ids false <-> e ∈ gv_edges g /\ is_hierarchy e /\ edge_target e ∈ ids.
Proof.
  unfold hierarchy_edges. pose proof (healthy_incoming (st := st) (g := g) ids HIERARCHY_KINDS) as H0.
  destruct (incoming_edges_to st ids HIERARCHY_KINDS); cbn in *; try (exfalso; by apply H0).
  rewrite H0 by done. rewrite list_elem_of_filter. unfold is_hierarchy. tauto.
Qed.

Lemma unwrap_nodes_by_ids ids id :
  id ∈ ids -> unwrap_or ∅ (nodes_by_ids st ids) !! id = gv_nodes g !! id.
Proof.
  intros Hid. pose proof (nodes_by_ids_lookup (st := st) (g := g) ids) as H0.
  destruct (nodes_by_ids st ids); cbn in *; [auto|done..].
Qed.

End Reads.

(** ** The supertypes of a level *)

(** The nodes map knows the far end of every edge. *)
Definition ends_known (nodes : gmap string Node) (far : Edge -> string) (es : list Edge) : Prop :=
  forall e, e ∈ es -> exists n, nodes !! far e = Some n /\ node_id n = far e.

Lemma ancestor_fold depth nodes es seen :
  ends_known nodes edge_target es ->
  let '(level, seen') := fold_left (ancestor_edge depth nodes) es ([], seen) in
  (forall y, y ∈ seen' <-> y ∈ seen \/ y ∈ map edge_target es)
  /\ NoDup (map he_id level)
  /\ (forall y, y ∈ map he_id level <-> y ∈ seen' /\ y ∉ seen)
  /\ forall en, en ∈ level -> exists e n, e ∈ es /\ nodes !! edge_target e = Some n
       /\ en = to_entry n depth (edge_source e) e.
Proof.
  intros Hn. apply (fold_left_ind (ancestor_edge depth nodes) (fun pre s =>
    let '(level, seen') := s in
    (forall y, y ∈ seen' <-> y ∈ seen \/ y ∈ map edge_target pre)
    /\ NoDup (map he_id level)
    /\ (forall y, y ∈ map he_id level <-> y ∈ seen' /\ y ∉ seen)
    /\ forall en, en ∈ level -> exists e n, e ∈ pre /\ nodes !! edge_target e = Some n
         /\ en = to_entry n depth (edge_source e) e)).
  { split; [set_solver|]. split; [constructor|]. split; set_solver. }
  intros pre e post [level seen'] -> (Hs & Hnd & Hl & Hen).
  destruct (Hn e) as (n & En & Hid); [set_solver|].
  unfold ancestor_edge. rewrite En. case_decide as Hin; rewrite map_app; cbn [map].
  - rewrite Hid in Hin. split; [intros y; rewrite Hs; set_solver|].
    split; [done|]. split; [done|]. intros en (e' & n' & ? & ? & ?)%Hen. exists e', n'. set_solver.
  - rewrite Hid in Hin |- *. rewrite map_app. cbn [map].
    assert (Hhe : he_id (to_entry n depth (edge_source e) e) = edge_target e) by done.
    rewrite Hhe. split; [intros y; set_solver|]. split.
    { apply NoDup_app. split; [done|]. split; [|apply NoDup_singleton]. set_solver. }
    split.
    { intros y. rewrite elem_of_app, Hl, elem_of_union, elem_of_singleton, list_elem_of_singleton.
      split; [|tauto]. intros [[? ?]| ->]; [tauto|]. split; [by left|]. rewrite Hs in Hin. tauto. }
    intros en [Hen'|Hen']%elem_of_app.
    + apply Hen in Hen' as (e' & n' & ? & ? & ?). exists e', n'. set_solver.
    + apply list_elem_of_singleton in Hen' as ->. exists e, n. set_solver.
Qed.

Lemma elem_of_map_sort (to_lowercase : string -> string) level x :
  x ∈ map he_id (sort_level to_lowercase level) <-> x ∈ map he_id level.
Proof. unfold sort_level. by rewrite sort_by_perm. Qed.

Lemma NoDup_map_sort (to_lowercase : string -> string) level :
  NoDup (map he_id level) -> NoDup (map he_id (sort_level to_lowercase level)).
Proof. unfold sort_level. by rewrite sort_by_perm. Qed.

(** A place in [seq 1 n]. *)
Lemma seq_split n pre x post : seq 1 n = pre ++ x :: post -> x = 1 + length pre /\ length pre < n.
Proof.
  intros E. assert (Hx : seq 1 n !! length pre = Some x).
  { rewrite E, lookup_app_r, Nat.sub_diag by lia. done. }
  apply lookup_seq in Hx. lia.
Qed.

Lemma sorted_app_depth k out level :
  Sorted (fun a b => he_depth a <= he_depth b) out ->
  (forall e, e ∈ out -> he_depth e <= k) -> (forall e, e ∈ level -> he_depth e = S k) ->
  Sorted (fun a b => he_depth a <= he_depth b) (out ++ level).
Proof.
  intros Hs Ho Hl. induction Hs as [|a out Hs IH Hd]; cbn.
  - clear Ho. induction level as [|a level IH]; constructor; [apply IH; set_solver|].
    destruct level as [|b level]; constructor. rewrite !Hl by set_solver. lia.
  - constructor; [apply IH; set_solver|]. destruct Hd as [|b out Hab]; cbn; [|by constructor].
    destruct level as [|b level]; constructor.
    rewrite (Hl b) by set_solver. specialize (Ho a). set_solver by lia.
Qed.


Section Ancestors.
Context {St} `{HS : HealthyStore St st g} `{EB : EdgeBatches St} {HB : HealthyBatches st g}.
Variables (to_lowercase : string -> string) (focus : Node).
Hypothesis Hfocus : gv_nodes g !! node_id focus = Some focus.

Notation dist := (at_distance (supertype g) (node_id focus)).

(** A supertype at distance [d], found through one at distance [d - 1]. *)
Record ancestor_ok (k : nat) (e : HierarchyEntry) : Prop := {
  anc_node : gv_nodes g !! he_id e = Some (he_node e);
  anc_depth : 1 <= he_depth e <= k;
  anc_distance : dist (he_depth e) (he_id e);
  anc_parent : dist (he_depth e - 1) (he_parent_id e);
  anc_edge : he_edge e ∈ gv_edges g /\ is_hierarchy (he_edge e)
    /\ edge_source (he_edge e) = he_parent_id e /\ edge_target (he_edge e) = he_id e;
  anc_marks : he_relation e = HierarchyRelation_of (he_edge e)
    /\ he_synthesized e = is_heuristic (he_edge e) /\ he_hidden_subtypes e = 0
}.

(** The state after [k] levels. *)
Definition ancestors_inv (k : nat) (s : AncestorWalk) : Prop :=
  let '(out, seen, frontier) := s in
  levels (supertype g) (node_id focus) k seen frontier
  /\ NoDup (map he_id out)
  /\ (forall x, x ∈ map he_id out <-> x ∈ seen /\ x <> node_id focus)
  /\ (forall e, e ∈ out -> ancestor_ok k e)
  /\ Sorted (fun a b => he_depth a <= he_depth b) out.

Lemma targets_known ids :
  ends_known (unwrap_or ∅ (nodes_by_ids st (map edge_target (hierarchy_edges st ids true))))
    edge_target (hierarchy_edges st ids true).
Proof.
  intros e He. pose proof He as (Hg & _)%hierarchy_edges_up.
  destruct (view_target e Hg) as [n Hn]. exists n. split; [|by eapply view_key].
  rewrite (unwrap_nodes_by_ids (st := st) (g := g)); [done|]. set_solver.
Qed.

Lemma ancestor_entry_ok k seen frontier en :
  levels (supertype g) (node_id focus) k seen frontier ->
  dist (S k) (he_id en) ->
  (exists e n, e ∈ hierarchy_edges st frontier true /\ gv_nodes g !! edge_target e = Some n
     /\ en = to_entry n (S k) (edge_source e) e) ->
  ancestor_ok (S k) en.
Proof.
  intros Hlev Hd (e & n & (He & Hk & Hsrc)%hierarchy_edges_up & Hn & ->).
  pose proof (view_key _ _ Hn) as Hid. split; cbn.
  - unfold he_id. cbn. by rewrite Hid.
  - lia.
  - done.
  - rewrite Nat.sub_0_r. by apply (levels_frontier _ _ _ _ _ Hlev).
  - done.
  - done.
Qed.

Lemma ancestor_level_step k s :
  ancestors_inv k s ->
  match ancestor_level to_lowercase st s (S k) with
  | Continue s' => ancestors_inv (S k) s'
  | Break s' => s' = s /\ forall x y, x ∈ snd s -> supertype g x y -> y ∈ snd (fst s)
  end.
Proof.
  destruct s as [[out seen] frontier]. intros (Hlev & Hnd & Hids & Hok & Hsort).
  unfold ancestor_level. destruct frontier as [|f0 fs] eqn:Hfr; [split; [done|set_solver]|].
  rewrite <- Hfr in *. clear Hfr f0 fs.
  pose proof (ancestor_fold (S k)
    (unwrap_or ∅ (nodes_by_ids st (map edge_target (hierarchy_edges st frontier true))))
    (hierarchy_edges st frontier true) seen (targets_known frontier)) as Hfold.
  destruct (hierarchy_edges st frontier true) as [|e0 es] eqn:Hes.
  { split; [done|]. intros x y Hx (e & He & Hk & <- & <-).
    assert (Hin : e ∈ hierarchy_edges st frontier true) by (by apply hierarchy_edges_up).
    rewrite Hes in Hin. set_solver. }
  rewrite <- Hes in *. clear Hes e0 es.
  destruct (fold_left _ _ _) as [level seen']. destruct Hfold as (Hs' & Hnd' & Hl & Hen).
  assert (Hlev' : levels (supertype g) (node_id focus) (S k) seen'
                    (map he_id (sort_level to_lowercase level))).
  { eapply levels_next; [done| |].
    - intros y. rewrite Hs', list_elem_of_fmap. f_equiv. split.
      + intros (e & -> & (He & Hk & Hsrc)%hierarchy_edges_up). exists (edge_source e).
        split; [done|]. by exists e.
      + intros (x & Hx & e & He & Hk & <- & <-). exists e. split; [done|].
        by apply hierarchy_edges_up.
    - intros y. by rewrite elem_of_map_sort, Hl. }
  assert (Hfoc : node_id focus ∈ seen) by (apply (levels_ball _ _ _ _ _ Hlev); constructor).
  split; [done|]. split; [|split; [|split]].
  - rewrite map_app. apply NoDup_app. split; [done|]. split.
    + intros x Hx%Hids. rewrite elem_of_map_sort, Hl. tauto.
    + by apply NoDup_map_sort.
  - intros x. rewrite map_app, elem_of_app, elem_of_map_sort, Hids, Hl, Hs'.
    split; [intros [[? ?]|[? ?]]; split; [tauto|done|tauto|by intros ->]|].
    intros [Hx ?]. destruct (decide (x ∈ seen)); tauto.
  - intros e [He|He]%elem_of_app.
    + destruct (Hok e He) as [? Hd ? ? ? ?]. split; try done. lia.
    + apply elem_of_sort_by in He. apply (ancestor_entry_ok k seen frontier); [done|..].
      * apply (levels_frontier _ _ _ _ _ Hlev'). rewrite elem_of_map_sort. set_solver.
      * apply Hen in He as (e' & n & He' & Hn & ->). exists e', n. split; [done|].
        rewrite (unwrap_nodes_by_ids (st := st) (g := g)) in Hn; [done|set_solver].
  - apply (sorted_app_depth k); [done| |].
    + intros e He. by apply Hok in He as [_ [_ ?] _ _ _ _].
    + intros e He%elem_of_sort_by. by apply Hen in He as (e' & n & _ & _ & ->).
Qed.

(** The loop stops when nothing new can come, or at the depth bound. *)
Definition ancestors_done (s : AncestorWalk) : Prop :=
  ancestors_inv MAX_ANCESTOR_DEPTH s
  \/ exists k, k < MAX_ANCESTOR_DEPTH /\ ancestors_inv k s
       /\ forall x y, x ∈ snd s -> supertype g x y -> y ∈ snd (fst s).

Lemma ancestors_start : ancestors_inv 0 ([], {[node_id focus]}, [node_id focus]).
Proof. split; [apply levels_start|]. split; [constructor|]. set_solver by constructor. Qed.

Lemma ancestors_loop :
  ancestors_done (for_loop (ancestor_level to_lowercase st) ([], {[node_id focus]}, [node_id focus])
                    (seq 1 MAX_ANCESTOR_DEPTH)).
Proof.
  apply (for_loop_ind _ (fun pre s => ancestors_inv (length pre) s)); [apply ancestors_start|..].
  - intros pre x post s Hseq Hs. apply seq_split in Hseq as [-> Hlt].
    pose proof (ancestor_level_step _ _ Hs) as Hstep. change (1 + length pre) with (S (length pre)).
    destruct (ancestor_level _ _ s _) as [s'|s'].
    + by rewrite length_app, Nat.add_1_r.
    + destruct Hstep as [-> Hdone]. right. exists (length pre). auto.
  - intros s Hs. left. by rewrite length_seq in Hs.
Qed.

End Ancestors.

(** ** Facts on the walk down a type hierarchy

    The levels of [walk_descendants]: what one level adds under the cap, and
    what [bounded] says about what is missing. *)

(** ** One level *)

(** [promote] on a level without repeated ids. *)
Definition upgrade (id : string) (edge : Edge) (x : HierarchyEntry) : HierarchyEntry :=
  if decide (he_id x = id /\ he_relation x = HrImplements /\ edge_kind edge = EkExtends)
  then mkEntry (he_node x) (he_depth x) (he_parent_id x) HrExtends edge (is_heuristic edge)
         (he_hidden_subtypes x)
  else x.

Lemma upgrade_id id edge x : he_id (upgrade id edge x) = he_id x.
Proof. unfold upgrade. by case_decide. Qed.

Lemma promote_map id edge level :
  NoDup (map he_id level) -> promote id edge level = map (upgrade id edge) level.
Proof.
  induction level as [|x level IH]; [done|]. cbn [map promote]. intros [Hx Hnd]%NoDup_cons.
  unfold upgrade at 1. case_decide as Hid.
  - assert (Hrest : map (upgrade id edge) level = level).
    { rewrite <- (map_id level) at 2. apply map_ext_in. intros y Hy%list_elem_of_In.
      unfold upgrade. rewrite decide_False; [done|]. intros (Hyid & _). apply Hx.
      rewrite Hid, <- Hyid. by apply list_elem_of_fmap_2. }
    rewrite Hrest. repeat case_decide; tauto || done.
  - rewrite decide_False by tauto. f_equal. auto.
Qed.

Lemma map_promote id edge level : map he_id (promote id edge level) = map he_id level.
Proof.
  induction level as [|x level IH]; [done|]. cbn [promote]. case_decide as Hid; cbn [map].
  - f_equal. by case_decide.
  - by f_equal.
Qed.

(** An entry of the level at [depth], from the edges [pre]. *)
Record level_entry (nodes : gmap string Node) (depth : nat) (pre : list Edge) (en : HierarchyEntry)
  : Prop := {
  le_node : nodes !! he_id en = Some (he_node en);
  le_depth : he_depth en = depth;
  le_parent : exists e, e ∈ pre /\ edge_source e = he_id en /\ edge_target e = he_parent_id en;
  le_edge : he_edge en ∈ pre /\ edge_source (he_edge en) = he_id en;
  le_marks : he_relation en = HierarchyRelation_of (he_edge en)
    /\ he_synthesized en = is_heuristic (he_edge en) /\ he_hidden_subtypes en = 0;
  le_outranked : he_relation en = HrImplements ->
    forall e, e ∈ pre -> edge_source e = he_id en -> edge_kind e <> EkExtends
}.

(** What the fold over a level's edges has established after [pre]. *)
Record level_inv (taken depth total0 : nat) (seen : gset string) (nodes : gmap string Node)
    (pre : list Edge) (s : Level) : Prop := {
  li_seen y : y ∈ lv_seen s <-> y ∉ seen /\ y ∈ map edge_source pre;
  li_nodup : NoDup (map he_id (lv_level s));
  li_sub y : y ∈ map he_id (lv_level s) -> y ∈ lv_seen s;
  li_all y : lv_bounded s = false -> y ∈ lv_seen s -> y ∈ map he_id (lv_level s);
  li_overflow : lv_bounded s = false -> lv_overflow s = [];
  li_missing : lv_bounded s = true -> exists y, y ∈ lv_seen s /\ y ∉ map he_id (lv_level s);
  li_cap : taken + length (lv_level s) <= MAX_DESCENDANTS;
  li_entries en : en ∈ lv_level s -> level_entry nodes depth pre en;
  li_total : lv_direct_total s = total0 + (if depth =? 1 then size (lv_seen s) else 0)
}.

Lemma to_entry_relation node depth parent e :
  is_hierarchy e -> he_relation (to_entry node depth parent e) = HrImplements ->
  edge_kind e <> EkExtends.
Proof. cbn. unfold HierarchyRelation_of. case_decide as Hk; [|done]. intros _ _. by rewrite Hk. Qed.

Lemma level_entry_mono nodes depth pre e en :
  level_entry nodes depth pre en ->
  (edge_source e = he_id en -> he_relation en = HrImplements -> edge_kind e <> EkExtends) ->
  level_entry nodes depth (pre ++ [e]) en.
Proof.
  intros [? ? (e' & ? & ? & ?) [? ?] ? Hout] He. split; try done.
  - exists e'. set_solver.
  - set_solver.
  - intros Himp e1 [He1|He1%list_elem_of_singleton]%elem_of_app Hs; [by apply Hout|]. subst e1. auto.
Qed.

Lemma upgrade_entry nodes depth pre e en :
  level_entry nodes depth pre en -> level_entry nodes depth (pre ++ [e]) (upgrade (edge_source e) e en).
Proof.
  intros Hen. unfold upgrade. case_decide as Hup.
  - destruct Hup as (Hid & Himp & Hk). destruct Hen as [? ? (e' & ? & ? & ?) [? ?] [? [? ?]] ?].
    split; cbn; try done.
    + exists e'. set_solver.
    + split; [set_solver|done].
    + unfold HierarchyRelation_of. rewrite Hk. by rewrite decide_False by done.
  - apply level_entry_mono; [done|]. intros Hs Himp Hk. apply Hup. auto.
Qed.

Lemma descendant_edge_inv taken depth total0 seen nodes pre e s :
  is_hierarchy e -> (exists n, nodes !! edge_source e = Some n /\ node_id n = edge_source e) ->
  level_inv taken depth total0 seen nodes pre s ->
  level_inv taken depth total0 seen nodes (pre ++ [e]) (descendant_edge taken depth seen nodes s e).
Proof.
  intros Hk (n & En & Hid) [Hs Hnd Hsub Hall Hov Hmis Hcap Hen Htot].
  unfold descendant_edge. rewrite En, Hid.
  assert (Hsrc : forall y, y ∈ map edge_source (pre ++ [e]) <-> y ∈ map edge_source pre \/ y = edge_source e)
    by (intros y; rewrite map_app; set_solver).
  case_decide as Hin; [|case_decide as Hlv; [|destruct (MAX_DESCENDANTS <=? taken + length (lv_level s)) eqn:Hfull]].
  - split; try done.
    + intros y. rewrite Hs, Hsrc. set_solver.
    + intros en Hen'. pose proof (Hen en Hen') as Hok. apply level_entry_mono; [done|].
      intros E. exfalso. assert (he_id en ∈ lv_seen s) as [? _]%Hs by (by apply Hsub, list_elem_of_fmap_2).
      congruence.
  - split; cbn [lv_seen lv_level lv_overflow lv_bounded lv_direct_total]; try done;
      rewrite ?map_promote; try done.
    + intros y. rewrite Hs, Hsrc. apply Hs in Hlv. set_solver.
    + by rewrite promote_map, length_map.
    + intros en. rewrite promote_map by done. intros (x & -> & Hx)%list_elem_of_fmap.
      by apply upgrade_entry, Hen.
  - assert (Hnew : forall en, en ∈ lv_level s -> he_id en <> edge_source e).
    { intros en Hen' E. apply Hlv. rewrite <- E. by apply Hsub, list_elem_of_fmap_2. }
    split; cbn [lv_seen lv_level lv_overflow lv_bounded lv_direct_total]; try done.
    + intros y. rewrite elem_of_union, elem_of_singleton, Hs, Hsrc. set_solver.
    + intros y Hy. set_solver.
    + intros _. exists (edge_source e). split; [set_solver|]. intros Hy. by apply Hlv, Hsub.
    + intros en Hen'. apply level_entry_mono; [auto|]. intros E. by destruct (Hnew en Hen').
    + rewrite Htot. destruct (depth =? 1); [|lia]. rewrite size_union by set_solver.
      rewrite size_singleton. lia.
  - apply Nat.leb_gt in Hfull.
    assert (Hnew : forall en, en ∈ lv_level s -> he_id en <> edge_source e).
    { intros en Hen' E. apply Hlv. rewrite <- E. by apply Hsub, list_elem_of_fmap_2. }
    assert (Heid : he_id (to_entry n depth (edge_target e) e) = edge_source e) by done.
    split; cbn [lv_seen lv_level lv_overflow lv_bounded lv_direct_total]; rewrite ?map_app;
      cbn [map]; rewrite ?Heid; try done.
    + intros y. rewrite elem_of_union, elem_of_singleton, Hs. set_solver.
    + apply NoDup_app. split; [done|]. split; [|apply NoDup_singleton].
      intros y Hy. rewrite list_elem_of_singleton. intros ->. by apply Hlv, Hsub.
    + intros y Hy. set_solver.
    + intros y Hb Hy. set_solver.
    + intros Hb. destruct (Hmis Hb) as (y & Hy & Hny). exists y. split; [set_solver|].
      rewrite elem_of_app, list_elem_of_singleton. intros [?| ->]; done.
    + rewrite length_app. cbn. lia.
    + intros en [Hen'|Hen'%list_elem_of_singleton]%elem_of_app.
      * apply level_entry_mono; [auto|]. intros E. by destruct (Hnew en Hen').
      * subst en. split; cbn; try done.
        -- by rewrite Heid.
        -- exists e. set_solver.
        -- set_solver.
        -- intros Himp e' [He'|He'%list_elem_of_singleton]%elem_of_app Hsrc'.
           ++ exfalso. apply Hlv, Hs. split; [done|]. rewrite Heid in Hsrc'. rewrite <- Hsrc'.
              by apply list_elem_of_fmap_2.
           ++ subst e'. by apply (to_entry_relation n depth (edge_target e)).
    + rewrite Htot. destruct (depth =? 1); [|lia]. rewrite size_union by set_solver.
      rewrite size_singleton. lia.
Qed.

Lemma level_fold taken depth total0 impl0 seen nodes es :
  taken <= MAX_DESCENDANTS ->
  (forall e, e ∈ es -> is_hierarchy e) -> ends_known nodes edge_source es ->
  level_inv taken depth total0 seen nodes es
    (fold_left (descendant_edge taken depth seen nodes) es (mkLevel [] [] ∅ total0 impl0 false)).
Proof.
  intros Hcap Hk Hn. apply (fold_left_ind _ (level_inv taken depth total0 seen nodes)).
  - split; cbn; try done; try set_solver.
    + constructor.
    + lia.
    + rewrite size_empty. destruct (depth =? 1); lia.
  - intros pre e post s -> Hs. apply descendant_edge_inv; [..|done]; [apply Hk|apply Hn]; set_solver.
Qed.

(** ** Entries up to their hidden counts *)

Definition core (e : HierarchyEntry) : HierarchyEntry :=
  mkEntry (he_node e) (he_depth e) (he_parent_id e) (he_relation e) (he_edge e) (he_synthesized e) 0.

(** Only hidden counts were touched. *)
Definition same_core (es es' : list HierarchyEntry) : Prop := map core es' = map core es.

#[export] Instance same_core_equiv : Equivalence same_core.
Proof. unfold same_core. split; [done|by intros ??|intros ??? -> ->; done]. Qed.

Lemma add_hidden_core count at_ es : same_core es (add_hidden count at_ es).
Proof.
  unfold same_core, add_hidden. apply list_eq. intros i. rewrite !list_lookup_fmap.
  destruct (decide (i = at_)) as [->|Hne].
  - rewrite list_lookup_alter_eq. by destruct (es !! at_).
  - by rewrite list_lookup_alter_ne.
Qed.

Lemma overflow_core index overflow es : same_core es (fold_left (add_overflow index) overflow es).
Proof.
  revert es. induction overflow as [|[t n] overflow IH]; intros es; [done|]. cbn [fold_left].
  etrans; [|apply IH]. unfold add_overflow. destruct (index !! _); [apply add_hidden_core|done].
Qed.

Lemma last_level_core seen index edges es b :
  same_core es (fst (fold_left (last_level_edge seen index) edges (es, b))).
Proof.
  revert es b. induction edges as [|e edges IH]; intros es b; [done|]. cbn [fold_left].
  unfold last_level_edge at 2. case_decide; [apply IH|]. etrans; [|apply IH].
  destruct (index !! _); [apply add_hidden_core|done].
Qed.

Lemma last_level_bounded seen index edges es :
  snd (fold_left (last_level_edge seen index) edges (es, false)) = true
    <-> exists e, e ∈ edges /\ edge_source e ∉ seen.
Proof.
  assert (Hgen : forall b es, snd (fold_left (last_level_edge seen index) edges (es, b)) = true
    <-> b = true \/ exists e, e ∈ edges /\ edge_source e ∉ seen).
  { clear es. induction edges as [|e edges IH]; intros b es; cbn [fold_left].
    { split; [by left|]. intros [?|(e & He & _)]; [done|set_solver]. }
    unfold last_level_edge at 2. case_decide as Hin; rewrite IH; set_solver. }
  rewrite Hgen. naive_solver.
Qed.

Lemma last_level_unbounded seen index edges es :
  snd (fold_left (last_level_edge seen index) edges (es, false)) = false ->
  fst (fold_left (last_level_edge seen index) edges (es, false)) = es.
Proof.
  intros Hb. assert (Hall : forall e, e ∈ edges -> edge_source e ∈ seen).
  { intros e He. destruct (decide (edge_source e ∈ seen)) as [|Hn]; [done|].
    rewrite (proj2 (last_level_bounded seen index edges es)) in Hb; [done|eauto]. }
  clear Hb. revert Hall. generalize false. induction edges as [|e edges IH]; intros b Hall; [done|].
  cbn [fold_left]. unfold last_level_edge at 2. rewrite decide_True by set_solver.
  apply IH. set_solver.
Qed.

Lemma same_core_ids es es' : same_core es es' -> map he_id es' = map he_id es.
Proof.
  intros H. assert (E : forall l, map he_id l = map he_id (map core l)).
  { intros l. rewrite map_map. by apply map_ext. }
  by rewrite (E es'), H, <- E.
Qed.

Lemma same_core_length es es' : same_core es es' -> length es' = length es.
Proof. intros H%(f_equal length). by rewrite !length_map in H. Qed.

Lemma same_core_elem es es' e : same_core es es' -> e ∈ es' -> exists e0, e0 ∈ es /\ core e = core e0.
Proof.
  intros H He. assert (Hin : core e ∈ map core es') by (by apply list_elem_of_fmap_2).
  rewrite H in Hin. apply list_elem_of_fmap in Hin as (e0 & -> & ?). eauto.
Qed.

Lemma same_core_depths es es' : same_core es es' -> map he_depth es' = map he_depth es.
Proof.
  intros H. assert (E : forall l, map he_depth l = map he_depth (map core l)).
  { intros l. rewrite map_map. by apply map_ext. }
  by rewrite (E es'), H, <- E.
Qed.

Lemma sorted_depths es :
  Sorted (fun a b => he_depth a <= he_depth b) es <-> Sorted le (map he_depth es).
Proof.
  induction es as [|e es IH]; cbn; [split; constructor|].
  split; intros Hs; apply Sorted_inv in Hs as [Hs Hd]; constructor; try (by apply IH).
  - destruct Hd; constructor. done.
  - destruct es; constructor. by inversion Hd.
Qed.

(** The entries and [index] grow together. *)
Definition index_ok (entries : list HierarchyEntry) (index : gmap string nat) : Prop :=
  forall id at_, index !! id = Some at_ -> exists e, entries !! at_ = Some e /\ he_id e = id.

Lemma push_entries level entries index :
  index_ok entries index ->
  let '(entries', index') := fold_left push_entry level (entries, index) in
  entries' = entries ++ level /\ index_ok entries' index'.
Proof.
  revert entries index. induction level as [|e level IH]; intros entries index Hi.
  { cbn. by rewrite app_nil_r. }
  cbn [fold_left push_entry].
  assert (Hi' : index_ok (entries ++ [e]) (<[he_id e := length entries]> index)).
  { intros id at_ Hat. apply lookup_insert_Some in Hat as [[<- <-]|[_ Hat]].
    - exists e. by rewrite lookup_app_r, Nat.sub_diag by lia.
    - destruct (Hi id at_ Hat) as (e' & He' & Hid). exists e'. split; [|done].
      by apply lookup_app_l_Some. }
  specialize (IH _ _ Hi'). destruct (fold_left _ _ _) as [entries' index'].
  destruct IH as [-> Hok]. split; [by rewrite <- app_assoc|done].
Qed.

(** ** The walk *)

(** One step from a type to a subtype. *)
Definition subtype (g : GraphView) (a b : string) : Prop := supertype g b a.

Section Descendants.
Context {St} `{HS : HealthyStore St st g} `{EB : EdgeBatches St} {HB : HealthyBatches st g}.
Variables (to_lowercase : string -> string) (focus : Node).

Notation dist := (at_distance (subtype g) (node_id focus)).

(** A subtype at distance [d], found through one at distance [d - 1]; its
    edge is an [implements] edge only if no [extends] edge leads there. *)
Record descendant_ok (k : nat) (e : HierarchyEntry) : Prop := {
  des_node : gv_nodes g !! he_id e = Some (he_node e);
  des_depth : 1 <= he_depth e <= k;
  des_distance : dist (he_depth e) (he_id e);
  des_parent : dist (he_depth e - 1) (he_parent_id e) /\ supertype g (he_id e) (he_parent_id e);
  des_edge : he_edge e ∈ gv_edges g /\ is_hierarchy (he_edge e)
    /\ edge_source (he_edge e) = he_id e /\ dist (he_depth e - 1) (edge_target (he_edge e));
  des_marks : he_relation e = HierarchyRelation_of (he_edge e)
    /\ he_synthesized e = is_heuristic (he_edge e);
  des_outranked : he_relation e = HrImplements -> forall e', e' ∈ gv_edges g ->
    edge_source e' = he_id e -> dist (he_depth e - 1) (edge_target e') -> edge_kind e' <> EkExtends
}.

(** The entries of a walk, complete or cut short. *)
Record entries_ok (k : nat) (entries : list HierarchyEntry) : Prop := {
  eo_nodup : NoDup (map he_id entries);
  eo_ok e : e ∈ entries -> descendant_ok k e;
  eo_sorted : Sorted (fun a b => he_depth a <= he_depth b) entries;
  eo_cap : length entries <= MAX_DESCENDANTS
}.

(** The direct subtypes, once the first level is done. *)
Definition direct_ok (k total : nat) : Prop :=
  if k =? 0 then total = 0
  else exists X : gset string,
    (forall x, x ∈ X <-> supertype g x (node_id focus) /\ x <> node_id focus) /\ total = size X.

Definition is_subtype (x : string) : Prop :=
  rtc (subtype g) (node_id focus) x /\ x <> node_id focus.

(** After [k] levels that were not cut. *)
Record down_inv (k : nat) (s : Down) : Prop := {
  di_levels : levels (subtype g) (node_id focus) k (dn_seen s) (dn_frontier s);
  di_entries : entries_ok k (dn_entries s);
  di_ids x : x ∈ map he_id (dn_entries s) <-> x ∈ dn_seen s /\ x <> node_id focus;
  di_index : index_ok (dn_entries s) (dn_index s);
  di_direct : direct_ok k (dn_direct_total s)
}.

Definition none_hidden (entries : list HierarchyEntry) : Prop :=
  forall e, e ∈ entries -> he_hidden_subtypes e = 0.

(** What the walk returns. *)
Record down_result (s : Down) : Prop := {
  dr_entries : entries_ok MAX_DESCENDANT_DEPTH (dn_entries s);
  dr_complete : dn_bounded s = false ->
    (forall x, x ∈ map he_id (dn_entries s) <-> is_subtype x) /\ none_hidden (dn_entries s);
  dr_missing : dn_bounded s = true ->
    exists x, is_subtype x /\ x ∉ map he_id (dn_entries s);
  dr_direct : direct_ok 1 (dn_direct_total s)
}.

Lemma descendant_ok_mono k k' e : k <= k' -> descendant_ok k e -> descendant_ok k' e.
Proof. intros Hk [? [? ?] ? ? ? ? ?]. split; try done. lia. Qed.

Lemma descendant_ok_core k e e' : core e = core e' -> descendant_ok k e' -> descendant_ok k e.
Proof.
  intros Hc [? ? ? ? ? ? ?]. unfold core in Hc. injection Hc as Hn Hd Hp Hr He Hs.
  split; unfold he_id in *; rewrite ?Hn, ?Hd, ?Hp, ?Hr, ?He, ?Hs; done.
Qed.

Lemma entries_ok_core k es es' : same_core es es' -> entries_ok k es -> entries_ok k es'.
Proof.
  intros Hc [? Hok Hs ?]. split.
  - by rewrite (same_core_ids es).
  - intros e He. destruct (same_core_elem _ _ _ Hc He) as (e0 & He0 & Hcore).
    by eapply descendant_ok_core, Hok.
  - rewrite sorted_depths, (same_core_depths es es') by done. by apply sorted_depths.
  - by rewrite (same_core_length es).
Qed.

Lemma index_ok_core es es' index : same_core es es' -> index_ok es index -> index_ok es' index.
Proof.
  intros Hc Hi id at_ Hat. destruct (Hi id at_ Hat) as (e & He & Hid).
  assert (Hcore : map core es' !! at_ = Some (core e)) by (rewrite Hc, list_lookup_fmap, He; done).
  rewrite list_lookup_fmap in Hcore. destruct (es' !! at_) as [e'|]; [|done].
  exists e'. split; [done|]. injection Hcore as Hn. rewrite <- Hid. unfold he_id. by rewrite Hn.
Qed.

Lemma sources_known ids :
  ends_known (unwrap_or ∅ (nodes_by_ids st (map edge_source (hierarchy_edges st ids false))))
    edge_source (hierarchy_edges st ids false).
Proof.
  intros e He. pose proof He as (Hg & _)%hierarchy_edges_down.
  destruct (view_source e Hg) as [n Hn]. exists n. split; [|by eapply view_key].
  rewrite (unwrap_nodes_by_ids (st := st) (g := g)); [done|]. set_solver.
Qed.

(** The edges into a frontier are those of the next level. *)
Lemma frontier_edges frontier y :
  y ∈ map edge_source (hierarchy_edges st frontier false)
    <-> exists x, x ∈ frontier /\ subtype g x y.
Proof.
  rewrite list_elem_of_fmap. split.
  - intros (e & -> & (He & Hk & Hx)%hierarchy_edges_down). exists (edge_target e).
    split; [done|]. by exists e.
  - intros (x & Hx & e & He & Hk & <- & <-). exists e. split; [done|].
    by apply hierarchy_edges_down.
Qed.

Section OneLevel.
Variables (k : nat) (s : Down).
Hypothesis Hinv : down_inv k s.
Let edges := hierarchy_edges st (dn_frontier s) false.
Let nodes := unwrap_or ∅ (nodes_by_ids st (map edge_source edges)).
Variable lv : Level.
Hypothesis Hlv :
  level_inv (length (dn_entries s)) (S k) (dn_direct_total s) (dn_seen s) nodes edges lv.

(** An entry of the new level is at distance [k + 1]. *)
Lemma level_descendant_ok en : en ∈ lv_level lv -> descendant_ok (S k) en.
Proof.
  intros Hin. pose proof (li_entries _ _ _ _ _ _ _ Hlv en Hin) as [Hn Hd Hp [He Hes] Hm Ho].
  assert (Hnew : he_id en ∉ dn_seen s /\ he_id en ∈ map edge_source edges).
  { apply (li_seen _ _ _ _ _ _ _ Hlv), (li_sub _ _ _ _ _ _ _ Hlv). by apply list_elem_of_fmap_2. }
  destruct Hnew as [Hout Hsrc]. pose proof (di_levels _ _ Hinv) as Hlev.
  assert (Hfr : forall x, x ∈ dn_frontier s -> dist (he_depth en - 1) x).
  { intros x Hx. rewrite Hd. cbn. rewrite Nat.sub_0_r. by apply (levels_frontier _ _ _ _ _ Hlev). }
  split.
  - unfold nodes in Hn. rewrite (unwrap_nodes_by_ids (st := st) (g := g)) in Hn; done.
  - lia.
  - rewrite Hd. apply at_distance_S. split.
    + apply frontier_edges in Hsrc as (x & Hx & Hxy). apply ball_S. right. exists x.
      split; [|done]. by apply (levels_frontier _ _ _ _ _ Hlev) in Hx as [? _].
    + by rewrite <- (levels_ball _ _ _ _ _ Hlev).
  - destruct Hp as (e & (Hg & Hk & Ht)%hierarchy_edges_down & Hs & Hpar).
    rewrite <- Hpar. split; [auto|]. by exists e.
  - apply hierarchy_edges_down in He as (Hg & Hk & Ht). auto.
  - by destruct Hm as (? & ? & _).
  - intros Himp e' Hg Hs Ht. destruct (decide (edge_kind e' = EkExtends)) as [Hk|]; [|done].
    apply Ho; [done| |done]. apply hierarchy_edges_down. split; [done|].
    split; [unfold is_hierarchy; rewrite Hk; set_solver|].
    apply (levels_frontier _ _ _ _ _ Hlev). rewrite Hd in Ht. cbn in Ht. by rewrite Nat.sub_0_r in Ht.
Qed.

Lemma level_entries_ok :
  entries_ok (S k) (dn_entries s ++ sort_level to_lowercase (lv_level lv)).
Proof.
  pose proof (di_entries _ _ Hinv) as [Hnd Hok Hsort Hcap]. split.
  - rewrite map_app. apply NoDup_app. split; [done|]. split; [|apply NoDup_map_sort, Hlv].
    intros x Hx%(di_ids _ _ Hinv). rewrite elem_of_map_sort.
    intros [? _]%(li_sub _ _ _ _ _ _ _ Hlv)%(li_seen _ _ _ _ _ _ _ Hlv). by destruct Hx.
  - intros e [He|He%elem_of_sort_by]%elem_of_app; [|by apply level_descendant_ok].
    apply (descendant_ok_mono k); [lia|auto].
  - apply (sorted_app_depth k); [done| |].
    + intros e He. by destruct (Hok e He) as [_ [_ ?] _ _ _ _ _].
    + intros e He%elem_of_sort_by. by destruct (li_entries _ _ _ _ _ _ _ Hlv e He).
  - rewrite length_app. unfold sort_level. rewrite length_sort_by. apply Hlv.
Qed.

Lemma focus_seen : node_id focus ∈ dn_seen s.
Proof. apply (levels_ball _ _ _ _ _ (di_levels _ _ Hinv)). constructor. Qed.

Lemma level_ids_sub x :
  x ∈ map he_id (dn_entries s ++ sort_level to_lowercase (lv_level lv)) ->
  (x ∈ dn_seen s \/ x ∈ lv_seen lv) /\ x <> node_id focus.
Proof.
  pose proof focus_seen. rewrite map_app, elem_of_app, elem_of_map_sort, (di_ids _ _ Hinv).
  intros [[? ?]|Hx]; [tauto|]. apply (li_sub _ _ _ _ _ _ _ Hlv) in Hx. split; [by right|].
  intros ->. apply (li_seen _ _ _ _ _ _ _ Hlv) in Hx. tauto.
Qed.

(** Every node a level has seen is a subtype. *)
Lemma level_seen_subtype x : x ∈ lv_seen lv -> is_subtype x.
Proof.
  intros [Hout Hsrc]%(li_seen _ _ _ _ _ _ _ Hlv). split.
  - apply frontier_edges in Hsrc as (y & Hy & Hyx).
    apply (levels_frontier _ _ _ _ _ (di_levels _ _ Hinv)) in Hy as [Hy%rtc_bsteps_2 _].
    by eapply rtc_r.
  - intros ->. by pose proof focus_seen.
Qed.

Lemma level_direct : direct_ok (S k) (lv_direct_total lv).
Proof.
  pose proof (di_direct _ _ Hinv) as Hd. pose proof (li_total _ _ _ _ _ _ _ Hlv) as Ht.
  unfold direct_ok in *. cbn [Nat.eqb] in *. destruct k as [|k']; cbn [Nat.eqb] in *.
  - exists (lv_seen lv). split; [|lia]. intros x. rewrite (li_seen _ _ _ _ _ _ _ Hlv).
    pose proof (di_levels _ _ Hinv) as Hlev.
    unfold edges. rewrite frontier_edges, (levels_ball _ _ _ _ _ Hlev), ball_0.
    setoid_rewrite (levels_frontier _ _ _ _ _ Hlev). setoid_rewrite at_distance_0.
    unfold subtype. naive_solver.
  - destruct Hd as (X & HX & E). exists X. split; [done|]. lia.
Qed.

End OneLevel.

Lemma entries_ok_mono k k' es : k <= k' -> entries_ok k es -> entries_ok k' es.
Proof. intros Hk [? Hok ? ?]. split; try done. intros e He. eapply descendant_ok_mono; eauto. Qed.

Lemma direct_ok_S k total : direct_ok (S k) total -> direct_ok 1 total.
Proof. done. Qed.

(** A walk cut by the cap: entries of the levels, but not all. *)
Definition down_cut (s : Down) : Prop :=
  dn_bounded s = true /\ entries_ok MAX_DESCENDANT_DEPTH (dn_entries s)
  /\ (exists x, is_subtype x /\ x ∉ map he_id (dn_entries s)) /\ direct_ok 1 (dn_direct_total s).

Lemma level_cut k s lv entries index seen frontier impl :
  S k <= MAX_DESCENDANT_DEPTH -> down_inv k s ->
  level_inv (length (dn_entries s)) (S k) (dn_direct_total s) (dn_seen s)
    (unwrap_or ∅ (nodes_by_ids st (map edge_source (hierarchy_edges st (dn_frontier s) false))))
    (hierarchy_edges st (dn_frontier s) false) lv ->
  lv_bounded lv = true ->
  same_core (dn_entries s ++ sort_level to_lowercase (lv_level lv)) entries ->
  down_cut (mkDown entries index seen frontier (lv_direct_total lv) impl true).
Proof.
  intros Hk Hinv Hlv Hb Hc. split; [done|]. split; [|split].
  - eapply entries_ok_mono; [exact Hk|]. cbn.
    eapply entries_ok_core; [exact Hc|]. by apply level_entries_ok.
  - destruct (li_missing _ _ _ _ _ _ _ Hlv Hb) as (x & Hx & Hnx). exists x.
    split; [by eapply level_seen_subtype|]. cbn. rewrite (same_core_ids _ _ Hc), map_app.
    rewrite elem_of_app, elem_of_map_sort. intros [Hin|?]; [|done].
    apply (di_ids _ _ Hinv) in Hin as [Hin _]. apply (li_seen _ _ _ _ _ _ _ Hlv) in Hx. tauto.
  - cbn. by apply (direct_ok_S k), (level_direct k s Hinv lv Hlv).
Qed.

(** A level that was not cut extends the ball. *)
Lemma level_levels k s lv frontier :
  down_inv k s ->
  level_inv (length (dn_entries s)) (S k) (dn_direct_total s) (dn_seen s)
    (unwrap_or ∅ (nodes_by_ids st (map edge_source (hierarchy_edges st (dn_frontier s) false))))
    (hierarchy_edges st (dn_frontier s) false) lv ->
  lv_bounded lv = false ->
  (forall x, x ∈ frontier <-> x ∈ map he_id (lv_level lv)) ->
  levels (subtype g) (node_id focus) (S k) (list_to_set (map he_id (lv_level lv)) ∪ dn_seen s) frontier.
Proof.
  intros Hinv Hlv Hb Hf.
  assert (Hids : forall x, x ∈ map he_id (lv_level lv) <-> x ∉ dn_seen s
            /\ exists y, y ∈ dn_frontier s /\ subtype g y x).
  { intros x. rewrite <- frontier_edges, <- (li_seen _ _ _ _ _ _ _ Hlv). split.
    - apply Hlv.
    - by apply Hlv. }
  eapply levels_next; [apply Hinv| |].
  - intros x. rewrite elem_of_union, elem_of_list_to_set, Hids.
    destruct (decide (x ∈ dn_seen s)); tauto.
  - intros x. rewrite Hf, elem_of_union, elem_of_list_to_set. specialize (Hids x). tauto.
Qed.

(** The frontier read back from the entries is the level. *)
Lemma frontier_of_entries k entries level x :
  (forall e, e ∈ entries -> he_depth e <= k) -> (forall e, e ∈ level -> he_depth e = S k) ->
  x ∈ map he_id (filter (fun e => he_depth e = S k) (entries ++ sort_level to_lowercase level))
    <-> x ∈ map he_id level.
Proof.
  intros He Hl. rewrite !list_elem_of_fmap. split.
  - intros (e & -> & [Hd [Hin|Hin%elem_of_sort_by]%elem_of_app]%list_elem_of_filter); [|eauto].
    apply He in Hin. lia.
  - intros (e & -> & Hin). exists e. split; [done|]. rewrite list_elem_of_filter, elem_of_app.
    split; [auto|]. right. by apply elem_of_sort_by.
Qed.

Definition closed (s : Down) : Prop :=
  forall x y, x ∈ dn_frontier s -> subtype g x y -> y ∈ dn_seen s.

(** The check below the last level. *)
Lemma below_last_level k seen frontier index entries entries' bounded :
  levels (subtype g) (node_id focus) k seen frontier -> none_hidden entries ->
  (if (k =? MAX_DESCENDANT_DEPTH) && bool_decide (frontier <> [])
   then fold_left (last_level_edge seen index) (hierarchy_edges st frontier false) (entries, false)
   else (entries, false)) = (entries', bounded) ->
  (bounded = false -> none_hidden entries' /\ (k = MAX_DESCENDANT_DEPTH ->
     forall x y, x ∈ frontier -> subtype g x y -> y ∈ seen))
  /\ (bounded = true -> k = MAX_DESCENDANT_DEPTH /\ exists x, is_subtype x /\ x ∉ seen).
Proof.
  intros Hlev Hh Hlast. destruct (_ && _) eqn:Hcond.
  - apply andb_true_iff in Hcond as [Hk%Nat.eqb_eq _]. split; intros ->.
    + pose proof (last_level_unbounded seen index (hierarchy_edges st frontier false) entries) as Hu.
      pose proof (last_level_bounded seen index (hierarchy_edges st frontier false) entries) as Hb.
      rewrite Hlast in Hu, Hb. cbn in Hu, Hb. rewrite Hu by done. split; [done|].
      intros _ x y Hx (e & He & Hkind & <- & <-). destruct (decide (edge_source e ∈ seen)); [done|].
      enough (false = true) by done. apply Hb. exists e. split; [|done]. by apply hierarchy_edges_down.
    + split; [done|].
      pose proof (last_level_bounded seen index (hierarchy_edges st frontier false) entries) as Hb.
      rewrite Hlast in Hb. apply proj1 in Hb. destruct (Hb eq_refl) as (e & He & Hout).
      apply hierarchy_edges_down in He as (He & Hkind & Ht). exists (edge_source e). split; [|done].
      split.
      * apply (levels_frontier _ _ _ _ _ Hlev) in Ht as [Ht%rtc_bsteps_2 _].
        eapply rtc_r; [done|]. by exists e.
      * intros E. apply Hout. rewrite E. apply (levels_ball _ _ _ _ _ Hlev). constructor.
  - injection Hlast as <- <-. split; [|done]. intros _. split; [done|]. intros ->.
    rewrite Nat.eqb_refl in Hcond. apply bool_decide_eq_false in Hcond.
    intros x y Hx. destruct frontier; [set_solver|]. by destruct Hcond.
Qed.

(** A level that was not cut, with the check below the last one. *)
Lemma level_whole k s lv index :
  S k <= MAX_DESCENDANT_DEPTH -> down_inv k s -> none_hidden (dn_entries s) ->
  level_inv (length (dn_entries s)) (S k) (dn_direct_total s) (dn_seen s)
    (unwrap_or ∅ (nodes_by_ids st (map edge_source (hierarchy_edges st (dn_frontier s) false))))
    (hierarchy_edges st (dn_frontier s) false) lv ->
  lv_bounded lv = false ->
  let entries := dn_entries s ++ sort_level to_lowercase (lv_level lv) in
  index_ok entries index ->
  let seen := list_to_set (map he_id (lv_level lv)) ∪ dn_seen s in
  let frontier := map he_id (filter (fun e => he_depth e = S k) entries) in
  forall entries' bounded impl,
  (if (S k =? MAX_DESCENDANT_DEPTH) && bool_decide (frontier <> [])
   then fold_left (last_level_edge seen index) (hierarchy_edges st frontier false) (entries, false)
   else (entries, false)) = (entries', bounded) ->
  let s' := mkDown entries' index seen frontier (lv_direct_total lv) impl bounded in
  down_inv (S k) s' /\ (bounded = false -> none_hidden entries' /\ (S k = MAX_DESCENDANT_DEPTH -> closed s'))
  /\ (bounded = true -> S k = MAX_DESCENDANT_DEPTH /\ exists x, is_subtype x /\ x ∉ map he_id entries').
Proof.
  intros Hk Hinv Hh Hlv Hb entries Hidx seen frontier entries' bounded impl Hlast s'.
  assert (Hdepth : forall e, e ∈ dn_entries s -> he_depth e <= k)
    by (intros e He; by apply (di_entries _ _ Hinv) in He as [_ [_ ?] _ _ _ _ _]).
  assert (Hlevd : forall e, e ∈ lv_level lv -> he_depth e = S k)
    by (intros e He; by destruct (li_entries _ _ _ _ _ _ _ Hlv e He)).
  assert (Hlev : levels (subtype g) (node_id focus) (S k) seen frontier).
  { apply level_levels; [done..|]. intros x. by apply frontier_of_entries. }
  assert (Hids : forall x, x ∈ map he_id entries <-> x ∈ seen /\ x <> node_id focus).
  { intros x. unfold entries, seen. rewrite map_app, elem_of_app, elem_of_map_sort, (di_ids _ _ Hinv).
    rewrite elem_of_union, elem_of_list_to_set. split; [|tauto].
    intros [[? ?]|Hx]; [tauto|]. split; [by left|].
    apply (li_sub _ _ _ _ _ _ _ Hlv), (level_seen_subtype k s Hinv lv Hlv) in Hx. apply Hx. }
  assert (Hcore : same_core entries entries').
  { destruct (_ && _); [|by injection Hlast as <- _].
    pose proof (last_level_core seen index (hierarchy_edges st frontier false) entries false) as Hc.
    by rewrite Hlast in Hc. }
  assert (Hhid : none_hidden entries).
  { intros e [He|He%elem_of_sort_by]%elem_of_app; [by apply Hh|].
    by destruct (li_entries _ _ _ _ _ _ _ Hlv e He) as [_ _ _ _ (_ & _ & ?) _]. }
  split; [split; cbn|].
  - done.
  - eapply entries_ok_core; [exact Hcore|]. by apply level_entries_ok.
  - intros x. by rewrite (same_core_ids _ _ Hcore).
  - by eapply index_ok_core.
  - by apply (level_direct k s Hinv lv Hlv).
  - destruct (below_last_level _ _ _ _ _ _ _ Hlev Hhid Hlast) as [Hf Ht]. split; [exact Hf|].
    intros Hbt. destruct (Ht Hbt) as (? & x & Hx & Hout). split; [done|]. exists x. split; [done|].
    rewrite (same_core_ids _ _ Hcore), Hids. tauto.
Qed.

(** The walk from a state to the next. *)
Lemma descendant_level_step k s :
  S k <= MAX_DESCENDANT_DEPTH -> down_inv k s -> dn_bounded s = false ->
  none_hidden (dn_entries s) ->
  match descendant_level to_lowercase st s (S k) with
  | Break s' => (s' = s /\ closed s) \/ down_cut s'
  | Continue s' =>
      down_inv (S k) s'
      /\ (dn_bounded s' = false ->
            none_hidden (dn_entries s') /\ (S k = MAX_DESCENDANT_DEPTH -> closed s'))
      /\ (dn_bounded s' = true -> S k = MAX_DESCENDANT_DEPTH
            /\ exists x, is_subtype x /\ x ∉ map he_id (dn_entries s'))
  end.
Proof.
  intros Hk Hinv Hsb Hh. unfold descendant_level. rewrite Hsb.
  destruct (dn_frontier s) as [|f0 fs] eqn:Hfr.
  { left. split; [done|]. intros x y Hx. rewrite Hfr in Hx. set_solver. }
  rewrite <- Hfr. clear Hfr f0 fs.
  assert (Hcap : length (dn_entries s) <= MAX_DESCENDANTS) by apply (di_entries _ _ Hinv).
  assert (Hkinds : forall e, e ∈ hierarchy_edges st (dn_frontier s) false -> is_hierarchy e)
    by (intros e (_ & ? & _)%hierarchy_edges_down; done).
  pose proof (level_fold (length (dn_entries s)) (S k) (dn_direct_total s)
    (dn_direct_implementers s) (dn_seen s) _ _ Hcap Hkinds (sources_known (dn_frontier s))) as Hlv.
  destruct (hierarchy_edges st (dn_frontier s) false) as [|e0 es] eqn:Hes.
  { left. split; [done|]. intros x y Hx Hxy.
    assert (Hin : y ∈ map edge_source (hierarchy_edges st (dn_frontier s) false))
      by (apply frontier_edges; eauto).
    rewrite Hes in Hin. set_solver. }
  rewrite <- Hes in *. clear Hes e0 es.
  set (lv := fold_left _ _ _) in *.
  pose proof (push_entries (sort_level to_lowercase (lv_level lv)) (dn_entries s) (dn_index s)
    (di_index _ _ Hinv)) as Hpush.
  destruct (fold_left push_entry _ _) as [entries index]. destruct Hpush as [-> Hidx].
  cbv zeta. destruct (lv_bounded lv) eqn:Hb.
  - right. eapply (level_cut k s lv); [done..|]. apply overflow_core.
  - rewrite (li_overflow _ _ _ _ _ _ _ Hlv Hb). cbn [fold_left].
    destruct (if (S k =? _) && _ then _ else _) as [entries' bounded] eqn:Hlast.
    exact (level_whole k s lv index Hk Hinv Hh Hlv Hb Hidx entries' bounded _ Hlast).
Qed.

(** ** The result *)

Definition down_start : Down := mkDown [] ∅ {[node_id focus]} [node_id focus] 0 0 false.

Lemma down_start_inv : down_inv 0 down_start.
Proof.
  split; cbn.
  - apply levels_start.
  - split; cbn.
    + constructor.
    + set_solver.
    + constructor.
    + unfold MAX_DESCENDANTS. lia.
  - set_solver.
  - intros id at_. by rewrite lookup_empty.
  - done.
Qed.

(** A walk whose frontier has no successors left has found all subtypes. *)
Lemma closed_result k s :
  k <= MAX_DESCENDANT_DEPTH -> down_inv k s -> dn_bounded s = false -> none_hidden (dn_entries s) ->
  closed s -> down_result s.
Proof.
  intros Hk Hinv Hb Hh Hc. pose proof (di_levels _ _ Hinv) as Hlev.
  assert (Hall : forall x, rtc (subtype g) (node_id focus) x <-> x ∈ dn_seen s)
    by (by eapply levels_done).
  split.
  - eapply entries_ok_mono; [exact Hk|apply Hinv].
  - intros _. split; [|done]. intros x. unfold is_subtype. by rewrite (di_ids _ _ Hinv), Hall.
  - by rewrite Hb.
  - pose proof (di_direct _ _ Hinv) as Hd. unfold direct_ok in *. destruct k as [|k]; [|done].
    cbn [Nat.eqb] in Hd. exists ∅. rewrite Hd. split; [|done]. intros x. split; [set_solver|].
    intros [Hx Hne]. exfalso. apply Hne.
    assert (Hfr : node_id focus ∈ dn_frontier s)
      by (by apply (levels_frontier _ _ _ _ _ Hlev), at_distance_0).
    apply (Hc _ _ Hfr), (levels_ball _ _ _ _ _ Hlev), ball_0 in Hx. done.
Qed.

Lemma walk_descendants_result : down_result (walk_descendants to_lowercase st focus).
Proof.
  unfold walk_descendants. fold down_start.
  apply (for_loop_ind _ (fun pre s =>
    down_inv (length pre) s
    /\ (dn_bounded s = false -> none_hidden (dn_entries s)
          /\ (length pre = MAX_DESCENDANT_DEPTH -> closed s))
    /\ (dn_bounded s = true -> length pre = MAX_DESCENDANT_DEPTH
          /\ exists x, is_subtype x /\ x ∉ map he_id (dn_entries s)))).
  - split; [apply down_start_inv|]. split; [|done]. intros _. split; [|done]. intros e. set_solver.
  - intros pre x post s Hseq (Hinv & Hf & Ht). apply seq_split in Hseq as [-> Hlt].
    assert (Hb : dn_bounded s = false).
    { destruct (dn_bounded s); [|done]. destruct (Ht eq_refl) as [? _]. lia. }
    destruct (Hf Hb) as [Hh _].
    pose proof (descendant_level_step (length pre) s Hlt Hinv Hb Hh) as Hstep.
    change (1 + length pre) with (S (length pre)). rewrite length_app, Nat.add_1_r.
    destruct (descendant_level _ _ s _) as [s'|s']; [done|].
    destruct Hstep as [[-> Hc]|(Hcb & He & Hm & Hd)]; [apply (closed_result (length pre)); [lia|done..]|].
    split; [done| |done|done]. by rewrite Hcb.
  - intros s (Hinv & Hf & Ht). rewrite length_seq in *. destruct (dn_bounded s) eqn:Hb.
    + destruct (Ht eq_refl) as [_ Hm]. split; [apply Hinv|by rewrite Hb|done|apply (di_direct _ _ Hinv)].
    + destruct (Hf eq_refl) as [Hh Hc]. apply (closed_result MAX_DESCENDANT_DEPTH); auto.
Qed.

End Descendants.
