(* ===== verification/ViewerDb.v ===== *)
(** * The viewer's batched reads of the database
      (crates/codegraph-store/src/viewer.rs)

    Edge and count reads over many ids, one query per chunk of parameters, and
    the proof that the edge reads are what the hierarchy walks assume. *)
From S2P Require Import Prelude Types Rows Db DbRefs DbFacts GraphStore StoreView.
From S2P Require Import Hierarchy.

(** [unique]: each id at its first occurrence. *)
Fixpoint unique_from (seen : gset string) (ids : list string) : list string :=
  match ids with
  | [] => []
  | id :: ids =>
      if decide (id ∈ seen) then unique_from seen ids else id :: unique_from ({[id]} ∪ seen) ids
  end.
Definition unique (ids : list string) : list string := unique_from ∅ ids.

Section Batches.
Context `{SerdeJson} `{SqlScan}.

(** [Store::batched_edges] over one of the two endpoint columns. *)
Definition batched_edges (db : Db) (column : EdgeRow -> string) (ids : list string)
    (kinds : list EdgeKind) : result SqlError (list Edge) :=
  for_M (fun out chunk =>
           rows ← map_M row_to_edge
                    (scan_order "batched_edges"
                       (filter (fun r => column r ∈ chunk
                                  /\ (kinds = [] \/ er_kind r ∈ map EdgeKind_as_str kinds))
                          (db_edges db)));
           Ok (Continue (out ++ rows)))
        [] (chunks SQLITE_PARAM_CHUNK_SIZE (unique ids)).

(** [Store::outgoing_edges_from], [Store::incoming_edges_to]. *)
Definition db_outgoing_edges_from (db : Db) (ids : list string) (kinds : list EdgeKind) :=
  batched_edges db er_source ids kinds.

Definition db_incoming_edges_to (db : Db) (ids : list string) (kinds : list EdgeKind) :=
  batched_edges db er_target ids kinds.

(** [Store::batched_counts]: per id with an edge, how many edges. *)
Definition batched_counts (db : Db) (column : EdgeRow -> string) (ids : list string)
  : gmap string nat :=
  fold_left (fun out chunk =>
      fold_left (fun out id =>
          <[id := length (filter (fun r => column r = id) (db_edges db))]> out)
        (scan_order "batched_counts"
           (remove_dups (map column (filter (fun r => column r ∈ chunk) (db_edges db))))) out)
    (chunks SQLITE_PARAM_CHUNK_SIZE (unique ids)) ∅.

(** [Store::count_incoming_edges], [Store::count_outgoing_edges]. *)
Definition count_incoming_edges (db : Db) (ids : list string) := batched_counts db er_target ids.
Definition count_outgoing_edges (db : Db) (ids : list string) := batched_counts db er_source ids.

End Batches.

#[export] Instance DbBatches `{SerdeJson} `{SqlScan} : EdgeBatches Db := {|
  outgoing_edges_from := db_outgoing_edges_from;
  incoming_edges_to := db_incoming_edges_to
|}.

(** ** Facts *)

Lemma elem_of_unique_from seen ids x : x ∈ unique_from seen ids <-> x ∈ ids /\ x ∉ seen.
Proof.
  revert seen. induction ids as [|id ids IH]; intros seen; cbn; [set_solver|].
  case_decide as Hin; [rewrite IH; set_solver|]. rewrite elem_of_cons, IH.
  destruct (decide (x = id)); set_solver.
Qed.

Lemma elem_of_unique ids x : x ∈ unique ids <-> x ∈ ids.
Proof. unfold unique. rewrite elem_of_unique_from. set_solver. Qed.

Lemma NoDup_unique ids : NoDup (unique ids).
Proof.
  unfold unique. generalize (∅ : gset string). induction ids as [|id ids IH]; intros seen; cbn; [constructor|].
  case_decide; [done|]. apply NoDup_cons. split; [|done]. rewrite elem_of_unique_from. set_solver.
Qed.

(** A filter on a disjunction of exclusive conditions. *)
Lemma filter_or_perm {A} (P Q : A -> Prop) `{!forall x, Decision (P x), !forall x, Decision (Q x)} l :
  (forall x, P x -> ~ Q x) -> filter P l ++ filter Q l ≡ₚ filter (fun x => P x \/ Q x) l.
Proof.
  intros Hex. induction l as [|x l IH]; [done|]. rewrite !filter_cons.
  destruct (decide (P x)) as [HP|HP], (decide (Q x)) as [HQ|HQ].
  - exfalso. by eapply Hex.
  - rewrite decide_True by tauto. cbn. by rewrite IH.
  - rewrite decide_True by tauto. by rewrite <- Permutation_middle, IH.
  - by rewrite decide_False by tauto.
Qed.

Section BatchFacts.
Context `{SqlScanLaws} `{SerdeJson}.

Lemma batched_edges_ok db column (far : Edge -> string) ids kinds :
  wf_db db -> kinds <> [] ->
  (forall r e, row_to_edge r = Ok e -> far e = column r) ->
  returns (batched_edges db column ids kinds)
    (fun es => es ≡ₚ filter (fun e => far e ∈ ids /\ edge_kind e ∈ kinds) (gv_edges (view_of db))).
Proof.
  intros Hwf Hk Hcol. unfold batched_edges. pose proof (NoDup_unique ids) as Hnd.
  rewrite <- (chunks_concat SQLITE_PARAM_CHUNK_SIZE (unique ids)) in Hnd by done.
  apply (returns_for_M _ (fun pre es => es ≡ₚ
    filter (fun e => far e ∈ mjoin pre /\ edge_kind e ∈ kinds) (gv_edges (view_of db)))).
  - cbn. induction (parsed row_to_edge (db_edges db)) as [|e es IH]; [done|].
    rewrite filter_cons, decide_False by set_solver. done.
  - intros pre chunk post es Hsplit Hes.
    returns_step (scan_parsed row_to_edge
      (fun r => column r ∈ chunk /\ (kinds = [] \/ er_kind r ∈ map EdgeKind_as_str kinds))
      (fun e => far e ∈ chunk /\ edge_kind e ∈ kinds)).
    + exact (wf_edges_parse _ Hwf).
    + intros r e Hp. rewrite <- (Hcol r e Hp). f_equiv.
      apply row_to_edge_fields in Hp as (_ & _ & _ & <-). split.
      * intros [?|(k & ->%(inj EdgeKind_as_str) & ?)%list_elem_of_fmap]; done.
      * intros ?. right. by apply list_elem_of_fmap_2.
    + intros rows Hrows. cbn. rewrite Hes, Hrows, filter_or_perm.
      * apply Permutation_refl', list_filter_iff. intros e. rewrite join_app. cbn.
        rewrite app_nil_r, elem_of_app. tauto.
      * intros e [H1e _] [H2e _]. rewrite Hsplit, join_app in Hnd.
        apply NoDup_app in Hnd as (_ & Hdis & _). eapply Hdis; [done|]. cbn. set_solver.
  - intros es Hes. rewrite Hes, chunks_concat by done. apply Permutation_refl', list_filter_iff.
    intros e. by rewrite elem_of_unique.
Qed.

Lemma wf_db_batches db : wf_db db -> HealthyBatches db (view_of db).
Proof.
  intros Hwf. split; intros ids kinds Hk; apply batched_edges_ok; try done;
    intros r e He; apply row_to_edge_fields in He; tauto.
Qed.

(** The counts are the numbers of edges at each id that has one. *)
Lemma batched_counts_lookup db column ids id :
  batched_counts db column ids !! id =
    if decide (id ∈ ids /\ id ∈ map column (db_edges db))
    then Some (length (filter (fun r => column r = id) (db_edges db))) else None.
Proof.
  unfold batched_counts.
  trans (if decide (id ∈ mjoin (chunks SQLITE_PARAM_CHUNK_SIZE (unique ids)) /\ id ∈ map column (db_edges db))
    then Some (length (filter (fun r => column r = id) (db_edges db))) else None).
  2: { apply decide_ext. by rewrite chunks_concat, elem_of_unique by done. }
  set (I := fun (pre : list (list string)) (m : gmap string nat) => m !! id =
    if decide (id ∈ mjoin pre /\ id ∈ map column (db_edges db))
    then Some (length (filter (fun r => column r = id) (db_edges db))) else None).
  apply (fold_left_ind _ I); unfold I; clear I.
  { rewrite lookup_empty, decide_False by (cbn; set_solver). done. }
  intros pre chunk post m _ Hm.
  assert (Hin : forall (l : list string) (m0 : gmap string nat),
    fold_left (fun out id => <[id := length (filter (fun r => column r = id) (db_edges db))]> out) l m0 !! id
    = if decide (id ∈ l) then Some (length (filter (fun r => column r = id) (db_edges db)))
      else m0 !! id).
  { induction l as [|x l IH]; intros m0; [done|]. cbn [fold_left]. rewrite IH.
    destruct (decide (id ∈ l)); [by rewrite decide_True by set_solver|].
    destruct (decide (x = id)) as [->|Hne].
    - by rewrite lookup_insert_eq, decide_True by set_solver.
    - by rewrite lookup_insert_ne, decide_False by set_solver. }
  rewrite Hin, Hm, join_app. cbn. rewrite app_nil_r.
  assert (Hc : id ∈ scan_order "batched_counts"
      (remove_dups (map column (filter (fun r => column r ∈ chunk) (db_edges db))))
    <-> id ∈ chunk /\ id ∈ map column (db_edges db)).
  { rewrite scan_perm, elem_of_remove_dups, !list_elem_of_fmap.
    setoid_rewrite list_elem_of_filter. naive_solver. }
  destruct (decide (id ∈ scan_order _ _)) as [Hs|Hs]; rewrite Hc in Hs.
  - rewrite decide_True; [done|]. set_solver.
  - apply decide_ext. set_solver.
Qed.

End BatchFacts.
