(* ===== verification/HierarchyOverrides.v ===== *)
(** * Facts on the overrides of a type's members

    What [members_of] lists, and that [match_overrides] pairs a member with
    the member of its name that the nearest supertype declares. Then what the
    type hierarchy promises, at the project of [Demo]. *)
From S2P Require Import Prelude Strings Types Rows Db DbRefs DbFacts GraphStore StoreView Demo Hierarchy.
From S2P Require Import HierarchyFacts ViewerDb.

(** [n] is declared in [c]. *)
Definition declares (g : GraphView) (c : string) (n : Node) : Prop :=
  gv_nodes g !! node_id n = Some n
  /\ exists e, e ∈ gv_edges g /\ edge_kind e = EkContains /\ edge_source e = c
       /\ edge_target e = node_id n.

Lemma combine_seq_lookup (ids : list string) k i c :
  (i, c) ∈ combine (seq k (length ids)) ids <-> k <= i /\ ids !! (i - k) = Some c.
Proof.
  revert k. induction ids as [|id ids IH]; intros k; cbn [length seq combine].
  { split; [set_solver|]. by intros [_ ?]. }
  rewrite elem_of_cons, IH. split.
  - intros [[= -> ->]|[Hk Hi]]; [by rewrite Nat.sub_diag|]. split; [lia|].
    by replace (i - k) with (S (i - S k)) by lia.
  - intros [Hk Hi]. destruct (decide (i = k)) as [->|]; [rewrite Nat.sub_diag in Hi; naive_solver|].
    right. split; [lia|]. by replace (i - k) with (S (i - S k)) in Hi by lia.
Qed.

(** A map filled by later entries winning, over distinct keys. *)
Lemma fold_insert_lookup {A V} (key : A -> string) (val : A -> V) l (m : gmap string V) k v :
  NoDup (map key l) ->
  fold_left (fun m x => <[key x := val x]> m) l m !! k = Some v
  <-> (exists x, x ∈ l /\ key x = k /\ val x = v) \/ (k ∉ map key l /\ m !! k = Some v).
Proof.
  revert m. induction l as [|x l IH]; intros m; cbn [map fold_left].
  { intros _. set_solver. }
  intros [Hx Hnd]%NoDup_cons. rewrite IH by done.
  destruct (decide (key x = k)) as [<-|Hne].
  - rewrite lookup_insert_eq. split.
    + intros [(y & Hy & Hk & Hv)|[Hout [= <-]]]; left; [exists y|exists x]; set_solver.
    + intros [(y & [->|Hy]%elem_of_cons & Hk & <-)|[Hout _]].
      * by right.
      * left. eauto.
      * set_solver.
  - rewrite lookup_insert_ne by done. set_solver.
Qed.

(** A map filled by earlier entries winning. *)
Lemma fold_or_insert_lookup {A} (key : A -> string) l (m : gmap string A) k :
  fold_left (fun m x => match m !! key x with Some _ => m | None => <[key x := x]> m end) l m !! k
  = match m !! k with Some v => Some v | None => head (filter (fun x => key x = k) l) end.
Proof.
  revert m. induction l as [|x l IH]; intros m; cbn [fold_left]; [by destruct (m !! k)|].
  rewrite IH, filter_cons. destruct (m !! key x) eqn:E.
  - destruct (m !! k) eqn:Ek; [done|]. rewrite decide_False; [done|]. intros <-. congruence.
  - destruct (decide (key x = k)) as [<-|Hne].
    + by rewrite lookup_insert_eq, E.
    + by rewrite lookup_insert_ne.
Qed.

(** The first element with a property in a sorted list comes before the others. *)
Lemma head_filter_first {A} (R : A -> A -> Prop) (P : A -> Prop) `{!forall x, Decision (P x)} l x :
  StronglySorted R l -> head (filter P l) = Some x ->
  x ∈ l /\ P x /\ forall y, y ∈ l -> P y -> y = x \/ R x y.
Proof.
  induction 1 as [|z l Hl IH Hz]; [done|]. rewrite filter_cons, Forall_forall in *. case_decide as HP.
  - intros [= <-]. split; [set_solver|]. split; [done|].
    intros y [->|Hy]%elem_of_cons _; auto.
  - intros (Hx & HPx & Hmin)%IH. split; [set_solver|]. split; [done|].
    intros y [->|Hy]%elem_of_cons HPy; [done|auto].
Qed.

Lemma head_filter_none {A} (P : A -> Prop) `{!forall x, Decision (P x)} l y :
  head (filter P l) = None -> y ∈ l -> ~ P y.
Proof.
  intros Hh Hy HP. assert (Hin : y ∈ filter P l) by (apply list_elem_of_filter; done).
  destruct (filter P l); [by apply not_elem_of_nil in Hin|done].
Qed.

(** A map filled under a condition, when the key determines the value. *)
Lemma fold_some_lookup {A V} (key : A -> string) (f : A -> option V) l (m : gmap string V) k :
  (forall x y, x ∈ l -> y ∈ l -> key x = key y -> f x = f y) ->
  fold_left (fun m x => match f x with Some v => <[key x := v]> m | None => m end) l m !! k
  = match head (filter (fun x => key x = k) l) with
    | Some x => match f x with Some v => Some v | None => m !! k end
    | None => m !! k
    end.
Proof.
  revert m. induction l as [|x l IH]; intros m Hdet; [done|]. cbn [fold_left].
  rewrite IH by (intros; apply Hdet; set_solver). rewrite filter_cons.
  destruct (decide (key x = k)) as [<-|Hne].
  - cbn [head]. destruct (head (filter _ l)) as [y|] eqn:Hy.
    + assert (Hin : y ∈ filter (fun y => key y = key x) l)
        by (destruct (filter _ l); [done|injection Hy as ->; left]).
      apply list_elem_of_filter in Hin as [Hk Hin].
      rewrite (Hdet x y) by set_solver. by destruct (f y); [|done].
    + destruct (f x); [by rewrite lookup_insert_eq|done].
  - replace (match f x with Some v => <[key x:=v]> m | None => m end !! k) with (m !! k);
      [done|]. destruct (f x); [by rewrite lookup_insert_ne|done].
Qed.

Lemma Sorted_weaken {A} (R R' : A -> A -> Prop) l :
  (forall a b, R a b -> R' a b) -> Sorted R l -> Sorted R' l.
Proof.
  intros HR. induction 1 as [|a l Hl IH Hhd]; constructor; [done|].
  inversion Hhd; constructor; auto.
Qed.

Section Members.
Context {St} `{HS : HealthyStore St st g} `{EB : EdgeBatches St} {HB : HealthyBatches st g}.

Definition rank_of (ids : list string) : gmap string nat :=
  fold_left (fun m p => <[snd p := fst p]> m) (combine (seq 0 (length ids)) ids) ∅.

Lemma map_snd_combine_seq (ids : list string) k : map snd (combine (seq k (length ids)) ids) = ids.
Proof. revert k. induction ids as [|id ids IH]; intros k; cbn; [done|]. by rewrite IH. Qed.

Lemma rank_of_lookup ids c i : NoDup ids -> rank_of ids !! c = Some i <-> ids !! i = Some c.
Proof.
  intros Hnd. unfold rank_of. rewrite fold_insert_lookup by (by rewrite map_snd_combine_seq).
  rewrite lookup_empty. split.
  - intros [([j d] & Hin & <- & <-)|[_ ?]]; [|done].
    apply combine_seq_lookup in Hin as [_ Hin]. by rewrite Nat.sub_0_r in Hin.
  - intros Hi. left. exists (i, c). split; [|done]. apply combine_seq_lookup.
    rewrite Nat.sub_0_r. split; [lia|done].
Qed.

Definition member_le (rank : gmap string nat) (a b : Node * string) : bool :=
  then_le (Nat.compare (default 0 (rank !! snd a)) (default 0 (rank !! snd b)))
    (Z.leb (node_start_line (fst a)) (node_start_line (fst b))).

Lemma member_le_total rank a b : member_le rank a b = true \/ member_le rank b a = true.
Proof.
  apply then_le_total; [apply Nat.compare_antisym|]. rewrite !Z.leb_le. lia.
Qed.

(** By the rank of the container, then by line. *)
Definition before (rank : gmap string nat) (a b : Node * string) : Prop :=
  default 0 (rank !! snd a) < default 0 (rank !! snd b)
  \/ (default 0 (rank !! snd a) = default 0 (rank !! snd b)
     /\ (node_start_line (fst a) <= node_start_line (fst b))%Z).

Lemma member_le_before rank a b : member_le rank a b = true -> before rank a b.
Proof.
  unfold member_le, then_le, before.
  destruct (Nat.compare_spec (default 0 (rank !! snd a)) (default 0 (rank !! snd b)));
    rewrite ?Z.leb_le; [lia|lia|done].
Qed.

(** The members of distinct containers, by the rank of the container. *)
Lemma members_of_spec ids :
  NoDup ids ->
  (forall n c, (n, c) ∈ members_of st ids <-> c ∈ ids /\ declares g c n)
  /\ StronglySorted (before (rank_of ids)) (members_of st ids).
Proof.
  intros Hnd. unfold members_of. destruct ids as [|id0 ids0] eqn:Hids; [split; [set_solver|constructor]|].
  rewrite <- Hids in *. clear Hids id0 ids0.
  pose proof (fun H => healthy_outgoing ids [EkContains] H) as Hout; specialize (Hout ltac:(discriminate)).
  destruct (outgoing_edges_from st ids [EkContains]) as [es|?|]; try done. cbn in Hout.
  assert (Hel : forall e, e ∈ es <-> e ∈ gv_edges g /\ edge_source e ∈ ids /\ edge_kind e = EkContains)
    by (intros e; rewrite Hout, list_elem_of_filter; set_solver).
  clear Hout. destruct es as [|e0 es0] eqn:Hes.
  { split; [|constructor]. intros n c. split; [set_solver|].
    intros (Hc & _ & e & He & Hk & <- & _). assert (Hin : e ∈ []) by (apply Hel; auto). by apply not_elem_of_nil in Hin. }
  rewrite <- Hes in *.  clear Hes e0 es0.
  fold (rank_of ids). split.
  - intros n c. rewrite elem_of_sort_by, list_elem_of_omap. split.
    + intros (e & He & Hn). rewrite (unwrap_nodes_by_ids (st := st) (g := g)) in Hn by set_solver.
      destruct (gv_nodes g !! edge_target e) as [n'|] eqn:En; [|done]. injection Hn as -> <-.
      pose proof (view_key _ _ En) as Hid. apply Hel in He as (Hg & Hsrc & Hk).
      split; [done|]. split; [by rewrite Hid|]. exists e. auto.
    + intros (Hc & Hn & e & He & Hk & <- & Ht). assert (Hin : e ∈ es) by (apply Hel; auto).
      exists e. split; [done|]. rewrite (unwrap_nodes_by_ids (st := st) (g := g)) by set_solver.
      by rewrite Ht, Hn.
  - change (fun a b => then_le _ _) with (member_le (rank_of ids)).
    pose proof (sort_by_sorted (member_le (rank_of ids)) (member_le_total (rank_of ids))
      (omap (fun e => (fun n => (n, edge_source e)) <$>
         unwrap_or ∅ (nodes_by_ids st (map edge_target es)) !! edge_target e) es)) as Hs.
    apply Sorted_StronglySorted.
    + intros a b c. unfold before. lia.
    + eapply Sorted_weaken; [|exact Hs]. intros a b. apply member_le_before.
Qed.

(** ** The nearest declaration of a name *)

(** [base], a member of [owner], is called [name], and no type of [chain]
    before [owner] has a member of that name, nor [owner] itself on an earlier
    line. *)
Definition nearest (chain : list HierarchyEntry) (name : string) (base : Node)
    (owner : HierarchyEntry) : Prop :=
  declares g (he_id owner) base /\ node_name base = name
  /\ exists i, chain !! i = Some owner
       /\ forall j c n, chain !! j = Some c -> declares g (he_id c) n -> node_name n = name ->
            i < j \/ (i = j /\ (node_start_line base <= node_start_line n)%Z).

Lemma nearest_head chain name base id :
  NoDup (map he_id chain) ->
  head (filter (fun b => node_name (fst b) = name) (members_of st (map he_id chain)))
    = Some (base, id) ->
  exists owner, owner ∈ chain /\ he_id owner = id /\ nearest chain name base owner.
Proof.
  intros Hnd Hh. destruct (members_of_spec _ Hnd) as [Hm Hs].
  destruct (head_filter_first _ _ _ _ Hs Hh) as (Hin & Hname & Hmin). cbn in Hname.
  apply Hm in Hin as [Hid Hdecl]. apply list_elem_of_lookup in Hid as [i Hi].
  pose proof Hi as Ho. rewrite list_lookup_fmap in Ho.
  destruct (chain !! i) as [owner|] eqn:Ei; [|done]. injection Ho as Ho.
  exists owner. split; [by eapply list_elem_of_lookup_2|]. split; [done|].
  split; [by rewrite Ho|]. split; [done|]. exists i. split; [done|].
  intros j c n Hj Hn Hnn. assert (Hcj : map he_id chain !! j = Some (he_id c))
    by (by rewrite list_lookup_fmap, Hj).
  destruct (Hmin (n, he_id c)) as [[= -> Heq]|Hb]; [|done| |].
  - apply Hm. split; [by eapply list_elem_of_lookup_2|done].
  - right. split; [|done]. rewrite Heq in Hcj. by eapply NoDup_lookup.
  - unfold before in Hb. cbn in Hb. apply (rank_of_lookup _ _ _ Hnd) in Hcj, Hi.
    rewrite Hcj, Hi in Hb. cbn in Hb. exact Hb.
Qed.

(** ** [match_overrides] *)

(** What the loop over the focus's members records for one of them. *)
Definition override_of (by_ancestor : gmap string HierarchyEntry)
    (by_name : gmap string (Node * string)) (member : Node) : option OverrideMatch :=
  if negb (is_overridable (node_kind member)) then None else
  match by_name !! node_name member with
  | None => None
  | Some (base_member, owner_id) =>
      if String.eqb (node_id base_member) (node_id member) then None else
      match by_ancestor !! owner_id with
      | None => None
      | Some owner =>
          Some (mkOverride (node_id member) (node_id base_member) (he_id owner)
                  (node_name (he_node owner)) (he_relation owner))
      end
  end.

Definition chain_index (chain : list HierarchyEntry) : gmap string HierarchyEntry :=
  fold_left (fun m a => <[he_id a := a]> m) chain ∅.

Definition name_index (base : list (Node * string)) : gmap string (Node * string) :=
  fold_left (fun m b => match m !! node_name (fst b) with
                        | Some _ => m
                        | None => <[node_name (fst b) := b]> m
                        end) base ∅.

Lemma override_of_empty bya member : override_of bya ∅ member = None.
Proof. unfold override_of. rewrite lookup_empty. by destruct (is_overridable _). Qed.

Lemma declares_id c c' n n' : declares g c n -> declares g c' n' -> node_id n = node_id n' -> n = n'.
Proof. intros [Hn _] [Hn' _] Heq. rewrite Heq in Hn. congruence. Qed.

Lemma match_overrides_lookup focus ancestors mid :
  let chain := take MAX_OVERRIDE_ANCESTORS ancestors in
  match_overrides st focus ancestors !! mid
  = match head (filter (fun x => node_id (fst x) = mid) (members_of st [node_id focus])) with
    | Some x => override_of (chain_index chain) (name_index (members_of st (map he_id chain))) (fst x)
    | None => None
    end.
Proof.
  intros chain. unfold match_overrides. fold chain.
  assert (Hch : ancestors = [] -> chain = []) by (unfold chain; by intros ->).
  clearbody chain. destruct ancestors as [|a0 al].
  { rewrite Hch by done. cbn. destruct (head _); [|done]. by rewrite override_of_empty. }
  clear Hch.
  destruct (members_of_spec [node_id focus] (NoDup_singleton _)) as [Hm _].
  destruct (members_of st [node_id focus]) as [|o0 ol] eqn:Ho; [done|].
  rewrite <- Ho in *. clear Ho o0 ol.
  destruct (members_of st (map he_id chain)) as [|b0 bl] eqn:Hb.
  { destruct (head _); [|done]. by rewrite override_of_empty. }
  rewrite <- Hb. clear Hb b0 bl.
  set (f := fun x : Node * string => override_of (chain_index chain)
              (name_index (members_of st (map he_id chain))) (fst x)).
  transitivity (fold_left (fun (m : gmap string OverrideMatch) x => match f x with Some v => <[node_id (fst x) := v]> m | None => m end)
                  (members_of st [node_id focus]) (∅ : gmap string OverrideMatch) !! mid).
  - f_equal. apply fold_left_ext. intros m x. unfold f, override_of.
    fold (chain_index chain). fold (name_index (members_of st (map he_id chain))).
    destruct (is_overridable _); [|done]. cbn [negb].
    destruct (_ !! node_name (fst x)) as [[b o]|]; [|done].
    destruct (String.eqb _ _); [done|]. by destruct (_ !! o).
  - rewrite fold_some_lookup.
    + rewrite lookup_empty. unfold f. destruct (head _); [|done]. by destruct (override_of _ _ _).
    + intros [n c] [n' c'] Hn%Hm Hn'%Hm Hk. unfold f. cbn [fst] in *.
      by rewrite (declares_id c c' n n' (proj2 Hn) (proj2 Hn') Hk).
Qed.

(** What [match_overrides] records of a member. *)
Lemma match_overrides_spec focus ancestors mid :
  NoDup (map he_id ancestors) ->
  let chain := take MAX_OVERRIDE_ANCESTORS ancestors in
  match match_overrides st focus ancestors !! mid with
  | Some m =>
      exists member base owner,
        declares g (node_id focus) member /\ node_id member = mid
        /\ is_overridable (node_kind member) = true
        /\ nearest chain (node_name member) base owner /\ node_id base <> mid
        /\ m = mkOverride mid (node_id base) (he_id owner) (node_name (he_node owner)) (he_relation owner)
  | None =>
      forall member, declares g (node_id focus) member -> node_id member = mid ->
        is_overridable (node_kind member) = true ->
        (forall owner n, owner ∈ chain -> declares g (he_id owner) n -> node_name n <> node_name member)
        \/ exists base owner, nearest chain (node_name member) base owner /\ node_id base = mid
  end.
Proof.
  intros Hnd chain. rewrite match_overrides_lookup. fold chain.
  assert (Hc : NoDup (map he_id chain)).
  { unfold chain. rewrite fmap_take. eapply sublist_NoDup; [|apply sublist_take]; done. }
  clearbody chain. destruct (members_of_spec [node_id focus] (NoDup_singleton _)) as [Hm _].
  destruct (head (filter _ (members_of st [node_id focus]))) as [[member c]|] eqn:Hh.
  2:{ intros member Hd Hid. exfalso.
      apply (head_filter_none (fun x => node_id (fst x) = mid) _ (member, node_id focus) Hh); [|exact Hid].
      apply Hm. split; [set_solver|done]. }
  assert (Hin : (member, c) ∈ filter (fun x => node_id (fst x) = mid) (members_of st [node_id focus]))
    by (destruct (filter _ _); [done|injection Hh as ->; left]).
  apply list_elem_of_filter in Hin as [Hid Hin]. cbn in Hid. apply Hm in Hin as [Hcf Hd].
  apply list_elem_of_singleton in Hcf as ->. cbn [fst].
  destruct (members_of_spec _ Hc) as [Hb _].
  unfold override_of. destruct (is_overridable (node_kind member)) eqn:Hov; cbn [negb].
  2:{ intros member' Hd' Hid'. rewrite (declares_id _ _ _ _ Hd' Hd) by congruence. congruence. }
  unfold name_index. rewrite fold_or_insert_lookup, lookup_empty.
  destruct (head (filter _ (members_of st (map he_id chain)))) as [[base id]|] eqn:Hbase.
  2:{ intros member' Hd' Hid' _. left. rewrite (declares_id _ _ _ _ Hd' Hd) by congruence.
      intros owner n Ho Hn. apply (head_filter_none (fun x => node_name (fst x) = node_name member) _ (n, he_id owner) Hbase).
      apply Hb. split; [|done]. by apply list_elem_of_fmap_2. }
  apply nearest_head in Hbase as (owner & Ho & <- & Hnear); [|done].
  destruct (String.eqb_spec (node_id base) (node_id member)) as [Heq|Hne].
  { intros member' Hd' Hid' _. right. rewrite (declares_id _ _ _ _ Hd' Hd) by congruence.
    exists base, owner. split; [done|congruence]. }
  assert (Hindex : chain_index chain !! he_id owner = Some owner)
    by (apply (fold_insert_lookup he_id id chain ∅ _ _ Hc); left; eauto).
  rewrite Hindex. exists member, base, owner. rewrite <- Hid. auto 10.
Qed.

End Members.

(** ** Properties of the type hierarchy *)

(** ** A hierarchy to evaluate on

    [B] of the demonstration overrides [run] of [A]. *)
Definition override_node : Node := demo_node "method:B.run" NkMethod "run" "src/b.rs" 10.
Definition override_db1 : Db := ok_db (upsert_nodes demo_db [override_node]).
Definition override_db : Db :=
  ok_db (insert_edges override_db1 [demo_edge "class:B" "method:B.run" EkContains None]).

Lemma override_wf : wf_db override_db.
Proof.
  apply (store_step_wf override_db1); [|apply (store_step_wf demo_db); [|exact demo_wf]].
  - apply (step_insert_edges _ [demo_edge "class:B" "method:B.run" EkContains None]); by vm_compute.
  - apply (step_upsert_nodes _ [override_node]); by vm_compute.
Qed.

Definition override_view : GraphView := view_of override_db.
Definition class_a : Node := demo_node "class:A" NkClass "A" "src/a.rs" 2.
Definition class_b : Node := demo_node "class:B" NkClass "B" "src/b.rs" 9.

Section Props.
Context {St} `{HS : HealthyStore St st g} `{EB : EdgeBatches St} {HB : HealthyBatches st g}.
Variable to_lowercase : string -> string.

Lemma walk_ancestors_cases focus :
  gv_nodes g !! node_id focus = Some focus ->
  exists k seen frontier, k <= MAX_ANCESTOR_DEPTH
    /\ ancestors_inv (g := g) focus k (walk_ancestors to_lowercase st focus, seen, frontier)
    /\ (k < MAX_ANCESTOR_DEPTH -> forall x y, x ∈ frontier -> supertype g x y -> y ∈ seen).
Proof.
  intros Hf. pose proof (ancestors_loop (st := st) (g := g) to_lowercase focus Hf) as Hdone.
  unfold walk_ancestors.
  destruct (for_loop _ _ _) as [[out seen] frontier]. cbn [fst snd] in *.
  destruct Hdone as [Hinv|(k & Hk & Hinv & Hcl)].
  - exists MAX_ANCESTOR_DEPTH, seen, frontier. split; [lia|]. split; [done|lia].
  - exists k, seen, frontier. split; [lia|]. auto.
Qed.

Lemma walk_ancestors_nodup focus :
  gv_nodes g !! node_id focus = Some focus ->
  NoDup (map he_id (walk_ancestors to_lowercase st focus)).
Proof. intros Hf. by destruct (walk_ancestors_cases focus Hf) as (k & ? & ? & _ & (_ & Hnd & _) & _). Qed.

(** [walk_ancestors] returns exactly the supertypes other than the focus
    within eight steps, each once and nearest first; each entry carries its
    node, its distance from the focus, and an [extends] or [implements] edge
    to it from a type one step nearer, with that edge's relation. *)
Theorem walk_ancestors_exact focus :
  gv_nodes g !! node_id focus = Some focus ->
  let out := walk_ancestors to_lowercase st focus in
  NoDup (map he_id out)
  /\ Sorted (fun a b => he_depth a <= he_depth b) out
  /\ (forall x, x ∈ map he_id out <->
        x <> node_id focus /\ ball (supertype g) (node_id focus) MAX_ANCESTOR_DEPTH x)
  /\ (forall e, e ∈ out -> ancestor_ok (g := g) focus MAX_ANCESTOR_DEPTH e).
Proof.
  intros Hf out.
  destruct (walk_ancestors_cases focus Hf) as (k & seen & frontier & Hk & (Hlev & Hnd & Hids & Hok & Hs) & Hcl).
  split; [done|]. split; [done|]. split.
  - intros x. change out with (walk_ancestors to_lowercase st focus). rewrite (Hids x). assert (Hx : x ∈ seen <-> ball (supertype g) (node_id focus) MAX_ANCESTOR_DEPTH x).
    { destruct (decide (k = MAX_ANCESTOR_DEPTH)) as [->|Hne]; [by apply (levels_ball _ _ _ _ _ Hlev)|].
      split; [intros Hx; apply (ball_le _ _ k); [done|by apply Hlev]|].
      intros Hx%rtc_bsteps_2. eapply (levels_done _ _ k); [done| |done]. apply Hcl. lia. }
    rewrite Hx. tauto.
  - intros e He%Hok. destruct He as [? [? ?] ? ? ? ?]. split; try done. lia.
Qed.

(** C39: [walk_descendants] returns at most 400 subtypes, each once, within
    six steps and at its distance. When it reports no bound, they are all the
    subtypes there are and none counts a hidden subtype; when it reports one,
    a subtype is indeed missing. The direct total counts every direct subtype,
    shown or not. *)
Theorem walk_descendants_bounded focus :
  let down := walk_descendants to_lowercase st focus in
  entries_ok (g := g) focus MAX_DESCENDANT_DEPTH (dn_entries down)
  /\ (dn_bounded down = false ->
        (forall x, x ∈ map he_id (dn_entries down) <-> is_subtype (g := g) focus x)
        /\ none_hidden (dn_entries down))
  /\ (dn_bounded down = true ->
        exists x, is_subtype (g := g) focus x /\ x ∉ map he_id (dn_entries down))
  /\ direct_ok (g := g) focus 1 (dn_direct_total down).
Proof.
  intros down. destruct (walk_descendants_result (st := st) (g := g) to_lowercase focus) as [? ? ? ?].
  auto.
Qed.

(** For each member of a type, [match_overrides] over its supertypes
    records the declaration of the member's name in the nearest of the twelve
    nearest supertypes that declares it (the first on its line order), with
    that supertype and its relation; it records nothing only for a member that
    cannot override, whose name no such supertype declares, or that is itself
    a nearest declaration. *)
Theorem match_overrides_nearest focus mid :
  gv_nodes g !! node_id focus = Some focus ->
  let ancestors := walk_ancestors to_lowercase st focus in
  let chain := take MAX_OVERRIDE_ANCESTORS ancestors in
  match match_overrides st focus ancestors !! mid with
  | Some m =>
      exists member base owner,
        declares g (node_id focus) member /\ node_id member = mid
        /\ is_overridable (node_kind member) = true
        /\ nearest (g := g) chain (node_name member) base owner /\ node_id base <> mid
        /\ m = mkOverride mid (node_id base) (he_id owner) (node_name (he_node owner)) (he_relation owner)
  | None =>
      forall member, declares g (node_id focus) member -> node_id member = mid ->
        is_overridable (node_kind member) = true ->
        (forall owner n, owner ∈ chain -> declares g (he_id owner) n -> node_name n <> node_name member)
        \/ exists base owner, nearest (g := g) chain (node_name member) base owner /\ node_id base = mid
  end.
Proof. intros Hf. exact (match_overrides_spec focus _ mid (walk_ancestors_nodup focus Hf)). Qed.

End Props.

Lemma override_healthy : HealthyStore override_db override_view.
Proof. exact (wf_db_healthy override_db override_wf). Qed.

Lemma override_batches : HealthyBatches override_db override_view.
Proof. exact (wf_db_batches override_db override_wf). Qed.

Lemma class_b_stored : gv_nodes override_view !! node_id class_b = Some class_b.
Proof. apply (bool_decide_unpack _). by vm_compute. Qed.

Lemma walk_ancestors_exact_witness :
  map he_id (walk_ancestors (fun x => x) override_db class_b) = ["class:A"]
  /\ NoDup (map he_id (walk_ancestors (fun x => x) override_db class_b)).
Proof.
  split; [by vm_compute|].
  exact (proj1 (@walk_ancestors_exact _ _ _ _ override_healthy _ override_batches (fun x => x)
    class_b class_b_stored)).
Defined.

Lemma walk_descendants_bounded_witness :
  map he_id (dn_entries (walk_descendants (fun x => x) override_db class_a)) = ["class:B"]
  /\ entries_ok (g := override_view) class_a MAX_DESCENDANT_DEPTH
       (dn_entries (walk_descendants (fun x => x) override_db class_a)).
Proof.
  split; [by vm_compute|].
  exact (proj1 (@walk_descendants_bounded _ _ _ _ override_healthy _ override_batches (fun x => x) class_a)).
Defined.

Lemma b_run_overrides :
  exists m, match_overrides override_db class_b (walk_ancestors (fun x => x) override_db class_b)
      !! "method:B.run" = Some m /\ om_base_id m = "method:run" /\ om_base_type_id m = "class:A".
Proof.
  destruct (match_overrides override_db class_b _ !! _) as [m|] eqn:E; [|by vm_compute in E].
  exists m. split; [done|]. revert E. vm_compute. by intros [= <-].
Qed.

Lemma match_overrides_nearest_witness :
  exists m member, match_overrides override_db class_b
        (walk_ancestors (fun x => x) override_db class_b) !! "method:B.run" = Some m
    /\ om_base_id m = "method:run" /\ declares override_view "class:B" member
    /\ node_id member = "method:B.run".
Proof.
  pose proof (@match_overrides_nearest _ _ _ _ override_healthy _ override_batches (fun x => x)
    class_b "method:B.run" class_b_stored) as Hm.
  destruct b_run_overrides as (m & E & Hb & _). cbv zeta in Hm. rewrite E in Hm.
  destruct Hm as (member & base & owner & Hd & Hid & _). eauto 10.
Defined.
