(* ===== verification/Utf8.v ===== *)
(** * UTF-8 text

    A [char] is its scalar value, the bytes of a [str] are a list of numbers
    below 256. [encode_utf8] and [next_code_point] are the standard library's
    encoder and decoder; a [str] is the encoding of a list of characters, and
    slicing it anywhere but at a character boundary panics. *)
From S2P Require Import Prelude.
From Stdlib Require Import NArith.

Notation Char := N (only parsing).
Notation Bytes := (list N) (only parsing).

(** What a Rust function can end with instead of returning. *)
Inductive Panic := SliceNotOnCharBoundary.

(** A Unicode scalar value: a code point that is not a surrogate. *)
Definition is_char (c : Char) : bool :=
  (c <? 0xD800)%N || ((0xE000 <=? c)%N && (c <? 0x110000)%N).

Definition is_chars (s : list Char) : Prop := Forall (fun c => is_char c = true) s.

Definition len_utf8 (c : Char) : nat :=
  if (c <? 0x80)%N then 1 else if (c <? 0x800)%N then 2 else if (c <? 0x10000)%N then 3 else 4.

(** The six low bits of [c >> n] as a continuation byte. *)
Definition continuation (c : Char) (n : N) : N :=
  N.lor (N.land (N.shiftr c n) 0x3F) 0x80.

(** [char::encode_utf8]. *)
Definition encode_utf8 (c : Char) : Bytes :=
  match len_utf8 c with
  | 1 => [c]
  | 2 => [N.lor (N.land (N.shiftr c 6) 0x1F) 0xC0; continuation c 0]
  | 3 => [N.lor (N.land (N.shiftr c 12) 0x0F) 0xE0; continuation c 6; continuation c 0]
  | _ => [N.lor (N.land (N.shiftr c 18) 0x07) 0xF0; continuation c 12; continuation c 6;
          continuation c 0]
  end.

(** [chars.into_iter().collect::<String>()]. *)
Definition utf8 (s : list Char) : Bytes := concat (map encode_utf8 s).

(** [core::str::next_code_point]: the first character and the bytes after it. *)
Definition acc_cont_byte (ch byte : N) : N := N.lor (N.shiftl ch 6) (N.land byte 0x3F).

Definition next_code_point (b : Bytes) : option (Char * Bytes) :=
  match b with
  | [] => None
  | x :: b =>
      if (x <? 0x80)%N then Some (x, b) else
      let init := N.land x 0x1F in
      match b with
      | [] => None
      | y :: b =>
          let ch := acc_cont_byte init y in
          if (x <? 0xE0)%N then Some (ch, b) else
          match b with
          | [] => None
          | z :: b =>
              let y_z := acc_cont_byte (N.land y 0x3F) z in
              let ch := N.lor (N.shiftl init 12) y_z in
              if (x <? 0xF0)%N then Some (ch, b) else
              match b with
              | [] => None
              | w :: b => Some (N.lor (N.shiftl (N.land init 7) 18) (acc_cont_byte y_z w), b)
              end
          end
      end
  end.

(** [s.chars().collect()]; each round takes a byte, so the length is fuel enough. *)
Fixpoint chars_fuel (fuel : nat) (b : Bytes) : list Char :=
  match fuel with
  | 0 => []
  | S fuel => match next_code_point b with
              | Some (c, b) => c :: chars_fuel fuel b
              | None => []
              end
  end.
Definition chars (b : Bytes) : list Char := chars_fuel (length b) b.

(** [str::is_char_boundary]: an end of the text, or a byte that is no continuation byte. *)
Definition is_char_boundary (b : Bytes) (i : nat) : bool :=
  match i with
  | 0 => true
  | _ => match b !! i with
         | Some x => (x <? 128)%N || (192 <=? x)%N
         | None => i =? length b
         end
  end.

(** [&s[start..end]]. *)
Definition str_slice (b : Bytes) (start end_ : nat) : result Panic Bytes :=
  if (start <=? end_) && is_char_boundary b start && is_char_boundary b end_
  then Ok (take (end_ - start) (drop start b))
  else Err SliceNotOnCharBoundary.

(** [char::is_whitespace]: the [White_Space] property. *)
Definition is_whitespace (c : Char) : bool :=
  ((9 <=? c) && (c <=? 13) || (c =? 0x20) || (c =? 0x85) || (c =? 0xA0) || (c =? 0x1680)
   || (0x2000 <=? c) && (c <=? 0x200A) || (c =? 0x2028) || (c =? 0x2029) || (c =? 0x202F)
   || (c =? 0x205F) || (c =? 0x3000))%N.

(** [char::is_ascii_alphanumeric]. *)
Definition is_ascii_alphanumeric (c : Char) : bool :=
  ((48 <=? c) && (c <=? 57) || (65 <=? c) && (c <=? 90) || (97 <=? c) && (c <=? 122))%N.

(** The characters of a source literal. *)
Definition lit (s : string) : list Char := map N_of_ascii (String.list_ascii_of_string s).

(** ** Bit fields *)

Lemma lor_disjoint a n x : (x < 2 ^ n)%N -> N.lor (a * 2 ^ n) x = (a * 2 ^ n + x)%N.
Proof.
  intros Hx. rewrite <- N.shiftl_mul_pow2.
  assert (Hl : N.land (N.shiftl a n) x = 0%N).
  { apply N.bits_inj. intros k. rewrite N.land_spec, N.bits_0.
    destruct (N.lt_ge_cases k n) as [Hk|Hk].
    - by rewrite N.shiftl_spec_low.
    - destruct (N.eq_dec x 0) as [->|Hx0]; [by rewrite N.bits_0, andb_false_r|].
      rewrite (N.bits_above_log2 x k), andb_false_r; [done|].
      apply N.log2_lt_pow2 in Hx; lia. }
  by rewrite N.add_nocarry_lxor, N.lxor_lor.
Qed.

Lemma lor_const a n x c : c = (a * 2 ^ n)%N -> (x < 2 ^ n)%N -> N.lor x c = (c + x)%N.
Proof. intros -> Hx. rewrite N.lor_comm. by apply lor_disjoint. Qed.

Lemma land_mask m n x : m = N.ones n -> N.land x m = (x mod 2 ^ n)%N.
Proof. intros ->. apply N.land_ones. Qed.

Lemma continuation_arith c n : continuation c n = (128 + (c / 2 ^ n) mod 64)%N.
Proof.
  unfold continuation. rewrite N.shiftr_div_pow2, (land_mask _ 6) by done.
  change (2 ^ 6)%N with 64%N. rewrite (lor_const 2 6 _ 0x80); [done|done|].
  apply N.mod_lt. lia.
Qed.

Lemma acc_cont_byte_arith ch byte : acc_cont_byte ch byte = (ch * 64 + byte mod 64)%N.
Proof.
  unfold acc_cont_byte. rewrite N.shiftl_mul_pow2, (land_mask _ 6) by done.
  apply lor_disjoint. apply N.mod_lt. lia.
Qed.

(** The lead byte of a multi-byte encoding: [tag] above [n] bits of [c >> k]. *)
Lemma lead_arith c k n m tag a :
  m = N.ones n -> tag = (a * 2 ^ n)%N ->
  N.lor (N.land (N.shiftr c k) m) tag = (tag + (c / 2 ^ k) mod 2 ^ n)%N.
Proof.
  intros Hm Ht. rewrite N.shiftr_div_pow2, (land_mask _ n) by done.
  apply (lor_const a n); [done|]. apply N.mod_lt. apply N.pow_nonzero. lia.
Qed.

(** ** Decoding what was encoded *)

(** Linear arithmetic with quotients and remainders by constants. *)
Ltac div_lia := zify; Z.to_euclidean_division_equations; lia.

Ltac utf8_pows :=
  change (2 ^ 0)%N with 1%N; change (2 ^ 3)%N with 8%N; change (2 ^ 4)%N with 16%N;
  change (2 ^ 5)%N with 32%N; change (2 ^ 6)%N with 64%N; change (2 ^ 12)%N with 4096%N;
  change (2 ^ 18)%N with 262144%N.

Lemma encode_utf8_1 c : (c < 128)%N -> encode_utf8 c = [c].
Proof. intros H. unfold encode_utf8, len_utf8. by rewrite (proj2 (N.ltb_lt _ _) H). Qed.

Ltac utf8_arith :=
  rewrite ?(lead_arith _ 6 5 _ _ 6), ?(lead_arith _ 12 4 _ _ 14), ?(lead_arith _ 18 3 _ _ 30),
    ?continuation_arith by done.

(** The bytes of a character past ASCII are not ASCII. *)
Lemma encode_utf8_high c x : is_char c = true -> (128 <= c)%N -> x ∈ encode_utf8 c -> (128 <= x)%N.
Proof.
  intros Hc H. unfold encode_utf8, len_utf8.
  rewrite (proj2 (N.ltb_ge _ _) H).
  destruct (c <? 0x800)%N; [|destruct (c <? 0x10000)%N]; utf8_arith;
    rewrite !elem_of_cons, elem_of_nil; intros Hx;
    repeat (destruct Hx as [->|Hx]; [match goal with |- (_ <= _ + ?y)%N => generalize y; lia end|]);
    done.
Qed.

Lemma length_encode_utf8 c : length (encode_utf8 c) = len_utf8 c.
Proof.
  unfold encode_utf8, len_utf8. by destruct (c <? 0x80)%N, (c <? 0x800)%N, (c <? 0x10000)%N.
Qed.

Lemma len_utf8_pos c : 0 < len_utf8 c.
Proof.
  unfold len_utf8. destruct (c <? 0x80)%N, (c <? 0x800)%N, (c <? 0x10000)%N; lia.
Qed.

Lemma is_char_bound c : is_char c = true -> (c < 0x110000)%N.
Proof. unfold is_char. rewrite orb_true_iff, andb_true_iff, !N.ltb_lt, N.leb_le. lia. Qed.

Lemma next_code_point_2 u y b :
  (u < 32)%N -> next_code_point ((192 + u)%N :: y :: b) = Some ((u * 64 + y mod 64)%N, b).
Proof.
  intros Hu. cbn [next_code_point].
  rewrite (proj2 (N.ltb_ge _ _)), (proj2 (N.ltb_lt _ _)) by lia.
  rewrite acc_cont_byte_arith, (land_mask 31 5) by done. do 3 f_equal.
  utf8_pows. div_lia.
Qed.

Lemma next_code_point_3 u y z b :
  (u < 16)%N ->
  next_code_point ((224 + u)%N :: y :: z :: b)
    = Some ((u * 4096 + ((y mod 64) * 64 + z mod 64))%N, b).
Proof.
  intros Hu. cbn [next_code_point].
  rewrite (proj2 (N.ltb_ge _ 128)), (proj2 (N.ltb_ge _ 224)), (proj2 (N.ltb_lt _ _)) by lia.
  rewrite acc_cont_byte_arith, !(land_mask 31 5), !(land_mask 63 6) by done. do 2 f_equal.
  rewrite N.shiftl_mul_pow2, lor_disjoint; utf8_pows; div_lia.
Qed.

Lemma next_code_point_4 u y z w b :
  (u < 8)%N ->
  next_code_point ((240 + u)%N :: y :: z :: w :: b)
    = Some ((u * 262144 + (((y mod 64) * 64 + z mod 64) * 64 + w mod 64))%N, b).
Proof.
  intros Hu. cbn [next_code_point].
  rewrite (proj2 (N.ltb_ge _ 128)), (proj2 (N.ltb_ge _ 224)), (proj2 (N.ltb_ge _ _)) by lia.
  rewrite !acc_cont_byte_arith, !(land_mask 31 5), !(land_mask 63 6), !(land_mask 7 3) by done.
  do 2 f_equal.
  rewrite N.shiftl_mul_pow2, lor_disjoint; utf8_pows; div_lia.
Qed.

Lemma next_code_point_encode c b :
  is_char c = true -> next_code_point (encode_utf8 c ++ b) = Some (c, b).
Proof.
  intros Hc%is_char_bound. unfold encode_utf8, len_utf8.
  destruct (c <? 0x80)%N eqn:H1; [cbn; by rewrite H1|]. apply N.ltb_ge in H1.
  destruct (c <? 0x800)%N eqn:H2;
    [apply N.ltb_lt in H2|apply N.ltb_ge in H2; destruct (c <? 0x10000)%N eqn:H3;
      [apply N.ltb_lt in H3|apply N.ltb_ge in H3]]; utf8_arith; utf8_pows; cbn [app];
    rewrite ?next_code_point_2, ?next_code_point_3, ?next_code_point_4
      by (apply N.mod_lt; discriminate); do 2 f_equal; div_lia.
Qed.

Lemma utf8_app s t : utf8 (s ++ t) = utf8 s ++ utf8 t.
Proof. unfold utf8. by rewrite map_app, concat_app. Qed.

Lemma utf8_cons c s : utf8 (c :: s) = encode_utf8 c ++ utf8 s.
Proof. done. Qed.

Lemma chars_fuel_utf8 fuel s :
  is_chars s -> length (utf8 s) <= fuel -> chars_fuel fuel (utf8 s) = s.
Proof.
  intros Hs. revert fuel. induction Hs as [|c s Hc Hs IH]; intros fuel Hf; [by destruct fuel|].
  rewrite utf8_cons, length_app, length_encode_utf8 in Hf. pose proof (len_utf8_pos c).
  destruct fuel as [|fuel]; [lia|]. cbn [chars_fuel].
  rewrite utf8_cons, next_code_point_encode by done. f_equal. apply IH. lia.
Qed.

Lemma chars_utf8 s : is_chars s -> chars (utf8 s) = s.
Proof. intros Hs. by apply chars_fuel_utf8. Qed.

Lemma is_chars_app s t : is_chars (s ++ t) <-> is_chars s /\ is_chars t.
Proof. apply Forall_app. Qed.

(** ** Slicing at character boundaries *)

Lemma encode_utf8_head c :
  exists x b, encode_utf8 c = x :: b /\ ((x <? 128)%N || (192 <=? x)%N) = true.
Proof.
  unfold encode_utf8, len_utf8.
  destruct (c <? 0x80)%N eqn:H1; [eexists _, _; split; [done|by rewrite H1]|].
  destruct (c <? 0x800)%N; [|destruct (c <? 0x10000)%N]; utf8_arith; eexists _, _; (split; [done|]);
    apply orb_true_iff; right; apply N.leb_le;
    match goal with |- (_ <= _ + ?y)%N => generalize y; lia end.
Qed.

Lemma boundary_utf8 s t : is_char_boundary (utf8 (s ++ t)) (length (utf8 s)) = true.
Proof.
  unfold is_char_boundary. rewrite utf8_app.
  destruct (length (utf8 s)) as [|n] eqn:Hn; [done|]. rewrite <- Hn.
  rewrite lookup_app_r, Nat.sub_diag by lia. destruct t as [|c t].
  - cbn. rewrite app_nil_r. apply Nat.eqb_refl.
  - destruct (encode_utf8_head c) as (x & b & E & Hx). rewrite utf8_cons, E. exact Hx.
Qed.

(** A slice between two character boundaries is the encoding of the characters between them. *)
Lemma str_slice_utf8 a b c :
  str_slice (utf8 (a ++ b ++ c)) (length (utf8 a)) (length (utf8 (a ++ b))) = Ok (utf8 b).
Proof.
  unfold str_slice. rewrite boundary_utf8.
  rewrite (app_assoc a b c), boundary_utf8, <- app_assoc.
  assert (Hle : length (utf8 a) <= length (utf8 (a ++ b))) by (rewrite utf8_app, length_app; lia).
  rewrite (proj2 (Nat.leb_le _ _) Hle). cbn. f_equal.
  rewrite !utf8_app, length_app, drop_app_length.
  replace (length (utf8 a) + length (utf8 b) - length (utf8 a)) with (length (utf8 b)) by lia.
  apply take_app_length.
Qed.

#[export] Hint Rewrite utf8_app is_chars_app : utf8.
