(* ===== verification/StripComments.v ===== *)
(** * Comment stripping and string blanking
      (crates/codegraph-resolve/src/strip_comments.rs)

    Scanners that replace comments, or the contents of string literals, by
    spaces. Python, Ruby, PHP, Go and Rust read a vector of characters and
    blank ranges of a copy; the C family and [blank_string_contents] read the
    bytes of the text and build the output. A position [i] is the rest of the
    text from it; an inner [while] loop is a function giving how far it moves.
    The scanners work on numbers, so they read characters and bytes alike. *)
From S2P Require Import Prelude Utf8.

Notation NL := 10%N (only parsing).
Notation TAB := 9%N (only parsing).
Notation SP := 32%N (only parsing).
Notation DQ := 34%N (only parsing).
Notation HASH := 35%N (only parsing).
Notation SQ := 39%N (only parsing).
Notation STAR := 42%N (only parsing).
Notation FSLASH := 47%N (only parsing).
Notation EQUALS := 61%N (only parsing).
Notation BSLASH := 92%N (only parsing).
Notation BACKTICK := 96%N (only parsing).

(** [CommentLang]. *)
Inductive CommentLang :=
| ClPython | ClJavaScript | ClTypeScript | ClPhp | ClRuby | ClJava | ClCSharp | ClSwift | ClGo
| ClRust | ClCpp.

(** ** The inner loops *)

(** [while i < n && src[i] != '\n' { i += 1 }]. *)
Fixpoint line_len (l : list N) : nat :=
  match l with
  | [] => 0
  | c :: l => if (c =? NL)%N then 0 else S (line_len l)
  end.

(** [while j < n && (src[j] == ' ' || src[j] == '\t') { j += 1 }]. *)
Fixpoint space_len (l : list N) : nat :=
  match l with
  | [] => 0
  | c :: l => if (c =? SP)%N || (c =? TAB)%N then S (space_len l) else 0
  end.

(** [while i < n && !(src[i] == '*' && src.get(i + 1) == Some('/')) { i += 1 }]. *)
Fixpoint block_len (l : list N) : nat :=
  match l with
  | [] => 0
  | c :: l => if (c =? STAR)%N && bool_decide (head l = Some FSLASH) then 0 else S (block_len l)
  end.

(** [while i < n && src[i] != quote { .. }] of a literal: escapes are
    skipped, and a literal that is not [multi_line] stops at a line end. *)
Fixpoint string_len (quote : N) (multi_line : bool) (l : list N) : nat :=
  match l with
  | [] => 0
  | c :: l1 =>
      if (c =? quote)%N then 0 else
      match l1 with
      | _ :: l2 =>
          if (c =? BSLASH)%N then 2 + string_len quote multi_line l2
          else if negb multi_line && (c =? NL)%N then 0
          else S (string_len quote multi_line l1)
      | [] => if negb multi_line && (c =? NL)%N then 0 else 1
      end
  end.

(** [while i < n && src[i] != '`' { i += 1 }]. *)
Fixpoint raw_len (l : list N) : nat :=
  match l with
  | [] => 0
  | c :: l => if (c =? BACKTICK)%N then 0 else S (raw_len l)
  end.

(** The loop of a triple-quoted literal, its closing quotes included. *)
Fixpoint triple_len (quote : N) (l : list N) : nat :=
  match l with
  | [] => 0
  | c :: l1 =>
      match l1 with
      | _ :: l2 =>
          if (c =? BSLASH)%N then 2 + triple_len quote l2
          else if (c =? quote)%N && bool_decide (take 2 l1 = [quote; quote]) then 3
          else S (triple_len quote l1)
      | [] => 1
      end
  end.

(** [starts_with(chars, i, needle)]. *)
Definition starts_with_at (l needle : list N) : bool :=
  bool_decide (take (length needle) l = needle).

(** The loop of a Ruby [=begin] block, to the end of the [=end] line. *)
Fixpoint begin_len (l : list N) : nat :=
  match l with
  | [] => 0
  | c :: l =>
      let j := space_len l in
      if (c =? NL)%N && starts_with_at (drop j l) (lit "=end")
      then 1 + (j + 4 + line_len (drop (j + 4) l))
      else S (begin_len l)
  end.

(** The loop of a Rust block comment, with the nesting depth. *)
Fixpoint nested_len (depth : nat) (l : list N) : nat :=
  match depth, l with
  | 0, _ | _, [] => 0
  | S depth', c :: l1 =>
      match l1 with
      | c2 :: l2 =>
          if (c =? FSLASH)%N && (c2 =? STAR)%N then 2 + nested_len (S depth) l2
          else if (c =? STAR)%N && (c2 =? FSLASH)%N then 2 + nested_len depth' l2
          else S (nested_len depth l1)
      | [] => 1
      end
  end.

(** ** Tokens

    What one round of the outer loop does with the text at its position:
    blank the next [k] characters, or step over them. *)
Inductive token := Blanked (k : nat) | Kept (k : nat).

(** [i += 2; while .. { i += 1 } if i < n { i += 2 }] of a block comment at [l]. *)
Definition block_comment_len (l : list N) : nat :=
  let k := 2 + block_len (drop 2 l) in
  if k <? length l then k + 2 else k.

(** A quoted literal at [l] with its closing quote, when it has one. *)
Definition quoted_len (quote : N) (multi_line : bool) (l : list N) : nat :=
  let k := 1 + string_len quote multi_line (drop 1 l) in
  if bool_decide (l !! k = Some quote) then k + 1 else k.

(** The body of [strip_python]'s loop at the character [c] before [rest]. *)
Definition python_step (_ : unit) (c : N) (rest : list N) : unit * token :=
  (tt,
   if ((c =? DQ)%N || (c =? SQ)%N) && bool_decide (take 2 rest = [c; c])
   then Blanked (3 + triple_len c (drop 2 rest))
   else if (c =? DQ)%N || (c =? SQ)%N then Kept (quoted_len c false (c :: rest))
   else if (c =? HASH)%N then Blanked (line_len (c :: rest))
   else Kept 1).

(** The body of [strip_ruby]'s loop; the state is [at_line_start]. *)
Definition ruby_step (at_line_start : bool) (c : N) (rest : list N) : bool * token :=
  if at_line_start && (c =? EQUALS)%N && starts_with_at (c :: rest) (lit "=begin")
  then let k := 6 + begin_len (drop 5 rest) in
       (bool_decide (last (take k (c :: rest)) = Some NL), Blanked k)
  else if (c =? DQ)%N || (c =? SQ)%N then (false, Kept (quoted_len c false (c :: rest)))
  else if (c =? HASH)%N then (false, Blanked (line_len (c :: rest)))
  else if (c =? NL)%N then (true, Kept 1)
  else if (c =? SP)%N || (c =? TAB)%N then (at_line_start, Kept 1)
  else (false, Kept 1).

(** The body of [strip_c_style]'s loop. *)
Definition c_style_step (allow_single_quote_strings : bool) (_ : unit) (c : N) (rest : list N)
  : unit * token :=
  (tt,
   if (c =? FSLASH)%N && bool_decide (head rest = Some STAR)
   then Blanked (block_comment_len (c :: rest))
   else if (c =? FSLASH)%N && bool_decide (head rest = Some FSLASH)
   then Blanked (line_len (c :: rest))
   else if (c =? DQ)%N || (allow_single_quote_strings && (c =? SQ)%N) || (c =? BACKTICK)%N
   then Kept (quoted_len c (c =? BACKTICK)%N (c :: rest))
   else Kept 1).

(** The body of [strip_php]'s loop. *)
Definition php_step (_ : unit) (c : N) (rest : list N) : unit * token :=
  (tt,
   if (c =? FSLASH)%N && bool_decide (head rest = Some STAR)
   then Blanked (block_comment_len (c :: rest))
   else if (c =? FSLASH)%N && bool_decide (head rest = Some FSLASH)
   then Blanked (line_len (c :: rest))
   else if (c =? HASH)%N then Blanked (line_len (c :: rest))
   else if (c =? DQ)%N || (c =? SQ)%N || (c =? BACKTICK)%N
   then Kept (quoted_len c false (c :: rest))
   else Kept 1).

(** The body of [strip_go]'s loop. *)
Definition go_step (_ : unit) (c : N) (rest : list N) : unit * token :=
  (tt,
   if (c =? FSLASH)%N && bool_decide (head rest = Some STAR)
   then Blanked (block_comment_len (c :: rest))
   else if (c =? FSLASH)%N && bool_decide (head rest = Some FSLASH)
   then Blanked (line_len (c :: rest))
   else if (c =? BACKTICK)%N
   then let k := 1 + raw_len rest in
        Kept (if k <? length (c :: rest) then k + 1 else k)
   else if (c =? DQ)%N then Kept (quoted_len DQ false (c :: rest))
   else if (c =? SQ)%N then Kept (quoted_len SQ false (c :: rest))
   else Kept 1).

(** The body of [strip_rust]'s loop. *)
Definition rust_step (_ : unit) (c : N) (rest : list N) : unit * token :=
  (tt,
   if (c =? FSLASH)%N && bool_decide (head rest = Some STAR)
   then Blanked (2 + nested_len 1 (drop 1 rest))
   else if (c =? FSLASH)%N && bool_decide (head rest = Some FSLASH)
   then Blanked (line_len (c :: rest))
   else if (c =? DQ)%N then Kept (quoted_len DQ true (c :: rest))
   else if (c =? SQ)%N then Kept (quoted_len SQ false (c :: rest))
   else Kept 1).

(** ** The outer loops *)

Definition blank_char (c : N) : N := if (c =? NL)%N then NL else SP.

(** [blank_range(buf, src, start, end)]. *)
Definition blank_range (buf src : list N) (start end_ : nat) : list N :=
  imap (fun i slot =>
          if (start <=? i) && (i <? end_)
          then match src !! i with Some c => blank_char c | None => slot end
          else slot) buf.

(** [while i < n { .. }] over characters: [out] starts as a copy of [src]. *)
Fixpoint strip_loop {S} (step : S -> N -> list N -> S * token) (fuel : nat) (src : list N)
    (s : S) (out : list N) (i : nat) : result Panic (list N) :=
  match fuel with
  | 0 => OutOfFuel
  | Datatypes.S fuel =>
      match drop i src with
      | [] => Ok out
      | c :: rest =>
          let '(s, t) := step s c rest in
          match t with
          | Blanked k => strip_loop step fuel src s (blank_range out src i (i + k)) (i + k)
          | Kept k => strip_loop step fuel src s out (i + k)
          end
      end
  end.

Definition strip_chars {S} (step : S -> N -> list N -> S * token) (s : S) (src : list N)
  : result Panic (list N) :=
  strip_loop step (Datatypes.S (length src)) src s src 0.

Definition strip_text {S} (step : S -> N -> list N -> S * token) (s : S) (src : Bytes)
  : result Panic Bytes :=
  out ← strip_chars step s (chars src); Ok (utf8 out).

Definition strip_python (src : Bytes) := strip_text python_step tt src.
Definition strip_ruby (src : Bytes) := strip_text ruby_step true src.
Definition strip_php (src : Bytes) := strip_text php_step tt src.
Definition strip_go (src : Bytes) := strip_text go_step tt src.
Definition strip_rust (src : Bytes) := strip_text rust_step tt src.

(** [blank_into(out, src, copied, start, end)]: the new [out] and [copied]. *)
Definition blank_into (out src : Bytes) (copied start end_ : nat) : result Panic (Bytes * nat) :=
  before ← str_slice src copied start;
  blanked ← str_slice src start end_;
  Ok (out ++ before ++ utf8 (map blank_char (chars blanked)), end_).

Fixpoint c_style_loop (fuel : nat) (src : Bytes) (allow_single_quote_strings : bool)
    (out : Bytes) (copied i : nat) : result Panic Bytes :=
  match fuel with
  | 0 => OutOfFuel
  | S fuel =>
      match drop i src with
      | [] => tail ← str_slice src copied (length src); Ok (out ++ tail)
      | c :: rest =>
          match snd (c_style_step allow_single_quote_strings tt c rest) with
          | Blanked k =>
              '(out, copied) ← blank_into out src copied i (i + k);
              c_style_loop fuel src allow_single_quote_strings out copied (i + k)
          | Kept k => c_style_loop fuel src allow_single_quote_strings out copied (i + k)
          end
      end
  end.

Definition strip_c_style (src : Bytes) (allow_single_quote_strings : bool) : result Panic Bytes :=
  c_style_loop (S (length src)) src allow_single_quote_strings [] 0 0.

(** [strip_comments_for_regex]. *)
Definition strip_comments_for_regex (content : Bytes) (lang : CommentLang) : result Panic Bytes :=
  match lang with
  | ClPython => strip_python content
  | ClRuby => strip_ruby content
  | ClRust => strip_rust content
  | ClPhp => strip_php content
  | ClGo => strip_go content
  | ClJavaScript | ClTypeScript => strip_c_style content true
  | ClJava | ClCSharp | ClSwift | ClCpp => strip_c_style content false
  end.
