(* ===== verification/StripLaws.v ===== *)
(** * The languages' strippers meet the stripper laws

    Bounds of the inner loops, and why a token reads the same when the text
    after it has been blanked: one [StepLaws] instance per language. *)
From S2P Require Import Prelude Utf8 StripComments.

(** ** Facts on the comment strippers

    [strips] is the result of an outer loop as a relation: a text is cut into
    tokens, of which the blanked ones become spaces. The loops compute it, and
    it keeps length and line structure and is stable under running it again. *)

Inductive strips {S} (step : S -> N -> list N -> S * token) : S -> list N -> list N -> Prop :=
| strips_nil s : strips step s [] []
| strips_blank s s' c rest k out :
    step s c rest = (s', Blanked k) ->
    strips step s' (drop k (c :: rest)) out ->
    strips step s (c :: rest) (map blank_char (take k (c :: rest)) ++ out)
| strips_keep s s' c rest k out :
    step s c rest = (s', Kept k) ->
    strips step s' (drop k (c :: rest)) out ->
    strips step s (c :: rest) (take k (c :: rest) ++ out).

Definition token_len (t : token) : nat := match t with Blanked k | Kept k => k end.

(** What a blanked or kept character is: itself, or a space in place of a
    character that ends no line. *)
Definition blank_rel (c c' : N) : Prop := c' = c \/ (c' = SP /\ c <> NL).

(** A token is not empty and stays in the text; a kept one does not depend on
    what is blanked after it; the blanks of a token are kept. *)
Class StepLaws {S} (step : S -> N -> list N -> S * token) : Prop := {
  step_bounds s c rest : 1 <= token_len (snd (step s c rest)) <= length (c :: rest);
  step_kept_stable s s' c rest k out :
    step s c rest = (s', Kept k) ->
    Forall2 blank_rel (drop k (c :: rest)) out ->
    step s c (drop 1 (take k (c :: rest) ++ out)) = (s', Kept k);
  step_blanks_kept s s' c rest k out :
    step s c rest = (s', Blanked k) ->
    Forall2 blank_rel (drop k (c :: rest)) out ->
    strips step s' out out ->
    strips step s (map blank_char (take k (c :: rest)) ++ out)
                  (map blank_char (take k (c :: rest)) ++ out)
}.

(** ** The loops compute the relation *)

Lemma imap_id {A} (f : nat -> A -> A) (l : list A) :
  (forall i x, l !! i = Some x -> f i x = x) -> imap f l = l.
Proof.
  intros H. apply list_eq. intros i. rewrite list_lookup_imap.
  destruct (l !! i) eqn:E; cbn; [|done]. f_equal. auto.
Qed.

(** Blanking a range that the copy still has as in the source. *)
Lemma blank_range_app done src i k :
  length done = i -> k <= length (drop i src) ->
  blank_range (done ++ drop i src) src i (i + k)
    = done ++ map blank_char (take k (drop i src)) ++ drop (i + k) src.
Proof.
  intros Hi Hk. apply list_eq. intros j. unfold blank_range.
  rewrite list_lookup_imap.
  destruct (decide (j < i)) as [Hj|Hj].
  - rewrite !lookup_app_l by lia. rewrite (proj2 (Nat.leb_gt _ _)) by lia.
    by destruct (done !! j).
  - rewrite !(lookup_app_r done) by lia. rewrite Hi, (proj2 (Nat.leb_le _ _)) by lia. cbn [andb].
    rewrite lookup_drop. replace (i + (j - i)) with j by lia.
    destruct (decide (j < i + k)) as [Hk'|Hk'].
    + rewrite (proj2 (Nat.ltb_lt _ _)) by done.
      rewrite lookup_app_l by (rewrite length_map, length_take; lia).
      rewrite list_lookup_fmap, lookup_take_lt, lookup_drop by lia.
      replace (i + (j - i)) with j by lia. by destruct (src !! j).
    + rewrite (proj2 (Nat.ltb_ge _ _)) by lia.
      rewrite lookup_app_r by (rewrite length_map, length_take; lia).
      rewrite length_map, length_take, lookup_drop, Nat.min_l by done.
      replace (i + k + (j - i - k)) with j by lia. by destruct (src !! j).
Qed.

Section Loop.
Context {S : Type} (step : S -> N -> list N -> S * token) {Laws : StepLaws step}.

Lemma strip_loop_strips fuel src s done i :
  length done = i -> length (drop i src) < fuel ->
  exists out, strips step s (drop i src) out
    /\ strip_loop step fuel src s (done ++ drop i src) i = Ok (done ++ out).
Proof.
  revert s done i. induction fuel as [|fuel IH]; intros s done i Hi Hf; [lia|]. cbn [strip_loop].
  destruct (drop i src) as [|c rest] eqn:Hd.
  { exists []. split; [constructor|done]. }
  pose proof (step_bounds s c rest) as Hb.
  destruct (step s c rest) as [s' t] eqn:Hs. cbn [snd] in Hb.
  assert (Hdrop : forall k, drop k (c :: rest) = drop (i + k) src)
    by (intros k; rewrite <- Hd; apply drop_drop).
  assert (Hlen : forall k, 1 <= k -> length (drop (i + k) src) < fuel).
  { intros k Hk. rewrite <- Hdrop, length_drop. cbn in *. lia. }
  destruct t as [k|k]; cbn [token_len] in Hb.
  - destruct (IH s' (done ++ map blank_char (take k (c :: rest))) (i + k)) as (out & Ho & E).
    { rewrite length_app, length_map, length_take. lia. }
    { apply Hlen. lia. }
    exists (map blank_char (take k (c :: rest)) ++ out). split.
    { eapply strips_blank; [done|]. by rewrite Hdrop. }
    rewrite <- Hd, blank_range_app by (rewrite ?Hd; lia || done).
    rewrite app_assoc, Hd, E. by rewrite app_assoc.
  - destruct (IH s' (done ++ take k (c :: rest)) (i + k)) as (out & Ho & E).
    { rewrite length_app, length_take. lia. }
    { apply Hlen. lia. }
    exists (take k (c :: rest) ++ out). split.
    { eapply strips_keep; [done|]. by rewrite Hdrop. }
    rewrite <- (take_drop k (c :: rest)) at 1. rewrite Hdrop, app_assoc, E. by rewrite app_assoc.
Qed.

Lemma strip_chars_strips s src :
  exists out, strips step s src out /\ strip_chars step s src = Ok out.
Proof. apply (strip_loop_strips _ src s [] 0); [done|rewrite drop_0; lia]. Qed.

Lemma strips_deterministic s l out : strips step s l out -> forall out', strips step s l out' -> out = out'.
Proof.
  induction 1 as [s|s s' c rest k out Hs Ho IH|s s' c rest k out Hs Ho IH]; intros out' H';
    inversion H' as [|? s2 ? ? k2 out2 Hs2|? s2 ? ? k2 out2 Hs2]; subst; [done|..];
    rewrite Hs in Hs2; try done; injection Hs2 as <- <-; f_equal; auto.
Qed.

Lemma strip_chars_iff s src out : strip_chars step s src = Ok out <-> strips step s src out.
Proof.
  destruct (strip_chars_strips s src) as (out' & Ho & E). rewrite E. split.
  - by intros [= <-].
  - intros H. by rewrite (strips_deterministic _ _ _ Ho _ H).
Qed.

(** ** What stripping keeps *)

Lemma blank_char_rel c : blank_rel c (blank_char c).
Proof.
  unfold blank_rel, blank_char. destruct (N.eqb_spec c NL) as [->|]; auto.
Qed.

Lemma blank_rel_refl l : Forall2 blank_rel l l.
Proof. induction l; constructor; [by left|done]. Qed.

Lemma blanks_rel l : Forall2 blank_rel l (map blank_char l).
Proof. induction l; constructor; [apply blank_char_rel|done]. Qed.

Lemma strips_rel s l out : strips step s l out -> Forall2 blank_rel l out.
Proof.
  induction 1 as [s|s s' c rest k out Hs Ho IH|s s' c rest k out Hs Ho IH]; [constructor|..];
    rewrite <- (take_drop k (c :: rest)) at 1; apply Forall2_app; auto using blanks_rel, blank_rel_refl.
Qed.

Lemma strips_idempotent s l out : strips step s l out -> strips step s out out.
Proof.
  induction 1 as [s|s s' c rest k out Hs Ho IH|s s' c rest k out Hs Ho IH]; [constructor|..].
  - eapply step_blanks_kept; eauto using strips_rel.
  - pose proof (step_kept_stable _ _ _ _ _ _ Hs (strips_rel _ _ _ Ho)) as Hs'.
    pose proof (step_bounds s c rest) as Hb. rewrite Hs in Hb. cbn [snd token_len] in Hb.
    destruct k as [|k]; [lia|]. cbn [take app drop] in *.
    assert (Hk : length (take k rest) = k) by (rewrite length_take; cbn in Hb; lia).
    rewrite drop_0 in Hs'.
    pose proof (strips_keep step s s' c (take k rest ++ out) (Datatypes.S k) out Hs') as Hkeep.
    cbn [take drop app] in Hkeep.
    rewrite take_app_length', drop_app_length' in Hkeep by done. auto.
Qed.

End Loop.

Lemma list_two_ind {A} (P : list A -> Prop) :
  P [] -> (forall c, P [c]) -> (forall c d l, P l -> P (d :: l) -> P (c :: d :: l)) ->
  forall l, P l.
Proof.
  intros H0 H1 H2 l. enough (P l /\ forall c, P (c :: l)) by naive_solver.
  induction l as [|d l [IH1 IH2]]; auto.
Qed.

(** ** The loops that look two characters ahead *)

Lemma string_len_cons q ml c d l :
  string_len q ml (c :: d :: l) =
    (if (c =? q)%N then 0
     else if (c =? BSLASH)%N then 2 + string_len q ml l
     else if negb ml && (c =? NL)%N then 0
     else S (string_len q ml (d :: l))).
Proof. done. Qed.

Lemma string_len_one q ml c :
  string_len q ml [c] =
    (if (c =? q)%N then 0 else if negb ml && (c =? NL)%N then 0 else 1).
Proof. done. Qed.

Lemma triple_len_cons q c d l :
  triple_len q (c :: d :: l) =
    (if (c =? BSLASH)%N then 2 + triple_len q l
     else if (c =? q)%N && bool_decide (take 2 (d :: l) = [q; q]) then 3
     else S (triple_len q (d :: l))).
Proof. done. Qed.

Lemma nested_len_cons depth c d l :
  nested_len (S depth) (c :: d :: l) =
    (if (c =? FSLASH)%N && (d =? STAR)%N then 2 + nested_len (S (S depth)) l
     else if (c =? STAR)%N && (d =? FSLASH)%N then 2 + nested_len depth l
     else S (nested_len (S depth) (d :: l))).
Proof. done. Qed.

(** ** Bounds of the inner loops *)

Lemma line_len_le l : line_len l <= length l.
Proof. induction l as [|c l IH]; cbn; [lia|]. destruct (c =? NL)%N; lia. Qed.

Lemma line_len_stop l : head (drop (line_len l) l) ∈ [None; Some NL].
Proof.
  induction l as [|c l IH]; cbn; [set_solver|].
  destruct (N.eqb_spec c NL) as [->|]; cbn; [set_solver|done].
Qed.

Lemma block_len_le l : block_len l <= length l.
Proof. induction l as [|c l IH]; cbn; [lia|]. case_match; lia. Qed.

Lemma block_len_found l : block_len l < length l -> block_len l + 2 <= length l.
Proof.
  induction l as [|c l IH]; cbn; [lia|].
  destruct (_ && _) eqn:E; [|lia]. apply andb_true_iff in E as [_ E%bool_decide_eq_true].
  destruct l; cbn in *; [done|lia].
Qed.

Lemma string_len_le q ml l : string_len q ml l <= length l.
Proof.
  induction l as [|c|c d l IH1 IH2] using list_two_ind;
    [cbn; lia|cbn; repeat case_match; lia|].
  rewrite string_len_cons. repeat case_match; cbn [length] in *; lia.
Qed.

Lemma raw_len_le l : raw_len l <= length l.
Proof. induction l as [|c l IH]; cbn; [lia|]. case_match; lia. Qed.

Lemma triple_len_le q l : triple_len q l <= length l.
Proof.
  induction l as [|c|c d l IH1 IH2] using list_two_ind; [cbn; lia..|].
  rewrite triple_len_cons. cbn [length] in *. destruct (c =? BSLASH)%N; [lia|]. destruct (_ && _) eqn:E; [|lia].
  apply andb_true_iff in E as [_ E%bool_decide_eq_true].
  destruct l; cbn [length take] in *; [done|lia].
Qed.

Lemma nested_len_le depth l : nested_len depth l <= length l.
Proof.
  revert depth. induction l as [|c|c d l IH1 IH2] using list_two_ind; intros [|depth];
    [cbn; lia..|]. rewrite nested_len_cons.
  pose proof (IH1 (S (S depth))). pose proof (IH1 depth). pose proof (IH2 (S depth)).
  repeat case_match; cbn [length] in *; lia.
Qed.

Lemma starts_with_at_length l needle : starts_with_at l needle = true -> length needle <= length l.
Proof.
  intros E%bool_decide_eq_true. apply (f_equal length) in E. rewrite length_take in E. lia.
Qed.

Lemma space_len_le l : space_len l <= length l.
Proof. induction l as [|c l IH]; cbn; [lia|]. case_match; lia. Qed.

Lemma begin_len_le l : begin_len l <= length l.
Proof.
  induction l as [|c l IH]; cbn [begin_len length]; [lia|].
  destruct (_ && _) eqn:E; [|lia]. apply andb_true_iff in E as [_ E].
  apply starts_with_at_length in E. change (length (lit "=end")) with 4 in E.
  pose proof (line_len_le (drop (space_len l + 4) l)). rewrite length_drop in *. lia.
Qed.

Lemma begin_len_stop l : head (drop (begin_len l) l) ∈ [None; Some NL].
Proof.
  induction l as [|c l IH]; cbn [begin_len]; [set_solver|].
  destruct (_ && _); [|done].
  cbn [Nat.add drop]. rewrite <- drop_drop. apply line_len_stop.
Qed.

Lemma block_comment_len_le c d l :
  2 <= block_comment_len (c :: d :: l) <= length (c :: d :: l).
Proof.
  unfold block_comment_len. cbn [drop]. rewrite ?drop_0.
  pose proof (block_len_le l). pose proof (block_len_found l).
  destruct (Nat.ltb_spec (2 + block_len l) (length (c :: d :: l))); cbn [length] in *; lia.
Qed.

Lemma quoted_len_le q ml c rest : 1 <= quoted_len q ml (c :: rest) <= length (c :: rest).
Proof.
  unfold quoted_len. cbn [drop]. rewrite ?drop_0. pose proof (string_len_le q ml rest).
  case_bool_decide as E; [|cbn [length]; lia].
  apply lookup_lt_Some in E. cbn [length] in *. lia.
Qed.

Lemma line_len_pos c l : c <> NL -> 1 <= line_len (c :: l).
Proof. intros Hc. cbn. rewrite (proj2 (N.eqb_neq _ _) Hc). lia. Qed.

(** ** Reading a token before blanked text *)

Lemma blank_rel_take n l l' needle :
  Forall2 blank_rel l l' -> SP ∉ needle -> take n l' = needle -> take n l = needle.
Proof.
  intros Hl. revert n needle. induction Hl as [|c c' l l' Hc Hl IH]; intros [|n] needle Hsp E;
    cbn in *; try done.
  subst needle. destruct Hc as [->|[-> _]]; [|set_solver]. f_equal. apply IH; set_solver.
Qed.

Lemma blank_rel_head x l l' :
  Forall2 blank_rel l l' -> x <> SP -> head l' = Some x -> head l = Some x.
Proof. intros [|c c' ? ? [->|[-> _]]]; cbn; intros ?; congruence. Qed.

Lemma blank_rel_head_NL l l' : Forall2 blank_rel l l' -> head l ∈ [None; Some NL] -> head l' ∈ [None; Some NL].
Proof. intros [|c c' ? ? [->|[-> Hc]]]; cbn; [done|done|]. set_solver. Qed.

Lemma next_stable (b : bool) x l l' :
  Forall2 blank_rel l l' -> x <> SP ->
  b && bool_decide (head l = Some x) = false -> b && bool_decide (head l' = Some x) = false.
Proof.
  intros Hl Hx. rewrite !andb_false_iff, !bool_decide_eq_false.
  intros [?|H]; [by left|right]. contradict H. eauto using blank_rel_head.
Qed.

Lemma take_stable (b : bool) n needle l l' :
  Forall2 blank_rel l l' -> (b = true -> SP ∉ needle) ->
  b && bool_decide (take n l = needle) = false -> b && bool_decide (take n l' = needle) = false.
Proof.
  intros Hl Hx. rewrite !andb_false_iff, !bool_decide_eq_false.
  intros [?|H]; [by left|]. destruct b; [right|by left].
  contradict H. eauto using blank_rel_take.
Qed.

(** The text after the first character of a kept token. *)
Lemma kept_rest k c rest out :
  1 <= k <= length (c :: rest) -> Forall2 blank_rel (drop k (c :: rest)) out ->
  Forall2 blank_rel rest (drop 1 (take k (c :: rest) ++ out)).
Proof.
  intros Hk Ho. destruct k as [|k]; [lia|]. cbn [take drop app] in *. rewrite drop_0.
  rewrite <- (take_drop k rest) at 1. apply Forall2_app; [apply blank_rel_refl|done].
Qed.

Lemma string_len_stable q ml l out :
  Forall2 blank_rel (drop (string_len q ml l) l) out ->
  (head (drop (string_len q ml l) l) = Some q -> head out = Some q) ->
  string_len q ml (take (string_len q ml l) l ++ out) = string_len q ml l.
Proof.
  revert out. induction l as [|c|c d l IH1 IH2] using list_two_ind; intros out.
  - cbn. intros Ho%Forall2_nil_inv_l _. by subst.
  - rewrite string_len_one. destruct (N.eqb_spec c q) as [->|Hq].
    { cbn. intros Ho Hh. destruct out as [|c' out]; [done|].
      injection (Hh eq_refl) as ->. cbn. by rewrite N.eqb_refl. }
    destruct (negb ml && (c =? NL)%N) eqn:Hnl.
    { cbn [take drop app]. intros Ho _. apply Forall2_cons_inv_l in Ho as (c' & out' & Hc & Ho & ->).
      apply andb_true_iff in Hnl as [Hml ->%N.eqb_eq].
      destruct Hc as [->|[_ ?]]; [|done]. apply Forall2_nil_inv_l in Ho as ->.
      cbn [take app]. rewrite string_len_one. by rewrite (proj2 (N.eqb_neq _ _) Hq), Hml. }
    cbn [take drop app]. intros Ho%Forall2_nil_inv_l _. subst. rewrite string_len_one.
    by rewrite (proj2 (N.eqb_neq _ _) Hq), Hnl.
  - rewrite string_len_cons. intros Ho Hh. destruct (N.eqb_spec c q) as [->|Hq].
    { cbn in *. destruct out as [|c' out]; [done|].
      injection (Hh eq_refl) as ->. cbn. by rewrite N.eqb_refl. }
    destruct (N.eqb_spec c BSLASH) as [->|Hb].
    { cbn [Nat.add take drop app] in *. rewrite string_len_cons.
      rewrite (proj2 (N.eqb_neq _ _) Hq), N.eqb_refl, IH1; [done|exact Ho|exact Hh]. }
    destruct (negb ml && (c =? NL)%N) eqn:Hnl.
    { cbn [take drop app] in *. apply Forall2_cons_inv_l in Ho as (c' & out' & Hc & Ho & ->).
      apply andb_true_iff in Hnl as [Hml ->%N.eqb_eq].
      destruct Hc as [->|[_ ?]]; [|done].
      apply Forall2_cons_inv_l in Ho as (d' & out'' & _ & _ & ->). cbn [take app]. rewrite string_len_cons.
      by rewrite (proj2 (N.eqb_neq _ _) Hq), (proj2 (N.eqb_neq _ _) Hb), Hml. }
    cbn [take drop app] in *.
    assert (Hne : exists e m, take (string_len q ml (d :: l)) (d :: l) ++ out = e :: m).
    { destruct (string_len q ml (d :: l)); cbn in *; [|eauto].
      apply Forall2_cons_inv_l in Ho as (? & ? & _ & _ & ->). eauto. }
    specialize (IH2 out Ho Hh). destruct Hne as (e & m & E). rewrite E in *.
    rewrite string_len_cons.
    rewrite (proj2 (N.eqb_neq _ _) Hq), (proj2 (N.eqb_neq _ _) Hb), Hnl. f_equal. exact IH2.
Qed.

Lemma head_drop {A} k (l : list A) : head (drop k l) = l !! k.
Proof. by rewrite head_lookup, lookup_drop, Nat.add_0_r. Qed.

Lemma quoted_len_cons q ml c r :
  quoted_len q ml (c :: r) =
    if bool_decide (r !! string_len q ml r = Some q)
    then S (S (string_len q ml r)) else S (string_len q ml r).
Proof.
  unfold quoted_len. cbn [drop]. rewrite ?drop_0.
  change ((c :: r) !! (1 + string_len q ml r)) with (r !! string_len q ml r).
  case_bool_decide; cbn; lia.
Qed.

(** A quoted literal reads the same before blanked text. *)
Lemma quoted_len_stable q ml c rest out :
  q <> SP ->
  Forall2 blank_rel (drop (quoted_len q ml (c :: rest)) (c :: rest)) out ->
  quoted_len q ml (c :: drop 1 (take (quoted_len q ml (c :: rest)) (c :: rest) ++ out))
    = quoted_len q ml (c :: rest).
Proof.
  intros Hq. pose proof (string_len_le q ml rest) as Hm.
  rewrite (quoted_len_cons q ml c rest). remember (string_len q ml rest) as m eqn:Em.
  assert (Htake : length (take m rest) = m) by (rewrite length_take; lia).
  case_bool_decide as E; intros Ho; cbn [take drop app] in *; rewrite drop_0.
  - rewrite (take_S_r _ _ _ E), <- app_assoc. cbn [app].
    assert (Hs : string_len q ml (take m rest ++ q :: out) = m).
    { rewrite Em. apply string_len_stable; rewrite <- Em, (drop_S _ _ _ E); [|done].
      constructor; [by left|done]. }
    rewrite quoted_len_cons, Hs, lookup_app_r, Htake, Nat.sub_diag by lia.
    by rewrite bool_decide_true.
  - assert (Hs : string_len q ml (take m rest ++ out) = m).
    { rewrite Em. apply string_len_stable; rewrite <- Em; [done|].
      rewrite head_drop. done. }
    rewrite quoted_len_cons, Hs, lookup_app_r, Htake, Nat.sub_diag, <- head_lookup by lia.
    rewrite bool_decide_false; [done|]. contradict E.
    rewrite <- head_drop. eauto using blank_rel_head.
Qed.

Lemma raw_len_stable l out :
  Forall2 blank_rel (drop (raw_len l) l) out ->
  (head (drop (raw_len l) l) = Some BACKTICK -> head out = Some BACKTICK) ->
  raw_len (take (raw_len l) l ++ out) = raw_len l.
Proof.
  induction l as [|c l IH]; cbn [raw_len].
  - intros Ho%Forall2_nil_inv_l _. by subst.
  - destruct (N.eqb_spec c BACKTICK) as [->|Hc]; cbn [take drop app]; intros Ho Hh.
    + destruct out as [|c' out]; [done|]. injection (Hh eq_refl) as ->. done.
    + cbn [raw_len]. rewrite (proj2 (N.eqb_neq _ _) Hc). f_equal. auto.
Qed.

(** A raw literal of [go_step] with its closing quote, when it has one. *)
Definition raw_quoted_len (c : N) (rest : list N) : nat :=
  let k := 1 + raw_len rest in if k <? length (c :: rest) then k + 1 else k.

Lemma raw_quoted_len_le c rest : 1 <= raw_quoted_len c rest <= length (c :: rest).
Proof.
  unfold raw_quoted_len. pose proof (raw_len_le rest).
  destruct (Nat.ltb_spec (1 + raw_len rest) (length (c :: rest))); cbn [length] in *; lia.
Qed.

Lemma raw_len_stop l : raw_len l < length l -> l !! raw_len l = Some BACKTICK.
Proof.
  induction l as [|c l IH]; cbn [raw_len length]; [lia|].
  destruct (N.eqb_spec c BACKTICK) as [->|]; [done|]. intros. cbn. apply IH. lia.
Qed.

Lemma raw_quoted_len_stable c rest out :
  Forall2 blank_rel (drop (raw_quoted_len c rest) (c :: rest)) out ->
  raw_quoted_len c (drop 1 (take (raw_quoted_len c rest) (c :: rest) ++ out))
    = raw_quoted_len c rest.
Proof.
  intros Ho. pose proof (kept_rest _ _ _ _ (raw_quoted_len_le c rest) Ho) as Hr%Forall2_length.
  revert Ho Hr. set (r' := drop 1 _). intros Ho Hr.
  enough (E : raw_len r' = raw_len rest)
    by (unfold raw_quoted_len; cbn [length]; by rewrite E, Hr).
  subst r'. clear Hr. revert Ho. unfold raw_quoted_len.
  pose proof (raw_len_le rest). pose proof (raw_len_stop rest) as Hstop.
  destruct (Nat.ltb_spec (1 + raw_len rest) (length (c :: rest))) as [Hlt|Hge];
    cbn [length] in *.
  - replace (1 + raw_len rest + 1) with (S (S (raw_len rest))) by lia.
    cbn [take drop app]. rewrite drop_0. intros Ho. specialize (Hstop ltac:(lia)).
    rewrite (take_S_r _ _ _ Hstop), <- app_assoc. apply raw_len_stable;
      rewrite (drop_S _ _ _ Hstop); [|done]. constructor; [by left|done].
  - cbn [Nat.add take drop app]. rewrite drop_0. intros Ho. apply raw_len_stable; [done|].
    rewrite drop_ge by lia. done.
Qed.

(** ** The instances *)

(** Blanks are kept by a stripper without state that keeps each of them. *)
Lemma unit_blanks_kept (step : unit -> N -> list N -> unit * token) l out :
  (forall c r, c = SP \/ c = NL -> step tt c r = (tt, Kept 1)) ->
  strips step tt out out ->
  strips step tt (map blank_char l ++ out) (map blank_char l ++ out).
Proof.
  intros Hb Ho. induction l as [|c l IH]; [done|]. cbn [map app].
  apply (strips_keep step tt tt (blank_char c) (map blank_char l ++ out) 1); [|done].
  apply Hb. unfold blank_char. destruct (c =? NL)%N; auto.
Qed.

(** The tests of a step that failed fail on the blanked rest too. *)
Ltac strip_tests Hrest :=
  repeat match goal with
    | H : ?b && bool_decide (head _ = Some ?x) = false |- _ =>
        rewrite (next_stable b x _ _ Hrest ltac:(discriminate) H); clear H
    end.

Ltac strip_bounds :=
  cbn [snd token_len]; repeat case_match; cbn [snd token_len];
  repeat match goal with
    | H : _ && _ = true |- _ => apply andb_true_iff in H as [? ?]
    | H : bool_decide _ = true |- _ => apply bool_decide_eq_true in H
    | H : (_ =? _)%N = true |- _ => apply N.eqb_eq in H; subst
    end.

Lemma line_len_bounds c rest : c <> NL -> 1 <= line_len (c :: rest) <= length (c :: rest).
Proof. split; [by apply line_len_pos|apply line_len_le]. Qed.

Lemma block_comment_bounds c rest x :
  head rest = Some x -> 1 <= block_comment_len (c :: rest) <= length (c :: rest).
Proof. destruct rest as [|d l]; [done|]. pose proof (block_comment_len_le c d l). lia. Qed.

Lemma nested_bounds c rest x :
  head rest = Some x -> 1 <= 2 + nested_len 1 (drop 1 rest) <= length (c :: rest).
Proof.
  destruct rest as [|d l]; [done|]. cbn [drop]. rewrite ?drop_0.
  pose proof (nested_len_le 1 l). cbn [length]. lia.
Qed.

Lemma triple_bounds c rest x :
  take 2 rest = [x; x] -> 1 <= 3 + triple_len c (drop 2 rest) <= length (c :: rest).
Proof.
  destruct rest as [|d [|e l]]; try done. cbn [drop]. rewrite ?drop_0.
  pose proof (triple_len_le c l). cbn [length]. lia.
Qed.

Lemma one_bounds (c : N) rest : 1 <= 1 <= length (c :: rest).
Proof. cbn. lia. Qed.

#[local] Hint Resolve block_comment_bounds quoted_len_le raw_quoted_len_le nested_bounds
  triple_bounds one_bounds line_len_bounds : strip.
#[local] Hint Extern 1 (_ <> _) => discriminate : strip.

(** A kept token of a stateless step: the tests on the blanked rest come out
    the same, and a literal has the same length. *)
Ltac strip_kept Hb step :=
  let Hk := fresh "Hk" in let Hs := fresh "Hs" in let Ho := fresh "Ho" in
  let Hrest := fresh "Hrest" in
  intros [] [] c rest k out Hs Ho; pose proof (Hb tt c rest) as Hk; rewrite Hs in Hk;
  cbn [snd token_len] in Hk; pose proof (kept_rest _ _ _ _ Hk Ho) as Hrest;
  unfold step in Hs |- *; injection Hs as Hs; f_equal;
  repeat match type of Hs with
    | (if ?b then Blanked _ else _) = _ => let E := fresh "E" in destruct b eqn:E; [done|]
    end;
  strip_tests Hrest;
  repeat match type of Hs with
    | (if ?b then _ else _) = _ => let E := fresh "E" in destruct b eqn:E
    end; injection Hs as <-; try done; f_equal;
  (apply raw_quoted_len_stable || (apply quoted_len_stable;
    [let H := fresh in intros H; (discriminate H || subst c)|])); try done.

#[export] Instance c_style_laws allow : StepLaws (c_style_step allow).
Proof.
  assert (Hb : forall s c rest,
             1 <= token_len (snd (c_style_step allow s c rest)) <= length (c :: rest)).
  { intros s c rest. unfold c_style_step. strip_bounds; eauto with strip. }
  split; [done|..].
  - strip_kept Hb c_style_step. by destruct allow.
  - intros [] [] c rest k out Hs Ho Hout. apply unit_blanks_kept; [|done].
    intros c' r [->| ->]; unfold c_style_step; cbn; by rewrite andb_false_r.
Qed.

#[export] Instance php_laws : StepLaws php_step.
Proof.
  assert (Hb : forall s c rest, 1 <= token_len (snd (php_step s c rest)) <= length (c :: rest)).
  { intros s c rest. unfold php_step. strip_bounds; eauto with strip. }
  split; [done|..].
  - strip_kept Hb php_step.
  - intros [] [] c rest k out Hs Ho Hout. apply unit_blanks_kept; [|done].
    by intros c' r [->| ->].
Qed.

#[export] Instance rust_laws : StepLaws rust_step.
Proof.
  assert (Hb : forall s c rest, 1 <= token_len (snd (rust_step s c rest)) <= length (c :: rest)).
  { intros s c rest. unfold rust_step. strip_bounds; eauto with strip. }
  split; [done|..].
  - strip_kept Hb rust_step.
  - intros [] [] c rest k out Hs Ho Hout. apply unit_blanks_kept; [|done].
    by intros c' r [->| ->].
Qed.

#[export] Instance go_laws : StepLaws go_step.
Proof.
  assert (Hb : forall s c rest, 1 <= token_len (snd (go_step s c rest)) <= length (c :: rest)).
  { intros s c rest. unfold go_step. fold (raw_quoted_len c rest). strip_bounds; eauto with strip. }
  split; [done|..].
  - strip_kept Hb go_step.
  - intros [] [] c rest k out Hs Ho Hout. apply unit_blanks_kept; [|done].
    by intros c' r [->| ->].
Qed.

Lemma quote_not_space c : (c =? DQ)%N || (c =? SQ)%N = true -> SP ∉ [c; c].
Proof. rewrite orb_true_iff, !N.eqb_eq. intros [->| ->]; set_solver. Qed.

#[export] Instance python_laws : StepLaws python_step.
Proof.
  assert (Hb : forall s c rest, 1 <= token_len (snd (python_step s c rest)) <= length (c :: rest)).
  { intros s c rest. unfold python_step. strip_bounds; eauto with strip. }
  split; [done|..].
  - intros s s' c rest k out Hs Ho. pose proof (Hb s c rest) as Hk. rewrite Hs in Hk.
    pose proof (kept_rest _ _ _ _ Hk Ho) as Hrest. cbn [snd token_len] in Hrest.
    unfold python_step in Hs |- *. injection Hs as <- Hs. f_equal.
    destruct (_ && _) eqn:E1 in Hs; [done|].
    rewrite (take_stable _ _ _ _ _ Hrest (quote_not_space c) E1).
    destruct (_ || _) eqn:E2 in Hs; rewrite E2.
    + injection Hs as <-. f_equal. apply quoted_len_stable; [intros ->|]; done.
    + destruct (c =? HASH)%N; [done|]. by injection Hs as <-.
  - intros [] [] c rest k out Hs Ho Hout. apply unit_blanks_kept; [|done].
    by intros c' r [->| ->].
Qed.

(** ** Ruby *)

Lemma ruby_bounds s c rest :
  1 <= token_len (snd (ruby_step s c rest)) <= length (c :: rest).
Proof.
  unfold ruby_step. destruct (_ && _) eqn:E1.
  - cbn [snd token_len]. apply andb_true_iff in E1 as [_ E1%starts_with_at_length].
    change (length (lit "=begin")) with 6 in E1. pose proof (begin_len_le (drop 5 rest)).
    rewrite length_drop in *. cbn [length] in *. lia.
  - strip_bounds; eauto with strip.
Qed.

(** A blanked token of Ruby ends before a line end. *)
Lemma ruby_blanked_stop s s' c rest k :
  ruby_step s c rest = (s', Blanked k) -> head (drop k (c :: rest)) ∈ [None; Some NL].
Proof.
  unfold ruby_step. destruct (_ && _).
  - intros [= _ <-]. change (head (drop (5 + begin_len (drop 5 rest)) rest) ∈ [None; Some NL]).
    rewrite <- drop_drop. apply begin_len_stop.
  - repeat case_match; intros [=]; subst. apply (line_len_stop (c :: rest)).
Qed.

Lemma ruby_space s r : ruby_step s SP r = (s, Kept 1).
Proof. unfold ruby_step. cbn. by rewrite andb_false_r. Qed.

Lemma ruby_newline s r : ruby_step s NL r = (true, Kept 1).
Proof. unfold ruby_step. cbn. by rewrite andb_false_r. Qed.

(** Before a line end the state does not matter. *)
Lemma ruby_strips_any s s' l out :
  head l ∈ [None; Some NL] -> strips ruby_step s l out -> strips ruby_step s' l out.
Proof.
  intros Hl H. destruct l as [|c rest]; [inversion H; constructor|].
  assert (c = NL) as -> by set_solver.
  inversion H as [|? s1 ? ? k ? Hs|? s1 ? ? k ? Hs Ho]; subst; rewrite ruby_newline in Hs; [done|].
  injection Hs as <- <-. eapply strips_keep; [apply ruby_newline|done].
Qed.

Lemma ruby_blanks_kept s l out :
  (forall s, strips ruby_step s out out) ->
  strips ruby_step s (map blank_char l ++ out) (map blank_char l ++ out).
Proof.
  intros Ho. revert s. induction l as [|c l IH]; intros s; [done|]. cbn [map app].
  unfold blank_char at 1 3. destruct (c =? NL)%N.
  - apply (strips_keep ruby_step s true NL (map blank_char l ++ out) 1); [|done].
    apply ruby_newline.
  - apply (strips_keep ruby_step s s SP (map blank_char l ++ out) 1); [|done].
    apply ruby_space.
Qed.

Lemma starts_with_stable (b : bool) needle l l' :
  Forall2 blank_rel l l' -> SP ∉ needle ->
  b && starts_with_at l needle = false -> b && starts_with_at l' needle = false.
Proof. intros Hl Hn. by apply take_stable. Qed.

Lemma begin_no_space : SP ∉ lit "=begin".
Proof. cbn. set_solver. Qed.

#[export] Instance ruby_laws : StepLaws ruby_step.
Proof.
  split; [apply ruby_bounds|..].
  - intros s s' c rest k out Hs Ho. pose proof (ruby_bounds s c rest) as Hk. rewrite Hs in Hk.
    pose proof (kept_rest _ _ _ _ Hk Ho) as Hrest. cbn [snd token_len] in Hrest.
    unfold ruby_step in Hs |- *.
    destruct (_ && _) eqn:E1 in Hs; [done|].
    assert (Hrest' : Forall2 blank_rel (c :: rest) (c :: drop 1 (take k (c :: rest) ++ out)))
      by (constructor; [by left|done]).
    rewrite (starts_with_stable _ _ _ _ Hrest' begin_no_space E1).
    destruct (_ || _) eqn:E2 in Hs; rewrite E2.
    + injection Hs as <- <-. do 2 f_equal. apply quoted_len_stable; [intros ->|]; done.
    + by destruct (c =? HASH)%N, (c =? NL)%N, ((c =? SP)%N || (c =? TAB)%N); simplify_eq.
  - intros s s' c rest k out Hs Ho Hout. apply ruby_blanks_kept. intros s1.
    eapply ruby_strips_any; [|done].
    eapply blank_rel_head_NL; [done|]. by eapply ruby_blanked_stop.
Qed.

(** ** Reading bytes decides what reading characters decides

    The delimiters of the C-family stripper are ASCII, which no byte of a
    multi-byte character equals: on the encoding of a text [strip_c_style]
    slices at character boundaries only and gives the encoding of what the
    same scanner gives on the characters. *)

Definition high (b : list N) : Prop := Forall (fun x => (128 <= x)%N) b.

(** ** Bytes of characters *)

Lemma encode_cases c : is_char c = true ->
  ((c < 128)%N /\ encode_utf8 c = [c]) \/ ((128 <= c)%N /\ high (encode_utf8 c)).
Proof.
  intros Hc. destruct (N.lt_ge_cases c 128) as [H|H].
  - left. by rewrite encode_utf8_1.
  - right. split; [done|]. apply Forall_forall. intros x. by apply encode_utf8_high.
Qed.

(** The bytes after a character's first one are not ASCII. *)
Lemma encode_tail c : is_char c = true -> exists x tl, encode_utf8 c = x :: tl /\ high tl.
Proof.
  intros Hc. destruct (encode_cases c Hc) as [[_ E]|[_ H]].
  - exists c, []. split; [done|constructor].
  - pose proof (length_encode_utf8 c). pose proof (len_utf8_pos c).
    destruct (encode_utf8 c) as [|x tl]; cbn in *; [lia|]. inversion H; eauto.
Qed.

Lemma utf8_head x s : (x < 128)%N -> is_chars s -> head (utf8 s) = Some x <-> head s = Some x.
Proof.
  intros Hx [|c s' Hc Hs]; [done|]. cbn [head]. rewrite utf8_cons.
  destruct (encode_cases c Hc) as [[_ ->]|[Hh H]]; [done|].
  pose proof (length_encode_utf8 c). pose proof (len_utf8_pos c).
  destruct (encode_utf8 c) as [|y tl]; cbn in *; [lia|]. inversion H; subst.
  split; intros [= ->]; lia.
Qed.

Lemma utf8_head_decide x s :
  (x < 128)%N -> is_chars s ->
  bool_decide (head (utf8 s) = Some x) = bool_decide (head s = Some x).
Proof. intros Hx Hs. apply bool_decide_ext. by apply utf8_head. Qed.

Lemma utf8_length_pos s : is_chars s -> length (utf8 s) = 0 <-> s = [].
Proof.
  intros [|c s' Hc Hs]; [done|]. rewrite utf8_cons, length_app, length_encode_utf8.
  pose proof (len_utf8_pos c). split; [lia|done].
Qed.

Lemma utf8_take_drop k s : utf8 s = utf8 (take k s) ++ utf8 (drop k s).
Proof. by rewrite <- utf8_app, take_drop. Qed.

Lemma is_chars_take k s : is_chars s -> is_chars (take k s).
Proof. apply Forall_take. Qed.

Lemma is_chars_drop k s : is_chars s -> is_chars (drop k s).
Proof. apply Forall_drop. Qed.

(** The byte after [k] characters. *)
Lemma utf8_lookup k s x :
  (x < 128)%N -> is_chars s -> utf8 s !! length (utf8 (take k s)) = Some x <-> s !! k = Some x.
Proof.
  intros Hx Hs. rewrite (utf8_take_drop k s), lookup_app_r, Nat.sub_diag by lia.
  rewrite <- head_lookup, utf8_head by eauto using is_chars_drop. by rewrite head_drop.
Qed.

Lemma utf8_length_lt k s :
  is_chars s -> length (utf8 (take k s)) < length (utf8 s) <-> k < length s.
Proof.
  intros Hs. rewrite (utf8_take_drop k s). rewrite length_app.
  pose proof (utf8_length_pos (drop k s) (is_chars_drop k s Hs)) as H.
  assert (Hd : drop k s = [] <-> length s <= k).
  { split; [intros E%(f_equal length); rewrite length_drop in E; cbn in E; lia|apply drop_ge]. }
  assert (Hz : length (utf8 (drop k s)) = 0 <-> length s <= k) by (by rewrite H, Hd).
  lia.
Qed.

(** ** The inner loops *)

Lemma line_len_high hi b : high hi -> line_len (hi ++ b) = length hi + line_len b.
Proof.
  induction 1 as [|x hi Hx Hh IH]; [done|]. cbn.
  rewrite (proj2 (N.eqb_neq _ _)) by lia. by rewrite IH.
Qed.

Lemma block_len_high hi b : high hi -> block_len (hi ++ b) = length hi + block_len b.
Proof.
  induction 1 as [|x hi Hx Hh IH]; [done|]. cbn [app block_len length].
  rewrite (proj2 (N.eqb_neq _ _)) by lia. cbn [andb]. by rewrite IH.
Qed.

Lemma string_len_high q ml hi b :
  (q < 128)%N -> high hi -> string_len q ml (hi ++ b) = length hi + string_len q ml b.
Proof.
  intros Hq. induction 1 as [|x hi Hx Hh IH]; [done|]. cbn [app length].
  assert (x <> q /\ x <> BSLASH /\ x <> NL) as (H1%N.eqb_neq & H2%N.eqb_neq & H3%N.eqb_neq) by lia.
  destruct (hi ++ b) as [|y l] eqn:E.
  - rewrite string_len_one, H1, H3, andb_false_r.
    apply app_eq_nil in E as [-> ->]. done.
  - by rewrite string_len_cons, H1, H2, H3, andb_false_r, IH.
Qed.

Lemma line_len_utf8 s : is_chars s -> line_len (utf8 s) = length (utf8 (take (line_len s) s)).
Proof.
  induction 1 as [|c s Hc Hs IH]; [done|]. rewrite utf8_cons. cbn [line_len].
  destruct (encode_cases c Hc) as [[Ha E]|[Ha Hh]].
  - rewrite E. cbn [app line_len]. destruct (c =? NL)%N; [done|]. cbn [take].
    by rewrite utf8_cons, E, IH.
  - rewrite line_len_high, IH by done. rewrite (proj2 (N.eqb_neq _ _)) by lia. cbn [take].
    by rewrite utf8_cons, length_app.
Qed.

Lemma block_len_utf8 s : is_chars s -> block_len (utf8 s) = length (utf8 (take (block_len s) s)).
Proof.
  induction 1 as [|c s Hc Hs IH]; [done|]. rewrite utf8_cons. cbn [block_len].
  destruct (encode_cases c Hc) as [[Ha E]|[Ha Hh]].
  - rewrite E. cbn [app block_len].
    rewrite (utf8_head_decide FSLASH s) by done.
    destruct (_ && _); [done|]. cbn [take]. by rewrite utf8_cons, E, IH.
  - rewrite block_len_high, IH by done. rewrite (proj2 (N.eqb_neq _ _)) by lia. cbn [andb take].
    by rewrite utf8_cons, length_app.
Qed.

Lemma string_len_utf8 q ml s :
  (q < 128)%N -> is_chars s -> string_len q ml (utf8 s) = length (utf8 (take (string_len q ml s) s)).
Proof.
  intros Hq. induction s as [|c|c d s IH1 IH2] using list_two_ind; intros Hs; [done|..];
    apply Forall_cons in Hs as [Hc Hs]; rewrite utf8_cons;
    destruct (encode_cases c Hc) as [[Ha E]|[Ha Hh]].
  - rewrite E. cbn [app utf8 concat map]. rewrite !string_len_one.
    repeat case_match; cbn [take]; rewrite ?utf8_cons, ?E; done.
  - rewrite string_len_high, string_len_one by done.
    rewrite !(proj2 (N.eqb_neq c _)), andb_false_r by lia. cbn [take].
    rewrite utf8_cons, length_app. cbn. lia.
  - rewrite E. cbn [app]. pose proof Hs as Hs'. apply Forall_cons in Hs' as [Hd Hs'].
    destruct (encode_tail d Hd) as (x & tl & Ed & Htl). rewrite (utf8_cons d s), Ed. cbn [app].
    rewrite !string_len_cons. destruct (c =? q)%N; [done|].
    destruct (c =? BSLASH)%N.
    { rewrite string_len_high, IH1 by done. cbn [Nat.add take].
      rewrite utf8_cons, E, utf8_cons, Ed, !length_app. cbn. lia. }
    destruct (_ && _); [done|]. cbn [take].
    rewrite utf8_cons, E, length_app, <- IH2 by done.
    by rewrite utf8_cons, Ed.
  - rewrite string_len_high by done. rewrite IH2, string_len_cons by done.
    rewrite !(proj2 (N.eqb_neq c _)), andb_false_r by lia. cbn [take].
    by rewrite (utf8_cons c), length_app.
Qed.

(** ** Tokens *)

(** A token of characters in bytes. *)
Definition byte_token (l : list N) (t : token) : token :=
  match t with
  | Blanked k => Blanked (length (utf8 (take k l)))
  | Kept k => Kept (length (utf8 (take k l)))
  end.

Lemma utf8_ascii_cons c s : (c < 128)%N -> utf8 (c :: s) = c :: utf8 s.
Proof. intros H. by rewrite utf8_cons, encode_utf8_1. Qed.

Lemma block_len_stop l : block_len l < length l -> exists r, drop (block_len l) l = STAR :: FSLASH :: r.
Proof.
  induction l as [|c l IH]; cbn [block_len length]; [lia|].
  destruct (_ && _) eqn:E; [|intros; cbn [drop]; apply IH; lia].
  apply andb_true_iff in E as [->%N.eqb_eq E%bool_decide_eq_true]. intros _.
  destruct l as [|d l]; [done|]. injection E as ->. rewrite drop_0. eauto.
Qed.

Lemma take_add {A} n m (l : list A) : take (n + m) l = take n l ++ take m (drop n l).
Proof. by rewrite take_take_drop. Qed.

Lemma block_comment_len_utf8 l :
  is_chars l ->
  block_comment_len (FSLASH :: STAR :: utf8 l)
    = length (utf8 (take (block_comment_len (FSLASH :: STAR :: l)) (FSLASH :: STAR :: l))).
Proof.
  intros Hl. unfold block_comment_len. cbn [drop]. rewrite !drop_0, block_len_utf8 by done.
  set (m := block_len l). pose proof (utf8_length_lt m l Hl) as Hlt.
  pose proof (block_len_stop l) as Hstop. fold m in Hstop.
  destruct (Nat.ltb_spec (2 + m) (length (FSLASH :: STAR :: l))) as [Hm|Hm]; cbn [length] in Hm.
  - rewrite (proj2 (Nat.ltb_lt _ _)) by (cbn [length]; lia).
    destruct Hstop as (r & Hr); [lia|]. replace (2 + m + 2) with (S (S (m + 2))) by lia.
    cbn [take]. rewrite !utf8_ascii_cons, take_add, Hr by done. cbn [take].
    rewrite utf8_app, !utf8_ascii_cons by done. rewrite ?take_0, !length_cons, length_app.
    change (utf8 []) with (@nil N). cbn [length]. lia.
  - rewrite (proj2 (Nat.ltb_ge _ _)) by (cbn [length]; lia).
    cbn [Nat.add take]. by rewrite !utf8_ascii_cons.
Qed.

Lemma quoted_len_utf8 q ml c rest :
  (c < 128)%N -> (q < 128)%N -> is_chars rest ->
  quoted_len q ml (c :: utf8 rest) = length (utf8 (take (quoted_len q ml (c :: rest)) (c :: rest))).
Proof.
  intros Hc Hq Hr. rewrite !quoted_len_cons, string_len_utf8 by done.
  set (m := string_len q ml rest).
  rewrite (bool_decide_ext _ (rest !! m = Some q)) by (by apply utf8_lookup).
  case_bool_decide as E; cbn [take]; rewrite utf8_ascii_cons by done; [|done].
  rewrite (take_S_r _ _ _ E), utf8_app, utf8_ascii_cons by done.
  cbn [length]. rewrite length_app. cbn. lia.
Qed.

Lemma ascii_is_chars c l : (c < 128)%N -> is_chars l -> is_chars (c :: l).
Proof.
  intros Hc Hl. constructor; [|done]. unfold is_char. rewrite (proj2 (N.ltb_lt _ _)) by lia. done.
Qed.

Lemma c_style_step_utf8 allow c rest :
  (c < 128)%N -> is_chars rest ->
  snd (c_style_step allow tt c (utf8 rest))
    = byte_token (c :: rest) (snd (c_style_step allow tt c rest)).
Proof.
  intros Hc Hr. unfold c_style_step. cbn [snd].
  rewrite !utf8_head_decide by done.
  destruct (_ && bool_decide (_ = Some STAR)) eqn:E1.
  { apply andb_true_iff in E1 as [->%N.eqb_eq E1%bool_decide_eq_true].
    destruct rest as [|d rest]; [done|]. injection E1 as ->.
    apply Forall_cons in Hr as [_ Hr]. cbn [byte_token].
    by rewrite utf8_ascii_cons, block_comment_len_utf8. }
  destruct (_ && bool_decide (_ = Some FSLASH)) eqn:E2; cbn [byte_token].
  { rewrite <- utf8_ascii_cons, line_len_utf8 by auto using ascii_is_chars. done. }
  destruct (_ || _); cbn [byte_token]; [by rewrite quoted_len_utf8|].
  cbn [take]. by rewrite utf8_ascii_cons.
Qed.

Lemma c_style_step_high allow c rest : (128 <= c)%N -> c_style_step allow tt c rest = (tt, Kept 1).
Proof.
  intros Hc. unfold c_style_step. rewrite !(proj2 (N.eqb_neq c _)) by lia.
  by rewrite andb_false_r.
Qed.

(** ** The loop *)

Lemma c_style_loop_high src allow out copied hi b fuel i :
  high hi -> drop i src = hi ++ b ->
  c_style_loop (length hi + fuel) src allow out copied i
    = c_style_loop fuel src allow out copied (i + length hi).
Proof.
  intros Hh. revert i. induction Hh as [|x hi Hx Hh IH]; intros i Hd.
  { cbn. by rewrite Nat.add_0_r. }
  cbn [length Nat.add c_style_loop]. rewrite Hd. cbn [app].
  rewrite c_style_step_high by done. cbn [snd]. rewrite IH; [f_equal; lia|].
  rewrite <- drop_drop, Hd. cbn. by rewrite ?drop_0.
Qed.

Lemma drop_utf8 a b : drop (length (utf8 a)) (utf8 (a ++ b)) = utf8 b.
Proof. by rewrite utf8_app, drop_app_length. Qed.

Lemma map_blank_is_chars l : is_chars (map blank_char l).
Proof.
  induction l as [|c l IH]; constructor; [|done]. unfold blank_char. by destruct (c =? NL)%N.
Qed.

Lemma blank_into_utf8 acc a b mid c :
  is_chars mid ->
  blank_into acc (utf8 (a ++ b ++ mid ++ c)) (length (utf8 a)) (length (utf8 (a ++ b)))
      (length (utf8 (a ++ b ++ mid)))
    = Ok (acc ++ utf8 (b ++ map blank_char mid), length (utf8 (a ++ b ++ mid))).
Proof.
  intros Hm. unfold blank_into. rewrite str_slice_utf8. cbn [mbind result_bind].
  rewrite (app_assoc a b (mid ++ c)), (app_assoc a b mid), str_slice_utf8. cbn [mbind result_bind].
  by rewrite chars_utf8, (utf8_app b).
Qed.

Lemma c_style_loop_strips allow l out :
  strips (c_style_step allow) tt l out ->
  forall a b fuel acc, is_chars l -> length (utf8 l) < fuel ->
  c_style_loop fuel (utf8 (a ++ b ++ l)) allow acc (length (utf8 a)) (length (utf8 (a ++ b)))
    = Ok (acc ++ utf8 (b ++ out)).
Proof.
  intros H. induction H as [[]|[] [] c rest k out Hs Ho IH|[] [] c rest k out Hs Ho IH];
    intros a b fuel acc Hl Hf; (destruct fuel as [|fuel]; [lia|]).
  - cbn [c_style_loop]. rewrite app_assoc, drop_utf8. change (utf8 []) with (@nil N).
    rewrite app_nil_r. pose proof (str_slice_utf8 a b []) as E. rewrite app_nil_r in E.
    rewrite E. cbn [mbind result_bind]. by rewrite app_nil_r.
  - pose proof (step_bounds (step := c_style_step allow) tt c rest) as Hk. rewrite Hs in Hk. cbn [snd token_len] in Hk.
    pose proof Hl as Hl'. apply Forall_cons in Hl' as [Hc Hr].
    destruct (encode_cases c Hc) as [[Ha E]|[Ha _]]; [|by rewrite c_style_step_high in Hs].
    cbn [c_style_loop]. rewrite (app_assoc a b), drop_utf8, utf8_ascii_cons by done.
    rewrite c_style_step_utf8, Hs by done. cbn [snd byte_token].
    set (mid := take k (c :: rest)) in *.
    assert (Hsplit : c :: rest = mid ++ drop k (c :: rest)) by (symmetry; apply take_drop).
    replace (length (utf8 (a ++ b)) + length (utf8 mid)) with (length (utf8 (a ++ b ++ mid)))
      by (rewrite !utf8_app, !length_app; lia).
    rewrite Hsplit, <- (app_assoc a b). rewrite blank_into_utf8 by by apply is_chars_take.
    cbn [mbind result_bind].
    pose proof (IH (a ++ b ++ mid) [] fuel (acc ++ utf8 (b ++ map blank_char mid))) as IH'.
    rewrite !app_nil_r in IH'. cbn [app] in IH'. rewrite <- !app_assoc in IH'.
    rewrite IH'; [by rewrite !utf8_app, <- !app_assoc|by apply is_chars_drop|].
    rewrite (utf8_take_drop k (c :: rest)), length_app in Hf.
    assert (length (utf8 mid) <> 0); [|unfold mid in *; lia].
    rewrite utf8_length_pos by by apply is_chars_take.
    intros Hm%(f_equal length). unfold mid in Hm. rewrite length_take in Hm. cbn in Hm, Hk. lia.
  - pose proof (step_bounds (step := c_style_step allow) tt c rest) as Hk. rewrite Hs in Hk. cbn [snd token_len] in Hk.
    pose proof Hl as Hl'. apply Forall_cons in Hl' as [Hc Hr].
    set (mid := take k (c :: rest)) in *.
    assert (Hsplit : c :: rest = mid ++ drop k (c :: rest)) by (symmetry; apply take_drop).
    assert (Hfuel : length (utf8 (c :: rest)) = length (utf8 mid) + length (utf8 (drop k (c :: rest))))
      by (by rewrite (utf8_take_drop k (c :: rest)), length_app).
    enough (Hgo : forall fuel', length (utf8 (drop k (c :: rest))) < fuel' ->
      c_style_loop fuel' (utf8 (a ++ b ++ c :: rest)) allow acc (length (utf8 a))
        (length (utf8 (a ++ b)) + length (utf8 mid)) = Ok (acc ++ utf8 (b ++ mid ++ out))).
    { destruct (encode_cases c Hc) as [[Ha E]|[Ha Hh]].
      - cbn [c_style_loop]. rewrite (app_assoc a b), drop_utf8, utf8_ascii_cons by done.
        rewrite c_style_step_utf8, Hs by done. cbn [snd byte_token]. fold mid.
        rewrite <- (app_assoc a b). apply Hgo.
        assert (length (utf8 mid) <> 0); [|lia].
        rewrite utf8_length_pos by by apply is_chars_take.
        intros Hm%(f_equal length). unfold mid in Hm. rewrite length_take in Hm. cbn in Hm, Hk. lia.
      - rewrite c_style_step_high in Hs by done. injection Hs as <-.
        assert (Em : utf8 mid = encode_utf8 c) by (cbn; apply app_nil_r).
        rewrite Em in *.
        replace (S fuel) with (length (encode_utf8 c) + (S fuel - length (encode_utf8 c))) by lia.
        erewrite c_style_loop_high; [|done|by rewrite app_assoc, drop_utf8, utf8_cons].
        apply Hgo. lia. }
    intros fuel' Hf'.
    replace (length (utf8 (a ++ b)) + length (utf8 mid)) with (length (utf8 (a ++ b ++ mid)))
      by (rewrite !utf8_app, !length_app; lia).
    rewrite Hsplit. rewrite (app_assoc b mid). rewrite IH; [by rewrite <- app_assoc| |done].
    by apply is_chars_drop.
Qed.

(** [strip_c_style] on the encoding of a text: the characters' scanner. *)
Lemma strip_c_style_utf8 allow s out :
  is_chars s -> strip_chars (c_style_step allow) tt s = Ok out ->
  strip_c_style (utf8 s) allow = Ok (utf8 out).
Proof.
  intros Hs Ho. apply (strip_chars_iff (c_style_step allow)) in Ho. unfold strip_c_style.
  exact (c_style_loop_strips allow s out Ho [] [] (S (length (utf8 s))) [] Hs ltac:(lia)).
Qed.
