(* ===== verification/StripProps.v ===== *)
(** * Properties of comment stripping and string blanking *)
From S2P Require Import Prelude Utf8 StripComments StripLaws.

(** ** Blanking the contents of string literals
      (crates/codegraph-resolve/src/strip_comments.rs, [blank_string_contents],
      [regex_literal_may_start])

    The byte loop of the source, and the same scanner on characters, which is
    what its comment says it decides. *)

(** ** The regex-literal test *)

(** [char::is_whitespace] trimmed from the end of a text. *)
Fixpoint trim_end (s : list N) : list N :=
  match s with
  | [] => []
  | c :: s => match trim_end s with
              | [] => if is_whitespace c then [] else [c]
              | t => c :: t
              end
  end.

(** [s.strip_suffix(suffix)]. *)
Definition str_strip_suffix (s suffix : list N) : option (list N) :=
  let k := length s - length suffix in
  if bool_decide (drop k s = suffix) then Some (take k s) else None.

Definition KEYWORDS : list (list N) :=
  map lit ["return"; "throw"; "case"; "yield"; "await"; "else"; "do"; "typeof"; "void"; "delete";
           "new"; "in"; "of"; "instanceof"].

Definition PUNCTUATION : list N := lit "=(:,)!&|?;{}[]+*%~^<>-".

(** [regex_literal_may_start(before)]: the window is the last 32 characters. *)
Definition regex_literal_may_start (before : list N) : bool :=
  let window := drop (length before - 32) before in
  let trimmed := trim_end window in
  match last trimmed with
  | None => true
  | Some c =>
      bool_decide (c ∈ PUNCTUATION)
      || existsb (fun keyword =>
                    match str_strip_suffix trimmed keyword with
                    | Some head => match last head with
                                   | Some ch => negb (is_ascii_alphanumeric ch || (ch =? 95)%N)
                                   | None => true
                                   end
                    | None => false
                    end) KEYWORDS
  end.

(** How far [end] moves past the opening [/]; an escape may step over the end. *)
Fixpoint regex_scan (in_class : bool) (l : list N) : nat :=
  match l with
  | [] => 0
  | c :: l1 =>
      if (c =? NL)%N then 0
      else if (c =? BSLASH)%N
           then match l1 with [] => 2 | _ :: l2 => 2 + regex_scan in_class l2 end
      else if (c =? 91)%N then S (regex_scan true l1)
      else if (c =? 93)%N then S (regex_scan false l1)
      else if (c =? FSLASH)%N && negb in_class then 0
      else S (regex_scan in_class l1)
  end.

(** The length of the regex literal whose opening [/] is before [rest]. *)
Definition regex_len (rest : list N) : option nat :=
  let k := regex_scan false rest in
  if bool_decide (rest !! k = Some FSLASH) then Some (1 + k + 1) else None.

Definition is_quote (c : N) : bool := (c =? DQ)%N || (c =? SQ)%N || (c =? BACKTICK)%N.

(** ** Over bytes *)

(** [text[at..].chars().next().map_or(1, char::len_utf8)]. *)
Definition char_len (text : Bytes) (at_ : nat) : result Panic nat :=
  s ← str_slice text at_ (length text);
  Ok (match next_code_point s with Some (c, _) => len_utf8 c | None => 1 end).

(** The inner loop of a literal: the new [out] and [i]. *)
Fixpoint blank_contents (fuel : nat) (quote : N) (text out : Bytes) (i : nat)
  : result Panic (Bytes * nat) :=
  match fuel with
  | 0 => OutOfFuel
  | S fuel =>
      match drop i text with
      | [] => Ok (out, i)
      | c :: _ =>
          if (c =? quote)%N then Ok (out, i)
          else if (c =? BSLASH)%N && (i + 1 <? length text)
          then k ← char_len text (i + 1);
               blank_contents fuel quote text (out ++ [SP; SP]) (i + (1 + k))
          else if negb (quote =? BACKTICK)%N && (c =? NL)%N then Ok (out, i)
          else k ← char_len text i;
               blank_contents fuel quote text (out ++ [if (c =? NL)%N then NL else SP]) (i + k)
      end
  end.

Fixpoint blank_strings_loop (fuel : nat) (text out : Bytes) (copied i : nat)
  : result Panic Bytes :=
  match fuel with
  | 0 => OutOfFuel
  | S fuel =>
      match drop i text with
      | [] => tail ← str_slice text copied (length text); Ok (out ++ tail)
      | c :: rest =>
          regex ← (if (c =? FSLASH)%N
                   then before ← str_slice text 0 i;
                        Ok (if regex_literal_may_start (chars before) then regex_len rest else None)
                   else Ok None);
          match regex with
          | Some k => blank_strings_loop fuel text out copied (i + k)
          | None =>
              if is_quote c then
                opening ← str_slice text copied (i + 1);
                '(out, j) ← blank_contents (S (length text)) c text (out ++ opening) (i + 1);
                blank_strings_loop fuel text out j
                  (if bool_decide (text !! j = Some c) then j + 1 else j)
              else blank_strings_loop fuel text out copied (i + 1)
          end
      end
  end.

Definition blank_string_contents (text : Bytes) : result Panic Bytes :=
  blank_strings_loop (S (length text)) text [] 0 0.

(** ** Over characters *)

(** What the contents of a literal become. *)
Fixpoint blanked_string (quote : N) (multi_line : bool) (l : list N) : list N :=
  match l with
  | [] => []
  | c :: l1 =>
      if (c =? quote)%N then [] else
      match l1 with
      | _ :: l2 =>
          if (c =? BSLASH)%N then SP :: SP :: blanked_string quote multi_line l2
          else if negb multi_line && (c =? NL)%N then []
          else blank_char c :: blanked_string quote multi_line l1
      | [] => if negb multi_line && (c =? NL)%N then [] else [blank_char c]
      end
  end.

(** One round at the character [c]: what it emits and how many characters it takes. *)
Definition blank_step (before : list N) (c : N) (rest : list N) : list N * nat :=
  match (if (c =? FSLASH)%N && regex_literal_may_start before then regex_len rest else None) with
  | Some k => (take k (c :: rest), k)
  | None =>
      if is_quote c then
        let multi_line := (c =? BACKTICK)%N in
        let k := string_len c multi_line rest in
        let contents := blanked_string c multi_line rest in
        if bool_decide (rest !! k = Some c) then (c :: contents ++ [c], 1 + k + 1)
        else (c :: contents, 1 + k)
      else ([c], 1)
  end.

Fixpoint blank_chars_loop (fuel : nat) (before l : list N) : result Panic (list N) :=
  match fuel with
  | 0 => OutOfFuel
  | S fuel =>
      match l with
      | [] => Ok []
      | c :: rest =>
          let '(emitted, k) := blank_step before c rest in
          out ← blank_chars_loop fuel (before ++ take k l) (drop k l);
          Ok (emitted ++ out)
      end
  end.

Definition blank_string_contents_chars (s : list N) : result Panic (list N) :=
  blank_chars_loop (S (length s)) [] s.

(** ** Facts on blanking string contents

    The byte loop on the encoding of a text follows the character loop. *)

(** ** Regex literals *)

Lemma regex_scan_high cls hi b : high hi -> regex_scan cls (hi ++ b) = length hi + regex_scan cls b.
Proof.
  induction 1 as [|x hi Hx Hh IH]; [done|]. cbn [app regex_scan length].
  rewrite !(proj2 (N.eqb_neq x _)) by lia. cbn [andb]. by rewrite IH.
Qed.

Lemma regex_scan_cons cls c d s :
  regex_scan cls (c :: d :: s) =
    (if (c =? NL)%N then 0
     else if (c =? BSLASH)%N then 2 + regex_scan cls s
     else if (c =? 91)%N then S (regex_scan true (d :: s))
     else if (c =? 93)%N then S (regex_scan false (d :: s))
     else if (c =? FSLASH)%N && negb cls then 0
     else S (regex_scan cls (d :: s))).
Proof. done. Qed.

(** The scan stays in the text and agrees, or escapes past the end of both. *)
Lemma regex_scan_utf8 cls s :
  is_chars s ->
  (regex_scan cls s <= length s /\
     regex_scan cls (utf8 s) = length (utf8 (take (regex_scan cls s) s)))
  \/ (length s < regex_scan cls s /\ length (utf8 s) < regex_scan cls (utf8 s)).
Proof.
  revert cls. induction s as [|c|c d s IH1 IH2] using list_two_ind; intros cls Hs.
  - left. cbn. lia.
  - apply Forall_cons in Hs as [Hc _]. rewrite utf8_cons. change (utf8 []) with (@nil N).
    destruct (encode_cases c Hc) as [[Ha E]|[Ha Hh]].
    + rewrite E. cbn [app regex_scan].
      destruct (c =? NL)%N; [left; cbn; lia|]. destruct (c =? BSLASH)%N; [right; cbn; lia|].
      left. repeat case_match; cbn [take length]; rewrite ?utf8_ascii_cons by done; cbn; lia.
    + rewrite regex_scan_high by done. cbn [regex_scan].
      rewrite !(proj2 (N.eqb_neq c _)) by lia. cbn [andb take]. left.
      rewrite utf8_cons, length_app. cbn. lia.
  - pose proof Hs as Hs'. apply Forall_cons in Hs' as [Hc Hds].
    pose proof Hds as Hds'. apply Forall_cons in Hds' as [Hd Hs'].
    destruct (encode_tail d Hd) as (x & tl & Ed & Htl).
    assert (Htake : forall k, length (utf8 (take (S k) (c :: d :: s)))
                              = length (encode_utf8 c) + length (utf8 (take k (d :: s))))
      by (intros k; cbn [take]; rewrite utf8_cons; apply length_app).
    assert (Hlen : length (utf8 (c :: d :: s)) = length (encode_utf8 c) + length (utf8 (d :: s)))
      by (rewrite utf8_cons; apply length_app).
    destruct (encode_cases c Hc) as [[Ha E]|[Ha Hh]].
    + assert (Hne : exists y l, utf8 (d :: s) = y :: l)
        by (rewrite utf8_cons, Ed; eexists _, _; done).
      destruct Hne as (y & l & El).
      rewrite utf8_ascii_cons, El, !regex_scan_cons, <- El by done.
      rewrite E in Htake, Hlen. cbn [length] in Htake, Hlen.
      destruct (c =? NL)%N; [left; cbn; lia|]. destruct (c =? BSLASH)%N.
      { assert (l = tl ++ utf8 s) as ->
          by (rewrite utf8_cons, Ed in El; by injection El).
        rewrite regex_scan_high by done. rewrite (utf8_cons d s), Ed in Hlen. cbn [app length] in Hlen |- *.
        rewrite length_app in *.
        assert (H2 : forall k, length (utf8 (take (2 + k) (c :: d :: s)))
                               = 2 + (length tl + length (utf8 (take k s)))).
        { intros k. change (2 + k) with (S (S k)). rewrite Htake. cbn [take].
          rewrite utf8_cons, Ed, length_app. cbn. lia. }
        assert (length (utf8 (d :: s)) = S (length tl + length (utf8 s)))
          by (rewrite utf8_cons, Ed; cbn; by rewrite length_app).
        rewrite H2. destruct (IH1 cls Hs') as [[? ->]|[? ?]]; [left|right]; lia. }
      destruct (c =? 91)%N; [|destruct (c =? 93)%N; [|destruct (_ && _); [left; cbn; lia|]]];
        rewrite Htake; cbn [length] in *;
        match goal with |- context [regex_scan ?b (d :: s)] =>
          destruct (IH2 b Hds) as [[? ->]|[? ?]]; [left|right]; cbn [length] in *; lia end.
    + rewrite (utf8_cons c), regex_scan_high by done.
      rewrite utf8_cons, length_app in Hlen.
      rewrite regex_scan_cons, !(proj2 (N.eqb_neq c _)) by lia. cbn [andb].
      rewrite Htake, length_app.
      destruct (IH2 cls Hds) as [[? ->]|[? ?]]; [left|right]; cbn [length] in *; lia.
Qed.

Lemma regex_len_utf8 rest :
  is_chars rest ->
  regex_len (utf8 rest) = (fun k => length (utf8 (take (k - 1) rest)) + 1) <$> regex_len rest.
Proof.
  intros Hr. unfold regex_len.
  destruct (regex_scan_utf8 false rest Hr) as [[Hk E]|[Hk E]].
  - rewrite E. rewrite (bool_decide_ext _ (rest !! regex_scan false rest = Some FSLASH))
      by (by apply utf8_lookup).
    case_bool_decide as Hs; [|done]. cbn [fmap option_fmap option_map]. f_equal.
    replace (1 + regex_scan false rest + 1 - 1) with (S (regex_scan false rest)) by lia.
    rewrite (take_S_r _ _ _ Hs), utf8_app, length_app.
    change (length (utf8 [FSLASH])) with 1. lia.
  - rewrite !bool_decide_false; [done|..]; rewrite lookup_ge_None_2 by lia; done.
Qed.

(** ** The contents of a literal *)

Lemma blanked_string_cons q ml c d l :
  blanked_string q ml (c :: d :: l) =
    (if (c =? q)%N then []
     else if (c =? BSLASH)%N then SP :: SP :: blanked_string q ml l
     else if negb ml && (c =? NL)%N then []
     else blank_char c :: blanked_string q ml (d :: l)).
Proof. done. Qed.

Lemma blanked_string_one q ml c :
  blanked_string q ml [c] =
    (if (c =? q)%N then [] else if negb ml && (c =? NL)%N then [] else [blank_char c]).
Proof. done. Qed.

Lemma char_len_utf8 a c l :
  is_char c = true -> char_len (utf8 (a ++ c :: l)) (length (utf8 a)) = Ok (len_utf8 c).
Proof.
  intros Hc. unfold char_len. pose proof (str_slice_utf8 a (c :: l) []) as E.
  rewrite app_nil_r in E. rewrite E. cbn [mbind result_bind].
  by rewrite utf8_cons, next_code_point_encode.
Qed.

Lemma length_utf8_snoc a c : length (utf8 (a ++ [c])) = length (utf8 a) + len_utf8 c.
Proof.
  rewrite utf8_app, length_app, utf8_cons, length_app, length_encode_utf8. cbn. lia.
Qed.

Lemma app_cons_snoc {A} (a : list A) c l : a ++ c :: l = (a ++ [c]) ++ l.
Proof. by rewrite <- app_assoc. Qed.

(** One byte loop round at a character that is neither quote, escape nor the end of the literal. *)
Lemma blank_contents_step q a c l out fuel :
  (q < 128)%N -> is_char c = true -> c <> q ->
  (c = BSLASH -> l = []) ->
  negb (q =? BACKTICK)%N && (c =? NL)%N = false ->
  blank_contents (S fuel) q (utf8 (a ++ c :: l)) out (length (utf8 a))
    = blank_contents fuel q (utf8 ((a ++ [c]) ++ l)) (out ++ [blank_char c]) (length (utf8 (a ++ [c]))).
Proof.
  intros Hq Hc Hne Hb Hnl. cbn [blank_contents]. rewrite drop_utf8.
  destruct (encode_utf8 c) as [|x tl] eqn:Ec.
  { pose proof (length_encode_utf8 c). pose proof (len_utf8_pos c). rewrite Ec in *. cbn in *. lia. }
  rewrite (utf8_cons c l), Ec. cbn [app]. rewrite char_len_utf8 by done.
  assert (Hx : (x =? q)%N = false /\ ((x =? NL)%N = (c =? NL)%N)
               /\ ((x =? BSLASH)%N && (length (utf8 a) + 1 <? length (utf8 (a ++ c :: l))) = false)).
  { destruct (encode_cases c Hc) as [[Ha E]|[Ha Hh]].
    - rewrite Ec in E. injection E as -> ->. split; [by apply N.eqb_neq|]. split; [done|].
      destruct (N.eqb_spec c BSLASH) as [->|]; [|done]. rewrite (Hb eq_refl).
      rewrite utf8_app, length_app. apply Nat.ltb_irrefl.
    - rewrite Ec in Hh. inversion Hh; subst. rewrite !(proj2 (N.eqb_neq x _)) by lia.
      by rewrite (proj2 (N.eqb_neq c _)) by lia. }
  destruct Hx as (-> & -> & ->). rewrite Hnl. cbn [mbind result_bind].
  by rewrite <- app_cons_snoc, length_utf8_snoc.
Qed.

Lemma blank_contents_stop q a c l out fuel :
  (q < 128)%N -> is_char c = true ->
  (c = q \/ (c <> BSLASH /\ negb (q =? BACKTICK)%N && (c =? NL)%N = true)) ->
  blank_contents (S fuel) q (utf8 (a ++ c :: l)) out (length (utf8 a)) = Ok (out, length (utf8 a)).
Proof.
  intros Hq Hc H. cbn [blank_contents]. rewrite drop_utf8.
  assert (Ha : (c < 128)%N).
  { destruct H as [->|[_ H]]; [done|]. apply andb_true_iff in H as [_ ->%N.eqb_eq]. done. }
  rewrite utf8_ascii_cons by done. destruct H as [->|[Hb H]]; [by rewrite N.eqb_refl|].
  rewrite (proj2 (N.eqb_neq _ _) Hb), H. by destruct (c =? q)%N.
Qed.

Lemma blank_contents_utf8 q l :
  (q < 128)%N -> is_chars l ->
  forall a fuel out, length (utf8 l) < fuel ->
  let ml := (q =? BACKTICK)%N in
  blank_contents fuel q (utf8 (a ++ l)) out (length (utf8 a))
    = Ok (out ++ blanked_string q ml l, length (utf8 (a ++ take (string_len q ml l) l))).
Proof.
  intros Hq Hl a fuel out Hf ml. revert Hl a fuel out Hf.
  induction l as [|c|c d l IH1 IH2] using list_two_ind; intros Hl a [|fuel] out Hf; try lia.
  - cbn. rewrite !app_nil_r. by rewrite drop_ge.
  - apply Forall_cons in Hl as [Hc _]. rewrite blanked_string_one, string_len_one.
    destruct (N.eqb_spec c q) as [->|Hne].
    { rewrite blank_contents_stop by auto. cbn [take]. by rewrite !app_nil_r. }
    destruct (negb ml && (c =? NL)%N) eqn:Hnl.
    { rewrite blank_contents_stop; [|done..|].
      - cbn [take]. by rewrite !app_nil_r.
      - right. split; [|done]. apply andb_true_iff in Hnl as [_ ->%N.eqb_eq]. done. }
    rewrite blank_contents_step by done. cbn [take]. destruct fuel as [|fuel].
    { rewrite utf8_cons, length_app, length_encode_utf8 in Hf. pose proof (len_utf8_pos c). lia. }
    cbn [blank_contents]. by rewrite app_nil_r, drop_ge.
  - pose proof Hl as Hl'. apply Forall_cons in Hl' as [Hc Hdl].
    pose proof Hdl as Hdl'. apply Forall_cons in Hdl' as [Hd Hl'].
    rewrite blanked_string_cons, string_len_cons.
    destruct (N.eqb_spec c q) as [->|Hne].
    { rewrite blank_contents_stop by auto. cbn [take]. by rewrite !app_nil_r. }
    rewrite utf8_cons, length_app, length_encode_utf8 in Hf.
    destruct (N.eqb_spec c BSLASH) as [->|Hb].
    { rewrite utf8_cons, length_app, length_encode_utf8 in Hf. change (len_utf8 BSLASH) with 1 in Hf.
      cbn [blank_contents]. rewrite drop_utf8, utf8_ascii_cons by done.
      rewrite (proj2 (N.eqb_neq _ _) Hne). rewrite N.eqb_refl.
      pose proof (len_utf8_pos d).
      rewrite (proj2 (Nat.ltb_lt _ _)).
      2: { rewrite utf8_app, utf8_ascii_cons, utf8_cons, length_app by done. cbn [length].
           rewrite length_app, length_encode_utf8. lia. }
      cbn [andb]. rewrite (app_cons_snoc a BSLASH).
      replace (length (utf8 a) + 1) with (length (utf8 (a ++ [BSLASH])))
        by (rewrite length_utf8_snoc; done).
      rewrite char_len_utf8 by done. cbn [mbind result_bind].
      rewrite (app_cons_snoc (a ++ [BSLASH]) d l).
      replace (length (utf8 a) + (1 + len_utf8 d)) with (length (utf8 ((a ++ [BSLASH]) ++ [d])))
        by (rewrite !length_utf8_snoc; change (len_utf8 BSLASH) with 1; lia).
      rewrite IH1 by (done || lia). cbn [Nat.add take]. by rewrite <- !app_assoc. }
    destruct (negb ml && (c =? NL)%N) eqn:Hnl.
    { rewrite blank_contents_stop by auto. cbn [take]. by rewrite !app_nil_r. }
    rewrite blank_contents_step by done. pose proof (len_utf8_pos c).
    rewrite IH2 by (done || lia). cbn [take]. by rewrite <- !app_assoc.
Qed.

(** ** The outer loop *)

Lemma utf8_ascii l : Forall (fun c => (c < 128)%N) l -> utf8 l = l.
Proof. induction 1 as [|c l Hc Hl IH]; [done|]. by rewrite utf8_ascii_cons, IH. Qed.

Lemma blanked_string_ascii q ml l : Forall (fun c => (c < 128)%N) (blanked_string q ml l).
Proof.
  assert (Hb : forall c, (blank_char c < 128)%N)
    by (intros c; unfold blank_char; by destruct (c =? NL)%N).
  induction l as [|c|c d l IH1 IH2] using list_two_ind; [constructor|..].
  - rewrite blanked_string_one. repeat case_match; repeat constructor; auto.
  - rewrite blanked_string_cons. repeat case_match; repeat constructor; auto; done.
Qed.

Lemma utf8_boundary_lookup a l x :
  (x < 128)%N -> is_chars l -> utf8 (a ++ l) !! length (utf8 a) = Some x <-> head l = Some x.
Proof.
  intros Hx Hl. rewrite utf8_app, lookup_app_r, Nat.sub_diag, <- head_lookup by lia.
  by apply utf8_head.
Qed.

Lemma blank_strings_loop_high text out copied hi b fuel i :
  high hi -> drop i text = hi ++ b ->
  blank_strings_loop (length hi + fuel) text out copied i
    = blank_strings_loop fuel text out copied (i + length hi).
Proof.
  intros Hh. revert i. induction Hh as [|x hi Hx Hh IH]; intros i Hd.
  { cbn. by rewrite Nat.add_0_r. }
  cbn [length Nat.add blank_strings_loop]. rewrite Hd. cbn [app].
  unfold is_quote. rewrite !(proj2 (N.eqb_neq x _)) by lia. cbn [orb mbind result_bind].
  rewrite IH; [f_equal; lia|]. rewrite <- drop_drop, Hd. cbn. by rewrite ?drop_0.
Qed.

Lemma is_quote_ascii c : is_quote c = true -> (c < 128)%N.
Proof. unfold is_quote. rewrite !orb_true_iff, !N.eqb_eq. lia. Qed.

(** The regex test of the byte loop. *)
Lemma regex_test_utf8 p c rest :
  (c < 128)%N -> is_chars (p ++ c :: rest) ->
  (if (c =? FSLASH)%N
   then before ← str_slice (utf8 (p ++ c :: rest)) 0 (length (utf8 p));
        Ok (if regex_literal_may_start (chars before) then regex_len (utf8 rest) else None)
   else Ok None)
  = Ok ((fun k => length (utf8 (take k (c :: rest)))) <$>
        (if (c =? FSLASH)%N && regex_literal_may_start p then regex_len rest else None)).
Proof.
  intros Hc [Hp [_ Hr]%Forall_cons]%is_chars_app. destruct (c =? FSLASH)%N; [|done].
  pose proof (str_slice_utf8 [] p (c :: rest)) as E. cbn [app] in E.
  change (length (utf8 [])) with 0 in E. rewrite E. cbn [mbind result_bind andb].
  rewrite chars_utf8 by done. destruct (regex_literal_may_start p); [|done].
  rewrite regex_len_utf8 by done. unfold regex_len. case_bool_decide; [|done].
  cbn [fmap option_fmap option_map]. do 2 f_equal.
  replace (1 + regex_scan false rest + 1) with (S (S (regex_scan false rest))) by lia.
  cbn [take Nat.sub]. rewrite utf8_ascii_cons by done. cbn [length]. lia.
Qed.

Lemma regex_len_bounds rest k : regex_len rest = Some k -> 2 <= k <= S (length rest).
Proof.
  unfold regex_len. case_bool_decide as E; [|done]. intros [= <-].
  apply lookup_lt_Some in E. lia.
Qed.

Lemma utf8_take_S k c rest : 0 < length (utf8 (take (S k) (c :: rest))).
Proof.
  cbn [take]. rewrite utf8_cons, length_app, length_encode_utf8. pose proof (len_utf8_pos c). lia.
Qed.

(** The pieces of a literal whose opening quote is at [p ++ b]. *)
Lemma literal_opening a b c rest :
  (c < 128)%N ->
  str_slice (utf8 ((a ++ b) ++ c :: rest)) (length (utf8 a)) (length (utf8 (a ++ b)) + 1)
    = Ok (utf8 (b ++ [c])).
Proof.
  intros Hc. rewrite (app_cons_snoc (a ++ b)), <- !app_assoc, (app_assoc b).
  replace (length (utf8 (a ++ b)) + 1) with (length (utf8 (a ++ b ++ [c]))); [apply str_slice_utf8|].
  by rewrite app_assoc, length_utf8_snoc, <- length_encode_utf8, encode_utf8_1.
Qed.

Lemma literal_contents p c rest out :
  (c < 128)%N -> is_chars rest ->
  let ml := (c =? BACKTICK)%N in
  blank_contents (S (length (utf8 (p ++ c :: rest)))) c (utf8 (p ++ c :: rest)) out
      (length (utf8 p) + 1)
    = Ok (out ++ blanked_string c ml rest,
          length (utf8 ((p ++ [c]) ++ take (string_len c ml rest) rest))).
Proof.
  intros Hc Hr ml. rewrite (app_cons_snoc p).
  replace (length (utf8 p) + 1) with (length (utf8 (p ++ [c])))
    by (by rewrite length_utf8_snoc, <- length_encode_utf8, encode_utf8_1).
  apply blank_contents_utf8; [done|done|]. rewrite utf8_app, length_app. lia.
Qed.

Lemma literal_closing p c rest m :
  (c < 128)%N -> is_chars rest ->
  bool_decide (utf8 (p ++ c :: rest) !! length (utf8 ((p ++ [c]) ++ take m rest)) = Some c)
    = bool_decide (rest !! m = Some c).
Proof.
  intros Hc Hr. apply bool_decide_ext.
  replace (p ++ c :: rest) with (((p ++ [c]) ++ take m rest) ++ drop m rest)
    by (by rewrite <- !app_assoc, take_drop).
  rewrite utf8_boundary_lookup by (auto using is_chars_drop). by rewrite head_drop.
Qed.

(** One round of the two loops at the character [c], given that they agree on
    what is left. [a] is copied, [b] is read but not copied. *)
Section BlankRound.
Variable fuelc : nat.
Hypothesis IH : forall l t a b fuel acc,
  blank_chars_loop fuelc (a ++ b) l = Ok t ->
  is_chars (a ++ b ++ l) -> length (utf8 l) < fuel ->
  blank_strings_loop fuel (utf8 (a ++ b ++ l)) acc (length (utf8 a)) (length (utf8 (a ++ b)))
    = Ok (acc ++ utf8 (b ++ t)).
Variables (a b rest t : list N) (c : N) (fuel : nat) (acc : Bytes).
Hypothesis Hall : is_chars ((a ++ b) ++ c :: rest).
Hypothesis Hf : length (utf8 (c :: rest)) < S fuel.

Lemma blank_round_high :
  (128 <= c)%N -> high (encode_utf8 c) ->
  blank_chars_loop fuelc ((a ++ b) ++ [c]) rest = Ok t ->
  blank_strings_loop (S fuel) (utf8 ((a ++ b) ++ c :: rest)) acc (length (utf8 a))
      (length (utf8 (a ++ b)))
    = Ok (acc ++ utf8 (b ++ c :: t)).
Proof.
  intros Hhigh Hh Hrun. rewrite utf8_cons, length_app in Hf.
  pose proof (len_utf8_pos c). pose proof (length_encode_utf8 c).
  replace (S fuel) with (length (encode_utf8 c) + (S fuel - length (encode_utf8 c))) by lia.
  erewrite blank_strings_loop_high; [|done|by rewrite drop_utf8, utf8_cons].
  assert (Ei : length (utf8 (a ++ b)) + length (encode_utf8 c) = length (utf8 (a ++ b ++ [c])))
    by (by rewrite app_assoc, length_utf8_snoc, length_encode_utf8).
  rewrite Ei, (app_cons_snoc (a ++ b) c rest), <- !app_assoc, (app_assoc b).
  rewrite <- app_assoc in Hrun.
  rewrite IH with (t := t); [by rewrite <- app_assoc|done| |lia].
  rewrite <- (app_assoc b). cbn [app]. by rewrite (app_assoc a b).
Qed.

Context (Hlow : (c < 128)%N).

Lemma blank_round_regex k :
  regex_len rest = Some k ->
  blank_chars_loop fuelc ((a ++ b) ++ take k (c :: rest)) (drop k (c :: rest)) = Ok t ->
  blank_strings_loop fuel (utf8 ((a ++ b) ++ c :: rest)) acc (length (utf8 a))
      (length (utf8 (a ++ b)) + length (utf8 (take k (c :: rest))))
    = Ok (acc ++ utf8 (b ++ take k (c :: rest) ++ t)).
Proof.
  intros Hk%regex_len_bounds Hrun.
  pose proof (utf8_take_S (k - 1) c rest) as Hpos. replace (S (k - 1)) with k in Hpos by lia.
  rewrite <- (take_drop k (c :: rest)) at 1. rewrite <- !app_assoc, (app_assoc b).
  rewrite <- (app_assoc a b) in Hrun.
  replace (length (utf8 (a ++ b)) + length (utf8 (take k (c :: rest))))
    with (length (utf8 (a ++ b ++ take k (c :: rest)))) by (rewrite !utf8_app, !length_app; lia).
  rewrite IH with (t := t); [by rewrite <- app_assoc|done| |].
  - by rewrite <- (app_assoc b), take_drop, (app_assoc a b).
  - pose proof (f_equal length (utf8_take_drop k (c :: rest))) as E.
    rewrite length_app in E. lia.
Qed.

Lemma blank_round_plain :
  blank_chars_loop fuelc ((a ++ b) ++ [c]) rest = Ok t ->
  blank_strings_loop fuel (utf8 ((a ++ b) ++ c :: rest)) acc (length (utf8 a))
      (length (utf8 (a ++ b)) + 1)
    = Ok (acc ++ utf8 (b ++ c :: t)).
Proof.
  intros Hrun. rewrite utf8_ascii_cons in Hf by done. cbn [length] in Hf.
  rewrite <- app_assoc in Hrun. rewrite (app_cons_snoc (a ++ b) c rest).
  replace (length (utf8 (a ++ b)) + 1) with (length (utf8 ((a ++ b) ++ [c])))
    by (by rewrite length_utf8_snoc, <- length_encode_utf8, encode_utf8_1).
  rewrite <- !app_assoc, (app_assoc b).
  rewrite IH with (t := t); [by rewrite <- app_assoc|done| |lia].
  rewrite <- (app_assoc b). cbn [app]. by rewrite (app_assoc a b).
Qed.

Lemma blank_round_literal emitted k :
  let ml := (c =? BACKTICK)%N in
  (if bool_decide (rest !! string_len c ml rest = Some c)
   then (c :: blanked_string c ml rest ++ [c], 1 + string_len c ml rest + 1)
   else (c :: blanked_string c ml rest, 1 + string_len c ml rest)) = (emitted, k) ->
  blank_chars_loop fuelc ((a ++ b) ++ take k (c :: rest)) (drop k (c :: rest)) = Ok t ->
  let j := length (utf8 (((a ++ b) ++ [c]) ++ take (string_len c ml rest) rest)) in
  blank_strings_loop fuel (utf8 ((a ++ b) ++ c :: rest))
      ((acc ++ utf8 (b ++ [c])) ++ blanked_string c ml rest) j
      (if bool_decide (rest !! string_len c ml rest = Some c) then j + 1 else j)
    = Ok (acc ++ utf8 (b ++ emitted ++ t)).
Proof.
  intros ml. set (m := string_len c ml rest). set (body := blanked_string c ml rest).
  set (p := ((a ++ b) ++ [c]) ++ take m rest). intros Hstep Hrun j.
  assert (Hbody : utf8 body = body) by apply utf8_ascii, blanked_string_ascii.
  assert (Hlen : forall n, length (utf8 (drop n rest)) < fuel).
  { intros n. rewrite utf8_ascii_cons in Hf by done. cbn [length] in Hf.
    rewrite (utf8_take_drop n rest), length_app in Hf. lia. }
  assert (Ec : utf8 [c] = [c]) by (by rewrite utf8_ascii_cons).
  case_bool_decide as Hclose; injection Hstep as <- <-.
  - assert (Etext : (a ++ b) ++ c :: rest = p ++ [c] ++ drop (S m) rest).
    { unfold p. rewrite <- !app_assoc. cbn [app]. by rewrite <- (drop_S _ _ _ Hclose), take_drop. }
    rewrite Etext in *. replace (j + 1) with (length (utf8 (p ++ [c])))
      by (by rewrite length_utf8_snoc, <- length_encode_utf8, encode_utf8_1).
    rewrite IH with (t := t); [| |done|done].
    + rewrite !utf8_app, (utf8_cons c (body ++ [c])), encode_utf8_1, utf8_app, Hbody, Ec by done.
      by rewrite <- !app_assoc.
    + revert Hrun. cbn [Nat.add take drop]. replace (m + 1) with (S m) by lia.
      rewrite (take_S_r _ _ _ Hclose). unfold p. by rewrite <- !app_assoc.
  - assert (Etext : (a ++ b) ++ c :: rest = p ++ [] ++ drop m rest).
    { unfold p. rewrite <- !app_assoc. cbn [app]. by rewrite take_drop. }
    rewrite Etext in *. unfold j. fold p. rewrite <- (app_nil_r p) at 3.
    rewrite IH with (t := t); [| |done|done].
    + rewrite !utf8_app, (utf8_cons c body), encode_utf8_1, Hbody, Ec by done.
      by rewrite <- !app_assoc.
    + revert Hrun. cbn [Nat.add take drop]. unfold p. rewrite app_nil_r. by rewrite <- !app_assoc.
Qed.

End BlankRound.

Lemma blank_strings_loop_utf8 fuelc l t a b fuel acc :
  blank_chars_loop fuelc (a ++ b) l = Ok t ->
  is_chars (a ++ b ++ l) -> length (utf8 l) < fuel ->
  blank_strings_loop fuel (utf8 (a ++ b ++ l)) acc (length (utf8 a)) (length (utf8 (a ++ b)))
    = Ok (acc ++ utf8 (b ++ t)).
Proof.
  revert l t a b fuel acc. induction fuelc as [|fuelc IH]; [done|].
  intros [|c rest] t a b fuel acc Hrun Hall Hf; (destruct fuel as [|fuel]; [lia|]).
  { cbn in Hrun. injection Hrun as <-. rewrite app_nil_r in *.
    cbn [blank_strings_loop]. rewrite drop_ge by done.
    pose proof (str_slice_utf8 a b []) as E. rewrite app_nil_r in E. by rewrite E. }
  cbn [blank_chars_loop] in Hrun. destruct (blank_step (a ++ b) c rest) as [emitted k] eqn:Hstep.
  destruct (blank_chars_loop fuelc _ _) as [t'|?|] eqn:Hrun'; try done.
  cbn in Hrun. injection Hrun as <-. rewrite app_assoc in *.
  pose proof Hall as [_ [Hc Hr]%Forall_cons]%is_chars_app. unfold blank_step in Hstep.
  destruct (encode_cases c Hc) as [[Hlow _]|[Hhigh Hh]].
  - cbn [blank_strings_loop]. rewrite drop_utf8, (utf8_ascii_cons c rest) by done.
    rewrite regex_test_utf8 by done. cbn [mbind result_bind].
    destruct (if _ && _ then _ else None) as [kr|] eqn:Hreg; cbn [fmap option_fmap option_map].
    { injection Hstep as <- <-. apply (blank_round_regex fuelc IH); try done.
      by destruct (_ && _). }
    destruct (is_quote c) eqn:Hq.
    2: { injection Hstep as <- <-. by apply (blank_round_plain fuelc IH). }
    rewrite literal_opening by done. cbn [mbind result_bind].
    rewrite literal_contents by done. cbn [mbind result_bind].
    rewrite literal_closing by done. by eapply (blank_round_literal fuelc IH).
  - unfold is_quote in Hstep. rewrite !(proj2 (N.eqb_neq c _)) in Hstep by lia.
    cbn [andb orb] in Hstep. injection Hstep as <- <-. by apply (blank_round_high fuelc IH).
Qed.

(** ** What blanking keeps *)

(** A character stays or becomes a space. *)
Definition space_rel (x y : N) : Prop := y = x \/ y = SP.

Lemma space_rel_refl l : Forall2 space_rel l l.
Proof. induction l; constructor; [by left|done]. Qed.

Lemma blank_char_space c : space_rel c (blank_char c).
Proof. unfold space_rel, blank_char. destruct (N.eqb_spec c NL); auto. Qed.

Lemma blanked_string_rel q ml l :
  Forall2 space_rel (take (string_len q ml l) l) (blanked_string q ml l).
Proof.
  induction l as [|c|c d l IH1 IH2] using list_two_ind; [constructor|..].
  - rewrite string_len_one, blanked_string_one. repeat case_match; cbn [take]; [constructor..|].
    constructor; [apply blank_char_space|constructor].
  - rewrite string_len_cons, blanked_string_cons.
    destruct (c =? q)%N; [constructor|]. destruct (c =? BSLASH)%N.
    { cbn [Nat.add take]. do 2 (constructor; [by right|]). done. }
    destruct (_ && _); [constructor|]. cbn [take]. constructor; [apply blank_char_space|done].
Qed.

Lemma blank_step_shape before c rest emitted k :
  blank_step before c rest = (emitted, k) ->
  1 <= k <= length (c :: rest) /\ Forall2 space_rel (take k (c :: rest)) emitted.
Proof.
  unfold blank_step. destruct (if _ && _ then _ else None) as [kr|] eqn:Hreg.
  { intros [= <- <-]. destruct (_ && _); [|done].
    apply regex_len_bounds in Hreg. split; [cbn [length]; lia|apply space_rel_refl]. }
  destruct (is_quote c).
  2: { intros [= <- <-]. split; [cbn; lia|]. repeat constructor. }
  set (m := string_len c _ rest). pose proof (string_len_le c (c =? BACKTICK)%N rest) as Hm.
  pose proof (blanked_string_rel c (c =? BACKTICK)%N rest) as Hrel. fold m in Hm, Hrel.
  case_bool_decide as Hclose; intros [= <- <-].
  - apply lookup_lt_Some in Hclose as Hlt. split; [cbn [length]; lia|].
    cbn [Nat.add take]. replace (m + 1) with (S m) by lia. constructor; [by left|].
    rewrite (take_S_r _ _ _ Hclose). apply Forall2_app; [done|]. repeat constructor.
  - split; [cbn [length]; lia|]. cbn [Nat.add take]. constructor; [by left|done].
Qed.

Lemma blank_chars_loop_total fuel before l :
  length l < fuel ->
  exists t, blank_chars_loop fuel before l = Ok t /\ Forall2 space_rel l t.
Proof.
  revert before l. induction fuel as [|fuel IH]; intros before l Hf; [lia|].
  destruct l as [|c rest]; [exists []; by split|]. cbn [blank_chars_loop].
  destruct (blank_step before c rest) as [emitted k] eqn:Hs.
  apply blank_step_shape in Hs as [Hk Hrel].
  destruct (IH (before ++ take k (c :: rest)) (drop k (c :: rest))) as (t & E & Ht).
  { rewrite length_drop. cbn [length] in *. lia. }
  rewrite E. exists (emitted ++ t). split; [done|].
  rewrite <- (take_drop k (c :: rest)) at 1. by apply Forall2_app.
Qed.

Lemma blank_string_contents_utf8 s :
  is_chars s ->
  exists t, blank_string_contents_chars s = Ok t /\ Forall2 space_rel s t
    /\ blank_string_contents (utf8 s) = Ok (utf8 t).
Proof.
  intros Hs. destruct (blank_chars_loop_total (S (length s)) [] s) as (t & E & Ht); [lia|].
  exists t. split; [done|]. split; [done|].
  exact (blank_strings_loop_utf8 _ s t [] [] (S (length (utf8 s))) [] E Hs ltac:(lia)).
Qed.

Lemma blank_rel_is_chars s t : is_chars s -> Forall2 blank_rel s t -> is_chars t.
Proof.
  intros Hs Ht. revert Hs. induction Ht as [|c c' s t Hc' Ht IH]; intros Hs; [constructor|].
  apply Forall_cons in Hs as [Hc Hs]. constructor; [|by apply IH]. by destruct Hc' as [->|[-> _]].
Qed.

Lemma strip_text_utf8 {S} (step : S -> N -> list N -> S * token) `{!StepLaws step} st s :
  is_chars s ->
  exists t, strips step st s t /\ strip_text step st (utf8 s) = Ok (utf8 t)
    /\ strip_text step st (utf8 t) = Ok (utf8 t).
Proof.
  intros Hs. destruct (strip_chars_strips step st s) as (t & Ht & E). exists t. split; [done|].
  pose proof (blank_rel_is_chars _ _ Hs (strips_rel step _ _ _ Ht)) as Htc.
  pose proof (strips_idempotent step _ _ _ Ht) as Hid. apply strip_chars_iff in Hid; [|done].
  unfold strip_text. rewrite !chars_utf8, E, Hid by done. done.
Qed.

Lemma strip_c_style_total allow s :
  is_chars s ->
  exists t, strips (c_style_step allow) tt s t /\ strip_c_style (utf8 s) allow = Ok (utf8 t)
    /\ strip_c_style (utf8 t) allow = Ok (utf8 t).
Proof.
  intros Hs. destruct (strip_chars_strips (c_style_step allow) tt s) as (t & Ht & E).
  exists t. split; [done|]. split; [by apply strip_c_style_utf8|].
  apply strip_c_style_utf8.
  - eapply blank_rel_is_chars; [done|]. by eapply (strips_rel (c_style_step allow)).
  - apply strip_chars_iff; [apply c_style_laws|]. exact (strips_idempotent (c_style_step allow) _ _ _ Ht).
Qed.

(** Every language's stripper on the encoding of a text. *)
Lemma strip_comments_utf8 s lang :
  is_chars s ->
  exists t, Forall2 blank_rel s t /\ strip_comments_for_regex (utf8 s) lang = Ok (utf8 t)
    /\ strip_comments_for_regex (utf8 t) lang = Ok (utf8 t).
Proof.
  intros Hs.
  assert (Hstep : forall S (step : S -> N -> list N -> S * token) (L : StepLaws step) st,
    exists t, Forall2 blank_rel s t /\ strip_text step st (utf8 s) = Ok (utf8 t)
      /\ strip_text step st (utf8 t) = Ok (utf8 t)).
  { intros S step L st. destruct (strip_text_utf8 step st s Hs) as (t & Ht & E).
    exists t. split; [by eapply strips_rel|done]. }
  assert (Hc : forall allow, exists t, Forall2 blank_rel s t
      /\ strip_c_style (utf8 s) allow = Ok (utf8 t) /\ strip_c_style (utf8 t) allow = Ok (utf8 t)).
  { intros allow. destruct (strip_c_style_total allow s Hs) as (t & Ht & E).
    exists t. split; [by eapply strips_rel|done]. }
  destruct lang; cbn [strip_comments_for_regex]; first [apply Hc | apply Hstep; apply _].
Qed.

(** C38: On every text, in every language, comment stripping returns without
    panicking, and position by position it keeps the character or puts a
    space in place of a character that is no line feed: the number of
    characters and every line end stay where they were. *)
Theorem strip_comments_layout s lang :
  is_chars s ->
  returns (strip_comments_for_regex (utf8 s) lang) (fun out =>
    exists t, out = utf8 t /\ is_chars t /\ length t = length s
      /\ (forall i c, s !! i = Some c -> t !! i = Some c \/ (t !! i = Some SP /\ c <> NL))
      /\ (forall i, t !! i = Some NL <-> s !! i = Some NL)).
Proof.
  intros Hs. destruct (strip_comments_utf8 s lang Hs) as (t & Ht & E & _). rewrite E.
  exists t. split; [done|]. split; [by eapply blank_rel_is_chars|].
  split; [symmetry; by eapply Forall2_length|]. split.
  - intros i c Hi. destruct (Forall2_lookup_l _ _ _ _ _ Ht Hi) as (c' & Hc' & [->|[-> ?]]); auto.
  - intros i. split; intros Hi.
    + by destruct (Forall2_lookup_r _ _ _ _ _ Ht Hi) as (c & Hc & [->|[? _]]).
    + by destruct (Forall2_lookup_l _ _ _ _ _ Ht Hi) as (c & Hc & [->|[_ ?]]).
Qed.

(** Stripping is idempotent: on its own output, which holds no comment
    any more, it changes nothing. *)
Theorem strip_comments_idempotent s lang :
  is_chars s ->
  returns (strip_comments_for_regex (utf8 s) lang)
    (fun out => strip_comments_for_regex out lang = Ok out).
Proof. intros Hs. by destruct (strip_comments_utf8 s lang Hs) as (t & _ & -> & E). Qed.

(** The C-family stripper, which reads and slices bytes, slices only at
    character boundaries and gives the encoding of what the same scanner gives
    when it reads characters. *)
Theorem strip_c_style_reads_characters s allow :
  is_chars s ->
  returns (strip_chars (c_style_step allow) tt s)
    (fun t => strip_c_style (utf8 s) allow = Ok (utf8 t)).
Proof.
  intros Hs. destruct (strip_chars_strips (c_style_step allow) tt s) as (t & _ & E).
  rewrite E. by apply strip_c_style_utf8.
Qed.

(** String blanking, over bytes, slices only at character boundaries and
    gives the encoding of what its scanner gives over characters, which keeps
    the number of characters and changes a character only to a space. *)
Theorem blank_string_contents_reads_characters s :
  is_chars s ->
  returns (blank_string_contents_chars s) (fun t =>
    blank_string_contents (utf8 s) = Ok (utf8 t) /\ length t = length s
    /\ forall i c, s !! i = Some c -> t !! i = Some c \/ t !! i = Some SP).
Proof.
  intros Hs. destruct (blank_string_contents_utf8 s Hs) as (t & -> & Ht & E). split; [done|].
  split; [symmetry; by eapply Forall2_length|].
  intros i c Hi. destruct (Forall2_lookup_l _ _ _ _ _ Ht Hi) as (c' & Hc' & [->| ->]); auto.
Qed.

(** ** Witnesses *)

(** A line of Rust with a two-byte character in a nested comment. *)
Definition rust_text : list N :=
  lit "let s = 'x'; /* a /* " ++ [233%N] ++ lit " */ b */" ++ [NL] ++ lit "f(); // c".

Lemma rust_text_chars : is_chars rust_text.
Proof. repeat constructor. Qed.

Lemma strip_comments_layout_witness :
  is_chars rust_text /\
  returns (strip_comments_for_regex (utf8 rust_text) ClRust) (fun out =>
    exists t, out = utf8 t /\ is_chars t /\ length t = length rust_text
      /\ (forall i c, rust_text !! i = Some c -> t !! i = Some c \/ (t !! i = Some SP /\ c <> NL))
      /\ (forall i, t !! i = Some NL <-> rust_text !! i = Some NL)).
Proof. split; [apply rust_text_chars|]. apply strip_comments_layout, rust_text_chars. Defined.

Lemma strip_comments_idempotent_witness :
  is_chars rust_text /\
  strip_comments_for_regex (utf8 rust_text) ClRust
    = Ok (lit "let s = 'x';                  " ++ [NL] ++ lit "f();     ") /\
  returns (strip_comments_for_regex (utf8 rust_text) ClRust)
    (fun out => strip_comments_for_regex out ClRust = Ok out).
Proof.
  split; [apply rust_text_chars|]. split; [vm_compute; reflexivity|].
  apply strip_comments_idempotent, rust_text_chars.
Defined.

Definition js_text : list N :=
  lit "a = '" ++ [233%N] ++ lit "//' /* " ++ [8364%N] ++ lit " */ + /['/]/ // x".

Lemma js_text_chars : is_chars js_text.
Proof. repeat constructor. Qed.

Lemma strip_c_style_reads_characters_witness :
  is_chars js_text /\
  returns (strip_chars (c_style_step true) tt js_text)
    (fun t => strip_c_style (utf8 js_text) true = Ok (utf8 t)).
Proof. split; [apply js_text_chars|]. apply strip_c_style_reads_characters, js_text_chars. Defined.

Lemma blank_string_contents_reads_characters_witness :
  is_chars js_text /\
  returns (blank_string_contents_chars js_text) (fun t =>
    blank_string_contents (utf8 js_text) = Ok (utf8 t) /\ length t = length js_text
    /\ forall i c, js_text !! i = Some c -> t !! i = Some c \/ t !! i = Some SP).
Proof.
  split; [apply js_text_chars|]. apply blank_string_contents_reads_characters, js_text_chars.
Defined.

(** ** What the module documentation says otherwise *)

(** Byte offsets move when a comment holds a multi-byte character. *)
Example strip_comments_moves_bytes :
  match strip_comments_for_regex (utf8 rust_text) ClRust with
  | Ok out => length out + 1 = length (utf8 rust_text)
  | _ => False
  end.
Proof. vm_compute. reflexivity. Qed.

(** Contents of string literals stay. *)
Example strip_comments_keeps_literals :
  strip_comments_for_regex (lit "a = 'b' // c") ClTypeScript = Ok (lit "a = 'b'     ").
Proof. vm_compute. reflexivity. Qed.

(** A newline escaped in a literal is blanked, so the lines around it merge. *)
Example blank_string_contents_merges_lines :
  blank_string_contents (lit "x = 'a\" ++ [NL] ++ lit "b';") = Ok (lit "x = '    ';").
Proof. vm_compute. reflexivity. Qed.
