(* ===== verification/LeaseKeeper.v ===== *)
(** * The keeper of a session's daemon lease
      (crates/codegraph-daemon/src/lease_keeper.rs)

    The loop that holds a passive lease on the shared daemon and re-attaches
    with backoff. Its effects are arguments, as in the source: here closures
    over a world they may change. A run is cut after [fuel] turns of a loop. *)
From S2P Require Import Prelude.

(** ** Durations, in nanoseconds *)

Definition Duration : Set := N.
Definition Duration_MAX : Duration := (18446744073709551615 * 1000000000 + 999999999)%N.
Definition from_millis_duration (millis : N) : Duration := (millis * 1000000)%N.
Definition saturating_mul (d : Duration) (k : N) : Duration := N.min (d * k) Duration_MAX.

(** ** The retry policy *)

Record DaemonRetryPolicy : Set := mkPolicy { base : Duration; max : Duration }.

Definition from_millis (base_ms max_ms : N) : DaemonRetryPolicy :=
  mkPolicy (from_millis_duration base_ms) (from_millis_duration (N.max max_ms base_ms)).

Definition retries (policy : DaemonRetryPolicy) : bool := negb (base policy =? 0)%N.

Definition next (policy : DaemonRetryPolicy) (delay : Duration) : Duration :=
  N.min (saturating_mul delay 2) (max policy).

Inductive Attach : Set := JustSpawned | StartIfAbsent.

#[export] Instance Attach_eq_dec : EqDecision Attach.
Proof. solve_decision. Defined.

(** ** The loop *)

(** Returned, or still running when the fuel is out. *)
Inductive outcome (W : Type) : Type := Returned (w : W) | Running (w : W).
Arguments Returned {W} w.
Arguments Running {W} w.

Definition world {W} (o : outcome W) : W := match o with Returned w | Running w => w end.

Section Keeper.
Context {W L : Type}.
Variables (policy : DaemonRetryPolicy) (liveness_poll : Duration).
Variable attach : W -> Attach -> option L * W.
Variable is_live : W -> L -> bool * W.
Variable wait : W -> Duration -> bool * W.
Variable may_retry : W -> bool * W.

(** The inner loop over a held lease: [inl] when it returns from the keeper or
    the fuel is out, [inr] when the lease is lost. *)
Fixpoint hold (fuel : nat) (lease : L) (w : W) : outcome W + W :=
  match fuel with
  | 0 => inl (Running w)
  | S fuel =>
      let '(go, w) := wait w liveness_poll in
      if negb go then inl (Returned w)
      else let '(live, w) := is_live w lease in
           if negb live then inr w else hold fuel lease w
  end.

Fixpoint keeper_loop (fuel : nat) (mode : Attach) (delay : Duration) (w : W) : outcome W :=
  match fuel with
  | 0 => Running w
  | S fuel =>
      let '(attached, w) := attach w mode in
      let held := match attached with
                  | Some lease => match hold fuel lease w with
                                  | inl o => inl o
                                  | inr w => inr (base policy, w)
                                  end
                  | None => inr (delay, w)
                  end in
      match held with
      | inl o => o
      | inr (delay, w) =>
          if negb (retries policy) then Returned w else
          let '(go, w) := wait w delay in
          if negb go then Returned w else
          let '(allowed, w) := may_retry w in
          if negb allowed then Returned w else
          keeper_loop fuel StartIfAbsent (next policy delay) w
      end
  end.

Definition run_keeper (fuel : nat) (w : W) : outcome W :=
  keeper_loop fuel JustSpawned (base policy) w.

End Keeper.

(** ** What an environment sees

    The history of the calls with their answers, latest first. An environment
    is any function from the history to the answers. *)

Inductive Event : Set :=
| EvAttach (mode : Attach) (attached : bool)
| EvWait (delay : Duration) (go : bool)
| EvLive (live : bool)
| EvMayRetry (allowed : bool).

Record Environment : Type := mkEnv {
  env_attach : list Event -> bool;
  env_live : list Event -> bool;
  env_wait : list Event -> bool;
  env_may_retry : list Event -> bool
}.

Section Traced.
Variables (policy : DaemonRetryPolicy) (liveness_poll : Duration) (env : Environment).

Definition traced_attach (h : list Event) (mode : Attach) : option unit * list Event :=
  let ok := env_attach env h in ((if ok then Some tt else None), EvAttach mode ok :: h).
Definition traced_live (h : list Event) (_ : unit) : bool * list Event :=
  let b := env_live env h in (b, EvLive b :: h).
Definition traced_wait (h : list Event) (d : Duration) : bool * list Event :=
  let b := env_wait env h in (b, EvWait d b :: h).
Definition traced_may_retry (h : list Event) : bool * list Event :=
  let b := env_may_retry env h in (b, EvMayRetry b :: h).

Definition keeper_run (fuel : nat) : outcome (list Event) :=
  run_keeper policy liveness_poll traced_attach traced_live traced_wait traced_may_retry fuel [].

End Traced.

(** ** The protocol *)

(** The retries since a lease was last held. *)
Fixpoint retries_since (h : list Event) : N :=
  match h with
  | [] => 0
  | EvAttach _ true :: _ => 0
  | EvMayRetry _ :: h => 1 + retries_since h
  | _ :: h => retries_since h
  end.

(** The delay of the [r]-th retry in a row. *)
Definition backoff (policy : DaemonRetryPolicy) (r : N) : Duration :=
  N.min (base policy * 2 ^ r) (max policy).

Section Protocol.
Variables (policy : DaemonRetryPolicy) (liveness_poll : Duration).

(** The next call is allowed after [past]. *)
Definition allowed (past : list Event) (e : Event) : Prop :=
  match e, past with
  | EvAttach mode _, [] => mode = JustSpawned
  | EvAttach mode _, EvMayRetry true :: EvWait _ true :: _ => mode = StartIfAbsent
  | EvWait delay _, (EvAttach _ true | EvLive true) :: _ => delay = liveness_poll
  | EvWait delay _, (EvAttach _ false | EvLive false) :: _ =>
      retries policy = true /\ delay = backoff policy (retries_since past)
  | EvLive _, EvWait _ true :: (EvAttach _ true | EvLive true) :: _ => True
  | EvMayRetry _, EvWait _ true :: (EvAttach _ false | EvLive false) :: _ => True
  | _, _ => False
  end.

Fixpoint follows (h : list Event) : Prop :=
  match h with
  | [] => True
  | e :: past => allowed past e /\ follows past
  end.

(** The keeper stops after [h]. *)
Definition stops (h : list Event) : Prop :=
  match h with
  | EvWait _ false :: _ | EvMayRetry false :: _ => True
  | (EvAttach _ false | EvLive false) :: _ => retries policy = false
  | _ => False
  end.

(** Where the keeper's loop may start a turn. *)
Definition turn (mode : Attach) (delay : Duration) (h : list Event) : Prop :=
  follows h /\ delay = backoff policy (retries_since h)
  /\ match h with
     | [] => mode = JustSpawned
     | EvMayRetry true :: EvWait _ true :: _ => mode = StartIfAbsent
     | _ => False
     end.

(** The lease is held. *)
Definition holding (h : list Event) : Prop :=
  follows h /\ retries_since h = 0%N
  /\ match h with (EvAttach _ true | EvLive true) :: _ => True | _ => False end.

End Protocol.

(** ** Facts *)

Definition policy_ok (policy : DaemonRetryPolicy) : Prop :=
  (base policy <= max policy /\ max policy <= Duration_MAX)%N.

Lemma from_millis_ok base_ms max_ms :
  (base_ms < 2 ^ 64)%N -> (max_ms < 2 ^ 64)%N -> policy_ok (from_millis base_ms max_ms).
Proof.
  unfold policy_ok, from_millis, from_millis_duration, Duration_MAX. cbn [base max].
  change (2 ^ 64)%N with 18446744073709551616%N. lia.
Qed.

Lemma next_backoff policy r :
  policy_ok policy -> next policy (backoff policy r) = backoff policy (1 + r).
Proof.
  unfold policy_ok, next, saturating_mul, backoff. intros [Hb Hm].
  rewrite N.pow_add_r, N.pow_1_r. pose proof (N.pow_nonzero 2 r). nia.
Qed.

Lemma backoff_0 policy : policy_ok policy -> backoff policy 0 = base policy.
Proof. unfold policy_ok, backoff. rewrite N.pow_0_r, N.mul_1_r. lia. Qed.

Section Facts.
Variables (policy : DaemonRetryPolicy) (liveness_poll : Duration) (env : Environment).
Hypothesis Hok : policy_ok policy.

Notation hold' := (hold liveness_poll (traced_live env) (traced_wait env)).
Notation keeper_loop' := (keeper_loop policy liveness_poll (traced_attach env) (traced_live env)
                            (traced_wait env) (traced_may_retry env)).
Notation follows' := (follows policy liveness_poll).
Notation stops' := (stops policy).

Definition good (o : outcome (list Event)) : Prop :=
  follows' (world o) /\ match o with Returned h => stops' h | Running _ => True end.

Lemma hold_follows fuel h :
  holding policy liveness_poll h ->
  match hold' fuel tt h with
  | inl o => good o
  | inr h' => follows' h' /\ retries_since h' = 0%N /\ exists past, h' = EvLive false :: past
  end.
Proof.
  revert h. induction fuel as [|fuel IH]; intros h (Hf & Hr & Hh); [done|].
  cbn -[env_wait env_live]. unfold traced_wait, traced_live.
  assert (Ha : allowed policy liveness_poll h (EvWait liveness_poll (env_wait env h)))
    by (by destruct h as [|[? []| |[]|] ?]).
  destruct (env_wait env h) eqn:Hw; cbn [negb]; [|done].
  assert (Hl : forall b, allowed policy liveness_poll (EvWait liveness_poll true :: h) (EvLive b))
    by (intros b; by destruct h as [|[? []| |[]|] ?]).
  destruct (env_live env _); cbn [negb].
  - apply IH. split; [|done]. cbn. auto.
  - split; [cbn; auto|]. split; [done|eauto].
Qed.

Lemma keeper_loop_good fuel mode delay h :
  turn policy liveness_poll mode delay h -> good (keeper_loop' fuel mode delay h).
Proof.
  revert mode delay h. induction fuel as [|fuel IH]; intros mode delay h (Hf & -> & Hh); [done|].
  cbn -[env_attach hold]. unfold traced_attach at 1.
  assert (Ha : forall b, allowed policy liveness_poll h (EvAttach mode b))
    by (intros b; by destruct h as [|[| | |[]] [|[|? []| |] ?]]).
  assert (Hretry : forall past e delay, follows' (e :: past) -> e = EvAttach mode false \/ e = EvLive false ->
    delay = backoff policy (retries_since (e :: past)) ->
    good (if negb (retries policy) then Returned (e :: past) else
          let '(go, w) := traced_wait env (e :: past) delay in
          if negb go then Returned w else
          let '(allowed, w) := traced_may_retry env w in
          if negb allowed then Returned w else
          keeper_loop' fuel StartIfAbsent (next policy delay) w)).
  { intros past e delay Hep He ->. destruct (retries policy) eqn:Hr; cbn [negb].
    2:{ split; [done|]. by destruct He as [-> | ->]. }
    unfold traced_wait, traced_may_retry.
    assert (Hw : forall b, allowed policy liveness_poll (e :: past)
              (EvWait (backoff policy (retries_since (e :: past))) b))
      by (intros b; by destruct He as [-> | ->]).
    destruct (env_wait env (e :: past)) eqn:Ew; cbn [negb]; [|by split].
    assert (Hm : forall b, allowed policy liveness_poll
              (EvWait (backoff policy (retries_since (e :: past))) true :: e :: past) (EvMayRetry b))
      by (intros b; by destruct He as [-> | ->]).
    destruct (env_may_retry env _) eqn:Em; cbn [negb]; [|by split].
    apply IH. split; [by split|]. split; [|done]. by rewrite next_backoff. }
  destruct (env_attach env h) eqn:Eat.
  - pose proof (hold_follows fuel (EvAttach mode true :: h)) as Hh'.
    destruct (hold' fuel tt _) as [o|h'].
    + apply Hh'. by repeat split.
    + destruct Hh' as (Hf' & Hr' & past & ->); [by repeat split|].
      apply Hretry; [done|by right|]. by rewrite Hr', backoff_0.
  - apply Hretry; [by split|by left|done].
Qed.

Lemma keeper_run_good fuel : good (keeper_run policy liveness_poll env fuel).
Proof.
  apply keeper_loop_good. split; [done|]. split; [|done]. cbn. by rewrite backoff_0.
Qed.

(** ** Stopping *)

Variable n : nat.
Hypothesis Hstop : forall h, n <= length h -> env_wait env h = false.

Lemma hold_stops fuel h :
  n + 2 < fuel + length h -> length h <= n + 2 ->
  match hold' fuel tt h with
  | inl (Returned h') => length h' <= n + 3
  | inl (Running _) => False
  | inr h' => length h < length h' <= n + 1
  end.
Proof.
  revert h. induction fuel as [|fuel IH]; intros h Hn Hl; [lia|].
  cbn -[env_wait env_live]. unfold traced_wait, traced_live.
  destruct (env_wait env h) eqn:Hw; cbn [negb length]; [|lia].
  assert (length h < n) by (destruct (decide (n <= length h)); [by rewrite Hstop in Hw|lia]).
  destruct (env_live env _); cbn [negb]; [|cbn; lia].
  specialize (IH (EvLive true :: EvWait liveness_poll true :: h)). cbn [length] in IH.
  unfold traced_wait, traced_live in IH.
  destruct (hold liveness_poll _ _ fuel tt _) as [[]|]; lia.
Qed.

Lemma keeper_loop_stops fuel mode delay h :
  n + 2 < fuel + length h -> length h <= n + 1 ->
  exists h', keeper_loop' fuel mode delay h = Returned h' /\ length h' <= n + 3.
Proof.
  revert mode delay h. induction fuel as [|fuel IH]; intros mode delay h Hn Hl; [lia|].
  cbn -[env_attach hold]. unfold traced_attach at 1.
  assert (Hretry : forall h1 delay, length h < length h1 <= n + 2 ->
    exists h', (if negb (retries policy) then Returned h1 else
          let '(go, w) := traced_wait env h1 delay in
          if negb go then Returned w else
          let '(allowed, w) := traced_may_retry env w in
          if negb allowed then Returned w else
          keeper_loop' fuel StartIfAbsent (next policy delay) w) = Returned h' /\ length h' <= n + 3).
  { intros h1 d Hh1. destruct (retries policy); cbn [negb]; [|exists h1; split; [done|lia]].
    unfold traced_wait, traced_may_retry.
    destruct (env_wait env h1) eqn:Hw; cbn [negb];
      [|eexists; split; [done|cbn; lia]].
    assert (length h1 < n) by (destruct (decide (n <= length h1)); [by rewrite Hstop in Hw|lia]).
    destruct (env_may_retry env _); cbn [negb]; [|eexists; split; [done|cbn; lia]].
    apply IH; cbn; lia. }
  destruct (env_attach env h).
  - pose proof (hold_stops fuel (EvAttach mode true :: h)) as Hh'. cbn [length] in Hh'.
    destruct (hold' fuel tt _) as [[h'|]|h'].
    + exists h'. split; [done|]. apply Hh'; lia.
    + exfalso. apply Hh'; lia.
    + apply Hretry. lia.
  - apply Hretry. cbn. lia.
Qed.

End Facts.

(** ** Properties of the lease keeper *)

(** In every environment, the keeper's calls follow its protocol: the
    first attach waits for the daemon just spawned, every later one comes right
    after a backoff wait and a permitted retry and may start a daemon; while a
    lease is held each liveness check follows a poll-length wait; the [r]-th
    retry in a row waits the base delay doubled [r] times, up to the maximum,
    and a held lease resets the count. The keeper returns only when it was
    stopped, the retry was refused, or the policy does not retry. *)
Theorem run_keeper_protocol base_ms max_ms liveness_poll env fuel :
  (base_ms < 2 ^ 64)%N -> (max_ms < 2 ^ 64)%N ->
  let policy := from_millis base_ms max_ms in
  let o := keeper_run policy liveness_poll env fuel in
  follows policy liveness_poll (world o)
  /\ match o with Returned h => stops policy h | Running _ => True end.
Proof. intros Hb Hm. apply keeper_run_good. by apply from_millis_ok. Qed.

(** Dropping the keeper ends it: once the environment answers every wait
    with a stop, from its [n]-th call on, the keeper returns within three more
    calls, whatever the other answers are. *)
Theorem run_keeper_stops policy liveness_poll env n :
  (forall h, n <= length h -> env_wait env h = false) ->
  exists h, keeper_run policy liveness_poll env (n + 3) = Returned h /\ length h <= n + 3.
Proof. intros Hstop. apply (keeper_loop_stops policy liveness_poll env n Hstop); cbn; lia. Qed.

(** Two failed attaches, a lease lost after one check, then a stop. *)
Definition demo_env : Environment :=
  mkEnv (fun h => 4 <=? length h) (fun _ => false) (fun h => length h <? 11) (fun _ => true).

Definition demo_policy : DaemonRetryPolicy := from_millis 5000 300000.

Example demo_keeper_run :
  world (keeper_run demo_policy 500%N demo_env 20)
  = rev [EvAttach JustSpawned false; EvWait 5000000000%N true; EvMayRetry true;
         EvAttach StartIfAbsent false; EvWait 10000000000%N true; EvMayRetry true;
         EvAttach StartIfAbsent true; EvWait 500%N true; EvLive false;
         EvWait 5000000000%N true; EvMayRetry true;
         EvAttach StartIfAbsent true; EvWait 500%N false].
Proof. by vm_compute. Qed.

Lemma run_keeper_protocol_witness :
  (5000 < 2 ^ 64)%N /\ follows demo_policy 500%N (world (keeper_run demo_policy 500%N demo_env 20)).
Proof.
  split; [done|]. exact (proj1 (run_keeper_protocol 5000 300000 500%N demo_env 20 eq_refl eq_refl)).
Defined.

Lemma run_keeper_stops_witness :
  (forall h, 11 <= length h -> env_wait demo_env h = false)
  /\ exists h, keeper_run demo_policy 500%N demo_env 14 = Returned h /\ length h <= 14.
Proof.
  assert (H : forall h, 11 <= length h -> env_wait demo_env h = false)
    by (intros h Hh; apply Nat.ltb_ge; exact Hh).
  split; [exact H|]. exact (run_keeper_stops demo_policy 500%N demo_env 11 H).
Defined.
