(* ===== verification/StrOps.v ===== *)
(** * More [str] methods

    Substring search, slicing at an offset, splitting at the last or at any of
    several characters, and byte tests, with what the search finds. Offsets are
    bytes. *)
From S2P Require Import Prelude Strings PathUtil.

(** [s.find(p)] of a string: the offset of its first occurrence. *)
Fixpoint find_sub (p s : string) : option nat :=
  if starts_with s p then Some 0 else
  match s with EmptyString => None | String _ s => S <$> find_sub p s end.

(** [s.contains(p)]. *)
Definition contains_sub (s p : string) : bool :=
  match find_sub p s with Some _ => true | None => false end.

(** [&s[n..]], [&s[..n]]. *)
Fixpoint str_drop (n : nat) (s : string) : string :=
  match n, s with
  | 0, _ => s
  | _, EmptyString => EmptyString
  | S n, String _ s => str_drop n s
  end.

Fixpoint str_take (n : nat) (s : string) : string :=
  match n, s with
  | 0, _ | _, EmptyString => EmptyString
  | S n, String a s => String a (str_take n s)
  end.

(** [s.as_bytes().get(n)]. *)
Fixpoint byte_at (n : nat) (s : string) : option ascii :=
  match s with
  | EmptyString => None
  | String a s => match n with 0 => Some a | S n => byte_at n s end
  end.

(** [s.bytes().all(p)]. *)
Fixpoint all_bytes (p : ascii -> bool) (s : string) : bool :=
  match s with EmptyString => true | String a s => p a && all_bytes p s end.

(** [s.strip_suffix(p)]. *)
Fixpoint str_strip_suffix (s p : string) : option string :=
  if String.eqb s p then Some EmptyString else
  match s with
  | EmptyString => None
  | String a s => String a <$> str_strip_suffix s p
  end.

(** [s.chars().next_back()], of a text whose last character is ASCII. *)
Fixpoint last_byte (s : string) : option ascii :=
  match s with
  | EmptyString => None
  | String a EmptyString => Some a
  | String _ s => last_byte s
  end.

(** [s.rsplit_once(c)] of an ASCII character. *)
Definition rsplit_once (c : ascii) (s : string) : option (string * string) :=
  match rfind c s with
  | Some i => Some (str_take i s, str_drop (S i) s)
  | None => None
  end.

(** [s.rsplit(c).next()]. *)
Definition after_last (c : ascii) (s : string) : string :=
  match rsplit_once c s with Some (_, tail) => tail | None => s end.

(** [s.split(p)] at every byte with a property. *)
Fixpoint split_any (p : ascii -> bool) (s : string) : list string :=
  match s with
  | EmptyString => [EmptyString]
  | String a s =>
      if p a then EmptyString :: split_any p s
      else match split_any p s with
           | [] => [String a EmptyString]
           | w :: ws => String a w :: ws
           end
  end.

(** [u8::is_ascii_lowercase] and the like. *)
Definition in_range (lo hi a : ascii) : bool :=
  (N.leb (N_of_ascii lo) (N_of_ascii a)) && (N.leb (N_of_ascii a) (N_of_ascii hi)).
Definition byte_is_lower (a : ascii) : bool := in_range "a" "z" a.
Definition byte_is_upper (a : ascii) : bool := in_range "A" "Z" a.
Definition byte_is_digit (a : ascii) : bool := in_range "0" "9" a.
Definition byte_is_alphanumeric (a : ascii) : bool :=
  byte_is_lower a || byte_is_upper a || byte_is_digit a.

(** ** What the search finds *)

(** [p] occurs in [s] after [a] and before [b]. *)
Definition occurs (p s a b : string) : Prop := s = a +:+ p +:+ b.

Lemma find_sub_Some p s i :
  find_sub p s = Some i ->
  (exists a b, occurs p s a b /\ String.length a = i)
  /\ forall a b, occurs p s a b -> i <= String.length a.
Proof.
  revert i. unfold occurs. induction s as [|c s IH]; intros i.
  - cbn [find_sub]. destruct (starts_with "" p) eqn:E; [|done]. intros [= <-].
    apply starts_with_spec in E as [s' E]. split; [|lia]. by exists "", s'.
  - cbn [find_sub]. destruct (starts_with (String c s) p) eqn:E.
    { intros [= <-]. apply starts_with_spec in E as [s' E]. split; [|lia]. by exists "", s'. }
    destruct (find_sub p s) as [j|] eqn:Ej; [|done]. intros [= <-].
    destruct (IH j eq_refl) as [(a & b & Hs & Hl) Hmin]. split.
    + exists (String c a), b. split; [by rewrite Hs|cbn; lia].
    + intros [|c' a'] b' Hs'.
      * exfalso. assert (starts_with (String c s) p = true); [|congruence].
        apply starts_with_spec. by exists b'.
      * injection Hs' as _ Hs'. apply Hmin in Hs'. cbn. lia.
Qed.

Lemma find_sub_None p s : find_sub p s = None -> forall a b, ~ occurs p s a b.
Proof.
  unfold occurs. induction s as [|c s IH]; cbn [find_sub]; destruct (starts_with _ p) eqn:E; try done.
  - intros _ a b Hs. assert (starts_with "" p = true); [|congruence].
    apply starts_with_spec. destruct a; [|done]. by exists b.
  - destruct (find_sub p s); [done|]. intros _ [|c' a] b Hs.
    + assert (starts_with (String c s) p = true); [|congruence]. apply starts_with_spec. by exists b.
    + injection Hs as _ Hs. by apply (IH eq_refl a b).
Qed.

Lemma contains_sub_spec s p : contains_sub s p = true <-> exists a b, occurs p s a b.
Proof.
  unfold contains_sub. destruct (find_sub p s) as [i|] eqn:E; split; try done.
  - intros _. destruct (proj1 (find_sub_Some _ _ _ E)) as (a & b & H & _). eauto.
  - intros (a & b & H). by apply find_sub_None with (a := a) (b := b) in E.
Qed.

Lemma str_drop_app a b : str_drop (String.length a) (a +:+ b) = b.
Proof. induction a as [|c a IH]; [done|exact IH]. Qed.

Lemma str_take_drop n s : str_take n s +:+ str_drop n s = s.
Proof. revert n. induction s as [|c s IH]; intros [|n]; try done.
  change (String c (str_take n s +:+ str_drop n s) = String c s). by rewrite IH.
Qed.

Lemma str_take_length n s : n <= String.length s -> String.length (str_take n s) = n.
Proof. revert n. induction s as [|c s IH]; intros [|n]; cbn; try lia. intros. rewrite IH; lia. Qed.

Lemma str_app_assoc a b c : (a +:+ b) +:+ c = a +:+ b +:+ c.
Proof. induction a as [|x a IH]; [done|].
  change (String x ((a +:+ b) +:+ c) = String x (a +:+ b +:+ c)). by rewrite IH.
Qed.

Lemma str_app_inj_length a b a' b' :
  a +:+ b = a' +:+ b' -> String.length a = String.length a' -> a = a' /\ b = b'.
Proof.
  revert a'. induction a as [|x a IH]; intros [|x' a']; cbn; try done; try lia.
  intros [= -> H] Hl. destruct (IH a' H) as [-> ->]; [lia|done].
Qed.

Lemma byte_at_app a b : byte_at (String.length a) (a +:+ b) = byte_at 0 b.
Proof. induction a as [|x a IH]; [done|exact IH]. Qed.

Lemma byte_at_0 s c : byte_at 0 s = Some c <-> exists t, s = String c t.
Proof. destruct s; cbn; split; naive_solver. Qed.

(** The byte before an occurrence. *)
Lemma byte_before a c s i :
  S i = String.length a -> byte_at i (a +:+ s) = Some c -> exists a', a = a' +:+ String c "".
Proof.
  revert i. induction a as [|x a IH]; intros i Hl; [done|]. destruct a as [|y a].
  - injection Hl as ->. intros [= ->]. by exists "".
  - destruct i as [|i]; [done|]. injection Hl as Hl. intros Hb.
    destruct (IH i) as [a' Ha]; [cbn; lia|done|]. rewrite Ha. by exists (String x a').
Qed.

Lemma byte_before_app a c s : byte_at (String.length a) ((a +:+ String c "") +:+ s) = Some c.
Proof. by rewrite str_app_assoc, byte_at_app. Qed.
