(* ===== verification/FileClass.v ===== *)
(** * File classification
      (crates/codegraph-core/src/file_class.rs; the wide [is_test_file] of
      crates/codegraph-graph/src/query/scoring.rs)

    Predicates on a path: test files and test suites, generated files. The
    segment search that scans in place is proved against the path's directory
    segments. Lower casing is the standard library's, over its Unicode case
    tables, and an argument here. *)
From S2P Require Import Prelude Strings PathUtil StrOps.

Definition any_of {A} (p : A -> bool) (l : list A) : bool := existsb p l.

Definition TEST_DIR_SEGMENTS : list string := ["test"; "tests"; "__tests__"; "spec"; "e2e"].
Definition TEST_FILE_MARKERS : list string := [".test."; ".spec."; "_test."; "_unittest."].

(** [contains_path_segment]: the loop, from the offset [from]. *)
Fixpoint contains_path_segment_from (fuel : nat) (path segment : string) (from : nat) : bool :=
  match fuel with
  | 0 => false
  | S fuel =>
      match find_sub segment (str_drop from path) with
      | None => false
      | Some rel =>
          let start := from + rel in
          let end_ := start + String.length segment in
          let starts_segment :=
            match start with
            | 0 => true
            | S i => bool_decide (byte_at i path = Some SLASH)
            end in
          let ends_segment := bool_decide (byte_at end_ path = Some SLASH) in
          if starts_segment && ends_segment then true
          else contains_path_segment_from fuel path segment (start + 1)
      end
  end.

Definition contains_path_segment (path segment : string) : bool :=
  contains_path_segment_from (S (String.length path)) path segment 0.

Definition is_test_file (path : string) : bool :=
  any_of (fun m => contains_sub path m) TEST_FILE_MARKERS
  || any_of (fun seg => contains_path_segment path seg) TEST_DIR_SEGMENTS.

(** [directories]: every non-empty segment but the last. *)
Definition directories (path : string) : list string :=
  let dirs := match rsplit_once SLASH path with Some (dirs, _) => dirs | None => "" end in
  filter (fun segment => segment <> "") (split_on SLASH dirs).

Definition has_separated_suffix (lower_name : string) (suffixes : list string)
    (separators : list ascii) : bool :=
  match rsplit_once "." lower_name with
  | None => false
  | Some (stem, ext) =>
      if String.eqb ext "" || negb (all_bytes (fun b => byte_is_lower b || byte_is_digit b) ext)
      then false
      else any_of (fun suffix =>
             match str_strip_suffix stem suffix with
             | Some rest => match last_byte rest with
                            | Some sep => bool_decide (sep ∈ separators)
                            | None => false
                            end
             | None => false
             end) suffixes
  end.

Definition has_camel_suffix (file_name : string) (suffixes : list string)
    (extensions : option (list string)) : bool :=
  match rsplit_once "." file_name with
  | None => false
  | Some (stem, ext) =>
      let ext_ok := match extensions with
                    | Some allowed => bool_decide (ext ∈ allowed)
                    | None => negb (String.eqb ext "") && all_bytes byte_is_alphanumeric ext
                    end in
      ext_ok && any_of (fun suffix => ends_with stem suffix) suffixes
  end.

Definition is_camel_test_directory (dir : string) : bool :=
  all_bytes byte_is_alphanumeric dir
  && any_of (fun suffix => ends_with dir suffix) ["Test"; "Tests"; "Spec"].

Definition is_test_support_directory (dir : string) : bool :=
  if bool_decide (dir ∈ ["testdata"; "testutil"; "testutils"; "test-util"; "test_util"; "test-utils";
                         "test_utils"; "fake"; "fakes"; "mock"; "mocks"; "__mocks__"; "stubs"])
  then true
  else any_of (fun suffix =>
         match str_strip_suffix dir suffix with
         | None => false
         | Some rest =>
             match (match str_strip_suffix rest "-" with
                    | Some prefix => Some prefix
                    | None => str_strip_suffix rest "_"
                    end) with
             | None => false
             | Some prefix =>
                 negb (String.eqb prefix "")
                 && all_bytes (fun b => byte_is_alphanumeric b || Ascii.eqb b "_" || Ascii.eqb b ".")
                      prefix
             end
         end) ["test"; "tests"; "testing"].

Section Cased.
Variable to_lowercase : string -> string.

Definition is_test_path (path : string) : bool :=
  let lower := to_lowercase path in
  let file_name := after_last SLASH path in
  let lower_name := to_lowercase file_name in
  if starts_with lower_name "test_" || starts_with lower_name "test."
     || has_separated_suffix lower_name
          ["test"; "tests"; "unittest"; "unittests"; "spec"; "specs"] ["."; "_"; "-"]%char
     || has_camel_suffix file_name ["Test"; "Tests"; "TestCase"; "Tester"; "Spec"; "Specs"] None
  then true
  else
    any_of (fun dir => contains_sub lower dir)
      ["/tests/"; "/test/"; "/__tests__/"; "/spec/"; "/specs/"; "/testlib/"; "/testing/"; "/e2e/"]
    || any_of (fun root => starts_with lower root) ["test/"; "tests/"; "spec/"; "specs/"; "e2e/"]
    || any_of is_camel_test_directory (directories path)
    || any_of is_test_support_directory (directories lower).

Definition is_test_suite_path (path : string) : bool :=
  if negb (is_test_path path) then false else
  let lower := to_lowercase path in
  let file_name := after_last SLASH path in
  let name := after_last SLASH lower in
  if starts_with name "test_"
     || has_separated_suffix name ["test"; "tests"; "unittest"; "unittests"] ["."; "_"; "-"]%char
     || has_separated_suffix name ["spec"; "specs"] ["."; "_"]%char
     || has_camel_suffix file_name ["Test"; "Tests"; "TestCase"]
          (Some ["java"; "kt"; "kts"; "swift"; "cs"; "scala"; "groovy"; "m"; "mm"; "vb"; "fs"])
     || String.eqb name "conftest.py"
  then true
  else
    any_of (fun dir => bool_decide (dir ∈ ["test"; "tests"; "__tests__"; "spec"; "specs"; "e2e"]))
      (directories lower)
    || any_of is_camel_test_directory (directories path).

(** ** scoring.rs *)

Definition NON_PRODUCTION_DIRS : list string :=
  ["integration"; "sample"; "samples"; "example"; "examples"; "fixture"; "fixtures"; "benchmark";
   "benchmarks"; "demo"; "demos"].

Definition matches_non_production_dir (lower_path : string) : bool :=
  let scope := match find_sub "/src/" lower_path with
               | Some at_ => str_take (S at_) lower_path
               | None => if starts_with lower_path "src/" then "" else lower_path
               end in
  any_of (fun dir => contains_sub scope ("/" +:+ dir +:+ "/") || starts_with scope (dir +:+ "/"))
    NON_PRODUCTION_DIRS.

(** [scoring::is_test_file]. *)
Definition is_test_file_scoring (file_path : string) : bool :=
  is_test_path file_path || matches_non_production_dir (to_lowercase file_path).

End Cased.

(** ** Generated files *)

Definition GENERATED_SUFFIXES : list string :=
  [".pb.go"; ".pulsar.go"; "_grpc.pb.go"; "_mock.go"; "_mocks.go"; ".generated.ts";
   ".generated.tsx"; ".generated.js"; ".generated.jsx"; ".gen.ts"; ".gen.tsx"; ".gen.js";
   ".gen.jsx"; ".pb.ts"; ".pb.js"; "_pb.ts"; "_pb.js"; "_grpc_pb.ts"; "_grpc_pb.js"; ".min.js";
   ".min.mjs"; "-min.js"; "-min.mjs"; "_pb2.py"; "_pb2_grpc.py"; "_pb2.pyi"; ".pb.cc"; ".pb.h";
   ".g.cs"; "Grpc.cs"; "OuterClass.java"; "Grpc.java"; ".pb.swift"; ".g.dart"; ".freezed.dart";
   ".pb.dart"; ".pbgrpc.dart"; ".chopper.dart"; ".generated.rs"].

(** [basename]: after the last slash of either kind. *)
Definition basename_any (path : string) : string :=
  match rfind SLASH path, rfind BACKSLASH path with
  | None, None => path
  | Some i, None | None, Some i => str_drop (S i) path
  | Some i, Some j => str_drop (S (Nat.max i j)) path
  end.

Definition is_mockgen_default_output (path : string) : bool :=
  match str_strip_prefix "mock_" (basename_any path) with
  | Some rest => match str_strip_suffix rest ".go" with
                 | Some stem => negb (String.eqb stem "")
                 | None => false
                 end
  | None => false
  end.

Definition is_generated_file (path : string) : bool :=
  any_of (fun s => ends_with path s) GENERATED_SUFFIXES || is_mockgen_default_output path.

(** ** Facts on file classification

    The in-place segment search finds exactly the directory segments. *)

(** ** Splitting a path *)

Lemma str_app_nil_r s : s +:+ "" = s.
Proof.
  induction s as [|c s IH]; [done|]. change (String c (s +:+ "") = String c s). by rewrite IH.
Qed.

Lemma split_on_snoc_segment a b :
  split_on SLASH (a +:+ String SLASH b) = split_on SLASH a ++ split_on SLASH b.
Proof.
  induction a as [|c a IH]; [done|].
  change (String c a +:+ String SLASH b) with (String c (a +:+ String SLASH b)).
  cbn [split_on]. destruct (Ascii.eqb c SLASH); [by rewrite IH|]. rewrite IH.
  destruct (split_on_cons a) as (w & ws & ->). done.
Qed.

Lemma first_piece s :
  str_contains SLASH s = false
  \/ exists w rest, s = w +:+ String SLASH rest /\ str_contains SLASH w = false.
Proof.
  induction s as [|c s IH]; [by left|]. destruct (Ascii.eqb_spec c SLASH) as [->|Hne].
  - right. by exists "", s.
  - apply Ascii.eqb_neq in Hne. destruct IH as [IH|(w & rest & -> & Hw)].
    + left. cbn. by rewrite Hne, IH.
    + right. exists (String c w), rest. split; [done|]. cbn. by rewrite Hne, Hw.
Qed.

Lemma rfind_Some c s i :
  rfind c s = Some i ->
  exists a t, s = a +:+ String c t /\ String.length a = i /\ str_contains c t = false.
Proof.
  revert i. induction s as [|x s IH]; intros i; [done|]. cbn [rfind].
  destruct (rfind c s) as [j|] eqn:E.
  - intros [= <-]. destruct (IH j eq_refl) as (a & t & -> & <- & Ht). by exists (String x a), t.
  - destruct (Ascii.eqb_spec x c) as [->|]; [|done]. intros [= <-]. exists "", s.
    split; [done|]. split; [done|]. clear IH. revert E.
    induction s as [|y s IHs]; [done|]. cbn. destruct (rfind c s); [done|].
    destruct (Ascii.eqb y c); [done|]. auto.
Qed.

Lemma rfind_None c s : rfind c s = None -> str_contains c s = false.
Proof.
  induction s as [|x s IH]; [done|]. cbn. destruct (rfind c s); [done|].
  destruct (Ascii.eqb x c); [done|]. auto.
Qed.

Lemma rsplit_once_Some c s d t :
  rsplit_once c s = Some (d, t) -> s = d +:+ String c t /\ str_contains c t = false.
Proof.
  unfold rsplit_once. destruct (rfind c s) as [i|] eqn:E; [|done]. intros [= <- <-].
  apply rfind_Some in E as (a & t & -> & <- & Ht).
  assert (Ha : str_take (String.length a) (a +:+ String c t) = a).
  { clear. induction a as [|x a IH]; [done|].
    change (String x (str_take (String.length a) (a +:+ String c t)) = String x a). by rewrite IH. }
  assert (Hd : str_drop (S (String.length a)) (a +:+ String c t) = t).
  { clear. induction a as [|x a IH]; [done|exact IH]. }
  cbn [str_drop] in Hd. by rewrite Ha, Hd.
Qed.

Lemma directories_split path :
  directories path = filter (fun w => w <> "") (removelast (split_on SLASH path)).
Proof.
  unfold directories. destruct (rsplit_once SLASH path) as [[d t]|] eqn:E.
  - apply rsplit_once_Some in E as [-> Ht].
    by rewrite split_on_snoc_segment, (split_on_piece t), removelast_last.
  - unfold rsplit_once in E. destruct (rfind SLASH path) eqn:Er; [done|].
    apply rfind_None in Er. by rewrite (split_on_piece path).
Qed.

(** ** A segment before a slash *)

(** [segment] stands between slashes, or at the start and before a slash. *)
Definition segment_at (path segment a b : string) : Prop :=
  path = a +:+ segment +:+ String SLASH b /\ (a = "" \/ exists a', a = a' +:+ String SLASH "").

Lemma elem_of_removelast_split path segment :
  str_contains SLASH segment = false ->
  segment ∈ removelast (split_on SLASH path) <-> exists a b, segment_at path segment a b.
Proof.
  intros Hseg. unfold segment_at. split.
  - remember (String.length path) as n eqn:Hn. revert path Hn.
    induction (lt_wf n) as [n _ IH]. intros path ->.
    destruct (first_piece path) as [Hno|(w & rest & -> & Hw)].
    { rewrite split_on_piece by done. set_solver. }
    rewrite split_on_piece_app by done. destruct (split_on_cons rest) as (x & xs & Hx).
    assert (Hrl : removelast (w :: split_on SLASH rest) = w :: removelast (split_on SLASH rest))
      by (by rewrite Hx).
    rewrite Hrl. intros [->|Hin]%elem_of_cons.
    + exists "", rest. split; [done|by left].
    + assert (Hlt : String.length rest < String.length (w +:+ String SLASH rest))
        by (rewrite str_length_app; cbn; lia).
      destruct (IH _ Hlt rest eq_refl Hin) as (a & b & -> & Ha).
      exists (w +:+ String SLASH a), b. split; [by rewrite str_app_assoc|]. right.
      destruct Ha as [-> | (a' & ->)]; [by exists w|]. exists (w +:+ String SLASH a').
      by rewrite str_app_assoc.
  - intros (a & b & -> & Ha). destruct (split_on_cons b) as (x & xs & Hb).
    assert (Hin : segment ∈ removelast (segment :: split_on SLASH b))
      by (rewrite Hb; cbn; set_solver).
    destruct Ha as [-> | (a' & ->)].
    + change ("" +:+ segment +:+ String SLASH b) with (segment +:+ String SLASH b).
      by rewrite split_on_piece_app.
    + rewrite str_app_assoc. change (String SLASH "" +:+ segment +:+ String SLASH b)
        with (String SLASH (segment +:+ String SLASH b)).
      rewrite split_on_snoc_segment, split_on_piece_app, removelast_app by done.
      apply elem_of_app. by right.
Qed.

(** ** The search *)

Lemma contains_path_segment_from_spec fuel path segment from :
  segment <> "" -> from <= String.length path -> String.length path < fuel + from ->
  contains_path_segment_from fuel path segment from = true
  <-> exists a b, segment_at path segment a b /\ from <= String.length a.
Proof.
  intros Hseg. revert from. induction fuel as [|fuel IH]; intros from Hfrom Hfuel; [lia|].
  cbn -[bool_decide]. set (pre := str_take from path).
  assert (Hpre : path = pre +:+ str_drop from path) by (unfold pre; by rewrite str_take_drop).
  assert (Hlen : String.length pre = from) by by apply str_take_length.
  assert (Hbelow : forall a b, segment_at path segment a b -> from <= String.length a ->
    exists x, a = pre +:+ x /\ str_drop from path = x +:+ segment +:+ String SLASH b).
  { intros a b [Hp _] Ha. rewrite Hpre in Hp at 1.
    exists (str_drop from a). rewrite <- (str_take_drop from a) in Hp at 1.
    rewrite str_app_assoc in Hp. apply str_app_inj_length in Hp as [-> ->].
    - by rewrite str_take_drop.
    - by rewrite Hlen, str_take_length. }
  destruct (find_sub segment (str_drop from path)) as [rel|] eqn:E.
  2:{ split; [done|]. intros (a & b & Hat & Ha). destruct (Hbelow a b Hat Ha) as (x & _ & Hx).
      exfalso. by apply (find_sub_None _ _ E x (String SLASH b)). }
  destruct (find_sub_Some _ _ _ E) as [(x & y & Hocc & Hx) Hmin]. unfold occurs in Hocc.
  assert (Hpath : path = (pre +:+ x) +:+ segment +:+ y) by (by rewrite Hpre, Hocc, str_app_assoc).
  assert (Hstart : String.length (pre +:+ x) = from + rel) by (rewrite str_length_app; lia).
  assert (Hsl : 1 <= String.length segment) by (destruct segment; [done|cbn; lia]).
  assert (Hend : byte_at (from + rel + String.length segment) path = byte_at 0 y).
  { rewrite Hpath, <- Hstart, <- str_length_app, <- str_app_assoc. apply byte_at_app. }
  assert (Hbegin : forall i, from + rel = S i -> byte_at i path = Some SLASH <->
    exists a', pre +:+ x = a' +:+ String SLASH "").
  { intros i Hi. split.
    - rewrite Hpath. intros Hb. by apply (byte_before _ _ _ i) in Hb; [|lia].
    - intros [a' Ha']. rewrite Hpath, Ha'.
      rewrite Ha', str_length_app in Hstart. cbn in Hstart.
      replace i with (String.length a') by lia. apply byte_before_app. }
  assert (Hmatch : (match from + rel with 0 => true | S i => bool_decide (byte_at i path = Some SLASH) end
                    && bool_decide (byte_at (from + rel + String.length segment) path = Some SLASH)) = true
    <-> exists b, segment_at path segment (pre +:+ x) b).
  { rewrite andb_true_iff, bool_decide_eq_true, Hend, byte_at_0. unfold segment_at. split.
    - intros [Hs (b & ->)]. exists b. split; [done|].
      destruct (from + rel) as [|i] eqn:Ei; [left; by destruct (pre +:+ x)|]. right.
      apply bool_decide_eq_true in Hs. by apply (Hbegin i).
    - intros (b & Hp & Ha). split.
      + destruct (from + rel) as [|i] eqn:Ei; [done|]. apply bool_decide_eq_true, (Hbegin i); [done|].
        destruct Ha as [Ha|Ha]; [by rewrite Ha in Hstart|done].
      + exists b. rewrite Hpath in Hp. apply str_app_inj_length in Hp as [_ Hp]; [|done].
        by apply str_app_inj_length in Hp as [_ Hp]. }
  destruct (_ && _) eqn:Hb.
  - split; [|done]. intros _. destruct (proj1 Hmatch eq_refl) as [b Hat].
    exists (pre +:+ x), b. split; [done|lia].
  - assert (Hle : from + rel + 1 <= String.length path)
      by (rewrite Hpath, !str_length_app in *; lia).
    rewrite IH by lia. split; intros (a & b & Hat & Ha); exists a, b; (split; [done|]); [lia|].
    destruct (Hbelow a b Hat Ha) as (x' & -> & Hx'). rewrite str_length_app.
    pose proof (Hmin x' (String SLASH b) Hx') as Hge.
    destruct (decide (String.length x' = rel)) as [Heq|]; [|lia].
    exfalso. assert (x' = x) as ->.
    { rewrite Hocc in Hx'. symmetry. apply (str_app_inj_length _ _ _ _ Hx'). lia. }
    assert (false = true) by (apply Hmatch; by exists b). done.
Qed.

Lemma contains_path_segment_directories path segment :
  segment <> "" -> str_contains SLASH segment = false ->
  contains_path_segment path segment = true <-> segment ∈ directories path.
Proof.
  intros Hne Hsl. unfold contains_path_segment.
  rewrite contains_path_segment_from_spec by (done || lia).
  rewrite directories_split, list_elem_of_filter, elem_of_removelast_split by done.
  split.
  - intros (a & b & H & _). eauto.
  - intros (_ & a & b & H). exists a, b. split; [done|lia].
Qed.

(** [is_test_file] answers yes exactly when one of the markers occurs in
    the path or one of its directories, as [directories] lists them, is a test
    directory: the search in place finds whole segments only. *)
Theorem is_test_file_exact path :
  is_test_file path = true <->
  (exists m, m ∈ TEST_FILE_MARKERS /\ exists a b, path = a +:+ m +:+ b)
  \/ (exists dir, dir ∈ directories path /\ dir ∈ TEST_DIR_SEGMENTS).
Proof.
  unfold is_test_file, any_of. rewrite orb_true_iff, !existsb_exists.
  setoid_rewrite contains_sub_spec. setoid_rewrite <- list_elem_of_In.
  assert (Hseg : forall seg, seg ∈ TEST_DIR_SEGMENTS ->
    contains_path_segment path seg = true <-> seg ∈ directories path).
  { intros seg Hin. apply contains_path_segment_directories;
      repeat (apply elem_of_cons in Hin as [->|Hin]; [done|]); by apply not_elem_of_nil in Hin. }
  unfold occurs. naive_solver.
Qed.

Example is_test_file_examples :
  is_test_file "xe2e/e2e/a.ts" = true /\ is_test_file "xe2e/a.ts" = false
  /\ is_test_file "pkg/math_test.go" = true /\ is_test_file "tests" = false.
Proof. by vm_compute. Qed.
