(* ===== verification/ViewerReads.v ===== *)
(** * The viewer's aggregate reads
      (crates/codegraph-store/src/viewer.rs, the reads of the dead-code report;
      codegraph-store/src/queries.rs, [dependent_file_paths])

    The reads as an interface, what a healthy store answers to them from its
    graph, and their definitions on the database. *)
From S2P Require Import Prelude Strings Types Rows Db DbRefs DbFacts GraphStore StoreView PathUtil ViewerDb StrOps.

(** ** The interface *)

Class AggregateReads (St : Type) := {
  unreferenced_nodes : St -> list NodeKind -> Z -> result SqlError (list (Node * bool));
  languages_with_exports : St -> list string -> result SqlError (gset string);
  unresolved_names_among : St -> list string -> result SqlError (gset string);
  unresolved_reference_names_from :
    St -> list string -> list EdgeKind -> result SqlError (gmap string (list string));
  unresolved_reference_sources_named :
    St -> list string -> list EdgeKind -> result SqlError (gmap string (gset string));
  ambiguous_referenced_names : St -> list string -> result SqlError (gset string);
  file_dependent_counts : St -> list string -> result SqlError (list (string * nat));
  dependent_file_paths : St -> string -> result SqlError (list string)
}.

(** [unresolved_supertype_sources_among]. *)
Definition unresolved_supertype_sources_among {St} `{AggregateReads St} (st : St) (ids : list string)
  : result SqlError (gset string) :=
  found ← unresolved_reference_names_from st ids [EkExtends; EkImplements];
  Ok (dom found).

(** [reference_name_tail]. *)
Definition reference_name_tail (reference_name : string) : string :=
  let base := match rsplit_once SLASH reference_name with
              | Some (head, arity) =>
                  if negb (String.eqb head "") && (1 <=? String.length arity)
                     && (String.length arity <=? 3) && all_bytes byte_is_digit arity
                  then head else reference_name
              | None => reference_name
              end in
  match rfind "." base, rfind ":" base with
  | None, None => base
  | Some at_, None | None, Some at_ => str_drop (at_ + 1) base
  | Some i, Some j => str_drop (Nat.max i j + 1) base
  end.

(** ** What they answer *)

Section Answers.
Variable g : GraphView.

(** No edge but containment, or from the node itself, points at [n]. *)
Definition unreferenced (n : Node) : Prop :=
  gv_nodes g !! node_id n = Some n
  /\ forall e, e ∈ gv_edges g -> edge_target e = node_id n ->
       edge_kind e = EkContains \/ edge_source e = node_id n.

Definition generated_file (f : string) : bool :=
  existsb (fun r => String.eqb (file_path r) f && file_generated r) (gv_files g).

(** [id] holds an unresolved reference of one of the kinds to [name]. *)
Definition refers (kinds : list EdgeKind) (id name : string) : Prop :=
  exists r, r ∈ gv_refs g /\ ref_from_node_id r = id /\ ref_reference_name r = name
    /\ ref_is_function_ref r = false /\ ref_reference_kind r ∈ kinds.

(** Something points at a symbol of that name, which is not the only one. *)
Definition ambiguous (name : string) : Prop :=
  (exists n n', gv_nodes g !! node_id n = Some n /\ gv_nodes g !! node_id n' = Some n'
     /\ n <> n' /\ node_name n = name /\ node_name n' = name)
  /\ exists n e, gv_nodes g !! node_id n = Some n /\ node_name n = name
     /\ e ∈ gv_edges g /\ edge_target e = node_id n /\ edge_kind e <> EkContains.

(** ORDER BY n.file_path, n.start_line, n.name, n.id. *)
Definition unreferenced_le (a b : Node) : bool :=
  then_le (String.compare (node_file_path a) (node_file_path b))
    (then_le (Z.compare (node_start_line a) (node_start_line b))
       (then_le (String.compare (node_name a) (node_name b)) (str_le (node_id a) (node_id b)))).

Class HealthyReads {St} `{AggregateReads St} (st : St) : Prop := {
  healthy_unreferenced_nodes : forall kinds limit,
    returns (unreferenced_nodes st kinds limit) (fun l => exists all,
      l = take (Z.to_nat limit) all /\ NoDup (map (fun p => node_id (fst p)) all)
      /\ Sorted (fun a b => unreferenced_le (fst a) (fst b) = true) all
      /\ forall n b, (n, b) ∈ all <->
           node_kind n ∈ kinds /\ unreferenced n /\ b = generated_file (node_file_path n));
  healthy_languages_with_exports : forall languages,
    returns (languages_with_exports st languages) (fun s => forall l, l ∈ s <->
      l ∈ languages /\ l <> "" /\ exists n, gv_nodes g !! node_id n = Some n
        /\ Language_as_str (node_language n) = l /\ node_is_exported n = true);
  healthy_unresolved_names_among : forall names,
    returns (unresolved_names_among st names) (fun s => forall x, x ∈ s <->
      x ∈ names /\ x <> "" /\ exists r, r ∈ gv_refs g
        /\ (ref_reference_name r = x \/ reference_name_tail (ref_reference_name r) = x));
  healthy_unresolved_reference_names_from : forall ids kinds,
    returns (unresolved_reference_names_from st ids kinds) (fun m =>
      (forall id x, x ∈ default [] (m !! id) <-> id ∈ ids /\ refers kinds id x)
      /\ forall id, m !! id <> Some []);
  healthy_unresolved_reference_sources_named : forall names kinds,
    returns (unresolved_reference_sources_named st names kinds) (fun m =>
      forall name x, x ∈ default ∅ (m !! name) <-> name ∈ names /\ name <> "" /\ refers kinds x name);
  healthy_ambiguous_referenced_names : forall names,
    returns (ambiguous_referenced_names st names) (fun s => forall x, x ∈ s <->
      x ∈ names /\ x <> "" /\ ambiguous x);
  healthy_file_dependent_counts : forall paths,
    returns (file_dependent_counts st paths) (fun l =>
      NoDup (map fst l)
      /\ forall p c, (p, c) ∈ l <-> p ∈ paths /\ c <> 0 /\ exists X : gset string,
           c = size X /\ forall f, f ∈ X <-> file_depends g f p);
  healthy_dependent_file_paths : forall f,
    returns (dependent_file_paths st f)
      (fun fs => NoDup fs /\ forall f', f' ∈ fs <-> file_depends g f' f)
}.

End Answers.

(** ** On the database *)

Section OnDb.
Context `{SerdeJson} `{SqlScan}.

(** A row is the target of a non-[contains] edge. *)
Definition row_referenced (db : Db) (r : NodeRow) : Prop :=
  Exists (fun e => er_target e = nr_id r /\ er_kind e <> "contains") (db_edges db).

Definition row_referenced_elsewhere (db : Db) (r : NodeRow) : Prop :=
  Exists (fun e => er_target e = nr_id r /\ er_kind e <> "contains" /\ er_source e <> nr_id r)
    (db_edges db).

#[export] Instance row_referenced_dec db r : Decision (row_referenced db r).
Proof. apply _. Defined.

#[export] Instance row_referenced_elsewhere_dec db r : Decision (row_referenced_elsewhere db r).
Proof. apply _. Defined.

Definition row_le (a b : NodeRow) : bool :=
  then_le (String.compare (nr_file_path a) (nr_file_path b))
    (then_le (Z.compare (nr_start_line a) (nr_start_line b))
       (then_le (String.compare (nr_name a) (nr_name b)) (str_le (nr_id a) (nr_id b)))).

(** COALESCE(f.generated, 0) of the joined file. *)
Definition row_generated (db : Db) (path : string) : bool :=
  match filter (fun f => fr_path f = path) (db_files db) with
  | f :: _ => negb (Z.eqb (fr_generated f) 0)
  | [] => false
  end.

(** [Store::unreferenced_nodes]. *)
Definition db_unreferenced_nodes (db : Db) (kinds : list NodeKind) (limit : Z)
  : result SqlError (list (Node * bool)) :=
  match kinds with
  | [] => Ok []
  | _ =>
      if (limit <=? 0)%Z then Ok [] else
      map_M (fun r => node ← row_to_node r; Ok (node, row_generated db (nr_file_path r)))
        (take (Z.to_nat limit)
           (sort_by row_le
              (scan_order "unreferenced_nodes"
                 (filter (fun r => nr_kind r ∈ map NodeKind_as_str kinds
                                   /\ ~ row_referenced_elsewhere db r) (db_nodes db)))))
  end.

(** [Store::languages_with_exports]: MAX(is_exported) of a language is 1. *)
Definition max_exported (rows : list NodeRow) (language : string) : option Z :=
  fold_left (fun m r => Some (match m with None => nr_is_exported r
                                         | Some x => Z.max x (nr_is_exported r) end))
    (filter (fun r => nr_language r = language) rows) None.

Definition db_languages_with_exports (db : Db) (languages : list string)
  : result SqlError (gset string) :=
  let languages := filter (fun l => l <> "") (unique languages) in
  Ok (fold_left (fun found chunk =>
        fold_left (fun found language =>
            if bool_decide (max_exported (db_nodes db) language = Some 1%Z)
            then {[language]} ∪ found else found)
          (scan_order "languages_with_exports"
             (remove_dups (map nr_language (filter (fun r => nr_language r ∈ chunk) (db_nodes db)))))
          found)
      (chunks SQLITE_PARAM_CHUNK_SIZE languages) ∅).

(** [Store::unresolved_names_among]. *)
Definition db_unresolved_names_among (db : Db) (names : list string)
  : result SqlError (gset string) :=
  let wanted : gset string := list_to_set (filter (fun n => n <> "") names) in
  if decide (wanted = ∅) then Ok ∅ else
  Ok (fold_left (fun found name =>
        let found := if decide (name ∈ wanted) then {[name]} ∪ found else found in
        let tail := reference_name_tail name in
        if decide (tail ∈ wanted) then {[tail]} ∪ found else found)
      (scan_order "unresolved_names_among"
         (remove_dups (map rr_reference_name (db_unresolved_refs db)))) ∅).

(** SELECT DISTINCT from_node_id, reference_name .. over one chunk. *)
Definition reference_pairs (db : Db) (query : string) (column : RefRow -> string)
    (chunk : list string) (kinds : list EdgeKind) : list (string * string) :=
  scan_order query
    (remove_dups
       (map (fun r => (rr_from_node_id r, rr_reference_name r))
          (filter (fun r => column r ∈ chunk /\ rr_reference_kind r ∈ map EdgeKind_as_str kinds)
             (db_unresolved_refs db)))).

(** [Store::unresolved_reference_names_from]. *)
Definition push_name (found : gmap string (list string)) (p : string * string)
  : gmap string (list string) :=
  <[fst p := default [] (found !! fst p) ++ [snd p]]> found.

Definition db_unresolved_reference_names_from (db : Db) (ids : list string) (kinds : list EdgeKind)
  : result SqlError (gmap string (list string)) :=
  match unique ids, kinds with
  | [], _ | _, [] => Ok ∅
  | ids, _ =>
      let found := fold_left (fun found chunk =>
          fold_left push_name
            (reference_pairs db "unresolved_reference_names_from" rr_from_node_id chunk kinds) found)
        (chunks SQLITE_PARAM_CHUNK_SIZE ids) ∅ in
      Ok (sorted_unique <$> found)
  end.

(** [Store::unresolved_reference_sources_named]. *)
Definition add_source (found : gmap string (gset string)) (p : string * string)
  : gmap string (gset string) :=
  <[snd p := {[fst p]} ∪ default ∅ (found !! snd p)]> found.

Definition db_unresolved_reference_sources_named (db : Db) (names : list string)
    (kinds : list EdgeKind) : result SqlError (gmap string (gset string)) :=
  match filter (fun n => n <> "") (unique names), kinds with
  | [], _ | _, [] => Ok ∅
  | names, _ =>
      Ok (fold_left (fun found chunk =>
            fold_left add_source
              (reference_pairs db "unresolved_reference_sources_named" rr_reference_name chunk kinds)
              found)
          (chunks SQLITE_PARAM_CHUNK_SIZE names) ∅)
  end.

(** [Store::ambiguous_referenced_names]: GROUP BY name HAVING COUNT( * ) > 1 AND
    SUM(referenced) > 0. *)
Definition name_ambiguous (db : Db) (name : string) : bool :=
  let rows := filter (fun r => nr_name r = name) (db_nodes db) in
  (1 <? length rows) && (0 <? length (filter (row_referenced db) rows)).

Definition db_ambiguous_referenced_names (db : Db) (names : list string)
  : result SqlError (gset string) :=
  Ok (fold_left (fun found chunk =>
        list_to_set
          (scan_order "ambiguous_referenced_names"
             (filter (fun name => name_ambiguous db name = true)
                (remove_dups (map nr_name (filter (fun r => nr_name r ∈ chunk) (db_nodes db))))))
        ∪ found)
      (chunks SQLITE_PARAM_CHUNK_SIZE (filter (fun n => n <> "") (unique names))) ∅).

(** The files with a non-[contains] edge into [file_path], from another file. *)
Definition dependent_files (db : Db) (file_path : string) : list string :=
  remove_dups
    (e ← db_edges db;
     tgt ← filter (fun n => nr_id n = er_target e) (db_nodes db);
     src ← filter (fun n => nr_id n = er_source e) (db_nodes db);
     if decide (nr_file_path tgt = file_path /\ er_kind e <> "contains"
                /\ nr_file_path src <> file_path)
     then [nr_file_path src] else []).

(** [Store::dependent_file_paths]. *)
Definition db_dependent_file_paths (db : Db) (file_path : string) : result SqlError (list string) :=
  Ok (scan_order "dependent_file_paths" (dependent_files db file_path)).

(** [Store::file_dependent_counts]: GROUP BY tn.file_path ORDER BY tn.file_path;
    a file without a dependent has no row. *)
Definition db_file_dependent_counts (db : Db) (paths : list string)
  : result SqlError (list (string * nat)) :=
  match paths with
  | [] => Ok []
  | _ =>
      Ok (omap (fun p => match length (dependent_files db p) with
                         | 0 => None
                         | n => Some (p, n)
                         end)
            (sorted_unique paths))
  end.

End OnDb.

#[export] Instance DbAggregates `{SerdeJson} `{SqlScan} : AggregateReads Db := {|
  unreferenced_nodes := db_unreferenced_nodes;
  languages_with_exports := db_languages_with_exports;
  unresolved_names_among := db_unresolved_names_among;
  unresolved_reference_names_from := db_unresolved_reference_names_from;
  unresolved_reference_sources_named := db_unresolved_reference_sources_named;
  ambiguous_referenced_names := db_ambiguous_referenced_names;
  file_dependent_counts := db_file_dependent_counts;
  dependent_file_paths := db_dependent_file_paths
|}.

(** ** The aggregate reads of a well-formed database

    Each read answers what [HealthyReads] says of the database's graph. *)

(** ** Folds that only add *)

Lemma fold_left_member {A S} (M : S -> Prop) (P : A -> Prop) (f : S -> A -> S) l s :
  (forall s a, M (f s a) <-> M s \/ P a) ->
  M (fold_left f l s) <-> M s \/ exists a, a ∈ l /\ P a.
Proof.
  intros Hf. revert s. induction l as [|a l IH]; intros s; cbn; [set_solver|].
  rewrite IH, Hf. setoid_rewrite elem_of_cons. naive_solver.
Qed.

Lemma sorted_unique_NoDup ids : NoDup (sorted_unique ids).
Proof. apply dedup_sorted_NoDup, sort_by_sorted, str_le_total. Qed.

Lemma parse_language_inv s l : parse_language s = Ok l -> Language_as_str l = s.
Proof.
  unfold parse_language.
  repeat match goal with
         | |- (if String.eqb s ?c then _ else _) = _ -> _ =>
             destruct (String.eqb_spec s c) as [->|_]; [by intros [= <-]|]
         end.
  done.
Qed.

Section Facts.
Context `{SqlScanLaws} `{SerdeJson}.
Implicit Types db : Db.

Lemma elem_of_scan {A} q (rows : list A) x : x ∈ scan_order q rows <-> x ∈ rows.
Proof. by rewrite scan_perm. Qed.

(** What else a parsed row keeps. *)
Lemma row_to_node_more r n :
  row_to_node r = Ok n ->
  Language_as_str (node_language n) = nr_language r /\ node_start_line n = nr_start_line r
  /\ node_is_exported n = Z.eqb (nr_is_exported r) 1.
Proof. unfold row_to_node. parse_inv. cbn. auto using parse_language_inv. Qed.

Lemma row_to_ref_more r u :
  row_to_unresolved_ref r = Ok u ->
  (ref_is_function_ref u = true /\ rr_reference_kind r = "function_ref")
  \/ (ref_is_function_ref u = false /\ EdgeKind_as_str (ref_reference_kind u) = rr_reference_kind r).
Proof.
  unfold row_to_unresolved_ref. destruct (String.eqb_spec (rr_reference_kind r) "function_ref") as [E|E].
  - parse_inv. cbn. auto.
  - parse_inv. cbn. right. split; [done|]. by apply parse_edge_kind_inv.
Qed.

Lemma view_edge db e : e ∈ gv_edges (view_of db) <-> exists r, r ∈ db_edges db /\ row_to_edge r = Ok e.
Proof. apply elem_of_parsed. Qed.

Lemma view_ref db u :
  u ∈ gv_refs (view_of db) <-> exists r, r ∈ db_unresolved_refs db /\ row_to_unresolved_ref r = Ok u.
Proof. apply elem_of_parsed. Qed.

Lemma edge_row_kind r e k : row_to_edge r = Ok e -> edge_kind e = k <-> er_kind r = EdgeKind_as_str k.
Proof.
  intros (_ & _ & _ & <-)%row_to_edge_fields. split; [by intros ->|apply (inj EdgeKind_as_str)].
Qed.

Lemma node_of_row db r : wf_db db -> r ∈ db_nodes db ->
  exists n, row_to_node r = Ok n /\ gv_nodes (view_of db) !! node_id n = Some n
    /\ node_id n = nr_id r /\ node_name n = nr_name r /\ node_file_path n = nr_file_path r
    /\ NodeKind_as_str (node_kind n) = nr_kind r.
Proof.
  intros Hwf Hr. destruct (Forall_elem (wf_nodes_parse _ Hwf) Hr) as [n Hn]. exists n.
  pose proof (row_to_node_fields r n Hn) as (Hid & Hname & Hf & Hk).
  split; [done|]. split; [|done]. apply lookup_nodes_view; [done|]. eauto.
Qed.

Lemma row_of_node db id n : wf_db db -> gv_nodes (view_of db) !! id = Some n ->
  exists r, r ∈ db_nodes db /\ row_to_node r = Ok n /\ node_id n = nr_id r /\ nr_id r = id
    /\ node_name n = nr_name r /\ node_file_path n = nr_file_path r
    /\ NodeKind_as_str (node_kind n) = nr_kind r.
Proof.
  intros Hwf (r & Hr & Hid & Hn)%lookup_nodes_view; [|done]. exists r.
  pose proof (row_to_node_fields r n Hn) as (? & ? & ? & ?). auto 10.
Qed.

(** ** Dependents *)

Lemma dependent_files_ok db f f' :
  wf_db db -> f' ∈ dependent_files db f <-> file_depends (view_of db) f' f.
Proof.
  intros Hwf. unfold dependent_files. rewrite elem_of_remove_dups, list_elem_of_bind.
  unfold file_depends. split.
  - intros (er & (trow & (srow & Hin & [Hs1 Hs2]%list_elem_of_filter)%list_elem_of_bind
        & [Ht1 Ht2]%list_elem_of_filter)%list_elem_of_bind & Her).
    case_decide as Hc; [|set_solver]. apply list_elem_of_singleton in Hin as ->.
    destruct (Forall_elem (wf_edges_parse _ Hwf) Her) as [e He].
    pose proof (row_to_edge_fields er e He) as (_ & Es & Et & _).
    destruct (node_of_row db srow Hwf Hs2) as (sn & _ & Hsn & Eis & _ & Efs & _).
    destruct (node_of_row db trow Hwf Ht2) as (tn & _ & Htn & Eit & _ & Eft & _).
    destruct Hc as (<- & Hk & Hne). exists e, sn, tn.
    rewrite Es, Et, Efs, Eft, <- Hs1, <- Ht1, <- Eis, <- Eit.
    split; [by apply view_edge; eauto|]. rewrite (edge_row_kind er e) by done. auto 10.
  - intros (e & sn & tn & (er & Her & He)%view_edge & Hk & Hs & Ht & <- & <- & Hne).
    pose proof (row_to_edge_fields er e He) as (_ & Es & Et & _).
    destruct (row_of_node db _ sn Hwf Hs) as (srow & Hsr & _ & _ & Hsid & _ & Efs & _).
    destruct (row_of_node db _ tn Hwf Ht) as (trow & Htr & _ & _ & Htid & _ & Eft & _).
    exists er. split; [|done]. apply list_elem_of_bind. exists trow.
    split; [|by rewrite list_elem_of_filter, <- Et].
    apply list_elem_of_bind. exists srow. split; [|by rewrite list_elem_of_filter, <- Es].
    rewrite Efs, Eft in *. rewrite decide_True; [set_solver|]. split; [done|].
    split; [|done]. rewrite (edge_row_kind er e) in Hk by done. done.
Qed.

Lemma db_dependent_file_paths_ok db f :
  wf_db db ->
  returns (db_dependent_file_paths db f)
    (fun fs => NoDup fs /\ forall f', f' ∈ fs <-> file_depends (view_of db) f' f).
Proof.
  intros Hwf. cbn. split; [rewrite scan_perm; apply NoDup_remove_dups|].
  intros f'. rewrite elem_of_scan. by apply dependent_files_ok.
Qed.

Lemma db_file_dependent_counts_ok db paths :
  wf_db db ->
  returns (db_file_dependent_counts db paths) (fun l =>
    NoDup (map fst l)
    /\ forall p c, (p, c) ∈ l <-> p ∈ paths /\ c <> 0 /\ exists X : gset string,
         c = size X /\ forall f, f ∈ X <-> file_depends (view_of db) f p).
Proof.
  intros Hwf. unfold db_file_dependent_counts.
  assert (Hspec : forall ps, NoDup ps ->
    let l := omap (fun p => match length (dependent_files db p) with 0 => None | n => Some (p, n) end) ps in
    (forall p, p ∈ map fst l -> p ∈ ps) /\ NoDup (map fst l)
    /\ forall p c, (p, c) ∈ l <-> p ∈ ps /\ c <> 0 /\ c = length (dependent_files db p)).
  { intros ps Hnd l. unfold l. clear l. induction ps as [|p ps IH]; [set_solver by constructor|].
    apply NoDup_cons in Hnd as [Hp Hnd]. destruct (IH Hnd) as (Hsub & Hnd' & Hel).
    cbn. destruct (length (dependent_files db p)) as [|k] eqn:Hk.
    - split; [set_solver|]. split; [done|]. intros p' c. rewrite Hel, elem_of_cons.
      split; [naive_solver|]. intros ([->|?] & Hc & ->); [by rewrite Hk in Hc|auto].
    - cbn. split; [set_solver|]. split; [constructor; [naive_solver|done]|].
      intros p' c. rewrite !elem_of_cons, Hel. split.
      + intros [[= -> ->]|?]; naive_solver.
      + intros ([->|?] & Hc & ->); [left; by rewrite Hk|right; auto]. }
  assert (Hcount : forall p c, c = length (dependent_files db p) <-> exists X : gset string,
    c = size X /\ forall f, f ∈ X <-> file_depends (view_of db) f p).
  { intros p c.
    assert (HX : length (dependent_files db p) = size (list_to_set (dependent_files db p) : gset string)).
    { rewrite size_list_to_set; [done|]. unfold dependent_files. apply NoDup_remove_dups. }
    split.
    - intros ->. exists (list_to_set (dependent_files db p)). split; [done|]. intros f.
      rewrite elem_of_list_to_set. by apply dependent_files_ok.
    - intros (X & -> & HX'). rewrite HX. f_equal. apply set_eq. intros f.
      rewrite HX', elem_of_list_to_set. symmetry. by apply dependent_files_ok. }
  destruct paths as [|p0 ps0] eqn:Hps; [cbn; set_solver by constructor|]. rewrite <- Hps. clear Hps p0 ps0.
  destruct (Hspec (sorted_unique paths)) as (_ & Hnd & Hel); [apply sorted_unique_NoDup|].
  cbn. split; [done|]. intros p c. rewrite Hel, elem_of_sorted_unique, Hcount. done.
Qed.

(** ** Unresolved references *)

Lemma refers_row db kinds id name :
  wf_db db ->
  (exists r, r ∈ db_unresolved_refs db /\ rr_from_node_id r = id /\ rr_reference_name r = name
     /\ rr_reference_kind r ∈ map EdgeKind_as_str kinds)
  <-> refers (view_of db) kinds id name.
Proof.
  intros Hwf. unfold refers. split.
  - intros (r & Hr & <- & <- & (k & Ek & Hk)%list_elem_of_fmap).
    assert (Hp : exists u, row_to_unresolved_ref r = Ok u).
    { apply (Forall_elem (wf_refs_parse _ Hwf)). set_solver. }
    destruct Hp as [u Hu]. pose proof (row_to_ref_fields r u Hu) as (Hn & Hf & _).
    exists u. split; [by apply view_ref; eauto|]. split; [done|]. split; [done|].
    destruct (row_to_ref_more r u Hu) as [[_ Hfn]|[Hfn Hkind]].
    + rewrite Ek in Hfn. by destruct k.
    + split; [done|]. rewrite Ek in Hkind. apply (inj EdgeKind_as_str) in Hkind. by rewrite Hkind.
  - intros (u & (r & Hr & Hu)%view_ref & <- & <- & Hfn & Hk).
    pose proof (row_to_ref_fields r u Hu) as (Hn & Hf & _). exists r. split; [done|].
    split; [done|]. split; [done|].
    destruct (row_to_ref_more r u Hu) as [[? _]|[_ <-]]; [congruence|]. by apply list_elem_of_fmap_2.
Qed.

Lemma elem_of_reference_pairs db q column chunk kinds id name :
  (id, name) ∈ reference_pairs db q column chunk kinds
  <-> exists r, r ∈ db_unresolved_refs db /\ rr_from_node_id r = id /\ rr_reference_name r = name
        /\ column r ∈ chunk /\ rr_reference_kind r ∈ map EdgeKind_as_str kinds.
Proof.
  unfold reference_pairs. rewrite elem_of_scan, elem_of_remove_dups, list_elem_of_fmap.
  setoid_rewrite list_elem_of_filter. naive_solver.
Qed.

Lemma push_name_member id x m (p : string * string) :
  x ∈ default [] (push_name m p !! id) <-> x ∈ default [] (m !! id) \/ p = (id, x).
Proof.
  destruct p as [i n]. unfold push_name. cbn. destruct (decide (i = id)) as [->|Hne].
  - rewrite lookup_insert_eq. cbn. rewrite elem_of_app, list_elem_of_singleton. naive_solver.
  - rewrite lookup_insert_ne by done. naive_solver.
Qed.

Lemma add_source_member name x m (p : string * string) :
  x ∈ default ∅ (add_source m p !! name) <-> x ∈ default ∅ (m !! name) \/ p = (x, name).
Proof.
  destruct p as [i n]. unfold add_source. cbn. destruct (decide (n = name)) as [->|Hne].
  - rewrite lookup_insert_eq. cbn. rewrite elem_of_union, elem_of_singleton. naive_solver.
  - rewrite lookup_insert_ne by done. naive_solver.
Qed.

Lemma unresolved_names_fold db ids kinds :
  wf_db db ->
  let found := fold_left (fun found chunk => fold_left push_name
      (reference_pairs db "unresolved_reference_names_from" rr_from_node_id chunk kinds) found)
    (chunks SQLITE_PARAM_CHUNK_SIZE ids) ∅ in
  (forall id x, x ∈ default [] (found !! id) <-> id ∈ ids /\ refers (view_of db) kinds id x)
  /\ forall id, found !! id <> Some [].
Proof.
  intros Hwf found. unfold found. split.
  - intros id x.
    rewrite (fold_left_member (fun m => x ∈ default [] (m !! id))
      (fun chunk => (id, x) ∈ reference_pairs db "unresolved_reference_names_from" rr_from_node_id chunk kinds)).
    + rewrite lookup_empty. cbn. setoid_rewrite elem_of_reference_pairs.
      rewrite <- (refers_row db kinds id x Hwf), <- (elem_of_chunks SQLITE_PARAM_CHUNK_SIZE ids id) by done.
      naive_solver by set_solver.
    + intros m chunk. rewrite (fold_left_member (fun m => x ∈ default [] (m !! id)) (fun p => p = (id, x))).
      * naive_solver.
      * intros. apply push_name_member.
  - intros id.
    apply (fold_left_ind _ (fun _ (m : gmap string (list string)) => m !! id <> Some [])); [done|].
    intros _ chunk _ m _ Hm.
    apply (fold_left_ind _ (fun _ (m : gmap string (list string)) => m !! id <> Some [])); [done|].
    intros _ [i n] _ m' _ Hm'. unfold push_name. cbn. intros E.
    apply lookup_insert_Some in E as [[_ E]|[_ E]]; [by destruct (default _ _)|done].
Qed.

Lemma no_refers (g : GraphView) (kinds : list EdgeKind) ids id x :
  ids = [] \/ kinds = [] -> ~ (id ∈ ids /\ refers g kinds id x).
Proof. intros [-> | ->] [Hid (r & _ & _ & _ & _ & Hk)]; set_solver. Qed.

Lemma db_unresolved_reference_names_from_ok db ids kinds :
  wf_db db ->
  returns (db_unresolved_reference_names_from db ids kinds) (fun m =>
    (forall id x, x ∈ default [] (m !! id) <-> id ∈ ids /\ refers (view_of db) kinds id x)
    /\ forall id, m !! id <> Some []).
Proof.
  intros Hwf. unfold db_unresolved_reference_names_from.
  pose proof (unresolved_names_fold db (unique ids) kinds Hwf) as [Hm Hne].
  assert (Hempty : unique ids = [] \/ kinds = [] ->
    (forall id x, x ∈ default [] ((∅ : gmap string (list string)) !! id)
       <-> id ∈ ids /\ refers (view_of db) kinds id x)
    /\ forall id, (∅ : gmap string (list string)) !! id <> Some []).
  { intros He. split; [|intros id; by rewrite lookup_empty]. intros id x. rewrite lookup_empty. cbn.
    split; [set_solver|]. rewrite <- (elem_of_unique ids). intros Hr. by eapply no_refers in Hr. }
  assert (Hsorted : forall found : gmap string (list string),
    (forall id x, x ∈ default [] (found !! id) <-> id ∈ unique ids /\ refers (view_of db) kinds id x) ->
    (forall id, found !! id <> Some []) ->
    (forall id x, x ∈ default [] ((sorted_unique <$> found) !! id)
       <-> id ∈ ids /\ refers (view_of db) kinds id x)
    /\ forall id, (sorted_unique <$> found) !! id <> Some []).
  { intros found Hf Hfne. split.
    - intros id x. rewrite <- (elem_of_unique ids), <- Hf, lookup_fmap.
      destruct (found !! id); cbn; [apply elem_of_sorted_unique|done].
    - intros id. rewrite lookup_fmap. destruct (found !! id) as [l|] eqn:E; cbn; [|done].
      intros [= El]. apply (Hfne id). rewrite E. f_equal. destruct l as [|y l]; [done|].
      assert (Hy : y ∈ sorted_unique (y :: l)) by (apply elem_of_sorted_unique; left).
      rewrite El in Hy. set_solver. }
  destruct (unique ids) as [|i0 il] eqn:Hu; [apply Hempty; by left|].
  destruct kinds as [|k0 ks] eqn:Hk; [apply Hempty; by right|].
  apply Hsorted; [exact Hm|exact Hne].
Qed.

Lemma db_unresolved_reference_sources_named_ok db names kinds :
  wf_db db ->
  returns (db_unresolved_reference_sources_named db names kinds) (fun m =>
    forall name x, x ∈ default ∅ (m !! name)
      <-> name ∈ names /\ name <> "" /\ refers (view_of db) kinds x name).
Proof.
  intros Hwf. unfold db_unresolved_reference_sources_named.
  set (ns := filter (fun n => n <> "") (unique names)).
  assert (Hns : forall n, n ∈ ns <-> n ∈ names /\ n <> "")
    by (intros n; unfold ns; rewrite list_elem_of_filter, elem_of_unique; tauto).
  assert (Hempty : ns = [] \/ kinds = [] -> forall name x,
    x ∈ default ∅ ((∅ : gmap string (gset string)) !! name)
    <-> name ∈ names /\ name <> "" /\ refers (view_of db) kinds x name).
  { intros He name x. rewrite lookup_empty. cbn. split; [set_solver|]. intros (Hn & Hne & Hr).
    exfalso. destruct He as [E| ->]; [|by destruct Hr as (r & _ & _ & _ & _ & Hk%not_elem_of_nil)].
    assert (name ∈ ns) by (by apply Hns). rewrite E in *. set_solver. }
  assert (Hfold : forall name x,
    x ∈ default ∅ (fold_left (fun found chunk => fold_left add_source
        (reference_pairs db "unresolved_reference_sources_named" rr_reference_name chunk kinds) found)
      (chunks SQLITE_PARAM_CHUNK_SIZE ns) (∅ : gmap string (gset string)) !! name)
    <-> name ∈ names /\ name <> "" /\ refers (view_of db) kinds x name).
  { intros name x.
    rewrite (fold_left_member (fun m : gmap string (gset string) => x ∈ default ∅ (m !! name))
      (fun chunk => (x, name) ∈ reference_pairs db "unresolved_reference_sources_named"
                     rr_reference_name chunk kinds)).
    - rewrite lookup_empty. cbn. setoid_rewrite elem_of_reference_pairs.
      rewrite <- (refers_row db kinds x name Hwf).
      trans (name ∈ ns /\ exists r, r ∈ db_unresolved_refs db /\ rr_from_node_id r = x
        /\ rr_reference_name r = name /\ rr_reference_kind r ∈ map EdgeKind_as_str kinds).
      + rewrite <- (elem_of_chunks SQLITE_PARAM_CHUNK_SIZE ns name) by done.
        naive_solver by set_solver.
      + rewrite Hns. tauto.
    - intros m chunk.
      rewrite (fold_left_member (fun m : gmap string (gset string) => x ∈ default ∅ (m !! name))
        (fun p => p = (x, name))).
      + naive_solver.
      + intros. apply add_source_member. }
  destruct ns as [|n0 ns'] eqn:En; [exact (Hempty (or_introl eq_refl))|].
  destruct kinds as [|k0 ks] eqn:Hk; [exact (Hempty (or_intror eq_refl))|]. exact Hfold.
Qed.

Lemma db_unresolved_names_among_ok db names :
  wf_db db ->
  returns (db_unresolved_names_among db names) (fun s => forall x, x ∈ s <->
    x ∈ names /\ x <> "" /\ exists r, r ∈ gv_refs (view_of db)
      /\ (ref_reference_name r = x \/ reference_name_tail (ref_reference_name r) = x)).
Proof.
  intros Hwf. unfold db_unresolved_names_among.
  set (wanted := list_to_set (filter (fun n => n <> "") names) : gset string).
  assert (Hw : forall x, x ∈ wanted <-> x ∈ names /\ x <> "")
    by (intros x; unfold wanted; rewrite elem_of_list_to_set, list_elem_of_filter; tauto).
  assert (Hrefs : forall x,
    (exists name, name ∈ map rr_reference_name (db_unresolved_refs db)
       /\ (name = x \/ reference_name_tail name = x))
    <-> exists r, r ∈ gv_refs (view_of db)
      /\ (ref_reference_name r = x \/ reference_name_tail (ref_reference_name r) = x)).
  { intros x. split.
    - intros (name & (r & -> & Hr)%list_elem_of_fmap & Hx).
      assert (Hp : exists u, row_to_unresolved_ref r = Ok u)
        by (apply (Forall_elem (wf_refs_parse _ Hwf)); set_solver).
      destruct Hp as [u Hu]. exists u. destruct (row_to_ref_fields r u Hu) as (-> & _).
      split; [apply view_ref; eauto|done].
    - intros (u & (r & Hr & Hu)%view_ref & Hx). destruct (row_to_ref_fields r u Hu) as (Hn & _).
      exists (rr_reference_name r). split; [by apply list_elem_of_fmap_2|]. by rewrite <- Hn. }
  case_decide as Hemp; cbn.
  - intros x. rewrite <- Hrefs. split; [set_solver|]. intros (? & ? & _).
    assert (x ∈ wanted) by (by apply Hw). set_solver.
  - intros x. rewrite (fold_left_member (fun s : gset string => x ∈ s)
      (fun name => x ∈ wanted /\ (name = x \/ reference_name_tail name = x))).
    + setoid_rewrite elem_of_scan. setoid_rewrite elem_of_remove_dups.
      rewrite <- Hrefs. split; [set_solver|]. intros (? & ? & name & ? & ?). right. exists name.
      rewrite Hw. auto.
    + intros s name. repeat case_decide; set_solver.
Qed.

(** ** Names and languages *)

Lemma row_referenced_view db r :
  wf_db db ->
  row_referenced db r <-> exists e, e ∈ gv_edges (view_of db) /\ edge_target e = nr_id r
    /\ edge_kind e <> EkContains.
Proof.
  intros Hwf. unfold row_referenced. rewrite Exists_exists. setoid_rewrite view_edge. split.
  - intros (er & Her & Ht & Hk). destruct (Forall_elem (wf_edges_parse _ Hwf) Her) as [e He].
    exists e. split; [eauto|]. pose proof (row_to_edge_fields er e He) as (_ & _ & -> & _).
    split; [done|]. by rewrite (edge_row_kind er e).
  - intros (e & (er & Her & He) & Ht & Hk). exists er. split; [done|].
    pose proof (row_to_edge_fields er e He) as (_ & _ & <- & _).
    split; [done|]. by rewrite (edge_row_kind er e) in Hk.
Qed.

Lemma name_ambiguous_ok db name :
  wf_db db -> name_ambiguous db name = true <-> ambiguous (view_of db) name.
Proof.
  intros Hwf. unfold name_ambiguous. rewrite andb_true_iff, !Nat.ltb_lt.
  set (rows := filter (fun r => nr_name r = name) (db_nodes db)).
  assert (Hrows : forall r, r ∈ rows <-> r ∈ db_nodes db /\ nr_name r = name)
    by (intros r; unfold rows; rewrite list_elem_of_filter; tauto).
  assert (Hnd : NoDup (map nr_id rows)).
  { unfold rows. eapply sublist_NoDup; [exact (wf_node_ids _ Hwf)|].
    change (map nr_id) with (fmap (M := list) nr_id). apply fmap_sublist, sublist_filter. }
  unfold ambiguous. f_equiv; [split|split].
  - intros Hl. destruct rows as [|r1 [|r2 rows]]; [cbn in Hl; lia..|].
    apply NoDup_cons in Hnd as [Hne _].
    destruct (proj1 (Hrows r1)) as [Hr1 Hn1]; [set_solver|].
    destruct (proj1 (Hrows r2)) as [Hr2 Hn2]; [set_solver|].
    destruct (node_of_row db r1 Hwf Hr1) as (n1 & _ & Hv1 & Hid1 & Hnm1 & _).
    destruct (node_of_row db r2 Hwf Hr2) as (n2 & _ & Hv2 & Hid2 & Hnm2 & _).
    exists n1, n2. rewrite Hnm1, Hnm2. split_and!; [done|done| |done|done].
    intros ->. apply Hne. rewrite <- Hid1, Hid2. cbn. left.
  - intros (n1 & n2 & Hv1 & Hv2 & Hne & Hn1 & Hn2).
    destruct (row_of_node db _ n1 Hwf Hv1) as (r1 & Hr1 & Hp1 & _ & _ & Hnm1 & _).
    destruct (row_of_node db _ n2 Hwf Hv2) as (r2 & Hr2 & Hp2 & _ & _ & Hnm2 & _).
    assert (r1 ∈ rows) by (apply Hrows; split; congruence).
    assert (r2 ∈ rows) by (apply Hrows; split; congruence).
    destruct rows as [|r [|r' rows]]; [set_solver| |cbn; lia].
    assert (r1 = r2) by set_solver. congruence.
  - intros Hl. destruct (filter (row_referenced db) rows) as [|r rs] eqn:E; [cbn in Hl; lia|].
    assert (Hr : r ∈ filter (row_referenced db) rows) by (rewrite E; left).
    apply list_elem_of_filter in Hr as [Href [Hr Hname]%Hrows].
    apply row_referenced_view in Href as (e & He & Ht & Hk); [|done].
    destruct (node_of_row db r Hwf Hr) as (n & _ & Hv & Hid & Hnm & _).
    exists n, e. split_and!; [done|congruence|done|congruence|done].
  - intros (n & e & Hv & Hname & He & Ht & Hk).
    destruct (row_of_node db _ n Hwf Hv) as (r & Hr & _ & Hid & _ & Hnm & _).
    assert (Hin : r ∈ filter (row_referenced db) rows).
    { apply list_elem_of_filter. split; [apply row_referenced_view; [done|]; exists e; split_and!; congruence|].
      apply Hrows. split; congruence. }
    destruct (filter _ rows); [set_solver|cbn; lia].
Qed.

Lemma db_ambiguous_referenced_names_ok db names :
  wf_db db ->
  returns (db_ambiguous_referenced_names db names) (fun s => forall x, x ∈ s <->
    x ∈ names /\ x <> "" /\ ambiguous (view_of db) x).
Proof.
  intros Hwf. cbn. intros x.
  rewrite (fold_left_member (fun s : gset string => x ∈ s)
    (fun chunk => x ∈ chunk /\ name_ambiguous db x = true)).
  - setoid_rewrite (name_ambiguous_ok db x Hwf).
    trans (x ∈ filter (fun n => n <> "") (unique names) /\ ambiguous (view_of db) x).
    + rewrite <- (elem_of_chunks SQLITE_PARAM_CHUNK_SIZE (filter (fun n => n <> "") (unique names)) x)
        by done. set_solver.
    + rewrite list_elem_of_filter, elem_of_unique. tauto.
  - intros s chunk. rewrite elem_of_union, elem_of_list_to_set, elem_of_scan, list_elem_of_filter,
      elem_of_remove_dups, list_elem_of_fmap. setoid_rewrite list_elem_of_filter. split.
    + intros [(Ha & r & -> & Hc & _)|?]; auto.
    + intros [?|[Hc Ha]]; [by right|left]. split; [done|].
      pose proof Ha as [(n & _ & Hn & _ & _ & <- & _) _]%name_ambiguous_ok; [|done].
      destruct (row_of_node db _ n Hwf Hn) as (r & Hr & _ & _ & _ & Hnm & _).
      exists r. rewrite Hnm in *. auto.
Qed.

(** The export flags the writers store. *)
Definition flags_ok db : Prop := Forall (fun r => (nr_is_exported r <= 1)%Z) (db_nodes db).

Lemma max_exported_1 rows l :
  Forall (fun r => (nr_is_exported r <= 1)%Z) rows ->
  max_exported rows l = Some 1%Z <-> exists r, r ∈ rows /\ nr_language r = l /\ nr_is_exported r = 1%Z.
Proof.
  intros Hall. unfold max_exported.
  assert (Hf : Forall (fun r => (nr_is_exported r <= 1)%Z) (filter (fun r => nr_language r = l) rows))
    by (apply Forall_forall; intros r [_ Hr]%list_elem_of_filter; by apply (Forall_elem Hall)).
  trans (exists r, r ∈ filter (fun r => nr_language r = l) rows /\ nr_is_exported r = 1%Z);
    [|setoid_rewrite list_elem_of_filter; naive_solver].
  assert (Hgen : forall (m : option Z), (forall x, m = Some x -> (x <= 1)%Z) ->
    fold_left (fun m r => Some (match m with None => nr_is_exported r
                                           | Some x => Z.max x (nr_is_exported r) end))
      (filter (fun r => nr_language r = l) rows) m = Some 1%Z
    <-> m = Some 1%Z \/ exists r, r ∈ filter (fun r => nr_language r = l) rows /\ nr_is_exported r = 1%Z).
  { induction Hf as [|r rs Hr Hrs IH]; intros m Hm; cbn; [set_solver|]. rewrite IH.
    - setoid_rewrite elem_of_cons. split.
      + intros [[= E]|(r' & ? & ?)]; [|right; eauto]. destruct m as [x|]; [|right; eauto].
        destruct (Z.max_spec x (nr_is_exported r)) as [[_ E']|[_ E']]; rewrite E' in E; [right|left]; eauto.
        by rewrite E.
      + intros [-> |(r' & [-> |?] & E)]; [left; f_equal; lia| |right; eauto].
        left. destruct m as [x|]; [|by rewrite E]. specialize (Hm x eq_refl). f_equal. lia.
    - intros x [= <-]. destruct m as [y|]; [|done]. specialize (Hm y eq_refl). lia. }
  rewrite Hgen by done. naive_solver.
Qed.

Lemma db_languages_with_exports_ok db languages :
  wf_db db -> flags_ok db ->
  returns (db_languages_with_exports db languages) (fun s => forall l, l ∈ s <->
    l ∈ languages /\ l <> "" /\ exists n, gv_nodes (view_of db) !! node_id n = Some n
      /\ Language_as_str (node_language n) = l /\ node_is_exported n = true).
Proof.
  intros Hwf Hflags. cbn. intros l.
  assert (Hview : max_exported (db_nodes db) l = Some 1%Z <-> exists n,
    gv_nodes (view_of db) !! node_id n = Some n
    /\ Language_as_str (node_language n) = l /\ node_is_exported n = true).
  { rewrite max_exported_1 by exact Hflags. split.
    - intros (r & Hr & <- & He). destruct (node_of_row db r Hwf Hr) as (n & Hp & Hv & _).
      exists n. destruct (row_to_node_more r n Hp) as (-> & _ & ->). by rewrite He.
    - intros (n & Hv & <- & He). destruct (row_of_node db _ n Hwf Hv) as (r & Hr & Hp & _).
      exists r. destruct (row_to_node_more r n Hp) as (Hl & _ & Hx). rewrite Hx in He.
      apply Z.eqb_eq in He. auto. }
  rewrite <- Hview.
  rewrite (fold_left_member (fun s : gset string => l ∈ s)
    (fun chunk => l ∈ chunk /\ max_exported (db_nodes db) l = Some 1%Z)).
  - trans (l ∈ filter (fun l => l <> "") (unique languages) /\ max_exported (db_nodes db) l = Some 1%Z).
    + rewrite <- (elem_of_chunks SQLITE_PARAM_CHUNK_SIZE (filter (fun l => l <> "") (unique languages)) l)
        by done. set_solver.
    + rewrite list_elem_of_filter, elem_of_unique. tauto.
  - intros s chunk. rewrite (fold_left_member (fun s : gset string => l ∈ s)
      (fun language => language = l /\ max_exported (db_nodes db) l = Some 1%Z)).
    + setoid_rewrite elem_of_scan. setoid_rewrite elem_of_remove_dups.
      setoid_rewrite list_elem_of_fmap. setoid_rewrite list_elem_of_filter. split.
      * intros [?|(l' & (r & -> & Hc & _) & <- & ?)]; auto.
      * intros [?|[Hc Hmax]]; [by left|right]. exists l. split; [|done].
        pose proof Hmax as (r & Hr & <- & _)%max_exported_1; [|exact Hflags]. eauto.
    + intros s' l'. case_bool_decide as Hb; [rewrite elem_of_union, elem_of_singleton|]; naive_solver.
Qed.

(** ** The unreferenced nodes *)

Lemma row_generated_ok db f :
  wf_db db -> row_generated db f = generated_file (view_of db) f.
Proof.
  intros Hwf. unfold row_generated, generated_file. cbn [view_of gv_files].
  assert (Hfiles : forall rows, Forall (fun r => exists x, row_to_file r = Ok x) rows ->
    NoDup (map fr_path rows) ->
    match filter (fun x => fr_path x = f) rows with
    | x :: _ => negb (fr_generated x =? 0)%Z
    | [] => false
    end = existsb (fun r => String.eqb (file_path r) f && file_generated r) (parsed row_to_file rows)).
  { induction 1 as [|r rows [x Hx] Hrows IH]; intros Hnd; [done|].
    apply NoDup_cons in Hnd as [Hr Hnd]. rewrite parsed_cons, Hx. cbn [existsb].
    rewrite (row_to_file_fields r x Hx), filter_cons.
    assert (Hg : file_generated x = negb (fr_generated r =? 0)%Z)
      by (revert Hx; unfold row_to_file; parse_inv; done).
    rewrite Hg. destruct (decide (fr_path r = f)) as [<-|Hne].
    - rewrite String.eqb_refl. cbn [andb]. destruct (negb _); [done|]. cbn [orb].
      rewrite <- IH by done. destruct (filter _ rows) as [|y ys] eqn:E; [done|].
      exfalso. assert (Hy : y ∈ filter (fun x => fr_path x = fr_path r) rows) by (rewrite E; left).
      apply list_elem_of_filter in Hy as [Hy ?]. apply Hr. rewrite <- Hy.
      by apply list_elem_of_fmap_2.
    - apply String.eqb_neq in Hne. rewrite Hne. cbn [andb orb]. by apply IH. }
  apply Hfiles; [exact (wf_files_parse _ Hwf)|exact (wf_file_paths _ Hwf)].
Qed.

Lemma parsed_take {E A R} (parse : R -> result E A) rows k :
  Forall (parses parse) rows -> parsed parse (take k rows) = take k (parsed parse rows).
Proof.
  intros Hall. revert k. induction Hall as [|r rows [a Ha] _ IH]; intros [|k]; try done.
  cbn [take]. by rewrite !parsed_cons, Ha, IH.
Qed.

Lemma parsed_sorted {E A R} (parse : R -> result E A) (le : R -> R -> bool) (le' : A -> A -> bool) rows :
  Forall (parses parse) rows ->
  (forall r r' a a', parse r = Ok a -> parse r' = Ok a' -> le r r' = true -> le' a a' = true) ->
  Sorted (fun a b => le a b = true) rows ->
  Sorted (fun a b => le' a b = true) (parsed parse rows).
Proof.
  intros Hall Hle. induction Hall as [|r rows [a Ha] Hrows IH]; intros Hs; [constructor|].
  apply Sorted_inv in Hs as [Hs Hd]. rewrite parsed_cons, Ha. constructor; [by apply IH|].
  destruct Hrows as [|r' rows [a' Ha'] _]; [constructor|]. rewrite parsed_cons, Ha'.
  constructor. apply HdRel_inv in Hd. by eapply Hle.
Qed.

Lemma row_referenced_elsewhere_view db r :
  wf_db db ->
  ~ row_referenced_elsewhere db r <->
  forall e, e ∈ gv_edges (view_of db) -> edge_target e = nr_id r ->
    edge_kind e = EkContains \/ edge_source e = nr_id r.
Proof.
  intros Hwf. unfold row_referenced_elsewhere. rewrite Exists_exists. split.
  - intros Hno e (er & Her & He)%view_edge Ht.
    pose proof (row_to_edge_fields er e He) as (_ & Es & Et & _).
    destruct (decide (edge_kind e = EkContains)) as [|Hk]; [by left|].
    destruct (decide (edge_source e = nr_id r)) as [|Hs]; [by right|].
    exfalso. apply Hno. exists er. rewrite (edge_row_kind er e) in Hk by done. split; [done|].
    split; [congruence|]. split; [done|congruence].
  - intros Hall (er & Her & Ht & Hk & Hs).
    destruct (Forall_elem (wf_edges_parse _ Hwf) Her) as [e He].
    pose proof (row_to_edge_fields er e He) as (_ & Es & Et & _).
    destruct (Hall e) as [Hc|Hc]; [apply view_edge; eauto|congruence| |congruence].
    by rewrite (edge_row_kind er e) in Hc.
Qed.

Lemma db_unreferenced_nodes_ok db kinds limit :
  wf_db db ->
  returns (db_unreferenced_nodes db kinds limit) (fun l => exists all,
    l = take (Z.to_nat limit) all /\ NoDup (map (fun p => node_id (fst p)) all)
    /\ Sorted (fun a b => unreferenced_le (fst a) (fst b) = true) all
    /\ forall n b, (n, b) ∈ all <->
         node_kind n ∈ kinds /\ unreferenced (view_of db) n
         /\ b = generated_file (view_of db) (node_file_path n)).
Proof.
  intros Hwf. unfold db_unreferenced_nodes.
  set (P := fun r => nr_kind r ∈ map NodeKind_as_str kinds /\ ~ row_referenced_elsewhere db r).
  set (rows := sort_by row_le (scan_order "unreferenced_nodes" (filter P (db_nodes db)))).
  set (parse := fun r => node ← row_to_node r; Ok (node, row_generated db (nr_file_path r))).
  assert (Hrows : rows ≡ₚ filter P (db_nodes db)) by (unfold rows; by rewrite sort_by_perm, scan_perm).
  assert (Hall : Forall (parses parse) rows).
  { rewrite Hrows. apply Forall_forall. intros r [_ Hr]%list_elem_of_filter.
    destruct (Forall_elem (wf_nodes_parse _ Hwf) Hr) as [n Hn].
    exists (n, row_generated db (nr_file_path r)). unfold parse. by rewrite Hn. }
  assert (Hparse : forall r p, parse r = Ok p ->
    row_to_node r = Ok (fst p) /\ snd p = row_generated db (nr_file_path r)).
  { intros r p. unfold parse. destruct (row_to_node r) as [n| |]; cbn; try done. by intros [= <-]. }
  assert (Hspec : exists all, parsed parse rows = all
    /\ NoDup (map (fun p => node_id (fst p)) all)
    /\ Sorted (fun a b => unreferenced_le (fst a) (fst b) = true) all
    /\ forall n b, (n, b) ∈ all <-> node_kind n ∈ kinds /\ unreferenced (view_of db) n
         /\ b = generated_file (view_of db) (node_file_path n)).
  { eexists. split; [done|]. split; [|split].
    - rewrite (parsed_keys parse _ nr_id); [|intros r p Hp|exact Hall].
      + rewrite Hrows. eapply sublist_NoDup; [exact (wf_node_ids _ Hwf)|].
        change (map nr_id) with (fmap (M := list) nr_id). apply fmap_sublist, sublist_filter.
      + apply Hparse in Hp as [Hp _]. by apply row_to_node_fields in Hp as (-> & _).
    - apply (parsed_sorted parse row_le (fun a b => unreferenced_le (fst a) (fst b))); [exact Hall| |].
      + intros r r' a a' [Ha _]%Hparse [Ha' _]%Hparse. unfold row_le, unreferenced_le.
        pose proof (row_to_node_fields _ _ Ha) as (-> & -> & -> & _).
        pose proof (row_to_node_fields _ _ Ha') as (-> & -> & -> & _).
        pose proof (row_to_node_more _ _ Ha) as (_ & -> & _).
        by pose proof (row_to_node_more _ _ Ha') as (_ & -> & _).
      + apply sort_by_sorted. intros a b. unfold row_le.
        apply then_le_total; [apply str_compare_opp|].
        apply then_le_total; [apply Z.compare_antisym|].
        apply then_le_total; [apply str_compare_opp|]. apply str_le_total.
    - intros n b. rewrite elem_of_parsed. setoid_rewrite Hrows.
      setoid_rewrite list_elem_of_filter. unfold P, unreferenced. split.
      + intros (r & [[Hk Href] Hr] & [Hn Hb]%Hparse). cbn in Hn, Hb.
        pose proof (row_to_node_fields _ _ Hn) as (Hid & _ & Hf & Hkind).
        rewrite <- Hkind in Hk. apply list_elem_of_fmap in Hk as (k & ->%(inj NodeKind_as_str) & Hk).
        rewrite Hid. split; [done|]. split; [|by rewrite Hb, Hf, row_generated_ok].
        split; [|by apply row_referenced_elsewhere_view]. apply lookup_nodes_view; eauto.
      + intros (Hk & [Hv Href] & ->). destruct (row_of_node db _ n Hwf Hv) as
          (r & Hr & Hp & Hid & _ & _ & Hf & Hkind).
        exists r. rewrite <- Hkind. rewrite Hid in Href. split.
        * split; [|done]. split; [by apply list_elem_of_fmap_2|]. by apply row_referenced_elsewhere_view.
        * unfold parse. rewrite Hp, row_generated_ok by done. by rewrite Hf. }
  destruct Hspec as (all & Hparsed & Hnd & Hs & Hel).
  destruct kinds as [|k0 ks] eqn:Hk.
  { exists all. split; [|by auto]. destruct all as [|[n b] all]; [by rewrite take_nil|].
    destruct (proj1 (Hel n b)) as [Hin _]; [left|set_solver]. }
  destruct (Z.leb_spec limit 0) as [Hl|Hl].
  { exists all. split; [|by auto]. by rewrite Z2Nat.nonpos. }
  rewrite map_M_parsed.
  - exists all. split; [|by auto]. by rewrite parsed_take, Hparsed.
  - apply Forall_take. exact Hall.
Qed.

(** A well-formed database answers its aggregate reads. *)
Lemma wf_db_reads db : wf_db db -> flags_ok db -> HealthyReads (view_of db) db.
Proof.
  intros Hwf Hflags. split; cbn -[view_of].
  - intros. by apply db_unreferenced_nodes_ok.
  - intros. by apply db_languages_with_exports_ok.
  - intros. by apply db_unresolved_names_among_ok.
  - intros. by apply db_unresolved_reference_names_from_ok.
  - intros. by apply db_unresolved_reference_sources_named_ok.
  - intros. by apply db_ambiguous_referenced_names_ok.
  - intros. by apply db_file_dependent_counts_ok.
  - intros. by apply db_dependent_file_paths_ok.
Qed.

End Facts.
