(* ===== verification/Collation.v ===== *)
(** * Collation (crates/codegraph-graph/src/collation.rs)

    [locale_compare], the order of names and paths in the viewer's lists, and
    the proof that it is a total order, as [sort_by] requires of a comparison.
    The Unicode tables of the standard library are a parameter. *)
From S2P Require Import Prelude Strings Utf8.

(** [char::is_alphabetic], [is_numeric], [is_uppercase], and the first
    character of [to_lowercase]; [str::to_lowercase]. *)
Class UnicodeTables := {
  is_alphabetic : Char -> bool;
  is_numeric : Char -> bool;
  is_uppercase : Char -> bool;
  char_to_lowercase : Char -> Char;
  str_to_lowercase : string -> string
}.

Definition is_alphanumeric `{UnicodeTables} (c : Char) : bool := is_alphabetic c || is_numeric c.

(** [char::is_ascii_digit]. *)
Definition is_ascii_digit (c : Char) : bool := ((48 <=? c) && (c <=? 57))%N.

(** The bytes and the characters of a string. *)
Definition bytes_of (s : string) : Bytes := map N_of_ascii (String.list_ascii_of_string s).
Definition chars_of (s : string) : list Char := chars (bytes_of s).

(** [PUNCTUATION_ORDER], with the double quote in its place. *)
Definition PUNCTUATION_ORDER : list Char :=
  lit "_-,;:!?.'" ++ [34%N] ++ lit "()[]{}@*/\&#%`^+<=>|~$".

Fixpoint position (c : Char) (l : list Char) : option N :=
  match l with
  | [] => None
  | x :: l => if (x =? c)%N then Some 0%N else N.succ <$> position c l
  end.

Section Collation.
Context `{UnicodeTables}.

(** [primary_weight]. *)
Definition primary_weight (c : Char) : N * N :=
  if is_whitespace c then (0, c)%N
  else match position c PUNCTUATION_ORDER with
       | Some at_ => (1%N, at_)
       | None =>
           if is_ascii_digit c then (3, c)%N
           else if is_alphanumeric c then (4%N, char_to_lowercase c)
           else (2, c)%N
       end.

(** [Iterator::cmp]. *)
Fixpoint list_cmp {A} (cmp : A -> A -> comparison) (a b : list A) : comparison :=
  match a, b with
  | [], [] => Eq
  | [], _ :: _ => Lt
  | _ :: _, [] => Gt
  | x :: a, y :: b => match cmp x y with Eq => list_cmp cmp a b | c => c end
  end.

Definition pair_cmp (a b : N * N) : comparison :=
  match N.compare (fst a) (fst b) with Eq => N.compare (snd a) (snd b) | c => c end.

Definition bool_cmp (a b : bool) : comparison :=
  match a, b with false, true => Lt | true, false => Gt | _, _ => Eq end.

Definition locale_compare (a b : string) : comparison :=
  match list_cmp pair_cmp (map primary_weight (chars_of a)) (map primary_weight (chars_of b)) with
  | Eq =>
      match list_cmp bool_cmp (map is_uppercase (chars_of a)) (map is_uppercase (chars_of b)) with
      | Eq => String.compare a b
      | c => c
      end
  | c => c
  end.

End Collation.

(** ** A comparison that is a total order *)

Class TotalCmp {A} (cmp : A -> A -> comparison) : Prop := {
  cmp_eq a : cmp a a = Eq;
  cmp_opp a b : cmp b a = CompOpp (cmp a b);
  cmp_trans a b c : cmp a b <> Gt -> cmp b c <> Gt -> cmp a c <> Gt;
  cmp_trans_eq a b c : cmp a b = Eq -> cmp b c = Eq -> cmp a c = Eq
}.

(** Comparing first by one key, then by another. *)
Definition then_cmp {A} (c1 c2 : A -> A -> comparison) (a b : A) : comparison :=
  match c1 a b with Eq => c2 a b | c => c end.

Section Total.
Context {A} (cmp : A -> A -> comparison) `{HT : !TotalCmp cmp}.

Lemma cmp_lt_le a b c : cmp a b = Lt -> cmp b c <> Gt -> cmp a c = Lt.
Proof.
  intros Hab Hbc. assert (Hac : cmp a c <> Gt) by (eapply cmp_trans; [by rewrite Hab|done]).
  destruct (cmp a c) eqn:E; [|done..]. exfalso.
  assert (Hba : cmp b a <> Gt).
  { eapply cmp_trans; [exact Hbc|]. rewrite (cmp_opp a c), E. done. }
  rewrite (cmp_opp a b), Hab in Hba. done.
Qed.

Lemma cmp_le_lt a b c : cmp a b <> Gt -> cmp b c = Lt -> cmp a c = Lt.
Proof.
  intros Hab Hbc. assert (Hac : cmp a c <> Gt) by (eapply cmp_trans; [done|by rewrite Hbc]).
  destruct (cmp a c) eqn:E; [|done..]. exfalso.
  assert (Hcb : cmp c b <> Gt).
  { eapply cmp_trans; [|exact Hab]. rewrite (cmp_opp a c), E. done. }
  rewrite (cmp_opp b c), Hbc in Hcb. done.
Qed.

#[export] Instance list_cmp_total : TotalCmp (list_cmp cmp).
Proof using HT.
  split.
  - induction a as [|x a IH]; cbn; [done|]. by rewrite cmp_eq.
  - induction a as [|x a IH]; intros [|y b]; cbn; try done.
    rewrite (cmp_opp x y), IH. by destruct (cmp x y).
  - induction a as [|x a IH]; intros [|y b] [|z c]; cbn; try done.
    destruct (cmp x y) eqn:Exy, (cmp y z) eqn:Eyz; try done; intros H1 H2.
    + rewrite (cmp_trans_eq x y z) by done. by eapply IH.
    + by rewrite (cmp_le_lt x y z) by (by rewrite ?Exy).
    + by rewrite (cmp_lt_le x y z) by (by rewrite ?Eyz).
    + by rewrite (cmp_lt_le x y z) by (by rewrite ?Eyz).
  - induction a as [|x a IH]; intros [|y b] [|z c]; cbn; try done.
    destruct (cmp x y) eqn:Exy, (cmp y z) eqn:Eyz; try done. intros H1 H2.
    rewrite (cmp_trans_eq x y z) by done. by eapply IH.
Qed.

End Total.

#[export] Instance then_cmp_total {A} (c1 c2 : A -> A -> comparison) :
  TotalCmp c1 -> TotalCmp c2 -> TotalCmp (then_cmp c1 c2).
Proof.
  intros H1 H2. unfold then_cmp. split.
  - intros a. by rewrite !cmp_eq.
  - intros a b. rewrite (cmp_opp (cmp := c1) a b), (cmp_opp (cmp := c2) a b). by destruct (c1 a b).
  - intros a b c. destruct (c1 a b) eqn:Eab, (c1 b c) eqn:Ebc; try done; intros Hab Hbc.
    + rewrite (cmp_trans_eq (cmp := c1) a b c) by done. by eapply (cmp_trans (cmp := c2)).
    + by rewrite (cmp_le_lt c1 a b c) by (by rewrite ?Eab).
    + by rewrite (cmp_lt_le c1 a b c) by (by rewrite ?Ebc).
    + by rewrite (cmp_lt_le c1 a b c) by (by rewrite ?Ebc).
  - intros a b c. destruct (c1 a b) eqn:Eab, (c1 b c) eqn:Ebc; try done. intros Hab Hbc.
    rewrite (cmp_trans_eq (cmp := c1) a b c) by done. by eapply (cmp_trans_eq (cmp := c2)).
Qed.

(** A key of the values, compared. *)
#[export] Instance map_cmp_total {A B} (f : A -> B) cmp :
  TotalCmp cmp -> TotalCmp (fun a b => cmp (f a) (f b)).
Proof.
  intros H. split.
  - intros a. apply cmp_eq.
  - intros a b. apply cmp_opp.
  - intros a b c. apply cmp_trans.
  - intros a b c. apply cmp_trans_eq.
Qed.

#[export] Instance N_compare_total : TotalCmp N.compare.
Proof.
  split.
  - apply N.compare_refl.
  - apply N.compare_antisym.
  - intros a b c. rewrite !N.compare_ngt_iff. lia.
  - intros a b c. rewrite !N.compare_eq_iff. lia.
Qed.

#[export] Instance bool_cmp_total : TotalCmp bool_cmp.
Proof. split; [by intros []|by intros [] []|by intros [] [] []|by intros [] [] []]. Qed.

#[export] Instance pair_cmp_total : TotalCmp pair_cmp.
Proof. exact (then_cmp_total _ _ (map_cmp_total fst _ _) (map_cmp_total snd _ _)). Qed.

Lemma str_compare_refl s : String.compare s s = Eq.
Proof.
  pose proof (str_compare_opp s s) as E. by destruct (String.compare s s).
Qed.

#[export] Instance str_cmp_total : TotalCmp String.compare.
Proof.
  assert (Hle : forall a b, String.compare a b <> Gt <-> str_le a b = true).
  { intros a b. unfold str_le, String.leb. destruct (String.compare a b); naive_solver. }
  pose proof String.compare_eq_iff as Heq.
  split.
  - exact str_compare_refl.
  - apply str_compare_opp.
  - intros a b c. rewrite !Hle. apply str_leb_trans.
  - intros a b c ->%Heq ->%Heq. apply str_compare_refl.
Qed.

#[export] Instance locale_compare_total `{UnicodeTables} : TotalCmp locale_compare.
Proof.
  exact (then_cmp_total _ _
    (map_cmp_total (fun s => map primary_weight (chars_of s)) _ (list_cmp_total pair_cmp))
    (then_cmp_total _ _
       (map_cmp_total (fun s => map is_uppercase (chars_of s)) _ (list_cmp_total bool_cmp)) _)).
Qed.

Lemma locale_compare_eq `{UnicodeTables} a b : locale_compare a b = Eq <-> a = b.
Proof.
  split; [|intros ->; apply cmp_eq]. unfold locale_compare.
  destruct (list_cmp pair_cmp _ _); [|done..]. destruct (list_cmp bool_cmp _ _); [|done..].
  apply String.compare_eq_iff.
Qed.

(** ** Whole-identifier mentions
      (crates/codegraph-graph/src/dead_code.rs, [mention_count])

    How often a name is written in a text as a whole identifier. A [str] is the
    list of its characters here, and an offset counts characters: a match of
    one [str] in another starts and ends between characters. *)

Section Mentions.
Context `{UnicodeTables}.

(** [is_identifier_char]; 95 is the underscore, 36 the dollar sign. *)
Definition is_identifier_char (c : Char) : bool :=
  (c =? 95)%N || (c =? 36)%N || is_alphabetic c || is_numeric c.

(** [str::starts_with]. *)
Fixpoint is_prefix (p s : list Char) : bool :=
  match p, s with
  | [], _ => true
  | a :: p, b :: s => (a =? b)%N && is_prefix p s
  | _ :: _, [] => false
  end.

(** [str::find]. *)
Fixpoint find_chars (p s : list Char) : option nat :=
  if is_prefix p s then Some 0 else
  match s with [] => None | _ :: s => S <$> find_chars p s end.

Definition is_some_and (p : Char -> bool) (c : option Char) : bool :=
  match c with Some c => p c | None => false end.

(** The loop of [mention_count]. *)
Fixpoint mention_loop (fuel : nat) (source name : list Char) (stop_at count from : nat) : nat :=
  match fuel with
  | 0 => count
  | S fuel =>
      match find_chars name (drop from source) with
      | None => count
      | Some offset =>
          let at_ := from + offset in
          let from := at_ + length name in
          let before := last (take at_ source) in
          let after := head (drop from source) in
          if negb (is_some_and is_identifier_char before)
             && negb (is_some_and is_identifier_char after)
          then let count := count + 1 in
               if stop_at <=? count then count
               else mention_loop fuel source name stop_at count from
          else mention_loop fuel source name stop_at count from
      end
  end.

Definition mention_count (source name : list Char) (stop_at : nat) : nat :=
  if bool_decide (name = []) || (stop_at =? 0) then 0
  else mention_loop (S (length source)) source name stop_at 0 0.

(** ** The reference: every position is asked *)

(** [name] is written at the start of [s], after the character [before]. *)
Definition mentioned_at (name : list Char) (before : option Char) (s : list Char) : bool :=
  is_prefix name s && negb (is_some_and is_identifier_char before)
  && negb (is_some_and is_identifier_char (head (drop (length name) s))).

Fixpoint mentions (name : list Char) (before : option Char) (s : list Char) : nat :=
  (if mentioned_at name before s then 1 else 0)
  + match s with [] => 0 | c :: s => mentions name (Some c) s end.

(** ** Facts *)

Lemma is_prefix_spec p s : is_prefix p s = true <-> exists t, s = p ++ t.
Proof.
  revert s. induction p as [|a p IH]; intros s; cbn; [naive_solver|].
  destruct s as [|b s]; [naive_solver|]. rewrite andb_true_iff, N.eqb_eq, IH. naive_solver.
Qed.

Lemma find_chars_Some p s i :
  find_chars p s = Some i ->
  (exists a t, s = a ++ p ++ t /\ length a = i)
  /\ forall j, j < i -> is_prefix p (drop j s) = false.
Proof.
  revert i. induction s as [|c s IH]; intros i; cbn [find_chars].
  - destruct (is_prefix p []) eqn:E; [|done]. intros [= <-]. split; [|lia].
    apply is_prefix_spec in E as [t E]. by exists [], t.
  - destruct (is_prefix p (c :: s)) eqn:E.
    { intros [= <-]. split; [|lia]. apply is_prefix_spec in E as [t E]. by exists [], t. }
    destruct (find_chars p s) as [k|] eqn:Ek; [|done]. intros [= <-].
    destruct (IH k eq_refl) as [(a & t & -> & Hl) Hmin]. split.
    + exists (c :: a), t. split; [done|]. cbn. by rewrite Hl.
    + intros [|j] Hj; [done|]. apply Hmin. lia.
Qed.

Lemma find_chars_None p s : find_chars p s = None -> forall j, is_prefix p (drop j s) = false.
Proof.
  induction s as [|c s IH]; cbn [find_chars]; destruct (is_prefix p _) eqn:E; try done.
  - intros _ j. by rewrite drop_nil.
  - destruct (find_chars p s); [done|]. intros _ [|j]; [done|]. by apply IH.
Qed.

Lemma mentions_none name before s :
  (forall j, is_prefix name (drop j s) = false) -> mentions name before s = 0.
Proof.
  revert before. induction s as [|c s IH]; intros before Hno; cbn [mentions]; unfold mentioned_at.
  - by rewrite (Hno 0 : is_prefix name [] = false).
  - rewrite (Hno 0 : is_prefix name (c :: s) = false). apply (IH (Some c)). intros j. exact (Hno (S j)).
Qed.

Definition last_of (before : option Char) (a : list Char) : option Char :=
  match last a with Some c => Some c | None => before end.

Lemma last_of_cons before c a : last_of before (c :: a) = last_of (Some c) a.
Proof. unfold last_of. rewrite last_cons. by destruct (last a). Qed.

(** Positions without the name do not count. *)
Lemma mentions_skip name before a s :
  (forall j, j < length a -> is_prefix name (drop j (a ++ s)) = false) ->
  mentions name before (a ++ s) = mentions name (last_of before a) s.
Proof.
  revert before. induction a as [|c a IH]; intros before Hno; [done|].
  cbn [app mentions]. unfold mentioned_at.
  rewrite (Hno 0 ltac:(cbn; lia) : is_prefix name (c :: a ++ s) = false), last_of_cons.
  apply IH. intros j Hj. exact (Hno (S j) ltac:(cbn; lia)).
Qed.

(** Nor do positions right after an identifier character. *)
Lemma mentions_inside name c w s :
  Forall (fun x => is_identifier_char x = true) (c :: w) ->
  mentions name (Some c) (w ++ s) = mentions name (last_of (Some c) w) s.
Proof.
  revert c. induction w as [|x w IH]; intros c Hall; [done|].
  apply Forall_cons in Hall as [Hc Hall]. cbn [app mentions]. unfold mentioned_at at 1.
  cbn [is_some_and]. rewrite Hc. cbn [negb]. rewrite andb_false_r, last_of_cons. by apply IH.
Qed.

Lemma last_of_take source from a s :
  from <= length source -> drop from source = a ++ s ->
  last_of (last (take from source)) a = last (take (from + length a) source).
Proof.
  intros Hfrom Hd. rewrite <- (take_drop from source) at 2. rewrite Hd, take_app.
  rewrite length_take, Nat.min_l by lia.
  replace (from + length a - from) with (length a) by lia.
  rewrite (take_ge (take from source)) by (rewrite length_take; lia). rewrite take_app_length.
  unfold last_of. rewrite last_app. by destruct (last a).
Qed.

(** One match of a name of identifier characters. *)
Lemma mentions_match name before s :
  name <> [] -> Forall (fun x => is_identifier_char x = true) name ->
  mentions name before (name ++ s)
  = (if mentioned_at name before (name ++ s) then 1 else 0) + mentions name (last_of before name) s.
Proof.
  intros Hne Hall. destruct name as [|c w]; [done|]. cbn [app mentions]. f_equal.
  rewrite last_of_cons. by apply mentions_inside.
Qed.

Lemma mention_loop_spec fuel source name stop_at count from :
  name <> [] -> Forall (fun x => is_identifier_char x = true) name ->
  from <= length source -> length source < fuel + from -> count < stop_at ->
  mention_loop fuel source name stop_at count from
  = Nat.min stop_at (count + mentions name (last (take from source)) (drop from source)).
Proof.
  intros Hne Hall. revert count from. induction fuel as [|fuel IH]; intros count from Hfrom Hfuel Hc;
    [lia|]. cbn [mention_loop].
  destruct (find_chars name (drop from source)) as [offset|] eqn:E.
  2:{ rewrite mentions_none by (by apply find_chars_None). lia. }
  destruct (find_chars_Some _ _ _ E) as [(a & t & Hd & Hl) Hmin].
  assert (Hn : 1 <= length name) by (destruct name; [done|cbn; lia]).
  assert (Hlen : length source = from + offset + length name + length t).
  { pose proof (length_drop source from) as Hld. rewrite Hd, !length_app in Hld. lia. }
  assert (Hrest : drop (from + offset + length name) source = t).
  { rewrite <- Nat.add_assoc, <- drop_drop, Hd, app_assoc, drop_app_length'; [done|].
    rewrite length_app. lia. }
  assert (Hbefore : last_of (last (take from source)) a = last (take (from + offset) source)).
  { rewrite <- Hl. by apply (last_of_take _ _ _ (name ++ t)). }
  assert (Hlast : last_of (last (take (from + offset) source)) name
    = last (take (from + offset + length name) source)).
  { apply (last_of_take _ _ _ t); [lia|]. rewrite <- drop_drop, Hd, drop_app_length'; [done|lia]. }
  rewrite Hd, mentions_skip, Hbefore, mentions_match, Hlast by
    (try done; intros j Hj; rewrite <- Hd; apply Hmin; lia).
  rewrite Hrest. unfold mentioned_at. rewrite drop_app_length.
  rewrite (proj2 (is_prefix_spec name (name ++ t))) by eauto. cbn [andb].
  destruct (negb _ && negb _) eqn:Hb.
  - destruct (Nat.leb_spec stop_at (count + 1)); [lia|]. rewrite IH by lia. rewrite Hrest. lia.
  - rewrite IH by lia. rewrite Hrest. lia.
Qed.

(** For a name of identifier characters, [mention_count] is the number of
    whole-identifier mentions, up to its limit. *)
Lemma mention_count_spec source name stop_at :
  name <> [] -> Forall (fun x => is_identifier_char x = true) name ->
  mention_count source name stop_at = Nat.min stop_at (mentions name None source).
Proof.
  intros Hne Hall. unfold mention_count. rewrite bool_decide_eq_false_2 by done. cbn [orb].
  destruct (Nat.eqb_spec stop_at 0) as [->|Hs]; [done|].
  by rewrite mention_loop_spec by (done || lia).
Qed.

End Mentions.
