(* ===== verification/DeadCode.v ===== *)
(** * The dead-code report (crates/codegraph-graph/src/dead_code.rs)

    Unreferenced symbols minus every reason to doubt them, with a count of each
    doubt. A [HashMap] or [HashSet] is a finite map or set; nothing here
    depends on its iteration order. The Unicode tables are a parameter, and so
    is the reader of source files, as in the source. *)
From S2P Require Import Prelude Strings Types Rows Db GraphStore PathUtil StrOps FileClass.
From S2P Require Import Hierarchy ViewerReads Collation.

(** ** Kinds and constants *)

Definition DEAD_CODE_KINDS : list NodeKind :=
  [NkFunction; NkMethod; NkClass; NkComponent; NkInterface; NkStruct; NkTrait; NkProtocol; NkEnum;
   NkUnion; NkTypeAlias].

Definition is_allowed_dead_code_kind (kind : NodeKind) : bool :=
  bool_decide (kind ∈ DEAD_CODE_KINDS)
  || match kind with
     | NkVariable | NkConstant | NkProperty | NkField | NkEnumMember | NkNamespace | NkModule => true
     | _ => false
     end.

Definition MAX_DEAD_CODE_CANDIDATES : Z := 20000.
Definition MAX_OVERRIDE_ANCESTOR_DEPTH : nat := 8.
Definition MAX_CORROBORATION_FILES : nat := 600.

Definition is_container_kind (kind : NodeKind) : bool :=
  match kind with
  | NkClass | NkInterface | NkStruct | NkTrait | NkProtocol | NkEnum | NkUnion | NkTypeAlias => true
  | _ => false
  end.

Definition is_declaration_container_kind (kind : NodeKind) : bool :=
  match kind with NkInterface | NkTrait | NkProtocol => true | _ => false end.

Definition BY_NAME_DISPATCH_LANGUAGES : list Language := [LangTypeScript; LangTsx].

Definition is_hook_shaped (node : Node) : bool :=
  match node_kind node with NkMethod | NkFunction => true | _ => false end
  && bool_decide (node_language node ∈ BY_NAME_DISPATCH_LANGUAGES).

Definition is_overridable_kind (kind : NodeKind) : bool :=
  match kind with NkMethod | NkFunction | NkProperty | NkField => true | _ => false end.

Definition IMPLICIT_ENTRY_NAMES : list string :=
  ["constructor"; "main"; "init"; "deinit"; "finalize"; "destructor"; "dispose"; "drop"; "default";
   "tostring"; "equals"; "gethashcode"; "hashcode"].

Definition TEST_SCOPE_SEGMENTS : list string :=
  ["test"; "tests"; "__tests__"; "spec"; "specs"; "testing"].

Definition MARKUP_HOST_LANGUAGES : list string :=
  ["svelte"; "vue"; "astro"; "liquid"; "html"; "razor"; "twig"; "blade"; "erb"; "handlebars"].

Definition HEADER_EXTENSIONS : list string :=
  [".h"; ".hh"; ".hpp"; ".hxx"; ".h++"; ".inc"; ".d.ts"; ".d.mts"; ".d.cts"; ".pyi"; ".pxd"].

Definition VENDOR_SEGMENTS : list string :=
  ["vendor"; "vendored"; "third_party"; "third-party"; "thirdparty"; "external"; "externals";
   "node_modules"; "bower_components"; "site-packages"; "godeps"; "pods"; ".venv"; "venv"].

(** ** Data *)

Record DeadCodeEntry : Set := mkDeadCodeEntry {
  dce_node : Node;
  dce_members : list Node;
  dce_lines : Z;
  dce_exported : bool
}.

(** The fields of [DeadCodeExclusions], and the struct as their counters. *)
Inductive Exclusion : Set :=
| ExTests | ExGenerated | ExExported | ExExportsUnknown | ExDeclarations | ExDecorated
| ExOverriding | ExHooks | ExImplicit | ExVendored | ExTestScope | ExMarkup | ExUnreachableFile
| ExUnresolvedName | ExAmbiguousName | ExMentioned | ExUnreadable | ExNested.

#[export] Instance Exclusion_eq_dec : EqDecision Exclusion.
Proof. solve_decision. Defined.

Definition DeadCodeExclusions : Set := Exclusion -> nat.
Definition no_exclusions : DeadCodeExclusions := fun _ => 0.

(** [excluded.field += 1]. *)
Definition exclude (e : Exclusion) (excluded : DeadCodeExclusions) : DeadCodeExclusions :=
  fun e' => if decide (e' = e) then excluded e' + 1 else excluded e'.

(** [DeadCodeExclusions::entries]. *)
Definition entries (excluded : DeadCodeExclusions) : list (string * nat) :=
  [("tests", excluded ExTests); ("generated", excluded ExGenerated);
   ("exported", excluded ExExported); ("exportsUnknown", excluded ExExportsUnknown);
   ("declarations", excluded ExDeclarations); ("decorated", excluded ExDecorated);
   ("overriding", excluded ExOverriding); ("hooks", excluded ExHooks);
   ("implicit", excluded ExImplicit); ("vendored", excluded ExVendored);
   ("testScope", excluded ExTestScope); ("markup", excluded ExMarkup);
   ("unreachableFile", excluded ExUnreachableFile); ("unresolvedName", excluded ExUnresolvedName);
   ("ambiguousName", excluded ExAmbiguousName); ("mentioned", excluded ExMentioned);
   ("unreadable", excluded ExUnreadable); ("nested", excluded ExNested)].

Record DeadCodeReport : Type := mkDeadCodeReport {
  dcr_entries : list DeadCodeEntry;
  dcr_total : nat;
  dcr_candidates : nat;
  dcr_excluded : DeadCodeExclusions;
  dcr_kinds : list NodeKind;
  dcr_include_exported : bool;
  dcr_bounded : bool;
  dcr_corroborated : bool
}.

Record DeadCodeQuery : Type := mkDeadCodeQuery {
  dcq_kinds : option (list NodeKind);
  dcq_include_exported : bool;
  dcq_include_tests : bool;
  dcq_include_generated : bool;
  dcq_limit : nat;
  dcq_read_source : option (string -> option string)
}.

(** [DeadCodeQuery::default]. *)
Definition DeadCodeQuery_default : DeadCodeQuery := mkDeadCodeQuery None false false false 200 None.

(** [normalize_kinds]. *)
Definition push_kind (kinds : list NodeKind) (kind : NodeKind) : list NodeKind :=
  if is_allowed_dead_code_kind kind && negb (bool_decide (kind ∈ kinds)) then kinds ++ [kind] else kinds.

Definition normalize_kinds (requested : option (list NodeKind)) : list NodeKind :=
  match requested with
  | None | Some [] => DEAD_CODE_KINDS
  | Some requested =>
      match fold_left push_kind requested [] with [] => DEAD_CODE_KINDS | kinds => kinds end
  end.

(** ** Rules on one name or path *)

(** [is_dunder]: longer than four bytes, between double underscores. *)
Definition is_dunder (name : string) : bool :=
  (4 <? String.length name) && starts_with name "__" && ends_with name "__"
  && all_bytes (fun b => byte_is_alphanumeric b || Ascii.eqb b "_")
       (str_take (String.length name - 4) (str_drop 2 name)).

Section Rules.
Context `{UnicodeTables}.

Definition is_header_file (file_path : string) : bool :=
  let lower := str_to_lowercase file_path in
  any_of (fun ext => ends_with lower ext) HEADER_EXTENSIONS.

Definition is_scope_separator (a : ascii) : bool :=
  bool_decide (a ∈ ["."; ":"; "/"; "\"; "#"; ">"]%char).

Definition is_test_scope (qualified_name : string) : bool :=
  any_of (fun segment => bool_decide (str_to_lowercase segment ∈ TEST_SCOPE_SEGMENTS))
    (split_any is_scope_separator qualified_name).

Definition is_vendored_path (file_path : string) : bool :=
  any_of (fun segment => bool_decide (str_to_lowercase segment ∈ VENDOR_SEGMENTS))
    (split_on SLASH (str_replace BACKSLASH SLASH file_path)).

Definition is_implicit_entry_name (name : string) : bool :=
  is_dunder name || bool_decide (str_to_lowercase name ∈ IMPLICIT_ENTRY_NAMES).

(** The cheap, per-row rules: the first that applies. *)
Definition cheap_rule (query : DeadCodeQuery) (languages_with_exports : gset string)
    (node : Node) (generated : bool) : option Exclusion :=
  let include_tests := dcq_include_tests query in
  let include_exported := dcq_include_exported query in
  if negb include_tests && is_test_file_scoring str_to_lowercase (node_file_path node)
  then Some ExTests
  else if negb (dcq_include_generated query) && generated then Some ExGenerated
  else if negb include_exported && (node_is_exported node || is_header_file (node_file_path node))
  then Some ExExported
  else if negb include_exported
          && negb (bool_decide (Language_as_str (node_language node) ∈ languages_with_exports))
  then Some ExExportsUnknown
  else if node_is_abstract node then Some ExDeclarations
  else if is_implicit_entry_name (node_name node) then Some ExImplicit
  else if is_vendored_path (node_file_path node) then Some ExVendored
  else if negb include_tests && is_test_scope (node_qualified_name node) then Some ExTestScope
  else if bool_decide (Language_as_str (node_language node) ∈ MARKUP_HOST_LANGUAGES)
  then Some ExMarkup
  else None.

End Rules.

(** One rule over a list: what it leaves, and the counts. *)
Definition apply_rule {A} (rule : A -> option Exclusion) (l : list A) (excluded : DeadCodeExclusions)
  : list A * DeadCodeExclusions :=
  fold_left (fun '(kept, excluded) x =>
      match rule x with
      | Some e => (kept, exclude e excluded)
      | None => (kept ++ [x], excluded)
      end) l ([], excluded).

(** ** Rules that read the graph *)

Section Graph.
Context {St} `{GraphStore St} `{EdgeBatches St} `{AggregateReads St} (st : St).

(** The order of the edges in [containers_of]: by target, then by source. *)
Definition target_source_le (a b : Edge) : bool :=
  then_le (String.compare (edge_target a) (edge_target b)) (str_le (edge_source a) (edge_source b)).

(** [containers_of]. *)
Definition containers_of (nodes : list Node) : result SqlError (gmap string Node) :=
  match map node_id (filter (fun n => is_overridable_kind (node_kind n) = true) nodes) with
  | [] => Ok ∅
  | member_ids =>
      edges ← incoming_edges_to st member_ids [EkContains];
      let by_member : gmap string string :=
        fold_left (fun m e => match m !! edge_target e with
                              | Some _ => m
                              | None => <[edge_target e := edge_source e]> m
                              end) (sort_by target_source_le edges) ∅ in
      container_nodes ← nodes_by_ids st (map snd (map_to_list by_member));
      Ok (omap (fun container_id =>
                  match container_nodes !! container_id with
                  | Some container => if is_container_kind (node_kind container)
                                      then Some container else None
                  | None => None
                  end) by_member)
  end.

(** [ancestors_of]: the state of the walk. *)
Record AncestorReach : Type := mkReach {
  ar_seen : gmap string (gset string);
  ar_reach : gmap string (gset string);
  ar_next : list (string * gset string);
  ar_next_at : gmap string nat
}.

Definition source_target_le (a b : Edge) : bool :=
  then_le (String.compare (edge_source a) (edge_source b)) (str_le (edge_target a) (edge_target b)).

(** The body of the loop over a level's edges. *)
Definition reach_edge (roots_of : gmap string (gset string)) (s : AncestorReach) (edge : Edge)
  : AncestorReach :=
  if String.eqb (edge_target edge) (edge_source edge) then s else
  match roots_of !! edge_source edge with
  | None => s
  | Some roots =>
      let target := edge_target edge in
      let visited := default ∅ (ar_seen s !! target) in
      let merged := roots ∖ visited in
      let known := merged ∪ default ∅ (ar_reach s !! target) in
      let seen := <[target := visited ∪ roots]> (ar_seen s) in
      let reach := if decide (known = ∅) then delete target (ar_reach s)
                   else <[target := known]> (ar_reach s) in
      if decide (merged = ∅) then mkReach seen reach (ar_next s) (ar_next_at s) else
      match ar_next_at s !! target with
      | Some at_ =>
          mkReach seen reach (alter (fun p => (fst p, snd p ∪ merged)) at_ (ar_next s)) (ar_next_at s)
      | None =>
          mkReach seen reach (ar_next s ++ [(target, merged)])
            (<[target := length (ar_next s)]> (ar_next_at s))
      end
  end.

Fixpoint reach_levels (depth : nat) (kinds : list EdgeKind) (frontier : list (string * gset string))
    (seen reach : gmap string (gset string)) : result SqlError (gmap string (gset string)) :=
  match depth, frontier with
  | 0, _ | _, [] => Ok reach
  | S depth, _ =>
      let roots_of : gmap string (gset string) :=
        fold_left (fun m p => <[fst p := snd p]> m) frontier ∅ in
      edges ← outgoing_edges_from st (map fst frontier) kinds;
      let s := fold_left (reach_edge roots_of) (sort_by source_target_le edges)
                 (mkReach seen reach [] ∅) in
      reach_levels depth kinds (ar_next s) (ar_seen s) (ar_reach s)
  end.

Definition ancestors_of (ids : list string) (kinds : list EdgeKind)
  : result SqlError (gmap string (gset string)) :=
  reach_levels MAX_OVERRIDE_ANCESTOR_DEPTH kinds (map (fun id => (id, {[id]})) ids)
    (fold_left (fun m id => <[id := {[id]}]> m) ids ∅) ∅.

(** [override_candidates]. *)
Definition extend_opaque (external_based : gset string) (opaque : gset string)
    (p : string * gset string) : gset string :=
  if decide (fst p ∈ external_based) then snd p ∪ opaque else opaque.

Definition overridable_names (member_nodes : gmap string Node) (ids : list string) : list string :=
  omap (fun id => match member_nodes !! id with
                  | Some m => if is_overridable_kind (node_kind m) then Some (node_name m) else None
                  | None => None
                  end) ids.

(** One ancestor: its roots become opaque, or learn its names. *)
Definition learn_names (names_of : string -> list string)
    (s : gset string * gmap string (gset string)) (p : string * gset string)
  : gset string * gmap string (gset string) :=
  let names := names_of (fst p) in
  fold_left (fun '(opaque, by_container) root =>
      match names with
      | [] => ({[root]} ∪ opaque, by_container)
      | _ => (opaque,
              <[root := list_to_set names ∪ default ∅ (by_container !! root)]> by_container)
      end) (elements (snd p)) s.

Definition override_candidates (nodes : list Node) (containers : gmap string Node)
  : result SqlError (gset string) :=
  match sorted_unique (map (fun p => node_id (snd p)) (map_to_list containers)) with
  | [] => Ok ∅
  | container_ids =>
      reach ← ancestors_of container_ids [EkExtends; EkImplements];
      external_based ← unresolved_supertype_sources_among st (container_ids ++ elements (dom reach));
      let opaque : gset string := list_to_set (filter (fun id => id ∈ external_based) container_ids) in
      let opaque := fold_left (extend_opaque external_based) (map_to_list reach) opaque in
      member_edges ← outgoing_edges_from st (elements (dom reach)) [EkContains];
      member_nodes ← nodes_by_ids st (map edge_target member_edges);
      let names_of := fun ancestor =>
        overridable_names member_nodes
          (map edge_target (filter (fun e => edge_source e = ancestor) member_edges)) in
      let '(opaque, names_by_container) :=
        fold_left (learn_names names_of) (map_to_list reach) (opaque, ∅) in
      Ok (fold_left (fun dropped node =>
            match containers !! node_id node with
            | None => dropped
            | Some container =>
                if decide (node_id container ∈ opaque)
                then {[node_id node]} ∪ dropped
                else match names_by_container !! node_id container with
                     | Some names => if decide (node_name node ∈ (names : gset string))
                                     then {[node_id node]} ∪ dropped else dropped
                     | None => dropped
                     end
            end) nodes ∅)
  end.

(** [carries_decorator]. *)
Definition carries_decorator (nodes : list Node) : result SqlError (gset string) :=
  let ids := map node_id nodes in
  edges ← outgoing_edges_from st ids [EkDecorates];
  names ← unresolved_reference_names_from st ids [EkDecorates];
  Ok (list_to_set (map edge_source edges) ∪ dom names
      ∪ list_to_set (map node_id (filter (fun n => node_decorators n <> []) nodes))).

(** [files_nothing_reaches]. *)
Definition files_nothing_reaches (nodes : list Node) : result SqlError (gset string) :=
  match sorted_unique (map node_file_path nodes) with
  | [] => Ok ∅
  | paths =>
      counts ← file_dependent_counts st paths;
      let dependents : gmap string nat := list_to_map counts in
      Ok (list_to_set (filter (fun p => default 0 (dependents !! p) = 0) paths))
  end.

End Graph.

(** ** Hooks a framework calls by name *)

(** The values of a map of sets, and of a map of lists. *)
Definition set_values (m : gmap string (gset string)) : list string :=
  mjoin (map (fun p => elements (snd p)) (map_to_list m)).
Definition list_values (m : gmap string (list string)) : list string :=
  mjoin (map snd (map_to_list m)).

(** The declaring classes of each name. *)
Definition declare_name (container_of : Node -> option Node) (m : gmap string (gset string))
    (node : Node) : gmap string (gset string) :=
  match container_of node with
  | Some container =>
      if decide (node_kind container = NkClass)
      then <[node_name node := {[node_id container]} ∪ default ∅ (m !! node_name node)]> m
      else m
  | None => m
  end.

Section Hooks.
Context {St} `{GraphStore St} `{EdgeBatches St} `{AggregateReads St} (st : St).

(** The interfaces of which more than half the TypeScript writers are
    decorated, with those writers. *)
Definition registered_implementers (writers : gmap string (gset string))
    (typescript_ids registered_writers : gset string) : gmap string (gset string) :=
  omap (fun ids =>
          let own := ids ∩ typescript_ids in
          if size own <? size (own ∩ registered_writers) * 2 then Some own else None) writers.

(** Whether a name is a hook: some contract its declarers write is filled. *)
Definition is_hook_name (declaring : gmap string (gset string))
    (interfaces_of : gmap string (list string)) (implementers : gmap string (gset string))
    (ancestors : gmap string (gset string)) (opaque : gset string) (name : string) : bool :=
  match declaring !! name with
  | None => false
  | Some declared =>
      let has id :=
        bool_decide (id ∈ declared) || bool_decide (id ∈ opaque)
        || any_of (fun p => bool_decide (id ∈ (snd p : gset string)) && bool_decide (fst p ∈ declared))
             (map_to_list ancestors) in
      let contracts := mjoin (omap (fun id => interfaces_of !! id) (elements declared)) in
      any_of (fun contract =>
          match implementers !! contract with
          | Some own =>
              let declared_count := size (own ∩ declared) in
              (2 <=? declared_count) && (size own <? declared_count * 2)
              && forallb has (elements own)
          | None => false
          end) contracts
  end.

(** [by_name_hook_candidates]. *)
Definition by_name_hook_candidates (nodes : list Node) (containers : gmap string Node)
    (unreferenced : list Node) : result SqlError (gset string) :=
  let in_class node := match containers !! node_id node with
                       | Some container => bool_decide (node_kind container = NkClass)
                       | None => false
                       end in
  let methods := filter (fun node => is_hook_shaped node && in_class node = true) nodes in
  match methods with
  | [] => Ok ∅
  | _ =>
  let classes : gmap string Node :=
    list_to_map (map (fun c => (node_id c, c)) (omap (fun node => containers !! node_id node) methods)) in
  registered ← carries_decorator st (map snd (map_to_list classes));
  let eligible := filter (fun node => match containers !! node_id node with
                                      | Some container => bool_decide (node_id container ∈ registered)
                                      | None => false
                                      end = true) methods in
  match eligible with
  | [] => Ok ∅
  | _ =>
  let names : gset string := list_to_set (map node_name eligible) in
  let declarations := filter (fun node => node_name node ∈ names /\ is_hook_shaped node = true)
                        unreferenced in
  let elsewhere := filter (fun node => match containers !! node_id node with
                                       | Some _ => false
                                       | None => true
                                       end = true) declarations in
  declared_in ← containers_of st elsewhere;
  let container_of node := match containers !! node_id node with
                           | Some container => Some container
                           | None => declared_in !! node_id node
                           end in
  let declaring := fold_left (declare_name container_of) declarations ∅ in
  let declarers := sorted_unique (set_values declaring) in
  interfaces_of ← unresolved_reference_names_from st declarers [EkImplements];
  match sorted_unique (list_values interfaces_of) with
  | [] => Ok ∅
  | interfaces =>
  writers ← unresolved_reference_sources_named st interfaces [EkImplements];
  writer_nodes ← nodes_by_ids st (sorted_unique (set_values writers));
  let typescript := filter (fun node => node_language node ∈ BY_NAME_DISPATCH_LANGUAGES)
                      (map snd (map_to_list writer_nodes)) in
  registered_writers ← carries_decorator st typescript;
  let implementers := registered_implementers writers (list_to_set (map node_id typescript))
                        registered_writers in
  if decide (implementers = ∅) then Ok ∅ else
  let implementer_ids := sorted_unique (set_values implementers) in
  ancestors ← ancestors_of st implementer_ids [EkExtends];
  outside ← unresolved_reference_names_from st (implementer_ids ++ elements (dom ancestors))
              [EkExtends];
  let opaque : gset string := list_to_set (filter (fun id => id ∈ dom outside) implementer_ids) in
  let opaque := fold_left (extend_opaque (dom outside)) (map_to_list ancestors) opaque in
  let hook_names :=
    filter (fun name => is_hook_name declaring interfaces_of implementers ancestors opaque name = true)
      names in
  Ok (list_to_set (map node_id (filter (fun node => node_name node ∈ hook_names) eligible)))
  end
  end
  end.

End Hooks.

(** ** The text of the files *)

Section Corroboration.
Context `{UnicodeTables} (read_source : string -> option string).

(** The memo of the files read, at most 600 of them. *)
Definition read_cached (sources : gmap string (option string)) (file : string)
  : option string * gmap string (option string) :=
  match sources !! file with
  | Some text => (text, sources)
  | None =>
      let text := if MAX_CORROBORATION_FILES <=? size sources then None else read_source file in
      (text, <[file := text]> sources)
  end.

(** The loop over the files that can reach a node: whether its own file is
    readable, and the mentions, up to two. *)
Fixpoint scope_mentions (sources : gmap string (option string)) (own_file name : string)
    (scope : list string) (own_readable : bool) (mentions : nat)
  : gmap string (option string) * bool * nat :=
  match scope with
  | [] => (sources, own_readable, mentions)
  | file :: scope =>
      let '(source, sources) := read_cached sources file in
      let own_readable :=
        if String.eqb file own_file then match source with Some _ => true | None => false end
        else own_readable in
      match source with
      | None => scope_mentions sources own_file name scope own_readable mentions
      | Some text =>
          let mentions := mentions + mention_count (chars_of text) (chars_of name) (2 - mentions) in
          if 2 <=? mentions then (sources, own_readable, mentions)
          else scope_mentions sources own_file name scope own_readable mentions
      end
  end.

Definition corroborate_node (scopes : gmap string (list string))
    (s : list Node * DeadCodeExclusions * gmap string (option string)) (node : Node)
  : list Node * DeadCodeExclusions * gmap string (option string) :=
  let '(confirmed, excluded, sources) := s in
  let scope := default [node_file_path node] (scopes !! node_file_path node) in
  let '(sources, own_readable, mentions) :=
    scope_mentions sources (node_file_path node) (node_name node) scope false 0 in
  if negb own_readable then (confirmed, exclude ExUnreadable excluded, sources)
  else if 2 <=? mentions then (confirmed, exclude ExMentioned excluded, sources)
  else (confirmed ++ [node], excluded, sources).

Context {St} `{AggregateReads St} (st : St).

(** The scope of a file: itself and its dependents, sorted. *)
Definition add_scope (scopes : gmap string (list string)) (node : Node)
  : result SqlError (loop_step (gmap string (list string))) :=
  match scopes !! node_file_path node with
  | Some _ => Ok (Continue scopes)
  | None =>
      dependents ← dependent_file_paths st (node_file_path node);
      Ok (Continue (<[node_file_path node := node_file_path node :: sort_by str_le dependents]> scopes))
  end.

Definition corroborate (kept : list Node) (excluded : DeadCodeExclusions)
  : result SqlError (list Node * DeadCodeExclusions) :=
  scopes ← for_M add_scope ∅ kept;
  Ok (fst (fold_left (corroborate_node scopes) kept ([], excluded, ∅))).

End Corroboration.

(** ** Folding members into their container, and the ranking *)

Record Fold : Type := mkFold {
  fo_order : list string;
  fo_entries : gmap string DeadCodeEntry;
  fo_pending : list (Node * string);
  fo_excluded : DeadCodeExclusions
}.

Definition fold_node (containers : gmap string Node) (kept_ids : gset string) (s : Fold) (node : Node)
  : Fold :=
  let own :=
    mkFold (fo_order s ++ [node_id node])
      (<[node_id node := mkDeadCodeEntry node [] (Z.max (node_end_line node - node_start_line node + 1) 1)
                           (node_is_exported node)]> (fo_entries s))
      (fo_pending s) (fo_excluded s) in
  match containers !! node_id node with
  | Some container =>
      if decide (node_id container ∈ kept_ids)
      then mkFold (fo_order s) (fo_entries s) (fo_pending s ++ [(node, node_id container)])
             (exclude ExNested (fo_excluded s))
      else own
  | None => own
  end.

Definition add_member (entries : gmap string DeadCodeEntry) (p : Node * string)
  : gmap string DeadCodeEntry :=
  alter (fun e => mkDeadCodeEntry (dce_node e) (dce_members e ++ [fst p]) (dce_lines e) (dce_exported e))
    (snd p) entries.

(** [order.into_iter().filter_map(|id| entries.remove(&id))]. *)
Fixpoint take_entries (order : list string) (entries : gmap string DeadCodeEntry)
  : list DeadCodeEntry :=
  match order with
  | [] => []
  | id :: order => match entries !! id with
                   | Some e => e :: take_entries order (delete id entries)
                   | None => take_entries order entries
                   end
  end.

Section Report.
Context `{UnicodeTables}.

Definition member_order (a b : Node) : bool :=
  then_le (Z.compare (node_start_line a) (node_start_line b))
    (match locale_compare (node_name a) (node_name b) with Gt => false | _ => true end).

(** Biggest first, then by file and line. *)
Definition entry_order (a b : DeadCodeEntry) : bool :=
  then_le (Z.compare (dce_lines b) (dce_lines a))
    (then_le (locale_compare (node_file_path (dce_node a)) (node_file_path (dce_node b)))
       (Z.leb (node_start_line (dce_node a)) (node_start_line (dce_node b)))).

Definition sort_members (e : DeadCodeEntry) : DeadCodeEntry :=
  mkDeadCodeEntry (dce_node e) (sort_by member_order (dce_members e)) (dce_lines e) (dce_exported e).

(** The entries before the limit, and the counts. *)
Definition rank_entries (confirmed : list Node) (containers : gmap string Node)
    (excluded : DeadCodeExclusions) : list DeadCodeEntry * DeadCodeExclusions :=
  let s := fold_left (fold_node containers (list_to_set (map node_id confirmed))) confirmed
             (mkFold [] ∅ [] excluded) in
  (sort_by entry_order
     (map sort_members (take_entries (fo_order s) (fold_left add_member (fo_pending s) (fo_entries s)))),
   fo_excluded s).

Context {St} `{GraphStore St} `{EdgeBatches St} `{AggregateReads St} (st : St).

(** The graph rules' order. *)
Definition graph_rule (decorated : gset string) (containers : gmap string Node)
    (overriding hooks unresolved ambiguous : gset string) (node : Node) : option Exclusion :=
  if bool_decide (node_id node ∈ decorated) then Some ExDecorated
  else if match containers !! node_id node with
          | Some c => is_declaration_container_kind (node_kind c)
          | None => false
          end then Some ExDeclarations
  else if bool_decide (node_id node ∈ overriding) then Some ExOverriding
  else if bool_decide (node_id node ∈ hooks) then Some ExHooks
  else if bool_decide (node_name node ∈ unresolved) then Some ExUnresolvedName
  else if bool_decide (node_name node ∈ ambiguous) then Some ExAmbiguousName
  else None.

Definition unreachable_rule (unreachable_files : gset string) (node : Node) : option Exclusion :=
  if bool_decide (node_file_path node ∈ unreachable_files) then Some ExUnreachableFile else None.

(** The rules that need the graph: what they keep, the containers, the counts. *)
Definition graph_rules (candidates surviving : list Node) (excluded : DeadCodeExclusions)
  : result SqlError (list Node * gmap string Node * DeadCodeExclusions) :=
  decorated ← carries_decorator st surviving;
  containers ← containers_of st surviving;
  overriding ← override_candidates st surviving containers;
  unreachable_files ← files_nothing_reaches st surviving;
  let '(surviving, excluded) := apply_rule (unreachable_rule unreachable_files) surviving excluded in
  unresolved ← unresolved_names_among st (map node_name surviving);
  ambiguous ← ambiguous_referenced_names st (map node_name surviving);
  let undecided := filter (fun n => node_id n ∉ decorated /\ node_id n ∉ overriding) surviving in
  hooks ← by_name_hook_candidates st undecided containers candidates;
  let '(kept, excluded) :=
    apply_rule (graph_rule decorated containers overriding hooks unresolved ambiguous) surviving excluded in
  Ok (kept, containers, excluded).

(** [build_dead_code_report]. *)
Definition build_dead_code_report (query : DeadCodeQuery) : result SqlError DeadCodeReport :=
  let kinds := normalize_kinds (dcq_kinds query) in
  let include_exported := dcq_include_exported query in
  let limit := Nat.max (dcq_limit query) 1 in
  raw ← unreferenced_nodes st kinds (MAX_DEAD_CODE_CANDIDATES + 1);
  let bounded := (MAX_DEAD_CODE_CANDIDATES <? Z.of_nat (length raw))%Z in
  let candidates := take (Z.to_nat MAX_DEAD_CODE_CANDIDATES) raw in
  languages ← (if include_exported then Ok ∅
               else languages_with_exports st
                      (map (fun p => Language_as_str (node_language (fst p))) candidates));
  let '(surviving, excluded) :=
    apply_rule (fun p => cheap_rule query languages (fst p) (snd p)) candidates no_exclusions in
  '(kept, containers, excluded) ← graph_rules (map fst candidates) (map fst surviving) excluded;
  '(confirmed, excluded) ← match dcq_read_source query with
                           | Some read_source => corroborate read_source st kept excluded
                           | None => Ok (kept, excluded)
                           end;
  let '(ranked, excluded) := rank_entries confirmed containers excluded in
  Ok (mkDeadCodeReport (take limit ranked) (length ranked) (length candidates) excluded kinds
        include_exported bounded
        match dcq_read_source query with Some _ => true | None => false end).

End Report.
