(* ===== verification/DeadCodeGraph.v ===== *)
(** * Facts on the dead-code report: containers and ancestors

    The container of a member, and the ancestors [ancestors_of] maps back to
    the ids they are ancestors of. *)
From S2P Require Import Prelude Strings Types Rows GraphStore Hierarchy HierarchyFacts HierarchyOverrides.
From S2P Require Import ViewerReads Collation DeadCode.

(** ** Facts on the dead-code report: counting, text, ranking

    Each rule counts what it removes; folding members into their containers
    loses no row of the count; the rows come out ranked. *)

(** ** Counting *)

Definition total_excluded (excluded : DeadCodeExclusions) : nat :=
  sum_list (map snd (entries excluded)).

Arguments total_excluded : simpl never.

Lemma total_no_exclusions : total_excluded no_exclusions = 0.
Proof. done. Qed.

Lemma total_exclude e excluded : total_excluded (exclude e excluded) = S (total_excluded excluded).
Proof.
  unfold total_excluded, entries, exclude. cbn [map snd sum_list].
  destruct e; repeat ((rewrite decide_False by discriminate) || (rewrite decide_True by done)); unfold id; lia.
Qed.

(** A rule splits a list: what it keeps, and one count for each other element. *)
Lemma apply_rule_spec {A} (rule : A -> option Exclusion) l excluded :
  let '(kept, excluded') := apply_rule rule l excluded in
  kept = filter (fun x => rule x = None) l
  /\ total_excluded excluded' + length kept = total_excluded excluded + length l.
Proof.
  unfold apply_rule.
  assert (Hgen : forall l acc ex,
    let '(kept, ex') := fold_left (fun '(kept, ex) x =>
        match rule x with Some e => (kept, exclude e ex) | None => (kept ++ [x], ex) end) l (acc, ex) in
    kept = acc ++ filter (fun x => rule x = None) l
    /\ total_excluded ex' + length kept = total_excluded ex + length acc + length l).
  { clear. induction l as [|x l IH]; intros acc ex; cbn [fold_left].
    - rewrite app_nil_r. cbn. split; [done|lia].
    - rewrite filter_cons. destruct (rule x) as [e|] eqn:E.
      + specialize (IH acc (exclude e ex)). destruct (fold_left _ _ _) as [kept ex'].
        destruct IH as [-> Hc]. rewrite total_exclude in Hc. rewrite decide_False by done.
        split; [done|]. cbn [length]. lia.
      + specialize (IH (acc ++ [x]) ex). destruct (fold_left _ _ _) as [kept ex'].
        destruct IH as [-> Hc]. rewrite decide_True by done. split; [by rewrite <- app_assoc|].
        rewrite !length_app in *. cbn [length] in *. lia. }
  specialize (Hgen l [] excluded). destruct (fold_left _ _ _). cbn [length app] in Hgen.
  destruct Hgen as [-> Hc]. split; [done|lia].
Qed.

(** ** The text of the files *)

Section Corroboration.
Context `{UnicodeTables} (read_source : string -> option string).

(** The memo: what it holds was read; what it could not get the reader has
    not, or six hundred files asked for were in it already. *)
Variable asked_for : string -> Prop.

Definition crowded_out (file : string) : Prop :=
  exists asked : gset string, MAX_CORROBORATION_FILES <= size asked /\ file ∉ asked /\ forall f, f ∈ asked -> asked_for f.

Record memo_ok (sources : gmap string (option string)) : Prop := {
  mo_read f text : sources !! f = Some (Some text) -> read_source f = Some text;
  mo_none f : sources !! f = Some None -> read_source f = None \/ crowded_out f;
  mo_asked f : f ∈ dom sources -> asked_for f
}.

Lemma read_cached_ok sources file :
  memo_ok sources -> asked_for file ->
  let '(text, sources') := read_cached read_source sources file in
  memo_ok sources' /\ sources ⊆ sources' /\ sources' !! file = Some text.
Proof.
  intros Hs Ha. unfold read_cached. destruct (sources !! file) as [text|] eqn:E; [done|].
  set (text := if _ : bool then _ else _). split; [|split; [by apply insert_subseteq|by rewrite lookup_insert_eq]].
  destruct Hs as [Hr Hn Hask]. subst text. split.
  - intros f t [[<- Ht]|[_ ?]]%lookup_insert_Some; [|by apply Hr]. by destruct (_ <=? _).
  - intros f [[<- Ht]|[_ ?]]%lookup_insert_Some; [|by apply Hn].
    destruct (Nat.leb_spec MAX_CORROBORATION_FILES (size sources)) as [Hle|_]; [|by left]. right. exists (dom sources).
    split; [by rewrite size_dom|]. split; [by apply not_elem_of_dom|done].
  - intros f. rewrite dom_insert, elem_of_union, elem_of_singleton. intros [->|?]; [done|by apply Hask].
Qed.

(** The name is written at most once in the readable text of the file. *)
Definition mentioned_once (name text : string) : Prop :=
  mention_count (chars_of text) (chars_of name) 2 <= 1.

(** The mentions counted in what the memo holds of a file. *)
Definition counted_in (name : string) (sources : gmap string (option string)) (file : string) : nat :=
  match sources !! file with Some (Some text) => mentions (chars_of name) None (chars_of text) | _ => 0 end.

Definition identifier (name : string) : Prop :=
  chars_of name <> [] /\ Forall (fun x => is_identifier_char x = true) (chars_of name).

(** While fewer than two are found, the loop asks for every file and counts
    what it could read. *)
Lemma scope_mentions_counts own name scope sources readable m :
  memo_ok sources -> (forall f, f ∈ scope -> asked_for f) ->
  let '(sources', readable', m') := scope_mentions read_source sources own name scope readable m in
  memo_ok sources' /\ sources ⊆ sources'
  /\ (m' <= 1 ->
       (forall f, f ∈ scope -> f ∈ dom sources')
       /\ (readable' = true -> readable = true /\ own ∉ scope \/ exists text, sources' !! own = Some (Some text))
       /\ (identifier name -> m' = m + sum_list (map (counted_in name sources') scope))).
Proof.
  revert sources readable m. induction scope as [|file scope IH]; intros sources readable m Hs Ha.
  { cbn. split; [done|]. split; [done|]. intros _. split; [set_solver|]. split; [|lia]. intros ->. left. set_solver. }
  cbn [scope_mentions]. pose proof (read_cached_ok sources file Hs (Ha file ltac:(by left))) as Hr.
  destruct (read_cached read_source sources file) as [source sources1]. destruct Hr as (Hs1 & Hsub1 & Hf).
  set (readable1 := if String.eqb file own then _ else _).
  assert (Hgo : forall m1,
    (identifier name -> m1 <= 1 -> m1 = m + counted_in name sources1 file) ->
    let '(sources', readable', m') := scope_mentions read_source sources1 own name scope readable1 m1 in
    m1 <= m' ->
    memo_ok sources' /\ sources ⊆ sources'
    /\ (m' <= 1 ->
         (forall f, f ∈ file :: scope -> f ∈ dom sources')
         /\ (readable' = true -> readable = true /\ own ∉ file :: scope \/ exists text, sources' !! own = Some (Some text))
         /\ (identifier name -> m' = m + sum_list (map (counted_in name sources') (file :: scope))))).
  { intros m1 Hm1. specialize (IH sources1 readable1 m1 Hs1 ltac:(intros f ?; apply Ha; by right)).
    destruct (scope_mentions _ _ _ _ _ _ _) as [[s' r'] m']. intros Hmm. destruct IH as (Hs' & Hsub' & Hrest).
    split; [done|]. split; [by etrans|]. intros Hm'. destruct (Hrest Hm') as (Hd & Hrd & Hc).
    pose proof (lookup_weaken _ _ _ _ Hf Hsub') as Hf'. split; [|split].
    - intros f [->|?]%elem_of_cons; [by apply elem_of_dom|by apply Hd].
    - intros Hr'. destruct (Hrd Hr') as [[H1 Ho]|?]; [|by right]. subst readable1.
      destruct (String.eqb_spec file own) as [->|Hne].
      + right. destruct source as [text|]; [|done]. by exists text.
      + left. split; [done|]. set_solver.
    - intros Hid. rewrite (Hc Hid), (Hm1 Hid) by lia. cbn.
      assert (counted_in name s' file = counted_in name sources1 file) as -> by (unfold counted_in; by rewrite Hf, Hf'). unfold id. lia. }
  assert (Hmono : forall m1, let '(_, _, m') := scope_mentions read_source sources1 own name scope readable1 m1 in m1 <= m').
  { clear. generalize sources1 readable1. induction scope as [|f scope IH]; intros s r m1; [cbn; lia|]. cbn [scope_mentions].
    destruct (read_cached read_source s f) as [[text|] s1]; [|by apply IH]. destruct (2 <=? _); [lia|].
    match goal with |- context [scope_mentions _ ?s' _ _ _ ?r' ?m''] => specialize (IH s' r' m'') end.
    destruct (scope_mentions _ _ _ _ _ _ _) as [[s' r'] m']. lia. }
  destruct source as [text|].
  - set (m1 := m + _). destruct (Nat.leb_spec 2 m1) as [H2|H2]; [split; [done|split; [done|lia]]|].
    specialize (Hgo m1). specialize (Hmono m1). destruct (scope_mentions _ _ _ _ _ _ _) as [[s' r'] m']. apply Hgo; [|done].
    intros [Hne Hid] _. unfold counted_in. rewrite Hf. subst m1. rewrite mention_count_spec in * by done. lia.
  - specialize (Hgo m). specialize (Hmono m). destruct (scope_mentions _ _ _ _ _ _ _) as [[s' r'] m']. apply Hgo; [|done].
    intros _ _. unfold counted_in. rewrite Hf. lia.
Qed.

(** Later files only add mentions, and leave the own file's readability when it
    does not come again. *)
Lemma scope_mentions_mono own name scope sources readable m :
  own ∉ scope ->
  let '(_, readable', m') := scope_mentions read_source sources own name scope readable m in
  readable' = readable /\ m <= m'.
Proof.
  revert sources readable m. induction scope as [|file scope IH]; intros sources readable m Hout.
  { cbn. auto. }
  cbn [scope_mentions]. destruct (read_cached read_source sources file) as [source sources'].
  apply not_elem_of_cons in Hout as [Hne Hout].
  destruct (String.eqb_spec file own) as [->|_]; [done|].
  destruct source as [text|].
  - destruct (2 <=? _) eqn:E; [split; [done|lia]|].
    specialize (IH sources' readable
      (m + mention_count (chars_of text) (chars_of name) (2 - m)) Hout).
    destruct (scope_mentions _ _ _ _ _ _ _) as [[s r] m']. destruct IH as [-> ?]. split; [done|lia].
  - by apply IH.
Qed.

(** A row survives only if its own file was read and names it at most once. *)
Lemma scope_mentions_own own name deps sources :
  memo_ok sources -> asked_for own -> own ∉ deps ->
  let '(_, readable, m) := scope_mentions read_source sources own name (own :: deps) false 0 in
  readable = true -> m <= 1 -> exists text, read_source own = Some text /\ mentioned_once name text.
Proof.
  intros Hs Ha Hout. cbn [scope_mentions]. pose proof (read_cached_ok sources own Hs Ha) as Hr.
  destruct (read_cached read_source sources own) as [source sources']. destruct Hr as (Hs' & _ & Ht).
  rewrite String.eqb_refl. destruct source as [text|].
  - change (2 - 0) with 2. rewrite Nat.add_0_l. unfold mentioned_once.
    destruct (Nat.leb_spec 2 (mention_count (chars_of text) (chars_of name) 2)) as [Hm|Hm]; [lia|].
    pose proof (scope_mentions_mono own name deps sources' true
      (mention_count (chars_of text) (chars_of name) 2) Hout) as Hmono.
    destruct (scope_mentions _ _ _ _ _ _ _) as [[s r] m']. intros _ _. exists text. split; [by apply (mo_read _ Hs')|lia].
  - pose proof (scope_mentions_mono own name deps sources' false 0 Hout) as Hmono.
    destruct (scope_mentions _ _ _ _ _ _ _) as [[s r] m']. destruct Hmono as [-> _]. done.
Qed.

(** ** The rows that their text confirms *)

Variable depends : string -> string -> Prop.

(** The files a row's name may be written in: its own and its dependents. *)
Definition in_scope (n : Node) (f : string) : Prop := f = node_file_path n \/ depends f (node_file_path n).

(** What the text of these [files] says of a row: they are those of its scope
    that could be read, its own among them, and they write its name once
    together, where it is an identifier; its own file does in any case. *)
Record text_counted (n : Node) (files : list string) : Prop := {
  tx_distinct : NoDup files;
  tx_own : node_file_path n ∈ files;
  tx_own_text : exists text, read_source (node_file_path n) = Some text /\ mentioned_once (node_name n) text;
  tx_read f : f ∈ files -> in_scope n f /\ is_Some (read_source f);
  tx_passed f : in_scope n f -> f ∉ files -> read_source f = None \/ crowded_out f;
  tx_mentions : identifier (node_name n) ->
    sum_list (map (fun f => mentions (chars_of (node_name n)) None (chars_of (default "" (read_source f)))) files) <= 1
}.

(** The fold over the kept rows. *)
Record corroborated (kept : list Node) (excluded0 : DeadCodeExclusions)
    (s : list Node * DeadCodeExclusions) : Prop := {
  co_sublist : sublist (fst s) kept;
  co_count : total_excluded (snd s) + length (fst s) = total_excluded excluded0 + length kept;
  co_text n : n ∈ fst s -> exists files, text_counted n files
}.

(** A scope starts with its own file; the dependents follow. *)
Definition scopes_ok (scopes : gmap string (list string)) : Prop :=
  forall f scope, scopes !! f = Some scope ->
    exists deps, scope = f :: deps /\ NoDup scope /\ forall f', f' ∈ deps <-> depends f' f.

Definition readable_in (sources : gmap string (option string)) (f : string) : bool :=
  match sources !! f with Some (Some _) => true | _ => false end.

Lemma counted_files name sources scope : memo_ok sources ->
  sum_list (map (counted_in name sources) scope)
  = sum_list (map (fun f => mentions (chars_of name) None (chars_of (default "" (read_source f))))
      (filter (fun f => readable_in sources f = true) scope)).
Proof.
  intros Hm. induction scope as [|f scope IH]; [done|]. rewrite filter_cons.
  change (sum_list (map ?c (f :: scope))) with (c f + sum_list (map c scope)). rewrite IH. unfold counted_in.
  destruct (sources !! f) as [[text|]|] eqn:E.
  - rewrite decide_True by (unfold readable_in; by rewrite E). cbn. by rewrite (mo_read _ Hm f text E).
  - by rewrite decide_False by (unfold readable_in; by rewrite E).
  - by rewrite decide_False by (unfold readable_in; by rewrite E).
Qed.

(** A row that the loop leaves is told by the files that the memo holds. *)
Lemma node_counted node deps sources :
  memo_ok sources -> (forall f, in_scope node f -> asked_for f) ->
  NoDup (node_file_path node :: deps) -> (forall f, f ∈ deps <-> depends f (node_file_path node)) ->
  let '(sources', readable, m) :=
    scope_mentions read_source sources (node_file_path node) (node_name node) (node_file_path node :: deps) false 0 in
  memo_ok sources' /\ (readable = true -> m <= 1 -> exists files, text_counted node files).
Proof.
  intros Hs Ha Hnd Hdeps. set (own := node_file_path node) in *.
  assert (Hscope : forall f, f ∈ own :: deps <-> in_scope node f) by (intros f; by rewrite elem_of_cons, Hdeps).
  pose proof (scope_mentions_own own (node_name node) deps sources Hs (Ha own ltac:(by left)) ltac:(by apply NoDup_cons in Hnd as [? _])) as Hown.
  pose proof (scope_mentions_counts own (node_name node) (own :: deps) sources false 0 Hs ltac:(intros f ?; by apply Ha, Hscope)) as Hc.
  destruct (scope_mentions _ _ _ _ _ _ _) as [[s' r'] m']. destruct Hc as (Hs' & _ & Hc). split; [done|]. intros Hr Hm.
  destruct (Hc Hm) as (Hd & Hread & Hsum). destruct (Hread Hr) as [[? _]|[text Ht]]; [done|].
  exists (filter (fun f => readable_in s' f = true) (own :: deps)). split.
  - by apply NoDup_filter.
  - apply list_elem_of_filter. split; [|by left]. unfold readable_in. fold own. by rewrite Ht.
  - by apply Hown.
  - intros f [Hf Hin]%list_elem_of_filter. split; [by apply Hscope|]. unfold readable_in in Hf.
    destruct (s' !! f) as [[t|]|] eqn:E; [|done|done]. exists t. by apply (mo_read _ Hs').
  - intros f Hin%Hscope Hf. destruct (s' !! f) as [[t|]|] eqn:E.
    + destruct Hf. apply list_elem_of_filter. split; [unfold readable_in; by rewrite E|done].
    + by apply (mo_none _ Hs').
    + apply Hd, elem_of_dom in Hin as [? Hin]. congruence.
  - intros Hid. rewrite <- counted_files by done. rewrite (Hsum Hid) in Hm. exact Hm.
Qed.

Lemma corroborate_fold scopes kept excluded :
  scopes_ok scopes -> (forall n, n ∈ kept -> is_Some (scopes !! node_file_path n)) ->
  (forall n f, n ∈ kept -> in_scope n f -> asked_for f) ->
  corroborated kept excluded
    (fst (fold_left (corroborate_node read_source scopes) kept ([], excluded, ∅))).
Proof.
  intros Hscopes Hsome Hasked.
  assert (Hgen : corroborated kept excluded
      (fst (fold_left (corroborate_node read_source scopes) kept ([], excluded, ∅)))
    /\ memo_ok (snd (fold_left (corroborate_node read_source scopes) kept ([], excluded, ∅)))).
  { apply (fold_left_ind _ (fun pre s => corroborated pre excluded (fst s) /\ memo_ok (snd s))).
    - split; [split; [done|done|set_solver]|]. by split; [intros f t|intros f|intros f]; cbn; rewrite ?lookup_empty, ?dom_empty_L; [| |set_solver].
    - intros pre node post [[confirmed ex] sources] Hsplit [[Hsub Hcount Htext] Hmemo].
      assert (Hnode : node ∈ kept) by (rewrite Hsplit; set_solver).
      unfold corroborate_node. cbn [fst snd] in *. destruct (Hsome node Hnode) as [scope Hscope]. rewrite Hscope. cbn [from_option]. unfold id.
      destruct (Hscopes _ _ Hscope) as (deps & -> & Hnd & Hdeps).
      pose proof (node_counted node deps sources Hmemo (fun f => Hasked node f Hnode) Hnd Hdeps) as Hn.
      destruct (scope_mentions _ _ _ _ _ _ _) as [[sources' readable] m]. destruct Hn as [Hmemo' Hn].
      destruct readable; cbn [negb].
      + destruct (Nat.leb_spec 2 m) as [Hm|Hm]; cbn [fst snd]; (split; [|exact Hmemo']); split; cbn [fst snd].
        * by apply sublist_inserts_r.
        * rewrite total_exclude, length_app. cbn. lia.
        * done.
        * by apply sublist_app.
        * rewrite !length_app. cbn. lia.
        * intros n [Hn'| ->%list_elem_of_singleton]%elem_of_app; [auto|]. apply Hn; [done|lia].
      + cbn [fst snd]. split; [|exact Hmemo']. split; cbn [fst snd].
        * by apply sublist_inserts_r.
        * rewrite total_exclude, length_app. cbn. lia.
        * done. }
  apply Hgen.
Qed.

End Corroboration.

(** ** Folding members into containers *)

Section Folding.
Variables (containers : gmap string Node) (confirmed : list Node).
Hypothesis Hnd : NoDup (map node_id confirmed).

Definition kept_ids : gset string := list_to_set (map node_id confirmed).

(** The confirmed container a node is folded into. *)
Definition folded_into (n : Node) : option string :=
  match containers !! node_id n with
  | Some c => if decide (node_id c ∈ kept_ids) then Some (node_id c) else None
  | None => None
  end.

Definition fresh_entry (n : Node) : DeadCodeEntry :=
  mkDeadCodeEntry n [] (Z.max (node_end_line n - node_start_line n + 1) 1) (node_is_exported n).

(** An entry with its members, in the order of the rows. *)
Definition full_entry (n : Node) : DeadCodeEntry :=
  mkDeadCodeEntry n (filter (fun m => folded_into m = Some (node_id n)) confirmed)
    (Z.max (node_end_line n - node_start_line n + 1) 1) (node_is_exported n).

Definition top_nodes : list Node := filter (fun n => folded_into n = None) confirmed.

Lemma fold_node_folded s n :
  fold_node containers kept_ids s n =
  match folded_into n with
  | Some c => mkFold (fo_order s) (fo_entries s) (fo_pending s ++ [(n, c)])
                (exclude ExNested (fo_excluded s))
  | None => mkFold (fo_order s ++ [node_id n]) (<[node_id n := fresh_entry n]> (fo_entries s))
              (fo_pending s) (fo_excluded s)
  end.
Proof.
  unfold fold_node, folded_into. destruct (containers !! node_id n); [|done]. by case_decide.
Qed.

(** The pending members of the rows read so far. *)
Definition pending_of (pre : list Node) : list (Node * string) :=
  omap (fun n => pair n <$> folded_into n) pre.

Lemma fold_nodes excluded :
  let s := fold_left (fold_node containers kept_ids) confirmed (mkFold [] ∅ [] excluded) in
  fo_order s = map node_id top_nodes
  /\ (forall id, fo_entries s !! id = None \/ exists n, n ∈ top_nodes /\ node_id n = id
        /\ fo_entries s !! id = Some (fresh_entry n))
  /\ (forall n, n ∈ top_nodes -> fo_entries s !! node_id n = Some (fresh_entry n))
  /\ fo_pending s = pending_of confirmed
  /\ total_excluded (fo_excluded s) + length top_nodes = total_excluded excluded + length confirmed.
Proof.
  intros s. unfold s, top_nodes. clear s.
  apply (fold_left_ind _ (fun pre s =>
    fo_order s = map node_id (filter (fun n => folded_into n = None) pre)
    /\ (forall id, fo_entries s !! id = None \/ exists n, n ∈ filter (fun n => folded_into n = None) pre
          /\ node_id n = id /\ fo_entries s !! id = Some (fresh_entry n))
    /\ (forall n, n ∈ filter (fun n => folded_into n = None) pre ->
          fo_entries s !! node_id n = Some (fresh_entry n))
    /\ fo_pending s = pending_of pre
    /\ total_excluded (fo_excluded s) + length (filter (fun n => folded_into n = None) pre)
       = total_excluded excluded + length pre)).
  - cbn. split; [done|]. split; [intros id; left; apply lookup_empty|]. split; [set_solver|done].
  - intros pre n post s Hpre (Ho & He & Hin & Hp & Hc). rewrite fold_node_folded.
    unfold pending_of. rewrite filter_app, filter_cons, filter_nil, omap_app. cbn [omap].
    destruct (folded_into n) as [c|] eqn:E; cbn [fo_order fo_entries fo_pending fo_excluded].
    + rewrite decide_False, app_nil_r by done. cbn. rewrite E, Hp. split; [done|]. split; [done|].
      split; [done|]. split; [done|]. rewrite total_exclude, length_app. cbn. lia.
    + rewrite decide_True by done. cbn. rewrite E, Hp, app_nil_r. cbn. rewrite map_app, Ho.
      split; [done|]. split; [|split; [|split; [done|rewrite !length_app; cbn; lia]]].
      * intros id. destruct (decide (node_id n = id)) as [<-|Hne].
        { right. exists n. rewrite lookup_insert_eq. set_solver. }
        rewrite lookup_insert_ne by done. destruct (He id) as [?|(n' & ? & ? & ?)]; [by left|].
        right. exists n'. set_solver.
      * intros n' [Hn'| ->%list_elem_of_singleton]%elem_of_app; [|apply lookup_insert_eq].
        rewrite lookup_insert_ne; [by apply Hin|]. intros Heq.
        rewrite Hpre, !map_app in Hnd. apply NoDup_app in Hnd as (_ & Hdis & _).
        apply (Hdis (node_id n')); [apply list_elem_of_fmap_2; by apply list_elem_of_filter in Hn' as [_ ?]|].
        rewrite <- Heq. cbn. left.
Qed.

Lemma add_members_lookup pending (entries : gmap string DeadCodeEntry) id :
  fold_left add_member pending entries !! id
  = (fun e => mkDeadCodeEntry (dce_node e)
                (dce_members e ++ map fst (filter (fun p => snd p = id) pending)) (dce_lines e)
                (dce_exported e)) <$> entries !! id.
Proof.
  revert entries. induction pending as [|[n c] pending IH]; intros entries; cbn [fold_left].
  - destruct (entries !! id) as [[]|]; [|done]. cbn. by rewrite app_nil_r.
  - rewrite IH, filter_cons. unfold add_member. cbn [fst snd].
    destruct (decide (c = id)) as [->|Hne].
    + rewrite lookup_alter_eq. destruct (entries !! id) as [[]|]; [|done]. cbn.
      by rewrite <- app_assoc.
    + by rewrite lookup_alter_ne.
Qed.

Lemma take_entries_map (f : Node -> DeadCodeEntry) l (entries : gmap string DeadCodeEntry) :
  NoDup (map node_id l) -> (forall n, n ∈ l -> entries !! node_id n = Some (f n)) ->
  take_entries (map node_id l) entries = map f l.
Proof.
  revert entries. induction l as [|n l IH]; intros entries Hl He; [done|].
  apply NoDup_cons in Hl as [Hn Hl]. cbn. rewrite (He n) by left. f_equal.
  apply IH; [done|]. intros n' Hn'. rewrite lookup_delete_ne; [apply He; by right|].
  intros E. apply Hn. rewrite E. by apply list_elem_of_fmap_2.
Qed.

Lemma pending_members pre id :
  map fst (filter (fun p => snd p = id) (pending_of pre)) = filter (fun m => folded_into m = Some id) pre.
Proof.
  induction pre as [|n pre IH]; [done|]. rewrite (filter_cons _ n pre).
  change (pending_of (n :: pre)) with
    (match pair n <$> folded_into n with Some p => p :: pending_of pre | None => pending_of pre end).
  destruct (folded_into n) as [c|]; cbn [fmap option_fmap option_map].
  - rewrite filter_cons. cbn [snd]. destruct (decide (c = id)) as [->|Hne].
    + rewrite decide_True by done. cbn. by rewrite IH.
    + rewrite decide_False by congruence. done.
  - by rewrite decide_False.
Qed.

Lemma NoDup_top : NoDup (map node_id top_nodes).
Proof.
  eapply sublist_NoDup; [exact Hnd|]. change (map node_id) with (fmap (M := list) node_id).
  apply fmap_sublist, sublist_filter.
Qed.

(** The ranked entries are those of the rows not folded away, with their
    members; every other row is counted as nested. *)
Lemma rank_entries_spec `{UnicodeTables} excluded :
  let '(ranked, excluded') := rank_entries confirmed containers excluded in
  ranked = sort_by entry_order (map (fun n => sort_members (full_entry n)) top_nodes)
  /\ total_excluded excluded' + length ranked = total_excluded excluded + length confirmed.
Proof.
  unfold rank_entries. fold kept_ids.
  destruct (fold_nodes excluded) as (Ho & _ & Hin & Hp & Hc).
  set (s := fold_left _ _ _) in *. rewrite Ho, (take_entries_map full_entry).
  - split; [by rewrite map_map|]. by rewrite length_sort_by, !length_map.
  - apply NoDup_top.
  - intros n Hn. rewrite add_members_lookup, (Hin n Hn), Hp. cbn. unfold full_entry.
    by rewrite pending_members.
Qed.

End Folding.

(** ** The order *)

Lemma cmp_le_total {A} (cmp : A -> A -> comparison) `{!TotalCmp cmp} a b :
  match cmp a b with Gt => false | _ => true end = true
  \/ match cmp b a with Gt => false | _ => true end = true.
Proof. rewrite (cmp_opp (cmp := cmp) a b). destruct (cmp a b); auto. Qed.

Lemma entry_order_total `{UnicodeTables} a b : entry_order a b = true \/ entry_order b a = true.
Proof.
  apply then_le_total; [apply Z.compare_antisym|].
  apply then_le_total; [apply cmp_opp|]. rewrite !Z.leb_le. lia.
Qed.

Lemma member_order_total `{UnicodeTables} a b : member_order a b = true \/ member_order b a = true.
Proof.
  apply then_le_total; [apply Z.compare_antisym|]. apply cmp_le_total, locale_compare_total.
Qed.

(** ** Maps filled by the first value of a key *)

Lemma fold_first_lookup {A V} (key : A -> string) (val : A -> V) l (m : gmap string V) k :
  fold_left (fun m x => match m !! key x with Some _ => m | None => <[key x := val x]> m end) l m !! k
  = match m !! k with Some v => Some v | None => val <$> head (filter (fun x => key x = k) l) end.
Proof.
  revert m. induction l as [|x l IH]; intros m; cbn [fold_left]; [by destruct (m !! k)|].
  rewrite IH, filter_cons. destruct (m !! key x) eqn:E.
  - destruct (m !! k) eqn:Ek; [done|]. rewrite decide_False; [done|]. intros <-. congruence.
  - destruct (decide (key x = k)) as [<-|Hne].
    + by rewrite lookup_insert_eq, E.
    + by rewrite lookup_insert_ne.
Qed.

(** A list sorted by a total comparison is sorted throughout. *)
Lemma sorted_strong {A} (cmp : A -> A -> comparison) `{!TotalCmp cmp} l :
  Sorted (fun a b => cmp a b <> Gt) l -> StronglySorted (fun a b => cmp a b <> Gt) l.
Proof. apply Sorted_StronglySorted. intros a b c. apply cmp_trans. Qed.

Lemma str_le_cmp a b : str_le a b = true <-> String.compare a b <> Gt.
Proof. unfold str_le, String.leb. destruct (String.compare a b); naive_solver. Qed.

(** ** The container of a member *)

(** [c] is the container of [id]: of the sources of containment edges into
    it, the first in string order. *)
Definition container (g : GraphView) (id : string) (c : Node) : Prop :=
  gv_nodes g !! node_id c = Some c
  /\ (exists e, e ∈ gv_edges g /\ edge_kind e = EkContains /\ edge_target e = id
        /\ edge_source e = node_id c)
  /\ forall e, e ∈ gv_edges g -> edge_kind e = EkContains -> edge_target e = id ->
       str_le (node_id c) (edge_source e) = true.

Lemma container_unique g id c c' : container g id c -> container g id c' -> c = c'.
Proof.
  intros (Hc & (e & He & Hk & Ht & Hs) & Hle) (Hc' & (e' & He' & Hk' & Ht' & Hs') & Hle').
  assert (Heq : node_id c = node_id c').
  { apply str_leb_antisym; [rewrite <- Hs'; by apply Hle|rewrite <- Hs; by apply Hle']. }
  rewrite Heq in Hc. congruence.
Qed.

Section Containers.
Context {St} `{HS : HealthyStore St st g} `{EB : EdgeBatches St} {HB : HealthyBatches st g}.

Definition target_source_cmp : Edge -> Edge -> comparison :=
  then_cmp (fun a b => String.compare (edge_target a) (edge_target b))
           (fun a b => String.compare (edge_source a) (edge_source b)).

#[export] Instance target_source_total : TotalCmp target_source_cmp.
Proof. exact (then_cmp_total _ _ (map_cmp_total edge_target _ _) (map_cmp_total edge_source _ _)). Qed.

Lemma target_source_le_cmp a b : target_source_le a b = true <-> target_source_cmp a b <> Gt.
Proof.
  unfold target_source_le, target_source_cmp, then_cmp, then_le.
  destruct (String.compare (edge_target a) _); [|naive_solver..]. apply str_le_cmp.
Qed.

Lemma target_source_sorted es :
  StronglySorted (fun a b => target_source_cmp a b <> Gt) (sort_by target_source_le es).
Proof.
  apply sorted_strong; [apply _|]. eapply Sorted_weaken; [|apply sort_by_sorted].
  - intros a b. apply target_source_le_cmp.
  - intros a b. apply then_le_total; [apply str_compare_opp|apply str_le_total].
Qed.

(** The first containment edge into an id. *)
Lemma first_container (es : list Edge) (ids : list string) (id e : string) :
  es ≡ₚ filter (fun x : Edge => edge_target x ∈ ids /\ edge_kind x ∈ [EkContains]) (gv_edges g) ->
  id ∈ ids ->
  (edge_source <$> head (filter (fun x : Edge => edge_target x = id) (sort_by target_source_le es)) = Some e
   <-> exists c, container g id c /\ node_id c = e).
Proof.
  intros Hes Hid.
  assert (Hin : forall x, x ∈ sort_by target_source_le es <->
    x ∈ gv_edges g /\ edge_target x ∈ ids /\ edge_kind x = EkContains)
    by (intros x; rewrite elem_of_sort_by, Hes, list_elem_of_filter; set_solver).
  destruct (head (filter _ _)) as [x|] eqn:Hh; cbn.
  - destruct (head_filter_first _ _ _ _ (target_source_sorted es) Hh) as (Hx & Ht & Hmin).
    apply Hin in Hx as (Hx & Hxi & Hxk).
    assert (Hc : exists c, container g id c /\ node_id c = edge_source x).
    { destruct (view_source x Hx) as [c Hc]. pose proof (view_key _ _ Hc) as Hk. exists c.
      split; [|done]. split; [by rewrite Hk|]. split; [by exists x|].
      intros e' He' Hk' Ht'. rewrite Hk. destruct (Hmin e') as [->|Hle]; [apply Hin; by rewrite Ht'|done|..].
      - apply str_le_cmp. by rewrite str_compare_refl.
      - apply str_le_cmp. unfold target_source_cmp, then_cmp in Hle.
        by rewrite Ht, Ht', str_compare_refl in Hle. }
    destruct Hc as (c & Hc & Hcx). split.
    + intros [= <-]. eauto.
    + intros (c' & Hc' & <-). rewrite <- Hcx. by rewrite (container_unique g id c c').
  - split; [done|]. intros (c & (_ & (e' & He' & Hk' & Ht' & _) & _) & _). exfalso.
    apply (head_filter_none (fun x => edge_target x = id) _ e' Hh); [|done].
    apply Hin. by rewrite Ht'.
Qed.

(** The members asked about. *)
Definition is_member (nodes : list Node) (id : string) : Prop :=
  exists n, n ∈ nodes /\ node_id n = id /\ is_overridable_kind (node_kind n) = true.

Lemma containers_of_spec nodes :
  returns (containers_of st nodes) (fun m => forall id c,
    m !! id = Some c <-> is_member nodes id /\ container g id c /\ is_container_kind (node_kind c) = true).
Proof.
  unfold containers_of.
  set (ids := map node_id (filter (fun n => is_overridable_kind (node_kind n) = true) nodes)).
  assert (Hids : forall id, id ∈ ids <-> is_member nodes id).
  { intros id. unfold ids, is_member. rewrite list_elem_of_fmap. setoid_rewrite list_elem_of_filter.
    naive_solver. }
  destruct ids as [|i0 il] eqn:Hi.
  { cbn. intros id c. rewrite lookup_empty, <- Hids. set_solver. }
  rewrite <- Hi in *. clear Hi i0 il.
  eapply returns_then; [by apply healthy_incoming|]. intros es Hes.
  set (by_member := fold_left _ _ _).
  assert (Hby : forall id e, by_member !! id = Some e <->
    is_member nodes id /\ exists c, container g id c /\ node_id c = e).
  { intros id e. unfold by_member. rewrite (fold_first_lookup edge_target edge_source), lookup_empty.
    destruct (decide (id ∈ ids)) as [Hin|Hout].
    - rewrite (first_container es ids id e Hes Hin), <- Hids. tauto.
    - rewrite <- Hids. split; [|tauto]. intros Hf.
      destruct (head (filter _ _)) as [x|] eqn:Hh; [|done].
      destruct (head_filter_first _ _ _ _ (target_source_sorted es) Hh) as (Hx & Ht & _).
      rewrite elem_of_sort_by, Hes, list_elem_of_filter in Hx.
      destruct Hx as [[Hx _] _]. by rewrite Ht in Hx. }
  eapply returns_then; [apply nodes_by_ids_lookup|]. intros cn Hcn id c. rewrite lookup_omap.
  destruct (by_member !! id) as [cid|] eqn:E; cbn.
  - pose proof (proj1 (Hby id cid) E) as (Hm & c' & Hc' & <-). rewrite Hcn.
    + destruct Hc' as (Hc'1 & Hc'2). rewrite Hc'1. destruct (is_container_kind (node_kind c')) eqn:Hk.
      * split; [intros [= <-]; split; [done|]; split; [by split|done]|]. intros (_ & Hc & _). f_equal.
        by apply (container_unique g id).
      * split; [done|]. intros (_ & Hc & Hk'). rewrite (container_unique g id c c') in Hk';
          [congruence|done|by split].
    + apply list_elem_of_fmap. exists (id, node_id c'). split; [done|]. by apply elem_of_map_to_list.
  - split; [done|]. intros (Hm & Hc & _). exfalso.
    assert (Hs : by_member !! id = Some (node_id c)) by (apply Hby; eauto). congruence.
Qed.

End Containers.
