(* ===== verification/DeadCodeRules.v ===== *)
(** * Facts on the graph rules of the dead-code report

    Which rows each rule drops: the members that may override, the decorated
    rows, the files nothing reaches, the hooks a framework calls by name. *)
From S2P Require Import Prelude Strings Types Rows Db DbFacts GraphStore Hierarchy HierarchyFacts ViewerReads.
From S2P Require Import FileClass DeadCode DeadCodeGraph.

(** ** Facts on the ancestors of the dead-code report

    [ancestors_of] walks all its roots at once, each ancestor carrying the set
    of the roots that reach it; it computes, for each root, the ball of radius
    [MAX_OVERRIDE_ANCESTOR_DEPTH] around it. *)

(** The set at a key; the empty one where the map has none. *)
Definition set_at (m : gmap string (gset string)) (x : string) : gset string := default ∅ (m !! x).

Lemma set_at_insert m x X y : set_at (<[x := X]> m) y = if decide (y = x) then X else set_at m y.
Proof.
  unfold set_at. case_decide as Hy; [by rewrite Hy, lookup_insert_eq|by rewrite lookup_insert_ne].
Qed.

Lemma set_at_delete m x y : set_at (delete x m) y = if decide (y = x) then ∅ else set_at m y.
Proof.
  unfold set_at. case_decide as Hy; [by rewrite Hy, lookup_delete_eq|by rewrite lookup_delete_ne].
Qed.

(** ** One edge *)

(** [next_at] is the place of each key of [next]. *)
Definition places (next : list (string * gset string)) (next_at : gmap string nat) : Prop :=
  forall y i, next_at !! y = Some i <-> fst <$> next !! i = Some y.

Definition roots_in (next : list (string * gset string)) (next_at : gmap string nat) (y : string)
  : gset string := default ∅ (i ← next_at !! y; snd <$> next !! i).

Lemma next_push next next_at t X :
  places next next_at -> next_at !! t = None ->
  places (next ++ [(t, X)]) (<[t := length next]> next_at)
  /\ forall y, roots_in (next ++ [(t, X)]) (<[t := length next]> next_at) y
       = if decide (y = t) then X else roots_in next next_at y.
Proof.
  intros Hp Ht. split.
  - intros y i. rewrite lookup_insert_Some, fmap_Some.
    setoid_rewrite lookup_snoc_Some. split.
    + intros [[-> <-]|[Hne Hi]]; [exists (y, X); naive_solver|].
      apply Hp in Hi. apply fmap_Some in Hi as (p & Hi & ->). exists p. split; [left|done].
      split; [by eapply lookup_lt_Some|done].
    + intros (p & [[_ Hi]|[-> <-]] & ->); [|by left].
      assert (Hy : next_at !! fst p = Some i) by (apply Hp; by rewrite Hi).
      right. split; [congruence|done].
  - intros y. unfold roots_in. case_decide as Hy.
    + by rewrite Hy, lookup_insert_eq; cbn; rewrite lookup_app_r, Nat.sub_diag by lia.
    + rewrite lookup_insert_ne by done. destruct (next_at !! y) as [i|] eqn:Hi; cbn; [|done].
      apply Hp, fmap_Some in Hi as (p & Hi & _). rewrite lookup_app_l; [done|]. by eapply lookup_lt_Some.
Qed.

Lemma next_merge next next_at t i X :
  places next next_at -> next_at !! t = Some i ->
  places (alter (fun p => (fst p, snd p ∪ X)) i next) next_at
  /\ forall y, roots_in (alter (fun p => (fst p, snd p ∪ X)) i next) next_at y
       = if decide (y = t) then roots_in next next_at y ∪ X else roots_in next next_at y.
Proof.
  intros Hp Ht. split.
  - intros y j. rewrite (Hp y j), list_lookup_alter. case_decide as Hij; [subst j|done]. by destruct (next !! i).
  - intros y. unfold roots_in. case_decide as Hy.
    + rewrite Hy, Ht. cbn. rewrite list_lookup_alter_eq. apply Hp in Ht.
      by destruct (next !! i).
    + destruct (next_at !! y) as [j|] eqn:Hj; cbn; [|done].
      rewrite list_lookup_alter_ne; [done|]. intros ->.
      apply Hp in Ht. apply Hp in Hj. congruence.
Qed.

(** No reached set is empty. *)
Record reach_wf (s : AncestorReach) : Prop := {
  rw_next : places (ar_next s) (ar_next_at s);
  rw_reach y : ar_reach s !! y <> Some ∅
}.

(** What an edge that brings [roots] to [target] adds. *)
Definition brought (roots : gset string) (target y : string) : gset string :=
  if decide (y = target) then roots else ∅.

Lemma reach_edge_step roots_of s e roots :
  reach_wf s -> edge_target e <> edge_source e -> roots_of !! edge_source e = Some roots ->
  let s' := reach_edge roots_of s e in
  let new y := brought roots (edge_target e) y ∖ set_at (ar_seen s) y in
  reach_wf s'
  /\ (forall y, set_at (ar_seen s') y = set_at (ar_seen s) y ∪ brought roots (edge_target e) y)
  /\ (forall y, set_at (ar_reach s') y = set_at (ar_reach s) y ∪ new y)
  /\ (forall y, roots_in (ar_next s') (ar_next_at s') y
                = roots_in (ar_next s) (ar_next_at s) y ∪ new y).
Proof.
  intros [Hp Hr] Hne Hroots. unfold reach_edge.
  destruct (String.eqb_spec (edge_target e) (edge_source e)) as [|_]; [done|]. rewrite Hroots.
  set (t := edge_target e) in *. fold (set_at (ar_seen s) t). fold (set_at (ar_reach s) t).
  set (merged := roots ∖ set_at (ar_seen s) t).
  set (reach' := if decide (merged ∪ set_at (ar_reach s) t = ∅) then _ else _).
  assert (Hseen : forall y, set_at (<[t := set_at (ar_seen s) t ∪ roots]> (ar_seen s)) y
            = set_at (ar_seen s) y ∪ brought roots t y).
  { intros y. unfold brought. rewrite set_at_insert. case_decide as Hy; [by rewrite Hy|set_solver]. }
  assert (Hreach : (forall y, set_at reach' y = set_at (ar_reach s) y
              ∪ brought roots t y ∖ set_at (ar_seen s) y) /\ forall y, reach' !! y <> Some ∅).
  { subst reach'. unfold brought. case_decide as Hk; split; intros y.
    - rewrite set_at_delete. case_decide as Hy; [|set_solver]. rewrite Hy. fold merged. set_solver.
    - rewrite lookup_delete_Some. naive_solver.
    - rewrite set_at_insert. case_decide as Hy; [|set_solver]. rewrite Hy. fold merged. set_solver.
    - rewrite lookup_insert_Some. naive_solver. }
  destruct Hreach as [Hreach Hreach'].
  assert (Hnew : forall y, (if decide (y = t) then merged else ∅) = brought roots t y ∖ set_at (ar_seen s) y).
  { intros y. unfold brought. case_decide as Hy; [by rewrite Hy|set_solver]. }
  case_decide as Hm; [|destruct (ar_next_at s !! t) as [i|] eqn:Hi]; cbn.
  - split; [by split|]. split; [done|]. split; [done|]. intros y. rewrite <- Hnew, Hm.
    case_decide; set_solver.
  - destruct (next_merge _ _ t i merged Hp Hi) as [Hp' Hn].
    split; [by split|]. split; [done|]. split; [done|]. intros y. rewrite Hn, <- Hnew.
    case_decide; set_solver.
  - destruct (next_push _ _ t merged Hp Hi) as [Hp' Hn].
    split; [by split|]. split; [done|]. split; [done|]. intros y. rewrite Hn, <- Hnew.
    case_decide as Hy; [|set_solver]. rewrite Hy. unfold roots_in. rewrite Hi. cbn. set_solver.
Qed.

(** ** The edges of a level *)

(** A root of the level reaches [y] by one of the edges. *)
Definition covers (roots_of : gmap string (gset string)) (es : list Edge) (y r : string) : Prop :=
  exists e roots, e ∈ es /\ edge_target e <> edge_source e /\ edge_target e = y
    /\ roots_of !! edge_source e = Some roots /\ r ∈ roots.

Lemma covers_snoc roots_of es e y r :
  covers roots_of (es ++ [e]) y r <->
  covers roots_of es y r
  \/ exists roots, edge_target e <> edge_source e /\ roots_of !! edge_source e = Some roots
       /\ r ∈ brought roots (edge_target e) y.
Proof.
  unfold covers, brought. split.
  - intros (e' & roots & [He| ->%list_elem_of_singleton]%elem_of_app & Hne & <- & Hr & Hin).
    + left. eauto 10.
    + right. exists roots. by rewrite decide_True.
  - intros [(e' & roots & He & ?)|(roots & Hne & Hr & Hin)].
    + exists e', roots. rewrite elem_of_app. tauto.
    + case_decide as Hy; [|set_solver]. exists e, roots. set_solver.
Qed.

Lemma reach_fold roots_of es seen reach :
  (forall y, reach !! y <> Some ∅) ->
  let s := fold_left (reach_edge roots_of) es (mkReach seen reach [] ∅) in
  reach_wf s
  /\ (forall y r, r ∈ set_at (ar_seen s) y <-> r ∈ set_at seen y \/ covers roots_of es y r)
  /\ (forall y r, r ∈ set_at (ar_reach s) y <->
        r ∈ set_at reach y \/ (covers roots_of es y r /\ r ∉ set_at seen y))
  /\ (forall y r, r ∈ roots_in (ar_next s) (ar_next_at s) y <->
        covers roots_of es y r /\ r ∉ set_at seen y).
Proof.
  intros Hreach. apply (fold_left_ind (reach_edge roots_of) (fun pre s =>
    reach_wf s
    /\ (forall y r, r ∈ set_at (ar_seen s) y <-> r ∈ set_at seen y \/ covers roots_of pre y r)
    /\ (forall y r, r ∈ set_at (ar_reach s) y <->
          r ∈ set_at reach y \/ (covers roots_of pre y r /\ r ∉ set_at seen y))
    /\ (forall y r, r ∈ roots_in (ar_next s) (ar_next_at s) y <->
          covers roots_of pre y r /\ r ∉ set_at seen y))).
  { assert (Hno : forall y r, ~ covers roots_of [] y r)
      by (intros y r (e & roots & He & _); by apply not_elem_of_nil in He).
    split; [split; [|done]; intros y i; cbn; rewrite lookup_empty; naive_solver|].
    cbn. split; [|split]; intros y r; specialize (Hno y r); [tauto..|].
    unfold roots_in. rewrite lookup_empty. set_solver. }
  intros pre e post s Hpre (Hwf & Hs & Hr & Hn).
  destruct (decide (edge_target e <> edge_source e /\ is_Some (roots_of !! edge_source e)))
    as [[Hne [roots Hroots]]|Hskip].
  - destruct (reach_edge_step roots_of s e roots Hwf Hne Hroots) as (Hwf' & Hs' & Hr' & Hn').
    assert (Hc : forall y r, covers roots_of (pre ++ [e]) y r <->
              covers roots_of pre y r \/ r ∈ brought roots (edge_target e) y).
    { intros y r. rewrite covers_snoc. f_equiv. split; [intros (? & _ & ? & ?); congruence|eauto]. }
    split; [done|]. split; [|split]; intros y r; rewrite Hc.
    + rewrite Hs', elem_of_union, Hs. tauto.
    + rewrite Hr', elem_of_union, Hr, elem_of_difference.
      specialize (Hs y r). destruct (decide (r ∈ set_at (ar_seen s) y)); tauto.
    + rewrite Hn', elem_of_union, Hn, elem_of_difference.
      specialize (Hs y r). destruct (decide (r ∈ set_at (ar_seen s) y)); tauto.
  - assert (Hid : reach_edge roots_of s e = s).
    { unfold reach_edge. destruct (String.eqb_spec (edge_target e) (edge_source e)) as [|Hne]; [done|].
      destruct (roots_of !! edge_source e); [|done]. destruct Hskip. split; [done|eauto]. }
    assert (Hc : forall y r, covers roots_of (pre ++ [e]) y r <-> covers roots_of pre y r).
    { intros y r. rewrite covers_snoc. split; [|by left]. intros [?|(roots & ? & ? & _)]; [done|].
      destruct Hskip. eauto. }
    rewrite Hid. split; [done|]. split; [|split]; intros y r; rewrite Hc; auto.
Qed.

(** ** The walk of each root *)

(** The part of the walk that belongs to one root. *)
Definition seen_of (r : string) (seen : gmap string (gset string)) : gset string :=
  dom (filter (fun p => r ∈ snd p) seen).
Definition frontier_of (r : string) (frontier : list (string * gset string)) : list string :=
  map fst (filter (fun p => r ∈ snd p) frontier).

Lemma elem_of_seen_of r seen x : x ∈ seen_of r seen <-> r ∈ set_at seen x.
Proof.
  unfold seen_of, set_at. rewrite elem_of_dom. split.
  - intros [X [Hx Hr]%map_lookup_filter_Some]. by rewrite Hx.
  - destruct (seen !! x) as [X|] eqn:Hx; cbn; [|set_solver]. intros Hr. exists X.
    by apply map_lookup_filter_Some.
Qed.

Lemma elem_of_frontier_of r frontier x :
  x ∈ frontier_of r frontier <-> exists X, (x, X) ∈ frontier /\ r ∈ X.
Proof.
  unfold frontier_of. rewrite list_elem_of_fmap. setoid_rewrite list_elem_of_filter. split.
  - intros ([y X] & -> & Hr & Hin). eauto.
  - intros (X & Hin & Hr). by exists (x, X).
Qed.

(** The keys of [next] are its own, and its sets those [next_roots] reads. *)
Lemma places_NoDup next next_at : places next next_at -> NoDup (map fst next).
Proof.
  intros Hp. apply NoDup_alt. intros i j x Hi Hj.
  change (map fst) with (fmap (M := list) (@fst string (gset string))) in Hi, Hj.
  rewrite list_lookup_fmap in Hi, Hj. apply Hp in Hi. apply Hp in Hj. congruence.
Qed.

Lemma elem_of_frontier_next r next next_at x :
  places next next_at -> x ∈ frontier_of r next <-> r ∈ roots_in next next_at x.
Proof.
  intros Hp. rewrite elem_of_frontier_of. unfold roots_in. split.
  - intros (X & [i Hi]%list_elem_of_lookup & Hr). assert (Hx : next_at !! x = Some i)
      by (apply Hp; by rewrite Hi). rewrite Hx. cbn. by rewrite Hi.
  - destruct (next_at !! x) as [i|] eqn:Hi; cbn; [|set_solver]. apply Hp, fmap_Some in Hi as ([y X] & Hi & ->).
    rewrite Hi. cbn. intros Hr. exists X. split; [by eapply list_elem_of_lookup_2|done].
Qed.

(** The map of a frontier whose keys are its own. *)
Lemma roots_of_lookup (frontier : list (string * gset string)) x X :
  NoDup (map fst frontier) ->
  fold_left (fun m p => <[fst p := snd p]> m) frontier (∅ : gmap string (gset string)) !! x = Some X
  <-> (x, X) ∈ frontier.
Proof.
  intros Hnd. revert X. apply (fold_left_ind (fun m p => <[fst p := snd p]> m)
    (fun pre m => forall X, m !! x = Some X <-> (x, X) ∈ pre)).
  - intros X. rewrite lookup_empty. set_solver.
  - intros pre [y Y] post m Hpre Hm X. cbn. rewrite lookup_insert_Some, Hm, elem_of_app, list_elem_of_singleton.
    rewrite Hpre, map_app in Hnd. apply NoDup_app in Hnd as (_ & Hdis & _). split.
    + intros [[-> ->]|[_ ?]]; tauto.
    + intros [Hin|[= -> ->]]; [|by left]. right. split; [|done]. intros ->.
      apply (Hdis x); [by apply (list_elem_of_fmap_2 fst) in Hin|cbn; left].
Qed.

Section Walk.
Context {St} `{HS : HealthyStore St st g} `{EB : EdgeBatches St} {HB : HealthyBatches st g}.
Variables (kinds : list EdgeKind) (ids : list string).
Hypothesis (Hkinds : kinds <> []) (Hids : NoDup ids).

(** One step by an edge of one of the kinds. *)
Definition kind_step (a b : string) : Prop :=
  exists e, e ∈ gv_edges g /\ edge_kind e ∈ kinds /\ edge_source e = a /\ edge_target e = b.

(** After [k] levels each root's part of the walk is a breadth-first walk. *)
Record reach_inv (k : nat) (frontier : list (string * gset string))
    (seen reach : gmap string (gset string)) : Prop := {
  ri_keys : NoDup (map fst frontier);
  ri_levels r : r ∈ ids -> levels kind_step r k (seen_of r seen) (frontier_of r frontier);
  ri_roots r x : r ∈ set_at seen x -> r ∈ ids;
  ri_frontier r x : x ∈ frontier_of r frontier -> r ∈ ids;
  ri_reach r x : r ∈ set_at reach x <-> r ∈ set_at seen x /\ x <> r;
  ri_nonempty x : reach !! x <> Some ∅
}.

Lemma reach_start :
  reach_inv 0 (map (fun id => (id, {[id]})) ids) (fold_left (fun m id => <[id := {[id]}]> m) ids ∅) ∅.
Proof.
  assert (Hseen : forall r x, r ∈ set_at (fold_left (fun m id => <[id := {[id]}]> m) ids ∅) x
            <-> x = r /\ r ∈ ids).
  { intros r x. apply (fold_left_ind (fun m id => <[id := {[id]}]> m)
      (fun pre m => r ∈ set_at m x <-> x = r /\ r ∈ pre)).
    - unfold set_at. rewrite lookup_empty. set_solver.
    - intros pre id post m _ Hm. rewrite set_at_insert. case_decide; set_solver. }
  assert (Hfr : forall r x, x ∈ frontier_of r (map (fun id => (id, {[id]})) ids) <-> x = r /\ r ∈ ids).
  { intros r x. rewrite elem_of_frontier_of. setoid_rewrite list_elem_of_fmap. split.
    - intros (X & (id & [= -> ->] & Hin) & Hr). set_solver.
    - intros [-> Hin]. exists {[r]}. set_solver. }
  split.
  - rewrite map_map. by rewrite map_id.
  - intros r Hr. pose proof (levels_start kind_step r) as [Hb Hf Hc]. split.
    + intros x. rewrite <- Hb, elem_of_seen_of, Hseen. set_solver.
    + intros x. rewrite <- Hf, Hfr. set_solver.
    + intros x y. rewrite !elem_of_seen_of, !Hseen, Hfr. tauto.
  - intros r x [_ ?]%Hseen. done.
  - intros r x [_ ?]%Hfr. done.
  - intros r x. rewrite Hseen. unfold set_at. rewrite lookup_empty. set_solver.
  - intros x. by rewrite lookup_empty.
Qed.

Lemma reach_step k frontier seen reach es :
  reach_inv k frontier seen reach ->
  es ≡ₚ filter (fun x : Edge => edge_source x ∈ map fst frontier /\ edge_kind x ∈ kinds) (gv_edges g) ->
  let s := fold_left (reach_edge (fold_left (fun m p => <[fst p := snd p]> m) frontier ∅))
             (sort_by source_target_le es) (mkReach seen reach [] ∅) in
  reach_inv (S k) (ar_next s) (ar_seen s) (ar_reach s).
Proof.
  intros [Hkeys Hlev Hroots Hfront Hreach Hne] Hes. set (roots_of := fold_left _ frontier ∅).
  destruct (reach_fold roots_of (sort_by source_target_le es) seen reach Hne) as ([Hp Hne'] & Hs & Hr & Hn).
  set (s := fold_left _ (sort_by _ _) _) in *.
  assert (Hc : forall y r, covers roots_of (sort_by source_target_le es) y r <->
            exists x, x ∈ frontier_of r frontier /\ x <> y /\ kind_step x y).
  { intros y r. unfold covers, kind_step. setoid_rewrite elem_of_frontier_of.
    setoid_rewrite elem_of_sort_by. setoid_rewrite Hes. setoid_rewrite list_elem_of_filter.
    subst roots_of. setoid_rewrite (roots_of_lookup frontier _ _ Hkeys). split.
    - intros (e & X & ((_ & Hk) & He) & Hd & <- & HX & Hr'). exists (edge_source e). split; [eauto|].
      split; [congruence|]. eauto.
    - intros (x & (X & HX & Hr') & Hd & e & He & Hk & <- & <-). exists e, X. split; [|by auto].
      split; [|done]. split; [|done]. by apply (list_elem_of_fmap_2 fst) in HX. }
  assert (Hfr : forall r x, x ∈ frontier_of r (ar_next s) <->
            r ∈ set_at (ar_seen s) x /\ r ∉ set_at seen x).
  { intros r x. rewrite (elem_of_frontier_next r _ _ x Hp), Hn, Hs. tauto. }
  assert (Hcr : forall y r, covers roots_of (sort_by source_target_le es) y r -> r ∈ ids).
  { intros y r (x & Hx & _)%Hc. by apply (Hfront r x). }
  split.
  - by apply (places_NoDup _ (ar_next_at s)).
  - intros r Hrid. eapply (levels_next _ _ k); [by apply Hlev|..].
    + intros y. rewrite !elem_of_seen_of, Hs, Hc. split.
      * intros [?|(x & ? & _ & ?)]; eauto.
      * intros [?|(x & Hx & Hxy)]; [by left|]. destruct (decide (x = y)) as [<-|Hne1]; [|eauto].
        left. apply elem_of_seen_of. apply (levels_ball _ _ _ _ _ (Hlev r Hrid)).
        by apply (levels_frontier _ _ _ _ _ (Hlev r Hrid)) in Hx as [? _].
    + intros y. rewrite !elem_of_seen_of. apply Hfr.
  - intros r x [?|?]%Hs; eauto.
  - intros r x [[?|?]%Hs _]%Hfr; eauto.
  - intros r x. rewrite Hr, Hreach, Hs. split; [|destruct (decide (r ∈ set_at seen x)); tauto].
    intros [?|[Hcov Hns]]; [tauto|]. split; [tauto|]. intros ->. apply Hns, elem_of_seen_of.
    apply (levels_ball _ _ _ _ _ (Hlev r (Hcr _ _ Hcov))). constructor.
  - exact Hne'.
Qed.

(** The ancestors of each root: what lies in its ball, itself excepted. *)
Lemma reach_levels_spec depth k frontier seen reach :
  reach_inv k frontier seen reach ->
  returns (reach_levels st depth kinds frontier seen reach) (fun m =>
    (forall r x, r ∈ set_at m x <-> r ∈ ids /\ x <> r /\ ball kind_step r (k + depth) x)
    /\ forall x, m !! x <> Some ∅).
Proof.
  revert k frontier seen reach. induction depth as [|depth IH]; intros k frontier seen reach Hinv.
  - cbn. split; [|apply Hinv]. intros r x. rewrite (ri_reach _ _ _ _ Hinv), Nat.add_0_r.
    split; [|intros (Hr & ? & ?); by rewrite <- elem_of_seen_of,
      (levels_ball _ _ _ _ _ (ri_levels _ _ _ _ Hinv r Hr))].
    intros [Hx ?]. pose proof (ri_roots _ _ _ _ Hinv r x Hx) as Hr. split; [done|]. split; [done|].
    by rewrite <- elem_of_seen_of, (levels_ball _ _ _ _ _ (ri_levels _ _ _ _ Hinv r Hr)) in Hx.
  - cbn [reach_levels]. destruct frontier as [|f0 fs] eqn:Hfr.
    + cbn. split; [|apply Hinv]. intros r x. rewrite (ri_reach _ _ _ _ Hinv). split.
      * intros [Hx ?]. pose proof (ri_roots _ _ _ _ Hinv r x Hx) as Hr. split; [done|]. split; [done|].
        rewrite <- elem_of_seen_of, (levels_ball _ _ _ _ _ (ri_levels _ _ _ _ Hinv r Hr)) in Hx.
        by apply (ball_le _ _ k); [lia|].
      * intros (Hr & ? & Hx). split; [|done]. rewrite <- elem_of_seen_of.
        apply (levels_done _ _ _ _ _ (ri_levels _ _ _ _ Hinv r Hr)); [set_solver|].
        by eapply rtc_bsteps_2.
    + rewrite <- Hfr in *. clear Hfr. eapply returns_then; [by apply healthy_outgoing|].
      intros es Hes. pose proof (reach_step k frontier seen reach es Hinv Hes) as Hstep.
      cbn zeta in Hstep |- *. eapply returns_mono; [exact (IH _ _ _ _ Hstep)|].
      intros m Hm. rewrite Nat.add_succ_comm in Hm. exact Hm.
Qed.

Lemma ancestors_of_spec :
  returns (ancestors_of st ids kinds) (fun m =>
    (forall r x, r ∈ set_at m x <->
       r ∈ ids /\ x <> r /\ ball kind_step r MAX_OVERRIDE_ANCESTOR_DEPTH x)
    /\ forall x, m !! x <> Some ∅).
Proof. apply (reach_levels_spec _ 0), reach_start. Qed.

End Walk.

(** ** Overriding *)

Section Meaning.
Variable g : GraphView.

Definition OVERRIDE_KINDS : list EdgeKind := [EkExtends; EkImplements].

(** [id] names a supertype the index does not hold. *)
Definition super_outside (id : string) : Prop := exists name, refers g OVERRIDE_KINDS id name.

Definition override_ancestor (c a : string) : Prop :=
  a <> c /\ ball (kind_step (g := g) OVERRIDE_KINDS) c MAX_OVERRIDE_ANCESTOR_DEPTH a.

(** [a] contains an overridable member of the name. *)
Definition member_named (a name : string) : Prop :=
  exists e m, e ∈ gv_edges g /\ edge_kind e = EkContains /\ edge_source e = a
    /\ gv_nodes g !! edge_target e = Some m /\ is_overridable_kind (node_kind m) = true
    /\ node_name m = name.

(** A member of the name in [c] may override one: a supertype is outside the
    index, or an ancestor has no member known, or one of the name. *)
Definition may_override (c name : string) : Prop :=
  super_outside c
  \/ exists a, override_ancestor c a
       /\ (super_outside a \/ (forall name', ~ member_named a name') \/ member_named a name).

(** [n] is decorated: an edge, a name or its own list of decorators. *)
Definition decorated (n : Node) : Prop :=
  (exists e, e ∈ gv_edges g /\ edge_kind e = EkDecorates /\ edge_source e = node_id n)
  \/ (exists name, refers g [EkDecorates] (node_id n) name)
  \/ node_decorators n <> [].

(** Of the [rows], one named [name] is a method of the class [cid] that a
    framework could call as a hook. *)
Definition declares (rows : Node -> Prop) (name cid : string) : Prop :=
  exists d c, rows d /\ node_name d = name /\ is_hook_shaped d = true
    /\ container g (node_id d) c /\ node_kind c = NkClass /\ node_id c = cid.

(** A TypeScript class that writes out the interface. *)
Definition writes_out (contract id : string) : Prop :=
  refers g [EkImplements] id contract
  /\ exists w, gv_nodes g !! id = Some w /\ node_language w ∈ BY_NAME_DISPATCH_LANGUAGES.

Definition extends_outside (id : string) : Prop := exists name, refers g [EkExtends] id name.

(** The class declares the name, inherits it, or extends what the index does
    not hold. *)
Definition may_have (rows : Node -> Prop) (name id : string) : Prop :=
  declares rows name id \/ extends_outside id
  \/ exists a, a <> id /\ ball (kind_step (g := g) [EkExtends]) id MAX_OVERRIDE_ANCESTOR_DEPTH a
       /\ (declares rows name a \/ extends_outside a).

(** The interface is filled by name: most of its writers are decorated, most
    declare the name, at least two, and all may have it. *)
Definition filled_by_name (rows : Node -> Prop) (name contract : string) : Prop :=
  exists own registered declared : gset string,
    (forall id, id ∈ own <-> writes_out contract id)
    /\ (forall id, id ∈ registered <-> writes_out contract id /\ exists w, gv_nodes g !! id = Some w /\ decorated w)
    /\ (forall id, id ∈ declared <-> writes_out contract id /\ declares rows name id)
    /\ size own < size registered * 2 /\ 2 <= size declared /\ size own < size declared * 2
    /\ forall id, writes_out contract id -> may_have rows name id.

(** A framework calls [n] by its name, of the [rows]: it is a method of a decorated class,
    and a class that declares the name writes out an interface filled by it. *)
Definition hook_called (rows : Node -> Prop) (n : Node) : Prop :=
  is_hook_shaped n = true
  /\ (exists c, container g (node_id n) c /\ node_kind c = NkClass /\ decorated c)
  /\ exists contract cid, contract <> "" /\ declares rows (node_name n) cid
       /\ refers g [EkImplements] cid contract /\ filled_by_name rows (node_name n) contract.

Lemma hook_called_rows (rows rows' : Node -> Prop) n : (forall d, rows d <-> rows' d) -> hook_called rows n <-> hook_called rows' n.
Proof.
  intros Hr. unfold hook_called, filled_by_name, may_have, declares. by setoid_rewrite Hr.
Qed.

End Meaning.

(** ** The folds of [override_candidates] *)

Lemma extend_opaque_fold (external_based opaque : gset string) l x :
  x ∈ fold_left (extend_opaque external_based) l opaque <->
  x ∈ opaque \/ exists p, p ∈ l /\ fst p ∈ external_based /\ x ∈ snd p.
Proof.
  revert opaque. induction l as [|p l IH]; intros opaque; cbn [fold_left]; [set_solver|].
  rewrite IH. unfold extend_opaque. case_decide; set_solver.
Qed.

Notation learned s x name := (name ∈ set_at (snd s) x).

Lemma learn_names_step names_of s p :
  (forall x, x ∈ fst (learn_names names_of s p) <->
     x ∈ fst s \/ (x ∈ snd p /\ names_of (fst p) = []))
  /\ forall x name, learned (learn_names names_of s p) x name <->
     learned s x name \/ (x ∈ snd p /\ name ∈ names_of (fst p)).
Proof.
  assert (Hs : forall x, x ∈ snd p <-> x ∈ elements (snd p)) by (intros x; by rewrite elem_of_elements).
  unfold learn_names. setoid_rewrite Hs. clear Hs.
  set (names := names_of (fst p)). generalize (elements (snd p)). intros roots.
  destruct s as [opaque m]. revert opaque m.
  induction roots as [|root roots IH]; intros opaque m; cbn [fold_left fst snd].
  { split; intros x; [|intros name]; rewrite elem_of_nil; tauto. }
  destruct names as [|nm names'] eqn:E.
  - destruct (IH ({[root]} ∪ opaque) m) as [Ho Hm]. cbn [fst snd] in Ho, Hm. split; intros x.
    + rewrite Ho. set_solver.
    + intros name. rewrite Hm. set_solver.
  - rewrite <- E in *. set (m' := <[root := _]> m). destruct (IH opaque m') as [Ho Hm].
    cbn [fst snd] in Ho, Hm. split; intros x.
    + rewrite Ho. split; (intros [?|[_ Hn]]; [by left|congruence]).
    + intros name. rewrite Hm. subst m'. fold (set_at m root). rewrite set_at_insert.
      case_decide as Hx; [rewrite Hx|]; set_solver.
Qed.

Lemma learn_names_fold names_of l s :
  (forall x, x ∈ fst (fold_left (learn_names names_of) l s) <->
     x ∈ fst s \/ exists p, p ∈ l /\ x ∈ snd p /\ names_of (fst p) = [])
  /\ forall x name, learned (fold_left (learn_names names_of) l s) x name <->
     learned s x name \/ exists p, p ∈ l /\ x ∈ snd p /\ name ∈ names_of (fst p).
Proof.
  revert s. induction l as [|p l IH]; intros s; cbn [fold_left]; [set_solver|].
  destruct (IH (learn_names names_of s p)) as [Ho Hm].
  destruct (learn_names_step names_of s p) as [Ho1 Hm1]. split; intros x.
  - rewrite Ho, Ho1. set_solver.
  - intros name. rewrite Hm, Hm1. set_solver.
Qed.

Lemma map_to_list_set_at (m : gmap string (gset string)) (P : string -> Prop) x :
  (exists p, p ∈ map_to_list m /\ P (fst p) /\ x ∈ snd p) <-> exists a, P a /\ x ∈ set_at m a.
Proof.
  unfold set_at. split.
  - intros ([a X] & Hin%elem_of_map_to_list & HP & Hx). exists a. by rewrite Hin.
  - intros (a & HP & Hx). destruct (m !! a) as [X|] eqn:E; cbn in Hx; [|set_solver].
    exists (a, X). by rewrite elem_of_map_to_list.
Qed.

(** What the loop over the nodes drops. *)
Lemma drop_overriding_fold (containers : gmap string Node) (opaque : gset string)
    (by_container : gmap string (gset string)) nodes id :
  id ∈ fold_left (fun dropped node =>
         match containers !! node_id node with
         | None => dropped
         | Some container =>
             if decide (node_id container ∈ opaque)
             then {[node_id node]} ∪ dropped
             else match by_container !! node_id container with
                  | Some names => if decide (node_name node ∈ (names : gset string))
                                  then {[node_id node]} ∪ dropped else dropped
                  | None => dropped
                  end
         end) nodes (∅ : gset string) <->
  exists n c, n ∈ nodes /\ node_id n = id /\ containers !! id = Some c
    /\ (node_id c ∈ opaque \/ node_name n ∈ set_at by_container (node_id c)).
Proof.
  apply (fold_left_ind _ (fun pre s => id ∈ s <->
    exists n c, n ∈ pre /\ node_id n = id /\ containers !! id = Some c
      /\ (node_id c ∈ opaque \/ node_name n ∈ set_at by_container (node_id c)))); [set_solver|].
  intros pre n post s _ Hs.
  assert (Hgen : (exists n' c, n' ∈ pre ++ [n] /\ node_id n' = id /\ containers !! id = Some c
      /\ (node_id c ∈ opaque \/ node_name n' ∈ set_at by_container (node_id c)))
    <-> id ∈ s \/ (node_id n = id /\ exists c, containers !! node_id n = Some c
      /\ (node_id c ∈ opaque \/ node_name n ∈ set_at by_container (node_id c)))).
  { rewrite Hs. setoid_rewrite elem_of_app. setoid_rewrite list_elem_of_singleton. split.
    - intros (n' & c & [?| ->] & <- & ? & ?); [left; eauto 10|right; eauto].
    - intros [(n' & c & ? & ? & ? & ?)|(<- & c & ? & ?)]; eauto 10. }
  rewrite Hgen. unfold set_at. destruct (containers !! node_id n) as [c|]; [|naive_solver].
  case_decide as Ho; [set_solver|].
  destruct (by_container !! node_id c) as [names|] eqn:Eb; [case_decide|].
  - rewrite elem_of_union, elem_of_singleton. split; [intros [->|?]; [|tauto]|naive_solver].
    right. split; [done|]. exists c. rewrite Eb. auto.
  - split; [tauto|]. intros [?|(_ & c' & [= <-] & [?|Hn])]; [done..|]. by rewrite Eb in Hn.
  - split; [tauto|]. intros [?|(_ & c' & [= <-] & [?|Hn])]; [done..|]. rewrite Eb in Hn. set_solver.
Qed.

Section Rules.
Context {St} `{HS : HealthyStore St st g} `{EB : EdgeBatches St} {HB : HealthyBatches st g}.
Context `{AR : AggregateReads St} {HR : HealthyReads g st}.

(** The ids the unresolved names are found for. *)
Lemma names_from_dom ids kinds :
  returns (unresolved_reference_names_from st ids kinds) (fun m =>
    forall id, id ∈ dom m <-> id ∈ ids /\ exists name, refers g kinds id name).
Proof.
  eapply returns_mono; [apply (healthy_unresolved_reference_names_from g)|]. intros m [Hm Hne] id.
  rewrite elem_of_dom. split.
  - intros [[|name names] Hl]; [by destruct (Hne id)|].
    destruct (proj1 (Hm id name)) as [? ?]; [by rewrite Hl; left|]. eauto.
  - intros (Hid & name & Hr). destruct (m !! id) as [names|] eqn:E; [done|]. exfalso.
    assert (Hin : name ∈ default [] (m !! id)) by (by apply Hm). rewrite E in Hin. set_solver.
Qed.

Lemma supertype_sources_spec ids :
  returns (unresolved_supertype_sources_among st ids) (fun s =>
    forall id, id ∈ s <-> id ∈ ids /\ super_outside g id).
Proof.
  unfold unresolved_supertype_sources_among. eapply returns_then; [apply names_from_dom|]. done.
Qed.

Lemma overridable_names_spec (member_nodes : gmap string Node) (member_edges : list Edge) a name
    (ids : list string) :
  member_edges ≡ₚ filter (fun x : Edge => edge_source x ∈ ids /\ edge_kind x ∈ [EkContains]) (gv_edges g) ->
  (forall id, id ∈ map edge_target member_edges -> member_nodes !! id = gv_nodes g !! id) ->
  a ∈ ids ->
  name ∈ overridable_names member_nodes
           (map edge_target (filter (fun e : Edge => edge_source e = a) member_edges))
  <-> member_named g a name.
Proof.
  intros Hes Hn Ha. unfold overridable_names, member_named. rewrite list_elem_of_omap.
  setoid_rewrite list_elem_of_fmap. setoid_rewrite list_elem_of_filter.
  assert (Hin : forall e, e ∈ member_edges <->
      e ∈ gv_edges g /\ edge_source e ∈ ids /\ edge_kind e = EkContains)
    by (intros e; rewrite Hes, list_elem_of_filter; set_solver).
  split.
  - intros (id & (e & -> & Hsrc & He) & Hm). rewrite Hn in Hm by (by apply (list_elem_of_fmap_2 edge_target)).
    destruct (gv_nodes g !! edge_target e) as [m|] eqn:Em; [|done].
    destruct (is_overridable_kind (node_kind m)) eqn:Ek; [|done]. injection Hm as <-.
    apply Hin in He as (He & _ & Hk). by exists e, m.
  - intros (e & m & He & Hk & Hsrc & Hm & Hok & <-).
    assert (He' : e ∈ member_edges) by (apply Hin; by rewrite Hsrc).
    exists (edge_target e). split; [by exists e|].
    rewrite Hn by (by apply (list_elem_of_fmap_2 edge_target)). by rewrite Hm, Hok.
Qed.

(** What the walk found, of the containers [cids]. *)
Section Found.
Variables (cids : list string) (reach : gmap string (gset string)) (ext : gset string).
Variable names_of : string -> list string.
Hypothesis Hreach : forall c a, c ∈ set_at reach a <-> c ∈ cids /\ override_ancestor g c a.
Hypothesis Hext : forall id, id ∈ ext <-> id ∈ cids ++ elements (dom reach) /\ super_outside g id.
Hypothesis Hnames : forall a name, a ∈ dom reach -> name ∈ names_of a <-> member_named g a name.

Definition learned_names : gset string * gmap string (gset string) :=
  fold_left (learn_names names_of) (map_to_list reach)
    (fold_left (extend_opaque ext) (map_to_list reach)
       (list_to_set (filter (fun id => id ∈ ext) cids)), ∅).

Lemma set_at_dom a c : c ∈ set_at reach a -> a ∈ dom reach.
Proof. unfold set_at. rewrite elem_of_dom. destruct (reach !! a); [done|set_solver]. Qed.

Lemma opaque_spec c : c ∈ cids ->
  c ∈ fst learned_names <-> super_outside g c
    \/ exists a, override_ancestor g c a /\ (super_outside g a \/ forall name, ~ member_named g a name).
Proof.
  intros Hc. unfold learned_names. rewrite (proj1 (learn_names_fold _ _ _) c). cbn [fst].
  rewrite extend_opaque_fold, elem_of_list_to_set, list_elem_of_filter, Hext, elem_of_app.
  pose proof (map_to_list_set_at reach (fun a => a ∈ ext) c) as H1. cbn beta in H1. rewrite H1.
  assert (H2 : (exists p, p ∈ map_to_list reach /\ c ∈ snd p /\ names_of (fst p) = [])
            <-> exists a, names_of a = [] /\ c ∈ set_at reach a).
  { rewrite <- (map_to_list_set_at reach (fun a => names_of a = []) c).
    apply exist_proper. intros p. tauto. }
  rewrite H2. clear H1 H2. setoid_rewrite Hreach. split.
  - intros [[?|(a & [_ ?]%Hext & _ & Hx)]|(a & Hnil & Hca)]; [tauto|eauto|].
    right. exists a. split; [apply Hca|]. right. intros name Hm.
    rewrite <- Hnames, Hnil in Hm by (by apply (set_at_dom a c), Hreach). set_solver.
  - intros [?|(a & Hx & Hor)]; [left; left; tauto|].
    assert (Ha : a ∈ dom reach) by (by apply (set_at_dom a c), Hreach). destruct Hor as [Hs|Hno].
    + left. right. exists a. split; [|done]. apply Hext. split; [|done]. set_solver.
    + right. exists a. split; [|done]. destruct (names_of a) as [|name names] eqn:En; [done|].
      destruct (Hno name). rewrite <- Hnames, En by done. left.
Qed.

Lemma by_container_spec c name : c ∈ cids ->
  name ∈ set_at (snd learned_names) c <-> exists a, override_ancestor g c a /\ member_named g a name.
Proof.
  intros Hc. unfold learned_names. rewrite (proj2 (learn_names_fold _ _ _) c). cbn [snd].
  assert (H2 : (exists p, p ∈ map_to_list reach /\ c ∈ snd p /\ name ∈ names_of (fst p))
            <-> exists a, name ∈ names_of a /\ c ∈ set_at reach a).
  { rewrite <- (map_to_list_set_at reach (fun a => name ∈ names_of a) c).
    apply exist_proper. intros p. tauto. }
  rewrite H2. clear H2. unfold set_at at 1. rewrite lookup_empty. split.
  - intros [?|(a & Hn & Hca)]; [set_solver|]. exists a. rewrite <- Hnames by (by apply (set_at_dom a c)).
    split; [by apply Hreach|done].
  - intros (a & Ha & Hm). right. exists a. assert (Hca : c ∈ set_at reach a) by (by apply Hreach).
    split; [|done]. apply Hnames; [by apply (set_at_dom a c)|done].
Qed.

End Found.

Lemma override_candidates_spec nodes containers :
  returns (override_candidates st nodes containers) (fun s => forall id, id ∈ s <->
    exists n c, n ∈ nodes /\ node_id n = id /\ containers !! id = Some c
      /\ may_override g (node_id c) (node_name n)).
Proof.
  unfold override_candidates. set (cids := sorted_unique _).
  assert (Hcids : forall id c, containers !! id = Some c -> node_id c ∈ cids).
  { intros id c Hc. unfold cids. rewrite elem_of_sorted_unique, list_elem_of_fmap.
    exists (id, c). by rewrite elem_of_map_to_list. }
  assert (Hnd : NoDup cids) by apply sorted_unique_NoDup.
  destruct cids as [|c0 cs] eqn:Ec.
  { cbn. intros id. split; [set_solver|]. intros (n & c & _ & _ & Hc%Hcids & _). set_solver. }
  rewrite <- Ec in *. clear Ec c0 cs.
  eapply returns_then; [by apply (ancestors_of_spec OVERRIDE_KINDS cids)|]. intros reach [Hreach _].
  eapply returns_then; [apply supertype_sources_spec|]. intros ext Hext.
  eapply returns_then; [by apply healthy_outgoing|]. intros mes Hmes.
  eapply returns_then; [apply nodes_by_ids_lookup|]. intros mns Hmns.
  set (names_of := fun a : string => overridable_names _ _).
  assert (Hnames : forall a name, a ∈ dom reach -> name ∈ names_of a <-> member_named g a name).
  { intros a name Ha. apply (overridable_names_spec _ _ _ _ _ Hmes); [done|by apply elem_of_elements]. }
  pose proof (opaque_spec cids reach ext names_of Hreach Hext Hnames) as Hop.
  pose proof (by_container_spec cids reach ext names_of Hreach Hext Hnames) as Hby.
  unfold learned_names in Hop, Hby. cbn zeta. destruct (fold_left (learn_names names_of) _ _) as [opaque by_container].
  cbn [fst snd] in Hop, Hby. intros id. rewrite drop_overriding_fold.
  apply exist_proper. intros n. apply exist_proper. intros c.
  split; intros (Hn & Hid & Hc & Hor); (split; [done|]; split; [done|]; split; [done|]);
    specialize (Hop _ (Hcids _ _ Hc)); specialize (Hby _ (node_name n) (Hcids _ _ Hc)).
  - rewrite Hop, Hby in Hor. destruct Hor as [[?|(a & ? & [?|?])]|(a & ? & ?)]; unfold may_override; eauto 10.
  - rewrite Hop, Hby. destruct Hor as [?|(a & ? & [?|[?|?]])]; eauto 10.
Qed.

(** ** Decorators and files *)

Lemma carries_decorator_spec nodes :
  returns (carries_decorator st nodes) (fun s => forall id, id ∈ s <->
    exists n, n ∈ nodes /\ node_id n = id /\ decorated g n).
Proof.
  unfold carries_decorator. cbn zeta.
  eapply returns_then; [by apply healthy_outgoing|]. intros es Hes.
  eapply returns_then; [apply names_from_dom|]. intros names Hnames id. cbn beta in Hnames. unfold decorated.
  assert (He : id ∈ map edge_source es <-> id ∈ map node_id nodes
            /\ exists e, e ∈ gv_edges g /\ edge_kind e = EkDecorates /\ edge_source e = id).
  { rewrite Hes, list_elem_of_fmap. setoid_rewrite list_elem_of_filter. set_solver. }
  rewrite !elem_of_union, !elem_of_list_to_set, He, Hnames, !list_elem_of_fmap.
  setoid_rewrite list_elem_of_filter. naive_solver.
Qed.

Lemma files_nothing_reaches_spec nodes :
  returns (files_nothing_reaches st nodes) (fun s => forall f, f ∈ s <->
    (exists n, n ∈ nodes /\ node_file_path n = f) /\ forall f', ~ file_depends g f' f).
Proof.
  unfold files_nothing_reaches.
  assert (Hp : forall f, f ∈ sorted_unique (map node_file_path nodes) <->
            exists n, n ∈ nodes /\ node_file_path n = f).
  { intros f. rewrite elem_of_sorted_unique, list_elem_of_fmap. naive_solver. }
  destruct (sorted_unique _) as [|p0 ps] eqn:Ep.
  { cbn. intros f. rewrite <- Hp. set_solver. }
  rewrite <- Ep in *. clear Ep p0 ps.
  eapply returns_then; [apply (healthy_file_dependent_counts g)|]. intros counts [Hnd Hc] f.
  rewrite elem_of_list_to_set, list_elem_of_filter, Hp.
  assert (Hiff : default 0 ((list_to_map counts : gmap string nat) !! f) = 0 <->
            ((exists n, n ∈ nodes /\ node_file_path n = f) -> forall f', ~ file_depends g f' f)).
  { destruct (list_to_map counts !! f) as [c|] eqn:E; cbn.
    - apply elem_of_list_to_map in E; [|done]. apply Hc in E as (Hf & Hc0 & X & -> & HX).
      split; [done|]. intros Hno. exfalso. apply Hc0, size_empty_iff. intros f'.
      rewrite HX. split; [|set_solver]. intros Hd. exfalso. eapply Hno; [by apply Hp|done].
    - split; [|done]. intros _ Hn f' Hd.
      destruct (proj1 (returns_iff _ _) (healthy_dependent_file_paths g (st := st) f)) as (fs & _ & _ & Hfs).
      apply not_elem_of_list_to_map in E. apply E.
      apply (list_elem_of_fmap_2 fst counts (f, size (list_to_set fs : gset string))), Hc.
      split; [by apply Hp|]. split; [|exists (list_to_set fs); set_solver].
      intros Hz%size_empty_iff. apply Hfs in Hd. set_solver. }
  rewrite Hiff. tauto.
Qed.

(** ** Hooks *)

Lemma declaring_fold (container_of : Node -> option Node) l m name id :
  id ∈ set_at (fold_left (declare_name container_of) l m) name <->
  id ∈ set_at m name
  \/ exists d c, d ∈ l /\ node_name d = name /\ container_of d = Some c /\ node_kind c = NkClass /\ node_id c = id.
Proof.
  revert m. induction l as [|d l IH]; intros m; cbn [fold_left]; [set_solver|]. rewrite IH. clear IH.
  setoid_rewrite elem_of_cons. unfold declare_name at 1. destruct (container_of d) as [c|] eqn:Ec.
  - case_decide as Hk.
    + fold (set_at m (node_name d)). rewrite set_at_insert. split.
      * intros [Hin|(d' & c' & ? & ?)]; [|right; eauto 10]. case_decide as Hn; [|by left].
        apply elem_of_union in Hin as [->%elem_of_singleton|Hin]; [right; eauto 10|left; by rewrite Hn].
      * intros [Hin|(d' & c' & [->|?] & Hn & Hc & Hk' & <-)]; [left; case_decide as Hn; [rewrite <- Hn|]; set_solver| |right; eauto 10].
        left. rewrite Ec in Hc. injection Hc as <-. rewrite decide_True by done. set_solver.
    + split; [naive_solver|]. intros [?|(d' & c' & [->|?] & ? & Hc & ? & ?)]; [by left|congruence|right; eauto 10].
  - split; [naive_solver|]. intros [?|(d' & c' & [->|?] & ? & Hc & ? & ?)]; [by left|congruence|right; eauto 10].
Qed.

Lemma any_of_true {A} (p : A -> bool) l : any_of p l = true <-> exists x, x ∈ l /\ p x = true.
Proof. unfold any_of. rewrite existsb_exists. by setoid_rewrite list_elem_of_In. Qed.

Lemma is_hook_name_spec declaring interfaces_of implementers ancestors opaque name :
  let declared := set_at declaring name in
  is_hook_name declaring interfaces_of implementers ancestors opaque name = true <->
  exists cid contract own, cid ∈ declared /\ contract ∈ default [] (interfaces_of !! cid)
    /\ implementers !! contract = Some own
    /\ 2 <= size (own ∩ declared) /\ size own < size (own ∩ declared) * 2
    /\ forall x, x ∈ own -> x ∈ declared \/ x ∈ opaque
         \/ exists a, x ∈ set_at ancestors a /\ a ∈ declared.
Proof.
  cbn zeta. change (set_at declaring name) with (default (∅ : gset string) (declaring !! name)). unfold is_hook_name.
  destruct (declaring !! name) as [declared|]; cbn [from_option]; unfold id; [|set_solver].
  rewrite any_of_true. split.
  - intros (contract & Hc & Hb). apply list_elem_of_join in Hc as (names & Hc & (cid & Hid%elem_of_elements & Hn)%list_elem_of_omap).
    destruct (implementers !! contract) as [own|] eqn:Ei; [|done]. rewrite !andb_true_iff, Nat.leb_le, Nat.ltb_lt, forallb_forall in Hb.
    destruct Hb as [[H2 Hlt] Hall]. exists cid, contract, own. rewrite Hn. split_and!; try done.
    intros x Hx. assert (Hin : In x (elements own)) by (by apply list_elem_of_In, elem_of_elements). specialize (Hall x Hin).
    rewrite !orb_true_iff, !bool_decide_eq_true, any_of_true in Hall. destruct Hall as [[?|?]|([a X] & Hp%elem_of_map_to_list & Hax)]; [tauto..|].
    right. right. rewrite andb_true_iff, !bool_decide_eq_true in Hax. exists a. unfold set_at. rewrite Hp. exact Hax.
  - intros (cid & contract & own & Hid & Hc & Ei & H2 & Hlt & Hall). exists contract. split.
    + destruct (interfaces_of !! cid) as [names|] eqn:En; cbn [from_option] in Hc; unfold id in Hc; [|set_solver]. apply list_elem_of_join. exists names. split; [done|].
      apply list_elem_of_omap. exists cid. split; [by apply elem_of_elements|done].
    + rewrite Ei, !andb_true_iff, Nat.leb_le, Nat.ltb_lt, forallb_forall. split; [done|].
      intros x Hx%list_elem_of_In%elem_of_elements. rewrite !orb_true_iff, !bool_decide_eq_true, any_of_true.
      destruct (Hall x Hx) as [?|[?|(a & Hax & Ha)]]; [tauto..|]. right. unfold set_at in Hax.
      destruct (ancestors !! a) as [X|] eqn:E; cbn in Hax; [|set_solver]. exists (a, X). split; [by apply elem_of_map_to_list|].
      rewrite andb_true_iff, !bool_decide_eq_true. done.
Qed.

(** The containers of the rows that were asked for, and only true ones. *)
Record containers_right (containers : gmap string Node) (nodes : list Node) : Prop := {
  cr_true id c : containers !! id = Some c -> container g id c;
  cr_all n c : n ∈ nodes -> is_overridable_kind (node_kind n) = true -> container g (node_id n) c ->
    is_container_kind (node_kind c) = true -> containers !! node_id n = Some c
}.

Lemma hook_shaped_overridable n : is_hook_shaped n = true -> is_overridable_kind (node_kind n) = true.
Proof. unfold is_hook_shaped. by destruct (node_kind n). Qed.

(** The methods of a decorated class. *)
Definition in_decorated_class (n : Node) : Prop :=
  is_hook_shaped n = true /\ exists c, container g (node_id n) c /\ node_kind c = NkClass /\ decorated g c.

Section Eligible.
Variables (containers : gmap string Node) (nodes methods : list Node) (registered : gset string).
Hypothesis Hcr : containers_right containers nodes.
Hypothesis Hmethods : forall n, n ∈ methods <-> n ∈ nodes /\ is_hook_shaped n = true
  /\ exists c, containers !! node_id n = Some c /\ node_kind c = NkClass.
Hypothesis Hreg : forall id, id ∈ registered <-> exists c,
  c ∈ map snd (map_to_list (list_to_map (map (fun c => (node_id c, c))
        (omap (fun node => containers !! node_id node) methods)) : gmap string Node))
  /\ node_id c = id /\ decorated g c.

Lemma registered_class n c : n ∈ methods -> containers !! node_id n = Some c -> node_id c ∈ registered <-> decorated g c.
Proof.
  intros Hn Hc. rewrite Hreg. set (m := list_to_map _ : gmap string Node).
  assert (Hm : m !! node_id c = Some c).
  { assert (Hin : c ∈ omap (fun node => containers !! node_id node) methods) by (apply list_elem_of_omap; eauto).
    assert (Hall : forall c', c' ∈ omap (fun node => containers !! node_id node) methods -> node_id c' = node_id c -> c' = c).
    { intros c' (n' & _ & (Hc' & _)%(cr_true _ _ Hcr))%list_elem_of_omap E. destruct (cr_true _ _ Hcr _ _ Hc) as [Hc1 _]. congruence. }
    subst m. revert Hin Hall. generalize (omap (fun node => containers !! node_id node) methods). intros l.
    induction l as [|c' l IH]; [by intros ?%elem_of_nil|]. cbn. intros Hin Hall. destruct (decide (node_id c' = node_id c)) as [E|E].
    - rewrite E, lookup_insert_eq. f_equal. apply Hall; [by left|done].
    - rewrite lookup_insert_ne by done. apply IH; [|intros c0 ?; apply Hall; by right].
      apply elem_of_cons in Hin as [->|?]; [by destruct E|done]. }
  split; [|intros Hd; exists c; split; [|done]; apply list_elem_of_fmap; exists (node_id c, c); split; [done|by apply elem_of_map_to_list]].
  intros (c' & Hin & E & Hd). apply list_elem_of_fmap in Hin as ([k c''] & -> & Hk%elem_of_map_to_list). cbn in *.
  assert (k = node_id c'') as ->.
  { apply elem_of_list_to_map_2, list_elem_of_fmap in Hk as (? & [= -> ->] & _). done. }
  rewrite E, Hm in Hk. by injection Hk as <-.
Qed.

Lemma eligible_spec n :
  n ∈ filter (fun node => match containers !! node_id node with
                          | Some container => bool_decide (node_id container ∈ registered)
                          | None => false
                          end = true) methods
  <-> n ∈ nodes /\ in_decorated_class n.
Proof.
  rewrite list_elem_of_filter. split.
  - intros [Hb Hn]. pose proof Hn as (Hin & Hs & c & Hc & Hk)%Hmethods. rewrite Hc in Hb.
    apply bool_decide_eq_true, (registered_class n c Hn Hc) in Hb. split; [done|]. split; [done|]. exists c.
    split; [by apply (cr_true _ _ Hcr)|done].
  - intros (Hin & Hs & c & Hc & Hk & Hd).
    assert (Hl : containers !! node_id n = Some c).
    { apply (cr_all _ _ Hcr); [done|by apply hook_shaped_overridable|done|by rewrite Hk]. }
    assert (Hn : n ∈ methods) by (apply Hmethods; eauto). rewrite Hl. split; [|done].
    by apply bool_decide_eq_true, (registered_class n c Hn Hl).
Qed.

End Eligible.

(** The classes that declare a name. *)
Lemma declarations_spec containers nodes rows (names : gset string) (declared_in : gmap string Node) name cid :
  containers_right containers nodes ->
  (forall id c, declared_in !! id = Some c <->
     is_member (filter (fun node => match containers !! node_id node with Some _ => false | None => true end = true)
       (filter (fun node => node_name node ∈ names /\ is_hook_shaped node = true) rows)) id
     /\ container g id c /\ is_container_kind (node_kind c) = true) ->
  name ∈ names ->
  cid ∈ set_at (fold_left (declare_name (fun node => match containers !! node_id node with
                             | Some container => Some container
                             | None => declared_in !! node_id node
                             end)) (filter (fun node => node_name node ∈ names /\ is_hook_shaped node = true) rows) ∅) name
  <-> declares g (fun d => d ∈ rows) name cid.
Proof.
  intros Hcr Hdi Hname. rewrite declaring_fold. unfold set_at. rewrite lookup_empty. split.
  - intros [?|(d & c & Hd & Hn & Hc & Hk & <-)]; [set_solver|]. pose proof Hd as [[_ Hs] Hr]%list_elem_of_filter.
    exists d, c. split_and!; try done. destruct (containers !! node_id d) as [c'|] eqn:Ec.
    + injection Hc as ->. by apply (cr_true _ _ Hcr).
    + by apply Hdi in Hc as (_ & ? & _).
  - intros (d & c & Hr & Hn & Hs & Hc & Hk & <-). right. exists d, c.
    assert (Hd : d ∈ filter (fun node => node_name node ∈ names /\ is_hook_shaped node = true) rows).
    { apply list_elem_of_filter. split; [|done]. by rewrite Hn. }
    split_and!; try done. destruct (containers !! node_id d) as [c'|] eqn:Ec.
    + f_equal. apply (container_unique g (node_id d)); [by apply (cr_true _ _ Hcr)|done].
    + apply Hdi. split_and!; [|done|by rewrite Hk]. exists d. split_and!; [|done|by apply hook_shaped_overridable].
      apply list_elem_of_filter. split; [|done]. by rewrite Ec.
Qed.

Lemma elem_of_set_values (m : gmap string (gset string)) x : x ∈ sorted_unique (set_values m) <-> exists k, x ∈ set_at m k.
Proof.
  rewrite elem_of_sorted_unique. unfold set_values. rewrite list_elem_of_join. setoid_rewrite list_elem_of_fmap. split.
  - intros (l & Hx & [k X] & -> & Hk%elem_of_map_to_list). exists k. unfold set_at. rewrite Hk. by apply elem_of_elements.
  - intros (k & Hx). unfold set_at in Hx. destruct (m !! k) as [X|] eqn:E; cbn in Hx; [|set_solver].
    exists (elements X). split; [by apply elem_of_elements|]. exists (k, X). split; [done|]. by apply elem_of_map_to_list.
Qed.

(** The contracts most of whose writers are decorated. *)
Section Implementers.
Variables (interfaces : list string) (writers : gmap string (gset string)) (writer_nodes : gmap string Node)
  (registered_writers : gset string).
Hypothesis Hwriters : forall name x, x ∈ set_at writers name <-> name ∈ interfaces /\ name <> "" /\ refers g [EkImplements] x name.
Hypothesis Hnodes : forall id, writer_nodes !! id
  = if decide (id ∈ sorted_unique (set_values writers)) then gv_nodes g !! id else None.

Definition typescript_writers : list Node :=
  filter (fun node => node_language node ∈ BY_NAME_DISPATCH_LANGUAGES) (map snd (map_to_list writer_nodes)).

Hypothesis Hreg : forall id, id ∈ registered_writers <-> exists n, n ∈ typescript_writers /\ node_id n = id /\ decorated g n.

Lemma elem_of_typescript w : w ∈ typescript_writers <->
  node_language w ∈ BY_NAME_DISPATCH_LANGUAGES /\ gv_nodes g !! node_id w = Some w /\ exists k, node_id w ∈ set_at writers k.
Proof.
  unfold typescript_writers. rewrite list_elem_of_filter, list_elem_of_fmap. split.
  - intros (Hl & [id w'] & -> & Hw%elem_of_map_to_list). cbn in *. rewrite Hnodes in Hw. case_decide as Hid; [|done].
    pose proof (view_key _ _ Hw) as Hk. rewrite Hk. split; [done|]. split; [done|]. by apply elem_of_set_values.
  - intros (Hl & Hw & Hk%elem_of_set_values). split; [done|]. exists (node_id w, w). split; [done|].
    apply elem_of_map_to_list. by rewrite Hnodes, decide_True.
Qed.

#[local] Notation implementers :=
  (registered_implementers writers (list_to_set (map node_id typescript_writers)) registered_writers).

Lemma own_spec contract x : contract ∈ interfaces -> contract <> "" ->
  x ∈ set_at writers contract ∩ list_to_set (map node_id typescript_writers) <-> writes_out g contract x.
Proof.
  intros Hin Hne. rewrite elem_of_intersection, Hwriters, elem_of_list_to_set, list_elem_of_fmap. unfold writes_out. split.
  - intros ((_ & _ & Hr) & w & -> & (Hl & Hw & _)%elem_of_typescript). eauto.
  - intros (Hr & w & Hw & Hl). split; [done|]. pose proof (view_key _ _ Hw) as Hk. exists w. split; [done|].
    apply elem_of_typescript. rewrite Hk. split_and!; [done|done|]. exists contract. by apply Hwriters.
Qed.

Lemma registered_spec contract x : writes_out g contract x -> contract ∈ interfaces -> contract <> "" ->
  x ∈ registered_writers <-> exists w, gv_nodes g !! x = Some w /\ decorated g w.
Proof.
  intros (Hr & w & Hw & Hl) Hin Hne. rewrite Hreg. split.
  - intros (n & (_ & Hn & _)%elem_of_typescript & <- & Hd). eauto.
  - intros (w' & Hw' & Hd). assert (w' = w) as -> by congruence. pose proof (view_key _ _ Hw) as Hk. exists w. split_and!; try done.
    apply elem_of_typescript. rewrite Hk. split_and!; [done|done|]. exists contract. by apply Hwriters.
Qed.

Lemma implementers_true contract own : implementers !! contract = Some own ->
  contract ∈ interfaces /\ contract <> "" /\ (forall x, x ∈ own <-> writes_out g contract x)
  /\ size own < size (own ∩ registered_writers) * 2.
Proof.
  unfold registered_implementers. rewrite lookup_omap. destruct (writers !! contract) as [ids|] eqn:E; cbn [mbind option_bind]; [|done].
  set (own' := ids ∩ _). cbn zeta. destruct (Nat.ltb_spec (size own') (size (own' ∩ registered_writers) * 2)) as [Hlt|]; [|done]. intros [= <-].
  assert (Hids : ids = set_at writers contract) by (unfold set_at; by rewrite E).
  assert (Hex : exists x, x ∈ own').
  { destruct (set_choose_or_empty own') as [|Hemp]; [done|]. exfalso. assert (Hs : size (own' ∩ registered_writers) = 0) by (apply size_empty_iff; set_solver). lia. }
  destruct Hex as (x & Hx). assert (Hc : contract ∈ interfaces /\ contract <> "").
  { unfold own' in Hx. rewrite Hids in Hx. apply elem_of_intersection in Hx as [(? & ? & _)%Hwriters _]. done. }
  destruct Hc as [Hc Hne]. split_and!; try done. intros y. unfold own'. rewrite Hids. by apply own_spec.
Qed.

Lemma implementers_all contract own : contract ∈ interfaces -> contract <> "" -> (forall x, x ∈ own <-> writes_out g contract x) ->
  size own < size (own ∩ registered_writers) * 2 -> implementers !! contract = Some own.
Proof.
  intros Hin Hne Hown Hlt. assert (Heq : own = set_at writers contract ∩ list_to_set (map node_id typescript_writers)).
  { apply set_eq. intros x. by rewrite Hown, own_spec. }
  unfold registered_implementers. rewrite lookup_omap. unfold set_at in Heq. destruct (writers !! contract) as [ids|] eqn:E; cbn [mbind option_bind from_option] in *; unfold id in Heq.
  - cbn zeta. rewrite <- Heq. by rewrite (proj2 (Nat.ltb_lt _ _) Hlt).
  - exfalso. assert (size (own ∩ registered_writers) = 0) by (apply size_empty_iff; set_solver). lia.
Qed.

End Implementers.

(** The last step: which of the eligible names is a hook, of the sets found. *)
Section HookNames.
Variables (rows : Node -> Prop) (interfaces declarers : list string) (declaring : gmap string (gset string))
  (interfaces_of : gmap string (list string)) (implementers ancestors : gmap string (gset string))
  (outside registered_writers : gset string) (implementer_ids : list string) (name : string).
Hypothesis Hdeclaring : forall cid, cid ∈ set_at declaring name <-> declares g rows name cid.
Hypothesis Hdeclarers : forall cid, cid ∈ set_at declaring name -> cid ∈ declarers.
Hypothesis Hinterfaces_of : forall id x, x ∈ default [] (interfaces_of !! id) <-> id ∈ declarers /\ refers g [EkImplements] id x.
Hypothesis Hinterfaces : forall id x, x ∈ default [] (interfaces_of !! id) -> x ∈ interfaces.
Hypothesis Htrue : forall contract own, implementers !! contract = Some own ->
  contract ∈ interfaces /\ contract <> "" /\ (forall x, x ∈ own <-> writes_out g contract x)
  /\ size own < size (own ∩ registered_writers) * 2.
Hypothesis Hall : forall contract own, contract ∈ interfaces -> contract <> "" -> (forall x, x ∈ own <-> writes_out g contract x) ->
  size own < size (own ∩ registered_writers) * 2 -> implementers !! contract = Some own.
Hypothesis Hreg : forall contract x, writes_out g contract x -> contract ∈ interfaces -> contract <> "" ->
  x ∈ registered_writers <-> exists w, gv_nodes g !! x = Some w /\ decorated g w.
Hypothesis Hids : forall x, x ∈ implementer_ids <-> exists contract, x ∈ set_at implementers contract.
Hypothesis Hancestors : forall r x, r ∈ set_at ancestors x <->
  r ∈ implementer_ids /\ x <> r /\ ball (kind_step (g := g) [EkExtends]) r MAX_OVERRIDE_ANCESTOR_DEPTH x.
Hypothesis Houtside : forall id, id ∈ outside <-> id ∈ implementer_ids ++ elements (dom ancestors) /\ exists x, refers g [EkExtends] id x.

#[local] Notation opaque :=
  (fold_left (extend_opaque outside) (map_to_list ancestors) (list_to_set (filter (fun id => id ∈ outside) implementer_ids))).

Lemma opaque_extends x : x ∈ implementer_ids ->
  x ∈ (opaque : gset string) <-> extends_outside g x \/ exists a, x ∈ set_at ancestors a /\ extends_outside g a.
Proof.
  intros Hx. rewrite extend_opaque_fold, elem_of_list_to_set, list_elem_of_filter, Houtside, elem_of_app.
  pose proof (map_to_list_set_at ancestors (fun a => a ∈ outside) x) as H1. cbn beta in H1. rewrite H1. clear H1. split.
  - intros [[[_ ?] _]|(a & [_ Ha]%Houtside & Hxa)]; [by left|right; eauto].
  - intros [Hd|(a & Hxa & Ha)]; [left; split; [split; [by left|done]|done]|]. right. exists a. split; [|done].
    apply Houtside. split; [|done]. apply elem_of_app. right. apply elem_of_elements, elem_of_dom.
    unfold set_at in Hxa. destruct (ancestors !! a); [done|]. cbn in Hxa. set_solver.
Qed.

Lemma may_have_iff x : x ∈ implementer_ids ->
  may_have g rows name x <-> x ∈ set_at declaring name \/ x ∈ (opaque : gset string)
    \/ exists a, x ∈ set_at ancestors a /\ a ∈ set_at declaring name.
Proof.
  intros Hx. rewrite opaque_extends by done. unfold may_have. setoid_rewrite Hdeclaring. setoid_rewrite Hancestors. naive_solver.
Qed.

Lemma hook_name_iff :
  is_hook_name declaring interfaces_of implementers ancestors opaque name = true <->
  exists contract cid, contract <> "" /\ declares g rows name cid
    /\ refers g [EkImplements] cid contract /\ filled_by_name g rows name contract.
Proof.
  rewrite is_hook_name_spec. split.
  - intros (cid & contract & own & Hd & Hc & Hi & H2 & Hlt & Hhas). destruct (Htrue _ _ Hi) as (Hin & Hne & Hown & Hreg').
    exists contract, cid. split_and!; [done|by apply Hdeclaring|by apply Hinterfaces_of in Hc as [_ ?]|].
    exists own, (own ∩ registered_writers), (own ∩ set_at declaring name). split_and!; try done.
    + intros x. rewrite elem_of_intersection, Hown. split; intros [Hw Hx]; (split; [done|]); by eapply Hreg.
    + intros x. by rewrite elem_of_intersection, Hown, Hdeclaring.
    + intros x Hw%Hown. apply may_have_iff; [|by apply Hhas]. apply Hids. exists contract. unfold set_at. by rewrite Hi.
  - intros (contract & cid & Hne & Hd & Hr & own & registered & declared & Hown & Hregd & Hdecl & Hlt & H2 & Hlt2 & Hhas).
    apply Hdeclaring in Hd. assert (Hc : contract ∈ default [] (interfaces_of !! cid)) by (apply Hinterfaces_of; auto).
    pose proof (Hinterfaces _ _ Hc) as Hin. assert (Hr1 : own ∩ registered_writers = registered).
    { apply set_eq. intros x. rewrite elem_of_intersection, Hown, Hregd. split; intros [Hw Hx]; (split; [done|]); by eapply Hreg. }
    assert (Hd1 : own ∩ set_at declaring name = declared).
    { apply set_eq. intros x. by rewrite elem_of_intersection, Hown, Hdecl, Hdeclaring. }
    assert (Hi : implementers !! contract = Some own) by (apply Hall; [done..|by rewrite Hr1]).
    exists cid, contract, own. rewrite Hd1. split_and!; try done. intros x Hx. apply may_have_iff; [|by apply Hhas, Hown].
    apply Hids. exists contract. unfold set_at. by rewrite Hi.
Qed.

End HookNames.

(** Exactly the rows that a framework calls by name. *)
Lemma by_name_hook_candidates_spec nodes containers rows :
  containers_right containers nodes ->
  returns (by_name_hook_candidates st nodes containers rows)
    (fun s => forall id, id ∈ s <-> exists n, n ∈ nodes /\ node_id n = id /\ hook_called g (fun d => d ∈ rows) n).
Proof.
  intros Hcr. unfold by_name_hook_candidates. cbn zeta. set (methods := filter _ nodes).
  assert (Hm : forall n, n ∈ methods <-> n ∈ nodes /\ is_hook_shaped n = true
    /\ exists c, containers !! node_id n = Some c /\ node_kind c = NkClass).
  { intros n. unfold methods. rewrite list_elem_of_filter, andb_true_iff. destruct (containers !! node_id n) as [c|].
    - rewrite bool_decide_eq_true. naive_solver.
    - naive_solver. }
  assert (Hin : forall n, n ∈ nodes -> hook_called g (fun d => d ∈ rows) n -> n ∈ methods).
  { intros n Hn (Hs & (c & Hc & Hk & _) & _). apply Hm. split; [done|]. split; [done|]. exists c. split; [|done].
    apply (cr_all _ _ Hcr); [done|by apply hook_shaped_overridable|done|by rewrite Hk]. }
  clearbody methods. destruct methods as [|m0 ms] eqn:Em.
  { cbn. intros id. split; [set_solver|]. intros (n & Hn & _ & Hh). specialize (Hin n Hn Hh). set_solver. }
  rewrite <- Em in *. clear Em m0 ms Hin.
  eapply returns_then; [apply carries_decorator_spec|]. intros registered Hreg. cbn beta in Hreg.
  pose proof (eligible_spec containers nodes methods registered Hcr Hm Hreg) as Hel.
  set (eligible := filter _ methods) in *. clearbody eligible. clear Hreg Hm registered methods.
  assert (Hcalled : forall n, hook_called g (fun d => d ∈ rows) n <-> in_decorated_class n /\ exists contract cid, contract <> ""
    /\ declares g (fun d => d ∈ rows) (node_name n) cid /\ refers g [EkImplements] cid contract /\ filled_by_name g (fun d => d ∈ rows) (node_name n) contract).
  { intros n. unfold hook_called, in_decorated_class. tauto. }
  assert (Hnone : (forall n, n ∈ eligible -> ~ exists contract cid, contract <> "" /\ declares g (fun d => d ∈ rows) (node_name n) cid
      /\ refers g [EkImplements] cid contract /\ filled_by_name g (fun d => d ∈ rows) (node_name n) contract) ->
    forall id, id ∈ (∅ : gset string) <-> exists n, n ∈ nodes /\ node_id n = id /\ hook_called g (fun d => d ∈ rows) n).
  { intros Hno id. split; [set_solver|]. intros (n & Hn & _ & [Hd Hx]%Hcalled). destruct (Hno n); [by apply Hel|done]. }
  destruct eligible as [|e0 es] eqn:Ee; [cbn; apply Hnone; intros n ?%elem_of_nil; done|]. rewrite <- Ee in *. clear Ee e0 es.
  eapply returns_then; [apply containers_of_spec|]. intros declared_in Hdi. cbn beta in Hdi.
  set (names := list_to_set (map node_name eligible) : gset string) in *.
  assert (Hnames : forall n, n ∈ eligible -> node_name n ∈ names).
  { intros n Hn. unfold names. apply elem_of_list_to_set, list_elem_of_fmap. eauto. }
  set (declaring := fold_left _ _ _).
  assert (Hdeclaring : forall n cid, n ∈ eligible -> cid ∈ set_at declaring (node_name n) <-> declares g (fun d => d ∈ rows) (node_name n) cid).
  { intros n cid Hn. eapply declarations_spec; [exact Hcr|exact Hdi|by apply Hnames]. }
  set (declarers := sorted_unique (set_values declaring)).
  assert (Hdeclarers : forall name cid, cid ∈ set_at declaring name -> cid ∈ declarers).
  { intros name cid Hc. unfold declarers. apply elem_of_set_values. eauto. }
  clearbody declaring. 
  eapply returns_then; [apply (healthy_unresolved_reference_names_from g)|]. intros interfaces_of [Hio _].
  assert (Hinterfaces : forall id x, x ∈ default [] (interfaces_of !! id) -> x ∈ sorted_unique (list_values interfaces_of)).
  { intros id x Hx. apply elem_of_sorted_unique. unfold list_values. apply list_elem_of_join.
    destruct (interfaces_of !! id) as [l|] eqn:E; cbn in Hx; [|set_solver]. exists l. split; [done|].
    apply list_elem_of_fmap. exists (id, l). split; [done|]. by apply elem_of_map_to_list. }
  set (interfaces := sorted_unique (list_values interfaces_of)) in *.
  clearbody interfaces declarers. destruct interfaces as [|i0 is'] eqn:Ei.
  { cbn. apply Hnone. intros n Hn (contract & cid & _ & Hd & Hr & _). apply (Hdeclaring n) in Hd; [|done].
    assert (Hx : contract ∈ default [] (interfaces_of !! cid)) by (apply Hio; eauto). apply Hinterfaces in Hx. set_solver. }
  rewrite <- Ei in *. clear Ei i0 is'.
  eapply returns_then; [apply (healthy_unresolved_reference_sources_named g)|]. intros writers Hw.
  eapply returns_then; [apply healthy_nodes_by_ids|]. intros writer_nodes Hwn. cbn beta in Hwn.
  eapply returns_then; [apply carries_decorator_spec|]. intros registered_writers Hrw. cbn beta in Hrw.
  pose proof (implementers_true interfaces writers writer_nodes registered_writers Hw Hwn Hrw) as Htrue.
  pose proof (implementers_all interfaces writers writer_nodes registered_writers Hw Hwn Hrw) as Hall.
  pose proof (registered_spec interfaces writers writer_nodes registered_writers Hw Hwn Hrw) as Hreg.
  unfold typescript_writers in Htrue, Hall. set (implementers := registered_implementers _ _ _) in *. clearbody implementers.
  case_decide as Hemp.
  { cbn. apply Hnone. intros n Hn (contract & cid & Hne & Hd & Hr & own & registered & declared & Hown & Hregd & _ & Hlt & _).
    apply (Hdeclaring n) in Hd; [|done]. assert (Hx : contract ∈ default [] (interfaces_of !! cid)) by (apply Hio; eauto). apply Hinterfaces in Hx.
    assert (Hi : implementers !! contract = Some own); [|by rewrite Hemp, lookup_empty in Hi]. apply Hall; [done..|].
    assert (own ∩ registered_writers = registered) as ->; [|done]. apply set_eq. intros x.
    rewrite elem_of_intersection, Hown, Hregd. split; intros [Hwx Hx']; (split; [done|]); by eapply Hreg. }
  eapply returns_then; [apply (ancestors_of_spec [EkExtends]); [done|apply sorted_unique_NoDup]|]. intros ancestors [Hanc _].
  eapply returns_then; [apply names_from_dom|]. intros outside Hout. cbn beta in Hout.
  cbn. intros id. rewrite elem_of_list_to_set, list_elem_of_fmap.
  assert (Hname : forall n, n ∈ eligible ->
    is_hook_name declaring interfaces_of implementers ancestors
      (fold_left (extend_opaque (dom outside)) (map_to_list ancestors)
         (list_to_set (filter (fun id => id ∈ dom outside) (sorted_unique (set_values implementers))))) (node_name n) = true
    <-> exists contract cid, contract <> "" /\ declares g (fun d => d ∈ rows) (node_name n) cid
      /\ refers g [EkImplements] cid contract /\ filled_by_name g (fun d => d ∈ rows) (node_name n) contract).
  { intros n Hn. apply (hook_name_iff (fun d => d ∈ rows) interfaces declarers declaring interfaces_of implementers ancestors (dom outside)
      registered_writers (sorted_unique (set_values implementers)) (node_name n)); try done; try (intros; by apply Hdeclaring); try (by apply Hdeclarers). intros x. apply elem_of_set_values. }
  setoid_rewrite list_elem_of_filter. setoid_rewrite elem_of_filter. split.
  - intros (n & -> & ([Hh _] & Hn)). exists n. pose proof Hn as [Hn' Hd]%Hel. split; [done|]. split; [done|]. apply Hcalled. split; [done|].
    by apply Hname.
  - intros (n & Hn & <- & [Hd Hx]%Hcalled). exists n. assert (Hne : n ∈ eligible) by (by apply Hel).
    split; [done|]. split; [split; [by apply Hname|by apply Hnames]|done].
Qed.

End Rules.
