(* ===== verification/DeadCodeReport.v ===== *)
(** * Facts on the dead-code report: the rows it keeps

    What the cheap rules and the graph rules say of a row that survives them,
    and the report assembled from its stages. *)
From S2P Require Import Prelude Strings Types Rows Db DbFacts GraphStore PathUtil StrOps FileClass.
From S2P Require Import Hierarchy HierarchyFacts ViewerReads Collation.
From S2P Require Import DeadCode DeadCodeGraph DeadCodeRules.

(** ** What a dead row is *)

Section Meaning.
Variable g : GraphView.

(** [c] is the type that declares the member [n]. *)
Definition owner (n c : Node) : Prop :=
  is_overridable_kind (node_kind n) = true /\ container g (node_id n) c
  /\ is_container_kind (node_kind c) = true.

(** An unresolved reference may mean [name]. *)
Definition unresolved_name (name : string) : Prop :=
  exists r, r ∈ gv_refs g
    /\ (ref_reference_name r = name \/ reference_name_tail (ref_reference_name r) = name).

(** What the graph says of a dead row. *)
Record graph_dead (n : Node) : Prop := {
  gd_file : exists f, file_depends g f (node_file_path n);
  gd_decorated : ~ decorated g n;
  gd_owner c : owner n c ->
    is_declaration_container_kind (node_kind c) = false /\ ~ may_override g (node_id c) (node_name n);
  gd_unresolved : node_name n <> "" -> ~ unresolved_name (node_name n);
  gd_ambiguous : node_name n <> "" -> ~ ambiguous g (node_name n)
}.

(** What the row itself says. *)
Record row_dead `{UnicodeTables} (query : DeadCodeQuery) (n : Node) : Prop := {
  rd_tests : dcq_include_tests query = false ->
    is_test_file_scoring str_to_lowercase (node_file_path n) = false
    /\ is_test_scope (node_qualified_name n) = false;
  rd_generated : dcq_include_generated query = false -> generated_file g (node_file_path n) = false;
  rd_exported : dcq_include_exported query = false ->
    node_is_exported n = false /\ is_header_file (node_file_path n) = false
    /\ exists n', gv_nodes g !! node_id n' = Some n' /\ node_is_exported n' = true
         /\ node_language n' = node_language n;
  rd_abstract : node_is_abstract n = false;
  rd_implicit : is_implicit_entry_name (node_name n) = false;
  rd_vendored : is_vendored_path (node_file_path n) = false;
  rd_markup : Language_as_str (node_language n) ∉ MARKUP_HOST_LANGUAGES
}.

(** A row of the report: asked for, referred to by nothing, and no rule applies. *)
Record dead `{UnicodeTables} (query : DeadCodeQuery) (n : Node) : Prop := {
  dead_kind : node_kind n ∈ normalize_kinds (dcq_kinds query);
  dead_unreferenced : unreferenced g n;
  dead_row : row_dead query n;
  dead_graph : graph_dead n
}.

End Meaning.

(** ** The cheap rules *)

Lemma Language_as_str_inj l l' : Language_as_str l = Language_as_str l' -> l = l'.
Proof. destruct l, l'; (done || discriminate). Qed.

Lemma rule_none {A} (b : bool) (e : A) (rest : option A) :
  (if b then Some e else rest) = None <-> b = false /\ rest = None.
Proof. destruct b; naive_solver. Qed.

Lemma unless_false (a b : bool) : negb a && b = false <-> (a = false -> b = false).
Proof. destruct a, b; naive_solver. Qed.

Lemma cheap_rule_spec `{UnicodeTables} g query (languages : gset string) n :
  (dcq_include_exported query = false ->
     Language_as_str (node_language n) ∈ languages <->
     exists n', gv_nodes g !! node_id n' = Some n' /\ node_is_exported n' = true
       /\ node_language n' = node_language n) ->
  cheap_rule query languages n (generated_file g (node_file_path n)) = None <-> row_dead g query n.
Proof.
  intros Hlang. unfold cheap_rule. cbn zeta.
  rewrite !rule_none, !unless_false, orb_false_iff, negb_false_iff, bool_decide_eq_true,
    bool_decide_eq_false. split.
  - intros (Ht & Hg & He & Hx & Ha & Hi & Hv & Hs & Hm & _). split; try done.
    + intros Hq. auto.
    + intros Hq. destruct (He Hq). rewrite <- Hlang by done. auto.
  - intros [Ht Hg He Ha Hi Hv Hm].
    split; [intros Hq; by apply Ht|]. split; [done|].
    split; [intros Hq; destruct (He Hq) as (? & ? & _); done|].
    split; [intros Hq; apply Hlang, He; done|].
    repeat (split; [done|]). split; [intros Hq; by apply Ht|]. done.
Qed.

(** ** The graph rules *)

Section Report.
Context {St} `{HS : HealthyStore St st g} `{EB : EdgeBatches St} {HB : HealthyBatches st g}.
Context `{AR : AggregateReads St} {HR : HealthyReads g st} `{U : UnicodeTables}.

Definition known (nodes : list Node) : Prop := forall n, n ∈ nodes -> gv_nodes g !! node_id n = Some n.

Lemma known_unique nodes n n' :
  known nodes -> n ∈ nodes -> n' ∈ nodes -> node_id n = node_id n' -> n = n'.
Proof. intros Hk Hn%Hk Hn'%Hk Heq. congruence. Qed.

(** The containers of the surviving rows. *)
Definition owners_of (nodes : list Node) (containers : gmap string Node) : Prop :=
  forall n c, n ∈ nodes -> containers !! node_id n = Some c <-> owner g n c.

Lemma containers_of_owners nodes :
  known nodes ->
  returns (containers_of st nodes) (fun m => owners_of nodes m /\ containers_right (g := g) m nodes).
Proof.
  intros Hk. eapply returns_mono; [apply containers_of_spec|]. intros m Hm. cbn beta in Hm. split.
  - intros n c Hn. rewrite Hm. unfold owner. split; [|intros (Hok & Hc); split; [by exists n|exact Hc]].
    intros ((n' & Hn' & Hid & Hok) & Hc). rewrite (known_unique nodes n n') by done. by split; [|rewrite Hid].
  - split; [by intros id c (_ & ? & _)%Hm|]. intros n c Hn Hok Hc Hkind. apply Hm. split; [by exists n|done].
Qed.

(** The rule of the graph, as its sets are defined. *)
Lemma graph_rule_spec dec containers over hooks unres amb n :
  graph_rule dec containers over hooks unres amb n = None <->
  node_id n ∉ dec
  /\ (forall c, containers !! node_id n = Some c -> is_declaration_container_kind (node_kind c) = false)
  /\ node_id n ∉ over /\ node_id n ∉ hooks /\ node_name n ∉ unres /\ node_name n ∉ amb.
Proof.
  unfold graph_rule. rewrite !rule_none, !bool_decide_eq_false.
  destruct (containers !! node_id n); naive_solver.
Qed.

Lemma unreachable_rule_spec files n :
  unreachable_rule files n = None <-> node_file_path n ∉ files.
Proof. unfold unreachable_rule. rewrite rule_none, bool_decide_eq_false. tauto. Qed.

(** The sets of the graph rules, on the rows they were computed for. *)
Lemma set_of_rows (P : Node -> Prop) (s : gset string) nodes n :
  known nodes -> (forall id, id ∈ s <-> exists n', n' ∈ nodes /\ node_id n' = id /\ P n') ->
  n ∈ nodes -> node_id n ∈ s <-> P n.
Proof.
  intros Hk Hs Hn. rewrite Hs. split; [|eauto]. intros (n' & Hn' & Hid & HP).
  by rewrite (known_unique nodes n n').
Qed.

Lemma overriding_owner containers over nodes n :
  known nodes -> owners_of nodes containers ->
  (forall id, id ∈ over <-> exists n c, n ∈ nodes /\ node_id n = id /\ containers !! id = Some c
      /\ may_override g (node_id c) (node_name n)) ->
  n ∈ nodes -> node_id n ∉ (over : gset string) <->
    forall c, containers !! node_id n = Some c -> ~ may_override g (node_id c) (node_name n).
Proof.
  intros Hk Hown Hover Hn. rewrite Hover. split.
  - intros Hno c Hc Hm. apply Hno. by exists n, c.
  - intros Hno (n' & c & Hn' & Hid & Hc & Hm). rewrite (known_unique nodes n' n) in Hm by done.
    by apply (Hno c).
Qed.

(** Whether a file has a dependent: the store lists them. *)
Lemma dependents_dec f : (exists f', file_depends g f' f) \/ forall f', ~ file_depends g f' f.
Proof.
  destruct (proj1 (returns_iff _ _) (healthy_dependent_file_paths g (st := st) f)) as (fs & _ & _ & Hfs).
  destruct fs as [|f' fs]; [right|left].
  - intros f' Hf'%Hfs. by apply not_elem_of_nil in Hf'.
  - exists f'. apply Hfs. left.
Qed.

(** The kept rows of the graph rules: dead in the graph, and no hook. *)
Lemma graph_rules_spec candidates surviving excluded :
  known surviving ->
  returns (graph_rules st candidates surviving excluded) (fun '(kept, containers, excluded') =>
    sublist kept surviving
    /\ total_excluded excluded' + length kept = total_excluded excluded + length surviving
    /\ owners_of surviving containers
    /\ forall n, n ∈ kept <-> n ∈ surviving /\ graph_dead g n /\ ~ hook_called g (fun d => d ∈ candidates) n).
Proof.
  intros Hk. unfold graph_rules.
  eapply returns_then; [apply carries_decorator_spec|]. intros dec Hdec. cbn beta in Hdec.
  eapply returns_then; [by apply containers_of_owners|]. intros containers [Hown Hcr].
  eapply returns_then; [apply override_candidates_spec|]. intros over Hover. cbn beta in Hover.
  eapply returns_then; [apply files_nothing_reaches_spec|]. intros files Hfiles. cbn beta in Hfiles.
  pose proof (apply_rule_spec (unreachable_rule files) surviving excluded) as H1.
  destruct (apply_rule _ surviving _) as [surviving1 excluded1]. destruct H1 as [H1 Hcount1].
  eapply returns_then; [apply (healthy_unresolved_names_among g)|]. intros unres Hunres. cbn beta in Hunres.
  eapply returns_then; [apply (healthy_ambiguous_referenced_names g)|]. intros amb Hamb. cbn beta in Hamb.
  cbn zeta. set (undecided := filter (fun n => node_id n ∉ dec /\ node_id n ∉ over) surviving1).
  assert (Hin1 : forall n, n ∈ surviving1 <-> n ∈ surviving /\ exists f, file_depends g f (node_file_path n)).
  { intros n. rewrite H1, list_elem_of_filter, unreachable_rule_spec, Hfiles. split.
    - intros [Hno Hn]. split; [done|]. destruct (dependents_dec (node_file_path n)); [done|].
      destruct Hno. eauto.
    - intros [Hn [f Hf]]. split; [|done]. intros [_ Hno]. by destruct (Hno f). }
  assert (Hund : forall n, n ∈ undecided <-> n ∈ surviving1 /\ node_id n ∉ dec /\ node_id n ∉ over)
    by (intros n; unfold undecided; rewrite list_elem_of_filter; tauto).
  eapply returns_then; [apply (by_name_hook_candidates_spec (g := g))|].
  { destruct Hcr as [Ht Ha]. split; [done|]. intros n c (Hn & _)%Hund. by apply Ha, Hin1. }
  intros hooks Hhooks. cbn beta in Hhooks. clearbody undecided.
  assert (Hhook : forall n, n ∈ undecided -> node_id n ∈ hooks <-> hook_called g (fun d => d ∈ candidates) n).
  { intros n Hn. rewrite Hhooks. split; [|eauto]. intros (n' & Hn' & Hid & Hh). rewrite (known_unique surviving n n'); [done|done|..|done].
    - by apply Hin1, Hund.
    - by apply Hin1, Hund. }
  pose proof (apply_rule_spec (graph_rule dec containers over hooks unres amb) surviving1 excluded1) as H2.
  destruct (apply_rule _ surviving1 _) as [kept excluded2]. destruct H2 as [H2 Hcount2]. cbn.
  assert (Hsub : sublist kept surviving) by (rewrite H2, H1; etrans; apply sublist_filter).
  split; [done|]. split; [lia|]. split; [done|].
  intros n. rewrite H2, list_elem_of_filter, graph_rule_spec, Hunres, Hamb, !list_elem_of_fmap.
  split.
  - intros ((Hd & Hdecl & Ho & Hh & Hu & Ha) & Hn1). pose proof Hn1 as [Hn Hf]%Hin1.
    split; [done|]. rewrite Hhook in Hh by (by apply Hund). split; [|done]. rewrite (set_of_rows _ _ _ _ Hk Hdec Hn) in Hd.
    rewrite (overriding_owner _ _ _ _ Hk Hown Hover Hn) in Ho. split; [done..| | |].
    + intros c Hc%(Hown n c Hn). auto.
    + intros Hne Hun. apply Hu. split; [by exists n|done].
    + intros Hne Hun. apply Ha. split; [by exists n|done].
  - intros (Hn & [Hf Hd Ho Hu Ha] & Hh). pose proof (proj2 (Hin1 n) (conj Hn Hf)) as Hn1.
    assert (Hd' : node_id n ∉ dec) by (by rewrite (set_of_rows _ _ _ _ Hk Hdec Hn)).
    assert (Ho' : node_id n ∉ over).
    { rewrite (overriding_owner _ _ _ _ Hk Hown Hover Hn). setoid_rewrite (Hown n _ Hn). intros c Hc. by apply Ho. }
    rewrite Hhook by (by apply Hund). setoid_rewrite (Hown n _ Hn). split; [|done]. split; [done|].
    split; [intros c Hc; by apply Ho|]. split; [done|]. split; [done|].
    split; intros (_ & Hne & Hx); [by apply Hu|by apply Ha].
Qed.

(** ** The text of the files *)

Lemma corroborate_spec read_source kept excluded (asked_for : string -> Prop) :
  (forall n f, n ∈ kept -> in_scope (file_depends g) n f -> asked_for f) ->
  returns (corroborate read_source st kept excluded)
    (corroborated read_source asked_for (file_depends g) kept excluded).
Proof.
  intros Hasked. unfold corroborate.
  apply returns_then with (P := fun scopes => scopes_ok (file_depends g) scopes
    /\ forall n, n ∈ kept -> is_Some (scopes !! node_file_path n)).
  - eapply (returns_for_M _ (fun pre scopes => scopes_ok (file_depends g) scopes
      /\ forall n, n ∈ pre -> is_Some (scopes !! node_file_path n))); [|  |done].
    { split; [intros f scope; by rewrite lookup_empty|set_solver]. }
    intros pre n post scopes _ [Hs Hall]. unfold add_scope. destruct (scopes !! node_file_path n) eqn:E.
    { cbn. split; [done|]. intros n' [?| ->%list_elem_of_singleton]%elem_of_app; [by apply Hall|by rewrite E]. }
    eapply returns_then; [apply (healthy_dependent_file_paths g)|]. intros deps [Hnd Hdeps]. cbn. split.
    + intros f scope [[<- <-]|[_ Hf]]%lookup_insert_Some; [|by apply Hs]. exists (sort_by str_le deps). split; [done|]. split.
      * apply NoDup_cons. split; [|by rewrite sort_by_perm]. rewrite elem_of_sort_by, Hdeps.
        intros (? & ? & ? & _ & _ & _ & _ & _ & _ & Hne). done.
      * intros f'. by rewrite elem_of_sort_by.
    + intros n' [?| ->%list_elem_of_singleton]%elem_of_app; [|by rewrite lookup_insert_eq].
      destruct (decide (node_file_path n' = node_file_path n)) as [->|]; [by rewrite lookup_insert_eq|].
      rewrite lookup_insert_ne by done. by apply Hall.
  - intros scopes [Hs Hall]. cbn. by apply corroborate_fold.
Qed.

(** ** The report *)

(** A row asked for to which nothing refers: a candidate, while there are no
    more of them than the cap. *)
Definition candidate (query : DeadCodeQuery) (n : Node) : Prop :=
  node_kind n ∈ normalize_kinds (dcq_kinds query) /\ unreferenced g n.

(** A framework calls the row by its name. *)
Definition framework_calls (query : DeadCodeQuery) (n : Node) : Prop := hook_called g (candidate query) n.

(** The candidates: every unreferenced row of the kinds, up to the cap. *)
Definition candidate_rows (query : DeadCodeQuery) (rows : list (Node * bool)) : Prop :=
  NoDup (map node_id (map fst rows))
  /\ forall n b, (n, b) ∈ rows ->
       node_kind n ∈ normalize_kinds (dcq_kinds query) /\ unreferenced g n
       /\ b = generated_file g (node_file_path n).

Lemma candidates_spec query :
  returns (unreferenced_nodes st (normalize_kinds (dcq_kinds query)) (MAX_DEAD_CODE_CANDIDATES + 1))
    (fun raw =>
      candidate_rows query (take (Z.to_nat MAX_DEAD_CODE_CANDIDATES) raw)
      /\ ((MAX_DEAD_CODE_CANDIDATES <? Z.of_nat (length raw))%Z = false -> forall n,
            node_kind n ∈ normalize_kinds (dcq_kinds query) -> unreferenced g n ->
            (n, generated_file g (node_file_path n)) ∈ take (Z.to_nat MAX_DEAD_CODE_CANDIDATES) raw)).
Proof.
  eapply returns_mono; [apply (healthy_unreferenced_nodes g)|].
  intros raw (all & -> & Hnd & _ & Hall). rewrite Z2Nat.inj_add by done.
  rewrite take_take. set (cap := Z.to_nat MAX_DEAD_CODE_CANDIDATES).
  replace (cap `min` (cap + Z.to_nat 1)) with cap by lia. split; [split|].
  - rewrite map_map. eapply sublist_NoDup; [exact Hnd|].
    change (map (fun p : Node * bool => node_id (fst p)))
      with (fmap (M := list) (fun p : Node * bool => node_id (fst p))).
    apply fmap_sublist, sublist_take.
  - intros n b Hn. apply Hall. by apply (elem_of_sublist (take cap all)), sublist_take.
  - intros Hb n Hk Hu. rewrite length_take in Hb. apply Z.ltb_ge in Hb.
    assert (Hlen : length all <= cap).
    { assert (Hcap : MAX_DEAD_CODE_CANDIDATES = Z.of_nat cap) by (subst cap; by rewrite Z2Nat.id).
      change (Z.to_nat 1) with 1 in Hb. lia. }
    rewrite take_ge by done. by apply Hall.
Qed.

Lemma Language_as_str_nonempty l : Language_as_str l <> "".
Proof. by destruct l. Qed.

Lemma languages_spec query (rows : list (Node * bool)) :
  returns (if dcq_include_exported query then Ok ∅
           else languages_with_exports st (map (fun p => Language_as_str (node_language (fst p))) rows))
    (fun languages => dcq_include_exported query = false -> forall p, p ∈ rows ->
       Language_as_str (node_language (fst p)) ∈ languages <->
       exists n', gv_nodes g !! node_id n' = Some n' /\ node_is_exported n' = true
         /\ node_language n' = node_language (fst p)).
Proof.
  destruct (dcq_include_exported query); [done|].
  eapply returns_mono; [apply (healthy_languages_with_exports g)|]. intros ls Hls _ p Hp. cbn beta in Hls.
  rewrite Hls. split.
  - intros (_ & _ & n' & ? & Hl & ?). exists n'. split; [done|]. split; [done|]. by apply Language_as_str_inj.
  - intros (n' & ? & ? & Hl). split; [by apply (list_elem_of_fmap_2 (fun p => Language_as_str (node_language (fst p))))|].
    split; [apply Language_as_str_nonempty|]. exists n'. by rewrite Hl.
Qed.

(** The rows that survive the cheap rules. *)
Lemma survivors_spec query languages rows :
  candidate_rows query rows ->
  (dcq_include_exported query = false -> forall p, p ∈ rows ->
     Language_as_str (node_language (fst p)) ∈ languages <->
     exists n', gv_nodes g !! node_id n' = Some n' /\ node_is_exported n' = true
       /\ node_language n' = node_language (fst p)) ->
  let '(surviving, excluded) :=
    apply_rule (fun p => cheap_rule query languages (fst p) (snd p)) rows no_exclusions in
  sublist surviving rows /\ total_excluded excluded + length surviving = length rows
  /\ forall p, p ∈ surviving <-> p ∈ rows /\ row_dead g query (fst p).
Proof.
  intros [_ Hrows] Hlang.
  pose proof (apply_rule_spec (fun p => cheap_rule query languages (fst p) (snd p)) rows no_exclusions) as H1.
  destruct (apply_rule _ _ _) as [surviving excluded]. destruct H1 as [-> Hcount].
  split; [apply sublist_filter|]. split; [done|]. intros [n b]. rewrite list_elem_of_filter. cbn.
  split; intros [H1 H2].
  - destruct (Hrows n b H2) as (_ & _ & ->). split; [done|].
    apply (cheap_rule_spec g query languages n); [|done]. intros Hq. exact (Hlang Hq _ H2).
  - destruct (Hrows n b H1) as (_ & _ & ->). split; [|done].
    apply (cheap_rule_spec g query languages n); [|done]. intros Hq. exact (Hlang Hq _ H1).
Qed.

(** What the reader of sources says of a confirmed row. *)
Definition text_agrees (query : DeadCodeQuery) (n : Node) : Prop :=
  forall read_source, dcq_read_source query = Some read_source ->
    exists files, text_counted read_source
      (fun f => exists m, dead g query m /\ in_scope (file_depends g) m f) (file_depends g) n files.

Lemma confirm_spec query kept excluded : (forall n, n ∈ kept -> dead g query n) ->
  returns (match dcq_read_source query with
           | Some read_source => corroborate read_source st kept excluded
           | None => Ok (kept, excluded)
           end)
    (fun '(confirmed, excluded') =>
       sublist confirmed kept
       /\ total_excluded excluded' + length confirmed = total_excluded excluded + length kept
       /\ (forall n, n ∈ confirmed -> text_agrees query n)
       /\ (dcq_read_source query = None -> confirmed = kept)).
Proof.
  intros Hdead. unfold text_agrees. destruct (dcq_read_source query) as [read_source|].
  - eapply returns_mono; [apply (corroborate_spec _ _ _ (fun f => exists m, dead g query m /\ in_scope (file_depends g) m f)); eauto|].
    intros [confirmed ex] [Hsub Hcount Hread].
    cbn in *. repeat (split; [done|]). split; [|done]. intros n Hn rs [= <-]. auto.
  - cbn. repeat (split; [done|]). done.
Qed.

(** The report: the confirmed rows, folded and ranked, and its counts. *)
Record report_of (query : DeadCodeQuery) (report : DeadCodeReport) (confirmed : list Node)
    (containers : gmap string Node) : Prop := {
  ro_ids : NoDup (map node_id confirmed);
  ro_known : known confirmed;
  ro_owners : owners_of confirmed containers;
  ro_dead n : n ∈ confirmed -> dead g query n /\ text_agrees query n;
  ro_hooks n : n ∈ confirmed -> dcr_bounded report = false -> ~ framework_calls query n;
  ro_entries : dcr_entries report =
    take (Nat.max (dcq_limit query) 1)
      (sort_by entry_order
         (map (fun n => sort_members (full_entry containers confirmed n)) (top_nodes containers confirmed)));
  ro_total : dcr_total report = length (top_nodes containers confirmed);
  ro_count : total_excluded (dcr_excluded report) + dcr_total report = dcr_candidates report;
  ro_complete : dcq_read_source query = None -> dcr_bounded report = false ->
    forall n, dead g query n -> ~ framework_calls query n -> n ∈ confirmed
}.

Lemma build_spec query :
  returns (build_dead_code_report st query) (fun report =>
    exists confirmed containers, report_of query report confirmed containers).
Proof.
  unfold build_dead_code_report. cbn zeta.
  eapply returns_then; [apply candidates_spec|]. intros raw [Hcand Hall].
  set (rows := take (Z.to_nat MAX_DEAD_CODE_CANDIDATES) raw) in *.
  eapply returns_then; [apply (languages_spec query rows)|]. intros languages Hlang.
  pose proof (survivors_spec query languages rows Hcand Hlang) as H1.
  destruct (apply_rule _ rows _) as [surviving excluded]. destruct H1 as (Hsub1 & Hcount1 & Hsurv).
  assert (Hk : known (map fst surviving)).
  { intros n ([n' b] & -> & Hn)%list_elem_of_fmap. apply Hsurv in Hn as [Hn _].
    by apply Hcand in Hn as (_ & [Hn _] & _). }
  eapply returns_then; [apply (graph_rules_spec _ _ excluded Hk)|].
  intros [[kept containers] excluded2] (Hsub2 & Hcount2 & Hown & Hkept).
  assert (Hin : forall n, n ∈ kept -> n ∈ map fst surviving /\ dead g query n).
  { intros n (Hs & Hgd & _)%Hkept. split; [done|]. apply list_elem_of_fmap in Hs as ([n' b] & -> & Hs).
    apply Hsurv in Hs as [Hs Hrd]. by apply Hcand in Hs as (? & ? & _). }
  eapply returns_then; [apply (confirm_spec query kept excluded2); intros n Hn; by apply Hin|].
  intros [confirmed excluded3] (Hsub3 & Hcount3 & Htext & Hnone).
  assert (Hsub : sublist confirmed (map fst rows)).
  { etrans; [exact Hsub3|]. etrans; [exact Hsub2|].
    change (map fst) with (fmap (M := list) (@fst Node bool)). by apply fmap_sublist. }
  assert (Hnd : NoDup (map node_id confirmed)).
  { eapply sublist_NoDup; [exact (proj1 Hcand)|]. change (map node_id) with (fmap (M := list) node_id).
    by apply fmap_sublist. }
  pose proof (rank_entries_spec containers confirmed Hnd excluded3) as H4.
  destruct (rank_entries _ _ _) as [ranked excluded4]. destruct H4 as [-> Hcount4].
  cbn. exists confirmed, containers.
  assert (Hc : forall n, n ∈ confirmed -> n ∈ kept) by (intros n Hn; by apply (elem_of_sublist _ _ _ Hn)).
  assert (Hcalls : (MAX_DEAD_CODE_CANDIDATES <? Z.of_nat (length raw))%Z = false ->
    forall n, framework_calls query n <-> hook_called g (fun d => d ∈ map fst rows) n).
  { intros Hb n. apply hook_called_rows. intros d. unfold candidate. split.
    - intros [Hkd Hu]. apply list_elem_of_fmap. exists (d, generated_file g (node_file_path d)). split; [done|]. by apply Hall.
    - intros ([d' b] & -> & Hd)%list_elem_of_fmap. by apply Hcand in Hd as (? & ? & _). }
  split; cbn.
  - done.
  - intros n Hn. by apply Hk, Hin, Hc.
  - intros n c Hn. by apply Hown, Hin, Hc.
  - intros n Hn. split; [by apply Hin, Hc|by apply Htext].
  - intros n Hn Hb. rewrite Hcalls by done. by apply Hkept, Hc.
  - done.
  - by rewrite length_sort_by, length_map.
  - rewrite length_sort_by, length_map in Hcount4. rewrite length_sort_by, !length_map in *. lia.
  - intros Hrs Hb n [Hkd Hu Hrd Hgd] Hnh. rewrite (Hnone Hrs). apply Hkept.
    split; [|split; [done|by rewrite <- Hcalls]].
    apply (list_elem_of_fmap_2 fst _ (n, generated_file g (node_file_path n))), Hsurv. auto.
Qed.

End Report.
