(* ===== verification/DeadCodeProps.v ===== *)
(** * Properties of the dead-code report *)
From S2P Require Import Prelude Strings Types Rows Db DbRefs DbFacts GraphStore StoreView Demo.
From S2P Require Import Hierarchy HierarchyFacts ViewerDb Utf8 ViewerReads Collation.
From S2P Require Import DeadCode DeadCodeGraph DeadCodeRules DeadCodeReport.

(** ** A small TypeScript project

    [src/a.ts] exports [shown], which [main] of [src/b.ts] calls; its function
    [orphan] and its class [Old], with the method [gone], are referred to by
    nothing; nor is [kept], which a reference of [src/b.ts] names, nor
    [hooked], which carries a decorator. *)

(** The Unicode tables, on ASCII. *)
Definition lower_char (c : Char) : Char := if ((65 <=? c) && (c <=? 90))%N then (c + 32)%N else c.

Fixpoint lower_string (s : string) : string :=
  match s with
  | EmptyString => EmptyString
  | String a s => String (ascii_of_N (lower_char (N_of_ascii a))) (lower_string s)
  end.

#[export] Instance AsciiTables : UnicodeTables := {|
  is_alphabetic c := (((65 <=? c) && (c <=? 90)) || ((97 <=? c) && (c <=? 122)))%N;
  is_numeric := is_ascii_digit;
  is_uppercase c := ((65 <=? c) && (c <=? 90))%N;
  char_to_lowercase := lower_char;
  str_to_lowercase := lower_string
|}.

Definition ts_node (id : string) (kind : NodeKind) (name file : string) (first last : Z)
    (exported : bool) (decorators : list string) : Node :=
  mkNode id kind name name file LangTypeScript first last 0 1 None None None exported false false false
    decorators [] None 0.

Definition ts_nodes : list Node :=
  [ts_node "file:src/a.ts" NkFile "a.ts" "src/a.ts" 1 60 false [];
   ts_node "function:shown" NkFunction "shown" "src/a.ts" 2 4 true [];
   ts_node "function:orphan" NkFunction "orphan" "src/a.ts" 6 8 false [];
   ts_node "class:Old" NkClass "Old" "src/a.ts" 10 30 false [];
   ts_node "method:gone" NkMethod "gone" "src/a.ts" 12 14 false [];
   ts_node "function:kept" NkFunction "kept" "src/a.ts" 40 41 false [];
   ts_node "function:hooked" NkFunction "hooked" "src/a.ts" 50 51 false ["Hook"];
   ts_node "function:main" NkFunction "main" "src/b.ts" 1 9 false []].

Definition ts_edges : list Edge :=
  [demo_edge "file:src/a.ts" "class:Old" EkContains None;
   demo_edge "class:Old" "method:gone" EkContains None;
   demo_edge "function:main" "function:shown" EkCalls (Some 2%Z)].

Definition ts_refs : list UnresolvedRef :=
  [mkUnresolvedRef None "function:main" "lib.kept" EkCalls 3 4 None "src/b.ts" LangTypeScript false None].

Definition ts_db1 : Db := ok_db (upsert_nodes empty_db ts_nodes).
Definition ts_db2 : Db := ok_db (insert_edges ts_db1 ts_edges).
Definition ts_db3 : Db := ok_db (insert_unresolved_refs ts_db2 ts_refs).
Definition ts_db : Db := fst (upsert_file ts_db3 (demo_file "src/a.ts")).
Definition ts_view : GraphView := view_of ts_db.

Lemma ts_reachable : rtc store_step empty_db ts_db.
Proof.
  apply (rtc_l _ _ ts_db1); [apply (step_upsert_nodes _ ts_nodes); by vm_compute|].
  apply (rtc_l _ _ ts_db2); [apply (step_insert_edges _ ts_edges); by vm_compute|].
  apply (rtc_l _ _ ts_db3); [apply (step_insert_refs _ ts_refs); by vm_compute|].
  apply (rtc_l _ _ ts_db); [apply step_upsert_file|apply rtc_refl].
Qed.

Lemma ts_wf : wf_db ts_db.
Proof.
  refine (rtc_ind_r wf_db empty_db wf_empty_db _ _ ts_reachable).
  intros d d' _ Hs Hd. by eapply store_step_wf.
Qed.

Lemma ts_flags : flags_ok ts_db.
Proof. apply (bool_decide_unpack _). by vm_compute. Qed.

#[export] Instance ts_healthy : HealthyStore ts_db ts_view.
Proof. exact (wf_db_healthy ts_db ts_wf). Qed.
#[export] Instance ts_batches : HealthyBatches ts_db ts_view.
Proof. exact (wf_db_batches ts_db ts_wf). Qed.
#[export] Instance ts_reads : HealthyReads ts_view ts_db.
Proof. exact (wf_db_reads ts_db ts_wf ts_flags). Qed.

(** The sources of the project. *)
Definition ts_source (file : string) : option string :=
  if String.eqb file "src/a.ts"
  then Some "export function shown() {} function orphan() {} class Old { gone() {} } function kept() {}"
  else if String.eqb file "src/b.ts" then Some "function main() { shown(); lib.kept(); }"
  else None.

Definition ts_query : DeadCodeQuery := mkDeadCodeQuery None false false false 200 (Some ts_source).

Definition report_ids (r : result SqlError DeadCodeReport) : option (list (string * list string)) :=
  match r with
  | Ok r => Some (map (fun e => (node_id (dce_node e), map node_id (dce_members e))) (dcr_entries r))
  | _ => None
  end.

Example ts_report :
  report_ids (build_dead_code_report ts_db ts_query)
  = Some [("class:Old", ["method:gone"]); ("function:orphan", [])].
Proof. by vm_compute. Qed.

(** ** A dependent file that is not read *)

(** [src/b.ts] now writes the name of the function as a string. *)
Definition naming_source (readable : bool) (file : string) : option string :=
  if String.eqb file "src/b.ts"
  then (if readable then Some "function main() { shown(); call('orphan'); }" else None)
  else ts_source file.

(** Read, it takes the row out; not read, it is passed over and the row stays,
    although a file that was skipped is documented to drop the row. *)
Example unread_dependent_keeps_row :
  report_ids (build_dead_code_report ts_db
    (mkDeadCodeQuery None false false false 200 (Some (naming_source true))))
  = Some [("class:Old", ["method:gone"])]
  /\ report_ids (build_dead_code_report ts_db
       (mkDeadCodeQuery None false false false 200 (Some (naming_source false))))
     = Some [("class:Old", ["method:gone"]); ("function:orphan", [])].
Proof. split; by vm_compute. Qed.

Lemma Sorted_take {A} (R : A -> A -> Prop) n l : Sorted R l -> Sorted R (take n l).
Proof.
  revert l. induction n as [|n IH]; intros l Hl; [constructor|]. destruct Hl as [|a l Hl Ha]; [constructor|].
  cbn. constructor; [by apply IH|]. destruct Ha; [by rewrite take_nil|]. by destruct n; constructor.
Qed.

Section Props.
Context {St} `{HS : HealthyStore St st g} `{EB : EdgeBatches St} {HB : HealthyBatches st g}.
Context `{AR : AggregateReads St} {HR : HealthyReads g st} `{U : UnicodeTables}.

Section Rows.
Variables (query : DeadCodeQuery) (report : DeadCodeReport) (confirmed : list Node)
  (containers : gmap string Node).
Hypothesis Hr : report_of (g := g) query report confirmed containers.

(** A row is folded exactly into its confirmed owner. *)
Lemma folded_into_owner n cid : n ∈ confirmed ->
  folded_into containers confirmed n = Some cid <->
  exists c, owner g n c /\ c ∈ confirmed /\ node_id c = cid.
Proof.
  intros Hn. unfold folded_into, kept_ids. split.
  - destruct (containers !! node_id n) as [c|] eqn:E; [|done]. apply (ro_owners _ _ _ _ Hr n c Hn) in E.
    case_decide as Hk; [|done]. intros [= <-]. exists c. split; [done|]. split; [|done].
    apply elem_of_list_to_set, list_elem_of_fmap in Hk as (c' & Hid & Hc').
    pose proof (ro_known _ _ _ _ Hr c' Hc') as Hg'. destruct E as (_ & (Hg & _) & _).
    assert (c = c') as -> by congruence. done.
  - intros (c & Ho & Hc & <-). rewrite (proj2 (ro_owners _ _ _ _ Hr n c Hn) Ho), decide_True; [done|].
    apply elem_of_list_to_set, list_elem_of_fmap. by exists c.
Qed.

Lemma elem_of_top n :
  n ∈ top_nodes containers confirmed <-> n ∈ confirmed /\ forall c, owner g n c -> c ∉ confirmed.
Proof.
  unfold top_nodes. rewrite list_elem_of_filter. split.
  - intros [Hf Hn]. split; [done|]. intros c Ho Hc.
    assert (Hs : folded_into containers confirmed n = Some (node_id c)) by (apply folded_into_owner; eauto).
    congruence.
  - intros [Hn Hno]. split; [|done]. destruct (folded_into _ _ n) as [cid|] eqn:E; [|done].
    apply folded_into_owner in E as (c & Ho & Hc & _); [|done]. by destruct (Hno c).
Qed.

(** An owner is not itself a member. *)
Lemma owner_top n c : owner g n c -> c ∈ confirmed -> c ∈ top_nodes containers confirmed.
Proof.
  intros (_ & _ & Hk) Hc. apply elem_of_top. split; [done|]. intros c' (Ho & _) _.
  by destruct (node_kind c).
Qed.

Lemma entry_of e : e ∈ dcr_entries report ->
  exists n, n ∈ top_nodes containers confirmed /\ e = sort_members (full_entry containers confirmed n).
Proof.
  rewrite (ro_entries _ _ _ _ Hr). intros (i & Hi & _)%elem_of_take.
  apply list_elem_of_lookup_2, elem_of_sort_by, list_elem_of_fmap in Hi as (n & -> & Hn). eauto.
Qed.

Lemma entry_members n m :
  m ∈ dce_members (sort_members (full_entry containers confirmed n)) <->
  m ∈ confirmed /\ exists c, owner g m c /\ c ∈ confirmed /\ node_id c = node_id n.
Proof.
  cbn. rewrite elem_of_sort_by, list_elem_of_filter. split; intros [H1 H2].
  - split; [done|]. by apply folded_into_owner.
  - split; [|done]. by apply folded_into_owner.
Qed.

Lemma NoDup_entries : NoDup (map (fun e => node_id (dce_node e)) (dcr_entries report)).
Proof.
  rewrite (ro_entries _ _ _ _ Hr). change (map (fun e => node_id (dce_node e)))
    with (fmap (M := list) (fun e => node_id (dce_node e))).
  eapply sublist_NoDup; [|apply fmap_sublist, sublist_take]. rewrite sort_by_perm.
  change (fmap (M := list) ?f ?l) with (map f l). rewrite map_map.
  exact (NoDup_top containers confirmed (ro_ids _ _ _ _ Hr)).
Qed.

Lemma NoDup_members n :
  NoDup (map node_id (dce_members (sort_members (full_entry containers confirmed n)))).
Proof.
  cbn. rewrite sort_by_perm. change (map node_id) with (fmap (M := list) node_id).
  eapply sublist_NoDup; [exact (ro_ids _ _ _ _ Hr)|]. apply fmap_sublist, sublist_filter.
Qed.

End Rows.

(** C40: Every row of the dead-code report is dead. An entry, and each member
    folded under the entry of its owner, is of a requested kind, has no incoming
    edge but containment or its own, lies in a file another file depends on, is
    not decorated, named by an unresolved or ambiguous reference, declared by an
    interface or able to override, and passes each rule on tests, exports,
    headers, generated, vendored and markup files; and where the candidates are
    under their cap, it is no hook that a framework calls by name. With a reader
    of sources, its own file was read and writes its name at most once, and so
    do, together, all the files that were read of those that depend on its file,
    where the name is an identifier. Those that were not are the ones the reader
    does not have, and those beyond the first six hundred files asked for: they
    are passed over, although the source documents that they drop the row
    ([unread_dependent_keeps_row]). *)
Theorem report_rows_dead query :
  returns (build_dead_code_report st query) (fun report =>
    forall e n, e ∈ dcr_entries report -> n = dce_node e \/ n ∈ dce_members e ->
      dead g query n /\ text_agrees (g := g) query n
      /\ (dcr_bounded report = false -> ~ framework_calls (g := g) query n)
      /\ (n ∈ dce_members e -> owner g n (dce_node e))).
Proof.
  eapply returns_mono; [apply build_spec|]. intros report (confirmed & containers & Hr) e n He Hn.
  destruct (entry_of _ _ _ _ Hr e He) as (c & [Hc _]%(elem_of_top _ _ _ _ Hr) & ->).
  pose proof (entry_members _ _ _ _ Hr c) as Hm.
  assert (Hin : n ∈ confirmed) by (destruct Hn as [->|[? _]%Hm]; done).
  destruct (ro_dead _ _ _ _ Hr n Hin) as [Hd Ht]. split; [done|]. split; [done|].
  split; [by apply (ro_hooks _ _ _ _ Hr)|]. intros (_ & o & Ho & Hoc & Hid)%Hm.
  cbn. by rewrite <- (known_unique confirmed o c (ro_known _ _ _ _ Hr) Hoc Hc Hid).
Qed.

(** The report accounts for every candidate: the exclusion counts and the
    total add up to the candidates, the entries are the first of the total up
    to the limit (at least one), largest first, no row appears twice, and an
    entry's lines and exported flag are its node's. *)
Theorem report_accounts query :
  returns (build_dead_code_report st query) (fun report =>
    total_excluded (dcr_excluded report) + dcr_total report = dcr_candidates report
    /\ length (dcr_entries report) = Nat.min (Nat.max (dcq_limit query) 1) (dcr_total report)
    /\ Sorted (fun a b => entry_order a b = true) (dcr_entries report)
    /\ NoDup (map (fun e => node_id (dce_node e)) (dcr_entries report))
    /\ forall e, e ∈ dcr_entries report ->
         dce_exported e = node_is_exported (dce_node e)
         /\ dce_lines e = Z.max (node_end_line (dce_node e) - node_start_line (dce_node e) + 1) 1
         /\ NoDup (map node_id (dce_members e))).
Proof.
  eapply returns_mono; [apply build_spec|]. intros report (confirmed & containers & Hr).
  split; [by apply (ro_count _ _ _ _ Hr)|].
  split; [by rewrite (ro_entries _ _ _ _ Hr), length_take, length_sort_by, length_map, (ro_total _ _ _ _ Hr)|].
  split; [rewrite (ro_entries _ _ _ _ Hr); apply Sorted_take, sort_by_sorted, entry_order_total|].
  split; [by apply (NoDup_entries query _ confirmed containers)|].
  intros e He. destruct (entry_of _ _ _ _ Hr e He) as (n & _ & ->).
  split; [done|]. split; [done|]. by apply (NoDup_members query report).
Qed.

(** Nothing dead is left out: without a reader of sources, when the
    candidates and the entries stay under their limits, every dead row that no
    framework calls by name is an entry, or a member of its owner's entry when
    that owner is dead too. *)
Theorem report_complete query :
  dcq_read_source query = None ->
  returns (build_dead_code_report st query) (fun report =>
    dcr_bounded report = false -> dcr_total report <= Nat.max (dcq_limit query) 1 ->
    forall n, dead g query n -> ~ framework_calls (g := g) query n ->
      exists e, e ∈ dcr_entries report /\ (dce_node e = n \/ (owner g n (dce_node e) /\ n ∈ dce_members e))).
Proof.
  intros Hsrc. eapply returns_mono; [apply build_spec|]. intros report (confirmed & containers & Hr) Hb Ht n Hd Hh.
  pose proof (ro_complete _ _ _ _ Hr Hsrc Hb n Hd Hh) as Hn.
  assert (Hin : forall c, c ∈ top_nodes containers confirmed ->
            sort_members (full_entry containers confirmed c) ∈ dcr_entries report).
  { intros c Hc. rewrite (ro_entries _ _ _ _ Hr), take_ge, elem_of_sort_by.
    - by apply (list_elem_of_fmap_2 (fun n => sort_members (full_entry containers confirmed n))).
    - rewrite length_sort_by, length_map. by rewrite <- (ro_total _ _ _ _ Hr). }
  destruct (folded_into containers confirmed n) as [cid|] eqn:E.
  - apply (folded_into_owner _ _ _ _ Hr n cid Hn) in E as (c & Ho & Hc & _).
    eexists. split; [apply Hin; by apply (owner_top _ _ _ _ Hr n c)|]. right. split; [exact Ho|].
    apply (entry_members _ _ _ _ Hr). split; [done|]. by exists c.
  - eexists. split; [apply Hin; unfold top_nodes; by apply list_elem_of_filter|]. by left.
Qed.

(** [ancestors_of] maps each node to exactly the ids it is an ancestor of:
    those, other than itself, that reach it by at most eight edges of the
    kinds; a node that none reaches has no entry. *)
Theorem ancestors_of_exact ids kinds :
  kinds <> [] -> NoDup ids ->
  returns (ancestors_of st ids kinds) (fun m =>
    (forall r x, r ∈ default ∅ (m !! x) <->
       r ∈ ids /\ x <> r /\ ball (kind_step (g := g) kinds) r MAX_OVERRIDE_ANCESTOR_DEPTH x)
    /\ forall x, m !! x <> Some ∅).
Proof. intros Hk Hnd. by apply (ancestors_of_spec (g := g) kinds ids). Qed.

End Props.

(** [mention_count] counts, up to its limit, the positions where the name
    is written as a whole identifier: the scan that jumps from match to match
    agrees with asking every position. *)
Theorem mention_count_exact `{UnicodeTables} source name stop_at :
  name <> [] -> Forall (fun x => is_identifier_char x = true) name ->
  mention_count source name stop_at = Nat.min stop_at (mentions name None source).
Proof. apply mention_count_spec. Qed.

(** ** On the project *)

Definition ts_dead_node : Node := ts_node "function:orphan" NkFunction "orphan" "src/a.ts" 6 8 false [].

Lemma ts_build : exists report, build_dead_code_report ts_db ts_query = Ok report /\ dcr_bounded report = false
  /\ map dce_node (dcr_entries report)
     = [ts_node "class:Old" NkClass "Old" "src/a.ts" 10 30 false []; ts_dead_node].
Proof.
  destruct (build_dead_code_report ts_db ts_query) as [report|e|] eqn:E.
  - exists report. split; [done|]. revert E. vm_compute. by intros [= <-].
  - exfalso. revert E. by vm_compute.
  - exfalso. revert E. by vm_compute.
Qed.

Lemma ts_entry : exists report e, build_dead_code_report ts_db ts_query = Ok report
  /\ e ∈ dcr_entries report /\ dcr_bounded report = false /\ dce_node e = ts_dead_node.
Proof.
  destruct ts_build as (report & E & Hb & Hd). exists report.
  destruct (dcr_entries report) as [|e1 [|e2 es]]; [discriminate Hd..|].
  injection Hd as _ He _. exists e2. split; [exact E|]. split; [right; left|]. split; [exact Hb|exact He].
Qed.

Lemma report_rows_dead_witness :
  dead ts_view ts_query ts_dead_node /\ text_agrees (g := ts_view) ts_query ts_dead_node
  /\ ~ framework_calls (g := ts_view) ts_query ts_dead_node.
Proof.
  pose proof (@report_rows_dead _ _ _ _ ts_healthy _ ts_batches _ ts_reads _ ts_query) as H.
  destruct ts_entry as (report & e & E & He & Hb & Hn). rewrite E in H. rewrite <- Hn.
  destruct (H e (dce_node e) He (or_introl eq_refl)) as (Hd & Ht & Hh & _). exact (conj Hd (conj Ht (Hh Hb))).
Defined.

Lemma report_accounts_witness : exists report, build_dead_code_report ts_db ts_query = Ok report
  /\ total_excluded (dcr_excluded report) + dcr_total report = dcr_candidates report.
Proof.
  pose proof (@report_accounts _ _ _ _ ts_healthy _ ts_batches _ ts_reads _ ts_query) as H.
  destruct ts_build as (report & E & _ & _). rewrite E in H. exists report. split; [exact E|exact (proj1 H)].
Defined.

Definition graph_query : DeadCodeQuery := mkDeadCodeQuery None false false false 200 None.

Lemma graph_build : exists report, build_dead_code_report ts_db graph_query = Ok report
  /\ dcr_bounded report = false /\ dcr_total report = 2.
Proof.
  destruct (build_dead_code_report ts_db graph_query) as [report|e|] eqn:E.
  - exists report. split; [done|]. revert E. vm_compute. by intros [= <-].
  - exfalso. revert E. by vm_compute.
  - exfalso. revert E. by vm_compute.
Qed.

Lemma report_complete_witness : exists report, build_dead_code_report ts_db graph_query = Ok report
  /\ forall n, dead ts_view graph_query n -> ~ framework_calls (g := ts_view) graph_query n ->
       exists e, e ∈ dcr_entries report
         /\ (dce_node e = n \/ (owner ts_view n (dce_node e) /\ n ∈ dce_members e)).
Proof.
  pose proof (@report_complete _ _ _ _ ts_healthy _ ts_batches _ ts_reads _ graph_query eq_refl) as H.
  destruct graph_build as (report & E & Hb & Ht). rewrite E in H. exists report. split; [exact E|].
  apply H; [exact Hb|]. rewrite Ht. apply Nat.leb_le. reflexivity.
Defined.

Lemma ts_ancestors : exists m, ancestors_of ts_db ["file:src/a.ts"] [EkContains] = Ok m
  /\ "file:src/a.ts" ∈ default ∅ (m !! "method:gone").
Proof.
  assert (Hc : match ancestors_of ts_db ["file:src/a.ts"] [EkContains] with
               | Ok m => bool_decide ("file:src/a.ts" ∈ default ∅ (m !! "method:gone"))
               | _ => false
               end = true) by (by vm_compute).
  destruct (ancestors_of ts_db ["file:src/a.ts"] [EkContains]) as [m|e|]; [|discriminate Hc..].
  exists m. split; [reflexivity|]. exact (proj1 (bool_decide_eq_true _) Hc).
Qed.

Lemma ancestors_of_exact_witness :
  ball (kind_step (g := ts_view) [EkContains]) "file:src/a.ts" MAX_OVERRIDE_ANCESTOR_DEPTH "method:gone".
Proof.
  pose proof (@ancestors_of_exact _ _ _ _ ts_healthy _ ts_batches ["file:src/a.ts"] [EkContains]
    ltac:(discriminate) (NoDup_singleton _)) as H.
  destruct ts_ancestors as (m & E & Hm). rewrite E in H.
  exact (proj2 (proj2 (proj1 (proj1 H _ _) Hm))).
Defined.

Lemma mention_count_exact_witness :
  mention_count (chars_of "run(run_all, x.run)") (chars_of "run") 5
  = Nat.min 5 (mentions (chars_of "run") None (chars_of "run(run_all, x.run)"))
  /\ mention_count (chars_of "run(run_all, x.run)") (chars_of "run") 5 = 2.
Proof.
  split; [|reflexivity]. apply mention_count_exact; [discriminate|].
  repeat constructor.
Defined.
