(* ===== verification/DaemonLock.v ===== *)
(** * The daemon lock
      (crates/codegraph-daemon/src/lock.rs; of lib.rs, [bind_with_fallback],
      [start_with_lock], [start_or_attach_gated]; of paths.rs, the socket paths)

    Each function is a program: a tree of the calls it makes, one node per call
    that reads or changes what processes share. Processes interleave these
    calls in any order, any call that can fail may fail, and a process may die
    between two calls. The checkpoints, which only tests observe, are left out;
    so is the startup gate, which takes another lock. *)
From S2P Require Import Prelude Strings StrOps Utf8 Collation.

Notation Pid := N (only parsing).

(** ** Text *)

(** [str::trim], and the text of characters. *)
Fixpoint drop_whitespace (s : list Char) : list Char :=
  match s with
  | [] => []
  | c :: s' => if is_whitespace c then drop_whitespace s' else s
  end.

Definition str_of_chars (s : list Char) : string :=
  String.string_of_list_ascii (map ascii_of_N (utf8 s)).

Definition str_trim (s : string) : string :=
  str_of_chars (rev (drop_whitespace (rev (drop_whitespace (chars_of s))))).

(** [str::parse::<u32>]: an optional plus, digits, no overflow. *)
Fixpoint parse_digits (acc : N) (s : string) : option N :=
  match s with
  | EmptyString => Some acc
  | String a s =>
      if byte_is_digit a
      then let acc := (acc * 10 + (N_of_ascii a - 48))%N in
           if (acc <? 2 ^ 32)%N then parse_digits acc s else None
      else None
  end.

Definition parse_u32 (s : string) : option N :=
  let digits := match s with String "+" rest => rest | _ => s end in
  match digits with EmptyString => None | _ => parse_digits 0 digits end.

(** ** The record *)

Record DaemonLockInfo : Set := mkDaemonLockInfo {
  dl_pid : N;
  dl_version : string;
  dl_socket_path : string;
  dl_started_at : N
}.

(** serde_json on the record. *)
Class LockJson := {
  to_string_pretty : DaemonLockInfo -> option string;
  from_str : string -> option DaemonLockInfo
}.

Section Codec.
Context `{LockJson}.

Definition newline : string := String (ascii_of_nat 10) "".

Definition encode_lock_info (info : DaemonLockInfo) : option string :=
  s ← to_string_pretty info; Some (s +:+ newline).

Definition decode_lock_info (raw : string) : option DaemonLockInfo :=
  let trimmed := str_trim raw in
  if String.eqb trimmed "" then None else
  match from_str trimmed with
  | Some info => Some info
  | None =>
      match parse_u32 trimmed with
      | Some pid => if (0 <? pid)%N then Some (mkDaemonLockInfo pid "unknown" "" 0) else None
      | None => None
      end
  end.

End Codec.

(** A record that was written is read back. *)
Class LockJsonLaws `{LockJson} : Prop := {
  lock_roundtrip : forall info s,
    encode_lock_info info = Some s -> str_trim s <> "" /\ decode_lock_info s = Some info
}.

(** ** Programs *)

Inductive ReadOut : Set := Content (raw : string) | NotFound | ReadError.
Inductive CreateOut : Set := Created | AlreadyExists | CreateError.
Inductive RenameOut : Set := Renamed | RenameError (transient : bool).
Inductive WriterOut : Set := WriterAcquired | WriterTaken | WriterError.

(** The calls. [Try] is a call that may fail and touches none of the shared
    state (resolving paths, creating the directory, building the runtime).
    [RemoveStale raw] and [RemoveOwn] both remove the pid file: the one after
    [raw] was found stale, the other after it was found to be the process's
    own. A temporary file is named by the process and its extension. *)
Inductive prog (A : Type) : Type :=
| Ret (a : A)
| Try (k : bool -> prog A)
| Now (k : N -> prog A)
| WriteTmp (ext content : string) (k : bool -> prog A)
| RemoveTmp (ext : string) (k : prog A)
| CreateNewPid (k : CreateOut -> prog A)
| ReadPid (k : ReadOut -> prog A)
| RenameTmp (ext : string) (k : RenameOut -> prog A)
| RemoveStale (raw : string) (k : bool -> prog A)
| RemoveOwn (k : prog A)
| IsAlive (pid : N) (k : bool -> prog A)
| SocketExists (path : string) (k : bool -> prog A)
| RemoveSocket (path : string) (k : prog A)
| Bind (path : string) (k : bool -> prog A)
| Connect (path : string) (k : bool -> prog A)
| AcquireWriter (k : WriterOut -> prog A)
| ReleaseWriter (k : prog A)
| Sleep (millis : N) (k : prog A)
| DropListener (path : string) (k : prog A)
| Serve (k : prog A).

Arguments Ret {A}. Arguments Try {A}. Arguments Now {A}. Arguments WriteTmp {A}.
Arguments RemoveTmp {A}. Arguments CreateNewPid {A}. Arguments ReadPid {A}.
Arguments RenameTmp {A}. Arguments RemoveStale {A}. Arguments RemoveOwn {A}.
Arguments IsAlive {A}. Arguments SocketExists {A}. Arguments RemoveSocket {A}. Arguments Bind {A}.
Arguments Connect {A}. Arguments AcquireWriter {A}. Arguments ReleaseWriter {A}.
Arguments Sleep {A}. Arguments DropListener {A}. Arguments Serve {A}.

Fixpoint prog_bind {A B} (m : prog A) (f : A -> prog B) : prog B :=
  match m with
  | Ret a => f a
  | Try k => Try (fun r => prog_bind (k r) f)
  | Now k => Now (fun r => prog_bind (k r) f)
  | WriteTmp ext content k => WriteTmp ext content (fun r => prog_bind (k r) f)
  | RemoveTmp ext k => RemoveTmp ext (prog_bind k f)
  | CreateNewPid k => CreateNewPid (fun r => prog_bind (k r) f)
  | ReadPid k => ReadPid (fun r => prog_bind (k r) f)
  | RenameTmp ext k => RenameTmp ext (fun r => prog_bind (k r) f)
  | RemoveStale raw k => RemoveStale raw (fun r => prog_bind (k r) f)
  | RemoveOwn k => RemoveOwn (prog_bind k f)
  | IsAlive pid k => IsAlive pid (fun r => prog_bind (k r) f)
  | SocketExists path k => SocketExists path (fun r => prog_bind (k r) f)
  | RemoveSocket path k => RemoveSocket path (prog_bind k f)
  | Bind path k => Bind path (fun r => prog_bind (k r) f)
  | Connect path k => Connect path (fun r => prog_bind (k r) f)
  | AcquireWriter k => AcquireWriter (fun r => prog_bind (k r) f)
  | ReleaseWriter k => ReleaseWriter (prog_bind k f)
  | Sleep millis k => Sleep millis (prog_bind k f)
  | DropListener path k => DropListener path (prog_bind k f)
  | Serve k => Serve (prog_bind k f)
  end.

Notation "'let*' x := m 'in' k" := (prog_bind m (fun x => k))
  (at level 200, x name, m at level 200, k at level 200).

(** ** The functions *)

Inductive LockError : Set :=
| ErrPaths | ErrCreateDir | ErrEncode | ErrWriteTmp | ErrClaim | ErrLostOwnership | ErrReplace
| ErrRead | ErrDecode | ErrBind | ErrRuntime | ErrWriter | ErrWriterTaken | ErrRunning | ErrNotCleared
| ErrRounds.

Inductive AcquireResult : Set :=
| Acquired (info : DaemonLockInfo)
| Taken (existing : option DaemonLockInfo).

Inductive ReadOutcome : Set := Missing | Unreadable | Empty | Raw (raw : string).

Definition EMPTY_RETRY_DELAY : N := 20.
Definition LOCK_REPLACE_RETRY_DELAYS_MS : list N := [25; 50; 100; 200; 400; 400; 400]%N.
Definition POSIX_SOCKET_PATH_LIMIT : nat := 100.

Section Functions.
Context `{LockJson}.

(** The process's id, its version, and the socket paths of the project: in the
    index root, and in the temporary directory. *)
Variables (me : Pid) (version in_root tmp_socket : string).

(** [daemon_socket_path], [daemon_socket_candidates]. *)
Definition daemon_socket_path : string :=
  if String.length in_root <=? POSIX_SOCKET_PATH_LIMIT then in_root else tmp_socket.

Definition daemon_socket_candidates : list string :=
  if (String.length in_root <=? POSIX_SOCKET_PATH_LIMIT) && negb (String.eqb in_root tmp_socket)
  then [in_root; tmp_socket] else [tmp_socket].

(** [replace_owned_lock]. *)
Fixpoint replace_loop (tmp expected : string) (delays : list N) : prog (option LockError) :=
  ReadPid (fun r =>
    let current := match r with Content raw => raw | _ => "" end in
    if negb (String.eqb current expected) then Ret (Some ErrLostOwnership) else
    RenameTmp tmp (fun o =>
      match o with
      | Renamed => Ret None
      | RenameError true =>
          match delays with
          | delay :: delays => Sleep delay (replace_loop tmp expected delays)
          | [] => Ret (Some ErrReplace)
          end
      | RenameError false => Ret (Some ErrReplace)
      end)).

Definition replace_owned_lock (tmp expected : string) : prog (option LockError) :=
  let* outcome := replace_loop tmp expected LOCK_REPLACE_RETRY_DELAYS_MS in
  RemoveTmp tmp (Ret outcome).

(** [read_pidfile_once], [read_pidfile_tolerant], [read_lock_info_tolerant]. *)
Definition read_pidfile_once : prog ReadOutcome :=
  ReadPid (fun r =>
    match r with
    | Content raw => Ret (if String.eqb (str_trim raw) "" then Empty else Raw raw)
    | NotFound => Ret Missing
    | ReadError => Ret Unreadable
    end).

Definition read_pidfile_tolerant : prog ReadOutcome :=
  let* r := read_pidfile_once in
  match r with
  | Empty => Sleep EMPTY_RETRY_DELAY read_pidfile_once
  | other => Ret other
  end.

Definition read_lock_info_tolerant : prog (option DaemonLockInfo) :=
  let* r := read_pidfile_tolerant in
  Ret (match r with Raw raw => decode_lock_info raw | _ => None end).

Definition try_acquire_daemon_lock : prog (AcquireResult + LockError) :=
  Try (fun pid_path => if negb pid_path then Ret (inr ErrPaths) else
  Try (fun dir => if negb dir then Ret (inr ErrPaths) else
  Try (fun created => if negb created then Ret (inr ErrCreateDir) else
  Try (fun socket => if negb socket then Ret (inr ErrPaths) else
  Now (fun started_at =>
  let info := mkDaemonLockInfo me version daemon_socket_path started_at in
  match encode_lock_info info with
  | None => Ret (inr ErrEncode)
  | Some payload =>
      WriteTmp "tmp" payload (fun written => if negb written then Ret (inr ErrWriteTmp) else
      CreateNewPid (fun opened =>
        match opened with
        | Created =>
            let* outcome := replace_owned_lock "tmp" "" in
            match outcome with
            | Some e => Ret (inr e)
            | None => Ret (inl (Acquired info))
            end
        | AlreadyExists =>
            RemoveTmp "tmp" (let* existing := read_lock_info_tolerant in Ret (inl (Taken existing)))
        | CreateError => RemoveTmp "tmp" (Ret (inr ErrClaim))
        end))
  end))))).

Definition rewrite_lock_socket_path (socket_path : string) : prog (option LockError) :=
  ReadPid (fun r =>
    match r with
    | Content raw =>
        match decode_lock_info raw with
        | None => Ret (Some ErrDecode)
        | Some info =>
            match encode_lock_info
                    (mkDaemonLockInfo (dl_pid info) (dl_version info) socket_path (dl_started_at info)) with
            | None => Ret (Some ErrEncode)
            | Some payload =>
                WriteTmp "bound" payload (fun written =>
                  if negb written then Ret (Some ErrWriteTmp) else replace_owned_lock "bound" raw)
            end
        end
    | _ => Ret (Some ErrRead)
    end).

Definition clear_stale_daemon_lock (expected_dead_pid : option Pid) : prog bool :=
  let* r := read_pidfile_tolerant in
  match r with
  | Missing => Ret true
  | Unreadable | Empty => Ret false
  | Raw raw =>
      match decode_lock_info raw with
      | Some info =>
          if match expected_dead_pid with Some pid => negb (pid =? dl_pid info)%N | None => false end
          then Ret false
          else if (0 <? dl_pid info)%N
          then IsAlive (dl_pid info) (fun alive => if alive then Ret false else RemoveStale raw Ret)
          else RemoveStale raw Ret
      | None => RemoveStale raw Ret
      end
  end.

Definition unlock_project : prog bool :=
  Try (fun pid_path => if pid_path then clear_stale_daemon_lock None else Ret false).

Definition record_names (pid : Pid) : prog bool :=
  let* info := read_lock_info_tolerant in
  Ret (match info with Some info => (dl_pid info =? pid)%N | None => false end).

Definition cleanup_owned_lock (pid : Pid) : prog bool :=
  let* owned := record_names pid in
  if owned then RemoveOwn (Ret true) else Ret false.

Definition cleanup_owned_rendezvous (socket_path : string) (pid : Pid) : prog bool :=
  let* owned := record_names pid in
  if negb owned then Ret false else RemoveSocket socket_path (cleanup_owned_lock pid).

Definition recorded_socket_path : prog (option string) :=
  Try (fun pid_path => if negb pid_path then Ret None else
  let* info := read_lock_info_tolerant in
  match info with
  | Some info => if negb (String.eqb (dl_socket_path info) "") then Ret (Some (dl_socket_path info))
                 else Try (fun socket => Ret (if socket then Some daemon_socket_path else None))
  | None => Try (fun socket => Ret (if socket then Some daemon_socket_path else None))
  end).

Definition clear_stale_daemon_socket : prog bool :=
  Try (fun pid_path => if negb pid_path then Ret false else
  let* recorded := recorded_socket_path in
  match recorded with
  | None => Ret false
  | Some socket_path =>
      let* cleared := clear_stale_daemon_lock None in
      if negb cleared then Ret false else
      let* claim := try_acquire_daemon_lock in
      match claim with
      | inl (Acquired info) => RemoveSocket socket_path (cleanup_owned_lock (dl_pid info))
      | inl (Taken _) => Ret false
      | inr _ => Ret false
      end
  end).

(** [socket_candidate_chain], [bind_with_fallback]. *)
Definition socket_candidate_chain (preferred : string) : list string :=
  fold_left (fun candidates c => if bool_decide (c ∈ candidates) then candidates else candidates ++ [c])
    daemon_socket_candidates [preferred].

Fixpoint bind_candidates (candidates : list string) : prog (option string) :=
  match candidates with
  | [] => Ret None
  | socket_path :: candidates =>
      let bind := Bind socket_path (fun bound =>
                    if bound then Ret (Some socket_path) else bind_candidates candidates) in
      SocketExists socket_path (fun exists_ =>
        if exists_ then RemoveSocket socket_path bind else bind)
  end.

Definition bind_with_fallback (preferred : string) : prog (option string) :=
  Try (fun paths => if negb paths then Ret None else bind_candidates (socket_candidate_chain preferred)).

(** [start_with_lock]; the daemon's threads serve until they stop, then remove
    the rendezvous. When the future of the accept loop ends, what it was given
    is dropped last to first: the writer lock is released, and the listener,
    which was given first, goes last. Dropped, it unlinks the path it was bound
    to, whatever is there by then: [interprocess] reclaims the names of its
    listeners unless told not to, and [bind_tokio] does not tell it. *)
Definition start_with_lock (socket_path : string) : prog (option LockError) :=
  Try (fun dir => if negb dir then Ret (Some ErrPaths) else
  Try (fun created => if negb created then Ret (Some ErrCreateDir) else
  AcquireWriter (fun w =>
    match w with
    | WriterError => Ret (Some ErrWriter)
    | WriterTaken => let* _ := cleanup_owned_rendezvous socket_path me in Ret (Some ErrWriterTaken)
    | WriterAcquired =>
        Try (fun identity => if negb identity then ReleaseWriter (Ret (Some ErrPaths)) else
        Try (fun runtime => if negb runtime then ReleaseWriter (Ret (Some ErrRuntime)) else
        let* bound := bind_with_fallback socket_path in
        match bound with
        | None => ReleaseWriter (Ret (Some ErrBind))
        | Some socket_path =>
            let* _ := rewrite_lock_socket_path socket_path in
            Serve (let* _ := cleanup_owned_rendezvous socket_path me in
                   ReleaseWriter (DropListener socket_path (Ret None)))
        end))
    end))).

(** [start_or_attach_gated], at most [rounds] times around; an attached client
    is [Ret None]. *)
Fixpoint start_or_attach (rounds : nat) : prog (option LockError) :=
  match rounds with
  | 0 => Ret (Some ErrRounds)
  | S rounds =>
      let* acquired := try_acquire_daemon_lock in
      match acquired with
      | inr e => Ret (Some e)
      | inl (Acquired info) => start_with_lock (dl_socket_path info)
      | inl (Taken (Some info)) =>
          Connect (dl_socket_path info) (fun attached =>
            if attached then Ret None else
            let* cleared := clear_stale_daemon_lock (Some (dl_pid info)) in
            if negb cleared then Ret (Some ErrRunning) else start_or_attach rounds)
      | inl (Taken None) =>
          let* cleared := clear_stale_daemon_lock None in
          if negb cleared then Ret (Some ErrNotCleared) else start_or_attach rounds
      end
  end.

(** What a process may do with the lock, one after another. *)
Inductive Call : Set := CallStart (rounds : nat) | CallHeal | CallUnlock.

Definition run_call (c : Call) : prog unit :=
  match c with
  | CallStart rounds => let* _ := start_or_attach rounds in Ret tt
  | CallHeal => let* _ := clear_stale_daemon_socket in Ret tt
  | CallUnlock => let* _ := unlock_project in Ret tt
  end.

Fixpoint run_calls (calls : list Call) : prog unit :=
  match calls with
  | [] => Ret tt
  | c :: calls => let* _ := run_call c in run_calls calls
  end.

End Functions.

(** ** What the processes share *)

(** The pid file, temporary files, sockets with the process that bound them,
    the writer lock's holder; the live processes, and the ids that are not
    given out again: those of dead processes, and those found not alive (a
    process id that comes back is not modelled). [claims] is not shared state:
    the processes that created the pid file and have not removed it. *)
Record World : Type := mkWorld {
  pidfile : option string;
  tmps : gmap (N * string) string;
  sockets : gmap string N;
  writer : option N;
  alive : gset N;
  retired : gset N;
  claims : gset N
}.

Definition set_pidfile (c : option string) (w : World) : World :=
  mkWorld c (tmps w) (sockets w) (writer w) (alive w) (retired w) (claims w).
Definition set_tmps (t : gmap (N * string) string) (w : World) : World :=
  mkWorld (pidfile w) t (sockets w) (writer w) (alive w) (retired w) (claims w).
Definition set_sockets (s : gmap string N) (w : World) : World :=
  mkWorld (pidfile w) (tmps w) s (writer w) (alive w) (retired w) (claims w).
Definition set_writer (o : option N) (w : World) : World :=
  mkWorld (pidfile w) (tmps w) (sockets w) o (alive w) (retired w) (claims w).
Definition set_retired (r : gset N) (w : World) : World :=
  mkWorld (pidfile w) (tmps w) (sockets w) (writer w) (alive w) r (claims w).
Definition set_claims (c : gset N) (w : World) : World :=
  mkWorld (pidfile w) (tmps w) (sockets w) (writer w) (alive w) (retired w) c.

(** How a call comes out: whether it works, whether a failure is transient,
    what a failed write leaves, what the clock says. *)
Record Choice : Type := mkChoice {
  c_ok : bool;
  c_transient : bool;
  c_partial : option string;
  c_time : N
}.

(** One call of the process [p]. *)
Definition exec {A} (c : Choice) (p : Pid) (m : prog A) (w : World) : option (prog A * World) :=
  match m with
  | Ret _ => None
  | Try k => Some (k (c_ok c), w)
  | Now k => Some (k (c_time c), w)
  | WriteTmp ext content k =>
      if c_ok c then Some (k true, set_tmps (<[(p, ext) := content]> (tmps w)) w)
      else Some (k false, match c_partial c with
                          | Some s => set_tmps (<[(p, ext) := s]> (tmps w)) w
                          | None => w
                          end)
  | RemoveTmp ext k => Some (k, if c_ok c then set_tmps (delete (p, ext) (tmps w)) w else w)
  | CreateNewPid k =>
      if negb (c_ok c) then Some (k CreateError, w) else
      match pidfile w with
      | Some _ => Some (k AlreadyExists, w)
      | None => Some (k Created, set_claims ({[p]} ∪ claims w) (set_pidfile (Some "") w))
      end
  | ReadPid k =>
      if negb (c_ok c) then Some (k ReadError, w) else
      match pidfile w with
      | Some raw => Some (k (Content raw), w)
      | None => Some (k NotFound, w)
      end
  | RenameTmp ext k =>
      if negb (c_ok c) then Some (k (RenameError (c_transient c)), w) else
      match tmps w !! (p, ext) with
      | Some s => Some (k Renamed, set_tmps (delete (p, ext) (tmps w)) (set_pidfile (Some s) w))
      | None => Some (k (RenameError false), w)
      end
  | RemoveStale _ k =>
      match pidfile w with
      | Some _ => if c_ok c then Some (k true, set_pidfile None w) else Some (k false, w)
      | None => Some (k false, w)
      end
  | RemoveOwn k =>
      match pidfile w with
      | Some _ => Some (k, if c_ok c then set_claims (claims w ∖ {[p]}) (set_pidfile None w) else w)
      | None => Some (k, w)
      end
  | IsAlive q k =>
      if decide (q ∈ alive w) then Some (k true, w)
      else Some (k false, set_retired ({[q]} ∪ retired w) w)
  | SocketExists path k =>
      Some (k (c_ok c && bool_decide (is_Some (sockets w !! path))), w)
  | RemoveSocket path k =>
      Some (k, if c_ok c then set_sockets (delete path (sockets w)) w else w)
  | Bind path k =>
      match sockets w !! path with
      | Some _ => Some (k false, w)
      | None => if c_ok c then Some (k true, set_sockets (<[path := p]> (sockets w)) w)
                else Some (k false, w)
      end
  | Connect path k =>
      Some (k (c_ok c && match sockets w !! path with
                         | Some q => bool_decide (q ∈ alive w)
                         | None => false
                         end), w)
  | AcquireWriter k =>
      if negb (c_ok c) then Some (k WriterError, w) else
      match writer w with
      | Some q => if decide (q ∈ alive w) then Some (k WriterTaken, w)
                  else Some (k WriterAcquired, set_writer (Some p) w)
      | None => Some (k WriterAcquired, set_writer (Some p) w)
      end
  | ReleaseWriter k => Some (k, if decide (writer w = Some p) then set_writer None w else w)
  | Sleep _ k => Some (k, w)
  | DropListener path k =>
      Some (k, if c_ok c then set_sockets (delete path (sockets w)) w else w)
  | Serve k => Some (k, w)
  end.

(** ** Interleavings *)

Record Config : Type := mkConfig { world : World; threads : gmap N (prog unit) }.

(** A process makes its next call, starts, or dies. *)
Inductive Event : Type :=
| Run (p : Pid) (c : Choice)
| Spawn (p : Pid) (calls : list Call)
| Die (p : Pid).

Section Interleaving.
Context `{LockJson} (version in_root tmp_socket : string).

Definition do_event (e : Event) (cfg : Config) : option Config :=
  let w := world cfg in
  match e with
  | Run p c =>
      m ← threads cfg !! p;
      '(m', w') ← exec c p m w;
      Some (mkConfig w' (<[p := m']> (threads cfg)))
  | Spawn p calls =>
      if decide (p <> 0%N /\ p ∉ alive w /\ p ∉ retired w)
      then Some (mkConfig (mkWorld (pidfile w) (tmps w) (sockets w) (writer w) ({[p]} ∪ alive w)
                             (retired w) (claims w))
                   (<[p := run_calls p version in_root tmp_socket calls]> (threads cfg)))
      else None
  | Die p =>
      if decide (p ∈ alive w)
      then Some (mkConfig (mkWorld (pidfile w) (tmps w) (sockets w) (writer w) (alive w ∖ {[p]})
                             ({[p]} ∪ retired w) (claims w))
                   (delete p (threads cfg)))
      else None
  end.

Definition initial : Config := mkConfig (mkWorld None ∅ ∅ None ∅ ∅ ∅) ∅.

Definition step (cfg cfg' : Config) : Prop := exists e, do_event e cfg = Some cfg'.

(** The compare-and-delete of a stale record is not split: what is removed is
    the record that was read. *)
Definition undivided (e : Event) (cfg : Config) : Prop :=
  match e with
  | Run p _ =>
      match threads cfg !! p with
      | Some (RemoveStale raw _) => pidfile (world cfg) = None \/ pidfile (world cfg) = Some raw
      | _ => True
      end
  | _ => True
  end.

Definition undivided_step (cfg cfg' : Config) : Prop :=
  exists e, undivided e cfg /\ do_event e cfg = Some cfg'.

(** A schedule, run. *)
Fixpoint run_schedule (es : list Event) (cfg : Config) : option Config :=
  match es with
  | [] => Some cfg
  | e :: es => cfg' ← do_event e cfg; run_schedule es cfg'
  end.

End Interleaving.
