(* ===== verification/DaemonLockFacts.v ===== *)
(** * Facts on the daemon lock

    A logic for one process: [wp] says what a program may call, by how far the
    process has got with the record. Every function of the lock obeys it, and
    a system whose processes obey it keeps the record's owner exclusive, as
    long as the compare-and-delete of a stale record is not split. *)
From S2P Require Import Prelude Strings DaemonLock.

(** ** One process *)

(** How far a process has got: it did not create the record; it created the
    file, still empty; the file holds a record of its own. *)
Inductive Phase : Set := Out | Claimed | Own.

#[export] Instance Phase_eq_dec : EqDecision Phase.
Proof. solve_decision. Defined.

(** What a process knows: its phase, ids it found dead, its temporary files. *)
Record Local : Type := mkLocal { ph : Phase; dead : gset N; own_tmp : string -> option string }.

Definition set_ph (x : Phase) (l : Local) : Local := mkLocal x (dead l) (own_tmp l).
Definition add_dead (q : N) (l : Local) : Local := mkLocal (ph l) ({[q]} ∪ dead l) (own_tmp l).
Definition set_tmp (ext : string) (c : option string) (l : Local) : Local :=
  mkLocal (ph l) (dead l) (fun e => if decide (e = ext) then c else own_tmp l e).

Section Logic.
Context `{LJ : LockJson} {LL : LockJsonLaws} (p : N).

(** The text of a record of the process. *)
Definition record_of (q : N) (raw : string) : Prop :=
  exists info, encode_lock_info info = Some raw /\ dl_pid info = q.

(** What reading the pid file can give in a phase. *)
Definition readable (x : Phase) (r : ReadOut) : Prop :=
  match r with
  | ReadError => True
  | NotFound => x = Out
  | Content raw =>
      match x with
      | Out => raw = "" \/ exists q, q <> p /\ record_of q raw
      | Claimed => raw = ""
      | Own => record_of p raw
      end
  end.

(** A text that may be removed as stale: no record, or one of a dead process. *)
Definition stale (l : Local) (raw : string) : Prop :=
  raw <> "" /\ forall info, decode_lock_info raw = Some info -> dl_pid info ∈ dead l \/ dl_pid info = 0%N.

Fixpoint wp {A} (m : prog A) (Q : A -> Local -> Prop) (l : Local) : Prop :=
  match m with
  | Ret a => Q a l
  | Try k => forall b, wp (k b) Q l
  | Now k => forall t, wp (k t) Q l
  | WriteTmp ext content k =>
      wp (k true) Q (set_tmp ext (Some content) l)
      /\ wp (k false) Q l /\ forall s, wp (k false) Q (set_tmp ext (Some s) l)
  | RemoveTmp ext k => wp k Q (set_tmp ext None l) /\ wp k Q l
  | CreateNewPid k =>
      (ph l = Out -> wp (k Created) Q (set_ph Claimed l))
      /\ wp (k AlreadyExists) Q l /\ wp (k CreateError) Q l
  | ReadPid k => forall r, readable (ph l) r -> wp (k r) Q l
  | RenameTmp ext k =>
      ph l <> Out
      /\ (exists s, own_tmp l ext = Some s /\ record_of p s)
      /\ wp (k Renamed) Q (set_tmp ext None (set_ph Own l))
      /\ forall b, wp (k (RenameError b)) Q l
  | RemoveStale raw k =>
      stale l raw /\ (ph l = Out -> wp (k true) Q l) /\ wp (k false) Q l
  | RemoveOwn k => ph l = Own /\ wp k Q (set_ph Out l) /\ wp k Q l
  | IsAlive q k => wp (k true) Q l /\ (q <> p -> wp (k false) Q (add_dead q l))
  | SocketExists _ k => forall b, wp (k b) Q l
  | RemoveSocket _ k => ph l = Own /\ wp k Q l
  | Bind _ k => ph l = Own /\ forall b, wp (k b) Q l
  | Connect _ k => forall b, wp (k b) Q l
  | AcquireWriter k => forall r, wp (k r) Q l
  | ReleaseWriter k => wp k Q l
  | Sleep _ k => wp k Q l
  | DropListener _ k => wp k Q l
  | Serve k => ph l = Own /\ wp k Q l
  end.

Lemma wp_mono {A} (m : prog A) (P Q : A -> Local -> Prop) l :
  wp m P l -> (forall a l', P a l' -> Q a l') -> wp m Q l.
Proof.
  intros Hm HPQ. revert l Hm. induction m; cbn; intros l Hm; try naive_solver.
Qed.

Lemma wp_bind {A B} (m : prog A) (f : A -> prog B) (Q : B -> Local -> Prop) l :
  wp m (fun a => wp (f a) Q) l -> wp (prog_bind m f) Q l.
Proof. revert l. induction m; cbn; intros l Hm; try naive_solver. Qed.

(** The rule for a call of a function. *)
Lemma wp_call {A B} (m : prog A) (f : A -> prog B) (P : A -> Local -> Prop) (Q : B -> Local -> Prop) l :
  wp m P l -> (forall a l', P a l' -> wp (f a) Q l') -> wp (prog_bind m f) Q l.
Proof. intros Hm Hf. apply wp_bind. by eapply wp_mono. Qed.

(** ** Reading *)

Definition outcome_ok (x : Phase) (r : ReadOutcome) : Prop :=
  match r with
  | Raw raw => readable x (Content raw) /\ str_trim raw <> ""
  | Missing => x = Out
  | Unreadable | Empty => True
  end.

(** What a decoded record can name in a phase. *)
Definition names_ok (x : Phase) (info : DaemonLockInfo) : Prop :=
  x = Own /\ dl_pid info = p \/ x = Out /\ dl_pid info <> p.

Lemma decode_empty : decode_lock_info "" = None.
Proof. reflexivity. Qed.

Lemma decode_record q raw info :
  record_of q raw -> decode_lock_info raw = Some info -> dl_pid info = q.
Proof.
  intros (i & He & Hq) Hd. destruct (lock_roundtrip i raw He) as [_ Hi]. by simplify_eq.
Qed.

Lemma readable_names x raw info :
  readable x (Content raw) -> decode_lock_info raw = Some info -> names_ok x info.
Proof.
  unfold names_ok. destruct x; cbn.
  - intros [-> | (q & Hq & Hr)] Hd; [by rewrite decode_empty in Hd|].
    right. by rewrite (decode_record q raw info Hr Hd).
  - intros -> Hd. by rewrite decode_empty in Hd.
  - intros Hr Hd. left. by rewrite (decode_record p raw info Hr Hd).
Qed.

Lemma wp_read_once (Q : ReadOutcome -> Local -> Prop) l :
  (forall r, outcome_ok (ph l) r -> Q r l) -> wp read_pidfile_once Q l.
Proof.
  intros HQ [raw| |] Hr; cbn; [|by apply HQ..].
  destruct (String.eqb_spec (str_trim raw) ""); by apply HQ.
Qed.

Lemma wp_read (Q : ReadOutcome -> Local -> Prop) l :
  (forall r, outcome_ok (ph l) r -> Q r l) -> wp read_pidfile_tolerant Q l.
Proof.
  intros HQ. apply wp_bind, wp_read_once. intros [] Hr; cbn; try by apply HQ.
  by apply wp_read_once.
Qed.

Lemma wp_read_info (Q : option DaemonLockInfo -> Local -> Prop) l :
  (forall o, (forall info, o = Some info -> names_ok (ph l) info) -> Q o l) ->
  wp read_lock_info_tolerant Q l.
Proof.
  intros HQ. apply wp_bind, wp_read. intros r Hr. cbn. apply HQ. intros info Hi.
  destruct r as [| | |raw]; try done. destruct Hr as [Hr _]. by eapply readable_names.
Qed.

Lemma wp_record_names (Q : bool -> Local -> Prop) l :
  (forall b, (b = true -> ph l = Own) -> Q b l) -> wp (record_names p) Q l.
Proof.
  intros HQ. apply wp_bind, wp_read_info. intros o Ho. cbn. apply HQ.
  destruct o as [info|]; [|done]. intros Hp%N.eqb_eq.
  destruct (Ho info eq_refl) as [[? _]|[_ Hn]]; [done|congruence].
Qed.

(** ** Writing *)

Lemma wp_replace_loop tmp expected delays (Q : option LockError -> Local -> Prop) l s :
  ph l <> Out -> own_tmp l tmp = Some s -> record_of p s ->
  Q None (set_tmp tmp None (set_ph Own l)) -> (forall e, Q (Some e) l) ->
  wp (replace_loop tmp expected delays) Q l.
Proof.
  intros Hph Ht Hs HN HE. induction delays as [|d delays IH]; cbn; intros r _.
  all: destruct (String.eqb _ _); cbn; [|by apply HE].
  all: split_and!; [done|by eauto|done|]; intros []; cbn; by eauto.
Qed.

Lemma wp_replace tmp expected (Q : option LockError -> Local -> Prop) l s :
  ph l <> Out -> own_tmp l tmp = Some s -> record_of p s ->
  (forall l', ph l' = Own -> Q None l') -> (forall e l', ph l' = ph l -> Q (Some e) l') ->
  wp (replace_owned_lock tmp expected) Q l.
Proof.
  intros Hph Ht Hs HN HE. apply wp_bind.
  eapply wp_replace_loop; [done..| |]; cbn; [by auto|]. intros e. split; by apply HE.
Qed.

Lemma wp_clear_stale expected (Q : bool -> Local -> Prop) l :
  (forall b l', ph l' = ph l -> Q b l') -> wp (clear_stale_daemon_lock expected) Q l.
Proof.
  intros HQ. apply wp_bind, wp_read. intros [| | |raw] Hr; cbn; try by apply HQ.
  destruct Hr as [Hr Hne]. assert (raw <> "") by (intros ->; done).
  destruct (decode_lock_info raw) as [info|] eqn:Hd; cbn.
  - destruct (match expected with Some pid => _ | None => false end); cbn; [by apply HQ|].
    destruct (N.ltb_spec 0 (dl_pid info)) as [Hp|Hp]; cbn.
    + split; [by apply HQ|]. intros _. split_and!; [split; [done|]|by auto..].
      intros i Hi. simplify_eq. left. cbn. set_solver.
    + split_and!; [split; [done|]|by auto..]. intros i Hi. simplify_eq. right. lia.
  - split_and!; [split; [done|]|by auto..]. intros i Hi. congruence.
Qed.

(** ** The functions *)

Section Functions.
Variables version in_root tmp_socket : string.

#[local] Arguments replace_owned_lock : simpl never.
#[local] Arguments read_lock_info_tolerant : simpl never.
#[local] Arguments clear_stale_daemon_lock : simpl never.
#[local] Arguments try_acquire_daemon_lock : simpl never.
#[local] Arguments rewrite_lock_socket_path : simpl never.
#[local] Arguments cleanup_owned_lock : simpl never.
#[local] Arguments cleanup_owned_rendezvous : simpl never.
#[local] Arguments recorded_socket_path : simpl never.
#[local] Arguments start_with_lock : simpl never.
#[local] Arguments bind_with_fallback : simpl never.

Lemma wp_try_acquire (Q : AcquireResult + LockError -> Local -> Prop) l :
  (forall r l', (forall info, r = inl (Acquired info) -> ph l' = Own /\ dl_pid info = p) -> Q r l') ->
  wp (try_acquire_daemon_lock p version in_root tmp_socket) Q l.
Proof.
  intros HQ. unfold try_acquire_daemon_lock.
  do 4 (cbn; intros []; cbn; [|by apply HQ]). intros t.
  destruct (encode_lock_info _) as [payload|] eqn:He; cbn; [|by apply HQ].
  split; [|split; [by apply HQ|by intros; apply HQ]]. split; [|split].
  - intros _. apply wp_bind. eapply (wp_replace "tmp" "" _ _ payload); [done|done| | |].
    + by eexists.
    + intros l' Hl'. apply HQ. by intros info [= <-].
    + intros e l' _. by apply HQ.
  - split; apply wp_bind, wp_read_info; intros o _; by apply HQ.
  - split; by apply HQ.
Qed.

Lemma wp_rewrite socket_path (Q : option LockError -> Local -> Prop) l :
  ph l = Own -> (forall o l', ph l' = Own -> Q o l') -> wp (rewrite_lock_socket_path socket_path) Q l.
Proof.
  intros Hph HQ [raw| |] Hr; cbn; [|by apply HQ..].
  destruct (decode_lock_info raw) as [info|] eqn:Hd; cbn; [|by apply HQ].
  destruct (encode_lock_info _) as [payload|] eqn:He; cbn; [|by apply HQ].
  split_and!; [|by apply HQ|by intros; apply HQ].
  eapply (wp_replace "bound" raw _ _ payload); cbn; [congruence| | |by auto|].
  - by rewrite decide_True.
  - eexists. split; [done|]. cbn. rewrite Hph in Hr. by eapply decode_record.
  - intros e l' Hl'. apply HQ. congruence.
Qed.

Lemma wp_cleanup_lock (Q : bool -> Local -> Prop) l :
  (forall b l', Q b l') -> wp (cleanup_owned_lock p) Q l.
Proof.
  intros HQ. apply wp_bind, wp_record_names. intros [] Hb; cbn; [|by apply HQ].
  split_and!; by auto.
Qed.

Lemma wp_cleanup_rendezvous socket_path (Q : bool -> Local -> Prop) l :
  (forall b l', Q b l') -> wp (cleanup_owned_rendezvous socket_path p) Q l.
Proof.
  intros HQ. apply wp_bind, wp_record_names. intros [] Hb; cbn; [|by apply HQ].
  split; [by auto|]. by apply wp_cleanup_lock.
Qed.

Lemma wp_recorded (Q : option string -> Local -> Prop) l :
  (forall o, Q o l) -> wp (recorded_socket_path in_root tmp_socket) Q l.
Proof.
  intros HQ []; cbn; [|by apply HQ]. apply wp_bind, wp_read_info. intros [info|] _; cbn.
  - destruct (negb _); cbn; [by apply HQ|]. intros b. by apply HQ.
  - intros b. by apply HQ.
Qed.

Lemma wp_clear_socket (Q : bool -> Local -> Prop) l :
  (forall b l', Q b l') -> wp (clear_stale_daemon_socket p version in_root tmp_socket) Q l.
Proof.
  intros HQ []; cbn; [|by apply HQ]. apply wp_bind, wp_recorded. intros [path|]; cbn; [|by apply HQ].
  apply wp_bind, wp_clear_stale. intros [] l1 _; cbn; [|by apply HQ].
  apply wp_bind, wp_try_acquire. intros [[info|o]|e] l2 Hr; cbn; [|by apply HQ..].
  destruct (Hr info eq_refl) as [Hph Hp]. split; [done|]. rewrite Hp. by apply wp_cleanup_lock.
Qed.

Lemma wp_unlock (Q : bool -> Local -> Prop) l : (forall b l', Q b l') -> wp unlock_project Q l.
Proof. intros HQ []; cbn; [|by apply HQ]. apply wp_clear_stale. by auto. Qed.

Lemma wp_bind_candidates candidates (Q : option string -> Local -> Prop) l :
  ph l = Own -> (forall o, Q o l) -> wp (bind_candidates candidates) Q l.
Proof.
  intros Hph HQ. induction candidates as [|path candidates IH]; cbn; [by apply HQ|].
  intros []; cbn; repeat (split; [done|]); intros [|]; cbn; solve [apply HQ | apply IH].
Qed.

Lemma wp_bind_fallback preferred (Q : option string -> Local -> Prop) l :
  ph l = Own -> (forall o, Q o l) -> wp (bind_with_fallback in_root tmp_socket preferred) Q l.
Proof. intros Hph HQ []; [by apply wp_bind_candidates|by apply HQ]. Qed.

Lemma wp_start socket_path (Q : option LockError -> Local -> Prop) l :
  ph l = Own -> (forall o l', Q o l') ->
  wp (start_with_lock p in_root tmp_socket socket_path) Q l.
Proof.
  intros Hph HQ. unfold start_with_lock.
  do 2 (cbn; intros []; cbn; [|by apply HQ]). intros []; cbn.
  - do 2 (cbn; intros []; cbn; [|by apply HQ]). apply wp_bind, wp_bind_fallback; [done|].
    intros [path|]; cbn; [|by apply HQ].
    apply wp_bind, wp_rewrite; [done|]. intros _ l1 Hl1. cbn.
    split; [done|]. apply wp_bind, wp_cleanup_rendezvous. by intros; apply HQ.
  - apply wp_bind, wp_cleanup_rendezvous. by intros; apply HQ.
  - by apply HQ.
Qed.

Lemma wp_start_or_attach rounds (Q : option LockError -> Local -> Prop) l :
  (forall o l', Q o l') -> wp (start_or_attach p version in_root tmp_socket rounds) Q l.
Proof.
  intros HQ. revert l. induction rounds as [|rounds IH]; cbn; intros l; [by apply HQ|].
  apply wp_bind, wp_try_acquire. intros [[info|[info|]]|e] l1 Hr; cbn.
  - destruct (Hr info eq_refl) as [Hph _]. by apply wp_start.
  - intros []; [by apply HQ|]. apply wp_bind, wp_clear_stale. intros [] l2 _; cbn; by auto.
  - apply wp_bind, wp_clear_stale. intros [] l2 _; cbn; by auto.
  - by apply HQ.
Qed.

(** Every process obeys the logic, whatever it is asked to do. *)
Lemma wp_run_calls calls l :
  wp (run_calls p version in_root tmp_socket calls) (fun _ _ => True) l.
Proof.
  revert l. induction calls as [|c calls IH]; intros l; cbn; [done|]. apply wp_bind.
  destruct c; apply wp_bind;
    [apply wp_start_or_attach|apply wp_clear_socket|apply wp_unlock]; intros; apply IH.
Qed.

End Functions.

End Logic.

(** ** The invariant of the daemon lock

    The processes of a configuration each obey the logic of DaemonLockFacts
    with what they know; [world_ok] ties what they know to what they share.
    Every call keeps it, provided the compare-and-delete is not split. *)

Definition upd (p : N) (l : Local) (L : N -> Local) : N -> Local :=
  fun q => if decide (q = p) then l else L q.

Lemma upd_eq p l L : upd p l L p = l.
Proof. unfold upd. by rewrite decide_True. Qed.

Lemma upd_ne p l L q : q <> p -> upd p l L q = L q.
Proof. intros. unfold upd. by rewrite decide_False. Qed.

Section Invariant.
Context `{LJ : LockJson} {LL : LockJsonLaws}.

Record world_ok (L : N -> Local) (w : World) : Prop := {
  ok_claims : forall p, p ∈ alive w -> (p ∈ claims w <-> ph (L p) <> Out);
  ok_claimed : forall p, p ∈ alive w -> ph (L p) = Claimed -> pidfile w = Some "";
  ok_own : forall p, p ∈ alive w -> ph (L p) = Own ->
    exists raw, pidfile w = Some raw /\ record_of p raw;
  ok_one : forall p q, p ∈ alive w -> q ∈ alive w -> ph (L p) <> Out -> ph (L q) <> Out -> p = q;
  ok_content : forall raw, pidfile w = Some raw ->
    raw = "" \/ exists q, q ∈ claims w /\ record_of q raw;
  ok_dead : forall p q, p ∈ alive w -> q ∈ dead (L p) -> q ∈ retired w;
  ok_retired : forall p, p ∈ alive w -> p <> 0%N /\ p ∉ retired w;
  ok_known : forall p, p ∈ claims w -> p ∈ alive w \/ p ∈ retired w;
  ok_tmps : forall p e, p ∈ alive w -> own_tmp (L p) e = tmps w !! (p, e)
}.

Lemma record_nonempty q raw : record_of q raw -> raw <> "".
Proof. intros (i & Hi & _) ->. by destruct (lock_roundtrip i "" Hi). Qed.

(** Who finds what in the pid file. *)
Lemma ok_readable L w p raw :
  world_ok L w -> p ∈ alive w -> pidfile w = Some raw -> readable p (ph (L p)) (Content raw).
Proof.
  intros Hok Hp Hraw. destruct (ph (L p)) eqn:Hph; cbn.
  - destruct (ok_content _ _ Hok raw Hraw) as [->|(q & Hq & Hr)]; [by left|right].
    exists q. split; [|done]. intros ->. by apply (ok_claims _ _ Hok) in Hq.
  - rewrite (ok_claimed _ _ Hok p Hp Hph) in Hraw. congruence.
  - destruct (ok_own _ _ Hok p Hp Hph) as (raw' & Hr & ?). by simplify_eq.
Qed.

Lemma ok_file L w p : world_ok L w -> p ∈ alive w -> ph (L p) <> Out -> is_Some (pidfile w).
Proof.
  intros Hok Hp Hph. destruct (ph (L p)) eqn:Hl; [done| |].
  - by rewrite (ok_claimed _ _ Hok p).
  - destruct (ok_own _ _ Hok p Hp Hl) as (? & -> & _). by eexists.
Qed.

(** ** A change of what one process knows *)

(** Only the values of what they know matter. *)
#[local] Instance world_ok_proper :
  Proper (pointwise_relation N eq ==> eq ==> impl) world_ok.
Proof.
  intros L L' HL w ? <- Hok. destruct Hok. constructor; intros *; rewrite <-?HL; eauto.
Qed.

Lemma upd_same p L : pointwise_relation N eq L (upd p (L p) L).
Proof. intros q. unfold upd. by destruct (decide (q = p)) as [->|]. Qed.

Lemma upd_upd p l l' L : pointwise_relation N eq (upd p l (upd p l' L)) (upd p l L).
Proof. intros q. unfold upd. by destruct (decide (q = p)). Qed.

Lemma ok_same L w p : world_ok L w -> world_ok (upd p (L p) L) w.
Proof. intros Hok. by rewrite <-upd_same. Qed.

Lemma ok_set_tmp L w p ext c t :
  world_ok L w -> p ∈ alive w ->
  t !! (p, ext) = c -> (forall k, k <> (p, ext) -> t !! k = tmps w !! k) ->
  world_ok (upd p (set_tmp ext c (L p)) L) (set_tmps t w).
Proof.
  intros Hok Hp Hc Ht.
  assert (Hph : forall q, ph (upd p (set_tmp ext c (L p)) L q) = ph (L q)).
  { intros q. unfold upd. by destruct (decide (q = p)) as [->|]. }
  assert (Hd : forall q, dead (upd p (set_tmp ext c (L p)) L q) = dead (L q)).
  { intros q. unfold upd. by destruct (decide (q = p)) as [->|]. }
  destruct Hok. constructor; cbn; intros *; rewrite ?Hph, ?Hd; eauto.
  intros Hq. unfold upd. destruct (decide (p0 = p)) as [->|]; cbn.
  - destruct (decide (e = ext)) as [->|]; [done|]. rewrite Ht; [by auto|congruence].
  - rewrite Ht; [by auto|congruence].
Qed.

Lemma ok_add_dead L w p q :
  world_ok L w -> q ∉ alive w ->
  world_ok (upd p (add_dead q (L p)) L) (set_retired ({[q]} ∪ retired w) w).
Proof.
  intros Hok Hq.
  assert (Hph : forall r, ph (upd p (add_dead q (L p)) L r) = ph (L r)).
  { intros r. unfold upd. by destruct (decide (r = p)) as [->|]. }
  assert (Ht : forall r e, own_tmp (upd p (add_dead q (L p)) L r) e = own_tmp (L r) e).
  { intros r e. unfold upd. by destruct (decide (r = p)) as [->|]. }
  destruct Hok. constructor; cbn; intros *; rewrite ?Hph, ?Ht; eauto.
  - intros Hr. unfold upd. destruct (decide (p0 = p)) as [->|]; cbn; [|by set_solver].
    rewrite !elem_of_union, elem_of_singleton. intros [->|?]; [by left|right]. by eapply ok_dead0.
  - intros Hr. destruct (ok_retired0 _ Hr) as [? ?]. split; [done|].
    rewrite elem_of_union, elem_of_singleton. by intros [->|?].
  - intros [?|?]%ok_known0; [by left|right]. rewrite elem_of_union. by right.
Qed.

(** The phases change. *)
Lemma ok_create L w p :
  world_ok L w -> p ∈ alive w -> pidfile w = None ->
  ph (L p) = Out /\
  world_ok (upd p (set_ph Claimed (L p)) L) (set_claims ({[p]} ∪ claims w) (set_pidfile (Some "") w)).
Proof.
  intros Hok Hp Hn.
  assert (Hout : forall q, q ∈ alive w -> ph (L q) = Out).
  { intros q Hq. destruct (decide (ph (L q) = Out)) as [|Hne]; [done|].
    destruct (ok_file L w q Hok Hq Hne). congruence. }
  split; [by apply Hout|]. destruct Hok. constructor; cbn.
  - intros q Hq. unfold upd. rewrite elem_of_union, elem_of_singleton.
    destruct (decide (q = p)) as [->|]; cbn; [naive_solver|]. rewrite ok_claims0 by done. tauto.
  - done.
  - intros q Hq. unfold upd. destruct (decide (q = p)); cbn; [done|]. by rewrite Hout.
  - intros q r Hq Hr. unfold upd. repeat destruct (decide _); cbn; subst; try done;
      rewrite ?Hout by done; done.
  - intros raw [= <-]. by left.
  - intros q r Hq. unfold upd. destruct (decide (q = p)) as [->|]; cbn; by eauto.
  - done.
  - intros q. rewrite elem_of_union, elem_of_singleton. intros [->|?]; [by left|by auto].
  - intros q e Hq. unfold upd. destruct (decide (q = p)) as [->|]; cbn; by auto.
Qed.

Lemma ok_rename L w p s :
  world_ok L w -> p ∈ alive w -> ph (L p) <> Out -> record_of p s ->
  world_ok (upd p (set_ph Own (L p)) L) (set_pidfile (Some s) w).
Proof.
  intros Hok Hp Hph Hs.
  assert (Hone : forall q, q ∈ alive w -> q <> p -> ph (L q) = Out).
  { intros q Hq Hne. destruct (decide (ph (L q) = Out)) as [|Ho]; [done|].
    by destruct (Hne (ok_one L w Hok q p Hq Hp Ho Hph)). }
  destruct Hok. constructor; cbn.
  - intros q Hq. unfold upd. destruct (decide (q = p)) as [->|]; cbn; [|by auto].
    rewrite ok_claims0 by done. by split.
  - intros q Hq. unfold upd. destruct (decide (q = p)); cbn; [done|]. by rewrite Hone.
  - intros q Hq. unfold upd. destruct (decide (q = p)) as [->|]; cbn; [by eauto|]. by rewrite Hone.
  - intros q r Hq Hr. unfold upd. repeat destruct (decide _); cbn; subst; try done;
      rewrite ?Hone by done; done.
  - intros raw [= <-]. right. exists p. split; [by apply ok_claims0|done].
  - intros q r Hq. unfold upd. destruct (decide (q = p)) as [->|]; cbn; by eauto.
  - done.
  - done.
  - intros q e Hq. unfold upd. destruct (decide (q = p)) as [->|]; cbn; by auto.
Qed.

Lemma ok_remove_own L w p :
  world_ok L w -> p ∈ alive w -> ph (L p) = Own ->
  world_ok (upd p (set_ph Out (L p)) L) (set_claims (claims w ∖ {[p]}) (set_pidfile None w)).
Proof.
  intros Hok Hp Hph.
  assert (Hone : forall q, q ∈ alive w -> q <> p -> ph (L q) = Out).
  { intros q Hq Hne. destruct (decide (ph (L q) = Out)) as [|Ho]; [done|].
    destruct (Hne (ok_one L w Hok q p Hq Hp Ho ltac:(congruence))). }
  assert (Hall : forall q, q ∈ alive w -> ph (upd p (set_ph Out (L p)) L q) = Out).
  { intros q Hq. unfold upd. destruct (decide (q = p)); cbn; [done|by apply Hone]. }
  destruct Hok. constructor; cbn.
  - intros q Hq. rewrite (Hall q Hq), elem_of_difference, elem_of_singleton.
    split; [|done]. intros [Hc Hne]. apply ok_claims0 in Hc; [|done]. by rewrite Hone in Hc.
  - intros q Hq. by rewrite Hall.
  - intros q Hq. by rewrite Hall.
  - intros q r Hq Hr. by rewrite Hall.
  - done.
  - intros q r Hq. unfold upd. destruct (decide (q = p)) as [->|]; cbn; by eauto.
  - done.
  - intros q [Hq _]%elem_of_difference. by auto.
  - intros q e Hq. unfold upd. destruct (decide (q = p)) as [->|]; cbn; by auto.
Qed.

Lemma ok_move_tmp L w p ext s :
  world_ok L w -> p ∈ alive w -> ph (L p) <> Out -> record_of p s ->
  world_ok (upd p (set_tmp ext None (set_ph Own (L p))) L)
    (set_tmps (delete (p, ext) (tmps w)) (set_pidfile (Some s) w)).
Proof.
  intros Hok Hp Hph Hs. pose proof (ok_rename L w p s Hok Hp Hph Hs) as Hok'.
  apply (ok_set_tmp _ _ p ext None (delete (p, ext) (tmps w))) in Hok'; [|done|by simplify_map_eq|].
  - by rewrite upd_eq, upd_upd in Hok'.
  - intros. by rewrite lookup_delete_ne.
Qed.

(** A stale record names no live process. *)
Lemma ok_remove_stale L w p raw :
  world_ok L w -> p ∈ alive w -> pidfile w = Some raw -> stale (L p) raw ->
  (forall q, q ∈ alive w -> ph (L q) = Out) /\ world_ok L (set_pidfile None w).
Proof.
  intros Hok Hp Hraw [Hne Hst].
  assert (Hout : forall q, q ∈ alive w -> ph (L q) = Out).
  { intros q Hq. destruct (ph (L q)) eqn:Hph; [done| |].
    - rewrite (ok_claimed _ _ Hok q Hq Hph) in Hraw. congruence.
    - destruct (ok_own _ _ Hok q Hq Hph) as (raw' & Hr & i & Hi & Hq'). simplify_eq.
      destruct (lock_roundtrip i _ Hi) as [_ Hd].
      destruct (ok_retired _ _ Hok _ Hq) as [H0 Hret].
      destruct (Hst i Hd) as [Hdead|Hz]; [|congruence].
      by destruct (Hret (ok_dead _ _ Hok p _ Hp Hdead)). }
  split; [done|]. destruct Hok. constructor; cbn; try done.
  - intros q Hq. by rewrite Hout.
  - intros q Hq. by rewrite Hout.
Qed.

(** ** One call *)

(** Nothing that the processes' knowledge is about changes. *)
Lemma ok_frame L w w' p :
  world_ok L w -> pidfile w' = pidfile w -> tmps w' = tmps w -> alive w' = alive w ->
  retired w' = retired w -> claims w' = claims w -> world_ok (upd p (L p) L) w'.
Proof.
  intros Hok Hf Ht Ha Hr Hc. apply (ok_same _ _ p) in Hok.
  destruct Hok. by constructor; rewrite ?Hf, ?Ht, ?Ha, ?Hr, ?Hc.
Qed.

Definition undivided_call {A} (m : prog A) (w : World) : Prop :=
  match m with
  | RemoveStale raw _ => pidfile w = None \/ pidfile w = Some raw
  | _ => True
  end.

(** A call of a process that obeys the logic leaves one that obeys it. *)
Definition sound {A} (p : N) (L : N -> Local) (m' : prog A) (w' : World)
    (Q : A -> Local -> Prop) : Prop :=
  exists l', wp p m' Q l' /\ world_ok (upd p l' L) w'.

Lemma sound_frame {A} p L w w' (m' : prog A) Q :
  world_ok L w -> wp p m' Q (L p) -> pidfile w' = pidfile w -> tmps w' = tmps w ->
  alive w' = alive w -> retired w' = retired w -> claims w' = claims w -> sound p L m' w' Q.
Proof. intros Hok Hm Hf Ht Ha Hr Hc. exists (L p). split; [done|]. by eapply ok_frame. Qed.

Lemma sound_tmp {A} p L w ext c t (m' : prog A) Q :
  world_ok L w -> p ∈ alive w -> wp p m' Q (set_tmp ext c (L p)) ->
  t !! (p, ext) = c -> (forall k, k <> (p, ext) -> t !! k = tmps w !! k) ->
  sound p L m' (set_tmps t w) Q.
Proof. intros. eexists. split; [done|]. by apply ok_set_tmp. Qed.

Lemma exec_alive {A} c p (m m' : prog A) w w' :
  exec c p m w = Some (m', w') -> alive w' = alive w.
Proof. intros H. destruct m; cbn in H; repeat case_match; by simplify_eq. Qed.

Lemma exec_sound {A} c p (m m' : prog A) w w' L Q :
  world_ok L w -> p ∈ alive w -> undivided_call m w -> wp p m Q (L p) ->
  exec c p m w = Some (m', w') -> sound p L m' w' Q.
Proof.
  intros Hok Hp Hu Hm He. destruct m; cbn in Hm, Hu, He.
  - done.
  - simplify_eq. by eapply sound_frame.
  - simplify_eq. by eapply sound_frame.
  - destruct Hm as (Ht & Hf & Hpart).
    repeat case_match; simplify_eq; [| |by eapply sound_frame].
    + eapply sound_tmp; [done..| |]; [by simplify_map_eq|]. intros. by rewrite lookup_insert_ne.
    + eapply sound_tmp; [done|done|by apply Hpart| |]; [by simplify_map_eq|].
      intros. by rewrite lookup_insert_ne.
  - destruct Hm as [Hd Hk]. repeat case_match; simplify_eq; [|by eapply sound_frame].
    eapply sound_tmp; [done..| |]; [by simplify_map_eq|]. intros. by rewrite lookup_delete_ne.
  - destruct Hm as (Hc & Ha & Hf). repeat case_match; simplify_eq; [by eapply sound_frame..|].
    destruct (ok_create _ _ _ Hok Hp) as [Hout Hok']; [done|]. eexists. split; [by apply Hc|done].
  - repeat case_match; simplify_eq; (eapply sound_frame; [done| |done..]); apply Hm; [done| |].
    + by eapply ok_readable.
    + cbn. destruct (decide (ph (L p) = Out)) as [|Hne]; [done|].
      destruct (ok_file _ _ _ Hok Hp Hne). congruence.
  - destruct Hm as (Hph & (s & Hs & Hrec) & Hr & He'). pose proof (ok_tmps _ _ Hok p ext Hp) as Htmp.
    repeat case_match; simplify_eq; [by eapply sound_frame|].
    eexists. split; [exact Hr|]. by apply ok_move_tmp.
  - destruct Hm as (Hst & Ht & Hf).
    repeat case_match; simplify_eq; [|by eapply sound_frame..].
    destruct Hu as [|[= ->]]; [done|].
    destruct (ok_remove_stale _ _ p raw Hok Hp) as [Hout Hok']; [done..|].
    exists (L p). split; [by apply Ht, Hout|by apply ok_same].
  - destruct Hm as (Hph & Hr & Hf).
    repeat case_match; simplify_eq; [|by eapply sound_frame..].
    eexists. split; [exact Hr|]. by apply ok_remove_own.
  - destruct Hm as [Ha Hd]. repeat case_match; simplify_eq; [by eapply sound_frame|].
    eexists. split; [apply Hd|by apply ok_add_dead]. by intros ->.
  - simplify_eq. by eapply sound_frame.
  - destruct Hm. simplify_eq. case_match; by eapply sound_frame.
  - destruct Hm. repeat case_match; simplify_eq; by eapply sound_frame.
  - simplify_eq. by eapply sound_frame.
  - repeat case_match; simplify_eq; by eapply sound_frame.
  - simplify_eq. case_match; by eapply sound_frame.
  - simplify_eq. by eapply sound_frame.
  - simplify_eq. case_match; by eapply sound_frame.
  - destruct Hm. simplify_eq. by eapply sound_frame.
Qed.

(** ** Configurations *)

Record config_ok (L : N -> Local) (cfg : Config) : Prop := {
  ok_world : world_ok L (world cfg);
  ok_thread : forall p m, threads cfg !! p = Some m ->
    p ∈ alive (world cfg) /\ wp p m (fun _ _ => True) (L p)
}.

Section Steps.
Variables version in_root tmp_socket : string.

Lemma ok_initial : config_ok (fun _ => mkLocal Out ∅ (fun _ => None)) initial.
Proof. constructor; [|done]. constructor; cbn; set_solver. Qed.

Lemma ok_run L cfg p c m m' w' :
  config_ok L cfg -> threads cfg !! p = Some m -> undivided_call m (world cfg) ->
  exec c p m (world cfg) = Some (m', w') ->
  exists L', config_ok L' (mkConfig w' (<[p := m']> (threads cfg))).
Proof.
  intros [Hok Ht] Hm Hu He. destruct (Ht p m Hm) as [Hp Hwp].
  destruct (exec_sound _ _ _ _ _ _ _ _ Hok Hp Hu Hwp He) as (l' & Hl' & Hok').
  exists (upd p l' L). constructor; [done|]. cbn. rewrite (exec_alive _ _ _ _ _ _ He).
  intros q mq [[<- <-]|[Hne Hq]]%lookup_insert_Some.
  - by rewrite upd_eq.
  - rewrite upd_ne by done. by apply Ht.
Qed.

Lemma ok_spawn L cfg p calls :
  config_ok L cfg -> p <> 0%N -> p ∉ alive (world cfg) -> p ∉ retired (world cfg) ->
  let w := world cfg in
  exists L', config_ok L' (mkConfig (mkWorld (pidfile w) (tmps w) (sockets w) (writer w)
                                      ({[p]} ∪ alive w) (retired w) (claims w))
                             (<[p := run_calls p version in_root tmp_socket calls]> (threads cfg))).
Proof.
  intros [Hok Ht] H0 Ha Hr w. exists (upd p (mkLocal Out ∅ (fun e => tmps w !! (p, e))) L).
  constructor; cbn.
  - assert (Hnew : forall q, q ∈ {[p]} ∪ alive w -> q <> p -> q ∈ alive w) by set_solver.
    assert (Hc : p ∉ claims w) by (intros Hc; by destruct (ok_known _ _ Hok _ Hc)).
    destruct Hok. constructor; cbn.
    + intros q Hq. unfold upd. destruct (decide (q = p)) as [->|]; cbn; [naive_solver|by auto].
    + intros q Hq. unfold upd. destruct (decide (q = p)) as [->|]; cbn; [done|]. by apply ok_claimed0, Hnew.
    + intros q Hq. unfold upd. destruct (decide (q = p)) as [->|]; cbn; [done|]. by apply ok_own0, Hnew.
    + intros q r Hq Hr'. unfold upd. repeat destruct (decide _); cbn; subst; try done; by auto.
    + done.
    + intros q r Hq. unfold upd. destruct (decide (q = p)) as [->|]; cbn; [by set_solver|by eauto].
    + intros q Hq. destruct (decide (q = p)) as [->|]; [done|by auto].
    + intros q [?|?]%ok_known0; [left; by set_solver|by right].
    + intros q e Hq. unfold upd. destruct (decide (q = p)) as [->|]; cbn; by auto.
  - intros q mq [[<- <-]|[Hne Hq]]%lookup_insert_Some.
    + split; [by set_solver|]. apply wp_run_calls.
    + rewrite upd_ne by done. destruct (Ht q mq Hq). split; [by set_solver|done].
Qed.

Lemma ok_die L cfg p :
  config_ok L cfg ->
  let w := world cfg in
  config_ok L (mkConfig (mkWorld (pidfile w) (tmps w) (sockets w) (writer w) (alive w ∖ {[p]})
                          ({[p]} ∪ retired w) (claims w)) (delete p (threads cfg))).
Proof.
  intros [Hok Ht] w. constructor; cbn.
  - assert (Hold : forall q, q ∈ alive w ∖ {[p]} -> q ∈ alive w /\ q <> p) by set_solver.
    destruct Hok. constructor; cbn.
    + intros q [Hq _]%Hold. exact (ok_claims0 q Hq).
    + intros q [Hq _]%Hold. exact (ok_claimed0 q Hq).
    + intros q [Hq _]%Hold. exact (ok_own0 q Hq).
    + intros q r [Hq _]%Hold [Hr _]%Hold. exact (ok_one0 q r Hq Hr).
    + done.
    + intros q r [Hq _]%Hold Hr. rewrite elem_of_union. right. by eapply ok_dead0.
    + intros q [Hq Hne]%Hold. destruct (ok_retired0 q Hq). split; [done|].
      rewrite elem_of_union, elem_of_singleton. by intros [?|?].
    + intros q Hq. rewrite elem_of_difference, elem_of_union, !elem_of_singleton.
      destruct (decide (q = p)); [by auto|]. destruct (ok_known0 q Hq); by auto.
    + intros q e [Hq _]%Hold. by auto.
  - intros q mq [Hne Hq]%lookup_delete_Some. destruct (Ht q mq Hq). split; [by set_solver|done].
Qed.

Lemma ok_step L cfg cfg' :
  config_ok L cfg -> undivided_step version in_root tmp_socket cfg cfg' ->
  exists L', config_ok L' cfg'.
Proof.
  intros Hok ([p c|p calls|p] & Hu & He); cbn in Hu, He.
  - destruct (threads cfg !! p) as [m|] eqn:Hm; [|done]. cbn in He.
    destruct (exec c p m (world cfg)) as [[m' w']|] eqn:Hx; cbn in He; [|done]. simplify_eq.
    eapply ok_run; [done..| |done]. by destruct m.
  - case_decide as Hd; [|done]. simplify_eq. destruct Hd as (H0 & Ha & Hr). by eapply ok_spawn.
  - case_decide; [|done]. simplify_eq. eexists. by eapply ok_die.
Qed.

Lemma ok_reachable cfg :
  rtc (undivided_step version in_root tmp_socket) initial cfg -> exists L, config_ok L cfg.
Proof.
  intros Hr. assert (Hi : exists L, config_ok L initial) by (eexists; apply ok_initial).
  revert Hi. induction Hr as [|x y z Hxy _ IH]; [done|].
  intros [L HL]. apply IH. by eapply ok_step.
Qed.

End Steps.

End Invariant.
