(* ===== verification/DaemonLockProps.v ===== *)
(** * What the daemon lock guarantees, and what it does not

    While the compare-and-delete of a stale record is not split, whatever
    processes start, heal and unlock in whatever interleaving, failing or dying
    at any point: at most one live process holds the record, and no start, heal,
    unlock or cleanup of another removes its socket. Split, a live daemon loses
    both; and the listener a departing daemon drops last takes the socket of
    the next one with it. *)
From S2P Require Import Prelude Strings DaemonLock DaemonLockFacts.

(** ** A start recovers from a dead daemon

    A process that starts alone, where a dead daemon left its record, its
    socket and the writer lock, ends up serving. *)

(** Every call works. *)
Definition works : Choice := mkChoice true false None 0.

Definition call {A} (p : N) (a b : prog A * World) : Prop := exec works p a.1 a.2 = Some b.

Lemma candidate_chain_head in_root tmp_socket preferred :
  exists rest, socket_candidate_chain in_root tmp_socket preferred = preferred :: rest.
Proof.
  unfold socket_candidate_chain.
  assert (H : forall cs acc, exists rest,
    fold_left (fun candidates c => if bool_decide (c ∈ candidates) then candidates else candidates ++ [c])
      cs (preferred :: acc) = preferred :: rest).
  { induction cs as [|c cs IH]; cbn; intros acc; [by eexists|].
    case_bool_decide; [apply IH|]. apply (IH (acc ++ [c])). }
  apply H.
Qed.

Section Recover.
Context `{LJ : LockJson} {LL : LockJsonLaws} (p : N) (version in_root tmp_socket : string).

#[local] Notation path := (daemon_socket_path in_root tmp_socket).
#[local] Notation mine := (mkDaemonLockInfo p version path 0).

(** The next call works, as it is computed with what is known of the state. *)
Ltac next tac := eapply rtc_l; [unfold call; cbn; tac; reflexivity|cbn].

Lemma decoded_nonempty raw info :
  decode_lock_info raw = Some info -> String.eqb (str_trim raw) "" = false.
Proof.
  intros Hd. apply String.eqb_neq. intros He. unfold decode_lock_info in Hd. by rewrite He in Hd.
Qed.

Lemma clear_calls {A} (f : bool -> prog A) w raw info expected :
  pidfile w = Some raw -> decode_lock_info raw = Some info ->
  (expected = None \/ expected = Some (dl_pid info)) -> dl_pid info ∉ alive w ->
  exists r, rtc (call p) (prog_bind (clear_stale_daemon_lock expected) f, w)
    (f true, set_pidfile None (set_retired r w)).
Proof.
  intros Hf Hd He Ha.
  assert (Hn : (match expected with Some pid => negb (pid =? dl_pid info)%N | None => false end) = false).
  { destruct He as [->| ->]; [done|]. by rewrite N.eqb_refl. }
  pose proof (decoded_nonempty raw info Hd) as Ht.
  destruct (N.ltb_spec 0 (dl_pid info)) as [Hp|Hp].
  - eexists. next ltac:(rewrite Hf). rewrite Ht. cbn. rewrite Hd, Hn.
    assert (Hlt : (0 <? dl_pid info)%N = true) by (by apply N.ltb_lt). rewrite Hlt.
    next ltac:(rewrite decide_False by done).
    next ltac:(rewrite Hf). done.
  - exists (retired w). next ltac:(rewrite Hf). rewrite Ht. cbn. rewrite Hd, Hn.
    assert (Hlt : (0 <? dl_pid info)%N = false) by (by apply N.ltb_ge). rewrite Hlt.
    next ltac:(rewrite Hf). by destruct w.
Qed.

Section Record.
Variable s : string.
Hypothesis (Hs : encode_lock_info mine = Some s).

(** What [start_or_attach] does with the outcome of [try_acquire_daemon_lock]. *)
Definition round (rounds : nat) (acquired : AcquireResult + LockError) : prog (option LockError) :=
  match acquired with
  | inr e => Ret (Some e)
  | inl (Acquired info) => start_with_lock p in_root tmp_socket (dl_socket_path info)
  | inl (Taken (Some info)) =>
      Connect (dl_socket_path info) (fun attached =>
        if attached then Ret None else
        let* cleared := clear_stale_daemon_lock (Some (dl_pid info)) in
        if negb cleared then Ret (Some ErrRunning)
        else start_or_attach p version in_root tmp_socket rounds)
  | inl (Taken None) =>
      let* cleared := clear_stale_daemon_lock None in
      if negb cleared then Ret (Some ErrNotCleared)
      else start_or_attach p version in_root tmp_socket rounds
  end.

Lemma start_or_attach_round rounds :
  start_or_attach p version in_root tmp_socket (S rounds)
  = prog_bind (try_acquire_daemon_lock p version in_root tmp_socket) (round rounds).
Proof. reflexivity. Qed.

(** What a start leaves alone before it binds. *)
Definition same_place (w w' : World) : Prop :=
  sockets w' = sockets w /\ writer w' = writer w /\ alive w' = alive w.

Lemma acquire_calls {A} (f : AcquireResult + LockError -> prog A) w :
  pidfile w = None ->
  exists w', rtc (call p) (prog_bind (try_acquire_daemon_lock p version in_root tmp_socket) f, w)
    (f (inl (Acquired mine)), w') /\ pidfile w' = Some s /\ same_place w w'.
Proof.
  intros Hf. eexists. split.
  - do 5 next idtac. rewrite Hs. next idtac. next ltac:(rewrite Hf). next idtac.
    next ltac:(rewrite lookup_insert_eq). next idtac. done.
  - by split_and!.
Qed.

Lemma taken_calls {A} (f : AcquireResult + LockError -> prog A) w raw info :
  pidfile w = Some raw -> decode_lock_info raw = Some info ->
  exists w', rtc (call p) (prog_bind (try_acquire_daemon_lock p version in_root tmp_socket) f, w)
    (f (inl (Taken (Some info))), w') /\ pidfile w' = Some raw /\ same_place w w'.
Proof.
  intros Hf Hd. eexists. split.
  - do 5 next idtac. rewrite Hs. next idtac. next ltac:(rewrite Hf). next idtac.
    next ltac:(rewrite Hf). rewrite (decoded_nonempty raw info Hd). cbn. rewrite Hd. done.
  - by split_and!.
Qed.

Lemma decode_own : decode_lock_info s = Some mine.
Proof. by destruct (lock_roundtrip mine s Hs). Qed.

(** What a daemon does once it has bound a socket. *)
#[local] Notation serve_at socket_path :=
  (prog_bind (rewrite_lock_socket_path socket_path) (fun _ => Serve
     (prog_bind (cleanup_owned_rendezvous socket_path p) (fun _ =>
       ReleaseWriter (DropListener socket_path (Ret (@None LockError))))))).

Lemma serve_calls w :
  pidfile w = Some s ->
  exists k w', rtc (call p) (serve_at path, w) (Serve k, w')
    /\ pidfile w' = Some s /\ sockets w' = sockets w /\ writer w' = writer w.
Proof.
  intros Hf. do 2 eexists. split.
  - next ltac:(rewrite Hf). rewrite decode_own. cbn. rewrite Hs. next idtac. next ltac:(rewrite Hf).
    rewrite String.eqb_refl. cbn. next ltac:(rewrite lookup_insert_eq). next idtac. done.
  - by split_and!.
Qed.

Lemma bind_calls w rest :
  pidfile w = Some s ->
  exists k w', rtc (call p)
    (prog_bind (bind_candidates (path :: rest)) (fun bound =>
       match bound with
       | None => ReleaseWriter (Ret (Some ErrBind))
       | Some socket_path => serve_at socket_path
       end), w) (Serve k, w')
    /\ pidfile w' = Some s /\ sockets w' !! path = Some p /\ writer w' = writer w.
Proof.
  intros Hf. set (w1 := set_sockets (<[path := p]> (delete path (sockets w))) w).
  destruct (serve_calls w1 Hf) as (k & w' & Hr & Hf' & Hs' & Hw').
  exists k, w'. rewrite Hf', Hs', Hw'. split; [|by split_and!; [|cbn; rewrite lookup_insert_eq|]].
  destruct (sockets w !! path) as [q|] eqn:Hq.
  - next ltac:(rewrite Hq). next idtac. next ltac:(rewrite lookup_delete_eq). exact Hr.
  - assert (Hd : delete path (sockets w) = sockets w) by (by apply delete_id).
    subst w1. rewrite Hd in Hr. next ltac:(rewrite Hq). next ltac:(rewrite Hq). exact Hr.
Qed.

(** The holder of the record starts to serve. *)
Lemma start_calls w :
  pidfile w = Some s ->
  (forall q, writer w = Some q -> q ∉ alive w) ->
  exists k w', rtc (call p) (start_with_lock p in_root tmp_socket path, w) (Serve k, w')
    /\ pidfile w' = Some s /\ sockets w' !! path = Some p /\ writer w' = Some p.
Proof.
  intros Hf Hw. destruct (candidate_chain_head in_root tmp_socket path) as [rest Hrest].
  destruct (bind_calls (set_writer (Some p) w) rest Hf) as (k & w' & Hr & Hrest').
  exists k, w'. split; [|exact Hrest'].
  unfold start_with_lock, bind_with_fallback. rewrite Hrest. do 2 next idtac.
  destruct (writer w) as [q|] eqn:Hq.
  - next ltac:(rewrite Hq; rewrite decide_False by (by apply Hw)). do 3 next idtac. exact Hr.
  - next ltac:(rewrite Hq). do 3 next idtac. exact Hr.
Qed.

(** A start where a dead process left its record. *)
Lemma start_recovers w raw info :
  pidfile w = Some raw -> decode_lock_info raw = Some info -> dl_pid info ∉ alive w ->
  (forall q, sockets w !! dl_socket_path info = Some q -> q ∉ alive w) ->
  (forall q, writer w = Some q -> q ∉ alive w) ->
  exists k w', rtc (call p) (start_or_attach p version in_root tmp_socket 2, w) (Serve k, w')
    /\ pidfile w' = Some s /\ decode_lock_info s = Some mine
    /\ sockets w' !! path = Some p /\ writer w' = Some p.
Proof.
  intros Hf Hd Ha Hsock Hw.
  destruct (taken_calls (round 1) w raw info Hf Hd)
    as (w1 & Hr1 & Hf1 & Hso1 & Hw1 & Ha1).
  assert (Hc : (match sockets w1 !! dl_socket_path info with
                | Some q => bool_decide (q ∈ alive w1) | None => false end) = false).
  { rewrite Hso1, Ha1. destruct (sockets w !! _) eqn:Hq; [|done]. by apply bool_decide_eq_false, Hsock. }
  destruct (clear_calls (fun cleared => if negb cleared then Ret (Some ErrRunning)
      else start_or_attach p version in_root tmp_socket 1) w1 raw info (Some (dl_pid info)))
    as (r & Hr2); [done..|by right|by rewrite Ha1|].
  destruct (acquire_calls (round 0) (set_pidfile None (set_retired r w1)) eq_refl) as (w2 & Hr3 & Hf2 & Hso2 & Hw2 & Ha2).
  destruct (start_calls w2 Hf2) as (k & w' & Hr4 & Hf' & Hs' & Hw').
  { intros q. rewrite Hw2, Ha2. cbn. rewrite Hw1, Ha1. apply Hw. }
  exists k, w'. split; [|by split_and!; [|apply decode_own| |]].
  etransitivity; [exact Hr1|]. eapply rtc_l; [unfold call; cbn -[clear_stale_daemon_lock start_or_attach]; by rewrite Hc|].
  etransitivity; [exact Hr2|]. etransitivity; [exact Hr3|]. exact Hr4.
Qed.

End Record.

End Recover.

(** ** A codec for the examples: the records of the processes 1 to 9 *)

Definition demo_version : string := "1".
Definition demo_socket : string := "daemon.sock".

#[local] Instance DemoJson : LockJson := {|
  to_string_pretty i :=
    if bool_decide (dl_version i = demo_version /\ dl_socket_path i = demo_socket
                    /\ dl_started_at i = 0%N /\ (1 <= dl_pid i <= 9)%N)
    then Some (String "{" (String (ascii_of_N (48 + dl_pid i)) "}")) else None;
  from_str s :=
    match s with
    | String "{" (String d (String "}" "")) =>
        Some (mkDaemonLockInfo (N_of_ascii d - 48) demo_version demo_socket 0)
    | _ => None
    end
|}.

Lemma demo_pid (n : N) : (1 <= n <= 9)%N -> n ∈ [1; 2; 3; 4; 5; 6; 7; 8; 9]%N.
Proof. intros. assert (n = 1 \/ n = 2 \/ n = 3 \/ n = 4 \/ n = 5 \/ n = 6 \/ n = 7 \/ n = 8 \/ n = 9)%N by lia. set_solver. Qed.

#[local] Instance demo_laws : LockJsonLaws.
Proof.
  constructor. intros [pid version path time] s. unfold encode_lock_info. cbn.
  case_bool_decide as Hb; [|done]. cbn. destruct Hb as (-> & -> & -> & Hp%demo_pid).
  intros [= <-]. revert Hp. rewrite !elem_of_cons, elem_of_nil.
  intros Hp. repeat destruct Hp as [->|Hp]; [..|done]; vm_compute; by split.
Qed.

Definition demo_runs (p : N) (n : nat) : list Event := replicate n (Run p works).
Definition demo_run : list Event -> option Config :=
  fun es => run_schedule demo_version demo_socket "tmp.sock" es initial.

Lemma run_schedule_reachable es cfg cfg' :
  run_schedule demo_version demo_socket "tmp.sock" es cfg = Some cfg' ->
  rtc (step demo_version demo_socket "tmp.sock") cfg cfg'.
Proof.
  revert cfg. induction es as [|e es IH]; cbn; intros cfg H; [by simplify_eq; constructor|].
  destruct (do_event _ _ _ e cfg) as [c|] eqn:He; cbn in H; [|done].
  eapply rtc_l; [by exists e|by apply IH].
Qed.

(** The event of a schedule that may split a compare-and-delete, checked. *)
Definition undivided_b (e : Event) (cfg : Config) : bool :=
  match e with
  | Run p _ =>
      match threads cfg !! p with
      | Some (RemoveStale raw _) =>
          bool_decide (pidfile (world cfg) = None \/ pidfile (world cfg) = Some raw)
      | _ => true
      end
  | _ => true
  end.

Lemma undivided_b_ok e cfg : undivided_b e cfg = true -> undivided e cfg.
Proof.
  destruct e as [p c| |]; cbn; [|done..]. destruct (threads cfg !! p) as [[]|]; cbn; try done.
  by rewrite bool_decide_eq_true.
Qed.

Fixpoint run_undivided (es : list Event) (cfg : Config) : option Config :=
  match es with
  | [] => Some cfg
  | e :: es =>
      if undivided_b e cfg
      then cfg' ← do_event demo_version demo_socket "tmp.sock" e cfg; run_undivided es cfg'
      else None
  end.

Lemma run_undivided_reachable es cfg cfg' :
  run_undivided es cfg = Some cfg' ->
  rtc (undivided_step demo_version demo_socket "tmp.sock") cfg cfg'.
Proof.
  revert cfg. induction es as [|e es IH]; cbn; intros cfg H; [by simplify_eq; constructor|].
  destruct (undivided_b e cfg) eqn:Hu; [|done].
  destruct (do_event _ _ _ e cfg) as [c|] eqn:He; cbn in H; [|done].
  eapply rtc_l; [|by apply IH]. exists e. split; [|done].
  by apply undivided_b_ok.
Qed.

Section Guarantees.
Context `{LJ : LockJson} {LL : LockJsonLaws} (version in_root tmp_socket : string).

#[local] Notation reachable := (rtc (undivided_step version in_root tmp_socket) initial).

Lemma record_names_owner p raw : record_of p raw ->
  exists info, decode_lock_info raw = Some info /\ dl_pid info = p.
Proof. intros (i & Hi & Hp). destruct (lock_roundtrip i raw Hi) as [_ ?]. by exists i. Qed.

Lemma serving_owns L cfg p k :
  config_ok L cfg -> threads cfg !! p = Some (Serve k) -> p ∈ alive (world cfg) /\ ph (L p) = Own.
Proof. intros [_ Ht] Hp. by destruct (Ht p _ Hp) as [? [? _]]. Qed.

(** C3: Of the processes that created the pid file and did not remove it, at
    most one is alive; a daemon that serves is one of them, so that at most one
    serves, and it is the one the record names; and a record that names a live
    process names one of them. This is so in every interleaving of the calls of
    any number of processes, whichever calls fail and whenever processes die,
    as long as no stale record is replaced between the check and the removal. *)
Theorem daemon_lock_exclusive cfg :
  reachable cfg ->
  let w := world cfg in
  (forall p q, p ∈ claims w ∩ alive w -> q ∈ claims w ∩ alive w -> p = q)
  /\ (forall p k, threads cfg !! p = Some (Serve k) -> p ∈ claims w ∩ alive w
        /\ exists raw info, pidfile w = Some raw /\ decode_lock_info raw = Some info /\ dl_pid info = p)
  /\ (forall raw info, pidfile w = Some raw -> decode_lock_info raw = Some info ->
        dl_pid info ∈ alive w -> dl_pid info ∈ claims w).
Proof.
  intros [L HL]%ok_reachable w. pose proof (ok_world _ _ HL) as Hok. split_and!.
  - intros p q [Hp Hpa]%elem_of_intersection [Hq Hqa]%elem_of_intersection.
    apply (ok_claims _ _ Hok) in Hp, Hq; [|done..]. by apply (ok_one _ _ Hok).
  - intros p k Hp. destruct (serving_owns L cfg p k HL Hp) as [Ha Hown]. split.
    + apply elem_of_intersection. split; [|done]. apply (ok_claims _ _ Hok); [done|congruence].
    + destruct (ok_own _ _ Hok p Ha Hown) as (raw & Hraw & Hr). exists raw.
      destruct (record_names_owner p raw Hr) as (info & ? & ?). by exists info.
  - intros raw info Hraw Hd _. destruct (ok_content _ _ Hok raw Hraw) as [->|(q & Hq & Hr)].
    + by rewrite decode_empty in Hd.
    + by rewrite (decode_record q raw info Hr Hd).
Qed.

(** C4: A socket that a live holder of the record has bound stays bound to it
    as long as it takes no step and lives: no other process's start, heal,
    unlock or cleanup removes it, in any such interleaving. The one call of
    another process that may is the drop of a listener that was bound to the
    same path: see [late_drop_strands_daemon]. *)
Theorem daemon_socket_guarded cfg e cfg' path q :
  reachable cfg -> undivided e cfg -> do_event version in_root tmp_socket e cfg = Some cfg' ->
  sockets (world cfg) !! path = Some q -> q ∈ claims (world cfg) ∩ alive (world cfg) ->
  (forall c, e <> Run q c) ->
  (forall p c k, e = Run p c -> threads cfg !! p <> Some (DropListener path k)) ->
  sockets (world cfg') !! path = Some q.
Proof.
  intros [L HL]%ok_reachable Hu He Hs [Hq Hqa]%elem_of_intersection Hne Hdrop.
  destruct e as [p c|p calls|p]; cbn in He; [|by case_decide; simplify_eq..].
  assert (Hpq : p <> q) by (intros ->; by destruct (Hne c)).
  destruct (threads cfg !! p) as [m|] eqn:Hm; [|done]. cbn in He.
  destruct (exec c p m (world cfg)) as [[m' w']|] eqn:Hx; cbn in He; [|done]. simplify_eq. cbn.
  destruct HL as [Hok Ht]. destruct (Ht p m Hm) as [Hpa Hwp].
  apply (ok_claims _ _ Hok) in Hq; [|done].
  destruct m; cbn in Hx, Hwp; repeat case_match; simplify_eq; cbn; try done.
  - destruct Hwp as [Hown _]. destruct Hpq. apply (ok_one _ _ Hok); [done..|congruence|done].
  - by apply lookup_insert_Some; right; split; [congruence|].
  - rewrite lookup_delete_ne; [done|]. intros ->. by eapply Hdrop.
Qed.

(** No holder is alive and the pid file is an empty placeholder. *)
Definition wedged (cfg : Config) : Prop :=
  pidfile (world cfg) = Some "" /\ forall p, p ∈ alive (world cfg) -> p ∉ claims (world cfg).

Lemma wedged_step L cfg cfg' :
  config_ok L cfg -> wedged cfg -> undivided_step version in_root tmp_socket cfg cfg' -> wedged cfg'.
Proof.
  intros HL [Hf Hc] (e & Hu & He). destruct e as [p c|p calls|p]; cbn in He, Hu.
  - destruct (threads cfg !! p) as [m|] eqn:Hm; [|done]. cbn in He.
    destruct (exec c p m (world cfg)) as [[m' w']|] eqn:Hx; cbn in He; [|done]. simplify_eq.
    destruct HL as [Hok Ht]. destruct (Ht p m Hm) as [Hpa Hwp].
    assert (Hout : ph (L p) = Out).
    { destruct (decide (ph (L p) = Out)) as [|Hne]; [done|].
      by apply (ok_claims _ _ Hok p Hpa) in Hne; apply Hc in Hne. }
    unfold wedged. cbn. destruct m; cbn in Hx, Hwp, Hu; repeat case_match; simplify_eq; cbn; try done.
    + by destruct Hwp.
    + destruct Hwp as [[Hne _] _], Hu; congruence.
    + destruct Hwp; congruence.
  - case_decide as Hd; [|done]. simplify_eq. destruct Hd as (_ & Ha & Hr). split; [done|]. cbn.
    intros q. rewrite elem_of_union, elem_of_singleton. intros [->|?]; [|by apply Hc].
    intros Hq. by destruct (ok_known _ _ (ok_world _ _ HL) _ Hq).
  - case_decide; [|done]. simplify_eq. split; [done|]. cbn. intros q [? _]%elem_of_difference. by apply Hc.
Qed.

(** A process that dies between creating the pid file and renaming its
    record over it leaves an empty file, and from then on no process ever
    serves: no start takes the record, no heal and no unlock removes it. *)
Theorem empty_placeholder_is_final cfg cfg' :
  reachable cfg -> pidfile (world cfg) = Some "" ->
  (forall p, p ∈ alive (world cfg) -> p ∉ claims (world cfg)) ->
  rtc (undivided_step version in_root tmp_socket) cfg cfg' ->
  pidfile (world cfg') = Some "" /\ forall p k, threads cfg' !! p <> Some (Serve k).
Proof.
  intros Hr Hf Hc Hs. assert (Hw : wedged cfg) by done. clear Hf Hc.
  assert (Hrw : reachable cfg' /\ wedged cfg').
  { revert Hr Hw. induction Hs as [|x y z Hxy _ IH]; [done|]. intros Hr Hw. apply IH.
    - by eapply rtc_r.
    - destruct (ok_reachable _ _ _ _ Hr) as [L HL]. by eapply wedged_step. }
  destruct Hrw as [Hr' [Hf Hc]]. split; [done|]. intros p k Hp.
  destruct (ok_reachable _ _ _ _ Hr') as [L HL].
  destruct (serving_owns L cfg' p k HL Hp) as [Ha Hown].
  apply (Hc p Ha), (ok_claims _ _ (ok_world _ _ HL) p Ha). congruence.
Qed.

(** C28: A process that starts while no other acts, where a process that is no
    longer alive left its record, whatever sockets dead processes left and with
    no live writer, gets through the stale record in its second round and
    serves: the record then names it with the socket it has bound, and it holds
    the writer lock. *)
Theorem daemon_start_recovers p s w raw info :
  let path := daemon_socket_path in_root tmp_socket in
  let mine := mkDaemonLockInfo p version path 0 in
  encode_lock_info mine = Some s ->
  pidfile w = Some raw -> decode_lock_info raw = Some info -> dl_pid info ∉ alive w ->
  (forall q, sockets w !! dl_socket_path info = Some q -> q ∉ alive w) ->
  (forall q, writer w = Some q -> q ∉ alive w) ->
  exists k w', rtc (call p) (start_or_attach p version in_root tmp_socket 2, w) (Serve k, w')
    /\ pidfile w' = Some s /\ decode_lock_info s = Some mine
    /\ sockets w' !! path = Some p /\ writer w' = Some p.
Proof. intros path mine Hs. by apply start_recovers. Qed.

End Guarantees.

(** ** Concrete executions *)

Definition serving (p : N) (cfg : Config) : bool :=
  match threads cfg !! p with Some (Serve _) => true | _ => false end.

Lemma serving_thread p cfg : serving p cfg = true -> exists k, threads cfg !! p = Some (Serve k).
Proof. unfold serving. destruct (threads cfg !! p) as [[]|]; try done. by eexists. Qed.

(** Process 1 dies before it renames its record, or just after. *)
Definition crash_early : list Event := Spawn 1 [CallStart 1] :: demo_runs 1 7 ++ [Die 1].
Definition crash_late : list Event := Spawn 1 [CallStart 1] :: demo_runs 1 10 ++ [Die 1].

(** Processes 2 and 3 find its record stale; 2 removes it and serves; 3 then
    removes the record of 2, takes it, finds the writer lock taken and cleans
    up. *)
Definition race : list Event :=
  crash_late ++ [Spawn 2 [CallStart 2]; Spawn 3 [CallStart 2]]
  ++ demo_runs 2 12 ++ demo_runs 3 12 ++ demo_runs 2 24 ++ demo_runs 3 18.

Definition stranded (cfg : Config) : bool :=
  serving 2 cfg && bool_decide (2%N ∈ alive (world cfg)) && bool_decide (pidfile (world cfg) = None)
  && bool_decide (sockets (world cfg) = ∅).

Lemma race_strands : match demo_run race with Some cfg => stranded cfg | None => false end = true.
Proof. vm_compute. reflexivity. Qed.

Lemma race_reachable : exists cfg,
  rtc (step demo_version demo_socket "tmp.sock") initial cfg /\ stranded cfg = true.
Proof.
  pose proof race_strands as H. destruct (demo_run race) as [cfg|] eqn:Hr; [|discriminate].
  exists cfg. split; [exact (run_schedule_reachable race initial cfg Hr)|exact H].
Qed.

(** C29: Split, the compare-and-delete of a stale record strands a daemon: two
    processes that start after a crash can interleave so that one serves while
    the record and its socket are gone, removed by the other. *)
Theorem split_delete_strands_daemon :
  exists cfg k, rtc (step demo_version demo_socket "tmp.sock") initial cfg
    /\ threads cfg !! 2%N = Some (Serve k) /\ 2%N ∈ alive (world cfg)
    /\ pidfile (world cfg) = None /\ sockets (world cfg) = ∅.
Proof.
  destruct race_reachable as (cfg & Hr & H).
  unfold stranded in H. rewrite !andb_true_iff, !bool_decide_eq_true in H.
  destruct H as [[[Hs Ha] Hf] Hso]. destruct (serving_thread 2 cfg Hs) as [k Hk].
  by exists cfg, k.
Qed.

(** Process 1 serves, removes its record and socket and releases the writer
    lock; process 2 starts and serves; process 1 then drops its listener. *)
Definition late_drop : list Event :=
  Spawn 1 [CallStart 1] :: demo_runs 1 23 ++ demo_runs 1 6
  ++ [Spawn 2 [CallStart 1]] ++ demo_runs 2 23 ++ demo_runs 1 1.

Definition unreachable_daemon (cfg : Config) : bool :=
  serving 2 cfg && bool_decide (2%N ∈ claims (world cfg) ∩ alive (world cfg))
  && bool_decide (writer (world cfg) = Some 2%N) && bool_decide (sockets (world cfg) = ∅).

Lemma late_drop_strands :
  match run_undivided late_drop initial with Some cfg => unreachable_daemon cfg | None => false end = true.
Proof. vm_compute. reflexivity. Qed.

(** A daemon that departs takes the socket of its successor with it: between
    the release of the writer lock and the drop of the listener another daemon
    may start, and it then serves, owns the record and the writer lock, and its
    socket is gone. No compare-and-delete is split in this execution. *)
Theorem late_drop_strands_daemon :
  exists cfg k, rtc (undivided_step demo_version demo_socket "tmp.sock") initial cfg
    /\ threads cfg !! 2%N = Some (Serve k) /\ 2%N ∈ claims (world cfg) ∩ alive (world cfg)
    /\ writer (world cfg) = Some 2%N /\ sockets (world cfg) = ∅.
Proof.
  pose proof late_drop_strands as H. destruct (run_undivided late_drop initial) as [cfg|] eqn:Hr; [|discriminate].
  unfold unreachable_daemon in H. rewrite !andb_true_iff, !bool_decide_eq_true in H.
  destruct H as [[[Hs Ha] Hw] Hso]. destruct (serving_thread 2 cfg Hs) as [k Hk].
  exists cfg, k. split; [exact (run_undivided_reachable late_drop initial cfg Hr)|].
  exact (conj Hk (conj Ha (conj Hw Hso))).
Qed.

(** Process 1 serves, and process 2 starts. *)
Definition one_serves : list Event :=
  Spawn 1 [CallStart 1] :: demo_runs 1 23 ++ [Spawn 2 [CallStart 1; CallHeal; CallUnlock]].

Definition served (cfg : Config) : bool :=
  serving 1 cfg && bool_decide (1%N ∈ claims (world cfg) ∩ alive (world cfg))
  && bool_decide (sockets (world cfg) !! demo_socket = Some 1%N)
  && match do_event demo_version demo_socket "tmp.sock" (Run 2 works) cfg with Some _ => true | None => false end
  && undivided_b (Run 2 works) cfg
  && match threads cfg !! 2%N with Some (DropListener _ _) => false | _ => true end.

Lemma one_serves_served :
  match run_undivided one_serves initial with Some cfg => served cfg | None => false end = true.
Proof. vm_compute. reflexivity. Qed.

Lemma served_reachable : exists cfg,
  rtc (undivided_step demo_version demo_socket "tmp.sock") initial cfg /\ served cfg = true.
Proof.
  pose proof one_serves_served as H. destruct (run_undivided one_serves initial) as [cfg|] eqn:Hr; [|discriminate].
  exists cfg. split; [exact (run_undivided_reachable one_serves initial cfg Hr)|exact H].
Qed.

Lemma daemon_lock_exclusive_witness :
  exists cfg k, threads cfg !! 1%N = Some (Serve k)
    /\ exists raw info, pidfile (world cfg) = Some raw /\ decode_lock_info raw = Some info
       /\ dl_pid info = 1%N.
Proof.
  destruct served_reachable as (cfg & Hr & Hs).
  unfold served in Hs. rewrite !andb_true_iff in Hs. destruct Hs as [[[[[Hs _] _] _] _] _].
  destruct (serving_thread 1 cfg Hs) as [k Hk]. exists cfg, k. split; [exact Hk|].
  exact (proj2 (proj1 (proj2 (daemon_lock_exclusive demo_version demo_socket "tmp.sock" cfg Hr)) 1%N k Hk)).
Defined.

Lemma daemon_socket_guarded_witness :
  exists cfg cfg', do_event demo_version demo_socket "tmp.sock" (Run 2 works) cfg = Some cfg'
    /\ sockets (world cfg') !! demo_socket = Some 1%N.
Proof.
  destruct served_reachable as (cfg & Hr & Hs).
  unfold served in Hs. rewrite !andb_true_iff, !bool_decide_eq_true in Hs.
  destruct Hs as [[[[[_ Hc] Hso] He] Hu] Hl].
  destruct (do_event demo_version demo_socket "tmp.sock" (Run 2 works) cfg) as [cfg'|] eqn:Hd; [|discriminate].
  exists cfg, cfg'. split; [exact Hd|].
  refine (daemon_socket_guarded demo_version demo_socket "tmp.sock" cfg (Run 2 works) cfg' demo_socket 1 Hr
    (undivided_b_ok _ _ Hu) Hd Hso Hc _ _); [discriminate|].
  intros p c k [= <- <-] Hk. destruct (threads cfg !! 2%N) as [m|] eqn:Hm; [|discriminate].
  injection Hk as ->. discriminate Hl.
Defined.

(** Process 1 left the empty placeholder; 2 then starts, heals and unlocks. *)
Definition placeholder_left (cfg : Config) : bool :=
  bool_decide (pidfile (world cfg) = Some "")
  && bool_decide (set_Forall (fun p => p ∉ claims (world cfg)) (alive (world cfg))).

Lemma placeholder_demo :
  match run_undivided crash_early initial with
  | Some cfg => placeholder_left cfg
      && match run_undivided (Spawn 2 [CallStart 1; CallHeal; CallUnlock] :: demo_runs 2 21) cfg with
         | Some _ => true | None => false end
  | None => false end = true.
Proof. vm_compute. reflexivity. Qed.

Lemma placeholder_reachable : exists cfg cfg',
  rtc (undivided_step demo_version demo_socket "tmp.sock") initial cfg /\ placeholder_left cfg = true
  /\ rtc (undivided_step demo_version demo_socket "tmp.sock") cfg cfg'.
Proof.
  pose proof placeholder_demo as H.
  destruct (run_undivided crash_early initial) as [cfg|] eqn:Hr; [|discriminate].
  apply andb_true_iff in H as [H H'].
  destruct (run_undivided (Spawn 2 [CallStart 1; CallHeal; CallUnlock] :: demo_runs 2 21) cfg)
    as [cfg'|] eqn:Hr'; [|discriminate].
  exists cfg, cfg'. split; [exact (run_undivided_reachable _ initial cfg Hr)|].
  split; [exact H|exact (run_undivided_reachable _ cfg cfg' Hr')].
Qed.

Lemma empty_placeholder_is_final_witness :
  exists cfg', rtc (undivided_step demo_version demo_socket "tmp.sock") initial cfg'
    /\ pidfile (world cfg') = Some "" /\ forall p k, threads cfg' !! p <> Some (Serve k).
Proof.
  destruct placeholder_reachable as (cfg & cfg' & Hr & Hp & Hr').
  unfold placeholder_left in Hp. apply andb_true_iff in Hp as [Hf Hc].
  apply bool_decide_eq_true in Hf. apply bool_decide_eq_true in Hc.
  exists cfg'. split; [etransitivity; [exact Hr|exact Hr']|].
  exact (empty_placeholder_is_final demo_version demo_socket "tmp.sock" cfg cfg' Hr Hf Hc Hr').
Defined.

(** Process 1 died with its record published; process 2 starts. *)
Definition after_late : World :=
  mkWorld (encode_lock_info (mkDaemonLockInfo 1 demo_version demo_socket 0)) ∅ {[demo_socket := 1%N]}
    (Some 1%N) {[2%N]} {[1%N]} {[1%N]}.

Lemma daemon_start_recovers_witness :
  exists k w', rtc (call 2) (start_or_attach 2 demo_version demo_socket "tmp.sock" 2, after_late)
                 (Serve k, w') /\ writer w' = Some 2%N.
Proof.
  destruct (daemon_start_recovers demo_version demo_socket "tmp.sock" 2
    (String "{" (String "2" (String "}" newline))) after_late
    (String "{" (String "1" (String "}" newline))) (mkDaemonLockInfo 1 demo_version demo_socket 0))
    as (k & w' & Hr & _ & _ & _ & Hw).
  - vm_compute. reflexivity.
  - vm_compute. reflexivity.
  - vm_compute. reflexivity.
  - set_solver.
  - intros q Hq. vm_compute in Hq. injection Hq as <-. set_solver.
  - intros q Hq. vm_compute in Hq. injection Hq as <-. set_solver.
  - exists k, w'. split; [exact Hr|exact Hw].
Defined.
