(* ===== verification/LangDetect.v ===== *)
(** * Which files are source
      (codegraph-extract/src: of engine.rs, the language of a path and
      [is_extractable_source_path]; embedded/mod.rs and embedded/shopify.rs)

    What exists under the project root, which only a Shopify theme's JSON asks
    about, is an argument. *)
From S2P Require Import Prelude Types Strings PathUtil StrOps.

(** ** Text and paths *)

Definition ascii_lower (a : ascii) : ascii :=
  if byte_is_upper a then ascii_of_N (N_of_ascii a + 32) else a.

(** [str::to_ascii_lowercase], [str::eq_ignore_ascii_case]. *)
Fixpoint to_ascii_lowercase (s : string) : string :=
  match s with EmptyString => EmptyString | String a s => String (ascii_lower a) (to_ascii_lowercase s) end.

Definition eq_ignore_ascii_case (a b : string) : bool :=
  String.eqb (to_ascii_lowercase a) (to_ascii_lowercase b).

(** [str::split_once] at a character. *)
Fixpoint split_once (c : ascii) (s : string) : option (string * string) :=
  match s with
  | EmptyString => None
  | String a s =>
      if Ascii.eqb a c then Some ("", s)
      else match split_once c s with
           | Some (h, t) => Some (String a h, t)
           | None => None
           end
  end.

(** [Path::components], collected and printed with forward slashes: empty and
    inner dot components go, a leading dot stays. *)
Definition normal_components (path : string) : list string :=
  filter (fun s => s <> "" /\ s <> ".") (split_on SLASH path).

Definition normalize_path (path : string) : string :=
  let body := normal_components path in
  str_replace BACKSLASH SLASH
    (if is_absolute path then String SLASH (join_slash body)
     else match split_on SLASH path with
          | "." :: _ => join_slash ("." :: body)
          | _ => join_slash body
          end).

(** [Path::file_name], [Path::extension]. *)
Definition file_name (path : string) : option string :=
  match last (normal_components path) with
  | Some name => if String.eqb name ".." then None else Some name
  | None => None
  end.

Definition extension (path : string) : option string :=
  name ← file_name path;
  match rsplit_once "." name with
  | Some (EmptyString, _) | None => None
  | Some (_, ext) => Some ext
  end.

(** ** Shopify themes *)

Definition SHOPIFY_THEME_MARKERS : list string := ["layout/theme.liquid"; "config/settings_schema.json"].
Definition SHOPIFY_JSON_FOLDERS : list string := ["templates"; "sections"].

Definition is_shopify_marker_folder (name : string) : bool :=
  existsb (fun p => eq_ignore_ascii_case name p.1) (omap (split_once SLASH) SHOPIFY_THEME_MARKERS).

Definition shopify_markers_in_folder (folder : string) : list string :=
  let name := after_last SLASH folder in
  map (fun p => folder +:+ "/" +:+ p.2)
    (filter (fun p => eq_ignore_ascii_case name p.1 = true) (omap (split_once SLASH) SHOPIFY_THEME_MARKERS)).

Definition is_contained (relative : string) : bool :=
  negb (String.eqb relative "") && negb (starts_with relative "/") && negb (str_contains BACKSLASH relative)
  && forallb (fun s => negb (String.eqb s "") && negb (String.eqb s "..") && negb (String.eqb s "."))
       (split_on SLASH relative).

Definition shopify_marker_theme (relative : string) : option string :=
  if negb (is_contained relative) then None else
  list_find (fun o => is_Some o)
    (map (fun marker =>
       let start := String.length relative - String.length marker in
       if (String.length marker <=? String.length relative)
          && eq_ignore_ascii_case (str_drop start relative) marker
       then match start with 0 => Some "" | _ => str_strip_suffix (str_take start relative) "/" end
       else None) SHOPIFY_THEME_MARKERS) ≫= snd.

Definition is_shopify_theme_marker (relative : string) : bool :=
  match shopify_marker_theme relative with Some _ => true | None => false end.

Definition is_shopify_theme (theme : string) (exists_ : string -> bool) : bool :=
  if negb (String.eqb theme "") && negb (is_contained theme) then false else
  existsb (fun marker => exists_ (if String.eqb theme "" then marker else theme +:+ "/" +:+ marker))
    SHOPIFY_THEME_MARKERS.

(** The loop over the segments but the last, from the one nearest the file. *)
Fixpoint theme_root_loop (segments : list string) (i : nat) (exists_ : string -> bool)
    (folders : list string) : option string :=
  match i with
  | 0 => None
  | S i =>
      let theme := join_slash (take i segments) in
      if match segments !! i with
         | Some segment => existsb (eq_ignore_ascii_case segment) folders
         | None => false
         end && is_shopify_theme theme exists_
      then Some theme else theme_root_loop segments i exists_ folders
  end.

Definition shopify_theme_root (relative : string) (exists_ : string -> bool)
    (folders : list string) : option string :=
  if negb (is_contained relative) then None else
  let segments := split_on SLASH relative in
  theme_root_loop segments (length segments - 1) exists_ folders.

(** The loop of [is_template_or_section_json]: each round drops a segment. *)
Fixpoint template_json_loop (segments : list string) : bool :=
  match segments with
  | segment :: (_ :: _) as after =>
      (5 <? String.length (join_slash after)) && existsb (eq_ignore_ascii_case segment) SHOPIFY_JSON_FOLDERS
      || template_json_loop after
  | _ => false
  end.

Definition is_template_or_section_json (relative : string) : bool :=
  (5 <=? String.length relative)
  && eq_ignore_ascii_case (str_drop (String.length relative - 5) relative) ".json"
  && template_json_loop (split_on SLASH relative).

(** ** Languages *)

(** The project's overrides: extension to language, and what exists under its
    root, when it has one. *)
Record ExtensionOverrides : Type := mkOverrides {
  ov_map : gmap string Language;
  ov_exists : option (string -> bool)
}.

Definition is_shopify_liquid_json (relative : string) (project_root : option (string -> bool)) : bool :=
  match project_root with
  | None => false
  | Some exists_ =>
      is_template_or_section_json relative
      && match shopify_theme_root relative exists_ SHOPIFY_JSON_FOLDERS with Some _ => true | None => false end
  end.

(** The extensions of the built-in languages, as the arms of the source. *)
Definition BUILTIN_EXTENSIONS : list (list string * Language) :=
  [(["ts"; "mts"; "cts"], LangTypeScript);
   (["tsx"], LangTsx);
   (["js"; "mjs"; "cjs"; "xsjs"; "xsjslib"], LangJavaScript);
   (["jsx"], LangJsx);
   (["ets"], LangArkTs);
   (["py"; "pyw"], LangPython);
   (["go"], LangGo);
   (["rs"], LangRust);
   (["java"], LangJava);
   (["c"; "h"], LangC);
   (["cpp"; "cc"; "cxx"; "hpp"; "hxx"], LangCpp);
   (["metal"; "cu"; "cuh"], LangCpp);
   (["cs"], LangCSharp);
   (["php"; "module"; "install"; "theme"; "inc"], LangPhp);
   (["rb"; "rake"], LangRuby);
   (["swift"], LangSwift);
   (["kt"; "kts"], LangKotlin);
   (["dart"], LangDart);
   (["vue"], LangVue);
   (["svelte"], LangSvelte);
   (["liquid"], LangLiquid);
   (["pas"; "dpr"; "dpk"; "lpr"; "dfm"; "fmx"], LangPascal);
   (["scala"; "sc"], LangScala);
   (["lua"], LangLua);
   (["gd"], LangGdscript);
   (["tscn"], LangGodotScene);
   (["tres"], LangGodotResource);
   (["luau"], LangLuau);
   (["m"; "mm"], LangObjC);
   (["r"], LangR);
   (["sol"], LangSolidity);
   (["nix"], LangNix);
   (["tf"; "tfvars"; "tofu"], LangTerraform);
   (["erl"; "hrl"], LangErlang);
   (["cfc"; "cfm"; "cfs"], LangCfml);
   (["yml"; "yaml"], LangYaml);
   (["twig"], LangTwig);
   (["xml"], LangXml);
   (["properties"], LangProperties)].

Definition builtin_language_for_ext (ext : string) : option Language :=
  snd <$> (snd <$> list_find (fun arm => ext ∈ arm.1) BUILTIN_EXTENSIONS).

Definition detect_embedded_language (file_path : string) : option Language :=
  ext ← extension file_path;
  match to_ascii_lowercase ext with
  | "svelte" => Some LangSvelte
  | "vue" => Some LangVue
  | "astro" => Some LangAstro
  | "liquid" => Some LangLiquid
  | "razor" | "cshtml" => Some LangRazor
  | "xml" => Some LangXml
  | _ => None
  end.

Definition is_dfm_form_path (file_path : string) : bool :=
  match to_ascii_lowercase <$> extension file_path with
  | Some "dfm" | Some "fmx" => true
  | _ => false
  end.

Definition is_embedded_source_path (file_path : string) (project_root : option (string -> bool)) : bool :=
  match detect_embedded_language file_path with Some _ => true | None => false end
  || is_dfm_form_path file_path || is_shopify_liquid_json file_path project_root.

Definition detect_language_with (path : string) (overrides : ExtensionOverrides) : Language :=
  let normalized := normalize_path path in
  if is_shopify_liquid_json normalized (ov_exists overrides) then LangLiquid else
  match detect_embedded_language normalized with
  | Some language => language
  | None =>
      if bool_decide (file_name path = Some "project.godot") then LangGodotProject else
      match extension path with
      | None => LangUnknown
      | Some ext =>
          let ext := to_ascii_lowercase ext in
          match builtin_language_for_ext ext with
          | Some language => language
          | None => default LangUnknown (ov_map overrides !! ext)
          end
      end
  end.

(** [spec_for_language(..).is_some()]. *)
Definition has_spec (language : Language) : bool :=
  match language with
  | LangTypeScript | LangTsx | LangJavaScript | LangJsx | LangArkTs | LangPython | LangGo | LangRust | LangJava | LangC | LangCpp | LangCSharp | LangRuby | LangPhp | LangScala | LangLua | LangLuau | LangDart | LangKotlin | LangSwift | LangPascal | LangObjC | LangR | LangSolidity | LangNix | LangTerraform | LangErlang | LangCfml | LangGdscript => true
  | _ => false
  end.

Definition is_file_level_only_language (language : Language) : bool :=
  match language with
  | LangYaml | LangTwig | LangProperties | LangGodotScene | LangGodotResource | LangGodotProject => true
  | _ => false
  end.

Definition is_extractable_source_path (relative : string) (overrides : ExtensionOverrides) : bool :=
  let language := detect_language_with relative overrides in
  negb (bool_decide (language = LangUnknown))
  && (has_spec language || is_embedded_source_path relative (ov_exists overrides)
      || is_file_level_only_language language).

(** [maybe_deleted_source] (codegraph-watch/src/watcher.rs). *)
Definition maybe_deleted_source (relative : string) : bool :=
  match rsplit_once "." relative with
  | Some (_, ext) => match builtin_language_for_ext (to_ascii_lowercase ext) with Some _ => true | None => false end
  | None => false
  end.

(** ** Facts *)

Lemma extractable_known relative overrides :
  is_extractable_source_path relative overrides = true ->
  detect_language_with relative overrides <> LangUnknown.
Proof. unfold is_extractable_source_path. intros [H _]%andb_true_iff. by case_bool_decide. Qed.
