(* ===== verification/ScanRules.v ===== *)
(** * The scan's rules, and the membership of one path
      (codegraph-extract/src/engine.rs; of codegraph-core/src/config.rs,
      [is_jvm_source_build_dir])

    A path under the project is the list of its components. The [ignore]
    crate's matcher of the git rules is an argument. *)
From S2P Require Import Prelude Types Strings PathUtil StrOps LangDetect.

(** ** Patterns *)

(** [pattern_matches], with [include_exclude_pattern_matches]. *)
Definition pattern_matches (relative pattern : string) : bool :=
  match str_strip_suffix pattern "/" with
  | Some dir => String.eqb relative dir || starts_with relative (dir +:+ "/")
  | None =>
      match str_strip_suffix pattern "*" with
      | Some prefix => starts_with relative prefix
      | None => String.eqb relative pattern || ends_with relative ("/" +:+ pattern)
      end
  end.

Definition include_static_stem (pattern : string) : string :=
  let p := trim_end_matches SLASH pattern in
  match split_once "*" p with
  | Some (prefix, _) => trim_end_matches SLASH prefix
  | None => p
  end.

Definition include_touches_dir (dir pattern : string) : bool :=
  if negb (str_contains SLASH pattern) && negb (ends_with pattern "*") then true else
  let stem := include_static_stem pattern in
  if String.eqb stem "" then true else
  String.eqb dir stem || starts_with dir (stem +:+ "/") || starts_with stem (dir +:+ "/").

Definition include_file_matches (relative pattern : string) : bool :=
  match match str_strip_suffix pattern "/**" with
        | Some prefix => Some prefix
        | None => if String.eqb pattern "**" then Some "" else None
        end with
  | Some prefix => String.eqb prefix "" || String.eqb relative prefix || starts_with relative (prefix +:+ "/")
  | None => pattern_matches relative pattern
  end.

(** One pattern of the last-match-wins stream. *)
Definition apply_pattern (relative : string) (ignored : bool) (pattern : string) : bool :=
  match str_strip_prefix "!" pattern with
  | Some negated => if pattern_matches relative negated then false else ignored
  | None => if pattern_matches relative pattern then true else ignored
  end.

Definition is_path_ignored (relative : string) (pattern_sets : list (list string))
    (gitignore : option bool) : bool :=
  default (fold_left (fun ignored set => fold_left (apply_pattern relative) set ignored) pattern_sets false)
    gitignore.

Record IncludeSet : Type := mkIncludeSet { inc_include : list string; inc_exclude : list string }.

Definition forces (self : IncludeSet) (relative : string) : bool :=
  match inc_include self with
  | [] => false
  | include => existsb (include_file_matches relative) include
               && negb (existsb (pattern_matches relative) (inc_exclude self))
  end.

Definition wants_descend (self : IncludeSet) (relative : string) : bool :=
  match inc_include self with
  | [] => false
  | include =>
      if existsb (pattern_matches relative) (inc_exclude self) then false
      else existsb (include_touches_dir relative) include
  end.

(** ** The git rules *)

(** [RootGitignore]: the rules of the [ignore] crate, when there are any. *)
Record RootGitignore : Type := mkRootGitignore { matcher : option (string -> bool -> option bool) }.

Definition matched (self : RootGitignore) (relative : string) (is_dir : bool) : option bool :=
  match matcher self with Some m => m relative is_dir | None => None end.

Record GitignoreAncestry : Set := mkAncestry { anc_ignored : bool; anc_reincluded : bool }.

Definition ancestry_default : GitignoreAncestry := mkAncestry false false.

Definition child (self : GitignoreAncestry) (own : option bool) : GitignoreAncestry :=
  mkAncestry (anc_ignored self || bool_decide (own = Some true))
    (anc_reincluded self || bool_decide (own = Some false)).

Definition decide_ancestry (self : GitignoreAncestry) (own : option bool) : option bool :=
  if anc_ignored self then Some true
  else match own with
       | Some v => Some v
       | None => if anc_reincluded self then Some false else None
       end.

(** The proper prefixes of a path that end before a slash, shortest first. *)
Fixpoint slash_prefixes (before s : string) : list string :=
  match s with
  | EmptyString => []
  | String a s =>
      if Ascii.eqb a SLASH then before :: slash_prefixes (before +:+ String a "") s
      else slash_prefixes (before +:+ String a "") s
  end.

(** [RootGitignore::verdict]. *)
Definition verdict (self : RootGitignore) (relative : string) (is_dir : bool) : option bool :=
  match matcher self with
  | None => None
  | Some _ =>
      let above := fold_left (fun above dir => child above (matched self dir true))
                     (slash_prefixes "" relative) ancestry_default in
      decide_ancestry above (matched self relative is_dir)
  end.

(** ** JVM packages named build *)

Definition is_jvm_language (s : string) : bool :=
  String.eqb s "java" || String.eqb s "kotlin" || String.eqb s "scala".

Definition is_jvm_source_build_dir (relative_dir : string) : bool :=
  let segments := split_on SLASH relative_dir in
  let last := length segments - 1 in
  bool_decide (segments !! last = Some "build")
  && existsb (fun index =>
       bool_decide (segments !! index = Some "src") && (index + 2 <? last)
       && match segments !! (index + 2) with Some s => is_jvm_language s | None => false end)
     (seq 0 last).

(** ** The rules of one entry *)

Inductive EntryDecision : Set :=
| Skip
| Descend (next : GitignoreAncestry)
| File (extractable : bool).

(** The relative spelling of a path. *)
Definition relative_of (path : list string) : string := str_replace BACKSLASH SLASH (join_slash path).

(** [ScanRules]; the reserved index roots are those inside the project. *)
Record ScanRules : Type := mkScanRules {
  ignored_dirs : list string;
  reserved_roots : list (list string);
  pattern_sets : list (list string);
  gitignore : RootGitignore;
  include : IncludeSet;
  overrides : ExtensionOverrides
}.

(** [ScanRules::prunes_by_name], of the entry [name] of the directory [dir]. *)
Definition prunes_by_name (self : ScanRules) (dir : list string) (name relative : string)
    (resolves_to_dir : bool) : bool :=
  let is_reserved_root_here :=
    (bool_decide (dir = []) && String.eqb name ".git")
    || bool_decide (dir ++ [name] ∈ reserved_roots self) in
  let jvm_package := String.eqb name "build" && is_jvm_source_build_dir relative && resolves_to_dir in
  is_reserved_root_here || (bool_decide (name ∈ ignored_dirs self) && negb jvm_package).

(** [ScanRules::decide]. *)
Definition decide_entry (self : ScanRules) (relative : string) (is_dir : bool)
    (above : GitignoreAncestry) : EntryDecision :=
  let own := matched (gitignore self) relative is_dir in
  let ignored := is_path_ignored relative (pattern_sets self) (decide_ancestry above own) in
  if is_dir then
    if ignored && negb (wants_descend (include self) relative) then Skip else Descend (child above own)
  else if negb ignored || forces (include self) relative
  then File (is_extractable_source_path relative (overrides self))
  else Skip.

(** ** What is on disk *)

(** What [symlink_metadata] says of an entry. *)
Inductive Kind : Set := KFile | KDir | KLink | KOther.

#[export] Instance Kind_eq_dec : EqDecision Kind.
Proof. solve_decision. Defined.

(** What [metadata] says of a symlink: where it leads, and what is there. *)
Inductive Target : Set := TDir (canonical : list string) | TFile (canonical : list string) | TNone.

(** A file system, by canonical paths from its root: the entries of each
    directory in the order they are read, and where each symlink leads. *)
Record Fs : Type := mkFs {
  fs_dirs : gmap (list string) (list (string * Kind));
  fs_links : gmap (list string) Target
}.

Definition entry_kind (fs : Fs) (dir : list string) (name : string) : option Kind :=
  entries ← fs_dirs fs !! dir;
  snd <$> (snd <$> list_find (fun e => e.1 = name) entries).

Definition link_target (fs : Fs) (path : list string) : Target := default TNone (fs_links fs !! path).

(** ** One path *)

(** [Membership], its variants with a letter in front. *)
Inductive Membership : Set := MAdmitted | MRejected | MUnknown.

Section Membership.
Variables (fs : Fs) (canonical_root : list string) (rules : ScanRules).

(** The components from [parent] on; [root.join(parent)] is a real directory. *)
Fixpoint membership_loop (parent components : list string) (dir : bool)
    (above : GitignoreAncestry) : Membership :=
  match components with
  | [] => MAdmitted
  | name :: components =>
      let path := parent ++ [name] in
      let partial := join_slash path in
      match entry_kind fs (canonical_root ++ parent) name with
      | None => MRejected
      | Some KLink => MUnknown
      | Some kind =>
          let is_dir := bool_decide (kind = KDir) in
          if prunes_by_name rules parent name partial is_dir then MRejected else
          if bool_decide (components = []) && negb dir then
            if bool_decide (kind = KFile) then
              match decide_entry rules partial false above with
              | File true => MAdmitted
              | _ => MRejected
              end
            else MRejected
          else if negb is_dir then MRejected else
          match decide_entry rules partial true above with
          | Descend next => membership_loop path components dir next
          | _ => MRejected
          end
      end
  end.

(** [scan_membership]. *)
Definition scan_membership (relative : string) (dir : bool) : Membership :=
  let components := filter (fun c => c <> "") (split_on SLASH relative) in
  if bool_decide (components = []) || existsb (fun c => String.eqb c "." || String.eqb c "..") components
  then MRejected
  else membership_loop [] components dir ancestry_default.

End Membership.
