(* ===== verification/ScanWalk.v ===== *)
(** * The scan of a project (codegraph-extract/src/engine.rs, links.rs)

    The walk over the real tree and then, fewest hops first, over the
    directories that symlinks lead to. [scan_dir] takes fuel for the depth of
    the tree, the loop over the queued links for the directories there are. *)
From S2P Require Import Prelude Types Strings PathUtil StrOps LangDetect ScanRules.

(** ** The links of one walk (links.rs) *)

(** A queued link: its path in the project, where it is, the rules' state. *)
Record QueuedLink : Type := mkQueued {
  ql_path : list string;
  ql_location : list string;
  ql_state : GitignoreAncestry
}.

Definition Key : Type := nat * string.

Definition key_le (a b : Key) : bool :=
  (a.1 <? b.1) || ((a.1 =? b.1) && str_le a.2 b.2).

(** [BTreeMap::entry(..).or_insert(..)]: in the order of the keys, and an
    entry that is there stays. *)
Fixpoint queue_insert (k : Key) (v : QueuedLink) (q : list (Key * QueuedLink)) : list (Key * QueuedLink) :=
  match q with
  | [] => [(k, v)]
  | (k', v') :: q' =>
      if decide (k = k') then q
      else if key_le k k' then (k, v) :: q else (k', v') :: queue_insert k v q'
  end.

Record LinkWalk : Type := mkLinkWalk {
  lw_root : option (list string);
  lw_blocked : list (list string);
  lw_scanned : gmap (list string) string;
  lw_queue : list (Key * QueuedLink)
}.

Definition is_blocked (self : LinkWalk) (canonical : list string) : bool :=
  existsb (fun blocked => bool_decide (blocked `prefix_of` canonical)) (lw_blocked self).

Definition enter (self : LinkWalk) (canonical : list string) (relative : string) : bool * LinkWalk :=
  if is_blocked self canonical then (false, self) else
  match lw_scanned self !! canonical with
  | Some _ => (false, self)
  | None => (true, mkLinkWalk (lw_root self) (lw_blocked self)
                     (<[canonical := relative]> (lw_scanned self)) (lw_queue self))
  end.

Definition queue (self : LinkWalk) (hops : nat) (relative : string) (link : QueuedLink) : LinkWalk :=
  mkLinkWalk (lw_root self) (lw_blocked self) (lw_scanned self)
    (queue_insert (hops, relative) link (lw_queue self)).

Definition set_queue (q : list (Key * QueuedLink)) (self : LinkWalk) : LinkWalk :=
  mkLinkWalk (lw_root self) (lw_blocked self) (lw_scanned self) q.

Record LinkedDir : Type := mkLinked {
  ld_hops : nat;
  ld_relative : string;
  ld_path : list string;
  ld_canonical : list string;
  ld_state : GitignoreAncestry
}.

(** [canonicalize] of a symlink. *)
Definition canonicalize (fs : Fs) (location : list string) : option (list string) :=
  match link_target fs location with TDir c | TFile c => Some c | TNone => None end.

Definition file_target (fs : Fs) (self : LinkWalk) (location : list string) : option (list string) :=
  match lw_root self with
  | None => None
  | Some _ => canonical ← canonicalize fs location;
              if is_blocked self canonical then None else Some canonical
  end.

(** The loop of [next], over the queue. *)
Fixpoint next_loop (fs : Fs) (root : list string) (q : list (Key * QueuedLink)) (self : LinkWalk)
    : option LinkedDir * LinkWalk :=
  match q with
  | [] => (None, set_queue [] self)
  | ((hops, relative), link) :: q =>
      match canonicalize fs (ql_location link) with
      | None => next_loop fs root q self
      | Some canonical =>
          if bool_decide (canonical `prefix_of` root)
             || negb (bool_decide (is_Some (fs_dirs fs !! canonical)))
          then next_loop fs root q self else
          match enter self canonical relative with
          | (false, self) => next_loop fs root q self
          | (true, self) =>
              (Some (mkLinked hops relative (ql_path link) canonical (ql_state link)), set_queue q self)
          end
      end
  end.

Definition next (fs : Fs) (self : LinkWalk) : option LinkedDir * LinkWalk :=
  match lw_root self with
  | None => (None, self)
  | Some root => next_loop fs root (lw_queue self) self
  end.

(** ** The walk (engine.rs) *)

Inductive LinkKind : Set := LinkFile | LinkDir.

Record FollowedLink : Type := mkFollowed {
  fl_relative : string;
  fl_canonical : list string;
  fl_kind : LinkKind
}.

Record ScanWalk : Type := mkScanWalk {
  sw_links : LinkWalk;
  sw_files : list string;
  sw_unsupported : gmap string nat;
  sw_followed : list FollowedLink;
  sw_linked_dirs : list string;
  sw_file_links : list (string * list string)
}.

Definition with_links (l : LinkWalk) (w : ScanWalk) : ScanWalk :=
  mkScanWalk l (sw_files w) (sw_unsupported w) (sw_followed w) (sw_linked_dirs w) (sw_file_links w).
Definition push_file (f : string) (w : ScanWalk) : ScanWalk :=
  mkScanWalk (sw_links w) (sw_files w ++ [f]) (sw_unsupported w) (sw_followed w) (sw_linked_dirs w) (sw_file_links w).
Definition count_unsupported (e : string) (w : ScanWalk) : ScanWalk :=
  mkScanWalk (sw_links w) (sw_files w) (partial_alter (fun n => Some (S (default 0 n))) e (sw_unsupported w))
    (sw_followed w) (sw_linked_dirs w) (sw_file_links w).
Definition push_followed (f : FollowedLink) (w : ScanWalk) : ScanWalk :=
  mkScanWalk (sw_links w) (sw_files w) (sw_unsupported w) (sw_followed w ++ [f]) (sw_linked_dirs w) (sw_file_links w).
Definition push_linked_dir (d : string) (w : ScanWalk) : ScanWalk :=
  mkScanWalk (sw_links w) (sw_files w) (sw_unsupported w) (sw_followed w) (sw_linked_dirs w ++ [d]) (sw_file_links w).
Definition push_file_link (l : string * list string) (w : ScanWalk) : ScanWalk :=
  mkScanWalk (sw_links w) (sw_files w) (sw_unsupported w) (sw_followed w) (sw_linked_dirs w) (sw_file_links w ++ [l]).

Definition unsupported_extension (relative : string) : option string :=
  ext ← extension relative;
  if String.eqb ext "" then None else Some ("." +:+ to_ascii_lowercase ext).

Section Walk.
Variables (fs : Fs) (rules : ScanRules).

(** What an entry is, links resolved: a directory or not, a link or not. *)
Definition entry_type (location : list string) (kind : Kind) : option (bool * bool) :=
  match kind with
  | KLink => match link_target fs location with
             | TDir _ => Some (true, true)
             | TFile _ => Some (false, true)
             | TNone => None
             end
  | KDir => Some (true, false)
  | KFile => Some (false, false)
  | KOther => None
  end.

Definition resolves_to_dir (location : list string) (kind : Kind) : bool :=
  match entry_type location kind with Some (is_dir, _) => is_dir | None => false end.

(** An admitted file: [target] is where a link to it leads. *)
Definition scan_file (relative : string) (extractable : bool) (target : option (list string))
    (w : ScanWalk) : ScanWalk :=
  if extractable then
    push_file relative
      match target with
      | Some target => push_file_link (relative, target) (push_followed (mkFollowed relative target LinkFile) w)
      | None => w
      end
  else match unsupported_extension relative with
       | Some e => count_unsupported e w
       | None => w
       end.

(** [scan_dir]: the error is that of a directory that cannot be read. *)
Fixpoint scan_dir (fuel : nat) (dir canonical_dir : list string) (above : GitignoreAncestry) (hops : nat)
    (w : ScanWalk) : result (list string) ScanWalk :=
  match fuel with
  | 0 => OutOfFuel
  | S fuel =>
      match fs_dirs fs !! canonical_dir with
      | None => Err dir
      | Some entries =>
          for_M (fun w '(name, kind) =>
            let path := dir ++ [name] in
            let location := canonical_dir ++ [name] in
            let relative := relative_of path in
            if prunes_by_name rules dir name relative (resolves_to_dir location kind)
            then Ok (Continue w) else
            match entry_type location kind with
            | None => Ok (Continue w)
            | Some (is_dir, is_link) =>
                match decide_entry rules relative is_dir above with
                | Skip => Ok (Continue w)
                | Descend next =>
                    if is_link
                    then Ok (Continue (with_links
                           (queue (sw_links w) (S hops) relative (mkQueued path location next)) w))
                    else
                      let '(entered, links) := enter (sw_links w) location relative in
                      let w := with_links links w in
                      if negb entered then Ok (Continue w) else
                      let w := if 0 <? hops then push_linked_dir relative w else w in
                      w ← scan_dir fuel path location next hops w;
                      Ok (Continue w)
                | File extractable =>
                    if is_link then
                      match file_target fs (sw_links w) location with
                      | Some target => Ok (Continue (scan_file relative extractable (Some target) w))
                      | None => Ok (Continue w)
                      end
                    else Ok (Continue (scan_file relative extractable None w))
                end
            end) w entries
      end
  end.

(** The [while let] over the queued links. *)
Fixpoint scan_links (fuel depth : nat) (w : ScanWalk) : result (list string) ScanWalk :=
  match fuel with
  | 0 => OutOfFuel
  | S fuel =>
      match next fs (sw_links w) with
      | (None, links) => Ok (with_links links w)
      | (Some linked, links) =>
          let w := with_links links w in
          let w := push_followed (mkFollowed (ld_relative linked) (ld_canonical linked) LinkDir) w in
          let w := push_linked_dir (ld_relative linked) w in
          w ← scan_dir depth (ld_path linked) (ld_canonical linked) (ld_state linked) (ld_hops linked) w;
          scan_links fuel depth w
      end
  end.

End Walk.

(** ** The result *)

Record ScanProjectResult : Type := mkScanResult {
  sr_files : list string;
  sr_unsupported : gmap string nat;
  sr_links : list FollowedLink;
  sr_linked_dirs : list string;
  sr_file_aliases : gmap string (list string)
}.

(** The logical path of a file link's target, when its directory was scanned. *)
Definition primary_path (links : LinkWalk) (target : list string) : option string :=
  name ← last target;
  dir ← lw_scanned links !! removelast target;
  Some (if String.eqb dir "" then name else dir +:+ "/" +:+ name).

Definition add_alias (links : LinkWalk) (m : gmap string (list string)) (l : string * list string)
    : gmap string (list string) :=
  match primary_path links l.2 with
  | Some primary => <[primary := default [] (m !! primary) ++ [l.1]]> m
  | None => m
  end.

Definition finish (w : ScanWalk) : ScanProjectResult :=
  mkScanResult (sort_by str_le (sw_files w)) (sw_unsupported w)
    (sort_by (fun a b => str_le (fl_relative a) (fl_relative b)) (sw_followed w))
    (sort_by str_le (sw_linked_dirs w))
    (sort_by str_le <$> fold_left (add_alias (sw_links w)) (sw_file_links w) ∅).

(** [scan_project_with_stats]: [canonical_root] is the root's canonical path
    if it has one, [root] its own, [blocked] the canonical paths of [.git] and
    of the reserved roots that exist. *)
Definition depth_of (fs : Fs) : nat := S (list_max (map length (elements (dom (fs_dirs fs))))).

Definition new_walk (canonical_root : option (list string)) (blocked : list (list string)) : ScanWalk :=
  mkScanWalk (mkLinkWalk canonical_root blocked ∅ []) [] ∅ [] [] [].

Definition scan_project_with_stats (fs : Fs) (rules : ScanRules) (root : list string)
    (canonical_root : option (list string)) (blocked : list (list string))
    : result (list string) ScanProjectResult :=
  let walk := new_walk canonical_root blocked in
  let canonical := default root canonical_root in
  let '(_, links) := enter (sw_links walk) canonical "" in
  let walk := with_links links walk in
  walk ← scan_dir fs rules (S (depth_of fs)) [] canonical ancestry_default 0 walk;
  walk ← scan_links fs rules (S (size (dom (fs_dirs fs)))) (S (depth_of fs)) walk;
  Ok (finish walk).
