(* ===== verification/ScanFacts.v ===== *)
(** * Facts on the scan

    What one walk finds, as a list that does not depend on what the walk has
    entered itself; the walk does what that list says ([scan_dir_found]), so a
    permutation of the entries only permutes what is found. *)
From S2P Require Import Prelude Strings Types PathUtil StrOps LangDetect ScanRules ScanWalk.

Definition plain_name (n : string) : Prop :=
  n <> "" /\ str_contains SLASH n = false /\ str_contains BACKSLASH n = false /\ n <> "." /\ n <> "..".

(** What every file system promises: a directory can be read and lists each
    name once. *)
Record wf_fs (fs : Fs) : Prop := {
  wf_nodup : forall c entries, fs_dirs fs !! c = Some entries -> NoDup (map fst entries);
  wf_child : forall c entries n, fs_dirs fs !! c = Some entries -> (n, KDir) ∈ entries ->
    is_Some (fs_dirs fs !! (c ++ [n]))
}.

(** ** What a walk finds *)

Inductive Found : Type :=
| FEnter (canonical : list string) (relative : string) (linked : bool)
| FLink (hops : nat) (relative : string) (link : QueuedLink)
| FFile (relative : string) (extractable : bool) (target : option (list string)).

Definition add_scanned (c : list string) (r : string) (l : LinkWalk) : LinkWalk :=
  mkLinkWalk (lw_root l) (lw_blocked l) (<[c := r]> (lw_scanned l)) (lw_queue l).

Definition apply_found (w : ScanWalk) (x : Found) : ScanWalk :=
  match x with
  | FEnter c r linked =>
      let w := with_links (add_scanned c r (sw_links w)) w in
      if linked then push_linked_dir r w else w
  | FLink hops r link => with_links (queue (sw_links w) hops r link) w
  | FFile r e target => scan_file r e target w
  end.

Section Found.
Variables (fs : Fs) (rules : ScanRules) (links0 : LinkWalk).

Definition entry_found (below : list string -> list string -> GitignoreAncestry -> list Found)
    (dir c : list string) (above : GitignoreAncestry) (hops : nat) (e : string * Kind) : list Found :=
  let '(name, kind) := e in
  let path := dir ++ [name] in
  let location := c ++ [name] in
  let relative := relative_of path in
  if prunes_by_name rules dir name relative (resolves_to_dir fs location kind) then [] else
  match entry_type fs location kind with
  | None => []
  | Some (is_dir, is_link) =>
      match decide_entry rules relative is_dir above with
      | Skip => []
      | Descend next =>
          if is_link then [FLink (S hops) relative (mkQueued path location next)]
          else if is_blocked links0 location || bool_decide (is_Some (lw_scanned links0 !! location)) then []
          else FEnter location relative (0 <? hops) :: below path location next
      | File extractable =>
          if is_link then
            match file_target fs links0 location with
            | Some target => [FFile relative extractable (Some target)]
            | None => []
            end
          else [FFile relative extractable None]
      end
  end.

Fixpoint found (fuel : nat) (dir c : list string) (above : GitignoreAncestry) (hops : nat) : list Found :=
  match fuel with
  | 0 => []
  | S fuel =>
      default [] (fs_dirs fs !! c)
        ≫= entry_found (fun dir c above => found fuel dir c above hops) dir c above hops
  end.

(** ** The walk does what is found *)

(** The directories that [c] is an ancestor of, itself included. *)
Definition agree_below (c : list string) (w : ScanWalk) : Prop :=
  forall rest, lw_scanned (sw_links w) !! (c ++ rest) = lw_scanned links0 !! (c ++ rest).

Definition same_walk (w : ScanWalk) : Prop :=
  lw_root (sw_links w) = lw_root links0 /\ lw_blocked (sw_links w) = lw_blocked links0.

Lemma apply_found_same x w : same_walk w -> same_walk (apply_found w x).
Proof.
  intros [Hr Hb]. destruct x; cbn.
  - destruct linked; by split.
  - by split.
  - unfold scan_file. destruct extractable; [by destruct target; split|].
    destruct (unsupported_extension relative); by split.
Qed.

Definition enters (x : Found) (c : list string) : Prop :=
  match x with FEnter c' _ _ => c' = c | _ => False end.

Lemma apply_found_scanned x w c :
  ~ enters x c -> lw_scanned (sw_links (apply_found w x)) !! c = lw_scanned (sw_links w) !! c.
Proof.
  destruct x; cbn; intros Hx.
  - destruct linked; cbn; by rewrite lookup_insert_ne.
  - done.
  - unfold scan_file. destruct extractable; [by destruct target|].
    by destruct (unsupported_extension relative).
Qed.

Lemma fold_found_same xs w : same_walk w -> same_walk (fold_left apply_found xs w).
Proof. revert w. induction xs as [|x xs IH]; intros w Hw; [done|]. by apply IH, apply_found_same. Qed.

Lemma fold_found_scanned xs w c :
  (forall x, x ∈ xs -> ~ enters x c) ->
  lw_scanned (sw_links (fold_left apply_found xs w)) !! c = lw_scanned (sw_links w) !! c.
Proof.
  revert w. induction xs as [|x xs IH]; intros w Hx; [done|]. cbn.
  rewrite IH by (intros; apply Hx; set_solver). apply apply_found_scanned, Hx. set_solver.
Qed.

(** What is entered from a directory lies below it. *)
Lemma entry_found_enters below dir c above hops name kind x c' :
  (forall d c a x c', x ∈ below d c a -> enters x c' -> exists rest, c' = c ++ rest) ->
  x ∈ entry_found below dir c above hops (name, kind) -> enters x c' ->
  exists rest, c' = (c ++ [name]) ++ rest.
Proof.
  intros Hb Hx He. unfold entry_found in Hx. destruct (prunes_by_name _ _ _ _ _); [by set_solver|].
  destruct (entry_type fs _ kind) as [[is_dir is_link]|]; [|by set_solver].
  destruct (decide_entry _ _ _ _) as [|next|ex]; [by set_solver| |].
  - destruct is_link; [apply list_elem_of_singleton in Hx; by subst|].
    destruct (_ || _); [by set_solver|]. apply elem_of_cons in Hx as [->|Hx]; [|by eapply Hb].
    cbn in He. subst. exists []. by rewrite app_nil_r.
  - destruct is_link; [destruct (file_target _ _ _); [|by set_solver]|];
      apply list_elem_of_singleton in Hx; by subst.
Qed.

Lemma found_enters fuel dir c above hops x c' :
  x ∈ found fuel dir c above hops -> enters x c' -> exists rest, c' = c ++ rest.
Proof.
  revert dir c above x c'. induction fuel as [|fuel IH]; intros dir c above x c'; cbn; [by set_solver|].
  rewrite list_elem_of_bind. intros ([name kind] & Hx & _) He.
  destruct (entry_found_enters _ dir c above hops name kind x c' IH Hx He) as [rest ->].
  exists ([name] ++ rest). by rewrite app_assoc.
Qed.

(** One entry of the walk. *)
Lemma is_blocked_same w c : same_walk w -> is_blocked (sw_links w) c = is_blocked links0 c.
Proof. unfold is_blocked. by intros [_ ->]. Qed.

Lemma file_target_same w location :
  same_walk w -> file_target fs (sw_links w) location = file_target fs links0 location.
Proof.
  intros Hw. unfold file_target. destruct (Hw) as [-> _]. destruct (lw_root links0); [|done].
  destruct (canonicalize fs location); cbn; [|done]. by rewrite (is_blocked_same w).
Qed.

Lemma with_links_self w : with_links (sw_links w) w = w.
Proof. by destruct w. Qed.

(** The body of the loop of [scan_dir]. *)
Definition scan_entry (rec : list string -> list string -> GitignoreAncestry -> ScanWalk ->
      result (list string) ScanWalk)
    (dir c : list string) (above : GitignoreAncestry) (hops : nat) (w : ScanWalk) (e : string * Kind)
    : result (list string) (loop_step ScanWalk) :=
  let '(name, kind) := e in
  let path := dir ++ [name] in
  let location := c ++ [name] in
  let relative := relative_of path in
  if prunes_by_name rules dir name relative (resolves_to_dir fs location kind)
  then Ok (Continue w) else
  match entry_type fs location kind with
  | None => Ok (Continue w)
  | Some (is_dir, is_link) =>
      match decide_entry rules relative is_dir above with
      | Skip => Ok (Continue w)
      | Descend next =>
          if is_link
          then Ok (Continue (with_links
                 (queue (sw_links w) (S hops) relative (mkQueued path location next)) w))
          else
            let '(entered, links) := enter (sw_links w) location relative in
            let w := with_links links w in
            if negb entered then Ok (Continue w) else
            let w := if 0 <? hops then push_linked_dir relative w else w in
            w ← rec path location next w;
            Ok (Continue w)
      | File extractable =>
          if is_link then
            match file_target fs (sw_links w) location with
            | Some target => Ok (Continue (scan_file relative extractable (Some target) w))
            | None => Ok (Continue w)
            end
          else Ok (Continue (scan_file relative extractable None w))
      end
  end.

Lemma scan_dir_S fuel dir c above hops w :
  scan_dir fs rules (S fuel) dir c above hops w =
  match fs_dirs fs !! c with
  | None => Err dir
  | Some entries =>
      for_M (scan_entry (fun dir c above w => scan_dir fs rules fuel dir c above hops w) dir c above hops)
        w entries
  end.
Proof. reflexivity. Qed.

Lemma decide_descend rs relative is_dir above next :
  decide_entry rs relative is_dir above = Descend next ->
  is_dir = true /\ next = child above (matched (gitignore rs) relative true).
Proof.
  unfold decide_entry. destruct is_dir.
  - destruct (_ && _); [done|]. by intros [= <-].
  - by destruct (_ || _).
Qed.

Lemma decide_file rs relative is_dir above ex :
  decide_entry rs relative is_dir above = File ex ->
  is_dir = false /\ ex = is_extractable_source_path relative (overrides rs).
Proof.
  unfold decide_entry. destruct is_dir.
  - by destruct (_ && _).
  - destruct (_ || _); [|done]. by intros [= <-].
Qed.

Lemma scan_entry_found rec below dir c above hops name kind w :
  same_walk w -> agree_below (c ++ [name]) w ->
  (forall next w', same_walk w' -> (forall rest, rest <> [] ->
      lw_scanned (sw_links w') !! ((c ++ [name]) ++ rest) = lw_scanned links0 !! ((c ++ [name]) ++ rest)) ->
    kind = KDir ->
    rec (dir ++ [name]) (c ++ [name]) next w'
    = Ok (fold_left apply_found (below (dir ++ [name]) (c ++ [name]) next) w')) ->
  scan_entry rec dir c above hops w (name, kind)
  = Ok (Continue (fold_left apply_found (entry_found below dir c above hops (name, kind)) w)).
Proof.
  intros Hw Hagree Hrec. unfold scan_entry, entry_found.
  destruct (prunes_by_name _ _ _ _ _); [done|].
  destruct (entry_type fs (c ++ [name]) kind) as [[is_dir is_link]|] eqn:Hty; [|done].
  destruct (decide_entry _ _ _ _) as [|next|ex] eqn:Hdec; [done| |].
  - destruct is_link; [done|]. unfold enter. rewrite (is_blocked_same w) by done.
    pose proof (Hagree []) as Hhere. rewrite app_nil_r in Hhere. rewrite Hhere.
    destruct (is_blocked links0 _); cbn; [by rewrite with_links_self|].
    destruct (lw_scanned links0 !! (c ++ [name])) eqn:Hl; cbn; [by rewrite with_links_self|].
    rewrite Hrec; [by destruct hops|..].
    + destruct hops; by apply Hw.
    + intros rest Hrest. rewrite <- Hagree. destruct hops; cbn; rewrite lookup_insert_ne; try done;
        intros E; apply (f_equal length) in E; rewrite !length_app in E; destruct rest; cbn in E; done || lia.
    + destruct (decide_descend _ _ _ _ _ Hdec) as [-> _].
      destruct kind; try done. unfold entry_type in Hty. by destruct (link_target fs (c ++ [name])).
  - destruct is_link; [|done]. rewrite (file_target_same w) by done. by destruct (file_target _ _ _).
Qed.

Definition deep_enough (fuel : nat) (c : list string) : Prop :=
  forall c', is_Some (fs_dirs fs !! c') -> length c' < length c + fuel.

(** The entries of a directory, one after another. *)
Lemma scan_entries_found fuel dir c above hops entries w :
  wf_fs fs ->
  (forall n, (n, KDir) ∈ entries -> is_Some (fs_dirs fs !! (c ++ [n]))) ->
  (forall dir c above w, is_Some (fs_dirs fs !! c) -> deep_enough fuel c -> same_walk w ->
    (forall rest, rest <> [] -> lw_scanned (sw_links w) !! (c ++ rest) = lw_scanned links0 !! (c ++ rest)) ->
    scan_dir fs rules fuel dir c above hops w
    = Ok (fold_left apply_found (found fuel dir c above hops) w)) ->
  deep_enough (S fuel) c ->
  same_walk w -> NoDup (map fst entries) ->
  (forall n, n ∈ map fst entries -> agree_below (c ++ [n]) w) ->
  for_M (scan_entry (fun dir c above w => scan_dir fs rules fuel dir c above hops w) dir c above hops) w entries
  = Ok (fold_left apply_found
          (entries ≫= entry_found (fun dir c above => found fuel dir c above hops) dir c above hops) w).
Proof.
  intros Hwf Hdirs IHf Hdeep. revert w. induction entries as [|[n kind] entries IH]; intros w Hw Hnd Hag; [done|].
  cbn [for_M]. apply NoDup_cons in Hnd as [Hn Hnd].
  rewrite (scan_entry_found _ (fun dir c above => found fuel dir c above hops)); [|done| |].
  - cbn [mbind result_bind]. rewrite IH; [by rewrite bind_cons, fold_left_app|set_solver|by apply fold_found_same|done|].
    intros m Hm rest. rewrite fold_found_scanned; [by apply Hag; set_solver|].
    intros x Hx He. destruct (entry_found_enters _ dir c above hops n kind x _ (fun d c a x c' Hin => found_enters fuel d c a hops x c' Hin) Hx He)
      as [rest' E]. rewrite <- !app_assoc in E. cbn in E. apply app_inv_head in E. injection E as -> _. done.
  - apply Hag. set_solver.
  - intros next w' Hw' Hag' ->. apply IHf; [apply Hdirs; set_solver| |done|done].
    intros c' Hc'. specialize (Hdeep c' Hc'). rewrite length_app. cbn. lia.
Qed.

Lemma scan_dir_found fuel dir c above hops w :
  wf_fs fs -> is_Some (fs_dirs fs !! c) -> deep_enough fuel c -> same_walk w ->
  (forall rest, rest <> [] -> lw_scanned (sw_links w) !! (c ++ rest) = lw_scanned links0 !! (c ++ rest)) ->
  scan_dir fs rules fuel dir c above hops w
  = Ok (fold_left apply_found (found fuel dir c above hops) w).
Proof.
  intros Hwf. revert dir c above w. induction fuel as [|fuel IH]; intros dir c above w Hc Hdeep Hw Hag.
  - specialize (Hdeep c Hc). lia.
  - rewrite scan_dir_S. cbn [found]. destruct Hc as [entries He]. rewrite He. cbn [default].
    apply scan_entries_found; [done| |done|done|done|by eapply wf_nodup|].
    + intros n Hn. by eapply wf_child.
    + intros n Hn rest. rewrite <- app_assoc. apply Hag. done.
Qed.

End Found.

(** ** The order of the entries does not matter

    Two file systems that list the same entries in a different order: each walk
    finds a permutation, the walks' states are then equal up to the order of
    their lists, and the sorted result is the same. *)

Record same_entries (fs1 fs2 : Fs) : Prop := {
  se_dirs : forall c, match fs_dirs fs1 !! c, fs_dirs fs2 !! c with
                      | Some e1, Some e2 => e1 ≡ₚ e2
                      | None, None => True
                      | _, _ => False
                      end;
  se_links : fs_links fs1 = fs_links fs2
}.

(** ** What is found *)

Lemma bind_perm {A B} (f g : A -> list B) l l' :
  l ≡ₚ l' -> (forall x, f x ≡ₚ g x) -> l ≫= f ≡ₚ l' ≫= g.
Proof.
  intros Hl Hfg. trans (l ≫= g).
  - clear Hl. induction l as [|x l IH]; [done|]. rewrite !bind_cons. by rewrite Hfg, IH.
  - by rewrite Hl.
Qed.

Lemma entry_found_perm fs1 fs2 rules links b1 b2 dir c above hops e :
  fs_links fs1 = fs_links fs2 -> (forall d c a, b1 d c a ≡ₚ b2 d c a) ->
  entry_found fs1 rules links b1 dir c above hops e ≡ₚ entry_found fs2 rules links b2 dir c above hops e.
Proof.
  intros Hl Hb. destruct e as [name kind]. unfold entry_found.
  assert (Ht : entry_type fs1 (c ++ [name]) kind = entry_type fs2 (c ++ [name]) kind).
  { unfold entry_type, link_target. by rewrite Hl. }
  unfold resolves_to_dir. rewrite Ht.
  destruct (prunes_by_name _ _ _ _ _); [done|].
  destruct (entry_type fs2 _ kind) as [[is_dir is_link]|]; [|done].
  destruct (decide_entry _ _ _ _); [done| |].
  - destruct is_link; [done|]. destruct (_ || _); [done|]. by rewrite Hb.
  - destruct is_link; [|done]. unfold file_target, canonicalize, link_target. by rewrite Hl.
Qed.

Lemma found_perm fs1 fs2 rules links fuel dir c above hops :
  same_entries fs1 fs2 ->
  found fs1 rules links fuel dir c above hops ≡ₚ found fs2 rules links fuel dir c above hops.
Proof.
  intros Hse. revert dir c above. induction fuel as [|fuel IH]; intros dir c above; [done|]. cbn.
  apply bind_perm; [|intros e; by apply entry_found_perm; [apply se_links|]].
  pose proof (se_dirs _ _ Hse c) as Hc.
  destruct (fs_dirs fs1 !! c), (fs_dirs fs2 !! c); by try done.
Qed.

(** ** States of a walk, up to the order of the lists *)

Record walk_eq (w1 w2 : ScanWalk) : Prop := {
  we_links : sw_links w1 = sw_links w2;
  we_files : sw_files w1 ≡ₚ sw_files w2;
  we_unsupported : sw_unsupported w1 = sw_unsupported w2;
  we_followed : sw_followed w1 ≡ₚ sw_followed w2;
  we_linked_dirs : sw_linked_dirs w1 ≡ₚ sw_linked_dirs w2;
  we_file_links : sw_file_links w1 ≡ₚ sw_file_links w2
}.

#[export] Instance walk_eq_equiv : Equivalence walk_eq.
Proof.
  split.
  - intros w. by constructor.
  - intros w1 w2 []. by constructor.
  - intros w1 w2 w3 [] []. constructor; by etrans.
Qed.

#[export] Instance with_links_proper : Proper (eq ==> walk_eq ==> walk_eq) with_links.
Proof. intros l ? <- w1 w2 []. by constructor. Qed.
#[export] Instance push_linked_dir_proper : Proper (eq ==> walk_eq ==> walk_eq) push_linked_dir.
Proof. intros d ? <- w1 w2 []. constructor; cbn; try done. by f_equiv. Qed.
#[export] Instance push_followed_proper : Proper (eq ==> walk_eq ==> walk_eq) push_followed.
Proof. intros d ? <- w1 w2 []. constructor; cbn; try done. by f_equiv. Qed.
#[export] Instance push_file_link_proper : Proper (eq ==> walk_eq ==> walk_eq) push_file_link.
Proof. intros d ? <- w1 w2 []. constructor; cbn; try done. by f_equiv. Qed.
#[export] Instance push_file_proper : Proper (eq ==> walk_eq ==> walk_eq) push_file.
Proof. intros d ? <- w1 w2 []. constructor; cbn; try done. by f_equiv. Qed.
#[export] Instance count_unsupported_proper : Proper (eq ==> walk_eq ==> walk_eq) count_unsupported.
Proof. intros d ? <- w1 w2 []. constructor; cbn; try done. by f_equal. Qed.

#[export] Instance scan_file_proper : Proper (eq ==> eq ==> eq ==> walk_eq ==> walk_eq) scan_file.
Proof.
  intros r ? <- e ? <- t ? <- w1 w2 Hw. unfold scan_file.
  destruct e; [destruct t; by rewrite Hw|]. destruct (unsupported_extension r); by rewrite Hw.
Qed.

#[export] Instance apply_found_proper : Proper (walk_eq ==> eq ==> walk_eq) apply_found.
Proof.
  intros w1 w2 Hw x ? <-. destruct x; cbn.
  - rewrite (we_links _ _ Hw). destruct linked; by rewrite Hw.
  - rewrite (we_links _ _ Hw). by rewrite Hw.
  - by rewrite Hw.
Qed.

#[export] Instance fold_found_proper xs : Proper (walk_eq ==> walk_eq) (fold_left apply_found xs).
Proof.
  induction xs as [|x xs IH]; intros w1 w2 Hw; [done|]. cbn. apply IH. by rewrite Hw.
Qed.

(** ** What is found commutes *)

Definition compatible (x y : Found) : Prop :=
  match x, y with
  | FEnter c r _, FEnter c' r' _ => c = c' -> r = r'
  | FLink h r l, FLink h' r' l' => (h, r) = (h', r') -> l = l'
  | _, _ => True
  end.

Lemma key_le_spec h r h' r' :
  key_le (h, r) (h', r') = true <-> h < h' \/ h = h' /\ str_le r r' = true.
Proof. unfold key_le. cbn [fst snd]. by rewrite orb_true_iff, andb_true_iff, Nat.ltb_lt, Nat.eqb_eq. Qed.

Lemma key_le_total a b : key_le a b = true \/ key_le b a = true.
Proof.
  destruct a as [h r], b as [h' r']. rewrite !key_le_spec.
  destruct (Nat.lt_trichotomy h h') as [?|[->|?]]; [by left; left| |by right; left].
  destruct (str_le_total r r'); [left|right]; by right.
Qed.

Lemma key_le_antisym a b : key_le a b = true -> key_le b a = true -> a = b.
Proof.
  destruct a as [h r], b as [h' r']. rewrite !key_le_spec.
  intros [?|[-> H1]] [?|[? H2]]; try lia. by rewrite (str_leb_antisym r r').
Qed.

Lemma key_le_trans a b c : key_le a b = true -> key_le b c = true -> key_le a c = true.
Proof.
  destruct a as [h r], b as [h' r'], c as [h'' r'']. rewrite !key_le_spec.
  intros [?|[-> H1]] [?|[? H2]]; try (left; lia). right. split; [done|]. by eapply str_leb_trans.
Qed.

Lemma queue_insert_comm k1 v1 k2 v2 q :
  (k1 = k2 -> v1 = v2) ->
  queue_insert k1 v1 (queue_insert k2 v2 q) = queue_insert k2 v2 (queue_insert k1 v1 q).
Proof.
  intros Hv. destruct (decide (k1 = k2)) as [->|Hne]; [by rewrite Hv|].
  assert (Hx : forall k k', k <> k' -> key_le k k' = true -> key_le k' k = false).
  { intros k k' Hk Hle. destruct (key_le k' k) eqn:E; [|done]. by destruct (Hk (key_le_antisym _ _ Hle E)). }
  assert (Hor : key_le k1 k2 = true /\ key_le k2 k1 = false \/ key_le k1 k2 = false /\ key_le k2 k1 = true).
  { destruct (key_le_total k1 k2); [left|right]; auto. }
  assert (H12 : k2 <> k1) by congruence.
  induction q as [|[k v] q IH]; cbn.
  - rewrite !decide_False by done. destruct Hor as [[E E']|[E E']]; by rewrite E, E'.
  - destruct (decide (k2 = k)) as [->|H2]; cbn.
    + rewrite (decide_False (P := k1 = k)) by done. destruct (key_le k1 k) eqn:E; cbn.
      * rewrite decide_False by done. rewrite (Hx _ _ Hne E). cbn. by rewrite decide_True.
      * by rewrite decide_True.
    + destruct (decide (k1 = k)) as [->|H1]; cbn.
      * destruct (key_le k2 k) eqn:E; cbn.
        -- rewrite !decide_False, (Hx k2 k H12 E) by done. cbn. by rewrite decide_True, (decide_False (P := k2 = k)).
        -- by rewrite decide_True, (decide_False (P := k2 = k)) by done.
      * destruct (key_le k2 k) eqn:E2, (key_le k1 k) eqn:E1; cbn;
          rewrite ?(decide_False (P := k1 = k2)), ?(decide_False (P := k2 = k1)) by done;
          rewrite ?E1, ?E2, ?(decide_False (P := k1 = k)), ?(decide_False (P := k2 = k)) by done.
        -- destruct Hor as [[E E']|[E E']]; rewrite E, E'; cbn;
             rewrite ?E1, ?E2, ?decide_False by done; done.
        -- destruct (key_le k1 k2) eqn:E; [|done]. by rewrite (key_le_trans k1 k2 k E E2) in E1.
        -- destruct (key_le k2 k1) eqn:E; [|done]. by rewrite (key_le_trans k2 k1 k E E1) in E2.
        -- by rewrite IH.
Qed.

Lemma push_push {A} (l : list A) x y : (l ++ [x]) ++ [y] ≡ₚ (l ++ [y]) ++ [x].
Proof. rewrite <- !app_assoc. apply Permutation_app_head. cbn. apply Permutation_swap. Qed.

Lemma count_count e e' (m : gmap string nat) :
  partial_alter (fun n => Some (S (default 0 n))) e (partial_alter (fun n => Some (S (default 0 n))) e' m)
  = partial_alter (fun n => Some (S (default 0 n))) e' (partial_alter (fun n => Some (S (default 0 n))) e m).
Proof. destruct (decide (e = e')) as [->|]; [done|]. by rewrite partial_alter_partial_alter_ne. Qed.

Lemma apply_found_comm w x y :
  compatible x y -> walk_eq (apply_found (apply_found w x) y) (apply_found (apply_found w y) x).
Proof.
  destruct x as [c r l|h r k|r e t], y as [c' r' l'|h' r' k'|r' e' t']; cbn; intros Hc.
  - assert (Hm : <[c':=r']> (<[c:=r]> (lw_scanned (sw_links w)))
               = <[c:=r]> (<[c':=r']> (lw_scanned (sw_links w)))).
    { destruct (decide (c = c')) as [->|]; [by rewrite Hc|by rewrite insert_insert_ne]. }
    destruct l, l'; constructor; cbn; unfold add_scanned; cbn; rewrite ?Hm; try done; apply push_push.
  - destruct l; by constructor.
  - unfold scan_file. destruct l, e'; [destruct t'|destruct (unsupported_extension r')|destruct t'|
      destruct (unsupported_extension r')]; by constructor.
  - destruct l'; by constructor.
  - constructor; cbn; try done. unfold queue. cbn. f_equal. apply queue_insert_comm.
    intros E. symmetry. apply Hc. by rewrite E.
  - unfold scan_file. destruct e'; [destruct t'|destruct (unsupported_extension r')]; by constructor.
  - unfold scan_file. destruct l', e; [destruct t|destruct (unsupported_extension r)|destruct t|
      destruct (unsupported_extension r)]; by constructor.
  - unfold scan_file. destruct e; [destruct t|destruct (unsupported_extension r)]; by constructor.
  - unfold scan_file. destruct e, e'.
    + destruct t, t'; constructor; cbn; try done; apply push_push.
    + destruct t, (unsupported_extension r'); by constructor.
    + destruct t', (unsupported_extension r); by constructor.
    + destruct (unsupported_extension r), (unsupported_extension r'); constructor; cbn; try done.
      apply count_count.
Qed.

Lemma fold_found_perm xs ys w :
  xs ≡ₚ ys -> (forall x y, x ∈ xs -> y ∈ xs -> compatible x y) ->
  walk_eq (fold_left apply_found xs w) (fold_left apply_found ys w).
Proof.
  intros Hp. revert w. induction Hp as [|x xs ys Hp IH|x y xs|xs ys zs H1 IH1 H2 IH2]; intros w Hc; cbn.
  - done.
  - apply IH. intros; apply Hc; by right.
  - apply fold_found_proper, apply_found_comm, Hc; set_solver.
  - trans (fold_left apply_found ys w); [by apply IH1|]. apply IH2. intros x y Hx Hy.
    apply Hc; by rewrite H1.
Qed.

(** ** Where what is found comes from *)

(** Names are plain, and only symlinks lead somewhere. *)
Record plain_fs (fs : Fs) : Prop := {
  pf_names : forall c entries n k, fs_dirs fs !! c = Some entries -> (n, k) ∈ entries -> plain_name n;
  pf_links : forall c entries n k, fs_dirs fs !! c = Some entries -> (n, k) ∈ entries ->
    k <> KLink -> fs_links fs !! (c ++ [n]) = None
}.

(** The directory a path leads to from a canonical one. *)
Fixpoint locate (fs : Fs) (c : list string) (path : list string) : list string :=
  match path with
  | [] => c
  | n :: path =>
      locate fs (match fs_links fs !! (c ++ [n]) with Some (TDir t) => t | _ => c ++ [n] end) path
  end.

Lemma locate_app fs c p q : locate fs c (p ++ q) = locate fs (locate fs c p) q.
Proof. revert c. induction p as [|n p IH]; intros c; cbn; [done|]. apply IH. Qed.

Fixpoint ancestry_of (rules : ScanRules) (dir : list string) (above : GitignoreAncestry)
    (rest : list string) : GitignoreAncestry :=
  match rest with
  | [] => above
  | n :: rest =>
      ancestry_of rules (dir ++ [n]) (child above (matched (gitignore rules) (relative_of (dir ++ [n])) true)) rest
  end.

Lemma join_slash_plain l : Forall plain_name l -> str_contains BACKSLASH (join_slash l) = false.
Proof.
  assert (Happ : forall a b, str_contains BACKSLASH (a +:+ b) = str_contains BACKSLASH a || str_contains BACKSLASH b).
  { induction a as [|x a IH]; intros b; [done|]. change (String x a +:+ b) with (String x (a +:+ b)).
    cbn [str_contains]. by rewrite IH, orb_assoc. }
  induction 1 as [|n l (_ & _ & Hn & _) Hl IH]; [done|]. unfold join_slash in *. destruct l as [|m l]; [done|].
  change (String.concat "/" (n :: m :: l)) with (n +:+ "/" +:+ String.concat "/" (m :: l)).
  rewrite !Happ, Hn, IH. done.
Qed.

Lemma relative_of_plain l : Forall plain_name l -> relative_of l = join_slash l.
Proof. intros Hl. apply str_replace_id. by apply join_slash_plain. Qed.

Lemma split_relative_of l : l <> [] -> Forall plain_name l -> split_on SLASH (relative_of l) = l.
Proof.
  intros Hne Hl. rewrite relative_of_plain by done. apply split_join; [done|].
  eapply Forall_impl; [exact Hl|]. by intros n (_ & ? & _).
Qed.

Lemma relative_of_inj l l' :
  l <> [] -> l' <> [] -> Forall plain_name l -> Forall plain_name l' -> relative_of l = relative_of l' -> l = l'.
Proof.
  intros Hne Hne' Hl Hl' E. by rewrite <- (split_relative_of l), E, split_relative_of.
Qed.

Section Shape.
Variables (fs : Fs) (rules : ScanRules) (links0 : LinkWalk).
Hypothesis Hplain : plain_fs fs.

Definition shaped (dir c : list string) (above : GitignoreAncestry) (hops : nat) (x : Found) : Prop :=
  exists rest, rest <> [] /\ Forall plain_name rest
    /\ locate fs c (removelast rest) = c ++ removelast rest
    /\ match x with
       | FEnter c' r l => c' = c ++ rest /\ r = relative_of (dir ++ rest) /\ locate fs c rest = c'
       | FLink h r k => h = S hops /\ r = relative_of (dir ++ rest)
           /\ k = mkQueued (dir ++ rest) (c ++ rest) (ancestry_of rules dir above rest)
           /\ exists t, link_target fs (c ++ rest) = TDir t
       | FFile r e t => r = relative_of (dir ++ rest)
           /\ forall c', t = Some c' -> link_target fs (c ++ rest) = TFile c'
       end.

Lemma shaped_below dir c above hops n x :
  plain_name n -> fs_links fs !! (c ++ [n]) = None ->
  shaped (dir ++ [n]) (c ++ [n]) (child above (matched (gitignore rules) (relative_of (dir ++ [n])) true)) hops x ->
  shaped dir c above hops x.
Proof.
  intros Hn Hl (rest & Hne & Hp & Hloc & Hx). exists (n :: rest).
  assert (Hr : removelast (n :: rest) = n :: removelast rest) by (by destruct rest).
  rewrite Hr. cbn [locate]. rewrite Hl, Hloc. split_and!; [done|by constructor|by rewrite <- app_assoc|].
  rewrite <- !app_assoc in Hx. cbn [app] in Hx. cbn [ancestry_of].
  destruct x; cbn [locate]; rewrite ?Hl; exact Hx.
Qed.

Lemma found_shaped fuel dir c above hops x :
  x ∈ found fs rules links0 fuel dir c above hops -> shaped dir c above hops x.
Proof.
  revert dir c above. induction fuel as [|fuel IH]; intros dir c above; cbn; [by set_solver|].
  destruct (fs_dirs fs !! c) as [entries|] eqn:He; cbn; [|by set_solver].
  rewrite list_elem_of_bind. intros ([n k] & Hx & Hin).
  pose proof (pf_names _ Hplain _ _ _ _ He Hin) as Hn.
  assert (Hone : [n] <> [] /\ Forall plain_name [n]
    /\ locate fs c (removelast [n]) = c ++ removelast [n]).
  { split_and!; [done|by constructor|cbn; by rewrite app_nil_r]. }
  unfold entry_found in Hx. destruct (prunes_by_name _ _ _ _ _); [by set_solver|].
  destruct (entry_type fs (c ++ [n]) k) as [[is_dir is_link]|] eqn:Hty; [|by set_solver].
  destruct (decide_entry _ _ _ _) as [|next|ex] eqn:Hdec; [by set_solver| |].
  - apply decide_descend in Hdec as [-> ->].
    destruct is_link.
    + apply list_elem_of_singleton in Hx as ->. exists [n]. split_and!; try apply Hone; [done..|].
      destruct k; try done. unfold entry_type in Hty.
      destruct (link_target fs (c ++ [n])) as [t| |]; [by exists t|done..].
    + assert (k <> KLink) by (intros ->; unfold entry_type in Hty; by destruct (link_target _ _)).
      pose proof (pf_links _ Hplain _ _ _ _ He Hin ltac:(done)) as Hl.
      destruct (_ || _); [by set_solver|]. apply elem_of_cons in Hx as [->|Hx].
      * exists [n]. cbn [locate]. rewrite Hl. by split_and!; try apply Hone.
      * by eapply shaped_below, IH.
  - destruct is_link.
    + destruct (file_target _ _ _) as [t|] eqn:Ht; [|by set_solver].
      apply list_elem_of_singleton in Hx as ->. exists [n]. split_and!; try apply Hone; [done|].
      intros c' [= ->]. unfold file_target in Ht. destruct (lw_root links0); [|done].
      unfold canonicalize in Ht. destruct k; try done. unfold entry_type in Hty.
      apply decide_file in Hdec as [-> _].
      destruct (link_target fs (c ++ [n])); cbn in *; repeat case_match; by simplify_eq.
    + apply list_elem_of_singleton in Hx as ->. exists [n]. by split_and!; try apply Hone.
Qed.

Lemma found_compatible fuel dir c above hops x y :
  Forall plain_name dir ->
  x ∈ found fs rules links0 fuel dir c above hops -> y ∈ found fs rules links0 fuel dir c above hops ->
  compatible x y.
Proof.
  intros Hdir (rx & Hrx & Hpx & _ & Hx)%found_shaped (ry & Hry & Hpy & _ & Hy)%found_shaped.
  destruct x as [c1 r1 l1|h1 r1 k1|r1 e1 t1], y as [c2 r2 l2|h2 r2 k2|r2 e2 t2]; cbn; try done.
  - destruct Hx as (-> & -> & _), Hy as (-> & -> & _). by intros ->%app_inv_head.
  - destruct Hx as (-> & -> & -> & _), Hy as (-> & -> & -> & _). intros [= E].
    apply relative_of_inj, app_inv_head in E; [by subst|..].
    + by destruct dir.
    + by destruct dir.
    + by apply Forall_app.
    + by apply Forall_app.
Qed.

End Shape.
