(* ===== verification/ScanProps.v ===== *)
(** * The scan of a project: the theorems

    The scan ends with a result that does not depend on the order in which the
    directories are read; and for every path below the root, the answer of
    [scan_membership] is what the scan lists. *)
From S2P Require Import Prelude Strings Types PathUtil StrOps LangDetect ScanRules ScanWalk ScanFacts.

(** ** One path and the whole scan

    [scan_membership] says of a path what the scan does with it: it follows
    the walk's decisions down the path, and stops where a symlink begins. *)

(** ** The scan returns, whatever the order of the entries

    Each linked directory that is followed is one more directory scanned, so
    the scan ends; and with the same entries in another order it goes through
    states that differ by the order of their lists alone. *)

(** ** Following a link *)

Lemma next_loop_spec fs root q self :
  match next_loop fs root q self with
  | (None, self') => self' = set_queue [] self
  | (Some linked, self') =>
      exists link q', ((ld_hops linked, ld_relative linked), link) ∈ q
        /\ (forall e, e ∈ q' -> e ∈ q)
        /\ ld_path linked = ql_path link /\ ld_state linked = ql_state link
        /\ canonicalize fs (ql_location link) = Some (ld_canonical linked)
        /\ is_Some (fs_dirs fs !! ld_canonical linked)
        /\ lw_scanned self !! ld_canonical linked = None
        /\ self' = set_queue q' (add_scanned (ld_canonical linked) (ld_relative linked) self)
  end.
Proof.
  induction q as [|[[hops relative] link] q IH]; cbn; [done|].
  assert (Hskip : match next_loop fs root q self with
    | (None, self') => self' = set_queue [] self
    | (Some linked, self') =>
        exists link0 q', ((ld_hops linked, ld_relative linked), link0) ∈ ((hops, relative), link) :: q
          /\ (forall e, e ∈ q' -> e ∈ ((hops, relative), link) :: q)
          /\ ld_path linked = ql_path link0 /\ ld_state linked = ql_state link0
          /\ canonicalize fs (ql_location link0) = Some (ld_canonical linked)
          /\ is_Some (fs_dirs fs !! ld_canonical linked)
          /\ lw_scanned self !! ld_canonical linked = None
          /\ self' = set_queue q' (add_scanned (ld_canonical linked) (ld_relative linked) self)
    end).
  { destruct (next_loop fs root q self) as [[linked|] self']; [|done].
    destruct IH as (link0 & q' & Hin & Hq & Hrest). exists link0, q'. split; [by right|].
    split; [|done]. intros e He. right. by apply Hq. }
  destruct (canonicalize fs (ql_location link)) as [canonical|] eqn:Hcan; [|done].
  destruct (bool_decide (is_Some (fs_dirs fs !! canonical))) eqn:Hdir;
    [|by rewrite orb_true_r].
  destruct (bool_decide (canonical `prefix_of` root)); cbn; [done|].
  unfold enter. destruct (is_blocked self canonical); [done|].
  destruct (lw_scanned self !! canonical) eqn:Hsc; [done|]. cbn.
  exists link, q. split_and!; try done; [by left|by right|by apply bool_decide_eq_true in Hdir].
Qed.

Lemma next_loop_same fs1 fs2 root q self :
  same_entries fs1 fs2 -> next_loop fs1 root q self = next_loop fs2 root q self.
Proof.
  intros Hse. assert (Hd : forall c, bool_decide (is_Some (fs_dirs fs1 !! c)) = bool_decide (is_Some (fs_dirs fs2 !! c))).
  { intros c. apply bool_decide_ext. pose proof (se_dirs _ _ Hse c) as Hc.
    destruct (fs_dirs fs1 !! c), (fs_dirs fs2 !! c); try done; split; by eexists. }
  revert self. induction q as [|[[hops relative] link] q IH]; intros self; [done|]. cbn [next_loop].
  unfold canonicalize, link_target. rewrite (se_links _ _ Hse).
  destruct (default TNone _) as [canonical|canonical|]; [| |apply IH]; rewrite (Hd canonical), IH;
    (destruct (_ || _); [done|]; destruct (enter self canonical relative) as [[] self']; [done|apply IH]).
Qed.

(** ** What a walk keeps *)

Section Invariant.
Variables (fs : Fs) (rules : ScanRules) (croot : list string).

(** A path, where it is, and what it leads to if it is a symlink. *)
Definition at_path (path location : list string) : Prop :=
  exists d n, path = d ++ [n] /\ Forall plain_name path /\ location = locate fs croot d ++ [n].

Definition link_ok (e : Key * QueuedLink) : Prop :=
  e.1.2 = relative_of (ql_path e.2) /\ at_path (ql_path e.2) (ql_location e.2)
  /\ exists t, link_target fs (ql_location e.2) = TDir t.

Definition followed_ok (e : FollowedLink) : Prop :=
  exists path location, at_path path location /\ fl_relative e = relative_of path
    /\ link_target fs location
       = match fl_kind e with LinkFile => TFile (fl_canonical e) | LinkDir => TDir (fl_canonical e) end.

Record walk_ok (w : ScanWalk) : Prop := {
  wk_queue : Forall link_ok (lw_queue (sw_links w));
  wk_followed : Forall followed_ok (sw_followed w)
}.

Lemma queue_insert_Forall (P : Key * QueuedLink -> Prop) k v q :
  P (k, v) -> Forall P q -> Forall P (queue_insert k v q).
Proof.
  intros Hkv. induction 1 as [|[k' v'] q Hx Hq IH]; cbn; [by constructor|].
  destruct (decide (k = k')); [by constructor|]. destruct (key_le k k'); by repeat constructor.
Qed.

(** The last name of a nonempty list apart. *)
Lemma split_last {A} (l : list A) : l <> [] -> exists d n, l = d ++ [n] /\ removelast l = d.
Proof.
  intros Hl. destruct (exists_last Hl) as (d & n & ->). exists d, n. split; [done|]. apply removelast_last.
Qed.

Lemma at_path_below dir c rest :
  Forall plain_name dir -> locate fs croot dir = c -> rest <> [] -> Forall plain_name rest ->
  locate fs c (removelast rest) = c ++ removelast rest -> at_path (dir ++ rest) (c ++ rest).
Proof.
  intros Hd Hc Hne Hr Hl. destruct (split_last rest Hne) as (d & n & -> & Hd'). rewrite Hd' in Hl.
  exists (dir ++ d), n. split_and!.
  - by rewrite app_assoc.
  - by apply Forall_app.
  - by rewrite locate_app, Hc, Hl, app_assoc.
Qed.

Lemma apply_found_ok dir c above hops x w :
  Forall plain_name dir -> locate fs croot dir = c -> shaped fs rules dir c above hops x ->
  walk_ok w -> walk_ok (apply_found w x).
Proof.
  intros Hd Hc (rest & Hne & Hp & Hl & Hx) [Hq Hf].
  pose proof (at_path_below dir c rest Hd Hc Hne Hp Hl) as Hat.
  destruct x as [c' r l|h r k|r e t]; cbn.
  - destruct l; by split.
  - destruct Hx as (-> & -> & -> & Ht). split; [|done]. cbn. apply queue_insert_Forall; [|done].
    by split_and!.
  - destruct Hx as [-> Ht]. unfold scan_file. destruct e.
    + destruct t as [t|]; [|by split]. split; [done|]. cbn. apply Forall_app. split; [done|].
      constructor; [|done]. exists (dir ++ rest), (c ++ rest). split_and!; [done|done|]. by apply Ht.
    + destruct (unsupported_extension _); by split.
Qed.

Lemma fold_found_ok dir c above hops xs w :
  Forall plain_name dir -> locate fs croot dir = c ->
  (forall x, x ∈ xs -> shaped fs rules dir c above hops x) ->
  walk_ok w -> walk_ok (fold_left apply_found xs w).
Proof.
  intros Hd Hc. revert w. induction xs as [|x xs IH]; intros w Hx Hw; [done|]. cbn.
  apply IH; [intros; apply Hx; by right|]. eapply apply_found_ok; [done..|by apply Hx; left|done].
Qed.

(** ** The directories left to scan *)

Definition unscanned (w : ScanWalk) : gset (list string) :=
  dom (fs_dirs fs) ∖ dom (lw_scanned (sw_links w)).

Lemma apply_found_unscanned x w : unscanned (apply_found w x) ⊆ unscanned w.
Proof.
  unfold unscanned. destruct x as [c r l|h r k|r e t]; cbn.
  - destruct l; cbn; set_solver.
  - done.
  - unfold scan_file. destruct e; [by destruct t|]. by destruct (unsupported_extension r).
Qed.

Lemma fold_found_unscanned xs w : unscanned (fold_left apply_found xs w) ⊆ unscanned w.
Proof.
  revert w. induction xs as [|x xs IH]; intros w; [done|]. cbn.
  etrans; [apply IH|]. apply apply_found_unscanned.
Qed.

End Invariant.

(** ** Both walks *)

Section Both.
Variables (fs1 fs2 : Fs) (rules : ScanRules) (croot : list string).
Hypothesis (Hse : same_entries fs1 fs2) (Hwf1 : wf_fs fs1) (Hplain : plain_fs fs1).

Lemma same_wf : wf_fs fs2.
Proof.
  assert (Hd : forall c e2, fs_dirs fs2 !! c = Some e2 -> exists e1, fs_dirs fs1 !! c = Some e1 /\ e1 ≡ₚ e2).
  { intros c e2 H2. pose proof (se_dirs _ _ Hse c) as Hc. rewrite H2 in Hc.
    destruct (fs_dirs fs1 !! c) as [e1|]; [by exists e1|done]. }
  constructor.
  - intros c e2 (e1 & H1 & Hp)%Hd. rewrite <- Hp. by eapply wf_nodup.
  - intros c e2 n (e1 & H1 & Hp)%Hd Hn. rewrite <- Hp in Hn.
    destruct (wf_child _ Hwf1 _ _ _ H1 Hn) as [e Hc]. pose proof (se_dirs _ _ Hse (c ++ [n])) as Hc'.
    rewrite Hc in Hc'. destruct (fs_dirs fs2 !! (c ++ [n])); [by eexists|done].
Qed.

Lemma same_dom : dom (fs_dirs fs1) = dom (fs_dirs fs2).
Proof.
  apply set_eq. intros c. rewrite !elem_of_dom. pose proof (se_dirs _ _ Hse c) as Hc.
  destruct (fs_dirs fs1 !! c), (fs_dirs fs2 !! c); try done; split; by eexists.
Qed.

Lemma deep_enough_depth fs c : deep_enough fs (S (depth_of fs)) c.
Proof.
  intros c' Hc'. assert (Hm : length c' <= list_max (map length (elements (dom (fs_dirs fs))))).
  { pose proof (proj1 (list_max_le (map length (elements (dom (fs_dirs fs)))) _) (le_n _)) as Hall.
    rewrite List.Forall_forall in Hall. apply Hall, in_map, list_elem_of_In, elem_of_elements, elem_of_dom, Hc'. }
  unfold depth_of. lia.
Qed.

(** One directory, in both. *)
Lemma scan_dir_both dir c above hops w1 w2 :
  Forall plain_name dir -> locate fs1 croot dir = c -> is_Some (fs_dirs fs1 !! c) ->
  walk_eq w1 w2 -> walk_ok fs1 croot w1 ->
  exists w1' w2',
    scan_dir fs1 rules (S (depth_of fs1)) dir c above hops w1 = Ok w1'
    /\ scan_dir fs2 rules (S (depth_of fs2)) dir c above hops w2 = Ok w2'
    /\ walk_eq w1' w2' /\ walk_ok fs1 croot w1' /\ unscanned fs1 w1' ⊆ unscanned fs1 w1.
Proof.
  intros Hd Hc Hdir Hw Hok. pose proof same_wf as Hwf2.
  assert (Hdir2 : is_Some (fs_dirs fs2 !! c)) by (by rewrite <- elem_of_dom, <- same_dom, elem_of_dom).
  assert (Hdepth : depth_of fs2 = depth_of fs1) by (unfold depth_of; by rewrite same_dom).
  set (xs := found fs1 rules (sw_links w1) (S (depth_of fs1)) dir c above hops).
  set (ys := found fs2 rules (sw_links w1) (S (depth_of fs1)) dir c above hops).
  exists (fold_left apply_found xs w1), (fold_left apply_found ys w2). split_and!.
  - apply scan_dir_found; [done|done|apply deep_enough_depth|done|done].
  - rewrite Hdepth. unfold ys. rewrite (we_links _ _ Hw).
    apply scan_dir_found; [done|done|rewrite <- Hdepth; apply deep_enough_depth|done|done].
  - trans (fold_left apply_found ys w1); [|by rewrite Hw].
    apply fold_found_perm; [by apply found_perm|]. intros x y Hx Hy.
    exact (found_compatible _ _ _ Hplain _ _ _ _ _ x y Hd Hx Hy).
  - apply (fold_found_ok fs1 rules croot dir c above hops); [done|done| |done].
    intros x Hx. exact (found_shaped _ _ _ Hplain _ _ _ _ _ x Hx).
  - apply fold_found_unscanned.
Qed.

Lemma with_links_ok links w :
  walk_ok fs1 croot w -> Forall (link_ok fs1 croot) (lw_queue links) -> walk_ok fs1 croot (with_links links w).
Proof. intros [_ Hf] Hq. by split. Qed.

Lemma at_path_target path location t :
  at_path fs1 croot path location -> link_target fs1 location = TDir t -> locate fs1 croot path = t.
Proof.
  intros (d & n & -> & _ & ->) Ht. rewrite locate_app. cbn. unfold link_target in Ht.
  by destruct (fs_links fs1 !! (locate fs1 croot d ++ [n])) as [[]|]; simplify_eq/=.
Qed.

Lemma scan_links_both fuel w1 w2 :
  walk_eq w1 w2 -> walk_ok fs1 croot w1 -> size (unscanned fs1 w1) < fuel ->
  exists w1' w2',
    scan_links fs1 rules fuel (S (depth_of fs1)) w1 = Ok w1'
    /\ scan_links fs2 rules fuel (S (depth_of fs2)) w2 = Ok w2'
    /\ walk_eq w1' w2' /\ walk_ok fs1 croot w1'.
Proof.
  revert w1 w2. induction fuel as [|fuel IH]; intros w1 w2 Hw Hok Hsize; [lia|]. cbn [scan_links].
  assert (Hnext : next fs2 (sw_links w2) = next fs1 (sw_links w1)).
  { rewrite (we_links _ _ Hw). unfold next. destruct (lw_root _); [|done]. symmetry. by apply next_loop_same. }
  rewrite Hnext. unfold next.
  assert (Hdone : forall links, Forall (link_ok fs1 croot) (lw_queue links) ->
    exists w1' w2', Ok (E := list string) (with_links links w1) = Ok w1'
      /\ Ok (E := list string) (with_links links w2) = Ok w2' /\ walk_eq w1' w2' /\ walk_ok fs1 croot w1').
  { intros links Hl. exists (with_links links w1), (with_links links w2). split_and!; [done|done|by rewrite Hw|].
    by apply with_links_ok. }
  destruct (lw_root (sw_links w1)) as [root|]; [|by apply Hdone, Hok].
  pose proof (next_loop_spec fs1 root (lw_queue (sw_links w1)) (sw_links w1)) as Hspec.
  destruct (next_loop fs1 root (lw_queue (sw_links w1)) (sw_links w1)) as [[linked|] links];
    [|rewrite Hspec; apply Hdone; constructor].
  destruct Hspec as (link & q' & Hin & Hq & Hpath & Hstate & Hcan & Hdir & Hnew & ->).
  pose proof (wk_queue _ _ _ Hok) as Hqueue. rewrite Forall_forall in Hqueue.
  destruct (Hqueue _ Hin) as (Hrel & Hat & t & Ht). cbn in Hrel, Hat, Ht.
  assert (t = ld_canonical linked) as -> by (unfold canonicalize in Hcan; rewrite Ht in Hcan; congruence).
  set (links := set_queue q' (add_scanned (ld_canonical linked) (ld_relative linked) (sw_links w1))).
  set (next_walk := fun w => push_linked_dir (ld_relative linked)
    (push_followed (mkFollowed (ld_relative linked) (ld_canonical linked) LinkDir) (with_links links w))).
  destruct (scan_dir_both (ld_path linked) (ld_canonical linked) (ld_state linked) (ld_hops linked)
    (next_walk w1) (next_walk w2)) as (w1' & w2' & H1 & H2 & Hw' & Hok' & Hun).
  - rewrite Hpath. destruct Hat as (d & n & -> & Hd & _). done.
  - rewrite Hpath. by eapply at_path_target.
  - done.
  - unfold next_walk. by rewrite Hw.
  - split; cbn.
    + apply Forall_forall. intros e He. by apply Hqueue, Hq.
    + apply Forall_app. split; [by apply Hok|]. constructor; [|done].
      by exists (ql_path link), (ql_location link).
  - fold (next_walk w1) (next_walk w2). rewrite H1, H2. cbn. apply IH; [done|done|].
    enough (size (unscanned fs1 w1') < size (unscanned fs1 w1)) by lia.
    apply subset_size. split.
    + etrans; [exact Hun|]. unfold unscanned, next_walk. cbn. set_solver.
    + intros Hsub. assert (Hc : ld_canonical linked ∈ unscanned fs1 w1).
      { unfold unscanned. rewrite elem_of_difference, elem_of_dom, not_elem_of_dom. done. }
      apply Hsub, Hun in Hc. unfold unscanned, next_walk in Hc. cbn in Hc. set_solver.
Qed.

End Both.

(** ** The result is sorted *)

Lemma sort_by_eq {A} (le : A -> A -> bool) l l' :
  (forall x y, le x y = true \/ le y x = true) ->
  (forall x y z, le x y = true -> le y z = true -> le x z = true) ->
  l ≡ₚ l' -> (forall x y, x ∈ l -> y ∈ l -> le x y = true -> le y x = true -> x = y) ->
  sort_by le l = sort_by le l'.
Proof.
  intros Htot Htrans Hp Hanti.
  assert (Transitive (fun a b => le a b = true)) by (intros x y z; apply Htrans).
  apply (Sorted_unique_strong (fun a b => le a b = true)).
  - intros x y. rewrite !elem_of_sort_by. intros Hx Hy. apply Hanti; [done|by rewrite Hp].
  - by apply sort_by_sorted.
  - by apply sort_by_sorted.
  - by rewrite !sort_by_perm.
Qed.

Lemma sort_strings_eq l l' : l ≡ₚ l' -> sort_by str_le l = sort_by str_le l'.
Proof.
  intros Hp. apply sort_by_eq; [apply str_le_total|intros x y z; apply str_leb_trans|done|].
  intros x y _ _. apply str_leb_antisym.
Qed.

(** What a followed link's path says determines it. *)
Lemma followed_unique fs croot e e' :
  followed_ok fs croot e -> followed_ok fs croot e' -> fl_relative e = fl_relative e' -> e = e'.
Proof.
  intros (p & l & (d & n & -> & Hp & ->) & Hr & Ht) (p' & l' & (d' & n' & -> & Hp' & ->) & Hr' & Ht') E.
  rewrite Hr, Hr' in E. apply relative_of_inj in E; [|by destruct d|by destruct d'|done|done].
  apply app_inj_tail in E as [-> ->]. rewrite Ht in Ht'.
  destruct e as [r c []], e' as [r' c' []]; cbn in *; by simplify_eq.
Qed.

Lemma sort_followed_eq fs croot l l' :
  Forall (followed_ok fs croot) l -> l ≡ₚ l' ->
  sort_by (fun a b => str_le (fl_relative a) (fl_relative b)) l
  = sort_by (fun a b => str_le (fl_relative a) (fl_relative b)) l'.
Proof.
  intros Hl Hp. rewrite Forall_forall in Hl. apply sort_by_eq; [|intros x y z; apply str_leb_trans|done|].
  - intros x y. apply str_le_total.
  - intros x y Hx Hy H1 H2. apply (followed_unique fs croot); [by apply Hl|by apply Hl|].
    by apply str_leb_antisym.
Qed.

(** Aliases, up to the order of each list. *)
Definition alias_eq (m1 m2 : gmap string (list string)) : Prop :=
  forall k, match m1 !! k, m2 !! k with
            | Some l1, Some l2 => l1 ≡ₚ l2
            | None, None => True
            | _, _ => False
            end.

#[local] Instance alias_eq_equiv : Equivalence alias_eq.
Proof.
  split.
  - intros m k. by destruct (m !! k).
  - intros m1 m2 H k. specialize (H k). destruct (m1 !! k), (m2 !! k); by try done.
  - intros m1 m2 m3 H1 H2 k. specialize (H1 k). specialize (H2 k).
    destruct (m1 !! k), (m2 !! k), (m3 !! k); try done. by rewrite H1.
Qed.

Lemma alias_default m1 m2 k : alias_eq m1 m2 -> default [] (m1 !! k) ≡ₚ default [] (m2 !! k).
Proof. intros H. specialize (H k). by destruct (m1 !! k), (m2 !! k). Qed.

Lemma alias_insert m1 m2 k l1 l2 : alias_eq m1 m2 -> l1 ≡ₚ l2 -> alias_eq (<[k := l1]> m1) (<[k := l2]> m2).
Proof.
  intros H Hl i. destruct (decide (i = k)) as [->|]; [by rewrite !lookup_insert_eq|].
  rewrite !lookup_insert_ne by done. apply H.
Qed.

#[local] Instance add_alias_proper links : Proper (alias_eq ==> eq ==> alias_eq) (add_alias links).
Proof.
  intros m1 m2 H l ? <-. unfold add_alias. destruct (primary_path links l.2); [|done].
  apply alias_insert; [done|]. by rewrite (alias_default m1 m2).
Qed.

Lemma add_alias_comm links m a b :
  alias_eq (add_alias links (add_alias links m a) b) (add_alias links (add_alias links m b) a).
Proof.
  unfold add_alias. destruct (primary_path links a.2) as [ka|], (primary_path links b.2) as [kb|]; try done.
  destruct (decide (ka = kb)) as [->|Hne].
  - rewrite !lookup_insert_eq, !insert_insert_eq. cbn. apply alias_insert; [done|]. apply push_push.
  - rewrite !lookup_insert_ne by done. by rewrite insert_insert_ne.
Qed.

Lemma fold_alias_perm links l l' :
  l ≡ₚ l' -> forall m1 m2, alias_eq m1 m2 ->
  alias_eq (fold_left (add_alias links) l m1) (fold_left (add_alias links) l' m2).
Proof.
  induction 1 as [|a l l' Hl IH|a b l|l l' l'' H1 IH1 H2 IH2]; intros m1 m2 Hm; cbn.
  - done.
  - apply IH. by rewrite Hm.
  - assert (Hstart : alias_eq (add_alias links (add_alias links m1 b) a) (add_alias links (add_alias links m2 a) b)).
    { rewrite Hm. apply add_alias_comm. }
    revert Hstart. generalize (add_alias links (add_alias links m1 b) a), (add_alias links (add_alias links m2 a) b).
    induction l as [|x l IH]; intros n1 n2 Hn; cbn; [done|]. apply IH. by rewrite Hn.
  - trans (fold_left (add_alias links) l' m1); [by apply IH1|by apply IH2].
Qed.

Lemma finish_eq fs croot w1 w2 : walk_eq w1 w2 -> walk_ok fs croot w1 -> finish w1 = finish w2.
Proof.
  intros Hw Hok. unfold finish. rewrite (we_links _ _ Hw). f_equal.
  - apply sort_strings_eq, Hw.
  - apply Hw.
  - eapply sort_followed_eq; [by apply Hok|apply Hw].
  - apply sort_strings_eq, Hw.
  - apply map_eq. intros k. rewrite !lookup_fmap.
    pose proof (fold_alias_perm (sw_links w2) _ _ (we_file_links _ _ Hw) ∅ ∅ ltac:(done) k) as Hk.
    destruct (fold_left _ (sw_file_links w1) ∅ !! k), (fold_left _ (sw_file_links w2) ∅ !! k); try done.
    cbn. f_equal. by apply sort_strings_eq.
Qed.

(** ** The scan *)

Lemma enter_root_ok fs croot canonical_root blocked links b :
  enter (sw_links (new_walk canonical_root blocked)) croot "" = (b, links) ->
  walk_ok fs croot (with_links links (new_walk canonical_root blocked)).
Proof.
  unfold enter. destruct (is_blocked _ _); [by intros [= _ <-]|]. cbn. by intros [= _ <-].
Qed.

Lemma scan_both fs1 fs2 rules root canonical_root blocked :
  same_entries fs1 fs2 -> wf_fs fs1 -> plain_fs fs1 ->
  is_Some (fs_dirs fs1 !! default root canonical_root) ->
  exists r, scan_project_with_stats fs1 rules root canonical_root blocked = Ok r
    /\ scan_project_with_stats fs2 rules root canonical_root blocked = Ok r.
Proof.
  intros Hse Hwf Hplain Hroot. unfold scan_project_with_stats. rewrite <- (same_dom fs1 fs2 Hse).
  destruct (enter _ _ _) as [b links] eqn:He.
  pose proof (enter_root_ok fs1 _ _ _ _ _ He) as Hok.
  set (w := with_links links (new_walk canonical_root blocked)) in *.
  destruct (scan_dir_both fs1 fs2 rules (default root canonical_root) Hse Hwf Hplain [] (default root canonical_root)
    ancestry_default 0 w w) as (w1 & w2 & H1 & H2 & Hw & Hok1 & _); [done..|].
  rewrite H1, H2. cbn [mbind result_bind].
  destruct (scan_links_both fs1 fs2 rules (default root canonical_root) Hse Hwf Hplain
    (S (size (dom (fs_dirs fs1)))) w1 w2 Hw Hok1) as (w1' & w2' & H3 & H4 & Hw' & Hok').
  { apply Nat.lt_succ_r, subseteq_size. unfold unscanned. set_solver. }
  rewrite H3, H4. cbn [mbind result_bind]. exists (finish w1'). split; [done|]. f_equal. symmetry. by eapply finish_eq.
Qed.

Section Member.
Variables (fs : Fs) (rules : ScanRules) (croot : list string).
Hypothesis (Hwf : wf_fs fs) (Hplain : plain_fs fs).

(** What no link may lead into: [.git] and the reserved roots. *)
Definition reserved (r : list string) : Prop := r = [".git"] \/ r ∈ reserved_roots rules.

(** The blocked directories are these, where their paths say. *)
Definition blocked_reserved (blocked : list (list string)) : Prop :=
  forall b, b ∈ blocked -> exists r, r <> [] /\ b = croot ++ r /\ reserved r.

#[local] Notation memb := (membership_loop fs croot rules).

Lemma entry_kind_in c entries n k :
  fs_dirs fs !! c = Some entries -> (n, k) ∈ entries -> entry_kind fs c n = Some k.
Proof.
  intros He Hin. unfold entry_kind. rewrite He. cbn.
  pose proof (wf_nodup _ Hwf _ _ He) as Hnd. clear He.
  induction entries as [|[m j] entries IH]; [by set_solver|]. cbn in Hnd.
  apply NoDup_cons in Hnd as [Hm Hnd]. cbn. case_decide as Hmn; cbn in Hmn.
  - subst m. cbn. apply elem_of_cons in Hin as [E|Hin]; [by simplify_eq|].
    destruct Hm. apply list_elem_of_fmap. by exists (n, k).
  - apply elem_of_cons in Hin as [E|Hin]; [by simplify_eq|]. specialize (IH Hin Hnd).
    by destruct (list_find _ entries) as [[i e]|].
Qed.

Lemma entry_kind_Some c n k :
  entry_kind fs c n = Some k -> exists entries, fs_dirs fs !! c = Some entries /\ (n, k) ∈ entries.
Proof.
  unfold entry_kind. destruct (fs_dirs fs !! c) as [entries|]; [|done]. cbn.
  destruct (list_find (fun e => e.1 = n) entries) as [[i [m j]]|] eqn:Hf; [|done]. cbn.
  apply list_find_Some in Hf as (Hi & <- & _). intros [= <-].
  exists entries. split; [done|]. by eapply list_elem_of_lookup_2.
Qed.

(** ** What the first walk finds, [scan_membership] admits or does not know *)

Lemma prunes_same dir n r k location :
  k <> KLink ->
  prunes_by_name rules dir n r (resolves_to_dir fs location k)
  = prunes_by_name rules dir n r (bool_decide (k = KDir)).
Proof. intros Hk. unfold resolves_to_dir, entry_type. by destruct k. Qed.

Lemma plain_snoc dir n : Forall plain_name dir -> plain_name n -> Forall plain_name (dir ++ [n]).
Proof. intros Hd Hn. apply Forall_app. split; [done|]. constructor; [done|constructor]. Qed.

(** What was found is about a path: the file there, or a link on the way. *)
Definition about (x : Found) (path : list string) : Prop :=
  match x with
  | FFile r e t => e = true /\ r = relative_of path
  | FLink _ _ link => exists more, ql_path link ++ more = path
  | FEnter _ _ _ => False
  end.

Lemma relative_of_about dir rest path :
  Forall plain_name dir -> Forall plain_name rest -> Forall plain_name path -> rest <> [] -> path <> [] ->
  relative_of path = relative_of (dir ++ rest) -> path = dir ++ rest.
Proof.
  intros Hd Hr Hp Hne Hne' E. apply relative_of_inj in E; [done|done| |done|by apply Forall_app].
  by destruct dir.
Qed.

Lemma about_below dir c above hops x path :
  Forall plain_name dir -> Forall plain_name path -> path <> [] ->
  shaped fs rules dir c above hops x -> about x path -> exists n rest, path = dir ++ n :: rest.
Proof.
  intros Hd Hp Hne (rest & Hr & Hpr & _ & Hsh) Hx. destruct rest as [|n rest]; [done|].
  destruct x as [| |r e t]; [done| |].
  - destruct Hsh as (_ & _ & -> & _), Hx as [more <-]. exists n, (rest ++ more). cbn. by rewrite <- app_assoc.
  - destruct Hsh as [-> _], Hx as [_ E]. exists n, rest. by apply relative_of_about.
Qed.

(** What the walk finds from a directory on, of a path below it. *)
Lemma memb_found links0 fuel parent above x comps :
  Forall plain_name parent -> Forall plain_name comps -> comps <> [] ->
  x ∈ found fs rules links0 fuel parent (croot ++ parent) above 0 -> about x (parent ++ comps) ->
  memb parent comps false above = MUnknown
  \/ memb parent comps false above = MAdmitted /\ match x with FFile _ _ _ => True | _ => False end.
Proof.
  revert parent above comps. induction fuel as [|fuel IH]; intros parent above comps Hpar Hcomps Hne Hx Hat;
    cbn in Hx; [by set_solver|].
  destruct (fs_dirs fs !! (croot ++ parent)) as [entries|] eqn:He; cbn in Hx; [|by set_solver].
  apply list_elem_of_bind in Hx as ([n k] & Hx & Hin).
  pose proof (pf_names _ Hplain _ _ _ _ He Hin) as Hn.
  pose proof (entry_kind_in _ _ _ _ He Hin) as Hk.
  assert (Hpath : Forall plain_name (parent ++ [n])) by (by apply plain_snoc).
  assert (Hfull : Forall plain_name (parent ++ comps)) by (by apply Forall_app).
  assert (Hfne : parent ++ comps <> []) by (by destruct parent).
  unfold entry_found in Hx. rewrite <- app_assoc in Hx.
  destruct (prunes_by_name rules parent n _ _) eqn:Hpr; [by set_solver|].
  destruct (entry_type fs (croot ++ parent ++ [n]) k) as [[is_dir is_link]|] eqn:Hty; [|by set_solver].
  (* the entry's own item, or one from below it *)
  assert (Hcase : (exists rest, comps = n :: rest) /\
    ((exists r e t, x = FFile r e t) -> is_link = false -> is_dir = false -> comps = [n])
    /\ (forall next, x ∈ found fs rules links0 fuel (parent ++ [n]) (croot ++ parent ++ [n]) next 0 ->
          exists m rest, comps = n :: m :: rest)).
  { assert (Hbelow : forall next, x ∈ found fs rules links0 fuel (parent ++ [n]) (croot ++ parent ++ [n]) next 0 ->
      exists m rest, comps = n :: m :: rest).
    { intros next Hb. apply (found_shaped fs rules links0 Hplain) in Hb.
      destruct (about_below _ _ _ _ _ _ Hpath Hfull Hfne Hb Hat) as (m & rest & E).
      rewrite <- app_assoc in E. apply app_inv_head in E. by exists m, rest. }
    assert (Hfile : forall ex t, x = FFile (relative_of (parent ++ [n])) ex t -> comps = [n]).
    { intros ex t ->. destruct Hat as [_ E]. symmetry in E. apply relative_of_about in E; try done.
      - by apply app_inv_head in E.
      - by apply (plain_snoc []). }
    destruct (decide_entry _ _ _ _) as [|next|ex] eqn:Hdec; [by set_solver| |].
    - apply decide_descend in Hdec as [-> _]. destruct is_link.
      + apply list_elem_of_singleton in Hx as ->. destruct Hat as [more E]. cbn in E.
        rewrite <- app_assoc in E. apply app_inv_head in E. split_and!; [by exists more|by intros (? & ? & ? & ?)|done].
      + destruct (_ || _); [by set_solver|]. apply elem_of_cons in Hx as [->|Hx]; [done|].
        destruct (Hbelow next Hx) as (m & rest & E). split_and!; [by exists (m :: rest)|done|done].
    - assert (exists t, x = FFile (relative_of (parent ++ [n])) ex t) as [t Hxt].
      { destruct is_link; [destruct (file_target _ _ _); [|by set_solver]|];
          apply list_elem_of_singleton in Hx as ->; by eexists. }
      pose proof (Hfile _ _ Hxt) as E. split_and!; [by exists []|done|done]. }
  destruct Hcase as ([rest ->] & Hown & Hbelow).
  cbn [membership_loop]. rewrite Hk. destruct (decide (k = KLink)) as [->|Hkl]; [by left|].
  rewrite prunes_same in Hpr by done. rewrite <- (relative_of_plain (parent ++ [n])) by done.
  destruct k; [| |done|done]; cbn in Hty; injection Hty as <- <-; cbn [bool_decide decide] in Hpr; rewrite Hpr.
  - (* a file *)
    destruct (decide_entry rules _ false above) as [|next|ex] eqn:Hdec; [by set_solver| |].
    + by apply decide_descend in Hdec as [? _].
    + apply list_elem_of_singleton in Hx as ->.
      injection (Hown ltac:(by eauto) eq_refl eq_refl) as ->. destruct Hat as [-> _]. by right.
  - (* a directory *)
    destruct (decide_entry rules _ true above) as [|next|ex] eqn:Hdec; [by set_solver| |].
    + destruct (_ || _); [by set_solver|]. apply elem_of_cons in Hx as [->|Hx]; [done|].
      destruct (Hbelow next Hx) as (m & rest' & [= ->]). cbn [bool_decide decide].
      rewrite (bool_decide_eq_false_2 (m :: rest' = [])) by done. cbn [andb].
      apply (IH (parent ++ [n]) next (m :: rest')); [done| |done|done|by rewrite <- app_assoc].
      by apply Forall_cons in Hcomps as [_ ?].
    + by apply decide_file in Hdec as [? _].
Qed.

(** ** What [scan_membership] admits, the first walk finds *)

Definition no_reserved_prefix (path : list string) : Prop :=
  forall r, r <> [] -> reserved r -> ~ r `prefix_of` path.

Lemma no_reserved_snoc dir n r b :
  no_reserved_prefix dir -> prunes_by_name rules dir n r b = false -> no_reserved_prefix (dir ++ [n]).
Proof.
  intros Hd Hpr s Hs Hres [t E]. unfold prunes_by_name in Hpr.
  apply orb_false_iff in Hpr as [Hpr _]. apply orb_false_iff in Hpr as [Hgit Hroot].
  destruct t as [|u t] using rev_ind.
  - rewrite app_nil_r in E. subst s. destruct Hres as [Hg|Hin].
    + destruct dir as [|d dir]; [|by destruct dir]. injection Hg as ->. by rewrite String.eqb_refl in Hgit.
    + by rewrite bool_decide_eq_true_2 in Hroot.
  - rewrite app_assoc in E. apply app_inj_tail in E as [E _]. apply (Hd s Hs Hres). by exists t.
Qed.

Lemma not_blocked links path :
  blocked_reserved (lw_blocked links) -> no_reserved_prefix path -> is_blocked links (croot ++ path) = false.
Proof.
  intros Hb Hp. unfold is_blocked. apply not_true_iff_false. rewrite existsb_exists.
  intros (b & Hin%list_elem_of_In & Hpre%bool_decide_eq_true).
  destruct (Hb b Hin) as (r & Hr & -> & Hres). apply (Hp r Hr Hres). by apply prefix_app_inv in Hpre.
Qed.

Lemma memb_complete links0 fuel parent above comps :
  blocked_reserved (lw_blocked links0) ->
  (forall path, path <> [] -> lw_scanned links0 !! (croot ++ path) = None) ->
  Forall plain_name parent -> Forall plain_name comps -> comps <> [] ->
  no_reserved_prefix parent -> deep_enough fs fuel (croot ++ parent) ->
  memb parent comps false above = MAdmitted ->
  FFile (relative_of (parent ++ comps)) true None
    ∈ found fs rules links0 fuel parent (croot ++ parent) above 0.
Proof.
  intros Hb Hsc. revert fuel parent above. induction comps as [|n comps IH]; intros fuel parent above Hpar Hcomps Hne Hres Hdeep Hm; [done|].
  apply Forall_cons in Hcomps as [Hn Hcomps]. cbn [membership_loop] in Hm.
  destruct (entry_kind fs (croot ++ parent) n) as [k|] eqn:Hk; [|done].
  destruct (entry_kind_Some _ _ _ Hk) as (entries & He & Hin).
  destruct fuel as [|fuel]; [specialize (Hdeep _ (mk_is_Some _ _ He)); lia|].
  cbn [found]. rewrite He. cbn [default]. apply list_elem_of_bind. exists (n, k). split; [|done].
  assert (Hpath : Forall plain_name (parent ++ [n])) by (by apply plain_snoc).
  rewrite <- (relative_of_plain (parent ++ [n])) in Hm by done.
  destruct (decide (k = KLink)) as [->|Hkl]; [done|].
  unfold entry_found. rewrite prunes_same by done.
  destruct (prunes_by_name rules parent n _ (bool_decide (k = KDir))) eqn:Hpr;
    [by destruct k|].
  destruct k; [| |done|].
  - (* a file *)
    destruct (decide (comps = [])) as [->|Hc]; [|by rewrite bool_decide_eq_false_2 in Hm].
    rewrite !bool_decide_eq_true_2 in Hm by done. cbn [andb negb] in Hm. cbn [entry_type].
    destruct (decide_entry rules _ false above) as [|next|ex] eqn:Hdec; [done|by apply decide_descend in Hdec as [? _]|].
    destruct ex; [|done]. by apply list_elem_of_singleton.
  - (* a directory *)
    assert (Hne' : comps <> []) by (intros ->; cbn in Hm; done).
    rewrite (bool_decide_eq_false_2 (comps = [])) in Hm by done.
    rewrite (bool_decide_eq_true_2 (KDir = KDir)) in Hm by done. cbn [andb negb] in Hm. cbn [entry_type].
    destruct (decide_entry rules _ true above) as [|next|ex] eqn:Hdec; [done| |done].
    pose proof (no_reserved_snoc _ _ _ _ Hres Hpr) as Hres'.
    rewrite <- app_assoc. rewrite (not_blocked links0) by done.
    rewrite bool_decide_eq_false_2; [|rewrite Hsc; [by intros []|by destruct parent]]. cbn [orb].
    right. rewrite (cons_middle n parent comps), app_assoc.
    apply IH; [done|done|done|done| |done].
    intros c' Hc'. specialize (Hdeep c' Hc'). rewrite !length_app in *. cbn. lia.
  - (* neither *)
    destruct (bool_decide (comps = [])); done.
Qed.

(** ** What the whole scan lists *)

Notation memb0 := (fun path => memb [] path false ancestry_default).

(** A path with a symlink on the way. *)
Definition beyond (path : list string) : Prop :=
  Forall plain_name path /\ path <> [] /\ forall more, Forall plain_name more -> memb0 (path ++ more) = MUnknown.

(** A file that is listed for a reason [scan_membership] knows, or may know. *)
Definition listed_ok (f : string) : Prop :=
  exists path, Forall plain_name path /\ path <> [] /\ f = relative_of path /\ memb0 path <> MRejected.

Definition item_ok (x : Found) : Prop :=
  match x with
  | FEnter _ _ _ => True
  | FLink _ _ link => beyond (ql_path link)
  | FFile r e _ => e = true -> listed_ok r
  end.

Record member_ok (w : ScanWalk) : Prop := {
  mo_queue : Forall (fun e => beyond (ql_path e.2)) (lw_queue (sw_links w));
  mo_files : Forall listed_ok (sw_files w)
}.

Lemma apply_found_member x w : item_ok x -> member_ok w -> member_ok (apply_found w x).
Proof.
  intros Hx [Hq Hf]. destruct x as [c r l|h r k|r e t]; cbn.
  - by destruct l.
  - split; [|done]. by apply queue_insert_Forall.
  - unfold scan_file. destruct e; [|by destruct (unsupported_extension r)].
    split; [by destruct t|]. destruct t; cbn; apply Forall_app; (split; [done|]);
      (constructor; [by apply Hx|constructor]).
Qed.

Lemma fold_found_member xs w :
  (forall x, x ∈ xs -> item_ok x) -> member_ok w -> member_ok (fold_left apply_found xs w).
Proof.
  revert w. induction xs as [|x xs IH]; intros w Hx Hw; [done|]. cbn.
  apply IH; [intros y Hy; apply Hx; by right|]. apply apply_found_member; [apply Hx; by left|done].
Qed.

Lemma apply_found_files x w f : f ∈ sw_files w -> f ∈ sw_files (apply_found w x).
Proof.
  intros Hf. destruct x as [c r l|h r k|r e t]; cbn; [by destruct l|done|].
  unfold scan_file. destruct e; [|by destruct (unsupported_extension r)].
  destruct t; cbn; apply elem_of_app; by left.
Qed.

Lemma fold_found_files xs w f : f ∈ sw_files w -> f ∈ sw_files (fold_left apply_found xs w).
Proof. revert w. induction xs as [|x xs IH]; intros w Hf; [done|]. by apply IH, apply_found_files. Qed.

Lemma fold_found_listed xs w r t : FFile r true t ∈ xs -> r ∈ sw_files (fold_left apply_found xs w).
Proof.
  revert w. induction xs as [|x xs IH]; intros w Hx; [by apply not_elem_of_nil in Hx|]. cbn.
  apply elem_of_cons in Hx as [<-|Hx]; [|by apply IH]. apply fold_found_files.
  cbn. destruct t; cbn; apply elem_of_app; right; by left.
Qed.

(** The items of the walk from the root, and of one beyond a symlink. *)
Lemma first_item_ok links0 fuel x :
  x ∈ found fs rules links0 fuel [] (croot ++ []) ancestry_default 0 -> item_ok x.
Proof.
  intros Hx. pose proof (found_shaped fs rules links0 Hplain _ _ _ _ _ _ Hx) as (rest & Hne & Hrest & _ & Hsh).
  destruct x as [c r l|h r k|r e t]; cbn; [done| |].
  - destruct Hsh as (_ & _ & -> & _). cbn. split_and!; [done|done|]. intros more Hmore.
    destruct (memb_found links0 fuel [] ancestry_default _ (rest ++ more) ltac:(constructor)
      ltac:(by apply Forall_app) ltac:(by destruct rest) Hx) as [?|[_ []]]; [|done].
    by exists more.
  - intros ->. destruct Hsh as [-> _]. exists rest. split_and!; [done|done|done|].
    destruct (memb_found links0 fuel [] ancestry_default _ rest ltac:(constructor) Hrest Hne Hx) as [->|[-> _]];
      done.
Qed.

Lemma linked_item_ok links0 fuel dir c above hops x :
  beyond dir -> x ∈ found fs rules links0 fuel dir c above hops -> item_ok x.
Proof.
  intros (Hd & Hdne & Hb) (rest & Hne & Hrest & _ & Hsh)%found_shaped; [|done].
  assert (Hplain' : Forall plain_name (dir ++ rest)) by (by apply Forall_app).
  assert (Hne' : dir ++ rest <> []) by (by destruct dir).
  destruct x as [c' r l|h r k|r e t]; cbn; [done| |].
  - destruct Hsh as (_ & _ & -> & _). cbn. split_and!; [done|done|]. intros more Hmore.
    rewrite <- app_assoc. apply Hb. by apply Forall_app.
  - intros ->. destruct Hsh as [-> _]. exists (dir ++ rest). split_and!; [done|done|done|]. by rewrite Hb.
Qed.

Lemma scan_links_member fuel w w' :
  member_ok w -> scan_links fs rules fuel (S (depth_of fs)) w = Ok w' ->
  member_ok w' /\ forall f, f ∈ sw_files w -> f ∈ sw_files w'.
Proof.
  revert w. induction fuel as [|fuel IH]; intros w Hw; [done|]. cbn [scan_links]. unfold next.
  destruct (lw_root (sw_links w)) as [root|]; [|intros [= <-]; by rewrite with_links_self].
  pose proof (next_loop_spec fs root (lw_queue (sw_links w)) (sw_links w)) as Hspec.
  destruct (next_loop fs root _ (sw_links w)) as [[linked|] links].
  - destruct Hspec as (link & q' & Hin & Hq & Hpath & _ & _ & Hdir & _ & ->).
    destruct Hw as [Hwq Hwf']. rewrite Forall_forall in Hwq.
    set (w1 := push_linked_dir _ _). rewrite (scan_dir_found fs rules (sw_links w1)); [|done|done|apply deep_enough_depth|done|done].
    cbn [mbind result_bind]. intros [Hok Hmono]%IH.
    + split; [done|]. intros f Hf. by apply Hmono, fold_found_files.
    + apply fold_found_member.
      * intros x. apply linked_item_ok. rewrite Hpath. exact (Hwq _ Hin).
      * split; [|done]. apply Forall_forall. intros e He. by apply Hwq, Hq.
  - subst links. intros [= <-]. split; [|done]. split; [constructor|apply Hw].
Qed.

(** Every path: what [scan_membership]'s loop says is what the scan lists. *)
Lemma scan_lists root blocked r comps :
  blocked_reserved blocked -> is_Some (fs_dirs fs !! croot) ->
  Forall plain_name comps -> comps <> [] ->
  scan_project_with_stats fs rules root (Some croot) blocked = Ok r ->
  match memb0 comps with
  | MAdmitted => relative_of comps ∈ sr_files r
  | MRejected => relative_of comps ∉ sr_files r
  | MUnknown => True
  end.
Proof.
  intros Hb Hroot Hc Hne. unfold scan_project_with_stats. change (default root (Some croot)) with croot. cbv zeta.
  assert (Hent : enter (sw_links (new_walk (Some croot) blocked)) croot ""
    = (true, add_scanned croot "" (sw_links (new_walk (Some croot) blocked)))).
  { unfold enter. assert (is_blocked (sw_links (new_walk (Some croot) blocked)) croot = false) as ->; [|done].
    rewrite <- (app_nil_r croot). apply not_blocked; [done|]. intros s Hs _ Hp.
    apply prefix_nil_inv in Hp. by subst. }
  rewrite Hent. set (w := with_links _ _).
  rewrite (scan_dir_found fs rules (sw_links w)); [|done|done|apply deep_enough_depth|done|done].
  cbn [mbind result_bind]. rewrite <- (app_nil_r croot) at 1. set (xs := found _ _ _ _ _ _ _ _).
  destruct (scan_links _ _ _ _ _) as [w'| |] eqn:Hlinks; [|done|done].
  cbn [mbind result_bind]. intros [= <-].
  apply scan_links_member in Hlinks as [[_ Hfiles] Hmono].
  2:{ apply fold_found_member; [|split; constructor]. intros x Hx. by eapply first_item_ok. }
  cbn [finish sr_files]. rewrite Forall_forall in Hfiles.
  destruct (memb0 comps) eqn:Hm; [| |done]; rewrite elem_of_sort_by.
  - apply Hmono, (fold_found_listed _ _ _ None). apply (memb_complete (sw_links w) _ []); try done.
    + intros path Hp. cbn. rewrite lookup_insert_ne; [done|].
      intros E. by rewrite <- (app_nil_r croot) in E at 1; apply app_inv_head in E.
    + intros s Hs _ Hp. apply prefix_nil_inv in Hp. by subst.
    + rewrite app_nil_r. apply deep_enough_depth.
  - intros (path & Hp & Hpne & E & Hrej)%Hfiles. apply relative_of_inj in E; [|done..]. by subst.
Qed.

End Member.

(** ** A project on disk, to evaluate the scan on

    A project with a source directory, a package that is not indexed, build
    output a rule ignores, and links: to a file, to a directory outside, and
    back up. *)

Definition demo_root : list string := ["home"; "p"].

Definition demo_entries : list (list string * list (string * Kind)) :=
  [([], [("home", KDir); ("ext", KDir)]);
   (["home"], [("p", KDir)]);
   (["home"; "p"], [(".git", KDir); ("src", KDir); ("node_modules", KDir); ("out", KDir); ("main.rs", KFile);
                    ("README", KFile); ("alias.rs", KLink); ("vendor", KLink); ("up", KLink); ("gone", KLink)]);
   (["home"; "p"; ".git"], [("config.py", KFile)]);
   (["home"; "p"; "src"], [("lib.rs", KFile); ("notes.dat", KFile); ("sub", KDir)]);
   (["home"; "p"; "src"; "sub"], [("deep.go", KFile); ("pipe", KOther)]);
   (["home"; "p"; "node_modules"], [("x.js", KFile)]);
   (["home"; "p"; "out"], [("gen.rs", KFile)]);
   (["ext"], [("e.py", KFile); ("more", KLink)])].

Definition demo_links : list (list string * Target) :=
  [(["home"; "p"; "alias.rs"], TFile ["home"; "p"; "src"; "lib.rs"]);
   (["home"; "p"; "vendor"], TDir ["ext"]);
   (["home"; "p"; "up"], TDir ["home"]);
   (["ext"; "more"], TDir ["ext"])].

Definition demo_fs : Fs := mkFs (list_to_map demo_entries) (list_to_map demo_links).

(** The same, each directory read backwards. *)
Definition demo_fs_reversed : Fs :=
  mkFs (list_to_map (map (fun e => (e.1, rev e.2)) demo_entries)) (list_to_map demo_links).

Definition demo_rules : ScanRules :=
  mkScanRules ["node_modules"; "build"] [] [[]; []]
    (mkRootGitignore (Some (fun p is_dir => if String.eqb p "out" && is_dir then Some true else None)))
    (mkIncludeSet [] []) (mkOverrides ∅ None).

Definition demo_blocked : list (list string) := [["home"; "p"; ".git"]].

(** Facts on every directory, checked one by one. *)
Lemma list_to_map_all {A} (P : list string -> A -> bool) (l : list (list string * A)) c a :
  forallb (fun e => P e.1 e.2) l = true ->
  (list_to_map l : gmap (list string) A) !! c = Some a -> P c a = true.
Proof.
  intros Hall Hc%elem_of_list_to_map_2. rewrite forallb_forall in Hall.
  apply (Hall (c, a)). by apply list_elem_of_In.
Qed.

Definition plain_nameb (n : string) : bool :=
  negb (String.eqb n "") && negb (str_contains SLASH n) && negb (str_contains BACKSLASH n)
  && negb (String.eqb n ".") && negb (String.eqb n "..").

Lemma plain_nameb_true n : plain_nameb n = true -> plain_name n.
Proof.
  unfold plain_nameb, plain_name. rewrite !andb_true_iff, !negb_true_iff, !String.eqb_neq. tauto.
Qed.

Lemma scan_demo_wf : wf_fs demo_fs.
Proof.
  constructor.
  - intros c entries He. apply (list_to_map_all (fun _ es => bool_decide (NoDup (map fst es)))) in He;
      [by apply bool_decide_eq_true in He|by vm_compute].
  - intros c entries n He Hin.
    apply (list_to_map_all (fun c es => forallb (fun e => negb (bool_decide (e.2 = KDir))
      || bool_decide (is_Some (fs_dirs demo_fs !! (c ++ [e.1])))) es)) in He; [|by vm_compute].
    rewrite forallb_forall in He. apply list_elem_of_In, He in Hin. cbn in Hin.
    by apply bool_decide_eq_true in Hin.
Qed.

Lemma demo_plain : plain_fs demo_fs.
Proof.
  constructor.
  - intros c entries n k He Hin. apply (list_to_map_all (fun _ es => forallb (fun e => plain_nameb e.1) es)) in He;
      [|by vm_compute].
    rewrite forallb_forall in He. apply list_elem_of_In, He in Hin. by apply plain_nameb_true.
  - intros c entries n k He Hin Hk.
    apply (list_to_map_all (fun c es => forallb (fun e => bool_decide (e.2 = KLink)
      || bool_decide (fs_links demo_fs !! (c ++ [e.1]) = None)) es)) in He; [|by vm_compute].
    rewrite forallb_forall in He. apply list_elem_of_In, He, orb_true_iff in Hin.
    rewrite !bool_decide_eq_true in Hin. by destruct Hin.
Qed.

Lemma demo_same : same_entries demo_fs demo_fs_reversed.
Proof.
  constructor; [|done]. intros c.
  destruct (fs_dirs demo_fs !! c) as [es|] eqn:He.
  - apply (list_to_map_all (fun c es => bool_decide (fs_dirs demo_fs_reversed !! c = Some (rev es)))) in He;
      [|by vm_compute].
    apply bool_decide_eq_true in He. rewrite He. apply Permutation_rev.
  - assert (fs_dirs demo_fs_reversed !! c = None) as ->; [|done].
    apply not_elem_of_list_to_map_2 in He. by apply not_elem_of_list_to_map_1.
Qed.

Lemma demo_blocked_reserved : blocked_reserved demo_rules demo_root demo_blocked.
Proof.
  intros b Hb. apply list_elem_of_singleton in Hb as ->. exists [".git"]. split_and!; [done|done|by left].
Qed.

Lemma demo_rooted : is_Some (fs_dirs demo_fs !! demo_root).
Proof. by eexists. Qed.

(** What the scan lists. *)
Lemma demo_scan :
  exists m, scan_project_with_stats demo_fs demo_rules demo_root (Some demo_root) demo_blocked
  = Ok (mkScanResult ["alias.rs"; "main.rs"; "src/lib.rs"; "src/sub/deep.go"; "vendor/e.py"] m
      [mkFollowed "alias.rs" ["home"; "p"; "src"; "lib.rs"] LinkFile; mkFollowed "vendor" ["ext"] LinkDir]
      ["vendor"] {["src/lib.rs" := ["alias.rs"]]}).
Proof. exists {[".dat" := 1]}. by vm_compute. Qed.

(** [scan_membership] of a path of plain names is its loop over them. *)
Lemma scan_membership_plain fs croot rules path dir :
  Forall plain_name path -> path <> [] ->
  scan_membership fs croot rules (relative_of path) dir = membership_loop fs croot rules [] path dir ancestry_default.
Proof.
  intros Hp Hne. unfold scan_membership. rewrite split_relative_of by done.
  assert (filter (fun c => c <> "") path = path) as ->.
  { clear Hne. induction Hp as [|n l [Hn _] Hl IH]; [done|]. by rewrite filter_cons_True, IH. }
  rewrite bool_decide_eq_false_2 by done. cbn [orb].
  assert (existsb (fun c => String.eqb c "." || String.eqb c "..") path = false) as ->; [|done].
  apply not_true_iff_false. rewrite existsb_exists. intros (n & Hn%list_elem_of_In & Hdot).
  rewrite Forall_forall in Hp. destruct (Hp n Hn) as (_ & _ & _ & H1 & H2).
  apply orb_true_iff in Hdot as [E|E]; apply String.eqb_eq in E; done.
Qed.

(** The answer is left open at a symlink alone. *)
Lemma membership_unknown fs croot rules parent comps dir above :
  membership_loop fs croot rules parent comps dir above = MUnknown ->
  exists d n rest, comps = d ++ n :: rest /\ entry_kind fs (croot ++ parent ++ d) n = Some KLink.
Proof.
  revert parent above. induction comps as [|n comps IH]; intros parent above; cbn [membership_loop]; [done|].
  destruct (entry_kind fs (croot ++ parent) n) as [k|] eqn:Hk; [|done].
  destruct k; repeat case_match; try done;
    try (intros (d & m & rest & -> & Hm)%IH; exists (n :: d), m, rest; split; [done|];
         by rewrite <- app_assoc in Hm).
  intros _. exists [], n, comps. split; [done|]. by rewrite app_nil_r.
Qed.

(** C15: The scan always ends, and its result is the same in whatever order the
    directories list their entries: the files, the counts, the links followed
    and the aliases. *)
Theorem scan_order_independent fs1 fs2 rules root canonical_root blocked :
  same_entries fs1 fs2 -> wf_fs fs1 -> plain_fs fs1 ->
  is_Some (fs_dirs fs1 !! default root canonical_root) ->
  exists r, scan_project_with_stats fs1 rules root canonical_root blocked = Ok r
    /\ scan_project_with_stats fs2 rules root canonical_root blocked = Ok r.
Proof. apply scan_both. Qed.

(** C14: [scan_membership] agrees with the scan: of every path below the root,
    what it admits the scan lists, what it rejects the scan does not list,
    whatever symlinks the tree has; it leaves open only the paths with a
    symlink on the way. *)
Theorem scan_membership_exact fs rules croot blocked :
  wf_fs fs -> plain_fs fs -> is_Some (fs_dirs fs !! croot) ->
  blocked_reserved rules croot blocked ->
  exists r, scan_project_with_stats fs rules croot (Some croot) blocked = Ok r
    /\ forall path, Forall plain_name path -> path <> [] ->
       match scan_membership fs croot rules (relative_of path) false with
       | MAdmitted => relative_of path ∈ sr_files r
       | MRejected => relative_of path ∉ sr_files r
       | MUnknown => exists d n rest, path = d ++ n :: rest /\ entry_kind fs (croot ++ d) n = Some KLink
       end.
Proof.
  intros Hwf Hplain Hroot Hb.
  destruct (scan_both fs fs rules croot (Some croot) blocked) as (r & Hr & _); [|done..|].
  { constructor; [|done]. intros c. destruct (fs_dirs fs !! c); reflexivity || done. }
  exists r. split; [done|]. intros path Hp Hne. rewrite scan_membership_plain by done.
  pose proof (scan_lists fs rules croot Hwf Hplain croot blocked r path Hb Hroot Hp Hne Hr) as H. cbv beta in H.
  destruct (membership_loop _ _ _ _ _ _ _) eqn:Hm; [done..|]. by apply membership_unknown in Hm.
Qed.

Lemma scan_order_independent_witness :
  exists r, scan_project_with_stats demo_fs demo_rules demo_root (Some demo_root) demo_blocked = Ok r
    /\ scan_project_with_stats demo_fs_reversed demo_rules demo_root (Some demo_root) demo_blocked = Ok r.
Proof. exact (scan_order_independent _ _ demo_rules demo_root (Some demo_root) demo_blocked demo_same scan_demo_wf demo_plain demo_rooted). Defined.

Lemma scan_membership_exact_witness :
  exists r, scan_project_with_stats demo_fs demo_rules demo_root (Some demo_root) demo_blocked = Ok r
    /\ "src/sub/deep.go" ∈ sr_files r /\ "out/gen.rs" ∉ sr_files r /\ ".git/config.py" ∉ sr_files r.
Proof.
  destruct (scan_membership_exact demo_fs demo_rules demo_root demo_blocked scan_demo_wf demo_plain demo_rooted
    demo_blocked_reserved) as (r & Hr & H).
  exists r. split; [exact Hr|]. split_and!.
  - refine (H ["src"; "sub"; "deep.go"] _ _); [|discriminate].
    repeat constructor; apply plain_nameb_true; reflexivity.
  - refine (H ["out"; "gen.rs"] _ _); [|discriminate].
    repeat constructor; apply plain_nameb_true; reflexivity.
  - refine (H [".git"; "config.py"] _ _); [|discriminate].
    repeat constructor; apply plain_nameb_true; reflexivity.
Defined.
