(* ===== verification/WatchPolicy.v ===== *)
(** * The watcher's policy (codegraph-watch/src/policy.rs, and of
      control_inputs.rs and dart_libraries.rs, which names are control files)

    Which paths of a project the file watcher watches and hands to a sync. The
    project's root is not kept: paths are relative to it. *)
From S2P Require Import Prelude Types Strings PathUtil StrOps LangDetect ScanRules.

Definition WATCH_ONLY_DEFAULT_IGNORE_DIRS : list string :=
  [".cxx"; ".externalNativeBuild"; "vcpkg_installed"; ".bloop"; ".metals"; "lua_modules"; ".luarocks";
   "__history"; "__recovery"; ".cache"].

Record WatchPolicy : Type := mkWatchPolicy {
  structural_ignores : list string;
  wp_ignore_paths : list string;
  wp_gitignore : RootGitignore;
  wp_include : list string;
  wp_exclude : list string;
  wp_extensions : ExtensionOverrides
}.

(** [WatchPolicy::with_config], then [with_extension_overrides]. *)
Definition with_config (ignore_dirs ignore_paths include exclude : list string)
    (gitignore : RootGitignore) (extensions : ExtensionOverrides) : WatchPolicy :=
  mkWatchPolicy
    (map (fun dir => dir +:+ "/") (ignore_dirs ++ WATCH_ONLY_DEFAULT_IGNORE_DIRS)
     ++ ["*.egg-info/"; "cmake-build-*/"; "bazel-*/"])
    ignore_paths gitignore include exclude extensions.

(** [rule_matches]. *)
Definition rule_matches (pattern relative : string) (is_dir : bool) : bool :=
  let candidate := if is_dir then trim_end_matches SLASH relative +:+ "/" else relative in
  let pattern := trim_start_matches "/" pattern in
  match str_strip_suffix pattern "/" with
  | Some dir =>
      let dir_slash := dir +:+ "/" in
      String.eqb candidate dir_slash || starts_with candidate dir_slash
      || contains_sub candidate ("/" +:+ dir +:+ "/")
  | None =>
      match split_once "*" pattern with
      | Some (prefix, suffix) =>
          let tail := after_last SLASH relative in
          starts_with tail prefix && ends_with tail suffix
      | None => String.eqb relative pattern || ends_with relative ("/" +:+ pattern)
      end
  end.

(** [build_segment_is_output]. *)
Definition build_segment_is_output (relative : string) (is_dir : bool) : bool :=
  let segments := split_on SLASH (trim_end_matches SLASH relative) in
  let directories := if is_dir then length segments else length segments - 1 in
  existsb (fun index =>
      bool_decide (segments !! index = Some "build")
      && negb (is_jvm_source_build_dir (join_slash (take (S index) segments))))
    (seq 0 directories).

(** [codegraph_extract::include_exclude_pattern_matches]. *)
Definition include_exclude_pattern_matches (pattern relative : string) : bool :=
  pattern_matches relative pattern.

Section Policy.
Variable self : WatchPolicy.

Definition matches_structural (relative : string) (is_dir : bool) : bool :=
  existsb (fun pattern =>
      if String.eqb pattern "build/" then build_segment_is_output relative is_dir
      else rule_matches pattern relative is_dir) (structural_ignores self).

Definition negotiate (relative : string) (ignored : bool) (pattern : string) : bool :=
  match str_strip_prefix "!" pattern with
  | Some negated => if include_exclude_pattern_matches negated relative then false else ignored
  | None => if include_exclude_pattern_matches pattern relative then true else ignored
  end.

Definition matches_negotiable (relative : string) (is_dir : bool) : bool :=
  let ignored :=
    fold_left (fun ignored set => fold_left (negotiate relative) set ignored)
      [wp_ignore_paths self; wp_exclude self] false in
  default ignored (verdict (wp_gitignore self) relative is_dir).

Definition matches_exclude (relative : string) : bool :=
  existsb (fun pattern => include_exclude_pattern_matches pattern relative) (wp_exclude self).

Definition is_ignored (relative : string) (is_dir : bool) : bool :=
  if matches_structural relative is_dir then true else
  if negb (matches_negotiable relative is_dir) then false else
  match wp_include self with
  | [] => true
  | _ =>
      if matches_exclude relative then true else
      negb (if is_dir then existsb (include_touches_dir relative) (wp_include self)
            else existsb (include_file_matches relative) (wp_include self))
  end.

Definition is_always_ignored (relative : string) : bool :=
  let top := default relative (head (split_on SLASH relative)) in
  String.eqb top ".git" || String.eqb top ".codegraph" || starts_with top ".codegraph-".

Definition should_handle_file (relative : string) : bool :=
  negb (is_always_ignored relative) && negb (is_ignored relative false)
  && negb (bool_decide (detect_language_with relative (wp_extensions self) = LangUnknown)).

Definition allows_file_path (relative : string) : bool :=
  negb (is_always_ignored relative) && negb (is_ignored relative false).

Definition may_mark_a_theme (relative : string) : bool :=
  negb (is_always_ignored relative) && is_shopify_theme_marker relative.

Definition watches_for_theme_markers (relative : string) : bool :=
  negb (is_always_ignored relative) && is_shopify_marker_folder (after_last SLASH relative).

Definition should_watch_dir (relative : string) : bool :=
  negb (is_always_ignored relative) && negb (is_ignored relative true).

(** ** Control files *)

Inductive ControlKind : Set := ControlJs | ControlCsharp | ControlRust.

Definition names_file (kind : ControlKind) (name : string) : bool :=
  match kind with
  | ControlJs =>
      bool_decide (name ∈ ["package.json"; "deno.json"; "deno.jsonc"; "pnpm-workspace.yaml"; "tsconfig.json";
                           "jsconfig.json"; "tsconfig.base.json"])
  | ControlCsharp =>
      let lower := to_ascii_lowercase name in
      ends_with lower ".csproj" || ends_with lower ".props"
  | ControlRust => String.eqb name "Cargo.toml"
  end.

Definition TAURI_MARKERS : list string :=
  ["src-tauri/tauri.conf.json"; "src-tauri/tauri.conf.json5"; "tauri.conf.json"; "tauri.conf.json5"].

Definition is_tauri_marker (relative : string) : bool := bool_decide (relative ∈ TAURI_MARKERS).

Definition PUBSPEC_MANIFESTS : list string := ["pubspec.yaml"; "pubspec_overrides.yaml"].

Definition is_pubspec_path (relative : string) : bool :=
  bool_decide (after_last SLASH relative ∈ PUBSPEC_MANIFESTS).

Definition is_control_file (relative : string) : bool :=
  let name := after_last SLASH relative in
  is_tauri_marker relative
  || existsb (fun kind => names_file kind name) [ControlJs; ControlCsharp; ControlRust]
  || is_pubspec_path relative.

Definition is_project_control_file (relative : string) : bool :=
  negb (is_always_ignored relative) && is_control_file relative.

End Policy.
