(* ===== verification/WatchPolicyProps.v ===== *)
(** * The watcher's policy: the theorems

    What the policy ignores, against the scan's rules; and that a source file
    the scan admits is one whose changes the watcher hears of. *)
From S2P Require Import Prelude Strings Types PathUtil StrOps LangDetect ScanRules ScanWalk ScanFacts ScanProps.
From S2P Require Import ScanProps WatchPolicy.

(** ** Facts on the watcher's policy

    A structural rule matches a directory name on the path; the git verdict
    over a path's slashes is the one the scan carries down its walk. *)

(** ** Joined paths *)

Lemma join_slash_cons n p : p <> [] -> join_slash (n :: p) = n +:+ "/" +:+ join_slash p.
Proof. by destruct p. Qed.

Lemma join_slash_app p q : p <> [] -> q <> [] -> join_slash (p ++ q) = join_slash p +:+ "/" +:+ join_slash q.
Proof.
  intros Hp Hq. induction p as [|n p IH]; [done|]. destruct p as [|m p].
  - cbn [app]. by rewrite join_slash_cons.
  - cbn [app] in *. rewrite (join_slash_cons n), IH, (join_slash_cons n (m :: p)) by done. by rewrite !str_app_assoc.
Qed.

Lemma no_slash_plain p : Forall plain_name p -> Forall (fun w => str_contains SLASH w = false) p.
Proof. intros Hp. eapply Forall_impl; [exact Hp|]. by intros n (_ & ? & _). Qed.

Lemma split_plain p : Forall plain_name p -> p <> [] -> split_on SLASH (join_slash p) = p.
Proof. intros Hp Hne. apply split_join; [done|by apply no_slash_plain]. Qed.

Lemma trim_join p : Forall plain_name p -> p <> [] -> trim_end_matches SLASH (join_slash p) = join_slash p.
Proof.
  intros Hp Hne. destruct (trim_end_shape (join_slash p)) as [[|k] E]; [by rewrite str_app_nil in E|].
  exfalso. rewrite concat_slashes in E. pose proof (split_plain p Hp Hne) as Hs.
  assert (Hk : String.concat "" (replicate (S k) "/") = String.concat "" (replicate k "/") +:+ "/").
  { clear. induction k as [|k IH]; [done|]. rewrite concat_slashes, IH at 1. by rewrite (concat_slashes k). }
  rewrite concat_slashes in Hk. rewrite Hk, <- str_app_assoc in E. rewrite E in Hs.
  change "/" with (String SLASH "") in Hs. rewrite split_on_app in Hs. cbn [split_on] in Hs. rewrite <- Hs in Hp. apply Forall_app in Hp as [_ Hp].
  apply Forall_cons in Hp as [[] _]. done.
Qed.

Lemma str_strip_suffix_app s p : str_strip_suffix (s +:+ p) p = Some s.
Proof.
  induction s as [|a s IH]; [change ("" +:+ p) with p; destruct p; [done|cbn [str_strip_suffix]; by rewrite String.eqb_refl]|].
  change (String a s +:+ p) with (String a (s +:+ p)). cbn [str_strip_suffix].
  assert (String.eqb (String a (s +:+ p)) p = false) as ->; [|by rewrite IH].
  apply String.eqb_neq. intros E. apply (f_equal String.length) in E.
  cbn in E. rewrite str_length_app in E. lia.
Qed.

Lemma trim_start_plain d : plain_name d -> trim_start_matches "/" (d +:+ "/") = d +:+ "/".
Proof.
  intros (Hne & Hs & _). destruct d as [|a d]; [done|]. unfold trim_start_matches.
  change (String a d +:+ "/") with (String a (d +:+ "/")). cbn [String.length trim_start_matches_fuel str_strip_prefix].
  cbn [str_contains] in Hs. apply orb_false_iff in Hs as [Ha _].
  change (Ascii.eqb "/"%char a) with (Ascii.eqb SLASH a). by rewrite Ascii.eqb_sym, Ha.
Qed.

(** ** Structural rules *)

(** A directory rule finds the name among the pieces that a slash follows. *)
Lemma dir_rule_pieces d segs :
  plain_name d -> Forall (fun w => str_contains SLASH w = false) segs -> segs <> [] ->
  String.eqb (join_slash segs) (d +:+ "/") || starts_with (join_slash segs) (d +:+ "/")
    || contains_sub (join_slash segs) ("/" +:+ d +:+ "/") = true
  <-> d ∈ removelast segs.
Proof.
  intros (Hdne & Hd & _) Hsegs Hne. rewrite !orb_true_iff, String.eqb_eq, starts_with_spec, contains_sub_spec.
  pose proof (split_join segs Hne Hsegs) as Hsplit. split.
  - assert (Hin : forall l r, segs = l ++ d :: r -> r <> [] -> d ∈ removelast segs).
    { intros l r -> Hr. rewrite removelast_app by done. apply elem_of_app. right.
      destruct r; [done|]. by left. }
    intros [[E|[s E]]|(a & b & E)]; rewrite E in Hsplit.
    + change (d +:+ "/") with (d +:+ String SLASH "") in Hsplit. rewrite (split_on_app d "") in Hsplit. rewrite split_on_piece in Hsplit by done.
      by apply (Hin [] [""]).
    + rewrite str_app_assoc in Hsplit. change ("/" +:+ s) with (String SLASH s) in Hsplit.
      rewrite split_on_piece_app in Hsplit by done. apply (Hin [] (split_on SLASH s)); [done|].
      by destruct (split_on_cons s) as (? & ? & ->).
    + unfold occurs in Hsplit. rewrite str_app_assoc, (str_app_assoc d) in Hsplit.
      change ("/" +:+ d +:+ "/" +:+ b) with (String SLASH (d +:+ String SLASH b)) in Hsplit.
      rewrite split_on_app, split_on_piece_app in Hsplit by done.
      apply (Hin (split_on SLASH a) (split_on SLASH b)); [done|].
      by destruct (split_on_cons b) as (? & ? & ->).
  - intros Hin. apply list_elem_of_split in Hin as (l & r & E).
    destruct (exists_last Hne) as (segs' & x & ->). rewrite removelast_last in E. subst segs'.
    rewrite <- app_assoc. cbn [app]. destruct l as [|m l].
    + left. right. cbn [app]. rewrite join_slash_cons by (by destruct r).
      exists (join_slash (r ++ [x])). by rewrite str_app_assoc.
    + right. rewrite join_slash_app, (join_slash_cons d) by (done || by destruct r).
      exists (join_slash (m :: l)), (join_slash (r ++ [x])). unfold occurs. by rewrite !str_app_assoc.
Qed.

(** The directories named on a path. *)
Definition dirs_on (p : list string) (is_dir : bool) : list string := if is_dir then p else removelast p.

Lemma rule_matches_dir d p is_dir :
  plain_name d -> Forall plain_name p -> p <> [] ->
  rule_matches (d +:+ "/") (join_slash p) is_dir = true <-> d ∈ dirs_on p is_dir.
Proof.
  intros Hd Hp Hne. unfold rule_matches. rewrite trim_start_plain by done. rewrite str_strip_suffix_app, trim_join by done.
  destruct is_dir; cbn [dirs_on].
  - assert (join_slash p +:+ "/" = join_slash (p ++ [""])) as ->.
    { rewrite join_slash_app by done. reflexivity. }
    rewrite dir_rule_pieces; [by rewrite removelast_last|done| |by destruct p].
    apply Forall_app. split; [by apply no_slash_plain|by repeat constructor].
  - apply dir_rule_pieces; [done|by apply no_slash_plain|done].
Qed.

Lemma build_segment_spec p is_dir :
  Forall plain_name p -> p <> [] ->
  build_segment_is_output (join_slash p) is_dir = true
  <-> exists i, i < length (dirs_on p is_dir) /\ p !! i = Some "build"
        /\ is_jvm_source_build_dir (join_slash (take (S i) p)) = false.
Proof.
  intros Hp Hne. unfold build_segment_is_output. rewrite trim_join, split_plain by done.
  assert (Hlen : length (dirs_on p is_dir) = if is_dir then length p else length p - 1).
  { destruct is_dir; [done|]. cbn. destruct (exists_last Hne) as (q & x & ->).
    rewrite removelast_last, length_app. cbn. lia. }
  rewrite <- Hlen, existsb_exists. split.
  - intros (i & Hi%in_seq & [Hb%bool_decide_eq_true Hj%negb_true_iff]%andb_true_iff). exists i. split; [lia|done].
  - intros (i & Hi & Hb & Hj). exists i. split; [apply in_seq; lia|].
    by rewrite bool_decide_eq_true_2, Hj.
Qed.

(** The names the policy prunes besides the configured ones. *)
Definition watch_only : list string := WATCH_ONLY_DEFAULT_IGNORE_DIRS ++ ["*.egg-info"; "cmake-build-*"; "bazel-*"].

(** A directory on the path that a structural rule names. *)
Definition structural_at (dirs p : list string) (is_dir : bool) : Prop :=
  exists i d, i < length (dirs_on p is_dir) /\ p !! i = Some d /\ d ∈ dirs ++ watch_only
    /\ (d = "build" -> is_jvm_source_build_dir (join_slash (take (S i) p)) = false).

Lemma dirs_on_lookup p is_dir d :
  d ∈ dirs_on p is_dir <-> exists i, i < length (dirs_on p is_dir) /\ p !! i = Some d.
Proof.
  assert (Hpre : exists r, p = dirs_on p is_dir ++ r).
  { destruct is_dir; [exists []; by rewrite app_nil_r|]. cbn.
    destruct p as [|n p]; [by exists []|]. exists [List.last (n :: p) ""]. by apply app_removelast_last. }
  destruct Hpre as [r Hr]. split.
  - intros [i Hi]%list_elem_of_lookup_1. exists i. split; [by eapply lookup_lt_Some|]. rewrite Hr.
    by apply lookup_app_l_Some.
  - intros (i & Hi & Hd). rewrite Hr, lookup_app_l in Hd by done. by eapply list_elem_of_lookup_2.
Qed.

Lemma plain_watch_only : Forall plain_name watch_only.
Proof. repeat constructor; done. Qed.

Lemma matches_structural_spec dirs ignore_paths include exclude gi ov p is_dir :
  Forall plain_name dirs -> Forall plain_name p -> p <> [] ->
  matches_structural (with_config dirs ignore_paths include exclude gi ov) (join_slash p) is_dir = true
  <-> structural_at dirs p is_dir.
Proof.
  intros Hdirs Hp Hne. unfold matches_structural. cbn [structural_ignores with_config].
  assert (Hall : map (fun dir => dir +:+ "/") (dirs ++ WATCH_ONLY_DEFAULT_IGNORE_DIRS)
      ++ ["*.egg-info/"; "cmake-build-*/"; "bazel-*/"] = map (fun dir => dir +:+ "/") (dirs ++ watch_only)).
  { rewrite !map_app, <- app_assoc. reflexivity. }
  rewrite Hall, existsb_exists.
  assert (Hrules : Forall plain_name (dirs ++ watch_only)) by (apply Forall_app; split; [done|apply plain_watch_only]).
  rewrite Forall_forall in Hrules.
  assert (Hbuild : forall d, String.eqb (d +:+ "/") "build/" = true <-> d = "build").
  { intros d. rewrite String.eqb_eq. split; [|by intros ->]. intros E.
    assert (Some d = Some "build") as [= ->]; [|done].
    rewrite <- (str_strip_suffix_app d "/"), E. reflexivity. }
  assert (Hone : forall d, d ∈ dirs ++ watch_only ->
    (if String.eqb (d +:+ "/") "build/" then build_segment_is_output (join_slash p) is_dir
     else rule_matches (d +:+ "/") (join_slash p) is_dir) = true
    <-> exists i, i < length (dirs_on p is_dir) /\ p !! i = Some d
      /\ (d = "build" -> is_jvm_source_build_dir (join_slash (take (S i) p)) = false)).
  { intros d Hd. destruct (String.eqb (d +:+ "/") "build/") eqn:E.
    - apply Hbuild in E as ->. rewrite build_segment_spec by done.
      split; intros (i & ? & ? & ?); exists i; by auto.
    - rewrite rule_matches_dir, dirs_on_lookup by auto. split; intros (i & Hi & Hd' & ?) || intros (i & Hi & Hd'); exists i.
      + split_and!; [done|done|]. intros ->. by rewrite (proj2 (Hbuild _) eq_refl) in E.
      + done. }
  split.
  - intros (pat & (d & <- & Hd%list_elem_of_In)%in_map_iff & Hm).
    apply Hone in Hm as (i & Hi & Hl & Hb); [|done]. by exists i, d.
  - intros (i & d & Hi & Hl & Hd & Hb). exists (d +:+ "/"). split.
    { apply in_map_iff. exists d. split; [done|by apply list_elem_of_In]. }
    apply Hone; [done|]. by exists i.
Qed.

(** ** The git verdict *)

(** What stands before the next name of a path. *)
Definition before (dir : list string) : string :=
  match dir with [] => "" | _ => join_slash dir +:+ "/" end.

Lemma before_name dir n : before dir +:+ n = join_slash (dir ++ [n]).
Proof. destruct dir as [|m dir]; [done|]. rewrite join_slash_app by done. unfold before. by rewrite str_app_assoc. Qed.

Lemma slash_prefixes_piece w b s :
  str_contains SLASH w = false ->
  slash_prefixes b (w +:+ s) = slash_prefixes (b +:+ w) s.
Proof.
  revert b. induction w as [|a w IH]; intros b Hw; [by rewrite str_app_nil|].
  cbn [str_contains] in Hw. apply orb_false_iff in Hw as [Ha Hw].
  change (String a w +:+ s) with (String a (w +:+ s)). cbn [slash_prefixes]. rewrite Ha, IH by done.
  by rewrite str_app_assoc.
Qed.

Lemma verdict_fold rules dir p above :
  Forall plain_name dir -> Forall plain_name p -> p <> [] ->
  fold_left (fun above d => child above (matched (gitignore rules) d true))
    (slash_prefixes (before dir) (join_slash p)) above
  = ancestry_of rules dir above (removelast p).
Proof.
  revert dir above. induction p as [|n p IH]; intros dir above Hdir Hp Hne; [done|].
  apply Forall_cons in Hp as [Hn Hp]. destruct p as [|m p].
  - cbn [join_slash]. unfold join_slash. cbn [String.concat]. rewrite <- (str_app_nil n).
    rewrite slash_prefixes_piece by apply Hn. done.
  - rewrite join_slash_cons by done. rewrite slash_prefixes_piece by apply Hn.
    change ("/" +:+ join_slash (m :: p)) with (String SLASH (join_slash (m :: p))).
    cbn [slash_prefixes]. rewrite Ascii.eqb_refl. cbn [fold_left]. rewrite before_name.
    change (removelast (n :: m :: p)) with (n :: removelast (m :: p)). cbn [ancestry_of].
    assert (Hdn : Forall plain_name (dir ++ [n])) by (apply Forall_app; split; [done|by apply Forall_singleton]).
    rewrite relative_of_plain, <- (IH (dir ++ [n])) by done.
    assert (before (dir ++ [n]) = join_slash (dir ++ [n]) +:+ "/") as -> by (by destruct dir). done.
Qed.

Lemma ancestry_default_no_matcher rules dir p :
  matcher (gitignore rules) = None -> ancestry_of rules dir ancestry_default p = ancestry_default.
Proof.
  intros Hm. revert dir. induction p as [|n p IH]; intros dir; [done|]. cbn [ancestry_of].
  unfold matched at 1. rewrite Hm. unfold child. cbn. apply IH.
Qed.

Lemma verdict_ancestry rules p is_dir :
  Forall plain_name p -> p <> [] ->
  verdict (gitignore rules) (join_slash p) is_dir
  = decide_ancestry (ancestry_of rules [] ancestry_default (removelast p))
      (matched (gitignore rules) (join_slash p) is_dir).
Proof.
  intros Hp Hne. unfold verdict. destruct (matcher (gitignore rules)) as [m|] eqn:Hm.
  - by rewrite <- (verdict_fold rules [] p) by done.
  - rewrite ancestry_default_no_matcher by done. unfold matched. by rewrite Hm.
Qed.

(** ** The negotiable rules *)

(** The policy and the rules of one project's settings. *)
Definition scan_rules (dirs ignore_paths include exclude : list string) (reserved : list (list string))
    (gi : RootGitignore) (ov : ExtensionOverrides) : ScanRules :=
  mkScanRules dirs reserved [ignore_paths; exclude] gi (mkIncludeSet include exclude) ov.

Section Settings.
Variables (dirs ignore_paths include exclude : list string) (reserved : list (list string)).
Variables (gi : RootGitignore) (ov : ExtensionOverrides).

#[local] Notation policy := (with_config dirs ignore_paths include exclude gi ov).
#[local] Notation rules := (scan_rules dirs ignore_paths include exclude reserved gi ov).

Lemma is_ignored_spec p is_dir :
  Forall plain_name p -> p <> [] ->
  is_ignored policy (join_slash p) is_dir
  = matches_structural policy (join_slash p) is_dir
    || match decide_entry rules (join_slash p) is_dir (ancestry_of rules [] ancestry_default (removelast p)) with
       | Skip => true
       | _ => false
       end.
Proof.
  intros Hp Hne. unfold is_ignored. destruct (matches_structural _ _ _); [done|]. cbn [orb].
  assert (Hneg : matches_negotiable policy (join_slash p) is_dir
    = is_path_ignored (join_slash p) (pattern_sets rules)
        (decide_ancestry (ancestry_of rules [] ancestry_default (removelast p))
           (matched (gitignore rules) (join_slash p) is_dir))).
  { unfold matches_negotiable, is_path_ignored. by rewrite <- verdict_ancestry. }
  rewrite Hneg. unfold decide_entry. destruct (is_path_ignored _ _ _); [|by destruct is_dir].
  cbn [negb andb orb wp_include with_config ScanRules.include scan_rules]. unfold forces, wants_descend.
  cbn [inc_include inc_exclude]. unfold matches_exclude, include_exclude_pattern_matches.
  cbn [wp_exclude with_config]. destruct include as [|i incs]; [by destruct is_dir|].
  destruct (existsb (pattern_matches (join_slash p)) exclude) eqn:He.
  - destruct is_dir; [done|]. by rewrite andb_false_r.
  - destruct is_dir; [|rewrite andb_true_r].
    + destruct (existsb (include_touches_dir (join_slash p)) (i :: incs)); reflexivity.
    + destruct (existsb (include_file_matches (join_slash p)) (i :: incs)); reflexivity.
Qed.

End Settings.

Lemma ancestry_of_snoc rules base above p n :
  ancestry_of rules base above (p ++ [n])
  = child (ancestry_of rules base above p) (matched (gitignore rules) (relative_of (base ++ p ++ [n])) true).
Proof.
  revert base above. induction p as [|m p IH]; intros base above; [done|].
  cbn [app ancestry_of]. by rewrite IH, <- app_assoc.
Qed.

Section Steps.
Variables (fs : Fs) (croot : list string) (rules : ScanRules).

(** One step down to an admitted path, and all of them. *)
Lemma admitted_step parent n comps above :
  membership_loop fs croot rules parent (n :: comps) false above = MAdmitted ->
  exists b, prunes_by_name rules parent n (join_slash (parent ++ [n])) b = false
    /\ match comps with
       | [] => decide_entry rules (join_slash (parent ++ [n])) false above = File true
       | _ => b = true /\ exists next, decide_entry rules (join_slash (parent ++ [n])) true above = Descend next
                /\ membership_loop fs croot rules (parent ++ [n]) comps false next = MAdmitted
       end.
Proof.
  cbn [membership_loop]. destruct (entry_kind fs (croot ++ parent) n) as [k|]; [|done].
  destruct (decide (k = KLink)) as [->|Hk]; [done|].
  intros Hm. exists (bool_decide (k = KDir)).
  destruct (prunes_by_name rules parent n (join_slash (parent ++ [n])) (bool_decide (k = KDir))) eqn:Hpr;
    [by destruct k|]. split; [done|].
  destruct comps as [|m comps].
  - rewrite (bool_decide_eq_true_2 ([] = [])) in Hm by done. cbn [andb negb] in Hm.
    destruct (decide (k = KFile)) as [->|]; [|by rewrite bool_decide_eq_false_2 in Hm; destruct k].
    rewrite (bool_decide_eq_true_2 (KFile = KFile)) in Hm by done.
    by destruct (decide_entry _ _ _ _) as [| |[]].
  - rewrite (bool_decide_eq_false_2 (m :: comps = [])) in Hm by done. cbn [andb] in Hm.
    destruct (decide (k = KDir)) as [->|Hd];
      [|rewrite (bool_decide_eq_false_2 (k = KDir)) in Hm by done; by destruct k].
    rewrite (bool_decide_eq_true_2 (KDir = KDir)) in * by done. cbn [negb] in Hm. split; [done|].
    destruct (decide_entry rules (join_slash (parent ++ [n])) true above) as [|next|]; [done| |done].
    by exists next.
Qed.

Lemma admitted_steps parent comps d n rest :
  membership_loop fs croot rules parent comps false (ancestry_of rules [] ancestry_default parent) = MAdmitted ->
  Forall plain_name parent -> Forall plain_name comps -> comps = d ++ n :: rest ->
  exists b, prunes_by_name rules (parent ++ d) n (join_slash (parent ++ d ++ [n])) b = false
    /\ match rest with
       | [] => decide_entry rules (join_slash (parent ++ d ++ [n])) false
                 (ancestry_of rules [] ancestry_default (parent ++ d)) = File true
       | _ => b = true /\ exists next, decide_entry rules (join_slash (parent ++ d ++ [n])) true
                 (ancestry_of rules [] ancestry_default (parent ++ d)) = Descend next
       end.
Proof.
  revert parent d. induction comps as [|m comps IH]; intros parent d Hm Hpar Hc E; [by destruct d|].
  apply Forall_cons in Hc as [Hmn Hc]. apply admitted_step in Hm as (b & Hpr & Hm).
  destruct d as [|m' d]; injection E as -> ->.
  - exists b. rewrite app_nil_r. split; [done|]. destruct rest; [done|].
    destruct Hm as (-> & next & Hdec & _). split; [done|]. by exists next.
  - assert (Hpn : Forall plain_name (parent ++ [m'])) by (by apply Forall_app; split; [|apply Forall_singleton]).
    destruct (d ++ n :: rest) as [|m2 comps] eqn:Hd; [by destruct d|]. destruct Hm as (_ & next & Hdec & Hm).
    destruct (decide_descend _ _ _ _ _ Hdec) as [_ Hnext].
    rewrite <- (relative_of_plain (parent ++ [m'])) in Hnext by done.
    assert (Hanc : next = ancestry_of rules [] ancestry_default (parent ++ [m'])) by (by rewrite ancestry_of_snoc).
    rewrite Hanc in Hm. destruct (IH (parent ++ [m']) d Hm Hpn Hc (eq_sym Hd)) as (b' & Hrest).
    exists b'. by rewrite <- !app_assoc in Hrest.
Qed.

End Steps.

Section Policy.
Variables (dirs ignore_paths include exclude : list string) (reserved : list (list string)).
Variables (gi : RootGitignore) (ov : ExtensionOverrides).
Hypothesis Hdirs : Forall plain_name dirs.

#[local] Notation policy := (with_config dirs ignore_paths include exclude gi ov).
#[local] Notation rules := (scan_rules dirs ignore_paths include exclude reserved gi ov).

(** C31: The watcher's rules are the scan's: of the same settings, the policy
    ignores a path if and only if a directory on it has an ignored name (one
    configured, or one of its own list; a package named build apart) or the
    scan, coming down with the git rules of the directories above, skips it. *)
Theorem watch_policy_exact p is_dir :
  Forall plain_name p -> p <> [] ->
  is_ignored policy (relative_of p) is_dir = true
  <-> structural_at dirs p is_dir
      \/ decide_entry rules (relative_of p) is_dir (ancestry_of rules [] ancestry_default (removelast p)) = Skip.
Proof.
  intros Hp Hne. rewrite relative_of_plain, (is_ignored_spec _ _ _ _ reserved), orb_true_iff by done.
  rewrite matches_structural_spec by done. apply or_iff_compat_l. by destruct (decide_entry _ _ _ _).
Qed.

(** The directories down to an admitted path have no ignored name. *)
Lemma admitted_not_structural fs croot p q tail is_dir :
  Forall plain_name p -> p = q ++ tail -> (is_dir = true -> tail <> []) ->
  membership_loop fs croot rules [] p false ancestry_default = MAdmitted ->
  Forall (fun n => n ∉ watch_only) (removelast p) -> ~ structural_at dirs q is_dir.
Proof.
  intros Hp E Htail Hm Hw (i & d & Hi & Hd & Hin & Hb).
  assert (Hlt : S i < length p).
  { subst p. rewrite length_app. destruct is_dir; cbn in Hi.
    - destruct tail; [by destruct Htail|]. cbn. lia.
    - destruct q as [|x q] using rev_ind; [done|]. rewrite removelast_last in Hi. rewrite length_app. cbn. lia. }
  assert (Hpd : p !! i = Some d) by (subst p; by apply lookup_app_l_Some).
  pose proof (take_drop_middle p i d Hpd) as Hsplit.
  destruct (admitted_steps fs croot rules [] p (take i p) d (drop (S i) p) Hm ltac:(done) Hp (eq_sym Hsplit))
    as (b & Hpr & Hrest). cbn [app] in *.
  destruct (drop (S i) p) as [|m rest] eqn:Hdrop.
  { apply (f_equal length) in Hdrop. rewrite length_drop in Hdrop. cbn in Hdrop. lia. }
  destruct Hrest as [-> _]. rewrite <- (take_S_r p i d) in Hpr by done.
  assert (take (S i) p = take (S i) q) as Ht.
  { subst p. apply take_app_le. apply lookup_lt_Some in Hd. lia. }
  rewrite Ht in Hpr. unfold prunes_by_name in Hpr. apply orb_false_iff in Hpr as [_ Hpr].
  apply elem_of_app in Hin as [Hin|Hin].
  - cbn [ignored_dirs scan_rules] in Hpr. rewrite bool_decide_eq_true_2 in Hpr by done. cbn [andb] in Hpr.
    apply negb_false_iff in Hpr. rewrite andb_true_r in Hpr. apply andb_true_iff in Hpr as [Hbd Hj].
    apply String.eqb_eq in Hbd. by rewrite Hb in Hj.
  - rewrite Forall_forall in Hw. apply (Hw d); [|done].
    apply (proj2 (dirs_on_lookup p false d)). exists i. split; [|done]. cbn.
    destruct p as [|x p] using rev_ind; [done|]. rewrite removelast_last. rewrite length_app in Hlt. cbn in Hlt. lia.
Qed.

(** C30: Nothing the scan admits escapes the watcher: of a file that
    [scan_membership] admits, every directory above is watched and the file's
    own changes are handed on, unless its path has one of the names the watcher
    alone ignores. *)
Theorem watch_sees_admitted fs croot p :
  Forall plain_name p -> p <> [] ->
  scan_membership fs croot rules (relative_of p) false = MAdmitted ->
  Forall (fun n => n ∉ watch_only) (removelast p) -> is_always_ignored (relative_of p) = false ->
  should_handle_file policy (relative_of p) = true
  /\ forall q tail, p = q ++ tail -> q <> [] -> tail <> [] -> should_watch_dir policy (relative_of q) = true.
Proof.
  intros Hp Hne Hm Hw Halw. rewrite scan_membership_plain in Hm by done.
  assert (Hign : forall q tail is_dir, p = q ++ tail -> q <> [] -> (is_dir = true <-> tail <> []) ->
    is_ignored policy (relative_of q) is_dir = false).
  { intros q tail is_dir E Hq Htail. apply not_true_iff_false.
    assert (Hpq : Forall plain_name q) by (rewrite E in Hp; by apply Forall_app in Hp as [? _]).
    rewrite (watch_policy_exact q is_dir) by done. intros [Hs|Hs].
    - eapply (admitted_not_structural fs croot p); [done|done|by apply Htail|done..].
    - destruct (exists_last Hq) as (d & n & ->). rewrite removelast_last, relative_of_plain in Hs by done.
      rewrite <- app_assoc in E.
      destruct (admitted_steps fs croot rules [] p d n tail Hm ltac:(done) Hp E) as (b & _ & Hrest).
      cbn [app] in Hrest. destruct tail as [|m tail].
      + destruct is_dir; [by destruct (proj1 Htail eq_refl)|]. congruence.
      + destruct is_dir; [|by discriminate (proj2 Htail)]. destruct Hrest as (_ & next & Hrest). congruence. }
  split.
  - unfold should_handle_file. rewrite Halw, (Hign p []) by (done || by rewrite app_nil_r). cbn [negb andb].
    apply negb_true_iff, bool_decide_eq_false.
    destruct (exists_last Hne) as (d & n & E). destruct (admitted_steps fs croot rules [] p d n [] Hm ltac:(done) Hp E)
      as (b & _ & [_ Hx]%decide_file). cbn [app] in Hx. rewrite <- E, <- relative_of_plain in Hx by done.
    by apply extractable_known.
  - intros q tail E Hq Htail. unfold should_watch_dir. rewrite (Hign q tail true) by done.
    assert (is_always_ignored (relative_of q) = false) as ->; [|done].
    assert (Hpq : Forall plain_name q) by (rewrite E in Hp; by apply Forall_app in Hp as [? _]).
    revert Halw. unfold is_always_ignored. rewrite !split_relative_of by done. rewrite E. by destruct q.
Qed.

End Policy.

(** On the demonstration's project. *)
Definition demo_policy : WatchPolicy :=
  with_config ["node_modules"; "build"] [] [] [] (gitignore demo_rules) (overrides demo_rules).

Lemma plain_by_test p : forallb plain_nameb p = true -> Forall plain_name p.
Proof.
  intros H. apply Forall_forall. intros n Hn%list_elem_of_In. rewrite forallb_forall in H.
  by apply plain_nameb_true, H.
Qed.

Lemma watch_policy_exact_witness :
  is_ignored demo_policy (relative_of ["out"]) true = true
  /\ is_ignored demo_policy (relative_of ["src"; "node_modules"; "x.js"]) false = true
  /\ is_ignored demo_policy (relative_of ["src"; "main"; "java"; "org"; "build"]) true = false.
Proof.
  split_and!.
  - apply (watch_policy_exact ["node_modules"; "build"] [] [] [] [] (gitignore demo_rules) (overrides demo_rules)
      ltac:(by apply plain_by_test) ["out"] true ltac:(by apply plain_by_test) ltac:(discriminate)).
    right. reflexivity.
  - apply (watch_policy_exact ["node_modules"; "build"] [] [] [] [] (gitignore demo_rules) (overrides demo_rules)
      ltac:(by apply plain_by_test) ["src"; "node_modules"; "x.js"] false ltac:(by apply plain_by_test)
      ltac:(discriminate)).
    left. exists 1, "node_modules". split_and!; [cbn; lia|reflexivity|by left|discriminate].
  - vm_compute. reflexivity.
Defined.

Lemma watch_sees_admitted_witness :
  should_handle_file demo_policy (relative_of ["src"; "sub"; "deep.go"]) = true
  /\ should_watch_dir demo_policy (relative_of ["src"; "sub"]) = true.
Proof.
  destruct (watch_sees_admitted ["node_modules"; "build"] [] [] [] [] (gitignore demo_rules) (overrides demo_rules)
    ltac:(by apply plain_by_test) demo_fs demo_root ["src"; "sub"; "deep.go"]) as [H1 H2].
  - by apply plain_by_test.
  - discriminate.
  - vm_compute. reflexivity.
  - apply Forall_forall. intros n Hn. apply (bool_decide_unpack _). revert n Hn. apply Forall_forall.
    repeat constructor.
  - vm_compute. reflexivity.
  - split; [exact H1|]. by apply (H2 ["src"; "sub"] ["deep.go"]).
Defined.
