(* ===== verification/WatchTree.v ===== *)
(** * What the watcher watches (codegraph-watch/src/watcher.rs: the pruned walk,
      the links it follows, removed directories, the effective scope)

    Paths are absolute and Unix; a directory's place is the list of its
    components. A walk reads the tree of one moment. *)
From S2P Require Import Prelude Types Strings PathUtil StrOps LangDetect ScanRules ScanWalk ScanFacts ScanProps WatchPolicy.

(** ** Paths *)

(** [Path::strip_prefix], of components. *)
Fixpoint strip_components (root path : list string) : option (list string) :=
  match root, path with
  | [], _ => Some path
  | a :: root, b :: path => if String.eqb a b then strip_components root path else None
  | _ :: _, [] => None
  end.

(** [WatchPolicy::normalize_relative]. *)
Definition normalize_relative (root path : string) : option string :=
  relative ← (if is_absolute path
              then join_slash <$> strip_components (normal_components root) (normal_components path)
              else Some path);
  let normalized := normalize_path relative in
  if String.eqb normalized "" || String.eqb normalized "." || starts_with normalized "../" then None
  else Some normalized.

(** The absolute path of components, [Path::join] of a root. *)
Definition absolute (path : list string) : string := "/" +:+ join_slash path.
Definition root_join (root relative : string) : string :=
  absolute (normal_components root ++ normal_components relative).

(** The order of paths, component by component. *)
Fixpoint path_le (a b : list string) : bool :=
  match a, b with
  | [], _ => true
  | _ :: _, [] => false
  | x :: a, y :: b => if String.eqb x y then path_le a b else str_le x y
  end.

(** The elements of a [BTreeSet], in order. *)
Definition in_order (s : gset string) : list string := sort_by str_le (elements s).

(** ** The walk *)

Record WatchTree : Type := mkTree { wt_dirs : list (list string); wt_stack : list (list string); wt_saw_link : bool }.

(** One entry of a directory that is walked. *)
Definition tree_entry (root : string) (policy : WatchPolicy) (dir : list string) (t : WatchTree)
    (e : string * Kind) : WatchTree :=
  let '(name, kind) := e in
  let path := dir ++ [name] in
  match kind with
  | KLink => mkTree (wt_dirs t) (wt_stack t) true
  | KDir =>
      match normalize_relative root (absolute path) with
      | Some relative =>
          if negb (should_watch_dir policy relative) then
            if watches_for_theme_markers relative
            then mkTree (wt_dirs t ++ [path]) (wt_stack t) (wt_saw_link t)
            else t
          else mkTree (wt_dirs t) (path :: wt_stack t) (wt_saw_link t)
      | None => t
      end
  | _ => t
  end.

(** The loop over the stack; a directory that cannot be read has no entries. *)
Fixpoint tree_loop (fs : Fs) (root : string) (policy : WatchPolicy) (fuel : nat) (t : WatchTree)
    : option WatchTree :=
  match wt_stack t with
  | [] => Some t
  | dir :: stack =>
      match fuel with
      | 0 => None
      | S fuel =>
          let t := mkTree (wt_dirs t ++ [dir]) stack (wt_saw_link t) in
          tree_loop fs root policy fuel
            (fold_left (tree_entry root policy dir) (default [] (fs_dirs fs !! locate fs [] dir)) t)
      end
  end.

(** Every entry of every directory, which a walk takes from its stack at most
    once; and the first directory. *)
Definition tree_fuel (fs : Fs) : nat :=
  S (sum_list (map (fun d => length d.2) (map_to_list (fs_dirs fs)))).

(** [collect_watch_tree]. *)
Definition collect_watch_tree (fs : Fs) (root : string) (policy : WatchPolicy) (start : list string)
    : option (list (list string) * bool) :=
  t ← tree_loop fs root policy (tree_fuel fs) (mkTree [] [start] false);
  Some (sort_by path_le (wt_dirs t), wt_saw_link t).

(** [known_directory_paths]; [policy.normalize_relative] of every directory. *)
Definition relative_dirs (root : string) (dirs : list (list string)) : gset string :=
  list_to_set (omap (fun dir => normalize_relative root (absolute dir)) dirs).

Definition known_directory_paths (fs : Fs) (root : string) (policy : WatchPolicy) : option (gset string) :=
  t ← collect_watch_tree fs root policy (normal_components root);
  Some (relative_dirs root t.1).

(** ** The links the index follows *)

Record LinkState : Type := mkLinkState {
  link_paths : gset string;
  watched_dirs : gset string;
  dir_links : list (string * list string);
  aliases : gmap string (list string)
}.

Definition no_links : LinkState := mkLinkState ∅ ∅ [] ∅.

(** The prefixes of a relative path, itself included, shortest first. *)
Definition path_prefixes (relative : string) : list string :=
  slash_prefixes "" relative ++ [relative].

Definition chain_watched (policy : WatchPolicy) (relative : string) : bool :=
  forallb (should_watch_dir policy) (path_prefixes relative).

(** [LinkState::from_scan]. *)
Definition from_scan (scan : ScanProjectResult) (policy : WatchPolicy) : LinkState :=
  mkLinkState
    (list_to_set (map fl_relative (sr_links scan)))
    (list_to_set (filter (fun d => chain_watched policy d = true) (sr_linked_dirs scan)))
    (map (fun link => (fl_relative link, fl_canonical link))
       (filter (fun link => match fl_kind link with LinkDir => chain_watched policy (fl_relative link) | LinkFile => false end = true)
          (sr_links scan)))
    (sr_file_aliases scan).

(** What [ProjectScope::load] gives a scan. *)
Record ProjectScope : Type := mkProjectScope { ps_rules : ScanRules; ps_blocked : list (list string) }.

(** [LinkState::load]. *)
Definition load_links (fs : Fs) (scope : option ProjectScope) (root : string) (policy : WatchPolicy) : LinkState :=
  match scope with
  | None => no_links
  | Some scope =>
      let root := normal_components root in
      match scan_project_with_stats fs (ps_rules scope) root (Some root) (ps_blocked scope) with
      | Ok scan => from_scan scan policy
      | _ => no_links
      end
  end.

Definition MAX_SUPPLEMENTAL_WATCHES : nat := 256.

Definition link_le (a b : string * list string) : bool :=
  if String.eqb a.1 b.1 then path_le a.2 b.2 else str_le a.1 b.1.

Definition supplemental_watches (dir_links : list (string * list string)) : list (string * list string) * bool :=
  let links := sort_by link_le dir_links in
  (take MAX_SUPPLEMENTAL_WATCHES links, MAX_SUPPLEMENTAL_WATCHES <? length links).

(** The longest canonical target that an event lies below; the last of equals. *)
Definition logical_event_path (path project_root : string) (supplemental : list (string * list string)) : string :=
  let candidates := omap (fun '(relative, canonical) =>
      rest ← (if is_absolute path then strip_components canonical (normal_components path) else None);
      Some (length canonical, relative, rest)) supplemental in
  let best := fold_left (fun best c =>
      match best with
      | Some b => if (c.1.1 <? b.1.1) then best else Some c
      | None => Some c
      end) candidates None in
  match best with
  | None => path
  | Some (_, relative, rest) => absolute (normal_components project_root ++ normal_components relative ++ rest)
  end.

(** ** Removed directories *)

Inductive RemovalHint : Set := HintNone | HintDirectory | HintAmbiguous.

#[export] Instance RemovalHint_eq_dec : EqDecision RemovalHint.
Proof. solve_decision. Defined.

Definition effective_removal (hint : RemovalHint) (relative : string) (known_dirs : gset string)
    (is_dir_now : bool) : RemovalHint :=
  if bool_decide (hint = HintNone) && negb is_dir_now && bool_decide (relative ∈ known_dirs)
  then HintDirectory else hint.

Definition classify_removed_directory (hint : RemovalHint) (relative : string) (known_dirs : gset string)
    : bool * gset string :=
  let removed_dir := match hint with
                     | HintDirectory => true
                     | HintAmbiguous => bool_decide (relative ∈ known_dirs)
                     | HintNone => false
                     end in
  (removed_dir,
   if removed_dir
   then filter (fun known => known <> relative /\ starts_with known (relative +:+ "/") = false) known_dirs
   else known_dirs).

(** ** The effective scope *)

Record RuntimeWatchScope : Type := mkScope {
  rs_policy : WatchPolicy;
  rs_ignore_dirs : list string;
  rs_ignore_paths : list string;
  rs_include : list string;
  rs_exclude : list string;
  rs_extensions : ExtensionOverrides;
  rs_debounce : N;
  rs_enabled : bool
}.

Record ControlChanges : Set := mkChanges { config_toml : bool; codegraph_json : bool; root_gitignore : bool }.

Definition no_changes : ControlChanges := mkChanges false false false.

Definition any_change (c : ControlChanges) : bool := config_toml c || codegraph_json c || root_gitignore c.

Record ControlFiles : Set := mkControlFiles {
  cf_config_toml : string;
  cf_codegraph_json : string;
  cf_root_gitignore : string;
  cf_repository_exclude : string
}.

(** [ControlFiles::classify]. *)
Definition classify (self : ControlFiles) (relative : string) (changes : ControlChanges) : bool * ControlChanges :=
  if String.eqb relative (cf_config_toml self)
  then (true, mkChanges true (codegraph_json changes) (root_gitignore changes))
  else if String.eqb relative (cf_codegraph_json self)
  then (true, mkChanges (config_toml changes) true (root_gitignore changes))
  else if String.eqb relative (cf_root_gitignore self) || String.eqb relative (cf_repository_exclude self)
  then (true, mkChanges (config_toml changes) (codegraph_json changes) true)
  else (false, changes).

(** What [Config::load_for_paths] says of a watcher. *)
Record WatchConfig : Type := mkWatchConfig {
  wc_ignore_dirs : list string;
  wc_ignore_paths : list string;
  wc_include : list string;
  wc_exclude : list string;
  wc_debounce_ms : N;
  wc_enabled : bool
}.

Definition MILLIS : N := 1000000.

(** [debounce_from_env_or], of the environment variable if it is a number. *)
Definition debounce_from_env_or (env : option N) (fallback_ms : N) : N :=
  (N.max 100 (N.min 60000 (default fallback_ms env)) * MILLIS)%N.

(** ** Control inputs (control_inputs.rs) *)

Record RecordedInputs : Type := mkRecorded { ri_paths : gset string; ri_member_listings : gset string }.

Definition parent_of (path : string) : string :=
  match rsplit_once SLASH path with Some (dir, _) => dir | None => "" end.

Definition may_move (self : RecordedInputs) (relative : string) (is_dir : bool) : bool :=
  bool_decide (relative ∈ ri_paths self)
  || (is_dir && bool_decide (parent_of relative ∈ ri_member_listings self)).

(** ** The walk ends *)

Section Walk.
Variables (fs : Fs) (root : string) (policy : WatchPolicy).
Hypothesis (Hwf : wf_fs fs) (Hplain : plain_fs fs).

(** The directories below one, without pruning, down to a depth. *)
Fixpoint below (depth : nat) (c : list string) : list (list string) :=
  match depth with
  | 0 => []
  | S depth =>
      c :: (default [] (fs_dirs fs !! c)
              ≫= fun e => match e.2 with KDir => below depth (c ++ [e.1]) | _ => [] end)
  end.

Lemma below_prefix depth c d : d ∈ below depth c -> c `prefix_of` d.
Proof.
  revert c. induction depth as [|depth IH]; intros c; cbn; [by set_solver|].
  rewrite elem_of_cons, list_elem_of_bind. intros [->|([n k] & Hd & _)]; [done|]. cbn in Hd.
  destruct k; try by apply not_elem_of_nil in Hd.
  apply IH in Hd. etrans; [|exact Hd]. by apply prefix_app_r.
Qed.

Lemma below_NoDup depth c : NoDup (below depth c).
Proof.
  revert c. induction depth as [|depth IH]; intros c; cbn; [constructor|].
  assert (Hlong : forall (es : list (string * Kind)) d,
    d ∈ (es ≫= fun e => match e.2 with KDir => below depth (c ++ [e.1]) | _ => [] end) ->
    exists n, n ∈ map fst es /\ (c ++ [n]) `prefix_of` d).
  { intros es d. rewrite list_elem_of_bind. intros ([n k] & Hd & Hin). cbn in Hd.
    destruct k; try by apply not_elem_of_nil in Hd. exists n. split; [by apply (list_elem_of_fmap_2 fst _ _ Hin)|].
    by eapply below_prefix. }
  apply NoDup_cons. split.
  - intros (n & _ & Hp)%Hlong. apply prefix_length in Hp. rewrite length_app in Hp. cbn in Hp. lia.
  - destruct (fs_dirs fs !! c) as [es|] eqn:He; cbn; [|constructor].
    pose proof (wf_nodup _ Hwf _ _ He) as Hnd. clear He.
    induction es as [|[n k] es IHes]; [constructor|]. cbn in Hnd. apply NoDup_cons in Hnd as [Hn Hnd].
    rewrite bind_cons. apply NoDup_app. split_and!; [destruct k; cbn; try constructor; apply IH| |by apply IHes].
    intros d Hd (m & Hm & Hpm)%Hlong. cbn in Hd. destruct k; try by apply not_elem_of_nil in Hd.
    apply below_prefix in Hd. destruct Hd as [x ->], Hpm as [y E]. rewrite <- !app_assoc in E.
    apply app_inv_head in E. injection E as -> _. done.
Qed.

(** Every place an entry names. *)
Definition places : list (list string) :=
  map_to_list (fs_dirs fs) ≫= fun d => map (fun e => d.1 ++ [e.1]) d.2.

Lemma below_places depth c d : d ∈ below depth c -> d = c \/ d ∈ places.
Proof.
  revert c. induction depth as [|depth IH]; intros c; cbn; [by set_solver|].
  rewrite elem_of_cons, list_elem_of_bind. intros [->|([n k] & Hd & Hin)]; [by left|]. right. cbn in Hd.
  destruct k; try by apply not_elem_of_nil in Hd.
  destruct (fs_dirs fs !! c) as [es|] eqn:He; [|by apply not_elem_of_nil in Hin]. cbn in Hin.
  destruct (IH _ Hd) as [->|?]; [|done]. apply list_elem_of_bind. exists (c, es). split.
  - cbn. apply list_elem_of_fmap. by exists (n, KDir).
  - by apply elem_of_map_to_list.
Qed.

Lemma below_length depth c : length (below depth c) <= tree_fuel fs.
Proof.
  assert (Hp : length places = sum_list (map (fun d => length d.2) (map_to_list (fs_dirs fs)))).
  { unfold places. induction (map_to_list (fs_dirs fs)) as [|d l IH]; [done|].
    rewrite bind_cons, length_app, length_map, IH. done. }
  unfold tree_fuel. rewrite <- Hp. change (S (length places)) with (length (c :: places)).
  apply submseteq_length, NoDup_submseteq; [apply below_NoDup|].
  intros d [->|Hd]%below_places; [by left|by right].
Qed.

(** A directory on the stack: its place and a depth below which nothing is. *)
Definition stacked (dir : list string) (dc : nat * list string) : Prop :=
  locate fs [] dir = dc.2 /\ deep_enough fs dc.1 dc.2 /\ 0 < dc.1.

Definition work (l : list (nat * list string)) : nat := sum_list (map (fun dc => length (below dc.1 dc.2)) l).

(** The entries of one directory put on the stack what lies below it. *)
Lemma tree_entries dir depth c entries t l :
  fs_dirs fs !! c = Some entries -> locate fs [] dir = c -> deep_enough fs (S depth) c ->
  forall es, (forall e, e ∈ es -> e ∈ entries) -> Forall2 stacked (wt_stack t) l ->
  exists l', Forall2 stacked (wt_stack (fold_left (tree_entry root policy dir) es t)) l'
    /\ work l' <= work l
        + length (es ≫= fun e => match e.2 with KDir => below depth (c ++ [e.1]) | _ => [] end).
Proof.
  intros He Hloc Hdeep es. revert t l. induction es as [|[n k] es IH]; intros t l Hin Hl.
  - exists l. cbn. split; [done|lia].
  - cbn [fold_left]. rewrite bind_cons, length_app. cbn [snd fst].
    assert (Hstep : exists l1, Forall2 stacked (wt_stack (tree_entry root policy dir t (n, k))) l1
      /\ work l1 <= work l + length (match k with KDir => below depth (c ++ [n]) | _ => [] end)).
    { unfold tree_entry. destruct k; try (exists l; split; [done|lia]).
      destruct (normalize_relative _ _) as [relative|]; [|exists l; split; [done|lia]].
      destruct (negb _); [destruct (watches_for_theme_markers _); exists l; (split; [done|lia])|].
      exists ((depth, c ++ [n]) :: l). split; [|unfold work; cbn; lia].
      assert (Hd : deep_enough fs depth (c ++ [n])).
      { intros c' Hc'. specialize (Hdeep c' Hc'). rewrite length_app. cbn. lia. }
      constructor; [|done]. split_and!; cbn; [|done|].
      - rewrite locate_app, Hloc. cbn.
        by rewrite (pf_links _ Hplain _ _ _ _ He (Hin _ ltac:(by left)) ltac:(done)).
      - specialize (Hd _ (wf_child _ Hwf _ _ _ He (Hin _ ltac:(by left)))). lia. }
    destruct Hstep as (l1 & Hl1 & Hw1).
    destruct (IH _ _ ltac:(intros; apply Hin; by right) Hl1) as (l2 & Hl2 & Hw2).
    exists l2. split; [done|lia].
Qed.

Lemma tree_loop_ends fuel t l :
  Forall2 stacked (wt_stack t) l -> work l <= fuel -> is_Some (tree_loop fs root policy fuel t).
Proof.
  revert t l. induction fuel as [|fuel IH]; intros [dirs [|dir stack] saw] l Hl Hw; try by eexists.
  - inversion Hl as [|? [[|depth] c] ? ? (_ & _ & ?)]; subst; [cbn in *; lia|]. unfold work in Hw. cbn in Hw. lia.
  - inversion Hl as [|? [depth c] ? l' (Hc & Hd & Hpos) Hl']; subst. cbn [fst snd] in *.
    destruct depth as [|depth]; [lia|]. cbn [tree_loop wt_stack wt_dirs wt_saw_link].
    unfold work in Hw. cbn [map fst snd below sum_list length] in Hw. fold (work l') in Hw. rewrite Hc.
    destruct (fs_dirs fs !! c) as [es|] eqn:He; cbn [default from_option id] in *.
    + destruct (tree_entries dir depth c es (mkTree (dirs ++ [dir]) stack saw) l' He Hc Hd es ltac:(done) Hl')
        as (l'' & Hl'' & Hw''). eapply IH; [exact Hl''|]. lia.
    + eapply IH; [exact Hl'|]. lia.
Qed.

Lemma collect_watch_tree_ends start : is_Some (collect_watch_tree fs root policy start).
Proof.
  unfold collect_watch_tree. destruct (tree_loop_ends (tree_fuel fs) (mkTree [] [start] false)
    [(S (S (depth_of fs)), locate fs [] start)]) as [t ->]; [| |by eexists].
  - constructor; [|constructor]. split_and!; [done| |cbn; lia]. intros c' Hc'.
    pose proof (deep_enough_depth fs (locate fs [] start) c' Hc'). cbn [fst snd]. lia.
  - unfold work. cbn [map fst snd sum_list]. rewrite Nat.add_0_r. apply below_length.
Qed.

End Walk.
