(* ===== verification/WatchLoop.v ===== *)
(** * The watcher's event loop (codegraph-watch/src/watcher.rs)

    The loop as a program of calls to what is outside it: the clock, the
    channel of events, the disk, the OS watcher, the syncs and the callbacks. A
    call's answer is the environment's. One [event_step] is one iteration over
    the loop's variables. A callback that was not given is one that does
    nothing. Durations and instants are in nanoseconds. *)
From S2P Require Import Prelude Types Strings PathUtil StrOps LangDetect ScanRules ScanWalk WatchPolicy WatchTree.
From stdpp Require Import pretty.

(** ** What the loop is told *)

(** A [notify::Error]: its kind and its text. *)
Inductive NotifyErrorKind : Set := NeIo (errno : option Z) | NeMaxFilesWatch | NeOther.
Record NotifyError : Set := mkNotifyError { ne_kind : NotifyErrorKind; ne_text : string }.

Record WatchEventBatch : Set := mkBatch { wb_paths : list string; wb_removal : RemovalHint; wb_rescan : bool }.

Inductive LoopMessage : Set :=
| MEvent (batch : WatchEventBatch)
| MWatchError (err : NotifyError)
| MSnapshot
| MStop.

(** What [recv_timeout] gives. *)
Inductive Received : Set := Message (m : LoopMessage) | TimedOut | Disconnected.

(** [SyncOutcome], as far as the loop reads it. *)
Record SyncOutcome : Type := mkOutcome {
  so_control_paths : option RecordedInputs;
  so_trigger_paths : list string;
  so_changed_paths : list string
}.

(** An [anyhow::Error]: its text, the text of its chain, and for each cause
    whether it says that an index lease timed out. *)
Record SyncError : Set := mkSyncError { se_text : string; se_chain_text : string; se_lease_timed_out : list bool }.

Record PendingInfo : Set := mkPending { first_seen_ms : N; last_seen_ms : N }.
Record PendingFile : Set := mkPendingFile { pf_path : string; pf_first_seen_ms : N; pf_last_seen_ms : N }.

(** ** Its calls *)

Inductive WatchCall : Type :=
| CInstant
| CEpochMillis
| CRecv
| CRecvTimeout (timeout : N)
| CIsDir (path : string)
| CIsSymlink (path : string)
| CReadDir (path : string)
| CTree
| CLoadConfig
| CDebounceEnv
| CLoadExtensions
| CLoadGitignore
| CLoadScope
| CLockWatcher
| CWatch (path : string)
| CUnwatch (path : string)
| CSync (paths : list string)
| CFullSync
| CDriftCheck
| CSleep (d : N)
| CSyncComplete (outcome : SyncOutcome)
| CDegraded (reason : string)
| CSyncError (reason : string)
| CReply (files : list PendingFile).

(** The shared watcher: its lock is poisoned, it is gone, or it is there. *)
Inductive WatcherLock : Set := LockPoisoned | WatcherGone | WatcherHeld.

Definition Answer (c : WatchCall) : Type :=
  match c with
  | CInstant | CEpochMillis => N
  | CRecv => option LoopMessage
  | CRecvTimeout _ => Received
  | CIsDir _ | CIsSymlink _ => bool
  | CReadDir _ => list string
  | CTree => Fs
  | CLoadConfig => string + WatchConfig
  | CDebounceEnv => option N
  | CLoadExtensions => ExtensionOverrides
  | CLoadGitignore => RootGitignore
  | CLoadScope => option ProjectScope
  | CLockWatcher => WatcherLock
  | CWatch _ => option NotifyError
  | CSync _ | CFullSync => SyncError + SyncOutcome
  | CDriftCheck => SyncError + option string
  | CUnwatch _ | CSleep _ | CSyncComplete _ | CDegraded _ | CSyncError _ | CReply _ => unit
  end.

(** A program; [Spent] is a loop whose fuel ran out. *)
Inductive Prog (A : Type) : Type :=
| Ret (a : A)
| Do (c : WatchCall) (k : Answer c -> Prog A)
| Spent.
Arguments Ret {A} a.
Arguments Do {A} c k.
Arguments Spent {A}.

Fixpoint prog_bind {A B} (p : Prog A) (f : A -> Prog B) : Prog B :=
  match p with
  | Ret a => f a
  | Do c k => Do c (fun r => prog_bind (k r) f)
  | Spent => Spent
  end.

Declare Scope watch_scope.
Delimit Scope watch_scope with watch.
Notation "'let!' x := m 'in' k" := (prog_bind m (fun x => k))
  (at level 200, x binder, m at level 100, k at level 200, right associativity) : watch_scope.
Notation "m ;! k" := (prog_bind m (fun _ => k)) (at level 99, right associativity) : watch_scope.
#[local] Open Scope watch_scope.

Definition call (c : WatchCall) : Prog (Answer c) := Do c Ret.

(** What a total helper that walks with enough fuel gives. *)
Definition walked {A} (o : option A) : Prog A := match o with Some a => Ret a | None => Spent end.

(** [for x in l { .. }] and the same with [break]. *)
Fixpoint for_each {A S} (f : S -> A -> Prog S) (s : S) (l : list A) : Prog S :=
  match l with
  | [] => Ret s
  | x :: l => let! s := f s x in for_each f s l
  end.

(** ** Time *)

Definition MAX_BACKOFF : N := (30000 * MILLIS)%N.
(** [Duration::MAX]. *)
Definition DURATION_MAX : N := (2 ^ 64 * 1000000000 - 1)%N.
Definition saturating (d : N) : N := N.min d DURATION_MAX.

Definition next_backoff (prev : N) : N :=
  let seed := if (prev =? 0)%N then MILLIS else prev in
  N.min (saturating (seed * 2)) MAX_BACKOFF.

Definition sync_retry_delay (debounce consecutive_errors : N) : N :=
  let doublings := N.min (consecutive_errors - 1) 16 in
  N.min (saturating (debounce * N.shiftl 1 doublings)) MAX_BACKOFF.

Definition MAX_CONSECUTIVE_SYNC_ERRORS : N := 5.
Definition SCOPED_SYNC_MAX_PENDING : nat := 500.

(** ** Auto-sync's health *)

Record DegradedState : Set := mkDegraded { dg_degraded : bool; dg_recovering : bool; dg_reason : option string }.

Definition mark (self : DegradedState) (reason : string) : DegradedState := mkDegraded true false (Some reason).
Definition mark_recovering (self : DegradedState) (reason : string) : DegradedState :=
  mkDegraded true true (Some reason).
Definition recover (self : DegradedState) : DegradedState :=
  if dg_recovering self then mkDegraded false false None else self.

Inductive WatchHealth : Set := Healthy | Recovering (reason : string) | Disabled (reason : string).

Definition health (self : DegradedState) : WatchHealth :=
  let reason := default "" (dg_reason self) in
  if negb (dg_degraded self) then Healthy
  else if dg_recovering self then Recovering reason else Disabled reason.

(** ** Errors of the backend *)

Inductive WatchErrorClass : Set := ClassDegrade | ClassWarn | ClassOther.

Definition EMFILE : Z := 24.
Definition ENFILE : Z := 23.
Definition ENOSPC : Z := 28.

Definition classify_watch_error (errno : option Z) : WatchErrorClass :=
  match errno with
  | Some e => if (e =? EMFILE)%Z || (e =? ENFILE)%Z then ClassDegrade
              else if (e =? ENOSPC)%Z then ClassWarn else ClassOther
  | None => ClassOther
  end.

Definition classify_notify_error (err : NotifyError) : WatchErrorClass :=
  match ne_kind err with
  | NeIo errno => classify_watch_error errno
  | NeMaxFilesWatch => ClassWarn
  | NeOther => ClassOther
  end.

Definition handle_watch_error (err : NotifyError) (degraded : DegradedState)
    : Prog (WatchErrorClass * DegradedState) :=
  let class := classify_notify_error err in
  match class with
  | ClassDegrade =>
      if negb (dg_degraded degraded) then
        let reason := "file watcher backend error: " +:+ ne_text err in
        call (CDegraded reason) ;! Ret (class, mark degraded reason)
      else Ret (class, degraded)
  | _ => call (CSyncError ("file watcher warning: " +:+ ne_text err)) ;! Ret (class, degraded)
  end.

(** ** Attempts to sync *)

Inductive SyncAttempt : Type := AttemptDone (outcome : SyncOutcome) | AttemptDegraded (reason : string) | AttemptError (reason : string).

Definition is_lock_contention (err : SyncError) : bool :=
  let lease_timed_out := existsb id (se_lease_timed_out err) in
  let text := to_ascii_lowercase (se_chain_text err) in
  lease_timed_out || contains_sub text "locked" || contains_sub text "busy".

(** The retry loop; a sleep is at least two milliseconds, which bounds the
    rounds that fit the budget. *)
Fixpoint backoff_loop (fuel : nat) (budget backoff slept : N) (run : Prog (SyncError + SyncOutcome))
    : Prog SyncAttempt :=
  match fuel with
  | 0 => Spent
  | S fuel =>
      let! r := run in
      match r with
      | inr outcome => Ret (AttemptDone outcome)
      | inl err =>
          if negb (is_lock_contention err) then Ret (AttemptError ("sync failed: " +:+ se_text err))
          else if (budget <=? slept)%N then
            Ret (AttemptDegraded ("sync write-lock contention exceeded " +:+ pretty (MAX_BACKOFF / (1000 * MILLIS))%N
                                  +:+ "s budget: " +:+ se_text err))
          else
            let backoff := next_backoff backoff in
            call (CSleep backoff) ;!
            backoff_loop fuel budget backoff (saturating (slept + backoff)) run
      end
  end.

Definition backoff_fuel (budget : N) : nat := S (S (N.to_nat (budget / (2 * MILLIS)))).

Definition run_with_backoff (budget : N) (run : Prog (SyncError + SyncOutcome)) : Prog SyncAttempt :=
  backoff_loop (backoff_fuel budget) budget 0 0 run.

Inductive PersistentFailure : Set := Surface | FailDegrade (reason : string) | FailDisable (reason : string).

Definition classify_persistent_failure (attempt : SyncAttempt) (consecutive_errors : N)
    : PersistentFailure * N :=
  match attempt with
  | AttemptDone _ => (Surface, 0%N)
  | AttemptDegraded reason => (FailDegrade reason, consecutive_errors)
  | AttemptError reason =>
      let consecutive_errors := (consecutive_errors + 1)%N in
      (if (MAX_CONSECUTIVE_SYNC_ERRORS <=? consecutive_errors)%N
       then FailDisable ("auto-sync disabled after " +:+ pretty MAX_CONSECUTIVE_SYNC_ERRORS
              +:+ " consecutive failures (" +:+ reason
              +:+ "); run `codegraph sync` to reindex once the cause is fixed")
       else Surface, consecutive_errors)
  end.

(** ** The loop's variables *)

Inductive WatchBackend : Set := NativeRecursive | PerDirNonRecursive.

#[export] Instance WatchBackend_eq_dec : EqDecision WatchBackend.
Proof. solve_decision. Defined.

(** What does not change: the backend is the platform's. *)
Record LoopCtx : Type := mkCtx {
  cx_backend : WatchBackend;
  cx_project_root : string;
  cx_control_files : ControlFiles;
  cx_lock_contention_budget : N;
  cx_lock_recovery_interval : N;
  cx_drift_sentinel : option N
}.

Record LoopState : Type := mkLoop {
  ls_scope : RuntimeWatchScope;
  ls_pending : gmap string PendingInfo;
  ls_deadline : option N;
  ls_errors : N;
  ls_full : bool;
  ls_sentinel_due : option N;
  ls_drift_reported : bool;
  ls_known : gset string;
  ls_links : LinkState;
  ls_supplemental : list (string * list string);
  ls_cap_warned : bool;
  ls_degraded : DegradedState;
  ls_control : RecordedInputs
}.

Definition set_scope x s := mkLoop x (ls_pending s) (ls_deadline s) (ls_errors s) (ls_full s) (ls_sentinel_due s) (ls_drift_reported s) (ls_known s) (ls_links s) (ls_supplemental s) (ls_cap_warned s) (ls_degraded s) (ls_control s).
Definition set_pending x s := mkLoop (ls_scope s) x (ls_deadline s) (ls_errors s) (ls_full s) (ls_sentinel_due s) (ls_drift_reported s) (ls_known s) (ls_links s) (ls_supplemental s) (ls_cap_warned s) (ls_degraded s) (ls_control s).
Definition set_deadline x s := mkLoop (ls_scope s) (ls_pending s) x (ls_errors s) (ls_full s) (ls_sentinel_due s) (ls_drift_reported s) (ls_known s) (ls_links s) (ls_supplemental s) (ls_cap_warned s) (ls_degraded s) (ls_control s).
Definition set_errors x s := mkLoop (ls_scope s) (ls_pending s) (ls_deadline s) x (ls_full s) (ls_sentinel_due s) (ls_drift_reported s) (ls_known s) (ls_links s) (ls_supplemental s) (ls_cap_warned s) (ls_degraded s) (ls_control s).
Definition set_full x s := mkLoop (ls_scope s) (ls_pending s) (ls_deadline s) (ls_errors s) x (ls_sentinel_due s) (ls_drift_reported s) (ls_known s) (ls_links s) (ls_supplemental s) (ls_cap_warned s) (ls_degraded s) (ls_control s).
Definition set_sentinel_due x s := mkLoop (ls_scope s) (ls_pending s) (ls_deadline s) (ls_errors s) (ls_full s) x (ls_drift_reported s) (ls_known s) (ls_links s) (ls_supplemental s) (ls_cap_warned s) (ls_degraded s) (ls_control s).
Definition set_drift_reported x s := mkLoop (ls_scope s) (ls_pending s) (ls_deadline s) (ls_errors s) (ls_full s) (ls_sentinel_due s) x (ls_known s) (ls_links s) (ls_supplemental s) (ls_cap_warned s) (ls_degraded s) (ls_control s).
Definition set_known x s := mkLoop (ls_scope s) (ls_pending s) (ls_deadline s) (ls_errors s) (ls_full s) (ls_sentinel_due s) (ls_drift_reported s) x (ls_links s) (ls_supplemental s) (ls_cap_warned s) (ls_degraded s) (ls_control s).
Definition set_links x y s := mkLoop (ls_scope s) (ls_pending s) (ls_deadline s) (ls_errors s) (ls_full s) (ls_sentinel_due s) (ls_drift_reported s) (ls_known s) x y (ls_cap_warned s) (ls_degraded s) (ls_control s).
Definition set_cap_warned x s := mkLoop (ls_scope s) (ls_pending s) (ls_deadline s) (ls_errors s) (ls_full s) (ls_sentinel_due s) (ls_drift_reported s) (ls_known s) (ls_links s) (ls_supplemental s) x (ls_degraded s) (ls_control s).
Definition set_degraded x s := mkLoop (ls_scope s) (ls_pending s) (ls_deadline s) (ls_errors s) (ls_full s) (ls_sentinel_due s) (ls_drift_reported s) (ls_known s) (ls_links s) (ls_supplemental s) (ls_cap_warned s) x (ls_control s).
Definition set_control x s := mkLoop (ls_scope s) (ls_pending s) (ls_deadline s) (ls_errors s) (ls_full s) (ls_sentinel_due s) (ls_drift_reported s) (ls_known s) (ls_links s) (ls_supplemental s) (ls_cap_warned s) (ls_degraded s) x.

(** [pending.entry(..).and_modify(..).or_insert(..)]. *)
Definition touch (now : N) (path : string) (pending : gmap string PendingInfo) : gmap string PendingInfo :=
  <[path := match pending !! path with
            | Some info => mkPending (first_seen_ms info) now
            | None => mkPending now now
            end]> pending.

Definition touch_all (now : N) (paths : list string) (s : LoopState) : LoopState :=
  set_pending (fold_left (fun pending path => touch now path pending) paths (ls_pending s)) s.

Section Loop.
Variable ctx : LoopCtx.

#[local] Notation root := (cx_project_root ctx).

(** ** The OS watcher *)

Definition single_root : bool := bool_decide (cx_backend ctx = NativeRecursive).

(** A watch that fails is looked at by [handle_watch_error]; [break] says that
    it degraded the watcher. *)
Fixpoint watch_all (degraded : DegradedState) (paths : list string) : Prog (bool * DegradedState) :=
  match paths with
  | [] => Ret (true, degraded)
  | path :: paths =>
      let! r := call (CWatch path) in
      match r with
      | None => watch_all degraded paths
      | Some err =>
          let! '(class, degraded) := handle_watch_error err degraded in
          match class with
          | ClassDegrade => Ret (false, degraded)
          | _ => watch_all degraded paths
          end
      end
  end.

Definition unwatch_all (paths : list string) : Prog unit :=
  for_each (fun _ path => call (CUnwatch path)) tt paths.

(** Watches whose failures are ignored. *)
Definition register_all (paths : list string) : Prog unit :=
  for_each (fun _ path => call (CWatch path) ;! Ret tt) tt paths.

Definition register_marker_dir (dir : string) : Prog unit :=
  if single_root then Ret tt else
  let! lock := call CLockWatcher in
  match lock with
  | WatcherHeld => call (CWatch dir) ;! Ret tt
  | _ => Ret tt
  end.

(** [register_new_dirs], with [register_new_dirs_with] and [collect_watch_dirs]. *)
Definition register_new_dirs (policy : WatchPolicy) (new_dir : string) : Prog unit :=
  if single_root then Ret tt else
  let! lock := call CLockWatcher in
  match lock with
  | WatcherHeld =>
      let! fs := call CTree in
      let! t := walked (collect_watch_tree fs root policy (normal_components new_dir)) in
      register_all (map absolute t.1)
  | _ => Ret tt
  end.

Definition reconcile_watch_dirs (policy : WatchPolicy) (known_dirs : gset string) (degraded : DegradedState)
    : Prog (bool * gset string * DegradedState) :=
  let! fs := call CTree in
  let! desired := walked (known_directory_paths fs root policy) in
  if single_root then Ret (true, desired, degraded) else
  let! lock := call CLockWatcher in
  match lock with
  | LockPoisoned =>
      call (CSyncError "watch scope reload could not lock the watcher") ;! Ret (true, known_dirs, degraded)
  | WatcherGone => Ret (true, desired, degraded)
  | WatcherHeld =>
      unwatch_all (map (root_join root) (in_order (known_dirs ∖ desired))) ;!
      let! '(ok, degraded) := watch_all degraded (map (root_join root) (in_order (desired ∖ known_dirs))) in
      if negb ok then Ret (false, known_dirs, degraded) else Ret (true, desired, degraded)
  end.

(** [relink], with [relink_plan]: everything old is unwatched, everything new
    watched. [None] is a failure that degraded the watcher. *)
Definition relink (old : LinkState) (old_supplemental : list (string * list string)) (new : LinkState)
    (degraded : DegradedState) : Prog (option (list (string * list string) * bool) * DegradedState) :=
  let '(new_supplemental, truncated) :=
    if single_root then supplemental_watches (dir_links new) else ([], false) in
  let old_set := if single_root then list_to_set (map fst old_supplemental) else watched_dirs old in
  let new_set := if single_root then list_to_set (map fst new_supplemental) else watched_dirs new in
  let! lock := call CLockWatcher in
  match lock with
  | WatcherHeld =>
      unwatch_all (map (root_join root) (in_order old_set)) ;!
      let! '(ok, degraded) := watch_all degraded (map (root_join root) (in_order new_set)) in
      if negb ok then Ret (None, degraded) else Ret (Some (new_supplemental, truncated), degraded)
  | _ => Ret (Some (new_supplemental, truncated), degraded)
  end.

Definition supplemental_cap_warning (truncated warned : bool) : option string * bool :=
  if negb truncated || warned then (None, warned)
  else (Some ("watching only the first " +:+ pretty MAX_SUPPLEMENTAL_WATCHES
              +:+ " symlinked directories; changes below the rest are picked up by the next full sync"), true).

Definition rewatch_root : Prog unit :=
  if negb single_root then Ret tt else
  let! lock := call CLockWatcher in
  match lock with
  | WatcherHeld =>
      call (CUnwatch root) ;!
      let! r := call (CWatch root) in
      match r with
      | Some err => call (CSyncError ("re-watching " +:+ root +:+ " after drift failed: " +:+ ne_text err))
      | None => Ret tt
      end
  | _ => Ret tt
  end.

(** [begin_lost_event_recovery]. *)
Definition begin_lost_event_recovery (delay : N) (cause : string) (s : LoopState) : Prog LoopState :=
  if dg_recovering (ls_degraded s) then Ret s else
  let s := set_degraded (mark_recovering (ls_degraded s) ("events may have been lost: " +:+ cause)) s in
  let! now := call CInstant in
  Ret (set_deadline (Some (now + delay)%N) s).

(** ** A new scope *)

Definition rebuild_policy (s : RuntimeWatchScope) (gitignore : RootGitignore) : RuntimeWatchScope :=
  mkScope (with_config (rs_ignore_dirs s) (rs_ignore_paths s) (rs_include s) (rs_exclude s) gitignore (rs_extensions s))
    (rs_ignore_dirs s) (rs_ignore_paths s) (rs_include s) (rs_exclude s) (rs_extensions s) (rs_debounce s) (rs_enabled s).

Definition reload_runtime_scope (previous : RuntimeWatchScope) (changes : ControlChanges)
    : Prog (RuntimeWatchScope * bool * option string) :=
  let! '(next, applied, error) :=
    (if config_toml changes then
       let! r := call CLoadConfig in
       match r with
       | inr config =>
           let! env := call CDebounceEnv in
           Ret (mkScope (rs_policy previous) (wc_ignore_dirs config) (wc_ignore_paths config) (wc_include config)
                  (wc_exclude config) (rs_extensions previous) (debounce_from_env_or env (wc_debounce_ms config))
                  (wc_enabled config), true, None)
       | inl err =>
           Ret (previous, root_gitignore changes,
                Some ("watch config reload failed; keeping the last valid config: " +:+ err))
       end
     else Ret (previous, root_gitignore changes, None)) in
  let! '(next, applied) :=
    (if codegraph_json changes then
       let! extensions := call CLoadExtensions in
       Ret (mkScope (rs_policy next) (rs_ignore_dirs next) (rs_ignore_paths next) (rs_include next) (rs_exclude next)
              extensions (rs_debounce next) (rs_enabled next), true)
     else Ret (next, applied)) in
  if applied then
    let! gitignore := call CLoadGitignore in
    Ret (rebuild_policy next gitignore, true, error)
  else Ret (next, false, error).

(** ** One batch of events *)

(** The logical, relative form of each path, and whether it is a control file. *)
Definition normalize_paths (s : LoopState) (paths : list string)
    : list (string * string * bool) * ControlChanges :=
  fold_left (fun '(normalized, changes) path =>
      let path := logical_event_path path root (ls_supplemental s) in
      match normalize_relative root path with
      | Some relative =>
          let '(is_control, changes) := classify (cx_control_files ctx) relative changes in
          (normalized ++ [(path, relative, is_control)], changes)
      | None => (normalized, changes)
      end) paths ([], no_changes).

(** The reload of the scope: [Break] when a watch degraded the watcher; the
    flag is [link_topology_changed]. *)
Definition control_reload (normalized : list (string * string * bool)) (changes : ControlChanges)
    (s : LoopState) : Prog (loop_step LoopState * bool) :=
  if negb (any_change changes) then Ret (Continue s, false) else
  let! '(next, applied, reload_error) := reload_runtime_scope (ls_scope s) changes in
  (match reload_error with Some reason => call (CSyncError reason) | None => Ret tt end) ;!
  if negb applied then Ret (Continue s, false) else
  let! '(ok, known, degraded) := reconcile_watch_dirs (rs_policy next) (ls_known s) (ls_degraded s) in
  let s := set_degraded degraded (set_known known s) in
  if negb ok then Ret (Break s, false) else
  let s := set_full true (set_scope next s) in
  let! now := call CEpochMillis in
  Ret (Continue (touch_all now (map (fun n => n.1.2) (filter (fun n => n.2 = true) normalized)) s), true).

(** [LinkState::is_topology_event]. *)
Definition is_topology_event (links : LinkState) (path relative : string) : Prog bool :=
  let! is_symlink := call (CIsSymlink path) in
  if is_symlink || bool_decide (relative ∈ link_paths links) then Ret true else
  let! gone := (if bool_decide (relative ∈ watched_dirs links)
                then let! is_dir := call (CIsDir path) in Ret (negb is_dir)
                else Ret false) in
  if gone then Ret true else
  if bool_decide (is_Some (aliases links !! relative)) then call (CIsDir path) else Ret false.

(** What a new directory brings: the watches below it and, when it holds a
    link, a change of the links. *)
Definition new_directory (path relative : string) (s : LoopState) (topology : bool)
    : Prog (LoopState * bool) :=
  let policy := rs_policy (ls_scope s) in
  let! is_link := call (CIsSymlink path) in
  if is_link then Ret (s, topology) else
  register_new_dirs policy path ;!
  let! fs := call CTree in
  let! '(new_dirs, saw_link) := walked (collect_watch_tree fs root policy (normal_components path)) in
  let s := set_known (ls_known s ∪ relative_dirs root new_dirs) s in
  if saw_link then
    let! now := call CEpochMillis in
    Ret (touch_all now [relative] s, true)
  else Ret (s, topology).

(** A new directory that is ignored but may hold a theme's marker. *)
Definition new_marker_dir (path relative : string) (s : LoopState) : Prog LoopState :=
  register_marker_dir path ;!
  let s := set_known ({[relative]} ∪ ls_known s) s in
  let! now := call CEpochMillis in
  let! names := call (CReadDir path) in
  Ret (touch_all now (filter (fun marker => may_mark_a_theme marker = true)
                        (map (fun name => relative +:+ "/" +:+ name) names)) s).

Definition is_marker_dir (policy : WatchPolicy) (path relative : string) : Prog bool :=
  let! is_dir := call (CIsDir path) in
  if negb is_dir || should_watch_dir policy relative || negb (watches_for_theme_markers relative) then Ret false
  else let! is_link := call (CIsSymlink path) in Ret (negb is_link).

(** Whether a path's change is the sync's business. *)
Definition is_handled (s : LoopState) (path relative : string) : Prog bool :=
  let policy := rs_policy (ls_scope s) in
  if should_handle_file policy relative
     || (allows_file_path policy relative && maybe_deleted_source relative)
     || may_mark_a_theme relative
     || is_project_control_file relative
  then Ret true
  else let! is_dir := call (CIsDir path) in Ret (may_move (ls_control s) relative is_dir).

(** One path that is no control file. *)
Definition handle_path (hint : RemovalHint) (s : LoopState) (topology : bool) (path relative : string)
    : Prog (LoopState * bool) :=
  let policy := rs_policy (ls_scope s) in
  let! is_topology := is_topology_event (ls_links s) path relative in
  let! '(s, topology) :=
    (if is_topology then let! now := call CEpochMillis in Ret (touch_all now [relative] s, true)
     else Ret (s, topology)) in
  let! is_dir_now := call (CIsDir path) in
  let removal := effective_removal hint relative (ls_known s) is_dir_now in
  let '(removed, known) := classify_removed_directory removal relative (ls_known s) in
  let s := set_known known s in
  if removed then
    if should_watch_dir policy relative then
      let! now := call CEpochMillis in
      Ret (touch_all now [relative] (set_full true s), topology)
    else if watches_for_theme_markers relative then
      let! now := call CEpochMillis in
      Ret (touch_all now (shopify_markers_in_folder relative) s, topology)
    else Ret (s, topology)
  else
    let! marker := is_marker_dir policy path relative in
    let! s := (if marker then new_marker_dir path relative s else Ret s) in
    let! is_dir := call (CIsDir path) in
    let! '(s, topology) :=
      (if is_dir && should_watch_dir policy relative then new_directory path relative s topology
       else Ret (s, topology)) in
    let! handled := is_handled s path relative in
    if handled then
      let! now := call CEpochMillis in
      let aliases := filter (fun alias => should_handle_file policy alias = true)
                       (default [] (aliases (ls_links s) !! relative)) in
      Ret (touch_all now (relative :: aliases) s, topology)
    else Ret (s, topology).

(** The loop over the batch's paths. *)
Definition handle_paths (hint : RemovalHint) (normalized : list (string * string * bool))
    (s : LoopState) (topology : bool) : Prog (LoopState * bool) :=
  for_each (fun '(s, topology) '(path, relative, is_control) =>
      if is_control || negb (rs_enabled (ls_scope s)) then Ret (s, topology)
      else handle_path hint s topology path relative) (s, topology) normalized.

(** The links are read again and one full sync applies them. *)
Definition relink_all (s : LoopState) : Prog (loop_step LoopState) :=
  let! scope := call CLoadScope in
  let! fs := call CTree in
  let next_links := load_links fs scope root (rs_policy (ls_scope s)) in
  let! '(r, degraded) := relink (ls_links s) (ls_supplemental s) next_links (ls_degraded s) in
  let s := set_degraded degraded s in
  match r with
  | None => Ret (Break s)
  | Some (next_supplemental, truncated) =>
      let '(warning, warned) := supplemental_cap_warning truncated (ls_cap_warned s) in
      let s := set_cap_warned warned s in
      (match warning with Some warning => call (CSyncError warning) | None => Ret tt end) ;!
      let known := (ls_known s ∖ watched_dirs (ls_links s)) ∪ watched_dirs next_links in
      Ret (Continue (set_full true (set_links next_links next_supplemental (set_known known s))))
  end.

(** The end of a batch: what was lost, and the timer that every event resets. *)
Definition settle (rescan : bool) (s : LoopState) : Prog (loop_step LoopState) :=
  let! s := (if rescan && rs_enabled (ls_scope s) then
               begin_lost_event_recovery (rs_debounce (ls_scope s))
                 "the OS watcher reported dropped events or a change without a path" (set_full true s)
             else Ret s) in
  if negb (bool_decide (ls_pending s = ∅)) && negb (dg_recovering (ls_degraded s)) then
    let! now := call CInstant in
    Ret (Continue (set_deadline (Some (now + rs_debounce (ls_scope s))%N) s))
  else Ret (Continue s).

Definition handle_event (batch : WatchEventBatch) (s : LoopState) : Prog (loop_step LoopState) :=
  let '(normalized, changes) := normalize_paths s (wb_paths batch) in
  let! '(r, topology) := control_reload normalized changes s in
  match r with
  | Break s => Ret (Break s)
  | Continue s =>
      let! '(s, topology) := handle_paths (wb_removal batch) normalized s topology in
      let! r := (if topology && rs_enabled (ls_scope s) then relink_all s else Ret (Continue s)) in
      match r with
      | Break s => Ret (Break s)
      | Continue s => settle (wb_rescan batch) s
      end
  end.

(** ** The two timeouts *)

Definition next_sentinel : Prog (option N) :=
  match cx_drift_sentinel ctx with
  | Some every => let! now := call CInstant in Ret (Some (now + every)%N)
  | None => Ret None
  end.

(** The drift sentinel's idle tick. *)
Definition sentinel_tick (s : LoopState) : Prog LoopState :=
  let! due := next_sentinel in
  let s := set_sentinel_due due s in
  if dg_recovering (ls_degraded s) || negb (rs_enabled (ls_scope s)) then Ret s else
  let! r := call CDriftCheck in
  match r with
  | inr (Some detail) =>
      rewatch_root ;!
      begin_lost_event_recovery 0 ("the drift sentinel found " +:+ detail) (set_full true s)
  | inr None => Ret s
  | inl err =>
      (if negb (ls_drift_reported s) then call (CSyncError ("watch drift check failed: " +:+ se_chain_text err))
       else Ret tt) ;!
      Ret (set_drift_reported true s)
  end.

Definition with_trigger_paths (outcome : SyncOutcome) (paths : list string) : SyncOutcome :=
  mkOutcome (so_control_paths outcome) paths (so_changed_paths outcome).

(** What an attempt leaves, up to the decision of [classify_persistent_failure]. *)
Definition after_attempt (attempt : SyncAttempt) (full_sync : bool) (paths : list string)
    (batch : gmap string PendingInfo) (s : LoopState) : Prog LoopState :=
  match attempt with
  | AttemptDone outcome =>
      let s := if full_sync then set_degraded (recover (ls_degraded s)) s else s in
      let s := match so_control_paths outcome with Some paths => set_control paths s | None => s end in
      call (CSyncComplete (with_trigger_paths outcome paths)) ;! Ret s
  | AttemptError reason =>
      call (CSyncError reason) ;!
      let s := set_full (ls_full s || full_sync) (set_pending batch s) in
      let! now := call CInstant in
      Ret (set_deadline (Some (now + sync_retry_delay (rs_debounce (ls_scope s)) (ls_errors s))%N) s)
  | AttemptDegraded _ => Ret s
  end.

Definition after_decision (decision : PersistentFailure) (batch : gmap string PendingInfo) (s : LoopState)
    : Prog (loop_step LoopState) :=
  match decision with
  | Surface => Ret (Continue s)
  | FailDegrade reason =>
      (if negb (dg_recovering (ls_degraded s))
       then call (CSyncError ("auto-sync paused: " +:+ reason +:+ "; retrying a full reconcile every "
                    +:+ pretty (cx_lock_recovery_interval ctx / (1000 * MILLIS))%N +:+ "s"))
       else Ret tt) ;!
      let s := set_full true (set_pending batch
                 (set_degraded (mark_recovering (ls_degraded s) reason) s)) in
      let! now := call CInstant in
      Ret (Continue (set_deadline (Some (now + cx_lock_recovery_interval ctx)%N) s))
  | FailDisable reason =>
      if negb (dg_degraded (ls_degraded s)) || dg_recovering (ls_degraded s) then
        let s := set_degraded (mark (ls_degraded s) reason) s in
        call (CDegraded reason) ;! Ret (Break s)
      else Ret (Break s)
  end.

(** The deadline has come: what is pending is synced. *)
Definition sync_tick (s : LoopState) : Prog (loop_step LoopState) :=
  let batch := ls_pending s in
  let paths := in_order (dom batch) in
  let! due := next_sentinel in
  let s := set_sentinel_due due (set_deadline None (set_pending ∅ s)) in
  let burst := SCOPED_SYNC_MAX_PENDING <? length paths in
  let s := if burst && negb (dg_recovering (ls_degraded s))
           then set_degraded (mark_recovering (ls_degraded s)
                  ("events may have been lost: " +:+ pretty (length paths) +:+ " paths changed at once")) s
           else s in
  let full_sync := ls_full s || burst in
  let s := set_full false s in
  let! attempt := run_with_backoff (cx_lock_contention_budget ctx)
                    (if full_sync then call CFullSync else call (CSync paths)) in
  let '(decision, errors) := classify_persistent_failure attempt (ls_errors s) in
  let s := set_errors errors s in
  let! s := after_attempt attempt full_sync paths batch s in
  after_decision decision batch s.

(** ** One iteration *)

Definition snapshot (pending : gmap string PendingInfo) : list PendingFile :=
  omap (fun path => info ← pending !! path;
          Some (mkPendingFile path (first_seen_ms info) (last_seen_ms info))) (in_order (dom pending)).

Definition handle_message (m : LoopMessage) (s : LoopState) : Prog (loop_step LoopState) :=
  match m with
  | MEvent batch => handle_event batch s
  | MWatchError err =>
      let! '(class, degraded) := handle_watch_error err (ls_degraded s) in
      let s := set_degraded degraded s in
      match class with
      | ClassDegrade => Ret (Break s)
      | _ => Ret (Continue s)
      end
  | MSnapshot => call (CReply (snapshot (ls_pending s))) ;! Ret (Continue s)
  | MStop => Ret (Break s)
  end.

Definition event_step (s : LoopState) : Prog (loop_step LoopState) :=
  match (match ls_deadline s with Some d => Some d | None => ls_sentinel_due s end) with
  | Some when_ =>
      let! now := call CInstant in
      let! r := call (CRecvTimeout (when_ - now)%N) in
      match r with
      | Message m => handle_message m s
      | Disconnected => Ret (Break s)
      | TimedOut =>
          match ls_deadline s with
          | None => let! s := sentinel_tick s in Ret (Continue s)
          | Some _ => sync_tick s
          end
      end
  | None =>
      let! r := call CRecv in
      match r with
      | Some m => handle_message m s
      | None => Ret (Break s)
      end
  end.

End Loop.

(** The loop's variables when it starts. *)
Definition initial_state (scope : RuntimeWatchScope) (known : gset string) (links : LinkState)
    (supplemental : list (string * list string)) (cap_warned : bool) (degraded : DegradedState)
    (control : RecordedInputs) (sentinel_due : option N) : LoopState :=
  mkLoop scope ∅ None 0 false sentinel_due false known links supplemental cap_warned degraded control.
