(* ===== verification/WatchLoopFacts.v ===== *)
(** * A logic for the watcher's loop

    [wp] over the log of a program's calls and answers: whatever the
    environment answers (a disk that is a file system), the program ends and its
    log and result meet the postcondition. *)
From S2P Require Import Prelude Types Strings PathUtil StrOps LangDetect ScanRules ScanWalk ScanFacts ScanProps WatchPolicy WatchTree WatchLoop.
From stdpp Require Import pretty.
#[local] Open Scope watch_scope.

(** ** Logs *)

Definition Event : Type := {c : WatchCall & Answer c}.

Definition log_of (c : WatchCall) (r : Answer c) : Event := existT c r.

(** The syncs that were tried, the notices that auto-sync stopped, and what
    the channel gave. *)
Definition attempt_of (e : Event) : list (option (list string) * (SyncError + SyncOutcome)) :=
  match e with
  | existT (CSync paths) r => [(Some paths, r)]
  | existT CFullSync r => [(None, r)]
  | _ => []
  end.
Definition notice_of (e : Event) : list string :=
  match e with existT (CDegraded reason) _ => [reason] | _ => [] end.
Definition received_of (e : Event) : list Received :=
  match e with
  | existT CRecv r => [match r with Some m => Message m | None => Disconnected end]
  | existT (CRecvTimeout _) r => [r]
  | _ => []
  end.

Definition attempts (tr : list Event) := tr ≫= attempt_of.
Definition notices (tr : list Event) := tr ≫= notice_of.
Definition received (tr : list Event) := tr ≫= received_of.

Lemma attempts_app t1 t2 : attempts (t1 ++ t2) = attempts t1 ++ attempts t2.
Proof. apply bind_app. Qed.
Lemma notices_app t1 t2 : notices (t1 ++ t2) = notices t1 ++ notices t2.
Proof. apply bind_app. Qed.
Lemma received_app t1 t2 : received (t1 ++ t2) = received t1 ++ received t2.
Proof. apply bind_app. Qed.

(** Nothing that matters to the syncs happened. *)
Definition quiet (tr : list Event) : Prop := attempts tr = [] /\ notices tr = [] /\ received tr = [].

Lemma quiet_nil : quiet [].
Proof. done. Qed.

Lemma quiet_app t1 t2 : quiet t1 -> quiet t2 -> quiet (t1 ++ t2).
Proof.
  intros (H1 & H2 & H3) (H4 & H5 & H6). unfold quiet.
  by rewrite attempts_app, notices_app, received_app, H1, H2, H3, H4, H5, H6.
Qed.

Definition quiet_call (c : WatchCall) : bool :=
  match c with CSync _ | CFullSync | CDegraded _ | CRecv | CRecvTimeout _ => false | _ => true end.

Lemma quiet_cons c r tr : quiet_call c = true -> quiet tr -> quiet (log_of c r :: tr).
Proof. intros Hc Htr. apply (quiet_app [_]); [|done]. by destruct c. Qed.

#[export] Hint Resolve quiet_nil quiet_app : watch.

(** ** Programs *)

(** What the environment may answer: a tree is a file system. *)
Definition ok_answer (c : WatchCall) : Answer c -> Prop :=
  match c with
  | CTree => fun fs => wf_fs fs /\ plain_fs fs
  | _ => fun _ => True
  end.

Fixpoint wp {A} (p : Prog A) (Q : list Event -> A -> Prop) : Prop :=
  match p with
  | Ret a => Q [] a
  | Do c k => forall r, ok_answer c r -> wp (k r) (fun tr a => Q (log_of c r :: tr) a)
  | Spent => False
  end.

(** A run: its log and its result. *)
Fixpoint runs {A} (p : Prog A) (tr : list Event) (a : A) : Prop :=
  match p with
  | Ret b => tr = [] /\ a = b
  | Do c k => exists r tr', tr = log_of c r :: tr' /\ ok_answer c r /\ runs (k r) tr' a
  | Spent => False
  end.

Lemma wp_runs {A} (p : Prog A) Q tr a : wp p Q -> runs p tr a -> Q tr a.
Proof.
  revert Q tr. induction p as [b|c k IH|]; intros Q tr; cbn; [by intros ? [-> ->]| |done].
  intros Hp (r & tr' & -> & Hr & Hk). exact (IH r _ _ (Hp r Hr) Hk).
Qed.

Lemma prog_wp_mono {A} (p : Prog A) (Q Q' : list Event -> A -> Prop) :
  wp p Q -> (forall tr a, Q tr a -> Q' tr a) -> wp p Q'.
Proof.
  revert Q Q'. induction p as [b|c k IH|]; intros Q Q'; cbn; [by auto| |done].
  intros Hp HQ r Hr. eapply IH; [by apply Hp|]. intros tr a. apply HQ.
Qed.

Lemma prog_wp_bind {A B} (p : Prog A) (f : A -> Prog B) Q :
  wp p (fun tr a => wp (f a) (fun tr' b => Q (tr ++ tr') b)) -> wp (prog_bind p f) Q.
Proof.
  revert Q. induction p as [b|c k IH|]; intros Q; cbn; [done| |done].
  intros Hp r Hr. apply IH. by apply Hp.
Qed.

Lemma prog_wp_call c (Q : list Event -> Answer c -> Prop) :
  (forall r, ok_answer c r -> Q [log_of c r] r) -> wp (call c) Q.
Proof. cbn. auto. Qed.

(** A quiet program of any shape keeps an accumulated log quiet. *)
Lemma wp_quiet_bind {A B} (p : Prog A) (f : A -> Prog B) (R : A -> Prop) Q :
  wp p (fun tr a => quiet tr /\ R a) ->
  (forall a, R a -> wp (f a) (fun tr b => quiet tr /\ Q b)) ->
  wp (prog_bind p f) (fun tr b => quiet tr /\ Q b).
Proof.
  intros Hp Hf. apply prog_wp_bind. eapply prog_wp_mono; [exact Hp|]. intros tr a [Htr Ha].
  eapply prog_wp_mono; [by apply Hf|]. intros tr' b [Htr' Hb]. split; [by apply quiet_app|done].
Qed.

Lemma wp_quiet_call c (Q : Answer c -> Prop) :
  quiet_call c = true -> (forall r, ok_answer c r -> Q r) -> wp (call c) (fun tr r => quiet tr /\ Q r).
Proof. intros Hc HQ. apply prog_wp_call. intros r Hr. split; [by apply quiet_cons|by apply HQ]. Qed.

(** A quiet call before the rest. *)
Lemma wp_do {A} c (f : Answer c -> Prog A) (Q : A -> Prop) :
  quiet_call c = true -> (forall r, ok_answer c r -> wp (f r) (fun tr a => quiet tr /\ Q a)) ->
  wp (prog_bind (call c) f) (fun tr a => quiet tr /\ Q a).
Proof.
  intros Hc Hf. eapply wp_quiet_bind; [by apply (wp_quiet_call c (ok_answer c))|]. exact Hf.
Qed.

Lemma wp_ret {A} (a : A) (Q : A -> Prop) : Q a -> wp (Ret a) (fun tr b => quiet tr /\ Q b).
Proof. done. Qed.

Lemma wp_for_each {A S} (f : S -> A -> Prog S) (I : S -> Prop) s l :
  I s -> (forall s x, x ∈ l -> I s -> wp (f s x) (fun tr s' => quiet tr /\ I s')) ->
  wp (for_each f s l) (fun tr s' => quiet tr /\ I s').
Proof.
  revert s. induction l as [|x l IH]; intros s Hs Hf; [done|]. cbn [for_each].
  eapply wp_quiet_bind; [apply Hf; [by left|done]|]. intros s' Hs'. apply IH; [done|].
  intros; apply Hf; [by right|done].
Qed.

(** ** What each part does to what is owed *)

(** A watch that degraded the watcher: it is marked, and the notice is given
    unless it already had been. *)
Definition stopped (d d' : DegradedState) (tr : list Event) : Prop :=
  attempts tr = [] /\ received tr = []
  /\ ((dg_degraded d = true /\ d' = d /\ notices tr = [])
      \/ (dg_degraded d = false /\ exists reason, d' = mark d reason /\ notices tr = [reason])).

Lemma stopped_after d d' t1 t2 : quiet t1 -> stopped d d' t2 -> stopped d d' (t1 ++ t2).
Proof.
  intros (Ha & Hn & Hr) (Ha' & Hr' & Hd). unfold stopped.
  by rewrite attempts_app, received_app, notices_app, Ha, Hr, Hn.
Qed.

Section Loop.
Variable ctx : LoopCtx.

Lemma wp_handle_watch_error err d :
  wp (handle_watch_error err d) (fun tr r =>
    match r.1 with ClassDegrade => stopped d r.2 tr | _ => quiet tr /\ r.2 = d end).
Proof.
  unfold handle_watch_error.
  destruct (classify_notify_error err).
  - destruct (dg_degraded d) eqn:Hd; cbn.
    + unfold stopped. split_and!; [done|done|]. by left.
    + intros ? _. unfold stopped. cbn. split_and!; [done|done|]. right. split; [done|]. by eexists.
  - cbn. intros ? _. by repeat split.
  - cbn. intros ? _. by repeat split.
Qed.

Lemma wp_watch_all d paths :
  wp (watch_all d paths) (fun tr r => if r.1 then quiet tr /\ r.2 = d else stopped d r.2 tr).
Proof.
  induction paths as [|path paths IH]; [by cbn|]. cbn [watch_all].
  apply prog_wp_bind, prog_wp_call. intros r _. destruct r as [err|].
  - apply prog_wp_bind. eapply prog_wp_mono; [apply wp_handle_watch_error|]. intros tr [class d'] H. cbn [fst snd] in H.
    destruct class; cbn.
    + rewrite app_nil_r. by apply (stopped_after _ _ [_]); [by apply quiet_cons|].
    + destruct H as [Htr ->]. eapply prog_wp_mono; [exact IH|]. intros tr' [ok d'] H. cbn [fst snd] in *.
      destruct ok; [|by apply (stopped_after _ _ (_ :: tr)); [apply quiet_cons|]].
      destruct H as [? ->]. split; [|done]. by apply quiet_cons, quiet_app.
    + destruct H as [Htr ->]. eapply prog_wp_mono; [exact IH|]. intros tr' [ok d'] H. cbn [fst snd] in *.
      destruct ok; [|by apply (stopped_after _ _ (_ :: tr)); [apply quiet_cons|]].
      destruct H as [? ->]. split; [|done]. by apply quiet_cons, quiet_app.
  - eapply prog_wp_mono; [exact IH|]. intros tr [ok d'] H. cbn [fst snd] in *.
    destruct ok; [|by apply (stopped_after _ _ [_]); [by apply quiet_cons|]].
    destruct H as [? ->]. split; [|done]. by apply quiet_cons.
Qed.

Lemma wp_unwatch_all paths : wp (unwatch_all paths) (fun tr _ => quiet tr /\ True).
Proof. apply wp_for_each; [done|]. intros s x _ _. cbn. intros ? _. by repeat split. Qed.

Lemma wp_register_all paths : wp (register_all paths) (fun tr _ => quiet tr /\ True).
Proof. apply wp_for_each; [done|]. intros s x _ _. cbn. intros ? _. by repeat split. Qed.

Lemma wp_tree (root : string) policy start Q :
  (forall t, wp (Ret t) (fun tr a => quiet tr /\ Q a)) ->
  forall fs, ok_answer CTree fs ->
  wp (walked (collect_watch_tree fs root policy start)) (fun tr a => quiet tr /\ Q a).
Proof.
  intros HQ fs [Hwf Hplain]. destruct (collect_watch_tree_ends fs root policy Hwf Hplain start) as [t ->].
  apply HQ.
Qed.

(** A quiet program with a result that says nothing. *)
Definition silent {A} (p : Prog A) : Prop := wp p (fun tr _ => quiet tr /\ True).

Lemma silent_bind {A B} (p : Prog A) (f : A -> Prog B) (Q : B -> Prop) :
  silent p -> (forall a, wp (f a) (fun tr b => quiet tr /\ Q b)) ->
  wp (prog_bind p f) (fun tr b => quiet tr /\ Q b).
Proof. intros Hp Hf. by apply (wp_quiet_bind p f (fun _ => True)). Qed.

Lemma silent_call c : quiet_call c = true -> silent (call c).
Proof. intros Hc. by apply wp_quiet_call. Qed.

Lemma silent_register_marker_dir dir : silent (register_marker_dir ctx dir).
Proof.
  unfold silent, register_marker_dir. destruct (single_root ctx); [done|].
  apply wp_do; [done|]. by intros [] _.
Qed.

Lemma silent_register_new_dirs policy dir : silent (register_new_dirs ctx policy dir).
Proof.
  unfold silent, register_new_dirs. destruct (single_root ctx); [done|].
  apply wp_do; [done|]. intros [] _; try done. apply wp_do; [done|]. intros fs Hfs.
  apply silent_bind; [|intros t; apply wp_register_all]. by apply wp_tree.
Qed.

Lemma silent_rewatch_root : silent (rewatch_root ctx).
Proof.
  unfold silent, rewatch_root. destruct (negb _); [done|].
  apply wp_do; [done|]. intros [] _; try done. apply wp_do; [done|]. intros _ _.
  apply wp_do; [done|]. intros [err|] _; [|done]. by apply silent_call.
Qed.

Lemma wp_reconcile policy known d :
  wp (reconcile_watch_dirs ctx policy known d) (fun tr r =>
    if r.1.1 then quiet tr /\ r.2 = d else stopped d r.2 tr).
Proof.
  unfold reconcile_watch_dirs. apply prog_wp_bind, prog_wp_call. intros fs [Hwf Hplain].
  unfold known_directory_paths.
  destruct (collect_watch_tree_ends fs (cx_project_root ctx) policy Hwf Hplain
    (normal_components (cx_project_root ctx))) as [t ->]. cbn [mbind option_bind walked prog_bind].
  set (desired := relative_dirs _ _). destruct (single_root ctx); [by cbn|].
  apply prog_wp_bind, prog_wp_call. intros [] _; [by cbn; intros ? _|by cbn|].
  apply prog_wp_bind. eapply prog_wp_mono; [apply wp_unwatch_all|]. intros t1 _ [H1 _].
  apply prog_wp_bind. eapply prog_wp_mono; [apply wp_watch_all|]. intros t2 [ok d'] H2. cbn [fst snd] in H2.
  destruct ok; cbn; rewrite app_nil_r.
  - destruct H2 as [H2 ->]. split; [|done]. by apply quiet_cons, quiet_cons, quiet_app.
  - apply (stopped_after _ _ (_ :: _ :: t1)); [|done]. by apply quiet_cons, quiet_cons.
Qed.

Lemma wp_relink old old_supplemental new d :
  wp (relink ctx old old_supplemental new d) (fun tr r =>
    match r.1 with Some _ => quiet tr /\ r.2 = d | None => stopped d r.2 tr end).
Proof.
  unfold relink. destruct (if single_root ctx then _ else _) as [new_supplemental truncated].
  apply prog_wp_bind, prog_wp_call. intros [] _; [by cbn|by cbn|].
  apply prog_wp_bind. eapply prog_wp_mono; [apply wp_unwatch_all|]. intros t1 _ [H1 _].
  apply prog_wp_bind. eapply prog_wp_mono; [apply wp_watch_all|]. intros t2 [ok d'] H2. cbn [fst snd] in H2.
  destruct ok; cbn; rewrite app_nil_r.
  - destruct H2 as [H2 ->]. split; [|done]. by apply quiet_cons, quiet_app.
  - apply (stopped_after _ _ (_ :: t1)); [|done]. by apply quiet_cons.
Qed.

Lemma silent_reload previous changes : silent (reload_runtime_scope previous changes).
Proof.
  unfold silent, reload_runtime_scope. apply silent_bind.
  - destruct (config_toml changes); [|done]. apply wp_do; [done|]. intros [err|config] _; [done|].
    apply wp_do; [done|]. by intros env _.
  - intros [[next applied] error]. apply silent_bind.
    + destruct (codegraph_json changes); [|done]. apply wp_do; [done|]. by intros ext _.
    + intros [next' applied']. destruct applied'; [|done]. apply wp_do; [done|]. by intros g _.
Qed.

(** *** Handling paths adds to what is pending, and owes nothing without it *)

Record gains (s s' : LoopState) : Prop := {
  ga_pending : dom (ls_pending s) ⊆ dom (ls_pending s');
  ga_full : ls_full s = true -> ls_full s' = true;
  ga_owes : ls_full s' = true -> ls_full s = true \/ ls_pending s' <> ∅;
  ga_scope : ls_scope s' = ls_scope s;
  ga_links : ls_links s' = ls_links s;
  ga_deadline : ls_deadline s' = ls_deadline s;
  ga_errors : ls_errors s' = ls_errors s;
  ga_degraded : ls_degraded s' = ls_degraded s;
  ga_control : ls_control s' = ls_control s
}.

Lemma pending_grows (m m' : gmap string PendingInfo) : dom m ⊆ dom m' -> m <> ∅ -> m' <> ∅.
Proof. intros Hd Hm ->. apply Hm. apply dom_empty_inv_L. set_solver. Qed.

#[local] Instance gains_preorder : PreOrder gains.
Proof.
  split; [intros s; constructor; by auto|]. intros s1 s2 s3 [] []. constructor; try congruence; auto.
  - by etrans.
  - intros H. destruct (ga_owes1 H) as [H2|]; [|by right]. destruct (ga_owes0 H2); [by left|right].
    by eapply pending_grows.
Qed.

Lemma dom_touch now path m : dom (touch now path m) = {[path]} ∪ dom m.
Proof. unfold touch. by rewrite dom_insert_L. Qed.

Lemma dom_touch_all now paths s :
  dom (ls_pending (touch_all now paths s)) = list_to_set paths ∪ dom (ls_pending s).
Proof.
  unfold touch_all. cbn. generalize (ls_pending s). induction paths as [|path paths IH]; intros m; cbn; [set_solver|].
  rewrite IH, dom_touch. set_solver.
Qed.

Lemma gains_touch now paths s : gains s (touch_all now paths s).
Proof. constructor; try done; [rewrite dom_touch_all; set_solver|by left]. Qed.

Lemma touch_nonempty now path paths s : ls_pending (touch_all now (path :: paths) s) <> ∅.
Proof.
  intros E. apply (f_equal dom) in E. rewrite dom_touch_all, dom_empty_L in E. set_solver.
Qed.

Lemma gains_known known s : gains s (set_known known s).
Proof. constructor; by auto. Qed.

Lemma gains_full now path s : gains s (touch_all now [path] (set_full true s)).
Proof.
  constructor; try done; [rewrite dom_touch_all; set_solver|]. intros _. right. apply touch_nonempty.
Qed.

(** The state and the flag of a change of the links. *)
Definition noted (s : LoopState) (topology : bool) (r : LoopState * bool) : Prop :=
  gains s r.1 /\ (topology = true -> r.2 = true)
  /\ (r.2 = true -> topology = true \/ ls_pending r.1 <> ∅).

Lemma noted_refl s topology : noted s topology (s, topology).
Proof. split_and!; [done|done|by left]. Qed.

Lemma noted_gains s s' topology : gains s s' -> noted s topology (s', topology).
Proof. intros H. split_and!; [done|done|by left]. Qed.

Lemma noted_touch now path paths s topology : noted s topology (touch_all now (path :: paths) s, true).
Proof. split_and!; [apply gains_touch|done|]. intros _. right. apply touch_nonempty. Qed.

Lemma noted_trans s1 t1 s2 t2 r : noted s1 t1 (s2, t2) -> noted s2 t2 r -> noted s1 t1 r.
Proof.
  intros (G1 & M1 & H1) (G2 & M2 & H2). cbn [fst snd] in *. split_and!; [by etrans|by auto|].
  intros Hr. destruct (H2 Hr) as [Ht|]; [|by right]. destruct (H1 Ht) as [|Hp]; [by left|right].
  eapply pending_grows; [apply G2|done].
Qed.

Lemma silent_topology links path relative : silent (is_topology_event links path relative).
Proof.
  unfold silent, is_topology_event. apply wp_do; [done|]. intros b _. destruct (_ || _); [done|].
  apply silent_bind.
  - destruct (bool_decide _); [|done]. apply wp_do; [done|]. by intros.
  - intros gone. destruct gone; [done|]. destruct (bool_decide _); [|done]. by apply silent_call.
Qed.

Lemma silent_is_marker_dir policy path relative : silent (is_marker_dir policy path relative).
Proof.
  unfold silent, is_marker_dir. apply wp_do; [done|]. intros b _. destruct (_ || _ || _); [done|].
  apply wp_do; [done|]. by intros.
Qed.

Lemma wp_new_marker_dir path relative s :
  wp (new_marker_dir ctx path relative s) (fun tr s' => quiet tr /\ gains s s').
Proof.
  unfold new_marker_dir. apply silent_bind; [apply silent_register_marker_dir|]. intros _.
  apply wp_do; [done|]. intros now _. apply wp_do; [done|]. intros names _. split; [done|].
  etrans; [apply gains_known|apply gains_touch].
Qed.

Lemma wp_new_directory path relative s topology :
  wp (new_directory ctx path relative s topology) (fun tr r => quiet tr /\ noted s topology r).
Proof.
  unfold new_directory. apply wp_do; [done|]. intros is_link _. destruct is_link.
  { apply wp_ret, noted_refl. }
  apply silent_bind; [apply silent_register_new_dirs|]. intros _. apply wp_do; [done|]. intros fs Hfs.
  eapply wp_quiet_bind with (R := fun _ => True); [by apply wp_tree|]. intros [dirs saw_link] _.
  destruct saw_link.
  - apply wp_do; [done|]. intros now _. apply wp_ret.
    eapply noted_trans; [|apply noted_touch]. apply noted_gains, gains_known.
  - apply wp_ret, noted_gains, gains_known.
Qed.

Lemma wp_is_handled s path relative : 
  wp (is_handled s path relative) (fun tr r => quiet tr /\
    (should_handle_file (rs_policy (ls_scope s)) relative = true -> r = true)).
Proof.
  unfold is_handled. destruct (should_handle_file _ _); [by cbn|]. cbn [orb].
  destruct (_ || _); [done|]. apply wp_do; [done|]. by intros b _.
Qed.

(** A path: what it adds; and it is pending afterwards if it is the watcher's
    business, as a file and as a directory. *)
Lemma wp_handle_path hint s topology path relative :
  wp (handle_path ctx hint s topology path relative) (fun tr r => quiet tr /\ noted s topology r
    /\ (should_handle_file (rs_policy (ls_scope s)) relative = true ->
        should_watch_dir (rs_policy (ls_scope s)) relative = true ->
        relative ∈ dom (ls_pending r.1))).
Proof.
  unfold handle_path. apply silent_bind; [apply silent_topology|]. intros is_topology.
  eapply wp_quiet_bind with (R := noted s topology).
  { destruct is_topology; [|by apply wp_ret, noted_refl]. apply wp_do; [done|]. intros now _.
    apply wp_ret, noted_touch. }
  intros [s1 topology1] H1. apply wp_do; [done|]. intros is_dir_now _.
  destruct (classify_removed_directory _ _ _) as [removed known].
  pose proof (ga_scope _ _ (proj1 H1)) as Hscope. cbn [fst] in Hscope.
  assert (H2 : noted s topology (set_known known s1, topology1)).
  { eapply noted_trans; [exact H1|]. apply noted_gains, gains_known. }
  destruct removed.
  - destruct (should_watch_dir (rs_policy (ls_scope s)) relative) eqn:Hwatch.
    + apply wp_do; [done|]. intros now _. apply wp_ret. split.
      * eapply noted_trans; [exact H2|]. apply noted_gains, gains_full.
      * intros _ _. cbn [fst]. rewrite dom_touch_all. set_solver.
    + destruct (watches_for_theme_markers relative).
      * apply wp_do; [done|]. intros now _. apply wp_ret. split; [|done].
        eapply noted_trans; [exact H2|]. apply noted_gains, gains_touch.
      * by apply wp_ret.
  - apply silent_bind; [apply silent_is_marker_dir|]. intros marker.
    eapply wp_quiet_bind with (R := gains (set_known known s1)).
    { destruct marker; [apply wp_new_marker_dir|by apply wp_ret]. }
    intros s2 Hs2. apply wp_do; [done|]. intros is_dir _.
    eapply wp_quiet_bind with (R := noted s2 topology1).
    { destruct (_ && _); [apply wp_new_directory|by apply wp_ret, noted_refl]. }
    intros [s3 topology3] H3.
    assert (H4 : noted s topology (s3, topology3)).
    { eapply noted_trans; [exact H2|]. eapply noted_trans; [by apply noted_gains|exact H3]. }
    pose proof (ga_scope _ _ (proj1 H4)) as Hscope3. cbn [fst] in Hscope3.
    eapply wp_quiet_bind; [apply wp_is_handled|]. intros handled Hhandled. rewrite Hscope3 in Hhandled.
    destruct handled.
    + apply wp_do; [done|]. intros now _. apply wp_ret. split.
      * eapply noted_trans; [exact H4|]. apply noted_gains, gains_touch.
      * intros _ _. cbn [fst]. rewrite dom_touch_all. set_solver.
    + apply wp_ret. split; [done|]. intros Hh. by specialize (Hhandled Hh).
Qed.

(** The paths of a batch whose changes are the watcher's business. *)
Definition heard (s : LoopState) (normalized : list (string * string * bool)) (relative : string) : Prop :=
  exists path, (path, relative, false) ∈ normalized
  /\ should_handle_file (rs_policy (ls_scope s)) relative = true
  /\ should_watch_dir (rs_policy (ls_scope s)) relative = true.

Lemma wp_handle_paths hint normalized s topology :
  wp (handle_paths ctx hint normalized s topology) (fun tr r => quiet tr /\ noted s topology r
    /\ (rs_enabled (ls_scope s) = true -> forall relative, heard s normalized relative ->
        relative ∈ dom (ls_pending r.1))).
Proof.
  unfold handle_paths. revert s topology.
  induction normalized as [|[[path relative] is_control] normalized IH]; intros s topology.
  - apply wp_ret. split; [apply noted_refl|]. intros _ r (p & Hp & _). by apply not_elem_of_nil in Hp.
  - cbn [for_each]. eapply wp_quiet_bind with (R := fun r => noted s topology r
      /\ (rs_enabled (ls_scope s) = true -> is_control = false ->
          should_handle_file (rs_policy (ls_scope s)) relative = true ->
          should_watch_dir (rs_policy (ls_scope s)) relative = true -> relative ∈ dom (ls_pending r.1))).
    + destruct (is_control || negb (rs_enabled (ls_scope s))) eqn:Hskip.
      * apply wp_ret. split; [apply noted_refl|]. intros He Hc. by rewrite He, Hc in Hskip.
      * eapply prog_wp_mono; [apply wp_handle_path|]. intros tr r (Htr & Hn & Hh). split; [done|]. split; [done|]. by auto.
    + intros [s1 t1] [H1 Hone]. eapply prog_wp_mono; [apply IH|]. intros tr r (Htr & Hn & Hh). split; [done|].
      pose proof (ga_scope _ _ (proj1 H1)) as Hscope. cbn [fst] in Hscope.
      split; [by eapply noted_trans|]. intros He rel (p & Hp & Hf & Hd).
      apply elem_of_cons in Hp as [E|Hp].
      * injection E as -> -> <-. apply (ga_pending _ _ (proj1 Hn)). cbn [fst] in Hone. by apply Hone.
      * apply Hh; [by rewrite Hscope|]. exists p. rewrite Hscope. done.
Qed.

(** ** One batch *)

(** What a step may do to the watcher's health: nothing, or begin a recovery
    that owes a full sync soon. *)
Definition eased (s s' : LoopState) : Prop :=
  ls_degraded s' = ls_degraded s
  \/ dg_recovering (ls_degraded s) = false /\ (exists reason, ls_degraded s' = mark_recovering (ls_degraded s) reason)
     /\ ls_full s' = true /\ is_Some (ls_deadline s').

(** What was owed before is owed after, and what is owed has a deadline. *)
Record batched (s s' : LoopState) : Prop := {
  ba_pending : dom (ls_pending s) ⊆ dom (ls_pending s');
  ba_full : ls_full s = true -> ls_full s' = true;
  ba_errors : ls_errors s' = ls_errors s;
  ba_degraded : eased s s';
  ba_deadline : is_Some (ls_deadline s) -> is_Some (ls_deadline s');
  ba_armed : dg_recovering (ls_degraded s) = false -> ls_pending s' <> ∅ -> is_Some (ls_deadline s');
  ba_owes : dg_recovering (ls_degraded s) = false -> ls_full s' = true ->
            ls_full s = true \/ is_Some (ls_deadline s')
}.

Definition stopped_at (s s' : LoopState) (tr : list Event) : Prop :=
  stopped (ls_degraded s) (ls_degraded s') tr.

(** The reload of the scope. *)
Lemma wp_control_reload normalized changes s :
  (any_change changes = true -> exists n, n ∈ normalized /\ n.2 = true) ->
  wp (control_reload ctx normalized changes s) (fun tr r =>
    match r.1 with
    | Break s' => stopped_at s s' tr
    | Continue s' => quiet tr
        /\ dom (ls_pending s) ⊆ dom (ls_pending s')
        /\ (ls_full s = true -> ls_full s' = true)
        /\ (ls_full s' = true -> ls_full s = true \/ ls_pending s' <> ∅)
        /\ (r.2 = true -> ls_pending s' <> ∅)
        /\ ls_deadline s' = ls_deadline s /\ ls_errors s' = ls_errors s /\ ls_degraded s' = ls_degraded s
        /\ (any_change changes = false -> s' = s)
    end).
Proof.
  intros Hcontrol. unfold control_reload. destruct (any_change changes) eqn:Hany; cbn [negb].
  2:{ cbn. repeat split; by auto. }
  apply prog_wp_bind. eapply prog_wp_mono; [apply silent_reload|]. intros t1 [[next applied] error] [Q1 _].
  apply prog_wp_bind. apply (prog_wp_mono _ (fun tr _ => quiet tr /\ True)).
  { destruct error; [by apply silent_call|done]. }
  intros t2 _ [Q2 _]. destruct applied; cbn [negb].
  2:{ cbn. rewrite app_nil_r. repeat split; auto; try apply quiet_app; auto. all: done. }
  apply prog_wp_bind. eapply prog_wp_mono; [apply wp_reconcile|]. intros t3 [[ok known] d] H3. cbn [fst snd] in H3.
  destruct ok; cbn [negb].
  - destruct H3 as [Q3 ->]. apply prog_wp_bind, prog_wp_call. intros now _. cbn [wp fst snd].
    destruct (Hcontrol eq_refl) as (n & Hn & Hc).
    assert (Hne : ls_pending (touch_all now (map (fun n => n.1.2) (filter (fun n => n.2 = true) normalized))
       (set_full true (set_scope next (set_degraded (ls_degraded s) (set_known known s))))) <> ∅).
    { intros E. apply (f_equal dom) in E. rewrite dom_touch_all, dom_empty_L in E.
      assert (n.1.2 ∈ (∅ : gset string)) as Hx; [|by apply not_elem_of_empty in Hx]. rewrite <- E.
      apply elem_of_union_l, elem_of_list_to_set, list_elem_of_fmap. exists n. split; [done|].
      by apply list_elem_of_filter. }
    split_and!; try done.
    + rewrite app_nil_r. apply quiet_app; [done|]. apply quiet_app; [done|]. apply quiet_app; [done|].
      by apply quiet_cons.
    + rewrite dom_touch_all. set_solver.
    + by right.
  - cbn. rewrite app_nil_r. apply stopped_after; [done|]. by apply stopped_after.
Qed.

Lemma wp_relink_all s :
  wp (relink_all ctx s) (fun tr r =>
    match r with
    | Break s' => stopped_at s s' tr
    | Continue s' => quiet tr /\ ls_pending s' = ls_pending s /\ ls_full s' = true
        /\ ls_deadline s' = ls_deadline s /\ ls_errors s' = ls_errors s /\ ls_degraded s' = ls_degraded s
        /\ ls_scope s' = ls_scope s
    end).
Proof.
  unfold relink_all. apply prog_wp_bind, prog_wp_call. intros scope _. apply prog_wp_bind, prog_wp_call. intros fs _.
  apply prog_wp_bind. eapply prog_wp_mono; [apply wp_relink|]. intros t1 [r d] H1. cbn [fst snd] in H1.
  destruct r as [[supplemental truncated]|].
  - destruct H1 as [Q1 ->]. destruct (supplemental_cap_warning _ _) as [warning warned].
    apply prog_wp_bind. apply (prog_wp_mono _ (fun tr _ => quiet tr /\ True)).
    { destruct warning; [by apply silent_call|done]. }
    intros t2 _ [Q2 _]. cbn. rewrite app_nil_r. split_and!; try done.
    apply quiet_cons, quiet_cons, quiet_app; done.
  - cbn. rewrite app_nil_r. apply (stopped_after _ _ [_; _]); [|done]. by apply quiet_cons, quiet_cons.
Qed.

Lemma wp_begin_lost_event_recovery delay cause s :
  ls_full s = true ->
  wp (begin_lost_event_recovery delay cause s) (fun tr s' => quiet tr /\ eased s s'
    /\ dg_recovering (ls_degraded s') = true
    /\ ls_pending s' = ls_pending s /\ ls_full s' = true /\ ls_errors s' = ls_errors s
    /\ (is_Some (ls_deadline s) \/ dg_recovering (ls_degraded s) = false -> is_Some (ls_deadline s'))).
Proof.
  intros Hfull. unfold begin_lost_event_recovery. destruct (dg_recovering (ls_degraded s)) eqn:Hr.
  - cbn. split_and!; try done; [by left|]. by intros [?|?].
  - apply wp_do; [done|]. intros now _. apply wp_ret. split_and!; try done.
    right. split_and!; [done|by eexists|done|by eexists].
Qed.

Lemma normalize_control s paths :
  any_change (normalize_paths ctx s paths).2 = true ->
  exists n, n ∈ (normalize_paths ctx s paths).1 /\ n.2 = true.
Proof.
  unfold normalize_paths.
  assert (H : forall acc : list (string * string * bool) * ControlChanges,
    (any_change acc.2 = true -> exists n, n ∈ acc.1 /\ n.2 = true) ->
    let r := fold_left (fun '(normalized, changes) path =>
      let path := logical_event_path path (cx_project_root ctx) (ls_supplemental s) in
      match normalize_relative (cx_project_root ctx) path with
      | Some relative =>
          let '(is_control, changes) := classify (cx_control_files ctx) relative changes in
          (normalized ++ [(path, relative, is_control)], changes)
      | None => (normalized, changes)
      end) paths acc in
    any_change r.2 = true -> exists n, n ∈ r.1 /\ n.2 = true); [|by apply H].
  induction paths as [|path paths IH]; intros [normalized changes] Hacc; [done|]. cbn [fold_left]. apply IH.
  destruct (normalize_relative _ _) as [relative|]; [|done].
  destruct (classify (cx_control_files ctx) relative changes) as [is_control changes'] eqn:Hc. cbn [fst snd] in *.
  intros Hany. destruct is_control.
  - eexists. split; [apply elem_of_app; right; by apply list_elem_of_singleton|done].
  - assert (changes' = changes) as ->.
    { unfold classify in Hc. repeat case_match; by simplify_eq. }
    destruct (Hacc Hany) as (n & Hn & Hn2). exists n. split; [apply elem_of_app; by left|done].
Qed.

(** What the paths, the scope and the links of a batch leave, before its end. *)
Record collected (s s' : LoopState) : Prop := {
  co_pending : dom (ls_pending s) ⊆ dom (ls_pending s');
  co_full : ls_full s = true -> ls_full s' = true;
  co_owes : ls_full s' = true -> ls_full s = true \/ ls_pending s' <> ∅;
  co_deadline : ls_deadline s' = ls_deadline s;
  co_errors : ls_errors s' = ls_errors s;
  co_degraded : ls_degraded s' = ls_degraded s
}.

#[local] Instance collected_preorder : PreOrder collected.
Proof.
  split; [intros s; constructor; by auto|]. intros s1 s2 s3 [] []. constructor; try congruence; auto.
  - by etrans.
  - intros H. destruct (co_owes1 H) as [H2|]; [|by right]. destruct (co_owes0 H2); [by left|right].
    by eapply pending_grows.
Qed.

Lemma gains_collected s s' : gains s s' -> collected s s'.
Proof. intros []. by constructor. Qed.

(** The links, when they changed: then something is pending. *)
Lemma wp_relink_if topology s :
  (topology = true -> ls_pending s <> ∅) ->
  wp (if topology && rs_enabled (ls_scope s) then relink_all ctx s else Ret (Continue s)) (fun tr r =>
    match r with
    | Break s' => stopped_at s s' tr
    | Continue s' => quiet tr /\ collected s s' /\ ls_pending s' = ls_pending s /\ ls_scope s' = ls_scope s
    end).
Proof.
  intros Htop. destruct (topology && rs_enabled (ls_scope s)) eqn:E; [|by cbn].
  apply andb_true_iff in E as [Ht _].
  eapply prog_wp_mono; [apply wp_relink_all|]. intros tr [s'|s'] H; [|done].
  destruct H as (? & Hp & ? & ? & ? & ? & ?). split_and!; try done. constructor; try done; [by rewrite Hp|].
  intros _. right. rewrite Hp. by apply Htop.
Qed.

Lemma batched_arm s s' d :
  eased s s' -> dom (ls_pending s) ⊆ dom (ls_pending s') -> (ls_full s = true -> ls_full s' = true) ->
  ls_errors s' = ls_errors s -> batched s (set_deadline (Some d) s').
Proof.
  intros He Hp Hf Herr. constructor; cbn; try done; [|by right].
  destruct He as [?|(? & ? & ? & _)]; [by left|right]. by split_and!.
Qed.

Lemma wp_settle rescan s s1 :
  collected s s1 ->
  wp (settle rescan s1) (fun tr r => exists s', r = Continue s' /\ quiet tr /\ batched s s'
    /\ ls_pending s' = ls_pending s1
    /\ (rescan = true -> rs_enabled (ls_scope s1) = true -> ls_full s' = true /\ dg_recovering (ls_degraded s') = true)).
Proof.
  intros [P F O D E G]. unfold settle. apply prog_wp_bind.
  apply (prog_wp_mono _ (fun tr s2 => quiet tr /\ eased s1 s2 /\ ls_pending s2 = ls_pending s1
    /\ (ls_full s1 = true -> ls_full s2 = true) /\ ls_errors s2 = ls_errors s1
    /\ (ls_full s2 = true -> ls_full s1 = true \/ dg_recovering (ls_degraded s1) = true \/ is_Some (ls_deadline s2))
    /\ (is_Some (ls_deadline s1) -> is_Some (ls_deadline s2))
    /\ (rescan = true -> rs_enabled (ls_scope s1) = true ->
        ls_full s2 = true /\ dg_recovering (ls_degraded s2) = true))).
  { destruct (rescan && rs_enabled (ls_scope s1)) eqn:Hr.
    - eapply prog_wp_mono; [by apply wp_begin_lost_event_recovery|].
      intros tr s2 (? & He & Hrec & Hp & Hf & Herr & Hdl). split_and!; try done.
      + intros _. destruct (dg_recovering (ls_degraded s1)) eqn:Hr1; [by right; left|right; right]. apply Hdl. by right.
      + intros Hd. apply Hdl. by left.
    - cbn. split_and!; try done; [by left|by left|]. intros -> H. by rewrite H in Hr. }
  intros t2 s2 (Q2 & G2 & P2 & F2 & E2 & O2 & D2 & R2).
  assert (Heased : eased s s2) by (unfold eased in *; by rewrite G in G2).
  assert (Hpend : dom (ls_pending s) ⊆ dom (ls_pending s2)) by (by rewrite P2).
  destruct (negb (bool_decide (ls_pending s2 = ∅)) && negb (dg_recovering (ls_degraded s2))) eqn:Harm.
  - apply prog_wp_bind, prog_wp_call. intros now _. cbn. eexists. split; [done|]. split_and!; try done.
    + apply quiet_app; [done|]. by apply quiet_cons.
    + apply batched_arm; [done|done|by auto|congruence].
  - cbn. rewrite app_nil_r. exists s2. split_and!; try done.
    assert (Hrec : dg_recovering (ls_degraded s) = false -> ls_pending s2 <> ∅ -> is_Some (ls_deadline s2)).
    { intros Hr Hne. rewrite bool_decide_eq_false_2 in Harm by done. cbn in Harm. apply negb_false_iff in Harm.
      destruct Heased as [H|(_ & _ & _ & ?)]; [congruence|done]. }
    constructor; try done; [by auto|congruence|by rewrite <- D|].
    intros Hr Hf. destruct (O2 Hf) as [H|[H|H]]; [|rewrite G in H; congruence|by right].
    destruct (O H) as [|Hne]; [by left|right]. apply Hrec; [done|by rewrite P2].
Qed.

Lemma wp_handle_event batch s :
  wp (handle_event ctx batch s) (fun tr r =>
    match r with
    | Break s' => exists s1, ls_degraded s1 = ls_degraded s /\ stopped_at s1 s' tr
    | Continue s' => quiet tr /\ batched s s'
        /\ (any_change (normalize_paths ctx s (wb_paths batch)).2 = false ->
            rs_enabled (ls_scope s) = true ->
            (forall relative, heard s (normalize_paths ctx s (wb_paths batch)).1 relative ->
               relative ∈ dom (ls_pending s'))
            /\ (wb_rescan batch = true -> ls_full s' = true /\ dg_recovering (ls_degraded s') = true))
    end).
Proof.
  unfold handle_event. pose proof (normalize_control s (wb_paths batch)) as Hc.
  destruct (normalize_paths ctx s (wb_paths batch)) as [normalized changes]. cbn [fst snd] in *.
  apply prog_wp_bind. eapply prog_wp_mono; [by apply wp_control_reload|]. intros t1 [[s1|s1] topology] H1; cbn [fst snd] in H1.
  2:{ cbn. rewrite app_nil_r. by exists s. }
  destruct H1 as (Q1 & P1 & F1 & O1 & T1 & D1 & E1 & G1 & Same).
  assert (C1 : collected s s1) by (by constructor).
  apply prog_wp_bind. eapply prog_wp_mono; [apply wp_handle_paths|]. intros t2 [s2 topology2] (Q2 & (G2 & M2 & N2) & Hear).
  cbn [fst snd] in *.
  assert (Htop : topology2 = true -> ls_pending s2 <> ∅).
  { intros Ht. destruct (N2 Ht) as [Ht1|]; [|done]. eapply pending_grows; [apply G2|by apply T1]. }
  apply prog_wp_bind. eapply prog_wp_mono; [by apply wp_relink_if|]. intros t3 [s3|s3] H3.
  2:{ cbn. rewrite app_nil_r. exists s2. split; [rewrite (ga_degraded _ _ G2); congruence|].
      apply stopped_after; [done|]. by apply stopped_after. }
  destruct H3 as (Q3 & C3 & P3 & S3).
  eapply prog_wp_mono; [apply (wp_settle _ s)|].
  { etrans; [exact C1|]. etrans; [by apply gains_collected|done]. }
  intros t4 r (s4 & -> & Q4 & B4 & P4 & R4). split_and!; [by repeat (apply quiet_app; [done|])|done|].
  intros Hany He. assert (s1 = s) as -> by auto. split.
  - intros rel Hrel. rewrite P4, P3. by apply Hear.
  - intros Hres. apply R4; [done|]. by rewrite S3, (ga_scope _ _ G2).
Qed.

End Loop.

(** ** Attempts *)

Definition sleep_of (e : Event) : list N := match e with existT (CSleep d) _ => [d] | _ => [] end.
Definition sleeps (tr : list Event) : list N := tr ≫= sleep_of.
Definition waited (l : list N) : N := foldr N.add 0%N l.

(** A call that syncs, and its attempts in a log. *)
Definition sync_call (scope : option (list string)) : Prog (SyncError + SyncOutcome) :=
  match scope with Some paths => call (CSync paths) | None => call CFullSync end.

(** What an answer of a sync comes to. *)
Definition attempt_result (answer : SyncError + SyncOutcome) (attempt : SyncAttempt) : Prop :=
  match answer, attempt with
  | inr outcome, AttemptDone outcome' => outcome' = outcome
  | inl err, AttemptError _ => is_lock_contention err = false
  | inl err, AttemptDegraded _ => is_lock_contention err = true
  | _, _ => False
  end.

Definition contended (answer : SyncError + SyncOutcome) : Prop :=
  match answer with inl err => is_lock_contention err = true | inr _ => False end.

(** The attempts of one scope: contention, again and again, and the last. *)
Definition attempted (scope : option (list string)) (tr : list Event) (attempt : SyncAttempt) : Prop :=
  exists answers answer, attempts tr = map (pair scope) (answers ++ [answer])
    /\ Forall contended answers /\ attempt_result answer attempt
    /\ notices tr = [] /\ received tr = [].

Lemma next_backoff_bounds prev :
  (2 * MILLIS <= next_backoff prev <= MAX_BACKOFF)%N \/ (prev <> 0 /\ prev < MILLIS /\ next_backoff prev <= MAX_BACKOFF)%N.
Proof.
  unfold next_backoff, saturating, MAX_BACKOFF, DURATION_MAX, MILLIS. destruct (N.eqb_spec prev 0); lia.
Qed.

Lemma wp_sync_call scope (Q : list Event -> SyncError + SyncOutcome -> Prop) :
  (forall r, (forall tr, attempts tr = [(scope, r)] -> notices tr = [] -> received tr = [] -> sleeps tr = [] -> Q tr r)) ->
  wp (sync_call scope) Q.
Proof. intros H. destruct scope; cbn; intros r _; by apply H. Qed.

Lemma backoff_loop_ok fuel budget backoff slept scope :
  (budget <= DURATION_MAX)%N -> (backoff = 0 \/ MILLIS <= backoff)%N -> 1 <= fuel ->
  (budget <= slept \/ budget + 2 * MILLIS < slept + N.of_nat fuel * (2 * MILLIS))%N ->
  wp (backoff_loop fuel budget backoff slept (sync_call scope)) (fun tr attempt =>
    attempted scope tr attempt
    /\ Forall (fun d => d <= MAX_BACKOFF)%N (sleeps tr)
    /\ length (attempts tr) = S (length (sleeps tr))
    /\ ((budget <= slept)%N -> sleeps tr = [])
    /\ (slept < budget -> slept + waited (sleeps tr) <= budget + MAX_BACKOFF)%N).
Proof.
  intros Hbudget. revert backoff slept. induction fuel as [|fuel IH]; intros backoff slept Hb Hf Hfuel; [lia|].
  cbn [backoff_loop]. apply prog_wp_bind, wp_sync_call. intros r tr Ha Hn Hr Hs. destruct r as [err|outcome].
  2:{ cbn. rewrite app_nil_r, Ha, Hs. split_and!; try done; [|cbn; lia].
      exists [], (inr outcome). by rewrite Ha. }
  destruct (is_lock_contention err) eqn:Hc; cbn [negb].
  2:{ cbn. rewrite app_nil_r, Ha, Hs. split_and!; try done; [|cbn; lia].
      exists [], (inl err). by rewrite Ha. }
  destruct (N.leb_spec budget slept) as [Hle|Hlt].
  { cbn [wp]. rewrite app_nil_r, Ha, Hs. split_and!; try done; [|cbn; lia].
    exists [], (inl err). by rewrite Ha. }
  set (b := next_backoff backoff).
  assert (Hbb : (2 * MILLIS <= b <= MAX_BACKOFF)%N).
  { pose proof (next_backoff_bounds backoff). unfold b. destruct Hb; lia. }
  apply prog_wp_bind, prog_wp_call. intros [] _. eapply prog_wp_mono; [apply (IH b)|].
  - right. unfold MILLIS in *. lia.
  - unfold MILLIS in *. lia.
  - unfold saturating. destruct (N.le_gt_cases (slept + b) DURATION_MAX).
    + right. rewrite N.min_l by done. unfold MILLIS in *. lia.
    + left. rewrite N.min_r by lia. done.
  - intros tr' attempt ((answers & answer & Ha' & Hall & Hres & Hn' & Hr') & Hmax & Hlen & Hno & Hsum).
    assert (Hs' : sleeps (tr ++ [log_of (CSleep b) tt] ++ tr') = b :: sleeps tr').
    { unfold sleeps in *. by rewrite !bind_app, Hs. }
    assert (Ha'' : attempts (tr ++ [log_of (CSleep b) tt] ++ tr') = (scope, inl err) :: attempts tr').
    { by rewrite !attempts_app, Ha. }
    change (log_of (CSleep b) tt :: tr') with ([log_of (CSleep b) tt] ++ tr'). rewrite Hs', Ha''. split_and!.
    + exists (inl err :: answers), answer. rewrite !attempts_app, !notices_app, !received_app, Ha, Hn, Hr, Ha', Hn', Hr'.
      split_and!; try done. by constructor.
    + constructor; [lia|done].
    + cbn. by rewrite Hlen.
    + lia.
    + intros _. cbn [waited foldr]. unfold saturating in *.
      destruct (N.le_gt_cases budget (N.min (slept + b) DURATION_MAX)) as [Hend|Hgo].
      * rewrite Hno by done. cbn. lia.
      * specialize (Hsum Hgo). unfold waited in *. lia.
Qed.

Lemma run_with_backoff_ok budget scope :
  (budget <= DURATION_MAX)%N ->
  wp (run_with_backoff budget (sync_call scope)) (fun tr attempt =>
    attempted scope tr attempt
    /\ Forall (fun d => d <= MAX_BACKOFF)%N (sleeps tr)
    /\ length (attempts tr) = S (length (sleeps tr))
    /\ (waited (sleeps tr) <= budget + MAX_BACKOFF)%N).
Proof.
  intros Hb. eapply prog_wp_mono; [apply (backoff_loop_ok _ budget 0 0 scope Hb)|].
  - by left.
  - unfold backoff_fuel. apply le_n_S, Nat.le_0_l.
  - right. unfold backoff_fuel. rewrite !Nat2N.inj_succ, N2Nat.id.
    pose proof (N.div_mod budget (2 * MILLIS) ltac:(done)).
    pose proof (N.mod_lt budget (2 * MILLIS) ltac:(done)). unfold MILLIS in *. lia.
  - intros tr attempt (? & ? & ? & Hno & Hsum). split_and!; try done.
    destruct (N.eq_dec budget 0%N) as [->|]; [rewrite Hno by lia; cbn; lia|]. specialize (Hsum ltac:(lia)). lia.
Qed.

(** ** The due sync *)

Section Sync.
Variable ctx : LoopCtx.
Hypothesis Hbudget : (cx_lock_contention_budget ctx <= DURATION_MAX)%N.

(** What the due sync is asked for: everything, or the pending paths. *)
Definition pending_paths (s : LoopState) : list string := in_order (dom (ls_pending s)).
Definition is_burst (s : LoopState) : bool := SCOPED_SYNC_MAX_PENDING <? length (pending_paths s).
Definition owed_scope (s : LoopState) : option (list string) :=
  if ls_full s || is_burst s then None else Some (pending_paths s).

(** The watcher's health during the attempt. *)
Definition attempt_health (s : LoopState) : DegradedState :=
  if is_burst s && negb (dg_recovering (ls_degraded s))
  then mark_recovering (ls_degraded s)
         ("events may have been lost: " +:+ pretty (length (pending_paths s)) +:+ " paths changed at once")
  else ls_degraded s.

(** What the attempt leaves, by its answer. *)
Definition sync_result (s : LoopState) (answer : SyncError + SyncOutcome) (tr : list Event)
    (r : loop_step LoopState) : Prop :=
  match answer with
  | inr outcome =>
      exists s', r = Continue s' /\ notices tr = [] /\ ls_pending s' = ∅ /\ ls_full s' = false /\ ls_errors s' = 0%N
        /\ ls_degraded s' = match owed_scope s with None => recover (attempt_health s) | Some _ => attempt_health s end
  | inl err =>
      if is_lock_contention err then
        exists s', r = Continue s' /\ notices tr = [] /\ ls_pending s' = ls_pending s /\ ls_full s' = true
          /\ ls_errors s' = ls_errors s /\ is_Some (ls_deadline s')
          /\ exists reason, ls_degraded s' = mark_recovering (attempt_health s) reason
      else if (MAX_CONSECUTIVE_SYNC_ERRORS <=? ls_errors s + 1)%N then
        exists s', r = Break s' /\
          if negb (dg_degraded (attempt_health s)) || dg_recovering (attempt_health s)
          then exists reason, ls_degraded s' = mark (attempt_health s) reason /\ notices tr = [reason]
          else ls_degraded s' = attempt_health s /\ notices tr = []
      else
        exists s', r = Continue s' /\ notices tr = [] /\ ls_pending s' = ls_pending s
          /\ ls_full s' = bool_decide (owed_scope s = None) /\ ls_errors s' = (ls_errors s + 1)%N
          /\ is_Some (ls_deadline s') /\ ls_degraded s' = attempt_health s
  end.

Lemma wp_next_sentinel : wp (next_sentinel ctx) (fun tr _ => quiet tr /\ True).
Proof. unfold next_sentinel. destruct (cx_drift_sentinel ctx); [|done]. apply wp_do; [done|]. by intros. Qed.

(** The end of an attempt: its callbacks and the decision on it. *)
Lemma wp_after s s1 (full_sync : bool) attempt answer :
  attempt_result answer attempt ->
  owed_scope s = (if full_sync then None else Some (pending_paths s)) ->
  ls_degraded s1 = attempt_health s -> ls_pending s1 = ∅ -> ls_full s1 = false -> ls_deadline s1 = None ->
  ls_errors s1 = (classify_persistent_failure attempt (ls_errors s)).2 ->
  wp (let! s2 := after_attempt attempt full_sync (pending_paths s) (ls_pending s) s1 in
      after_decision ctx (classify_persistent_failure attempt (ls_errors s)).1 (ls_pending s) s2)
    (fun tr r => attempts tr = [] /\ received tr = [] /\ sync_result s answer tr r).
Proof.
  intros Hres Hscope Hd Hp Hf Hdl He. unfold sync_result. rewrite Hscope, <- Hd. apply prog_wp_bind.
  destruct answer as [err|outcome], attempt as [outcome'|reason|reason]; cbn in Hres; try done.
  - (* contention *)
    rewrite Hres. cbn [after_attempt wp classify_persistent_failure fst after_decision app]. apply prog_wp_bind.
    apply (prog_wp_mono _ (fun tr _ => quiet tr /\ True)).
    { destruct (negb _); [by apply silent_call|done]. }
    intros tr _ [(Ha & Hn & Hr) _]. apply prog_wp_bind, prog_wp_call. intros now _. cbn [wp].
    rewrite !attempts_app, !received_app, !notices_app, Ha, Hn, Hr. split_and!; [done|done|].
    eexists. split; [done|]. cbn in He. split_and!; try done. by eexists.
  - (* another failure *)
    rewrite Hres. cbn [after_attempt]. apply prog_wp_bind, prog_wp_call. intros ? _. apply prog_wp_bind, prog_wp_call. intros now _.
    cbn [wp classify_persistent_failure fst]. cbn in He.
    destruct (MAX_CONSECUTIVE_SYNC_ERRORS <=? ls_errors s + 1)%N; cbn [after_decision].
    + cbn [ls_degraded set_deadline set_full set_pending]. destruct (_ || _) eqn:Hmark.
      * apply prog_wp_bind, prog_wp_call. intros ? _. cbn [wp]. split_and!; [done|done|]. eexists. split; [done|].
        eexists. split; [done|]. done.
      * cbn [wp]. split_and!; [done|done|]. by eexists.
    + cbn [wp]. split_and!; [done|done|]. eexists. split; [done|]. cbn. rewrite Hf. split_and!; try done.
      destruct full_sync; reflexivity.
  - (* done *)
    subst outcome'. cbn [after_attempt]. apply prog_wp_bind, prog_wp_call. intros ? _.
    cbn [wp classify_persistent_failure fst after_decision]. cbn in He. split_and!; [done|done|].
    eexists. split; [done|]. destruct (so_control_paths outcome), full_sync; by split_and!.
Qed.

(** The due sync: contention is waited out, and the last answer decides. *)
Lemma wp_sync_tick s :
  wp (sync_tick ctx s) (fun tr r => exists answers answer,
    attempts tr = map (pair (owed_scope s)) (answers ++ [answer]) /\ Forall contended answers
    /\ received tr = [] /\ sync_result s answer tr r).
Proof.
  unfold sync_tick. fold (pending_paths s). apply prog_wp_bind. eapply prog_wp_mono; [apply wp_next_sentinel|].
  intros t1 due [(A1 & N1 & R1) _]. fold (is_burst s).
  set (s1 := if is_burst s && _ then _ else _).
  assert (Hs1 : ls_degraded s1 = attempt_health s /\ ls_pending s1 = ∅ /\ ls_deadline s1 = None
    /\ ls_errors s1 = ls_errors s /\ ls_full s1 = ls_full s).
  { unfold s1, attempt_health. cbn [ls_degraded set_sentinel_due set_deadline set_pending].
    by destruct (is_burst s && negb (dg_recovering (ls_degraded s))). }
  destruct Hs1 as (Hd & Hp & Hdl & He & Hf). rewrite Hf.
  match goal with |- context [run_with_backoff _ ?p] =>
    replace p with (sync_call (owed_scope s)) by (unfold owed_scope; by destruct (_ || _)) end.
  apply prog_wp_bind. eapply prog_wp_mono; [by apply run_with_backoff_ok|].
  intros t2 attempt ((answers & answer & A2 & Hall & Hres & N2 & R2) & _).
  cbn [ls_errors set_full]. rewrite He.
  pose proof (wp_after s (set_errors (classify_persistent_failure attempt (ls_errors s)).2 (set_full false s1))
    (ls_full s || is_burst s) attempt answer Hres ltac:(unfold owed_scope; by destruct (_ || _)) Hd Hp eq_refl Hdl eq_refl) as Hafter.
  destruct (classify_persistent_failure attempt (ls_errors s)) as [decision errors]. cbn [fst snd] in Hafter.
  eapply prog_wp_mono; [exact Hafter|]. intros t3 r (A3 & R3 & Hr). exists answers, answer.
  rewrite !attempts_app, !received_app, A1, A2, A3, R1, R2, R3, app_nil_r. split_and!; try done.
  unfold sync_result in *. rewrite !notices_app, N1, N2. exact Hr.
Qed.

(** The idle tick of the drift sentinel. *)
Lemma wp_sentinel_tick s :
  wp (sentinel_tick ctx s) (fun tr s' => quiet tr /\ ls_pending s' = ls_pending s
    /\ (ls_full s = true -> ls_full s' = true) /\ ls_errors s' = ls_errors s /\ eased s s'
    /\ (ls_full s' = true -> ls_full s = true \/ is_Some (ls_deadline s'))
    /\ (is_Some (ls_deadline s) -> is_Some (ls_deadline s'))).
Proof.
  unfold sentinel_tick. apply silent_bind; [apply wp_next_sentinel|]. intros due.
  destruct (dg_recovering (ls_degraded s)) eqn:Hr; cbn [ls_degraded set_sentinel_due ls_scope]; rewrite Hr; cbn [orb].
  { apply wp_ret. split_and!; try done; [by left|by left]. }
  destruct (negb _); [apply wp_ret; split_and!; try done; by left|].
  apply wp_do; [done|]. intros [err|[detail|]] _.
  - apply silent_bind.
    { destruct (negb _); [by apply silent_call|done]. }
    intros _. apply wp_ret. split_and!; try done; [by left|by left].
  - apply silent_bind; [apply silent_rewatch_root|]. intros _.
    eapply prog_wp_mono; [by apply wp_begin_lost_event_recovery|].
    intros tr s' (? & He & Hrec & Hp & Hf & Herr & Hdl). split_and!; try done.
    + intros _. right. apply Hdl. by right.
    + intros _. apply Hdl. by right.
  - apply wp_ret. split_and!; try done; [by left|by left].
Qed.

End Sync.
