(* ===== verification/WatchLoopProps.v ===== *)
(** * What the watcher's loop promises

    Iterations of the loop from its start, in any environment: its invariant,
    that no change is forgotten before a sync has covered it, what a batch of
    events and a deadline lead to, how the loop ends, and that the waiting on a
    contended index is bounded. *)
From S2P Require Import Prelude Types Strings PathUtil StrOps LangDetect ScanRules ScanWalk ScanFacts ScanProps WatchPolicy WatchTree WatchLoop WatchLoopFacts.
From stdpp Require Import pretty.
#[local] Open Scope watch_scope.

(** ** An environment and what the loop does in it *)

Definition Env : Type := list Event -> forall c, Answer c.
Definition env_ok (env : Env) : Prop := forall log c, ok_answer c (env log c).

Fixpoint exec {A} (env : Env) (log : list Event) (p : Prog A) : option (list Event * A) :=
  match p with
  | Ret a => Some ([], a)
  | Do c k =>
      let r := env log c in
      match exec env (log ++ [log_of c r]) (k r) with
      | Some (tr, a) => Some (log_of c r :: tr, a)
      | None => None
      end
  | Spent => None
  end.

Lemma exec_runs {A} env (Henv : env_ok env) (p : Prog A) log tr a :
  exec env log p = Some (tr, a) -> runs p tr a.
Proof.
  revert log tr. induction p as [b|c k IH|]; intros log tr; cbn; [by intros [= <- <-]| |done].
  destruct (exec env _ _) as [[tr' a']|] eqn:E; [|done]. intros [= <- <-].
  eexists _, _. split_and!; [done|apply Henv|by eapply IH].
Qed.

Lemma wp_exec {A} env (Henv : env_ok env) (p : Prog A) Q log :
  wp p Q -> exists tr a, exec env log p = Some (tr, a) /\ Q tr a.
Proof.
  revert Q log. induction p as [b|c k IH|]; intros Q log; cbn; [by eauto| |done].
  intros Hp. destruct (IH (env log c) _ (log ++ [log_of c (env log c)]) (Hp _ (Henv log c))) as (tr & a & -> & HQ).
  eauto.
Qed.

Section Props.
Variable ctx : LoopCtx.
Hypothesis Hbudget : (cx_lock_contention_budget ctx <= DURATION_MAX)%N.

(** Iterations that did not end the loop. *)
Inductive loop_runs : LoopState -> list Event -> LoopState -> Prop :=
| loop_here s : loop_runs s [] s
| loop_next s tr s' tr' s'' : runs (event_step ctx s) tr (Continue s') -> loop_runs s' tr' s'' ->
    loop_runs s (tr ++ tr') s''.

(** The loop as it starts over a watcher that works. *)
Definition started (s : LoopState) : Prop :=
  exists scope known links supplemental cap_warned control sentinel_due,
    s = initial_state scope known links supplemental cap_warned (mkDegraded false false None) control sentinel_due.

(** ** One iteration *)

Definition told (s : LoopState) (m : LoopMessage) (tr : list Event) (r : loop_step LoopState) : Prop :=
  match m, r with
  | MEvent batch, Continue s' =>
      quiet tr /\ batched s s'
      /\ (any_change (normalize_paths ctx s (wb_paths batch)).2 = false -> rs_enabled (ls_scope s) = true ->
          (forall relative, heard s (normalize_paths ctx s (wb_paths batch)).1 relative ->
             relative ∈ dom (ls_pending s'))
          /\ (wb_rescan batch = true -> ls_full s' = true /\ dg_recovering (ls_degraded s') = true))
  | MWatchError err, Continue s' => quiet tr /\ s' = s /\ classify_notify_error err <> ClassDegrade
  | MWatchError err, Break s' => stopped (ls_degraded s) (ls_degraded s') tr /\ classify_notify_error err = ClassDegrade
  | MEvent _, Break s' => stopped (ls_degraded s) (ls_degraded s') tr
  | MSnapshot, _ => r = Continue s /\ tr = [log_of (CReply (snapshot (ls_pending s))) tt]
  | MStop, _ => r = Break s /\ tr = []
  end.

(** The due sync: contention is waited out, and the last answer decides. *)
Definition synced (s : LoopState) (tr : list Event) (r : loop_step LoopState) : Prop :=
  exists answers answer,
    attempts tr = map (pair (owed_scope s)) (answers ++ [answer]) /\ Forall contended answers
    /\ received tr = [] /\ sync_result s answer tr r.

Definition idled (s s' : LoopState) : Prop :=
  ls_pending s' = ls_pending s /\ (ls_full s = true -> ls_full s' = true) /\ ls_errors s' = ls_errors s /\ eased s s'
  /\ (ls_full s' = true -> ls_full s = true \/ is_Some (ls_deadline s'))
  /\ (is_Some (ls_deadline s) -> is_Some (ls_deadline s')).

Definition stepped (s : LoopState) (rcv : Received) (tr : list Event) (r : loop_step LoopState) : Prop :=
  match rcv with
  | Message m => told s m tr r
  | Disconnected => r = Break s /\ tr = []
  | TimedOut =>
      match ls_deadline s with
      | Some _ => synced s tr r
      | None => exists s', r = Continue s' /\ quiet tr /\ idled s s'
      end
  end.

(** The wait, then what it gave. *)
Definition iterated (s : LoopState) (tr : list Event) (r : loop_step LoopState) : Prop :=
  exists pre rcv post, tr = pre ++ post /\ received pre = [rcv] /\ attempts pre = [] /\ notices pre = []
    /\ stepped s rcv post r.

Lemma wp_handle_message m s : wp (handle_message ctx m s) (told s m).
Proof.
  destruct m as [batch|err| |]; cbn [handle_message].
  - eapply prog_wp_mono; [apply wp_handle_event|]. intros tr [s'|s'] H; [exact H|].
    destruct H as (s1 & E & H). unfold stopped_at in H. by rewrite E in H.
  - pose proof (wp_handle_watch_error err (ls_degraded s)) as H.
    unfold handle_watch_error in *. destruct (classify_notify_error err) eqn:Hc; cbn in *.
    + destruct (dg_degraded (ls_degraded s)); cbn in *; [by rewrite Hc|]. intros r Hr. rewrite Hc. by split; [apply (H r)|].
    + intros r _. rewrite Hc. split_and!; [by apply quiet_cons|by destruct s|done].
    + intros r _. rewrite Hc. split_and!; [by apply quiet_cons|by destruct s|done].
  - cbn. by intros [] _.
  - done.
Qed.

Lemma wp_event_step s : wp (event_step ctx s) (iterated s).
Proof.
  unfold event_step.
  assert (Hgo : forall pre rcv post r, received pre = [rcv] -> attempts pre = [] -> notices pre = [] ->
    stepped s rcv post r -> iterated s (pre ++ post) r) by (intros pre rcv post r; by exists pre, rcv, post).
  assert (Hm : forall pre m, received pre = [Message m] -> attempts pre = [] -> notices pre = [] ->
    wp (handle_message ctx m s) (fun tr r => iterated s (pre ++ tr) r)).
  { intros pre m Hr Ha Hn. eapply prog_wp_mono; [apply wp_handle_message|]. intros tr r H. by eapply Hgo. }
  destruct (match ls_deadline s with Some d => Some d | None => ls_sentinel_due s end) as [due|] eqn:Hdue.
  - apply prog_wp_bind, prog_wp_call. intros now _. apply prog_wp_bind, prog_wp_call. intros [m| |] _.
    + by apply (Hm [_; _]).
    + destruct (ls_deadline s) as [d|] eqn:Hd.
      * eapply prog_wp_mono; [by apply wp_sync_tick|]. intros tr r H.
        apply (Hgo [_; _] TimedOut tr r); [done..|]. unfold stepped. by rewrite Hd.
      * apply prog_wp_bind. eapply prog_wp_mono; [apply wp_sentinel_tick|]. intros tr s' (Q & H). cbn [wp]. rewrite app_nil_r.
        apply (Hgo [_; _] TimedOut tr); [done..|]. unfold stepped. rewrite Hd. exists s'. by split_and!.
    + by apply (Hgo [_; _] Disconnected []).
  - apply prog_wp_bind, prog_wp_call. intros [m|] _; [by apply (Hm [_])|]. by apply (Hgo [_] Disconnected []).
Qed.

(** ** The invariant *)

(** What is owed has a deadline; a recovery owes a full sync; five failures in
    a row are never survived; and a loop that runs has not given up. *)
Record loop_ok (s : LoopState) : Prop := {
  lo_armed : ls_pending s <> ∅ \/ ls_full s = true -> is_Some (ls_deadline s);
  lo_recovering : dg_recovering (ls_degraded s) = true -> ls_full s = true;
  lo_degraded : dg_degraded (ls_degraded s) = dg_recovering (ls_degraded s);
  lo_errors : (ls_errors s < MAX_CONSECUTIVE_SYNC_ERRORS)%N
}.

Lemma started_ok s : started s -> loop_ok s.
Proof. intros (? & ? & ? & ? & ? & ? & ? & ->). constructor; cbn; try done. by intros [?|?]. Qed.

Lemma eased_ok s s' :
  eased s s' -> (ls_full s = true -> ls_full s' = true) -> loop_ok s ->
  (dg_recovering (ls_degraded s') = true -> ls_full s' = true)
  /\ dg_degraded (ls_degraded s') = dg_recovering (ls_degraded s').
Proof.
  intros [->|(Hr & [reason ->] & Hf & _)] Hfull [_ R D _]; [by auto|done].
Qed.

Lemma batched_ok s s' : batched s s' -> loop_ok s -> loop_ok s'.
Proof.
  intros [P F E G D A O] Hok. destruct (eased_ok s s' G F Hok) as [R' D']. destruct Hok as [Ha Hr _ He].
  constructor; [|done|done|by rewrite E].
  destruct (dg_recovering (ls_degraded s)) eqn:Hrec.
  - intros _. apply D, Ha. right. by apply Hr.
  - intros [Hp|Hf]; [by apply A|]. destruct (O eq_refl Hf); [|done]. apply D, Ha. by right.
Qed.

Lemma idled_ok s s' : idled s s' -> loop_ok s -> loop_ok s'.
Proof.
  intros (P & F & E & G & O & D) Hok. destruct (eased_ok s s' G F Hok) as [R' D']. destruct Hok as [Ha Hr _ He].
  constructor; [|done|done|by rewrite E]. rewrite P. intros [Hp|Hf]; [apply D, Ha; by left|].
  destruct (O Hf); [|done]. apply D, Ha. by right.
Qed.

Lemma attempt_health_ok s : loop_ok s ->
  dg_degraded (attempt_health s) = dg_recovering (attempt_health s)
  /\ (dg_recovering (attempt_health s) = true -> owed_scope s = None).
Proof.
  intros [_ R D _]. unfold attempt_health, owed_scope.
  destruct (dg_recovering (ls_degraded s)) eqn:Hr.
  - rewrite andb_false_r, D, Hr, (R eq_refl). done.
  - destruct (is_burst s); cbn; rewrite ?orb_true_r, ?D, ?Hr; done.
Qed.

Lemma synced_ok s tr s' : synced s tr (Continue s') -> loop_ok s -> loop_ok s'.
Proof.
  intros (answers & answer & _ & _ & _ & Hres) Hok. destruct (attempt_health_ok s Hok) as [Hd Ho].
  destruct Hok as [_ _ _ He]. unfold sync_result in Hres. destruct answer as [err|outcome].
  - destruct (is_lock_contention err).
    { destruct Hres as (s1 & [= <-] & _ & _ & Hf & E & Hdl & reason & G).
      constructor; rewrite ?G, ?E; done. }
    destruct (MAX_CONSECUTIVE_SYNC_ERRORS <=? ls_errors s + 1)%N eqn:H5; [by destruct Hres as (? & [=] & _)|].
    apply N.leb_gt in H5. destruct Hres as (s1 & [= <-] & _ & _ & Hf & E & Hdl & G).
    constructor; rewrite ?G, ?E, ?Hf; try done. intros Hr. by apply bool_decide_eq_true_2, Ho.
  - destruct Hres as (s1 & [= <-] & _ & Hp & Hf & E & G).
    constructor; rewrite ?G, ?E, ?Hf, ?Hp; [| | |done].
    + intros [H|H]; [by destruct H|done].
    + destruct (owed_scope s) eqn:Hs; [intros Hr; by specialize (Ho Hr)|].
      unfold recover. destruct (dg_recovering (attempt_health s)) eqn:Hx; cbn; rewrite ?Hx; done.
    + destruct (owed_scope s); [done|]. unfold recover. destruct (dg_recovering (attempt_health s)) eqn:Hx; cbn; rewrite ?Hd, ?Hx; done.
Qed.

Lemma iterated_ok s tr s' : iterated s tr (Continue s') -> loop_ok s -> loop_ok s'.
Proof.
  intros (pre & rcv & post & _ & _ & _ & _ & H) Hok. destruct rcv as [[batch|err| |]| |]; cbn in H.
  - by eapply batched_ok; [apply H|].
  - by destruct H as (_ & -> & _).
  - by destruct H as ([= ->] & _).
  - by destruct H.
  - destruct (ls_deadline s); [by eapply synced_ok|].
    destruct H as (s1 & [= <-] & _ & H). by eapply idled_ok.
  - by destruct H.
Qed.

Lemma loop_runs_ok s tr s' : loop_runs s tr s' -> loop_ok s -> loop_ok s'.
Proof.
  induction 1 as [|s tr s1 tr' s2 H _ IH]; [done|]. intros Hok. apply IH.
  eapply iterated_ok; [|exact Hok]. by eapply wp_runs; [apply wp_event_step|].
Qed.

(** A state of the running loop. *)
Definition reachable (s : LoopState) : Prop := exists s0 tr, started s0 /\ loop_runs s0 tr s.

Lemma reachable_ok s : reachable s -> loop_ok s.
Proof. intros (s0 & tr & H0 & H). eapply loop_runs_ok; [exact H|by apply started_ok]. Qed.

(** ** What is owed *)

Definition covered (scope : option (list string)) (path : string) : Prop :=
  match scope with Some paths => path ∈ paths | None => True end.

(** A sync of a scope succeeded. *)
Definition succeeded (tr : list Event) (scope : option (list string)) : Prop :=
  exists outcome, (scope, inr outcome) ∈ attempts tr.

Lemma succeeded_app_l t1 t2 scope : succeeded t1 scope -> succeeded (t1 ++ t2) scope.
Proof. intros [o H]. exists o. rewrite attempts_app. apply elem_of_app. by left. Qed.
Lemma succeeded_app_r t1 t2 scope : succeeded t2 scope -> succeeded (t1 ++ t2) scope.
Proof. intros [o H]. exists o. rewrite attempts_app. apply elem_of_app. by right. Qed.

Lemma pending_paths_in s path : path ∈ dom (ls_pending s) -> path ∈ pending_paths s.
Proof.
  intros H. unfold pending_paths, in_order. rewrite sort_by_perm. by apply elem_of_elements.
Qed.

Lemma owed_covers s path : path ∈ dom (ls_pending s) -> covered (owed_scope s) path.
Proof. intros H. unfold owed_scope. destruct (_ || _); [done|]. by apply pending_paths_in. Qed.

(** Nothing owed is dropped: it stays, or a sync of the log paid it. *)
Definition kept (s : LoopState) (tr : list Event) (s' : LoopState) : Prop :=
  (forall path, path ∈ dom (ls_pending s) ->
     path ∈ dom (ls_pending s') \/ exists scope, succeeded tr scope /\ covered scope path)
  /\ (ls_full s = true -> ls_full s' = true \/ succeeded tr None)
  /\ (dg_recovering (ls_degraded s) = true -> dg_recovering (ls_degraded s') = true \/ succeeded tr None).

Lemma kept_all s tr s' :
  dom (ls_pending s) ⊆ dom (ls_pending s') -> (ls_full s = true -> ls_full s' = true) -> eased s s' -> kept s tr s'.
Proof.
  intros P F G. split_and!; [intros path Hp; left; by apply P|intros H; left; by apply F|].
  intros H. left. destruct G as [->|[? _]]; [done|congruence].
Qed.

Lemma synced_keeps s tr s' : synced s tr (Continue s') -> loop_ok s -> kept s tr s'.
Proof.
  intros (answers & answer & Ha & _ & _ & Hres) [_ R _ _].
  assert (Hfull : ls_full s = true -> owed_scope s = None) by (unfold owed_scope; by intros ->).
  assert (Hrec : dg_recovering (ls_degraded s) = true -> dg_recovering (attempt_health s) = true).
  { intros H. unfold attempt_health. by rewrite H, andb_false_r. }
  unfold sync_result in Hres. destruct answer as [err|outcome].
  - destruct (is_lock_contention err).
    { destruct Hres as (s1 & [= <-] & _ & Hp & Hf & _ & _ & reason & G).
      split_and!; intros; left; rewrite ?Hp, ?G; done. }
    destruct (_ <=? _)%N; [by destruct Hres as (? & [=] & _)|].
    destruct Hres as (s1 & [= <-] & _ & Hp & Hf & _ & _ & G). split_and!; intros; left; rewrite ?Hp, ?G, ?Hf; auto.
    by apply bool_decide_eq_true_2, Hfull.
  - assert (Hs : succeeded tr (owed_scope s)).
    { exists outcome. rewrite Ha, map_app. apply elem_of_app. right. by apply list_elem_of_singleton. }
    split_and!; intros; right.
    + exists (owed_scope s). split; [done|by apply owed_covers].
    + by rewrite <- Hfull.
    + rewrite <- Hfull; [done|]. by apply R.
Qed.

Lemma iterated_keeps s tr s' : iterated s tr (Continue s') -> loop_ok s -> kept s tr s'.
Proof.
  intros (pre & rcv & post & -> & _ & _ & _ & H) Hok.
  assert (Hpost : kept s post s' -> kept s (pre ++ post) s').
  { intros (K1 & K2 & K3). split_and!; [intros path Hp|intros Hf|intros Hr].
    - destruct (K1 path Hp) as [|(scope & Hs & Hc)]; [by left|right]. exists scope. split; [by apply succeeded_app_r|done].
    - destruct (K2 Hf); [by left|right; by apply succeeded_app_r].
    - destruct (K3 Hr); [by left|right; by apply succeeded_app_r]. }
  apply Hpost. destruct rcv as [[batch|err| |]| |]; cbn in H.
  - destruct H as (_ & [P F _ G _ _ _] & _). by apply kept_all.
  - destruct H as (_ & -> & _). apply kept_all; [done|done|by left].
  - destruct H as ([= ->] & _). apply kept_all; [done|done|by left].
  - by destruct H.
  - destruct (ls_deadline s); [by apply synced_keeps|].
    destruct H as (s1 & [= <-] & _ & P & F & _ & G & _). apply kept_all; [by rewrite P|done|done].
  - by destruct H.
Qed.

Lemma kept_trans s1 t1 s2 t2 s3 : kept s1 t1 s2 -> kept s2 t2 s3 -> kept s1 (t1 ++ t2) s3.
Proof.
  intros (P1 & F1 & R1) (P2 & F2 & R2). split_and!; [intros path Hp|intros Hf|intros Hr].
  - destruct (P1 path Hp) as [Hp2|(scope & Hs & Hc)].
    + destruct (P2 path Hp2) as [|(scope & Hs & Hc)]; [by left|right]. exists scope. split; [by apply succeeded_app_r|done].
    + right. exists scope. split; [by apply succeeded_app_l|done].
  - destruct (F1 Hf) as [Hf2|]; [|right; by apply succeeded_app_l].
    destruct (F2 Hf2); [by left|right; by apply succeeded_app_r].
  - destruct (R1 Hr) as [Hr2|]; [|right; by apply succeeded_app_l].
    destruct (R2 Hr2); [by left|right; by apply succeeded_app_r].
Qed.

Lemma loop_keeps s tr s' : loop_runs s tr s' -> loop_ok s -> kept s tr s'.
Proof.
  induction 1 as [s|s tr s1 tr' s2 H _ IH]; intros Hok.
  { apply kept_all; [done|done|by left]. }
  pose proof (wp_runs _ _ _ _ (wp_event_step s) H) as Hit.
  eapply kept_trans; [by apply iterated_keeps|]. apply IH. by eapply iterated_ok.
Qed.

(** ** Batches *)

Lemma classify_grows files relative changes :
  any_change (classify files relative changes).2 = false -> any_change changes = false.
Proof.
  unfold classify, any_change. repeat case_match; cbn; destruct (config_toml changes), (codegraph_json changes); cbn; done.
Qed.

Lemma normalize_paths_in s paths path relative :
  any_change (normalize_paths ctx s paths).2 = false ->
  path ∈ paths ->
  normalize_relative (cx_project_root ctx) (logical_event_path path (cx_project_root ctx) (ls_supplemental s)) = Some relative ->
  exists p, (p, relative, false) ∈ (normalize_paths ctx s paths).1.
Proof.
  unfold normalize_paths. set (f := fun '(normalized, changes) path => _).
  assert (Hstep : forall acc path, (forall n, n ∈ acc.1 -> n ∈ (f acc path).1)
    /\ (any_change (f acc path).2 = false -> any_change acc.2 = false)).
  { intros [l changes] path'. unfold f. destruct (normalize_relative _ _) as [r|]; [|done].
    pose proof (classify_grows (cx_control_files ctx) r changes) as Hc.
    destruct (classify _ _ _) as [is_control changes']. split; [|exact Hc].
    intros n Hn. apply elem_of_app. by left. }
  assert (Hmono : forall paths acc, (forall n, n ∈ acc.1 -> n ∈ (fold_left f paths acc).1)
    /\ (any_change (fold_left f paths acc).2 = false -> any_change acc.2 = false)).
  { induction paths0 as [|path' paths0 IH]; intros acc; [done|].
    destruct (IH (f acc path')) as [H1 H2], (Hstep acc path') as [H3 H4]. split; auto. }
  generalize (([], no_changes) : list (string * string * bool) * ControlChanges).
  induction paths as [|path' paths IH]; intros acc Hany Hin Hrel; [by apply not_elem_of_nil in Hin|].
  apply elem_of_cons in Hin as [->|Hin]; [|by apply (IH (f acc path'))].
  cbn [fold_left] in *. destruct (Hmono paths (f acc path')) as [H1 H2]. specialize (H2 Hany).
  destruct acc as [l changes]. unfold f in H2. cbn beta iota in H2. rewrite Hrel in H2.
  eexists. apply H1. unfold f. cbn beta iota. rewrite Hrel. unfold classify in *.
  destruct (String.eqb relative _); [done|].
  destruct (String.eqb relative _); [by destruct (config_toml changes)|].
  destruct (_ || _); cbn [fst snd] in *.
  - by unfold any_change in H2; cbn in H2; rewrite orb_true_r in H2.
  - apply elem_of_app. right. by apply list_elem_of_singleton.
Qed.

(** ** Its end *)

Inductive ended_by (s s' : LoopState) (tr : list Event) : Prop :=
| ended_told : received tr = [Message MStop] \/ received tr = [Disconnected] ->
    s' = s -> attempts tr = [] -> notices tr = [] -> ended_by s s' tr
| ended_backend m : received tr = [Message m] ->
    match m with MEvent _ => True | MWatchError err => classify_notify_error err = ClassDegrade | _ => False end ->
    attempts tr = [] ->
    (if dg_recovering (ls_degraded s) then health (ls_degraded s') = health (ls_degraded s) /\ notices tr = []
     else exists reason, health (ls_degraded s') = Disabled reason /\ notices tr = [reason]) ->
    ended_by s s' tr
| ended_failures answers err reason : received tr = [TimedOut] ->
    (ls_errors s + 1 = MAX_CONSECUTIVE_SYNC_ERRORS)%N ->
    attempts tr = map (pair (owed_scope s)) (answers ++ [inl err]) ->
    Forall contended answers -> is_lock_contention err = false ->
    health (ls_degraded s') = Disabled reason -> notices tr = [reason] -> ended_by s s' tr.

Lemma stopped_health d d' tr : dg_degraded d = dg_recovering d -> stopped d d' tr ->
  if dg_recovering d then health d' = health d /\ notices tr = []
  else exists reason, health d' = Disabled reason /\ notices tr = [reason].
Proof.
  intros Hd (_ & _ & [(Hg & -> & Hn)|(Hg & reason & -> & Hn)]); rewrite <- Hd, Hg; [done|]. by exists reason.
Qed.

Lemma iterated_ends s tr s' : iterated s tr (Break s') -> loop_ok s -> ended_by s s' tr.
Proof.
  intros (pre & rcv & post & -> & Hr & Ha & Hn & H) Hok. pose proof (lo_degraded s Hok) as Hd.
  assert (Hb : forall m, rcv = Message m -> stopped (ls_degraded s) (ls_degraded s') post ->
    match m with MEvent _ => True | MWatchError err => classify_notify_error err = ClassDegrade | _ => False end ->
    ended_by s s' (pre ++ post)).
  { intros m -> Hs Hm. pose proof (stopped_health _ _ _ Hd Hs) as Hh. destruct Hs as (Ha' & Hr' & _).
    apply (ended_backend _ _ _ m); rewrite ?received_app, ?attempts_app, ?notices_app, ?Hr, ?Ha, ?Hn, ?Hr', ?Ha'; done. }
  assert (Ht : Break s' = Break s /\ post = [] -> rcv = Message MStop \/ rcv = Disconnected -> ended_by s s' (pre ++ post)).
  { intros [[= ->] ->] Hrcv. rewrite app_nil_r. apply ended_told; try done. rewrite Hr. destruct Hrcv as [->| ->]; auto. }
  destruct rcv as [[batch|err| |]| |]; cbn in H; [by eapply Hb| |by destruct H as [[=] _]|by apply Ht; auto| |by apply Ht; auto].
  - destruct H as [Hs Hc]. by eapply Hb.
  - destruct (ls_deadline s); [|by destruct H as (s1 & [=] & _)].
    destruct H as (answers & answer & Ha' & Hall & Hr' & Hres). destruct (attempt_health_ok s Hok) as [Hh _].
    unfold sync_result in Hres. destruct answer as [err|outcome]; [|by destruct Hres as (? & [=] & _)].
    destruct (is_lock_contention err) eqn:Hc; [by destruct Hres as (? & [=] & _)|].
    destruct (N.leb_spec MAX_CONSECUTIVE_SYNC_ERRORS (ls_errors s + 1)) as [H5|H5]; [|by destruct Hres as (? & [=] & _)].
    destruct Hres as (s1 & [= <-] & Hres). pose proof (lo_errors s Hok) as He.
    rewrite Hh in Hres. assert (Hif : negb (dg_recovering (attempt_health s)) || dg_recovering (attempt_health s) = true)
      by (by destruct (dg_recovering (attempt_health s))). rewrite Hif in Hres.
    destruct Hres as (reason & Hg & Hn').
    apply (ended_failures _ _ _ answers err reason); rewrite ?received_app, ?attempts_app, ?notices_app, ?Hr, ?Ha, ?Hn, ?Hr', ?Ha'; try done.
    + unfold MAX_CONSECUTIVE_SYNC_ERRORS in *. lia.
    + by rewrite Hg.
Qed.

(** ** The properties *)

(** In every state the running loop reaches, whatever its environment did:
    a pending change or an owed full sync has a deadline; a recovery owes a full
    sync; health is healthy or recovering, never disabled; and fewer than five
    syncs have failed in a row. *)
Theorem watch_loop_invariant s : reachable s -> loop_ok s.
Proof. apply reachable_ok. Qed.

(** C16: No iteration of the loop forgets what it owes: a pending path stays
    pending until a sync whose scope covers it succeeded, and an owed full sync
    and a recovery stay until a full sync succeeded. *)
Theorem watch_loop_keeps_changes s tr s' : reachable s -> loop_runs s tr s' -> kept s tr s'.
Proof. intros Hs H. eapply loop_keeps; [exact H|by apply reachable_ok]. Qed.

(** C17: A batch of events without a control file, while the watch is enabled,
    leaves every one of its paths that the policy handles and watches pending,
    and one that says events were lost leaves a full sync owed and the watcher
    recovering; either way there is a deadline. *)
Theorem watch_loop_hears s batch tr s' :
  reachable s -> runs (event_step ctx s) tr (Continue s') -> received tr = [Message (MEvent batch)] ->
  any_change (normalize_paths ctx s (wb_paths batch)).2 = false -> rs_enabled (ls_scope s) = true ->
  (forall path relative, path ∈ wb_paths batch ->
     normalize_relative (cx_project_root ctx) (logical_event_path path (cx_project_root ctx) (ls_supplemental s)) = Some relative ->
     should_handle_file (rs_policy (ls_scope s)) relative = true ->
     should_watch_dir (rs_policy (ls_scope s)) relative = true ->
     relative ∈ dom (ls_pending s') /\ is_Some (ls_deadline s'))
  /\ (wb_rescan batch = true ->
      ls_full s' = true /\ dg_recovering (ls_degraded s') = true /\ is_Some (ls_deadline s')).
Proof.
  intros Hs H Hr Hany He. pose proof (wp_runs _ _ _ _ (wp_event_step s) H) as Hit.
  pose proof (iterated_ok _ _ _ Hit (reachable_ok s Hs)) as Hok.
  destruct Hit as (pre & rcv & post & -> & Hpre & _ & _ & Hst).
  rewrite received_app, Hpre in Hr. injection Hr as -> _. destruct Hst as (_ & _ & Hh).
  destruct (Hh Hany He) as [Hpaths Hres]. split.
  - intros path rel Hin Hrel Hf Hd. destruct (normalize_paths_in s _ _ _ Hany Hin Hrel) as [p Hp].
    assert (Hdom : rel ∈ dom (ls_pending s')) by (apply Hpaths; by exists p).
    split; [done|]. apply (lo_armed s' Hok). left. intros E. rewrite E, dom_empty_L in Hdom. by apply not_elem_of_empty in Hdom.
  - intros Hb. destruct (Hres Hb) as [Hf Hrec]. split_and!; [done|done|]. apply (lo_armed s' Hok). by right.
Qed.

(** When its deadline comes the loop tries exactly what it owes: the pending
    paths, or everything if a full sync is owed or more than 500 paths are
    pending. Contention is waited out; then a success clears what was owed and,
    if it was full, the recovery; a failure keeps it under a new deadline and
    counts; contention over the budget turns it into a recovery. *)
Theorem watch_loop_syncs_due s tr r :
  is_Some (ls_deadline s) -> runs (event_step ctx s) tr r -> received tr = [TimedOut] ->
  exists answers answer, attempts tr = map (pair (owed_scope s)) (answers ++ [answer])
    /\ Forall contended answers /\ sync_result s answer tr r.
Proof.
  intros [d Hd] H Hr. destruct (wp_runs _ _ _ _ (wp_event_step s) H) as (pre & rcv & post & -> & Hpre & Ha & Hn & Hst).
  rewrite received_app, Hpre in Hr. injection Hr as -> _. unfold stepped in Hst. rewrite Hd in Hst.
  destruct Hst as (answers & answer & Ha' & Hall & _ & Hres). exists answers, answer.
  rewrite attempts_app, Ha. split_and!; [done|done|]. unfold sync_result in *. by rewrite notices_app, Hn.
Qed.

(** C18: The loop ends only when it is told to, when a watch degrades the
    watcher, or at the fifth failed sync in a row. The last two disable auto-sync
    and say so exactly once, except that a watch failing during a recovery ends
    the loop without a notice and leaves the watcher's health recovering. *)
Theorem watch_loop_ends s tr s' : reachable s -> runs (event_step ctx s) tr (Break s') -> ended_by s s' tr.
Proof.
  intros Hs H. apply iterated_ends; [|by apply reachable_ok]. by eapply wp_runs; [apply wp_event_step|].
Qed.

(** Every iteration ends, in every environment and from every state, having
    taken one message of the channel. *)
Theorem event_step_ends env log s : env_ok env ->
  exists tr r, exec env log (event_step ctx s) = Some (tr, r) /\ length (received tr) = 1.
Proof.
  intros He. destruct (wp_exec env He _ _ log (wp_event_step s)) as (tr & r & Hx & pre & rcv & post & -> & Hr & _ & _ & Hst).
  exists (pre ++ post), r. split; [done|]. rewrite received_app, Hr. cbn. f_equal.
  assert (Hnil : received post = []); [|by rewrite Hnil].
  destruct rcv as [m| |]; cbn in Hst; [| |by destruct Hst as [_ ->]].
  - destruct m, r; cbn in Hst; try (by destruct Hst as [_ ->]).
    + by destruct Hst as [(_ & _ & ?) _].
    + by destruct Hst as (_ & ? & _).
    + by destruct Hst as [(_ & _ & ?) _].
    + by destruct Hst as [(_ & ? & _) _].
  - destruct (ls_deadline s); [by destruct Hst as (? & ? & _ & _ & ? & _)|].
    by destruct Hst as (? & _ & (_ & _ & ?) & _).
Qed.

End Props.

(** Waiting out a contended index ends in every environment: the same sync
    is tried until it answers something else or the waits reach the budget, one
    wait between two attempts, none over thirty seconds and all of them together
    at most thirty seconds over the budget. *)
Theorem backoff_bounded env log budget scope :
  env_ok env -> (budget <= DURATION_MAX)%N ->
  exists tr attempt, exec env log (run_with_backoff budget (sync_call scope)) = Some (tr, attempt)
    /\ attempted scope tr attempt
    /\ length (attempts tr) = S (length (sleeps tr))
    /\ Forall (fun d => d <= MAX_BACKOFF)%N (sleeps tr)
    /\ (waited (sleeps tr) <= budget + MAX_BACKOFF)%N.
Proof.
  intros He Hb. destruct (wp_exec env He _ _ log (run_with_backoff_ok budget scope Hb)) as (tr & a & Hx & ? & ? & ? & ?).
  by exists tr, a.
Qed.

(** ** A run: a change, a sync that fails, and then one that does not *)

Definition demo_loop_ctx : LoopCtx :=
  mkCtx NativeRecursive "/home/p" (mkControlFiles ".codegraph/config.toml" "codegraph.json" ".gitignore" ".git/info/exclude")
    (5000 * MILLIS) (60000 * MILLIS) None.

Definition demo_scope : RuntimeWatchScope :=
  mkScope (with_config [] [] [] [] (gitignore demo_rules) (overrides demo_rules)) [] [] [] [] (overrides demo_rules)
    (500 * MILLIS) true.

Definition demo_loop_start : LoopState :=
  initial_state demo_scope ∅ no_links [] false (mkDegraded false false None) (mkRecorded ∅ ∅) None.

Definition demo_batch : WatchEventBatch := mkBatch ["/home/p/src/main.rs"] HintNone true.
Definition demo_error : SyncError := mkSyncError "index is locked" "index is locked" [].
Definition demo_failure : SyncError := mkSyncError "no such table" "no such table" [].
Definition demo_outcome : SyncOutcome := mkOutcome None [] [].

(** What the channel gives and the syncs answer, in order; every clock stands
    still and every path is a file. *)
Definition scripted (messages : list Received) (answers : list (SyncError + SyncOutcome)) : Env :=
  fun log c =>
    match c return Answer c with
    | CInstant => 5%N | CEpochMillis => 7%N
    | CRecv => match nth (length (received log)) messages Disconnected with Message m => Some m | _ => None end
    | CRecvTimeout _ => nth (length (received log)) messages Disconnected
    | CIsDir _ => false | CIsSymlink _ => false
    | CReadDir _ => []
    | CTree => demo_fs
    | CLoadConfig => inl "" | CDebounceEnv => None
    | CLoadExtensions => overrides demo_rules | CLoadGitignore => gitignore demo_rules
    | CLoadScope => None
    | CLockWatcher => WatcherHeld
    | CWatch _ => None
    | CSync _ => nth (length (attempts log)) answers (inr demo_outcome)
    | CFullSync => nth (length (attempts log)) answers (inr demo_outcome)
    | CDriftCheck => inr None
    | CUnwatch _ => tt | CSleep _ => tt | CSyncComplete _ => tt | CDegraded _ => tt | CSyncError _ => tt | CReply _ => tt
    end.

Lemma scripted_ok messages answers : env_ok (scripted messages answers).
Proof. intros log c. destruct c; try exact I. exact (conj scan_demo_wf demo_plain). Qed.

(** The iterations of a loop in an environment, as long as it goes on. *)
Fixpoint loop_exec (ctx : LoopCtx) (env : Env) (n : nat) (log : list Event) (s : LoopState)
    : option (list Event * LoopState) :=
  match n with
  | 0 => Some ([], s)
  | S n =>
      match exec env log (event_step ctx s) with
      | Some (tr, Continue s') =>
          match loop_exec ctx env n (log ++ tr) s' with Some (tr', s'') => Some (tr ++ tr', s'') | None => None end
      | _ => None
      end
  end.

Lemma loop_exec_runs ctx env (Henv : env_ok env) n log s tr s' :
  loop_exec ctx env n log s = Some (tr, s') -> loop_runs ctx s tr s'.
Proof.
  revert log s tr. induction n as [|n IH]; intros log s tr; cbn; [intros [= <- <-]; constructor|].
  destruct (exec _ _ _) as [[t1 [s1|s1]]|] eqn:E1; [|done|done].
  destruct (loop_exec _ _ _ _ _) as [[t2 s2]|] eqn:E2; [|done]. intros [= <- <-].
  econstructor; [by eapply exec_runs|by eapply IH].
Qed.

Definition demo_env : Env :=
  scripted [Message (MEvent demo_batch); TimedOut; TimedOut] [inl demo_error; inl demo_failure].
Definition demo_watch (n : nat) : list Event * LoopState :=
  default ([], demo_loop_start) (loop_exec demo_loop_ctx demo_env n [] demo_loop_start).
(** The next iteration from where the first [n] leave the loop. *)
Definition demo_next (env : Env) (n : nat) : list Event * loop_step LoopState :=
  default ([], Break demo_loop_start) (exec env (demo_watch n).1 (event_step demo_loop_ctx (demo_watch n).2)).

(** A backend error that can never recover. *)
Definition demo_emfile : NotifyError := mkNotifyError (NeIo (Some EMFILE)) "too many open files".
Definition demo_broken_env : Env := scripted [Message (MEvent demo_batch); Message (MWatchError demo_emfile)] [].

Definition is_continue {S} (r : loop_step S) : bool := match r with Continue _ => true | Break _ => false end.
Definition state_of {S} (r : loop_step S) : S := match r with Continue s | Break s => s end.

Lemma demo_watch_runs n :
  n <= 3 -> loop_runs demo_loop_ctx demo_loop_start (demo_watch n).1 (demo_watch n).2.
Proof.
  intros Hn. destruct (loop_exec demo_loop_ctx demo_env n [] demo_loop_start) as [[tr s]|] eqn:E.
  - apply (loop_exec_runs _ demo_env (scripted_ok _ _) n []). unfold demo_watch. by rewrite E.
  - exfalso. assert (H : bool_decide (Forall (fun n => is_Some (loop_exec demo_loop_ctx demo_env n [] demo_loop_start)) [0;1;2;3]) = true)
      by (vm_compute; reflexivity).
    apply bool_decide_eq_true in H. rewrite Forall_forall in H.
    destruct (H n) as [x Hx]; [|congruence]. apply list_elem_of_In. cbn. lia.
Qed.

Lemma demo_watch_reachable n : n <= 3 -> reachable demo_loop_ctx (demo_watch n).2.
Proof.
  intros Hn. exists demo_loop_start, (demo_watch n).1. split; [|by apply demo_watch_runs].
  by exists demo_scope, ∅, no_links, [], false, (mkRecorded ∅ ∅), None.
Qed.

Lemma demo_next_runs env n (Henv : env_ok env) :
  is_Some (exec env (demo_watch n).1 (event_step demo_loop_ctx (demo_watch n).2)) ->
  runs (event_step demo_loop_ctx (demo_watch n).2) (demo_next env n).1 (demo_next env n).2.
Proof.
  intros [[tr r] Hx]. apply (exec_runs env Henv _ (demo_watch n).1). unfold demo_next. by rewrite Hx.
Qed.

Lemma demo_next_ends :
  is_Some (exec demo_env (demo_watch 0).1 (event_step demo_loop_ctx (demo_watch 0).2))
  /\ is_Some (exec demo_env (demo_watch 1).1 (event_step demo_loop_ctx (demo_watch 1).2))
  /\ is_Some (exec demo_broken_env (demo_watch 1).1 (event_step demo_loop_ctx (demo_watch 1).2)).
Proof.
  split_and!.
  - assert (H : bool_decide (is_Some (exec demo_env (demo_watch 0).1 (event_step demo_loop_ctx (demo_watch 0).2))) = true)
      by (vm_compute; reflexivity). by apply bool_decide_eq_true in H.
  - assert (H : bool_decide (is_Some (exec demo_env (demo_watch 1).1 (event_step demo_loop_ctx (demo_watch 1).2))) = true)
      by (vm_compute; reflexivity). by apply bool_decide_eq_true in H.
  - assert (H : bool_decide (is_Some (exec demo_broken_env (demo_watch 1).1 (event_step demo_loop_ctx (demo_watch 1).2))) = true)
      by (vm_compute; reflexivity). by apply bool_decide_eq_true in H.
Qed.

Lemma demo_facts :
  ls_full (demo_watch 1).2 = true /\ ls_full (demo_watch 2).2 = true
  /\ ls_pending (demo_watch 3).2 = ∅
  /\ "src/main.rs" ∈ dom (ls_pending (demo_watch 1).2)
  /\ is_Some (ls_deadline (demo_watch 1).2)
  /\ ls_errors (demo_watch 2).2 = 1%N
  /\ received (demo_next demo_env 0).1 = [Message (MEvent demo_batch)]
  /\ (demo_next demo_env 0).2 = Continue (state_of (demo_next demo_env 0).2)
  /\ received (demo_next demo_env 1).1 = [TimedOut]
  /\ (demo_next demo_broken_env 1).2 = Break (state_of (demo_next demo_broken_env 1).2)
  /\ health (ls_degraded (state_of (demo_next demo_broken_env 1).2)) = health (ls_degraded (demo_watch 1).2)
  /\ notices (demo_next demo_broken_env 1).1 = [].
Proof.
  split_and!; try (vm_compute; reflexivity). vm_compute. by eexists.
Qed.

Lemma demo_budget : (cx_lock_contention_budget demo_loop_ctx <= DURATION_MAX)%N.
Proof. by vm_compute. Qed.

Lemma watch_loop_invariant_witness :
  (ls_errors (demo_watch 2).2 = 1)%N /\ loop_ok (demo_watch 2).2.
Proof.
  split; [apply demo_facts|]. apply (watch_loop_invariant demo_loop_ctx demo_budget), demo_watch_reachable. lia.
Defined.

(** The failing sync, then the one that pays. *)
Definition demo_rest : list Event * LoopState :=
  default ([], demo_loop_start) (loop_exec demo_loop_ctx demo_env 2 (demo_watch 1).1 (demo_watch 1).2).

Lemma demo_rest_runs :
  loop_runs demo_loop_ctx (demo_watch 1).2 demo_rest.1 demo_rest.2
  /\ ls_pending demo_rest.2 = ∅ /\ map fst (attempts demo_rest.1) = [None; None; None].
Proof.
  split; [|by vm_compute].
  destruct (loop_exec demo_loop_ctx demo_env 2 (demo_watch 1).1 (demo_watch 1).2) as [[tr s]|] eqn:E.
  - apply (loop_exec_runs _ demo_env (scripted_ok _ _) 2 (demo_watch 1).1). unfold demo_rest. by rewrite E.
  - exfalso. assert (H : bool_decide (is_Some (loop_exec demo_loop_ctx demo_env 2 (demo_watch 1).1 (demo_watch 1).2)) = true)
      by (vm_compute; reflexivity). apply bool_decide_eq_true in H. rewrite E in H. by destruct H.
Qed.

Lemma watch_loop_keeps_changes_witness :
  ls_pending demo_rest.2 = ∅ /\ "src/main.rs" ∈ dom (ls_pending (demo_watch 1).2)
  /\ kept (demo_watch 1).2 demo_rest.1 demo_rest.2.
Proof.
  split; [apply demo_rest_runs|]. split; [apply demo_facts|].
  apply (watch_loop_keeps_changes demo_loop_ctx demo_budget); [|apply demo_rest_runs].
  apply demo_watch_reachable. lia.
Defined.

Lemma watch_loop_hears_witness :
  "src/main.rs" ∈ dom (ls_pending (state_of (demo_next demo_env 0).2))
  /\ ls_full (state_of (demo_next demo_env 0).2) = true.
Proof.
  destruct demo_facts as (_ & _ & _ & _ & _ & _ & Hr & Hc & _).
  destruct (watch_loop_hears demo_loop_ctx demo_budget (demo_watch 0).2 demo_batch (demo_next demo_env 0).1
    (state_of (demo_next demo_env 0).2)) as [H1 H2].
  - apply demo_watch_reachable. lia.
  - rewrite <- Hc. apply demo_next_runs; [apply scripted_ok|apply demo_next_ends].
  - exact Hr.
  - by vm_compute.
  - by vm_compute.
  - split; [|by apply H2]. apply (H1 "/home/p/src/main.rs"); [by left|by vm_compute..].
Defined.

Lemma watch_loop_syncs_due_witness :
  exists answers answer, attempts (demo_next demo_env 1).1 = map (pair None) (answers ++ [answer])
    /\ Forall contended answers /\ sync_result (demo_watch 1).2 answer (demo_next demo_env 1).1 (demo_next demo_env 1).2.
Proof.
  destruct demo_facts as (_ & _ & _ & _ & Hd & _ & _ & _ & Hr & _).
  destruct (watch_loop_syncs_due demo_loop_ctx demo_budget (demo_watch 1).2 (demo_next demo_env 1).1 (demo_next demo_env 1).2 Hd)
    as (answers & answer & Ha & H).
  - apply demo_next_runs; [apply scripted_ok|apply demo_next_ends].
  - exact Hr.
  - exists answers, answer. split; [|exact H].
    assert (Ho : owed_scope (demo_watch 1).2 = None) by (by vm_compute). by rewrite Ha, Ho.
Defined.

Lemma watch_loop_ends_witness :
  health (ls_degraded (state_of (demo_next demo_broken_env 1).2)) = health (ls_degraded (demo_watch 1).2)
  /\ ended_by (demo_watch 1).2 (state_of (demo_next demo_broken_env 1).2) (demo_next demo_broken_env 1).1.
Proof.
  destruct demo_facts as (_ & _ & _ & _ & _ & _ & _ & _ & _ & Hb & Hh & _).
  split; [exact Hh|]. apply (watch_loop_ends demo_loop_ctx demo_budget); [apply demo_watch_reachable; lia|].
  rewrite <- Hb. apply demo_next_runs; [apply scripted_ok|apply demo_next_ends].
Defined.

Lemma event_step_ends_witness :
  exists tr r, exec demo_env [] (event_step demo_loop_ctx demo_loop_start) = Some (tr, r) /\ length (received tr) = 1.
Proof. exact (event_step_ends demo_loop_ctx demo_budget demo_env [] demo_loop_start (scripted_ok _ _)). Defined.

Lemma backoff_bounded_witness :
  exists tr attempt,
    exec (scripted [] [inl demo_error; inl demo_error]) [] (run_with_backoff (5000 * MILLIS) (sync_call None)) = Some (tr, attempt)
    /\ attempted None tr attempt /\ length (attempts tr) = S (length (sleeps tr))
    /\ Forall (fun d => d <= MAX_BACKOFF)%N (sleeps tr) /\ (waited (sleeps tr) <= 5000 * MILLIS + MAX_BACKOFF)%N.
Proof. exact (backoff_bounded _ [] (5000 * MILLIS) None (scripted_ok _ _) demo_budget). Defined.
