(* ===== verification/SourceFile.v ===== *)
(** * Reading a source file (codegraph-core/src/source_file.rs)

    Bytes that are not UTF-8 become U+FFFD, a file over the limit is stood for
    by its size, and a transport stream named [.ts] is no source. What each call
    of one read sees is an argument, so the file may change meanwhile. *)
From S2P Require Import Prelude Types Strings PathUtil StrOps LangDetect Utf8.
From stdpp Require Import pretty.

(** ** [String::from_utf8_lossy], [String::from_utf8] *)

Definition byte (a : ascii) : N := N_of_ascii a.
Definition between (lo hi : N) (a : ascii) : bool := (lo <=? byte a)%N && (byte a <=? hi)%N.
Definition is_continuation (a : ascii) : bool := between 0x80 0xBF a.

(** How many bytes a first byte announces; none for one that cannot be first. *)
Definition utf8_char_width (a : ascii) : nat :=
  if (byte a <? 0x80)%N then 1
  else if between 0xC2 0xDF a then 2
  else if between 0xE0 0xEF a then 3
  else if between 0xF0 0xF4 a then 4 else 0.

(** The second bytes a first byte allows. *)
Definition second_of_3 (a b : ascii) : bool :=
  if (byte a =? 0xE0)%N then between 0xA0 0xBF b
  else if (byte a =? 0xED)%N then between 0x80 0x9F b else is_continuation b.
Definition second_of_4 (a b : ascii) : bool :=
  if (byte a =? 0xF0)%N then between 0x90 0xBF b
  else if (byte a =? 0xF4)%N then between 0x80 0x8F b else is_continuation b.

(** The characters of a byte string, and [None] for each longest part of one
    that is not finished as it should. *)
Fixpoint utf8_pieces (s : string) : list (option string) :=
  match s with
  | EmptyString => []
  | String a s1 =>
      match utf8_char_width a, s1 with
      | 1, _ => Some (String a "") :: utf8_pieces s1
      | 2, String b s2 =>
          if is_continuation b then Some (String a (String b "")) :: utf8_pieces s2 else None :: utf8_pieces s1
      | 3, String b s2 =>
          if negb (second_of_3 a b) then None :: utf8_pieces s1 else
          match s2 with
          | String c s3 =>
              if is_continuation c then Some (String a (String b (String c ""))) :: utf8_pieces s3
              else None :: utf8_pieces s2
          | EmptyString => [None]
          end
      | 4, String b s2 =>
          if negb (second_of_4 a b) then None :: utf8_pieces s1 else
          match s2 with
          | String c s3 =>
              if negb (is_continuation c) then None :: utf8_pieces s2 else
              match s3 with
              | String d s4 =>
                  if is_continuation d then Some (String a (String b (String c (String d "")))) :: utf8_pieces s4
                  else None :: utf8_pieces s3
              | EmptyString => [None]
              end
          | EmptyString => [None]
          end
      | _, _ => None :: utf8_pieces s1
      end
  end.

Definition REPLACEMENT : string :=
  String (ascii_of_N 0xEF) (String (ascii_of_N 0xBF) (String (ascii_of_N 0xBD) "")).

Definition str_concat (l : list string) : string := fold_right String.append "" l.

Definition from_utf8_lossy (s : string) : string :=
  str_concat (map (default REPLACEMENT) (utf8_pieces s)).

Definition from_utf8 (s : string) : option string :=
  if forallb (fun p => match p with Some _ => true | None => false end) (utf8_pieces s) then Some s else None.

(** ** [str::trim], [str::lines] *)

Definition piece_is_whitespace (p : string) : bool :=
  match next_code_point (map N_of_ascii (String.list_ascii_of_string p)) with
  | Some (c, _) => is_whitespace c
  | None => false
  end.

Fixpoint drop_whitespace (l : list string) : list string :=
  match l with
  | [] => []
  | p :: l' => if piece_is_whitespace p then drop_whitespace l' else l
  end.

Definition text_pieces (s : string) : list string := map (default REPLACEMENT) (utf8_pieces s).

Definition trim (s : string) : string :=
  str_concat (rev (drop_whitespace (rev (drop_whitespace (text_pieces s))))).

Definition NEWLINE : ascii := "010"%char.
Definition CARRIAGE_RETURN : ascii := "013"%char.

(** A line is cut before its newline, and then before a carriage return. *)
Definition lines (s : string) : list string :=
  let parts := split_on NEWLINE s in
  let cut := map (fun l => default l (str_strip_suffix l (String CARRIAGE_RETURN ""))) (removelast parts) in
  match last parts with
  | Some EmptyString | None => cut
  | Some l => cut ++ [l]
  end.

(** ** The source text *)

Record Metadata : Set := mkMetadata { md_is_file : bool; md_len : N; md_modified : Z }.

Inductive SourceText : Set := Text (text : string) | Oversize (size : N) | MpegTransportStream.

(** An [io::Error]: of the system, or of a path that is no regular file. *)
Inductive IoError : Set := OsError | NotARegularFile.

Definition oversize_stamp (size : N) : string := "codegraph:oversize:" +:+ pretty size.

Definition hash_input (self : SourceText) : option string :=
  match self with
  | Text text => Some text
  | Oversize size => Some (oversize_stamp size)
  | MpegTransportStream => None
  end.

Definition MPEG_TS_PACKET_SIZE : nat := 188.
Definition MPEG_TS_SYNC_BYTE : N := 0x47.
Definition MPEG_TS_MIN_PACKETS : nat := 16.
Definition MPEG_TS_SNIFF_BYTES : nat := MPEG_TS_PACKET_SIZE * MPEG_TS_MIN_PACKETS.

Definition has_mpeg_ts_extension (relative : string) : bool :=
  (3 <? String.length relative)
  && eq_ignore_ascii_case (str_drop (String.length relative - 3) relative) ".ts".

(** The control bytes but the white space. *)
Fixpoint control_bytes (s : string) : nat :=
  match s with
  | EmptyString => 0
  | String a s => (if (byte a <? 0x20)%N && negb (between 0x09 0x0d a) then 1 else 0) + control_bytes s
  end.

Definition is_mpeg_transport_stream (head : string) : bool :=
  let head := str_take (Nat.min (String.length head) MPEG_TS_SNIFF_BYTES) head in
  let last_sync := MPEG_TS_PACKET_SIZE * (MPEG_TS_MIN_PACKETS - 1) in
  if String.length head <=? last_sync then false
  else if existsb (fun packet => match byte_at (packet * MPEG_TS_PACKET_SIZE) head with
                                 | Some a => negb (byte a =? MPEG_TS_SYNC_BYTE)%N
                                 | None => true
                                 end) (seq 0 MPEG_TS_MIN_PACKETS) then false
  else String.length head <=? control_bytes head * 64.

Definition regular_file_metadata (metadata : Metadata) : result IoError Metadata :=
  if md_is_file metadata then Ok metadata else Err NotARegularFile.

(** What each call of one read sees: [metadata], [open], the handle's
    metadata, the bytes there are to read, and the handle's metadata again. *)
Record ReadView : Set := mkView {
  rv_stat : result IoError Metadata;
  rv_open : result IoError Metadata;
  rv_content : result IoError string;
  rv_after : result IoError Metadata
}.

Definition U64_MAX : N := 2 ^ 64 - 1.

Definition read_source_file (view : ReadView) (relative : string) (max_bytes : N)
    : result IoError (Metadata * SourceText) :=
  initial ← rv_stat view;
  initial ← regular_file_metadata initial;
  if (max_bytes <? md_len initial)%N then Ok (initial, Oversize (md_len initial)) else
  opened ← rv_open view;
  opened ← regular_file_metadata opened;
  if (max_bytes <? md_len opened)%N then Ok (opened, Oversize (md_len opened)) else
  content ← rv_content view;
  let bytes := str_take (N.to_nat (N.min (N.min (max_bytes + 1) U64_MAX) (N.of_nat (String.length content)))) content in
  read ← rv_after view;
  let read_len := N.of_nat (String.length bytes) in
  if (max_bytes <? read_len)%N || (max_bytes <? md_len read)%N then Ok (read, Oversize (N.max (md_len read) read_len)) else
  if has_mpeg_ts_extension relative && is_mpeg_transport_stream bytes then Ok (read, MpegTransportStream)
  else Ok (read, Text (from_utf8_lossy bytes)).

Definition is_source_file (view : ReadView) (relative : string) (max_bytes : N) : result IoError bool :=
  if negb (has_mpeg_ts_extension relative) then Ok true else
  metadata ← rv_stat view;
  metadata ← regular_file_metadata metadata;
  if (max_bytes <? md_len metadata)%N then Ok true else
  _ ← rv_open view;
  content ← rv_content view;
  let head := str_take (Nat.min MPEG_TS_SNIFF_BYTES (String.length content)) content in
  Ok (negb (is_mpeg_transport_stream head)).

(** ** A file that does not change *)

Record FileData : Set := mkFileData { fd_bytes : string; fd_modified : Z }.

Definition metadata_of (f : FileData) : Metadata :=
  mkMetadata true (N.of_nat (String.length (fd_bytes f))) (fd_modified f).

Definition view_of_file (f : FileData) : ReadView :=
  mkView (Ok (metadata_of f)) (Ok (metadata_of f)) (Ok (fd_bytes f)) (Ok (metadata_of f)).

Definition text_of (bytes relative : string) (max_bytes : N) : SourceText :=
  if (max_bytes <? N.of_nat (String.length bytes))%N then Oversize (N.of_nat (String.length bytes))
  else if has_mpeg_ts_extension relative && is_mpeg_transport_stream bytes then MpegTransportStream
  else Text (from_utf8_lossy bytes).

(** ** Facts *)

Lemma str_take_all s n : String.length s <= n -> str_take n s = s.
Proof.
  revert n. induction s as [|a s IH]; intros n Hn; destruct n; cbn in *; try done; [lia|]. f_equal. apply IH. lia.
Qed.

Lemma str_take_length_min n s : String.length (str_take n s) = Nat.min n (String.length s).
Proof. revert n. induction s as [|a s IH]; intros [|n]; cbn; [done..|]. by rewrite IH. Qed.

Lemma str_take_take n s : str_take n (str_take n s) = str_take n s.
Proof. revert n. induction s as [|a s IH]; intros [|n]; cbn; [done..|]. by rewrite IH. Qed.

(** The check reads no more than the head. *)
Lemma is_mpeg_head s :
  is_mpeg_transport_stream (str_take (Nat.min MPEG_TS_SNIFF_BYTES (String.length s)) s) = is_mpeg_transport_stream s.
Proof.
  unfold is_mpeg_transport_stream. rewrite (Nat.min_comm MPEG_TS_SNIFF_BYTES).
  set (n := Nat.min (String.length s) MPEG_TS_SNIFF_BYTES).
  assert (str_take (Nat.min (String.length (str_take n s)) MPEG_TS_SNIFF_BYTES) (str_take n s) = str_take n s) as ->; [|done].
  rewrite str_take_length_min. replace (Nat.min (Nat.min n (String.length s)) MPEG_TS_SNIFF_BYTES) with n by lia.
  apply str_take_take.
Qed.

Lemma read_whole (max len : N) :
  (max <= U64_MAX)%N -> (len <= max)%N -> N.to_nat (N.min (N.min (max + 1) U64_MAX) len) = N.to_nat len.
Proof. intros. f_equal. lia. Qed.

(** A file that stays as it is. *)
Lemma read_source_file_static f relative max_bytes :
  (max_bytes <= U64_MAX)%N ->
  read_source_file (view_of_file f) relative max_bytes = Ok (metadata_of f, text_of (fd_bytes f) relative max_bytes).
Proof.
  intros Hmax. unfold read_source_file, text_of. cbn. set (len := N.of_nat (String.length (fd_bytes f))).
  destruct (N.ltb_spec max_bytes len) as [Hlt|Hle]; [done|]. rewrite read_whole by done.
  rewrite str_take_all by (unfold len; lia). fold len. destruct (N.ltb_spec max_bytes len); [lia|]. cbn.
  by destruct (has_mpeg_ts_extension relative && _).
Qed.

Lemma is_source_file_static f relative max_bytes :
  is_source_file (view_of_file f) relative max_bytes
  = Ok (match text_of (fd_bytes f) relative max_bytes with MpegTransportStream => false | _ => true end).
Proof.
  unfold is_source_file, text_of. destruct (has_mpeg_ts_extension relative); cbn [negb].
  2:{ by destruct (_ <? _)%N. }
  cbn -[str_take is_mpeg_transport_stream Nat.min MPEG_TS_SNIFF_BYTES]. destruct (_ <? _)%N; [done|].
  rewrite is_mpeg_head. by destruct (is_mpeg_transport_stream _).
Qed.

(** Text is left as it is. *)
Lemma utf8_pieces_valid s :
  forallb (fun p => match p with Some _ => true | None => false end) (utf8_pieces s) = true ->
  str_concat (map (default REPLACEMENT) (utf8_pieces s)) = s.
Proof.
  remember (String.length s) as n eqn:Hn. revert s Hn. induction n as [n IH] using lt_wf_ind. intros s ->.
  destruct s as [|a s1]; [done|]. cbn [utf8_pieces].
  assert (Hrec : forall p t, String.length t < String.length (String a s1) -> p +:+ t = String a s1 ->
    forallb (fun p => match p with Some _ => true | None => false end) (Some p :: utf8_pieces t) = true ->
    str_concat (map (default REPLACEMENT) (Some p :: utf8_pieces t)) = String a s1).
  { intros p t Hlt <- H. cbn in *. f_equal. by eapply IH. }
  destruct (utf8_char_width a) as [|[|[|[|[|w]]]]]; [done|by apply (Hrec (String a "")); cbn; [lia|]| | | |done];
    (destruct s1 as [|b s2]; [done|]).
  - destruct (is_continuation b); [|done]. apply (Hrec (String a (String b ""))); cbn; [lia|done].
  - destruct (negb _); [done|]. destruct s2 as [|c s3]; [done|]. destruct (is_continuation c); [|done].
    apply (Hrec (String a (String b (String c "")))); cbn; [lia|done].
  - destruct (negb _); [done|]. destruct s2 as [|c s3]; [done|]. destruct (negb _); [done|].
    destruct s3 as [|d s4]; [done|]. destruct (is_continuation d); [|done].
    apply (Hrec (String a (String b (String c (String d ""))))); cbn; [lia|done].
Qed.

Lemma from_utf8_lossy_valid s : from_utf8 s = Some s -> from_utf8_lossy s = s.
Proof.
  unfold from_utf8, from_utf8_lossy. intros H. apply utf8_pieces_valid. by destruct (forallb _ _).
Qed.

(** C27: Whatever happens to a file while it is read (it grows, shrinks or is
    replaced between any two calls), a text that the reader returns is all of
    what there was to read, decoded, and within the limit, as is the size of the
    record. *)
Theorem read_source_file_whole view relative max_bytes metadata text :
  (max_bytes < U64_MAX)%N -> read_source_file view relative max_bytes = Ok (metadata, Text text) ->
  exists content, rv_content view = Ok content /\ text = from_utf8_lossy content
    /\ (N.of_nat (String.length content) <= max_bytes)%N /\ (md_len metadata <= max_bytes)%N.
Proof.
  unfold read_source_file, regular_file_metadata. intros Hmax.
  destruct (rv_stat view) as [m1| |]; [cbn [mbind result_bind]|discriminate..].
  destruct (md_is_file m1); [cbn [mbind result_bind]|discriminate]. destruct (_ <? _)%N; [discriminate|].
  destruct (rv_open view) as [m2| |]; [cbn [mbind result_bind]|discriminate..].
  destruct (md_is_file m2); [cbn [mbind result_bind]|discriminate]. destruct (max_bytes <? md_len m2)%N; [discriminate|].
  destruct (rv_content view) as [content| |]; [cbn [mbind result_bind]|discriminate..].
  destruct (rv_after view) as [m3| |]; [cbn [mbind result_bind]|discriminate..].
  set (bytes := str_take _ content). destruct (N.ltb_spec max_bytes (N.of_nat (String.length bytes))) as [|Hb]; [discriminate|].
  destruct (N.ltb_spec max_bytes (md_len m3)) as [|H3]; [discriminate|]. cbn [orb].
  assert (Hlen : (N.of_nat (String.length content) <= max_bytes)%N).
  { unfold bytes in Hb. rewrite str_take_length_min in Hb. lia. }
  assert (bytes = content) as -> by (apply str_take_all; lia).
  destruct (_ && _); [discriminate|]. intros [= <- <-]. by exists content.
Qed.

Lemma read_source_file_whole_witness :
  exists content, @Ok IoError string "fn" = Ok content /\ "fn" = from_utf8_lossy content
    /\ (N.of_nat (String.length content) <= 2)%N /\ (md_len (mkMetadata true 2 9) <= 2)%N.
Proof.
  eapply (read_source_file_whole (mkView (Ok (mkMetadata true 1 7)) (Ok (mkMetadata true 2 8)) (Ok "fn") (Ok (mkMetadata true 2 9)))
    "a.rs" 2 (mkMetadata true 2 9) "fn"); [done|by vm_compute].
Defined.
