(* ===== verification/GitPending.v ===== *)
(** * Pending changes (codegraph-watch/src: link_state.rs, git_pending.rs, of
      sync.rs the inventory, of shopify_themes.rs what hides a marker)

    What the next full sync would find: by the full scan, and faster from the
    candidates that git names. The disk is that of one moment; [git] gives the
    output of a command, or nothing when it fails. The files table is a map by
    path, as is the table of metadata. *)
From S2P Require Import Prelude Types Rows Strings PathUtil StrOps LangDetect ScanRules ScanWalk WatchTree SourceFile.

Notation Metadatas := (gmap string string).

(** ** The links an index was built through (link_state.rs) *)

Definition FOLLOWED_LINKS_KEY : string := "followed_links".

Definition kind_name (kind : LinkKind) : string :=
  match kind with LinkFile => "file" | LinkDir => "dir" end.

(** The rows of strings as JSON, and what serde_json reads of any text. *)
Class LinkRowsJson := {
  rows_to_json : list (string * string * string) -> string;
  rows_from_json : string -> option (list (string * string * string))
}.
Class LinkRowsJsonLaws `{LinkRowsJson} := {
  rows_json_roundtrip l : rows_from_json (rows_to_json l) = Some l
}.

(** [PathBuf]'s equality, by components. *)
Definition path_eqb (a b : string) : bool :=
  Bool.eqb (is_absolute a) (is_absolute b) && bool_decide (normal_components a = normal_components b).

(** [Vec::dedup_by] on the paths: of a run of equal ones the first stays. *)
Fixpoint dedup_links (l : list FollowedLink) : list FollowedLink :=
  match l with
  | a :: l =>
      match dedup_links l with
      | b :: l' => if String.eqb (fl_relative a) (fl_relative b) then a :: l' else a :: b :: l'
      | [] => [a]
      end
  | [] => []
  end.

Definition encode `{LinkRowsJson} (links : list FollowedLink) : string :=
  let links := dedup_links (sort_by (fun a b => str_le (fl_relative a) (fl_relative b)) links) in
  rows_to_json (map (fun link => (fl_relative link, absolute (fl_canonical link), kind_name (fl_kind link))) links).

Fixpoint decode_rows (previous : option string) (links : gmap string (string * LinkKind))
    (rows : list (string * string * string)) : option (gmap string (string * LinkKind)) :=
  match rows with
  | [] => Some links
  | (relative, canonical, kind) :: rows =>
      if match previous with Some previous => str_le relative previous | None => false end then None else
      kind ← (if String.eqb kind "file" then Some LinkFile else if String.eqb kind "dir" then Some LinkDir else None);
      decode_rows (Some relative) (<[relative := (canonical, kind)]> links) rows
  end.

Definition decode `{LinkRowsJson} (value : string) : option (gmap string (string * LinkKind)) :=
  rows ← rows_from_json value; decode_rows None ∅ rows.

Definition record_followed_links `{LinkRowsJson} (meta : Metadatas) (links : list FollowedLink) : Metadatas :=
  <[FOLLOWED_LINKS_KEY := encode links]> meta.

Definition RehashUnder : Type := list (string * LinkKind).

Definition link_kind_eqb (a b : LinkKind) : bool :=
  match a, b with LinkFile, LinkFile | LinkDir, LinkDir => true | _, _ => false end.

Definition compare_links (recorded : option (gmap string (string * LinkKind))) (current : list FollowedLink)
    : RehashUnder :=
  map (fun link => (fl_relative link, fl_kind link))
    (filter (fun link =>
       match recorded with
       | None => true
       | Some recorded =>
           match recorded !! fl_relative link with
           | Some (canonical, kind) =>
               negb (path_eqb canonical (absolute (fl_canonical link)) && link_kind_eqb kind (fl_kind link))
           | None => true
           end
       end = true) current).

Definition for_scan `{LinkRowsJson} (meta : Metadatas) (current : list FollowedLink) : RehashUnder :=
  compare_links (meta !! FOLLOWED_LINKS_KEY ≫= decode) current.

Definition covers (self : RehashUnder) (relative : string) : bool :=
  existsb (fun '(link, kind) =>
    match kind with
    | LinkFile => String.eqb relative link
    | LinkDir =>
        String.eqb relative link
        || match str_strip_prefix link relative with Some rest => starts_with rest "/" | None => false end
    end) self.

(** ** The disk *)

Inductive Place : Set := PDir (canonical : list string) | PFile (canonical : list string) | POther.

(** Where a path leads from a directory, links followed. *)
Fixpoint resolve (fs : Fs) (dir path : list string) : option Place :=
  match path with
  | [] => Some (PDir dir)
  | name :: rest =>
      match entry_kind fs dir name with
      | Some KDir => resolve fs (dir ++ [name]) rest
      | Some KFile => match rest with [] => Some (PFile (dir ++ [name])) | _ => None end
      | Some KOther => match rest with [] => Some POther | _ => None end
      | Some KLink =>
          match link_target fs (dir ++ [name]), rest with
          | TDir c, _ => resolve fs c rest
          | TFile c, [] => Some (PFile c)
          | _, _ => None
          end
      | None => None
      end
  end.

(** What is on disk: the tree, the project's root in it, the files' contents
    by their canonical paths, and the stat of what is no regular file. *)
Record Disk : Type := mkDisk {
  dk_fs : Fs;
  dk_root : list string;
  dk_files : gmap (list string) FileData;
  dk_special : string -> N * Z
}.

Definition place_of (d : Disk) (relative : string) : option Place :=
  resolve (dk_fs d) (dk_root d) (normal_components relative).

Definition exists_in (d : Disk) (relative : string) : bool :=
  match place_of d relative with Some _ => true | None => false end.

Definition view_at (d : Disk) (relative : string) : ReadView :=
  match place_of d relative with
  | Some (PFile c) =>
      match dk_files d !! c with
      | Some f => view_of_file f
      | None => mkView (Err OsError) (Err OsError) (Err OsError) (Err OsError)
      end
  | Some _ =>
      let '(len, time) := dk_special d relative in
      let m : result IoError Metadata := Ok (mkMetadata false len time) in mkView m m (Err OsError) m
  | None => mkView (Err OsError) (Err OsError) (Err OsError) (Err OsError)
  end.

(** [symlink_metadata(..).is_ok_and(..)]; a trailing slash follows a link. *)
Definition is_symlink_or_dir (d : Disk) (relative : string) : bool :=
  let comps := normal_components relative in
  match last comps with
  | None => true
  | Some name =>
      if ends_with relative "/" then match place_of d relative with Some (PDir _) => true | _ => false end
      else match resolve (dk_fs d) (dk_root d) (removelast comps) with
           | Some (PDir dir) =>
               match entry_kind (dk_fs d) dir name with Some KLink | Some KDir => true | _ => false end
           | _ => false
           end
  end.

(** ** The scope of an index *)

Record ExtractOptions : Type := mkOptions {
  eo_ignore_dirs : list string;
  eo_ignore_paths : list string;
  eo_include : list string;
  eo_exclude : list string;
  eo_max_file_size : N;
  eo_extensions : gmap string Language
}.

(** The options, the bytes of the root's [.gitignore], the repository's exclude
    file, and the reserved roots inside the project. *)
Record Scope : Type := mkScope' {
  sc_options : ExtractOptions;
  sc_gitignore : option string;
  sc_exclude : option string;
  sc_reserved : list (list string)
}.

(** What the fingerprint hashes. *)
Record ScopeIdentity : Type := mkIdentity {
  si_options : ExtractOptions;
  si_gitignore : string;
  si_repository_exclude : string;
  si_reserved : list (list string)
}.

(** The hash of a text (SHA-256), the printer of the identity's JSON, and the
    rules that the [ignore] crate builds from the lines of two texts. *)
Class ScopeEnv := {
  hash_content : string -> string;
  identity_to_json : ScopeIdentity -> string;
  build_gitignore : list string -> RootGitignore
}.

Section Scope.
Context `{ScopeEnv}.

Definition scope_fingerprint (sc : Scope) : string :=
  hash_content (identity_to_json (mkIdentity (sc_options sc)
    (hash_content (from_utf8_lossy (default "" (sc_gitignore sc))))
    (hash_content (default "" (sc_exclude sc))) (sc_reserved sc))).

(** [RootGitignore::load]. *)
Definition load_gitignore (sc : Scope) : RootGitignore :=
  let gitignore := text ← sc_gitignore sc ≫= from_utf8;
                   if str_contains "000"%char text then None else Some text in
  build_gitignore (concat (map lines (omap id [sc_exclude sc; gitignore]))).

(** The rules of a scan, over what exists under the root. *)
Definition rules_of (sc : Scope) (exists_ : string -> bool) : ScanRules :=
  let o := sc_options sc in
  mkScanRules (eo_ignore_dirs o) (sc_reserved sc) [eo_ignore_paths o; eo_exclude o] (load_gitignore sc)
    (mkIncludeSet (eo_include o) (eo_exclude o)) (mkOverrides (eo_extensions o) (Some exists_)).

End Scope.

(** ** The inventory (sync.rs) *)

Record PendingChanges : Set := mkChanged { added : list string; modified : list string; removed : list string }.

Definition nothing_pending : PendingChanges := mkChanged [] [] [].
Definition push_added (r : string) (p : PendingChanges) := mkChanged (added p ++ [r]) (modified p) (removed p).
Definition push_modified (r : string) (p : PendingChanges) := mkChanged (added p) (modified p ++ [r]) (removed p).
Definition push_removed (r : string) (p : PendingChanges) := mkChanged (added p) (modified p) (removed p ++ [r]).

Definition sort_pending (p : PendingChanges) : PendingChanges :=
  mkChanged (sort_by str_le (added p)) (sort_by str_le (modified p)) (sort_by str_le (removed p)).

Inductive PendingError : Set := ScanFailed (dir : list string) | ReadFailed (relative : string) (e : IoError).

Definition reading {A} (relative : string) (r : result IoError A) : result PendingError A :=
  match r with Ok a => Ok a | Err e => Err (ReadFailed relative e) | OutOfFuel => OutOfFuel end.

(** [u64 as i64]. *)
Definition as_i64 (n : N) : Z := let m := (Z.of_N n mod 2 ^ 64)%Z in if (m <? 2 ^ 63)%Z then m else (m - 2 ^ 64)%Z.

Definition same_stat (stored : FileRecord) (m : Metadata) : bool :=
  (file_size stored =? as_i64 (md_len m))%Z && (file_modified_at stored =? md_modified m)%Z.

Definition scan_of `{ScopeEnv} (d : Disk) (sc : Scope) (blocked : list (list string))
    : result PendingError ScanProjectResult :=
  match scan_project_with_stats (dk_fs d) (rules_of sc (exists_in d)) (dk_root d) (Some (dk_root d)) blocked with
  | Ok r => Ok r
  | Err dir => Err (ScanFailed dir)
  | OutOfFuel => OutOfFuel
  end.

Section Pending.
Context `{ScopeEnv} `{LinkRowsJson} `{SerdeJson}.
Variables (d : Disk) (sc : Scope) (files : gmap string FileRecord) (meta : Metadatas).

#[local] Notation max_size := (eo_max_file_size (sc_options sc)).
#[local] Notation rules := (rules_of sc (exists_in d)).

Definition membership (relative : string) (dir : bool) : Membership :=
  scan_membership (dk_fs d) (dk_root d) rules relative dir.

(** A tracked file whose stat says nothing is read. *)
Definition read_again (stored : FileRecord) (relative : string) (p : PendingChanges)
    : result PendingError PendingChanges :=
  '(_, source) ← reading relative (read_source_file (view_at d relative) relative max_size);
  match hash_input source with
  | None => Ok (push_removed relative p)
  | Some input => if String.eqb (file_content_hash stored) (hash_content input) then Ok p else Ok (push_modified relative p)
  end.

Definition inventory_step (rehash : RehashUnder) (p : PendingChanges) (relative : string)
    : result PendingError (loop_step PendingChanges) :=
  match files !! relative with
  | None =>
      reading relative (is_source_file (view_at d relative) relative max_size) ≫= fun source : bool =>
      Ok (Continue (if source then push_added relative p else p))
  | Some stored =>
      reading relative (rv_stat (view_at d relative)) ≫= fun metadata =>
      if same_stat stored metadata && negb (covers rehash relative) then Ok (Continue p) else
      p ← read_again stored relative p;
      Ok (Continue p)
  end.

(** [full_inventory]; [tracked.keys()] are in order. *)
Definition full_inventory (blocked : list (list string)) : result PendingError PendingChanges :=
  scan ← scan_of d sc blocked;
  let rehash := for_scan meta (sr_links scan) in
  let on_disk := sr_files scan in
  p ← for_M (inventory_step rehash) nothing_pending on_disk;
  let gone := filter (fun relative => relative ∉ on_disk) (in_order (dom files)) in
  Ok (sort_pending (mkChanged (added p) (modified p) (removed p ++ gone))).

(** ** Git (git_pending.rs) *)

(** What a query asks of the system: git's output for its arguments, whether an
    absolute path exists, [GIT_ATTR_NOSYSTEM], and the project's root. *)
Record GitEnv : Type := mkGit {
  ge_git : list string -> option string;
  ge_exists : string -> bool;
  ge_attr_nosystem : option string;
  ge_root : string
}.

(** [Path::join], [PathBuf::push]. *)
Definition path_join (a b : string) : string :=
  if is_absolute b then b
  else if String.eqb a "" || ends_with a "/" then a +:+ b else a +:+ "/" +:+ b.

Record Repo : Set := mkRepo {
  repo_head : string;
  repo_prefix : string;
  repo_toplevel : string;
  repo_common_dir : string
}.

Definition REV_PARSE_ARGS : list string :=
  ["rev-parse"; "HEAD"; "--show-prefix"; "--show-toplevel"; "--git-common-dir"].
Definition STATUS_ARGS : list string :=
  ["status"; "--porcelain=v1"; "-z"; "--no-renames"; "-uall"; "--ignore-submodules=none"; "--"; "."].
Definition DIFF_ARGS (commit : string) : list string :=
  ["diff"; "--name-status"; "--no-renames"; "--no-relative"; "-z"; "--ignore-submodules=none"; commit; "HEAD"; "--"; "."].
Definition CONFIG_ARGS : list string := ["config"; "--list"; "-z"].
Definition ATTRIBUTES_ARGS : list string :=
  ["ls-files"; "--full-name"; "-z"; "--cached"; "--others"; "--exclude-standard"; "--"; ":(glob)**/.gitattributes"].
Definition INDEX_ARGS : list string := ["ls-files"; "-s"; "-v"; "-z"; "--full-name"; "--"; "."].
Definition IGNORED_ARGS : list string :=
  ["ls-files"; "--full-name"; "-z"; "--others"; "--ignored"; "--exclude-standard"; "--directory"; "--"; "."].

Definition Repo_read (g : GitEnv) : option Repo :=
  out ← ge_git g REV_PARSE_ARGS;
  text ← from_utf8 out;
  match lines text with
  | head :: prefix :: toplevel :: common :: _ =>
      if String.eqb (trim head) "" then None
      else Some (mkRepo (trim head) prefix toplevel (path_join (ge_root g) common))
  | _ => None
  end.

Definition rebase (self : Repo) (path : string) : option string :=
  match str_strip_prefix (repo_prefix self) path with
  | Some EmptyString | None => None
  | rest => rest
  end.

Definition NUL : ascii := "000"%char.

Definition nul_fields (out : string) : list string :=
  map from_utf8_lossy (filter (fun field => field <> "") (split_on NUL out)).

(** [s.get(n..)]. *)
Definition get_from (n : nat) (s : string) : option string :=
  if String.length s <? n then None
  else match byte_at n s with
       | Some b => if is_continuation b then None else Some (str_drop n s)
       | None => Some (str_drop n s)
       end.

Definition status_paths (g : GitEnv) (repo : Repo) : option (gset string) :=
  out ← ge_git g STATUS_ARGS;
  paths ← mapM (get_from 3) (nul_fields out);
  Some (list_to_set (omap (rebase repo) paths)).

(** [fields.chunks(2)], the second of each. *)
Fixpoint seconds (fields : list string) : option (list string) :=
  match fields with
  | [] => Some []
  | [_] => None
  | _ :: path :: fields => paths ← seconds fields; Some (path :: paths)
  end.

Definition committed_paths (g : GitEnv) (repo : Repo) (commit : string) : option (gset string) :=
  out ← ge_git g (DIFF_ARGS commit);
  paths ← seconds (nul_fields out);
  Some (list_to_set (omap (rebase repo) paths)).

(** [trim_end_matches(['\r', '\n'])]. *)
Fixpoint trim_newlines (s : string) : string :=
  match s with
  | EmptyString => EmptyString
  | String a s =>
      let s := trim_newlines s in
      if String.eqb s "" && (Ascii.eqb a NEWLINE || Ascii.eqb a CARRIAGE_RETURN) then "" else String a s
  end.

Definition attributes_file_applies (g : GitEnv) (var : string) : bool :=
  match ge_git g ["var"; var] with
  | None => true
  | Some out =>
      let path := trim_newlines (from_utf8_lossy out) in
      negb (String.eqb path "") && ge_exists g path
  end.

Definition ancestor_attributes_exist (g : GitEnv) (repo : Repo) : bool :=
  let segments := filter (fun s => s <> "") (split_on SLASH (repo_prefix repo)) in
  existsb (fun depth =>
      ge_exists g (path_join (fold_left path_join (take depth segments) (repo_toplevel repo)) ".gitattributes"))
    (seq 0 (length segments)).

Definition is_one_of (l : list string) (s : string) : bool := bool_decide (s ∈ l).

(** The last value of each key. *)
Definition effective_config (config : string) : gmap string string :=
  fold_left (fun m entry =>
      let '(key, value) := default (entry, "") (split_once NEWLINE entry) in
      <[to_ascii_lowercase key := to_ascii_lowercase (trim value)]> m) (nul_fields config) ∅.

Definition risky_setting (key value : string) : bool :=
  let truthy := String.eqb value "" || is_one_of ["true"; "yes"; "on"; "1"] value in
  let falsy := is_one_of ["false"; "no"; "off"; "0"] value in
  if String.eqb key "core.autocrlf" then negb falsy
  else if is_one_of ["core.ignorecase"; "core.precomposeunicode"] key then truthy
  else if String.eqb key "core.attributesfile" then negb (String.eqb value "")
  else false.

Definition conversion_risk (g : GitEnv) (repo : Repo) : option bool :=
  config ← ge_git g CONFIG_ARGS;
  if existsb (fun kv => risky_setting kv.1 kv.2) (map_to_list (effective_config config)) then Some true else
  let system_disabled := match ge_attr_nosystem g with
                         | Some value => negb (is_one_of [""; "0"; "false"; "no"; "off"] value)
                         | None => false
                         end in
  if negb system_disabled && attributes_file_applies g "GIT_ATTR_SYSTEM" then Some true else
  if attributes_file_applies g "GIT_ATTR_GLOBAL"
     || ge_exists g (path_join (path_join (repo_common_dir repo) "info") "attributes")
     || ancestor_attributes_exist g repo
  then Some true else
  attributes ← ge_git g ATTRIBUTES_ARGS;
  Some (match nul_fields attributes with [] => false | _ => true end).

Record IndexFlags : Set := mkFlags { submodules : bool; hidden_changes : bool }.

Definition index_flags (g : GitEnv) (repo : Repo) : option IndexFlags :=
  out ← ge_git g INDEX_ARGS;
  fields ← mapM (fun entry => match split_on " " entry with tag :: mode :: _ => Some (tag, mode) | _ => None end)
             (nul_fields out);
  Some (mkFlags
    (ge_exists g (path_join (repo_toplevel repo) ".gitmodules") || existsb (fun f => String.eqb f.2 "160000") fields)
    (existsb (fun f => String.eqb f.1 "S" || all_bytes byte_is_lower f.1) fields)).

(** *** What may hide a theme's marker (shopify_themes.rs, shopify.rs) *)

Definition SHOPIFY_THEMES_ROW_KEY : string := "shopify_themes".

Definition is_shopify_json_folder (name : string) : bool :=
  existsb (eq_ignore_ascii_case name) SHOPIFY_JSON_FOLDERS.

Definition json_folders_of (theme : string) : list string :=
  match place_of d theme with
  | Some (PDir c) =>
      sort_by str_le
        (map (fun name => if String.eqb theme "" then name else theme +:+ "/" +:+ name)
           (filter (fun name => is_shopify_json_folder name = true)
              (map fst (filter (fun e => e.2 = KDir) (default [] (fs_dirs (dk_fs d) !! c))))))
  | _ => []
  end.

Definition may_hide_a_marker (entry : string) : bool :=
  let theme := match str_strip_suffix entry "/" with
               | Some dir =>
                   let '(parent, name) := default ("", dir) (rsplit_once SLASH dir) in
                   if is_shopify_marker_folder name then Some parent else None
               | None => shopify_marker_theme entry
               end in
  match theme with
  | Some theme => match json_folders_of theme with [] => false | _ => true end
  | None => false
  end.

Definition a_recorded_theme_lost_its_marker : bool :=
  match meta !! SHOPIFY_THEMES_ROW_KEY ≫= strings_from_json with
  | None => false
  | Some roots => existsb (fun theme => negb (is_shopify_theme theme (exists_in d))) roots
  end.

(** Whether an entry that git ignores says that git may miss a change. *)
Definition ignored_entry_risk (relative : string) : bool :=
  bool_decide (file_name relative = Some ".gitattributes") || may_hide_a_marker relative
  || match (match str_strip_suffix relative "/" with
            | Some dir => membership dir true
            | None => membership relative false
            end) with
     | MRejected => false
     | _ => true
     end.

Definition ignored_paths (g : GitEnv) (repo : Repo) : option (list string) :=
  out ← ge_git g IGNORED_ARGS; Some (omap (rebase repo) (nul_fields out)).

Definition ignores_scanned_path (g : GitEnv) (repo : Repo) : option bool :=
  entries ← ignored_paths g repo; Some (existsb ignored_entry_risk entries).

(** *** The record *)

Definition GIT_PENDING_KEY : string := "git_pending_state".
Definition RECORD_VERSION : N := 1.

Record GitRecord : Set := mkGitRecord {
  gr_v : N;
  gr_commit : string;
  gr_dirty : list string;
  gr_scope : string;
  gr_links : bool;
  gr_submodules : bool
}.

End Pending.

Class GitRecordJson := {
  record_to_json : GitRecord -> string;
  record_from_json : string -> option GitRecord
}.
Class GitRecordJsonLaws `{GitRecordJson} := {
  record_json_roundtrip r : record_from_json (record_to_json r) = Some r
}.

Section Fast.
Context `{ScopeEnv} `{LinkRowsJson} `{SerdeJson} `{GitRecordJson}.

(** [GitIndexCapture]. *)
Record GitIndexCapture : Type := mkCapture {
  ca_repo : Repo;
  ca_status : gset string;
  ca_submodules : bool;
  ca_scope : string
}.

(** [GitIndexCapture::begin]. *)
Definition begin_capture (g : GitEnv) (sc : Scope) : option GitIndexCapture :=
  repo ← Repo_read g;
  status ← status_paths g repo;
  flags ← index_flags g repo;
  Some (mkCapture repo status (submodules flags) (scope_fingerprint sc)).

(** A row whose file still has the stat that was stored. *)
Definition row_unchanged (d : Disk) (path : string) (file : FileRecord) : bool :=
  match rv_stat (view_at d path) with Ok m => same_stat file m | _ => false end.

(** [GitIndexCapture::record]. *)
Definition record (self : GitIndexCapture) (g : GitEnv) (d : Disk) (sc : Scope) (files : gmap string FileRecord)
    (meta : Metadatas) (links_followed : bool) (blocked : list (list string)) : result PendingError Metadatas :=
  match (if String.eqb (scope_fingerprint sc) (ca_scope self) then status_paths g (ca_repo self) else None) with
  | None => Ok (delete GIT_PENDING_KEY meta)
  | Some after =>
      let moved := dom (filter (fun f => row_unchanged d f.1 f.2 = false) files) in
      fresh ← scan_of d sc blocked;
      let fresh : gset string := list_to_set (sr_files fresh) in
      let stored_paths := dom files in
      let dirty := ca_status self ∪ after ∪ moved ∪ ((fresh ∖ stored_paths) ∪ (stored_paths ∖ fresh)) in
      Ok (<[GIT_PENDING_KEY := record_to_json
              (mkGitRecord RECORD_VERSION (repo_head (ca_repo self)) (in_order dirty) (ca_scope self)
                 links_followed (ca_submodules self))]> meta)
  end.

Definition read_record (meta : Metadatas) : option GitRecord := meta !! GIT_PENDING_KEY ≫= record_from_json.

Definition forget (meta : Metadatas) : Metadatas := delete GIT_PENDING_KEY meta.

Definition extend_for_incremental (sc : Scope) (meta : Metadatas) (requested : gset string) : Metadatas :=
  match read_record meta with
  | Some r =>
      if (gr_v r =? RECORD_VERSION)%N && String.eqb (gr_scope r) (scope_fingerprint sc) then
        <[GIT_PENDING_KEY := record_to_json
            (mkGitRecord (gr_v r) (gr_commit r) (in_order (list_to_set (gr_dirty r) ∪ requested)) (gr_scope r)
               (gr_links r) (gr_submodules r))]> meta
      else forget meta
  | None => forget meta
  end.

(** The loop over the candidates; [None] leaves the answer to the inventory. *)
Fixpoint classify_candidates (d : Disk) (sc : Scope) (files : gmap string FileRecord) (candidates : list string)
    (p : PendingChanges) : result PendingError (option PendingChanges) :=
  match candidates with
  | [] => Ok (Some p)
  | relative :: candidates =>
      if is_symlink_or_dir d relative then Ok None else
      let m := membership d sc relative false in
      match m, files !! relative with
      | MUnknown, _ => Ok None
      | MAdmitted, None =>
          reading relative (is_source_file (view_at d relative) relative (eo_max_file_size (sc_options sc)))
            ≫= fun source : bool =>
          classify_candidates d sc files candidates (if source then push_added relative p else p)
      | MRejected, None => classify_candidates d sc files candidates p
      | MRejected, Some _ => classify_candidates d sc files candidates (push_removed relative p)
      | MAdmitted, Some stored =>
          reading relative (rv_stat (view_at d relative)) ≫= fun metadata =>
          if same_stat stored metadata then classify_candidates d sc files candidates p else
          p ← read_again d sc stored relative p;
          classify_candidates d sc files candidates p
      end
  end.

Definition COMMIT_EXISTS_ARGS (commit : string) : list string := ["cat-file"; "-e"; commit +:+ "^{commit}"].

(** The candidates, if git can name every change: the guards of
    [git_fast_pending] before its loop. *)
Definition git_candidates (g : GitEnv) (d : Disk) (sc : Scope) (meta : Metadatas) : option (gset string) :=
  r ← read_record meta;
  if negb (gr_v r =? RECORD_VERSION)%N || gr_links r || gr_submodules r
     || negb (String.eqb (gr_scope r) (scope_fingerprint sc)) then None else
  repo ← Repo_read g;
  _ ← ge_git g (COMMIT_EXISTS_ARGS (gr_commit r));
  flags ← index_flags g repo;
  if submodules flags || hidden_changes flags then None else
  risk ← conversion_risk g repo;
  if (risk : bool) then None else
  status ← status_paths g repo;
  committed ← committed_paths g repo (gr_commit r);
  if existsb (fun path => ends_with path "/") (elements status) then None else
  hidden ← ignores_scanned_path d sc g repo;
  if (hidden : bool) then None else
  let candidates := status ∪ committed ∪ list_to_set (gr_dirty r) in
  if existsb is_shopify_theme_marker (elements candidates) || a_recorded_theme_lost_its_marker d meta then None
  else Some candidates.

Definition git_fast_pending (g : GitEnv) (d : Disk) (sc : Scope) (files : gmap string FileRecord)
    (meta : Metadatas) : result PendingError (option PendingChanges) :=
  match git_candidates g d sc meta with
  | None => Ok None
  | Some candidates =>
      classify_candidates d sc files (in_order candidates) nothing_pending ≫= fun p : option PendingChanges =>
      Ok (option_map sort_pending p)
  end.

Inductive PendingSource : Set := GitFastPath | FullInventory.

(** [pending_project_changes_detailed]. *)
Definition pending_project_changes_detailed (g : GitEnv) (d : Disk) (sc : Scope) (files : gmap string FileRecord)
    (meta : Metadatas) (blocked : list (list string)) : result PendingError (PendingChanges * PendingSource) :=
  git_fast_pending g d sc files meta ≫= fun fast : option PendingChanges =>
  match fast with
  | Some fast => Ok (fast, GitFastPath)
  | None => p ← full_inventory d sc files meta blocked; Ok (p, FullInventory)
  end.

End Fast.
