(* ===== verification/GitPendingFacts.v ===== *)
(** * Facts on pending changes

    A scan that meets no link lists exactly the real files that the rules admit
    by their names, each once; two readings of the rules differ in the themes
    alone; what the inventory finds, path by path. *)
From S2P Require Import Prelude Types Rows Strings PathUtil StrOps LangDetect ScanRules ScanWalk ScanFacts ScanProps WatchTree SourceFile GitPending.

(** ** Names and files *)

(** A real file: directories all the way, and a regular file. *)
Fixpoint real_file (fs : Fs) (c path : list string) : bool :=
  match path with
  | [] => false
  | n :: rest =>
      match entry_kind fs c n, rest with
      | Some KFile, [] => true
      | Some KDir, _ :: _ => real_file fs (c ++ [n]) rest
      | _, _ => false
      end
  end.

(** What the rules say of a file by its path. *)
Fixpoint names_loop (rules : ScanRules) (parent path : list string) (above : GitignoreAncestry) : bool :=
  match path with
  | [] => false
  | [n] =>
      negb (prunes_by_name rules parent n (join_slash (parent ++ [n])) false)
      && match decide_entry rules (join_slash (parent ++ [n])) false above with File true => true | _ => false end
  | n :: rest =>
      negb (prunes_by_name rules parent n (join_slash (parent ++ [n])) true)
      && match decide_entry rules (join_slash (parent ++ [n])) true above with
         | Descend next => names_loop rules (parent ++ [n]) rest next
         | _ => false
         end
  end.

Definition names_admit (rules : ScanRules) (path : list string) : bool := names_loop rules [] path ancestry_default.

Section Names.
Variables (fs : Fs) (croot : list string) (rules : ScanRules).

Lemma memb_real parent path above :
  path <> [] -> real_file fs (croot ++ parent) path = true ->
  membership_loop fs croot rules parent path false above
  = if names_loop rules parent path above then MAdmitted else MRejected.
Proof.
  revert parent above. induction path as [|n path IH]; intros parent above Hne Hreal; [done|].
  cbn [membership_loop real_file names_loop] in *.
  destruct (entry_kind fs (croot ++ parent) n) as [k|] eqn:Hk; [|done].
  destruct path as [|m path].
  - destruct k; try done. rewrite (bool_decide_eq_true_2 (@nil string = [])), (bool_decide_eq_false_2 (KFile = KDir)) by done.
    rewrite (bool_decide_eq_true_2 (KFile = KFile)) by done. cbn [andb negb].
    destruct (prunes_by_name rules _ _ _ _); [done|]. cbn [andb negb].
    by destruct (decide_entry rules _ _ _) as [|?|[|]].
  - destruct k; try done. rewrite !(bool_decide_eq_false_2 (m :: path = [])) by done. cbn [andb negb].
    rewrite (bool_decide_eq_true_2 (KDir = KDir)) by done.
    destruct (prunes_by_name rules _ _ _ _); [done|]. cbn [negb andb].
    destruct (decide_entry rules _ _ _) as [|next|]; [done| |done].
    rewrite IH; [done|done|]. by rewrite app_assoc.
Qed.

Lemma memb_admitted parent path above :
  path <> [] -> membership_loop fs croot rules parent path false above = MAdmitted ->
  real_file fs (croot ++ parent) path = true /\ names_loop rules parent path above = true.
Proof.
  intros Hne Hm. assert (Hreal : real_file fs (croot ++ parent) path = true).
  { revert parent above Hne Hm. induction path as [|n path IH]; intros parent above Hne Hm; [done|].
    cbn [membership_loop real_file] in *. destruct (entry_kind fs (croot ++ parent) n) as [k|]; [|done].
    destruct path as [|m path]; destruct k; try done;
      (destruct (prunes_by_name rules _ _ _ _); [done|]);
      cbn -[prunes_by_name decide_entry join_slash membership_loop real_file bool_decide] in *; try done.
    all: repeat (case_match; try done).
    rewrite <- app_assoc. by eapply IH. }
  split; [done|]. rewrite memb_real in Hm by done. by destruct (names_loop rules _ _ _).
Qed.

(** A rejected directory rejects what is below it. *)
Lemma memb_below parent d rest above :
  d <> [] -> rest <> [] -> membership_loop fs croot rules parent d true above = MRejected ->
  membership_loop fs croot rules parent (d ++ rest) false above = MRejected.
Proof.
  revert parent above. induction d as [|n d IH]; intros parent above Hd Hr Hm; [done|]. cbn [membership_loop app] in *.
  assert (Hne : d ++ rest <> []) by (by destruct d, rest).
  destruct (entry_kind fs (croot ++ parent) n) as [k|]; [|done].
  rewrite (bool_decide_eq_false_2 (d ++ rest = [])) by done. rewrite andb_false_r in Hm. cbn [andb negb] in *.
  destruct k; try done; destruct (prunes_by_name rules _ _ _ _); try done.
  destruct (decide_entry rules _ _ _) as [|next|]; try done.
  destruct d as [|m d]; [done|]. by apply IH.
Qed.

End Names.

Lemma resolve_real fs c path : real_file fs c path = true -> resolve fs c path = Some (PFile (c ++ path)).
Proof.
  revert c. induction path as [|n path IH]; intros c; cbn; [done|].
  destruct (entry_kind fs c n) as [[]|]; try done; destruct path as [|m path]; try done.
  intros H. by rewrite IH, <- app_assoc.
Qed.

(** ** A walk that follows no link *)

Definition linkless (x : Found) : Prop :=
  match x with
  | FLink _ _ _ => False
  | FFile _ e (Some _) => e = false
  | _ => True
  end.

Definition files_of (xs : list Found) : list string :=
  omap (fun x => match x with FFile r true None => Some r | _ => None end) xs.

Lemma fold_linkless xs w :
  Forall linkless xs ->
  let w' := fold_left apply_found xs w in
  sw_followed w' = sw_followed w /\ lw_queue (sw_links w') = lw_queue (sw_links w)
  /\ lw_root (sw_links w') = lw_root (sw_links w) /\ sw_files w' = sw_files w ++ files_of xs.
Proof.
  intros Hxs. revert w. induction Hxs as [|x xs Hx Hxs IH]; intros w; cbn zeta; [by rewrite app_nil_r|].
  cbn [fold_left]. destruct (IH (apply_found w x)) as (-> & -> & -> & ->).
  destruct x as [c r linked|h r k|r e t]; [|done|].
  - cbn. by destruct linked.
  - cbn. unfold scan_file. destruct e.
    + destruct t; [done|]. cbn. by rewrite <- app_assoc.
    + by destruct (unsupported_extension r).
Qed.

Section Linkless.
Variables (fs : Fs) (rules : ScanRules) (croot : list string).
Hypothesis (Hwf : wf_fs fs) (Hplain : plain_fs fs).

#[local] Notation memb := (membership_loop fs croot rules).

(** What the scan takes from a link. *)
Definition link_taken (d : list string) (n : string) : bool :=
  let location := croot ++ d ++ [n] in
  negb (prunes_by_name rules d n (relative_of (d ++ [n])) (resolves_to_dir fs location KLink))
  && match entry_type fs location KLink with
     | None => false
     | Some (is_dir, _) =>
         match decide_entry rules (relative_of (d ++ [n])) is_dir (ancestry_of rules [] ancestry_default d) with
         | Skip => false | Descend _ => true | File e => e
         end
     end.

(** The links that the scan comes to lead it nowhere. *)
Definition links_inert : Prop :=
  forall d n, Forall plain_name (d ++ [n]) -> entry_kind fs (croot ++ d) n = Some KLink ->
    memb [] (d ++ [n]) false ancestry_default = MUnknown -> link_taken d n = false.

Lemma ancestry_snoc dir above rest n :
  ancestry_of rules dir above (rest ++ [n])
  = child (ancestry_of rules dir above rest) (matched (gitignore rules) (relative_of (dir ++ rest ++ [n])) true).
Proof.
  revert dir above. induction rest as [|m rest IH]; intros dir above; cbn; [done|].
  rewrite IH. by rewrite <- app_assoc.
Qed.

Lemma found_linkless links0 fuel parent :
  links_inert -> Forall plain_name parent ->
  (forall comps, comps <> [] ->
     memb [] (parent ++ comps) false ancestry_default
     = memb parent comps false (ancestry_of rules [] ancestry_default parent)) ->
  Forall linkless (found fs rules links0 fuel parent (croot ++ parent) (ancestry_of rules [] ancestry_default parent) 0).
Proof.
  intros Hinert. revert parent. induction fuel as [|fuel IH]; intros parent Hpar Hreach; cbn; [constructor|].
  destruct (fs_dirs fs !! (croot ++ parent)) as [entries|] eqn:He; cbn; [|constructor].
  apply Forall_forall. intros x Hx. apply list_elem_of_bind in Hx as ([n k] & Hx & Hin).
  pose proof (pf_names _ Hplain _ _ _ _ He Hin) as Hn. pose proof (entry_kind_in fs Hwf Hplain _ _ _ _ He Hin) as Hk.
  assert (Hpath : Forall plain_name (parent ++ [n])) by (by apply plain_snoc).
  unfold entry_found in Hx. destruct (decide (k = KLink)) as [->|Hkl].
  - assert (Hu : memb [] (parent ++ [n]) false ancestry_default = MUnknown).
    { rewrite Hreach by done. cbn [membership_loop]. by rewrite Hk. }
    specialize (Hinert parent n Hpath Hk Hu). unfold link_taken in Hinert. rewrite app_assoc in Hinert.
    destruct (prunes_by_name rules parent n _ _); [by set_solver|]. cbn [negb andb] in Hinert.
    destruct (entry_type fs ((croot ++ parent) ++ [n]) KLink) as [[is_dir is_link]|] eqn:Hty; [|by set_solver].
    assert (is_link = true) as -> by (unfold entry_type in Hty; by destruct (link_target _ _); simplify_eq).
    destruct (decide_entry _ _ _ _) as [|next|ex]; [by set_solver|done|]. subst ex.
    destruct (file_target _ _ _); [|by set_solver]. by apply list_elem_of_singleton in Hx as ->.
  - rewrite prunes_same in Hx by done.
    destruct (prunes_by_name rules parent n _ _) eqn:Hpr; [by set_solver|].
    destruct k; [| |done|]; cbn [entry_type] in Hx; [| |by set_solver].
    + destruct (decide_entry _ _ _ _) as [|next|ex] eqn:Hdec; [by set_solver|by apply decide_descend in Hdec as [? _]|].
      by apply list_elem_of_singleton in Hx as ->.
    + destruct (decide_entry _ _ _ _) as [|next|ex] eqn:Hdec; [by set_solver| |by apply decide_file in Hdec as [? _]].
      pose proof Hdec as [_ Hnext]%decide_descend. destruct (_ || _); [by set_solver|].
      apply elem_of_cons in Hx as [->|Hx]; [done|].
      assert (Hanc : next = ancestry_of rules [] ancestry_default (parent ++ [n])) by (by rewrite ancestry_snoc).
      rewrite Hanc in Hx. rewrite <- app_assoc in Hx. specialize (IH (parent ++ [n]) Hpath).
      rewrite Forall_forall in IH. apply IH; [|done]. intros comps Hc. rewrite <- app_assoc. cbn [app].
      rewrite Hreach by done. cbn [membership_loop]. rewrite Hk.
      rewrite relative_of_plain in Hpr, Hdec by done.
      rewrite (bool_decide_eq_true_2 (KDir = KDir)) in * by done. rewrite Hpr.
      rewrite (bool_decide_eq_false_2 (comps = [])) by done. cbn [andb negb]. rewrite Hdec.
      by rewrite <- Hanc.
Qed.

(** The files that are found are real, and each is found once. *)
Lemma found_file links0 fuel dir c above hops r e :
  FFile r e None ∈ found fs rules links0 fuel dir c above hops ->
  exists rest, rest <> [] /\ Forall plain_name rest /\ r = relative_of (dir ++ rest) /\ real_file fs c rest = true.
Proof.
  revert dir c above. induction fuel as [|fuel IH]; intros dir c above; cbn; [by set_solver|].
  destruct (fs_dirs fs !! c) as [entries|] eqn:He; cbn; [|by set_solver].
  rewrite list_elem_of_bind. intros ([n k] & Hx & Hin).
  pose proof (pf_names _ Hplain _ _ _ _ He Hin) as Hn. pose proof (entry_kind_in fs Hwf Hplain _ _ _ _ He Hin) as Hk.
  unfold entry_found in Hx. destruct (prunes_by_name _ _ _ _ _); [by set_solver|].
  destruct (entry_type fs (c ++ [n]) k) as [[is_dir is_link]|] eqn:Hty; [|by set_solver].
  destruct (decide_entry _ _ _ _) as [|next|ex] eqn:Hdec; [by set_solver| |].
  - apply decide_descend in Hdec as [-> _]. destruct is_link; [by apply list_elem_of_singleton in Hx|].
    assert (k = KDir) as -> by (unfold entry_type in Hty; destruct k; try done; by destruct (link_target _ _)).
    destruct (_ || _); [by set_solver|]. apply elem_of_cons in Hx as [?|Hx]; [done|].
    destruct (IH _ _ _ Hx) as (rest & Hne & Hp & -> & Hreal). exists (n :: rest).
    split_and!; [done|by constructor|by rewrite <- app_assoc|]. cbn [real_file]. rewrite Hk. by destruct rest.
  - apply decide_file in Hdec as [-> _]. destruct is_link.
    { destruct (file_target _ _ _); [by apply list_elem_of_singleton in Hx|by set_solver]. }
    assert (k = KFile) as -> by (unfold entry_type in Hty; destruct k; try done; by destruct (link_target _ _)).
    apply list_elem_of_singleton in Hx. injection Hx as -> _. exists [n].
    split_and!; [done|by constructor|done|]. cbn. by rewrite Hk.
Qed.

Lemma files_of_in xs r : r ∈ files_of xs <-> FFile r true None ∈ xs.
Proof.
  unfold files_of. rewrite list_elem_of_omap. split.
  - intros (x & Hx & E). destruct x as [| |r' [] []]; try done. by simplify_eq.
  - intros H. by exists (FFile r true None).
Qed.

Lemma found_files_NoDup links0 fuel dir c above hops :
  Forall plain_name dir -> NoDup (files_of (found fs rules links0 fuel dir c above hops)).
Proof.
  revert dir c above. induction fuel as [|fuel IH]; intros dir c above Hdir; cbn; [constructor|].
  destruct (fs_dirs fs !! c) as [entries|] eqn:He; cbn; [|constructor].
  assert (Hsub : forall e, e ∈ entries -> e ∈ entries) by done. revert Hsub.
  pose proof (wf_nodup _ Hwf _ _ He) as Hnd. revert Hnd. generalize entries at 1 2 4. intros l.
  induction l as [|[n k] l IHl]; intros Hnd Hsub; [constructor|]. cbn [map fst] in Hnd. apply NoDup_cons in Hnd as [Hn Hnd].
  change (((n, k) :: l) ≫= ?f) with (f (n, k) ++ (l ≫= f)).
  unfold files_of. rewrite omap_app. fold (files_of). apply NoDup_app.
  assert (Hkey : forall m j r, (m, j) ∈ entries ->
    FFile r true None ∈ entry_found fs rules links0 (fun dir c above => found fs rules links0 fuel dir c above hops) dir c above hops (m, j) ->
    exists rest, Forall plain_name (dir ++ m :: rest) /\ r = relative_of (dir ++ m :: rest)).
  { intros m j r Hin Hx.
    assert (Hf : FFile r true None ∈ found fs rules links0 (S fuel) dir c above hops).
    { cbn. rewrite He. cbn. apply list_elem_of_bind. by exists (m, j). }
    pose proof (pf_names _ Hplain _ _ _ _ He Hin) as Hm.
    unfold entry_found in Hx. destruct (prunes_by_name _ _ _ _ _); [by set_solver|].
    destruct (entry_type _ _ _) as [[is_dir is_link]|]; [|by set_solver].
    destruct (decide_entry _ _ _ _) as [|next|ex]; [by set_solver| |].
    - destruct is_link; [by apply list_elem_of_singleton in Hx|]. destruct (_ || _); [by set_solver|].
      apply elem_of_cons in Hx as [?|Hx]; [done|]. apply found_file in Hx as (rest & _ & Hp & -> & _).
      exists rest. rewrite <- app_assoc. split; [|done]. apply Forall_app. split; [done|]. by constructor.
    - destruct is_link; [destruct (file_target _ _ _); [by apply list_elem_of_singleton in Hx|by set_solver]|].
      apply list_elem_of_singleton in Hx. injection Hx as -> _. exists []. split; [|done]. by apply plain_snoc. }
  split_and!.
  - unfold entry_found. destruct (prunes_by_name _ _ _ _ _); [constructor|].
    destruct (entry_type _ _ _) as [[is_dir is_link]|]; [|constructor].
    destruct (decide_entry _ _ _ _) as [|next|ex]; [constructor| |].
    + destruct is_link; [constructor|]. destruct (_ || _); [constructor|]. cbn. apply IH.
      apply plain_snoc; [done|]. eapply (pf_names _ Hplain); [exact He|]. apply Hsub. by left.
    + destruct is_link; [destruct (file_target _ _ _); [cbn; destruct ex; constructor|constructor]|].
      cbn. destruct ex; [|constructor]. apply NoDup_singleton.
  - intros r Hr1 Hr2. apply files_of_in in Hr1. apply files_of_in in Hr2.
    apply list_elem_of_bind in Hr2 as ([m j] & Hr2 & Hm).
    destruct (Hkey n k r ltac:(apply Hsub; by left) Hr1) as (r1 & Hp1 & ->).
    destruct (Hkey m j _ ltac:(apply Hsub; by right) Hr2) as (r2 & Hp2 & E).
    apply relative_of_inj, app_inv_head in E; [|by destruct dir|by destruct dir|done|done].
    injection E as -> _. apply Hn, list_elem_of_fmap. by exists (m, j).
  - apply IHl; [done|]. intros e H. apply Hsub. by right.
Qed.

(** The whole scan, when links lead it nowhere. *)
Lemma scan_linkless blocked :
  links_inert -> blocked_reserved rules croot blocked -> is_Some (fs_dirs fs !! croot) ->
  exists r, scan_project_with_stats fs rules croot (Some croot) blocked = Ok r
    /\ sr_links r = [] /\ NoDup (sr_files r)
    /\ forall f, f ∈ sr_files r <-> exists path, Forall plain_name path /\ path <> [] /\ f = relative_of path
         /\ real_file fs croot path = true /\ names_admit rules path = true.
Proof.
  intros Hinert Hb Hroot. unfold scan_project_with_stats. change (default croot (Some croot)) with croot. cbv zeta.
  assert (Hres : no_reserved_prefix rules []).
  { intros s Hs _ Hp. apply prefix_nil_inv in Hp. by subst. }
  assert (Hent : enter (sw_links (new_walk (Some croot) blocked)) croot ""
    = (true, add_scanned croot "" (sw_links (new_walk (Some croot) blocked)))).
  { unfold enter. assert (is_blocked (sw_links (new_walk (Some croot) blocked)) croot = false) as ->; [|done].
    rewrite <- (app_nil_r croot). by apply (not_blocked rules). }
  rewrite Hent. set (w := with_links _ _).
  rewrite (scan_dir_found fs rules (sw_links w)); [|done|done|apply deep_enough_depth|done|done].
  cbn [mbind result_bind]. set (xs := found fs rules (sw_links w) (S (depth_of fs)) [] croot ancestry_default 0).
  assert (Hxs : xs = found fs rules (sw_links w) (S (depth_of fs)) [] (croot ++ []) ancestry_default 0)
    by (by rewrite app_nil_r).
  assert (Hless : Forall linkless xs) by (rewrite Hxs; by apply (found_linkless (sw_links w) _ [])).
  destruct (fold_linkless xs w Hless) as (Hf & Hq & Hr & Hfiles).
  cbn [scan_links]. unfold next. rewrite Hr. change (lw_root (sw_links w)) with (Some croot). cbv iota.
  rewrite Hq. change (lw_queue (sw_links w)) with (@nil (Key * QueuedLink)). cbn [next_loop mbind result_bind].
  eexists. split; [done|]. cbn [finish sr_links sr_files with_links sw_followed sw_files]. rewrite Hf, Hfiles.
  split_and!; [done| |].
  - rewrite sort_by_perm. by apply found_files_NoDup.
  - intros f. rewrite elem_of_sort_by. change (sw_files w) with (@nil string). cbn [app]. rewrite files_of_in. split.
    + intros Hx. rewrite Hxs in Hx. pose proof (first_item_ok fs rules croot Hwf Hplain _ _ _ Hx eq_refl) as (p & Hp & Hpne & Ep & Hm).
      apply found_file in Hx as (path & Hne & Hpath & -> & Hreal). cbn [app] in *.
      apply relative_of_inj in Ep; [|done..]. subst p. exists path. split_and!; try done.
      { by rewrite app_nil_r in Hreal. }
      rewrite memb_real in Hm by done. unfold names_admit. by destruct (names_loop _ _ _ _).
    + intros (path & Hp & Hne & -> & Hreal & Hn).
      rewrite Hxs. change path with ([] ++ path) at 1. apply (memb_complete fs rules croot); try done.
      * intros p Hpne. cbn. rewrite lookup_insert_ne; [done|].
        intros E. rewrite <- (app_nil_r croot) in E at 1. by apply app_inv_head in E.
      * rewrite app_nil_r. apply deep_enough_depth.
      * rewrite memb_real; [|done|by rewrite app_nil_r].
        unfold names_admit in Hn. by destruct (names_loop _ _ _ _).
Qed.

End Linkless.

(** ** Paths of plain names *)

Definition plain_path (f : string) : Prop :=
  exists path, path <> [] /\ Forall plain_name path /\ f = relative_of path.

Lemma normal_plain path : path <> [] -> Forall plain_name path -> normal_components (relative_of path) = path.
Proof.
  intros Hne Hp. unfold normal_components. rewrite split_relative_of by done. clear Hne.
  induction Hp as [|n l (H1 & _ & _ & H2 & _) Hl IH]; [done|]. by rewrite filter_cons_True, IH.
Qed.

Lemma plain_components f : plain_path f -> f = relative_of (normal_components f)
  /\ normal_components f <> [] /\ Forall plain_name (normal_components f).
Proof. intros (path & Hne & Hp & ->). by rewrite normal_plain. Qed.

Lemma normalize_plain f : plain_path f -> normalize_path f = f.
Proof.
  intros (path & Hne & Hp & ->). unfold normalize_path. rewrite normal_plain, split_relative_of by done.
  assert (is_absolute (relative_of path) = false) as ->.
  { rewrite relative_of_plain by done. destruct path as [|n l]; [done|].
    apply Forall_cons in Hp as [(H1 & H2 & _) _]. destruct n as [|a n]; [done|]. cbn in H2.
    apply orb_false_iff in H2 as [H2 _]. change (join_slash (String a n :: l)) with (String.concat "/" (String a n :: l)).
    assert (exists t, String.concat "/" (String a n :: l) = String a t) as [t ->] by (destruct l; cbn; eauto).
    unfold is_absolute, starts_with. cbn [str_strip_prefix]. rewrite Ascii.eqb_sym. change "/"%char with SLASH. by rewrite H2. }
  destruct path as [|n l]; [done|]. apply Forall_cons in Hp as [(_ & _ & _ & Hdot & _) Hl].
  destruct (decide (n = ".")) as [->|Hd]; [done|].
  assert (forall A (x y : A), match n with "." => x | _ => y end = y) as Hm.
  { intros A x y. by repeat (case_match; subst; try done). }
  change (str_replace BACKSLASH SLASH (match n with "." => join_slash ("." :: n :: l) | _ => join_slash (n :: l) end)
    = relative_of (n :: l)).
  by rewrite Hm.
Qed.

(** ** Two readings of the rules *)

Lemma extractable_mono f ov1 ov2 :
  plain_path f -> ov_map ov1 = ov_map ov2 ->
  (is_shopify_liquid_json f (ov_exists ov1) = true -> is_shopify_liquid_json f (ov_exists ov2) = true) ->
  is_extractable_source_path f ov1 = true -> is_extractable_source_path f ov2 = true.
Proof.
  intros Hf Hmap Hmono. unfold is_extractable_source_path, detect_language_with, is_embedded_source_path.
  rewrite normalize_plain by done.
  destruct (is_shopify_liquid_json f (ov_exists ov2)) eqn:E2; cbn [has_spec]; [by rewrite orb_true_r|].
  destruct (is_shopify_liquid_json f (ov_exists ov1)) eqn:E1; [by specialize (Hmono eq_refl)|].
  by rewrite Hmap.
Qed.

Lemma relative_of_cons_plain parent n : Forall plain_name (parent ++ [n]) -> plain_path (join_slash (parent ++ [n])).
Proof. intros Hp. exists (parent ++ [n]). split_and!; [by destruct parent|done|]. by rewrite relative_of_plain. Qed.

Lemma names_loop_mono `{ScopeEnv} sc ex1 ex2 parent path above :
  Forall plain_name (parent ++ path) ->
  (is_shopify_liquid_json (join_slash (parent ++ path)) (Some ex1) = true ->
   is_shopify_liquid_json (join_slash (parent ++ path)) (Some ex2) = true) ->
  names_loop (rules_of sc ex1) parent path above = true -> names_loop (rules_of sc ex2) parent path above = true.
Proof.
  revert parent above. induction path as [|n path IH]; intros parent above Hp Hm; [done|]. cbn [names_loop].
  destruct path as [|m path].
  - intros [Hpr Hd]%andb_true_iff. apply andb_true_iff. split; [done|]. unfold decide_entry in *. cbn [rules_of overrides gitignore pattern_sets include] in *.
    destruct (_ || _); [|done].
    destruct (is_extractable_source_path _ (mkOverrides _ (Some ex1))) eqn:E1; [|done].
    erewrite (extractable_mono _ _ (mkOverrides _ (Some ex2))); [done|..|exact E1]; [by apply relative_of_cons_plain|done|done].
  - intros [Hpr Hd]%andb_true_iff. apply andb_true_iff. split; [done|].
    change (decide_entry (rules_of sc ex1) (join_slash (parent ++ [n])) true above)
      with (decide_entry (rules_of sc ex2) (join_slash (parent ++ [n])) true above) in Hd.
    destruct (decide_entry _ _ true _) as [|next|]; [done| |done].
    apply IH; [by rewrite <- app_assoc|by rewrite <- app_assoc|done].
Qed.

(** ** What a path is to the next sync *)

Inductive Verdict : Set := VNone | VAdded | VModified | VRemoved.

#[export] Instance Verdict_eq_dec : EqDecision Verdict.
Proof. solve_decision. Defined.

Definition push_verdict (v : Verdict) (r : string) (p : PendingChanges) : PendingChanges :=
  match v with VNone => p | VAdded => push_added r p | VModified => push_modified r p | VRemoved => push_removed r p end.

Lemma push_verdicts (v : string -> Verdict) l p :
  fold_left (fun p r => push_verdict (v r) r p) l p
  = mkChanged (added p ++ filter (fun r => v r = VAdded) l) (modified p ++ filter (fun r => v r = VModified) l)
      (removed p ++ filter (fun r => v r = VRemoved) l).
Proof.
  revert p. induction l as [|r l IH]; intros p; cbn [fold_left].
  { rewrite !filter_nil, !app_nil_r. by destruct p. }
  rewrite IH. rewrite !filter_cons. destruct (v r); cbn [push_verdict push_added push_modified push_removed added modified removed];
    repeat case_decide; try done; by rewrite <- app_assoc.
Qed.

(** The contents at a path, links followed. *)
Definition data_at (d : Disk) (f : string) : option FileData :=
  match place_of d f with Some (PFile c) => dk_files d !! c | _ => None end.

Lemma view_of_data d f fd : data_at d f = Some fd -> view_at d f = view_of_file fd.
Proof. unfold data_at, view_at. destruct (place_of d f) as [[]|]; try done. by intros ->. Qed.

(** What a state of the disk promises. *)
Record wf_disk `{ScopeEnv} (d : Disk) (sc : Scope) (blocked : list (list string)) : Prop := {
  wd_fs : wf_fs (dk_fs d);
  wd_plain : plain_fs (dk_fs d);
  wd_root : is_Some (fs_dirs (dk_fs d) !! dk_root d);
  wd_data path : real_file (dk_fs d) (dk_root d) path = true -> is_Some (dk_files d !! (dk_root d ++ path));
  wd_max : (eo_max_file_size (sc_options sc) <= U64_MAX)%N;
  wd_blocked : blocked_reserved (rules_of sc (exists_in d)) (dk_root d) blocked
}.

Section Verdicts.
Context `{ScopeEnv} `{LinkRowsJson}.
Variables (d : Disk) (sc : Scope) (files : gmap string FileRecord) (meta : Metadatas) (blocked : list (list string)).
Hypothesis Hwf : wf_disk d sc blocked.

#[local] Notation max_size := (eo_max_file_size (sc_options sc)).

Definition admitted (f : string) : bool :=
  match membership d sc f false with MAdmitted => true | _ => false end.

Definition verdict (f : string) : Verdict :=
  match files !! f, admitted f, data_at d f with
  | None, true, Some fd => match text_of (fd_bytes fd) f max_size with MpegTransportStream => VNone | _ => VAdded end
  | Some stored, true, Some fd =>
      if same_stat stored (metadata_of fd) then VNone else
      match hash_input (text_of (fd_bytes fd) f max_size) with
      | None => VRemoved
      | Some input => if String.eqb (file_content_hash stored) (hash_content input) then VNone else VModified
      end
  | Some _, _, _ => VRemoved
  | None, _, _ => VNone
  end.

Lemma admitted_real f : plain_path f ->
  admitted f = real_file (dk_fs d) (dk_root d) (normal_components f)
               && names_admit (rules_of sc (exists_in d)) (normal_components f).
Proof.
  intros (path & Hne & Hp & ->). unfold admitted, membership. rewrite scan_membership_plain, normal_plain by done.
  destruct (real_file _ _ _) eqn:Hr; cbn [andb].
  - rewrite memb_real; [|done|by rewrite app_nil_r]. unfold names_admit. by destruct (names_loop _ _ _ _).
  - destruct (membership_loop _ _ _ _ _ _ _) eqn:Hm; try done. apply memb_admitted in Hm as [Hm _]; [|done].
    rewrite app_nil_r in Hm. by rewrite Hm in Hr.
Qed.

Lemma real_data f : plain_path f -> real_file (dk_fs d) (dk_root d) (normal_components f) = true ->
  data_at d f = dk_files d !! (dk_root d ++ normal_components f) /\ is_Some (data_at d f).
Proof.
  intros Hf Hr. unfold data_at, place_of. rewrite (resolve_real _ _ _ Hr). split; [done|]. by apply (wd_data _ _ _ Hwf).
Qed.

Lemma admitted_data f : plain_path f -> admitted f = true -> exists fd, data_at d f = Some fd.
Proof. intros Hf. rewrite admitted_real by done. intros [Hr _]%andb_true_iff. by apply real_data. Qed.

Lemma read_again_data stored f p fd :
  data_at d f = Some fd ->
  read_again d sc stored f p
  = Ok (push_verdict (match hash_input (text_of (fd_bytes fd) f max_size) with
                      | None => VRemoved
                      | Some input => if String.eqb (file_content_hash stored) (hash_content input) then VNone else VModified
                      end) f p).
Proof.
  intros Hfd. unfold read_again. rewrite (view_of_data _ _ _ Hfd), read_source_file_static by apply (wd_max _ _ _ Hwf).
  cbn [reading mbind result_bind]. destruct (hash_input _); [|done]. by destruct (String.eqb _ _).
Qed.

(** The inventory of a scanned path, when no link was recorded or is met. *)
Lemma inventory_step_verdict f p :
  plain_path f -> admitted f = true ->
  inventory_step d sc files [] p f = Ok (Continue (push_verdict (verdict f) f p)).
Proof.
  intros Hf Ha. destruct (admitted_data f Hf Ha) as [fd Hfd]. unfold inventory_step, verdict. rewrite Ha, Hfd.
  destruct (files !! f) as [stored|].
  - rewrite (view_of_data _ _ _ Hfd). cbn [rv_stat view_of_file reading mbind result_bind covers existsb negb].
    rewrite andb_true_r. destruct (same_stat _ _); [done|]. by rewrite (read_again_data _ _ _ _ Hfd).
  - rewrite (view_of_data _ _ _ Hfd), is_source_file_static. cbn [reading mbind result_bind].
    by destruct (text_of _ _ _).
Qed.

Lemma inventory_verdicts l p :
  (forall f, f ∈ l -> plain_path f /\ admitted f = true) ->
  for_M (inventory_step d sc files []) p l = Ok (fold_left (fun p f => push_verdict (verdict f) f p) l p).
Proof.
  revert p. induction l as [|f l IH]; intros p Hl; [done|]. cbn [for_M fold_left].
  destruct (Hl f ltac:(by left)) as [Hf Ha]. rewrite inventory_step_verdict by done. cbn [mbind result_bind].
  apply IH. intros g Hg. apply Hl. by right.
Qed.

(** The candidates get the same verdicts. *)
Lemma classify_verdicts l p q :
  (forall f, f ∈ l -> plain_path f) ->
  classify_candidates d sc files l p = Ok (Some q) ->
  q = fold_left (fun p f => push_verdict (verdict f) f p) l p
  /\ forall f, f ∈ l -> membership d sc f false <> MUnknown.
Proof.
  revert p. induction l as [|f l IH]; intros p Hl Hq; cbn [classify_candidates fold_left] in *; [simplify_eq; set_solver|].
  destruct (is_symlink_or_dir d f); [done|].
  assert (Hf : plain_path f) by (apply Hl; by left).
  assert (Hrest : forall p', classify_candidates d sc files l p' = Ok (Some q) ->
    p' = push_verdict (verdict f) f p -> membership d sc f false <> MUnknown ->
    q = fold_left (fun p f => push_verdict (verdict f) f p) l (push_verdict (verdict f) f p)
    /\ forall g, g ∈ f :: l -> membership d sc g false <> MUnknown).
  { intros p' Hc -> Hm. apply IH in Hc as [-> Hu]; [|intros g Hg; apply Hl; by right].
    split; [done|]. intros g [->|Hg]%elem_of_cons; [done|by apply Hu]. }
  destruct (membership d sc f false) eqn:Hm.
  - assert (Ha : admitted f = true) by (unfold admitted; by rewrite Hm).
    destruct (admitted_data f Hf Ha) as [fd Hfd]. pose proof (view_of_data _ _ _ Hfd) as Hv.
    destruct (files !! f) as [stored|] eqn:Hst.
    + rewrite Hv in Hq. cbn [rv_stat view_of_file reading mbind result_bind] in Hq.
      destruct (same_stat stored (metadata_of fd)) eqn:Hs.
      * eapply Hrest; [exact Hq| |done]. unfold verdict. by rewrite Hst, Ha, Hfd, Hs.
      * rewrite (read_again_data _ _ _ _ Hfd) in Hq. eapply Hrest; [exact Hq| |done].
        unfold verdict. by rewrite Hst, Ha, Hfd, Hs.
    + rewrite Hv, is_source_file_static in Hq. eapply Hrest; [exact Hq| |done].
      unfold verdict. rewrite Hst, Ha, Hfd. by destruct (text_of _ _ _).
  - assert (Ha : admitted f = false) by (unfold admitted; by rewrite Hm).
    destruct (files !! f) as [stored|] eqn:Hst; (eapply Hrest; [exact Hq| |done]); unfold verdict; by rewrite Hst, Ha.
  - by destruct (files !! f).
Qed.

End Verdicts.

Lemma in_order_NoDup s : NoDup (in_order s).
Proof. unfold in_order. rewrite sort_by_perm. apply NoDup_elements. Qed.

Lemma elem_of_in_order s f : f ∈ in_order s <-> f ∈ s.
Proof. unfold in_order. by rewrite elem_of_sort_by, elem_of_elements. Qed.

Section Settled.
Context `{ScopeEnv} `{LinkRowsJson}.
Variables (d : Disk) (sc : Scope) (files : gmap string FileRecord) (meta : Metadatas) (blocked : list (list string)).
Hypothesis Hwf : wf_disk d sc blocked.

#[local] Notation verdict := (verdict d sc files).
#[local] Notation admitted := (admitted d sc).

(** A scan whose links lead nowhere lists what is admitted. *)
Lemma scan_of_linkless :
  links_inert (dk_fs d) (rules_of sc (exists_in d)) (dk_root d) ->
  exists r, scan_of d sc blocked = Ok r /\ sr_links r = [] /\ NoDup (sr_files r)
    /\ forall f, f ∈ sr_files r <-> plain_path f /\ admitted f = true.
Proof.
  intros Hinert. destruct Hwf as [Hfs Hpl Hroot Hdata Hmax Hb].
  destruct (scan_linkless _ _ _ Hfs Hpl blocked Hinert Hb Hroot) as (r & Hr & Hlinks & Hnd & Hin).
  exists r. unfold scan_of. rewrite Hr. split_and!; [done..|]. intros f. rewrite Hin. split.
  - intros (path & Hp & Hne & -> & Hreal & Hn). assert (plain_path (relative_of path)) by (by exists path).
    split; [done|]. by rewrite admitted_real, normal_plain, Hreal, Hn.
  - intros [Hf Ha]. rewrite admitted_real in Ha by done. apply andb_true_iff in Ha as [H1 H2].
    destruct (plain_components f Hf) as (E & Hne & Hp). by exists (normal_components f).
Qed.

(** When links lead nowhere the inventory is the verdicts of the scan, and the
    rows it misses. *)
Lemma full_inventory_verdicts :
  links_inert (dk_fs d) (rules_of sc (exists_in d)) (dk_root d) ->
  exists on_disk, NoDup on_disk /\ (forall f, f ∈ on_disk <-> plain_path f /\ admitted f = true)
    /\ full_inventory d sc files meta blocked
       = Ok (sort_pending (mkChanged (filter (fun f => verdict f = VAdded) on_disk)
               (filter (fun f => verdict f = VModified) on_disk)
               (filter (fun f => verdict f = VRemoved) on_disk ++ filter (fun f => f ∉ on_disk) (in_order (dom files))))).
Proof.
  intros Hinert. destruct (scan_of_linkless Hinert) as (r & Hr & Hlinks & Hnd & Hin).
  exists (sr_files r). split_and!; [done..|]. unfold full_inventory. rewrite Hr. cbn [mbind result_bind].
  rewrite Hlinks. change (for_scan meta []) with (@nil (string * LinkKind)).
  rewrite (inventory_verdicts d sc files blocked) by (done || by intros f ?%Hin).
  cbn [mbind result_bind]. by rewrite push_verdicts.
Qed.

(** When everything that pends is a candidate, the candidates say it all. *)
Lemma candidates_settle (C : gset string) p :
  (forall dir n, Forall plain_name (dir ++ [n]) -> entry_kind (dk_fs d) (dk_root d ++ dir) n = Some KLink ->
     membership d sc (relative_of (dir ++ [n])) false = MUnknown -> relative_of (dir ++ [n]) ∉ C ->
     link_taken (dk_fs d) (rules_of sc (exists_in d)) (dk_root d) dir n = false) ->
  (forall f, f ∈ C ∪ dom files -> plain_path f) ->
  (forall f, plain_path f -> verdict f <> VNone -> f ∈ C) ->
  classify_candidates d sc files (in_order C) nothing_pending = Ok (Some p) ->
  full_inventory d sc files meta blocked = Ok (sort_pending p).
Proof.
  intros Hlinks Hplain Hall Hc.
  assert (HC : forall f, f ∈ in_order C -> plain_path f).
  { intros f Hf%elem_of_in_order. apply Hplain. by apply elem_of_union_l. }
  destruct (classify_verdicts d sc files blocked Hwf _ _ _ HC Hc) as [-> Hknown].
  destruct full_inventory_verdicts as (on_disk & Hnd & Hin & ->).
  { intros dir n Hp Hk Hm. apply Hlinks; [done..| |].
    - unfold membership. rewrite scan_membership_plain; [done|done|by destruct dir].
    - intros HC'. apply (Hknown (relative_of (dir ++ [n]))); [by apply elem_of_in_order|].
      unfold membership. rewrite scan_membership_plain; [done|done|by destruct dir]. }
  rewrite push_verdicts. cbn [nothing_pending added modified removed app]. f_equal. unfold sort_pending. cbn [added modified removed].
  assert (Hsame : forall v, v <> VNone -> v <> VRemoved ->
    filter (fun f => verdict f = v) on_disk ≡ₚ filter (fun f => verdict f = v) (in_order C)).
  { intros v Hv Hv'. apply NoDup_Permutation; [by apply NoDup_filter|apply NoDup_filter, in_order_NoDup|].
    intros f. rewrite !list_elem_of_filter, Hin, elem_of_in_order. split.
    - intros (E & Hf & _). split; [done|]. apply Hall; [done|]. by rewrite E.
    - intros (E & Hf). split_and!; [done|apply HC; by apply elem_of_in_order|].
      unfold GitPendingFacts.verdict in E. destruct (files !! f), (admitted f); simplify_eq; done. }
  f_equal; [by apply sort_strings_eq, Hsame..|]. apply sort_strings_eq.
  apply NoDup_Permutation; [|apply NoDup_filter, in_order_NoDup|].
  - apply NoDup_app. split_and!; [by apply NoDup_filter| |apply NoDup_filter, in_order_NoDup].
    intros f [_ Hf]%list_elem_of_filter [Hn _]%list_elem_of_filter. done.
  - intros f. rewrite elem_of_app, !list_elem_of_filter, Hin, !elem_of_in_order, elem_of_dom. split.
    + intros [(E & Hf & _)|(Hn & Ht)]; [split; [done|]; apply Hall; [done|]; by rewrite E|].
      assert (Hf : plain_path f) by (apply Hplain; rewrite elem_of_union, elem_of_dom; by right).
      assert (E : verdict f = VRemoved).
      { unfold GitPendingFacts.verdict. destruct Ht as [st ->]. destruct (admitted f) eqn:Ha; [by destruct Hn|done]. }
      split; [done|]. apply Hall; [done|]. by rewrite E.
    + intros [E Hf0]. assert (Hf : plain_path f) by (apply HC; by apply elem_of_in_order).
      destruct (admitted f) eqn:Ha; [by left|]. right. split; [by intros [_ ?]|].
      unfold GitPendingFacts.verdict in E. rewrite Ha in E. by destruct (files !! f).
Qed.

End Settled.
