(* ===== verification/GitTrees.v ===== *)
(** * Git's reports and the trees they are about

    The formats that git prints, read back; Shopify themes and what may hide a
    marker; what git and the record promise; and that a path which is no
    candidate is nothing to the next sync. *)
From S2P Require Import Prelude Types Rows Strings PathUtil StrOps LangDetect ScanRules ScanWalk ScanFacts ScanProps WatchPolicyProps WatchTree FileClass SourceFile GitPending GitPendingFacts.

(** ** What git prints *)

(** A text git can print as a field: UTF-8 and without a NUL. *)
Definition field_text (s : string) : Prop := from_utf8 s = Some s /\ str_contains NUL s = false.

Definition zero_terminated (l : list string) : string := str_concat (map (fun f => f +:+ String NUL "") l).

(** [git status --porcelain=v1 -z]: two letters, a space and a path. *)
Definition status_output (prefix : string) (l : list (ascii * ascii * string)) : string :=
  zero_terminated (map (fun '(x, y, p) => String x (String y (String " " (prefix +:+ p)))) l).

(** [git diff --name-status -z]: a letter, then a path. *)
Definition diff_output (prefix : string) (l : list (ascii * string)) : string :=
  zero_terminated (l ≫= fun '(letter, p) => [String letter ""; prefix +:+ p]).

(** [git ls-files -z]: paths. *)
Definition names_output (prefix : string) (l : list string) : string :=
  zero_terminated (map (String.append prefix) l).

Definition letter (a : ascii) : Prop := (byte a <? 0x80)%N = true /\ a <> NUL.

Lemma from_utf8_lossy_text s : field_text s -> from_utf8_lossy s = s.
Proof. intros [H _]. by apply from_utf8_lossy_valid. Qed.

Lemma split_nul a s : str_contains NUL a = false -> split_on NUL (a +:+ String NUL s) = a :: split_on NUL s.
Proof.
  induction a as [|x a IH]; intros Ha; [done|].
  change (String x a +:+ String NUL s) with (String x (a +:+ String NUL s)). cbn [split_on str_contains] in *.
  apply orb_false_iff in Ha as [-> Ha]. by rewrite IH.
Qed.

Lemma split_zero_terminated l :
  Forall field_text l -> split_on NUL (zero_terminated l) = l ++ [""].
Proof.
  induction 1 as [|f l [_ Hf] Hl IH]; [done|].
  change (zero_terminated (f :: l)) with ((f +:+ String NUL "") +:+ zero_terminated l).
  rewrite str_app_assoc. change (String NUL "" +:+ zero_terminated l) with (String NUL (zero_terminated l)).
  by rewrite split_nul, IH.
Qed.

Lemma nul_fields_read l : Forall (fun f => field_text f /\ f <> "") l -> nul_fields (zero_terminated l) = l.
Proof.
  intros Hl. unfold nul_fields. rewrite split_zero_terminated by (eapply Forall_impl; [exact Hl|]; by intros f []).
  rewrite filter_app, app_nil_r. induction Hl as [|f l [Hf Hne] Hl IH]; [done|].
  rewrite filter_cons_True by done. cbn [map]. by rewrite IH, from_utf8_lossy_text.
Qed.

Lemma field_text_cons a s : letter a -> field_text s -> field_text (String a s).
Proof.
  intros [Ha Hn] [Hs Hns]. split.
  - unfold from_utf8 in *. cbn [utf8_pieces]. assert (utf8_char_width a = 1) as ->.
    { unfold utf8_char_width. by rewrite Ha. }
    cbn [forallb andb]. by destruct (forallb _ _).
  - cbn [str_contains]. rewrite Hns, orb_false_r. by apply Ascii.eqb_neq.
Qed.

(** A text begins with a whole character. *)
Lemma text_head s : field_text s -> match byte_at 0 s with Some b => is_continuation b = false | None => True end.
Proof.
  intros [Hs _]. destruct s as [|a s]; [done|]. cbn [byte_at]. unfold from_utf8 in Hs. cbn [utf8_pieces] in Hs.
  destruct (is_continuation a) eqn:Ha; [|done]. exfalso.
  assert (utf8_char_width a = 0) as Hw.
  { unfold is_continuation, between in Ha. apply andb_true_iff in Ha as [H1%N.leb_le H2%N.leb_le].
    unfold utf8_char_width, between.
    destruct (N.ltb_spec (byte a) 0x80); [lia|]. destruct (N.leb_spec 0xC2 (byte a)); [lia|].
    destruct (N.leb_spec 0xE0 (byte a)); [lia|]. destruct (N.leb_spec 0xF0 (byte a)); [lia|]. done. }
  rewrite Hw in Hs. by destruct s.
Qed.

Lemma get_from_3 x y s : field_text s -> get_from 3 (String x (String y (String " " s))) = Some s.
Proof.
  intros Hs%text_head. unfold get_from. cbn [String.length byte_at str_drop].
  change (S (S (S (String.length s))) <? 3) with false. cbv iota. destruct s as [|a s]; [done|]. cbn [byte_at str_drop] in *. by rewrite Hs.
Qed.

Lemma rebase_prefixed repo p : p <> "" -> rebase repo (repo_prefix repo +:+ p) = Some p.
Proof.
  intros Hp. unfold rebase.
  assert (str_strip_prefix (repo_prefix repo) (repo_prefix repo +:+ p) = Some p) as -> by (by apply str_strip_prefix_Some).
  by destruct p.
Qed.

Definition path_field (repo : Repo) (p : string) : Prop := field_text (repo_prefix repo +:+ p) /\ p <> "".

Lemma rebase_all repo l : Forall (path_field repo) l -> omap (rebase repo) (map (String.append (repo_prefix repo)) l) = l.
Proof.
  induction 1 as [|p l [_ Hp] Hl IH]; [done|]. cbn [map]. change (omap (rebase repo) (?a :: ?l)) with
    (match rebase repo a with Some b => b :: omap (rebase repo) l | None => omap (rebase repo) l end).
  change (String.append (repo_prefix repo) p) with (repo_prefix repo +:+ p). by rewrite rebase_prefixed, IH.
Qed.

Lemma prefixed_ne repo p : path_field repo p -> repo_prefix repo +:+ p <> "".
Proof. intros [_ Hp]. destruct (repo_prefix repo); [done|discriminate]. Qed.

Lemma status_reads g repo l :
  ge_git g STATUS_ARGS = Some (status_output (repo_prefix repo) l) ->
  Forall (fun e => letter e.1.1 /\ letter e.1.2 /\ path_field repo e.2) l ->
  status_paths g repo = Some (list_to_set (map snd l)).
Proof.
  intros Hg Hl. unfold status_paths. rewrite Hg. cbn [mbind option_bind]. unfold status_output.
  rewrite nul_fields_read.
  2:{ apply Forall_map. eapply Forall_impl; [exact Hl|]. intros [[x y] p] (Hx & Hy & Hp & Hne). cbn [fst snd] in *.
      split; [|done]. apply field_text_cons; [done|]. apply field_text_cons; [done|]. by apply field_text_cons. }
  assert (mapM (get_from 3) (map (fun '(x, y, p) => String x (String y (String " " (repo_prefix repo +:+ p)))) l)
    = Some (map (String.append (repo_prefix repo)) (map snd l))) as ->.
  { apply mapM_Some. clear Hg. induction Hl as [|[[x y] p] l (Hx & Hy & Hp & Hne) Hl IH]; [constructor|].
    constructor; [|done]. by apply get_from_3. }
  cbn [mbind option_bind]. rewrite rebase_all; [done|]. apply Forall_map. eapply Forall_impl; [exact Hl|]. by intros e (_ & _ & ?).
Qed.

Lemma diff_reads g repo commit l :
  ge_git g (DIFF_ARGS commit) = Some (diff_output (repo_prefix repo) l) ->
  Forall (fun e => letter e.1 /\ path_field repo e.2) l ->
  committed_paths g repo commit = Some (list_to_set (map snd l)).
Proof.
  intros Hg Hl. unfold committed_paths. rewrite Hg. cbn [mbind option_bind]. unfold diff_output.
  rewrite nul_fields_read.
  2:{ clear Hg. induction Hl as [|[x p] l (Hx & Hp) Hl IH]; [constructor|]. cbn [fst snd] in *.
      rewrite bind_cons. apply Forall_app. split; [|done].
      apply Forall_cons. split; [split; [by apply field_text_cons|done]|].
      apply Forall_singleton. split; [by apply Hp|by apply prefixed_ne]. }
  assert (seconds (l ≫= fun '(letter, p) => [String letter ""; repo_prefix repo +:+ p])
    = Some (map (String.append (repo_prefix repo)) (map snd l))) as ->.
  { clear. induction l as [|[x p] l IH]; [done|].
    change (((x, p) :: l) ≫= ?f) with ([String x ""; repo_prefix repo +:+ p] ++ (l ≫= f)). cbn [app seconds map snd].
    by rewrite IH. }
  cbn [mbind option_bind]. rewrite rebase_all; [done|]. apply Forall_map. eapply Forall_impl; [exact Hl|]. by intros e (_ & ?).
Qed.

Lemma ignored_reads g repo l :
  ge_git g IGNORED_ARGS = Some (names_output (repo_prefix repo) l) ->
  Forall (path_field repo) l -> ignored_paths g repo = Some l.
Proof.
  intros Hg Hl. unfold ignored_paths. rewrite Hg. cbn [mbind option_bind]. unfold names_output.
  rewrite nul_fields_read; [by rewrite rebase_all|]. apply Forall_map. eapply Forall_impl; [exact Hl|].
  intros p Hp. split; [by apply Hp|by apply prefixed_ne].
Qed.
(** ** Shopify themes *)

(** The markers, by their components. *)
Definition MARKERS : list (string * string) := [("layout", "theme.liquid"); ("config", "settings_schema.json")].

Lemma plain_contained path : path <> [] -> Forall plain_name path -> is_contained (join_slash path) = true.
Proof.
  intros Hne Hp. unfold is_contained. rewrite split_plain, join_slash_plain by done.
  assert (Hhead : String.eqb (join_slash path) "" = false /\ starts_with (join_slash path) "/" = false).
  { destruct path as [|n l]; [done|]. apply Forall_cons in Hp as [(H1 & H2 & _) _]. destruct n as [|a n]; [done|].
    assert (exists t, join_slash (String a n :: l) = String a t) as [t ->] by (unfold join_slash; destruct l; cbn; eauto).
    cbn in H2. apply orb_false_iff in H2 as [H2 _]. split; [done|]. unfold starts_with. cbn [str_strip_prefix].
    change "/"%char with SLASH. by rewrite Ascii.eqb_sym, H2. }
  destruct Hhead as [-> ->]. cbn [negb andb]. apply forallb_forall. intros n Hn%list_elem_of_In.
  rewrite Forall_forall in Hp. destruct (Hp n Hn) as (H1 & _ & _ & H2 & H3).
  rewrite !andb_true_iff, !negb_true_iff, !String.eqb_neq. done.
Qed.

Lemma marker_plain m : m ∈ MARKERS -> Forall plain_name [m.1; m.2].
Proof.
  intros Hm. rewrite Forall_forall. intros n Hn. apply plain_nameb_true.
  repeat (apply elem_of_cons in Hm as [->|Hm]; [repeat (apply elem_of_cons in Hn as [->|Hn]; [by vm_compute|]); by apply elem_of_nil in Hn|]).
  by apply elem_of_nil in Hm.
Qed.

Lemma is_shopify_theme_plain tp ex :
  Forall plain_name tp ->
  is_shopify_theme (join_slash tp) ex = existsb (fun m => ex (join_slash (tp ++ [m.1; m.2]))) MARKERS.
Proof.
  intros Hp. destruct tp as [|n tp]; [done|]. unfold is_shopify_theme.
  pose proof (plain_contained (n :: tp) ltac:(done) Hp) as Hc. rewrite Hc, andb_false_r.
  assert (String.eqb (join_slash (n :: tp)) "" = false) as ->.
  { apply String.eqb_neq. intros E. by rewrite E in Hc. }
  unfold MARKERS, SHOPIFY_THEME_MARKERS. cbn [existsb fst snd]. rewrite !join_slash_app by done. done.
Qed.

Lemma str_drop_app_plus k p s : str_drop (String.length p + k) (p +:+ s) = str_drop k s.
Proof. induction p as [|a p IH]; [done|]. exact IH. Qed.

Lemma str_take_app p s : str_take (String.length p) (p +:+ s) = p.
Proof. induction p as [|a p IH]; [by destruct s|]. cbn [String.length]. change (String a p +:+ s) with (String a (p +:+ s)). cbn [str_take]. by rewrite IH. Qed.

Lemma marker_theme tp m :
  Forall plain_name tp -> m ∈ MARKERS -> shopify_marker_theme (join_slash (tp ++ [m.1; m.2])) = Some (join_slash tp).
Proof.
  intros Hp Hm. destruct tp as [|n tp].
  { repeat (apply elem_of_cons in Hm as [->|Hm]; [by vm_compute|]). by apply elem_of_nil in Hm. }
  unfold shopify_marker_theme. rewrite plain_contained; [|by destruct tp|apply Forall_app; split; [done|by apply marker_plain]].
  cbn [negb]. set (t := join_slash (n :: tp)). assert (Hpos : String.length (t +:+ "/") <> 0) by (rewrite str_length_app; cbn; lia).
  assert (Hs : join_slash ((n :: tp) ++ [m.1; m.2]) = (t +:+ "/") +:+ (m.1 +:+ "/" +:+ m.2)).
  { rewrite join_slash_app by done. by rewrite str_app_assoc. }
  rewrite Hs. set (p := t +:+ "/") in *.
  assert (Hend : forall k, String.length (m.1 +:+ "/" +:+ m.2) = k -> String.length (p +:+ (m.1 +:+ "/" +:+ m.2)) = String.length p + k)
    by (intros k <-; apply str_length_app).
  assert (Hstrip : match String.length p with 0 => Some "" | _ => str_strip_suffix p "/" end = Some t)
    by (destruct (String.length p); [lia|]; apply str_strip_suffix_app).
  unfold MARKERS in Hm. apply elem_of_cons in Hm as [->|Hm].
  - rewrite (Hend 19) by done. cbn [SHOPIFY_THEME_MARKERS map]. change (String.length "layout/theme.liquid") with 19.
    rewrite Nat.add_sub, (proj2 (Nat.leb_le 19 _)) by lia.
    rewrite (str_drop_app p). cbn [fst snd]. change (eq_ignore_ascii_case ("layout" +:+ "/" +:+ "theme.liquid") "layout/theme.liquid") with true. cbn [andb].
    rewrite str_take_app, Hstrip. done.
  - apply list_elem_of_singleton in Hm as ->. rewrite (Hend 27) by done. cbn [SHOPIFY_THEME_MARKERS map].
    change (String.length "layout/theme.liquid") with 19. change (String.length "config/settings_schema.json") with 27.
    rewrite Nat.add_sub, (proj2 (Nat.leb_le 27 _)) by lia.
    replace (String.length p + 27 - 19) with (String.length p + 8) by lia.
    rewrite str_drop_app_plus, (str_drop_app p). cbn [fst snd].
    change (eq_ignore_ascii_case (str_drop 8 ("config" +:+ "/" +:+ "settings_schema.json")) "layout/theme.liquid") with false.
    change (eq_ignore_ascii_case ("config" +:+ "/" +:+ "settings_schema.json") "config/settings_schema.json") with true.
    rewrite andb_false_r. cbn [andb]. rewrite str_take_app, Hstrip. done.
Qed.
Lemma theme_loop_Some segs i ex folders t :
  theme_root_loop segs i ex folders = Some t ->
  exists j seg, j < i /\ segs !! j = Some seg /\ existsb (eq_ignore_ascii_case seg) folders = true
    /\ t = join_slash (take j segs) /\ is_shopify_theme t ex = true.
Proof.
  induction i as [|i IH]; cbn [theme_root_loop]; [done|].
  destruct (segs !! i) as [seg|] eqn:Hs; cbn [andb]; [|intros (j & seg & ? & H)%IH; exists j, seg; split; [lia|done]].
  destruct (_ && _) eqn:Hb; [|intros (j & seg' & ? & H)%IH; exists j, seg'; split; [lia|done]].
  apply andb_true_iff in Hb as [Hb Ht]. intros [= <-]. by exists i, seg; split; [lia|].
Qed.

Lemma theme_loop_is_Some segs i ex folders j seg :
  j < i -> segs !! j = Some seg -> existsb (eq_ignore_ascii_case seg) folders = true ->
  is_shopify_theme (join_slash (take j segs)) ex = true -> is_Some (theme_root_loop segs i ex folders).
Proof.
  intros Hj Hs Hb Ht. induction i as [|i IH]; [lia|]. cbn [theme_root_loop].
  destruct (_ && _) eqn:Hc; [done|]. apply IH. destruct (decide (j = i)) as [->|]; [|lia].
  by rewrite Hs, Hb, Ht in Hc.
Qed.

(** A theme around a JSON template. *)
Definition template_theme (path tp : list string) (ex : string -> bool) : Prop :=
  exists seg rest, path = tp ++ seg :: rest /\ rest <> [] /\ is_shopify_json_folder seg = true
    /\ is_shopify_theme (join_slash tp) ex = true.

Lemma theme_root_plain path ex t :
  path <> [] -> Forall plain_name path ->
  shopify_theme_root (relative_of path) ex SHOPIFY_JSON_FOLDERS = Some t ->
  exists tp, t = join_slash tp /\ template_theme path tp ex.
Proof.
  intros Hne Hp. unfold shopify_theme_root. rewrite split_relative_of, relative_of_plain, plain_contained by done.
  cbn [negb]. intros (j & seg & Hj & Hs & Hb & -> & Ht)%theme_loop_Some. exists (take j path). split; [done|].
  exists seg, (drop (S j) path). split_and!; [by rewrite take_drop_middle| |done|done].
  intros E. apply (f_equal length) in E. rewrite length_drop in E. cbn in E. lia.
Qed.

Lemma template_theme_root path tp ex :
  path <> [] -> Forall plain_name path -> template_theme path tp ex ->
  is_Some (shopify_theme_root (relative_of path) ex SHOPIFY_JSON_FOLDERS).
Proof.
  intros Hne Hp (seg & rest & -> & Hr & Hb & Ht). unfold shopify_theme_root.
  rewrite split_relative_of, relative_of_plain, plain_contained by done. cbn [negb].
  eapply (theme_loop_is_Some _ _ _ _ (length tp)); [|by apply list_lookup_middle|done|by rewrite take_app_length].
  rewrite length_app. cbn. destruct rest; [done|]. cbn. lia.
Qed.

(** Every theme of [ex1] that a template has is one of [ex2]'s. *)
Lemma liquid_json_mono path ex1 ex2 :
  path <> [] -> Forall plain_name path ->
  (forall tp, template_theme path tp ex1 -> shopify_theme_root (relative_of path) ex1 SHOPIFY_JSON_FOLDERS = Some (join_slash tp) ->
     is_shopify_theme (join_slash tp) ex2 = true) ->
  is_shopify_liquid_json (relative_of path) (Some ex1) = true ->
  is_shopify_liquid_json (relative_of path) (Some ex2) = true.
Proof.
  intros Hne Hp Hth. unfold is_shopify_liquid_json. intros [-> Hr]%andb_true_iff. cbn [andb].
  destruct (shopify_theme_root _ ex1 _) as [t|] eqn:Ht; [|done].
  destruct (theme_root_plain _ _ _ Hne Hp Ht) as (tp & -> & Htp).
  destruct (template_theme_root path tp ex2 Hne Hp) as [? ->]; [|done].
  specialize (Hth tp Htp eq_refl). destruct Htp as (seg & rest & -> & Hrest & Hb & _). by exists seg, rest.
Qed.

Lemma normal_join tp : Forall plain_name tp -> normal_components (join_slash tp) = tp.
Proof.
  intros Hp. destruct tp as [|n tp]; [done|]. rewrite <- relative_of_plain by done. by apply normal_plain.
Qed.

Lemma real_file_dir fs c tp seg rest :
  real_file fs c (tp ++ seg :: rest) = true -> rest <> [] ->
  resolve fs c tp = Some (PDir (c ++ tp)) /\ entry_kind fs (c ++ tp) seg = Some KDir.
Proof.
  revert c. induction tp as [|n tp IH]; intros c Hr Hne; cbn [app] in *; cbn [real_file resolve] in *.
  - rewrite app_nil_r. split; [done|]. destruct (entry_kind fs c seg) as [[]|]; try done; by destruct rest.
  - destruct (entry_kind fs c n) as [[]|]; try done; destruct (tp ++ seg :: rest) eqn:E; try done; [by destruct tp|].
    destruct (IH (c ++ [n])) as [Hr1 Hr2]; [by rewrite ?E in *|done|]. by rewrite <- app_assoc in *.
Qed.

Lemma str_strip_suffix_Some s p x : str_strip_suffix s p = Some x -> s = x +:+ p.
Proof.
  revert x. induction s as [|a s IH]; intros x; cbn [str_strip_suffix].
  - destruct (String.eqb_spec "" p) as [<-|]; [|done]. by intros [= <-].
  - destruct (String.eqb_spec (String a s) p) as [<-|]; [by intros [= <-]|].
    destruct (str_strip_suffix s p) as [y|]; [|done]. cbn. intros [= <-].
    change (String a y +:+ p) with (String a (y +:+ p)). by rewrite <- (IH y).
Qed.

Lemma plain_no_slash_end p : p <> [] -> Forall plain_name p -> str_strip_suffix (join_slash p) "/" = None.
Proof.
  intros Hne Hp. destruct (str_strip_suffix _ "/") as [x|] eqn:E; [exfalso|done].
  apply str_strip_suffix_Some in E. pose proof (split_plain p Hp Hne) as Hs. rewrite E in Hs.
  change (x +:+ "/") with (x +:+ String SLASH "") in Hs. rewrite split_on_snoc_segment in Hs. rewrite <- Hs in Hp.
  apply Forall_app in Hp as [_ Hp]. apply Forall_cons in Hp as [[] _]. done.
Qed.

Lemma rfind_app c a s : str_contains c s = false -> rfind c (a +:+ String c s) = Some (String.length a).
Proof.
  intros Hs. induction a as [|x a IH].
  - change ("" +:+ String c s) with (String c s). cbn [rfind].
    assert (rfind c s = None) as ->; [|by rewrite Ascii.eqb_refl].
    clear -Hs. induction s as [|y s IH]; [done|]. cbn in *. apply orb_false_iff in Hs as [-> Hs]. by rewrite IH.
  - change (String x a +:+ String c s) with (String x (a +:+ String c s)). cbn [rfind]. by rewrite IH.
Qed.

Lemma rsplit_join tp n : tp <> [] -> plain_name n ->
  rsplit_once SLASH (join_slash (tp ++ [n])) = Some (join_slash tp, n).
Proof.
  intros Hne (_ & Hn & _). rewrite join_slash_app by done. unfold rsplit_once.
  change (join_slash tp +:+ "/" +:+ join_slash [n]) with (join_slash tp +:+ String SLASH n).
  rewrite rfind_app by done. rewrite str_take_app. replace (S (String.length (join_slash tp))) with (String.length (join_slash tp) + 1) by lia.
  by rewrite str_drop_app_plus.
Qed.

(** Where a theme has a JSON folder, a marker of it is not hidden in silence. *)
Lemma marker_risk d tp seg rest m :
  Forall plain_name tp -> m ∈ MARKERS -> rest <> [] -> is_shopify_json_folder seg = true ->
  real_file (dk_fs d) (dk_root d) (tp ++ seg :: rest) = true ->
  may_hide_a_marker d (join_slash (tp ++ [m.1; m.2])) = true
  /\ may_hide_a_marker d (join_slash (tp ++ [m.1]) +:+ "/") = true.
Proof.
  intros Hp Hm Hne Hseg Hreal. destruct (real_file_dir _ _ _ _ _ Hreal Hne) as [Hres Hk].
  assert (Hj : match json_folders_of d (join_slash tp) with [] => false | _ => true end = true).
  { unfold json_folders_of, place_of. rewrite normal_join, Hres by done.
    unfold entry_kind in Hk. destruct (fs_dirs (dk_fs d) !! (dk_root d ++ tp)) as [entries|] eqn:He; cbn in Hk; [|done].
    destruct (list_find _ entries) as [[i [n k]]|] eqn:Hf; cbn in Hk; [|done]. simplify_eq.
    apply list_find_Some in Hf as (Hi & Hn & _). cbn in Hn. subst n. cbn [default].
    match goal with |- context [sort_by str_le ?l] => destruct (sort_by str_le l) eqn:Es; [|done]; assert (Hin : exists x, x ∈ l) end.
    { eexists. apply list_elem_of_fmap. eexists. split; [done|]. apply list_elem_of_filter. split; [exact Hseg|].
      apply list_elem_of_fmap. exists (seg, KDir). split; [done|]. apply list_elem_of_filter. split; [done|].
      by apply list_elem_of_lookup_2 in Hi. }
    destruct Hin as [x Hx]. rewrite <- (elem_of_sort_by str_le), Es in Hx. by apply elem_of_nil in Hx. }
  pose proof (marker_plain m Hm) as Hmp. unfold may_hide_a_marker. split.
  - rewrite plain_no_slash_end; [by rewrite marker_theme|by destruct tp|by apply Forall_app].
  - rewrite str_strip_suffix_app. apply Forall_cons in Hmp as [Hm1 _].
    assert (Hfolder : is_shopify_marker_folder m.1 = true).
    { repeat (apply elem_of_cons in Hm as [->|Hm]; [by vm_compute|]). by apply elem_of_nil in Hm. }
    destruct tp as [|n tp].
    + cbn [app]. change (join_slash [m.1]) with m.1.
      assert (rsplit_once SLASH m.1 = None) as ->; [|cbn [from_option id]; by rewrite Hfolder].
      repeat (apply elem_of_cons in Hm as [->|Hm]; [by vm_compute|]). by apply elem_of_nil in Hm.
    + rewrite rsplit_join by done. cbn [from_option id]. by rewrite Hfolder.
Qed.
(** ** What git and the record promise *)

(** The files of a commit under the project: their bytes by their paths. *)
Notation Tree := (gmap string string).

(** What git reports: the status, what the recorded commit and HEAD differ in,
    and what is ignored. *)
Record GitView : Type := mkGitView {
  gv_status : list (ascii * ascii * string);
  gv_diff : list (ascii * string);
  gv_ignored : list string
}.

(** An entry names a path, or a directory above it. *)
Definition entry_covers (e f : string) : Prop := e = f \/ exists dir rest, e = dir +:+ "/" /\ f = e +:+ rest.

(** The output of the three commands, as git documents it. *)
Record git_prints (g : GitEnv) (repo : Repo) (commit : string) (v : GitView) : Prop := {
  gp_status : ge_git g STATUS_ARGS = Some (status_output (repo_prefix repo) (gv_status v));
  gp_diff : ge_git g (DIFF_ARGS commit) = Some (diff_output (repo_prefix repo) (gv_diff v));
  gp_ignored : ge_git g IGNORED_ARGS = Some (names_output (repo_prefix repo) (gv_ignored v));
  gp_status_text : Forall (fun e => letter e.1.1 /\ letter e.1.2 /\ path_field repo e.2) (gv_status v);
  gp_diff_text : Forall (fun e => letter e.1 /\ path_field repo e.2) (gv_diff v);
  gp_ignored_text : Forall (path_field repo) (gv_ignored v);
  gp_status_plain : Forall (fun e => plain_path e.2 \/ ends_with e.2 "/" = true) (gv_status v);
  gp_diff_plain : Forall (fun e => plain_path e.2) (gv_diff v)
}.

(** The bytes of a regular file that no link leads to. *)
Definition disk_file (d : Disk) (f : string) : option string :=
  if real_file (dk_fs d) (dk_root d) (normal_components f)
  then fd_bytes <$> dk_files d !! (dk_root d ++ normal_components f) else None.

(** What the reports mean: [T] is the tree of the recorded commit, [Hd] that of
    HEAD. A difference between the trees is in the diff; a file that differs
    from HEAD is in the status, lies in a nested repository that is, or is
    ignored and not in HEAD. *)
Record git_sees (d : Disk) (T Hd : Tree) (v : GitView) : Prop := {
  gs_commit f : T !! f <> Hd !! f -> f ∈ map snd (gv_diff v);
  gs_file f : plain_path f -> disk_file d f <> Hd !! f ->
    (exists e, e ∈ map snd (gv_status v) /\ entry_covers e f)
    \/ (Hd !! f = None /\ exists e, e ∈ gv_ignored v /\ entry_covers e f)
}.

(** A link of which no report speaks leads the scan nowhere. Git does not
    promise this: it reports a link by the text of its target, and what lies
    behind a committed link may come and go without a report. *)
Definition clean_links_inert `{ScopeEnv} (d : Disk) (sc : Scope) (v : GitView) : Prop :=
  forall dir n, Forall plain_name (dir ++ [n]) -> entry_kind (dk_fs d) (dk_root d ++ dir) n = Some KLink ->
    (exists e, e ∈ map snd (gv_status v) ++ gv_ignored v /\ entry_covers e (relative_of (dir ++ [n])))
    \/ link_taken (dk_fs d) (rules_of sc (exists_in d)) (dk_root d) dir n = false.

(** What the record promises of the rows: of every path it does not call dirty,
    the index is that of the recorded commit's tree under the scope [sc] of the
    build, when [old] existed. *)
Record recorded `{ScopeEnv} `{SerdeJson} (r : GitRecord) (sc : Scope) (old : string -> bool) (T : Tree)
    (files : gmap string FileRecord) (meta : Metadatas) : Prop := {
  rc_scope : gr_scope r = scope_fingerprint sc;
  rc_dirty f : f ∈ gr_dirty r -> plain_path f;
  rc_rows f : f ∈ dom files -> plain_path f;
  rc_tracked f stored : files !! f = Some stored -> f ∉ gr_dirty r ->
    exists bytes input, T !! f = Some bytes
      /\ hash_input (text_of bytes f (eo_max_file_size (sc_options sc))) = Some input
      /\ file_content_hash stored = hash_content input
      /\ names_admit (rules_of sc old) (normal_components f) = true;
  rc_untracked f bytes : plain_path f -> files !! f = None -> f ∉ gr_dirty r -> T !! f = Some bytes ->
    names_admit (rules_of sc old) (normal_components f) = true ->
    text_of bytes f (eo_max_file_size (sc_options sc)) = MpegTransportStream;
  rc_marker m : is_shopify_theme_marker m = true -> m ∉ gr_dirty r -> is_Some (T !! m) -> old m = true;
  rc_themes f theme : f ∈ dom files -> f ∉ gr_dirty r ->
    shopify_theme_root f old SHOPIFY_JSON_FOLDERS = Some theme ->
    exists roots, meta !! SHOPIFY_THEMES_ROW_KEY ≫= strings_from_json = Some roots /\ theme ∈ roots
}.

Section Sees.
Context `{ScopeEnv} `{LinkRowsJson} `{SerdeJson} `{GitRecordJson}.

(** The guards that let the candidates be named. *)
Lemma git_candidates_Some g d sc meta r repo C :
  read_record meta = Some r -> Repo_read g = Some repo -> git_candidates g d sc meta = Some C ->
  gr_scope r = scope_fingerprint sc /\ index_flags g repo = Some (mkFlags false false)
  /\ conversion_risk g repo = Some false
  /\ (exists status committed, status_paths g repo = Some status /\ committed_paths g repo (gr_commit r) = Some committed
        /\ C = status ∪ committed ∪ list_to_set (gr_dirty r)
        /\ forall f, f ∈ status -> ends_with f "/" = false)
  /\ (exists entries, ignored_paths g repo = Some entries /\ forall e, e ∈ entries -> ignored_entry_risk d sc e = false)
  /\ (forall f, f ∈ C -> is_shopify_theme_marker f = false)
  /\ a_recorded_theme_lost_its_marker d meta = false.
Proof.
  intros Hr Hrepo. unfold git_candidates. rewrite Hr, Hrepo. cbn [mbind option_bind].
  destruct (_ || negb (String.eqb _ _)) eqn:Hg; [done|]. apply orb_false_iff in Hg as [_ Hscope].
  apply negb_false_iff, String.eqb_eq in Hscope. destruct (ge_git _ _); [cbn [mbind option_bind]|done].
  destruct (index_flags g repo) as [[sm hc]|]; [cbn [mbind option_bind submodules hidden_changes]|done].
  destruct sm, hc; try done. cbn [orb].
  destruct (conversion_risk g repo) as [[]|]; try done. cbn [mbind option_bind].
  destruct (status_paths g repo) as [status|]; [cbn [mbind option_bind]|done].
  destruct (committed_paths g repo _) as [committed|]; [cbn [mbind option_bind]|done].
  destruct (existsb _ (elements status)) eqn:Hs; [done|]. unfold ignores_scanned_path.
  destruct (ignored_paths g repo) as [entries|]; [cbn [mbind option_bind]|done].
  destruct (existsb _ entries) eqn:Hh; [done|].
  set (C' := _ ∪ list_to_set _). destruct (existsb _ (elements C') || _) eqn:Hm; [done|]. intros [= <-].
  apply orb_false_iff in Hm as [Hm Hlost].
  assert (Hnone : forall A (p : A -> bool) l x, existsb p l = false -> x ∈ l -> p x = false).
  { intros A p l x Hf Hx. apply not_true_iff_false. intros Hp. apply not_true_iff_false in Hf. apply Hf, existsb_exists.
    exists x. split; [by apply list_elem_of_In|done]. }
  split_and!; try done.
  - exists status, committed. split_and!; [done..|]. intros f Hf. eapply (Hnone _ (fun path => ends_with path "/")); [exact Hs|].
    by apply elem_of_elements.
  - exists entries. split; [done|]. intros e. by apply Hnone.
  - intros f Hf. eapply Hnone; [exact Hm|]. by apply elem_of_elements.
Qed.

End Sees.
(** ** Entries *)

Lemma join_split s : join_slash (split_on SLASH s) = s.
Proof.
  induction s as [|a s IH]; [done|]. cbn [split_on]. destruct (Ascii.eqb_spec a SLASH) as [->|Hne].
  - rewrite join_slash_cons by (by destruct (split_on_cons s) as (? & ? & ->)). by rewrite IH.
  - destruct (split_on_cons s) as (w & ws & E). rewrite E in *.
    destruct ws as [|v ws]; [by rewrite <- IH|]. rewrite join_slash_cons in * by done.
    change (String a w +:+ ?x) with (String a (w +:+ x)). by rewrite IH.
Qed.

Lemma entry_covers_path e path :
  path <> [] -> Forall plain_name path -> entry_covers e (relative_of path) ->
  e = relative_of path
  \/ exists dp rest, path = dp ++ rest /\ dp <> [] /\ rest <> [] /\ e = join_slash dp +:+ "/".
Proof.
  intros Hne Hp [->|(dir & rest & -> & E)]; [by left|]. right.
  pose proof (split_relative_of path Hne Hp) as Hs. rewrite E, str_app_assoc in Hs.
  change ("/" +:+ rest) with (String SLASH rest) in Hs. rewrite split_on_snoc_segment in Hs.
  exists (split_on SLASH dir), (split_on SLASH rest). rewrite join_split. split_and!; [done| | |done].
  - by destruct (split_on_cons dir) as (? & ? & ->).
  - by destruct (split_on_cons rest) as (? & ? & ->).
Qed.

Section Entries.
Context `{ScopeEnv}.
Variables (d : Disk) (sc : Scope).

Lemma quiet_entry e : ignored_entry_risk d sc e = false ->
  may_hide_a_marker d e = false
  /\ match str_strip_suffix e "/" with
     | Some dir => membership d sc dir true = MRejected
     | None => membership d sc e false = MRejected
     end.
Proof.
  unfold ignored_entry_risk. intros [[_ Hh]%orb_false_iff Hm]%orb_false_iff. split; [done|].
  by destruct (str_strip_suffix e "/"); destruct (membership _ _ _ _).
Qed.

(** A path that an ignored entry covers is one the scan rejects. *)
Lemma ignored_rejected e path :
  path <> [] -> Forall plain_name path -> ignored_entry_risk d sc e = false -> entry_covers e (relative_of path) ->
  membership d sc (relative_of path) false = MRejected.
Proof.
  intros Hne Hp [_ Hq]%quiet_entry [->|(dp & rest & -> & Hdp & Hrest & ->)]%entry_covers_path; [| |done..].
  - by rewrite relative_of_plain, plain_no_slash_end, <- relative_of_plain in Hq.
  - rewrite str_strip_suffix_app in Hq. pose proof Hp as [Hpd _]%Forall_app. unfold membership in *.
    rewrite <- relative_of_plain, scan_membership_plain in Hq by done. rewrite scan_membership_plain by done.
    by apply memb_below.
Qed.

(** An entry over a marker of a theme with a template on disk is over the
    template, or a risk. *)
Lemma ignored_marker e path tp seg rest m :
  Forall plain_name path -> path = tp ++ seg :: rest -> rest <> [] -> is_shopify_json_folder seg = true ->
  real_file (dk_fs d) (dk_root d) path = true -> m ∈ MARKERS ->
  ignored_entry_risk d sc e = false -> entry_covers e (relative_of (tp ++ [m.1; m.2])) ->
  entry_covers e (relative_of path).
Proof.
  intros Hp Hpath Hrest Hseg Hreal Hm Hq Hc. pose proof Hp as Hp'. rewrite Hpath in Hp'. apply Forall_app in Hp' as [Htp _].
  assert (Hmp : Forall plain_name (tp ++ [m.1; m.2])) by (apply Forall_app; split; [done|by apply marker_plain]).
  rewrite Hpath in Hreal. destruct (marker_risk d tp seg rest m Htp Hm Hrest Hseg Hreal) as [H1 H2].
  apply quiet_entry in Hq as [Hq _].
  apply entry_covers_path in Hc as [->|(dp & r & E & Hdp & Hr & ->)]; [| |by destruct tp|done].
  { rewrite relative_of_plain in Hq by done. by rewrite H1 in Hq. }
  assert (exists u, tp = dp ++ u \/ dp = tp ++ [m.1]) as (u & [Hu| ->]).
  { destruct (exists_last Hr) as (r' & x & ->). rewrite app_assoc in E.
    change [m.1; m.2] with ([m.1] ++ [m.2]) in E. rewrite app_assoc in E. apply app_inj_tail in E as [E _].
    destruct r' as [|y r' _] using rev_ind; [rewrite app_nil_r in E; exists []; by right|].
    rewrite app_assoc in E. apply app_inj_tail in E as [E _]. exists r'. by left. }
  - right. exists (join_slash dp), (join_slash (u ++ seg :: rest)). split; [done|].
    rewrite relative_of_plain, Hpath, Hu, <- app_assoc by done. rewrite join_slash_app by (done || by destruct u).
    by rewrite str_app_assoc.
  - by rewrite H2 in Hq.
Qed.

End Entries.
(** ** What is no candidate has not changed *)

(** Scopes that scan alike. *)
Definition same_scope `{ScopeEnv} (sc1 sc2 : Scope) : Prop :=
  (forall ex, rules_of sc1 ex = rules_of sc2 ex)
  /\ eo_max_file_size (sc_options sc1) = eo_max_file_size (sc_options sc2).

(** A marker that exists is a file that no link leads to. *)
Definition markers_real (d : Disk) : Prop :=
  forall tp m, Forall plain_name tp -> m ∈ MARKERS -> exists_in d (join_slash (tp ++ [m.1; m.2])) = true ->
    real_file (dk_fs d) (dk_root d) (tp ++ [m.1; m.2]) = true.

Section Unseen.
Context `{ScopeEnv} `{LinkRowsJson} `{SerdeJson} `{GitRecordJson}.
Variables (g : GitEnv) (d : Disk) (sc sc0 : Scope) (files : gmap string FileRecord) (meta : Metadatas)
  (blocked : list (list string)) (r : GitRecord) (repo : Repo) (T Hd : Tree) (v : GitView) (old : string -> bool) (C : gset string).
Hypotheses (Hwf : wf_disk d sc blocked) (Hmarkers : markers_real d)
  (Hr : read_record meta = Some r) (Hrepo : Repo_read g = Some repo)
  (Hprints : git_prints g repo (gr_commit r) v)
  (Hsees : git_sees d T Hd v) (Hlinks : clean_links_inert d sc v)
  (Hrec : recorded r sc0 old T files meta) (Hscope : same_scope sc0 sc)
  (HC : git_candidates g d sc meta = Some C).

Lemma candidates_are f :
  f ∈ C <-> f ∈ map snd (gv_status v) \/ f ∈ map snd (gv_diff v) \/ f ∈ gr_dirty r.
Proof.
  destruct (git_candidates_Some _ _ _ _ _ _ _ Hr Hrepo HC) as (_ & _ & _ & (st & cm & Hs & Hc & -> & _) & _).
  destruct Hprints as [Ps Pd _ Ts Td _ _ _].
  rewrite (status_reads _ _ _ Ps Ts) in Hs. rewrite (diff_reads _ _ _ _ Pd Td) in Hc. simplify_eq.
  rewrite !elem_of_union, !elem_of_list_to_set. tauto.
Qed.

Lemma candidates_plain f : f ∈ C -> plain_path f.
Proof.
  intros Hf. pose proof Hf as [Hs|[Hd'|Hd']]%candidates_are.
  - destruct (git_candidates_Some _ _ _ _ _ _ _ Hr Hrepo HC) as (_ & _ & _ & (st & cm & Hst & _ & _ & Hslash) & _).
    destruct Hprints as [Ps _ _ Ts _ _ Pp _]. rewrite (status_reads _ _ _ Ps Ts) in Hst. simplify_eq.
    pose proof Hs as Hs'. apply list_elem_of_fmap in Hs' as (e & -> & He). rewrite Forall_forall in Pp.
    destruct (Pp e He) as [?|Hend]; [done|]. rewrite Hslash in Hend; [done|]. by apply elem_of_list_to_set.
  - apply list_elem_of_fmap in Hd' as (e & -> & He). destruct Hprints as [_ _ _ _ _ _ _ Pp].
    rewrite Forall_forall in Pp. by apply Pp.
  - by apply (rc_dirty _ _ _ _ _ _ Hrec).
Qed.

(** No entry of the status covers what is no candidate, and those that are
    ignored say no risk. *)
Lemma status_covers e f : plain_path f -> f ∉ C -> e ∈ map snd (gv_status v) -> ~ entry_covers e f.
Proof.
  intros Hf HfC He Hc. assert (HeC : e ∈ C) by (apply candidates_are; by left).
  destruct Hc as [->|(dir & rest & -> & _)]; [done|].
  destruct (git_candidates_Some _ _ _ _ _ _ _ Hr Hrepo HC) as (_ & _ & _ & (st & cm & Hst & _ & _ & Hslash) & _).
  destruct Hprints as [Ps _ _ Ts _ _ _ _]. rewrite (status_reads _ _ _ Ps Ts) in Hst. simplify_eq.
  specialize (Hslash (dir +:+ "/") ltac:(by apply elem_of_list_to_set)).
  assert (ends_with (dir +:+ "/") "/" = true) as E by (apply ends_with_spec; by exists dir). by rewrite E in Hslash.
Qed.

Lemma ignored_quiet e : e ∈ gv_ignored v -> ignored_entry_risk d sc e = false.
Proof.
  destruct (git_candidates_Some _ _ _ _ _ _ _ Hr Hrepo HC) as (_ & _ & _ & _ & (es & Hes & Hq) & _).
  destruct Hprints as [_ _ Pi _ _ Ti _ _]. rewrite (ignored_reads _ _ _ Pi Ti) in Hes. simplify_eq. apply Hq.
Qed.

(** A path that is no candidate is as in the recorded commit, or ignored. *)
Lemma unseen f : plain_path f -> f ∉ C ->
  disk_file d f = T !! f
  \/ (T !! f = None /\ exists e, e ∈ gv_ignored v /\ entry_covers e f).
Proof.
  intros Hf HfC. assert (HT : T !! f = Hd !! f).
  { destruct (decide (T !! f = Hd !! f)) as [|Hne]; [done|]. destruct HfC. apply candidates_are. right. left.
    by apply (gs_commit _ _ _ _ Hsees). }
  rewrite HT. destruct (decide (disk_file d f = Hd !! f)) as [|Hne]; [by left|].
  destruct (gs_file _ _ _ _ Hsees f Hf Hne) as [(e & He & Hc)|?]; [by destruct (status_covers e f)|by right].
Qed.

(** A link that is no candidate is not followed. *)
Lemma unseen_link dir n :
  Forall plain_name (dir ++ [n]) -> entry_kind (dk_fs d) (dk_root d ++ dir) n = Some KLink ->
  membership d sc (relative_of (dir ++ [n])) false = MUnknown -> relative_of (dir ++ [n]) ∉ C ->
  link_taken (dk_fs d) (rules_of sc (exists_in d)) (dk_root d) dir n = false.
Proof.
  intros Hp Hk Hm HfC. assert (Hf : plain_path (relative_of (dir ++ [n]))) by (exists (dir ++ [n]); by destruct dir).
  destruct (Hlinks dir n Hp Hk) as [(e & [He|He]%elem_of_app & Hc)|?]; [| |done].
  - by destruct (status_covers e _ Hf HfC He).
  - rewrite (ignored_rejected d sc e) in Hm; [done|by destruct dir|done|by apply ignored_quiet|done].
Qed.

(** The themes that exist now existed at the build, around a file that the scan
    sees and git does not name. *)
Lemma theme_before path tp :
  Forall plain_name path -> real_file (dk_fs d) (dk_root d) path = true ->
  membership d sc (relative_of path) false <> MRejected ->
  template_theme path tp (exists_in d) -> is_shopify_theme (join_slash tp) old = true.
Proof.
  intros Hp Hreal Hm (seg & rest & Hpath & Hrest & Hseg & Ht). pose proof Hp as Hp'. rewrite Hpath in Hp'.
  apply Forall_app in Hp' as [Htp _]. rewrite is_shopify_theme_plain in * by done.
  apply existsb_exists in Ht as (m & Hin & Hex). apply existsb_exists. exists m. split; [done|].
  apply list_elem_of_In in Hin. pose proof (marker_theme tp m Htp Hin) as Hmk.
  assert (Hmp : Forall plain_name (tp ++ [m.1; m.2])) by (apply Forall_app; split; [done|by apply marker_plain]).
  assert (Hne : tp ++ [m.1; m.2] <> []) by (by destruct tp).
  assert (Hism : is_shopify_theme_marker (join_slash (tp ++ [m.1; m.2])) = true) by (unfold is_shopify_theme_marker; by rewrite Hmk).
  assert (HnC : join_slash (tp ++ [m.1; m.2]) ∉ C).
  { intros Hin'. destruct (git_candidates_Some _ _ _ _ _ _ _ Hr Hrepo HC) as (_ & _ & _ & _ & _ & Hnm & _).
    by rewrite (Hnm _ Hin') in Hism. }
  assert (Hmreal := Hmarkers tp m Htp Hin Hex).
  rewrite <- relative_of_plain in * by done.
  destruct (unseen _ ltac:(by exists (tp ++ [m.1; m.2])) HnC) as [E|(_ & e & He & Hc)].
  - apply (rc_marker _ _ _ _ _ _ Hrec); [done|intros Hd'; apply HnC, candidates_are; by right; right|].
    rewrite <- E. unfold disk_file. rewrite normal_plain, Hmreal by done. rewrite fmap_is_Some. by apply (wd_data _ _ _ Hwf).
  - destruct Hm. eapply ignored_rejected; [by rewrite Hpath; destruct tp|done|by apply ignored_quiet|].
    eapply ignored_marker; [done|exact Hpath|done..|by apply ignored_quiet|done].
Qed.

Lemma rules_before : rules_of sc0 old = rules_of sc old.
Proof. apply (proj1 Hscope). Qed.

(** A tracked file that is still as in the commit is still admitted. *)
Lemma still_admitted path :
  path <> [] -> Forall plain_name path -> relative_of path ∈ dom files -> relative_of path ∉ gr_dirty r ->
  names_admit (rules_of sc0 old) path = true -> names_admit (rules_of sc (exists_in d)) path = true.
Proof.
  intros Hne Hp Htr Hnd. rewrite rules_before. unfold names_admit. apply names_loop_mono; [done|]. cbn [app].
  rewrite <- relative_of_plain by done. apply liquid_json_mono; [done|done|]. intros tp Htp Hroot.
  destruct (rc_themes _ _ _ _ _ _ Hrec _ _ Htr Hnd Hroot) as (roots & Hrow & Hin).
  destruct (git_candidates_Some _ _ _ _ _ _ _ Hr Hrepo HC) as (_ & _ & _ & _ & _ & _ & Hlost).
  unfold a_recorded_theme_lost_its_marker in Hlost. rewrite Hrow in Hlost.
  destruct (is_shopify_theme (join_slash tp) (exists_in d)) eqn:E; [done|]. exfalso.
  apply not_true_iff_false in Hlost. apply Hlost, existsb_exists. exists (join_slash tp). rewrite E.
  split; [by apply list_elem_of_In|done].
Qed.

(** An admitted file that git does not name was admitted at the build. *)
Lemma admitted_before path :
  path <> [] -> Forall plain_name path -> admitted d sc (relative_of path) = true ->
  names_admit (rules_of sc0 old) path = true.
Proof.
  intros Hne Hp Ha. assert (Hm : membership d sc (relative_of path) false <> MRejected).
  { unfold admitted in Ha. by destruct (membership _ _ _ _). }
  rewrite admitted_real, normal_plain in Ha by (done || by exists path). apply andb_true_iff in Ha as [Hreal Hn].
  rewrite rules_before. revert Hn. unfold names_admit. apply names_loop_mono; [done|]. cbn [app].
  rewrite <- relative_of_plain by done. apply liquid_json_mono; [done|done|]. intros tp Htp _. by eapply theme_before.
Qed.

Lemma unseen_verdict f : plain_path f -> f ∉ C -> verdict d sc files f = VNone.
Proof.
  intros Hf HfC. assert (Hnd : f ∉ gr_dirty r) by (intros ?; apply HfC, candidates_are; by right; right).
  pose proof (plain_components f Hf) as (Ef & Hne & Hp). pose proof (proj2 Hscope) as Hmax. unfold verdict.
  destruct (files !! f) as [stored|] eqn:Hst.
  - destruct (rc_tracked _ _ _ _ _ _ Hrec f stored Hst Hnd) as (bytes & input & HT & Hin & Hhash & Hadm).
    destruct (unseen f Hf HfC) as [E|(E & _)]; [|by rewrite HT in E]. rewrite HT in E. unfold disk_file in E.
    destruct (real_file _ _ _) eqn:Hreal; [|done]. destruct (real_data d sc blocked Hwf f Hf Hreal) as [Hd' _].
    rewrite <- Hd' in E. destruct (data_at d f) as [fd|] eqn:Hfd; [|done]. injection E as E.
    assert (admitted d sc f = true) as ->.
    { rewrite admitted_real, Hreal by done. cbn [andb]. apply still_admitted; [done|done|..|done]; rewrite <- Ef; [|done].
      by apply elem_of_dom. }
    destruct (same_stat _ _); [done|]. rewrite E, <- Hmax, Hin, Hhash. by rewrite String.eqb_refl.
  - destruct (admitted d sc f) eqn:Ha; [|done]. destruct (data_at d f) as [fd|] eqn:Hfd; [|done].
    destruct (unseen f Hf HfC) as [E|(_ & e & He & Hc)].
    + pose proof Ha as Ha'. rewrite admitted_real in Ha' by done. apply andb_true_iff in Ha' as [Hreal _].
      destruct (real_data d sc blocked Hwf f Hf Hreal) as [Hd' _]. unfold disk_file in E. rewrite Hreal, <- Hd', Hfd in E.
      rewrite Ef in Ha. pose proof (admitted_before _ Hne Hp Ha) as Hadm.
      rewrite <- Hmax. by rewrite (rc_untracked _ _ _ _ _ _ Hrec f _ Hf Hst Hnd (eq_sym E) Hadm).
    + exfalso. unfold admitted in Ha. rewrite Ef in Ha, Hc.
      by rewrite (ignored_rejected d sc e _ Hne Hp (ignored_quiet e He) Hc) in Ha.
Qed.

End Unseen.
