(* ===== verification/GitPendingProps.v ===== *)
(** * Pending changes: the theorems

    That git's candidates say what the full inventory says, that a record is
    right when a build writes it, and where it is not. *)
From S2P Require Import Prelude Types Rows Strings PathUtil StrOps LangDetect ScanRules ScanWalk ScanFacts ScanProps WatchTree SourceFile GitPending GitPendingFacts GitTrees.

(** ** The links an index was built through *)

Section Links.
Context `{LinkRowsJsonLaws}.

Definition row_of (l : FollowedLink) : string * string * string := (fl_relative l, absolute (fl_canonical l), kind_name (fl_kind l)).

Lemma dedup_links_unique l : NoDup (map fl_relative l) -> dedup_links l = l.
Proof.
  induction l as [|a l IH]; [done|]. cbn [map]. intros [Ha Hl]%NoDup_cons. cbn [dedup_links]. rewrite IH by done.
  destruct l as [|b l]; [done|]. destruct (String.eqb_spec (fl_relative a) (fl_relative b)) as [E|]; [|done].
  destruct Ha. rewrite E. by left.
Qed.

Lemma decode_rows_increasing prev m l :
  match prev with Some p => Forall (fun x => str_le (fl_relative x) p = false) l | None => True end ->
  StronglySorted (fun a b => str_le (fl_relative b) (fl_relative a) = false) l ->
  exists m', decode_rows prev m (map row_of l) = Some m'
    /\ (forall k, k ∉ map fl_relative l -> m' !! k = m !! k)
    /\ (forall x, x ∈ l -> m' !! fl_relative x = Some (absolute (fl_canonical x), fl_kind x)).
Proof.
  intros Hp Hs. revert prev m Hp. induction Hs as [|a l Hs IH Ha]; intros prev m Hp; cbn [map decode_rows row_of].
  { exists m. split_and!; [done|done|]. intros x Hx. by apply elem_of_nil in Hx. }
  assert (match prev with Some p => str_le (fl_relative a) p | None => false end = false) as ->.
  { destruct prev; [|done]. by apply Forall_cons in Hp as [? _]. }
  assert (Hk : (if String.eqb (kind_name (fl_kind a)) "file" then Some LinkFile
    else if String.eqb (kind_name (fl_kind a)) "dir" then Some LinkDir else None) = Some (fl_kind a)) by (by destruct (fl_kind a)).
  rewrite Hk. cbn [mbind option_bind]. destruct (IH (Some (fl_relative a)) (<[fl_relative a := (absolute (fl_canonical a), fl_kind a)]> m) Ha)
    as (m' & Hd & Hout & Hin).
  exists m'. split_and!; [done| |].
  - intros k [Hka Hkl]%not_elem_of_cons. rewrite Hout by done. by rewrite lookup_insert_ne.
  - intros x [->|Hx]%elem_of_cons; [|by apply Hin]. rewrite Hout; [by rewrite lookup_insert_eq|].
    intros Hin'. apply list_elem_of_fmap in Hin' as (b & E & Hb). rewrite Forall_forall in Ha. specialize (Ha b Hb).
    rewrite <- E in Ha. destruct (str_le_total (fl_relative a) (fl_relative a)) as [Er|Er]; by rewrite Er in Ha.
Qed.

Lemma sort_links_increasing l : NoDup (map fl_relative l) ->
  StronglySorted (fun a b => str_le (fl_relative b) (fl_relative a) = false)
    (sort_by (fun a b => str_le (fl_relative a) (fl_relative b)) l).
Proof.
  intros Hnd. set (le := fun a b : FollowedLink => str_le (fl_relative a) (fl_relative b)). assert (Hs : Sorted (fun a b => le a b = true) (sort_by le l)).
  { apply sort_by_sorted. intros x y. apply str_le_total. }
  apply Sorted_StronglySorted in Hs; [|intros x y z; apply str_leb_trans].
  assert (Hnd' : NoDup (map fl_relative (sort_by le l))) by (by rewrite sort_by_perm).
  revert Hnd' Hs. generalize (sort_by le l). clear. intros l. induction l as [|a l IH]; [constructor|].
  cbn [map]. intros [Ha Hnd]%NoDup_cons Hs. apply StronglySorted_inv in Hs as [Hs Hall]. constructor; [by apply IH|].
  rewrite Forall_forall in *. intros x Hx. apply not_true_iff_false. intros E. apply Ha.
  apply list_elem_of_fmap. exists x. split; [|done]. by apply str_leb_antisym; [apply Hall|].
Qed.

(** Reading what was written. *)
Lemma encode_decode l :
  NoDup (map fl_relative l) ->
  exists m, decode (encode l) = Some m
    /\ (forall k, k ∉ map fl_relative l -> m !! k = None)
    /\ (forall x, x ∈ l -> m !! fl_relative x = Some (absolute (fl_canonical x), fl_kind x)).
Proof.
  intros Hnd. unfold decode, encode. set (le := fun a b : FollowedLink => str_le (fl_relative a) (fl_relative b)).
  assert (Hnd' : NoDup (map fl_relative (sort_by le l))) by (by rewrite sort_by_perm).
  rewrite dedup_links_unique, rows_json_roundtrip by done. cbn [mbind option_bind].
  destruct (decode_rows_increasing None ∅ (sort_by le l) I (sort_links_increasing l Hnd)) as (m & Hm & Hout & Hin).
  exists m. split_and!; [exact Hm| |].
  - intros k Hk. rewrite Hout; [done|]. by rewrite sort_by_perm.
  - intros x Hx. apply Hin. by apply elem_of_sort_by.
Qed.

Lemma absolute_components c : Forall plain_name c -> normal_components (absolute c) = c.
Proof.
  intros Hc. unfold normal_components, absolute. change ("/" +:+ join_slash c) with (String SLASH (join_slash c)).
  cbn [split_on]. rewrite Ascii.eqb_refl, filter_cons_False by (by intros [? _]). change (normal_components (join_slash c) = c).
  by apply normal_join.
Qed.

Lemma path_eqb_absolute a b :
  Forall plain_name a -> Forall plain_name b -> path_eqb (absolute a) (absolute b) = bool_decide (a = b).
Proof. intros Ha Hb. unfold path_eqb. rewrite !absolute_components by done. by rewrite Bool.eqb_reflx. Qed.

(** The same link: where it lies, where it leads, and of what kind. *)
Definition same_link (a b : FollowedLink) : Prop :=
  fl_relative a = fl_relative b /\ fl_canonical a = fl_canonical b /\ fl_kind a = fl_kind b.

#[export] Instance same_link_dec a b : Decision (same_link a b).
Proof. unfold same_link. assert (EqDecision LinkKind) by solve_decision. apply _. Defined.

Lemma list_filter_iff_in {A} (P Q : A -> Prop) `{!forall x, Decision (P x), !forall x, Decision (Q x)} (l : list A) :
  (forall x, x ∈ l -> P x <-> Q x) -> filter P l = filter Q l.
Proof.
  induction l as [|x l IH]; intros Hl; [done|]. rewrite !filter_cons, IH by (intros y Hy; apply Hl; by right).
  assert (P x <-> Q x) by (apply Hl; by left). destruct (decide (P x)), (decide (Q x)); tauto.
Qed.

Lemma NoDup_fmap_inj_in {A B} (f : A -> B) (l : list A) x y : NoDup (map f l) -> x ∈ l -> y ∈ l -> f x = f y -> x = y.
Proof.
  induction l as [|a l IH]; cbn [map]; [by intros _ ?%elem_of_nil|]. intros [Ha Hl]%NoDup_cons.
  rewrite !elem_of_cons. intros [->|Hx] [->|Hy] E; [done| | |by apply IH].
  - destruct Ha. rewrite E. apply list_elem_of_fmap. eauto.
  - destruct Ha. rewrite <- E. apply list_elem_of_fmap. eauto.
Qed.

Lemma for_scan_changed meta recorded current :
  NoDup (map fl_relative recorded) ->
  Forall (fun l => Forall plain_name (fl_canonical l)) (recorded ++ current) ->
  for_scan (record_followed_links meta recorded) current
  = map (fun l => (fl_relative l, fl_kind l)) (filter (fun l => ~ Exists (fun l0 => same_link l0 l) recorded) current).
Proof.
  intros Hnd [Hp1 Hp2]%Forall_app. unfold for_scan, record_followed_links. rewrite lookup_insert_eq. cbn [mbind option_bind].
  destruct (encode_decode recorded Hnd) as (m & -> & Hout & Hin). unfold compare_links. f_equal.
  apply list_filter_iff_in. intros l Hl. rewrite Forall_forall in Hp1, Hp2. rewrite Exists_exists.
  destruct (decide (fl_relative l ∈ map fl_relative recorded)) as [Hr|Hr].
  - apply list_elem_of_fmap in Hr as (l0 & E & Hl0). rewrite E, (Hin l0 Hl0).
    rewrite path_eqb_absolute by ((by apply Hp1) || (by apply Hp2)).
    assert (Huniq : forall x, x ∈ recorded -> fl_relative x = fl_relative l -> x = l0).
    { intros x Hx Ex. eapply (NoDup_fmap_inj_in fl_relative); eauto. congruence. }
    case_bool_decide as Hc; cbn [andb negb].
    + destruct (link_kind_eqb (fl_kind l0) (fl_kind l)) eqn:Hk; cbn [negb].
      * split; [done|]. intros Hno. destruct Hno. exists l0. split; [done|]. split_and!; [by symmetry|done|].
        by destruct (fl_kind l0), (fl_kind l).
      * split; [|done]. intros _ (x & Hx & Ex & _ & Ek). rewrite (Huniq x Hx Ex) in Ek. rewrite Ek in Hk. by destruct (fl_kind l).
    + split; [|done]. intros _ (x & Hx & Ex & Ec & _). rewrite (Huniq x Hx Ex) in Ec. done.
  - rewrite Hout by done. split; [|done]. intros _ (x & Hx & Ex & _). apply Hr. rewrite <- Ex. apply list_elem_of_fmap. eauto.
Qed.
End Links.

(** After a build recorded the links it followed, a later scan rehashes
    exactly the files behind the links that changed: a path is covered if and
    only if it is, or for a link to a directory lies below, a link of the scan
    that was not recorded with the same place, target and kind. *)
Theorem rehash_covers_changed_links `{LinkRowsJsonLaws} meta recorded current f :
  NoDup (map fl_relative recorded) ->
  Forall (fun l => Forall plain_name (fl_canonical l)) (recorded ++ current) ->
  covers (for_scan (record_followed_links meta recorded) current) f = true
  <-> exists l, l ∈ current /\ (forall l0, l0 ∈ recorded -> ~ same_link l0 l)
        /\ (f = fl_relative l \/ fl_kind l = LinkDir /\ exists rest, f = fl_relative l +:+ "/" +:+ rest).
Proof.
  intros Hnd Hp. rewrite for_scan_changed by done. unfold covers. rewrite existsb_exists. split.
  - intros ([link kind] & Hin%list_elem_of_In & Hc). apply list_elem_of_fmap in Hin as (l & E & [Hl Hcur]%list_elem_of_filter).
    injection E as -> ->. exists l. split; [done|]. split; [intros l0 H0' Hs; apply Hl, Exists_exists; eauto|].
    destruct (fl_kind l); [left; by apply String.eqb_eq|]. apply orb_true_iff in Hc as [Hc|Hc]; [left; by apply String.eqb_eq|].
    right. split; [done|]. destruct (str_strip_prefix _ _) as [rest|] eqn:Er; [|done]. apply str_strip_prefix_Some in Er as ->.
    apply starts_with_spec in Hc as [rest' ->]. by exists rest'.
  - intros (l & Hcur & Hl & Hc). exists (fl_relative l, fl_kind l). split.
    { apply list_elem_of_In, list_elem_of_fmap. exists l. split; [done|]. apply list_elem_of_filter. split; [|done].
      rewrite Exists_exists. intros (l0 & H0' & Hs). by apply (Hl l0). }
    destruct Hc as [->|[-> [rest ->]]]; [destruct (fl_kind l); by rewrite String.eqb_refl|].
    apply orb_true_iff. right.
    assert (str_strip_prefix (fl_relative l) (fl_relative l +:+ "/" +:+ rest) = Some ("/" +:+ rest)) as ->
      by (by apply str_strip_prefix_Some). apply starts_with_spec. by exists rest.
Qed.

Section Exact.
Context `{ScopeEnv} `{LinkRowsJson} `{SerdeJson} `{GitRecordJson}.






Lemma read_record_forget (meta : gmap string string) : read_record (delete GIT_PENDING_KEY meta) = None.
Proof. unfold read_record. by rewrite lookup_delete_eq. Qed.

Lemma read_record_written `{!GitRecordJsonLaws} r (meta : gmap string string) :
  read_record (<[GIT_PENDING_KEY := record_to_json r]> meta) = Some r.
Proof. unfold read_record. rewrite lookup_insert_eq. cbn [mbind option_bind]. apply record_json_roundtrip. Qed.



(** Extending a record keeps it right through an incremental sync that moves the
    rows of the requested paths and no other, nor the themes row. (A sync may do
    more: when the frameworks of a project changed it reads every indexed file
    again, and when a theme came or went its templates.) *)
Lemma extend_right `{!GitRecordJsonLaws} sc sc0 old T files files' meta requested r' :
  (forall r, read_record meta = Some r -> recorded r sc0 old T files meta) ->
  (forall f, f ∈ requested -> plain_path f) -> (forall f, f ∉ requested -> files' !! f = files !! f) ->
  read_record (extend_for_incremental sc meta requested) = Some r' ->
  exists r, read_record meta = Some r /\ gr_commit r' = gr_commit r /\ gr_links r' = gr_links r
    /\ recorded r' sc0 old T files' (extend_for_incremental sc meta requested).
Proof.
  intros Hright Hreq Hrows. unfold extend_for_incremental, forget.
  destruct (read_record meta) as [r|] eqn:Hr; [|by rewrite read_record_forget].
  destruct (_ && _); [|by rewrite read_record_forget]. rewrite read_record_written. intros [= <-].
  exists r. split_and!; [done..|]. specialize (Hright r eq_refl).
  assert (Hd : forall f, f ∈ in_order (list_to_set (gr_dirty r) ∪ requested) <-> f ∈ gr_dirty r \/ f ∈ requested).
  { intros f. by rewrite elem_of_in_order, elem_of_union, elem_of_list_to_set. }
  destruct Hright as [Hsc Hdirty Hplain Htr Hun Hmk Hth]. constructor; cbn [gr_scope gr_dirty].
  - done.
  - intros f [Hf|Hf]%Hd; [by apply Hdirty|by apply Hreq].
  - intros f Hf. destruct (decide (f ∈ requested)) as [|Hn]; [by apply Hreq|]. apply Hplain.
    apply elem_of_dom. rewrite <- Hrows by done. by apply elem_of_dom.
  - intros f stored Hst Hf. rewrite Hd in Hf. apply Htr; [|tauto]. rewrite <- Hrows by tauto. done.
  - intros f bytes Hf Hst Hn. rewrite Hd in Hn. apply Hun; [done| |tauto]. rewrite <- Hrows by tauto. done.
  - intros m Hm Hf. rewrite Hd in Hf. apply Hmk; [done|tauto].
  - intros f theme Hf Hn Hroot. rewrite Hd in Hn. rewrite lookup_insert_ne by done. apply (Hth f theme); [|tauto|done].
    apply elem_of_dom. rewrite <- Hrows by tauto. by apply elem_of_dom.
Qed.

End Exact.

(** ** A repository for the examples *)

#[local] Instance DemoScope : ScopeEnv := {|
  hash_content s := s;
  identity_to_json i := "scope";
  build_gitignore l := mkRootGitignore None
|}.

#[local] Instance DemoLinks : LinkRowsJson := {|
  rows_to_json l := pos_to_bits (stdpp.countable.encode l);
  rows_from_json s := stdpp.countable.decode (bits_to_pos s)
|}.

#[local] Instance demo_links_laws : LinkRowsJsonLaws.
Proof. constructor. intros l. cbn. by rewrite bits_roundtrip, stdpp.countable.decode_encode. Qed.

#[local] Instance DemoRecords : GitRecordJson := {|
  record_to_json r := pos_to_bits (stdpp.countable.encode
    (gr_v r, gr_commit r, gr_dirty r, gr_scope r, gr_links r, gr_submodules r));
  record_from_json s := '(v, c, d, sc, l, m) ← stdpp.countable.decode (bits_to_pos s); Some (mkGitRecord v c d sc l m)
|}.

#[local] Instance demo_record_laws : GitRecordJsonLaws.
Proof. constructor. intros []. cbn. by rewrite bits_roundtrip, stdpp.countable.decode_encode. Qed.

Definition demo_scope : Scope :=
  mkScope' (mkOptions [] [] [] [] 100 ∅) None None [].

(** A disk of these files in the directory [p]. *)
Definition demo_disk (l : list (string * string * Z)) : Disk :=
  mkDisk (mkFs {[["p"] := map (fun f => (f.1.1, KFile)) l]} ∅) ["p"]
    (list_to_map (map (fun f => (["p"; f.1.1], mkFileData f.1.2 f.2)) l)) (fun _ => (0%N, 0%Z)).

Definition demo_row (path text : string) (time : Z) : FileRecord :=
  mkFileRecord path text LangRust (Z.of_nat (String.length text)) time 0 0 [] false.

(** Git at a commit, with a status, a diff to what it is asked for, and nothing
    that is ignored. *)
Definition demo_git (head : string) (status diff : string) : GitEnv :=
  mkGit (fun args =>
    if bool_decide (args = REV_PARSE_ARGS) then
      Some (head +:+ String NEWLINE (String NEWLINE ("/p" +:+ String NEWLINE (".git" +:+ String NEWLINE ""))))
    else if bool_decide (args = STATUS_ARGS) then Some status
    else if bool_decide (args = IGNORED_ARGS \/ args = INDEX_ARGS \/ args = CONFIG_ARGS \/ args = ATTRIBUTES_ARGS
                         \/ args = ["var"; "GIT_ATTR_SYSTEM"] \/ args = ["var"; "GIT_ATTR_GLOBAL"]) then Some ""
    else if bool_decide (args = ["cat-file"; "-e"; "c1^{commit}"]) then Some ""
    else if bool_decide (args = DIFF_ARGS "c1") then Some diff else None)
  (fun _ => false) None "/p".

Section DemoDisk.
Variable l : list (string * string * Z).
Hypotheses (Hnames : NoDup (map (fun f => f.1.1) l)) (Hplain : Forall (fun f => plain_name f.1.1) l).

#[local] Notation d := (demo_disk l).










End DemoDisk.

(** *** A changed tree *)

Definition demo_tree : Tree := {["a.rs" := "1"; "b.rs" := "2"; "c.rs" := "3"]}.
Definition demo_files : gmap string FileRecord :=
  {["a.rs" := demo_row "a.rs" "1" 10; "b.rs" := demo_row "b.rs" "2" 10; "c.rs" := demo_row "c.rs" "3" 10]}.
Definition demo_record : GitRecord := mkGitRecord 1 "c1" [] "scope" false false.
Definition demo_meta : Metadatas := {[GIT_PENDING_KEY := record_to_json demo_record]}.
Definition demo_repo : Repo := mkRepo "c2" "" "/p" "/p/.git".


Lemma demo_field f : f ∈ ["a.rs"; "b.rs"; "c.rs"; "d.rs"] -> path_field demo_repo f /\ plain_path f.
Proof.
  intros Hf. split; [repeat (apply elem_of_cons in Hf as [->|Hf]; [by split|]); by apply elem_of_nil in Hf|].
  exists [f]. split; [done|]. rewrite Forall_singleton.
  repeat (apply elem_of_cons in Hf as [->|Hf]; [split; [by apply plain_nameb_true|done]|]). by apply elem_of_nil in Hf.
Qed.




Lemma demo_three f : f ∈ dom demo_files -> f ∈ ["a.rs"; "b.rs"; "c.rs"].
Proof. intros Hf. assert (dom demo_files ⊆ {["a.rs"; "b.rs"; "c.rs"]}) by (by vm_compute). set_solver. Qed.

Lemma demo_not_theme f old theme : f ∈ ["a.rs"; "b.rs"; "c.rs"; "d.rs"] -> shopify_theme_root f old SHOPIFY_JSON_FOLDERS <> Some theme.
Proof. intros Hf. repeat (apply elem_of_cons in Hf as [->|Hf]; [done|]). by apply elem_of_nil in Hf. Qed.

Lemma demo_recorded : recorded demo_record demo_scope (fun _ => false) demo_tree demo_files demo_meta.
Proof.
  constructor; [done|by intros f Hf%elem_of_nil|intros f Hf%demo_three; apply demo_field; set_solver|..].
  - intros f stored Hst _. assert (Hf : f ∈ dom demo_files) by (by apply elem_of_dom). apply demo_three in Hf.
    repeat (apply elem_of_cons in Hf as [->|Hf]; [vm_compute in Hst; injection Hst as <-; eexists _, _; by split_and!; try by vm_compute|]).
    by apply elem_of_nil in Hf.
  - intros f bytes Hf Hst _ HT. assert (Hin : f ∈ dom demo_tree) by (by apply elem_of_dom).
    assert (dom demo_tree ⊆ dom demo_files) by (by vm_compute). assert (Hf' : f ∈ dom demo_files) by set_solver.
    apply elem_of_dom in Hf' as [? E]. by rewrite E in Hst.
  - intros m Hm _ [b HT]. assert (Hin : m ∈ dom demo_tree) by (by apply elem_of_dom).
    assert (Hs : dom demo_tree ⊆ dom demo_files) by (by vm_compute). apply Hs, demo_three in Hin.
    repeat (apply elem_of_cons in Hin as [->|Hin]; [done|]). by apply elem_of_nil in Hin.
  - intros f theme Hf%demo_three _ Hth. by apply demo_not_theme in Hth; [|set_solver].
Qed.


(** *** A record, and an incremental sync after it *)

Definition demo_capture : GitIndexCapture := mkCapture (mkRepo "c1" "" "/p" "/p/.git") ∅ false "scope".





(** The record after a sync of one path calls it dirty, and is right when the
    path's row went. *)
Definition demo_synced : Metadatas := extend_for_incremental demo_scope demo_meta {["a.rs"]}.

Example demo_extended :
  exists r, read_record demo_synced = Some r /\ gr_dirty r = ["a.rs"]
    /\ recorded r demo_scope (fun _ => false) demo_tree (delete "a.rs" demo_files) demo_synced.
Proof.
  destruct (extend_right demo_scope demo_scope (fun _ => false) demo_tree demo_files (delete "a.rs" demo_files) demo_meta {["a.rs"]}
    (mkGitRecord 1 "c1" ["a.rs"] "scope" false false)) as (r & _ & _ & _ & Hr).
  - intros r Hr. assert (read_record demo_meta = Some demo_record) as E by (by vm_compute). rewrite E in Hr. injection Hr as <-.
    exact demo_recorded.
  - intros f ->%elem_of_singleton. apply demo_field. set_solver.
  - intros f Hf. rewrite lookup_delete_ne; [done|set_solver].
  - by vm_compute.
  - eexists. split_and!; [by vm_compute|done|exact Hr].
Qed.

(** [record] keeps the commit that the build began at without looking at
    HEAD again. Where a checkout came between [begin] and the build's reads, the
    rows are another commit's, no status tells, and after a checkout back to the
    first commit the fast path says that nothing is pending while the inventory
    finds the file modified. *)
Theorem record_misses_moved_head :
  exists cap g_build d_build d_back files meta,
    begin_capture (demo_git "c1" "" "") demo_scope = Some cap
    /\ record cap g_build d_build demo_scope files ∅ false [] = Ok meta
    /\ Repo_read g_build <> Some (ca_repo cap)
    /\ full_inventory d_build demo_scope files meta [] = Ok nothing_pending
    /\ git_fast_pending (demo_git "c1" "" "") d_back demo_scope files meta = Ok (Some nothing_pending)
    /\ full_inventory d_back demo_scope files meta [] = Ok (mkChanged [] ["a.rs"] []).
Proof.
  exists demo_capture, (demo_git "c2" "" ""), (demo_disk [("a.rs", "2", 20%Z)]), (demo_disk [("a.rs", "1", 30%Z)]),
    {["a.rs" := demo_row "a.rs" "2" 20]}.
  eexists. split_and!; [by vm_compute|by vm_compute|by vm_compute|by vm_compute|by vm_compute|by vm_compute].
Qed.

(** A file that git ignores and the scan keeps (by a nested [.gitignore], or
    by global excludes) is indexed but in no report: it is not among the
    record's dirty paths. Once it is deleted git no longer lists it as ignored
    either, and the fast path says that nothing is pending while the inventory
    finds it removed. *)
Theorem record_misses_ignored_file :
  exists cap d_build files meta,
    begin_capture (demo_git "c1" "" "") demo_scope = Some cap
    /\ record cap (demo_git "c1" "" "") d_build demo_scope files ∅ false [] = Ok meta
    /\ full_inventory d_build demo_scope files meta [] = Ok nothing_pending
    /\ git_fast_pending (demo_git "c1" "" "") (demo_disk []) demo_scope files meta = Ok (Some nothing_pending)
    /\ full_inventory (demo_disk []) demo_scope files meta [] = Ok (mkChanged [] [] ["a.rs"]).
Proof.
  exists demo_capture, (demo_disk [("a.rs", "1", 20%Z)]), {["a.rs" := demo_row "a.rs" "1" 20]}.
  eexists. split_and!; [by vm_compute|by vm_compute|by vm_compute|by vm_compute|by vm_compute].
Qed.

(** A committed link that leads nowhere when an index is built is clean to git
    and nothing to the scan: the record says that no link was followed. When its
    target appears, outside the repository, git still has nothing to report, and
    the fast path says that nothing is pending while the inventory finds the file
    the link now leads to. *)
Definition link_disk (target : bool) : Disk :=
  mkDisk
    (if target
     then mkFs {[["p"] := [("a.rs", KLink)]; ["q"] := [("t.rs", KFile)]]} {[["p"; "a.rs"] := TFile ["q"; "t.rs"]]}
     else mkFs {[["p"] := [("a.rs", KLink)]]} ∅)
    ["p"]
    (if target then {[["q"; "t.rs"] := mkFileData "1" 20]} else ∅) (fun _ => (0%N, 0%Z)).

Theorem clean_link_missed :
  exists cap meta,
    begin_capture (demo_git "c1" "" "") demo_scope = Some cap
    /\ record cap (demo_git "c1" "" "") (link_disk false) demo_scope ∅ ∅ false [] = Ok meta
    /\ full_inventory (link_disk false) demo_scope ∅ meta [] = Ok nothing_pending
    /\ git_fast_pending (demo_git "c1" "" "") (link_disk true) demo_scope ∅ meta = Ok (Some nothing_pending)
    /\ full_inventory (link_disk true) demo_scope ∅ meta [] = Ok (mkChanged ["a.rs"] [] []).
Proof.
  exists demo_capture. eexists.
  split_and!; [by vm_compute|by vm_compute|by vm_compute|by vm_compute|by vm_compute].
Qed.

(** *** Links *)

Definition demo_link_old : FollowedLink := mkFollowed "vendor" ["ext"; "v1"] LinkDir.
Definition demo_link_new : FollowedLink := mkFollowed "vendor" ["ext"; "v2"] LinkDir.
Definition demo_link_same : FollowedLink := mkFollowed "alias.rs" ["p"; "a.rs"] LinkFile.

Lemma rehash_covers_changed_links_witness :
  covers (for_scan (record_followed_links ∅ [demo_link_same; demo_link_old]) [demo_link_same; demo_link_new]) "vendor/x.rs" = true.
Proof.
  apply (rehash_covers_changed_links ∅ [demo_link_same; demo_link_old] [demo_link_same; demo_link_new] "vendor/x.rs").
  - apply NoDup_cons. split; [by intros ?%list_elem_of_singleton|apply NoDup_singleton].
  - repeat (apply Forall_cons; split; [repeat (apply Forall_cons; split; [by apply plain_nameb_true|]); by apply Forall_nil|]). by apply Forall_nil.
  - exists demo_link_new. split; [by right; left|]. split; [|right; split; [done|by exists "x.rs"]].
    intros l0 Hl0 (E1 & E2 & _). repeat (apply elem_of_cons in Hl0 as [->|Hl0]; [done|]). by apply elem_of_nil in Hl0.
Defined.
