(* ===== verification/ImportPaths.v ===== *)
(** * Import paths (codegraph-resolve/src: path_aliases.rs,
      workspace_packages.rs, of go_packages.rs the modules, of import_resolver.rs
      the resolution of a path)

    Which file of the project an import path names. What the loaders read is
    traced, as the code does to know when they must read again; a text is its
    characters, and paths are the same up to empty and inner dot components. *)
From S2P Require Import Prelude Types Strings PathUtil StrOps Utf8 LangDetect SourceFile GitPending.

(** ** Reading with a trace *)

(** A computation with the inputs it looked at, in order. *)
Definition Tracked (I A : Type) : Type := (list I * A)%type.

#[export] Instance tracked_ret I : MRet (Tracked I) := fun A a => ([], a).
#[export] Instance tracked_bind I : MBind (Tracked I) :=
  fun A B f m => let '(l, b) := f m.2 in (m.1 ++ l, b).

Definition look {I A} (i : I) (a : A) : Tracked I A := ([i], a).

Fixpoint tracked_fold {I S A} (f : S -> A -> Tracked I S) (s : S) (l : list A) : Tracked I S :=
  match l with
  | [] => mret s
  | a :: l => s ← f s a; tracked_fold f s l
  end.

(** [filter(|input| seen.insert(input))]. *)
Fixpoint first_seen {I} (same : I -> I -> bool) (seen l : list I) : list I :=
  match l with
  | [] => []
  | i :: l => if existsb (same i) seen then first_seen same seen l else i :: first_seen same (i :: seen) l
  end.

(** ** tsconfig paths (path_aliases.rs) *)

Record AliasPattern : Set := mkPattern {
  al_prefix : string;
  al_suffix : string;
  al_has_wildcard : bool;
  al_replacements : list string
}.

Record AliasMap : Set := mkAliasMap { am_base_url : string; am_patterns : list AliasPattern }.

Record EffectiveOptions : Set := mkEffective {
  ef_base_url : option string;
  ef_paths : option (list (string * Value));
  ef_paths_dir : option string
}.

Definition no_options : EffectiveOptions := mkEffective None None None.

Definition MAX_EXTENDS_DEPTH : nat := 32.

Definition QUOTE : Char := 34%N.
Definition STAR : Char := 42%N.
Definition CSLASH : Char := 47%N.
Definition CBACKSLASH : Char := 92%N.
Definition CNEWLINE : Char := 10%N.

Fixpoint skip_line (l : list Char) : list Char :=
  match l with
  | [] => []
  | c :: rest => if (c =? CNEWLINE)%N then l else skip_line rest
  end.

Fixpoint skip_block (l : list Char) : list Char :=
  match l with
  | c :: ((d :: rest) as tail) => if ((c =? STAR) && (d =? CSLASH))%N then rest else skip_block tail
  | _ => []
  end.

(** The comment stripper's loop. *)
Fixpoint strip_comments (fuel : nat) (in_string : bool) (l : list Char) : result Empty_set (list Char) :=
  match fuel with
  | 0 => OutOfFuel
  | S fuel =>
      match l with
      | [] => Ok []
      | c :: rest =>
          if in_string then
            match (c =? CBACKSLASH)%N, rest with
            | true, d :: rest => out ← strip_comments fuel true rest; Ok (c :: d :: out)
            | _, _ => out ← strip_comments fuel (negb (c =? QUOTE)%N) rest; Ok (c :: out)
            end
          else if (c =? QUOTE)%N then out ← strip_comments fuel true rest; Ok (c :: out)
          else match (c =? CSLASH)%N, rest with
               | true, d :: rest' =>
                   if (d =? CSLASH)%N then strip_comments fuel false (skip_line l)
                   else if (d =? STAR)%N then strip_comments fuel false (skip_block rest')
                   else out ← strip_comments fuel false rest; Ok (c :: out)
               | _, _ => out ← strip_comments fuel false rest; Ok (c :: out)
               end
      end
  end.

Fixpoint drop_white (l : list Char) : list Char :=
  match l with
  | [] => []
  | c :: rest => if is_whitespace c then drop_white rest else l
  end.

Definition COMMA : Char := 44%N.
Definition closes (c : Char) : bool := ((c =? 125) || (c =? 93))%N.

Fixpoint strip_trailing_commas (l : list Char) : list Char :=
  match l with
  | [] => []
  | c :: rest =>
      if (c =? COMMA)%N && match drop_white rest with d :: _ => closes d | [] => false end
      then strip_trailing_commas rest
      else c :: strip_trailing_commas rest
  end.

Definition strip_jsonc (src : list Char) : result Empty_set (list Char) :=
  out ← strip_comments (S (length src)) false src; Ok (strip_trailing_commas out).

(** [path_to_posix]. *)
Definition string_path_to_posix (path : string) : string := normalize (str_replace BACKSLASH SLASH path).

(** A path again from its components. *)
Definition path_of (absolute : bool) (components : list string) : string :=
  if absolute then "/" +:+ join_slash components else join_slash components.

Definition path_parent (path : string) : string :=
  path_of (is_absolute path) (removelast (normal_components path)).

(** [Path::ancestors]: the path, its parent, and so on. *)
Definition path_ancestors (path : string) : list string :=
  map (fun n => path_of (is_absolute path) (take n (normal_components path)))
    (rev (seq 0 (S (length (normal_components path))))).

Definition resolve_config_path (from_dir spec : string) : string := path_join from_dir spec.
Definition append_json_extension (path : string) : string := path +:+ ".json".

Definition candidates_for (base : string) : list string :=
  [base; append_json_extension base; path_join base "tsconfig.json"].

(** The files a loader reads: whether a path is a file, and its text. *)
Record ConfigFs : Type := mkConfigFs { cf_is_file : string -> bool; cf_text : string -> option (list Char) }.

Section Aliases.
Variables (from_json : list Char -> option Value) (fs : ConfigFs).

Definition is_file (path : string) : Tracked string bool := look path (cf_is_file fs path).

Fixpoint find_file (l : list string) : Tracked string (option string) :=
  match l with
  | [] => mret None
  | candidate :: l => found ← is_file candidate; if (found : bool) then mret (Some candidate) else find_file l
  end.

Definition resolve_extends_target (spec from_dir : string) : Tracked string (option string) :=
  if starts_with spec "./" || starts_with spec "../" || is_absolute spec
  then find_file (candidates_for (resolve_config_path from_dir spec))
  else find_file (path_ancestors from_dir ≫= fun dir => candidates_for (path_join (path_join dir "node_modules") spec)).

Definition read_tsconfig_like (path : string) : Tracked string (option Value) :=
  text ← look path (cf_text fs path);
  mret (text ← text;
        match strip_jsonc text with
        | Ok json => match from_json json with Some (VObject entries) => Some (VObject entries) | _ => None end
        | _ => None
        end).

Definition extends_of (raw : Value) : list string :=
  match Value_get raw "extends" with
  | Some (VString parent) => [parent]
  | Some (VArray parents) => omap Value_as_str parents
  | _ => []
  end.

(** What a parent's options add to those of the parents before it. *)
Definition inherit (effective inherited : EffectiveOptions) : EffectiveOptions :=
  let base_url := match ef_base_url inherited with Some b => Some b | None => ef_base_url effective end in
  match ef_paths inherited with
  | Some paths => mkEffective base_url (Some paths) (ef_paths_dir inherited)
  | None => mkEffective base_url (ef_paths effective) (ef_paths_dir effective)
  end.

Definition Value_as_object (v : Value) : option (list (string * Value)) :=
  match v with VObject entries => Some entries | _ => None end.

(** What the config itself declares. *)
Definition apply_own (dir : string) (raw : Value) (effective : EffectiveOptions) : EffectiveOptions :=
  let options := Value_get raw "compilerOptions" ≫= Value_as_object in
  let get key := (options ≫= fun entries => Value_get (VObject entries) key) in
  let base_url := match get "baseUrl" ≫= Value_as_str with
                  | Some base_url => Some (string_path_to_posix (resolve_config_path dir base_url))
                  | None => ef_base_url effective
                  end in
  match get "paths" ≫= Value_as_object with
  | Some paths => mkEffective base_url (Some paths) (Some (string_path_to_posix dir))
  | None => mkEffective base_url (ef_paths effective) (ef_paths_dir effective)
  end.

(** [budget] is how many configs may still be folded, [MAX_EXTENDS_DEPTH + 1 -
    depth]; the stack is the same when a call returns as when it began. *)
Fixpoint load_effective_options (budget : nat) (file_path : string) (stack : list string)
    : Tracked string (option EffectiveOptions) :=
  match budget with
  | 0 => mret None
  | S budget =>
      let key := string_path_to_posix file_path in
      if bool_decide (key ∈ stack) then mret None else
      raw ← read_tsconfig_like file_path;
      match raw with
      | None => mret None
      | Some raw =>
          let dir := path_parent file_path in
          effective ← tracked_fold (fun effective parent =>
              target ← resolve_extends_target parent dir;
              match target with
              | None => mret effective
              | Some target =>
                  inherited ← load_effective_options budget target (key :: stack);
                  mret match inherited with Some inherited => inherit effective inherited | None => effective end
              end) no_options (extends_of raw);
          mret (Some (apply_own dir raw effective))
      end
  end.

Definition split_wildcard (pattern : string) : string * string * bool :=
  match split_once "*" pattern with
  | None => (pattern, "", false)
  | Some (before, after) => (before, after, true)
  end.

Definition pattern_of (entry : string * Value) : option AliasPattern :=
  match entry.2 with
  | VArray targets =>
      match omap Value_as_str targets with
      | [] => None
      | filtered => let '(prefix, suffix, has_wildcard) := split_wildcard entry.1 in
                    Some (mkPattern prefix suffix has_wildcard filtered)
      end
  | _ => None
  end.

(** The order of specificity: [a] is not after [b]. *)
Definition specificity_le (a b : AliasPattern) : bool :=
  let la := String.length (al_prefix a) in
  let lb := String.length (al_prefix b) in
  if negb (la =? lb) then lb <? la
  else negb (al_has_wildcard a && negb (al_has_wildcard b)).

(** The three root configs: the first that loads, or the first with paths. *)
Fixpoint root_options (project_root : string) (effective : option EffectiveOptions) (names : list string)
    : Tracked string (option EffectiveOptions) :=
  match names with
  | [] => mret effective
  | name :: names =>
      let p := path_join project_root name in
      found ← is_file p;
      if negb (found : bool) then root_options project_root effective names else
      options ← load_effective_options (S MAX_EXTENDS_DEPTH) p [];
      match options with
      | None => root_options project_root effective names
      | Some options =>
          match ef_paths options with
          | Some _ => mret (Some options)
          | None => root_options project_root (match effective with None => Some options | some => some end) names
          end
      end
  end.

Definition alias_map (project_root : string) (effective : EffectiveOptions) : option AliasMap :=
  let base_url := default (string_path_to_posix project_root)
    (match ef_base_url effective with Some b => Some b | None => ef_paths_dir effective end) in
  paths ← ef_paths effective;
  match omap pattern_of paths with
  | [] => None
  | patterns => Some (mkAliasMap base_url (sort_by specificity_le patterns))
  end.

Definition load_project_aliases (project_root : string) : Tracked string (option AliasMap) :=
  effective ← root_options project_root None ["tsconfig.json"; "jsconfig.json"; "tsconfig.base.json"];
  mret (effective ≫= alias_map project_root).

Definition alias_config_inputs (project_root : string) : list string :=
  first_seen path_eqb [] (load_project_aliases project_root).1.

End Aliases.

(** A slice whose start lies after its end. *)
Inductive SlicePanic : Set := SliceBeginAfterEnd.

(** [s.replacen('*', by, 1)]. *)
Definition replace_star (s by_ : string) : string :=
  match split_once "*" s with Some (before, after) => before +:+ by_ +:+ after | None => s end.

(** What a pattern captures of an import path, [None] when it does not match. *)
Definition capture (pat : AliasPattern) (import_path : string) : result SlicePanic (option string) :=
  if negb (starts_with import_path (al_prefix pat)) then Ok None else
  if negb (String.eqb (al_suffix pat) "") && negb (ends_with import_path (al_suffix pat)) then Ok None else
  if al_has_wildcard pat then
    let begin := String.length (al_prefix pat) in
    let end_ := String.length import_path - String.length (al_suffix pat) in
    if end_ <? begin then Err SliceBeginAfterEnd
    else Ok (Some (str_take (end_ - begin) (str_drop begin import_path)))
  else if negb (String.eqb import_path (al_prefix pat)) then Ok None
  else Ok (Some "").

Definition rewrites (aliases : AliasMap) (project_root : string) (pat : AliasPattern) (captured : string) : list string :=
  omap (fun target =>
    let filled := if al_has_wildcard pat then replace_star target captured else target in
    let absolute := PathUtil.resolve (am_base_url aliases) filled in
    let rel := PathUtil.relative project_root absolute in
    if String.eqb rel ".." || starts_with rel "../" then None else Some rel) (al_replacements pat).

Fixpoint apply_patterns (import_path : string) (aliases : AliasMap) (project_root : string) (l : list AliasPattern)
    : result SlicePanic (list string) :=
  match l with
  | [] => Ok []
  | pat :: l =>
      capture pat import_path ≫= fun captured : option string =>
      match captured with
      | None => apply_patterns import_path aliases project_root l
      | Some captured => Ok (rewrites aliases project_root pat captured)
      end
  end.

Definition apply_aliases (import_path : string) (aliases : AliasMap) (project_root : string)
    : result SlicePanic (list string) :=
  apply_patterns import_path aliases (string_path_to_posix project_root) (am_patterns aliases).

(** ** Workspace packages (workspace_packages.rs) *)

Inductive WorkspaceInput : Set := InFile (path : string) | InMemberListing (dir : string).

Definition WorkspacePackages : Type := gmap string string.

(** What the loader reads: a text file, and the names of the directories in a
    directory, in the order they are read. *)
Record WorkspaceFs : Type := mkWorkspaceFs { ws_text : string -> option string; ws_dirs : string -> list string }.

Fixpoint collapse_slashes (prev_slash : bool) (s : string) : string :=
  match s with
  | EmptyString => EmptyString
  | String c s =>
      if Ascii.eqb c SLASH then (if prev_slash then collapse_slashes true s else String c (collapse_slashes true s))
      else String c (collapse_slashes false s)
  end.

Definition resolve_workspace_import (import_path : string) (ws : WorkspacePackages) : option string :=
  let best := fold_left (fun best name =>
      if (String.eqb import_path name || starts_with import_path (name +:+ "/"))
         && match best with None => true | Some b => String.length b <? String.length name end
      then Some name else best) (sort_by str_le (map fst (map_to_list ws))) (@None string) in
  best_name ← best;
  dir ← ws !! best_name;
  let subpath := str_drop (String.length best_name) import_path in
  Some (collapse_slashes false (dir +:+ subpath)).

Definition trim_start (s : string) : string := str_concat (drop_whitespace (text_pieces s)).
Definition starts_with_whitespace (s : string) : bool :=
  match text_pieces s with p :: _ => piece_is_whitespace p | [] => false end.

Fixpoint trim_start_quotes (s : string) : string :=
  match s with
  | String c s' => if Ascii.eqb c "'" || Ascii.eqb c (ascii_of_nat 34) then trim_start_quotes s' else s
  | EmptyString => EmptyString
  end.
Fixpoint trim_end_quotes (s : string) : string :=
  match s with
  | EmptyString => EmptyString
  | String c s =>
      match trim_end_quotes s with
      | EmptyString => if Ascii.eqb c "'" || Ascii.eqb c (ascii_of_nat 34) then EmptyString else String c EmptyString
      | t => String c t
      end
  end.

(** The lines of [parse_pnpm_packages]. *)
Fixpoint pnpm_lines (in_packages : bool) (l : list string) : list string :=
  match l with
  | [] => []
  | line :: l =>
      let trimmed_start := trim_start line in
      if starts_with trimmed_start "packages" && str_contains ":" trimmed_start
         && starts_with (trim_start (trim_start_matches "packages" trimmed_start)) ":"
      then pnpm_lines true l
      else if in_packages then
        match str_strip_prefix "-" trimmed_start with
        | Some rest => trim_end_quotes (trim_start_quotes (trim rest)) :: pnpm_lines in_packages l
        | None => pnpm_lines (String.eqb (trim line) "" || starts_with_whitespace line) l
        end
      else pnpm_lines in_packages l
  end.

Definition parse_pnpm_packages (yaml : string) : list string := pnpm_lines false (lines yaml).

Section Workspace.
Variables (from_json : string -> option Value) (fs : WorkspaceFs).

Definition read_input (path : string) : Tracked WorkspaceInput (option string) := look (InFile path) (ws_text fs path).

Definition member_listing (dir : string) : list string :=
  sort_by str_le (filter (fun name => starts_with name "." = false /\ name <> "node_modules") (ws_dirs fs dir)).

Definition workspaces_of (pkg : Value) : list string :=
  match Value_get pkg "workspaces" with
  | Some (VArray ws) => omap Value_as_str ws
  | Some (VObject obj) =>
      match Value_get (VObject obj) "packages" with Some (VArray pkgs) => omap Value_as_str pkgs | _ => [] end
  | _ => []
  end.

Definition read_workspace_globs (project_root : string) : Tracked WorkspaceInput (list string) :=
  text ← read_input (path_join project_root "package.json");
  yaml ← read_input (path_join project_root "pnpm-workspace.yaml");
  mret (match text ≫= from_json with Some pkg => workspaces_of pkg | None => [] end
        ++ match yaml with Some yaml => parse_pnpm_packages yaml | None => [] end).

Definition expand_workspace_glob (project_root pattern : string) : Tracked WorkspaceInput (list string) :=
  let norm := trim_end_matches SLASH (str_replace BACKSLASH SLASH pattern) in
  match split_once "*" norm with
  | None => mret [norm]
  | Some (before, _) =>
      let base := trim_end_matches SLASH before in
      let dir := if String.eqb base "" then project_root else path_join project_root base in
      names ← look (InMemberListing dir) (member_listing dir);
      mret (map (fun name => if String.eqb base "" then name else base +:+ "/" +:+ name) names)
  end.

Definition read_package_name (dir_abs : string) : Tracked WorkspaceInput (option string) :=
  text ← read_input (path_join dir_abs "package.json");
  mret (text ← text; pkg ← from_json text; name ← Value_get pkg "name" ≫= Value_as_str;
        if String.eqb name "" then None else Some name).

(** One member directory: the first declaration of a name stays. *)
Definition add_package (project_root : string) (by_name : WorkspacePackages) (dir : string)
    : Tracked WorkspaceInput WorkspacePackages :=
  name ← read_package_name (path_join project_root dir);
  mret match name with
       | Some name => match by_name !! name with Some _ => by_name | None => <[name := dir]> by_name end
       | None => by_name
       end.

Definition load_workspace_packages (project_root : string) : Tracked WorkspaceInput (option WorkspacePackages) :=
  patterns ← read_workspace_globs project_root;
  match patterns with
  | [] => mret None
  | _ =>
      by_name ← tracked_fold (fun by_name pattern =>
          dirs ← expand_workspace_glob project_root pattern;
          tracked_fold (add_package project_root) by_name dirs) (∅ : WorkspacePackages) patterns;
      mret (if bool_decide (by_name = ∅) then None else Some by_name)
  end.

Definition same_input (a b : WorkspaceInput) : bool :=
  match a, b with
  | InFile p, InFile q | InMemberListing p, InMemberListing q => path_eqb p q
  | _, _ => false
  end.

Definition workspace_inputs (project_root : string) : list WorkspaceInput :=
  first_seen same_input [] (load_workspace_packages project_root).1.

End Workspace.

(** ** Go modules (go_packages.rs) *)

Record GoModule : Set := mkGoModule { gm_module_path : string; gm_dir : string }.

Definition is_ignored_module_dir (dir : string) : bool :=
  existsb (fun segment => String.eqb segment "testdata" || starts_with segment "_" || starts_with segment ".")
    (split_on SLASH dir).

Definition owning_go_module (import_path : string) (modules : list GoModule) (own : option GoModule)
    : option GoModule :=
  let is_own m := match own with Some own => String.eqb (gm_dir own) (gm_dir m) | None => false end in
  fold_left (fun best m =>
    if negb (String.eqb import_path (gm_module_path m)) && negb (starts_with import_path (gm_module_path m +:+ "/"))
    then best else
    let longer := match best with
                  | None => true
                  | Some b => String.length (gm_module_path b) <? String.length (gm_module_path m)
                  end in
    let tie_to_own := match best with
                      | None => false
                      | Some b => (String.length (gm_module_path m) =? String.length (gm_module_path b)) && is_own m
                      end in
    if longer || tie_to_own then Some m else best)
    (filter (fun m => negb (is_ignored_module_dir (gm_dir m)) || is_own m = true) modules) None.

Definition package_dir_in (import_path : string) (m : GoModule) : string :=
  let below := trim_start_matches "/" (default "" (str_strip_prefix (gm_module_path m) import_path)) in
  if String.eqb (gm_dir m) "" then below
  else if String.eqb below "" then gm_dir m
  else gm_dir m +:+ "/" +:+ below.

(** The module of the nearest [go.mod]: of the longest directories the last. *)
Definition nearest_module (dir : string) (modules : list GoModule) : option GoModule :=
  fold_left (fun best m =>
    if String.eqb (gm_dir m) "" || String.eqb dir (gm_dir m) || starts_with dir (gm_dir m +:+ "/") then
      match best with
      | Some b => if String.length (gm_dir m) <? String.length (gm_dir b) then best else Some m
      | None => Some m
      end
    else best) modules None.

Definition package_dir_of (file_path : string) : string := dirname (str_replace BACKSLASH SLASH file_path).

(** The package of an import path, as the importing file's own module has it. *)
Definition package_dir_for (import_path : string) (modules : list GoModule) (own : option GoModule) : option string :=
  (fun m => package_dir_in import_path m) <$> owning_go_module import_path modules own.

(** [go_import_package_dir] as its memo should not change it. *)
Definition own_module (from_file : option string) (modules : list GoModule) : option GoModule :=
  from_file ≫= fun file => nearest_module (package_dir_of file) modules.

Definition go_import_package_dir (import_path : string) (from_file : option string) (modules : list GoModule)
    : option string := package_dir_for import_path modules (own_module from_file modules).

(** The memo of one pass: an import path and the directory of the file's own
    module, the empty text when it has none. *)
#[local] Notation GoMemo := (gmap (string * string) (option string)).

Definition memo_key (import_path : string) (own : option GoModule) : string * string :=
  (import_path, match own with Some m => gm_dir m | None => "" end).

Definition go_import_package_dir_memo (modules : list GoModule) (memo : GoMemo)
    (import_path : string) (from_file : option string) : GoMemo * option string :=
  let own := own_module from_file modules in
  let key := memo_key import_path own in
  match memo !! key with
  | Some hit => (memo, hit)
  | None => let dir := package_dir_for import_path modules own in (<[key := dir]> memo, dir)
  end.

(** The answers of a pass that asks for several import paths, in order. *)
Fixpoint go_import_package_dirs (modules : list GoModule) (memo : GoMemo) (l : list (string * option string))
    : list (option string) :=
  match l with
  | [] => []
  | (import_path, from_file) :: l =>
      let '(memo, dir) := go_import_package_dir_memo modules memo import_path from_file in
      dir :: go_import_package_dirs modules memo l
  end.

(** [load_go_module_in]: the [module] line of a directory's [go.mod]. *)
Fixpoint module_line (dir : string) (l : list string) : option GoModule :=
  match l with
  | [] => None
  | line :: l =>
      match str_strip_prefix "module" (trim_start line) with
      | Some rest => if String.eqb (trim rest) "" then module_line dir l else Some (mkGoModule (trim rest) dir)
      | None => module_line dir l
      end
  end.

(** The directories above a file, from its own to the root; each is shorter than
    the one before, but for [/], above which is itself. *)
Fixpoint dirs_above (fuel : nat) (dir : string) : result Empty_set (list string) :=
  match fuel with
  | 0 => OutOfFuel
  | S fuel => if String.eqb dir "" then Ok [dir] else above ← dirs_above fuel (dirname dir); Ok (dir :: above)
  end.

Fixpoint dirs_of_files (files : list string) : result Empty_set (list string) :=
  match files with
  | [] => Ok []
  | file :: files =>
      if ends_with file ".go" then
        dirs_above (S (String.length file)) (dirname (str_replace BACKSLASH SLASH file)) ≫= fun above : list string =>
        dirs_of_files files ≫= fun dirs : list string => Ok (above ++ dirs)
      else dirs_of_files files
  end.

Definition module_le (a b : GoModule) : bool :=
  if String.eqb (gm_dir a) (gm_dir b) then str_le (gm_module_path a) (gm_module_path b) else str_le (gm_dir a) (gm_dir b).

(** [dedup_by(|a, b| a.dir == b.dir)]: of a run the first stays. *)
Fixpoint dedup_modules (l : list GoModule) : list GoModule :=
  match l with
  | a :: l =>
      match dedup_modules l with
      | b :: l' => if String.eqb (gm_dir a) (gm_dir b) then a :: l' else a :: b :: l'
      | [] => [a]
      end
  | [] => []
  end.

Section GoModules.
Variables (text_of : string -> option string) (project_root : string).

Definition load_go_module_in (dir : string) : option GoModule :=
  let relative := if String.eqb dir "" then "go.mod" else dir +:+ "/go.mod" in
  text ← text_of (PathUtil.resolve project_root relative); module_line dir (lines text).

Definition load_go_modules (files : list string) : result Empty_set (list GoModule) :=
  dirs_of_files files ≫= fun dirs : list string =>
  match sort_by str_le (remove_dups dirs) with
  | [] => Ok (match load_go_module_in "" with Some m => [m] | None => [] end)
  | dirs => Ok (dedup_modules (sort_by module_le (omap load_go_module_in dirs)))
  end.

End GoModules.

(** ** The resolution of an import path (import_resolver.rs) *)

Definition extension_resolution (language : Language) : list string :=
  match language with
  | LangTypeScript => [".ts"; ".tsx"; ".d.ts"; ".js"; ".jsx"; "/index.ts"; "/index.tsx"; "/index.js"]
  | LangJavaScript => [".js"; ".jsx"; ".mjs"; ".cjs"; ".xsjs"; ".xsjslib"; "/index.js"; "/index.jsx"]
  | LangTsx => [".tsx"; ".ts"; ".d.ts"; ".js"; ".jsx"; "/index.tsx"; "/index.ts"; "/index.js"]
  | LangJsx => [".jsx"; ".js"; "/index.jsx"; "/index.js"]
  | LangSvelte => [".ts"; ".js"; ".svelte"; ".tsx"; ".jsx"; "/index.ts"; "/index.js"; "/index.svelte"]
  | LangVue => [".ts"; ".js"; ".vue"; ".tsx"; ".jsx"; "/index.ts"; "/index.js"; "/index.vue"]
  | LangPython => [".py"; "/__init__.py"]
  | LangGo => [".go"]
  | LangRust => [".rs"; "/mod.rs"]
  | LangJava => [".java"]
  | LangC => [".h"; ".c"]
  | LangCpp => [".h"; ".hpp"; ".hxx"; ".cpp"; ".cc"; ".cxx"]
  | LangCSharp => [".cs"]
  | LangPhp => [".php"]
  | LangRuby => [".rb"]
  | LangObjC => [".h"; ".m"; ".mm"]
  | _ => []
  end.

(** What the resolver asks of its context. *)
Record ImportContext : Type := mkImportContext {
  ic_project_root : string;
  ic_file_exists : string -> bool;
  ic_project_aliases : option AliasMap;
  ic_workspace_packages : option WorkspacePackages;
  ic_go_modules : list GoModule;
  ic_cpp_include_dirs : list string
}.

Definition C_CPP_STDLIB_HEADERS : list string :=
  [
    "assert.h"; "complex.h"; "ctype.h"; "errno.h"; "fenv.h"; "float.h"; "inttypes.h"; "iso646.h"; "limits.h";
    "locale.h"; "math.h"; "setjmp.h"; "signal.h"; "stdalign.h"; "stdarg.h"; "stdatomic.h"; "stdbool.h";
    "stddef.h"; "stdint.h"; "stdio.h"; "stdlib.h"; "stdnoreturn.h"; "string.h"; "tgmath.h"; "threads.h";
    "time.h"; "uchar.h"; "wchar.h"; "wctype.h"; "cassert"; "ccomplex"; "cctype"; "cerrno"; "cfenv"; "cfloat";
    "cinttypes"; "ciso646"; "climits"; "clocale"; "cmath"; "csetjmp"; "csignal"; "cstdalign"; "cstdarg";
    "cstdbool"; "cstddef"; "cstdint"; "cstdio"; "cstdlib"; "cstring"; "ctgmath"; "ctime"; "cuchar"; "cwchar";
    "cwctype"; "algorithm"; "any"; "array"; "atomic"; "barrier"; "bit"; "bitset"; "charconv"; "chrono";
    "codecvt"; "compare"; "complex"; "concepts"; "condition_variable"; "coroutine"; "deque"; "exception";
    "execution"; "expected"; "filesystem"; "format"; "forward_list"; "fstream"; "functional"; "future";
    "generator"; "initializer_list"; "iomanip"; "ios"; "iosfwd"; "iostream"; "istream"; "iterator"; "latch";
    "limits"; "list"; "locale"; "map"; "mdspan"; "memory"; "memory_resource"; "mutex"; "new"; "numbers";
    "numeric"; "optional"; "ostream"; "print"; "queue"; "random"; "ranges"; "ratio"; "regex";
    "scoped_allocator"; "semaphore"; "set"; "shared_mutex"; "source_location"; "span"; "spanstream";
    "sstream"; "stack"; "stacktrace"; "stdexcept"; "stdfloat"; "stop_token"; "streambuf"; "string";
    "string_view"; "strstream"; "syncstream"; "system_error"; "thread"; "tuple"; "type_traits"; "typeindex";
    "typeinfo"; "unordered_map"; "unordered_set"; "utility"; "valarray"; "variant"; "vector"; "version"].

Definition is_js_specifier_language (language : Language) : bool :=
  match language with
  | LangTypeScript | LangJavaScript | LangTsx | LangJsx | LangSvelte | LangVue | LangAstro | LangArkTs => true
  | _ => false
  end.

Definition NODE_BUILTINS : list string :=
  ["fs"; "path"; "os"; "crypto"; "http"; "https"; "url"; "util"; "events"; "stream"; "child_process"; "buffer"].
Definition STD_LIBS : list string :=
  ["os"; "sys"; "json"; "re"; "math"; "datetime"; "collections"; "typing"; "pathlib"; "logging"].

Section Resolve.
Variable context : ImportContext.

#[local] Notation file_exists := (ic_file_exists context).
#[local] Notation project_root := (ic_project_root context).

Fixpoint first_existing (l : list string) : option string :=
  match l with
  | [] => None
  | candidate :: l => if file_exists candidate then Some candidate else first_existing l
  end.

(** The sources an emitted JavaScript name stands for. *)
Definition substitution (base_path : string) (language : Language) : list string :=
  match language with
  | LangTypeScript | LangTsx =>
      match str_strip_suffix base_path ".mjs", str_strip_suffix base_path ".cjs" with
      | Some stem, _ => map (String.append stem) [".mts"; ".d.mts"]
      | None, Some stem => map (String.append stem) [".cts"; ".d.cts"]
      | None, None =>
          match (match str_strip_suffix base_path ".jsx" with
                 | Some stem => Some stem
                 | None => str_strip_suffix base_path ".js"
                 end) with
          | Some stem =>
              map (String.append stem)
                (match language with LangTsx => [".tsx"; ".ts"; ".d.ts"] | _ => [".ts"; ".tsx"; ".d.ts"] end)
          | None => []
          end
      end
  | _ => []
  end.

Definition resolve_source_candidate (base_path : string) (language : Language) : option string :=
  match first_existing (substitution base_path language) with
  | Some candidate => Some candidate
  | None =>
      match first_existing (map (String.append base_path) (extension_resolution language)) with
      | Some candidate => Some candidate
      | None => if file_exists base_path then Some base_path else None
      end
  end.

Definition is_external_import_with (import_path : string) (language : Language) (alias_prefixes : bool) : bool :=
  if starts_with import_path "." then false else
  if match ic_workspace_packages context ≫= resolve_workspace_import import_path with
     | Some _ => true | None => false end then false else
  let js := is_js_specifier_language language in
  if js && bool_decide (import_path ∈ NODE_BUILTINS) then true else
  if js && match (if alias_prefixes then ic_project_aliases context else None) with
           | Some aliases => existsb (fun pat => starts_with import_path (al_prefix pat)) (am_patterns aliases)
           | None => false
           end then false else
  if js && negb (starts_with import_path "@/") && negb (starts_with import_path "~/")
     && negb (starts_with import_path "src/") then true else
  match language with
  | LangPython => bool_decide (default import_path (head (split_on "." import_path)) ∈ STD_LIBS)
  | LangGo =>
      match go_import_package_dir import_path None (ic_go_modules context) with
      | Some _ => false
      | None => negb (contains_sub import_path "/internal/")
      end
  | LangC | LangCpp =>
      bool_decide (import_path ∈ C_CPP_STDLIB_HEADERS)
      || bool_decide (default import_path (str_strip_suffix import_path ".h") ∈ C_CPP_STDLIB_HEADERS)
  | _ => false
  end.

Definition is_external_import (import_path : string) (language : Language) : bool :=
  is_external_import_with import_path language true.

(** The leading dots of a Python import, and the rest. *)
Fixpoint leading_dots (s : string) : nat * string :=
  match s with
  | String c s' => if Ascii.eqb c "." then let '(n, rest) := leading_dots s' in (S n, rest) else (0, s)
  | EmptyString => (0, EmptyString)
  end.

Definition str_repeat (n : nat) (s : string) : string := str_concat (replicate n s).

Definition resolve_relative_import (import_path from_dir : string) (language : Language) : option string :=
  match language with
  | LangPython =>
      let '(dots, rest) := leading_dots import_path in
      let py_base := PathUtil.resolve from_dir (str_repeat (dots - 1) "../" +:+ str_replace "." SLASH rest) in
      let py_rel := PathUtil.relative project_root py_base in
      match first_existing (map (String.append py_rel) (extension_resolution language)) with
      | Some candidate => Some candidate
      | None => if negb (String.eqb py_rel "") && file_exists py_rel then Some py_rel else None
      end
  | _ =>
      let base_path := PathUtil.resolve from_dir import_path in
      let relative_path := PathUtil.relative project_root base_path in
      if String.eqb relative_path "" || String.eqb relative_path "." then
        first_existing (omap (str_strip_prefix "/") (extension_resolution language))
      else resolve_source_candidate relative_path language
  end.

Definition FALLBACK_ALIASES : list (string * string) :=
  [("@/", "src/"); ("~/", "src/"); ("@src/", "src/"); ("src/", "src/"); ("@app/", "app/"); ("app/", "app/")].

(** The first base path that resolves. *)
Fixpoint first_base (language : Language) (l : list string) : option string :=
  match l with
  | [] => None
  | base :: l => match resolve_source_candidate base language with Some hit => Some hit | None => first_base language l end
  end.

Definition resolve_aliased_import (import_path : string) (language : Language) : result SlicePanic (option string) :=
  match ic_project_aliases context with
  | Some alias_map => apply_aliases import_path alias_map project_root
  | None => Ok []
  end ≫= fun aliased : list string =>
  match first_base language aliased with
  | Some hit => Ok (Some hit)
  | None =>
      match (ic_workspace_packages context ≫= resolve_workspace_import import_path)
              ≫= fun base : string => resolve_source_candidate base language with
      | Some hit => Ok (Some hit)
      | None =>
          match first_base language (omap (fun entry =>
                  String.append entry.2 <$> str_strip_prefix entry.1 import_path) FALLBACK_ALIASES) with
          | Some hit => Ok (Some hit)
          | None => Ok (resolve_source_candidate import_path language)
          end
      end
  end.

Fixpoint resolve_cpp_include_path (import_path : string) (language : Language) (include_dirs : list string)
    : option string :=
  match include_dirs with
  | [] => None
  | dir :: include_dirs =>
      let candidate := str_replace BACKSLASH SLASH dir +:+ "/" +:+ import_path in
      match first_existing (map (String.append candidate) (extension_resolution language)) with
      | Some hit => Some hit
      | None => if file_exists candidate then Some candidate
                else resolve_cpp_include_path import_path language include_dirs
      end
  end.

Definition resolve_import_path (import_path from_file : string) (language : Language)
    : result SlicePanic (option string) :=
  if is_external_import import_path language then Ok None else
  let from_dir := dirname (PathUtil.resolve project_root from_file) in
  if starts_with import_path "." then Ok (resolve_relative_import import_path from_dir language) else
  resolve_aliased_import import_path language ≫= fun aliased : option string =>
  match aliased with
  | Some aliased => Ok (Some aliased)
  | None =>
      match language with
      | LangC | LangCpp => Ok (resolve_cpp_include_path import_path language (ic_cpp_include_dirs context))
      | _ => Ok None
      end
  end.

End Resolve.
