(* ===== verification/ImportProps.v ===== *)
(** * Import paths: the theorems

    What the inputs of a loader determine, which alias and which package an
    import path takes, the candidates a resolution tries, in order. *)
From S2P Require Import Prelude Types Strings PathUtil StrOps Utf8 LangDetect SourceFile FileClass GitPending ImportPaths.

(** ** What a trace determines *)

Section Trace.
Context {F I : Type} (agree : F -> F -> I -> Prop).

(** A computation whose trace holds all it depends on. *)
Definition local {A} (m : F -> Tracked I A) : Prop :=
  forall fs fs', Forall (agree fs fs') (m fs).1 -> m fs' = m fs.

Lemma local_ret {A} (a : A) : local (fun _ => mret a).
Proof. done. Qed.

Lemma local_bind {A B} (m : F -> Tracked I A) (f : A -> F -> Tracked I B) :
  local m -> (forall a, local (f a)) -> local (fun fs => m fs ≫= fun a => f a fs).
Proof.
  intros Hm Hf fs fs'. unfold mbind, tracked_bind. destruct (f _ fs) as [l b] eqn:E. cbn [fst]. intros [H1 H2]%Forall_app.
  rewrite (Hm fs fs') by done. rewrite (Hf _ fs fs') by (by rewrite E). by rewrite E.
Qed.

Lemma local_look {A} (i : I) (a : F -> A) : (forall fs fs', agree fs fs' i -> a fs' = a fs) -> local (fun fs => look i (a fs)).
Proof. intros Ha fs fs' [Hi _]%Forall_cons. unfold look. by rewrite (Ha fs fs'). Qed.

Lemma local_fold {S A} (f : F -> S -> A -> Tracked I S) l :
  (forall s a, a ∈ l -> local (fun fs => f fs s a)) -> forall s, local (fun fs => tracked_fold (f fs) s l).
Proof.
  induction l as [|a l IH]; intros Hf s; [apply local_ret|]. cbn [tracked_fold].
  apply (local_bind (fun fs => f fs s a) (fun s fs => tracked_fold (f fs) s l)); [apply Hf; by left|].
  intros s'. apply IH. intros s'' b Hb. apply Hf. by right.
Qed.

End Trace.

(** Through a computation, by its steps. *)
Ltac local_steps :=
  repeat match goal with
  | |- local _ (fun _ => mret _) => apply local_ret
  | |- local ?ag (fun fs => mbind (@?f fs) (@?m fs)) => apply (local_bind ag m (fun a fs => f fs a)); [|intros ?]
  | |- local _ (fun fs => tracked_fold (@?f fs) _ _) => apply (local_fold _ f); intros ? ? _
  | |- local _ (fun fs => match ?x with _ => _ end) => destruct x eqn:?
  | |- local _ _ => solve [eauto with local]
  end.

Create HintDb local.

Section FirstSeen.
Context {I : Type} (same : I -> I -> bool) (P : I -> Prop).
Hypothesis same_P : forall i j, same i j = true -> P j -> P i.

(** What holds of the first of each input holds of all. *)
Lemma first_seen_Forall seen l : Forall P seen -> Forall P (first_seen same seen l) -> Forall P l.
Proof.
  revert seen. induction l as [|i l IH]; intros seen Hs; [constructor|]. cbn [first_seen].
  destruct (existsb (same i) seen) eqn:E.
  - intros Hl. constructor; [|by apply (IH seen)]. apply existsb_exists in E as (j & Hj & Hij). apply (same_P i j); [done|].
    rewrite List.Forall_forall in Hs. by apply Hs.
  - intros [Hi Hl]%Forall_cons. constructor; [done|]. apply (IH (i :: seen)); [by constructor|done].
Qed.

End FirstSeen.

(** *** The alias configs *)

(** Where two file systems say the same of a path to the loader. *)
Definition same_config (fs fs' : ConfigFs) (path : string) : Prop :=
  cf_is_file fs' path = cf_is_file fs path /\ cf_text fs' path = cf_text fs path.

(** Equal paths name the same file. *)
Class PathsByComponents (fs : ConfigFs) : Prop :=
  by_components p q : path_eqb p q = true -> cf_is_file fs p = cf_is_file fs q /\ cf_text fs p = cf_text fs q.

Section AliasInputs.
Variable from_json : list Char -> option Value.

#[local] Notation loc := (local same_config).

Lemma is_file_local p : loc (fun fs => is_file fs p).
Proof. apply (local_look same_config p (fun fs => cf_is_file fs p)). by intros fs fs' [? _]. Qed.
#[local] Hint Resolve is_file_local : local.

Lemma find_file_local l : loc (fun fs => find_file fs l).
Proof. induction l as [|p l IH]; cbn [find_file]; local_steps. Qed.
#[local] Hint Resolve find_file_local : local.

Lemma resolve_extends_target_local spec dir : loc (fun fs => resolve_extends_target fs spec dir).
Proof. unfold resolve_extends_target. local_steps. Qed.
#[local] Hint Resolve resolve_extends_target_local : local.

Lemma look_text_local p : loc (fun fs => look p (cf_text fs p)).
Proof. apply (local_look same_config p (fun fs => cf_text fs p)). by intros fs fs' [_ ?]. Qed.
#[local] Hint Resolve look_text_local : local.

Lemma read_tsconfig_like_local p : loc (fun fs => read_tsconfig_like from_json fs p).
Proof. unfold read_tsconfig_like. local_steps. Qed.
#[local] Hint Resolve read_tsconfig_like_local : local.

Lemma load_effective_options_local budget p stack : loc (fun fs => load_effective_options from_json fs budget p stack).
Proof. revert p stack. induction budget as [|budget IH]; intros p stack; cbn [load_effective_options]; local_steps. Qed.
#[local] Hint Resolve load_effective_options_local : local.

Lemma root_options_local root names effective : loc (fun fs => root_options from_json fs root effective names).
Proof. revert effective. induction names as [|name names IH]; intros effective; cbn [root_options]; local_steps. Qed.
#[local] Hint Resolve root_options_local : local.

Lemma load_project_aliases_local root : loc (fun fs => load_project_aliases from_json fs root).
Proof. unfold load_project_aliases. local_steps. Qed.

(** The recorded inputs of the aliases miss nothing: file systems that say the same of each of them load the same aliases,
    and have the same inputs. *)
Theorem alias_inputs_determine root fs fs' `{!PathsByComponents fs, !PathsByComponents fs'} :
  Forall (same_config fs fs') (alias_config_inputs from_json fs root) ->
  (load_project_aliases from_json fs' root).2 = (load_project_aliases from_json fs root).2
  /\ alias_config_inputs from_json fs' root = alias_config_inputs from_json fs root.
Proof.
  intros H. unfold alias_config_inputs in *. rewrite (load_project_aliases_local root fs fs'); [done|].
  refine (first_seen_Forall path_eqb _ _ [] _ _ H); [|constructor]. intros p q Hpq [Hf Ht].
  destruct (by_components (fs := fs) p q Hpq), (by_components (fs := fs') p q Hpq). split; congruence.
Qed.

End AliasInputs.

(** *** The workspace *)

Definition same_workspace (fs fs' : WorkspaceFs) (input : WorkspaceInput) : Prop :=
  match input with
  | InFile path => ws_text fs' path = ws_text fs path
  | InMemberListing dir => member_listing fs' dir = member_listing fs dir
  end.

Class InputsByComponents (fs : WorkspaceFs) : Prop :=
  inputs_by_components p q : path_eqb p q = true -> ws_text fs p = ws_text fs q /\ ws_dirs fs p = ws_dirs fs q.

Section WorkspaceInputs.
Variable from_json : string -> option Value.

#[local] Notation loc := (local same_workspace).

Lemma read_input_local p : loc (fun fs => read_input fs p).
Proof. by apply (local_look same_workspace (InFile p) (fun fs => ws_text fs p)). Qed.
#[local] Hint Resolve read_input_local : local.

Lemma look_listing_local d : loc (fun fs => look (InMemberListing d) (member_listing fs d)).
Proof. by apply (local_look same_workspace (InMemberListing d) (fun fs => member_listing fs d)). Qed.
#[local] Hint Resolve look_listing_local : local.

Lemma read_workspace_globs_local root : loc (fun fs => read_workspace_globs from_json fs root).
Proof. unfold read_workspace_globs. local_steps. Qed.
Lemma expand_workspace_glob_local root pattern : loc (fun fs => expand_workspace_glob fs root pattern).
Proof. unfold expand_workspace_glob. local_steps. Qed.
Lemma read_package_name_local dir : loc (fun fs => read_package_name from_json fs dir).
Proof. unfold read_package_name. local_steps. Qed.
#[local] Hint Resolve read_workspace_globs_local expand_workspace_glob_local read_package_name_local : local.

Lemma add_package_local root by_name dir : loc (fun fs => add_package from_json fs root by_name dir).
Proof. unfold add_package. local_steps. Qed.
#[local] Hint Resolve add_package_local : local.

Lemma load_workspace_packages_local root : loc (fun fs => load_workspace_packages from_json fs root).
Proof. unfold load_workspace_packages. local_steps. Qed.

(** The recorded inputs of the workspace miss nothing: file systems with the same texts and member listings there load the same
    packages. *)
Theorem workspace_inputs_determine root fs fs' `{!InputsByComponents fs, !InputsByComponents fs'} :
  Forall (same_workspace fs fs') (workspace_inputs from_json fs root) ->
  (load_workspace_packages from_json fs' root).2 = (load_workspace_packages from_json fs root).2
  /\ workspace_inputs from_json fs' root = workspace_inputs from_json fs root.
Proof.
  intros H. unfold workspace_inputs in *. rewrite (load_workspace_packages_local root fs fs'); [done|].
  refine (first_seen_Forall same_input _ _ [] _ _ H); [|constructor]. intros [p|p] [q|q] Hpq; try done; cbn [same_workspace];
    destruct (inputs_by_components (fs := fs) p q Hpq) as [E1 E2], (inputs_by_components (fs := fs') p q Hpq) as [E3 E4].
  - congruence.
  - unfold member_listing. by rewrite E2, E4.
Qed.

End WorkspaceInputs.

(** ** The alias an import path takes (path_aliases.rs) *)

(** Whether a pattern takes an import path. *)
Definition takes (import_path : string) (pat : AliasPattern) : bool :=
  starts_with import_path (al_prefix pat) && ends_with import_path (al_suffix pat)
  && (al_has_wildcard pat || String.eqb import_path (al_prefix pat)).

(** What lies between prefix and suffix, when they do not overlap. *)
Definition between (import_path : string) (pat : AliasPattern) : result SlicePanic string :=
  if al_has_wildcard pat then
    let width := String.length (al_prefix pat) + String.length (al_suffix pat) in
    if String.length import_path <? width then Err SliceBeginAfterEnd
    else Ok (str_take (String.length import_path - width) (str_drop (String.length (al_prefix pat)) import_path))
  else Ok "".

Definition inside_root (rel : string) : bool := negb (String.eqb rel ".." || starts_with rel "../").

(** The targets of a pattern, filled with the capture, as paths from the root. *)
Definition targets_of (aliases : AliasMap) (root : string) (pat : AliasPattern) (captured : string) : list string :=
  map (fun target => PathUtil.relative root (PathUtil.resolve (am_base_url aliases)
         (if al_has_wildcard pat then replace_star target captured else target))) (al_replacements pat).

Lemma ends_with_nil s : ends_with s "" = true.
Proof. apply ends_with_spec. exists s. by rewrite str_app_nil. Qed.

Lemma str_length_starts s p : starts_with s p = true -> String.length p <= String.length s.
Proof. intros (r & ->)%starts_with_spec. rewrite str_length_app. lia. Qed.

Lemma str_length_ends s p : ends_with s p = true -> String.length p <= String.length s.
Proof. intros (r & ->)%ends_with_spec. rewrite str_length_app. lia. Qed.

Lemma capture_spec pat import_path :
  capture pat import_path
  = if takes import_path pat then between import_path pat ≫= fun captured : string => Ok (Some captured) else Ok None.
Proof.
  unfold capture, takes, between.
  destruct (starts_with import_path (al_prefix pat)) eqn:Hp; [|done]. cbn [negb andb].
  assert (negb (String.eqb (al_suffix pat) "") && negb (ends_with import_path (al_suffix pat))
    = negb (ends_with import_path (al_suffix pat))) as ->.
  { destruct (String.eqb_spec (al_suffix pat) "") as [->|]; [by rewrite ends_with_nil|done]. }
  destruct (ends_with import_path (al_suffix pat)) eqn:Hs; [|done]. cbn [negb andb].
  apply str_length_starts in Hp. apply str_length_ends in Hs.
  destruct (al_has_wildcard pat); cbn [orb].
  - set (P := String.length (al_prefix pat)) in *. set (S := String.length (al_suffix pat)) in *.
    set (L := String.length import_path) in *.
    destruct (Nat.ltb_spec (L - S) P), (Nat.ltb_spec L (P + S)); try lia; [done|]. cbn.
    by replace (L - S - P) with (L - (P + S)) by lia.
  - by destruct (String.eqb import_path (al_prefix pat)).
Qed.

Lemma omap_filter_map {A B} (f : A -> B) (p : B -> bool) l :
  omap (fun a => if p (f a) then None else Some (f a)) l = filter (fun b => negb (p b) = true) (map f l).
Proof. induction l as [|a l IH]; [done|]. cbn. rewrite IH. by destruct (p (f a)). Qed.

Lemma rewrites_spec aliases root pat captured :
  rewrites aliases root pat captured = filter (fun rel => inside_root rel = true) (targets_of aliases root pat captured).
Proof.
  unfold rewrites, targets_of, inside_root.
  apply (omap_filter_map _ (fun rel => String.eqb rel ".." || starts_with rel "../")).
Qed.

Lemma apply_patterns_spec import_path aliases root l :
  apply_patterns import_path aliases root l
  = match List.find (takes import_path) l with
    | Some pat => between import_path pat ≫= fun captured : string =>
        Ok (filter (fun rel => inside_root rel = true) (targets_of aliases root pat captured))
    | None => Ok []
    end.
Proof.
  induction l as [|pat l IH]; [done|]. cbn [apply_patterns List.find]. rewrite capture_spec.
  destruct (takes import_path pat); [|done]. destruct (between import_path pat); try done. cbn. by rewrite rewrites_spec.
Qed.

Lemma specificity_total a b : specificity_le a b = true \/ specificity_le b a = true.
Proof.
  unfold specificity_le. rewrite (Nat.eqb_sym (String.length (al_prefix b))).
  destruct (Nat.eqb_spec (String.length (al_prefix a)) (String.length (al_prefix b))) as [E|E]; cbn [negb].
  - destruct (al_has_wildcard a), (al_has_wildcard b); auto.
  - destruct (Nat.ltb_spec (String.length (al_prefix b)) (String.length (al_prefix a))); [by left|right].
    apply Nat.ltb_lt. lia.
Qed.

Lemma specificity_trans a b c : specificity_le a b = true -> specificity_le b c = true -> specificity_le a c = true.
Proof.
  unfold specificity_le.
  destruct (Nat.eqb_spec (String.length (al_prefix a)) (String.length (al_prefix b))) as [E1|E1],
    (Nat.eqb_spec (String.length (al_prefix b)) (String.length (al_prefix c))) as [E2|E2],
    (Nat.eqb_spec (String.length (al_prefix a)) (String.length (al_prefix c))) as [E3|E3]; cbn [negb]; try lia;
    rewrite ?Nat.ltb_lt; try lia; intros H1 H2; try lia.
  by destruct (al_has_wildcard a), (al_has_wildcard b), (al_has_wildcard c).
Qed.

(** The first of a sorted list that passes a test is the least that does. *)
Lemma find_sorted {A} (le : A -> A -> bool) (p : A -> bool) l x :
  (forall a, le a a = true) -> StronglySorted (fun a b => le a b = true) l -> List.find p l = Some x ->
  x ∈ l /\ p x = true /\ forall y, y ∈ l -> p y = true -> le x y = true.
Proof.
  intros Hr Hs. induction Hs as [|a l Hs IH Ha]; [done|]. cbn. destruct (p a) eqn:Hp.
  - intros [= <-]. split_and!; [by left|done|]. intros y [->|Hy]%elem_of_cons _; [done|].
    rewrite Forall_forall in Ha. by apply Ha.
  - intros (Hx & Hpx & Hmin)%IH. split_and!; [by right|done|]. intros y [->|Hy]%elem_of_cons; [congruence|auto].
Qed.

(** What the map holds in any order that [sort_by] may be given. *)
Lemma alias_map_sorted root options aliases : alias_map root options = Some aliases ->
  StronglySorted (fun a b => specificity_le a b = true) (am_patterns aliases).
Proof.
  unfold alias_map. destruct (ef_paths options) as [paths|]; [|done]. cbn [mbind option_bind].
  destruct (omap pattern_of paths) as [|p l] eqn:E; [done|]. intros [= <-]. cbn [am_patterns].
  change (StronglySorted (fun a b => specificity_le a b = true) (sort_by specificity_le (p :: l))).
  apply Sorted_StronglySorted; [intros a b c; apply specificity_trans|apply sort_by_sorted, specificity_total].
Qed.

Lemma between_splits import_path pat captured :
  takes import_path pat = true -> al_has_wildcard pat = true -> between import_path pat = Ok captured ->
  import_path = al_prefix pat +:+ captured +:+ al_suffix pat.
Proof.
  unfold takes, between. intros [[Hp Hs]%andb_true_iff _]%andb_true_iff ->.
  apply starts_with_spec in Hp as (r & Er). apply ends_with_spec in Hs as (q & Eq).
  destruct (Nat.ltb_spec (String.length import_path) (String.length (al_prefix pat) + String.length (al_suffix pat))) as [|Hl]; [done|].
  intros [= <-]. set (n := String.length import_path - _).
  assert (El : String.length import_path = String.length (al_prefix pat) + String.length r) by (by rewrite Er, str_length_app).
  assert (Ed : str_drop (String.length (al_prefix pat)) import_path = r) by (rewrite Er; apply str_drop_app).
  assert (Ea : (al_prefix pat +:+ str_take n r) +:+ str_drop n r = q +:+ al_suffix pat)
    by (rewrite str_app_assoc, str_take_drop; by rewrite <- Er, <- Eq).
  apply str_app_inj_length in Ea as [_ Ea].
  - rewrite Ed, <- Ea. by rewrite str_take_drop.
  - assert (String.length import_path = String.length q + String.length (al_suffix pat)) by (by rewrite Eq, str_length_app).
    rewrite str_length_app, str_take_length by (subst n; lia). subst n. lia.
Qed.

(** C21: an import path takes the most specific pattern it matches, of the longest prefix, an exact one before a wildcard, and its candidates
    are that pattern's targets, in order, filled and left out when they lie outside the root; the code panics exactly when that
    pattern's prefix and suffix overlap in the path. *)
Theorem apply_aliases_exact root options aliases import_path :
  alias_map root options = Some aliases ->
  (Forall (fun pat => takes import_path pat = false) (am_patterns aliases) /\ apply_aliases import_path aliases root = Ok [])
  \/ exists best, best ∈ am_patterns aliases /\ takes import_path best = true
       /\ (forall pat, pat ∈ am_patterns aliases -> takes import_path pat = true -> specificity_le best pat = true)
       /\ (forall captured, al_has_wildcard best = true -> between import_path best = Ok captured ->
            import_path = al_prefix best +:+ captured +:+ al_suffix best)
       /\ apply_aliases import_path aliases root
          = (between import_path best ≫= fun captured : string =>
             Ok (filter (fun rel => inside_root rel = true) (targets_of aliases (string_path_to_posix root) best captured))).
Proof.
  intros Hal. unfold apply_aliases. rewrite apply_patterns_spec.
  destruct (List.find (takes import_path) (am_patterns aliases)) as [best|] eqn:E.
  - right. apply (find_sorted specificity_le) in E as (? & ? & ?); [|intros a; by destruct (specificity_total a a)|by eapply alias_map_sorted].
    exists best. split_and!; try done. intros captured Hw Hb. by apply between_splits.
  - left. split; [|done]. rewrite Forall_forall. intros pat Hp. eapply List.find_none in E; [exact E|]. by apply list_elem_of_In.
Qed.

(** ** The workspace package an import path names (workspace_packages.rs) *)

(** Whether a package of that name has the import path. *)
Definition names_package (import_path name : string) : bool :=
  String.eqb import_path name || starts_with import_path (name +:+ "/").

(** The scan for the longest name keeps the first of the longest. *)
Lemma longest_fold import_path l best :
  let scan := fun best name => if names_package import_path name
      && match best with None => true | Some b => String.length b <? String.length name end
    then Some name else best in
  match fold_left scan l best with
  | Some b => (best = Some b \/ b ∈ l /\ names_package import_path b = true)
      /\ (forall x, best = Some x -> String.length x <= String.length b)
      /\ (forall x, x ∈ l -> names_package import_path x = true -> String.length x <= String.length b)
  | None => best = None /\ forall x, x ∈ l -> names_package import_path x = false
  end.
Proof.
  intros scan. revert best. induction l as [|a l IH]; intros best; cbn [fold_left].
  { destruct best as [b|]; split_and!; [by left|naive_solver|..]; try done; intros x Hx; by apply elem_of_nil in Hx. }
  specialize (IH (scan best a)). destruct (fold_left scan l (scan best a)) as [b|].
  - destruct IH as (Hin & Hb & Hl). unfold scan in Hin, Hb. destruct (names_package import_path a) eqn:Ha; cbn [andb] in Hin, Hb.
    + destruct best as [b0|].
      * destruct (Nat.ltb_spec (String.length b0) (String.length a)) as [Hlt|Hge].
        -- specialize (Hb a eq_refl). split_and!.
           ++ right. destruct Hin as [[= <-]|[]]; split; try done; [by left|by right].
           ++ intros x [= <-]. lia.
           ++ intros x [->|Hx]%elem_of_cons Hn; [done|by apply Hl].
        -- split_and!; [|done|].
           ++ destruct Hin as [|[]]; [by left|right]. split; [by right|done].
           ++ intros x [->|Hx]%elem_of_cons Hn; [|by apply Hl]. specialize (Hb b0 eq_refl). lia.
      * specialize (Hb a eq_refl). split_and!; [|done|].
        -- right. destruct Hin as [[= <-]|[]]; split; try done; [by left|by right].
        -- intros x [->|Hx]%elem_of_cons Hn; [done|by apply Hl].
    + split_and!; [|done|].
      * destruct Hin as [|[]]; [by left|right]. split; [by right|done].
      * intros x [->|Hx]%elem_of_cons Hn; [congruence|by apply Hl].
  - destruct IH as [Hn Hl]. unfold scan in Hn. destruct (names_package import_path a) eqn:Ha; cbn [andb] in Hn.
    + destruct best as [b0|]; [|done]. by destruct (_ <? _).
    + split; [done|]. intros x [->|Hx]%elem_of_cons; auto.
Qed.

(** A workspace import resolves exactly when a package has it, into the directory of the one with the longest name, at what the
    import path adds to it. *)
Theorem workspace_import_longest import_path (ws : WorkspacePackages) :
  match resolve_workspace_import import_path ws with
  | Some path => exists name dir subpath, ws !! name = Some dir /\ import_path = name +:+ subpath
      /\ (subpath = "" \/ starts_with subpath "/" = true)
      /\ (forall other d, ws !! other = Some d -> names_package import_path other = true -> String.length other <= String.length name)
      /\ path = collapse_slashes false (dir +:+ subpath)
  | None => forall name dir, ws !! name = Some dir -> names_package import_path name = false
  end.
Proof.
  unfold resolve_workspace_import. set (l := sort_by str_le (map fst (map_to_list ws))).
  assert (Hl : forall name, name ∈ l <-> is_Some (ws !! name)).
  { intros name. subst l. rewrite elem_of_sort_by, list_elem_of_fmap. split.
    - intros ([n d] & -> & Hn). apply elem_of_map_to_list in Hn. by exists d.
    - intros [d Hd]. exists (name, d). split; [done|]. by apply elem_of_map_to_list. }
  pose proof (longest_fold import_path l None) as H. cbv zeta in H. unfold names_package in H at 1.
  destruct (fold_left _ l None) as [b|].
  - destruct H as ([|[Hb Hn]] & _ & Hmax); [done|]. apply Hl in Hb as [dir Hd]. cbn [mbind option_bind]. rewrite Hd. cbn.
    assert (exists subpath, import_path = b +:+ subpath /\ (subpath = "" \/ starts_with subpath "/" = true)) as (subpath & E & Hsub).
    { apply orb_true_iff in Hn as [->%String.eqb_eq|(r & ->)%starts_with_spec].
      - exists "". rewrite str_app_nil. auto.
      - exists ("/" +:+ r). rewrite str_app_assoc. split; [done|right]. apply starts_with_spec. by exists r. }
    exists b, dir, subpath. split_and!; [done|done|done| |by rewrite E, str_drop_app].
    intros other d Ho. apply Hmax. apply Hl. by exists d.
  - cbn. intros name dir Hd. apply H, Hl. by exists dir.
Qed.

(** ** The Go modules and the memo of their packages (context.rs, go_packages.rs) *)

(** A slash of a path is its last or lies before it. *)
Lemma slash_before_last d t x r : d +:+ String SLASH t = x +:+ String SLASH r -> str_contains SLASH t = false ->
  x = d \/ exists r', d = x +:+ String SLASH r'.
Proof.
  revert d. induction x as [|c x IH]; intros d E Ht.
  - destruct d as [|c d]; [by left|right]. exists d. cbn in E. by injection E as -> _.
  - destruct d as [|c' d].
    + exfalso. cbn in E. injection E as _ ->. revert Ht. clear. induction x as [|a x IH]; cbn; [done|]. intros [_ H]%orb_false_iff. by apply IH.
    + cbn in E. injection E as -> E. apply IH in E as [->|(r' & ->)]; [by left|right; by exists r'|done].
Qed.

Lemma dirname_relative path : is_absolute path = false ->
  (dirname path = "" /\ str_contains SLASH path = false)
  \/ exists d t, dirname path = d /\ path = d +:+ String SLASH t /\ str_contains SLASH t = false /\ is_absolute d = false.
Proof.
  intros Ha. unfold dirname. destruct (rfind SLASH path) as [i|] eqn:E; [right|left; split; [done|by apply rfind_None]].
  apply rfind_Some in E as (d & t & -> & <- & Ht). exists d, t. destruct d as [|c d]; [done|]. cbn [String.length].
  split_and!; [|done|done|].
  - clear. change (String c (String.substring 0 (String.length d) (d +:+ String SLASH t)) = String c d). f_equal.
    induction d as [|a d IH]; [done|].
    change (String a (String.substring 0 (String.length d) (d +:+ String SLASH t)) = String a d). by rewrite IH.
  - destruct (is_absolute (String c d)) eqn:E; [|done]. apply is_absolute_spec in E as (s & [= -> ->]).
    rewrite <- Ha. symmetry. apply is_absolute_spec. by eexists.
Qed.

Lemma no_slash_app x r : str_contains SLASH (x +:+ String SLASH r) = true.
Proof.
  induction x as [|a x IH]; [done|].
  change (Ascii.eqb a SLASH || str_contains SLASH (x +:+ String SLASH r) = true). by rewrite IH, orb_true_r.
Qed.

Lemma dirs_above_exact n d : is_absolute d = false -> String.length d < n ->
  exists l, dirs_above n d = Ok l /\ forall x, x ∈ l <-> x = d \/ x = "" \/ exists r, d = x +:+ String SLASH r.
Proof.
  revert d. induction n as [|n IH]; intros d Ha Hn; [lia|]. cbn [dirs_above].
  destruct (String.eqb_spec d "") as [->|Hd].
  { exists [""]. split; [done|]. intros x. rewrite list_elem_of_singleton. split; [auto|]. intros [|[|(r & E)]]; try done. by destruct x. }
  destruct (dirname_relative d Ha) as [[-> Hs]|(d' & t & -> & E & Ht & Ha')].
  - destruct (IH "") as (l & -> & Hl); [done|destruct d; [done|cbn in *; lia]|]. exists (d :: l). split; [done|]. intros x.
    rewrite elem_of_cons, Hl. split; [|intuition].
    + intros [|[|[|(r & E)]]]; auto. by destruct x.
    + destruct H as (r & ->). by rewrite no_slash_app in Hs.
  - assert (String.length d' < n) as Hlt by (subst d; rewrite str_length_app in Hn; cbn in Hn; lia).
    destruct (IH d' Ha' Hlt) as (l & -> & Hl). exists (d :: l). split; [done|]. intros x. rewrite elem_of_cons, Hl. split.
    + intros [|[->|[|(r & ->)]]]; auto; right; right; [by exists t|]. exists (r +:+ String SLASH t). by rewrite E, str_app_assoc.
    + intros [|[|(r & Er)]]; auto. rewrite E in Er. apply slash_before_last in Er as [->|]; auto.
Qed.

(** Whether a directory lies above a file, the root above all. *)
Definition above (dir file : string) : Prop :=
  dir = "" \/ exists r, str_replace BACKSLASH SLASH file = dir +:+ String SLASH r.

Definition relative_file (file : string) : Prop := is_absolute (str_replace BACKSLASH SLASH file) = false.

Lemma str_replace_length c d s : String.length (str_replace c d s) = String.length s.
Proof. induction s as [|a s IH]; [done|]. cbn. by rewrite IH. Qed.

Lemma file_dirs file : relative_file file ->
  exists l, dirs_above (S (String.length file)) (dirname (str_replace BACKSLASH SLASH file)) = Ok l /\ forall x, x ∈ l <-> above x file.
Proof.
  unfold relative_file, above. intros Ha. pose proof (str_replace_length BACKSLASH SLASH file) as Hlen.
  set (f := str_replace BACKSLASH SLASH file) in *. clearbody f.
  destruct (dirname_relative f Ha) as [[-> Hs]|(d & t & -> & E & Ht & Ha')].
  - exists [""]. split; [done|]. intros x. rewrite list_elem_of_singleton. split; [auto|]. intros [|(r & ->)]; [done|].
    by rewrite no_slash_app in Hs.
  - destruct (dirs_above_exact (S (String.length file)) d Ha') as (l & -> & Hl).
    { rewrite <- Hlen, E, str_length_app. cbn. lia. }
    exists l. split; [done|]. intros x. rewrite Hl. split.
    + intros [->|[|(r & ->)]]; auto; right; [by exists t|]. exists (r +:+ String SLASH t). by rewrite E, str_app_assoc.
    + intros [|(r & Er)]; auto. rewrite E in Er. apply slash_before_last in Er as [->|]; auto.
Qed.

Lemma dirs_of_files_exact files : Forall relative_file files ->
  exists l, dirs_of_files files = Ok l
    /\ forall x, x ∈ l <-> exists file, file ∈ files /\ ends_with file ".go" = true /\ above x file.
Proof.
  induction 1 as [|file files Hf _ IH]; cbn [dirs_of_files].
  { exists []. split; [done|]. intros x. split; [by intros ?%elem_of_nil|]. intros (f & Hf & _). by apply elem_of_nil in Hf. }
  destruct IH as (l & -> & Hl). destruct (ends_with file ".go") eqn:E.
  - destruct (file_dirs file Hf) as (la & -> & Hla). cbn. exists (la ++ l). split; [done|]. intros x.
    rewrite elem_of_app, Hla, Hl. split.
    + intros [Ha|(f & Hin & Hgo)]; [exists file; split; [by left|done]|exists f; split; [by right|done]].
    + intros (f & [->|Hin]%elem_of_cons & Hgo & Ha); [by left|right; by exists f].
  - exists l. split; [done|]. intros x. rewrite Hl. split.
    + intros (f & Hin & Hgo). exists f. split; [by right|done].
    + intros (f & [->|Hin]%elem_of_cons & Hgo & Ha); [congruence|by exists f].
Qed.

Lemma module_line_dir dir l m : module_line dir l = Some m -> gm_dir m = dir.
Proof.
  induction l as [|line l IH]; [done|]. cbn [module_line]. destruct (str_strip_prefix "module" (trim_start line)); [|done].
  destruct (String.eqb _ _); [done|]. by intros [= <-].
Qed.

Lemma module_le_total a b : module_le a b = true \/ module_le b a = true.
Proof.
  unfold module_le. rewrite (String.eqb_sym (gm_dir b)). destruct (String.eqb _ _); apply str_le_total.
Qed.

Lemma str_le_refl a : str_le a a = true.
Proof. by destruct (str_le_total a a). Qed.

Lemma module_le_dir a b : module_le a b = true -> str_le (gm_dir a) (gm_dir b) = true.
Proof. unfold module_le. destruct (String.eqb_spec (gm_dir a) (gm_dir b)) as [->|]; [|done]. intros _. apply str_le_refl. Qed.

Lemma module_le_trans a b c : module_le a b = true -> module_le b c = true -> module_le a c = true.
Proof.
  intros Hab Hbc. pose proof (module_le_dir a b Hab) as Hd. pose proof (module_le_dir b c Hbc) as Hd'. unfold module_le in *.
  destruct (String.eqb_spec (gm_dir a) (gm_dir b)) as [E1|E1], (String.eqb_spec (gm_dir b) (gm_dir c)) as [E2|E2],
    (String.eqb_spec (gm_dir a) (gm_dir c)) as [E3|E3]; try congruence; try (by eapply str_leb_trans).
  destruct E1. apply str_leb_antisym; [done|]. by rewrite E3.
Qed.

Lemma dedup_modules_unique l : NoDup (map gm_dir l) -> dedup_modules l = l.
Proof.
  induction l as [|a l IH]; [done|]. cbn [map]. intros [Ha Hl]%NoDup_cons. cbn [dedup_modules]. rewrite IH by done.
  destruct l as [|b l]; [done|]. destruct (String.eqb_spec (gm_dir a) (gm_dir b)) as [E|]; [|done]. destruct Ha. rewrite E. by left.
Qed.

Lemma strongly_sorted_mono {A} (le : A -> A -> bool) (R : A -> A -> Prop) l :
  (forall a b, le a b = true -> R a b) -> StronglySorted (fun a b => le a b = true) l -> StronglySorted R l.
Proof.
  intros H. induction 1 as [|a l _ IH Ha]; constructor; [done|]. eapply Forall_impl; [exact Ha|]. intros b. apply H.
Qed.

Section GoModuleLoad.
Variables (text_of : string -> option string) (project_root : string).

#[local] Notation module_in := (load_go_module_in text_of project_root).

Lemma module_in_dir dir m : module_in dir = Some m -> gm_dir m = dir.
Proof. unfold load_go_module_in. destruct (text_of _); [|done]. apply module_line_dir. Qed.

Lemma loaded_dirs_unique dirs : NoDup dirs -> NoDup (map gm_dir (omap module_in dirs)).
Proof.
  induction 1 as [|d dirs Hd _ IH]; [constructor|]. cbn. destruct (module_in d) as [m|] eqn:E; [|done].
  cbn. constructor; [|done]. rewrite (module_in_dir d m E). intros Hin. apply Hd.
  apply list_elem_of_fmap in Hin as (m' & -> & Hm'). apply list_elem_of_omap in Hm' as (d' & Hd' & E'). by rewrite (module_in_dir d' m' E').
Qed.

(** What the loader promises its readers. *)
Definition module_list (modules : list GoModule) : Prop :=
  StronglySorted (fun a b => str_le (gm_dir a) (gm_dir b) = true) modules /\ NoDup (map gm_dir modules).

(** Loading the Go modules of relative files ends, with the [go.mod] of the root and of each directory above a Go file, once each,
    in the order of their directories. *)
Theorem load_go_modules_exact files : Forall relative_file files ->
  exists modules, load_go_modules text_of project_root files = Ok modules /\ module_list modules
    /\ forall m, m ∈ modules <-> module_in (gm_dir m) = Some m
         /\ (gm_dir m = "" \/ exists file, file ∈ files /\ ends_with file ".go" = true /\ above (gm_dir m) file).
Proof.
  intros Hf. destruct (dirs_of_files_exact files Hf) as (dirs & E & Hdirs). unfold load_go_modules. rewrite E. cbn [mbind result_bind].
  destruct (sort_by str_le (remove_dups dirs)) as [|d0 l] eqn:Es.
  - assert (Hno : forall x, x ∉ dirs).
    { intros x Hx. apply elem_of_remove_dups in Hx. rewrite <- (elem_of_sort_by str_le), Es in Hx. by apply elem_of_nil in Hx. }
    exists (match module_in "" with Some m => [m] | None => [] end). split; [done|]. split.
    { destruct (module_in ""); split; repeat constructor. by intros ?%elem_of_nil. }
    intros m. split.
    + destruct (module_in "") as [m'|] eqn:E'; [|by intros ?%elem_of_nil]. intros ->%list_elem_of_singleton.
      rewrite (module_in_dir "" m' E'). auto.
    + intros [Em [Hd|Ha]]; [rewrite Hd in Em; rewrite Em; by left|]. by destruct (Hno (gm_dir m)); apply Hdirs.
  - rewrite <- Es. set (ds := sort_by str_le (remove_dups dirs)) in *.
    assert (Hnd : NoDup ds) by (subst ds; rewrite sort_by_perm; apply NoDup_remove_dups).
    assert (Hds : forall x, x ∈ ds <-> x ∈ dirs) by (intros x; subst ds; by rewrite elem_of_sort_by, elem_of_remove_dups).
    pose proof (loaded_dirs_unique ds Hnd) as Hu.
    assert (Hu' : NoDup (map gm_dir (sort_by module_le (omap module_in ds)))) by (by rewrite sort_by_perm).
    rewrite dedup_modules_unique by done. eexists. split; [done|]. split; [split; [|done]|].
    + apply (strongly_sorted_mono module_le _ _ module_le_dir).
      apply Sorted_StronglySorted; [intros a b c; apply module_le_trans|apply sort_by_sorted, module_le_total].
    + intros m. rewrite elem_of_sort_by, list_elem_of_omap. split.
      * intros (d & Hd & Em). rewrite (module_in_dir d m Em). split; [done|right]. by apply Hdirs, Hds.
      * intros [Em Hd]. exists (gm_dir m). split; [|done]. apply Hds, Hdirs. destruct Hd as [Hr|]; [|done].
        rewrite Hr. assert (exists x, x ∈ dirs) as (x & (file & Hin & Hgo & _)%Hdirs).
        { destruct ds as [|x ds'] eqn:Ed; [|exists x; apply Hds; by left]. by rewrite Es in Ed. }
        exists file. split_and!; [done|done|by left].
Qed.

End GoModuleLoad.

(** *** The memo *)

Section GoMemo.
Variable modules : list GoModule.
Hypothesis loaded : module_list modules.

#[local] Notation GoMemo := (gmap (string * string) (option string)).

(** The root module comes first, and no other is its own. *)
Lemma root_first root : root ∈ modules -> gm_dir root = "" ->
  exists rest, modules = root :: rest /\ Forall (fun m => String.eqb "" (gm_dir m) = false) rest.
Proof.
  intros Hroot Hdir. destruct loaded as [Hs Hnd]. destruct modules as [|m rest]; [by apply elem_of_nil in Hroot|].
  apply StronglySorted_inv in Hs as [_ Hm]. cbn [map] in Hnd. apply NoDup_cons in Hnd as [Hm' _].
  assert (gm_dir m = "") as Em.
  { apply elem_of_cons in Hroot as [<-|Hin]; [done|]. rewrite Forall_forall in Hm. specialize (Hm root Hin). rewrite Hdir in Hm.
    by destruct (gm_dir m). }
  exists rest. split.
  - f_equal. apply elem_of_cons in Hroot as [|Hin]; [done|]. destruct Hm'. rewrite Em, <- Hdir. by apply list_elem_of_fmap_2.
  - rewrite Forall_forall. intros b Hb. destruct (String.eqb_spec "" (gm_dir b)) as [E|]; [|done]. destruct Hm'. rewrite Em, E.
    by apply list_elem_of_fmap_2.
Qed.

(** The root module as a file's own decides nothing. *)
Lemma own_root_is_none import_path root : root ∈ modules -> gm_dir root = "" ->
  owning_go_module import_path modules (Some root) = owning_go_module import_path modules None.
Proof.
  intros Hroot Hdir. destruct (root_first root Hroot Hdir) as (rest & -> & Hrest). unfold owning_go_module. rewrite !filter_cons, !Hdir.
  rewrite ?String.eqb_refl. change (is_ignored_module_dir "") with false. cbn [negb orb]. rewrite !decide_True by done. cbn [fold_left].
  replace (filter (fun m => negb (is_ignored_module_dir (gm_dir m)) || String.eqb "" (gm_dir m) = true) rest)
    with (filter (fun m => negb (is_ignored_module_dir (gm_dir m)) || false = true) rest).
  2:{ clear -Hrest. induction Hrest as [|m rest Hm _ IH]; [done|]. rewrite !filter_cons.
      destruct (decide _) as [H1|H1], (decide _) as [H2|H2]; rewrite Hm in H2; [by rewrite IH|done..]. }
  match goal with |- fold_left _ _ ?b = fold_left _ _ ?b' => change b' with b; generalize b end.
  assert (Hf : Forall (fun m => String.eqb "" (gm_dir m) = false) (filter (fun m => negb (is_ignored_module_dir (gm_dir m)) || false = true) rest)).
  { rewrite Forall_forall in *. intros m Hm. apply list_elem_of_filter in Hm as [_ Hm]. by apply Hrest. }
  induction Hf as [|m ms Hm _ IH]; intros best; [done|]. cbn [fold_left]. by rewrite Hm, IH.
Qed.

(** What a memo may hold: at every key the answer for an own module the key names. *)
Definition memo_sound (memo : GoMemo) : Prop :=
  forall import_path own v, (forall m, own = Some m -> m ∈ modules) ->
    memo !! memo_key import_path own = Some v -> v = package_dir_for import_path modules own.

Lemma same_key_same_answer import_path own own' :
  (forall m, own = Some m -> m ∈ modules) -> (forall m, own' = Some m -> m ∈ modules) ->
  memo_key import_path own = memo_key import_path own' ->
  package_dir_for import_path modules own = package_dir_for import_path modules own'.
Proof.
  intros Ho Ho' [= E]. unfold package_dir_for. f_equal. destruct own as [m|], own' as [m'|]; [..|done].
  - unfold owning_go_module. by rewrite E.
  - apply own_root_is_none; [by apply Ho|done].
  - symmetry. apply own_root_is_none; [by apply Ho'|done].
Qed.

Lemma nearest_module_in dir m : nearest_module dir modules = Some m -> m ∈ modules.
Proof.
  unfold nearest_module. enough (forall l best, (forall b, best = Some b -> b ∈ modules) -> (forall b, b ∈ l -> b ∈ modules) ->
    forall m, fold_left (fun best m =>
      if String.eqb (gm_dir m) "" || String.eqb dir (gm_dir m) || starts_with dir (gm_dir m +:+ "/") then
        match best with
        | Some b => if String.length (gm_dir m) <? String.length (gm_dir b) then best else Some m
        | None => Some m
        end
      else best) l best = Some m -> m ∈ modules) as H by (apply H; done).
  clear m. induction l as [|a l IH]; intros best Hb Hl m; [apply Hb|]. cbn [fold_left]. apply IH; [|intros b Hin; apply Hl; by right].
  assert (Ha : forall b, Some a = Some b -> b ∈ modules) by (intros b [= <-]; apply Hl; by left).
  destruct (_ || _); [|done]. destruct best as [b0|]; [|done]. by destruct (_ <? _).
Qed.

Lemma own_module_in from_file m : own_module from_file modules = Some m -> m ∈ modules.
Proof. unfold own_module. destruct from_file; [apply nearest_module_in|done]. Qed.

Lemma memo_step memo import_path from_file : memo_sound memo ->
  let '(memo', dir) := go_import_package_dir_memo modules memo import_path from_file in
  dir = go_import_package_dir import_path from_file modules /\ memo_sound memo'.
Proof.
  intros Hm. unfold go_import_package_dir_memo, go_import_package_dir.
  assert (Ho : forall m, own_module from_file modules = Some m -> m ∈ modules) by apply own_module_in.
  destruct (memo !! _) as [hit|] eqn:E; [split; [by apply Hm|done]|]. split; [done|].
  intros i own v Hown. rewrite lookup_insert. case_decide as Hk; [|by apply Hm].
  assert (i = import_path) as -> by (by injection Hk). intros [= <-]. by apply same_key_same_answer.
Qed.

(** Over a list as the loader makes it, sorted with one module a directory, the memo of a pass changes no answer, whatever is
    asked in whatever order: the key it gives a file of the root module is also that of no file at all, but their answers are the
    same. *)
Theorem go_memo_transparent queries :
  go_import_package_dirs modules ∅ queries = map (fun q => go_import_package_dir q.1 q.2 modules) queries.
Proof.
  enough (forall memo, memo_sound memo ->
    go_import_package_dirs modules memo queries = map (fun q => go_import_package_dir q.1 q.2 modules) queries) as H
    by (apply H; by intros ???? ?%lookup_empty_Some).
  induction queries as [|[i f] queries IH]; intros memo Hm; [done|]. cbn [go_import_package_dirs map fst snd].
  pose proof (memo_step memo i f Hm) as Hs. destruct (go_import_package_dir_memo _ _ _ _) as [memo' dir].
  destruct Hs as [-> Hm']. by rewrite IH.
Qed.

End GoMemo.


(** Out of that order they are not. *)
Lemma go_memo_needs_order :
  let modules := [mkGoModule "example.com/m" "old"; mkGoModule "example.com/m" ""] in
  let import_path := "example.com/m/store" in
  go_import_package_dir import_path (Some "main.go") modules = Some "store"
  /\ go_import_package_dirs modules ∅ [(import_path, None); (import_path, Some "main.go")] = [Some "old/store"; Some "old/store"].
Proof. by vm_compute. Qed.

(** ** The candidates of an import path (import_resolver.rs) *)

(** The files that a base path may stand for, in the order they are tried. *)
Definition source_candidates (language : Language) (base : string) : list string :=
  substitution base language ++ map (String.append base) (extension_resolution language) ++ [base].

Definition relative_candidates (context : ImportContext) (import_path from_dir : string) (language : Language) : list string :=
  let rel := PathUtil.relative (ic_project_root context) in
  match language with
  | LangPython =>
      let '(dots, rest) := leading_dots import_path in
      let base := rel (PathUtil.resolve from_dir (str_repeat (dots - 1) "../" +:+ str_replace "." SLASH rest)) in
      map (String.append base) (extension_resolution language) ++ (if String.eqb base "" then [] else [base])
  | _ =>
      let base := rel (PathUtil.resolve from_dir import_path) in
      if String.eqb base "" || String.eqb base "." then omap (str_strip_prefix "/") (extension_resolution language)
      else source_candidates language base
  end.

(** The bases an import path that is not relative may have: by the project's aliases, its workspace, the usual aliases, itself. *)
Definition aliased_bases (context : ImportContext) (import_path : string) : result SlicePanic (list string) :=
  match ic_project_aliases context with
  | Some aliases => apply_aliases import_path aliases (ic_project_root context)
  | None => Ok []
  end ≫= fun aliased : list string =>
  Ok (aliased
      ++ option_list (ic_workspace_packages context ≫= resolve_workspace_import import_path)
      ++ omap (fun entry => String.append entry.2 <$> str_strip_prefix entry.1 import_path) FALLBACK_ALIASES
      ++ [import_path]).

Definition include_candidates (context : ImportContext) (import_path : string) (language : Language) : list string :=
  match language with
  | LangC | LangCpp =>
      ic_cpp_include_dirs context ≫= fun dir =>
        let base := str_replace BACKSLASH SLASH dir +:+ "/" +:+ import_path in
        map (String.append base) (extension_resolution language) ++ [base]
  | _ => []
  end.

Definition import_candidates (context : ImportContext) (import_path from_file : string) (language : Language)
    : result SlicePanic (list string) :=
  if starts_with import_path "." then
    Ok (relative_candidates context import_path (dirname (PathUtil.resolve (ic_project_root context) from_file)) language)
  else
    bases ← aliased_bases context import_path;
    Ok (((bases : list string) ≫= source_candidates language) ++ include_candidates context import_path language).

Section Candidates.
Variable context : ImportContext.

#[local] Notation first := (first_existing context).

Lemma first_existing_find l : first l = List.find (ic_file_exists context) l.
Proof. induction l as [|a l IH]; [done|]. cbn. by rewrite IH. Qed.

Lemma first_existing_app l l' : first (l ++ l') = match first l with Some hit => Some hit | None => first l' end.
Proof. induction l as [|a l IH]; [done|]. cbn. destruct (ic_file_exists context a); [done|exact IH]. Qed.

Lemma resolve_source_candidate_first base language :
  resolve_source_candidate context base language = first (source_candidates language base).
Proof.
  unfold resolve_source_candidate, source_candidates. rewrite !first_existing_app.
  destruct (first (substitution base language)); [done|]. by destruct (first (map (String.append base) _)).
Qed.

Lemma first_base_first language l : first_base context language l = first (l ≫= source_candidates language).
Proof.
  induction l as [|base l IH]; [done|]. cbn [first_base]. rewrite bind_cons, first_existing_app, resolve_source_candidate_first.
  by destruct (first (source_candidates _ _)).
Qed.

Lemma relative_first import_path from_dir language :
  resolve_relative_import context import_path from_dir language = first (relative_candidates context import_path from_dir language).
Proof.
  unfold resolve_relative_import, relative_candidates. destruct language;
    try (destruct (_ || _); [done|apply resolve_source_candidate_first]).
  destruct (leading_dots import_path) as [dots rest]. rewrite first_existing_app. destruct (first _); [done|].
  destruct (String.eqb _ ""); [done|]. cbn. by destruct (ic_file_exists context _).
Qed.

Lemma aliased_first import_path language :
  resolve_aliased_import context import_path language
  = aliased_bases context import_path ≫= fun bases : list string => Ok (first (bases ≫= source_candidates language)).
Proof.
  unfold resolve_aliased_import, aliased_bases.
  destruct (match ic_project_aliases context with Some _ => _ | None => _ end) as [aliased| |]; [|done..]. cbn [mbind result_bind].
  rewrite !bind_app, !first_existing_app, !first_base_first. destruct (first _); [done|].
  destruct (ic_workspace_packages context ≫= resolve_workspace_import import_path) as [base|]; unfold option_list; cbn [option_rect];
    cbn [mbind option_bind]; rewrite ?bind_cons, ?bind_nil, ?app_nil_r, ?resolve_source_candidate_first.
  - destruct (first (source_candidates language base)); [done|].
    match goal with |- context [first (omap ?f ?l ≫= ?g)] => destruct (first (omap f l ≫= g)) end; done.
  - match goal with |- context [first (omap ?f ?l ≫= ?g)] => destruct (first (omap f l ≫= g)) end; done.
Qed.

Lemma include_first import_path language dirs :
  resolve_cpp_include_path context import_path language dirs
  = first (dirs ≫= fun dir =>
        let base := str_replace BACKSLASH SLASH dir +:+ "/" +:+ import_path in
        map (String.append base) (extension_resolution language) ++ [base]).
Proof.
  induction dirs as [|dir dirs IH]; [done|]. cbn [resolve_cpp_include_path]. rewrite bind_cons, !first_existing_app, IH.
  match goal with |- context [first (map ?f ?l)] => destruct (first (map f l)) end; [done|]. cbn. by destruct (ic_file_exists context _).
Qed.

(** C20: an import path resolves to the first file of the project among its candidates, in this order: those of a relative path; or those of
    the bases that the project's aliases, its workspace, the usual aliases and the path itself give, then the include directories of
    C and C++; an external one to none; and the only panic is that of the aliases. *)
Theorem resolve_import_path_candidates import_path from_file language :
  resolve_import_path context import_path from_file language
  = if is_external_import context import_path language then Ok None
    else import_candidates context import_path from_file language ≫= fun candidates : list string =>
         Ok (List.find (ic_file_exists context) candidates).
Proof.
  unfold resolve_import_path, import_candidates. destruct (is_external_import _ _ _); [done|].
  destruct (starts_with import_path "."); [cbn; by rewrite relative_first, first_existing_find|].
  rewrite aliased_first. destruct (aliased_bases context import_path) as [bases| |]; [|done..]. cbn [mbind result_bind].
  rewrite <- first_existing_find, first_existing_app. destruct (first (bases ≫= _)); [done|].
  unfold include_candidates. destruct language; try done; by rewrite include_first.
Qed.

End Candidates.

(** The panic is reached: a wildcard with a suffix takes a path that prefix and suffix share a part of. *)
Lemma alias_overlap_panics :
  let options := mkEffective (Some "/p") (Some [("@/*/index", VArray [VString "src/*/index"])]) None in
  exists aliases, alias_map "/p" options = Some aliases /\ apply_aliases "@/index" aliases "/p" = Err SliceBeginAfterEnd.
Proof. eexists. by vm_compute. Qed.

(** ** JSON with comments (path_aliases.rs, strip_jsonc) *)

(** What a config is written in: a string's characters and escapes, comments, and the characters between them. *)
Inductive StringPart : Set := PartChar (c : Char) | PartEscape (c : Char).

Inductive JsoncToken : Set :=
| TokString (body : list StringPart)
| TokLine (text : list Char)
| TokBlock (text : list Char)
| TokChar (c : Char).

Definition part_chars (p : StringPart) : list Char :=
  match p with PartChar c => [c] | PartEscape c => [CBACKSLASH; c] end.

Definition string_chars (body : list StringPart) : list Char := QUOTE :: (body ≫= part_chars) ++ [QUOTE].

Definition token_chars (t : JsoncToken) : list Char :=
  match t with
  | TokString body => string_chars body
  | TokLine text => CSLASH :: CSLASH :: text ++ [CNEWLINE]
  | TokBlock text => CSLASH :: STAR :: text ++ [STAR; CSLASH]
  | TokChar c => [c]
  end.

Definition part_ok (p : StringPart) : Prop :=
  match p with PartChar c => c <> QUOTE /\ c <> CBACKSLASH | PartEscape _ => True end.

(** No end of a block comment in a text. *)
Fixpoint no_close (text : list Char) : Prop :=
  match text with
  | c :: ((d :: _) as rest) => ~ (c = STAR /\ d = CSLASH) /\ no_close rest
  | _ => True
  end.

Definition token_ok (t : JsoncToken) : Prop :=
  match t with
  | TokString body => Forall part_ok body
  | TokLine text => CNEWLINE ∉ text
  | TokBlock text => no_close text
  | TokChar c => c <> QUOTE /\ c <> CSLASH
  end.

(** A string with no comma that only whitespace parts from a bracket. *)
Definition commas_safe (t : JsoncToken) : Prop :=
  match t with TokString body => strip_trailing_commas (string_chars body) = string_chars body | _ => True end.

(** Whether the next character that is neither white nor in a comment closes a bracket. *)
Fixpoint closes_next (l : list JsoncToken) : bool :=
  match l with
  | TokLine _ :: l | TokBlock _ :: l => closes_next l
  | TokChar c :: l => if is_whitespace c then closes_next l else closes c
  | TokString _ :: _ | [] => false
  end.

(** The JSON a config stands for: no comments, and no comma before a closing bracket. *)
Fixpoint plain_json (l : list JsoncToken) : list Char :=
  match l with
  | [] => []
  | TokString body :: l => string_chars body ++ plain_json l
  | TokLine _ :: l => CNEWLINE :: plain_json l
  | TokBlock _ :: l => plain_json l
  | TokChar c :: l => if (c =? COMMA)%N && closes_next l then plain_json l else c :: plain_json l
  end.

(** The same without the second: what the comment stripper leaves. *)
Definition uncommented (t : JsoncToken) : list Char :=
  match t with TokLine _ => [CNEWLINE] | TokBlock _ => [] | _ => token_chars t end.

Lemma skip_line_text text r : CNEWLINE ∉ text -> skip_line (text ++ CNEWLINE :: r) = CNEWLINE :: r.
Proof.
  induction text as [|c text IH]; [done|]. intros [Hc Ht]%not_elem_of_cons. cbn [app skip_line].
  destruct (N.eqb_spec c CNEWLINE); [by subst|by apply IH].
Qed.

Lemma skip_block_text text r : no_close text -> skip_block (text ++ STAR :: CSLASH :: r) = r.
Proof.
  induction text as [|c [|d text] IH]; [done| |].
  - intros _. cbn [app skip_block]. rewrite andb_false_r. done.
  - intros [Hcd Ht]. cbn [app skip_block]. destruct (N.eqb_spec c STAR), (N.eqb_spec d CSLASH); cbn [andb];
      try (exact (IH Ht)). by destruct Hcd.
Qed.

Lemma strip_string fuel body r out : Forall part_ok body ->
  strip_comments fuel false r = Ok out ->
  strip_comments (length body + S fuel) true ((body ≫= part_chars) ++ QUOTE :: r) = Ok ((body ≫= part_chars) ++ QUOTE :: out).
Proof.
  intros Hb Hr. induction Hb as [|p body Hp _ IH].
  { change (length (@nil StringPart) + S fuel) with (S fuel). cbn [mbind list_bind app strip_comments].
    change (QUOTE =? CBACKSLASH)%N with false. change (QUOTE =? QUOTE)%N with true. cbn [negb]. by rewrite Hr. }
  rewrite bind_cons, <- !app_assoc. cbn [length Nat.add strip_comments]. destruct p as [c|c]; cbn [part_chars app part_ok] in *.
  - destruct Hp as [Hq Hs]. destruct (N.eqb_spec c CBACKSLASH); [done|]. destruct (N.eqb_spec c QUOTE); [done|]. cbn [negb].
    by rewrite IH.
  - change (CBACKSLASH =? CBACKSLASH)%N with true. cbv iota. by rewrite IH.
Qed.

Lemma bind_more {E A B} (x y : result E A) (k : A -> result E B) b :
  (forall a, x = Ok a -> y = Ok a) -> x ≫= k = Ok b -> y ≫= k = Ok b.
Proof. intros H. destruct x as [a| |]; [by rewrite (H a)|done..]. Qed.

Lemma strip_comments_more n m b l out : strip_comments n b l = Ok out -> n <= m -> strip_comments m b l = Ok out.
Proof.
  intros H Hm. revert m b l out Hm H. induction n as [|n IH]; intros [|m] b l out Hm; [done|done|lia|]. cbn [strip_comments].
  assert (Hgo : forall b l out, strip_comments n b l = Ok out -> strip_comments m b l = Ok out) by (intros; apply IH; [lia|done]).
  destruct l as [|c rest]; [done|]. destruct b.
  - destruct (c =? CBACKSLASH)%N, rest as [|d rest]; apply bind_more; apply Hgo.
  - destruct (c =? QUOTE)%N; [apply bind_more; apply Hgo|].
    destruct (c =? CSLASH)%N, rest as [|d rest]; try (apply bind_more; apply Hgo).
    destruct (d =? CSLASH)%N; [apply Hgo|]. destruct (d =? STAR)%N; [apply Hgo|apply bind_more; apply Hgo].
Qed.

Lemma strip_comments_quote n rest :
  strip_comments (S n) false (QUOTE :: rest) = strip_comments n true rest ≫= fun out : list Char => Ok (QUOTE :: out).
Proof. done. Qed.

Lemma strip_comments_other n c rest : c <> QUOTE -> c <> CSLASH ->
  strip_comments (S n) false (c :: rest) = strip_comments n false rest ≫= fun out : list Char => Ok (c :: out).
Proof. intros Hq Hs. cbn [strip_comments]. destruct (N.eqb_spec c QUOTE); [done|]. by destruct (N.eqb_spec c CSLASH). Qed.

Lemma body_length body : length body <= length (body ≫= part_chars).
Proof. induction body as [|[c|c] body IH]; [done|..]; rewrite bind_cons, length_app; cbn; lia. Qed.

Lemma strip_comments_tokens l : Forall token_ok l ->
  strip_comments (S (length (l ≫= token_chars))) false (l ≫= token_chars) = Ok (l ≫= uncommented).
Proof.
  induction 1 as [|t l Ht _ IH]; [done|]. rewrite !bind_cons. destruct t as [body|text|text|c]; cbn [token_chars uncommented token_ok] in *.
  - unfold string_chars. apply (strip_string _ body) in IH; [|done].
    rewrite <- app_comm_cons, <- app_assoc. cbn [app]. rewrite strip_comments_quote.
    eapply strip_comments_more in IH; [rewrite IH; cbn; by rewrite <- app_assoc|]. cbn [length].
    rewrite !length_app. cbn [length]. pose proof (body_length body). lia.
  - rewrite <- app_comm_cons, <- app_comm_cons, <- app_assoc. cbn [app strip_comments]. change (CSLASH =? QUOTE)%N with false.
    change (CSLASH =? CSLASH)%N with true. cbv iota.
    replace (skip_line (CSLASH :: CSLASH :: text ++ CNEWLINE :: (l ≫= token_chars))) with (CNEWLINE :: (l ≫= token_chars))
      by (symmetry; apply (skip_line_text (CSLASH :: CSLASH :: text)); rewrite !not_elem_of_cons; split_and!; done).
    cbn [length]. rewrite length_app. cbn [length].
    apply (strip_comments_more (S (S (length (l ≫= token_chars))))); [|lia]. by rewrite strip_comments_other, IH.
  - rewrite <- app_comm_cons, <- app_comm_cons, <- app_assoc. cbn [app strip_comments]. change (CSLASH =? QUOTE)%N with false.
    change (CSLASH =? CSLASH)%N with true. change (STAR =? CSLASH)%N with false. change (STAR =? STAR)%N with true. cbv iota.
    rewrite skip_block_text by done. cbn [length]. rewrite length_app. cbn [length].
    apply (strip_comments_more (S (length (l ≫= token_chars)))); [exact IH|lia].
  - destruct Ht as [Hq Hs]. cbn [app length]. by rewrite strip_comments_other, IH.
Qed.

(** *** The trailing commas *)

Lemma drop_white_app a r : drop_white (a ++ r) = match drop_white a with [] => drop_white r | l => l ++ r end.
Proof. induction a as [|c a IH]; [done|]. cbn. by destruct (is_whitespace c). Qed.

(** A character that is neither white nor a comma ends the reach of the commas before it. *)
Lemma strip_trailing_app a q r : is_whitespace q = false -> q <> COMMA ->
  strip_trailing_commas ((a ++ [q]) ++ r) = strip_trailing_commas (a ++ [q]) ++ strip_trailing_commas r.
Proof.
  intros Hq Hc.
  induction a as [|c a IH]; cbn [app strip_trailing_commas].
  - destruct (N.eqb_spec q COMMA); [done|]. cbn [andb app]. by destruct r.
  - rewrite (drop_white_app (a ++ [q]) r). rewrite IH.
    assert (exists d l, drop_white (a ++ [q]) = d :: l) as (d & l & ->).
    { rewrite drop_white_app. destruct (drop_white a); [cbn; rewrite Hq|]; eauto. }
    cbn [app]. by destruct (_ && _).
Qed.

Lemma closes_next_chars l : Forall token_ok l ->
  match drop_white (l ≫= uncommented) with d :: _ => closes d | [] => false end = closes_next l.
Proof.
  induction 1 as [|t l Ht _ IH]; [done|]. rewrite bind_cons. destruct t as [body|text|text|c]; cbn [uncommented token_chars app closes_next].
  - done.
  - exact IH.
  - exact IH.
  - cbn [drop_white]. by destruct (is_whitespace c).
Qed.

(** C22: [strip_jsonc] of a config is the JSON it stands for: its comments are gone, wherever they stand, the commas before a closing
    bracket too, comments between them or not, and its strings are as they were, comment marks in them or not; it needs that no
    string holds a comma before a bracket. *)
Theorem strip_jsonc_exact l : Forall token_ok l -> Forall commas_safe l -> strip_jsonc (l ≫= token_chars) = Ok (plain_json l).
Proof.
  intros Hok Hsafe. unfold strip_jsonc. rewrite strip_comments_tokens by done. cbn [mbind result_bind]. f_equal.
  induction Hok as [|t l Ht Hok IH]; [done|]. apply Forall_cons in Hsafe as [Hs Hsafe]. specialize (IH Hsafe).
  rewrite bind_cons. destruct t as [body|text|text|c]; cbn [uncommented token_chars plain_json commas_safe] in *.
  - unfold string_chars at 1. rewrite app_comm_cons.
    rewrite (strip_trailing_app (QUOTE :: (body ≫= part_chars)) QUOTE (l ≫= uncommented)) by done.
    rewrite IH. f_equal. exact Hs.
  - cbn [app strip_trailing_commas]. by rewrite IH.
  - exact IH.
  - cbn [app strip_trailing_commas]. rewrite (closes_next_chars l Hok), IH. done.
Qed.

(** Without that a string is edited: ["a,]"] reads ["a]"]. *)
Lemma strip_jsonc_edits_strings :
  strip_jsonc (string_chars [PartChar 97%N; PartChar COMMA; PartChar 93%N]) = Ok (string_chars [PartChar 97%N; PartChar 93%N]).
Proof. done. Qed.

(** ** At concrete inputs *)

(** A config whose comments stand before a comma's bracket and, as marks only, in a string. *)
Definition demo_tokens : list JsoncToken :=
  [TokChar 123%N; TokString [PartChar 47%N; PartChar 47%N]; TokChar 58%N; TokString [PartEscape QUOTE; PartChar COMMA];
   TokChar COMMA; TokBlock [STAR; 32%N]; TokLine [QUOTE]; TokChar 125%N].

Lemma demo_tokens_ok : Forall token_ok demo_tokens /\ Forall commas_safe demo_tokens.
Proof.
  split; repeat constructor; try done.
  - by intros [].
  - by intros ?%list_elem_of_singleton.
Qed.

Lemma strip_jsonc_exact_witness :
  Forall token_ok demo_tokens /\ Forall commas_safe demo_tokens
  /\ strip_jsonc (demo_tokens ≫= token_chars)
     = Ok ([123%N; QUOTE; 47%N; 47%N; QUOTE; 58%N; QUOTE; CBACKSLASH; QUOTE; COMMA; QUOTE; CNEWLINE; 125%N]).
Proof.
  destruct demo_tokens_ok as [H1 H2]. split_and!; [exact H1|exact H2|]. exact (strip_jsonc_exact demo_tokens H1 H2).
Defined.

Definition demo_options : EffectiveOptions :=
  mkEffective (Some "/p") (Some [("@/*", VArray [VString "src/*"; VString "../out/*"; VString "gen/*"]); ("@/x", VArray [VString "x.ts"])]) None.

Definition demo_aliases : AliasMap :=
  mkAliasMap "/p" [mkPattern "@/x" "" false ["x.ts"]; mkPattern "@/" "" true ["src/*"; "../out/*"; "gen/*"]].

Lemma demo_alias_map : alias_map "/p" demo_options = Some demo_aliases.
Proof. by vm_compute. Qed.

Lemma apply_aliases_exact_witness :
  alias_map "/p" demo_options = Some demo_aliases
  /\ exists best, best ∈ am_patterns demo_aliases /\ al_prefix best = "@/"
       /\ apply_aliases "@/a" demo_aliases "/p" = Ok ["src/a"; "gen/a"].
Proof.
  split; [exact demo_alias_map|].
  destruct (apply_aliases_exact "/p" demo_options demo_aliases "@/a" demo_alias_map) as [[H _]|(best & Hin & Ht & _ & _ & E)].
  - exfalso. apply Forall_cons in H as [_ H]. apply Forall_cons in H as [H _]. vm_compute in H. done.
  - exists best. split; [exact Hin|]. apply elem_of_cons in Hin as [->|Hin]; [vm_compute in Ht; done|].
    apply list_elem_of_singleton in Hin as ->. split; [done|]. rewrite E. vm_compute. done.
Defined.

(** A project with one config and a file beside it. *)
Definition config_json (text : list Char) : option Value :=
  match text with [] => Some (VObject [("compilerOptions", VObject [("paths", VObject [("@/*", VArray [VString "src/*"])])])]) | _ => None end.

Definition config_fs (others : list string -> bool) : ConfigFs :=
  let is_config path := is_absolute path && bool_decide (normal_components path = ["p"; "tsconfig.json"]) in
  mkConfigFs (fun path => is_config path || others (normal_components path)) (fun path => if is_config path then Some [] else None).

#[export] Instance config_fs_paths others : PathsByComponents (config_fs others).
Proof.
  intros p q [Ha%Bool.eqb_prop Hc%bool_decide_eq_true]%andb_true_iff. unfold config_fs. cbn. by rewrite Ha, Hc.
Qed.

Definition no_others (c : list string) : bool := false.
Definition one_other (c : list string) : bool := bool_decide (c = ["p"; "a.ts"]).

Lemma config_inputs_agree : Forall (same_config (config_fs no_others) (config_fs one_other)) (alias_config_inputs config_json (config_fs no_others) "/p").
Proof. assert (E : alias_config_inputs config_json (config_fs no_others) "/p" = ["/p/tsconfig.json"]) by (by vm_compute). rewrite E. by repeat constructor. Qed.

Lemma alias_inputs_determine_witness :
  Forall (same_config (config_fs no_others) (config_fs one_other)) (alias_config_inputs config_json (config_fs no_others) "/p")
  /\ (load_project_aliases config_json (config_fs one_other) "/p").2 = (load_project_aliases config_json (config_fs no_others) "/p").2.
Proof.
  split; [exact config_inputs_agree|].
  exact (proj1 (alias_inputs_determine config_json "/p" (config_fs no_others) (config_fs one_other) config_inputs_agree)).
Defined.

Definition demo_modules : list GoModule := [mkGoModule "example.com/m" ""; mkGoModule "example.com/m/sub" "sub"].

Lemma demo_modules_loaded : module_list demo_modules.
Proof.
  split; [by repeat constructor|]. apply NoDup_cons. split; [|apply NoDup_singleton]. by intros ?%list_elem_of_singleton.
Qed.

Lemma go_memo_transparent_witness :
  module_list demo_modules
  /\ go_import_package_dirs demo_modules ∅ [("example.com/m/sub/a", None); ("example.com/m/b", Some "main.go")]
     = [Some "sub/a"; Some "b"].
Proof.
  split; [exact demo_modules_loaded|].
  rewrite (go_memo_transparent demo_modules demo_modules_loaded [("example.com/m/sub/a", None); ("example.com/m/b", Some "main.go")]).
  vm_compute. reflexivity.
Defined.
