(* ===== verification/ResolvePass.v ===== *)
(** * Resolution passes (codegraph-resolve/src: resolver.rs, of
      snapshot_context.rs and context.rs the supertypes; of codegraph-store/src/
      queries.rs the batches of references and the marker of a pass)

    How the references an index holds become edges: the full pass, the same in
    batches over a snapshot or over the live store, and the two passes for what
    they put off. The strategies that choose a target (name_matcher.rs and the
    languages' files) are an interface, which the passes call through the
    context they give it: the lookups of the live store, or those of a snapshot,
    and the supertypes found so far. *)
From S2P Require Import Prelude Strings Types Rows Db DbRefs PathUtil StrOps LangDetect Utf8 Collation.

(** ** References and what they resolve to *)

Record RefView : Set := mkRefView {
  rv_row_id : option Z;
  rv_from_node_id : string;
  rv_reference_name : string;
  rv_reference_kind : EdgeKind;
  rv_line : Z;
  rv_column : Z;
  rv_file_path : string;
  rv_language : Language;
  rv_is_function_ref : bool;
  rv_reference_subkind : option ReferenceSubkind
}.

Inductive ResolvedBy : Set :=
| ByExactMatch | ByImport | ByQualifiedName | ByFramework | ByFuzzy | ByInstanceMethod | ByFilePath | ByFunctionRef.

Definition ResolvedBy_as_str (by_ : ResolvedBy) : string :=
  match by_ with
  | ByExactMatch => "exact-match" | ByImport => "import" | ByQualifiedName => "qualified-name"
  | ByFramework => "framework" | ByFuzzy => "fuzzy" | ByInstanceMethod => "instance-method"
  | ByFilePath => "file-path" | ByFunctionRef => "function-ref"
  end.

(** A resolved reference; the confidence is the number as JSON prints it. *)
Record ResolvedRef : Set := mkResolvedRef {
  res_original : RefView;
  res_target_node_id : string;
  res_confidence : string;
  res_resolved_by : ResolvedBy
}.

Inductive DeferredIntent : Set := ChainRef (reference : RefView) | ThisMemberRef (reference : RefView).

Record ResolutionStats : Set := mkStats {
  rs_total : nat;
  rs_resolved : nat;
  rs_unresolved : nat;
  rs_by_method : gmap string nat
}.

Record ResolutionResult : Set := mkResolution {
  rr_resolved : list ResolvedRef;
  rr_unresolved : list RefView;
  rr_stats : ResolutionStats
}.

Definition to_ref_view (reference : UnresolvedRef) : RefView :=
  mkRefView (ref_id reference) (ref_from_node_id reference) (ref_reference_name reference)
    (ref_reference_kind reference) (ref_line reference) (ref_col reference) (ref_file_path reference)
    (ref_language reference) (ref_is_function_ref reference) (ref_reference_subkind reference).

(** [build_edge_metadata]; the entries are in the order of their keys. *)
Definition build_edge_metadata (reference : ResolvedRef) : Value :=
  VObject ([("confidence", VNumber (res_confidence reference))]
    ++ (if rv_is_function_ref (res_original reference) then [("fnRef", VBool true)] else [])
    ++ [("resolvedBy", VString (ResolvedBy_as_str (res_resolved_by reference)))]
    ++ match rv_reference_subkind (res_original reference) with
       | Some subkind => [("subkind", VString (ReferenceSubkind_as_str subkind))]
       | None => []
       end).

(** ** Names with a meaning (cpp.rs, dart_members.rs, dart_scope.rs) *)

Definition CPP_CONSTRUCTOR_REFERENCE_PREFIX : string := "codegraph:cpp-constructor:".

(** [str::parse::<usize>] of ASCII digits, on a 64-bit target. *)
Fixpoint parse_digits (acc : N) (s : string) : option N :=
  match s with
  | EmptyString => Some acc
  | String c s =>
      let acc := (acc * 10 + (N_of_ascii c - 48))%N in
      if (acc <? 2 ^ 64)%N then parse_digits acc s else None
  end.

Definition parse_cpp_constructor_reference_name (name : string) : option (string * N) :=
  encoded ← str_strip_prefix CPP_CONSTRUCTOR_REFERENCE_PREFIX name;
  '(type_name, arity) ← rsplit_once "#" encoded;
  if String.eqb type_name "" || String.eqb arity "" || negb (all_bytes byte_is_digit arity) then None
  else arity ← parse_digits 0 arity; Some (type_name, arity).

Definition is_constructor_name (name : string) : bool :=
  match parse_cpp_constructor_reference_name name with Some _ => true | None => false end.

Definition is_dart_name_char (c : ascii) : bool := byte_is_alphanumeric c || Ascii.eqb c "_" || Ascii.eqb c "$".

Definition is_dart_identifier (name : string) : bool :=
  match name with
  | String first _ => (is_ascii_alphabetic first || Ascii.eqb first "_" || Ascii.eqb first "$") && all_bytes is_dart_name_char name
  | EmptyString => false
  end.

Definition member_read_parts (name : string) : option (string * string) :=
  '(receiver, member) ← split_once "." name;
  if is_dart_identifier receiver && is_dart_identifier member then Some (receiver, member) else None.

Definition is_dart_member_read (reference : RefView) : bool :=
  bool_decide (rv_language reference = LangDart) && bool_decide (rv_reference_kind reference = EkReferences)
  && negb (rv_is_function_ref reference)
  && match member_read_parts (rv_reference_name reference) with Some _ => true | None => false end.

(** ** The strategies, as the passes call them *)

(** The lookups of a context: its nodes by name, qualified name, lower-case
    name, file, kind and id, the names there are, and the indexed files. *)
Record NodeLookups : Type := mkLookups {
  get_nodes_by_name : string -> list Node;
  get_nodes_by_qualified_name : string -> list Node;
  get_nodes_by_lower_name : string -> list Node;
  get_nodes_in_file : string -> list Node;
  get_nodes_by_kind : NodeKind -> list Node;
  get_node_by_id : string -> option Node;
  all_known_names : list string;
  get_all_files : list string
}.

(** What a strategy sees: the lookups, and the supertypes of a type by name. *)
Record ResolutionContext : Type := mkContext {
  cx_lookups : NodeLookups;
  cx_supertypes : string -> Language -> list string
}.

Class Strategies := {
  resolve_one_pure : option (gset string) -> ResolutionContext -> RefView -> option ResolvedRef * option DeferredIntent;
  match_method_call : ResolutionContext -> RefView -> option ResolvedRef;
  match_scoped_call_chain : ResolutionContext -> RefView -> option ResolvedRef;
  match_dotted_call_chain : ResolutionContext -> RefView -> option ResolvedRef;
  is_php_property_receiver_shape : string -> bool;
  gate_language : ResolutionContext -> option ResolvedRef -> RefView -> option ResolvedRef;
  same_language_family : Language -> Language -> bool;
  this_scope_caller : ResolutionContext -> Node -> Node;
  extended_conformances : NodeLookups -> Node -> list string
}.

Definition WIRING_KINDS : list EdgeKind := [EkImports; EkExtends; EkImplements].

Definition is_wiring_kind (kind : EdgeKind) : bool := bool_decide (kind ∈ WIRING_KINDS).
Definition is_wiring_reference (reference : UnresolvedRef) : bool := is_wiring_kind (ref_reference_kind reference).

(** [wiring_first]. *)
Definition wiring_first (references : list UnresolvedRef) : list (list UnresolvedRef) :=
  [filter (fun r => is_wiring_reference r = true) references; filter (fun r => is_wiring_reference r = false) references].

Definition is_scoped_chain_language (language : Language) : bool := bool_decide (language = LangRust).

Definition SUPERTYPE_BEARING : list NodeKind :=
  [NkClass; NkStruct; NkUnion; NkInterface; NkTrait; NkProtocol; NkEnum].

Definition is_supertype_bearing_or_module (kind : NodeKind) : bool :=
  bool_decide (kind ∈ SUPERTYPE_BEARING ++ [NkModule]).

Definition is_scala_singleton (node : Node) : bool :=
  bool_decide (node_language node = LangScala) && bool_decide (node_kind node = NkModule).

(** A [BTreeSet] of strings, collected. *)
Definition in_key_order (s : gset string) : list string := sort_by str_le (elements s).

(** [order_candidates]: by file, line, column and id. *)
Definition candidate_cmp : Node -> Node -> comparison :=
  then_cmp (fun a b => String.compare (node_file_path a) (node_file_path b))
    (then_cmp (fun a b => Z.compare (node_start_line a) (node_start_line b))
       (then_cmp (fun a b => Z.compare (node_start_column a) (node_start_column b))
          (fun a b => String.compare (node_id a) (node_id b)))).

Definition candidate_le (a b : Node) : bool := match candidate_cmp a b with Gt => false | _ => true end.
Definition order_candidates (nodes : list Node) : list Node := sort_by candidate_le nodes.

Section Contexts.
Context `{SerdeJson} `{SqlScan} `{UnicodeTables} `{Strategies}.

(** [get_supertypes], over the lookups of a context and the targets of a node's
    [implements] and [extends] edges. *)
Definition supertypes_over (lookups : NodeLookups) (targets : Node -> list string) (type_name : string) (language : Language)
    : list string :=
  let type_nodes := filter (fun n => node_language n = language
                              /\ (node_kind n ∈ SUPERTYPE_BEARING \/ is_scala_singleton n = true)) (get_nodes_by_name lookups type_name) in
  in_key_order (list_to_set (type_nodes ≫= fun tn =>
    (if bool_decide (language = LangSwift) then filter (fun name => name <> type_name) (extended_conformances lookups tn) else [])
    ++ omap (fun id => target ← get_node_by_id lookups id;
                       if String.eqb (node_name target) "" || String.eqb (node_name target) type_name then None
                       else Some (node_name target)) (targets tn))).

(** [Store::nodes_by_lower_name]; the [lower] of SQLite folds ASCII letters. *)
Definition db_nodes_by_lower_name (db : Db) (name : string) : result SqlError (list Node) :=
  query_nodes "nodes_by_lower_name" (fun r => String.eqb (to_ascii_lowercase (nr_name r)) (to_ascii_lowercase name)) db.

(** [Store::all_node_names]. *)
Definition db_all_node_names (db : Db) : list string :=
  scan_order "all_node_names" (remove_dups (map nr_name (db_nodes db))).

(** The context over the live store. *)
Definition store_lookups (db : Db) : NodeLookups :=
  mkLookups (fun name => order_candidates (unwrap_or [] (db_nodes_by_name db name)))
    (fun name => order_candidates (unwrap_or [] (db_nodes_by_qualified_name db name)))
    (fun name => order_candidates (unwrap_or [] (db_nodes_by_lower_name db name)))
    (fun file_path => unwrap_or [] (db_nodes_by_file_path db file_path))
    (fun kind => unwrap_or [] (db_nodes_by_kind db kind))
    (fun id => unwrap_or None (db_node_by_id db id))
    (db_all_node_names db)
    (map file_path (unwrap_or [] (db_all_files db))).

Definition store_targets (db : Db) (tn : Node) : list string :=
  [EkImplements; EkExtends] ≫= fun kind => map edge_target (unwrap_or [] (db_edges_by_source_kind db (node_id tn) (Some kind))).

Definition store_context (db : Db) : ResolutionContext :=
  mkContext (store_lookups db) (supertypes_over (store_lookups db) (store_targets db)).

(** The nodes of one run, and beside them the inheritance edges so far. *)
Record NodeSnapshot : Set := mkSnapshot {
  by_name : gmap string (list Node);
  by_lower_name : gmap string (list Node);
  by_qualified_name : gmap string (list Node);
  by_kind : list (NodeKind * list Node);
  by_file_path : gmap string (list Node);
  by_id : gmap string Node;
  sn_known_node_names : list string;
  all_file_paths : list string
}.

#[local] Notation EdgeAdjacency := (gmap string (list (string * EdgeKind))).

(** [map.entry(key).or_default().push(node)] for every node, then every list in
    the order of candidates. *)
Definition push_under (key : Node -> string) (m : gmap string (list Node)) (node : Node) : gmap string (list Node) :=
  <[key node := default [] (m !! key node) ++ [node]]> m.
Definition candidates_under (key : Node -> string) (nodes : list Node) : gmap string (list Node) :=
  order_candidates <$> fold_left (push_under key) nodes ∅.

(** [SnapshotResolutionContext::from_store]. *)
Definition snapshot_from_store (db : Db) : result SqlError NodeSnapshot :=
  nodes ← db_all_nodes db;
  let by_id : gmap string Node := fold_left (fun m n => <[node_id n := n]> m) nodes ∅ in
  let shared (entries : list Node) := omap (fun n => by_id !! node_id n) entries in
  let file_paths := dedup (sort_by str_le (map (fun p => node_file_path p.2) (map_to_list by_id))) in
  Ok (mkSnapshot (candidates_under node_name nodes)
        (candidates_under (fun n => str_to_lowercase (node_name n)) nodes)
        (candidates_under node_qualified_name nodes)
        (map (fun kind => (kind, shared (unwrap_or [] (db_nodes_by_kind db kind)))) NodeKind_ALL)
        (fold_left (fun m fp => <[fp := shared (unwrap_or [] (db_nodes_by_file_path db fp))]> m) file_paths ∅)
        by_id
        (db_all_node_names db)
        (sort_by str_le (elements (list_to_set (map file_path (unwrap_or [] (db_all_files db))) : gset string)))).

Definition snapshot_lookups (snapshot : NodeSnapshot) : NodeLookups :=
  mkLookups (fun name => default [] (by_name snapshot !! name))
    (fun name => default [] (by_qualified_name snapshot !! name))
    (fun name => default [] (by_lower_name snapshot !! name))
    (fun file_path => default [] (by_file_path snapshot !! file_path))
    (fun kind => default [] (snd <$> (snd <$> list_find (fun p => p.1 = kind) (by_kind snapshot))))
    (fun id => by_id snapshot !! id)
    (sn_known_node_names snapshot)
    (all_file_paths snapshot).

Definition push_adjacent (adjacency : EdgeAdjacency) (edge : Edge) : EdgeAdjacency :=
  <[edge_source edge := default [] (adjacency !! edge_source edge) ++ [(edge_target edge, edge_kind edge)]]> adjacency.

Definition is_inheritance_kind (kind : EdgeKind) : bool := bool_decide (kind = EkImplements) || bool_decide (kind = EkExtends).

Definition build_edge_adjacency (db : Db) : result SqlError EdgeAdjacency :=
  implements ← db_edges_by_kind db EkImplements;
  extends ← db_edges_by_kind db EkExtends;
  Ok (fold_left push_adjacent (implements ++ extends) ∅).

(** The adjacency after a chunk whose edges were inserted. *)
Definition fold_adjacency (adjacency : EdgeAdjacency) (edges : list Edge) : EdgeAdjacency :=
  fold_left push_adjacent (filter (fun e => is_inheritance_kind (edge_kind e) = true) edges) adjacency.

Definition adjacent_targets (adjacency : EdgeAdjacency) (tn : Node) : list string :=
  map fst (filter (fun p => is_inheritance_kind p.2 = true) (default [] (adjacency !! node_id tn))).

Definition snapshot_context (snapshot : NodeSnapshot) (adjacency : EdgeAdjacency) : ResolutionContext :=
  mkContext (snapshot_lookups snapshot) (supertypes_over (snapshot_lookups snapshot) (adjacent_targets adjacency)).

(** ** Resolving a list of references *)

(** The state of a [ReferenceResolver] that a pass reads and changes. *)
Record Resolver : Type := mkResolver {
  rsv_known_names : option (gset string);
  rsv_deferred_chain_refs : list RefView;
  rsv_deferred_this_member_refs : list RefView
}.

Definition new_resolver : Resolver := mkResolver None [] [].

(** [warm_caches]: the names of all nodes; its other tables are memos. *)
Definition known_node_names (context : ResolutionContext) : gset string := list_to_set (all_known_names (cx_lookups context)).
Definition warm_caches (context : ResolutionContext) (self : Resolver) : Resolver :=
  mkResolver (Some (known_node_names context)) (rsv_deferred_chain_refs self) (rsv_deferred_this_member_refs self).

Definition push_deferred (deferred : option DeferredIntent) (self : Resolver) : Resolver :=
  match deferred with
  | Some (ChainRef reference) =>
      mkResolver (rsv_known_names self) (rsv_deferred_chain_refs self ++ [reference]) (rsv_deferred_this_member_refs self)
  | Some (ThisMemberRef reference) =>
      mkResolver (rsv_known_names self) (rsv_deferred_chain_refs self) (rsv_deferred_this_member_refs self ++ [reference])
  | None => self
  end.

Definition resolve_one (context : ResolutionContext) (self : Resolver) (reference : RefView) : Resolver * option ResolvedRef :=
  let '(resolved, deferred) := resolve_one_pure (rsv_known_names self) context reference in
  (push_deferred deferred self, resolved).

Definition count_method (by_ : ResolvedBy) (m : gmap string nat) : gmap string nat :=
  <[ResolvedBy_as_str by_ := S (default 0 (m !! ResolvedBy_as_str by_))]> m.

(** What the loops collect: the resolved, the unresolved, the counts. *)
Record Collected : Type := mkCollected {
  co_resolved : list ResolvedRef;
  co_unresolved : list RefView;
  co_by_method : gmap string nat
}.

Definition collect (reference : RefView) (resolved : option ResolvedRef) (co : Collected) : Collected :=
  match resolved with
  | Some result => mkCollected (co_resolved co ++ [result]) (co_unresolved co) (count_method (res_resolved_by result) (co_by_method co))
  | None =>
      if is_constructor_name (rv_reference_name reference) then co
      else mkCollected (co_resolved co) (co_unresolved co ++ [reference]) (co_by_method co)
  end.

Definition resolution_of (total : nat) (co : Collected) : ResolutionResult :=
  mkResolution (co_resolved co) (co_unresolved co)
    (mkStats total (length (co_resolved co)) (length (co_unresolved co)) (co_by_method co)).

Definition resolve_all (context : ResolutionContext) (self : Resolver) (unresolved_refs : list UnresolvedRef)
    : Resolver * ResolutionResult :=
  let self := match rsv_known_names self with Some _ => self | None => warm_caches context self end in
  let refs := map to_ref_view unresolved_refs in
  let '(self, co) := fold_left (fun '(self, co) reference =>
      let '(self, resolved) := resolve_one context self reference in (self, collect reference resolved co))
    refs (self, mkCollected [] [] ∅) in
  (self, resolution_of (length refs) co).

(** [resolve_chunk_parallel]: the map keeps the order of the references. *)
Definition resolve_chunk_parallel (context : ResolutionContext) (self : Resolver) (batch : list UnresolvedRef)
    : Resolver * ResolutionResult :=
  let refs := map to_ref_view batch in
  let results := map (resolve_one_pure (rsv_known_names self) context) refs in
  let '(self, co) := fold_left (fun '(self, co) (p : RefView * (option ResolvedRef * option DeferredIntent)) =>
      let '(reference, (maybe_resolved, deferred)) := p in
      (push_deferred deferred self, collect reference maybe_resolved co))
    (zip refs results) (self, mkCollected [] [] ∅) in
  (self, resolution_of (length refs) co).

(** ** The edges of resolved references *)

Definition node_at (db : Db) (id : string) : option Node := unwrap_or None (db_node_by_id db id).

Definition kind_of_target (db : Db) (id : string) (kinds : list NodeKind) : bool :=
  match node_at db id with Some node => bool_decide (node_kind node ∈ kinds) | None => false end.

(** The edge kind of a resolved reference, with its promotions. *)
Definition promoted_kind (db : Db) (reference : ResolvedRef) : EdgeKind :=
  let kind := if is_dart_member_read (res_original reference) then EkCalls else rv_reference_kind (res_original reference) in
  let kind :=
    if bool_decide (kind = EkExtends) && kind_of_target db (res_target_node_id reference) [NkInterface; NkProtocol]
    then match node_at db (rv_from_node_id (res_original reference)) with
         | Some source_node => if bool_decide (node_kind source_node ∈ [NkInterface; NkProtocol]) then kind else EkImplements
         | None => kind
         end
    else kind in
  if bool_decide (kind = EkCalls) && kind_of_target db (res_target_node_id reference) [NkClass; NkStruct; NkUnion]
  then EkInstantiates else kind.

Definition create_edge (db : Db) (reference : ResolvedRef) : Edge :=
  mkEdge None (rv_from_node_id (res_original reference)) (res_target_node_id reference) (promoted_kind db reference)
    (Some (build_edge_metadata reference)) (Some (rv_line (res_original reference)))
    (Some (rv_column (res_original reference))) None.

Definition create_edges (resolved : list ResolvedRef) (db : Db) : list Edge := map (create_edge db) resolved.

(** ** Passes *)

(** What a pass changes: the tables and the marker of an incomplete pass. *)
Record PassStore : Set := mkPassStore { ps_db : Db; ps_incomplete : bool }.

(** A computation on the store, with what the store held after each of its
    transactions, in order: where a process that dies leaves it. *)
Definition Pass (A : Type) : Type := PassStore -> list PassStore * result SqlError (A * PassStore).

#[export] Instance pass_ret : MRet Pass := fun A a s => ([], Ok (a, s)).
#[export] Instance pass_bind : MBind Pass :=
  fun A B f m s =>
    match m s with
    | (l, Ok (a, s')) => let '(l', r) := f a s' in (l ++ l', r)
    | (l, Err e) => (l, Err e)
    | (l, OutOfFuel) => (l, OutOfFuel)
    end.

Definition reading {A} (f : Db -> result SqlError A) : Pass A :=
  fun s => match f (ps_db s) with Ok a => ([], Ok (a, s)) | Err e => ([], Err e) | OutOfFuel => ([], OutOfFuel) end.

(** One transaction. *)
Definition committing (f : PassStore -> result SqlError PassStore) : Pass unit :=
  fun s => match f s with Ok s' => ([s'], Ok (tt, s')) | Err e => ([], Err e) | OutOfFuel => ([], OutOfFuel) end.

Definition out_of_fuel {A} : Pass A := fun _ => ([], OutOfFuel).

Definition set_resolution_incomplete : Pass unit := committing (fun s => Ok (mkPassStore (ps_db s) true)).
Definition clear_resolution_incomplete : Pass unit := committing (fun s => Ok (mkPassStore (ps_db s) false)).

(** [if !edges.is_empty() { store.insert_edges(&edges)?; }]. *)
Definition insert_some_edges (edges : list Edge) : Pass unit :=
  match edges with
  | [] => mret tt
  | _ => committing (fun s => db ← insert_edges (ps_db s) edges; Ok (mkPassStore db (ps_incomplete s)))
  end.

(** [delete_resolved_unresolved_refs], one transaction when there is a row. *)
Definition delete_rows (row_ids : list Z) : Pass unit :=
  match row_ids with
  | [] => mret tt
  | _ => committing (fun s => Ok (mkPassStore (delete_resolved_unresolved_refs (ps_db s) row_ids) (ps_incomplete s)))
  end.

Definition resolved_row_ids (resolved : list ResolvedRef) : list Z := omap (fun r => rv_row_id (res_original r)) resolved.

Definition constructor_row_ids (references : list UnresolvedRef) : list Z :=
  omap (fun r => if is_constructor_name (ref_reference_name r) then ref_id r else None) references.

(** [delete_internal_constructor_rows]: the ids sorted, each once. *)
Definition delete_internal_constructor_rows (references : list UnresolvedRef) : Pass unit :=
  delete_rows (dedup (sort_by Z.leb (constructor_row_ids references))).

(** *** What was put off *)

Definition take_chain_refs (self : Resolver) : Resolver * list RefView :=
  (mkResolver (rsv_known_names self) [] (rsv_deferred_this_member_refs self), rsv_deferred_chain_refs self).
Definition take_this_member_refs (self : Resolver) : Resolver * list RefView :=
  (mkResolver (rsv_known_names self) (rsv_deferred_chain_refs self) [], rsv_deferred_this_member_refs self).

Definition chain_match (context : ResolutionContext) (reference : RefView) : option ResolvedRef :=
  gate_language context
    (if bool_decide (rv_language reference = LangPhp) && is_php_property_receiver_shape (rv_reference_name reference)
     then match_method_call context reference
     else if is_scoped_chain_language (rv_language reference) then match_scoped_call_chain context reference
     else match_dotted_call_chain context reference) reference.

(** The edges of a list, inserted; how many there were. *)
Definition insert_resolved (resolved : list ResolvedRef) : Pass nat :=
  match resolved with
  | [] => mret 0
  | _ =>
      edges ← reading (fun db => Ok (create_edges resolved db));
      _ ← insert_some_edges edges;
      mret (length (edges : list Edge))
  end.

Definition resolve_chained_calls_via_conformance (self : Resolver) : Pass (Resolver * nat) :=
  let '(self, deferred) := take_chain_refs self in
  resolved ← reading (fun db => Ok (omap (chain_match (store_context db)) deferred));
  count ← insert_resolved resolved;
  mret (self, count).

(** The search for an inherited member: one supertype's edges, its frontier,
    its rounds. *)
Fixpoint inherited_edges (db : Db) (member : string) (reference : RefView) (edges : list Edge)
    (seen : gset string) (next : list Node) : string + (gset string * list Node) :=
  match edges with
  | [] => inr (seen, next)
  | edge :: edges =>
      match node_at db (edge_target edge) with
      | None => inherited_edges db member reference edges seen next
      | Some super_node =>
          if bool_decide (node_id super_node ∈ seen) then inherited_edges db member reference edges seen next else
          let seen := {[node_id super_node]} ∪ seen in
          if negb (is_supertype_bearing_or_module (node_kind super_node))
          then inherited_edges db member reference edges seen next
          else
            let contains := unwrap_or [] (db_edges_by_source_kind db (node_id super_node) (Some EkContains)) in
            match omap (fun c => m ← node_at db (edge_target c);
                                 if String.eqb (node_name m) member && bool_decide (node_kind m ∈ [NkFunction; NkMethod])
                                    && same_language_family (node_language m) (rv_language reference)
                                 then Some (node_id m) else None) contains with
            | id :: _ => inl id
            | [] => inherited_edges db member reference edges seen (next ++ [super_node])
            end
      end
  end.

Fixpoint inherited_frontier (db : Db) (member : string) (reference : RefView) (frontier : list Node)
    (seen : gset string) (next : list Node) : string + (gset string * list Node) :=
  match frontier with
  | [] => inr (seen, next)
  | type_node :: frontier =>
      let edges := [EkImplements; EkExtends] ≫= fun kind =>
        unwrap_or [] (db_edges_by_source_kind db (node_id type_node) (Some kind)) in
      match inherited_edges db member reference edges seen next with
      | inl id => inl id
      | inr (seen, next) => inherited_frontier db member reference frontier seen next
      end
  end.

Fixpoint inherited_rounds (db : Db) (member : string) (reference : RefView) (rounds : nat) (frontier : list Node)
    (seen : gset string) : option string :=
  match rounds, frontier with
  | 0, _ | _, [] => None
  | S rounds, _ =>
      match inherited_frontier db member reference frontier seen [] with
      | inl id => Some id
      | inr (seen, next) => inherited_rounds db member reference rounds next seen
      end
  end.

Definition find_inherited_member (db : Db) (class_name member : string) (reference : RefView) : option string :=
  let by_name := unwrap_or [] (db_nodes_by_name db class_name) in
  let frontier := filter (fun n => is_supertype_bearing_or_module (node_kind n) = true
                                   /\ node_file_path n = rv_file_path reference) by_name in
  let frontier := match frontier with
                  | [] => filter (fun n => is_supertype_bearing_or_module (node_kind n) = true
                                    /\ same_language_family (node_language n) (rv_language reference) = true) by_name
                  | _ => frontier
                  end in
  inherited_rounds db member reference 5 frontier (list_to_set (map node_id frontier)).

(** [rfind("::")], and what it splits. *)
Fixpoint rsplit_colons (s : string) : option (string * string) :=
  match s with
  | String a s' =>
      match rsplit_colons s' with
      | Some (before, after) => Some (String a before, after)
      | None => after ← str_strip_prefix "::" s; Some ("", after)
      end
  | EmptyString => None
  end.

(** The class whose supertypes may declare a member of [this]. *)
Definition class_of_caller (from_node : Node) : option string :=
  if is_supertype_bearing_or_module (node_kind from_node) then Some (node_name from_node) else
  '(class_prefix, _) ← rsplit_colons (node_qualified_name from_node);
  if String.eqb class_prefix "" then None
  else Some (match rsplit_colons class_prefix with Some (_, last) => last | None => class_prefix end).

Definition this_member_match (db : Db) (reference : RefView) : option ResolvedRef :=
  member ← str_strip_prefix "this." (rv_reference_name reference);
  if String.eqb member "" then None else
  written ← node_at db (rv_from_node_id reference);
  class_name ← class_of_caller (this_scope_caller (store_context db) written);
  target ← find_inherited_member db class_name member reference;
  Some (mkResolvedRef reference target "0.85" ByFunctionRef).

Definition resolve_deferred_this_member_refs (self : Resolver) : Pass (Resolver * nat) :=
  let '(self, deferred) := take_this_member_refs self in
  resolved ← reading (fun db => Ok (omap (this_member_match db) deferred));
  count ← insert_resolved resolved;
  mret (self, count).

(** *** The pass over a list of references *)

Definition empty_resolution : ResolutionResult := mkResolution [] [] (mkStats 0 0 0 ∅).

Definition merge_stats (into from : ResolutionStats) : ResolutionStats :=
  mkStats (rs_total into + rs_total from) (rs_resolved into + rs_resolved from) (rs_unresolved into + rs_unresolved from)
    (union_with (fun a b => Some (a + b)) (rs_by_method into) (rs_by_method from)).

Definition merge_resolution (into from : ResolutionResult) : ResolutionResult :=
  mkResolution (rr_resolved into ++ rr_resolved from) (rr_unresolved into ++ rr_unresolved from)
    (merge_stats (rr_stats into) (rr_stats from)).

(** One phase of a pass that reads all its references at once. *)
Definition resolve_phase (self : Resolver) (phase : list UnresolvedRef) : Pass (Resolver * ResolutionResult) :=
  match phase with
  | [] => mret (self, empty_resolution)
  | _ =>
      out ← reading (fun db => Ok (resolve_all (store_context db) self phase));
      let '(self, phase_result) := (out : Resolver * ResolutionResult) in
      edges ← reading (fun db => Ok (create_edges (rr_resolved phase_result) db));
      _ ← insert_some_edges edges;
      _ ← delete_rows (resolved_row_ids (rr_resolved phase_result));
      mret (self, phase_result)
  end.

Fixpoint resolve_phases (self : Resolver) (result : ResolutionResult) (phases : list (list UnresolvedRef))
    : Pass (Resolver * ResolutionResult) :=
  match phases with
  | [] => mret (self, result)
  | phase :: phases =>
      out ← resolve_phase self phase;
      resolve_phases (out : Resolver * ResolutionResult).1 (merge_resolution result out.2) phases
  end.

(** What was put off, once the edges of the phases are in. *)
Definition deferred_passes (self : Resolver) : Pass Resolver :=
  chained ← resolve_chained_calls_via_conformance self;
  members ← resolve_deferred_this_member_refs (chained : Resolver * nat).1;
  mret (members : Resolver * nat).1.

Definition resolve_and_persist (self : Resolver) : Pass (Resolver * ResolutionResult) :=
  unresolved_refs ← reading db_all_unresolved_refs;
  out ← resolve_phases self empty_resolution (wiring_first unresolved_refs);
  _ ← delete_internal_constructor_rows unresolved_refs;
  self ← deferred_passes (out : Resolver * ResolutionResult).1;
  mret (self, out.2).

(** *** The pass in batches *)

(** [Store::unresolved_refs_batch_by_kinds]. *)
Definition unresolved_refs_batch_by_kinds (db : Db) (after_id : Z) (limit : nat) (kinds : list EdgeKind) (within : bool)
    : result SqlError (list UnresolvedRef) :=
  map_M row_to_unresolved_ref
    (take limit
       (sort_by (fun a b => Z.leb (rr_id a) (rr_id b))
          (scan_order "unresolved_refs_batch_by_kinds"
             (filter (fun r => (after_id < rr_id r)%Z
                               /\ bool_decide (rr_reference_kind r ∈ map EdgeKind_as_str kinds) = within)
                (db_unresolved_refs db))))).

Inductive ResolutionObservation : Set :=
| Setup (node_count : nat) (reference_count : Z) (streaming : bool) (batch_size : nat)
| BatchComplete (batch : nat) (processed : nat) (total : Z).

(** What the loop carries. *)
Record BatchState : Type := mkBatch {
  bt_resolver : Resolver;
  bt_snapshot : option NodeSnapshot;
  bt_adjacency : EdgeAdjacency;
  bt_cursor : Z;
  bt_wiring_phase : bool;
  bt_stats : ResolutionStats;
  bt_batches : nat;
  bt_processed : nat;
  bt_observed : list ResolutionObservation
}.

(** Resolving one batch: over the live store, or over the snapshot of the run
    with the adjacency so far. *)
Definition resolve_batch (streaming : bool) (st : BatchState) (batch : list UnresolvedRef)
    : Pass (Resolver * ResolutionResult * option NodeSnapshot * EdgeAdjacency) :=
  if streaming then
    out ← reading (fun db => Ok (resolve_all (store_context db) (bt_resolver st) batch));
    mret (out : Resolver * ResolutionResult, bt_snapshot st, bt_adjacency st)
  else
    base ← match bt_snapshot st with
           | Some snapshot => mret (snapshot, bt_adjacency st)
           | None =>
               adjacency ← reading build_edge_adjacency;
               snapshot ← reading snapshot_from_store;
               mret (snapshot, adjacency)
           end;
    let '(snapshot, adjacency) := (base : NodeSnapshot * EdgeAdjacency) in
    mret (resolve_chunk_parallel (snapshot_context snapshot adjacency) (bt_resolver st) batch, Some snapshot, adjacency).

(** One batch that is not empty: resolved, inserted, deleted, reported. *)
Definition run_batch (streaming : bool) (total_refs : Z) (st : BatchState) (batch : list UnresolvedRef) : Pass BatchState :=
  let cursor := default (bt_cursor st) (last (sort_by Z.leb (omap ref_id batch))) in
  out ← resolve_batch streaming st batch;
  let '(self, result, snapshot, adjacency) := (out : Resolver * ResolutionResult * option NodeSnapshot * EdgeAdjacency) in
  edges ← reading (fun db => Ok (create_edges (rr_resolved result) db));
  _ ← insert_some_edges edges;
  let adjacency := if streaming then adjacency else fold_adjacency adjacency edges in
  _ ← delete_rows (resolved_row_ids (rr_resolved result) ++ constructor_row_ids batch);
  let batches := S (bt_batches st) in
  let processed := bt_processed st + length batch in
  mret (mkBatch self snapshot adjacency cursor (bt_wiring_phase st) (merge_stats (bt_stats st) (rr_stats result))
          batches processed (bt_observed st ++ [BatchComplete batches processed total_refs])).

Fixpoint batch_loop (fuel : nat) (streaming : bool) (batch_size : nat) (total_refs : Z) (st : BatchState) : Pass BatchState :=
  match fuel with
  | 0 => out_of_fuel
  | S fuel =>
      batch ← reading (fun db => unresolved_refs_batch_by_kinds db (bt_cursor st) batch_size WIRING_KINDS (bt_wiring_phase st));
      match (batch : list UnresolvedRef) with
      | [] =>
          if bt_wiring_phase st then
            batch_loop fuel streaming batch_size total_refs
              (mkBatch (bt_resolver st) (bt_snapshot st) (bt_adjacency st) 0 false (bt_stats st) (bt_batches st)
                 (bt_processed st) (bt_observed st))
          else mret st
      | _ => st ← run_batch streaming total_refs st batch; batch_loop fuel streaming batch_size total_refs st
      end
  end.

(** A round for every reference, and two that find no more. *)
Definition batch_fuel (db : Db) : nat := length (db_unresolved_refs db) + 3.

Definition resolve_and_persist_batched_inner (self : Resolver) (batch_size streaming_threshold : nat)
    : Pass (Resolver * ResolutionResult * list ResolutionObservation) :=
  _ ← set_resolution_incomplete;
  self ← reading (fun db => Ok (warm_caches (store_context db) self));
  total_refs ← reading (fun db => Ok (db_unresolved_refs_count db));
  node_count ← reading (fun db => Ok (length (db_nodes db)));
  let streaming := streaming_threshold <=? (node_count : nat) in
  fuel ← reading (fun db => Ok (batch_fuel db));
  st ← batch_loop fuel streaming batch_size total_refs
         (mkBatch self None ∅ 0 true (rr_stats empty_resolution) 0 0 [Setup node_count total_refs streaming batch_size]);
  self ← deferred_passes (bt_resolver (st : BatchState));
  _ ← clear_resolution_incomplete;
  mret (self, mkResolution [] [] (bt_stats st), bt_observed st).

End Contexts.

(** ** What the passes ask of the strategies *)

(** Lookups that answer alike; of the lower-case names, as they are asked for:
    without upper-case ASCII letters. *)
Record lookups_eq (k k' : NodeLookups) : Prop := {
  le_name name : get_nodes_by_name k name = get_nodes_by_name k' name;
  le_qualified name : get_nodes_by_qualified_name k name = get_nodes_by_qualified_name k' name;
  le_lower name : to_ascii_lowercase name = name -> get_nodes_by_lower_name k name = get_nodes_by_lower_name k' name;
  le_file path : get_nodes_in_file k path = get_nodes_in_file k' path;
  le_kind kind : get_nodes_by_kind k kind = get_nodes_by_kind k' kind;
  le_id id : get_node_by_id k id = get_node_by_id k' id;
  le_names : all_known_names k = all_known_names k';
  le_files : get_all_files k = get_all_files k'
}.

#[export] Instance lookups_eq_equivalence : Equivalence lookups_eq.
Proof.
  split.
  - by split.
  - intros k k' H. split; intros; symmetry; by apply H.
  - intros k k' k'' H1 H2. split; intros; (etrans; [by apply H1|by apply H2]).
Qed.

(** Contexts that answer alike. *)
Definition context_eq (c c' : ResolutionContext) : Prop :=
  lookups_eq (cx_lookups c) (cx_lookups c')
  /\ forall type_name language, cx_supertypes c type_name language = cx_supertypes c' type_name language.

#[export] Instance context_eq_equivalence : Equivalence context_eq.
Proof.
  split.
  - intros c. done.
  - intros c c' [H1 H2]. done.
  - intros c c' c'' [H1 H2] [H3 H4]. split; [by etrans|]. intros t l. by rewrite H2.
Qed.

(** A strategy knows a context by its answers, and asks for a name in lower case
    in lower case ([match_fuzzy], [component_files]). *)
Class StrategiesProper `{Strategies} := {
  resolve_one_pure_proper :: Proper (eq ==> context_eq ==> eq ==> eq) resolve_one_pure;
  match_method_call_proper :: Proper (context_eq ==> eq ==> eq) match_method_call;
  match_scoped_call_chain_proper :: Proper (context_eq ==> eq ==> eq) match_scoped_call_chain;
  match_dotted_call_chain_proper :: Proper (context_eq ==> eq ==> eq) match_dotted_call_chain;
  gate_language_proper :: Proper (context_eq ==> eq ==> eq ==> eq) gate_language;
  this_scope_caller_proper :: Proper (context_eq ==> eq ==> eq) this_scope_caller;
  extended_conformances_proper :: Proper (lookups_eq ==> eq ==> eq) extended_conformances
}.

(** What a strategy leaves of a reference it resolves, or puts off. *)
Definition same_site (r r' : RefView) : Prop :=
  rv_row_id r' = rv_row_id r /\ rv_reference_kind r' = rv_reference_kind r
  /\ rv_is_function_ref r' = rv_is_function_ref r.

(** What is resolved is the reference that was asked for; what is put off is
    not resolved, a call or the value of a function, and not a constructor's. *)
Class StrategiesLaws `{Strategies} := {
  resolved_same known c r res d : resolve_one_pure known c r = (Some res, d) -> same_site r (res_original res);
  deferred_unresolved known c r o d : resolve_one_pure known c r = (o, Some d) ->
    o = None /\ is_constructor_name (rv_reference_name r) = false
    /\ match d with
       | ChainRef r' => rv_reference_kind r' = EkCalls
       | ThisMemberRef r' => same_site r r' /\ rv_is_function_ref r' = true
       end;
  chain_same c r res : chain_match c r = Some res -> rv_reference_kind (res_original res) = rv_reference_kind r
}.
