(* ===== verification/ResolveRuns.v ===== *)
(** * Facts on the steps of a resolution pass

    Runs of a pass; the serial and the parallel loop; the insertion of edges as
    a fold, with what it absorbs; where a pass stands ([stands]); the
    references of a phase; the contexts of the two paths. *)
From S2P Require Import Prelude Strings Types Rows Db DbRefs DbFacts GraphStore StoreView StoreProps PathUtil StrOps LangDetect Collation ResolvePass.

(** ** Runs of a pass *)

(** A pass that returns, with the states it commits and the one it ends in. *)
Definition runs {A} (m : Pass A) (s : PassStore) (l : list PassStore) (a : A) (s' : PassStore) : Prop :=
  m s = (l, Ok (a, s')).

Lemma runs_ret {A} (a : A) s : runs (mret a) s [] a s.
Proof. done. Qed.

Lemma runs_bind {A B} (m : Pass A) (f : A -> Pass B) s l a s' l' b s'' :
  runs m s l a s' -> runs (f a) s' l' b s'' -> runs (m ≫= f) s (l ++ l') b s''.
Proof. unfold runs, mbind, pass_bind. intros -> ->. done. Qed.

Lemma runs_reading {A} (f : Db -> result SqlError A) s a : f (ps_db s) = Ok a -> runs (reading f) s [] a s.
Proof. unfold runs, reading. by intros ->. Qed.

(** Reading first costs no commit. *)
Lemma runs_read {A B} (f : Db -> result SqlError A) (g : A -> Pass B) s a l b s' :
  f (ps_db s) = Ok a -> runs (g a) s l b s' -> runs (reading f ≫= g) s l b s'.
Proof. intros Hf Hg. change l with ([] ++ l). by eapply runs_bind; [apply runs_reading|]. Qed.

(** ** Resolving, serially and in parallel *)

Section Resolving.
Context `{Strategies}.

Definition push_all (deferred : list DeferredIntent) (self : Resolver) : Resolver :=
  fold_left (fun self d => push_deferred (Some d) self) deferred self.

Lemma push_all_known deferred self : rsv_known_names (push_all deferred self) = rsv_known_names self.
Proof. revert self. induction deferred as [|[r|r] l IH]; intros self; [done|..]; cbn; by rewrite IH. Qed.

Definition outcome (known : option (gset string)) (context : ResolutionContext) (u : UnresolvedRef) :
    option ResolvedRef * option DeferredIntent := resolve_one_pure known context (to_ref_view u).

Definition resolved_of known context (batch : list UnresolvedRef) : list ResolvedRef :=
  omap (fun u => (outcome known context u).1) batch.
Definition deferred_of known context (batch : list UnresolvedRef) : list DeferredIntent :=
  omap (fun u => (outcome known context u).2) batch.
Definition unresolved_of known context (batch : list UnresolvedRef) : list RefView :=
  omap (fun u => match (outcome known context u).1 with
                 | Some _ => None
                 | None => if is_constructor_name (ref_reference_name u) then None else Some (to_ref_view u)
                 end) batch.

Definition resolution known context (batch : list UnresolvedRef) : ResolutionResult :=
  resolution_of (length batch)
    (mkCollected (resolved_of known context batch) (unresolved_of known context batch)
       (fold_left (fun m res => count_method (res_resolved_by res) m) (resolved_of known context batch) ∅)).

Lemma push_deferred_list d self : push_deferred d self = push_all (option_list d) self.
Proof. by destruct d. Qed.

Lemma collect_eq u o co :
  collect (to_ref_view u) o co
  = mkCollected (co_resolved co ++ option_list o)
      (co_unresolved co ++ option_list (match o with
         | Some _ => None
         | None => if is_constructor_name (ref_reference_name u) then None else Some (to_ref_view u)
         end))
      (fold_left (fun m res => count_method (res_resolved_by res) m) (option_list o) (co_by_method co)).
Proof.
  destruct co as [l l' m]. unfold collect. change (rv_reference_name (to_ref_view u)) with (ref_reference_name u).
  destruct o as [res|]; cbn; rewrite ?app_nil_r; [done|].
  by destruct (is_constructor_name _); cbn; rewrite ?app_nil_r.
Qed.

Lemma resolve_fold known context batch : forall self co, rsv_known_names self = known ->
  fold_left (fun '(self, co) reference =>
      let '(self, resolved) := resolve_one context self reference in (self, collect reference resolved co))
    (map to_ref_view batch) (self, co)
  = (push_all (deferred_of known context batch) self,
     mkCollected (co_resolved co ++ resolved_of known context batch) (co_unresolved co ++ unresolved_of known context batch)
       (fold_left (fun m res => count_method (res_resolved_by res) m) (resolved_of known context batch) (co_by_method co))).
Proof.
  induction batch as [|u batch IH]; intros self co Hk.
  { cbn. rewrite !app_nil_r. by destruct co. }
  unfold deferred_of, resolved_of, unresolved_of. rewrite !omap_cons.
  cbn [map fold_left]. unfold resolve_one at 2. rewrite Hk. unfold outcome at 1 3 5 7.
  destruct (resolve_one_pure known context (to_ref_view u)) as [o d] eqn:E. cbn [fst snd].
  rewrite IH, collect_eq, push_deferred_list by (rewrite push_deferred_list, push_all_known; exact Hk).
  cbn [co_resolved co_unresolved co_by_method]. rewrite <- !(assoc_L (++)), !fold_left_app.
  unfold push_all. by rewrite fold_left_app.
Qed.

Lemma resolve_all_eq context self batch known : rsv_known_names self = Some known ->
  resolve_all context self batch
  = (push_all (deferred_of (Some known) context batch) self, resolution (Some known) context batch).
Proof.
  intros Hk. unfold resolve_all. rewrite Hk, (resolve_fold (Some known)) by done.
  by rewrite length_map.
Qed.

(** The parallel map, reassembled in order, does what the serial loop does. *)
Lemma chunk_fold known context batch : forall self co, rsv_known_names self = known ->
  fold_left (fun '(self, co) (p : RefView * (option ResolvedRef * option DeferredIntent)) =>
      let '(reference, (maybe_resolved, deferred)) := p in
      (push_deferred deferred self, collect reference maybe_resolved co))
    (zip batch (map (resolve_one_pure known context) batch)) (self, co)
  = fold_left (fun '(self, co) reference =>
      let '(self, resolved) := resolve_one context self reference in (self, collect reference resolved co))
    batch (self, co).
Proof.
  induction batch as [|r batch IH]; intros self co Hk; [done|].
  cbn [map zip zip_with fold_left]. unfold resolve_one at 2. rewrite Hk.
  destruct (resolve_one_pure known context r) as [o d] eqn:E.
  apply IH. by rewrite push_deferred_list, push_all_known.
Qed.

Lemma resolve_chunk_parallel_eq context self batch : is_Some (rsv_known_names self) ->
  resolve_chunk_parallel context self batch = resolve_all context self batch.
Proof.
  intros [known Hk]. unfold resolve_chunk_parallel, resolve_all. rewrite Hk.
  by rewrite (chunk_fold (Some known)).
Qed.

Lemma resolve_all_proper `{!StrategiesProper} c c' self batch :
  context_eq c c' -> resolve_all c self batch = resolve_all c' self batch.
Proof.
  intros Hc. unfold resolve_all, warm_caches, known_node_names. rewrite (le_names _ _ (proj1 Hc)). cbv zeta.
  erewrite (fold_left_ext _ (fun '(self, co) reference =>
      let '(self, resolved) := resolve_one c' self reference in (self, collect reference resolved co))); [done|].
  intros [rsv co] r. unfold resolve_one. by rewrite (resolve_one_pure_proper _ _ eq_refl _ _ Hc _ _ eq_refl).
Qed.

End Resolving.

(** ** Inserting edges, as a fold *)

Section EdgeAlgebra.
Context `{SqlScanLaws} `{!SerdeJson} `{!SerdeJsonLaws}.

(** An edge that is there, or has an end that is not. *)
Definition addressed (db : Db) (e : Edge) : Prop :=
  identity_of e ∈ map edge_identity (db_edges db) \/ edge_source e ∉ node_ids db \/ edge_target e ∉ node_ids db.

#[export] Instance addressed_dec db e : Decision (addressed db e).
Proof. unfold addressed. apply _. Defined.

Definition add_edge (db : Db) (e : Edge) : Db :=
  if decide (addressed db e) then db else
  mkDb (db_nodes db) (db_edges db ++ [edge_to_row (db_next_edge_id db) e]) (db_files db)
    (db_unresolved_refs db) (db_resolved_refs db) (db_next_edge_id db + 1) (db_next_ref_id db).

Definition edges_in (db : Db) (edges : list Edge) : Db := fold_left add_edge edges db.

Lemma edges_in_app db es es' : edges_in db (es ++ es') = edges_in (edges_in db es) es'.
Proof. apply fold_left_app. Qed.

Lemma add_edge_tables db e :
  db_nodes (add_edge db e) = db_nodes db /\ db_files (add_edge db e) = db_files db
  /\ db_unresolved_refs (add_edge db e) = db_unresolved_refs db /\ db_resolved_refs (add_edge db e) = db_resolved_refs db
  /\ db_next_ref_id (add_edge db e) = db_next_ref_id db.
Proof. unfold add_edge. by case_decide. Qed.

Lemma edges_in_tables es : forall db,
  db_nodes (edges_in db es) = db_nodes db /\ db_files (edges_in db es) = db_files db
  /\ db_unresolved_refs (edges_in db es) = db_unresolved_refs db /\ db_resolved_refs (edges_in db es) = db_resolved_refs db
  /\ db_next_ref_id (edges_in db es) = db_next_ref_id db.
Proof.
  induction es as [|e es IH]; intros db; [done|]. cbn. fold (edges_in (add_edge db e) es).
  destruct (IH (add_edge db e)) as (-> & -> & -> & -> & ->). apply add_edge_tables.
Qed.

Lemma edges_in_nodes db es : db_nodes (edges_in db es) = db_nodes db.
Proof. apply edges_in_tables. Qed.

Lemma edges_in_node_ids db es : node_ids (edges_in db es) = node_ids db.
Proof. unfold node_ids. by rewrite edges_in_nodes. Qed.

Lemma add_edge_skip db e : addressed db e -> add_edge db e = db.
Proof. intros Ha. unfold add_edge. by rewrite decide_True. Qed.

Lemma insert_edge_row_add db e :
  edge_source e ∈ node_ids db -> edge_target e ∈ node_ids db -> insert_edge_row db e = Ok (add_edge db e).
Proof.
  intros Hs Ht. unfold insert_edge_row, add_edge. rewrite identity_edge_to_row.
  destruct (decide (identity_of e ∈ _)) as [Hin|Hin].
  - by rewrite decide_True by (by left).
  - rewrite decide_True by done. rewrite decide_False; [done|]. unfold addressed. tauto.
Qed.

(** [insert_edges] never fails, and is that fold. *)
Lemma insert_edges_fold db edges : insert_edges db edges = Ok (edges_in db edges).
Proof.
  unfold insert_edges. destruct edges as [|e0 edges']; [done|].
  set (edges := e0 :: edges') in *. clearbody edges. clear e0 edges'.
  assert (Hr : returns (for_M (fun db' edge =>
      if decide (edge_source edge ∉ existing_node_ids db (flat_map (fun e => [edge_source e; edge_target e]) edges)
                 \/ edge_target edge ∉ existing_node_ids db (flat_map (fun e => [edge_source e; edge_target e]) edges))
      then Ok (Continue db') else db'' ← insert_edge_row db' edge; Ok (Continue db'')) db edges)
    (fun db' => db' = edges_in db edges)).
  { apply (returns_for_M _ (fun pre db' => db' = edges_in db pre)); [done| |done].
    intros pre e post db' -> ->.
    assert (Hex : forall x, x = edge_source e \/ x = edge_target e ->
              x ∈ existing_node_ids db (flat_map (fun e => [edge_source e; edge_target e]) (pre ++ e :: post)) <-> x ∈ node_ids db).
    { intros x Hx. rewrite elem_of_existing_node_ids. split; [tauto|]. split; [|done].
      apply list_elem_of_In, in_flat_map. exists e. rewrite <- !list_elem_of_In. set_solver. }
    rewrite edges_in_app. cbn. fold (edges_in db pre). set (d := edges_in db pre).
    assert (En : node_ids d = node_ids db) by apply edges_in_node_ids.
    case_decide as Hmiss; rewrite !Hex, <- En in Hmiss by auto.
    - cbn. rewrite add_edge_skip; [done|]. unfold addressed. tauto.
    - assert (edge_source e ∈ node_ids d /\ edge_target e ∈ node_ids d) as [Hs Ht]
        by (destruct (decide (edge_source e ∈ node_ids d)), (decide (edge_target e ∈ node_ids d)); tauto).
      by rewrite insert_edge_row_add. }
  destruct (for_M _ db edges); cbn in Hr; [by subst|done..].
Qed.

Lemma insert_edges_ok db edges : wf_db db ->
  insert_edges db edges = Ok (edges_in db edges) /\ wf_db (edges_in db edges) /\ edges_inserted db edges (edges_in db edges).
Proof.
  intros Hwf. pose proof (insert_edges_spec db edges Hwf) as Hr. rewrite insert_edges_fold in *. done.
Qed.

Lemma edges_in_wf db es : wf_db db -> wf_db (edges_in db es).
Proof. intros Hwf. by destruct (insert_edges_ok db es Hwf) as (_ & ? & _). Qed.

Lemma addressed_mono db es e : addressed db e -> addressed (edges_in db es) e.
Proof.
  revert db. induction es as [|e' es IH]; intros db Ha; [done|]. cbn. apply IH.
  unfold add_edge. case_decide; [done|]. unfold addressed, node_ids in *. cbn. rewrite map_app, elem_of_app. tauto.
Qed.

Lemma add_edge_addressed db e : addressed (add_edge db e) e.
Proof.
  unfold add_edge. case_decide as Ha; [done|]. left. cbn. rewrite map_app, elem_of_app. right. cbn.
  rewrite identity_edge_to_row. set_solver.
Qed.

Lemma edges_in_addressed es : forall db e, e ∈ es -> addressed (edges_in db es) e.
Proof.
  induction es as [|e' es IH]; intros db e He; [set_solver|]. apply elem_of_cons in He as [<-|He]; cbn; [|by apply IH].
  apply addressed_mono, add_edge_addressed.
Qed.

(** A list with some of its elements, all of which satisfy [P], left out. *)
Inductive thin {A} (P : A -> Prop) : list A -> list A -> Prop :=
| thin_nil : thin P [] []
| thin_keep x l l' : thin P l l' -> thin P (x :: l) (x :: l')
| thin_skip x l l' : P x -> thin P l l' -> thin P l (x :: l').

Lemma thin_refl {A} (P : A -> Prop) l : thin P l l.
Proof. induction l; by constructor. Qed.

Lemma thin_none {A} (P : A -> Prop) l : Forall P l -> thin P [] l.
Proof. induction 1; by constructor. Qed.

Lemma thin_app {A} (P : A -> Prop) l1 l1' l2 l2' : thin P l1 l1' -> thin P l2 l2' -> thin P (l1 ++ l2) (l1' ++ l2').
Proof. intros Ht H2'. induction Ht; cbn; [done|by constructor..]. Qed.

Lemma thin_omap {A B} (P : B -> Prop) (f : A -> option B) (keep : A -> Prop) `{!forall x, Decision (keep x)} l :
  (forall x y, x ∈ l -> ~ keep x -> f x = Some y -> P y) -> thin P (omap f (filter keep l)) (omap f l).
Proof.
  induction l as [|x l IH]; intros HP; [constructor|]. rewrite filter_cons, (omap_cons f x l).
  assert (IH' := IH (fun x' y Hx => HP x' y (list_elem_of_further _ _ _ Hx))).
  destruct (decide (keep x)) as [Hk|Hk].
  - rewrite omap_cons. apply thin_app; [apply thin_refl|done].
  - destruct (f x) as [y|] eqn:Ey; [|done]. cbn. apply thin_skip; [|done]. apply (HP x); [set_solver|done..].
Qed.

Lemma thin_map {A B} (P : B -> Prop) (g : A -> B) l l' : thin (fun x => P (g x)) l l' -> thin P (map g l) (map g l').
Proof. induction 1; cbn; by constructor. Qed.

Lemma edges_in_thin es es' : forall db, thin (addressed db) es es' -> edges_in db es = edges_in db es'.
Proof.
  intros db Ht. remember (addressed db) as P eqn:EP. assert (HP : forall e, P e -> addressed db e) by (by subst). clear EP.
  revert db HP. induction Ht as [|e l l' _ IH|e l l' He _ IH]; intros db HP; [done|..]; cbn.
  - apply IH. intros e' He'. apply (addressed_mono db [e]). auto.
  - rewrite (IH db HP). unfold add_edge at 2. by rewrite decide_True by auto.
Qed.

Lemma edges_in_absorb db es : Forall (addressed db) es -> edges_in db es = db.
Proof. intros Hes. by rewrite <- (edges_in_thin [] es db) by (by apply thin_none). Qed.

(** The fold reads the nodes and the edges. *)
Lemma edges_in_ext es : forall db db', db_nodes db = db_nodes db' -> db_edges db = db_edges db' ->
  db_next_edge_id db = db_next_edge_id db' ->
  db_edges (edges_in db es) = db_edges (edges_in db' es) /\ db_next_edge_id (edges_in db es) = db_next_edge_id (edges_in db' es).
Proof.
  induction es as [|e es IH]; intros db db' En Ee Ei; [done|].
  assert (Ha : addressed db e <-> addressed db' e) by (unfold addressed, node_ids; by rewrite En, Ee).
  cbn. apply IH; unfold add_edge;
    destruct (decide (addressed db e)), (decide (addressed db' e)); try tauto; cbn; congruence.
Qed.

End EdgeAlgebra.

(** ** Where a pass stands *)

Section Standing.
Context `{SqlScanLaws} `{!SerdeJson} `{!SerdeJsonLaws}.

(** [db] is [db0] after the edges [es] were inserted, in that order, and the
    references with the ids [h] moved. *)
Record stands (db0 : Db) (es : list Edge) (h : list Z) (db : Db) : Prop := {
  st_wf : wf_db db;
  st_nodes : db_nodes db = db_nodes db0;
  st_files : db_files db = db_files db0;
  st_edges : db_edges db = db_edges (edges_in db0 es);
  st_next_edge : db_next_edge_id db = db_next_edge_id (edges_in db0 es);
  st_unresolved : db_unresolved_refs db = filter (fun r => rr_id r ∉ h) (db_unresolved_refs db0);
  st_resolved : db_resolved_refs db ≡ₚ db_resolved_refs db0 ++ filter (fun r => rr_id r ∈ h) (db_unresolved_refs db0);
  st_next_ref : db_next_ref_id db = db_next_ref_id db0
}.

Lemma stands_start db : wf_db db -> stands db [] [] db.
Proof.
  intros Hwf. split; try done.
  - symmetry. apply filter_all. set_solver.
  - rewrite filter_none, app_nil_r; [done|]. set_solver.
Qed.

Lemma stands_insert db0 es h db es' : stands db0 es h db -> stands db0 (es ++ es') h (edges_in db es').
Proof.
  intros [Hwf En Ef Ee Ei Eu Er Ex]. destruct (edges_in_tables es' db) as (En' & Ef' & Eu' & Er' & Ex').
  destruct (edges_in_ext es' db (edges_in db0 es)) as [Ee' Ei']; [by rewrite edges_in_nodes|done..|].
  split; rewrite ?edges_in_app, ?En', ?Ef', ?Eu', ?Er', ?Ex'; try done. by apply edges_in_wf.
Qed.

Lemma delete_resolved_tables db ids :
  let db' := delete_resolved_unresolved_refs db ids in
  db_nodes db' = db_nodes db /\ db_files db' = db_files db /\ db_edges db' = db_edges db
  /\ db_next_edge_id db' = db_next_edge_id db /\ db_next_ref_id db' = db_next_ref_id db.
Proof.
  destruct ids as [|i ids]; [done|]. cbn -[chunks]. generalize (chunks SQLITE_PARAM_CHUNK_SIZE (i :: ids)). intros cs.
  revert db. induction cs as [|c cs IH]; intros db; [done|]. cbn. destruct (IH (move_resolved_chunk db c)) as (-> & -> & -> & -> & ->). done.
Qed.

Lemma delete_resolved_resolved db ids : wf_db db ->
  db_resolved_refs (delete_resolved_unresolved_refs db ids)
  ≡ₚ db_resolved_refs db ++ filter (fun r => rr_id r ∈ ids) (db_unresolved_refs db).
Proof.
  intros Hwf. pose proof (delete_resolved_perm db ids Hwf) as Hp. rewrite delete_resolved_unresolved in Hp.
  apply (Permutation_app_inv_l (filter (fun r => rr_id r ∉ ids) (db_unresolved_refs db))). rewrite Hp.
  rewrite (Permutation_app_comm (db_resolved_refs db)), (assoc_L (++)). by rewrite filter_split.
Qed.

Lemma stands_delete db0 es h db ids : stands db0 es h db -> stands db0 es (h ++ ids) (delete_resolved_unresolved_refs db ids).
Proof.
  intros [Hwf En Ef Ee Ei Eu Er Ex]. destruct (delete_resolved_tables db ids) as (En' & Ef' & Ee' & Ei' & Ex').
  split; rewrite ?En', ?Ef', ?Ee', ?Ei', ?Ex'; try done; [by apply delete_resolved_wf|..].
  - rewrite delete_resolved_unresolved, Eu, list_filter_filter. apply list_filter_iff. intros r. rewrite elem_of_app. tauto.
  - rewrite delete_resolved_resolved, Er, Eu, <- (assoc_L (++)) by done. f_equiv. rewrite list_filter_filter.
    rewrite <- (filter_split (fun r => rr_id r ∉ h) (fun r => rr_id r ∈ h)
                  (filter (fun r => rr_id r ∈ h ++ ids) (db_unresolved_refs db0))) by (intros r; destruct (decide (rr_id r ∈ h)); tauto).
    rewrite !list_filter_filter. apply reflexive_eq. f_equal; apply list_filter_iff; intros r; rewrite elem_of_app; tauto.
Qed.

(** Only which references have moved matters, not the list that says so. *)
Lemma stands_moved db0 es h h' db : stands db0 es h db ->
  (forall r, r ∈ db_unresolved_refs db0 -> rr_id r ∈ h <-> rr_id r ∈ h') -> stands db0 es h' db.
Proof.
  intros [Hwf En Ef Ee Ei Eu Er Ex] Hh. split; try done.
  - rewrite Eu. apply filter_ext_in. intros r Hr. by rewrite (Hh r Hr).
  - rewrite Er. f_equiv. apply reflexive_eq, filter_ext_in. intros r Hr. by apply Hh.
Qed.

Lemma stands_edges db0 es es' h db : stands db0 es h db -> edges_in db0 es = edges_in db0 es' -> stands db0 es' h db.
Proof. intros [Hwf En Ef Ee Ei Eu Er Ex] E. rewrite E in Ee, Ei. by split. Qed.

(** A pass that goes on from where another stopped. *)
Lemma stands_trans db0 es h c es' h' db : stands db0 es h c -> stands c es' h' db -> stands db0 (es ++ es') (h ++ h') db.
Proof.
  intros [Hwf En Ef Ee Ei Eu Er Ex] [Hwf' En' Ef' Ee' Ei' Eu' Er' Ex'].
  destruct (edges_in_ext es' c (edges_in db0 es)) as [He Hi]; [by rewrite edges_in_nodes|done..|].
  split; try congruence.
  - by rewrite edges_in_app, Ee'.
  - by rewrite edges_in_app, Ei'.
  - rewrite Eu', Eu, list_filter_filter. apply list_filter_iff. intros r. rewrite elem_of_app. tauto.
  - rewrite Er', Er, Eu, <- (assoc_L (++)). f_equiv.
    rewrite <- (filter_split (fun r => rr_id r ∉ h) (fun r => rr_id r ∈ h)
                  (filter (fun r => rr_id r ∈ h ++ h') (db_unresolved_refs db0))) by (intros r; destruct (decide (rr_id r ∈ h)); tauto).
    rewrite !list_filter_filter. apply reflexive_eq. f_equal; apply list_filter_iff; intros r; rewrite elem_of_app; tauto.
Qed.

(** Databases that hold the same, where the order of the moved references,
    which their ids give, is not looked at. *)
Record same_tables (db db' : Db) : Prop := {
  same_nodes : db_nodes db = db_nodes db';
  same_files : db_files db = db_files db';
  same_edges : db_edges db = db_edges db';
  same_next_edge : db_next_edge_id db = db_next_edge_id db';
  same_unresolved : db_unresolved_refs db = db_unresolved_refs db';
  same_resolved : db_resolved_refs db ≡ₚ db_resolved_refs db';
  same_next_ref : db_next_ref_id db = db_next_ref_id db'
}.

Lemma stands_same db0 es h db db' : stands db0 es h db -> stands db0 es h db' -> same_tables db db'.
Proof. intros [] []. split; try congruence. by etrans; [eassumption|symmetry]. Qed.

End Standing.

(** ** The references of a phase *)

Section Phases.
Context `{SqlScanLaws} `{!SerdeJson} `{!SerdeJsonLaws}.

Definition row_before (a b : RefRow) : bool := Z.leb (rr_id a) (rr_id b).

Definition wiring_row (r : RefRow) : bool := bool_decide (rr_reference_kind r ∈ map EdgeKind_as_str WIRING_KINDS).

(** The references of a phase, in the order of their ids. *)
Definition phase_list (db : Db) (wiring : bool) : list UnresolvedRef :=
  parsed row_to_unresolved_ref (sort_by row_before (filter (fun r => wiring_row r = wiring) (db_unresolved_refs db))).

Definition uid (u : UnresolvedRef) : Z := default 0%Z (ref_id u).

Lemma ref_row_fields r u : row_to_unresolved_ref r = Ok u ->
  ref_id u = Some (rr_id r) /\ uid u = rr_id r /\ wiring_row r = is_wiring_reference u
  /\ ref_reference_name u = rr_reference_name r
  /\ (ref_is_function_ref u = true -> ref_reference_kind u = EkReferences).
Proof.
  intros Hr. pose proof (row_to_ref_fields r u Hr) as (En & _ & Ei & _). split_and!; [done|unfold uid; by rewrite Ei| |done|].
  - revert Hr. unfold row_to_unresolved_ref. destruct (String.eqb_spec (rr_reference_kind r) "function_ref") as [E|E].
    + cbn [mbind result_bind]. parse_inv. unfold wiring_row. by rewrite E.
    + destruct (parse_edge_kind (rr_reference_kind r)) as [k| |] eqn:Ek; cbn [mbind result_bind]; [|done..].
      parse_inv. unfold wiring_row, is_wiring_reference, is_wiring_kind. cbn [ref_reference_kind].
      rewrite <- (parse_edge_kind_inv _ _ Ek). apply bool_decide_ext. rewrite elem_of_map. split.
      * intros (k' & ->%(inj EdgeKind_as_str) & Hk'). done.
      * intros Hk. by exists k.
  - revert Hr. unfold row_to_unresolved_ref. destruct (String.eqb_spec (rr_reference_kind r) "function_ref") as [E|E].
    + cbn [mbind result_bind]. parse_inv. done.
    + destruct (parse_edge_kind (rr_reference_kind r)) as [k| |] eqn:Ek; cbn [mbind result_bind]; [|done..]. parse_inv. done.
Qed.

Lemma elem_of_phase_list db b u : u ∈ phase_list db b <-> u ∈ gv_refs (view_of db) /\ is_wiring_reference u = b.
Proof.
  unfold phase_list. cbn. rewrite !elem_of_parsed. setoid_rewrite elem_of_sort_by. setoid_rewrite list_elem_of_filter. split.
  - intros (r & [Hb Hr] & Hp). destruct (ref_row_fields r u Hp) as (_ & _ & <- & _). eauto.
  - intros [(r & Hr & Hp) <-]. exists r. destruct (ref_row_fields r u Hp) as (_ & _ & -> & _). eauto.
Qed.

Lemma row_before_total a b : row_before a b = true \/ row_before b a = true.
Proof. unfold row_before. rewrite !Z.leb_le. lia. Qed.

Lemma sort_rows_sorted l : StronglySorted (fun a b => row_before a b = true) (sort_by row_before l).
Proof.
  apply Sorted_StronglySorted; [|apply sort_by_sorted, row_before_total].
  intros a b c. unfold row_before. rewrite !Z.leb_le. lia.
Qed.

Lemma StronglySorted_filter {A} (R : A -> A -> Prop) (P : A -> Prop) `{!forall x, Decision (P x)} l :
  StronglySorted R l -> StronglySorted R (filter P l).
Proof.
  induction 1 as [|x l _ IH Hx]; [constructor|]. rewrite filter_cons. case_decide; [|done]. constructor; [done|].
  rewrite Forall_forall in Hx |- *. intros y [_ Hy]%list_elem_of_filter. auto.
Qed.

(** Rows with distinct ids are sorted one way, whatever is left out first. *)
Lemma sort_rows_filter (P : RefRow -> Prop) `{!forall x, Decision (P x)} l l' : NoDup (map rr_id l) -> l' ≡ₚ filter P l ->
  sort_by row_before l' = filter P (sort_by row_before l).
Proof.
  intros Hnd Hp. assert (Hids : NoDup (map rr_id l')).
  { eapply NoDup_map_submseteq; [|exact Hnd]. rewrite Hp. apply filter_submseteq. }
  apply (StronglySorted_unique_strong (fun a b => row_before a b = true)).
  - intros a b Ha Hb. unfold row_before. rewrite !Z.leb_le. intros H1' H2'.
    apply elem_of_sort_by in Ha. apply list_elem_of_filter in Hb as [Hb1 Hb2]. apply elem_of_sort_by in Hb2.
    apply (NoDup_map_inj rr_id l'); [done..| |lia]. rewrite Hp. by apply list_elem_of_filter.
  - apply sort_rows_sorted.
  - apply StronglySorted_filter, sort_rows_sorted.
  - rewrite sort_by_perm, Hp. by rewrite sort_by_perm.
Qed.

Lemma wf_unresolved_ids db : wf_db db -> NoDup (map rr_id (db_unresolved_refs db)).
Proof. intros Hwf. pose proof (wf_ref_ids _ Hwf) as Hnd. rewrite map_app in Hnd. by apply NoDup_app in Hnd as [? _]. Qed.

Lemma parsed_app {E A R} (parse : R -> result E A) l l' : parsed parse (l ++ l') = parsed parse l ++ parsed parse l'.
Proof. apply omap_app. Qed.

Lemma parsed_prefix {E A R} (parse : R -> result E A) n l : Forall (parses parse) l ->
  parsed parse (take n l) = take n (parsed parse l).
Proof.
  intros Hl. revert n. induction Hl as [|r l [a Ha] _ IH]; intros [|n]; cbn [take]; rewrite ?parsed_cons, ?Ha; [done..|].
  cbn. by rewrite IH.
Qed.

Lemma Forall_parses_sort db P `{!forall r, Decision (P r)} : wf_db db ->
  Forall (parses row_to_unresolved_ref) (sort_by row_before (filter P (db_unresolved_refs db))).
Proof.
  intros Hwf. rewrite sort_by_perm. eapply Forall_submseteq; [apply filter_submseteq|by apply wf_unresolved_parse].
Qed.

(** A sort by a key that no two share. *)
Lemma sort_by_key_strict {A} (key : A -> Z) l : NoDup (map key l) ->
  StronglySorted Z.lt (map key (sort_by (fun a b => Z.leb (key a) (key b)) l)).
Proof.
  intros Hnd. assert (Hs : StronglySorted (fun a b => Z.leb (key a) (key b) = true) (sort_by (fun a b => Z.leb (key a) (key b)) l)).
  { apply Sorted_StronglySorted; [intros a b c; rewrite !Z.leb_le; lia|].
    apply sort_by_sorted. intros a b. rewrite !Z.leb_le. lia. }
  rewrite <- (sort_by_perm (fun a b => Z.leb (key a) (key b))) in Hnd.
  generalize dependent (sort_by (fun a b => Z.leb (key a) (key b)) l). intros l' Hnd Hs.
  induction Hs as [|x k Hk IH Hx]; cbn [map] in *; [constructor|]. apply NoDup_cons in Hnd as [Hn Hnd]. constructor; [auto|].
  apply Forall_forall. intros y (z & -> & Hz)%elem_of_map. pose proof (Forall_elem Hx Hz) as Hle. cbn in Hle. rewrite Z.leb_le in Hle.
  assert (key x <> key z); [|lia]. intros E. apply Hn, elem_of_map. eauto.
Qed.

Lemma parsed_uids rows : Forall (parses row_to_unresolved_ref) rows -> map uid (parsed row_to_unresolved_ref rows) = map rr_id rows.
Proof.
  induction 1 as [|r l [u Hu] _ IH]; [done|]. rewrite parsed_cons, Hu. cbn. rewrite IH. f_equal. by apply ref_row_fields.
Qed.

(** The references of rows of the table, by id, have increasing ids. *)
Lemma sorted_refs db P `{!forall r, Decision (P r)} : wf_db db ->
  StronglySorted Z.lt (map uid (parsed row_to_unresolved_ref (sort_by row_before (filter P (db_unresolved_refs db))))).
Proof.
  intros Hwf. rewrite parsed_uids by by apply Forall_parses_sort. apply sort_by_key_strict.
  eapply NoDup_map_submseteq; [apply filter_submseteq|by apply wf_unresolved_ids].
Qed.

(** The references of a phase have increasing ids. *)
Lemma phase_list_sorted db b : wf_db db -> StronglySorted Z.lt (map uid (phase_list db b)).
Proof. apply sorted_refs. Qed.

(** A batch is what comes next of its phase, whatever moved before. *)
Lemma batch_is_next db0 es h db b P R cursor size : wf_db db0 -> stands db0 es h db ->
  phase_list db0 b = P ++ R -> (forall u, u ∈ P -> (uid u <= cursor)%Z) ->
  (forall u, u ∈ R -> (cursor < uid u)%Z /\ uid u ∉ h) ->
  unresolved_refs_batch_by_kinds db cursor size WIRING_KINDS b = Ok (take size R).
Proof.
  intros Hwf Hst Hl HP HR. unfold unresolved_refs_batch_by_kinds. rewrite (st_unresolved _ _ _ _ Hst), list_filter_filter.
  set (Q := fun r : RefRow => (cursor < rr_id r)%Z /\ rr_id r ∉ h).
  erewrite (sort_rows_filter Q (filter (fun r => wiring_row r = b) (db_unresolved_refs db0))).
  - fold row_before. rewrite map_M_parsed, parsed_prefix; [f_equal; f_equal| |].
    + rewrite (parsed_filter _ Q (fun u => (cursor < uid u)%Z /\ uid u ∉ h)).
      2:{ intros r u Hu. unfold Q. by destruct (ref_row_fields r u Hu) as (_ & -> & _). }
      fold (phase_list db0 b). rewrite Hl, filter_app, filter_none, filter_all; [done|exact HR|].
      intros u Hu [Hc _]. specialize (HP u Hu). lia.
    + eapply Forall_submseteq; [apply filter_submseteq|by apply Forall_parses_sort].
    + apply Forall_take. eapply Forall_submseteq; [apply filter_submseteq|by apply Forall_parses_sort].
  - eapply NoDup_map_submseteq; [apply filter_submseteq|by apply wf_unresolved_ids].
  - rewrite scan_perm, list_filter_filter. apply reflexive_eq, list_filter_iff. intros r. unfold Q, wiring_row. tauto.
Qed.

(** What is left of a phase where a pass stands. *)
Lemma phase_list_stands db0 es h db b : wf_db db0 -> stands db0 es h db ->
  phase_list db b = filter (fun u => uid u ∉ h) (phase_list db0 b).
Proof.
  intros Hwf Hst. unfold phase_list. rewrite (st_unresolved _ _ _ _ Hst).
  rewrite (sort_rows_filter (fun r => rr_id r ∉ h) (filter (fun r => wiring_row r = b) (db_unresolved_refs db0))).
  - apply parsed_filter. intros r u Hu. by destruct (ref_row_fields r u Hu) as (_ & -> & _).
  - eapply NoDup_map_submseteq; [apply filter_submseteq|by apply wf_unresolved_ids].
  - rewrite !list_filter_filter. apply reflexive_eq, list_filter_iff. intros r. tauto.
Qed.

(** A reference is one of an id. *)
Lemma refs_by_id db u u' : wf_db db -> u ∈ gv_refs (view_of db) -> u' ∈ gv_refs (view_of db) -> uid u = uid u' -> u = u'.
Proof.
  intros Hwf (r & Hr & Hu)%elem_of_parsed (r' & Hr' & Hu')%elem_of_parsed E.
  destruct (ref_row_fields _ _ Hu) as (_ & E1 & _). destruct (ref_row_fields _ _ Hu') as (_ & E2 & _).
  assert (r = r') as <-; [|congruence]. apply (NoDup_map_inj rr_id (db_unresolved_refs db)); [by apply wf_unresolved_ids|done|done|congruence].
Qed.

End Phases.

(** ** The two contexts *)

(** *** Candidates in order *)

#[export] Instance Z_compare_total : TotalCmp Z.compare.
Proof.
  split.
  - apply Z.compare_refl.
  - apply Z.compare_antisym.
  - intros a b c. rewrite !Z.compare_ngt_iff. lia.
  - intros a b c. rewrite !Z.compare_eq_iff. lia.
Qed.

#[export] Instance candidate_cmp_total : TotalCmp candidate_cmp.
Proof.
  unfold candidate_cmp.
  repeat first [apply then_cmp_total | apply (map_cmp_total node_file_path) | apply (map_cmp_total node_start_line)
               | apply (map_cmp_total node_start_column) | apply (map_cmp_total node_id)]; apply _.
Qed.

Lemma candidate_le_spec a b : candidate_le a b = true <-> candidate_cmp a b <> Gt.
Proof. unfold candidate_le. destruct (candidate_cmp a b); naive_solver. Qed.

(** The order is one on nodes with ids of their own. *)
Lemma candidate_le_ids a b : candidate_le a b = true -> candidate_le b a = true -> node_id a = node_id b.
Proof.
  rewrite !candidate_le_spec, (cmp_opp (cmp := candidate_cmp) a b). intros Ha Hb. assert (E : candidate_cmp a b = Eq) by (destruct (candidate_cmp a b); done).
  unfold candidate_cmp, then_cmp in E. repeat (case_match; [|done..]). by apply String.compare_eq_iff in E.
Qed.

Lemma order_candidates_perm l l' : l ≡ₚ l' -> (forall a b, a ∈ l -> b ∈ l -> node_id a = node_id b -> a = b) ->
  order_candidates l = order_candidates l'.
Proof.
  intros Hp Hid. unfold order_candidates.
  assert (Htot : forall a b, candidate_le a b = true \/ candidate_le b a = true).
  { intros a b. rewrite !candidate_le_spec, (cmp_opp (cmp := candidate_cmp) a b). destruct (candidate_cmp a b); naive_solver. }
  assert (Htr : Transitive (fun a b => candidate_le a b = true)).
  { intros a b c. rewrite !candidate_le_spec. apply (cmp_trans (cmp := candidate_cmp)). }
  apply (Sorted_unique_strong (fun a b => candidate_le a b = true)).
  - intros a b Ha%elem_of_sort_by Hb%elem_of_sort_by Hab Hba. rewrite <- Hp in Hb. apply Hid; [done..|]. by apply candidate_le_ids.
  - by apply sort_by_sorted.
  - by apply sort_by_sorted.
  - by rewrite !sort_by_perm.
Qed.

Lemma push_under_fold key nodes : forall m k,
  default [] (fold_left (push_under key) nodes m !! k) = default [] (m !! k) ++ filter (fun n => key n = k) nodes.
Proof.
  induction nodes as [|n nodes IH]; intros m k; cbn [fold_left]; [by rewrite app_nil_r|].
  rewrite IH. unfold push_under. rewrite filter_cons. destruct (decide (key n = k)) as [<-|Hne].
  - rewrite lookup_insert_eq. cbn. by rewrite <- (assoc_L (++)).
  - by rewrite lookup_insert_ne.
Qed.

Lemma candidates_under_lookup key nodes k :
  default [] (candidates_under key nodes !! k) = order_candidates (filter (fun n => key n = k) nodes).
Proof.
  unfold candidates_under. rewrite lookup_fmap. pose proof (push_under_fold key nodes ∅ k) as E.
  rewrite lookup_empty in E. cbn in E. rewrite <- E. by destruct (fold_left _ _ _ !! k).
Qed.

(** Every node's name is in ASCII. *)
Definition is_ascii (a : ascii) : bool := (N_of_ascii a <? 128)%N.
Definition ascii_names (db : Db) : Prop := Forall (fun r => all_bytes is_ascii (nr_name r) = true) (db_nodes db).

(** [str::to_lowercase] on ASCII. *)
Class LowercaseLaws `{UnicodeTables} : Prop :=
  lowercase_ascii name : all_bytes is_ascii name = true -> str_to_lowercase name = to_ascii_lowercase name.

Section Adjacency.
Context `{SqlScanLaws} `{!SerdeJson} `{!SerdeJsonLaws} `{U : !UnicodeTables} `{!Strategies} `{!StrategiesProper}.
#[local] Notation Adjacency := (gmap string (list (string * EdgeKind))).

(** [x] is written as a supertype of the node [id]. *)
Definition inherits (db : Db) (id x : string) : Prop :=
  exists r k, r ∈ db_edges db /\ er_source r = id /\ er_target r = x
              /\ er_kind r = EdgeKind_as_str k /\ is_inheritance_kind k = true.

(** An adjacency holds the inheritance rows between the nodes there are. *)
Definition tracks (adjacency : Adjacency) (db : Db) : Prop :=
  forall id x, id ∈ node_ids db -> x ∈ node_ids db ->
    (exists k, (x, k) ∈ default [] (adjacency !! id) /\ is_inheritance_kind k = true) <-> inherits db id x.

Lemma push_adjacent_fold es : forall (adjacency : Adjacency) id p,
  p ∈ default [] (fold_left push_adjacent es adjacency !! id)
  <-> p ∈ default [] (adjacency !! id) \/ exists e, e ∈ es /\ edge_source e = id /\ p = (edge_target e, edge_kind e).
Proof.
  induction es as [|e es IH]; intros adjacency id p; cbn [fold_left]; [set_solver|].
  rewrite IH. unfold push_adjacent. destruct (decide (edge_source e = id)) as [<-|Hne].
  - rewrite lookup_insert_eq; cbn [from_option id]; unfold id; rewrite elem_of_app, list_elem_of_singleton.
    setoid_rewrite elem_of_cons. split; [|].
    + intros [[Hp| ->]|(e' & He' & Es & ->)]; [tauto|right; eauto|right; eauto].
    + intros [Hp|(e' & [->|He'] & Es & ->)]; [tauto|tauto|right; eauto].
  - rewrite lookup_insert_ne by done. setoid_rewrite elem_of_cons. split.
    + intros [Hp|(e' & He' & Es & ->)]; [tauto|right; eauto].
    + intros [Hp|(e' & [->|He'] & Es & ->)]; [tauto|done|right; eauto].
Qed.

Lemma inheritance_kinds k : is_inheritance_kind k = true <-> k = EkImplements \/ k = EkExtends.
Proof. unfold is_inheritance_kind. by rewrite orb_true_iff, !bool_decide_eq_true. Qed.

Lemma db_edges_by_kind_ok db kind : wf_db db ->
  returns (db_edges_by_kind db kind) (fun es => es ≡ₚ filter (fun e => edge_kind e = kind) (gv_edges (view_of db))).
Proof.
  intros Hwf. unfold db_edges_by_kind. rewrite map_M_parsed.
  - cbn. rewrite <- (parsed_filter row_to_edge (fun r => er_kind r = EdgeKind_as_str kind) (fun e => edge_kind e = kind)).
    + apply parsed_perm. by rewrite sort_by_perm, scan_perm.
    + intros r e (_ & _ & _ & <-)%row_to_edge_fields. split; [intros E; by apply (inj EdgeKind_as_str)|by intros ->].
  - rewrite sort_by_perm, scan_perm. eapply Forall_submseteq; [apply filter_submseteq|exact (wf_edges_parse _ Hwf)].
Qed.

(** An inheritance row, as the edge it parses to. *)
Lemma inherits_edge db id x : wf_db db ->
  inherits db id x <-> exists e, e ∈ gv_edges (view_of db) /\ edge_source e = id /\ edge_target e = x
                                 /\ is_inheritance_kind (edge_kind e) = true.
Proof.
  intros Hwf. unfold inherits. cbn. setoid_rewrite elem_of_parsed. split.
  - intros (r & k & Hr & <- & <- & Ek & Hk). destruct (Forall_elem (wf_edges_parse _ Hwf) Hr) as [e He].
    pose proof (row_to_edge_fields r e He) as (_ & Es & Et & Ek'). rewrite Ek in Ek'. apply (inj EdgeKind_as_str) in Ek' as <-.
    exists e. eauto 10.
  - intros (e & (r & Hr & He) & <- & <- & Hk). pose proof (row_to_edge_fields r e He) as (_ & -> & -> & Ek).
    exists r, (edge_kind e). auto.
Qed.

Lemma build_edge_adjacency_ok db : wf_db db ->
  returns (build_edge_adjacency db) (fun adjacency => tracks adjacency db).
Proof.
  intros Hwf. unfold build_edge_adjacency.
  returns_step db_edges_by_kind_ok; [done|]. intros es1 Hp1.
  returns_step db_edges_by_kind_ok; [done|]. intros es2 Hp2. cbn. intros id x _ _. rewrite inherits_edge by done.
  setoid_rewrite push_adjacent_fold. setoid_rewrite elem_of_app. setoid_rewrite Hp1. setoid_rewrite Hp2.
  setoid_rewrite list_elem_of_filter. rewrite lookup_empty. cbn. split.
  - intros (k & [[]%not_elem_of_nil|(e & He & <- & [= -> ->])] & Hk). exists e. tauto.
  - intros (e & He & <- & <- & Hk). exists (edge_kind e). split; [|done]. right. exists e.
    apply inheritance_kinds in Hk. tauto.
Qed.

(** Folding in the edges of a batch, inserted, keeps the adjacency true. *)
Lemma fold_adjacency_tracks adjacency db edges db' :
  tracks adjacency db -> edges_inserted db edges db' -> tracks (fold_adjacency adjacency edges) db'.
Proof.
  intros Ht Hins id x Hid Hx. assert (En : node_ids db' = node_ids db) by (unfold node_ids; by rewrite (ei_nodes _ _ _ Hins)).
  rewrite En in Hid, Hx. unfold fold_adjacency. setoid_rewrite push_adjacent_fold. setoid_rewrite list_elem_of_filter.
  destruct (ei_rows _ _ _ Hins) as (new & Erows & Hnew). split.
  - intros (k & [Hp|(e & [Hk He] & <- & [= -> ->])] & Hk').
    + destruct (proj1 (Ht id x Hid Hx)) as (r & k' & Hr & Hrest); [eauto|]. exists r, k'. rewrite Erows. set_solver.
    + pose proof (ei_present _ _ _ Hins e He Hid Hx) as (r & Er & Hr)%elem_of_map.
      unfold identity_of, edge_identity in Er. injection Er as Es Et Ek _ _. exists r, (edge_kind e). auto.
  - intros (r & k & Hr & Es & Et & Ek & Hk). rewrite Erows in Hr. apply elem_of_app in Hr as [Hr|Hr].
    + destruct (proj2 (Ht id x Hid Hx)) as (k' & Hp & Hk'); [exists r, k; auto|]. exists k'. auto.
    + destruct (Forall_elem Hnew Hr) as [(e & He & Er) _]. rewrite Er in Es, Et, Ek. cbn in Es, Et, Ek. apply (inj EdgeKind_as_str) in Ek.
      exists (edge_kind e). rewrite Ek. split; [|done]. right. exists e. rewrite Ek. set_solver.
Qed.

Lemma supertypes_over_ext lookups lookups' (targets targets' : Node -> list string) type_name language :
  lookups_eq lookups lookups' ->
  (forall tn, tn ∈ get_nodes_by_name lookups type_name -> forall id x, get_node_by_id lookups id = Some x -> id ∈ targets tn <-> id ∈ targets' tn) ->
  supertypes_over lookups targets type_name language = supertypes_over lookups' targets' type_name language.
Proof.
  intros Hl Ht. unfold supertypes_over. rewrite <- (le_name _ _ Hl). f_equal. apply set_eq. intros name.
  rewrite !elem_of_list_to_set, !list_elem_of_bind. setoid_rewrite list_elem_of_filter. setoid_rewrite elem_of_app.
  assert (Hc : forall tn, extended_conformances lookups tn = extended_conformances lookups' tn)
    by (intros tn; by apply extended_conformances_proper).
  setoid_rewrite Hc. setoid_rewrite list_elem_of_omap. split; intros (tn & Hor & Hk & Htn); exists tn; (split; [|done]).
  - destruct Hor as [?|(id & Hid & Hx)]; [by left|right]. exists id. rewrite <- (le_id _ _ Hl). split; [|done].
    destruct (get_node_by_id lookups id) as [x|] eqn:E; [|done]. by apply (Ht tn Htn id x E).
  - destruct Hor as [?|(id & Hid & Hx)]; [by left|right]. exists id. rewrite (le_id _ _ Hl). split; [|done].
    rewrite <- (le_id _ _ Hl) in Hx. destruct (get_node_by_id lookups id) as [x|] eqn:E; [|done]. by apply (Ht tn Htn id x E).
Qed.

(** A snapshot that answers as the live store does. *)
Definition snapshot_of (snapshot : NodeSnapshot) (db : Db) : Prop := lookups_eq (store_lookups db) (snapshot_lookups snapshot).

Lemma node_at_eq db id : wf_db db -> node_at db id = gv_nodes (view_of db) !! id.
Proof. intros Hwf. unfold node_at. by rewrite db_node_by_id_ok. Qed.

Lemma by_id_view db nodes id : wf_db db -> nodes ≡ₚ parsed row_to_node (db_nodes db) ->
  fold_left (fun m n => <[node_id n := n]> m) nodes (∅ : gmap string Node) !! id = gv_nodes (view_of db) !! id.
Proof.
  intros Hwf Hp. rewrite (fold_insert_nodes (gv_nodes (view_of db))).
  - case_decide as Hin; [done|]. rewrite lookup_empty. symmetry. apply eq_None_not_Some. intros [n Hn]. apply Hin.
    assert (node_id n = id) as <- by exact (@view_key _ (view_of_wf db Hwf) _ _ Hn).
    apply elem_of_map. exists n. split; [done|]. rewrite Hp. by apply elem_of_parsed_nodes.
  - intros n Hn. apply elem_of_parsed_nodes; [done|]. by rewrite <- Hp.
Qed.

(** The targets the store gives for a node are those its inheritance rows
    have. *)
Lemma store_targets_ok db tn x : wf_db db ->
  x ∈ ([EkImplements; EkExtends] ≫= fun kind =>
        map edge_target (unwrap_or [] (db_edges_by_source_kind db (node_id tn) (Some kind))))
  <-> inherits db (node_id tn) x.
Proof.
  intros Hwf. rewrite inherits_edge, list_elem_of_bind by done.
  assert (Hk : forall kind, x ∈ map edge_target (unwrap_or [] (db_edges_by_source_kind db (node_id tn) (Some kind)))
    <-> exists e, e ∈ gv_edges (view_of db) /\ edge_source e = node_id tn /\ edge_target e = x /\ edge_kind e = kind).
  { intros kind. rewrite elem_of_map. pose proof (db_edges_by_source_ok db (node_id tn) (Some kind) Hwf) as Hr.
    destruct (db_edges_by_source_kind db (node_id tn) (Some kind)) as [es| |]; cbn in Hr; [|done..]. cbn [unwrap_or].
    setoid_rewrite Hr. setoid_rewrite list_elem_of_filter. split.
    - intros (e & -> & [? ?] & ?). exists e. auto.
    - intros (e & ? & ? & <- & ?). exists e. auto. }
  setoid_rewrite Hk. split.
  - intros (kind & (e & ? & ? & ? & <-) & Hin). exists e. split_and!; auto. apply inheritance_kinds. set_solver.
  - intros (e & ? & ? & ? & Hi%inheritance_kinds). exists (edge_kind e). split; [eauto|]. set_solver.
Qed.

Lemma view_ids db a b : wf_db db -> a ∈ parsed row_to_node (db_nodes db) -> b ∈ parsed row_to_node (db_nodes db) ->
  node_id a = node_id b -> a = b.
Proof. intros Hwf Ha%elem_of_parsed_nodes Hb%elem_of_parsed_nodes E; [|done..]. rewrite E in Ha. congruence. Qed.

Lemma node_rows_filter (P : NodeRow -> Prop) (Q : Node -> Prop) `{!forall r, Decision (P r), !forall n, Decision (Q n)} rows :
  (forall r n, r ∈ rows -> row_to_node r = Ok n -> P r <-> Q n) ->
  parsed row_to_node (filter P rows) = filter Q (parsed row_to_node rows).
Proof.
  induction rows as [|r rows IH]; intros HPQ; [done|]. assert (IH' := IH (fun r' n Hr => HPQ r' n (list_elem_of_further _ _ _ Hr))).
  rewrite filter_cons, parsed_cons. destruct (row_to_node r) as [n| |] eqn:En.
  - rewrite filter_cons. specialize (HPQ r n (list_elem_of_here _ _) En).
    destruct (decide (P r)), (decide (Q n)); try tauto; by rewrite ?parsed_cons, ?En, IH'.
  - destruct (decide (P r)); by rewrite ?parsed_cons, ?En.
  - destruct (decide (P r)); by rewrite ?parsed_cons, ?En.
Qed.

(** A list of candidates by a key: of the rows that have it, and of the nodes. *)
Lemma candidates_ok db nodes q p (key : Node -> string) k : wf_db db -> nodes ≡ₚ parsed row_to_node (db_nodes db) ->
  (forall r n, r ∈ db_nodes db -> row_to_node r = Ok n -> p r = true <-> key n = k) ->
  order_candidates (unwrap_or [] (query_nodes q p db)) = default [] (candidates_under key nodes !! k).
Proof.
  intros Hwf Hn Hp. rewrite candidates_under_lookup. unfold query_nodes. rewrite map_M_parsed.
  - cbn [unwrap_or]. apply order_candidates_perm.
    + rewrite Hn, (parsed_perm row_to_node _ _ (scan_perm q _)). by rewrite (node_rows_filter _ (fun n => key n = k)).
    + intros a b Ha Hb. apply (view_ids db); [done|..].
      * apply elem_of_parsed in Ha as (r & Hr & Er). apply elem_of_parsed. exists r. split; [|done].
        rewrite scan_perm in Hr. by apply list_elem_of_filter in Hr as [_ ?].
      * apply elem_of_parsed in Hb as (r & Hr & Er). apply elem_of_parsed. exists r. split; [|done].
        rewrite scan_perm in Hr. by apply list_elem_of_filter in Hr as [_ ?].
  - apply scan_Forall. eapply Forall_submseteq; [apply filter_submseteq|exact (wf_nodes_parse _ Hwf)].
Qed.

Lemma row_to_node_qualified r n : row_to_node r = Ok n -> node_qualified_name n = nr_qualified_name r.
Proof. unfold row_to_node. by parse_inv. Qed.

(** Nodes of the store, found again by their ids. *)
Lemma shared_ok db nodes (entries : list Node) : wf_db db -> nodes ≡ₚ parsed row_to_node (db_nodes db) ->
  (forall n, n ∈ entries -> n ∈ parsed row_to_node (db_nodes db)) ->
  omap (fun n => fold_left (fun m n => <[node_id n := n]> m) nodes (∅ : gmap string Node) !! node_id n) entries = entries.
Proof.
  intros Hwf Hn. induction entries as [|n entries IH]; intros He; [done|]. cbn.
  rewrite (by_id_view db) by done. assert (Hin : n ∈ parsed row_to_node (db_nodes db)) by (apply He; by left).
  apply elem_of_parsed_nodes in Hin; [|done]. rewrite Hin. f_equal. apply IH. intros m Hm. apply He. by right.
Qed.

Lemma parsed_from rows db l : (forall r, r ∈ rows -> r ∈ db_nodes db) -> map_M row_to_node rows = Ok l ->
  forall n, n ∈ l -> n ∈ parsed row_to_node (db_nodes db).
Proof.
  intros Hr E n Hn. apply elem_of_parsed. revert l E Hn. induction rows as [|r rows IH]; cbn; intros l.
  - intros [= <-] []%not_elem_of_nil.
  - destruct (row_to_node r) as [m| |] eqn:Em; cbn; [|done..]. destruct (map_M row_to_node rows) as [ms| |]; cbn; [|done..].
    intros [= <-] [->|Hn]%elem_of_cons; [exists r; split; [apply Hr; by left|done]|].
    apply (IH (fun r' H' => Hr r' (list_elem_of_further _ _ _ H')) ms eq_refl Hn).
Qed.

Lemma unwrap_from rows db : (forall r, r ∈ rows -> r ∈ db_nodes db) ->
  forall n, n ∈ unwrap_or [] (map_M row_to_node rows) -> n ∈ parsed row_to_node (db_nodes db).
Proof.
  intros Hr n. destruct (map_M row_to_node rows) as [l| |] eqn:E; cbn; [|by intros []%not_elem_of_nil..]. by apply (parsed_from rows).
Qed.

Lemma file_nodes_from db path n : n ∈ unwrap_or [] (db_nodes_by_file_path db path) -> n ∈ parsed row_to_node (db_nodes db).
Proof.
  apply unwrap_from. intros r Hr. rewrite elem_of_sort_by, scan_perm in Hr. by apply list_elem_of_filter in Hr as [_ ?].
Qed.

Lemma kind_nodes_from db kind n : n ∈ unwrap_or [] (db_nodes_by_kind db kind) -> n ∈ parsed row_to_node (db_nodes db).
Proof. apply unwrap_from. intros r Hr. rewrite scan_perm in Hr. by apply list_elem_of_filter in Hr as [_ ?]. Qed.

(** A map built by inserting under each of its keys. *)
Lemma fold_keys {A} (f : string -> A) keys : forall (m : gmap string A) k,
  fold_left (fun m k => <[k := f k]> m) keys m !! k = if decide (k ∈ keys) then Some (f k) else m !! k.
Proof.
  induction keys as [|k' keys IH]; intros m k; [done|]. cbn [fold_left]. rewrite IH.
  destruct (decide (k ∈ keys)) as [Hin|Hin]; [by rewrite decide_True by set_solver|].
  destruct (decide (k' = k)) as [->|Hne]; [rewrite lookup_insert_eq, decide_True by set_solver; done|].
  by rewrite lookup_insert_ne, decide_False by set_solver.
Qed.

Lemma kinds_found {A} (f : NodeKind -> A) kinds k : k ∈ kinds ->
  snd <$> (snd <$> list_find (fun p => p.1 = k) (map (fun kind => (kind, f kind)) kinds)) = Some (f k).
Proof.
  induction kinds as [|k' kinds IH]; [by intros []%not_elem_of_nil|]. intros Hk. cbn. case_decide as E; cbn in E; [by subst|].
  apply elem_of_cons in Hk as [->|Hk]; [done|]. specialize (IH Hk). rewrite <- IH.
  by destruct (list_find _ _) as [[? ?]|].
Qed.

(** The files of the index, sorted, and sorted again. *)
Lemma file_paths_ok db : wf_db db ->
  let paths := map file_path (unwrap_or [] (db_all_files db)) in
  sort_by str_le (elements (list_to_set paths : gset string)) = paths.
Proof.
  intros Hwf. unfold db_all_files. rewrite map_M_parsed by (rewrite sort_by_perm, scan_perm; exact (wf_files_parse _ Hwf)).
  cbn [unwrap_or]. set (rows := sort_by _ (scan_order _ _)).
  assert (Hrows : forall r, r ∈ rows -> parses row_to_file r).
  { intros r Hr. unfold rows in Hr. rewrite elem_of_sort_by, scan_perm in Hr. exact (Forall_elem (wf_files_parse _ Hwf) Hr). }
  assert (E : map file_path (parsed row_to_file rows) = map fr_path rows).
  { clearbody rows. unfold parsed. induction rows as [|r rows IH]; [done|]. destruct (Hrows r (list_elem_of_here _ _)) as [f Ef].
    rewrite omap_cons, Ef. cbn. rewrite (row_to_file_fields r f Ef), IH; [done|]. intros r' Hr'. apply Hrows. by right. }
  rewrite E. assert (Hnd : NoDup (map fr_path rows)).
  { unfold rows. rewrite sort_by_perm, scan_perm. exact (wf_file_paths _ Hwf). }
  assert (Htr : Transitive (fun a b => str_le a b = true)) by (intros a b c; apply str_leb_trans).
  apply (Sorted_unique_strong (fun a b => str_le a b = true)).
  - intros a b _ _. apply str_leb_antisym.
  - apply sort_by_sorted, str_le_total.
  - unfold rows. assert (Hs := sort_by_sorted (fun a b => str_le (fr_path a) (fr_path b)) (fun a b => str_le_total _ _)
      (scan_order "all_files" (db_files db))). revert Hs. generalize (sort_by (fun a b => str_le (fr_path a) (fr_path b)) (scan_order "all_files" (db_files db))).
    induction 1 as [|r l Hl IH Hd]; [constructor|]. cbn. constructor; [done|]. destruct Hd; cbn; by constructor.
  - rewrite sort_by_perm. symmetry. apply NoDup_Permutation; [done|apply NoDup_elements|]. intros x. by rewrite elem_of_elements, elem_of_list_to_set.
Qed.

(** Where a file of the nodes has its list. *)
Lemma file_nodes_none db path : wf_db db -> (forall n, n ∈ parsed row_to_node (db_nodes db) -> node_file_path n <> path) ->
  unwrap_or [] (db_nodes_by_file_path db path) = [].
Proof.
  intros Hwf Hno. unfold db_nodes_by_file_path. rewrite (filter_none _ (db_nodes db)).
  - pose proof (scan_perm "nodes_by_file_path" (@nil NodeRow)) as Hp. apply Permutation_nil_r in Hp. by rewrite Hp.
  - intros r Hr E. destruct (Forall_elem (wf_nodes_parse _ Hwf) Hr) as [n En].
    apply (Hno n); [apply elem_of_parsed; eauto|]. destruct (row_to_node_fields r n En) as (_ & _ & -> & _). done.
Qed.

(** The snapshot of a store whose names are in ASCII answers as the store
    does. *)
Lemma snapshot_from_store_ok `{!LowercaseLaws} db : wf_db db -> ascii_names db ->
  returns (snapshot_from_store db) (fun sn => snapshot_of sn db).
Proof.
  intros Hwf Hascii. unfold snapshot_from_store, db_all_nodes. rewrite map_M_parsed.
  2: { rewrite sort_by_perm, scan_perm. exact (wf_nodes_parse _ Hwf). }
  cbn [mbind result_bind]. set (nodes := parsed row_to_node _).
  assert (Hn : nodes ≡ₚ parsed row_to_node (db_nodes db)) by (apply parsed_perm; by rewrite sort_by_perm, scan_perm).
  clearbody nodes. cbn [returns].
  split; cbn [store_lookups snapshot_lookups get_nodes_by_name get_nodes_by_qualified_name get_nodes_by_lower_name get_nodes_in_file
    get_nodes_by_kind get_node_by_id all_known_names get_all_files by_name by_lower_name by_qualified_name by_kind by_file_path by_id
    sn_known_node_names all_file_paths].
  - intros name. apply (candidates_ok db nodes); [done..|]. intros r n _ (_ & -> & _)%row_to_node_fields. apply String.eqb_eq.
  - intros name. apply (candidates_ok db nodes); [done..|]. intros r n _ ->%row_to_node_qualified. apply String.eqb_eq.
  - intros name Hlow. apply (candidates_ok db nodes); [done..|]. intros r n Hr (_ & -> & _)%row_to_node_fields.
    rewrite (lowercase_ascii _ (Forall_elem Hascii Hr)), Hlow. apply String.eqb_eq.
  - intros path. rewrite fold_keys. case_decide as Hin.
    + cbn. symmetry. apply (shared_ok db); [done..|]. apply file_nodes_from.
    + cbn. apply file_nodes_none; [done|]. intros n Hnode <-. apply Hin. rewrite elem_of_dedup, elem_of_sort_by, elem_of_map.
      exists (node_id n, n). split; [done|]. apply elem_of_map_to_list. rewrite (by_id_view db) by done. by apply elem_of_parsed_nodes.
  - intros kind. rewrite kinds_found by apply NodeKind_ALL_complete. cbn. symmetry. apply (shared_ok db); [done..|]. apply kind_nodes_from.
  - intros id. rewrite (by_id_view db) by done. by rewrite db_node_by_id_ok.
  - done.
  - symmetry. by apply file_paths_ok.
Qed.

Lemma contexts_agree db snapshot adjacency : wf_db db -> snapshot_of snapshot db -> tracks adjacency db ->
  context_eq (store_context db) (snapshot_context snapshot adjacency).
Proof.
  intros Hwf Hsn Ht. split; [exact Hsn|]. intros t l. cbn [cx_supertypes store_context snapshot_context].
  apply supertypes_over_ext; [exact Hsn|]. intros tn Htn id x Hx. cbn [get_node_by_id store_lookups] in Hx.
  rewrite db_node_by_id_ok in Hx by done. cbn [unwrap_or] in Hx. unfold store_targets. rewrite store_targets_ok by done.
  assert (Hid : id ∈ node_ids db) by (apply (view_node_is_Some db _ Hwf); eauto).
  assert (Htn' : node_id tn ∈ node_ids db).
  { cbn [get_nodes_by_name store_lookups] in Htn. unfold order_candidates in Htn. rewrite elem_of_sort_by in Htn.
    unfold db_nodes_by_name, query_nodes in Htn. apply (unwrap_from _ db) in Htn.
    - apply elem_of_parsed_nodes in Htn; [|done]. apply (view_node_is_Some db _ Hwf); eauto.
    - intros r Hr. rewrite scan_perm in Hr. by apply list_elem_of_filter in Hr as [_ ?]. }
  rewrite <- (Ht (node_id tn) id Htn' Hid). unfold adjacent_targets. rewrite elem_of_map. setoid_rewrite list_elem_of_filter. split.
  - intros (k & Hin & Hk). by exists (id, k).
  - intros ([id' k] & -> & Hk & Hin). by exists k.
Qed.

(** ** What the contexts of a run have in common *)

(** The lookups read the nodes and the files. *)
Lemma store_lookups_same db db' : db_nodes db = db_nodes db' -> db_files db = db_files db' -> store_lookups db = store_lookups db'.
Proof.
  intros En Ef. unfold store_lookups, db_nodes_by_name, db_nodes_by_qualified_name, db_nodes_by_lower_name, db_nodes_by_file_path,
    db_nodes_by_kind, db_node_by_id, db_all_node_names, db_all_files, query_nodes. by rewrite En, Ef.
Qed.

(** A list with the same nodes, files and inheritance rows gives the same
    context. *)
Lemma store_contexts_agree db db' : wf_db db -> wf_db db' -> db_nodes db = db_nodes db' -> db_files db = db_files db' ->
  (forall id x, inherits db id x <-> inherits db' id x) -> context_eq (store_context db) (store_context db').
Proof.
  intros Hwf Hwf' En Ef Hi. unfold store_context. rewrite (store_lookups_same _ _ En Ef).
  split; [by cbn|]. intros t l. cbn [cx_supertypes]. apply supertypes_over_ext; [done|].
  intros tn _ id x _. unfold store_targets. by rewrite !store_targets_ok.
Qed.

(** The inheritance rows after an insertion. *)
Lemma inherits_edges_in db es id x : wf_db db ->
  inherits (edges_in db es) id x
  <-> inherits db id x
      \/ (id ∈ node_ids db /\ x ∈ node_ids db
          /\ exists e, e ∈ es /\ edge_source e = id /\ edge_target e = x /\ is_inheritance_kind (edge_kind e) = true).
Proof.
  intros Hwf. destruct (insert_edges_ok db es Hwf) as (_ & Hwf' & Hins).
  destruct (ei_rows _ _ _ Hins) as (new & Erows & Hnew). split.
  - intros (r & k & Hr & Es & Et & Ek & Hk). rewrite Erows in Hr. apply elem_of_app in Hr as [Hr|Hr].
    { left. exists r, k. auto. }
    right. assert (Hfk : er_source r ∈ node_ids db /\ er_target r ∈ node_ids db).
    { rewrite <- (edges_in_node_ids db es). apply (Forall_elem (wf_edges_fk _ Hwf')). rewrite Erows. set_solver. }
    rewrite Es, Et in Hfk. split_and!; [apply Hfk..|].
    destruct (Forall_elem Hnew Hr) as [(e & He & Er) _]. rewrite Er in Es, Et, Ek. cbn in Es, Et, Ek. apply (inj EdgeKind_as_str) in Ek.
    exists e. rewrite Ek. auto.
  - intros [(r & k & Hr & Hrest)|(Hid & Hx & e & He & <- & <- & Hk)].
    + exists r, k. rewrite Erows. set_solver.
    + pose proof (ei_present _ _ _ Hins e He Hid Hx) as (r & Er & Hr)%elem_of_map.
      unfold identity_of, edge_identity in Er. injection Er as Es Et Ek _ _. exists r, (edge_kind e). auto.
Qed.

Definition inheritance (e : Edge) : Prop := is_inheritance_kind (edge_kind e) = true.

(** Two insertions with the same inheritance edges. *)
Lemma inherits_same db es es' : wf_db db -> (forall e, inheritance e -> e ∈ es <-> e ∈ es') ->
  forall id x, inherits (edges_in db es) id x <-> inherits (edges_in db es') id x.
Proof.
  intros Hwf He id x. rewrite !inherits_edges_in by done. f_equiv. f_equiv. f_equiv.
  split; intros (e & Hin & Hs & Ht & Hk); exists e; (split; [by apply (He e Hk)|done]).
Qed.

Lemma inherits_rows db db' : db_edges db = db_edges db' -> forall id x, inherits db id x <-> inherits db' id x.
Proof. unfold inherits. by intros ->. Qed.

(** Where a pass stands, its context is that of the edges it inserted. *)
Lemma stands_context db0 es h db es' : wf_db db0 -> stands db0 es h db -> (forall e, inheritance e -> e ∈ es <-> e ∈ es') ->
  context_eq (store_context db) (store_context (edges_in db0 es')).
Proof.
  intros Hwf Hst He. destruct (edges_in_tables es' db0) as (En & Ef & _).
  apply store_contexts_agree; [exact (st_wf _ _ _ _ Hst)|by apply edges_in_wf| | |].
  - by rewrite En, (st_nodes _ _ _ _ Hst).
  - by rewrite Ef, (st_files _ _ _ _ Hst).
  - intros id x. rewrite (inherits_rows db (edges_in db0 es)) by exact (st_edges _ _ _ _ Hst). by apply inherits_same.
Qed.

(** The edge of a resolved reference reads the nodes. *)
Lemma create_edge_nodes db db' : db_nodes db = db_nodes db' -> create_edge db = create_edge db'.
Proof.
  intros En. assert (E : node_at db = node_at db') by (unfold node_at, db_node_by_id; by rewrite En).
  unfold create_edge, promoted_kind, kind_of_target. by rewrite E.
Qed.

Lemma create_edges_stands db0 es h db rs : stands db0 es h db -> create_edges rs db = map (create_edge db0) rs.
Proof. intros Hst. unfold create_edges. by rewrite (create_edge_nodes db db0 (st_nodes _ _ _ _ Hst)). Qed.

(** The promotions make no inheritance edge of another. *)
Lemma promoted_not_inheritance db res : is_wiring_kind (rv_reference_kind (res_original res)) = false ->
  ~ inheritance (create_edge db res).
Proof.
  unfold is_wiring_kind. rewrite bool_decide_eq_false. intros Hk. unfold inheritance. rewrite inheritance_kinds. cbn.
  unfold promoted_kind. set (k := if is_dart_member_read _ then EkCalls else _).
  assert (Hk' : k ∉ WIRING_KINDS) by (unfold k; destruct (is_dart_member_read _); [unfold WIRING_KINDS; set_solver|done]).
  rewrite (bool_decide_eq_false_2 (k = EkExtends)) by (intros ->; apply Hk'; unfold WIRING_KINDS; set_solver). cbn [andb].
  destruct (bool_decide (k = EkCalls) && _); [by intros [|]|].
  intros [E|E]; apply Hk'; rewrite E; unfold WIRING_KINDS; set_solver.
Qed.

End Adjacency.
