(* ===== verification/ResolveSpec.v ===== *)
(** * Resolution passes, described

    The batched pass over the live store and the one over a snapshot do alike;
    what a pass has done when it has come to a reference ([phase_edges],
    [phase_moved], [phase_deferred]), where it may be cut ([cut]), and that the
    batches go through those states to [ended]. *)
From S2P Require Import Prelude Strings Types Rows Db DbRefs DbFacts GraphStore StoreView PathUtil StrOps LangDetect Collation ResolvePass ResolveRuns.

Section Twin.
Context `{SqlScanLaws} `{!SerdeJson} `{!SerdeJsonLaws} `{U : !UnicodeTables} `{!LowercaseLaws} `{!Strategies}.
(** ** The steps that change the store *)

Definition with_db (s : PassStore) (db : Db) : PassStore := mkPassStore db (ps_incomplete s).

(** The commits of a step that runs only when there is something to do. *)
Definition commit_unless {A} (l : list A) (s : PassStore) : list PassStore := match l with [] => [] | _ => [s] end.

Lemma insert_some_edges_runs edges s : wf_db (ps_db s) ->
  let s' := with_db s (edges_in (ps_db s) edges) in runs (insert_some_edges edges) s (commit_unless edges s') tt s'.
Proof.
  intros Hwf. destruct (insert_edges_ok (ps_db s) edges Hwf) as (E & _). destruct edges as [|e es].
  - by destruct s.
  - cbn [insert_some_edges]. unfold runs, committing. rewrite E. done.
Qed.

Lemma delete_rows_runs ids s :
  let s' := with_db s (delete_resolved_unresolved_refs (ps_db s) ids) in runs (delete_rows ids) s (commit_unless ids s') tt s'.
Proof. destruct ids; [by destruct s|done]. Qed.

(** ** Passes that do alike *)

Definition alike {A B} (R : A -> B -> PassStore -> Prop)
    (x : list PassStore * result SqlError (A * PassStore)) (y : list PassStore * result SqlError (B * PassStore)) : Prop :=
  x.1 = y.1
  /\ match x.2, y.2 with
     | Ok (a, s), Ok (b, s') => s = s' /\ R a b s
     | Err e, Err e' => e = e'
     | OutOfFuel, OutOfFuel => True
     | _, _ => False
     end.

Lemma alike_refl {A} (R : A -> A -> PassStore -> Prop) x : (forall a s, x.2 = Ok (a, s) -> R a a s) -> alike R x x.
Proof. intros HR. split; [done|]. destruct (x.2) as [[a s]| |] eqn:E; auto. Qed.

Lemma alike_sym {A B} (R : A -> B -> PassStore -> Prop) x y : alike (fun b a => R a b) y x -> alike R x y.
Proof. intros [E H']. split; [done|]. destruct (x.2) as [[a s]| |], (y.2) as [[b s']| |]; naive_solver. Qed.

Lemma alike_mono {A B} (R R' : A -> B -> PassStore -> Prop) x y :
  (forall a b s, R a b s -> R' a b s) -> alike R x y -> alike R' x y.
Proof. intros HR [E H']. split; [done|]. destruct (x.2) as [[a s]| |], (y.2) as [[b s']| |]; naive_solver. Qed.

Lemma alike_bind {A B A' B'} (R : A -> B -> PassStore -> Prop) (R' : A' -> B' -> PassStore -> Prop)
    (m : Pass A) (m' : Pass B) (f : A -> Pass A') (f' : B -> Pass B') s :
  alike R (m s) (m' s) -> (forall a b s', R a b s' -> alike R' (f a s') (f' b s')) ->
  alike R' ((m ≫= f) s) ((m' ≫= f') s).
Proof.
  unfold mbind, pass_bind. intros [El Hr] Hf. destruct (m s) as [l [[a s1]| |]], (m' s) as [l' [[b s2]| |]]; cbn in El, Hr; subst l'; try done.
  destruct Hr as [<- HR]. destruct (Hf a b s1 HR) as [E H']. destruct (f a s1), (f' b s1). cbn in *. by subst.
Qed.

Lemma alike_runs {A B} (R : A -> B -> PassStore -> Prop) (m : Pass A) (m' : Pass B) s l a b s' :
  runs m s l a s' -> runs m' s l b s' -> R a b s' -> alike R (m s) (m' s).
Proof. intros -> ->. done. Qed.

(** The same step first. *)
Lemma alike_after {A A' B'} (R' : A' -> B' -> PassStore -> Prop) (m : Pass A) (f : A -> Pass A') (f' : A -> Pass B') s l a s' :
  runs m s l a s' -> alike R' (f a s') (f' a s') -> alike R' ((m ≫= f) s) ((m ≫= f') s).
Proof.
  intros Hm Hf. apply (alike_bind (fun x y t => x = a /\ y = a /\ t = s')); [by eapply alike_runs|]. by intros ? ? ? (-> & -> & ->).
Qed.
(** ** The live store and the snapshot *)

Context `{!StrategiesProper}.

(** The states of the two paths before a batch: alike but for what the
    snapshot path keeps in memory, which is true to the store. *)
Record paired (o o' : ResolutionObservation) (st st' : BatchState) (s : PassStore) : Prop := {
  pr_wf : wf_db (ps_db s);
  pr_ascii : ascii_names (ps_db s);
  pr_known : is_Some (rsv_known_names (bt_resolver st));
  pr_resolver : bt_resolver st' = bt_resolver st;
  pr_cursor : bt_cursor st' = bt_cursor st;
  pr_wiring : bt_wiring_phase st' = bt_wiring_phase st;
  pr_stats : bt_stats st' = bt_stats st;
  pr_batches : bt_batches st' = bt_batches st;
  pr_processed : bt_processed st' = bt_processed st;
  pr_observed : exists l, bt_observed st = o :: l /\ bt_observed st' = o' :: l;
  pr_snapshot : match bt_snapshot st' with
                | None => True
                | Some sn => snapshot_of sn (ps_db s) /\ tracks (bt_adjacency st') (ps_db s)
                end
}.

Lemma resolve_batch_alike o o' st st' s batch : paired o o' st st' s ->
  alike (fun '(self, result, _, _) '(self', result', snapshot, adjacency) s' =>
           self' = self /\ result' = result /\ s' = s /\ is_Some (rsv_known_names self)
           /\ exists sn, snapshot = Some sn /\ snapshot_of sn (ps_db s) /\ tracks adjacency (ps_db s))
    (resolve_batch true st batch s) (resolve_batch false st' batch s).
Proof.
  intros Hp. destruct (pr_known _ _ _ _ _ Hp) as [known Hk]. pose proof (pr_wf _ _ _ _ _ Hp) as Hwf.
  assert (Hbase : exists sn adjacency, snapshot_of sn (ps_db s) /\ tracks adjacency (ps_db s)
    /\ runs (match bt_snapshot st' with
             | Some snapshot => mret (snapshot, bt_adjacency st')
             | None => adjacency ← reading build_edge_adjacency; snapshot ← reading snapshot_from_store; mret (snapshot, adjacency)
             end) s [] (sn, adjacency) s).
  { pose proof (pr_snapshot _ _ _ _ _ Hp) as Hsn. destruct (bt_snapshot st') as [sn|].
    - exists sn, (bt_adjacency st'). by destruct Hsn.
    - pose proof (build_edge_adjacency_ok _ Hwf) as Ha. pose proof (snapshot_from_store_ok _ Hwf (pr_ascii _ _ _ _ _ Hp)) as Hs.
      destruct (build_edge_adjacency (ps_db s)) as [adjacency| |] eqn:Ea; cbn in Ha; [|done..].
      destruct (snapshot_from_store (ps_db s)) as [sn| |] eqn:Es; cbn in Hs; [|done..].
      exists sn, adjacency. split_and!; [exact Hs|done|]. eapply runs_read; [exact Ea|]. eapply runs_read; [exact Es|]. done. }
  destruct Hbase as (sn & adjacency & Hsn & Ht & Hbase).
  pose proof (contexts_agree _ _ _ Hwf Hsn Ht) as Hc.
  eapply alike_runs.
  - unfold resolve_batch. eapply runs_read; [reflexivity|]. apply runs_ret.
  - unfold resolve_batch. change (@nil PassStore) with (@nil PassStore ++ []). eapply runs_bind; [exact Hbase|].
    rewrite (pr_resolver _ _ _ _ _ Hp), resolve_chunk_parallel_eq by eauto. rewrite <- (resolve_all_proper _ _ _ _ Hc). apply runs_ret.
  - rewrite (resolve_all_eq _ _ _ known Hk). split_and!; [done..| |eauto].
    exists known. by rewrite push_all_known.
Qed.
Lemma snapshot_of_db sn db db' : db_nodes db' = db_nodes db -> db_files db' = db_files db -> snapshot_of sn db -> snapshot_of sn db'.
Proof. unfold snapshot_of. intros En Ef. by rewrite (store_lookups_same db' db). Qed.

Lemma tracks_db adjacency db db' : db_nodes db' = db_nodes db -> db_edges db' = db_edges db -> tracks adjacency db -> tracks adjacency db'.
Proof. unfold tracks, inherits, node_ids. by intros -> ->. Qed.

Lemma run_batch_alike o o' st st' s total batch : paired o o' st st' s ->
  alike (paired o o') (run_batch true total st batch s) (run_batch false total st' batch s).
Proof.
  intros Hp. unfold run_batch. eapply alike_bind; [by eapply resolve_batch_alike|].
  intros [[[self result] sn0] adj0] [[[self' result'] snapshot] adjacency] s' (-> & -> & -> & Hk & sn & -> & Hsn & Ht).
  set (edges := create_edges (rr_resolved result) (ps_db s)).
  pose proof (pr_wf _ _ _ _ _ Hp) as Hwf. destruct (insert_edges_ok _ edges Hwf) as (_ & Hwf1 & Hins).
  eapply alike_after; [by apply runs_reading|]. fold edges.
  eapply alike_after; [by apply insert_some_edges_runs|].
  eapply alike_after; [apply delete_rows_runs|].
  set (ids := resolved_row_ids (rr_resolved result) ++ constructor_row_ids batch).
  set (db1 := edges_in (ps_db s) edges) in *. cbn [ps_db with_db].
  destruct (delete_resolved_tables db1 ids) as (Edn & Edf & Ede & _).
  eapply alike_runs; [apply runs_ret..|].
  pose proof (pr_ascii _ _ _ _ _ Hp) as Hascii. destruct Hp as [_ _ _ Er Ec Ew Es Eb Ep (l & Eo & Eo') _].
  split; cbn [bt_resolver bt_cursor bt_wiring_phase bt_stats bt_batches bt_processed bt_observed bt_snapshot bt_adjacency ps_db with_db];
    rewrite ?Er, ?Ec, ?Ew, ?Es, ?Eb, ?Ep; try done.
  - by apply delete_resolved_wf.
  - unfold ascii_names. by rewrite Edn, (ei_nodes _ _ _ Hins).
  - rewrite Eo, Eo'. cbn. eauto.
  - split.
    + apply (snapshot_of_db _ (ps_db s)); [by rewrite Edn, (ei_nodes _ _ _ Hins)|by rewrite Edf, (ei_files _ _ _ Hins)|done].
    + apply (tracks_db _ db1); [done..|]. by eapply fold_adjacency_tracks.
Qed.

Lemma batch_loop_alike o o' size total fuel : forall st st' s, paired o o' st st' s ->
  alike (paired o o') (batch_loop fuel true size total st s) (batch_loop fuel false size total st' s).
Proof.
  induction fuel as [|fuel IH]; intros st st' s Hp; [done|]. cbn [batch_loop].
  rewrite (pr_cursor _ _ _ _ _ Hp), (pr_wiring _ _ _ _ _ Hp).
  apply (alike_bind (fun b b' t => b' = b /\ t = s)).
  { apply alike_refl. intros b t. unfold reading. by destruct (unresolved_refs_batch_by_kinds _ _ _ _ _) as [?| |]; intros [= -> ->]. }
  intros batch b' t [-> ->]. destruct batch as [|u us].
  - destruct (bt_wiring_phase st) eqn:Hw.
    + apply IH. destruct Hp as [? ? ? Er Ec Ew Es Eb Ep Ho Hs]. by split.
    + by eapply alike_runs; [apply runs_ret..|].
  - eapply alike_bind; [by apply run_batch_alike|]. intros. by apply IH.
Qed.
Lemma loop_alike_any streaming streaming' self size total nodes fuel s :
  wf_db (ps_db s) -> ascii_names (ps_db s) -> is_Some (rsv_known_names self) ->
  let start b := mkBatch self None ∅ 0 true (rr_stats empty_resolution) 0 0 [Setup nodes total b size] in
  alike (fun st st' _ => bt_resolver st = bt_resolver st' /\ bt_stats st = bt_stats st' /\ tail (bt_observed st) = tail (bt_observed st'))
    (batch_loop fuel streaming size total (start streaming) s) (batch_loop fuel streaming' size total (start streaming') s).
Proof.
  intros Hwf Hascii Hk start. subst start. cbn beta.
  assert (Hst : alike (fun st st' _ => bt_resolver st = bt_resolver st' /\ bt_stats st = bt_stats st' /\ tail (bt_observed st) = tail (bt_observed st'))
    (batch_loop fuel true size total (mkBatch self None ∅ 0 true (rr_stats empty_resolution) 0 0 [Setup nodes total true size]) s)
    (batch_loop fuel false size total (mkBatch self None ∅ 0 true (rr_stats empty_resolution) 0 0 [Setup nodes total false size]) s)).
  { eapply alike_mono; [|apply (batch_loop_alike (Setup nodes total true size) (Setup nodes total false size))].
    - intros st st' t Hp. rewrite (pr_resolver _ _ _ _ _ Hp), (pr_stats _ _ _ _ _ Hp).
      destruct (pr_observed _ _ _ _ _ Hp) as (l & -> & ->). done.
    - split; cbn; eauto. }
  destruct streaming, streaming'; [by apply alike_refl|exact Hst| |by apply alike_refl].
  apply alike_sym. eapply alike_mono; [|exact Hst]. cbn. intros ? ? ? (-> & -> & ->). done.
Qed.

Lemma thresholds_alike self size threshold threshold' s : wf_db (ps_db s) -> ascii_names (ps_db s) ->
  alike (fun '(self, result, observed) '(self', result', observed') _ =>
           self = self' /\ result = result' /\ tail observed = tail observed')
    (resolve_and_persist_batched_inner self size threshold s) (resolve_and_persist_batched_inner self size threshold' s).
Proof.
  intros Hwf Hascii. unfold resolve_and_persist_batched_inner.
  eapply alike_after; [reflexivity|]. eapply alike_after; [by apply runs_reading|].
  eapply alike_after; [by apply runs_reading|]. eapply alike_after; [by apply runs_reading|].
  eapply alike_after; [by apply runs_reading|].
  eapply alike_bind; [apply loop_alike_any; [exact Hwf|exact Hascii|by eexists]|].
  intros st st' t (-> & -> & Ho). eapply (alike_bind (fun a b _ => a = b)); [by apply alike_refl|].
  intros self' ? t' <-. eapply alike_after; [reflexivity|]. by eapply alike_runs; [apply runs_ret..|].
Qed.


End Twin.
(** The search for an inherited member reads the nodes and three kinds of
    edges by their source. *)
Definition MEMBER_KINDS : list EdgeKind := [EkImplements; EkExtends; EkContains].

Section MemberExt.
Context `{SqlScan} `{!SerdeJson} `{!Strategies}.
Variables (db db' : Db).
Hypothesis Hnode : node_at db = node_at db'.
Hypothesis Hedges : forall id k, k ∈ MEMBER_KINDS -> db_edges_by_source_kind db id (Some k) = db_edges_by_source_kind db' id (Some k).

Lemma inherited_edges_ext member r es : forall seen next,
  inherited_edges db member r es seen next = inherited_edges db' member r es seen next.
Proof.
  induction es as [|e es IH]; intros sn next; [done|]. cbn [inherited_edges]. rewrite Hnode.
  destruct (node_at db' (edge_target e)) as [n|]; [|by apply IH].
  rewrite (Hedges (node_id n) EkContains) by (unfold MEMBER_KINDS; set_solver).
  repeat (case_match; try (by apply IH)); done.
Qed.

Lemma inherited_frontier_ext member r frontier : forall seen next,
  inherited_frontier db member r frontier seen next = inherited_frontier db' member r frontier seen next.
Proof.
  induction frontier as [|n frontier IH]; intros sn next; [done|]. cbn [inherited_frontier mbind list_bind].
  rewrite (Hedges (node_id n) EkImplements), (Hedges (node_id n) EkExtends) by (unfold MEMBER_KINDS; set_solver).
  rewrite inherited_edges_ext. case_match; [done|]. case_match. apply IH.
Qed.

Lemma inherited_rounds_ext member r rounds : forall frontier seen,
  inherited_rounds db member r rounds frontier seen = inherited_rounds db' member r rounds frontier seen.
Proof.
  induction rounds as [|rounds IH]; intros frontier sn; [done|]. cbn [inherited_rounds]. rewrite inherited_frontier_ext.
  destruct frontier; [done|]. case_match; [done|]. case_match. apply IH.
Qed.

End MemberExt.

(** ** The passes, described *)

Section Described.
Context `{SqlScanLaws} `{!SerdeJson} `{!SerdeJsonLaws} `{U : !UnicodeTables} `{!Strategies} `{!StrategiesProper} `{!StrategiesLaws}.

Definition names_of (db : Db) : option (gset string) := Some (known_node_names (store_context db)).

Definition edges_of (db : Db) (c : ResolutionContext) (l : list UnresolvedRef) : list Edge :=
  map (create_edge db) (resolved_of (names_of db) c l).

(** The rows a list of references leaves resolved: those of what was found, and
    those a constructor's name marks as internal. *)
Definition moved_of (db : Db) (c : ResolutionContext) (l : list UnresolvedRef) : list Z :=
  resolved_row_ids (resolved_of (names_of db) c l) ++ constructor_row_ids l.

(** The wiring references first, in the context there is; the others in the
    context with the edges of those. *)
Definition wiring_edges (db : Db) : list Edge := edges_of db (store_context db) (phase_list db true).

(** Those edges move no wiring reference: whichever of them are in, an import or
    a supertype comes to the same. A strategy that reads the supertypes of a
    wiring reference's receiver ([match_method_call], for a dotted name) may
    break this. *)
Definition wiring_stable (db : Db) : Prop := forall u es, u ∈ phase_list db true -> (forall e, e ∈ es -> e ∈ wiring_edges db) ->
  outcome (names_of db) (store_context (edges_in db es)) u = outcome (names_of db) (store_context db) u.

Definition wired (db : Db) : ResolutionContext := store_context (edges_in db (wiring_edges db)).
Definition phase_context (db : Db) (b : bool) : ResolutionContext := if b then store_context db else wired db.

(** What a pass has done when it has come to the end of [P] in a phase. *)
Definition phase_edges (db : Db) (b : bool) (P : list UnresolvedRef) : list Edge :=
  (if b then [] else wiring_edges db) ++ edges_of db (phase_context db b) P.
Definition phase_moved (db : Db) (b : bool) (P : list UnresolvedRef) : list Z :=
  (if b then [] else moved_of db (store_context db) (phase_list db true)) ++ moved_of db (phase_context db b) P.
Definition phase_deferred (db : Db) (b : bool) (P : list UnresolvedRef) : list DeferredIntent :=
  (if b then [] else deferred_of (names_of db) (store_context db) (phase_list db true))
  ++ deferred_of (names_of db) (phase_context db b) P.

Definition chain_refs (ds : list DeferredIntent) : list RefView :=
  omap (fun d => match d with ChainRef r => Some r | ThisMemberRef _ => None end) ds.
Definition member_refs (ds : list DeferredIntent) : list RefView :=
  omap (fun d => match d with ThisMemberRef r => Some r | ChainRef _ => None end) ds.

Definition used_edges (db : Db) : list Edge := phase_edges db false (phase_list db false).
Definition all_deferred (db : Db) : list DeferredIntent := phase_deferred db false (phase_list db false).
Definition chain_edges (db : Db) : list Edge :=
  map (create_edge db) (omap (chain_match (store_context (edges_in db (used_edges db)))) (chain_refs (all_deferred db))).
Definition member_edges (db : Db) : list Edge :=
  map (create_edge db) (omap (this_member_match (edges_in db (used_edges db ++ chain_edges db))) (member_refs (all_deferred db))).

Definition all_edges (db : Db) : list Edge := used_edges db ++ chain_edges db ++ member_edges db.
Definition all_moved (db : Db) : list Z := phase_moved db false (phase_list db false).

(** What becomes of a reference in its own phase. *)
Definition settled (db : Db) (u : UnresolvedRef) : option ResolvedRef * option DeferredIntent :=
  outcome (names_of db) (phase_context db (is_wiring_reference u)) u.
Definition handled (db : Db) (u : UnresolvedRef) : Prop :=
  is_Some (settled db u).1 \/ is_constructor_name (ref_reference_name u) = true.

(** *** Outcomes *)

Lemma batch_ext known c c' l : (forall u, u ∈ l -> outcome known c u = outcome known c' u) ->
  resolved_of known c l = resolved_of known c' l /\ deferred_of known c l = deferred_of known c' l
  /\ resolution known c l = resolution known c' l.
Proof.
  intros Hl. assert (E : resolved_of known c l = resolved_of known c' l
    /\ deferred_of known c l = deferred_of known c' l /\ unresolved_of known c l = unresolved_of known c' l).
  { unfold resolved_of, deferred_of, unresolved_of. induction l as [|u l IH]; [done|].
    rewrite !omap_cons, (Hl u) by set_solver. destruct IH as (-> & -> & ->); [|done]. intros u' Hu. apply Hl. set_solver. }
  destruct E as (Er & Ed & Eu). split_and!; [done..|]. unfold resolution. by rewrite Er, Eu.
Qed.

Lemma elem_of_resolved_of known c l res : res ∈ resolved_of known c l <-> exists u, u ∈ l /\ (outcome known c u).1 = Some res.
Proof. apply list_elem_of_omap. Qed.

Lemma outcome_site known c u res : (outcome known c u).1 = Some res -> same_site (to_ref_view u) (res_original res).
Proof. unfold outcome. destruct (resolve_one_pure _ _ _) as [o d] eqn:E. cbn. intros ->. by eapply resolved_same. Qed.

Lemma outcome_context known c c' u : context_eq c c' -> outcome known c u = outcome known c' u.
Proof. intros Hc. unfold outcome. by rewrite (resolve_one_pure_proper _ _ eq_refl _ _ Hc _ _ eq_refl). Qed.

Lemma elem_of_moved_of db c l x : x ∈ moved_of db c l
  <-> exists u, u ∈ l /\ ref_id u = Some x
      /\ (is_Some (outcome (names_of db) c u).1 \/ is_constructor_name (ref_reference_name u) = true).
Proof.
  unfold moved_of, resolved_row_ids, constructor_row_ids. rewrite elem_of_app, !list_elem_of_omap.
  setoid_rewrite elem_of_resolved_of. split.
  - intros [(res & (u & Hu & Ho) & Hi)|(u & Hu & Hi)].
    + exists u. split_and!; [done| |left; by eexists]. destruct (outcome_site _ _ _ _ Ho) as [E _]. by rewrite E in Hi.
    + exists u. destruct (is_constructor_name _); [auto|done].
  - intros (u & Hu & Hi & [[res Ho]|Hc]).
    + left. exists res. split; [eauto|]. destruct (outcome_site _ _ _ _ Ho) as [E _]. by rewrite E.
    + right. exists u. by rewrite Hc.
Qed.

Lemma phase_list_id db b u : u ∈ phase_list db b -> ref_id u = Some (uid u).
Proof.
  intros [(r & _ & Hu)%elem_of_parsed _]%elem_of_phase_list. by destruct (ref_row_fields _ _ Hu) as (-> & -> & _).
Qed.

(** *** What has been seen of the references *)

Definition seen (db : Db) (b : bool) (P : list UnresolvedRef) (u : UnresolvedRef) : Prop :=
  u ∈ P \/ (b = false /\ u ∈ phase_list db true).

Definition upto (db : Db) (b : bool) (P : list UnresolvedRef) : Prop := forall u, u ∈ P -> u ∈ phase_list db b.

Lemma settled_in db b u : u ∈ phase_list db b -> settled db u = outcome (names_of db) (phase_context db b) u.
Proof. intros [_ Hb]%elem_of_phase_list. unfold settled. by rewrite Hb. Qed.

Lemma elem_of_phase_moved db b P x : upto db b P ->
  x ∈ phase_moved db b P <-> exists u, seen db b P u /\ uid u = x /\ handled db u.
Proof.
  intros HP. unfold phase_moved, seen, handled. rewrite elem_of_app, elem_of_moved_of.
  assert (Hfirst : x ∈ (if b then [] else moved_of db (store_context db) (phase_list db true))
    <-> exists u, (b = false /\ u ∈ phase_list db true) /\ uid u = x /\ handled db u).
  { unfold handled. destruct b; [split; [set_solver|by intros (? & [? _] & _)]|]. rewrite elem_of_moved_of. split.
    - intros (u & Hu & Hi & Hh). exists u. rewrite (settled_in db true u Hu). split_and!; [done..| |done].
      rewrite (phase_list_id _ _ _ Hu) in Hi. by injection Hi.
    - intros (u & [_ Hu] & <- & Hh). exists u. rewrite (settled_in db true u Hu) in Hh. split_and!; [done| |done]. by apply phase_list_id in Hu. }
  rewrite Hfirst. unfold handled. split.
  - intros [(u & ? & ? & ?)|(u & Hu & Hi & Hh)]; [eauto 10|]. exists u. rewrite (settled_in db b u (HP u Hu)).
    split_and!; [by left| |done]. rewrite (phase_list_id _ _ _ (HP u Hu)) in Hi. by injection Hi.
  - intros (u & [Hu|Hu] & <- & Hh); [|eauto 10]. right. exists u. rewrite (settled_in db b u (HP u Hu)) in Hh.
    split_and!; [done|by apply (phase_list_id db b), HP|done].
Qed.

Lemma elem_of_phase_edges db b P e : upto db b P ->
  e ∈ phase_edges db b P <-> exists u res, seen db b P u /\ (settled db u).1 = Some res /\ e = create_edge db res.
Proof.
  intros HP. unfold phase_edges, edges_of, seen. rewrite elem_of_app, elem_of_map. setoid_rewrite elem_of_resolved_of. split.
  - intros [He|(res & -> & u & Hu & Ho)].
    + destruct b; [set_solver|]. unfold wiring_edges, edges_of in He. apply elem_of_map in He as (res & -> & He).
      apply elem_of_resolved_of in He as (u & Hu & Ho). exists u, res. rewrite (settled_in db true u Hu). auto.
    + exists u, res. rewrite (settled_in db b u (HP u Hu)). auto.
  - intros (u & res & [Hu|[-> Hu]] & Ho & ->).
    + right. exists res. rewrite (settled_in db b u (HP u Hu)) in Ho. eauto.
    + left. unfold wiring_edges, edges_of. apply elem_of_map. exists res. split; [done|].
      apply elem_of_resolved_of. exists u. by rewrite (settled_in db true u Hu) in Ho.
Qed.

Lemma phase_edges_app db b P P' : phase_edges db b (P ++ P') = phase_edges db b P ++ edges_of db (phase_context db b) P'.
Proof. unfold phase_edges, edges_of, resolved_of. by rewrite omap_app, map_app, (assoc_L (++)). Qed.

Lemma phase_deferred_app db b P P' :
  phase_deferred db b (P ++ P') = phase_deferred db b P ++ deferred_of (names_of db) (phase_context db b) P'.
Proof. unfold phase_deferred, deferred_of. by rewrite omap_app, (assoc_L (++)). Qed.

(** The edges of references that are not wiring are no inheritance. *)
Lemma settled_not_inheritance db db' u res : is_wiring_reference u = false -> (settled db u).1 = Some res ->
  ~ inheritance (create_edge db' res).
Proof.
  intros Hw Ho. apply promoted_not_inheritance. destruct (outcome_site _ _ _ _ Ho) as (_ & -> & _). exact Hw.
Qed.

Lemma phase_inheritance db P e : upto db false P -> inheritance e -> e ∈ phase_edges db false P <-> e ∈ wiring_edges db.
Proof.
  intros HP He. unfold phase_edges. rewrite elem_of_app. split; [|by left]. intros [?|Hin]; [done|]. exfalso.
  unfold edges_of in Hin. apply elem_of_map in Hin as (res & -> & (u & Hu & Ho)%elem_of_resolved_of).
  revert He. apply (settled_not_inheritance db db u res); [by apply HP, elem_of_phase_list in Hu as [_ ?]|].
  by rewrite (settled_in db false u (HP u Hu)).
Qed.

(** In its phase a reference comes to the same wherever the pass stands. *)
Lemma phase_outcome db0 b P h db u : wf_db db0 -> wiring_stable db0 -> stands db0 (phase_edges db0 b P) h db -> upto db0 b P ->
  u ∈ phase_list db0 b -> outcome (names_of db0) (store_context db) u = outcome (names_of db0) (phase_context db0 b) u.
Proof.
  intros Hwf Hstable Hst HP Hu. destruct b.
  - transitivity (outcome (names_of db0) (store_context (edges_in db0 (phase_edges db0 true P))) u).
    + apply outcome_context. by eapply stands_context.
    + apply Hstable; [done|]. intros e He. apply elem_of_phase_edges in He as (u' & res & [Hu'|[? _]] & Ho & ->); [|done..].
      unfold wiring_edges, edges_of. apply elem_of_map. exists res. split; [done|]. apply elem_of_resolved_of. exists u'.
      rewrite (settled_in db0 true u') in Ho by auto. auto.
  - apply outcome_context. eapply stands_context; [done..|]. intros e He. by apply phase_inheritance.
Qed.

(** *** Where a pass may be cut *)

(** The edges so far are the first of all of them, and what moved so far has
    its edge in. *)
Record cut (db : Db) (es : list Edge) (h : list Z) : Prop := {
  cut_edges : exists rest, all_edges db = es ++ rest;
  cut_moved : forall u, u ∈ gv_refs (view_of db) -> uid u ∈ h ->
    handled db u /\ forall res, (settled db u).1 = Some res -> create_edge db res ∈ es
}.

Lemma phase_edges_prefix db b P R : phase_list db b = P ++ R -> exists rest, all_edges db = phase_edges db b P ++ rest.
Proof.
  intros Hl. unfold all_edges, used_edges. destruct b.
  - unfold phase_edges, wiring_edges at 1. rewrite Hl. cbn [phase_context]. unfold edges_of, resolved_of. rewrite omap_app, map_app, <- !(assoc_L (++)). eauto.
  - rewrite Hl, phase_edges_app, <- !(assoc_L (++)). eauto.
Qed.

Lemma upto_prefix db b P R : phase_list db b = P ++ R -> upto db b P.
Proof. intros Hl u Hu. rewrite Hl. set_solver. Qed.

Lemma seen_mono db b P P' u : seen db b P u -> seen db b (P ++ P') u.
Proof. unfold seen. rewrite elem_of_app. tauto. Qed.

Lemma seen_ref db b P u : upto db b P -> seen db b P u -> u ∈ gv_refs (view_of db).
Proof. intros HP [Hu|[_ Hu]]; [apply HP in Hu|]; by apply elem_of_phase_list in Hu as [? _]. Qed.

Lemma phase_cut db b P B R : wf_db db -> phase_list db b = (P ++ B) ++ R ->
  cut db (phase_edges db b (P ++ B)) (phase_moved db b P) /\ cut db (phase_edges db b (P ++ B)) (phase_moved db b (P ++ B)).
Proof.
  intros Hwf Hl. pose proof (upto_prefix _ _ _ _ Hl) as Hup.
  assert (HupP : upto db b P) by (apply (upto_prefix _ _ _ (B ++ R)); by rewrite Hl, (assoc_L (++))).
  assert (Hm : forall Q u, upto db b Q -> (forall u, u ∈ Q -> u ∈ P ++ B) -> u ∈ gv_refs (view_of db) -> uid u ∈ phase_moved db b Q ->
    handled db u /\ forall res, (settled db u).1 = Some res -> create_edge db res ∈ phase_edges db b (P ++ B)).
  { intros Q u HQ Hsub Hu Hm. apply elem_of_phase_moved in Hm as (u' & Hs & Ei & Hh); [|done].
    assert (u' = u) as -> by (apply (refs_by_id db); [done|by eapply seen_ref|done..]).
    split; [done|]. intros res Hr. apply elem_of_phase_edges; [done|]. exists u, res. split_and!; [|done..].
    destruct Hs as [Hs|Hs]; [left; auto|by right]. }
  split; (split; [by eapply phase_edges_prefix|]); intros u Hu Hin; [apply (Hm P)|apply (Hm (P ++ B))]; auto.
  set_solver.
Qed.

(** What every state a pass commits satisfies, with the marker [m], but the
    last. *)
Definition in_order (m : bool) (db : Db) (s : PassStore) : Prop :=
  ps_incomplete s = m /\ exists es h, stands db es h (ps_db s) /\ cut db es h.

Definition does {A} (I : PassStore -> Prop) (Q : A -> PassStore -> Prop)
    (x : list PassStore * result SqlError (A * PassStore)) : Prop :=
  Forall I x.1 /\ match x.2 with Ok (a, s) => Q a s | _ => False end.

Lemma does_bind {A B} I (Q : A -> PassStore -> Prop) (Q' : B -> PassStore -> Prop) (m : Pass A) (f : A -> Pass B) s :
  does I Q (m s) -> (forall a s', Q a s' -> does I Q' (f a s')) -> does I Q' ((m ≫= f) s).
Proof.
  unfold does, mbind, pass_bind. intros [Hl Hr] Hf. destruct (m s) as [l [[a s']| |]]; cbn in *; [|done..].
  destruct (Hf a s' Hr) as [Hl' Hr']. destruct (f a s') as [l' r]. cbn in *. split; [by apply Forall_app|done].
Qed.

Lemma does_runs {A} I (Q : A -> PassStore -> Prop) (m : Pass A) s l a s' :
  runs m s l a s' -> Forall I l -> Q a s' -> does I Q (m s).
Proof. intros -> Hl HQ. done. Qed.

Lemma does_weaken {A} (I I' : PassStore -> Prop) (Q : A -> PassStore -> Prop) x :
  (forall s, I s -> I' s) -> does I Q x -> does I' Q x.
Proof. intros HI [Hl Hr]. split; [by eapply Forall_impl|done]. Qed.

(** A first step that returns. *)
Lemma does_after {A B} I (Q' : B -> PassStore -> Prop) (m : Pass A) (f : A -> Pass B) s l a s' :
  runs m s l a s' -> Forall I l -> does I Q' (f a s') -> does I Q' ((m ≫= f) s).
Proof. intros Hm Hl Hf. eapply (does_bind I (fun x t => x = a /\ t = s')); [by eapply does_runs|]. by intros ? ? [-> ->]. Qed.

Lemma Forall_commit {A} I (l : list A) s : I s -> Forall I (commit_unless l s).
Proof. intros Hs. destruct l; cbn; auto. Qed.

(** *** The loop *)

Definition start_resolver (db : Db) : Resolver := warm_caches (store_context db) new_resolver.

Record loop_inv (db : Db) (b : bool) (P R : list UnresolvedRef) (st : BatchState) (s : PassStore) : Prop := {
  li_list : phase_list db b = P ++ R;
  li_wiring : bt_wiring_phase st = b;
  li_resolver : bt_resolver st = push_all (phase_deferred db b P) (start_resolver db);
  li_before : forall u, u ∈ P -> (uid u <= bt_cursor st)%Z;
  li_after : forall u, u ∈ R -> (bt_cursor st < uid u)%Z;
  li_stands : stands db (phase_edges db b P) (phase_moved db b P) (ps_db s);
  li_marked : ps_incomplete s = true
}.

Lemma rest_not_moved db b P R u : wf_db db -> phase_list db b = P ++ R -> u ∈ R -> uid u ∉ phase_moved db b P.
Proof.
  intros Hwf Hl Hu Hm. pose proof (upto_prefix _ _ _ _ Hl) as Hup.
  apply elem_of_phase_moved in Hm as (u' & Hs & Ei & _); [|done].
  assert (Hu' : u ∈ phase_list db b) by (rewrite Hl; set_solver).
  assert (u' = u) as ->.
  { apply (refs_by_id db); [done|by eapply seen_ref|by apply elem_of_phase_list in Hu' as [? _]|done]. }
  destruct Hs as [Hs|[-> Hs]].
  - pose proof (phase_list_sorted db b Hwf) as Hsort. rewrite Hl, map_app in Hsort.
    assert (uid u < uid u)%Z; [|lia]. eapply StronglySorted_app_1_elem_of; [exact Hsort|..]; apply elem_of_map; eauto.
  - apply elem_of_phase_list in Hs as [_ Hs]. apply elem_of_phase_list in Hu' as [_ Hu']. congruence.
Qed.

(** The next cursor is past the batch, and before the rest. *)
Lemma next_cursor db b P B R cursor : wf_db db -> phase_list db b = P ++ B ++ R -> B <> [] ->
  let cursor' := default cursor (last (sort_by Z.leb (omap ref_id B))) in
  (forall u, u ∈ P ++ B -> (uid u <= cursor')%Z) /\ (forall u, u ∈ R -> (cursor' < uid u)%Z).
Proof.
  intros Hwf Hl HB. assert (Ei : omap ref_id B = map uid B).
  { assert (HB' : forall u, u ∈ B -> u ∈ phase_list db b) by (intros u Hu; rewrite Hl; set_solver). clear Hl HB.
    induction B as [|u B IH]; [done|]. rewrite omap_cons, (phase_list_id db b u) by (apply HB'; set_solver).
    cbn. rewrite IH by (intros u' Hu'; apply HB'; set_solver). done. }
  rewrite Ei. pose proof (phase_list_sorted db b Hwf) as Hs. rewrite Hl, !map_app in Hs.
  assert (Hmax : exists u, u ∈ B /\ last (sort_by Z.leb (map uid B)) = Some (uid u) /\ forall u', u' ∈ B -> (uid u' <= uid u)%Z).
  { assert (Hss : Sorted (fun a b => Z.leb a b = true) (sort_by Z.leb (map uid B))).
    { apply sort_by_sorted. intros x y. rewrite !Z.leb_le. lia. }
    destruct (last (sort_by Z.leb (map uid B))) as [m|] eqn:Em.
    - assert (Hm : m ∈ map uid B) by (apply (elem_of_sort_by Z.leb), last_Some_elem_of, Em).
      apply elem_of_map in Hm as (u & -> & Hu). exists u. split_and!; [done..|]. intros u' Hu'.
      apply last_Some in Em as [l' Em]. rewrite Em in Hss. apply Sorted_StronglySorted in Hss; [|intros x y z; rewrite !Z.leb_le; lia].
      assert (Hin : uid u' ∈ l' ++ [uid u]) by (rewrite <- Em; apply elem_of_sort_by, elem_of_map; eauto).
      apply elem_of_app in Hin as [Hin| ->%list_elem_of_singleton]; [|done].
      apply Z.leb_le. eapply (StronglySorted_app_1_elem_of _ _ _ _ _ Hss); [done|set_solver].
    - apply last_None in Em. assert (Hlen : length (sort_by Z.leb (map uid B)) = length B) by (by rewrite length_sort_by, length_map).
      rewrite Em in Hlen. by destruct B. }
  destruct Hmax as (m & Hm & -> & Hle). cbn. split.
  - intros u [Hu|Hu]%elem_of_app; [|auto]. apply Z.lt_le_incl.
    eapply (StronglySorted_app_1_elem_of _ _ _ _ _ Hs); [apply elem_of_map; eauto|]. apply elem_of_app. left. apply elem_of_map. eauto.
  - intros u Hu. rewrite (assoc_L (++)) in Hs. eapply (StronglySorted_app_1_elem_of _ _ _ _ _ Hs); [|apply elem_of_map; eauto].
    apply elem_of_app. right. apply elem_of_map. eauto.
Qed.

Lemma push_all_app ds ds' self : push_all (ds ++ ds') self = push_all ds' (push_all ds self).
Proof. apply fold_left_app. Qed.

Lemma moved_of_app db c l l' x : x ∈ moved_of db c (l ++ l') <-> x ∈ moved_of db c l \/ x ∈ moved_of db c l'.
Proof. rewrite !elem_of_moved_of. setoid_rewrite elem_of_app. naive_solver. Qed.

Lemma phase_moved_app db b P B x :
  x ∈ phase_moved db b (P ++ B) <-> x ∈ phase_moved db b P ++ moved_of db (phase_context db b) B.
Proof. unfold phase_moved. rewrite !elem_of_app, moved_of_app. tauto. Qed.

(** What is found in a batch, and put off, where a pass stands. *)
Lemma resolve_all_stands db b P h s batch rsv : wf_db db -> wiring_stable db -> stands db (phase_edges db b P) h (ps_db s) -> upto db b P -> upto db b batch ->
  rsv_known_names rsv = names_of db ->
  resolve_all (store_context (ps_db s)) rsv batch
  = (push_all (deferred_of (names_of db) (phase_context db b) batch) rsv, resolution (names_of db) (phase_context db b) batch).
Proof.
  intros Hwf Hstable Hst HP HB Hk. rewrite (resolve_all_eq _ _ _ (known_node_names (store_context db))) by exact Hk. fold (names_of db).
  destruct (batch_ext (names_of db) (store_context (ps_db s)) (phase_context db b) batch) as (_ & -> & ->); [|done].
  intros u Hu. by eapply phase_outcome; eauto.
Qed.

(** Insert the edges of a batch, then move its rows. *)
Lemma insert_then_move {A} db b P B R s (k : Pass A) Q : wf_db db -> phase_list db b = (P ++ B) ++ R ->
  stands db (phase_edges db b P) (phase_moved db b P) (ps_db s) -> ps_incomplete s = true ->
  (forall s', stands db (phase_edges db b (P ++ B)) (phase_moved db b (P ++ B)) (ps_db s') -> ps_incomplete s' = true ->
     does (in_order true db) Q (k s')) ->
  does (in_order true db) Q ((_ ← insert_some_edges (edges_of db (phase_context db b) B);
                         _ ← delete_rows (moved_of db (phase_context db b) B); k) s).
Proof.
  intros Hwf Hl Hst Hm Hk. set (edges := edges_of db (phase_context db b) B). set (ids := moved_of db (phase_context db b) B).
  destruct (phase_cut db b P B R Hwf Hl) as [Hc1 Hc2].
  pose proof (stands_insert _ _ _ _ edges Hst) as Hst1. unfold edges in Hst1. rewrite <- phase_edges_app in Hst1. fold edges in Hst1.
  pose proof (stands_delete _ _ _ _ ids Hst1) as Hst2.
  assert (Hst2' : stands db (phase_edges db b (P ++ B)) (phase_moved db b (P ++ B))
                    (delete_resolved_unresolved_refs (edges_in (ps_db s) edges) ids)).
  { eapply stands_moved; [exact Hst2|]. intros r _. by rewrite phase_moved_app. }
  eapply does_after; [apply insert_some_edges_runs, (st_wf _ _ _ _ Hst)|apply Forall_commit; split; [exact Hm|cbn; eauto]|].
  eapply does_after; [apply delete_rows_runs|apply Forall_commit; split; [exact Hm|cbn; eauto]|].
  apply Hk; [exact Hst2'|exact Hm].
Qed.

Lemma run_batch_does db b P B R st s total : wf_db db -> wiring_stable db -> loop_inv db b P (B ++ R) st s -> B <> [] ->
  does (in_order true db) (fun st' s' => loop_inv db b (P ++ B) R st' s') (run_batch true total st B s).
Proof.
  intros Hwf Hstable [Hl Hw Hr Hb Ha Hst Hm] HB.
  assert (Hl' : phase_list db b = (P ++ B) ++ R) by (by rewrite Hl, (assoc_L (++))).
  pose proof (upto_prefix _ _ _ _ Hl) as HP. pose proof (upto_prefix _ _ _ _ Hl') as HPB.
  assert (HupB : upto db b B) by (intros u Hu; apply HPB; set_solver).
  assert (Hk : rsv_known_names (bt_resolver st) = names_of db) by (by rewrite Hr, push_all_known).
  unfold run_batch, resolve_batch. eapply does_after.
  { eapply runs_read; [reflexivity|apply runs_ret]. }
  { constructor. }
  rewrite (resolve_all_stands db b P (phase_moved db b P)) by done.
  eapply does_after; [by apply runs_reading|constructor|].
  change (rr_resolved (resolution ?k ?c B)) with (resolved_of k c B).
  rewrite (create_edges_stands _ _ _ _ _ Hst). fold (edges_of db (phase_context db b) B).
  fold (moved_of db (phase_context db b) B).
  apply (insert_then_move db b P B R s _ _ Hwf Hl' Hst Hm). intros s' Hst' Hm'.
  eapply does_runs; [apply runs_ret|constructor|].
  destruct (next_cursor db b P B R (bt_cursor st) Hwf Hl HB) as [Hc1 Hc2].
  split; cbn [bt_wiring_phase bt_resolver bt_cursor]; try done.
  by rewrite phase_deferred_app, push_all_app, Hr.
Qed.

Definition positive_ids (db : Db) : Prop := Forall (fun r => (0 < rr_id r)%Z) (db_unresolved_refs db).

Lemma positive_uid db b u : positive_ids db -> u ∈ phase_list db b -> (0 < uid u)%Z.
Proof.
  intros Hp [(r & Hr & Hu)%elem_of_parsed _]%elem_of_phase_list. destruct (ref_row_fields _ _ Hu) as (_ & -> & _).
  exact (Forall_elem Hp Hr).
Qed.

Lemma next_phase db st s : positive_ids db -> loop_inv db true (phase_list db true) [] st s ->
  loop_inv db false [] (phase_list db false)
    (mkBatch (bt_resolver st) (bt_snapshot st) (bt_adjacency st) 0 false (bt_stats st) (bt_batches st) (bt_processed st) (bt_observed st)) s.
Proof.
  intros Hpos [Hl Hw Hr Hb Ha Hst Hm]. split; cbn [bt_wiring_phase bt_resolver bt_cursor]; try done.
  - rewrite Hr. unfold phase_deferred. cbn. by rewrite app_nil_r.
  - set_solver.
  - intros u Hu. by apply (positive_uid db false).
  - unfold phase_edges, phase_moved in *. cbn in *. by rewrite !app_nil_r.
Qed.

Lemma batch_loop_does db size total : wf_db db -> wiring_stable db -> positive_ids db -> 0 < size ->
  forall fuel b P R st s, loop_inv db b P R st s ->
  length R + (if b then length (phase_list db false) + 1 else 0) < fuel ->
  does (in_order true db) (fun st' s' => loop_inv db false (phase_list db false) [] st' s') (batch_loop fuel true size total st s).
Proof.
  intros Hwf Hstable Hpos Hsize. induction fuel as [|fuel IH]; intros b P R st s Hinv Hf; [lia|]. cbn [batch_loop].
  pose proof Hinv as [Hl Hw Hr Hb Ha Hst Hm]. rewrite Hw.
  eapply does_after; [apply runs_reading, (batch_is_next _ _ _ _ _ _ _ _ size Hwf Hst Hl Hb)|constructor|].
  { intros u Hu. split; [auto|]. by apply (rest_not_moved db b P R). }
  destruct R as [|u R].
  - rewrite take_nil, app_nil_r in *. destruct b.
    + rewrite <- Hl in Hinv. apply (IH false [] (phase_list db false)); [by apply next_phase|]. cbn in *. lia.
    + eapply does_runs; [apply runs_ret|constructor|]. by rewrite Hl.
  - rewrite <- (take_drop size (u :: R)) in Hinv. destruct (take size (u :: R)) as [|u' B] eqn:EB.
    { destruct size; [lia|]. done. }
    eapply does_bind; [by apply run_batch_does; [| |exact Hinv|]|]. intros st' s' Hinv'.
    apply (IH b _ _ _ _ Hinv'). rewrite length_drop. cbn [length] in *. destruct b; lia.
Qed.

(** *** What was put off *)

Lemma push_all_lists ds rsv :
  rsv_deferred_chain_refs (push_all ds rsv) = rsv_deferred_chain_refs rsv ++ chain_refs ds
  /\ rsv_deferred_this_member_refs (push_all ds rsv) = rsv_deferred_this_member_refs rsv ++ member_refs ds.
Proof.
  revert rsv. induction ds as [|d ds IH]; intros rsv; [by rewrite !app_nil_r|].
  unfold chain_refs, member_refs. rewrite !omap_cons. cbn [push_all fold_left]. fold (push_all ds (push_deferred (Some d) rsv)).
  destruct (IH (push_deferred (Some d) rsv)) as [-> ->]. destruct d; cbn; by rewrite <- ?(assoc_L (++)).
Qed.

Lemma chain_match_context c c' r : context_eq c c' -> chain_match c r = chain_match c' r.
Proof.
  intros Hc. unfold chain_match. apply gate_language_proper; [done| |done].
  rewrite (match_method_call_proper _ _ Hc _ _ eq_refl), (match_scoped_call_chain_proper _ _ Hc _ _ eq_refl).
  by rewrite (match_dotted_call_chain_proper _ _ Hc _ _ eq_refl).
Qed.

Lemma this_member_match_ext db db' r : db_nodes db = db_nodes db' -> context_eq (store_context db) (store_context db') ->
  (forall id k, k ∈ MEMBER_KINDS -> db_edges_by_source_kind db id (Some k) = db_edges_by_source_kind db' id (Some k)) ->
  this_member_match db r = this_member_match db' r.
Proof.
  intros En Hc He. assert (Hn : node_at db = node_at db') by (unfold node_at, db_node_by_id; by rewrite En).
  assert (Hname : db_nodes_by_name db = db_nodes_by_name db') by (unfold db_nodes_by_name, query_nodes; by rewrite En).
  unfold this_member_match. destruct (str_strip_prefix "this." _) as [member|]; [|done]. cbn [mbind option_bind].
  case_match; [done|]. rewrite Hn. destruct (node_at db' _) as [written|]; [|done]. cbn [mbind option_bind].
  rewrite (this_scope_caller_proper _ _ Hc _ _ eq_refl). destruct (class_of_caller _) as [class_name|]; [|done]. cbn [mbind option_bind].
  unfold find_inherited_member. rewrite Hname. by rewrite (inherited_rounds_ext db db' Hn He).
Qed.

Lemma source_kind_rows db db' id k : db_edges db = db_edges db' ->
  db_edges_by_source_kind db id (Some k) = db_edges_by_source_kind db' id (Some k).
Proof. intros Ee. unfold db_edges_by_source_kind, query_edges. by rewrite Ee. Qed.

Lemma insert_resolved_does {A} m db es h s resolved (k : nat -> Pass A) Q : wf_db db -> stands db es h (ps_db s) -> ps_incomplete s = m ->
  cut db (es ++ map (create_edge db) resolved) h ->
  (forall n s', stands db (es ++ map (create_edge db) resolved) h (ps_db s') -> ps_incomplete s' = m -> does (in_order m db) Q (k n s')) ->
  does (in_order m db) Q ((insert_resolved resolved ≫= k) s).
Proof.
  intros Hwf Hst Hm Hc Hk. pose proof (stands_insert _ _ _ _ (map (create_edge db) resolved) Hst) as Hst'.
  destruct resolved as [|res resolved].
  - eapply does_after; [apply runs_ret|constructor|]. apply Hk; [by rewrite app_nil_r|done].
  - set (rs := res :: resolved) in *. unfold rs at 1. cbn [insert_resolved].
    eapply does_after; [|shelve|].
    { eapply runs_read; [reflexivity|]. eapply runs_bind; [apply insert_some_edges_runs, (st_wf _ _ _ _ Hst)|apply runs_ret]. }
    fold rs. rewrite (create_edges_stands _ _ _ _ rs Hst). apply Hk; [exact Hst'|exact Hm].
    Unshelve. fold rs. rewrite (create_edges_stands _ _ _ _ rs Hst), app_nil_r. apply Forall_commit. split; [exact Hm|]. cbn. eauto.
Qed.

Lemma last_cut db es : wf_db db -> (exists rest, chain_edges db ++ member_edges db = es ++ rest) -> cut db (used_edges db ++ es) (all_moved db).
Proof.
  intros Hwf [rest He]. pose proof (phase_cut db false (phase_list db false) [] [] Hwf) as Hc. rewrite !app_nil_r in Hc.
  destruct (Hc eq_refl) as [_ [_ Hmv]]. split.
  - exists rest. unfold all_edges. by rewrite He, (assoc_L (++)).
  - intros u Hu Hin. destruct (Hmv u Hu Hin) as [Hh He']. split; [done|]. intros res Hr. apply elem_of_app. left. by apply He'.
Qed.

Lemma deferred_passes_does m db s rsv : wf_db db -> stands db (used_edges db) (all_moved db) (ps_db s) -> ps_incomplete s = m ->
  rsv_deferred_chain_refs rsv = chain_refs (all_deferred db) -> rsv_deferred_this_member_refs rsv = member_refs (all_deferred db) ->
  does (in_order m db) (fun _ s' => stands db (all_edges db) (all_moved db) (ps_db s') /\ ps_incomplete s' = m) (deferred_passes rsv s).
Proof.
  intros Hwf Hst Hm Ec Em.
  unfold deferred_passes, resolve_chained_calls_via_conformance, take_chain_refs. rewrite Ec.
  eapply (does_bind _ (fun (p : Resolver * nat) s' => stands db (used_edges db ++ chain_edges db) (all_moved db) (ps_db s') /\ ps_incomplete s' = m
                         /\ rsv_deferred_this_member_refs p.1 = member_refs (all_deferred db))).
  { eapply does_after; [by apply runs_reading|constructor|].
    assert (E : omap (chain_match (store_context (ps_db s))) (chain_refs (all_deferred db))
      = omap (chain_match (store_context (edges_in db (used_edges db)))) (chain_refs (all_deferred db))).
    { apply list_omap_ext, Forall_Forall2_diag, Forall_forall. intros r _. apply chain_match_context. by eapply stands_context. }
    rewrite E. eapply insert_resolved_does; [done|exact Hst|done| |].
    - apply last_cut; [done|]. exists (member_edges db). done.
    - intros n s' Hst' Hm'. eapply does_runs; [apply runs_ret|constructor|]. cbn. auto. }
  intros [rsv1 n] s1 (Hst1 & Hm1 & Em1). cbn [fst] in *.
  eapply (does_bind _ (fun _ s' => stands db (all_edges db) (all_moved db) (ps_db s') /\ ps_incomplete s' = m)).
  2:{ intros [rsv2 n'] s2 Hs2. eapply does_runs; [apply runs_ret|constructor|done]. }
  unfold resolve_deferred_this_member_refs, take_this_member_refs. rewrite Em1.
  eapply does_after; [by apply runs_reading|constructor|].
  assert (E : omap (this_member_match (ps_db s1)) (member_refs (all_deferred db))
    = omap (this_member_match (edges_in db (used_edges db ++ chain_edges db))) (member_refs (all_deferred db))).
  { apply list_omap_ext, Forall_Forall2_diag, Forall_forall. intros r _. apply this_member_match_ext.
    - by rewrite edges_in_nodes, (st_nodes _ _ _ _ Hst1).
    - by eapply stands_context.
    - intros id k _. apply source_kind_rows, (st_edges _ _ _ _ Hst1). }
  rewrite E. eapply insert_resolved_does; [done|exact Hst1|done| |].
  - rewrite <- (assoc_L (++)). apply last_cut; [done|]. exists []. by rewrite app_nil_r.
  - intros n' s' Hst' Hm'. eapply does_runs; [apply runs_ret|constructor|]. split; [|done].
    unfold all_edges. rewrite (assoc_L (++)). exact Hst'.
Qed.

(** *** Whole passes *)

(** A pass that ends with one more commit, the last. *)
Definition ends {A} (I : PassStore -> Prop) (F : PassStore -> Prop)
    (x : list PassStore * result SqlError (A * PassStore)) : Prop :=
  exists l a s', x = (l ++ [s'], Ok (a, s')) /\ Forall I l /\ F s'.

Lemma ends_bind {A B} I F (Q : A -> PassStore -> Prop) (m : Pass A) (f : A -> Pass B) s :
  does I Q (m s) -> (forall a s', Q a s' -> ends I F (f a s')) -> ends I F ((m ≫= f) s).
Proof.
  unfold does, ends, mbind, pass_bind. intros [Hl Hr] Hf. destruct (m s) as [l [[a s1]| |]]; cbn in *; [|done..].
  destruct (Hf a s1 Hr) as (l' & b & s' & -> & Hl' & HF). exists (l ++ l'), b, s'. split; [by rewrite (assoc_L (++))|].
  split; [by apply Forall_app|done].
Qed.

Lemma ends_after {A B} I F (m : Pass A) (f : A -> Pass B) s l a s' :
  runs m s l a s' -> Forall I l -> ends I F (f a s') -> ends I F ((m ≫= f) s).
Proof. intros Hm Hl Hf. eapply (ends_bind _ _ (fun x t => x = a /\ t = s')); [by eapply does_runs|]. by intros ? ? [-> ->]. Qed.

Lemma alike_ends {A B} I F (R : A -> B -> PassStore -> Prop) x y : alike R x y -> ends I F x -> ends I F y.
Proof.
  intros [El Hr] (l & a & s' & -> & Hl & HF). cbn in El, Hr. destruct y as [l' [[b s'']| |]]; cbn in *; [|done..].
  destruct Hr as [<- _]. subst l'. by exists l, b, s'.
Qed.

Lemma phase_lengths db : wf_db db -> length (phase_list db true) + length (phase_list db false) <= length (db_unresolved_refs db).
Proof.
  intros Hwf. assert (Hlen : forall b, length (phase_list db b) <= length (filter (fun r => wiring_row r = b) (db_unresolved_refs db))).
  { intros b. unfold phase_list, parsed. rewrite <- (length_sort_by row_before (filter _ _)). 
    induction (sort_by row_before _) as [|r l IH]; [done|]. rewrite omap_cons, length_app. destruct (result_option _); cbn; lia. }
  pose proof (filter_split (fun r => wiring_row r = false) (fun r => wiring_row r = true) (db_unresolved_refs db)) as Hp.
  rewrite <- Hp, length_app by (intros r; destruct (wiring_row r); done). specialize (Hlen true) as H1'. specialize (Hlen false) as H2'. lia.
Qed.

(** What the last commit of a pass over [db] holds. *)
Definition ended (db : Db) (s : PassStore) : Prop :=
  ps_incomplete s = false /\ stands db (all_edges db) (all_moved db) (ps_db s).

Lemma loop_start db s total observed : positive_ids db -> stands db [] [] (ps_db s) -> ps_incomplete s = true ->
  loop_inv db true [] (phase_list db true)
    (mkBatch (start_resolver db) None ∅ 0 true (rr_stats empty_resolution) 0 total observed) s.
Proof.
  intros Hpos Hst Hm. split; cbn [bt_wiring_phase bt_resolver bt_cursor]; try done.
  - set_solver.
  - intros u Hu. by apply (positive_uid db true).
Qed.

Lemma start_in_order db s : wf_db db -> ps_db s = db -> ps_incomplete s = true -> in_order true db s.
Proof.
  intros Hwf E Hm. split; [done|]. exists [], []. rewrite E. split; [by apply stands_start|]. split; [by eexists|set_solver].
Qed.

Lemma streaming_ends db size s : wf_db db -> wiring_stable db -> positive_ids db -> 0 < size -> ps_db s = db ->
  ends (in_order true db) (ended db) (resolve_and_persist_batched_inner new_resolver size 0 s).
Proof.
  intros Hwf Hstable Hpos Hsize Edb. unfold resolve_and_persist_batched_inner.
  set (s0 := mkPassStore (ps_db s) true).
  eapply ends_after; [instantiate (1 := s0); reflexivity|constructor; [by apply start_in_order|constructor]|].
  eapply ends_after; [by apply runs_reading|constructor|]. eapply ends_after; [by apply runs_reading|constructor|].
  eapply ends_after; [by apply runs_reading|constructor|]. eapply ends_after; [by apply runs_reading|constructor|].
  cbn [ps_db s0]. rewrite Edb. cbn [Nat.leb].
  eapply ends_bind.
  - apply (batch_loop_does db size _ Hwf Hstable Hpos Hsize _ true [] (phase_list db true)).
    + apply (loop_start db s0); [done| |done]. cbn. rewrite Edb. by apply stands_start.
    + cbn. unfold batch_fuel. pose proof (phase_lengths db Hwf). lia.
  - intros st s1 [Hl Hw Hr Hb Ha Hst Hm]. destruct (push_all_lists (all_deferred db) (start_resolver db)) as [Ec Em].
    eapply ends_bind; [eapply (deferred_passes_does true db); [done..|rewrite Hr; exact Ec|rewrite Hr; exact Em]|].
    intros rsv s2 [Hst2 Hm2]. exists [], (rsv, mkResolution [] [] (bt_stats st), bt_observed st), (mkPassStore (ps_db s2) false).
    split_and!; [done..|]. split; [done|]. exact Hst2.
Qed.

Lemma batched_ends `{!LowercaseLaws} db size threshold s : wf_db db -> ascii_names db -> wiring_stable db -> positive_ids db -> 0 < size -> ps_db s = db ->
  ends (in_order true db) (ended db) (resolve_and_persist_batched_inner new_resolver size threshold s).
Proof.
  intros Hwf Hascii Hstable Hpos Hsize Edb. eapply alike_ends; [|by apply (streaming_ends db size s)].
  apply thresholds_alike; by rewrite Edb.
Qed.

End Described.
