(* ===== verification/ResolvePassProps.v ===== *)
(** * What the resolution passes promise

    Over nodes with ASCII names, and wiring references that the supertypes found
    on the way do not move, the full pass and the batched one come to the same
    index, whatever the size of the batches and the path; a pass that dies loses
    nothing, and a pass over what it left comes to the same index. Of both
    conditions an example says that the index is another without it. *)
From S2P Require Import Prelude Strings Types Rows Db DbRefs DbFacts GraphStore StoreView StoreProps Demo PathUtil StrOps LangDetect.
From S2P Require Import Utf8 Collation ResolvePass ResolveRuns ResolveSpec.

Section Passes.
Context `{SqlScanLaws} `{!SerdeJson} `{!SerdeJsonLaws} `{U : !UnicodeTables} `{!LowercaseLaws} `{!Strategies} `{!StrategiesProper} `{!StrategiesLaws}.

(** *** The full pass *)

Lemma resolve_all_lists db b P h s batch rsv : wf_db db -> wiring_stable db -> stands db (phase_edges db b P) h (ps_db s) -> upto db b P -> upto db b batch ->
  rsv_known_names rsv = None \/ rsv_known_names rsv = names_of db ->
  exists rsv', resolve_all (store_context (ps_db s)) rsv batch = (rsv', resolution (names_of db) (phase_context db b) batch)
    /\ rsv_known_names rsv' = names_of db
    /\ rsv_deferred_chain_refs rsv' = rsv_deferred_chain_refs rsv ++ chain_refs (deferred_of (names_of db) (phase_context db b) batch)
    /\ rsv_deferred_this_member_refs rsv' = rsv_deferred_this_member_refs rsv ++ member_refs (deferred_of (names_of db) (phase_context db b) batch).
Proof.
  intros Hwf Hstable Hst HP HB Hk.
  set (warm := mkResolver (names_of db) (rsv_deferred_chain_refs rsv) (rsv_deferred_this_member_refs rsv)).
  assert (E : resolve_all (store_context (ps_db s)) rsv batch = resolve_all (store_context (ps_db s)) warm batch).
  { destruct rsv as [known cr mr]. cbn in Hk, warm. destruct Hk as [->| ->]; [|done].
    unfold resolve_all, warm. cbn [rsv_known_names names_of]. unfold warm_caches, names_of, known_node_names.
    cbn [cx_lookups store_context]. by rewrite (store_lookups_same _ _ (st_nodes _ _ _ _ Hst) (st_files _ _ _ _ Hst)). }
  exists (push_all (deferred_of (names_of db) (phase_context db b) batch) warm).
  destruct (push_all_lists (deferred_of (names_of db) (phase_context db b) batch) warm) as [Ec Em].
  rewrite E, (resolve_all_stands db b P h) by done. split_and!; [done|by rewrite push_all_known|done..].
Qed.

Lemma resolve_phase_some rsv phase : phase <> [] -> resolve_phase rsv phase =
  (out ← reading (fun db => Ok (resolve_all (store_context db) rsv phase));
   let '(self, phase_result) := (out : Resolver * ResolutionResult) in
   edges ← reading (fun db => Ok (create_edges (rr_resolved phase_result) db));
   _ ← insert_some_edges edges;
   _ ← delete_rows (resolved_row_ids (rr_resolved phase_result));
   mret (self, phase_result)).
Proof. by destruct phase. Qed.

(** One phase of the full pass, from where the phases before it left off. *)
Lemma resolve_phase_does db b h rsv s m : wf_db db -> wiring_stable db -> stands db (phase_edges db b []) h (ps_db s) -> ps_incomplete s = m ->
  rsv_known_names rsv = None \/ rsv_known_names rsv = names_of db ->
  does (fun _ => True) (fun (out : Resolver * ResolutionResult) s' =>
      stands db (phase_edges db b (phase_list db b)) (h ++ resolved_row_ids (resolved_of (names_of db) (phase_context db b) (phase_list db b))) (ps_db s')
      /\ ps_incomplete s' = m
      /\ (rsv_known_names out.1 = None \/ rsv_known_names out.1 = names_of db)
      /\ rsv_deferred_chain_refs out.1 = rsv_deferred_chain_refs rsv ++ chain_refs (deferred_of (names_of db) (phase_context db b) (phase_list db b))
      /\ rsv_deferred_this_member_refs out.1
         = rsv_deferred_this_member_refs rsv ++ member_refs (deferred_of (names_of db) (phase_context db b) (phase_list db b)))
    (resolve_phase rsv (phase_list db b) s).
Proof.
  intros Hwf Hstable Hst Hm Hk. assert (Hup : upto db b (phase_list db b)) by (intros u Hu; exact Hu).
  destruct (decide (phase_list db b = [])) as [El|El].
  { rewrite El. eapply does_runs; [apply runs_ret|constructor|]. cbn. rewrite !app_nil_r. auto. }
  rewrite resolve_phase_some by done.
  destruct (resolve_all_lists db b [] h s (phase_list db b) rsv Hwf Hstable Hst) as (rsv' & E & Hk' & Ec & Em); [by intros ? ?%not_elem_of_nil|done..|].
  eapply does_after; [by apply runs_reading|constructor|]. rewrite E. eapply does_after; [by apply runs_reading|constructor|].
  change (rr_resolved (resolution ?k ?c ?l)) with (resolved_of k c l). rewrite (create_edges_stands _ _ _ _ _ Hst).
  fold (edges_of db (phase_context db b) (phase_list db b)). set (edges := edges_of db _ _). set (ids := resolved_row_ids _).
  eapply does_after; [apply insert_some_edges_runs, (st_wf _ _ _ _ Hst)|by apply Forall_commit|].
  eapply does_after; [apply delete_rows_runs|by apply Forall_commit|]. eapply does_runs; [apply runs_ret|constructor|].
  split_and!; [|exact Hm|by right|exact Ec|exact Em]. cbn [ps_db with_db]. apply stands_delete.
  change (phase_list db b) with ([] ++ phase_list db b) at 1. rewrite phase_edges_app. by apply stands_insert.
Qed.

(** The references in the order of their ids, as the two phases take them. *)
Lemma wiring_first_phases db : wf_db db ->
  scan_order "all_unresolved_refs" (db_unresolved_refs db) = sort_by row_before (db_unresolved_refs db) ->
  exists refs, db_all_unresolved_refs db = Ok refs /\ (forall u, u ∈ refs <-> u ∈ gv_refs (view_of db))
    /\ wiring_first refs = [phase_list db true; phase_list db false].
Proof.
  intros Hwf Hscan. exists (parsed row_to_unresolved_ref (sort_by row_before (db_unresolved_refs db))).
  assert (Hp : Forall (parses row_to_unresolved_ref) (sort_by row_before (db_unresolved_refs db)))
    by (rewrite sort_by_perm; by apply wf_unresolved_parse).
  split_and!.
  - unfold db_all_unresolved_refs. rewrite Hscan. by apply map_M_parsed.
  - intros u. cbn. by rewrite (parsed_perm _ _ _ (sort_by_perm row_before (db_unresolved_refs db))).
  - assert (Hb : forall b, filter (fun r => is_wiring_reference r = b) (parsed row_to_unresolved_ref (sort_by row_before (db_unresolved_refs db))) = phase_list db b).
    { intros b. unfold phase_list. rewrite (sort_rows_filter (fun r => wiring_row r = b) (db_unresolved_refs db) (filter (fun r => wiring_row r = b) (db_unresolved_refs db))); [|by apply wf_unresolved_ids|reflexivity].
      symmetry. apply parsed_filter. intros r u Hu. by destruct (ref_row_fields r u Hu) as (_ & _ & -> & _). }
    unfold wiring_first. by rewrite !Hb.
Qed.

Lemma full_moved db refs r : (forall u, u ∈ refs <-> u ∈ gv_refs (view_of db)) -> r ∈ db_unresolved_refs db ->
  rr_id r ∈ (resolved_row_ids (resolved_of (names_of db) (store_context db) (phase_list db true))
             ++ resolved_row_ids (resolved_of (names_of db) (wired db) (phase_list db false))) ++ dedup (sort_by Z.leb (constructor_row_ids refs))
  <-> rr_id r ∈ all_moved db.
Proof.
  intros Hrefs _. unfold all_moved, phase_moved, moved_of, phase_context. rewrite !elem_of_app, elem_of_dedup, elem_of_sort_by.
  assert (Hc : rr_id r ∈ constructor_row_ids refs <-> rr_id r ∈ constructor_row_ids (phase_list db true) \/ rr_id r ∈ constructor_row_ids (phase_list db false)).
  { unfold constructor_row_ids. rewrite !list_elem_of_omap. setoid_rewrite elem_of_phase_list. setoid_rewrite Hrefs. split.
    - intros (u & Hu & Hi). destruct (is_wiring_reference u) eqn:E; [left|right]; exists u; auto.
    - intros [(u & [Hu _] & Hi)|(u & [Hu _] & Hi)]; exists u; auto. }
  rewrite Hc. tauto.
Qed.

Lemma full_ends db s : wf_db db -> wiring_stable db -> ps_db s = db ->
  scan_order "all_unresolved_refs" (db_unresolved_refs db) = sort_by row_before (db_unresolved_refs db) ->
  exists l a s', runs (resolve_and_persist new_resolver) s l a s' /\ stands db (all_edges db) (all_moved db) (ps_db s').
Proof.
  intros Hwf Hstable Edb Hscan. destruct (wiring_first_phases db Hwf Hscan) as (refs & Erefs & Hrefs & Ew).
  assert (Hd : does (fun _ => True) (fun _ s' => stands db (all_edges db) (all_moved db) (ps_db s')) (resolve_and_persist new_resolver s)).
  { unfold resolve_and_persist. eapply does_after; [apply runs_reading; rewrite Edb; exact Erefs|constructor|].
    rewrite Ew. cbn [resolve_phases].
    eapply (does_bind _ (fun (out : Resolver * ResolutionResult) s' =>
      stands db (used_edges db) (resolved_row_ids (resolved_of (names_of db) (store_context db) (phase_list db true))
             ++ resolved_row_ids (resolved_of (names_of db) (wired db) (phase_list db false))) (ps_db s')
      /\ rsv_deferred_chain_refs out.1 = chain_refs (all_deferred db) /\ rsv_deferred_this_member_refs out.1 = member_refs (all_deferred db))).
    - eapply does_bind; [eapply (resolve_phase_does db true []); [done|done|by rewrite Edb; apply stands_start|done|by left]|].
      intros out1 s1 (Hst1 & _ & Hk1 & Ec1 & Em1).
      eapply does_bind; [eapply (resolve_phase_does db false); [done|done| |done|exact Hk1]|].
      { unfold phase_edges in *. cbn in *. rewrite !app_nil_r. exact Hst1. }
      intros out2 s2 (Hst2 & _ & _ & Ec2 & Em2). eapply does_runs; [apply runs_ret|constructor|].
      split; [exact Hst2|]. cbn [fst]. rewrite Ec2, Em2, Ec1, Em1. unfold all_deferred, phase_deferred, chain_refs, member_refs.
      cbn. by rewrite !omap_app.
    - intros out s2 (Hst2 & Ec & Em). eapply does_after; [apply delete_rows_runs|by apply Forall_commit|].
      eapply (does_bind _ (fun _ s' => stands db (all_edges db) (all_moved db) (ps_db s') /\ ps_incomplete s' = ps_incomplete s2));
        [|intros rsv s4 [Hst4 _]; eapply does_runs; [apply runs_ret|constructor|exact Hst4]].
      eapply (does_weaken (in_order (ps_incomplete s2) db)); [done|apply (deferred_passes_does (ps_incomplete s2)); [done| |done..]].
      eapply stands_moved; [by apply stands_delete|]. intros r Hr. by apply full_moved. }
  destruct Hd as [_ Hr]. unfold runs. destruct (resolve_and_persist new_resolver s) as [l [[a s']| |]]; cbn in Hr; [|done..].
  exists l, a, s'. done.
Qed.

(** *** Going on from a cut *)

(** What is found and put off, of all references at once. *)
Lemma used_edges_settled db :
  used_edges db = map (create_edge db) (omap (fun u => (settled db u).1) (phase_list db true ++ phase_list db false)).
Proof.
  unfold used_edges, phase_edges, wiring_edges, edges_of, resolved_of. rewrite omap_app, map_app.
  f_equal; f_equal; apply list_omap_ext, Forall_Forall2_diag, Forall_forall; intros u Hu.
  - by rewrite (settled_in db true u Hu).
  - by rewrite (settled_in db false u Hu).
Qed.

Lemma all_deferred_settled db : all_deferred db = omap (fun u => (settled db u).2) (phase_list db true ++ phase_list db false).
Proof.
  unfold all_deferred, phase_deferred, deferred_of. rewrite omap_app.
  f_equal; apply list_omap_ext, Forall_Forall2_diag, Forall_forall; intros u Hu.
  - by rewrite (settled_in db true u Hu).
  - by rewrite (settled_in db false u Hu).
Qed.

Lemma deferred_not_handled db u d : (settled db u).2 = Some d -> ~ handled db u.
Proof.
  unfold handled, settled, outcome. destruct (resolve_one_pure _ _ _) as [o d'] eqn:E. cbn. intros ->.
  apply deferred_unresolved in E as (-> & Hc & _). cbn in Hc. rewrite Hc. by intros [[? ?]|].
Qed.

(** The member references put off are uses of a function as a value. *)
Lemma member_ref_kind db r : r ∈ member_refs (all_deferred db) -> rv_reference_kind r = EkReferences /\ rv_is_function_ref r = true.
Proof.
  unfold member_refs. rewrite list_elem_of_omap. intros (d & Hd & Er). destruct d as [|r']; [done|]. injection Er as ->.
  rewrite all_deferred_settled in Hd. apply list_elem_of_omap in Hd as (u & Hu & Ho).
  unfold settled, outcome in Ho. destruct (resolve_one_pure _ _ _) as [o d'] eqn:E. cbn in Ho. subst d'.
  apply deferred_unresolved in E as (_ & _ & (_ & Hk & Hf') & Hf). rewrite Hk. split; [|done]. cbn in *. rewrite Hf in Hf'.
  apply elem_of_app in Hu. assert (Hg : u ∈ gv_refs (view_of db)) by (destruct Hu as [Hu|Hu]; by apply elem_of_phase_list in Hu as [? _]).
  apply elem_of_parsed in Hg as (row & _ & Hrow). by apply (ref_row_fields row u Hrow).
Qed.

Lemma member_edge_kind db e : e ∈ member_edges db -> edge_kind e = EkReferences.
Proof.
  unfold member_edges. rewrite elem_of_map. intros (res & -> & (r & Hr & Hm)%list_elem_of_omap).
  destruct (member_ref_kind db r Hr) as [Hk Hf]. assert (Eo : res_original res = r).
  { revert Hm. unfold this_member_match. destruct (str_strip_prefix "this." _); [|done]. cbn [mbind option_bind]. case_match; [done|].
    destruct (node_at _ _); [|done]. cbn [mbind option_bind]. destruct (class_of_caller _); [|done]. cbn [mbind option_bind].
    destruct (find_inherited_member _ _ _ _); [|done]. cbn [mbind option_bind]. by intros [= <-]. }
  cbn. unfold promoted_kind. rewrite Eo. unfold is_dart_member_read. rewrite Hf, Hk. cbn. by rewrite andb_false_r.
Qed.

Lemma chain_edge_not_inheritance db e : e ∈ chain_edges db -> ~ inheritance e.
Proof.
  unfold chain_edges. rewrite elem_of_map. intros (res & -> & (r & Hr & Hm)%list_elem_of_omap).
  apply promoted_not_inheritance. rewrite (chain_same _ _ _ Hm). unfold chain_refs in Hr.
  apply list_elem_of_omap in Hr as (d & Hd & Er). destruct d as [r'|]; [|done]. injection Er as ->.
  rewrite all_deferred_settled in Hd. apply list_elem_of_omap in Hd as (u & _ & Ho).
  unfold settled, outcome in Ho. destruct (resolve_one_pure _ _ _) as [o d'] eqn:E. cbn in Ho. subst d'.
  by apply deferred_unresolved in E as (_ & _ & ->).
Qed.

Lemma all_edges_inheritance db e : inheritance e -> e ∈ all_edges db -> e ∈ wiring_edges db.
Proof.
  intros He. unfold all_edges. rewrite !elem_of_app. intros [Hu|[Hc|Hm]].
  - apply phase_inheritance in Hu; [done| |done]. by intros u Hu'.
  - by apply chain_edge_not_inheritance in Hc.
  - apply member_edge_kind in Hm. unfold inheritance in He. by rewrite Hm in He.
Qed.

Lemma thin_elem {A} (P : A -> Prop) l l' : thin P l l' -> (forall x, x ∈ l -> x ∈ l') /\ (forall x, x ∈ l' -> x ∈ l \/ P x).
Proof. induction 1 as [|x l l' _ [IH1 IH2]|x l l' Hx _ [IH1 IH2]]; split; intros y; rewrite ?elem_of_cons; naive_solver. Qed.

(** Adding again a list some of which, first, is in. *)
Lemma edges_in_again db es rest l : thin (fun e => e ∈ es) l (es ++ rest) -> edges_in db (es ++ l) = edges_in db (es ++ rest).
Proof.
  intros Ht. rewrite !edges_in_app. assert (Hin : Forall (addressed (edges_in db es)) es).
  { apply Forall_forall. intros e He. by apply edges_in_addressed. }
  rewrite (edges_in_thin l (es ++ rest)).
  - by rewrite edges_in_app, (edges_in_absorb _ es Hin).
  - clear -Ht Hin. rewrite Forall_forall in Hin. induction Ht; constructor; auto.
Qed.

Lemma thin_prefix {A} (P : A -> Prop) l l1 l2 : Forall P l1 -> thin P l l2 -> thin P l (l1 ++ l2).
Proof. intros H1' Ht. change l with ([] ++ l). by apply thin_app; [apply thin_none|]. Qed.

Section Resumed.
Variables (db c : Db) (es : list Edge) (h : list Z).
Hypothesis (Hwf : wf_db db) (Hstable : wiring_stable db) (Hst : stands db es h c) (Hcut : cut db es h).

Let kept (u : UnresolvedRef) : Prop := uid u ∉ h.
Let inserted (e : Edge) : Prop := e ∈ es.

Lemma resumed_names : names_of c = names_of db.
Proof. unfold names_of, store_context. by rewrite (store_lookups_same _ _ (st_nodes _ _ _ _ Hst) (st_files _ _ _ _ Hst)). Qed.

Lemma resumed_create_edge : create_edge c = create_edge db.
Proof. by apply create_edge_nodes, (st_nodes _ _ _ _ Hst). Qed.

Lemma resumed_phase b : phase_list c b = filter kept (phase_list db b).
Proof. by apply (phase_list_stands _ es). Qed.

Lemma es_inheritance e : inheritance e -> inserted e -> e ∈ wiring_edges db.
Proof. destruct Hcut as [[rest Hr] _]. intros He Hin. apply all_edges_inheritance; [done|]. rewrite Hr. set_solver. Qed.

(** After the edges of [X], of which those left out are in, the context is
    that of [Y]. *)
Lemma resumed_context X Y : thin inserted X Y -> (forall e, inheritance e -> e ∈ wiring_edges db -> e ∈ Y) ->
  context_eq (store_context (edges_in c X)) (store_context (edges_in db Y)).
Proof.
  intros Ht HY. destruct (thin_elem _ _ _ Ht) as [H1' H2']. eapply stands_context; [done|by apply stands_insert|].
  intros e He. rewrite elem_of_app. split; [|by intros [?|?]%H2'; [right|left]].
  intros [Hin|Hin]; [|auto]. by apply HY, es_inheritance.
Qed.

(** The inheritance edges that are in are wiring edges, and so is the context
    they make. *)
Lemma resumed_wiring_context X u : (forall e, e ∈ X -> e ∈ wiring_edges db) -> u ∈ phase_list db true ->
  outcome (names_of db) (store_context (edges_in c X)) u = outcome (names_of db) (store_context db) u.
Proof.
  intros HX Hu. set (Y := filter (fun e => is_inheritance_kind (edge_kind e) = true) (es ++ X)).
  transitivity (outcome (names_of db) (store_context (edges_in db Y)) u).
  - apply outcome_context. eapply stands_context; [done|by apply stands_insert|]. intros e He. unfold Y.
    rewrite list_elem_of_filter. tauto.
  - apply Hstable; [done|]. intros e [He [Hin|Hin]%elem_of_app]%list_elem_of_filter; [by apply es_inheritance|auto].
Qed.

Lemma resumed_settled_wiring u : u ∈ phase_list db true -> settled c u = settled db u.
Proof.
  intros Hu. pose proof Hu as [_ Hw]%elem_of_phase_list. unfold settled. rewrite Hw, resumed_names. cbn [phase_context].
  apply (resumed_wiring_context []); [by intros e ?%not_elem_of_nil|done].
Qed.

(** The edges of the references left are those of all, less some that are in. *)
Lemma resumed_thin l : (forall u, u ∈ l -> u ∈ gv_refs (view_of db) /\ settled c u = settled db u) ->
  thin inserted (map (create_edge c) (omap (fun u => (settled c u).1) (filter kept l)))
    (map (create_edge db) (omap (fun u => (settled db u).1) l)).
Proof.
  intros Hl. rewrite resumed_create_edge. apply thin_map.
  rewrite (list_omap_ext _ (fun u => (settled db u).1) _ (filter kept l)).
  - apply thin_omap. intros u res Hu Hk Hr. destruct (Hl u Hu) as [Hg _]. unfold kept in Hk.
    apply dec_stable in Hk. by apply (cut_moved _ _ _ Hcut u Hg Hk).
  - apply Forall_Forall2_diag, Forall_forall. intros u [_ Hu]%list_elem_of_filter. by rewrite (proj2 (Hl u Hu)).
Qed.

Lemma wiring_edges_settled d : wiring_edges d = map (create_edge d) (omap (fun u => (settled d u).1) (phase_list d true)).
Proof.
  unfold wiring_edges, edges_of, resolved_of. f_equal. apply list_omap_ext, Forall_Forall2_diag, Forall_forall.
  intros u Hu. by rewrite (settled_in d true u Hu).
Qed.

Lemma resumed_wiring_edges e : e ∈ wiring_edges c -> e ∈ wiring_edges db.
Proof.
  rewrite !wiring_edges_settled, resumed_phase, resumed_create_edge, !elem_of_map. setoid_rewrite list_elem_of_omap.
  intros (res & -> & u & [_ Hu]%list_elem_of_filter & Ho). exists res. split; [done|]. exists u.
  by rewrite <- (resumed_settled_wiring u Hu).
Qed.

Lemma resumed_stable : wiring_stable c.
Proof.
  intros u X Hu HX. rewrite resumed_names. rewrite resumed_phase in Hu. apply list_elem_of_filter in Hu as [_ Hu].
  rewrite (resumed_wiring_context X), <- (resumed_wiring_context [] u); [done|..]; try done; [by intros e ?%not_elem_of_nil|].
  intros e He. by apply resumed_wiring_edges, HX.
Qed.

Lemma resumed_wired : context_eq (wired c) (wired db).
Proof.
  unfold wired. apply resumed_context; [|done]. rewrite !wiring_edges_settled, resumed_phase. apply resumed_thin.
  intros u Hu. split; [by apply elem_of_phase_list in Hu as [? _]|by apply resumed_settled_wiring].
Qed.

Lemma resumed_settled u : u ∈ gv_refs (view_of db) -> settled c u = settled db u.
Proof.
  intros Hu. destruct (is_wiring_reference u) eqn:Hw; [by apply resumed_settled_wiring, elem_of_phase_list|].
  unfold settled. rewrite Hw, resumed_names. apply outcome_context, resumed_wired.
Qed.

Lemma phase_lists_refs u : u ∈ phase_list db true ++ phase_list db false -> u ∈ gv_refs (view_of db).
Proof. intros [Hu|Hu]%elem_of_app; by apply elem_of_phase_list in Hu as [? _]. Qed.

Lemma resumed_used : thin inserted (used_edges c) (used_edges db).
Proof.
  rewrite !used_edges_settled, !resumed_phase, <- filter_app. apply resumed_thin.
  intros u Hu%phase_lists_refs. split; [done|by apply resumed_settled].
Qed.

Lemma resumed_deferred : all_deferred c = all_deferred db.
Proof.
  rewrite !all_deferred_settled, !resumed_phase, <- filter_app. generalize phase_lists_refs.
  induction (phase_list db true ++ phase_list db false) as [|u l IH]; intros Hl; [done|]. rewrite filter_cons, (omap_cons _ u l).
  assert (Hu : u ∈ gv_refs (view_of db)) by (apply Hl; set_solver). specialize (IH (fun u' Hu' => Hl u' (list_elem_of_further _ _ _ Hu'))).
  destruct (decide (kept u)) as [Hk|Hk]; [rewrite omap_cons; by rewrite IH, resumed_settled|].
  rewrite IH. destruct (settled db u).2 as [d|] eqn:Ed; [|done]. exfalso. apply deferred_not_handled in Ed. apply Ed.
  unfold kept in Hk. apply dec_stable in Hk. by apply (cut_moved _ _ _ Hcut u Hu Hk).
Qed.

Lemma wiring_used e : e ∈ wiring_edges db -> e ∈ used_edges db.
Proof. intros He. unfold used_edges, phase_edges. apply elem_of_app. by left. Qed.

Lemma resumed_chain : chain_edges c = chain_edges db.
Proof.
  unfold chain_edges. rewrite resumed_create_edge, resumed_deferred. f_equal.
  apply list_omap_ext, Forall_Forall2_diag, Forall_forall. intros r _. apply chain_match_context, resumed_context; [apply resumed_used|].
  intros e _. apply wiring_used.
Qed.

Lemma resumed_used_chain : thin inserted (used_edges c ++ chain_edges c) (used_edges db ++ chain_edges db).
Proof. apply thin_app; [apply resumed_used|]. rewrite resumed_chain. apply thin_refl. Qed.

(** The rows a further insertion of edges of other kinds leaves as they are. *)
Lemma source_kind_insert d l id k : wf_db d -> (forall e, e ∈ l -> edge_kind e <> k) ->
  db_edges_by_source_kind (edges_in d l) id (Some k) = db_edges_by_source_kind d id (Some k).
Proof.
  intros Hd Hl. destruct (insert_edges_ok d l Hd) as (_ & _ & Hins). destruct (ei_rows _ _ _ Hins) as (new & Erows & Hnew).
  unfold db_edges_by_source_kind, query_edges. rewrite Erows, filter_app, (filter_none _ new); [by rewrite app_nil_r|].
  intros r Hr Hp. destruct (Forall_elem Hnew Hr) as [(e & He & Er) _]. apply andb_true_iff in Hp as [_ Hp].
  rewrite String.eqb_eq, Er in Hp. cbn in Hp. apply (inj EdgeKind_as_str) in Hp. by apply (Hl e).
Qed.

(** The tables the members are looked for in differ by edges of members at
    most. *)
Lemma resumed_tables : exists l, (forall e, e ∈ l -> e ∈ member_edges db)
  /\ edges_in db (es ++ used_edges c ++ chain_edges c) = edges_in db ((used_edges db ++ chain_edges db) ++ l).
Proof.
  destruct Hcut as [[rest Hall] _]. unfold all_edges in Hall. rewrite (assoc_L (++)) in Hall.
  apply app_eq_inv in Hall as [(l & E1 & E2)|(l & E1 & E2)].
  - exists []. split; [set_solver|]. rewrite app_nil_r, E1. apply edges_in_again. rewrite <- E1. apply resumed_used_chain.
  - exists l. split; [rewrite E2; set_solver|]. rewrite <- E1.
    assert (Ht : thin inserted ((used_edges c ++ chain_edges c) ++ []) ((used_edges db ++ chain_edges db) ++ l)).
    { apply thin_app; [apply resumed_used_chain|]. apply thin_none, Forall_forall. intros e He. unfold inserted. rewrite E1. set_solver. }
    rewrite <- E1, app_nil_r in Ht. transitivity (edges_in db (es ++ [])); [|by rewrite app_nil_r].
    apply edges_in_again. by rewrite app_nil_r.
Qed.

Lemma resumed_member : member_edges c = member_edges db.
Proof.
  unfold member_edges at 1 2. rewrite resumed_create_edge, resumed_deferred. f_equal.
  apply list_omap_ext, Forall_Forall2_diag, Forall_forall. intros r _. apply this_member_match_ext.
  - by rewrite !edges_in_nodes, (st_nodes _ _ _ _ Hst).
  - apply resumed_context; [apply resumed_used_chain|]. intros e _ He%wiring_used. set_solver.
  - intros id k Hk. destruct resumed_tables as (l & Hl & E).
    rewrite (source_kind_rows _ (edges_in db (es ++ used_edges c ++ chain_edges c)))
      by exact (st_edges _ _ _ _ (stands_insert _ _ _ _ (used_edges c ++ chain_edges c) Hst)).
    rewrite E, edges_in_app. apply source_kind_insert; [by apply edges_in_wf|].
    intros e He%Hl%member_edge_kind. rewrite He. intros <-. unfold MEMBER_KINDS in Hk. set_solver.
Qed.

Lemma resumed_all_edges : edges_in db (es ++ all_edges c) = edges_in db (all_edges db).
Proof.
  destruct Hcut as [[rest Hall] _]. rewrite Hall. apply edges_in_again. rewrite <- Hall. unfold all_edges.
  rewrite !(assoc_L (++)). apply thin_app; [apply resumed_used_chain|]. rewrite resumed_member. apply thin_refl.
Qed.

Lemma elem_of_all_moved d x : x ∈ all_moved d <-> exists u, u ∈ gv_refs (view_of d) /\ uid u = x /\ handled d u.
Proof.
  unfold all_moved. rewrite elem_of_phase_moved by (by intros u Hu). unfold seen. split.
  - intros (u & [Hu|[_ Hu]] & ? & ?); exists u; apply elem_of_phase_list in Hu as [? _]; auto.
  - intros (u & Hu & ? & ?). exists u. split_and!; [|done..]. destruct (is_wiring_reference u) eqn:E; [right; split; [done|]|left]; by apply elem_of_phase_list.
Qed.

Lemma resumed_refs u : u ∈ gv_refs (view_of c) <-> u ∈ gv_refs (view_of db) /\ uid u ∉ h.
Proof.
  cbn. rewrite !elem_of_parsed, (st_unresolved _ _ _ _ Hst). setoid_rewrite list_elem_of_filter. split.
  - intros (r & [Hh Hr] & Hu). destruct (ref_row_fields r u Hu) as (_ & -> & _). eauto.
  - intros [(r & Hr & Hu) Hh]. destruct (ref_row_fields r u Hu) as (_ & Ei & _). rewrite Ei in Hh. eauto.
Qed.

Lemma resumed_handled u : u ∈ gv_refs (view_of db) -> handled c u <-> handled db u.
Proof. intros Hu. unfold handled. by rewrite resumed_settled. Qed.

Lemma resumed_moved r : r ∈ db_unresolved_refs db -> rr_id r ∈ h ++ all_moved c <-> rr_id r ∈ all_moved db.
Proof.
  intros Hr. destruct (Forall_elem (wf_unresolved_parse _ Hwf) Hr) as [u Hu].
  assert (Hg : u ∈ gv_refs (view_of db)) by (apply elem_of_parsed; eauto). destruct (ref_row_fields r u Hu) as (_ & Ei & _).
  rewrite elem_of_app, !elem_of_all_moved. split.
  - intros [Hh|(u' & Hu' & Ei' & Hh)].
    + exists u. split_and!; [done..|]. rewrite <- Ei in Hh. by apply (cut_moved _ _ _ Hcut u Hg Hh).
    + apply resumed_refs in Hu' as [Hu' _]. exists u'. split_and!; [done..|]. by apply resumed_handled.
  - intros (u' & Hu' & Ei' & Hh). destruct (decide (rr_id r ∈ h)) as [|Hn]; [by left|right]. exists u'.
    rewrite <- Ei' in Hn. split_and!; [by apply resumed_refs|done|by apply resumed_handled].
Qed.

Lemma resumed_ends d : stands c (all_edges c) (all_moved c) d -> stands db (all_edges db) (all_moved db) d.
Proof.
  intros Hd. eapply stands_moved; [|intros r Hr; by apply resumed_moved].
  eapply stands_edges; [|apply resumed_all_edges]. by eapply stands_trans.
Qed.

End Resumed.

(** C9: over nodes with ASCII names the streaming threshold changes nothing but
    the memory a pass takes: over a database in order, the batched pass over the
    live store, whose lower-case lookup folds ASCII letters, and the one over a
    snapshot of the nodes, whose lower-case index is of [str::to_lowercase], with
    an adjacency folded forward, commit the same states in the same order, end in the same state, and give the same
    resolver, counts and reports (but for the flag that says which path it is). *)
Theorem streaming_matches_snapshot self size threshold threshold' s :
  wf_db (ps_db s) -> ascii_names (ps_db s) ->
  alike (fun '(self, result, observed) '(self', result', observed') _ =>
           self = self' /\ result = result' /\ tail observed = tail observed')
    (resolve_and_persist_batched_inner self size threshold s) (resolve_and_persist_batched_inner self size threshold' s).
Proof. apply thresholds_alike. Qed.

(** C7: the full pass and the batched one come to the same index, where imports
    and supertypes resolve alike before and after the edges of one another. Over
    a database in order whose nodes have ASCII names, whose wiring references
    the inheritance edges that they add do not move ([wiring_stable]: it fails
    when a dotted supertype is looked for among the supertypes of what is before
    the dot), and whose references have positive ids, and are scanned in the
    order of their ids, both passes return, whatever the batch size and the
    streaming threshold, and leave the same nodes, files, edges (with the same
    ids, in the same order) and unresolved references, and the same references
    moved: neither the size of the batches nor what a batch sees of the
    inheritance edges of the batches before it changes anything. *)
Theorem batched_pass_is_full_pass db incomplete size threshold :
  wf_db db -> ascii_names db -> wiring_stable db -> positive_ids db -> 0 < size ->
  scan_order "all_unresolved_refs" (db_unresolved_refs db) = sort_by row_before (db_unresolved_refs db) ->
  exists l a s l' a' s',
    runs (resolve_and_persist new_resolver) (mkPassStore db incomplete) l a s
    /\ runs (resolve_and_persist_batched_inner new_resolver size threshold) (mkPassStore db incomplete) l' a' s'
    /\ same_tables (ps_db s) (ps_db s') /\ ps_incomplete s' = false.
Proof.
  intros Hwf Hascii Hstable Hpos Hsize Hscan.
  destruct (full_ends db (mkPassStore db incomplete) Hwf Hstable eq_refl Hscan) as (l & a & s & Hr & Hst).
  destruct (batched_ends db size threshold (mkPassStore db incomplete) Hwf Hascii Hstable Hpos Hsize eq_refl) as (l' & a' & s' & Hr' & _ & Hm & Hst').
  exists l, a, s, (l' ++ [s']), a', s'. split_and!; [done|exact Hr'| |done]. by eapply stands_same.
Qed.

(** What every commit of the batched pass keeps. *)
Lemma committed_cut db size threshold incomplete : wf_db db -> ascii_names db -> wiring_stable db -> positive_ids db -> 0 < size ->
  exists l a s', runs (resolve_and_persist_batched_inner new_resolver size threshold) (mkPassStore db incomplete) (l ++ [s']) a s'
    /\ Forall (fun c => ps_incomplete c = true) l /\ ps_incomplete s' = false /\ ended db s'
    /\ (forall c, c ∈ l ++ [s'] -> exists es h, stands db es h (ps_db c) /\ cut db es h).
Proof.
  intros Hwf Hascii Hstable Hpos Hsize.
  destruct (batched_ends db size threshold (mkPassStore db incomplete) Hwf Hascii Hstable Hpos Hsize eq_refl) as (l & a & s' & Hr & Hl & Hm & Hst).
  exists l, a, s'. split_and!; [done| |done|done|].
  - eapply Forall_impl; [exact Hl|]. by intros c [? _].
  - intros c [Hc|Hc]%elem_of_app; [exact (proj2 (Forall_elem Hl Hc))|]. apply list_elem_of_singleton in Hc as ->.
    exists (all_edges db), (all_moved db). split; [done|].
    pose proof (last_cut db (chain_edges db ++ member_edges db) Hwf) as Hcut. apply Hcut. exists []. by rewrite app_nil_r.
Qed.

(** C8: a batched pass loses no reference, wherever the process dies. Every
    state it commits but the last has the marker that tells the next sync to
    sweep, and the last has not; and in every state it commits the nodes and
    files are those there were, and each reference is still unresolved, or it
    has moved to the resolved ones and is a constructor's internal one or its
    edge is in (or has an end that is no node). The nodes have ASCII names, and the
    inheritance edges that the wiring references add move none of them. *)
Theorem resolution_never_loses db incomplete size threshold :
  wf_db db -> ascii_names db -> wiring_stable db -> positive_ids db -> 0 < size ->
  exists l a s',
    runs (resolve_and_persist_batched_inner new_resolver size threshold) (mkPassStore db incomplete) (l ++ [s']) a s'
    /\ Forall (fun c => ps_incomplete c = true) l /\ ps_incomplete s' = false
    /\ forall c, c ∈ l ++ [s'] ->
         db_nodes (ps_db c) = db_nodes db /\ db_files (ps_db c) = db_files db
         /\ forall r, r ∈ db_unresolved_refs db ->
              r ∈ db_unresolved_refs (ps_db c)
              \/ (r ∈ db_resolved_refs (ps_db c)
                  /\ exists u, row_to_unresolved_ref r = Ok u
                     /\ (is_constructor_name (ref_reference_name u) = true
                         \/ exists res, (settled db u).1 = Some res /\ addressed (ps_db c) (create_edge (ps_db c) res))).
Proof.
  intros Hwf Hascii Hstable Hpos Hsize. destruct (committed_cut db size threshold incomplete Hwf Hascii Hstable Hpos Hsize) as (l & a & s' & Hr & Hl & Hm & _ & Hc).
  exists l, a, s'. split_and!; [done..|]. intros c Hin. destruct (Hc c Hin) as (es & h & Hst & Hcut).
  split_and!; [apply (st_nodes _ _ _ _ Hst)|apply (st_files _ _ _ _ Hst)|]. intros r Hrow.
  destruct (decide (rr_id r ∈ h)) as [Hh|Hn]; [right|left; rewrite (st_unresolved _ _ _ _ Hst); by apply list_elem_of_filter].
  split; [rewrite (st_resolved _ _ _ _ Hst); apply elem_of_app; right; by apply list_elem_of_filter|].
  destruct (Forall_elem (wf_unresolved_parse _ Hwf) Hrow) as [u Hu]. exists u. split; [done|].
  assert (Hg : u ∈ gv_refs (view_of db)) by (apply elem_of_parsed; eauto).
  destruct (ref_row_fields r u Hu) as (_ & Ei & _). rewrite <- Ei in Hh.
  destruct (cut_moved _ _ _ Hcut u Hg Hh) as [[[res Hres]|Hctor] He]; [right|by left]. exists res. split; [done|].
  rewrite (create_edge_nodes (ps_db c) db) by exact (st_nodes _ _ _ _ Hst).
  pose proof (edges_in_addressed es db _ (He res Hres)) as Ha. unfold addressed, node_ids in *.
  rewrite edges_in_nodes in Ha. by rewrite (st_edges _ _ _ _ Hst), (st_nodes _ _ _ _ Hst).
Qed.

(** C6: a pass that was interrupted can be run again. From any state that a
    batched pass commits, a new pass, with any batch size and threshold,
    returns, comes to the index that the first one comes to (the same edges with
    the same ids, the same references unresolved and moved) and clears the
    marker: it inserts no edge twice and misses none, though it takes up only the
    references that are left. The nodes have ASCII names, and the inheritance edges
    that the wiring references add move none of them. *)
Theorem resolution_resumes db incomplete size threshold size' threshold' :
  wf_db db -> ascii_names db -> wiring_stable db -> positive_ids db -> 0 < size -> 0 < size' ->
  exists l a s',
    runs (resolve_and_persist_batched_inner new_resolver size threshold) (mkPassStore db incomplete) (l ++ [s']) a s'
    /\ forall c, c ∈ l ++ [s'] -> exists l2 a2 s2,
         runs (resolve_and_persist_batched_inner new_resolver size' threshold') c l2 a2 s2
         /\ same_tables (ps_db s2) (ps_db s') /\ ps_incomplete s2 = false.
Proof.
  intros Hwf Hascii Hstable Hpos Hsize Hsize'.
  destruct (committed_cut db size threshold incomplete Hwf Hascii Hstable Hpos Hsize) as (l & a & s' & Hr & Hl & Hm & [_ Hend] & Hc).
  exists l, a, s'. split; [done|]. intros c Hin. destruct (Hc c Hin) as (es & h & Hst & Hcut).
  assert (Hpos' : positive_ids (ps_db c)).
  { unfold positive_ids. rewrite (st_unresolved _ _ _ _ Hst). eapply Forall_submseteq; [apply filter_submseteq|exact Hpos]. }
  assert (Hascii' : ascii_names (ps_db c)) by (unfold ascii_names; by rewrite (st_nodes _ _ _ _ Hst)).
  pose proof (resumed_stable db (ps_db c) es h Hwf Hstable Hst Hcut) as Hstable'.
  destruct (batched_ends (ps_db c) size' threshold' c (st_wf _ _ _ _ Hst) Hascii' Hstable' Hpos' Hsize' eq_refl) as (l2 & a2 & s2 & Hr2 & _ & Hm2 & Hst2).
  exists (l2 ++ [s2]), a2, s2. split_and!; [exact Hr2| |done].
  eapply stands_same; [|exact Hend]. by eapply resumed_ends.
Qed.

End Passes.

(** ** At a project *)

(** [str::to_lowercase] on ASCII and on the capitals of Latin-1, in UTF-8. *)
Fixpoint latin1_lower (s : string) : string :=
  match s with
  | EmptyString => EmptyString
  | String a s =>
      if (N_of_ascii a =? 195)%N then
        match s with
        | EmptyString => String a EmptyString
        | String b s =>
            let n := N_of_ascii b in
            String a (String (if ((128 <=? n) && (n <=? 158) && negb (n =? 151))%N then ascii_of_N (n + 32) else b) (latin1_lower s))
        end
      else String (ascii_lower a) (latin1_lower s)
  end.

#[export] Instance Latin1Tables : UnicodeTables := {|
  is_alphabetic c := (((65 <=? c) && (c <=? 90)) || ((97 <=? c) && (c <=? 122)) || ((192 <=? c) && (c <=? 255)))%N;
  is_numeric := is_ascii_digit;
  is_uppercase c := (((65 <=? c) && (c <=? 90)) || ((192 <=? c) && (c <=? 222) && negb (c =? 215)))%N;
  char_to_lowercase c := if (((65 <=? c) && (c <=? 90)) || ((192 <=? c) && (c <=? 222) && negb (c =? 215)))%N then (c + 32)%N else c;
  str_to_lowercase := latin1_lower
|}.

#[export] Instance Latin1Tables_laws : LowercaseLaws.
Proof.
  intros name. cbn. induction name as [|a name IH]; [done|]. cbn [all_bytes latin1_lower to_ascii_lowercase].
  rewrite andb_true_iff. unfold is_ascii at 1. intros [Ha Hn]. apply N.ltb_lt in Ha.
  rewrite (proj2 (N.eqb_neq _ 195)) by lia. by rewrite IH.
Qed.

(** Strategies by name: the node of the name; a call that has none is put off,
    and then looked for among the supertypes of what is before the dot. *)
Definition found_by_name (c : ResolutionContext) (r : RefView) (name : string) : option ResolvedRef :=
  node ← head (get_nodes_by_name (cx_lookups c) name); Some (mkResolvedRef r (node_id node) "0.9" ByExactMatch).

#[export] Instance NameStrategies : Strategies := {|
  resolve_one_pure known c r :=
    match found_by_name c r (rv_reference_name r) with
    | Some res => (Some res, None)
    | None =>
        if is_constructor_name (rv_reference_name r) then (None, None)
        else if bool_decide (rv_reference_kind r = EkCalls) then (None, Some (ChainRef r))
        else if rv_is_function_ref r then (None, Some (ThisMemberRef r)) else (None, None)
    end;
  match_method_call c r := None;
  match_scoped_call_chain c r :=
    '(receiver, member) ← split_once "." (rv_reference_name r);
    match cx_supertypes c receiver (rv_language r) with [] => None | _ => found_by_name c r member end;
  match_dotted_call_chain c r := None;
  is_php_property_receiver_shape name := false;
  gate_language c o r := o;
  same_language_family l l' := bool_decide (l = l');
  this_scope_caller c n := n;
  extended_conformances lookups n := []
|}.

Lemma found_by_name_proper c c' r name : context_eq c c' -> found_by_name c r name = found_by_name c' r name.
Proof. intros [Hl _]. unfold found_by_name. by rewrite (le_name _ _ Hl). Qed.

#[export] Instance NameStrategies_proper : StrategiesProper.
Proof.
  split; repeat intro; subst; try done; cbn; match goal with Hc : context_eq _ _ |- _ => pose proof Hc as [_ Es] end.
  - erewrite found_by_name_proper by done. done.
  - destruct (split_once _ _) as [[receiver member]|]; [|done]. cbn. erewrite found_by_name_proper by done. by rewrite Es.
Qed.

Lemma found_by_name_original c r name res : found_by_name c r name = Some res -> res_original res = r.
Proof. unfold found_by_name. destruct (head _); [|done]. by intros [= <-]. Qed.

#[export] Instance NameStrategies_laws : StrategiesLaws.
Proof.
  split.
  - intros known c r res d. cbn. destruct (found_by_name c r _) as [res'|] eqn:E; [|by repeat case_match].
    intros [= <- _]. apply found_by_name_original in E. by rewrite E.
  - intros known c r o d. cbn. destruct (found_by_name c r _) as [res'|]; [done|].
    destruct (is_constructor_name _) eqn:Ec; [done|]. case_bool_decide as Ek; [by intros [= <- <-]|].
    destruct (rv_is_function_ref r) eqn:Ef; [|done]. by intros [= <- <-].
  - intros c r res. unfold chain_match. cbn [match_method_call match_scoped_call_chain match_dotted_call_chain gate_language NameStrategies].
    destruct (bool_decide _ && _); [done|]. destruct (is_scoped_chain_language _); [|done].
    destruct (split_once "." _) as [[receiver member]|]; [|done]. cbn [mbind option_bind].
    destruct (cx_supertypes c receiver (rv_language r)); [done|]. intros E%found_by_name_original. by rewrite E.
Qed.

(** The project of [Demo] with a supertype, a method called through it, a
    function called by its name, and a constructor's internal reference. *)
Definition pass_ref (from name : string) (kind : EdgeKind) (line : Z) : UnresolvedRef :=
  mkUnresolvedRef None from name kind line 4 None "src/b.rs" LangRust false None.

Definition pass_refs : list UnresolvedRef :=
  [pass_ref "function:main" "B.run" EkCalls 20; pass_ref "function:main" "stop" EkCalls 21;
   pass_ref "class:B" "A" EkExtends 22; pass_ref "function:main" "codegraph:cpp-constructor:X#1" EkCalls 23].

Definition pass_db : Db := ok_db (insert_unresolved_refs demo_db pass_refs).

Lemma pass_wf : wf_db pass_db.
Proof. assert (E : insert_unresolved_refs demo_db pass_refs = Ok pass_db) by (by vm_compute). exact (store_step_wf _ _ (step_insert_refs _ _ _ E) demo_wf). Qed.

Lemma pass_positive : positive_ids pass_db.
Proof. unfold positive_ids. refine (bool_decide_unpack _ _). by vm_compute. Qed.

Lemma pass_ascii : ascii_names pass_db.
Proof. unfold ascii_names. refine (bool_decide_unpack _ _). by vm_compute. Qed.

(** What is found by name does not ask for supertypes. *)
Lemma pass_stable : wiring_stable pass_db.
Proof.
  intros u es _ _. unfold outcome. cbn [resolve_one_pure NameStrategies]. unfold found_by_name.
  destruct (edges_in_tables es pass_db) as (En & Ef & _). cbn [cx_lookups store_context].
  by rewrite (store_lookups_same _ _ En Ef).
Qed.

Definition pass_outcome {A} (x : list PassStore * result SqlError (A * PassStore)) : option (nat * list (string * string * string) * list string) :=
  match x.2 with
  | Ok (_, s) => Some (length x.1, map (fun r => (er_source r, er_target r, er_kind r)) (drop 8 (db_edges (ps_db s))),
                       map rr_reference_name (db_unresolved_refs (ps_db s)))
  | _ => None
  end.

Definition pass_edges : list (string * string * string) :=
  [("class:B", "class:A", "extends"); ("function:main", "method:stop", "calls"); ("function:main", "method:run", "calls")].

(** The wiring first, though it is written last; then what was put off. *)
Example pass_runs :
  pass_outcome (resolve_and_persist_batched_inner new_resolver 1 0 (mkPassStore pass_db false)) = Some (8, pass_edges, ["helper"; "log"; "B.run"])
  /\ pass_outcome (resolve_and_persist_batched_inner new_resolver 1 100 (mkPassStore pass_db false)) = Some (8, pass_edges, ["helper"; "log"; "B.run"]).
Proof. split; by vm_compute. Qed.

Lemma streaming_matches_snapshot_witness :
  ascii_names pass_db
  /\ alike (fun '(self, result, observed) '(self', result', observed') _ =>
              self = self' /\ result = result' /\ tail observed = tail observed')
       (resolve_and_persist_batched_inner new_resolver 1 0 (mkPassStore pass_db false))
       (resolve_and_persist_batched_inner new_resolver 1 100 (mkPassStore pass_db false)).
Proof. split; [exact pass_ascii|]. apply streaming_matches_snapshot; [exact pass_wf|exact pass_ascii]. Defined.

Lemma pass_scanned : scan_order "all_unresolved_refs" (db_unresolved_refs pass_db) = sort_by row_before (db_unresolved_refs pass_db).
Proof. by vm_compute. Qed.

Lemma batched_pass_is_full_pass_witness :
  positive_ids pass_db /\ wiring_stable pass_db
  /\ exists l a s l' a' s',
       runs (resolve_and_persist new_resolver) (mkPassStore pass_db false) l a s
       /\ runs (resolve_and_persist_batched_inner new_resolver 2 100) (mkPassStore pass_db false) l' a' s'
       /\ same_tables (ps_db s) (ps_db s') /\ ps_incomplete s' = false.
Proof. split_and!; [exact pass_positive|exact pass_stable|]. apply batched_pass_is_full_pass; [exact pass_wf|exact pass_ascii|exact pass_stable|exact pass_positive|lia|exact pass_scanned]. Defined.

Lemma resolution_never_loses_witness :
  positive_ids pass_db /\ wiring_stable pass_db
  /\ exists l a s',
       runs (resolve_and_persist_batched_inner new_resolver 1 0) (mkPassStore pass_db false) (l ++ [s']) a s'
       /\ Forall (fun c => ps_incomplete c = true) l /\ ps_incomplete s' = false
       /\ forall c, c ∈ l ++ [s'] ->
            db_nodes (ps_db c) = db_nodes pass_db /\ db_files (ps_db c) = db_files pass_db
            /\ forall r, r ∈ db_unresolved_refs pass_db ->
                 r ∈ db_unresolved_refs (ps_db c)
                 \/ (r ∈ db_resolved_refs (ps_db c)
                     /\ exists u, row_to_unresolved_ref r = Ok u
                        /\ (is_constructor_name (ref_reference_name u) = true
                            \/ exists res, (settled pass_db u).1 = Some res /\ addressed (ps_db c) (create_edge (ps_db c) res))).
Proof. split_and!; [exact pass_positive|exact pass_stable|]. apply resolution_never_loses; [exact pass_wf|exact pass_ascii|exact pass_stable|exact pass_positive|lia]. Defined.

Lemma resolution_resumes_witness :
  positive_ids pass_db /\ wiring_stable pass_db
  /\ exists l a s',
       runs (resolve_and_persist_batched_inner new_resolver 1 0) (mkPassStore pass_db false) (l ++ [s']) a s'
       /\ forall c, c ∈ l ++ [s'] -> exists l2 a2 s2,
            runs (resolve_and_persist_batched_inner new_resolver 3 100) c l2 a2 s2
            /\ same_tables (ps_db s2) (ps_db s') /\ ps_incomplete s2 = false.
Proof. split_and!; [exact pass_positive|exact pass_stable|]. apply resolution_resumes; [exact pass_wf|exact pass_ascii|exact pass_stable|exact pass_positive|lia..]. Defined.

(** ** Without the conditions *)

(** The index two runs leave: the edges they add. *)
Definition added_edges {A} (x : list PassStore * result SqlError (A * PassStore)) : list (string * string * string) :=
  match x.2 with
  | Ok (_, s) => map (fun r => (er_source r, er_target r, er_kind r)) (drop 8 (db_edges (ps_db s)))
  | _ => []
  end.

(** A strategy that resolves a name by its lower case ([match_fuzzy]). *)
Definition FuzzyStrategies : Strategies := {|
  resolve_one_pure known c r :=
    (node ← head (get_nodes_by_lower_name (cx_lookups c) (str_to_lowercase (rv_reference_name r)));
     Some (mkResolvedRef r (node_id node) "0.5" ByFuzzy), None);
  match_method_call c r := None;
  match_scoped_call_chain c r := None;
  match_dotted_call_chain c r := None;
  is_php_property_receiver_shape name := false;
  gate_language c o r := o;
  same_language_family l l' := bool_decide (l = l');
  this_scope_caller c n := n;
  extended_conformances lookups n := []
|}.

(** A function whose name has a capital out of ASCII, called in lower case. *)
Definition cafe_db : Db :=
  ok_db (insert_unresolved_refs (ok_db (upsert_nodes demo_db [demo_node "function:cafe" NkFunction "CAFÉ" "src/a.rs" 40]))
           [pass_ref "function:main" "café" EkCalls 20]).

Lemma cafe_runs :
  added_edges (resolve_and_persist_batched_inner (H2 := FuzzyStrategies) new_resolver 10 0 (mkPassStore cafe_db false)) = []
  /\ added_edges (resolve_and_persist_batched_inner (H2 := FuzzyStrategies) new_resolver 10 100 (mkPassStore cafe_db false))
     = [("function:main", "function:cafe", "calls")].
Proof. split; by vm_compute. Qed.

(** A strategy that looks for what is after a dot once what is before it has a
    supertype ([match_method_call], of a supertype too). *)
Definition DottedStrategies : Strategies := {|
  resolve_one_pure known c r :=
    (match split_once "." (rv_reference_name r) with
     | Some (receiver, member) =>
         match cx_supertypes c receiver (rv_language r) with [] => None | _ => found_by_name c r member end
     | None => found_by_name c r (rv_reference_name r)
     end, None);
  match_method_call c r := None;
  match_scoped_call_chain c r := None;
  match_dotted_call_chain c r := None;
  is_php_property_receiver_shape name := false;
  gate_language c o r := o;
  same_language_family l l' := bool_decide (l = l');
  this_scope_caller c n := n;
  extended_conformances lookups n := []
|}.

(** [A] is said to extend [B], and [B] to extend [A.run]. *)
Definition dotted_db : Db :=
  ok_db (insert_unresolved_refs demo_db [pass_ref "class:A" "B" EkExtends 20; pass_ref "class:B" "A.run" EkExtends 21]).

Lemma dotted_runs :
  added_edges (resolve_and_persist_batched_inner (H2 := DottedStrategies) new_resolver 10 100 (mkPassStore dotted_db false))
    = [("class:A", "class:B", "extends")]
  /\ added_edges (resolve_and_persist_batched_inner (H2 := DottedStrategies) new_resolver 1 100 (mkPassStore dotted_db false))
    = [("class:A", "class:B", "extends"); ("class:B", "method:run", "extends")].
Proof. split; by vm_compute. Qed.
