(* ===== verification/ResolveIncremental.v ===== *)
(** * Incremental resolution (codegraph-resolve/src/resolver.rs,
      [resolve_incremental_and_persist]; codegraph-watch/src/sync.rs, the
      refresh of dependents and the sweep; of codegraph-store/src/queries.rs
      the lanes of references)

    After a sync changed some files: the references of their dependents are put
    back, site by site or file by file, and what may now resolve otherwise is
    read from four lanes and resolved. *)
From S2P Require Import Prelude Strings Types Rows Db DbRefs PathUtil StrOps LangDetect Collation ResolvePass.

(** ** The tail of a name *)

(** [strip_erlang_arity]. *)
Definition strip_erlang_arity (name : string) : string :=
  match rsplit_once SLASH name with
  | Some (base, arity) =>
      if negb (String.eqb base "") && (1 <=? String.length arity) && (String.length arity <=? 3) && all_bytes byte_is_digit arity
      then base else name
  | None => name
  end.

(** [file_name_stem]; a name that starts inside a wider character has none. *)
Definition file_name_stem (name : string) : string :=
  match name with
  | String first rest =>
      if (128 <=? N_of_ascii first)%N then name else
      match find_sub "." rest with Some dot => str_take (S dot) name | None => name end
  | EmptyString => name
  end.

(** [trim_end_matches] of one character. *)
Fixpoint trim_end_char (c : ascii) (s : string) : string :=
  match s with
  | EmptyString => EmptyString
  | String a s => match trim_end_char c s with
                  | EmptyString => if Ascii.eqb a c then EmptyString else String a EmptyString
                  | s => String a s
                  end
  end.

(** [reference_name_tail_of]. *)
Definition after_last_dot_or_colon (base : string) : string :=
  match rfind "." base, rfind ":" base with
  | None, None => base
  | Some at_, None | None, Some at_ => str_drop (S at_) base
  | Some i, Some j => str_drop (S (Nat.max i j)) base
  end.

Definition path_stem (name : string) : option string :=
  '(_, segment) ← rsplit_once SLASH (trim_end_char SLASH name);
  let stem := file_name_stem segment in
  if all_bytes (fun c => Ascii.eqb c ".") stem then None else Some stem.

Definition reference_name_tail_of (reference_name : string) (reference_kind : EdgeKind) : string :=
  let path_reference := bool_decide (reference_kind = EkReferences) && str_contains SLASH reference_name
                        && String.eqb (strip_erlang_arity reference_name) reference_name in
  match (if bool_decide (reference_kind = EkImports) || path_reference then path_stem reference_name else None) with
  | Some stem => stem
  | None => after_last_dot_or_colon (strip_erlang_arity reference_name)
  end.

(** ** The lanes *)

(** The order of a [BTreeSet<ReferenceSite>]. *)
Definition site_le (a b : ReferenceSite) : bool :=
  then_le (String.compare (site_from_node_id a) (site_from_node_id b))
    (then_le (Z.compare (site_line a) (site_line b)) (Z.leb (site_col a) (site_col b))).

Definition sorted_sites (sites : list ReferenceSite) : list ReferenceSite := sort_by site_le (unique_sites sites).

Definition rows_by_id (rows : list RefRow) : list RefRow := sort_by (fun a b => Z.leb (rr_id a) (rr_id b)) rows.

Definition CASE_INSENSITIVE_LANGUAGES : list Language := [LangPhp; LangPascal; LangCfml].
Definition NAME_TAIL_RETRY_CEILING : nat := 500.

(** What [unresolved_refs_retried_by_names] has found: the ids under each tail,
    and those that are taken whatever their number. *)
Record Retried : Type := mkRetried { rt_tails : gmap string (list Z); rt_chosen : gset Z }.

Section Incremental.
Context `{SerdeJson} `{SqlScan} `{UnicodeTables} `{Strategies}.

(** [Store::unresolved_refs_by_files]. *)
Definition unresolved_refs_by_files (db : Db) (file_paths : list string) : result SqlError (list UnresolvedRef) :=
  match file_paths with
  | [] => Ok []
  | _ =>
      for_M (fun out chunk =>
               rows ← map_M row_to_unresolved_ref
                        (scan_order "unresolved_refs_by_files" (filter (fun r => rr_file_path r ∈ chunk) (db_unresolved_refs db)));
               Ok (Continue (out ++ rows)))
            [] (chunks SQLITE_PARAM_CHUNK_SIZE (sorted_unique file_paths))
  end.

(** [Store::unresolved_refs_by_sites]. *)
Definition unresolved_refs_by_sites (db : Db) (sites : list ReferenceSite) : result SqlError (list UnresolvedRef) :=
  for_M (fun out site =>
           rows ← map_M row_to_unresolved_ref
                    (rows_by_id (scan_order "unresolved_refs_by_sites" (filter (ref_at_site site) (db_unresolved_refs db))));
           Ok (Continue (out ++ rows)))
        [] (sorted_sites sites).

(** [Store::unresolved_refs_retried_by_names]: one row. *)
Definition retried_languages (folded_languages : list Language) : list string :=
  map Language_as_str folded_languages ++ [Language_as_str LangPhp].

Definition in_any_case (names : list string) (folded_languages : list Language) (row : RefRow) : bool :=
  let is_php := String.eqb (rr_language row) (Language_as_str LangPhp) in
  let is_folded := bool_decide (rr_language row ∈ map Language_as_str folded_languages) in
  let lowered := to_ascii_lowercase (rr_reference_name row) in
  (is_php || is_folded)
  && ((is_php && bool_decide (lowered ∈ map (fun name => to_ascii_lowercase (String BACKSLASH name)) names))
      || (is_folded && bool_decide (lowered ∈ map to_ascii_lowercase names))).

Definition through_class (names : list string) (row : RefRow) : bool :=
  String.eqb (rr_language row) (Language_as_str LangPhp) && String.eqb (rr_reference_kind row) "calls"
  && str_contains BACKSLASH (rr_reference_name row)
  && match rsplit_once "." (rr_reference_name row) with
     | Some (class, member) => bool_decide (member ∈ names) || bool_decide (after_last BACKSLASH class ∈ names)
     | None => false
     end.

Definition retry_row (names : list string) (folded_languages : list Language) (row : RefRow) (rt : Retried)
    : result SqlError Retried :=
  let name := rr_reference_name row in
  tails ← (if str_contains "." name || str_contains ":" name then
             kind ← edge_kind_of (rr_reference_kind row);
             let tail := reference_name_tail_of name kind in
             Ok (if negb (String.eqb tail name) && bool_decide (tail ∈ names)
                 then <[tail := default [] (rt_tails rt !! tail) ++ [rr_id row]]> (rt_tails rt) else rt_tails rt)
           else Ok (rt_tails rt));
  Ok (mkRetried tails (if in_any_case names folded_languages row || through_class names row
                       then {[rr_id row]} ∪ rt_chosen rt else rt_chosen rt)).

Definition asks_retry (folded_languages : list Language) (row : RefRow) : Prop :=
  str_contains "." (rr_reference_name row) = true \/ str_contains ":" (rr_reference_name row) = true
  \/ rr_language row ∈ retried_languages folded_languages.

Definition chosen_ids (tail_ceiling : nat) (rt : Retried) : gset Z :=
  rt_chosen rt ∪ list_to_set (map_to_list (rt_tails rt) ≫= fun '(_, ids) => if length ids <=? tail_ceiling then ids else []).

(** [query_row] of the row of an id. *)
Definition ref_row_by_id (db : Db) (id : Z) : result SqlError UnresolvedRef :=
  match scan_order "ref_by_id" (filter (fun r => rr_id r = id) (db_unresolved_refs db)) with
  | row :: _ => row_to_unresolved_ref row
  | [] => Err (InvalidParameterName "Query returned no rows")
  end.

Definition unresolved_refs_retried_by_names (db : Db) (names : list string) (tail_ceiling : nat) (folded_languages : list Language)
    : result SqlError (list UnresolvedRef) :=
  match names with
  | [] => Ok []
  | _ =>
      rt ← for_M (fun rt row => rt ← retry_row names folded_languages row rt; Ok (Continue rt)) (mkRetried ∅ ∅)
             (rows_by_id (scan_order "unresolved_refs_retried_by_names" (filter (asks_retry folded_languages) (db_unresolved_refs db))));
      map_M (ref_row_by_id db) (sort_by Z.leb (elements (chosen_ids tail_ceiling rt)))
  end.

(** [union_persisted_refs]: by id, the first of an id; a reference without an
    id is an error. *)
Definition NO_ID : SqlError := InvalidParameterName "incremental resolution query returned a persisted reference without an id".

Definition union_step (by_id : gmap Z UnresolvedRef) (reference : UnresolvedRef) : result SqlError (loop_step (gmap Z UnresolvedRef)) :=
  match ref_id reference with
  | None => Err NO_ID
  | Some row_id => Ok (Continue (match by_id !! row_id with Some _ => by_id | None => <[row_id := reference]> by_id end))
  end.

Definition union_persisted_refs (lanes : list (list UnresolvedRef)) : result SqlError (list UnresolvedRef) :=
  by_id ← for_M union_step ∅ (concat lanes);
  Ok (map snd (sort_by (fun a b : Z * UnresolvedRef => Z.leb a.1 b.1) (map_to_list (by_id : gmap Z UnresolvedRef)))).

(** The references a sync resolves again. *)
Definition scoped_refs (db : Db) (files : list string) (sites : list ReferenceSite) (names : list string)
    : result SqlError (list UnresolvedRef) :=
  by_files ← unresolved_refs_by_files db files;
  by_sites ← unresolved_refs_by_sites db sites;
  by_names ← db_unresolved_refs_by_names db names;
  by_retry ← unresolved_refs_retried_by_names db names NAME_TAIL_RETRY_CEILING CASE_INSENSITIVE_LANGUAGES;
  union_persisted_refs [by_files; by_sites; by_names; by_retry].

Definition resolve_incremental_and_persist (self : Resolver) (scope_files : list string) (scope_sites : list ReferenceSite)
    (changed_names : list string) : Pass (Resolver * ResolutionResult) :=
  scoped ← reading (fun db => scoped_refs db scope_files scope_sites changed_names);
  out ← resolve_phases self empty_resolution (wiring_first scoped);
  _ ← delete_internal_constructor_rows scoped;
  self ← deferred_passes (out : Resolver * ResolutionResult).1;
  mret (self, out.2).

(** [sweep_orphaned_refs], but for the framework's extraction after it. *)
Definition ORPHAN_SWEEP_BATCH_ROWS : nat := 5000.

Definition sweep_orphaned_refs (streaming_threshold : nat) : Pass (Resolver * ResolutionResult * list ResolutionObservation) :=
  resolve_and_persist_batched_inner new_resolver ORPHAN_SWEEP_BATCH_ROWS streaming_threshold.

(** ** The refresh of dependents *)

(** [Store::stored_refs_at_sites]: both tables, by id, the ids dropped. *)
Definition ref_id_le (a b : UnresolvedRef) : bool :=
  match ref_id a, ref_id b with
  | None, _ => true
  | Some _, None => false
  | Some a, Some b => Z.leb a b
  end.

Definition stored_refs_at_sites (db : Db) (sites : list ReferenceSite) : result SqlError (list UnresolvedRef) :=
  out ← for_M (fun out site =>
           rows ← map_M row_to_unresolved_ref
                    (scan_order "stored_refs_at_sites"
                       (filter (ref_at_site site) (db_unresolved_refs db) ++ filter (ref_at_site site) (db_resolved_refs db)));
           Ok (Continue (out ++ rows))) [] (sorted_sites sites);
  Ok (map without_id (sort_by ref_id_le out)).

Definition reference_matches_site (reference : UnresolvedRef) (site : ReferenceSite) : bool :=
  String.eqb (ref_from_node_id reference) (site_from_node_id site) && Z.eqb (ref_line reference) (site_line site)
  && Z.eqb (ref_col reference) (site_col site).

(** [is_written_through]: the names are ASCII up to their first colon or dot. *)
Definition is_written_through (reference_name : string) (names : list string) : bool :=
  let end_ := match find_sub ":" reference_name, find_sub "." reference_name with
              | Some i, Some j => Nat.min i j
              | Some i, None | None, Some i => i
              | None, None => String.length reference_name
              end in
  let rest := str_drop end_ reference_name in
  (starts_with rest "::" || starts_with rest ".") && bool_decide (str_take end_ reference_name ∈ names).

(** [merge_dependent_site]. *)
Definition merge_dependent_site (affected : FileReferenceSite) (acc : gmap string (list ReferenceSite) * gset string)
    : gmap string (list ReferenceSite) * gset string :=
  let '(dependent_sites, fallback_files) := acc in
  match frs_site affected with
  | Some site =>
      if bool_decide (frs_file_path affected ∈ fallback_files) then acc
      else (<[frs_file_path affected := unique_sites (default [] (dependent_sites !! frs_file_path affected) ++ [site])]> dependent_sites,
            fallback_files)
  | None => (delete (frs_file_path affected) dependent_sites, {[frs_file_path affected]} ∪ fallback_files)
  end.

(** What the refresh asks: the disk, the frameworks, and an extraction. *)
Record RefreshEnv : Type := mkRefreshEnv {
  re_exists : string -> bool;
  re_reads_other_files : string -> bool;
  re_extract : string -> result SqlError (list UnresolvedRef)
}.

Record Refreshed : Type := mkRefreshed {
  rf_replacements : list ResolutionReplacement;
  rf_sites : list ReferenceSite;
  rf_files : gset string
}.

Section Refresh.
Variables (env : RefreshEnv) (db : Db).
Variables (dependent_sites : gmap string (list ReferenceSite)) (fallback_files : gset string)
  (receiver_names : gmap string (list string)) (already_reindexed : gset string) (stored_refs : bool).

Definition dependents : list string :=
  filter (fun relative => relative ∉ already_reindexed /\ re_exists env relative = true)
    (sort_by str_le (elements (dom dependent_sites ∪ fallback_files ∪ dom receiver_names))).

Definition from_store (relative : string) : bool := stored_refs && negb (re_reads_other_files env relative).

(** The references of a dependent, and whether they are only those of its
    sites. *)
Definition dependent_refs (relative : string) : result SqlError (list UnresolvedRef * bool) :=
  let site_only := negb (bool_decide (relative ∈ fallback_files)) && bool_decide (receiver_names !! relative = None) in
  if from_store relative then
    match (if site_only then dependent_sites !! relative else None) with
    | Some sites => refs ← stored_refs_at_sites db sites; Ok (refs, true)
    | None => refs ← stored_refs_of_file db relative; Ok (refs, false)
    end
  else refs ← re_extract env relative; Ok (refs, false).

Definition matches_some (refs : list UnresolvedRef) (site : ReferenceSite) : bool :=
  existsb (fun reference => reference_matches_site reference site) refs.

Definition needs_fallback (relative : string) (refs : list UnresolvedRef) : bool :=
  bool_decide (relative ∈ fallback_files)
  || match dependent_sites !! relative with
     | Some sites => existsb (fun site => negb (matches_some refs site)) sites
     | None => false
     end.

(** The dependent's sites, and those of the references written through one of
    its receivers. *)
Definition site_set (relative : string) (refs : list UnresolvedRef) : list ReferenceSite :=
  sorted_sites (default [] (dependent_sites !! relative)
    ++ match receiver_names !! relative with
       | Some names => map (fun r => mkSite (ref_from_node_id r) (ref_line r) (ref_col r))
                         (filter (fun r => is_written_through (ref_reference_name r) names = true) refs)
       | None => []
       end).

Definition refresh_one (relative : string) (rf : Refreshed) : result SqlError Refreshed :=
  read ← dependent_refs relative;
  let '(refs, scoped) := (read : list UnresolvedRef * bool) in
  if needs_fallback relative refs then
    refs ← (if scoped then stored_refs_of_file db relative else Ok refs);
    Ok (mkRefreshed (rf_replacements rf ++ [ReplaceFile relative refs]) (rf_sites rf) ({[relative]} ∪ rf_files rf))
  else
    match site_set relative refs with
    | [] => Ok rf
    | sites =>
        let selected := filter (fun r => existsb (reference_matches_site r) sites = true) refs in
        Ok (mkRefreshed (rf_replacements rf ++ [ReplaceSites sites selected]) (unique_sites (rf_sites rf ++ sites)) (rf_files rf))
    end.

Definition refresh_plan : result SqlError Refreshed :=
  for_M (fun rf relative => rf ← refresh_one relative rf; Ok (Continue rf)) (mkRefreshed [] [] ∅) dependents.

Definition refresh_dependent_refs : result SqlError (Db * list ReferenceSite * gset string) :=
  rf ← refresh_plan;
  db ← replace_resolution_states db (rf_replacements rf);
  Ok (db, rf_sites rf, rf_files rf).

End Refresh.

End Incremental.
