(* ===== verification/ResolveIncrementalProps.v ===== *)
(** * What incremental resolution promises

    Its scope is the references in a changed file, at a site put back, under a
    changed name, or waiting for one; and it does with them what a full pass
    would, were they the only unresolved ones. *)
From S2P Require Import Prelude Strings Types Rows Db DbRefs DbFacts GraphStore StoreView StoreProps Demo PathUtil StrOps LangDetect.
From S2P Require Import Collation ResolvePass ResolveRuns ResolveSpec ResolvePassProps ResolveIncremental.

(** ** The lanes *)

Section Lanes.
Context `{SqlScanLaws} `{!SerdeJson} `{!SerdeJsonLaws}.

Lemma ref_row_site r u : row_to_unresolved_ref r = Ok u -> ref_line u = rr_line r /\ ref_col u = rr_col r.
Proof.
  unfold row_to_unresolved_ref. destruct (if String.eqb _ _ then _ else _); cbn [mbind result_bind]; [|done..]. by parse_inv.
Qed.

(** A reference of one of the sites. *)
Definition at_site (u : UnresolvedRef) (site : ReferenceSite) : Prop :=
  ref_from_node_id u = site_from_node_id site /\ ref_line u = site_line site /\ ref_col u = site_col site.

Lemma at_site_row r u site : row_to_unresolved_ref r = Ok u -> ref_at_site site r <-> at_site u site.
Proof.
  intros Hu. destruct (row_to_ref_fields r u Hu) as (_ & Ef & _). destruct (ref_row_site r u Hu) as [El Ec].
  unfold ref_at_site, at_site. by rewrite Ef, El, Ec.
Qed.

Lemma by_files_ok db files : wf_db db ->
  returns (unresolved_refs_by_files db files) (fun rs => forall u, u ∈ rs <-> u ∈ gv_refs (view_of db) /\ ref_file_path u ∈ files).
Proof.
  intros Hwf. unfold unresolved_refs_by_files. destruct files as [|f files]; [cbn; set_solver|].
  set (all := f :: files). clearbody all. clear f files.
  apply (returns_for_M _ (fun pre rs => forall u, u ∈ rs <-> u ∈ gv_refs (view_of db) /\ ref_file_path u ∈ mjoin pre)).
  - cbn. set_solver.
  - intros pre chunk post rs _ Hrs.
    returns_step (scan_parsed row_to_unresolved_ref (fun r => rr_file_path r ∈ chunk) (fun u => ref_file_path u ∈ chunk)).
    + by apply wf_unresolved_parse.
    + intros r u (_ & _ & _ & ->)%row_to_ref_fields. done.
    + intros us Hus u. rewrite elem_of_app, Hrs, Hus, list_elem_of_filter, join_app, elem_of_app. cbn. rewrite app_nil_r. tauto.
  - intros rs Hrs u. rewrite Hrs, chunks_concat, elem_of_sorted_unique by done. done.
Qed.

Lemma elem_of_sorted_sites site sites : site ∈ sorted_sites sites <-> site ∈ sites.
Proof. unfold sorted_sites, unique_sites. by rewrite elem_of_sort_by, elem_of_remove_dups. Qed.

Lemma by_sites_ok db sites : wf_db db ->
  returns (unresolved_refs_by_sites db sites)
    (fun rs => forall u, u ∈ rs <-> u ∈ gv_refs (view_of db) /\ exists site, site ∈ sites /\ at_site u site).
Proof.
  intros Hwf. unfold unresolved_refs_by_sites.
  apply (returns_for_M _ (fun pre rs => forall u, u ∈ rs <-> u ∈ gv_refs (view_of db) /\ exists site, site ∈ pre /\ at_site u site)).
  - set_solver.
  - intros pre site post rs _ Hrs. rewrite map_M_parsed.
    + cbn. intros u. rewrite elem_of_app, Hrs. unfold rows_by_id.
      rewrite (parsed_perm _ _ (filter (ref_at_site site) (db_unresolved_refs db))) by (by rewrite sort_by_perm, scan_perm).
      cbn. rewrite !elem_of_parsed. setoid_rewrite list_elem_of_filter. split.
      * intros [(Hu & s & Hs & Ha)|(r & [Hr1 Hr2] & Hp)]; [split; [done|]; exists s; set_solver|].
        split; [eauto|]. exists site. split; [set_solver|]. by eapply at_site_row.
      * intros [(r & Hr & Hp) (s & [Hs| ->%list_elem_of_singleton]%elem_of_app & Ha)]; [left; split; [by exists r|by exists s]|right].
        exists r. split; [split; [by eapply at_site_row|done]|done].
    + unfold rows_by_id. rewrite sort_by_perm, scan_perm. eapply Forall_submseteq; [apply filter_submseteq|by apply wf_unresolved_parse].
  - intros rs Hrs u. rewrite Hrs. setoid_rewrite elem_of_sorted_sites. done.
Qed.

(** *** The references that wait for a name *)

Section Retry.
Variables (db : Db) (names : list string) (ceiling : nat) (folded : list Language).
Hypothesis Hwf : wf_db db.

(** The row waits for a name as the tail of its own. *)
Definition waits_for (r : RefRow) (tail : string) : Prop :=
  (str_contains "." (rr_reference_name r) = true \/ str_contains ":" (rr_reference_name r) = true)
  /\ tail ∈ names /\ tail <> rr_reference_name r
  /\ exists kind, edge_kind_of (rr_reference_kind r) = Ok kind /\ reference_name_tail_of (rr_reference_name r) kind = tail.

#[export] Instance waits_for_dec r tail : Decision (waits_for r tail).
Proof.
  unfold waits_for. destruct (edge_kind_of (rr_reference_kind r)) as [k| |] eqn:E.
  - destruct (decide (reference_name_tail_of (rr_reference_name r) k = tail)) as [Et|Et].
    + destruct (decide ((str_contains "." (rr_reference_name r) = true \/ str_contains ":" (rr_reference_name r) = true)
        /\ tail ∈ names /\ tail <> rr_reference_name r)) as [Hd|Hd]; [left; naive_solver|right; naive_solver].
    + right. intros (_ & _ & _ & k' & [= <-] & Et'). done.
  - right. intros (_ & _ & _ & k' & ? & _). done.
  - right. intros (_ & _ & _ & k' & ? & _). done.
Defined.

(** A row is retried for its spelling, or for its tail if not too many wait
    for that. *)
Definition retried (r : RefRow) : Prop :=
  in_any_case names folded r = true \/ through_class names r = true
  \/ exists tail, waits_for r tail /\ length (filter (fun r' => waits_for r' tail) (db_unresolved_refs db)) <= ceiling.

Record retry_inv (pre : list RefRow) (rt : Retried) : Prop := {
  ri_tails : forall tail, default [] (rt_tails rt !! tail) = map rr_id (filter (fun r => waits_for r tail) pre);
  ri_chosen : forall x, x ∈ rt_chosen rt <-> exists r, r ∈ pre /\ rr_id r = x /\ (in_any_case names folded r = true \/ through_class names r = true)
}.

Lemma edge_kind_of_ok r : r ∈ db_unresolved_refs db -> exists kind, edge_kind_of (rr_reference_kind r) = Ok kind.
Proof.
  intros Hr. destruct (Forall_elem (wf_unresolved_parse _ Hwf) Hr) as [u Hu]. revert Hu. unfold row_to_unresolved_ref, edge_kind_of.
  destruct (String.eqb_spec (rr_reference_kind r) "function_ref"); [eauto|]. unfold parse_edge_kind.
  destruct (edge_kind_named _); [eauto|]. done.
Qed.

Lemma retry_row_ok pre r rt : r ∈ db_unresolved_refs db -> retry_inv pre rt ->
  returns (retry_row names folded r rt) (fun rt' => retry_inv (pre ++ [r]) rt').
Proof.
  intros Hr [Ht Hc]. destruct (edge_kind_of_ok r Hr) as [kind Hk]. unfold retry_row. rewrite Hk. cbn [mbind result_bind].
  assert (Hfilter : forall tail, filter (fun r => waits_for r tail) (pre ++ [r])
    = filter (fun r => waits_for r tail) pre ++ (if decide (waits_for r tail) then [r] else [])).
  { intros tail. by rewrite filter_app. }
  assert (Hsep : forall tail, waits_for r tail <-> (str_contains "." (rr_reference_name r) || str_contains ":" (rr_reference_name r)) = true
     /\ tail ∈ names /\ tail <> rr_reference_name r /\ reference_name_tail_of (rr_reference_name r) kind = tail).
  { intros tail. unfold waits_for. rewrite orb_true_iff, Hk. naive_solver. }
  set (tail := reference_name_tail_of (rr_reference_name r) kind) in *.
  assert (Htails : exists tails, (if str_contains "." (rr_reference_name r) || str_contains ":" (rr_reference_name r) then
       Ok (if negb (String.eqb tail (rr_reference_name r)) && bool_decide (tail ∈ names)
           then <[tail := default [] (rt_tails rt !! tail) ++ [rr_id r]]> (rt_tails rt) else rt_tails rt)
     else Ok (rt_tails rt)) = (Ok tails : result SqlError _)
     /\ forall t, default [] (tails !! t) = map rr_id (filter (fun r => waits_for r t) (pre ++ [r]))).
  { exists (if str_contains "." (rr_reference_name r) || str_contains ":" (rr_reference_name r) then
       (if negb (String.eqb tail (rr_reference_name r)) && bool_decide (tail ∈ names)
        then <[tail := default [] (rt_tails rt !! tail) ++ [rr_id r]]> (rt_tails rt) else rt_tails rt)
     else rt_tails rt).
    split; [by destruct (_ || _)|]. intros t. rewrite Hfilter, map_app, <- Ht.
    destruct (decide (waits_for r t)) as [Hw|Hw].
    - apply Hsep in Hw as (-> & Hn & Hne & <-). rewrite (bool_decide_eq_true_2 _ Hn), andb_true_r.
      rewrite (proj2 (String.eqb_neq _ _) Hne). cbn. by rewrite lookup_insert_eq.
    - rewrite app_nil_r. rewrite Hsep in Hw. destruct (_ || _) eqn:Eo; [|done].
      destruct (negb _ && _) eqn:Eb; [|done]. apply andb_true_iff in Eb as [Eb1 Eb2%bool_decide_eq_true].
      rewrite negb_true_iff, String.eqb_neq in Eb1. rewrite lookup_insert_ne; [done|]. intros <-. apply Hw. auto. }
  destruct Htails as (tails & -> & Htails). cbn [mbind result_bind returns]. split; cbn [rt_tails rt_chosen]; [exact Htails|].
  intros x. assert (Ex : (exists r0, r0 ∈ pre ++ [r] /\ rr_id r0 = x /\ (in_any_case names folded r0 = true \/ through_class names r0 = true))
    <-> x ∈ rt_chosen rt \/ (rr_id r = x /\ (in_any_case names folded r = true \/ through_class names r = true))).
  { rewrite Hc. split.
    - intros (r' & [Hr'| ->%list_elem_of_singleton]%elem_of_app & Hx); [left; by exists r'|by right].
    - intros [(r' & Hr' & Hx)|Hx]; [exists r'|exists r]; (split; [apply elem_of_app|done]); [by left|right; by left]. }
  rewrite Ex. destruct (in_any_case names folded r || through_class names r) eqn:Eo.
  - apply orb_true_iff in Eo. rewrite elem_of_union, elem_of_singleton. split; [intros [->|?]; auto|intros [?|[<- _]]; auto].
  - apply orb_false_iff in Eo as [-> ->]. split; [auto|]. intros [?|[_ [?|?]]]; done.
Qed.

Lemma asks_retry_php r : rr_language r = Language_as_str LangPhp -> asks_retry folded r.
Proof. intros E. right. right. unfold retried_languages. rewrite E. set_solver. Qed.

Lemma in_any_case_asks r : in_any_case names folded r = true -> asks_retry folded r.
Proof.
  unfold in_any_case. intros [Hl _]%andb_true_iff. apply orb_true_iff in Hl as [Hl|Hl].
  - apply String.eqb_eq in Hl. by apply asks_retry_php.
  - apply bool_decide_eq_true in Hl. right. right. unfold retried_languages. set_solver.
Qed.

Lemma through_class_asks r : through_class names r = true -> asks_retry folded r.
Proof. unfold through_class. rewrite !andb_true_iff. intros [[[Hl _] _] _]. apply String.eqb_eq in Hl. by apply asks_retry_php. Qed.

Lemma waits_for_asks r tail : waits_for r tail -> asks_retry folded r.
Proof. intros [[?|?] _]; [by left|right; by left]. Qed.

Lemma map_M_elem {E A B} (f : A -> result E B) l : (forall x, x ∈ l -> exists b, f x = Ok b) ->
  returns (map_M f l) (fun rs => forall b, b ∈ rs <-> exists x, x ∈ l /\ f x = Ok b).
Proof.
  induction l as [|x l IH]; intros Hl; cbn [map_M]; [set_solver|].
  destruct (Hl x) as [b Hb]; [set_solver|]. rewrite Hb. cbn [mbind result_bind].
  apply returns_bind. eapply returns_mono; [apply IH; set_solver|]. intros rs Hrs b'. cbn in Hrs |- *. rewrite elem_of_cons, Hrs. split.
  - intros [->|(x' & ? & ?)]; [exists x|exists x']; set_solver.
  - intros (x' & [->|Hx']%elem_of_cons & Hf); [left; congruence|right; eauto].
Qed.

Lemma ref_row_by_id_ok r : r ∈ db_unresolved_refs db -> ref_row_by_id db (rr_id r) = row_to_unresolved_ref r.
Proof.
  intros Hr. unfold ref_row_by_id. pose proof (scan_perm "ref_by_id" (filter (fun r' => rr_id r' = rr_id r) (db_unresolved_refs db))) as Hp.
  destruct (scan_order _ _) as [|r' rest].
  - assert (Hin : r ∈ filter (fun r' => rr_id r' = rr_id r) (db_unresolved_refs db)) by (by apply list_elem_of_filter).
    rewrite <- Hp in Hin. set_solver.
  - assert (Hin : r' ∈ filter (fun r' => rr_id r' = rr_id r) (db_unresolved_refs db)) by (rewrite <- Hp; set_solver).
    apply list_elem_of_filter in Hin as [Ei Hr']. f_equal.
    apply (NoDup_map_inj rr_id (db_unresolved_refs db)); [by apply wf_unresolved_ids|done..].
Qed.

Lemma elem_of_chosen_ids rows rt : rows ≡ₚ filter (asks_retry folded) (db_unresolved_refs db) -> retry_inv rows rt ->
  forall x, x ∈ chosen_ids ceiling rt <-> exists r, r ∈ db_unresolved_refs db /\ rr_id r = x /\ retried r.
Proof.
  intros Hp [Ht Hc] x. unfold chosen_ids. rewrite elem_of_union, Hc, elem_of_list_to_set, list_elem_of_bind.
  assert (Hwait : forall tail, filter (fun r => waits_for r tail) rows ≡ₚ filter (fun r => waits_for r tail) (db_unresolved_refs db)).
  { intros tail. rewrite Hp, list_filter_filter. apply reflexive_eq, list_filter_iff. intros r. split; [tauto|].
    intros Hw. split; [done|by eapply waits_for_asks]. }
  assert (Hin : forall r, r ∈ rows <-> r ∈ db_unresolved_refs db /\ asks_retry folded r) by (intros r; rewrite Hp; rewrite (list_elem_of_filter (asks_retry folded)); tauto).
  split.
  - intros [(r & Hr%Hin & Hi & Hor)|([tail ids] & Hx & Htl%elem_of_map_to_list)].
    + exists r. split; [apply Hr|]. split; [done|]. unfold retried. tauto.
    + specialize (Ht tail). rewrite Htl in Ht. cbn in Ht. destruct (Nat.leb_spec (length ids) ceiling) as [Hle|]; [|set_solver].
      rewrite Ht in Hx, Hle. apply elem_of_map in Hx as (r & -> & [Hw Hr]%list_elem_of_filter).
      exists r. split; [by apply Hin|]. split; [done|]. right. right. exists tail. split; [done|]. by rewrite length_map, Hwait in Hle.
  - intros (r & Hr & <- & [Hi|[Hi|(tail & Hw & Hle)]]).
    + left. exists r. rewrite Hin. split_and!; auto using in_any_case_asks.
    + left. exists r. rewrite Hin. split_and!; auto using through_class_asks.
    + right. specialize (Ht tail). assert (Hrw : rr_id r ∈ map rr_id (filter (fun r => waits_for r tail) rows)).
      { apply elem_of_map. exists r. split; [done|]. apply list_elem_of_filter. split; [done|]. apply Hin. split; [done|by eapply waits_for_asks]. }
      rewrite <- Ht in Hrw. destruct (rt_tails rt !! tail) as [ids|] eqn:E; [|by apply not_elem_of_nil in Hrw]. cbn in Hrw, Ht.
      exists (tail, ids). split; [|by apply elem_of_map_to_list]. rewrite (proj2 (Nat.leb_le (length ids) ceiling)); [done|].
      rewrite Ht, length_map, Hwait. done.
Qed.

Lemma not_in_nil {A} `{!EqDecision A} (x : A) : bool_decide (x ∈ []) = false.
Proof. apply bool_decide_eq_false_2, not_elem_of_nil. Qed.

Lemma retried_nil r : names = [] -> ~ retried r.
Proof.
  intros En [Hr|[Hr|(t & (_ & Ht & _) & _)]]; [| |rewrite En in Ht; by apply not_elem_of_nil in Ht].
  - unfold in_any_case in Hr. rewrite En in Hr. cbn [map] in Hr. by rewrite !not_in_nil, !andb_false_r in Hr.
  - unfold through_class in Hr. rewrite En in Hr. destruct (rsplit_once "." _) as [[class member]|]; [|by rewrite andb_false_r in Hr].
    by rewrite !not_in_nil, andb_false_r in Hr.
Qed.

Lemma by_retry_ok : returns (unresolved_refs_retried_by_names db names ceiling folded)
  (fun rs => forall u, u ∈ rs <-> exists r, r ∈ db_unresolved_refs db /\ row_to_unresolved_ref r = Ok u /\ retried r).
Proof.
  unfold unresolved_refs_retried_by_names. destruct names as [|n ns] eqn:En.
  { cbn. intros u. split; [set_solver|]. intros (r & _ & _ & Hr). by apply retried_nil in Hr. }
  rewrite <- En. set (rows := rows_by_id _).
  assert (Hrows : rows ≡ₚ filter (asks_retry folded) (db_unresolved_refs db)) by (unfold rows, rows_by_id; by rewrite sort_by_perm, scan_perm).
  apply returns_bind. eapply returns_mono; [apply (returns_for_M _ (fun pre rt => retry_inv pre rt))|].
  - split; cbn; [intros t; by rewrite lookup_empty|set_solver].
  - intros pre r post rt Hsplit Hinv. apply returns_bind. eapply returns_mono; [apply retry_row_ok; [|exact Hinv]|done].
    assert (Hr : r ∈ rows) by (rewrite Hsplit; set_solver). rewrite Hrows in Hr. by apply list_elem_of_filter in Hr as [_ ?].
  - done.
  - intros rt Hinv. cbn beta in Hinv. pose proof (elem_of_chosen_ids rows rt Hrows Hinv) as Hids.
    assert (Hel : forall x, x ∈ sort_by Z.leb (elements (chosen_ids ceiling rt)) <-> exists r, r ∈ db_unresolved_refs db /\ rr_id r = x /\ retried r)
      by (intros x; by rewrite elem_of_sort_by, elem_of_elements).
    eapply returns_mono; [apply map_M_elem|].
    + intros x (r & Hr & <- & _)%Hel. rewrite ref_row_by_id_ok by done. exact (Forall_elem (wf_unresolved_parse _ Hwf) Hr).
    + intros rs Hrs u. cbn in Hrs. rewrite Hrs. split.
      * intros (x & (r & Hr & <- & Hret)%Hel & Hu). rewrite ref_row_by_id_ok in Hu by done. eauto.
      * intros (r & Hr & Hu & Hret). exists (rr_id r). split; [apply Hel; eauto|]. by rewrite ref_row_by_id_ok.
Qed.

End Retry.

(** *** The union of the lanes *)

Lemma StronglySorted_map {A B} (R : B -> B -> Prop) (f : A -> B) l :
  StronglySorted R (map f l) <-> StronglySorted (fun a b => R (f a) (f b)) l.
Proof.
  induction l as [|x l IH]; [split; constructor|]. cbn. split; inversion 1 as [|? ? Hl Hx]; subst; constructor; try by apply IH.
  - by rewrite Forall_map in Hx.
  - by rewrite Forall_map.
Qed.

(** References of the store, by increasing id, are known by which they are. *)
Lemma refs_sorted_unique db l l' : wf_db db -> (forall u, u ∈ l -> u ∈ gv_refs (view_of db)) ->
  (forall u, u ∈ l <-> u ∈ l') -> StronglySorted Z.lt (map uid l) -> StronglySorted Z.lt (map uid l') -> l = l'.
Proof.
  intros Hwf Hl Hll Hs Hs'.
  assert (Hnd : forall l, StronglySorted Z.lt (map uid l) -> NoDup l).
  { intros k Hk. apply (NoDup_fmap_1 uid). change (fmap uid k) with (map uid k). revert Hk. generalize (map uid k). intros ids.
    induction 1 as [|x ids' Hk IH Hx]; constructor; [|done]. intros Hin. pose proof (Forall_elem Hx Hin). lia. }
  apply (StronglySorted_unique_strong (fun a b => (uid a < uid b)%Z)).
  - intros a b _ _ ? ?. lia.
  - by apply StronglySorted_map.
  - by apply StronglySorted_map.
  - by apply NoDup_Permutation; auto.
Qed.

Lemma stored_ref_id db u : u ∈ gv_refs (view_of db) -> ref_id u = Some (uid u).
Proof. intros (r & _ & Hu)%elem_of_parsed. destruct (ref_row_fields r u Hu) as (-> & -> & _). done. Qed.

Lemma union_ok db lanes : wf_db db -> (forall u, u ∈ concat lanes -> u ∈ gv_refs (view_of db)) ->
  returns (union_persisted_refs lanes)
    (fun us => (forall u, u ∈ us <-> u ∈ concat lanes) /\ StronglySorted Z.lt (map uid us)).
Proof.
  intros Hwf Hin. unfold union_persisted_refs. generalize dependent (concat lanes). clear lanes. intros l Hin.
  apply returns_bind. apply (returns_for_M _ (fun pre by_id => forall i u, by_id !! i = Some u <-> u ∈ pre /\ uid u = i)).
  - intros i u. rewrite lookup_empty. split; [done|]. by intros [?%not_elem_of_nil _].
  - intros pre u post by_id Hl Hinv. unfold union_step.
    assert (Hu : u ∈ gv_refs (view_of db)) by (apply Hin; rewrite Hl; set_solver).
    assert (Hpre : forall x, x ∈ pre -> x ∈ gv_refs (view_of db)) by (intros x Hx; apply Hin; rewrite Hl; set_solver).
    rewrite (stored_ref_id db u Hu). cbn. intros i x. rewrite elem_of_app, list_elem_of_singleton.
    destruct (by_id !! uid u) as [y|] eqn:Ey.
    + apply Hinv in Ey as [Hy Ey]. assert (y = u) as -> by (apply (refs_by_id db); auto). rewrite Hinv.
      split; [tauto|]. intros [[?| ->] ?]; auto.
    + destruct (decide (uid u = i)) as [<-|Hne].
      * rewrite lookup_insert_eq. split; [intros [= <-]; auto|]. intros [[Hx| ->] E]; [|done].
        assert (Hc : by_id !! uid u = Some x) by (by apply Hinv). congruence.
      * rewrite lookup_insert_ne, Hinv by done. split; [tauto|]. intros [[?| ->] ?]; [auto|done].
  - intros by_id Hinv. cbn. set (le := fun a b : Z * UnresolvedRef => Z.leb a.1 b.1).
    assert (Hfst : forall p, p ∈ sort_by le (map_to_list by_id) <-> p.2 ∈ l /\ uid p.2 = p.1).
    { intros [i u]. by rewrite elem_of_sort_by, elem_of_map_to_list, Hinv. }
    split.
    + intros u. rewrite elem_of_map. split.
      * intros (p & -> & [? _]%Hfst). done.
      * intros Hu. exists (uid u, u). split; [done|]. by apply Hfst.
    + rewrite map_map.
      assert (E : map (fun p : Z * UnresolvedRef => uid p.2) (sort_by le (map_to_list by_id)) = map fst (sort_by le (map_to_list by_id))).
      { apply map_ext_in. intros p Hp%list_elem_of_In. by apply Hfst in Hp as [_ ?]. }
      rewrite E. apply sort_by_key_strict, NoDup_fst_map_to_list.
Qed.

(** *** The scope *)

(** The rows a sync takes up again. *)
Definition in_scope (db : Db) (files : list string) (sites : list ReferenceSite) (names : list string) (r : RefRow) : Prop :=
  rr_file_path r ∈ files \/ (exists site, site ∈ sites /\ ref_at_site site r) \/ rr_reference_name r ∈ names
  \/ retried db names NAME_TAIL_RETRY_CEILING CASE_INSENSITIVE_LANGUAGES r.

Lemma retried_named db names ceiling folded r : retried db names ceiling folded r <->
  in_any_case names folded r = true \/ through_class names r = true
  \/ exists tail, tail ∈ names /\ (waits_for names r tail
       /\ length (filter (fun r' => waits_for names r' tail) (db_unresolved_refs db)) <= ceiling).
Proof.
  unfold retried. split; (intros [?|[?|(tail & Ht)]]; [by left|by right; left|right; right; exists tail; revert Ht]); [|tauto].
  intros Ht. split; [|done]. by destruct Ht as [(_ & ? & _) _].
Qed.

#[export] Instance named_in_dec {A} (P : A -> Prop) `{!forall x, Decision (P x)} (l : list A) : Decision (exists x, x ∈ l /\ P x).
Proof. apply list_exist_dec. apply _. Defined.

#[export] Instance retried_dec db names ceiling folded r : Decision (retried db names ceiling folded r).
Proof.
  destruct (decide (in_any_case names folded r = true \/ through_class names r = true
    \/ exists tail, tail ∈ names /\ (waits_for names r tail
         /\ length (filter (fun r' => waits_for names r' tail) (db_unresolved_refs db)) <= ceiling))) as [Hd|Hd].
  - left. by apply retried_named.
  - right. by rewrite retried_named.
Defined.

#[export] Instance in_scope_dec db files sites names r : Decision (in_scope db files sites names r).
Proof. unfold in_scope. apply _. Defined.

Definition scope_of (db : Db) (files : list string) (sites : list ReferenceSite) (names : list string) : list UnresolvedRef :=
  parsed row_to_unresolved_ref (sort_by row_before (filter (in_scope db files sites names) (db_unresolved_refs db))).

Lemma elem_of_scope db files sites names u : u ∈ scope_of db files sites names <->
  exists r, r ∈ db_unresolved_refs db /\ row_to_unresolved_ref r = Ok u /\ in_scope db files sites names r.
Proof.
  unfold scope_of. rewrite elem_of_parsed. setoid_rewrite elem_of_sort_by. setoid_rewrite list_elem_of_filter. naive_solver.
Qed.

Lemma scope_refs db files sites names u : u ∈ scope_of db files sites names -> u ∈ gv_refs (view_of db).
Proof. intros (r & Hr & Hu & _)%elem_of_scope. apply elem_of_parsed. eauto. Qed.

Lemma scoped_refs_ok db files sites names : wf_db db -> scoped_refs db files sites names = Ok (scope_of db files sites names).
Proof.
  intros Hwf. unfold scoped_refs. pose proof (by_files_ok db files Hwf) as Hf. pose proof (by_sites_ok db sites Hwf) as Hs.
  pose proof (db_unresolved_refs_by_names_ok db names Hwf) as Hn.
  pose proof (by_retry_ok db names NAME_TAIL_RETRY_CEILING CASE_INSENSITIVE_LANGUAGES Hwf) as Hr.
  destruct (unresolved_refs_by_files db files) as [fs| |]; cbn in Hf; [|done..].
  destruct (unresolved_refs_by_sites db sites) as [ss| |]; cbn in Hs; [|done..].
  destruct (db_unresolved_refs_by_names db names) as [ns| |]; cbn in Hn; [|done..].
  destruct (unresolved_refs_retried_by_names _ _ _ _) as [rs| |]; cbn in Hr; [|done..]. cbn [mbind result_bind].
  assert (Hall : forall u, u ∈ concat [fs; ss; ns; rs] <-> u ∈ scope_of db files sites names).
  { intros u. cbn [concat]. rewrite app_nil_r, !elem_of_app, Hf, Hs, Hn, Hr, elem_of_scope. unfold in_scope. cbn [view_of gv_refs]. rewrite elem_of_parsed. split.
    - intros [[(r & Hi & Hu) Hx]|[[(r & Hi & Hu) Hx]|[[(r & Hi & Hu) Hx]|(r & Hi & Hu & Hx)]]]; exists r; split_and!; try done.
      + left. by destruct (row_to_ref_fields r u Hu) as (_ & _ & _ & <-).
      + right; left. destruct Hx as (s & Hs' & Ha). exists s. split; [done|]. by apply (at_site_row r u s Hu).
      + right; right; left. by destruct (row_to_ref_fields r u Hu) as (<- & _).
      + by right; right; right.
    - intros (r & Hi & Hu & [Hx|[Hx|[Hx|Hx]]]).
      + left. split; [eauto|]. by destruct (row_to_ref_fields r u Hu) as (_ & _ & _ & ->).
      + right; left. split; [eauto|]. destruct Hx as (s & Hs' & Ha). exists s. split; [done|]. by apply (at_site_row r u s Hu).
      + right; right; left. split; [eauto|]. by destruct (row_to_ref_fields r u Hu) as (-> & _).
      + right; right; right. eauto. }
  assert (Hin : forall u, u ∈ concat [fs; ss; ns; rs] -> u ∈ gv_refs (view_of db)) by (intros u Hu%Hall; by eapply scope_refs).
  pose proof (union_ok db [fs; ss; ns; rs] Hwf Hin) as Hu. destruct (union_persisted_refs _) as [us| |]; cbn beta iota delta [returns] in Hu; [|done..].
  destruct Hu as [Hel Hsort]. f_equal. apply (refs_sorted_unique db); [done|by intros u Hx%Hel%Hin| |done|by apply sorted_refs].
  intros u. by rewrite Hel.
Qed.

(** ** A pass over some of the references, beside a pass over them alone *)

Definition only_refs (db : Db) (P : RefRow -> Prop) `{!forall r, Decision (P r)} : Db :=
  mkDb (db_nodes db) (db_edges db) (db_files db) (filter P (db_unresolved_refs db)) (db_resolved_refs db) (db_next_edge_id db) (db_next_ref_id db).

Section Beside.
Context `{U : !UnicodeTables} `{!Strategies} `{!StrategiesProper} `{!StrategiesLaws}.
Variables (db : Db) (P : RefRow -> Prop).
Context `{!forall r, Decision (P r)}.
Hypothesis Hwf : wf_db db.

Lemma only_wf : wf_db (only_refs db P).
Proof.
  destruct Hwf. assert (Hsub : filter P (db_unresolved_refs db) ++ db_resolved_refs db ⊆+ db_unresolved_refs db ++ db_resolved_refs db)
    by (apply submseteq_skips_r, filter_submseteq).
  split; cbn; try done; try (by eapply Forall_submseteq). by eapply NoDup_map_submseteq.
Qed.

(** One pass is over the whole of the table, the other over the rows of [P]
    alone; both have come as far. *)
Record beside (s s' : PassStore) : Prop := {
  bs_incomplete : ps_incomplete s = ps_incomplete s';
  bs_stands : exists es h, stands db es h (ps_db s) /\ stands (only_refs db P) es h (ps_db s')
    /\ forall r, r ∈ db_unresolved_refs db -> rr_id r ∈ h -> P r
}.

Lemma beside_start incomplete : beside (mkPassStore db incomplete) (mkPassStore (only_refs db P) incomplete).
Proof. split; [done|]. exists [], []. split_and!; [by apply stands_start|apply stands_start, only_wf|set_solver]. Qed.

(** What the passes read of the store. *)
Lemma beside_tables s s' : beside s s' ->
  db_nodes (ps_db s) = db_nodes (ps_db s') /\ db_files (ps_db s) = db_files (ps_db s') /\ db_edges (ps_db s) = db_edges (ps_db s')
  /\ wf_db (ps_db s) /\ wf_db (ps_db s').
Proof.
  intros [_ (es & h & Hst & Hst' & _)].
  destruct (edges_in_ext es db (only_refs db P)) as [Ee _]; [done..|]. split_and!.
  - by rewrite (st_nodes _ _ _ _ Hst), (st_nodes _ _ _ _ Hst').
  - by rewrite (st_files _ _ _ _ Hst), (st_files _ _ _ _ Hst').
  - by rewrite (st_edges _ _ _ _ Hst), (st_edges _ _ _ _ Hst').
  - apply (st_wf _ _ _ _ Hst).
  - apply (st_wf _ _ _ _ Hst').
Qed.

Lemma beside_context s s' : beside s s' -> context_eq (store_context (ps_db s)) (store_context (ps_db s')).
Proof. intros (En & Ef & Ee & Hw & Hw')%beside_tables. apply store_contexts_agree; try done. by apply inherits_rows. Qed.

Lemma beside_create_edges s s' rs : beside s s' -> create_edges rs (ps_db s) = create_edges rs (ps_db s').
Proof. intros (En & _)%beside_tables. unfold create_edges. by rewrite (create_edge_nodes _ _ En). Qed.

Lemma beside_member s s' r : beside s s' -> this_member_match (ps_db s) r = this_member_match (ps_db s') r.
Proof.
  intros Hb. destruct (beside_tables s s' Hb) as (En & _ & Ee & _). apply this_member_match_ext; [done|by apply beside_context|].
  intros id k _. by apply source_kind_rows.
Qed.

(** Two runs that commit alike, give the same, and end alike. *)
Definition together {A} (x y : list PassStore * result SqlError (A * PassStore)) : Prop :=
  Forall2 beside x.1 y.1
  /\ match x.2, y.2 with Ok (a, s), Ok (b, s') => a = b /\ beside s s' | _, _ => False end.

Lemma together_ret {A} (a : A) s s' : beside s s' -> together ((mret a : Pass A) s) ((mret a : Pass A) s').
Proof. intros Hb. split; [constructor|done]. Qed.

Lemma together_bind {A B} (m : Pass A) (f : A -> Pass B) s s' :
  together (m s) (m s') -> (forall a t t', beside t t' -> together (f a t) (f a t')) -> together ((m ≫= f) s) ((m ≫= f) s').
Proof.
  unfold together, mbind, pass_bind. intros [Hl Hr] Hf. destruct (m s) as [l [[a t]| |]], (m s') as [l' [[b t']| |]]; cbn in Hl, Hr; try done.
  destruct Hr as [<- Hb]. destruct (Hf a t t' Hb) as [Hl2 Hr2]. destruct (f a t) as [l2 r2], (f a t') as [l2' r2']. cbn in *.
  split; [by apply Forall2_app|done].
Qed.

Lemma together_reading {A} (f : Db -> A) s s' : beside s s' -> f (ps_db s) = f (ps_db s') ->
  together (reading (fun db => Ok (f db)) s) (reading (fun db => Ok (f db)) s').
Proof. intros Hb E. unfold reading. cbn. rewrite E. by split; [constructor|]. Qed.

Lemma together_insert edges s s' : beside s s' -> together (insert_some_edges edges s) (insert_some_edges edges s').
Proof.
  intros Hb. destruct (beside_tables s s' Hb) as (_ & _ & _ & Hw & Hw').
  assert (Hb' : beside (with_db s (edges_in (ps_db s) edges)) (with_db s' (edges_in (ps_db s') edges))).
  { destruct Hb as [Hm (es & h & Hst & Hst' & Hh)]. split; [done|]. exists (es ++ edges), h. cbn. split_and!; [by apply stands_insert..|done]. }
  rewrite (insert_some_edges_runs edges s Hw), (insert_some_edges_runs edges s' Hw'). split; [|done]. destruct edges; cbn [fst commit_unless]; [constructor|by constructor].
Qed.

Lemma together_delete ids s s' : beside s s' -> (forall r, r ∈ db_unresolved_refs db -> rr_id r ∈ ids -> P r) ->
  together (delete_rows ids s) (delete_rows ids s').
Proof.
  intros Hb Hids.
  assert (Hb' : beside (with_db s (delete_resolved_unresolved_refs (ps_db s) ids)) (with_db s' (delete_resolved_unresolved_refs (ps_db s') ids))).
  { destruct Hb as [Hm (es & h & Hst & Hst' & Hh)]. split; [done|]. exists es, (h ++ ids). cbn. split_and!; [by apply stands_delete..|].
    intros r Hr [?|?]%elem_of_app; auto. }
  rewrite (delete_rows_runs ids s), (delete_rows_runs ids s'). split; [|done]. destruct ids; cbn [fst commit_unless]; [constructor|by constructor].
Qed.

Lemma together_insert_resolved resolved s s' : beside s s' -> together (insert_resolved resolved s) (insert_resolved resolved s').
Proof.
  intros Hb. destruct resolved as [|res resolved]; [by apply together_ret|]. unfold insert_resolved.
  apply together_bind; [by apply together_reading, beside_create_edges|]. intros edges t t' Ht.
  apply together_bind; [by apply together_insert|]. intros _ u u' Hu. by apply together_ret.
Qed.

Lemma together_deferred self s s' : beside s s' -> together (deferred_passes self s) (deferred_passes self s').
Proof.
  intros Hb. unfold deferred_passes. apply together_bind.
  - unfold resolve_chained_calls_via_conformance, take_chain_refs. apply together_bind.
    + apply together_reading; [done|]. apply list_omap_ext, Forall_Forall2_diag, Forall_forall. intros r _.
      by apply chain_match_context, beside_context.
    + intros resolved t t' Ht. apply together_bind; [by apply together_insert_resolved|]. intros n u u' Hu. by apply together_ret.
  - intros chained t t' Ht. apply together_bind; [|intros members u u' Hu; by apply together_ret].
    unfold resolve_deferred_this_member_refs, take_this_member_refs. apply together_bind.
    + apply together_reading; [done|]. apply list_omap_ext, Forall_Forall2_diag, Forall_forall. intros r _. by apply beside_member.
    + intros resolved u u' Hu. apply together_bind; [by apply together_insert_resolved|]. intros n v v' Hv. by apply together_ret.
Qed.

(** References of the rows of [P]. *)
Definition among (l : list UnresolvedRef) : Prop := forall u, u ∈ l -> u ∈ gv_refs (view_of (only_refs db P)).

Lemma among_rows l r u : among l -> u ∈ l -> r ∈ db_unresolved_refs db -> ref_id u = Some (rr_id r) -> P r.
Proof.
  intros Hl Hu Hr Ei. apply Hl in Hu. cbn in Hu. apply elem_of_parsed in Hu as (r' & [HP Hr']%list_elem_of_filter & Hu').
  destruct (ref_row_fields r' u Hu') as (Ei' & _). rewrite Ei in Ei'. injection Ei' as Ei'.
  replace r with r'; [done|]. by apply (NoDup_map_inj rr_id (db_unresolved_refs db)); [apply wf_unresolved_ids|..].
Qed.

(** The rows of what was resolved are rows of what was asked for. *)
Lemma resolved_rows_asked context self batch i : i ∈ resolved_row_ids (rr_resolved (resolve_all context self batch).2) ->
  exists u, u ∈ batch /\ ref_id u = Some i.
Proof.
  assert (Hk : exists known self', rsv_known_names self' = Some known /\ resolve_all context self batch = resolve_all context self' batch).
  { destruct (rsv_known_names self) as [known|] eqn:E; [by exists known, self|].
    exists (known_node_names context), (warm_caches context self). split; [done|]. unfold resolve_all. by rewrite E. }
  destruct Hk as (known & self' & Hk & ->). rewrite (resolve_all_eq _ _ _ known Hk). cbn [snd resolution resolution_of rr_resolved co_resolved].
  unfold resolved_row_ids, resolved_of. rewrite list_elem_of_omap. intros (res & (u & Hu & Ho)%list_elem_of_omap & Hi).
  exists u. split; [done|]. unfold outcome in Ho. destruct (resolve_one_pure _ _ _) as [o d] eqn:E. cbn in Ho. subst o.
  apply resolved_same in E as (Er & _). by rewrite <- Hi, Er.
Qed.

Lemma together_read {A B} (f : Db -> A) (g : A -> Pass B) s s' : f (ps_db s) = f (ps_db s') ->
  together (g (f (ps_db s)) s) (g (f (ps_db s)) s') ->
  together ((reading (fun db => Ok (f db)) ≫= g) s) ((reading (fun db => Ok (f db)) ≫= g) s').
Proof. intros E. unfold mbind, pass_bind, reading. rewrite <- E. by destruct (g _ s), (g _ s'). Qed.

Lemma together_phase self phase s s' : beside s s' -> among phase -> together (resolve_phase self phase s) (resolve_phase self phase s').
Proof.
  intros Hb Hl. destruct (decide (phase = [])) as [->|Hne]; [by apply together_ret|]. rewrite !resolve_phase_some by done.
  apply together_read; [by apply resolve_all_proper, beside_context|].
  pose proof (resolved_rows_asked (store_context (ps_db s)) self phase) as Hrows.
  destruct (resolve_all (store_context (ps_db s)) self phase) as [self1 result]. cbn [snd] in Hrows.
  apply together_bind; [by apply together_reading, beside_create_edges|]. intros edges t t' Ht.
  apply together_bind; [by apply together_insert|]. intros _ u u' Hu.
  apply together_bind; [apply together_delete; [done|]|intros _ v v' Hv; by apply together_ret].
  intros r Hr (x & Hx & Ei)%Hrows. by eapply among_rows.
Qed.

Lemma together_phases phases : forall self result s s', beside s s' -> (forall phase, phase ∈ phases -> among phase) ->
  together (resolve_phases self result phases s) (resolve_phases self result phases s').
Proof.
  induction phases as [|phase phases IH]; intros self result s s' Hb Hl; [by apply together_ret|]. cbn [resolve_phases].
  apply together_bind; [apply together_phase; [done|]; apply Hl; set_solver|]. intros out t t' Ht. apply IH; [done|]. set_solver.
Qed.

(** What both passes do with the same references. *)
Definition pass_over (self : Resolver) (refs : list UnresolvedRef) : Pass (Resolver * ResolutionResult) :=
  out ← resolve_phases self empty_resolution (wiring_first refs);
  _ ← delete_internal_constructor_rows refs;
  self ← deferred_passes (out : Resolver * ResolutionResult).1;
  mret (self, out.2).

Lemma together_over self refs s s' : beside s s' -> among refs -> together (pass_over self refs s) (pass_over self refs s').
Proof.
  intros Hb Hl. unfold pass_over. apply together_bind.
  - apply together_phases; [done|]. unfold wiring_first. intros phase [->|[->|[]%not_elem_of_nil]%elem_of_cons]%elem_of_cons;
      intros u [_ Hu]%list_elem_of_filter; auto.
  - intros out t t' Ht. apply together_bind.
    + apply together_delete; [done|]. intros r Hr. rewrite elem_of_dedup, elem_of_sort_by. unfold constructor_row_ids.
      rewrite list_elem_of_omap. intros (u & Hu & Hi). destruct (is_constructor_name _); [|done]. by eapply among_rows.
    + intros _ u u' Hu. apply together_bind; [by apply together_deferred|]. intros rsv v v' Hv. by apply together_ret.
Qed.

End Beside.

(** What two databases have in common when a pass over the first took up the
    rows of [P] alone, and one over the second had no others. *)
Record alone_alike (P : RefRow -> Prop) `{!forall r, Decision (P r)} (start db alone : Db) : Prop := {
  aa_nodes : db_nodes db = db_nodes alone;
  aa_files : db_files db = db_files alone;
  aa_edges : db_edges db = db_edges alone;
  aa_unresolved : filter P (db_unresolved_refs db) = db_unresolved_refs alone;
  aa_others : filter (fun r => ~ P r) (db_unresolved_refs db) = filter (fun r => ~ P r) (db_unresolved_refs start);
  aa_resolved : db_resolved_refs db ≡ₚ db_resolved_refs alone
}.

Lemma beside_alike P `{!forall r, Decision (P r)} db s s' : beside db P s s' -> alone_alike P db (ps_db s) (ps_db s').
Proof.
  intros [_ (es & h & Hst & Hst' & Hh)]. destruct (edges_in_ext es db (only_refs db P)) as [Ee _]; [done..|]. split.
  - by rewrite (st_nodes _ _ _ _ Hst), (st_nodes _ _ _ _ Hst').
  - by rewrite (st_files _ _ _ _ Hst), (st_files _ _ _ _ Hst').
  - by rewrite (st_edges _ _ _ _ Hst), (st_edges _ _ _ _ Hst').
  - rewrite (st_unresolved _ _ _ _ Hst), (st_unresolved _ _ _ _ Hst'). cbn [only_refs db_unresolved_refs]. rewrite !list_filter_filter.
    apply list_filter_iff. intros r. tauto.
  - rewrite (st_unresolved _ _ _ _ Hst), list_filter_filter. apply filter_ext_in. intros r Hr. split; [tauto|].
    intros HP. split; [done|]. intros Hi. by apply HP, Hh.
  - rewrite (st_resolved _ _ _ _ Hst), (st_resolved _ _ _ _ Hst'). apply Permutation_app_head. cbn [only_refs db_unresolved_refs]. rewrite list_filter_filter.
    apply reflexive_eq, filter_ext_in. intros r Hr. split; [auto|tauto].
Qed.

Section Incremental.
Context `{U : !UnicodeTables} `{!Strategies} `{!StrategiesProper} `{!StrategiesLaws}.

Lemma reading_bind {A B} (f : Db -> result SqlError A) (g : A -> Pass B) s a : f (ps_db s) = Ok a -> (reading f ≫= g) s = g a s.
Proof. intros E. unfold mbind, pass_bind, reading. rewrite E. by destruct (g a s). Qed.

Lemma incremental_runs self files sites names db incomplete : wf_db db ->
  resolve_incremental_and_persist self files sites names (mkPassStore db incomplete)
  = pass_over self (scope_of db files sites names) (mkPassStore db incomplete).
Proof. intros Hwf. unfold resolve_incremental_and_persist. by erewrite reading_bind by by apply scoped_refs_ok. Qed.

Lemma full_runs self P `{!forall r, Decision (P r)} db incomplete : wf_db db ->
  scan_order "all_unresolved_refs" (filter P (db_unresolved_refs db)) = sort_by row_before (filter P (db_unresolved_refs db)) ->
  resolve_and_persist self (mkPassStore (only_refs db P) incomplete)
  = pass_over self (parsed row_to_unresolved_ref (sort_by row_before (filter P (db_unresolved_refs db)))) (mkPassStore (only_refs db P) incomplete).
Proof.
  intros Hwf Hscan. unfold resolve_and_persist. erewrite reading_bind; [done|].
  unfold db_all_unresolved_refs. cbn [only_refs db_unresolved_refs ps_db]. rewrite Hscan. by apply map_M_parsed, Forall_parses_sort.
Qed.

(** C11: the references that a sync takes up again are exactly those of the
    rows in its scope, each once, by id: a row is in scope if its file changed,
    or it is at a site that was put back, or its name is a changed one, or it is
    retried: written in any case in a language that folds names, or through a
    class of PHP, or waiting for a changed name with the tail of its own, where
    no more than 500 rows wait for that name. *)
Theorem scoped_refs_exact db files sites names :
  wf_db db ->
  scoped_refs db files sites names
  = Ok (parsed row_to_unresolved_ref (sort_by row_before (filter (in_scope db files sites names) (db_unresolved_refs db)))).
Proof. apply scoped_refs_ok. Qed.

(** C10: what a sync resolves is what a full pass would, were the references in
    its scope the only unresolved ones. Over a database in order whose
    references in scope are scanned in the order of their ids, the incremental
    pass over it and the full pass over it without the other unresolved
    references both return, with the same resolver and counts; and in every
    state they commit, the two have the same nodes, files and edges and the same
    references of the scope unresolved and moved, and the incremental pass has
    left every other reference as it was. *)
Theorem incremental_is_full_over_scope self files sites names db incomplete :
  wf_db db ->
  let P := in_scope db files sites names in
  scan_order "all_unresolved_refs" (filter P (db_unresolved_refs db)) = sort_by row_before (filter P (db_unresolved_refs db)) ->
  exists l l' a s s',
    runs (resolve_incremental_and_persist self files sites names) (mkPassStore db incomplete) l a s
    /\ runs (resolve_and_persist self) (mkPassStore (only_refs db P) incomplete) l' a s'
    /\ Forall2 (fun c c' => alone_alike P db (ps_db c) (ps_db c')) (l ++ [s]) (l' ++ [s']).
Proof.
  intros Hwf P Hscan. unfold runs. rewrite incremental_runs, (full_runs self P) by done. unfold scope_of. fold P.
  set (refs := parsed _ _).
  assert (Ht : together db P (pass_over self refs (mkPassStore db incomplete)) (pass_over self refs (mkPassStore (only_refs db P) incomplete))).
  { apply together_over; [done|by apply beside_start|]. intros u (r & Hr%elem_of_sort_by & Hu)%elem_of_parsed.
    apply elem_of_parsed. by exists r. }
  destruct (pass_over self refs _) as [l [[a s]| |]], (pass_over self refs _) as [l' [[a' s']| |]]; destruct Ht as [Hl Hr]; cbn in Hl, Hr; try done.
  destruct Hr as [<- Hb]. exists l, l', a, s, s'. split_and!; [done..|]. apply Forall2_app; [|by apply Forall2_cons; split; [apply beside_alike|]].
  eapply Forall2_impl; [exact Hl|]. intros c c'. apply beside_alike.
Qed.

End Incremental.
End Lanes.

(** ** At a project *)

(** A sync after which a file has other references, and one after which a
    site was put back and two names changed. *)
Definition changed_files : list string := ["src/b.rs"].
Definition changed_sites : list ReferenceSite := [mkSite "class:B" 22 4].
Definition changed_names : list string := ["stop"; "run"].

(** The call [B.run] is in the scope of the second, since it waits for [run]. *)
Example incremental_passes :
  pass_outcome (resolve_incremental_and_persist new_resolver changed_files [] [] (mkPassStore pass_db false))
  = Some (6, pass_edges, ["helper"; "log"; "B.run"])
  /\ pass_outcome (resolve_incremental_and_persist new_resolver [] changed_sites changed_names (mkPassStore pass_db false))
     = Some (5, pass_edges, ["helper"; "log"; "B.run"; "codegraph:cpp-constructor:X#1"]).
Proof. split; by vm_compute. Qed.

Lemma scoped_refs_exact_witness :
  wf_db pass_db
  /\ scoped_refs pass_db [] changed_sites changed_names
     = Ok (parsed row_to_unresolved_ref
             (sort_by row_before (filter (in_scope pass_db [] changed_sites changed_names) (db_unresolved_refs pass_db)))).
Proof. split; [exact pass_wf|]. apply scoped_refs_exact. exact pass_wf. Defined.

Lemma incremental_scanned :
  let P := in_scope pass_db [] changed_sites changed_names in
  scan_order "all_unresolved_refs" (filter P (db_unresolved_refs pass_db)) = sort_by row_before (filter P (db_unresolved_refs pass_db)).
Proof. by vm_compute. Qed.

Lemma incremental_is_full_over_scope_witness :
  let P := in_scope pass_db [] changed_sites changed_names in
  wf_db pass_db
  /\ exists l l' a s s',
       runs (resolve_incremental_and_persist new_resolver [] changed_sites changed_names) (mkPassStore pass_db false) l a s
       /\ runs (resolve_and_persist new_resolver) (mkPassStore (only_refs pass_db P) false) l' a s'
       /\ Forall2 (fun c c' => alone_alike P pass_db (ps_db c) (ps_db c')) (l ++ [s]) (l' ++ [s']).
Proof. split; [exact pass_wf|]. apply incremental_is_full_over_scope; [exact pass_wf|exact incremental_scanned]. Defined.
