(* ===== verification/RefreshProps.v ===== *)
(** * The refresh of dependents keeps every reference

    What is read of a dependent is what its replacement takes out, so the
    references of the store are the same after the refresh, and those of the
    refreshed sites and files wait to be resolved again. *)
From S2P Require Import Prelude Strings Types Rows Db DbRefs DbFacts GraphStore StoreView StoreProps Demo PathUtil StrOps LangDetect.
From S2P Require Import ResolvePass ResolveRuns ResolvePassProps ResolveIncremental ResolveIncrementalProps.

Section Refresh.
Context `{SqlScanLaws} `{!SerdeJson} `{!SerdeJsonLaws}.

(** Every reference of the store, unresolved or resolved, without its id. *)
Definition ref_rows (db : Db) : list RefRow := db_unresolved_refs db ++ db_resolved_refs db.
Definition all_refs (db : Db) : list UnresolvedRef := map without_id (parsed row_to_unresolved_ref (ref_rows db)).

(** As it is read back when it is written. *)
Definition normal (u : UnresolvedRef) : Prop := forall i, without_id (stored_ref i u) = u.

Lemma parsed_normal r u : row_to_unresolved_ref r = Ok u -> normal (without_id u).
Proof.
  unfold normal, without_id, stored_ref, row_to_unresolved_ref. intros Hu i. revert Hu.
  destruct (String.eqb _ _); [cbn [mbind result_bind]; by parse_inv|].
  destruct (parse_edge_kind _) as [k| |]; cbn [mbind result_bind]; [|done..]. by parse_inv.
Qed.

Lemma all_refs_normal db : Forall normal (all_refs db).
Proof.
  apply Forall_forall. unfold all_refs. intros x (u & -> & (r & _ & Hu)%elem_of_parsed)%elem_of_map. by eapply parsed_normal.
Qed.

Lemma map_filter_iff {A B} (f : A -> B) (P : A -> Prop) (Q : B -> Prop) `{!forall x, Decision (P x), !forall x, Decision (Q x)} l :
  (forall x, P x <-> Q (f x)) -> map f (filter P l) = filter Q (map f l).
Proof.
  intros HPQ. induction l as [|x l IH]; [done|]. cbn [map]. rewrite !filter_cons. specialize (HPQ x).
  destruct (decide (P x)), (decide (Q (f x))); try tauto; cbn; by rewrite IH.
Qed.

(** A condition on the rows that is one on the references. *)
Lemma all_refs_filter (P : RefRow -> Prop) (Q : UnresolvedRef -> Prop) `{!forall r, Decision (P r), !forall u, Decision (Q u)} rows :
  (forall r u, row_to_unresolved_ref r = Ok u -> P r <-> Q (without_id u)) ->
  map without_id (parsed row_to_unresolved_ref (filter P rows)) = filter Q (map without_id (parsed row_to_unresolved_ref rows)).
Proof.
  intros HPQ. rewrite (parsed_filter _ P (fun u => Q (without_id u))) by done. by apply map_filter_iff.
Qed.

Lemma without_stored i u : without_id (stored_ref i u) = without_id (stored_ref 0 u).
Proof. done. Qed.

(** What is inserted is added. *)
Lemma ref_rows_from_refs refs : forall next, Forall normal refs ->
  map without_id (parsed row_to_unresolved_ref (ref_rows_from next refs)) = refs.
Proof.
  induction refs as [|u refs IH]; intros next Hn; [done|]. cbn [ref_rows_from]. inversion Hn as [|? ? Hu Hn']; subst.
  rewrite parsed_cons, row_to_ref_to_row. cbn [map]. by rewrite Hu, IH.
Qed.

Lemma all_refs_appended db refs : Forall normal refs -> (forall u, u ∈ refs -> ref_from_node_id u ∈ node_ids db) ->
  all_refs (refs_appended db refs) ≡ₚ all_refs db ++ refs.
Proof.
  intros Hn Hin. unfold all_refs, ref_rows, refs_appended. cbn [db_unresolved_refs db_resolved_refs].
  rewrite (filter_all _ refs) by exact Hin. rewrite !parsed_app, !map_app, ref_rows_from_refs by done.
  rewrite <- !(assoc_L (++)). apply Permutation_app_head, Permutation_app_comm.
Qed.

(** *** What is read is what a replacement takes out *)

Lemma all_refs_nodes db u : wf_db db -> u ∈ all_refs db -> ref_from_node_id u ∈ node_ids db.
Proof.
  intros Hwf. unfold all_refs. intros (x & -> & (r & Hr & Hx)%elem_of_parsed)%elem_of_map. cbn.
  destruct (row_to_ref_fields r x Hx) as (_ & -> & _). exact (Forall_elem (wf_refs_fk _ Hwf) Hr).
Qed.

Definition at_sites (sites : list ReferenceSite) (u : UnresolvedRef) : Prop := exists site, site ∈ sites /\ at_site u site.

#[export] Instance at_sites_dec sites u : Decision (at_sites sites u).
Proof. unfold at_sites, at_site. apply _. Defined.

Lemma stored_refs_of_file_ok db f : wf_db db ->
  returns (stored_refs_of_file db f) (fun refs => refs ≡ₚ filter (fun u => ref_file_path u = f) (all_refs db)).
Proof.
  intros Hwf. unfold stored_refs_of_file. rewrite <- filter_app. fold (ref_rows db). set (rows := sort_by _ _).
  assert (Hp : rows ≡ₚ filter (fun r => rr_file_path r = f) (ref_rows db)) by (unfold rows; by rewrite sort_by_perm, scan_perm).
  rewrite map_M_parsed.
  - cbn. rewrite (parsed_perm _ _ _ Hp). apply reflexive_eq, all_refs_filter. intros r u Hu. cbn.
    by destruct (row_to_ref_fields r u Hu) as (_ & _ & _ & ->).
  - rewrite Hp. eapply Forall_submseteq; [apply filter_submseteq|apply (wf_refs_parse _ Hwf)].
Qed.

Lemma at_site_inj u s s' : at_site u s -> at_site u s' -> s = s'.
Proof. destruct s, s'. unfold at_site. cbn. intros (-> & -> & ->) (-> & -> & ->). done. Qed.

Lemma stored_refs_at_sites_ok db sites : wf_db db ->
  returns (stored_refs_at_sites db sites) (fun refs => refs ≡ₚ filter (at_sites sites) (all_refs db)).
Proof.
  intros Hwf. unfold stored_refs_at_sites. apply returns_bind.
  apply (returns_for_M _ (fun pre out => map without_id out ≡ₚ filter (at_sites pre) (all_refs db))).
  - cbn. rewrite filter_none; [done|]. intros u _ (s & Hs & _). by apply not_elem_of_nil in Hs.
  - intros pre site post out Hl Hout. rewrite <- filter_app. fold (ref_rows db). rewrite map_M_parsed.
    + cbn. rewrite map_app, Hout.
      rewrite (parsed_perm _ _ (filter (ref_at_site site) (ref_rows db)) (scan_perm _ _)).
      rewrite (all_refs_filter (ref_at_site site) (at_sites [site])).
      2:{ intros r u Hu. rewrite (at_site_row r u site Hu). unfold at_sites. split; [intros ?; exists site; set_solver|].
          by intros (s & ->%list_elem_of_singleton & ?). }
      fold (all_refs db). rewrite (Permutation_app_comm (filter (at_sites pre) _)).
      rewrite <- (filter_split (at_sites pre) (fun u => ~ at_sites pre u) (filter (at_sites (pre ++ [site])) (all_refs db))) by done.
      assert (Hnd : NoDup (pre ++ site :: post)).
      { rewrite <- Hl. unfold sorted_sites, unique_sites. rewrite sort_by_perm. apply NoDup_remove_dups. }
      rewrite !list_filter_filter. apply reflexive_eq. f_equal; apply list_filter_iff; intros u; unfold at_sites.
      * split; [|intros [Hn (s & [Hs| ->%list_elem_of_singleton]%elem_of_app & Ha)]; [by exfalso; eauto|exists site; set_solver]].
        intros (s & ->%list_elem_of_singleton & Ha). split; [|exists site; set_solver]. intros (s' & Hs' & Ha').
        apply NoDup_app in Hnd as (_ & Hnd & _). apply (Hnd s' Hs'). rewrite (at_site_inj _ _ _ Ha' Ha). set_solver.
      * split; [intros (s & Hs & Ha)|tauto]. split; [|exists s; set_solver]. eauto.
    + rewrite scan_perm. eapply Forall_submseteq; [apply filter_submseteq|apply (wf_refs_parse _ Hwf)].
  - intros out Hout. cbn. rewrite sort_by_perm, Hout. apply reflexive_eq, list_filter_iff. intros u. unfold at_sites.
    by setoid_rewrite elem_of_sorted_sites.
Qed.

(** *** One replacement *)

Lemma all_refs_file_cleared db f : all_refs (file_resolution_cleared db f) = filter (fun u => ref_file_path u <> f) (all_refs db).
Proof.
  unfold all_refs, ref_rows, file_resolution_cleared. cbn [with_refs db_unresolved_refs db_resolved_refs]. rewrite <- filter_app.
  apply all_refs_filter. intros r u Hu. cbn. by destruct (row_to_ref_fields r u Hu) as (_ & _ & _ & ->).
Qed.

Lemma all_refs_sites_cleared sites : forall db, all_refs (sites_resolution_cleared db sites) = filter (fun u => ~ at_sites sites u) (all_refs db).
Proof.
  induction sites as [|site sites IH]; intros db; cbn [sites_resolution_cleared fold_left].
  - symmetry. apply filter_all. intros u _ (s & Hs & _). by apply not_elem_of_nil in Hs.
  - unfold sites_resolution_cleared in IH. rewrite IH.
    replace (all_refs (site_resolution_cleared db site)) with (filter (fun u => ~ at_site u site) (all_refs db)).
    + rewrite list_filter_filter. apply list_filter_iff. intros u. unfold at_sites. split.
      * intros [Hn Hs] (s & [->|Hin]%elem_of_cons & Ha); eauto.
      * intros Hn. split; [intros (s & Hs & Ha); apply Hn; exists s; set_solver|intros Ha; apply Hn; exists site; set_solver].
    + unfold all_refs, ref_rows, site_resolution_cleared. cbn [with_refs db_unresolved_refs db_resolved_refs]. rewrite <- filter_app.
      symmetry. apply all_refs_filter. intros r u Hu. by rewrite (at_site_row r u site Hu).
Qed.

(** A replacement puts back what it takes out. *)
Definition puts_back (db : Db) (replacement : ResolutionReplacement) : Prop :=
  match replacement with
  | ReplaceFile f refs => refs ≡ₚ filter (fun u => ref_file_path u = f) (all_refs db)
  | ReplaceSites sites refs => sites <> [] /\ refs ≡ₚ filter (at_sites sites) (all_refs db)
  end.

Lemma puts_back_same db db' replacement : all_refs db' ≡ₚ all_refs db -> puts_back db replacement -> puts_back db' replacement.
Proof. destruct replacement as [f refs|sites refs]; cbn; intros ->; done. Qed.

(** The rows and edges a replacement takes out. *)
Definition replaces_ref (replacement : ResolutionReplacement) (r : RefRow) : Prop :=
  match replacement with
  | ReplaceFile f _ => rr_file_path r = f
  | ReplaceSites sites _ => exists site, site ∈ sites /\ ref_at_site site r
  end.
Definition replaces_edge (db : Db) (replacement : ResolutionReplacement) (e : EdgeRow) : Prop :=
  match replacement with
  | ReplaceFile f _ => resolution_edge_of_file db f e
  | ReplaceSites sites _ => exists site, site ∈ sites /\ edge_at_site site e
  end.

(** What is left of [db] once the replacements were made. *)
Record refreshed (db : Db) (rs : list ResolutionReplacement) (db' : Db) : Prop := {
  rd_wf : wf_db db';
  rd_nodes : db_nodes db' = db_nodes db;
  rd_files : db_files db' = db_files db;
  rd_refs : all_refs db' ≡ₚ all_refs db;
  rd_resolved : forall r, r ∈ db_resolved_refs db' <-> r ∈ db_resolved_refs db /\ forall replacement, replacement ∈ rs -> ~ replaces_ref replacement r;
  rd_edges : forall e, e ∈ db_edges db' <-> e ∈ db_edges db /\ forall replacement, replacement ∈ rs -> ~ replaces_edge db replacement e
}.

Lemma sites_cleared_tables sites : forall db, let db' := sites_resolution_cleared db sites in
  db_nodes db' = db_nodes db /\ db_files db' = db_files db
  /\ (forall r, r ∈ db_resolved_refs db' <-> r ∈ db_resolved_refs db /\ ~ exists site, site ∈ sites /\ ref_at_site site r)
  /\ (forall e, e ∈ db_edges db' <-> e ∈ db_edges db /\ ~ exists site, site ∈ sites /\ edge_at_site site e).
Proof.
  induction sites as [|site sites IH]; intros db; cbn [sites_resolution_cleared fold_left].
  - split_and!; [done..| |]; intros x; (split; [|tauto]); intros Hx; (split; [done|]); intros (s & Hs & _); by apply not_elem_of_nil in Hs.
  - destruct (IH (site_resolution_cleared db site)) as (En & Ef & Hr & He). unfold sites_resolution_cleared in *. rewrite En, Ef.
    split_and!; [done..| |]; intros x; rewrite ?Hr, ?He; cbn [site_resolution_cleared with_refs with_edges db_resolved_refs db_edges];
      rewrite list_elem_of_filter; setoid_rewrite elem_of_cons; naive_solver.
Qed.

(** A replacement takes out, and then inserts. *)
Definition cleared (db : Db) (replacement : ResolutionReplacement) : Db :=
  match replacement with
  | ReplaceFile f _ => file_resolution_cleared db f
  | ReplaceSites sites _ => sites_resolution_cleared db (unique_sites sites)
  end.
Definition refs_put (replacement : ResolutionReplacement) : list UnresolvedRef :=
  match replacement with ReplaceFile _ refs | ReplaceSites _ refs => refs end.

Lemma cleared_tables db replacement : wf_db db ->
  wf_db (cleared db replacement) /\ db_nodes (cleared db replacement) = db_nodes db /\ db_files (cleared db replacement) = db_files db
  /\ (forall r, r ∈ db_resolved_refs (cleared db replacement) <-> r ∈ db_resolved_refs db /\ ~ replaces_ref replacement r)
  /\ (forall e, e ∈ db_edges (cleared db replacement) <-> e ∈ db_edges db /\ ~ replaces_edge db replacement e).
Proof.
  intros Hwf. destruct replacement as [f fr|sites sr]; cbn [cleared replaces_ref replaces_edge].
  - split_and!; try done; [by apply file_resolution_cleared_wf| |]; intros x; cbn; rewrite list_elem_of_filter; tauto.
  - destruct (sites_cleared_tables (unique_sites sites) db) as (En & Ef & Hr & He).
    assert (Hu : forall s, s ∈ unique_sites sites <-> s ∈ sites) by (intros s; apply elem_of_remove_dups).
    split_and!; try done; [by apply sites_resolution_cleared_wf| |]; intros x; rewrite ?Hr, ?He; by setoid_rewrite Hu.
Qed.

Lemma cleared_refs db replacement : puts_back db replacement ->
  all_refs (cleared db replacement) ++ refs_put replacement ≡ₚ all_refs db
  /\ Forall normal (refs_put replacement) /\ (forall u, u ∈ refs_put replacement -> u ∈ all_refs db).
Proof.
  intros Hp. assert (Hf : exists P (_ : forall u, Decision (P u)), refs_put replacement ≡ₚ filter P (all_refs db)
    /\ all_refs (cleared db replacement) = filter (fun u => ~ P u) (all_refs db)).
  { destruct replacement as [f fr|sites sr]; cbn in Hp |- *.
    - exists (fun u => ref_file_path u = f), _. split; [exact Hp|apply all_refs_file_cleared].
    - exists (at_sites sites), _. split; [apply Hp|]. rewrite all_refs_sites_cleared. apply list_filter_iff. intros u.
      unfold at_sites, unique_sites. by setoid_rewrite elem_of_remove_dups. }
  destruct Hf as (P & HdecP & Hput & ->). split_and!.
  - rewrite Hput. by apply filter_split.
  - rewrite Hput. eapply Forall_submseteq; [apply filter_submseteq|apply all_refs_normal].
  - intros u. rewrite Hput. by intros [_ ?]%list_elem_of_filter.
Qed.

Lemma replacement_done db rs db1 replacement : wf_db db -> refreshed db rs db1 -> puts_back db replacement ->
  refreshed db (rs ++ [replacement]) (refs_appended (cleared db1 replacement) (refs_put replacement)).
Proof.
  intros Hwf [Hwf1 En Ef Hrefs Hres Hed] Hp.
  destruct (cleared_tables db1 replacement Hwf1) as (Hwfc & Enc & Efc & Hresc & Hedc).
  destruct (cleared_refs db1 replacement) as (Hallc & Hnorm & Hin); [by eapply puts_back_same|].
  split; cbn [refs_appended db_nodes db_files db_resolved_refs db_edges].
  - by apply refs_appended_wf.
  - by rewrite Enc.
  - by rewrite Efc.
  - rewrite all_refs_appended; [by rewrite Hallc|done|]. intros u Hu%Hin. unfold node_ids. rewrite Enc. by apply all_refs_nodes.
  - intros r. rewrite Hresc, Hres. setoid_rewrite elem_of_app. setoid_rewrite list_elem_of_singleton. naive_solver.
  - intros e. rewrite Hedc, Hed. setoid_rewrite elem_of_app. setoid_rewrite list_elem_of_singleton.
    assert (E : replaces_edge db1 replacement e <-> replaces_edge db replacement e).
    { destruct replacement; cbn; [|done]. unfold resolution_edge_of_file. by rewrite En. }
    rewrite E. naive_solver.
Qed.

Lemma replacements_done db rs : wf_db db -> Forall (puts_back db) rs ->
  returns (replace_resolution_states db rs) (fun db' => refreshed db rs db').
Proof.
  intros Hwf Hrs. assert (Hstart : refreshed db [] db).
  { split; try done; intros x; (split; [|tauto]); intros Hx; (split; [done|]); intros ? []%not_elem_of_nil. }
  unfold replace_resolution_states. destruct rs as [|r0 rs0] eqn:Ers; [done|]. rewrite <- Ers in *. clear r0 rs0 Ers.
  apply (returns_for_M _ (fun pre db' => refreshed db pre db')); [done| |done].
  intros pre replacement post db1 Hl Hd. assert (Hp : puts_back db replacement) by (apply (Forall_elem Hrs); rewrite Hl; set_solver).
  pose proof (replacement_done db pre db1 replacement Hwf Hd Hp) as Hdone. destruct replacement as [f refs|sites refs]; cbn [cleared refs_put] in Hdone.
  - by rewrite replace_file_resolution_in_eq.
  - apply returns_bind. eapply returns_mono; [apply replace_site_resolution_in_eq|]. intros [db' n] E. cbn.
    destruct Hp as [Hne _]. assert (Hu : unique_sites sites <> []).
    { destruct sites as [|s sites]; [done|]. intros Hu. assert (Hs : s ∈ unique_sites (s :: sites)) by (apply elem_of_remove_dups; set_solver).
      rewrite Hu in Hs. set_solver. }
    destruct (unique_sites sites); [done|]. by rewrite E.
Qed.

(** *** The plan *)

(** References that start at one node are in one file. *)
Definition from_one_file (db : Db) : Prop :=
  forall u u', u ∈ all_refs db -> u' ∈ all_refs db -> ref_from_node_id u = ref_from_node_id u' -> ref_file_path u = ref_file_path u'.

Section Plan.
Variables (env : RefreshEnv) (db : Db).
Variables (dependent_sites : gmap string (list ReferenceSite)) (fallback_files : gset string)
  (receiver_names : gmap string (list string)) (already_reindexed : gset string).
Hypothesis Hwf : wf_db db.
Hypothesis Hone : from_one_file db.

#[local] Notation dependent_refs := (dependent_refs env db dependent_sites fallback_files receiver_names true).
#[local] Notation site_set := (site_set dependent_sites receiver_names).

(** What the plan holds after a dependent. *)
Record planned (pre : list string) (rf : Refreshed) : Prop := {
  pl_back : Forall (puts_back db) (rf_replacements rf);
  pl_files : forall f, f ∈ rf_files rf <-> exists refs, ReplaceFile f refs ∈ rf_replacements rf;
  pl_sites : forall s, s ∈ rf_sites rf <-> exists sites refs, ReplaceSites sites refs ∈ rf_replacements rf /\ s ∈ sites;
  pl_all : forall f sites s, f ∈ pre -> dependent_sites !! f = Some sites -> s ∈ sites -> f ∈ rf_files rf \/ s ∈ rf_sites rf;
  pl_fallback : forall f, f ∈ pre -> f ∈ fallback_files -> f ∈ rf_files rf
}.

(** What is read of a dependent: all its references, or all at its sites. *)
Lemma dependent_refs_ok relative : re_reads_other_files env relative = false ->
  returns (dependent_refs relative) (fun read =>
    if read.2 : bool
    then receiver_names !! relative = None
         /\ exists sites, dependent_sites !! relative = Some sites /\ read.1 ≡ₚ filter (at_sites sites) (all_refs db)
    else read.1 ≡ₚ filter (fun u => ref_file_path u = relative) (all_refs db)).
Proof.
  intros Hother. unfold ResolveIncremental.dependent_refs, from_store. rewrite Hother. cbn [negb andb].
  destruct (negb (bool_decide (relative ∈ fallback_files)) && bool_decide (receiver_names !! relative = None)) eqn:Es.
  - apply andb_true_iff in Es as [_ Es%bool_decide_eq_true]. destruct (dependent_sites !! relative) as [sites|] eqn:Ed.
    + returns_step stored_refs_at_sites_ok; [done|]. intros refs Hrefs. cbn. eauto.
    + returns_step stored_refs_of_file_ok; [done|]. intros refs Hrefs. done.
  - returns_step stored_refs_of_file_ok; [done|]. intros refs Hrefs. done.
Qed.

Lemma elem_of_site_set relative refs s : s ∈ site_set relative refs <->
  (exists sites, dependent_sites !! relative = Some sites /\ s ∈ sites)
  \/ exists names u, receiver_names !! relative = Some names /\ u ∈ refs /\ is_written_through (ref_reference_name u) names = true /\ at_site u s.
Proof.
  unfold ResolveIncremental.site_set. rewrite elem_of_sorted_sites, elem_of_app. f_equiv.
  - destruct (dependent_sites !! relative) as [sites|]; cbn [default].
    + split; [intros Hs; by exists sites|]. by intros (? & [= <-] & Hs).
    + split; [by intros ?%not_elem_of_nil|]. by intros (? & ? & _).
  - destruct (receiver_names !! relative) as [names|]; [|split; [by intros ?%not_elem_of_nil|]; by intros (? & ? & ? & _)].
    rewrite elem_of_map. setoid_rewrite list_elem_of_filter. split.
    + intros (u & -> & Hw & Hu). exists names, u. by split_and!.
    + intros (names' & u & [= <-] & Hu & Hw & (E1 & E2 & E3)). exists u. split; [|done]. destruct s. cbn in *. by subst.
Qed.

Lemma matches_site r s : reference_matches_site r s = true <-> at_site r s.
Proof. unfold reference_matches_site, at_site. rewrite !andb_true_iff, String.eqb_eq, !Z.eqb_eq. tauto. Qed.

Lemma matches_some_of refs s : matches_some refs s = true <-> exists u, u ∈ refs /\ at_site u s.
Proof. unfold matches_some. rewrite existsb_exists. setoid_rewrite <- list_elem_of_In. by setoid_rewrite matches_site. Qed.

(** A dependent that needs no fallback has a reference at each of its sites. *)
Lemma no_fallback relative refs : needs_fallback dependent_sites fallback_files relative refs = false ->
  relative ∉ fallback_files
  /\ forall sites s, dependent_sites !! relative = Some sites -> s ∈ sites -> exists u, u ∈ refs /\ at_site u s.
Proof.
  unfold needs_fallback. intros [Hf Hs]%orb_false_iff. apply bool_decide_eq_false in Hf. split; [done|].
  intros sites s Es Hin. rewrite Es in Hs. apply matches_some_of. destruct (matches_some refs s) eqn:Em; [done|].
  rewrite <- not_true_iff_false, existsb_exists in Hs. exfalso. apply Hs. exists s. rewrite <- list_elem_of_In, Em. done.
Qed.

(** The references at the sites of a dependent are those selected. *)
Lemma selected_ok relative refs sites (scoped : bool) :
  (if scoped
   then receiver_names !! relative = None
        /\ exists ds, dependent_sites !! relative = Some ds /\ refs ≡ₚ filter (at_sites ds) (all_refs db)
   else refs ≡ₚ filter (fun u => ref_file_path u = relative) (all_refs db)) ->
  needs_fallback dependent_sites fallback_files relative refs = false -> sites = site_set relative refs ->
  filter (fun r => existsb (reference_matches_site r) sites = true) refs ≡ₚ filter (at_sites sites) (all_refs db).
Proof.
  intros Hread [_ Hsome]%no_fallback Es.
  assert (Hiff : forall r, existsb (reference_matches_site r) sites = true <-> at_sites sites r).
  { intros r. rewrite existsb_exists. unfold at_sites. setoid_rewrite <- list_elem_of_In. by setoid_rewrite matches_site. }
  rewrite (list_filter_iff _ (at_sites sites)) by exact Hiff. clear Hiff.
  assert (Hin : forall u, u ∈ all_refs db -> at_sites sites u -> u ∈ refs).
  { intros u Hu (s & Hs & Ha). rewrite Es in Hs. apply elem_of_site_set in Hs. destruct scoped.
    - destruct Hread as (En & ds & Eds & ->). destruct Hs as [(ds' & Eds' & Hs)|(names & _ & En' & _)]; [|congruence].
      rewrite Eds in Eds'. injection Eds' as <-. apply list_elem_of_filter. split; [by exists s|done].
    - assert (Hu' : exists u', u' ∈ refs /\ at_site u' s) by (destruct Hs as [(ds & Eds & Hs)|(names & u' & _ & Hu' & _ & Ha')]; [by eapply Hsome|eauto]).
      destruct Hu' as (u' & Hu' & Ha'). rewrite Hread in Hu' |- *. apply list_elem_of_filter in Hu' as [Ef Hu'].
      apply list_elem_of_filter. split; [|done]. rewrite <- Ef. apply Hone; [done..|]. destruct Ha as (-> & _), Ha' as (-> & _). done. }
  destruct scoped; [destruct Hread as (_ & ds & Eds & Hread)|]; rewrite Hread at 1; rewrite list_filter_filter;
    apply reflexive_eq, filter_ext_in; intros u Hu; (split; [tauto|]); intros Hs; (split; [done|]); specialize (Hin u Hu Hs);
    rewrite Hread in Hin; by apply list_elem_of_filter in Hin as [? _].
Qed.

Lemma planned_keep pre rf relative : planned pre rf ->
  (forall sites s, dependent_sites !! relative = Some sites -> s ∈ sites -> relative ∈ rf_files rf \/ s ∈ rf_sites rf) ->
  (relative ∈ fallback_files -> relative ∈ rf_files rf) -> planned (pre ++ [relative]) rf.
Proof.
  intros [Hb Hf Hs Ha Hfb] Hnew Hfbnew. split; try done.
  - intros f sites s [Hin| ->%list_elem_of_singleton]%elem_of_app; eauto.
  - intros f [Hin| ->%list_elem_of_singleton]%elem_of_app; eauto.
Qed.

Definition sites_after (rf : Refreshed) (replacement : ResolutionReplacement) : list ReferenceSite :=
  match replacement with ReplaceSites sites _ => unique_sites (rf_sites rf ++ sites) | ReplaceFile _ _ => rf_sites rf end.
Definition files_after (rf : Refreshed) (replacement : ResolutionReplacement) : gset string :=
  match replacement with ReplaceFile f _ => {[f]} ∪ rf_files rf | ReplaceSites _ _ => rf_files rf end.

Lemma planned_add pre rf replacement : planned pre rf -> puts_back db replacement ->
  planned pre (mkRefreshed (rf_replacements rf ++ [replacement]) (sites_after rf replacement) (files_after rf replacement)).
Proof.
  intros [Hb Hf Hs Ha Hfb] Hp. set (files := files_after rf replacement). set (sites := sites_after rf replacement).
  assert (Hfsub : rf_files rf ⊆ files) by (destruct replacement; set_solver).
  assert (Hssub : forall s, s ∈ rf_sites rf -> s ∈ sites).
  { intros s Hin. destruct replacement; [done|]. apply elem_of_remove_dups, elem_of_app. by left. }
  split; cbn [rf_replacements rf_sites rf_files].
  - apply Forall_app. split; [done|by constructor].
  - intros f. setoid_rewrite elem_of_app. setoid_rewrite list_elem_of_singleton. destruct replacement as [f0 fr|s0 sr]; subst files; cbn.
    + rewrite elem_of_union, elem_of_singleton, Hf. split.
      * intros [->|[refs Hr]]; [by exists fr; right|by exists refs; left].
      * intros [refs [Hr|[= -> ->]]]; [right; by exists refs|by left].
    + rewrite Hf. split; intros [refs Hr]; exists refs; [by left|by destruct Hr].
  - intros s. setoid_rewrite elem_of_app. setoid_rewrite list_elem_of_singleton. destruct replacement as [f0 fr|s0 sr]; subst sites; cbn.
    + rewrite Hs. split; intros (ss & refs & Hr & Hin); exists ss, refs; (split; [|done]); [by left|by destruct Hr].
    + unfold unique_sites. rewrite elem_of_remove_dups, elem_of_app, Hs. split.
      * intros [(ss & refs & Hr & Hin)|Hin]; [exists ss, refs; auto|exists s0, sr; auto].
      * intros (ss & refs & [Hr|[= -> ->]] & Hin); [left; by exists ss, refs|by right].
  - intros f ds s Hin Hd Hs'. destruct (Ha f ds s Hin Hd Hs') as [?|?]; [left; set_solver|right; auto].
  - intros f Hin Hd. apply Hfsub. auto.
Qed.

Lemma refresh_one_ok pre rf relative : re_reads_other_files env relative = false -> planned pre rf ->
  returns (refresh_one env db dependent_sites fallback_files receiver_names true relative rf) (planned (pre ++ [relative])).
Proof.
  intros Hother Hpl. unfold refresh_one. returns_step dependent_refs_ok; [done|]. intros [refs scoped] Hread. cbn [fst snd] in Hread.
  destruct (needs_fallback dependent_sites fallback_files relative refs) eqn:Ef.
  - assert (Hall : returns (if scoped then stored_refs_of_file db relative else Ok refs)
      (fun refs => puts_back db (ReplaceFile relative refs))).
    { destruct scoped; [by apply stored_refs_of_file_ok|done]. }
    apply returns_bind. eapply returns_mono; [exact Hall|]. intros refs' Hp. cbn. apply planned_keep; [|intros; left; cbn; set_solver|cbn; set_solver].
    exact (planned_add pre rf (ReplaceFile relative refs') Hpl Hp).
  - pose proof (selected_ok relative refs _ scoped Hread Ef eq_refl) as Hsel. destruct (no_fallback _ _ Ef) as [Hnf _].
    destruct (site_set relative refs) as [|s0 ss] eqn:Es.
    + cbn. apply planned_keep; [done| |done]. intros ds s Hd Hs. exfalso. apply (not_elem_of_nil s). rewrite <- Es.
      apply elem_of_site_set. left. eauto.
    + rewrite <- Es in *. cbn beta iota. apply planned_keep; [| |done].
      * apply (planned_add pre rf (ReplaceSites (site_set relative refs) _) Hpl). split; [by rewrite Es|exact Hsel].
      * intros ds s Hd Hs. right. cbn. apply elem_of_remove_dups, elem_of_app. right. apply elem_of_site_set. left. eauto.
Qed.

Lemma refresh_plan_ok : (forall f, f ∈ dependents env dependent_sites fallback_files receiver_names already_reindexed -> re_reads_other_files env f = false) ->
  returns (refresh_plan env db dependent_sites fallback_files receiver_names already_reindexed true)
    (planned (dependents env dependent_sites fallback_files receiver_names already_reindexed)).
Proof.
  intros Hother. unfold refresh_plan. apply (returns_for_M _ planned); [|intros pre relative post rf Hl Hpl|done].
  - split; cbn [rf_replacements rf_files rf_sites].
    + constructor.
    + intros f. split; [set_solver|]. by intros [? []%not_elem_of_nil].
    + intros s. split; [by intros ?%not_elem_of_nil|]. by intros (? & ? & []%not_elem_of_nil & _).
    + intros f ds s Hf. by apply not_elem_of_nil in Hf.
    + intros f Hf. by apply not_elem_of_nil in Hf.
  - apply returns_bind. eapply returns_mono; [apply refresh_one_ok; [|exact Hpl]|done]. apply Hother. rewrite Hl. set_solver.
Qed.

End Plan.

(** C12: putting the references of unchanged dependents back loses none and makes
    none twice. In a database in order, where references that start at one node
    are in one file, the refresh from the store returns; the nodes, the files and
    the references, whether unresolved or resolved, are those there were (with
    other ids); of the resolved ones only those stay that are in none of the
    files and at none of the sites it names, and of the edges those that are none
    of their resolutions; and it names every dependent file that goes whole and,
    of every other dependent, each captured site or the file. *)
Theorem refresh_keeps_references env db dependent_sites fallback_files receiver_names already_reindexed :
  wf_db db -> from_one_file db ->
  (forall f, f ∈ dependents env dependent_sites fallback_files receiver_names already_reindexed -> re_reads_other_files env f = false) ->
  exists db' sites files,
    refresh_dependent_refs env db dependent_sites fallback_files receiver_names already_reindexed true = Ok (db', sites, files)
    /\ wf_db db' /\ db_nodes db' = db_nodes db /\ db_files db' = db_files db
    /\ all_refs db' ≡ₚ all_refs db
    /\ (forall r, r ∈ db_resolved_refs db' <-> r ∈ db_resolved_refs db /\ rr_file_path r ∉ files /\ forall site, site ∈ sites -> ~ ref_at_site site r)
    /\ (forall e, e ∈ db_edges db' <-> e ∈ db_edges db /\ (forall f, f ∈ files -> ~ resolution_edge_of_file db f e)
          /\ forall site, site ∈ sites -> ~ edge_at_site site e)
    /\ forall f, f ∈ dependents env dependent_sites fallback_files receiver_names already_reindexed ->
         (f ∈ fallback_files -> f ∈ files)
         /\ forall ds site, dependent_sites !! f = Some ds -> site ∈ ds -> f ∈ files \/ site ∈ sites.
Proof.
  intros Hwf Hone Hother. unfold refresh_dependent_refs.
  pose proof (refresh_plan_ok env db dependent_sites fallback_files receiver_names already_reindexed Hwf Hone Hother) as Hp.
  destruct (refresh_plan _ _ _ _ _ _ _) as [rf| |]; [|done..]. cbn [returns mbind result_bind] in Hp |- *. destruct Hp as [Hb Hf Hs Ha Hfb].
  pose proof (replacements_done db _ Hwf Hb) as Hd. destruct (replace_resolution_states db _) as [db'| |]; [|done..]. cbn [returns mbind result_bind] in Hd |- *.
  destruct Hd as [Hwf' En Ef Hrefs Hres Hed]. exists db', (rf_sites rf), (rf_files rf). split_and!; try done; [| |by eauto].
  - intros r. rewrite Hres. f_equiv. split.
    + intros Hn. split; [intros [refs Hr]%Hf; by apply (Hn _ Hr)|]. intros s (ss & refs & Hr & Hin)%Hs Hat. apply (Hn _ Hr). by exists s.
    + intros [H1' H2'] [f refs|ss refs] Hr Hrep; cbn in Hrep; [apply H1', Hf; rewrite Hrep; eauto|].
      destruct Hrep as (s & Hin & Hat). apply (H2' s); [apply Hs; eauto|done].
  - intros e. rewrite Hed. f_equiv. split.
    + intros Hn. split; [intros f [refs Hr]%Hf; by apply (Hn _ Hr)|]. intros s (ss & refs & Hr & Hin)%Hs Hat. apply (Hn _ Hr). by exists s.
    + intros [H1' H2'] [f refs|ss refs] Hr Hrep; cbn in Hrep; [apply (H1' f); [apply Hf; eauto|done]|].
      destruct Hrep as (s & Hin & Hat). apply (H2' s); [apply Hs; eauto|done].
Qed.

End Refresh.

(** ** At a project *)

(** The project of the passes with three of its references resolved. *)
Definition resolved_db : Db := delete_resolved_unresolved_refs pass_db [3; 4; 5]%Z.

Definition some_env : RefreshEnv := mkRefreshEnv (fun _ => true) (fun _ => false) (fun _ => Ok []).
Definition some_sites : gmap string (list ReferenceSite) :=
  {["src/a.rs" := [mkSite "method:run" 99 0]; "src/b.rs" := [mkSite "class:B" 22 4]]}.
Definition some_receivers : gmap string (list string) := {["src/b.rs" := ["B"]]}.

Definition refresh_outcome (x : result SqlError (Db * list ReferenceSite * gset string))
    : option (list (Z * string) * list (Z * string) * list (string * Z) * list string) :=
  match x with
  | Ok (db, sites, files) =>
      let rows := map (fun r => (rr_id r, rr_reference_name r)) in
      Some (rows (db_unresolved_refs db), rows (db_resolved_refs db), map (fun s => (site_from_node_id s, site_line s)) sites, elements files)
  | _ => None
  end.

(** A captured site that has no reference takes its whole file with it; of the
    other dependent the call through [B] and the supertype are put back, and
    [stop] stays resolved. *)
Example refresh_runs :
  refresh_outcome (refresh_dependent_refs some_env resolved_db some_sites ∅ some_receivers ∅ true)
  = Some ([(1, "helper"); (6, "codegraph:cpp-constructor:X#1"); (7, "log"); (8, "B.run"); (9, "A")]%Z, [(4, "stop")]%Z,
          [("class:B", 22); ("function:main", 20)]%Z, ["src/a.rs"]).
Proof. by vm_compute. Qed.

Lemma resolved_wf : wf_db resolved_db.
Proof. exact (store_step_wf _ _ (step_delete_resolved _ _) pass_wf). Qed.

Lemma resolved_one_file : from_one_file resolved_db.
Proof.
  assert (Hall : Forall (fun u => Forall (fun u' => ref_from_node_id u = ref_from_node_id u' -> ref_file_path u = ref_file_path u')
    (all_refs resolved_db)) (all_refs resolved_db)) by (refine (bool_decide_unpack _ _); by vm_compute).
  intros u u' Hu Hu'. exact (Forall_elem (Forall_elem Hall Hu) Hu').
Qed.

Lemma refresh_keeps_references_witness :
  from_one_file resolved_db
  /\ exists db' sites files,
       refresh_dependent_refs some_env resolved_db some_sites ∅ some_receivers ∅ true = Ok (db', sites, files)
       /\ wf_db db' /\ db_nodes db' = db_nodes resolved_db /\ db_files db' = db_files resolved_db
       /\ all_refs db' ≡ₚ all_refs resolved_db
       /\ (forall r, r ∈ db_resolved_refs db' <-> r ∈ db_resolved_refs resolved_db /\ rr_file_path r ∉ files
             /\ forall site, site ∈ sites -> ~ ref_at_site site r)
       /\ (forall e, e ∈ db_edges db' <-> e ∈ db_edges resolved_db /\ (forall f, f ∈ files -> ~ resolution_edge_of_file resolved_db f e)
             /\ forall site, site ∈ sites -> ~ edge_at_site site e)
       /\ forall f, f ∈ dependents some_env some_sites ∅ some_receivers ∅ ->
            (f ∈ (∅ : gset string) -> f ∈ files)
            /\ forall ds site, some_sites !! f = Some ds -> site ∈ ds -> f ∈ files \/ site ∈ sites.
Proof.
  split; [exact resolved_one_file|]. apply refresh_keeps_references; [exact resolved_wf|exact resolved_one_file|done].
Defined.
